(* ===== verification/_CoqProject ===== *)
-Q . S2P
Prelude.v
Layout.v
Machine.v
ListBuf.v
HashMap.v
Text.v
Keys.v
Bytes.v
Reader.v
Writer.v
Sharable.v
Path.v
Lexer.v
Ast.v
Parser.v
ParserTotal.v
ParserScope.v
ParserGrammar.v
Types.v
TypeLayout.v
TypeAccess.v
TypeSafety.v
Operators.v
OperatorAgreement.v
Exact.v
Time.v
TimeText.v
Collector.v
CollectorGraph.v
CollectorMark.v
CollectorScan.v
CollectorCycles.v
CollectorFind.v
CollectorFree.v
CollectorRound.v
CollectorCount.v
CollectorProgram.v
CollectorSafety.v
Queue.v
QueueRing.v
QueueEpochs.v
QueueVisit.v
QueueSafety.v
QueueCounts.v
QueueProgress.v
Heap.v
HeapLists.v
HeapInvariant.v
HeapMoves.v
HeapProgram.v
HeapSafety.v
Flow.v
FlowGraph.v
FlowAnalysis.v
Emit.v
EmitSafety.v
EmitNodes.v
EmitControl.v
EmitOperators.v
EmitTree.v
EmitExamples.v
Interp.v
InterpCode.v
InterpState.v
InterpObjects.v
InterpCalls.v
InterpStep.v
InterpFrame.v
InterpOperators.v
InterpExecute.v
InterpLoop.v
InterpSafety.v
InterpCheck.v
InterpExamples.v
EmitRegions.v
EmitLambda.v
EmitRegular.v
EmitJumps.v
EmitVerified.v
EmitProgram.v
