(* ===== verification/Prelude.v ===== *)
(** * xemmai: a verification library for the xemmai interpreter

    xemmai is an interpreter for a dynamically typed language with classes,
    written in C++ (src/include/xemmai and src/src).  A script is read by the
    lexer and the parser into a syntax tree, compiled to instructions, and run
    by threads that share one heap.  Objects are reference counted: threads
    push increments and decrements to queues, and the thread of a collector
    applies them, frees objects, and searches for cycles.  This library models
    these parts as executable definitions and proves them correct.

    ** Conventions

    - A C++ function is a Rocq function of the same name.  It returns an
      [outcome] (this file): [Ok], [Throw] for an exception, or [Fault] for
      what leaves the defined behaviour of C++ - an access outside of an array
      or to a freed object, a failing assertion - and for the end of the fuel
      of a model.  Theorems that a call is [Ok] or [Throw] are results of memory
      safety and termination.
    - A pointer into an array is the offset into a list (this file: [rd],
      [wr]); [size_t] and [intptr_t] are integers of 64 bits with the
      wrap-around written out, [double] is the binary64 format of the Standard
      Library's specification of floating point (Machine.v).
    - Third-party code is a parameter: the locale's character classes,
      [std::from_chars], [std::sort], [std::hash], and the equality and hash of
      the keys of a map, which Keys.v puts in; the result of [getcwd]; and
      [iconv] and the callables of readers and writers, by the interfaces
      [Encoding], [Source] and [Sink] of Reader.v and Writer.v.

    ** Parts

    - Layout.v, Machine.v: the sizes of objects (object.h) and the machine's
      numbers.
    - ListBuf.v: [t_list] (list.h, list.cc), a double-ended queue in a circular
      buffer.  [contents] is the abstract sequence, [wf] the invariant of the
      buffer; every method refines its operation on sequences, and a trace of
      calls gives the results and exceptions of the sequence.
    - HashMap.v: [t_map] (map.h, map.cc), an open-addressing table with Robin
      Hood probing.  A trace of calls gives what an association list gives;
      growth, shrinking and removal by shifting are characterized exactly.
    - Text.v: strings, their order and parts, and [t_stringer], which builds
      them (string.h, string.cc).  Keys.v: tuples, and the hash, equality and
      order of values (tuple.h, tuple.cc, global.h); maps are keyed by the
      structure of strings and tuples.  Bytes.v: arrays of bytes (bytes.h,
      bytes.cc), which refine sequences.
    - Reader.v, Writer.v: the buffers of readers and writers of text around
      [iconv] (io__reader.cc, io__writer.cc).  The characters of a text are read
      and written in order, however its bytes are split and however often the
      other side would block.
    - Sharable.v: the ownership of values and their locks (sharable.h,
      sharable.cc, engine.h), as interleaved steps of threads that have stacks
      of calls: conflicting uses exclude each other, as long as no thread shares
      a value while it is using it.  Path.v: paths in normal form (path.h, portable.cc).
    - Lexer.v: [t_lexer] (lexer.h, lexer.cc), over a list of characters that
      stands for the reader.  Termination, positions of tokens, the off-side
      rule, keywords and operators by tables, round trips of literals.
    - Ast.v: the nodes and scopes of ast.h, with the intrusive lists of
      variables as rings of references.
    - Parser.v: [t_parser] (parser.h, parser.cc), over an interface of the
      lexer; the arena of scopes and the stack of scopes are its state.
      ParserTotal.v: every text parses to a tree or to an error, and jumps
      occur only where they may.  ParserScope.v: variables get distinct places.
      ParserGrammar.v: the parser of expressions reads exactly the phrases of
      a grammar of operators with precedences.
    - Types.v: types, the layout of their fields, derivation, class bodies, and
      the accesses to members with the index cached in an instruction (type.h,
      type.cc, class.h, class.cc, global.h, convert.h).  TypeLayout.v: derived
      types keep the layout of their bases.  TypeAccess.v: the caches change no
      result.  TypeSafety.v: accesses stay within the arrays and keep the store
      well formed.
    - Operators.v: binary and unary operators on numbers, as instructions
      (code_operator.h, code.cc), as constant folding (ast.cc), as natives
      (integer.cc, integer.h, float.h, float.cc) and as calls on [t_value]
      (global.h).  OperatorAgreement.v: where the four agree, and where not.
    - Exact.v: arithmetic of integers and fractions with 53 digits is exact in
      [double].  Time.v:
      composition and decomposition of times (modules/time.cc) against the
      Gregorian calendar.  TimeText.v: the parsers and printers of dates over
      models of [swscanf] and [swprintf]; what is printed is read back.
    - Collector.v: reference counts, the search for cycles by trial deletion
      and their freeing (object.h, engine.cc, engine.h); a finite map from
      addresses is the heap, and lists of addresses are its linked lists.
      CollectorGraph.v, CollectorMark.v, CollectorScan.v, CollectorCycles.v and
      CollectorFind.v follow the phases of the search; CollectorFree.v,
      CollectorRound.v, CollectorCount.v and CollectorProgram.v are the freeing,
      the invariant between the operations and the operations of a program.
      CollectorSafety.v: no reference dangles, a search with the freeing of what
      it found frees exactly the garbage, and two rounds collect all of it.
    - Queue.v: the queues between the threads and the collector, and the rounds
      of the collector over the threads (value.h, engine.h, thread.h,
      thread.cc, engine.cc), as interleaved steps.  QueueRing.v: a queue is the
      sequence of its pushes.  QueueEpochs.v, QueueVisit.v and QueueSafety.v:
      the invariant of threads, of a visit, and of the whole.  QueueCounts.v:
      the counts never fall below the references of a moment in the past.
      QueueProgress.v: all pushes are applied under every fair schedule.
    - Heap.v: the allocator [t_heap] (heap.h, engine.h): lists of free objects,
      chunks and blocks, over a finite map from addresses.  HeapLists.v: lists
      in memory and counts of objects.  HeapInvariant.v: every object of a
      block is in one place.  HeapMoves.v and HeapProgram.v: the operations
      move objects between places.  HeapSafety.v: objects in use do not
      overlap, [f_find] and [f_live] are exact; and a schedule of the exchange
      of chunks, step by step, that allocates an object twice.
    - Flow.v: the blocks of a lambda and the two work lists over them (ast.h,
      [f_flow] and [f_analyze] of ast.cc).  FlowGraph.v: a work list ends in a
      fixed point.  FlowAnalysis.v: the fixed points are the reaching accesses
      and the live variables of the graph.
    - Emit.v: the instructions of every kind of node ([t_emit] of ast.h,
      [f_emit] of ast.cc), with structured instructions in place of words.
      EmitSafety.v: a Hoare logic for the generator.  EmitNodes.v,
      EmitControl.v and EmitOperators.v: the kinds of nodes.
      EmitTree.v: the code of a whole module stays within its frames and jumps
      to its own instructions.  EmitExamples.v: programs through the parser, the
      analysis and the generator, and those on which they go wrong.
    - Interp.v: the loop of the interpreter with scopes, lambdas, contexts,
      calls and [try] (code.cc, fiber.h, fiber.cc, lambda.h, lambda.cc, scope.h,
      method.h, value.h, module.cc), as a state monad with exceptions whose
      functions are tied together by fuel.  The slots of a new frame are not
      written to, as in release builds, and reading one traps, as an operator
      on numbers does that C++ leaves undefined.  InterpCode.v: what verified code
      is: regions of [try], variables in scopes, operands.  InterpState.v: the
      invariant of states and the rules of a program logic.  InterpObjects.v,
      InterpCalls.v, InterpStep.v, InterpFrame.v, InterpOperators.v and
      InterpExecute.v: objects, calls, the expansion of arguments and every
      instruction.  InterpLoop.v: [try], the loop, and machines by induction on
      fuel.  InterpSafety.v: a verified module runs without a fault, unless it
      traps or the stack ends.
      InterpCheck.v decides whether code is verified, and InterpExamples.v takes
      scripts from their text to their results.
    - EmitRegions.v, EmitLambda.v, EmitRegular.v, EmitJumps.v and EmitVerified.v:
      a second logic for the generator, of partial correctness, that follows
      the regions of [try] and the scopes: the code that it makes is verified.
      EmitProgram.v: compiled scripts run safely.

    ** How the parts meet

    The parser is proved for every lexer that ends ([ParserTotal]), and with the
    lexer of Lexer.v put in.  The list and the map use the sizes of Layout.v.
    The generator of Emit.v works on the tree and the scopes that the parser
    leaves: [emittable] of EmitTree.v says what it takes for granted of them,
    which ParserTotal.v (jumps) and ParserScope.v (places of variables) and the
    analysis of Flow.v provide.  It folds operators as Operators.v does, and
    its instructions on numbers and members are those of Operators.v and
    TypeAccess.v.  Interp.v runs the code of
    Emit.v on the world of Types.v, with the operators of Operators.v and the
    cached accesses of TypeAccess.v: frames are those of [frame_ok], and what
    it takes for granted of code beyond that is [program_ok], which the code of
    Emit.v has: [compilable] of EmitProgram.v says of which trees, and is
    decided by computation.  In Collector.v
    the increments and decrements arrive one by one; Queue.v shows in which
    order they arrive: what was applied at any time contains the increments,
    and no decrements but those, of one moment in the past of all threads.  That
    is why [CollectorProgram] may take the references from stacks and pending
    entries as a function [ext] that only holds objects alive.  The addresses
    of Collector.v are those that Heap.v gives: [f_free] is the end of an
    object there, and [f_find] decides whether a word of a stack refers to one.

    ** Fuel and bounds

    The loops of the lexer and the parser have fuel from the length of the
    input, and [lexing_terminates] and [parsing_terminates] show it is enough;
    a reader and a writer have fuel from the length of the text;
    the loops of the list and the map are bounded by their capacity, the binary
    search for a field by the number of fields, the walk to the base types by
    the number of objects, and the loops of the collector by the number of
    objects and references.  A well-formed type has fewer than 2^60 fields,
    since its arrays fit in memory.  The fuel of the interpreter bounds the
    instructions and calls of a run: scripts need not end, so its theorem is for
    every fuel, and the examples have enough to end.  The rings of Queue.v have the sizes of
    release or debug builds; their counters are unbounded in the invariants
    only.

    ** Not modelled

    - The switching of machine stacks between fibers, and the table of symbols.
      Tuples, strings and bytes are modelled by themselves, not as objects of
      the interpreter.  The functions that native types put
      in place of the default operators are a parameter of the interpreter
      ([Library]), with the laws [LibraryLaws]: they do not fault, but they may
      trap where C++ leaves undefined what they do, as some do (negative sizes of
      bytes).  The interpreter does not free objects: that what it refers to is
      not freed is the matter of the collector.
    - The addresses of the labels of instructions, break points, and the stop
      of a debugger at safe points.
    - The arena of the syntax tree, and the tables of variables and of safe
      points that code generation keeps for the debugger.
    - That the flow of every parsed tree is a graph of fresh blocks: it is a
      hypothesis of [analysis_is_exact], which a check decides for a program
      (EmitExamples.v), as [emittable] is decided for the generator.
    - Mutation of slots while the search for cycles runs: the search works on
      a snapshot.  Cycles that were found and then revived are modelled in
      Collector.v, but the theorems on rounds are for a heap that the program
      does not change between the search and the freeing.
    - Weak memory: the steps of Queue.v are sequentially consistent.  Waking
      up the collector and waiting for it are left out, and so is what an epoch
      takes from the stacks of fibers.
    - Heap.v: failures of [mmap], which throw before anything changes, and the
      signal after growth.  Its counters are unbounded: [size_t] differences of
      them wrap to the same numbers.
    - A list or a map is accessed by one call at a time.  Sharable.v shows that
      the calls of other threads are kept out, as long as no thread shares the
      value while it is using it; what a call does to the value from inside of
      another call of the same thread (a key with its own == that changes the
      map it is looked up in) is not modelled.  Waiting for a lock is a step that
      a thread can not take.
    - Encodings with a state, and errors of the callables of readers and
      writers, after which the models end.
    - Conversions between numbers and strings other than the integers of dates,
      and the bits of NaNs: calls of the C library.  Keys whose class has its own
      methods for the hash or the comparison.  Signed overflow, division by zero and
      shifts beyond the width, which are undefined in C++, are [Fault], with one
      exception: a hexadecimal or octal literal that overflows leaves some number,
      which is a parameter of the lexer ([overflowed]), so that its theorems hold
      whatever the number is.
    - Overrides of operators by native types other than the numbers, and the
      native function at the end of a call.
    - Files and standard streams, modules and libraries, the clock and the local time
      zone, processes and the debugger: calls of the operating system. *)
From stdpp Require Import base list numbers strings.
From Stdlib Require Import ZArith Lia.

(** Case analysis on the conditions of the goal. *)
Ltac case_tests :=
  repeat (match goal with
          | |- context [decide ?P] => destruct (decide P)
          | |- context [bool_decide ?P] => destruct (bool_decide_reflect P)
          | |- context [Z.ltb ?a ?b] => destruct (Z.ltb_spec a b)
          | |- context [Z.leb ?a ?b] => destruct (Z.leb_spec a b)
          | |- context [Z.eqb ?a ?b] => destruct (Z.eqb_spec a b)
          end; try lia).

(** ** Outcomes

    A C++ operation either returns a value, throws an exception, or leaves the
    defined behaviour of C++ (an access outside an array) or the fuel of its
    model.  [Fault] stands for the last case: the theorems that a call is [Ok]
    or [Throw] are memory-safety and termination results.  Most operations
    throw instances of the interpreter's throwable class, identified by their
    message; the lexer and the parser throw errors with a position. *)
Inductive result (E A : Type) : Type :=
| Ok (a : A)
| Throw (e : E)
| Fault.
Arguments Ok {E A} _.
Arguments Throw {E A} _.
Arguments Fault {E A}.

Abbreviation outcome := (result string).
Abbreviation throw m := (@Throw string _ m%string).

#[export] Instance result_ret {E} : MRet (result E) := fun A a => Ok a.
#[export] Instance outcome_bind {E} : MBind (result E) := fun A B f m =>
  match m with
  | Ok a => f a
  | Throw e => Throw e
  | Fault => Fault
  end.

#[export] Instance result_eq_dec `{EqDecision E} `{EqDecision A} : EqDecision (result E A).
Proof. unfold EqDecision, Decision in *. decide equality. Defined.

Section outcome.
Context {E A B C : Type}.
Implicit Types (m : result E A) (f : A → result E B) (g : B → result E C).

Lemma outcome_bind_assoc m f g : (m ≫= f) ≫= g = m ≫= (λ a, f a ≫= g).
Proof. by destruct m. Qed.

Lemma outcome_bind_ok m f b : m ≫= f = Ok b ↔ ∃ a, m = Ok a ∧ f a = Ok b.
Proof. split; [destruct m; cbn; eauto; done | by intros (a & -> & ?)]. Qed.
End outcome.

(** Two outcomes agree up to a relation on results: a refinement of a
    specification [s] by an implementation [m] is [outcome_rel R m s]. *)
Definition outcome_rel {E A B} (R : A → B → Prop) (m : result E A) (s : result E B) : Prop :=
  match m, s with
  | Ok a, Ok b => R a b
  | Throw e, Throw e' => e = e'
  | _, _ => False
  end.

Lemma outcome_rel_bind {E A B A' B'} (R : A → B → Prop) (R' : A' → B' → Prop)
    (m : result E A) (s : result E B) f g :
  outcome_rel R m s → (∀ a b, R a b → outcome_rel R' (f a) (g b)) →
  outcome_rel R' (m ≫= f) (s ≫= g).
Proof. intros H Hf. destruct m, s; try done; cbn in *; auto. Qed.

Definition is_ok {E A} (m : result E A) : bool :=
  match m with Ok _ => true | _ => false end.

(** ** Arrays of memory cells

    A pointer into an array is its offset, an integer: reading or writing
    outside the array is a [Fault]. *)
Section arrays.
Context {E A : Type}.
Implicit Types (t : list A) (i : Z) (x : A).
Local Open Scope Z_scope.

Definition rd t i : result E A :=
  if decide (0 ≤ i) then
    match t !! Z.to_nat i with Some x => Ok x | None => Fault end
  else Fault.

Definition wr t i x : result E (list A) :=
  if decide (0 ≤ i < Z.of_nat (length t)) then Ok (<[Z.to_nat i := x]> t)
  else Fault.

Lemma rd_ok t i : 0 ≤ i < Z.of_nat (length t) → ∃ x, t !! Z.to_nat i = Some x ∧ rd t i = Ok x.
Proof.
  intros Hi. unfold rd. rewrite decide_True by lia.
  destruct (lookup_lt_is_Some_2 t (Z.to_nat i)) as [x Hx]; [lia|].
  exists x. by rewrite Hx.
Qed.

Lemma rd_lookup t i x : 0 ≤ i → t !! Z.to_nat i = Some x → rd t i = Ok x.
Proof. intros Hi Hx. unfold rd. by rewrite decide_True, Hx by lia. Qed.

Lemma wr_ok t i x : 0 ≤ i < Z.of_nat (length t) → wr t i x = Ok (<[Z.to_nat i := x]> t).
Proof. intros Hi. unfold wr. by rewrite decide_True by lia. Qed.
End arrays.

(** ** Arrays as total functions

    [cell d t i] is the content of cell [i], or [d] outside of the array.
    Stating the effect of array operations through [cell] reduces the
    reasoning about them to integer case analysis. *)
Section cells.
Context {A : Type} (d : A).
Implicit Types (t : list A) (i j : Z) (x : A).
Local Open Scope Z_scope.

Definition cell t i : A := nth (Z.to_nat i) t d.

Lemma rd_cell {E} t i : 0 ≤ i < Z.of_nat (length t) → rd t i =@{result E A} Ok (cell t i).
Proof.
  intros Hi. destruct (rd_ok (E := E) t i Hi) as (x & Hx & ->). unfold cell.
  by rewrite nth_lookup, Hx.
Qed.

Lemma cell_insert t i j x :
  0 ≤ i < Z.of_nat (length t) → 0 ≤ j →
  cell (<[Z.to_nat i := x]> t) j = if decide (i = j) then x else cell t j.
Proof.
  intros Hi Hj. unfold cell. rewrite !nth_lookup. case_decide as Hij.
  - subst. by rewrite list_lookup_insert_eq by lia.
  - by rewrite list_lookup_insert_ne by lia.
Qed.

Lemma cell_app t1 t2 i :
  0 ≤ i →
  cell (t1 ++ t2) i =
  if decide (i < Z.of_nat (length t1)) then cell t1 i
  else cell t2 (i - Z.of_nat (length t1)).
Proof.
  intros Hi. unfold cell. case_decide.
  - by rewrite app_nth1 by lia.
  - rewrite app_nth2 by lia. f_equal. lia.
Qed.

Lemma cell_cons t x i :
  0 ≤ i → cell (x :: t) i = if decide (i = 0) then x else cell t (i - 1).
Proof.
  intros Hi. change (x :: t) with ([x] ++ t). rewrite cell_app by done. cbn [length].
  case_tests; try (f_equal; lia). by subst.
Qed.

Lemma cell_take n t i :
  0 ≤ i < Z.of_nat n → cell (take n t) i = cell t i.
Proof. intros Hi. unfold cell. rewrite !nth_lookup, lookup_take_lt by lia. done. Qed.

Lemma cell_drop n t i :
  0 ≤ i → cell (drop n t) i = cell t (Z.of_nat n + i).
Proof.
  intros Hi. unfold cell. rewrite !nth_lookup, lookup_drop.
  replace (Z.to_nat (Z.of_nat n + i)) with (n + Z.to_nat i)%nat by lia. done.
Qed.

(** A list given by its length and cells. *)
Definition tabulate (n : Z) (f : Z → A) : list A := map (λ k, f (Z.of_nat k)) (seq 0 (Z.to_nat n)).

Lemma length_tabulate n f : length (tabulate n f) = Z.to_nat n.
Proof. unfold tabulate. by rewrite length_map, length_seq. Qed.

Lemma cell_tabulate n f i : 0 ≤ i < n → cell (tabulate n f) i = f i.
Proof.
  intros Hi. unfold cell, tabulate.
  rewrite nth_lookup, list_lookup_fmap, lookup_seq_lt by lia. cbn. f_equal. lia.
Qed.

Lemma cells_ext t1 t2 :
  length t1 = length t2 →
  (∀ i, 0 ≤ i < Z.of_nat (length t1) → cell t1 i = cell t2 i) → t1 = t2.
Proof.
  intros Hl Hc. apply nth_ext with d d; [done|]. intros k Hk.
  specialize (Hc (Z.of_nat k) ltac:(lia)). unfold cell in Hc. by rewrite Nat2Z.id in Hc.
Qed.

Lemma tabulate_ext n f t :
  length t = Z.to_nat n → (∀ i, 0 ≤ i < n → f i = cell t i) → tabulate n f = t.
Proof.
  intros Hl Hc. apply cells_ext; rewrite length_tabulate; [done|].
  intros i Hi. rewrite cell_tabulate by lia. apply Hc. lia.
Qed.
End cells.

(** [iterate n f s] runs the body [f] of a counting loop [n] times. *)
Fixpoint iterate {E S} (n : nat) (f : S → result E S) (s : S) : result E S :=
  match n with
  | O => Ok s
  | S n => s' ← f s; iterate n f s'
  end.

(** A while loop with [fuel] iterations at most: [body] returns [inl] to go
    round again and [inr] to leave the loop.  Running out of fuel is [Fault],
    so an [Ok] result also states termination. *)
Fixpoint loop {E S R} (fuel : nat) (body : S → result E (S + R)) (s : S) : result E R :=
  match fuel with
  | O => Fault
  | S fuel =>
    r ← body s;
    match r with
    | inl s' => loop fuel body s'
    | inr r => Ok r
    end
  end.

(** Invariant rule for [loop]: [I] holds at the head of the loop and every
    round decreases the measure [m]; [Q] is what the exit establishes. *)
Lemma loop_ind {E S R} (body : S → result E (S + R)) (I : S → Prop) (Q : R → Prop) (m : S → Z) :
  (∀ s, I s → (0 <= m s)%Z ∧
     ((∃ s', body s = Ok (inl s') ∧ I s' ∧ (m s' < m s)%Z) ∨ (∃ r, body s = Ok (inr r) ∧ Q r))) →
  ∀ fuel s, I s → (m s < Z.of_nat fuel)%Z → ∃ r, loop fuel body s = Ok r ∧ Q r.
Proof.
  intros Hbody fuel. induction fuel as [|fuel IH]; intros s Hs Hm.
  - destruct (Hbody s Hs). lia.
  - destruct (Hbody s Hs) as (_ & [(s' & Hb & Hs' & Hm')|(r & Hb & Hr)]); cbn; rewrite Hb; cbn.
    + apply IH; [done|lia].
    + by exists r.
Qed.

(** Invariant rule for [iterate]. *)
Lemma iterate_ind {E S} (f : S → result E S) (P : nat → S → Prop) n s :
  P 0 s →
  (∀ k s, k < n → P k s → ∃ s', f s = Ok s' ∧ P (Datatypes.S k) s') →
  ∃ s', iterate n f s = Ok s' ∧ P n s'.
Proof.
  intros H0 Hs. cut (∀ m k s, k + m = n → P k s → ∃ s', iterate m f s = Ok s' ∧ P n s').
  { intros H. by apply (H n 0 s). }
  intros m. induction m as [|m IH]; intros k s' Hk HP.
  - exists s'. split; [done|]. by replace n with k by lia.
  - destruct (Hs k s' ltac:(lia) HP) as (s2 & Hf & HP2).
    destruct (IH (Datatypes.S k) s2 ltac:(lia) HP2) as (s3 & H3 & HP3).
    exists s3. split; [|done]. cbn. by rewrite Hf.
Qed.

(** ** Traces

    A program that calls the methods of an object observes a list of results.
    A call that throws leaves the object as it was, and the program, which may
    catch the exception, goes on; a [Fault] ends the program. *)
Fixpoint trace {E S C A} (step : S → C → result E (A * S)) (s : S) (cs : list C) : list (result E A) :=
  match cs with
  | [] => []
  | c :: cs =>
    match step s c with
    | Ok (r, s') => Ok r :: trace step s' cs
    | Throw e => Throw e :: trace step s cs
    | Fault => [Fault]
    end
  end.

(** Calling [f] on the items of a list, from left to right. *)
Fixpoint fold_calls {E S A} (f : S → A → result E S) (s : S) (l : list A) : result E S :=
  match l with
  | [] => Ok s
  | x :: l => s ← f s x; fold_calls f s l
  end.

Lemma fold_calls_ok {S A} (f : S → A → S) s l : fold_calls (λ s x, Ok (f s x)) s l =@{outcome S} Ok (foldl f s l).
Proof. revert s. induction l as [|x l IH]; intros s; [done|]. apply IH. Qed.

#[global] Arguments rd {E A} t i : simpl never.
#[global] Arguments wr {E A} t i x : simpl never.
#[global] Arguments cell {A} d t i : simpl never.
#[global] Arguments tabulate {A} n f : simpl never.

Lemma string_app_assoc (a b c : string) : ((a +:+ b) +:+ c = a +:+ (b +:+ c))%string.
Proof. induction a as [|x a IH]; [done|]. exact (f_equal (String x) IH). Qed.

Lemma string_app_nil_r (a : string) : (a +:+ "" = a)%string.
Proof. induction a as [|x a IH]; [done|]. exact (f_equal (String x) IH). Qed.

Create HintDb xemmai.
#[export] Hint Resolve rd_lookup wr_ok : xemmai.
