(* ===== verification/Layout.v ===== *)
(** * Object layout (src: include/xemmai/object.h)

    Sizes are those of a 64-bit build: a pointer takes eight bytes. *)
From stdpp Require Import base numbers.
From S2P Require Import Prelude.
Local Open Scope Z_scope.

Definition sizeof_pointer : Z := 8.

(** The fields of [t_object] before [v_data]: [v_next], [v_previous],
    [v_scan]; the two bytes [v_color] and [v_reviving], padded to a word;
    [v_count], [v_cyclic], [v_rank]; [v_next_cycle], [v_type]. *)
Definition offsetof_v_data : Z := sizeof_pointer * (3 + 1 + 3 + 2).

(** [v_data], seven words, is the last field. *)
Definition sizeof_t_object : Z := offsetof_v_data + sizeof_pointer * 7.
Definition sizeof_t_tuple : Z := 8.
Definition sizeof_t_slot : Z := 8.

Definition f_align_for_fields (a_native : Z) : Z :=
  (a_native + sizeof_pointer - 1) / sizeof_pointer * sizeof_pointer.

Definition f_fields_offset (a_native : Z) : Z :=
  offsetof_v_data + f_align_for_fields a_native.

Definition f_capacity_to_size (sizeof_object sizeof_element a_size : Z) : Z :=
  (f_fields_offset sizeof_object + a_size * sizeof_element + sizeof_t_object - 1)
    / sizeof_t_object * sizeof_t_object.

Definition f_size_to_capacity (sizeof_object sizeof_element a_size : Z) : Z :=
  (a_size - f_fields_offset sizeof_object) / sizeof_element.

(** ** Lemmas *)

Lemma f_align_for_fields_bounds n :
  0 ≤ n → n ≤ f_align_for_fields n < n + sizeof_pointer ∧ (sizeof_pointer | f_align_for_fields n).
Proof.
  intros. unfold f_align_for_fields, sizeof_pointer. split; [|apply Z.divide_factor_r].
  pose proof (Z.div_mod (n + 8 - 1) 8). pose proof (Z.mod_pos_bound (n + 8 - 1) 8). lia.
Qed.

(** The size chosen for a capacity is a whole number of units and wastes less
    than one unit. *)
Lemma f_capacity_to_size_bounds o e n :
  let raw := f_fields_offset o + n * e in
  raw ≤ f_capacity_to_size o e n < raw + sizeof_t_object
  ∧ (sizeof_t_object | f_capacity_to_size o e n).
Proof.
  cbn zeta. unfold f_capacity_to_size. change sizeof_t_object with 128. split; [|apply Z.divide_factor_r].
  set (r := f_fields_offset o + n * e).
  pose proof (Z.div_mod (r + 128 - 1) 128). pose proof (Z.mod_pos_bound (r + 128 - 1) 128). lia.
Qed.

(** A block sized for a capacity holds at least that many elements. *)
Lemma capacity_size_capacity o e n :
  0 < e → n ≤ f_size_to_capacity o e (f_capacity_to_size o e n).
Proof.
  intros He. unfold f_size_to_capacity. apply Z.div_le_lower_bound; [done|].
  pose proof (f_capacity_to_size_bounds o e n) as [? _]. lia.
Qed.
