(* ===== verification/Machine.v ===== *)
(** * Machine integers and floating-point numbers

    [size_t] and [intptr_t] of a 64-bit build as integers with the wrap-around
    written out, and [double] as the binary64 format of the Standard Library's
    specification of floating-point arithmetic. *)
From Stdlib Require Import SpecFloat.
From stdpp Require Import base numbers.
From S2P Require Import Prelude.
Local Open Scope Z_scope.

Definition SIZE_MODULUS : Z := 2 ^ 64.
Definition INTPTR_MAX : Z := 2 ^ 63 - 1.
Definition INTPTR_MIN : Z := - 2 ^ 63.

(** Conversion to [size_t]. *)
Definition to_size (z : Z) : Z := z mod SIZE_MODULUS.

(** Conversion to [intptr_t]: two's complement. *)
Definition to_intptr (z : Z) : Z := (z + 2 ^ 63) mod 2 ^ 64 - 2 ^ 63.

Definition is_intptr (z : Z) : Prop := INTPTR_MIN ≤ z ≤ INTPTR_MAX.

#[export] Instance is_intptr_dec z : Decision (is_intptr z).
Proof. unfold is_intptr. apply _. Defined.

Lemma to_intptr_range z : is_intptr (to_intptr z).
Proof.
  unfold is_intptr, to_intptr, INTPTR_MIN, INTPTR_MAX.
  pose proof (Z.mod_pos_bound (z + 2 ^ 63) (2 ^ 64)). lia.
Qed.

Lemma to_intptr_id z : is_intptr z → to_intptr z = z.
Proof.
  unfold is_intptr, to_intptr, INTPTR_MIN, INTPTR_MAX. intros H.
  rewrite Z.mod_small by lia. lia.
Qed.

Lemma to_size_range z : 0 ≤ to_size z < SIZE_MODULUS.
Proof. apply Z.mod_pos_bound. done. Qed.

Lemma to_size_id z : 0 ≤ z < SIZE_MODULUS → to_size z = z.
Proof. apply Z.mod_small. Qed.

(** The conversions agree modulo the word size. *)
Lemma to_intptr_congr z : ∃ k, to_intptr z = z + k * 2 ^ 64.
Proof.
  unfold to_intptr. exists (- ((z + 2 ^ 63) / 2 ^ 64)).
  pose proof (Z.div_mod (z + 2 ^ 63) (2 ^ 64) ltac:(done)). lia.
Qed.

Lemma to_intptr_shift z k : to_intptr (z + k * 2 ^ 64) = to_intptr z.
Proof.
  unfold to_intptr. replace (z + k * 2 ^ 64 + 2 ^ 63) with (z + 2 ^ 63 + k * 2 ^ 64) by lia.
  by rewrite Z.mod_add.
Qed.


(** ** [double]

    The payload and the sign of a NaN are not kept. *)
Definition double : Type := spec_float.

#[export] Instance double_eq_dec : EqDecision double.
Proof. solve_decision. Defined.

Definition d_prec : Z := 53.
Definition d_emax : Z := 1024.

Definition d_add : double → double → double := SFadd d_prec d_emax.
Definition d_sub : double → double → double := SFsub d_prec d_emax.
Definition d_mul : double → double → double := SFmul d_prec d_emax.
Definition d_div : double → double → double := SFdiv d_prec d_emax.
Definition d_opp : double → double := SFopp.
Definition d_eq : double → double → bool := SFeqb.
Definition d_lt : double → double → bool := SFltb.
Definition d_le : double → double → bool := SFleb.

(** Conversion from an integer, to the nearest double. *)
Definition d_of (z : Z) : double := binary_normalize d_prec d_emax z 0 false.
