(* ===== verification/ListBuf.v ===== *)
(** * The list type (src: include/xemmai/list.h, src/list.cc)

    [t_list] is a double-ended queue kept in a circular buffer, a tuple whose
    capacity follows the size classes of the object layout.  The abstract
    value of a list is the sequence of its elements ([contents]); every
    operation is shown to implement the operation on sequences, never to
    leave the buffer, and to keep the representation invariant ([wf]). *)
From Stdlib Require Import Sorted.
From stdpp Require Import base list numbers strings sorting.
From S2P Require Import Prelude Layout.
Local Open Scope Z_scope.

Section ListBuf.
  (** Elements are the interpreter's values; [null] is the value of an empty
      slot. *)
  Context {V : Type} (null : V).

(** ** State *)

Record t_list := {
  v_tuple : option (list V);
  v_head : Z;
  v_size : Z;
  v_grow : Z;
  v_shrink : Z
}.

Definition new_list : t_list :=
  {| v_tuple := None; v_head := 0; v_size := 0; v_grow := 0; v_shrink := 0 |}.

(** [v_tuple->f_as<t_tuple>()]: dereferencing the null slot is undefined. *)
Definition tuple (l : t_list) : outcome (list V) :=
  match v_tuple l with Some t => Ok t | None => Fault end.

Definition set_tuple (t : list V) (l : t_list) : t_list :=
  {| v_tuple := Some t; v_head := v_head l; v_size := v_size l;
     v_grow := v_grow l; v_shrink := v_shrink l |}.

Definition set_head (h : Z) (l : t_list) : t_list :=
  {| v_tuple := v_tuple l; v_head := h; v_size := v_size l;
     v_grow := v_grow l; v_shrink := v_shrink l |}.

Definition set_size (n : Z) (l : t_list) : t_list :=
  {| v_tuple := v_tuple l; v_head := v_head l; v_size := n;
     v_grow := v_grow l; v_shrink := v_shrink l |}.

(** ** Moving a range of slots by one

    [while (a_p < a_q)] runs [a_q - a_p] times; [a_q] (resp. [a_p]) is
    returned, together with the memory. *)
Definition f_move_forward (a_p a_q : Z) (t : list V) : outcome (list V * Z) :=
  iterate (Z.to_nat (a_q - a_p))
    (λ '(t, q), x ← rd t (q - 1); t' ← wr t q x; Ok (t', q - 1)) (t, a_q).

Definition f_move_backward (a_p a_q : Z) (t : list V) : outcome (list V * Z) :=
  iterate (Z.to_nat (a_q - a_p))
    (λ '(t, p), x ← rd t (p + 1); t' ← wr t p x; Ok (t', p + 1)) (t, a_p).

(** [*f_move_forward(p, q) = x] and [*f_move_backward(p, q) = x].  The
    operands of the assignment are references, so a right-hand side that is a
    slot of the same buffer is read after the move. *)
Definition assign_forward (a_p a_q : Z) (x : list V → outcome V) (t : list V) : outcome (list V) :=
  '(t', r) ← f_move_forward a_p a_q t; y ← x t'; wr t' r y.

Definition assign_backward (a_p a_q : Z) (x : list V → outcome V) (t : list V) : outcome (list V) :=
  '(t', r) ← f_move_backward a_p a_q t; y ← x t'; wr t' r y.

(** The right-hand sides: a value, and the slot at offset [i]. *)
Definition value (x : V) (t : list V) : outcome V := Ok x.
Definition slot (i : Z) (t : list V) : outcome V := rd t i.

(** ** Capacity *)

Definition capacity_to_size (n : Z) : Z := f_capacity_to_size sizeof_t_tuple sizeof_t_slot n.
Definition size_to_capacity (n : Z) : Z := f_size_to_capacity sizeof_t_tuple sizeof_t_slot n.

(** [new(&tuple1[i++])] in a tuple of capacity [n], of which the slots before
    [i] have been constructed. *)
Definition construct (n : Z) (t1 : list V) (x : V) : outcome (list V) :=
  if decide (Z.of_nat (length t1) < n) then Ok (t1 ++ [x]) else Fault.

(** Number of iterations of [do ... while (i < n)] started at [i]. *)
Definition do_while (i n : Z) : nat := Z.to_nat (Z.max 1 (n - i)).

Definition copy_slot (n : Z) (t0 : list V) : list V * Z → outcome (list V * Z) :=
  λ '(t1, head), x ← rd t0 head; t1' ← construct n t1 x; Ok (t1', head + 1).

Definition f_resize (l : t_list) : outcome t_list :=
  let size := capacity_to_size (v_size l) in
  let grow := size_to_capacity (size * 2) in
  let shrink := if decide (size < sizeof_t_object * 2) then 0 else size_to_capacity (size / 2) in
  t0 ← tuple l;
  let n := Z.of_nat (length t0) in
  '(t1, head) ←
    (if decide (v_head l + v_size l > n) then
       '(t1, _) ← iterate (do_while (v_head l) n) (copy_slot grow t0) ([], v_head l);
       Ok (t1, 0)
     else Ok ([], v_head l));
  '(t1, _) ← iterate (do_while (Z.of_nat (length t1)) (v_size l)) (copy_slot grow t0) (t1, head);
  t1 ← iterate (do_while (Z.of_nat (length t1)) grow) (λ t, construct grow t null) t1;
  Ok {| v_tuple := Some t1; v_head := 0; v_size := v_size l; v_grow := grow; v_shrink := shrink |}.

Definition f_grow (l : t_list) : outcome t_list :=
  if decide (v_size l <= 0) then
    let grow := size_to_capacity sizeof_t_object in
    Ok {| v_tuple := Some (repeat null (Z.to_nat grow)); v_head := v_head l;
          v_size := v_size l; v_grow := grow; v_shrink := v_shrink l |}
  else f_resize l.

Definition f_shrink (l : t_list) : outcome t_list :=
  if decide (v_size l <= 0) then
    Ok {| v_tuple := None; v_head := 0; v_size := v_size l; v_grow := 0; v_shrink := v_shrink l |}
  else f_resize l.

(** [if (v_size >= v_grow) f_grow();] and [if (v_size <= v_shrink) f_shrink();] *)
Definition grow_if_full (l : t_list) : outcome t_list :=
  if decide (v_size l >= v_grow l) then f_grow l else Ok l.

Definition shrink_if_sparse (l : t_list) : outcome t_list :=
  if decide (v_size l <= v_shrink l) then f_shrink l else Ok l.

(** ** Access by index *)

Definition out_of_range {A} : outcome A := throw "out of range.".
Definition empty_list {A} : outcome A := throw "empty list.".

(** A negative index counts from the end. *)
Definition f_validate (l : t_list) (a_index : Z) : outcome Z :=
  if decide (a_index < 0) then
    let i := a_index + v_size l in
    if decide (i < 0) then out_of_range else Ok i
  else if decide (a_index >= v_size l) then out_of_range
  else Ok a_index.

(** Offset of the slot of element [a_index]. *)
Definition slot_of (l : t_list) (t : list V) (a_index : Z) : Z :=
  let i := a_index + v_head l in
  let n := Z.of_nat (length t) in
  if decide (i < n) then i else i - n.

Definition f_at (l : t_list) (a_index : Z) : outcome V :=
  t ← tuple l; rd t (slot_of l t a_index).

Definition assign_at (l : t_list) (a_index : Z) (x : V) : outcome t_list :=
  t ← tuple l; t' ← wr t (slot_of l t a_index) x; Ok (set_tuple t' l).

Definition get_at (l : t_list) (a_index : Z) : outcome V :=
  i ← f_validate l a_index; f_at l i.

(** [list[i] = x], whose value is [x]. *)
Definition set_at (l : t_list) (a_index : Z) (x : V) : outcome (V * t_list) :=
  i ← f_validate l a_index; l' ← assign_at l i x; Ok (x, l').

(** ** Operations at the ends *)

Definition f_clear (l : t_list) : t_list := new_list.

Definition f_push (l : t_list) (x : V) : outcome t_list :=
  l ← grow_if_full l;
  l ← assign_at l (v_size l) x;
  Ok (set_size (v_size l + 1) l).

Definition f_pop (l : t_list) : outcome (V * t_list) :=
  if decide (v_size l <= 0) then empty_list else
  let l := set_size (v_size l - 1) l in
  p ← f_at l (v_size l);
  l ← assign_at l (v_size l) null;
  l ← shrink_if_sparse l;
  Ok (p, l).

Definition f_unshift (l : t_list) (x : V) : outcome t_list :=
  l ← grow_if_full l;
  t ← tuple l;
  let head := (if decide (v_head l > 0) then v_head l else Z.of_nat (length t)) - 1 in
  t ← wr t head x;
  Ok (set_size (v_size l + 1) (set_head head (set_tuple t l))).

Definition f_shift (l : t_list) : outcome (V * t_list) :=
  if decide (v_size l <= 0) then empty_list else
  t ← tuple l;
  p ← rd t (v_head l);
  t ← wr t (v_head l) null;
  let head := v_head l + 1 in
  let head := if decide (head >= Z.of_nat (length t)) then 0 else head in
  let l := set_size (v_size l - 1) (set_head head (set_tuple t l)) in
  l ← shrink_if_sparse l;
  Ok (p, l).

(** ** Insertion and removal in the middle *)

Definition f_insert (l : t_list) (a_index : Z) (x : V) : outcome t_list :=
  if decide (a_index = v_size l) then f_push l x else
  if decide (a_index = 0) then f_unshift l x else
  a_index ← f_validate l a_index;
  l ← grow_if_full l;
  let head := v_head l in
  let i := head + a_index in
  let j := head + v_size l in
  t ← tuple l;
  let n := Z.of_nat (length t) in
  l ← (if decide (a_index < v_size l - a_index) then
         if decide (i > n) then
           t ← assign_backward (head - 1) (n - 1) (slot 0) t;
           t ← assign_backward 0 (i - 1 - n) (value x) t;
           Ok (set_head (head - 1) (set_tuple t l))
         else if decide (head > 0) then
           t ← assign_backward (head - 1) (i - 1) (value x) t;
           Ok (set_head (head - 1) (set_tuple t l))
         else
           x0 ← rd t 0;
           t ← wr t (n - 1) x0;
           t ← assign_backward 0 (i - 1) (value x) t;
           Ok (set_head (n - 1) (set_tuple t l))
       else
         if decide (i >= n) then
           t ← assign_forward (i - n) (j - n) (value x) t;
           Ok (set_tuple t l)
         else if decide (j >= n) then
           t ← assign_forward 0 (j - n) (slot (n - 1)) t;
           t ← assign_forward i (n - 1) (value x) t;
           Ok (set_tuple t l)
         else
           t ← assign_forward i j (value x) t;
           Ok (set_tuple t l));
  Ok (set_size (v_size l + 1) l).

Definition f_remove (l : t_list) (a_index : Z) : outcome (V * t_list) :=
  a_index ← f_validate l a_index;
  let head := v_head l in
  let i := head + a_index in
  let j := head + v_size l in
  t ← tuple l;
  let n := Z.of_nat (length t) in
  q ← rd t (if decide (i < n) then i else i - n);
  l ← (if decide (a_index < v_size l - a_index) then
         t ← (if decide (i >= n) then
                t ← assign_forward 0 (i - n) (slot (n - 1)) t;
                assign_forward head (n - 1) (value null) t
              else assign_forward head i (value null) t);
         let head := head + 1 in
         Ok (set_head (if decide (head >= n) then 0 else head) (set_tuple t l))
       else
         t ← (if decide (i >= n) then assign_backward (i - n) (j - 1 - n) (value null) t
              else if decide (j > n) then
                t ← assign_backward i (n - 1) (slot 0) t;
                assign_backward 0 (j - 1 - n) (value null) t
              else assign_backward i (j - 1) (value null) t);
         Ok (set_tuple t l));
  l ← shrink_if_sparse (set_size (v_size l - 1) l);
  Ok (q, l).

(** ** Construction, traversal and sorting *)

(** [t_type_of<t_list>::f_do_construct]: pushes the arguments. *)
Fixpoint push_all (l : t_list) (xs : list V) : outcome t_list :=
  match xs with
  | [] => Ok l
  | x :: xs => l ← f_push l x; push_all l xs
  end.

Definition f_do_construct (xs : list V) : outcome t_list := push_all new_list xs.

(** [each]: the callable may change the list between two elements, so the
    size is read again at every step; [S] is the state the callable works on. *)
Fixpoint each {S} (fuel : nat) (a_callable : V → S → t_list → outcome (S * t_list))
    (i : Z) (s : S) (l : t_list) : outcome (S * t_list) :=
  match fuel with
  | O => Fault
  | Datatypes.S fuel =>
    if decide (i >= v_size l) then Ok (s, l) else
    x ← get_at l i;
    '(s, l) ← a_callable x s l;
    each fuel a_callable (i + 1) s l
  end.

(** [__string]: the elements' strings between brackets; [f_string] is the
    virtual conversion of an element. *)
Fixpoint string_items (fuel : nat) (f_string : V → string) (i : Z) (l : t_list)
    (x : V) (s : string) : outcome string :=
  match fuel with
  | O => Fault
  | Datatypes.S fuel =>
    let s := (s +:+ f_string x)%string in
    let i := i + 1 in
    if decide (i >= v_size l) then Ok s else
    x ← get_at l i; string_items fuel f_string i l x (s +:+ ", ")
  end.

Definition f__string (f_string : V → string) (l : t_list) : outcome string :=
  s ← (if decide (v_size l <= 0) then Ok "["%string
       else x ← get_at l 0; string_items (Z.to_nat (v_size l)) f_string 0 l x "[");
  Ok (s +:+ "]")%string.

(** [std::rotate(p, p + head, p + n)]. *)
Definition std_rotate (head : Z) (t : list V) : list V :=
  drop (Z.to_nat head) t ++ take (Z.to_nat head) t.

(** [std::sort(p, p + size)] on the slots [head .. head + size); [std_sort] is
    the library's sort of that range. *)
Definition sort_range (std_sort : list V → list V) (head size : Z) (t : list V) : list V :=
  take (Z.to_nat head) t ++ std_sort (take (Z.to_nat size) (drop (Z.to_nat head) t))
    ++ drop (Z.to_nat (head + size)) t.

(** [sort]: the five fields are moved out of the list, which the comparison
    sees empty, and are put back after the buffer has been sorted. *)
Definition f_sort (std_sort : list V → list V) (l : t_list) : t_list :=
  match v_tuple l with
  | None => new_list
  | Some t =>
    let '(t, head) :=
      if decide (v_head l + v_size l > Z.of_nat (length t))
      then (std_rotate (v_head l) t, 0) else (t, v_head l) in
    {| v_tuple := Some (sort_range std_sort head (v_size l) t); v_head := head;
       v_size := v_size l; v_grow := v_grow l; v_shrink := v_shrink l |}
  end.

(** ** Abstract value and representation invariant *)

(** Physical offset of the logical offset [i] in a buffer of [n] slots. *)
Definition wrap (n i : Z) : Z := if decide (i < n) then i else i - n.

Definition contents (l : t_list) : list V :=
  match v_tuple l with
  | None => []
  | Some t => tabulate (v_size l) (λ k, cell null t (wrap (Z.of_nat (length t)) (v_head l + k)))
  end.

(** A buffer [t] with [head] inside; [lo ≤ size ≤ hi]. *)
Definition shaped (lo slack : Z) (l : t_list) (t : list V) : Prop :=
  v_tuple l = Some t ∧ Z.of_nat (length t) = v_grow l
  ∧ 0 ≤ v_head l < v_grow l
  ∧ lo ≤ v_size l ≤ v_grow l - slack
  ∧ 0 ≤ v_shrink l < v_size l + (1 - lo).

(** The invariant between operations: an empty list has no buffer, and a
    non-empty list has more elements than the shrinking threshold. *)
Definition wf (l : t_list) : Prop := l = new_list ∨ ∃ t, shaped 1 0 l t.

(** Ready for one more element. *)
Definition roomy (l : t_list) (t : list V) : Prop := shaped 0 1 l t.

(** ** Lemmas on moves *)

Abbreviation len t := (Z.of_nat (length t)).

Lemma forward_ok p q t :
  0 ≤ p ≤ q → q < len t →
  ∃ t', f_move_forward p q t = Ok (t', p) ∧ length t' = length t
  ∧ ∀ j, 0 ≤ j → cell null t' j = if decide (p < j ≤ q) then cell null t (j - 1) else cell null t j.
Proof.
  intros Hp Hq. unfold f_move_forward.
  edestruct (iterate_ind (E := string) (λ '(t, q), x ← rd t (q - 1); t' ← wr t q x; Ok (t', q - 1))
    (λ k '(t', r), r = q - Z.of_nat k ∧ length t' = length t ∧
       ∀ j, 0 ≤ j → cell null t' j = if decide (r < j ≤ q) then cell null t (j - 1) else cell null t j)
    (Z.to_nat (q - p)) (t, q)) as ([t' r] & Heq & Hr & Hl & Hc).
  - split_and!; [lia|done|]. intros. case_tests; done.
  - intros k [t' r] Hk (-> & Hl & Hc).
    rewrite (rd_cell null) by lia. cbn. rewrite wr_ok by lia. cbn.
    eexists; split; [done|]. split_and!; [lia|by rewrite length_insert|].
    intros j Hj. rewrite cell_insert by lia. rewrite !Hc by lia. case_tests; f_equal; lia.
  - exists t'. replace r with p in * by lia. by split_and!.
Qed.

Lemma backward_ok p q t :
  0 ≤ p ≤ q → q < len t →
  ∃ t', f_move_backward p q t = Ok (t', q) ∧ length t' = length t
  ∧ ∀ j, 0 ≤ j → cell null t' j = if decide (p ≤ j < q) then cell null t (j + 1) else cell null t j.
Proof.
  intros Hp Hq. unfold f_move_backward.
  edestruct (iterate_ind (E := string) (λ '(t, p), x ← rd t (p + 1); t' ← wr t p x; Ok (t', p + 1))
    (λ k '(t', r), r = p + Z.of_nat k ∧ length t' = length t ∧
       ∀ j, 0 ≤ j → cell null t' j = if decide (p ≤ j < r) then cell null t (j + 1) else cell null t j)
    (Z.to_nat (q - p)) (t, p)) as ([t' r] & Heq & Hr & Hl & Hc).
  - split_and!; [lia|done|]. intros. case_tests; done.
  - intros k [t' r] Hk (-> & Hl & Hc).
    rewrite (rd_cell null) by lia. cbn. rewrite wr_ok by lia. cbn.
    eexists; split; [done|]. split_and!; [lia|by rewrite length_insert|].
    intros j Hj. rewrite cell_insert by lia. rewrite !Hc by lia. case_tests; f_equal; lia.
  - exists t'. replace r with q in * by lia. by split_and!.
Qed.

(** [src] yields [y] whatever a move within [p..q] does to the buffer. *)
Definition yields (src : list V → outcome V) (p q : Z) (t : list V) (y : V) : Prop :=
  ∀ t', length t' = length t → (∀ j, 0 ≤ j → ¬ p ≤ j ≤ q → cell null t' j = cell null t j) →
  src t' = Ok y.

Lemma yields_value p q t x : yields (value x) p q t x.
Proof. by intros t' _ _. Qed.

Lemma yields_slot i p q t :
  0 ≤ i < len t → ¬ p ≤ i ≤ q → yields (slot i) p q t (cell null t i).
Proof.
  intros Hi Hpq t' Hl Hc. unfold slot. rewrite (rd_cell null) by lia. rewrite Hc by lia. done.
Qed.

Lemma assign_forward_ok p q src y t :
  0 ≤ p ≤ q → q < len t → yields src p q t y →
  ∃ t', assign_forward p q src t = Ok t' ∧ length t' = length t
  ∧ ∀ j, 0 ≤ j → cell null t' j =
      if decide (j = p) then y else
      if decide (p < j ≤ q) then cell null t (j - 1) else cell null t j.
Proof.
  intros Hp Hq Hy. destruct (forward_ok p q t Hp Hq) as (t1 & H1 & Hl & Hc).
  unfold assign_forward. rewrite H1. cbn.
  rewrite (Hy t1) by (try done; intros; rewrite Hc by lia; case_tests; done). cbn.
  rewrite wr_ok by lia. eexists; split; [done|]. split; [by rewrite length_insert|].
  intros j Hj. rewrite cell_insert, Hc by lia. case_tests; done.
Qed.

Lemma assign_backward_ok p q src y t :
  0 ≤ p ≤ q → q < len t → yields src p q t y →
  ∃ t', assign_backward p q src t = Ok t' ∧ length t' = length t
  ∧ ∀ j, 0 ≤ j → cell null t' j =
      if decide (j = q) then y else
      if decide (p ≤ j < q) then cell null t (j + 1) else cell null t j.
Proof.
  intros Hp Hq Hy. destruct (backward_ok p q t Hp Hq) as (t1 & H1 & Hl & Hc).
  unfold assign_backward. rewrite H1. cbn.
  rewrite (Hy t1) by (try done; intros; rewrite Hc by lia; case_tests; done). cbn.
  rewrite wr_ok by lia. eexists; split; [done|]. split; [by rewrite length_insert|].
  intros j Hj. rewrite cell_insert, Hc by lia. case_tests; done.
Qed.

(** The empty move of [f_insert] at the front: [q] points before the buffer. *)
Lemma assign_backward_empty x t :
  0 < len t → assign_backward 0 (-1) (value x) t = Ok (<[0%nat := x]> t).
Proof.
  intros Ht. change (assign_backward 0 (-1) (value x) t) with (wr (E := string) t 0 x).
  by rewrite wr_ok by lia.
Qed.

(** ** Lemmas on capacities *)

Lemma capacity_to_size_bounds n : 80 + 8 * n ≤ capacity_to_size n < 208 + 8 * n.
Proof.
  pose proof (f_capacity_to_size_bounds sizeof_t_tuple sizeof_t_slot n) as [H _].
  unfold capacity_to_size. change (f_fields_offset sizeof_t_tuple) with 80 in H.
  change sizeof_t_slot with 8 in *. change sizeof_t_object with 128 in H. lia.
Qed.

Lemma size_to_capacity_eq n : size_to_capacity n = (n - 80) / 8.
Proof. done. Qed.

(** The new capacity exceeds the size, and the new threshold is below it. *)
Lemma resize_policy n :
  0 < n →
  let size := capacity_to_size n in
  n < size_to_capacity (size * 2)
  ∧ 0 ≤ (if decide (size < sizeof_t_object * 2) then 0 else size_to_capacity (size / 2)) < n.
Proof.
  intros Hn size. pose proof (capacity_to_size_bounds n) as Hb. fold size in Hb.
  rewrite !size_to_capacity_eq. change (sizeof_t_object * 2) with 256. split.
  - apply Z.lt_le_trans with (n + 1); [lia|]. apply Z.div_le_lower_bound; lia.
  - case_tests. split; [apply Z.div_pos; [|done] | apply Z.div_lt_upper_bound; [done|]].
    + assert (128 ≤ size / 2) by (apply Z.div_le_lower_bound; lia). lia.
    + assert (size / 2 < 104 + 4 * n) by (apply Z.div_lt_upper_bound; lia).
      (* the size is a multiple of 128, so [n] is at least 7 here *)
      assert (7 ≤ n) by lia. lia.
Qed.

(** ** Resizing *)

Lemma construct_ok n t x : len t < n → construct n t x = Ok (t ++ [x]).
Proof. intros. unfold construct. by rewrite decide_True by done. Qed.

Lemma copy_slot_ok g t0 t1 h :
  0 ≤ h < len t0 → len t1 < g → copy_slot g t0 (t1, h) = Ok (t1 ++ [cell null t0 h], h + 1).
Proof.
  intros Hh H1. unfold copy_slot. rewrite (rd_cell null) by lia. cbn -[construct].
  by rewrite construct_ok by lia.
Qed.

Lemma copy_ok g t0 t1 h k :
  0 ≤ h → h + Z.of_nat k ≤ len t0 → len t1 + Z.of_nat k ≤ g →
  iterate (E := string) k (copy_slot g t0) (t1, h)
  = Ok (t1 ++ tabulate (Z.of_nat k) (λ i, cell null t0 (h + i)), h + Z.of_nat k).
Proof.
  revert t1 h. induction k as [|k IH]; intros t1 h Hh H0 H1.
  { cbn. by rewrite app_nil_r, Z.add_0_r. }
  cbn [iterate]. rewrite copy_slot_ok by lia. cbn -[copy_slot].
  rewrite IH by (rewrite ?length_app; cbn; lia). f_equal. f_equal; [|lia].
  rewrite <- app_assoc. f_equal. apply (cells_ext null); cbn [length app];
    rewrite ?length_tabulate; [lia|].
  intros i Hi. rewrite cell_cons, (cell_tabulate _ (Z.of_nat (S k))) by lia.
  case_decide; [by subst; rewrite Z.add_0_r|]. rewrite cell_tabulate by lia. f_equal. lia.
Qed.

Lemma fill_ok g t1 k :
  len t1 + Z.of_nat k ≤ g → iterate (E := string) k (λ t, construct g t null) t1 = Ok (t1 ++ repeat null k).
Proof.
  revert t1. induction k as [|k IH]; intros t1 H; [cbn; by rewrite app_nil_r|].
  cbn [iterate]. rewrite construct_ok by lia. cbn.
  rewrite IH by (rewrite length_app; cbn; lia). by rewrite <- app_assoc.
Qed.

Lemma length_contents l : 0 ≤ v_size l → is_Some (v_tuple l) → len (contents l) = v_size l.
Proof.
  intros H [t Ht]. unfold contents. rewrite Ht, length_tabulate. lia.
Qed.

Lemma cell_contents l t k :
  v_tuple l = Some t → 0 ≤ k < v_size l →
  cell null (contents l) k = cell null t (wrap (len t) (v_head l + k)).
Proof. intros Ht Hk. unfold contents. rewrite Ht. by rewrite cell_tabulate. Qed.

Lemma contents_eq l t c :
  v_tuple l = Some t → len c = v_size l →
  (∀ k, 0 ≤ k < v_size l → cell null t (wrap (len t) (v_head l + k)) = cell null c k) →
  contents l = c.
Proof.
  intros Ht Hl Hc. unfold contents. rewrite Ht. apply (tabulate_ext null); [lia|done].
Qed.

Lemma resize_ok l t :
  v_tuple l = Some t → 0 ≤ v_head l < len t → 0 < v_size l ≤ len t →
  ∃ l' t', f_resize l = Ok l' ∧ shaped 1 1 l' t' ∧ contents l' = contents l
  ∧ v_size l' = v_size l ∧ v_head l' = 0.
Proof.
  intros Ht Hh Hs. pose proof (resize_policy (v_size l) ltac:(lia)) as [Hg Hsh].
  unfold f_resize, tuple. rewrite Ht. cbn [mbind outcome_bind].
  set (g := size_to_capacity (capacity_to_size (v_size l) * 2)) in *.
  set (sh := if decide _ then 0 else _) in *. clearbody g sh.
  set (k1 := if decide (v_head l + v_size l > len t) then len t - v_head l else 0).
  set (h := if decide (v_head l + v_size l > len t) then 0 else v_head l).
  set (t1 := tabulate k1 (λ i, cell null t (v_head l + i))).
  match goal with |- context [mbind ?f (if decide ?P then ?a else ?b)] =>
    assert (Hfst : (if decide P then a else b) = Ok (t1, h)) end.
  { subst t1 h k1. case_decide; [|done]. unfold do_while.
    rewrite Z.max_r, copy_ok by (cbn; lia). cbn. repeat f_equal. lia. }
  rewrite Hfst. cbn [mbind outcome_bind].
  assert (Hl1 : len t1 = k1) by (subst t1 k1; rewrite length_tabulate; case_decide; lia).
  assert (Hk1 : 0 ≤ k1 < v_size l) by (subst k1; case_decide; lia).
  unfold do_while. rewrite Z.max_r by lia.
  rewrite copy_ok by (subst h k1; case_decide; lia). cbn [mbind outcome_bind].
  rewrite Hl1, Z2Nat.id by lia.
  set (t2 := t1 ++ tabulate _ _). assert (Hl2 : len t2 = v_size l).
  { subst t2. rewrite length_app, length_tabulate. lia. }
  rewrite fill_ok by lia. cbn [mbind outcome_bind].
  eexists _, _. split; [done|]. unfold shaped. cbn -[contents]. split_and!; try lia; try done.
  - rewrite length_app, repeat_length. lia.
  - eapply contents_eq; cbn; [done|rewrite length_contents; [done|lia|by eexists]|].
    intros k Hk. rewrite (cell_contents l t k Ht) by lia.
    unfold wrap at 1. rewrite decide_True by (rewrite length_app, repeat_length; lia).
    rewrite cell_app by lia. rewrite decide_True by lia.
    subst t2. rewrite cell_app by lia. rewrite Hl1. unfold wrap. subst k1 h t1.
    repeat case_decide; try lia; rewrite cell_tabulate by lia; f_equal; lia.
Qed.

Lemma grow_ok l :
  wf l →
  ∃ l' t', grow_if_full l = Ok l' ∧ roomy l' t' ∧ contents l' = contents l
  ∧ v_size l' = v_size l ∧ (v_head l' = 0 ∨ v_head l' = v_head l).
Proof.
  intros [->|(t & Ht & Hl & Hh & Hs & Hsh)]; unfold grow_if_full, f_grow.
  { do 2 eexists. split; [done|]. split_and!; try done; cbn; lia || by left. }
  case_decide; [rewrite decide_False by lia|].
  - destruct (resize_ok l t Ht) as (l' & t' & Heq & (?&?&?&?&?) & ? & ? & ?); [lia..|].
    exists l', t'. unfold roomy, shaped. split_and!; try done; try lia; auto.
  - exists l, t. unfold roomy, shaped. split_and!; try done; try lia; auto.
Qed.

(** After a removal: [l] has at least [v_shrink l] elements left. *)
Lemma shrink_ok l t :
  shaped 0 0 l t → (v_size l = 0 → v_shrink l = 0) →
  ∃ l', shrink_if_sparse l = Ok l' ∧ wf l' ∧ contents l' = contents l.
Proof.
  intros (Ht & Hl & Hh & Hs & Hsh) H0. unfold shrink_if_sparse, f_shrink.
  case_decide; [case_decide|].
  - eexists. split; [done|]. unfold contents. rewrite Ht. split.
    + left. unfold new_list. f_equal; lia.
    + cbn. by replace (v_size l) with 0 by lia.
  - destruct (resize_ok l t Ht) as (l' & t' & Heq & (?&?&?&?&?) & ? & ?); [lia..|].
    exists l'. split_and!; try done. right. exists t'. unfold shaped. split_and!; lia || done.
  - exists l. split_and!; try done. right. exists t. unfold shaped. split_and!; lia || done.
Qed.

(** ** The specification: sequences *)

Implicit Types (c : list V).

Definition spec_index c (i : Z) : outcome Z :=
  let k := if decide (i < 0) then i + len c else i in
  if decide (0 ≤ k < len c) then Ok k else out_of_range.

Definition spec_get c (i : Z) : outcome V := k ← spec_index c i; Ok (cell null c k).

Definition spec_set c (i : Z) (x : V) : outcome (V * list V) :=
  k ← spec_index c i; Ok (x, <[Z.to_nat k := x]> c).

Definition spec_push c (x : V) : outcome (list V) := Ok (c ++ [x]).
Definition spec_unshift c (x : V) : outcome (list V) := Ok (x :: c).

Definition spec_pop c : outcome (V * list V) :=
  match last c with None => empty_list | Some x => Ok (x, removelast c) end.

Definition spec_shift c : outcome (V * list V) :=
  match c with [] => empty_list | x :: c => Ok (x, c) end.

Definition spec_insert c (i : Z) (x : V) : outcome (list V) :=
  k ← (if decide (i = len c) then Ok i else spec_index c i);
  Ok (take (Z.to_nat k) c ++ x :: drop (Z.to_nat k) c).

Definition spec_remove c (i : Z) : outcome (V * list V) :=
  k ← spec_index c i; Ok (cell null c k, take (Z.to_nat k) c ++ drop (S (Z.to_nat k)) c).

(** [l] represents the sequence [c]. *)
Definition represents (l : t_list) (c : list V) : Prop := wf l ∧ contents l = c.
Definition represents_with (r : V * t_list) (s : V * list V) : Prop :=
  r.1 = s.1 ∧ represents r.2 s.2.

(** ** Lemmas on the operations *)

Lemma wf_size l c : represents l c → v_size l = len c.
Proof.
  intros [[->|(t & Ht & Hl & Hh & Hs & Hsh)] <-]; [done|].
  rewrite length_contents; [done|lia|by eexists].
Qed.

Lemma wf_shaped l c :
  represents l c → c ≠ [] → ∃ t, shaped 1 0 l t.
Proof. by intros [[->|?] <-]. Qed.

Lemma slot_of_ok lo sl l t k :
  shaped lo sl l t → 0 ≤ k < v_grow l →
  slot_of l t k = wrap (len t) (v_head l + k) ∧ 0 ≤ wrap (len t) (v_head l + k) < len t.
Proof.
  intros (?&?&?&?&?) Hk. unfold slot_of, wrap. rewrite Z.add_comm. split; [done|]. case_tests.
Qed.

Lemma f_at_ok lo sl l t k :
  0 ≤ sl → shaped lo sl l t → 0 ≤ k < v_size l → f_at l k = Ok (cell null (contents l) k).
Proof.
  intros Hsl Hsh Hk. assert (Hsh' := Hsh). destruct Hsh' as [Ht ?]. unfold f_at, tuple. rewrite Ht. cbn.
  destruct (slot_of_ok lo sl l t k Hsh) as [-> ?]; [lia|].
  rewrite (rd_cell null) by lia. by rewrite (cell_contents l t).
Qed.

Lemma assign_at_ok lo sl l t k x :
  shaped lo sl l t → 0 ≤ k < v_grow l →
  assign_at l k x = Ok (set_tuple (<[Z.to_nat (wrap (len t) (v_head l + k)) := x]> t) l).
Proof.
  intros Hsh Hk. destruct (slot_of_ok lo sl l t k Hsh Hk) as [Hw ?].
  destruct Hsh as [Ht ?]. unfold assign_at, tuple. rewrite Ht. cbn. rewrite Hw.
  by rewrite wr_ok by lia.
Qed.

(** Goals about cells after index computations: case analysis and [lia]. *)
Ltac ring_solve :=
  unfold wrap in *; repeat case_decide; subst; try lia; try done; try (f_equal; lia).

Lemma cell_splice c k x j :
  0 ≤ k ≤ len c → 0 ≤ j →
  cell null (take (Z.to_nat k) c ++ x :: drop (Z.to_nat k) c) j =
  if decide (j < k) then cell null c j else if decide (j = k) then x else cell null c (j - 1).
Proof.
  intros Hk Hj. rewrite cell_app by lia. rewrite length_take.
  destruct (decide (j < k)).
  - rewrite decide_True by lia. by rewrite cell_take by lia.
  - rewrite decide_False by lia. rewrite cell_cons by lia. destruct (decide (j = k)).
    + by rewrite decide_True by lia.
    + rewrite decide_False by lia. rewrite cell_drop by lia. f_equal. lia.
Qed.

Lemma cell_delete c k j :
  0 ≤ k < len c → 0 ≤ j →
  cell null (take (Z.to_nat k) c ++ drop (S (Z.to_nat k)) c) j =
  if decide (j < k) then cell null c j else cell null c (j + 1).
Proof.
  intros Hk Hj. rewrite cell_app by lia. rewrite length_take. destruct (decide (j < k)).
  - rewrite decide_True by lia. by rewrite cell_take by lia.
  - rewrite decide_False by lia. rewrite cell_drop by lia. f_equal. lia.
Qed.

Lemma length_splice c k x :
  0 ≤ k ≤ len c → len (take (Z.to_nat k) c ++ x :: drop (Z.to_nat k) c) = len c + 1.
Proof. intros. rewrite length_app, length_cons, length_take, length_drop. lia. Qed.

Lemma length_delete c k :
  0 ≤ k < len c → len (take (Z.to_nat k) c ++ drop (S (Z.to_nat k)) c) = len c - 1.
Proof. intros. rewrite length_app, length_take, length_drop. lia. Qed.

(** After an insertion: the new buffer [t'] of the roomy list [l], its head
    [h], and the contents it must have. *)
Lemma inserted_ok l t t' h c :
  roomy l t → length t' = length t → 0 ≤ h < len t → len c = v_size l + 1 →
  (∀ k, 0 ≤ k < v_size l + 1 → cell null t' (wrap (len t) (h + k)) = cell null c k) →
  represents (set_size (v_size l + 1) (set_head h (set_tuple t' l))) c.
Proof.
  intros (Ht & Hl & Hh & Hs & Hsh) Hl' Hh' Hc Hk. split.
  - right. exists t'. unfold shaped. cbn. split_and!; lia || done.
  - apply contents_eq with t'; [done|done|]. intros k Hk'. cbn in *. rewrite Hl'. auto.
Qed.

(** After a removal, before shrinking. *)
Lemma removed_ok l t t' h c :
  shaped 1 0 l t → length t' = length t → 0 ≤ h < len t → len c = v_size l - 1 →
  (∀ k, 0 ≤ k < v_size l - 1 → cell null t' (wrap (len t) (h + k)) = cell null c k) →
  ∃ l', shrink_if_sparse (set_size (v_size l - 1) (set_head h (set_tuple t' l))) = Ok l'
  ∧ represents l' c.
Proof.
  intros (Ht & Hl & Hh & Hs & Hsh) Hl' Hh' Hc Hk.
  destruct (shrink_ok (set_size (v_size l - 1) (set_head h (set_tuple t' l))) t')
    as (l' & -> & Hwf & Heq).
  - unfold shaped. cbn. split_and!; lia || done.
  - cbn. lia.
  - exists l'. split; [done|]. split; [done|]. rewrite Heq.
    apply contents_eq with t'; [done|done|]. intros k Hk'. cbn in *. rewrite Hl'. auto.
Qed.

Lemma set_head_id l t : set_head (v_head l) (set_tuple t l) = set_tuple t l.
Proof. done. Qed.

Lemma set_size_size n m l : set_size n (set_size m l) = set_size n l.
Proof. done. Qed.

(** ** Refinement of the operations *)

Lemma f_validate_ok l c i :
  represents l c → f_validate l i = spec_index c i.
Proof.
  intros Hl. unfold f_validate, spec_index. rewrite (wf_size l c Hl).
  destruct (decide (i < 0)); repeat case_decide; done || lia.
Qed.

(** The last steps of a refinement proof: both sides as cells of the old
    buffer, then case analysis. *)
Ltac cells :=
  repeat first
    [ rewrite cell_insert by ring_solve
    | rewrite cell_splice by ring_solve
    | rewrite cell_delete by ring_solve
    | rewrite cell_app by lia
    | rewrite cell_cons by lia ];
  ring_solve.

Lemma f_push_ok l c x : represents l c → outcome_rel represents (f_push l x) (spec_push c x).
Proof.
  intros Hl. pose proof (wf_size l c Hl) as Hn. destruct Hl as [Hwf Hc]. unfold f_push.
  destruct (grow_ok l Hwf) as (l' & t & -> & Hr & Hc' & Hs & _). cbn -[represents].
  assert (Hr' := Hr). destruct Hr' as (Ht & Hl & Hh & Hsz & Hsh).
  rewrite (assign_at_ok 0 1 l' t) by (done || lia). cbn -[represents].
  apply (inserted_ok l' t _ (v_head l')); try done.
  - by rewrite length_insert.
  - lia.
  - rewrite length_app; cbn. lia.
  - intros k Hk. subst c. rewrite <- Hc', !cell_app by lia.
    rewrite length_contents by (lia || by eexists).
    destruct (decide (k < v_size l')); [rewrite (cell_contents l' t k Ht) by lia|]; cells.
Qed.

Lemma f_unshift_ok l c x :
  represents l c → outcome_rel represents (f_unshift l x) (spec_unshift c x).
Proof.
  intros Hl. pose proof (wf_size l c Hl) as Hn. destruct Hl as [Hwf Hc]. unfold f_unshift.
  destruct (grow_ok l Hwf) as (l' & t & -> & Hr & Hc' & Hs & _). cbn -[represents].
  assert (Hr' := Hr). destruct Hr' as (Ht & Hl & Hh & Hsz & Hsh).
  unfold tuple. rewrite Ht. cbn -[represents].
  set (h := (if decide (v_head l' > 0) then v_head l' else len t) - 1).
  assert (0 ≤ h < len t) by (subst h; case_decide; lia).
  rewrite wr_ok by lia. cbn -[represents].
  apply (inserted_ok l' t _ h); try done.
  - by rewrite length_insert.
  - cbn. lia.
  - intros k Hk. subst c. rewrite <- Hc', cell_cons by lia.
    destruct (decide (k = 0)); [|rewrite (cell_contents l' t (k - 1) Ht) by lia];
      subst h; cells.
Qed.

Lemma cell_last c x : last c = Some x → c = removelast c ++ [x] ∧ x = cell null c (len c - 1).
Proof.
  intros H. apply last_Some in H as [c' ->]. rewrite removelast_last. split; [done|].
  rewrite length_app, cell_app by (cbn; lia). cbn [length].
  rewrite decide_False by lia. rewrite cell_cons by lia. by rewrite decide_True by lia.
Qed.

Lemma cell_removelast c k : 0 ≤ k < len c - 1 → cell null (removelast c) k = cell null c k.
Proof.
  intros Hk. destruct (last c) as [x|] eqn:E; [|apply last_None in E; subst; cbn in *; lia].
  apply cell_last in E as [E _]. assert (len c = len (removelast c) + 1).
  { rewrite E at 1. rewrite length_app. cbn. lia. }
  rewrite E at 2. rewrite cell_app by lia. by rewrite decide_True by lia.
Qed.

Lemma f_pop_ok l c : represents l c → outcome_rel represents_with (f_pop l) (spec_pop c).
Proof.
  intros Hl. pose proof (wf_size l c Hl) as Hn. unfold f_pop, spec_pop.
  destruct (last c) as [x|] eqn:E.
  - pose proof (cell_last c x E) as [Ec ->].
    assert (c ≠ []) as Hne by (by intros ->). assert (0 < len c) by (destruct c; cbn; done || lia).
    destruct (wf_shaped l c Hl Hne) as [t Hsh]. destruct Hl as [Hwf Hc].
    rewrite decide_False by lia.
    assert (Hsh' := Hsh). destruct Hsh' as (Ht & Hg & Hh & Hsz & Hs).
    assert (Hpre : shaped 0 0 (set_size (v_size l - 1) l) t)
      by (unfold shaped; cbn; split_and!; lia || done).
    unfold f_at, tuple. cbn [v_tuple set_size v_size]. rewrite Ht. cbn -[represents_with].
    destruct (slot_of_ok 0 0 _ t (v_size l - 1) Hpre) as [-> Hw]; [cbn; lia|]. cbn in Hw.
    rewrite (rd_cell null) by done. cbn -[represents_with].
    rewrite (assign_at_ok 0 0 _ t) by (done || cbn; lia). cbn -[represents_with].
    destruct (removed_ok l t (<[Z.to_nat (wrap (len t) (v_head l + (v_size l - 1))) := null]> t)
      (v_head l) (removelast c)) as (l' & Heq & Hrep); try done.
    + by rewrite length_insert.
    + lia.
    + assert (len c = len (removelast c) + 1); [|lia].
      rewrite Ec at 1. rewrite length_app. cbn. lia.
    + intros k Hk. rewrite cell_removelast by lia. subst c.
      rewrite (cell_contents l t k Ht) by lia. cells.
    + change (set_tuple ?a (set_size ?n l)) with (set_size n (set_head (v_head l) (set_tuple a l))).
      rewrite Heq. cbn -[represents]. split; [|done]. cbn. subst c.
      rewrite length_contents in * by (lia || by eexists).
      by rewrite (cell_contents l t (v_size l - 1) Ht) by lia.
  - apply last_None in E. subst c. cbn in Hn. rewrite Hn. by rewrite decide_True.
Qed.

Lemma f_shift_ok l c : represents l c → outcome_rel represents_with (f_shift l) (spec_shift c).
Proof.
  intros Hl. pose proof (wf_size l c Hl) as Hn. unfold f_shift, spec_shift.
  destruct c as [|x c]; [cbn in Hn; rewrite Hn; by rewrite decide_True|].
  destruct (wf_shaped l _ Hl) as [t Hsh]; [done|]. destruct Hl as [Hwf Hc].
  cbn [length] in Hn. rewrite decide_False by lia.
  destruct Hsh as (Ht & Hg & Hh & Hsz & Hs) eqn:Hshaped. clear Hshaped.
  unfold tuple. rewrite Ht. cbn -[represents_with].
  rewrite (rd_cell null), wr_ok by lia. cbn -[represents_with]. rewrite length_insert.
  set (h := if decide (v_head l + 1 >= len t) then 0 else v_head l + 1).
  destruct (removed_ok l t (<[Z.to_nat (v_head l) := null]> t) h c) as (l' & Heq & Hrep); try done.
  - by rewrite length_insert.
  - subst h. case_decide; lia.
  - lia.
  - intros k Hk.
    assert (Hx : cell null c k = cell null (contents l) (k + 1)).
    { rewrite Hc, cell_cons, decide_False by lia. f_equal. lia. }
    rewrite Hx, (cell_contents l t (k + 1) Ht) by lia. subst h. cells.
  - rewrite Heq. cbn -[represents]. split; [|done]. cbn.
    assert (Hx : cell null (contents l) 0 = x) by (by rewrite Hc).
    rewrite <- Hx, (cell_contents l t 0 Ht) by lia. cells.
Qed.

(** Rewriting cells of assigned and moved buffers, from the hypotheses of
    [assign_forward_ok] and [assign_backward_ok]. *)
Ltac moved_cells :=
  repeat match goal with
  | H : ∀ j, 0 ≤ j → cell null ?t j = _ |- context [cell null ?t ?i] =>
      rewrite (H i) by ring_solve
  end; cells.

Ltac step_assign lem y :=
  match goal with
  | |- context [assign_forward ?p ?q ?src ?t] =>
      let t' := fresh "t'" in
      destruct (assign_forward_ok p q src y t) as (t' & -> & ? & ?);
        [ring_solve|ring_solve|apply lem; ring_solve|]
  | |- context [assign_backward ?p ?q ?src ?t] =>
      let t' := fresh "t'" in
      destruct (assign_backward_ok p q src y t) as (t' & -> & ? & ?);
        [ring_solve|ring_solve|apply lem; ring_solve|]
  end; cbn -[represents represents_with shrink_if_sparse].

(** The two halves of [f_insert] and the two halves of [f_remove], as they
    stand in the source after the index has been validated and the buffer has
    been made roomy. *)
Lemma insert_front_ok l t n k x :
  n = len t → roomy l t → 0 < k < v_size l →
  ∃ t' h, (if decide (v_head l + k > n) then
       t ← assign_backward (v_head l - 1) (n - 1) (slot 0) t;
       t ← assign_backward 0 (v_head l + k - 1 - n) (value x) t;
       Ok (set_head (v_head l - 1) (set_tuple t l))
     else if decide (v_head l > 0) then
       t ← assign_backward (v_head l - 1) (v_head l + k - 1) (value x) t;
       Ok (set_head (v_head l - 1) (set_tuple t l))
     else
       x0 ← rd t 0;
       t ← wr t (n - 1) x0;
       t ← assign_backward 0 (v_head l + k - 1) (value x) t;
       Ok (set_head (n - 1) (set_tuple t l)))
    = Ok (set_head h (set_tuple t' l))
  ∧ length t' = length t ∧ 0 ≤ h < len t
  ∧ ∀ j, 0 ≤ j < v_size l + 1 → cell null t' (wrap (len t) (h + j)) =
      if decide (j < k) then cell null t (wrap (len t) (v_head l + j))
      else if decide (j = k) then x
      else cell null t (wrap (len t) (v_head l + (j - 1))).
Proof.
  intros -> (Ht & Hg & Hh & Hs & Hsh) Hk.
  repeat case_decide.
  - assert (Hhead : v_head l > 1 ∨ v_head l ≤ 1) by lia. destruct Hhead; [|lia].
    step_assign yields_slot (cell null t 0). step_assign yields_value x.
    eexists _, _. split; [done|]. split_and!; [congruence|lia|lia|].
    intros j Hj. unfold wrap. repeat case_decide; try lia; moved_cells.
  - step_assign yields_value x.
    eexists _, _. split; [done|]. split_and!; [congruence|lia|lia|].
    intros j Hj. unfold wrap. repeat case_decide; try lia; moved_cells.
  - rewrite (rd_cell null) by lia. cbn -[assign_backward]. rewrite wr_ok by lia. cbn -[assign_backward].
    pose proof (length_insert t (Z.to_nat (len t - 1)) (cell null t 0)) as Hl.
    pose proof (λ j, cell_insert null t (len t - 1) j (cell null t 0)) as Hc.
    set (t1 := <[_ := _]> t) in *. clearbody t1.
    step_assign yields_value x.
    eexists _, _. split; [done|]. split_and!; [congruence|lia|lia|].
    intros j Hj. unfold wrap. repeat case_decide; try lia; moved_cells;
      rewrite Hc by lia; ring_solve.
Qed.

Lemma insert_back_ok l t n k x :
  n = len t → roomy l t → 0 ≤ k < v_size l →
  ∃ t', (if decide (v_head l + k >= n) then
       t ← assign_forward (v_head l + k - n) (v_head l + v_size l - n) (value x) t;
       Ok (set_tuple t l)
     else if decide (v_head l + v_size l >= n) then
       t ← assign_forward 0 (v_head l + v_size l - n) (slot (n - 1)) t;
       t ← assign_forward (v_head l + k) (n - 1) (value x) t;
       Ok (set_tuple t l)
     else
       t ← assign_forward (v_head l + k) (v_head l + v_size l) (value x) t;
       Ok (set_tuple t l))
    = Ok (set_head (v_head l) (set_tuple t' l))
  ∧ length t' = length t
  ∧ ∀ j, 0 ≤ j < v_size l + 1 → cell null t' (wrap (len t) (v_head l + j)) =
      if decide (j < k) then cell null t (wrap (len t) (v_head l + j))
      else if decide (j = k) then x
      else cell null t (wrap (len t) (v_head l + (j - 1))).
Proof.
  intros -> (Ht & Hg & Hh & Hs & Hsh) Hk.
  repeat case_decide.
  - step_assign yields_value x.
    eexists. split; [done|]. split; [congruence|].
    intros j Hj. unfold wrap. repeat case_decide; try lia; moved_cells.
  - step_assign yields_slot (cell null t (len t - 1)). step_assign yields_value x.
    eexists. split; [done|]. split; [congruence|].
    intros j Hj. unfold wrap. repeat case_decide; try lia; moved_cells.
  - step_assign yields_value x.
    eexists. split; [done|]. split; [congruence|].
    intros j Hj. unfold wrap. repeat case_decide; try lia; moved_cells.
Qed.

Lemma spec_index_cases c i :
  (∃ k, spec_index c i = Ok k ∧ 0 ≤ k < len c ∧ (k = i ∨ k = i + len c))
  ∨ spec_index c i = out_of_range.
Proof.
  unfold spec_index. case_decide as Hk; [left|by right].
  eexists. split_and!; [done|lia|lia|]. destruct (decide (i < 0)); auto.
Qed.

Lemma f_insert_ok l c i x :
  represents l c → i ≠ - len c ∨ c = [] →
  outcome_rel represents (f_insert l i x) (spec_insert c i x).
Proof.
  intros Hl Hi. pose proof (wf_size l c Hl) as Hn. unfold f_insert, spec_insert.
  rewrite Hn. destruct (decide (i = len c)) as [->|Hne].
  { cbn -[represents]. rewrite Nat2Z.id, take_ge, drop_ge by lia. by apply f_push_ok. }
  destruct (decide (i = 0)) as [->|Hne0].
  { unfold spec_index. destruct (decide (0 < 0)); [lia|].
    rewrite decide_True by (destruct c; done || cbn in *; lia).
    cbn -[represents]. by apply f_unshift_ok. }
  rewrite (f_validate_ok l c) by done.
  destruct (spec_index_cases c i) as [(k & -> & Hk & Hki)| ->]; [|done]. cbn -[represents].
  assert (Hk0 : 0 < k) by (destruct Hi as [Hi | ->]; cbn in *; lia).
  destruct Hl as [Hwf Hc].
  destruct (grow_ok l Hwf) as (l' & t & -> & Hr & Hc' & Hs & _). cbn -[represents].
  assert (Hr' := Hr). destruct Hr' as (Ht & Hg & Hh & Hsz & Hsh).
  unfold tuple. rewrite Ht. cbn -[represents assign_forward assign_backward].
  assert (Hcont : ∀ j, 0 ≤ j < v_size l' → cell null c j = cell null t (wrap (len t) (v_head l' + j)))
    by (intros j Hj; rewrite <- Hc, <- Hc'; by apply cell_contents).
  destruct (decide (k < v_size l' - k)).
  - destruct (insert_front_ok l' t (len t) k x eq_refl Hr) as (t' & h & -> & Hl' & Hh' & Hcell); [lia|].
    cbn -[represents]. apply (inserted_ok l' t); try done; [rewrite length_splice; lia|].
    intros j Hj. rewrite Hcell, cell_splice by lia.
    repeat case_decide; try done; symmetry; apply Hcont; lia.
  - destruct (insert_back_ok l' t (len t) k x eq_refl Hr) as (t' & -> & Hl' & Hcell); [lia|].
    cbn -[represents]. apply (inserted_ok l' t); try done; [lia|rewrite length_splice; lia|].
    intros j Hj. rewrite Hcell, cell_splice by lia.
    repeat case_decide; try done; symmetry; apply Hcont; lia.
Qed.

Lemma remove_front_ok l t n k :
  n = len t → shaped 1 0 l t → 0 ≤ k < v_size l - k →
  ∃ t', (if decide (v_head l + k >= n) then
       t ← assign_forward 0 (v_head l + k - n) (slot (n - 1)) t;
       assign_forward (v_head l) (n - 1) (value null) t
     else assign_forward (v_head l) (v_head l + k) (value null) t) = Ok t'
  ∧ length t' = length t
  ∧ ∀ j, 0 ≤ j < v_size l - 1 →
      cell null t' (wrap (len t) (wrap (len t) (v_head l + 1) + j)) =
      if decide (j < k) then cell null t (wrap (len t) (v_head l + j))
      else cell null t (wrap (len t) (v_head l + (j + 1))).
Proof.
  intros -> (Ht & Hg & Hh & Hs & Hsh) Hk.
  case_decide.
  - step_assign yields_slot (cell null t (len t - 1)). step_assign yields_value null.
    eexists. split; [done|]. split; [congruence|].
    intros j Hj. unfold wrap. repeat case_decide; try lia; moved_cells.
  - step_assign yields_value null.
    eexists. split; [done|]. split; [congruence|].
    intros j Hj. unfold wrap. repeat case_decide; try lia; moved_cells.
Qed.

Lemma remove_back_ok l t n k :
  n = len t → shaped 1 0 l t → 0 ≤ k < v_size l → ¬ k < v_size l - k →
  ∃ t', (if decide (v_head l + k >= n) then
       assign_backward (v_head l + k - n) (v_head l + v_size l - 1 - n) (value null) t
     else if decide (v_head l + v_size l > n) then
       t ← assign_backward (v_head l + k) (n - 1) (slot 0) t;
       assign_backward 0 (v_head l + v_size l - 1 - n) (value null) t
     else assign_backward (v_head l + k) (v_head l + v_size l - 1) (value null) t) = Ok t'
  ∧ length t' = length t
  ∧ ∀ j, 0 ≤ j < v_size l - 1 → cell null t' (wrap (len t) (v_head l + j)) =
      if decide (j < k) then cell null t (wrap (len t) (v_head l + j))
      else cell null t (wrap (len t) (v_head l + (j + 1))).
Proof.
  intros -> (Ht & Hg & Hh & Hs & Hsh) Hk Hback.
  repeat case_decide.
  - step_assign yields_value null.
    eexists. split; [done|]. split; [congruence|].
    intros j Hj. unfold wrap. repeat case_decide; try lia; moved_cells.
  - step_assign yields_slot (cell null t 0). step_assign yields_value null.
    eexists. split; [done|]. split; [congruence|].
    intros j Hj. unfold wrap. repeat case_decide; try lia; moved_cells.
  - step_assign yields_value null.
    eexists. split; [done|]. split; [congruence|].
    intros j Hj. unfold wrap. repeat case_decide; try lia; moved_cells.
Qed.

Lemma f_remove_ok l c i :
  represents l c → outcome_rel represents_with (f_remove l i) (spec_remove c i).
Proof.
  intros Hl. pose proof (wf_size l c Hl) as Hn. unfold f_remove, spec_remove.
  rewrite (f_validate_ok l c) by done.
  destruct (spec_index_cases c i) as [(k & -> & Hk & _)| ->]; [|done]. cbn -[represents_with].
  assert (c ≠ []) as Hne by (intros ->; cbn in Hk; lia).
  destruct (wf_shaped l c Hl Hne) as [t Hshp]. destruct Hl as [Hwf Hc].
  assert (Hsh := Hshp). destruct Hsh as (Ht & Hg & Hh & Hsz & Hs).
  unfold tuple. rewrite Ht. cbn -[represents_with assign_forward assign_backward shrink_if_sparse].
  assert (Hcont : ∀ j, 0 ≤ j < v_size l → cell null c j = cell null t (wrap (len t) (v_head l + j)))
    by (intros j Hj; rewrite <- Hc; by apply cell_contents).
  change (if decide (v_head l + k < len t) then v_head l + k else v_head l + k - len t)
    with (wrap (len t) (v_head l + k)).
  rewrite (rd_cell null) by ring_solve.
  cbn -[represents_with assign_forward assign_backward shrink_if_sparse].
  destruct (decide (k < v_size l - k)).
  - destruct (remove_front_ok l t (len t) k eq_refl Hshp) as (t' & -> & Hl' & Hcell); [lia|].
    cbn -[represents_with shrink_if_sparse].
    destruct (removed_ok l t t' (wrap (len t) (v_head l + 1))
      (take (Z.to_nat k) c ++ drop (S (Z.to_nat k)) c)) as (l' & Heq & Hrep); try done.
    + ring_solve.
    + rewrite length_delete; lia.
    + intros j Hj. rewrite Hcell, cell_delete by lia. repeat case_decide; symmetry; apply Hcont; lia.
    + replace (if decide (v_head l + 1 >= len t) then 0 else v_head l + 1)
        with (wrap (len t) (v_head l + 1)) by ring_solve.
      rewrite Heq. cbn -[represents]. split; [symmetry; apply Hcont; lia|done].
  - destruct (remove_back_ok l t (len t) k eq_refl Hshp) as (t' & -> & Hl' & Hcell); [lia..|].
    cbn -[represents_with shrink_if_sparse].
    destruct (removed_ok l t t' (v_head l)
      (take (Z.to_nat k) c ++ drop (S (Z.to_nat k)) c)) as (l' & Heq & Hrep); try done.
    + lia.
    + rewrite length_delete; lia.
    + intros j Hj. rewrite Hcell, cell_delete by lia. repeat case_decide; symmetry; apply Hcont; lia.
    + rewrite set_head_id in Heq. rewrite Heq. cbn -[represents].
      split; [symmetry; apply Hcont; lia|done].
Qed.

Lemma get_at_ok l c i : represents l c → get_at l i = spec_get c i.
Proof.
  intros Hl. pose proof (wf_size l c Hl) as Hn. unfold get_at, spec_get.
  rewrite (f_validate_ok l c) by done.
  destruct (spec_index_cases c i) as [(k & -> & Hk & _)| ->]; [|done]. cbn.
  assert (c ≠ []) as Hne by (intros ->; cbn in Hk; lia).
  destruct (wf_shaped l c Hl Hne) as [t Hsh]. destruct Hl as [Hwf <-].
  by rewrite (f_at_ok 1 0 l t) by (done || lia).
Qed.

Lemma set_at_ok l c i x :
  represents l c → outcome_rel represents_with (set_at l i x) (spec_set c i x).
Proof.
  intros Hl. pose proof (wf_size l c Hl) as Hn. unfold set_at, spec_set.
  rewrite (f_validate_ok l c) by done.
  destruct (spec_index_cases c i) as [(k & -> & Hk & _)| ->]; [|done]. cbn -[represents_with].
  assert (c ≠ []) as Hne by (intros ->; cbn in Hk; lia).
  destruct (wf_shaped l c Hl Hne) as [t Hshp]. destruct Hl as [Hwf Hc].
  assert (Hsh := Hshp). destruct Hsh as (Ht & Hg & Hh & Hsz & Hs).
  rewrite (assign_at_ok 1 0 l t) by (done || lia). cbn -[represents].
  split; [done|]. split.
  - right. eexists. unfold shaped. cbn. rewrite length_insert. split_and!; done || lia.
  - apply contents_eq with (<[Z.to_nat (wrap (len t) (v_head l + k)):=x]> t); [done|..].
    + cbn. rewrite length_insert. lia.
    + cbn. intros j Hj. rewrite length_insert. rewrite (cell_insert null c k j) by lia.
      subst c. rewrite (cell_contents l t j Ht) by lia. cells.
Qed.

(** ** Sequences of operations

    The operations a program applies to a list, with their results. *)
Inductive command :=
| Get (i : Z) | Set_ (i : Z) (x : V)
| Push (x : V) | Pop | Unshift (x : V) | Shift
| Insert (i : Z) (x : V) | Remove (i : Z) | Clear.

(** Results of commands: a value, or nothing. *)
Definition run (l : t_list) (o : command) : outcome (option V * t_list) :=
  match o with
  | Get i => x ← get_at l i; Ok (Some x, l)
  | Set_ i x => '(y, l) ← set_at l i x; Ok (Some y, l)
  | Push x => l ← f_push l x; Ok (None, l)
  | Pop => '(y, l) ← f_pop l; Ok (Some y, l)
  | Unshift x => l ← f_unshift l x; Ok (None, l)
  | Shift => '(y, l) ← f_shift l; Ok (Some y, l)
  | Insert i x => l ← f_insert l i x; Ok (None, l)
  | Remove i => '(y, l) ← f_remove l i; Ok (Some y, l)
  | Clear => Ok (None, f_clear l)
  end.

Definition spec_run c (o : command) : outcome (option V * list V) :=
  match o with
  | Get i => x ← spec_get c i; Ok (Some x, c)
  | Set_ i x => '(y, c) ← spec_set c i x; Ok (Some y, c)
  | Push x => c ← spec_push c x; Ok (None, c)
  | Pop => '(y, c) ← spec_pop c; Ok (Some y, c)
  | Unshift x => c ← spec_unshift c x; Ok (None, c)
  | Shift => '(y, c) ← spec_shift c; Ok (Some y, c)
  | Insert i x => c ← spec_insert c i x; Ok (None, c)
  | Remove i => '(y, c) ← spec_remove c i; Ok (Some y, c)
  | Clear => Ok (None, [])
  end.

(** The one insertion the code gets wrong: see [insert_at_minus_size]. *)
Definition sound_insert c (o : command) : bool :=
  match o with
  | Insert i _ => negb (bool_decide (i = - len c ∧ c ≠ []))
  | _ => true
  end.

Fixpoint sound_inserts c (os : list command) : bool :=
  match os with
  | [] => true
  | o :: os =>
    sound_insert c o &&
    match spec_run c o with Ok (_, c') => sound_inserts c' os | _ => sound_inserts c os end
  end.

Definition run_rel (r : option V * t_list) (s : option V * list V) : Prop :=
  r.1 = s.1 ∧ represents r.2 s.2.

Lemma outcome_rel_some (m : outcome (V * t_list)) s :
  outcome_rel represents_with m s →
  outcome_rel run_rel ('(y, l) ← m; Ok (Some y, l)) ('(y, c) ← s; Ok (Some y, c)).
Proof.
  destruct m as [[]| |], s as [[]| |]; try done. intros [H ?]. cbn in H. subst. by split.
Qed.

Lemma outcome_rel_none (m : outcome t_list) s :
  outcome_rel represents m s →
  outcome_rel run_rel (l ← m; Ok (None, l)) (c ← s; Ok (None, c)).
Proof. destruct m, s; try done. Qed.

Lemma new_list_ok : represents new_list [].
Proof. split; [by left|done]. Qed.

Lemma run_ok l c o :
  represents l c → sound_insert c o = true → outcome_rel run_rel (run l o) (spec_run c o).
Proof.
  intros Hl Ho. destruct o; cbn [run spec_run].
  - rewrite (get_at_ok l c) by done. unfold spec_get.
    destruct (spec_index_cases c i) as [(k & -> & _)| ->]; [by split|done].
  - by apply outcome_rel_some, set_at_ok.
  - by apply outcome_rel_none, f_push_ok.
  - by apply outcome_rel_some, f_pop_ok.
  - by apply outcome_rel_none, f_unshift_ok.
  - by apply outcome_rel_some, f_shift_ok.
  - apply outcome_rel_none, f_insert_ok; [done|]. cbn in Ho.
    apply negb_true_iff, bool_decide_eq_false in Ho.
    destruct (decide (i = - len c)); [|by left]. right. destruct c; [done|naive_solver].
  - by apply outcome_rel_some, f_remove_ok.
  - split; [done|apply new_list_ok].
Qed.

(** No specified operation faults. *)
Lemma spec_run_no_fault c o : spec_run c o ≠ Fault.
Proof.
  destruct o; cbn; unfold spec_get, spec_set, spec_pop, spec_shift, spec_insert, spec_remove;
    try done; try (destruct (spec_index_cases c i) as [(k & -> & _)| ->]; done).
  - by destruct (last c).
  - by destruct c.
  - destruct (decide _); [done|].
    by destruct (spec_index_cases c i) as [(k & -> & _)| ->].
Qed.

(** The index [-size] is validated to 0, but the front insertion of the
    source assumes a positive index: with the head at the start of the buffer
    the new element lands behind the first one. *)
Lemma insert_at_minus_size l x0 c x :
  represents l (x0 :: c) →
  outcome_rel represents (f_insert l (- len (x0 :: c)) x)
    (Ok (if decide (v_head l = 0 ∨ v_size l >= v_grow l) then x0 :: x :: c else x :: x0 :: c)).
Proof.
  intros Hl. pose proof (wf_size l _ Hl) as Hn.
  assert (Hlen : len (x0 :: c) = len c + 1) by (cbn; lia).
  unfold f_insert. rewrite decide_False by lia. rewrite decide_False by lia.
  rewrite (f_validate_ok l _ _ Hl).
  destruct (spec_index_cases (x0 :: c) (- len (x0 :: c))) as [(k & -> & Hk & Hki)|E].
  2: { unfold spec_index in E. rewrite (decide_True (P := - _ < 0)) in E by lia.
       by rewrite decide_True in E by lia. }
  assert (k = 0) as -> by lia. clear Hk Hki. cbn [mbind outcome_bind].
  assert (Hhead : ∃ l' t, grow_if_full l = Ok l' ∧ roomy l' t ∧ contents l' = contents l
    ∧ v_size l' = v_size l
    ∧ v_head l' = if decide (v_head l = 0 ∨ v_size l >= v_grow l) then 0 else v_head l).
  { destruct Hl as [Hwf Hc]. destruct Hwf as [->|(t & Ht & Hg & Hh & Hs & Hsh)]; [cbn in *; lia|].
    unfold grow_if_full, f_grow. case_decide.
    - rewrite decide_False by lia.
      destruct (resize_ok l t Ht) as (l' & t' & Heq & (?&?&?&?&?) & ? & ? & ?); [lia..|].
      exists l', t'. rewrite decide_True by lia. unfold roomy, shaped. split_and!; done || lia.
    - exists l, t. unfold roomy, shaped. split_and!; try done; try lia. case_decide; lia. }
  destruct Hhead as (l' & t & -> & Hr & Hc & Hs & Hh). destruct Hl as [Hwf Hc0].
  assert (Hr' := Hr). destruct Hr' as (Ht & Hg & Hh' & Hsz & Hsh).
  cbn -[represents assign_backward length]. unfold tuple. rewrite Ht.
  cbn -[represents assign_backward length]. rewrite decide_True by lia.
  rewrite Z.add_0_r. rewrite (decide_False (P := v_head l' > len t)) by lia.
  assert (Hcell : ∀ j, 0 ≤ j < len c + 1 →
    cell null (x0 :: c) j = cell null t (wrap (len t) (v_head l' + j))).
  { intros j Hj. rewrite <- Hc0, <- Hc. apply cell_contents; [done|lia]. }
  pose proof (Hcell 0 ltac:(lia)) as Hx0. rewrite cell_cons, decide_True, Z.add_0_r in Hx0 by lia.
  destruct (decide (v_head l = 0 ∨ v_size l >= v_grow l)) as [Hz|Hz].
  - rewrite (decide_False (P := v_head l' > 0)) by lia.
    rewrite (rd_cell null) by lia. cbn -[represents assign_backward length].
    rewrite wr_ok by lia. cbn -[represents assign_backward length].
    rewrite Hh. change (0 - 1) with (-1). rewrite assign_backward_empty by (rewrite length_insert; lia).
    cbn -[represents length].
    apply (inserted_ok l' t); try done; rewrite ?length_insert; try done; try lia;
      [cbn; lia|].
    intros j Hj. change 0%nat with (Z.to_nat 0).
    rewrite !cell_insert by (rewrite ?length_insert; ring_solve).
    rewrite cell_cons by lia. destruct (decide (j = 0)).
    + rewrite decide_False, decide_True by ring_solve. rewrite Hx0. unfold wrap.
      rewrite decide_True by lia. f_equal. lia.
    + rewrite cell_cons by lia. destruct (decide (j - 1 = 0)); [by rewrite decide_True by ring_solve|].
      rewrite !decide_False by ring_solve.
      pose proof (Hcell (j - 1) ltac:(lia)) as E. rewrite cell_cons, decide_False in E by lia.
      rewrite E. ring_solve.
  - rewrite decide_True by lia.
    destruct (assign_backward_ok (v_head l' - 1) (v_head l' - 1) (value x) x t)
      as (t' & -> & Hl' & Hc'); [lia|lia|apply yields_value|]. cbn -[represents length].
    apply (inserted_ok l' t); try done; try lia; [cbn; lia|].
    intros j Hj. rewrite Hc' by ring_solve. rewrite cell_cons by lia.
    destruct (decide (j = 0)); [by rewrite decide_True by ring_solve|].
    rewrite !decide_False by ring_solve. rewrite (Hcell (j - 1)) by lia. ring_solve.
Qed.

(** The results a program may see: those of the sequence, but for an [insert]
    at the index minus the size of a sequence that is not empty, which may put
    the element behind the first one. *)
Inductive admits : list V → list command → list (outcome (option V)) → Prop :=
| admits_nil c : admits c [] []
| admits_returns c o r c' os rs :
    spec_run c o = Ok (r, c') → admits c' os rs → admits c (o :: os) (Ok r :: rs)
| admits_throws c o e os rs :
    spec_run c o = Throw e → admits c os rs → admits c (o :: os) (Throw e :: rs)
| admits_misplaced x0 c x os rs :
    admits (x0 :: x :: c) os rs →
    admits (x0 :: c) (Insert (- len (x0 :: c)) x :: os) (Ok None :: rs).

(** Every call goes on with the sequence, or is the misplacing one. *)
Lemma run_cases l c o :
  represents l c →
  outcome_rel run_rel (run l o) (spec_run c o)
  ∨ ∃ x0 c0 x l', c = x0 :: c0 ∧ o = Insert (- len c) x
    ∧ run l o = Ok (None, l') ∧ represents l' (x0 :: x :: c0).
Proof.
  intros Hl. destruct (sound_insert c o) eqn:Ho; [left; by apply run_ok|].
  destruct o as [| | | | | |i x| |]; try done. cbn in Ho.
  apply negb_false_iff, bool_decide_eq_true in Ho as [-> Hc]. destruct c as [|x0 c]; [done|].
  pose proof (insert_at_minus_size l x0 c x Hl) as H. cbn [run spec_run].
  destruct (f_insert l (- len (x0 :: c)) x) as [l'| |]; try done.
  cbn [mbind outcome_bind outcome_rel] in *. case_decide; [right; by exists x0, c, x, l'|].
  left. unfold spec_insert, spec_index.
  rewrite (decide_False (P := - len (x0 :: c) = len (x0 :: c))) by (cbn; lia).
  rewrite (decide_True (P := - len (x0 :: c) < 0)) by (cbn; lia).
  rewrite decide_True by (cbn; lia). cbn [mbind outcome_bind outcome_rel].
  replace (Z.to_nat (- len (x0 :: c) + len (x0 :: c))) with 0%nat by lia. by split.
Qed.

Lemma trace_admitted l c os : represents l c → admits c os (trace run l os).
Proof.
  revert l c. induction os as [|o os IH]; intros l c Hl; [constructor|]. cbn [trace].
  destruct (run_cases l c o Hl) as [Hrel|(x0 & c0 & x & l' & -> & -> & -> & Hl')].
  2: { apply admits_misplaced. by apply IH. }
  pose proof (spec_run_no_fault c o) as Hf.
  destruct (run l o) as [[r l']| |], (spec_run c o) as [[r' c']| |] eqn:E; try done.
  - destruct Hrel as [Hr Hl']. cbn in Hr. subst r'. eapply admits_returns; [done|by apply IH].
  - cbn in Hrel. subst. eapply admits_throws; [done|by apply IH].
Qed.

Lemma admits_no_fault c os rs : admits c os rs → Fault ∉ rs.
Proof.
  induction 1; [by apply not_elem_of_nil|by apply not_elem_of_cons..].
Qed.

(** Without the misplacing insertion there is one trace. *)
Lemma admits_sound c os rs : admits c os rs → sound_inserts c os = true → rs = trace spec_run c os.
Proof.
  induction 1 as [|c o r c' os rs E _ IH|c o e os rs E _ IH|x0 c x os rs _ _]; [done|..].
  - cbn. rewrite E. intros [_ Ho]%andb_true_iff. f_equal. by apply IH.
  - cbn. rewrite E. intros [_ Ho]%andb_true_iff. f_equal. by apply IH.
  - cbn. rewrite bool_decide_true by done. done.
Qed.

Lemma push_all_ok l c xs :
  represents l c → outcome_rel represents (push_all l xs) (Ok (c ++ xs)).
Proof.
  revert l c. induction xs as [|x xs IH]; intros l c Hl; cbn [push_all]; [by rewrite app_nil_r|].
  pose proof (f_push_ok l c x Hl) as H. destruct (f_push l x) as [l'| |]; try done.
  cbn [mbind outcome_bind]. replace (c ++ x :: xs) with ((c ++ [x]) ++ xs) by (by rewrite <- app_assoc).
  by apply IH.
Qed.

(** A callable that leaves the list alone sees every element, in order. *)
Lemma each_ok {S} (f : V → S → S) l c (s : S) (fuel : nat) i :
  represents l c → 0 ≤ i ≤ len c → len c - i < Z.of_nat fuel →
  each fuel (λ x s l, Ok (f x s, l)) i s l
  = Ok (foldl (λ s x, f x s) s (drop (Z.to_nat i) c), l).
Proof.
  intros Hl. pose proof (wf_size l c Hl) as Hn. revert i s.
  induction fuel as [|fuel IH]; intros i s Hi Hf; [lia|].
  cbn [each]. case_decide; [rewrite drop_ge by lia; done|].
  rewrite (get_at_ok l c) by done. unfold spec_get, spec_index.
  rewrite (decide_False (P := i < 0)), decide_True by lia. cbn.
  rewrite IH by lia. do 2 f_equal. unfold cell.
  replace (Z.to_nat (i + 1)) with (Datatypes.S (Z.to_nat i)) by lia.
  destruct (lookup_lt_is_Some_2 c (Z.to_nat i)) as [x Hx]; [lia|].
  rewrite (drop_S c x (Z.to_nat i)) by done; cbn. by rewrite nth_lookup, Hx.
Qed.

(** The text of a list: its elements' texts separated by commas. *)
Definition spec_string (f_string : V → string) c : string :=
  "[" +:+ String.concat ", " (map f_string c) +:+ "]".

Lemma string_items_ok f_string l c i s (fuel : nat) :
  represents l c → 0 ≤ i < len c → len c - i ≤ Z.of_nat fuel →
  string_items fuel f_string i l (cell null c i) s
  = Ok (s +:+ String.concat ", " (map f_string (drop (Z.to_nat i) c)))%string.
Proof.
  intros Hl. pose proof (wf_size l c Hl) as Hn. revert i s.
  induction fuel as [|fuel IH]; intros i s Hi Hf; [lia|].
  cbn [string_items].
  destruct (lookup_lt_is_Some_2 c (Z.to_nat i)) as [x Hx]; [lia|].
  rewrite (drop_S c x (Z.to_nat i)) by done; cbn.
  replace (cell null c i) with x by (unfold cell; by rewrite nth_lookup, Hx).
  replace (Datatypes.S (Z.to_nat i)) with (Z.to_nat (i + 1)) by lia.
  case_decide; [rewrite (drop_ge c (Z.to_nat (i + 1))) by lia; done|].
  rewrite (get_at_ok l c) by done. unfold spec_get, spec_index.
  rewrite (decide_False (P := i + 1 < 0)), decide_True by lia. cbn [mbind outcome_bind].
  rewrite IH by lia. f_equal. rewrite !string_app_assoc. do 2 f_equal.
  destruct (drop (Z.to_nat (i + 1)) c) as [|y ys] eqn:E; [|done].
  apply (f_equal length) in E. rewrite length_drop in E. cbn in E. lia.
Qed.

Lemma sorted_range head size t srt :
  0 ≤ head → 0 ≤ size → head + size ≤ len t → len srt = size →
  length (take (Z.to_nat head) t ++ srt ++ drop (Z.to_nat (head + size)) t) = length t
  ∧ ∀ k, 0 ≤ k < size →
    cell null (take (Z.to_nat head) t ++ srt ++ drop (Z.to_nat (head + size)) t) (head + k)
    = cell null srt k.
Proof.
  intros. split; [rewrite !length_app, length_take, length_drop; lia|].
  intros k Hk. rewrite cell_app by lia. rewrite length_take, decide_False by lia.
  rewrite cell_app by lia. rewrite decide_True by lia. f_equal. lia.
Qed.

Lemma f_sort_ok std_sort l c :
  (∀ c, length (std_sort c) = length c) → represents l c →
  represents (f_sort std_sort l) (std_sort c).
Proof.
  intros Hlen [[->|(t & Ht & Hl & Hh & Hs & Hsh)] Hc].
  { cbn in Hc. subst c. split; [by left|]. cbn. specialize (Hlen []). by destruct (std_sort []). }
  unfold f_sort. rewrite Ht. unfold std_rotate.
  match goal with |- context [if decide ?P then (?a, ?b) else (?a', ?b')] =>
    set (t1 := if decide P then a else a'); set (h := if decide P then b else b');
    replace (if decide P then (a, b) else (a', b')) with (t1, h) by (subst t1 h; by case_decide)
  end.
  assert (Ht1 : length t1 = length t ∧ 0 ≤ h ∧ h + v_size l ≤ len t).
  { subst t1 h. case_decide; [|split_and!; lia].
    rewrite length_app, length_take, length_drop. lia. }
  assert (Hslice : take (Z.to_nat (v_size l)) (drop (Z.to_nat h) t1) = c).
  { subst c. symmetry. apply contents_eq with t; [done|rewrite length_take, length_drop; lia|].
    intros k Hk. rewrite cell_take, cell_drop by lia. subst t1 h. unfold wrap.
    destruct (decide (v_head l + v_size l > len t)).
    - rewrite cell_app by lia. rewrite length_drop. repeat case_decide; try lia.
      + rewrite cell_drop by lia. f_equal. lia.
      + rewrite cell_take by lia. f_equal. lia.
    - rewrite decide_True by lia. f_equal. lia. }
  unfold sort_range. rewrite Hslice.
  assert (Hlc : len (std_sort c) = v_size l).
  { rewrite Hlen, <- Hslice, length_take, length_drop. lia. }
  clear Hslice.
  destruct (sorted_range h (v_size l) t1 (std_sort c)) as [Hlt Hcells]; [lia..|].
  split.
  - right. eexists. unfold shaped. cbn -[take drop]. split_and!; done || lia.
  - eapply contents_eq; cbn -[take drop]; [done|done|].
    intros k Hk. rewrite Hlt. unfold wrap. rewrite decide_True by lia. by apply Hcells.
Qed.

(** ** Properties *)

(** C6 (list_trace_refines_sequence): a program that works on a list through
    the methods of [t_list], with whatever arguments, sees the results,
    exceptions included, of the same methods on the mathematical sequence the
    list represents, except that [insert] at the index minus the size, on a
    list that is not empty, may put the element behind the first one instead
    of in front of it ([admits], and [insert_at_minus_size_misplaces] for when
    it does); no access ever leaves the buffer; and without such an [insert]
    the trace is that of the sequence. *)
Theorem list_trace_refines_sequence l c os :
  represents l c →
  admits c os (trace run l os) ∧ Fault ∉ trace run l os
  ∧ (sound_inserts c os = true → trace run l os = trace spec_run c os).
Proof.
  intros Hl. pose proof (trace_admitted l c os Hl) as Ht.
  split_and!; [done|by eapply admits_no_fault|by apply admits_sound].
Qed.

(** [insert] accepts every index between minus the
    size and the size, counts negative ones from the end, puts the element in
    front of the one that had the index, and throws otherwise; moving the
    shorter half and wrapping around the buffer are invisible. *)
Theorem list_insert_refines l c i x :
  represents l c → i ≠ - Z.of_nat (length c) ∨ c = [] →
  outcome_rel represents (f_insert l i x) (spec_insert c i x).
Proof. apply f_insert_ok. Qed.

(** [remove] returns the element at the index,
    takes it out of the sequence whichever half is moved, and throws out of
    range; the buffer shrinks when it has become sparse. *)
Theorem list_remove_refines l c i :
  represents l c → outcome_rel represents_with (f_remove l i) (spec_remove c i).
Proof. apply f_remove_ok. Qed.

(** On a list of [n > 0] elements,
    [insert(-n, x)] puts [x] in front only when the head is inside the buffer
    and there is room; otherwise [x] becomes the second element. *)
Theorem insert_at_minus_size_misplaces l x0 c x :
  represents l (x0 :: c) →
  outcome_rel represents (f_insert l (- Z.of_nat (length (x0 :: c))) x)
    (Ok (if decide (v_head l = 0 ∨ v_size l >= v_grow l) then x0 :: x :: c else x :: x0 :: c)).
Proof. apply insert_at_minus_size. Qed.

(** Given a [std::sort] that permutes its range into
    order, [sort] leaves a well-formed list whose elements are the old ones in
    order, wherever the elements lay in the circular buffer. *)
Theorem list_sort_refines (less : relation V) std_sort l c :
  (∀ c, Permutation (std_sort c) c ∧ StronglySorted less (std_sort c)) →
  represents l c →
  represents (f_sort std_sort l) (std_sort c)
  ∧ Permutation (contents (f_sort std_sort l)) c
  ∧ StronglySorted less (contents (f_sort std_sort l)).
Proof.
  intros Hsort Hl.
  pose proof (f_sort_ok std_sort l c (λ c, Permutation_length (proj1 (Hsort c))) Hl) as [Hwf Heq].
  rewrite Heq. split_and!; [by split|apply Hsort..].
Qed.

(** C34 (resize_amortized): every resize of a list of [n] elements, whether it
    has become full or sparse, keeps the elements and leaves room for at least
    [n + 10] pushes before the next growth, and at least [n / 2 - 3] removals
    before the next shrinking: the cost of copying is amortized.  The states
    covered are all those in which [f_resize] is called: within an operation a
    list may be full, and its size may have come down to the threshold of
    [f_shrink]. *)
Theorem resize_amortized l t :
  shaped 0 0 l t → 0 < v_size l →
  ∃ l', f_resize l = Ok l' ∧ contents l' = contents l
  ∧ v_grow l' - v_size l' >= v_size l + 10 ∧ v_size l' - v_shrink l' >= v_size l / 2 - 3.
Proof.
  intros (Ht & Hl & Hh & Hs & Hsh) Hpos.
  pose proof (capacity_to_size_bounds (v_size l)) as Hb.
  destruct (resize_ok l t Ht) as (l' & t' & Heq & _ & Hc & Hs' & _); [lia..|].
  exists l'. split_and!; try done; rewrite Hs'; clear Hc Hs'.
  all: unfold f_resize, tuple in Heq; rewrite Ht in Heq; cbn [mbind outcome_bind] in Heq.
  all: do 2 (apply outcome_bind_ok in Heq as ([] & _ & Heq)).
  all: apply outcome_bind_ok in Heq as (t1 & _ & Heq).
  all: injection Heq as <-; cbn [v_grow v_size v_shrink]; rewrite ?size_to_capacity_eq.
  all: change (sizeof_t_object * 2) with 256.
  - assert ((2 * v_size l + 10) ≤ (capacity_to_size (v_size l) * 2 - 80) / 8); [|lia].
    apply Z.div_le_lower_bound; lia.
  - case_decide; Z.to_euclidean_division_equations; lia.
Qed.

(** Construction pushes the arguments in order; [each]
    with a callable that leaves the list alone visits every element once, in
    order, and stops; [__string] writes them in order between brackets. *)
Theorem list_traversals {S} (f : V → S → S) (s : S) (f_string : V → string) c :
  ∃ l, f_do_construct c = Ok l ∧ represents l c
  ∧ each (length c + 1) (λ x s l, Ok (f x s, l)) 0 s l = Ok (foldl (λ s x, f x s) s c, l)
  ∧ f__string f_string l = Ok (spec_string f_string c).
Proof.
  pose proof (push_all_ok new_list [] c new_list_ok) as H. unfold f_do_construct.
  destruct (push_all new_list c) as [l| |]; try done. cbn in H.
  exists l. split_and!; [done|done|by rewrite (each_ok f l c) by (done || lia)|].
  pose proof (wf_size l c H) as Hn. unfold f__string, spec_string. case_decide as Hz.
  { destruct c; cbn in *; [done|lia]. }
  rewrite (get_at_ok l c) by done. unfold spec_get, spec_index.
  rewrite (decide_False (P := 0 < 0)), decide_True by lia. cbn [mbind outcome_bind].
  rewrite (string_items_ok f_string l c) by (done || lia). cbn [mbind outcome_bind].
  by rewrite drop_0, string_app_assoc.
Qed.

End ListBuf.

(** ** Witnesses *)

Definition sample : @t_list nat :=
  {| v_tuple := Some [3; 4; 0; 0; 1; 2]%nat; v_head := 4; v_size := 4; v_grow := 6; v_shrink := 0 |}.

Lemma sample_ok : represents 0%nat sample [1; 2; 3; 4]%nat.
Proof.
  split; [right; exists [3; 4; 0; 0; 1; 2]%nat; unfold shaped; cbn; split_and!; done || lia | done].
Qed.

Lemma list_trace_witness :
  (admits 0%nat [1; 2; 3; 4]%nat [Insert (-4) 9%nat; Pop; Remove (-1); Shift]
    (trace (run 0%nat) sample [Insert (-4) 9%nat; Pop; Remove (-1); Shift])
  ∧ Fault ∉ trace (run 0%nat) sample [Insert (-4) 9%nat; Pop; Remove (-1); Shift])
  ∧ trace (run 0%nat) sample [Insert 2 9%nat; Pop; Remove (-1); Shift]
    = trace (spec_run 0%nat) [1; 2; 3; 4]%nat [Insert 2 9%nat; Pop; Remove (-1); Shift].
Proof.
  split.
  - split; apply (list_trace_refines_sequence 0%nat sample [1; 2; 3; 4]%nat _ sample_ok).
  - apply (list_trace_refines_sequence 0%nat sample [1; 2; 3; 4]%nat _ sample_ok).
    vm_compute. reflexivity.
Defined.

Lemma list_insert_witness :
  outcome_rel (represents 0%nat) (f_insert 0%nat sample (-1) 9%nat)
    (spec_insert [1; 2; 3; 4]%nat (-1) 9%nat).
Proof. apply (list_insert_refines 0%nat sample _ (-1) 9%nat sample_ok). left. done. Defined.

Lemma list_remove_witness :
  outcome_rel (represents_with 0%nat) (f_remove 0%nat sample 2) (spec_remove 0%nat [1; 2; 3; 4]%nat 2).
Proof. apply (list_remove_refines 0%nat sample _ 2 sample_ok). Defined.

Definition sample0 : @t_list nat :=
  {| v_tuple := Some [1; 2; 3; 0; 0; 0]%nat; v_head := 0; v_size := 3; v_grow := 6; v_shrink := 0 |}.

Lemma insert_at_minus_size_witness :
  outcome_rel (represents 0%nat) (f_insert 0%nat sample0 (- Z.of_nat (length [1; 2; 3]%nat)) 9%nat)
    (Ok (if decide (v_head sample0 = 0 ∨ v_size sample0 >= v_grow sample0)
         then [1; 9; 2; 3]%nat else [9; 1; 2; 3]%nat)).
Proof.
  apply (insert_at_minus_size_misplaces 0%nat sample0 1%nat [2; 3]%nat 9%nat).
  split; [right; exists [1; 2; 3; 0; 0; 0]%nat; unfold shaped; cbn; split_and!; done || lia | done].
Defined.

Lemma list_sort_witness :
  represents 0%nat (f_sort (merge_sort Nat.le) sample) (merge_sort Nat.le [1; 2; 3; 4]%nat)
  ∧ Permutation (contents 0%nat (f_sort (merge_sort Nat.le) sample)) [1; 2; 3; 4]%nat
  ∧ StronglySorted Nat.le (contents 0%nat (f_sort (merge_sort Nat.le) sample)).
Proof.
  apply (list_sort_refines 0%nat Nat.le (merge_sort Nat.le) sample _); [|apply sample_ok].
  intros c. split; [apply merge_sort_Permutation|].
  apply (StronglySorted_merge_sort Nat.le).
Defined.

(** The state in which [f_pop] calls [f_shrink]. *)
Definition sample1 : @t_list nat :=
  {| v_tuple := Some (replicate 60 7%nat); v_head := 58; v_size := 4; v_grow := 60; v_shrink := 4 |}.

Lemma resize_amortized_witness :
  (∃ l', f_resize 0%nat sample = Ok l' ∧ contents 0%nat l' = contents 0%nat sample
  ∧ v_grow l' - v_size l' >= v_size sample + 10 ∧ v_size l' - v_shrink l' >= v_size sample / 2 - 3)
  ∧ ∃ l', f_resize 0%nat sample1 = Ok l' ∧ contents 0%nat l' = contents 0%nat sample1
  ∧ v_grow l' - v_size l' >= v_size sample1 + 10 ∧ v_size l' - v_shrink l' >= v_size sample1 / 2 - 3.
Proof.
  split.
  - apply (resize_amortized 0%nat sample [3; 4; 0; 0; 1; 2]%nat); [|done].
    unfold shaped; cbn; split_and!; done || lia.
  - apply (resize_amortized 0%nat sample1 (replicate 60 7%nat)); [|done].
    unfold shaped; cbn; split_and!; done || lia.
Defined.
