(* ===== verification/HashMap.v ===== *)
(** * The map type (src: include/xemmai/map.h, src/map.cc)

    [t_map] is an open-addressing hash table in which an entry records its
    one-based distance from its home slot ([v_gap]).  Entries of one probe
    sequence are kept in order of their homes (Robin Hood hashing), and
    removal shifts the last entry of each following group back instead of
    leaving a tombstone. *)
From stdpp Require Import base list numbers strings.
From S2P Require Import Prelude.
Local Open Scope Z_scope.

Section HashMap.
  (** Keys and values are values of the interpreter; [f_hash] and [f_equals]
      are the methods called on keys. *)
  Context {K V : Type} (knull : K) (vnull : V).
  Context (f_hash : K → Z) (f_key_equals : K → K → bool).

(** ** State *)

Record t_entry := { v_gap : Z; v_hash : Z; v_key : K; v_value : V }.

(** A default-constructed entry; its hash is not initialized and never read. *)
Definition empty_entry : t_entry := {| v_gap := 0; v_hash := 0; v_key := knull; v_value := vnull |}.

Record t_rank := { v_capacity : Z; v_upper : Z; v_lower : Z }.

Definition rank_of (capacity lower : Z) : t_rank :=
  {| v_capacity := capacity; v_upper := capacity / 2; v_lower := lower |}.

(** [R<n>]: the lower bound defaults to a quarter of the capacity. *)
Definition R (capacity : Z) : t_rank := rank_of capacity (capacity / 4).

Definition v_ranks : list t_rank := [
  rank_of 11 0; R 23; R 53; R 97; R 193; R 389; R 769;
  R 1543; R 3079; R 6151; R 12289; R 24593; R 49157; R 98317;
  R 196613; R 393241; R 786433; R 1572869; R 3145739; R 6291469; R 12582917;
  R 25165843; R 50331653; R 100663319; R 201326611; R 402653189; R 805306457; R 1610612741
].

Definition f_slot (capacity a_hash : Z) : Z := a_hash mod capacity.

(** A table: the index of its rank in [v_ranks], and its entries. *)
Record t_table := { v_rank : nat; v_entries : list t_entry }.

Definition t_table_instantiate (rank : nat) : outcome t_table :=
  match v_ranks !! rank with
  | Some r => Ok {| v_rank := rank; v_entries := repeat empty_entry (Z.to_nat (v_capacity r)) |}
  | None => Fault
  end.

Record t_map := { v_table : t_table; v_size : Z }.

(** ** Probing *)

Implicit Types (es : list t_entry) (p q gap hash : Z).

(** [if (++p >= v_end) p = f_entries();] *)
Definition next es p : Z := if decide (p + 1 >= Z.of_nat (length es)) then 0 else p + 1.

(** The number of rounds after which a probing loop that has not stopped
    would visit the same entries again. *)
Definition rounds es : nat := S (length es).

Definition f_equals (a_p : t_entry) (a_hash : Z) (a_key : K) : bool :=
  bool_decide (v_hash a_p = a_hash) && f_key_equals (v_key a_p) a_key.

(** [for (; p->v_gap > gap; ++gap) if (++p >= v_end) p = f_entries();] *)
Definition skip_farther es : Z * Z → outcome (Z * Z) :=
  loop (rounds es) (λ '(p, gap),
    e ← rd es p;
    Ok (if decide (v_gap e > gap) then inl (next es p, gap + 1) else inr (p, gap))).

(** [f_find(a_key)]: the position of the key, if it is in the table. *)
Definition f_find es (a_key : K) : outcome (option Z) :=
  let hash := f_hash a_key in
  '(p, gap) ← skip_farther es (f_slot (Z.of_nat (length es)) hash, 1);
  loop (rounds es) (λ '(p, gap),
    e ← rd es p;
    Ok (if decide (v_gap e = gap) then
          if f_equals e hash a_key then inr (Some p) else inl (next es p, gap + 1)
        else inr None)) (p, gap).

(** [f_find(a_hash, a_key)]: the position of the key, or the position and gap
    with which it has to be put. *)
Definition f_find_or_gap es (a_hash : Z) (a_key : K) : outcome (Z * Z) :=
  '(p, gap) ← skip_farther es (f_slot (Z.of_nat (length es)) a_hash, 1);
  loop (rounds es) (λ '(p, gap),
    e ← rd es p;
    Ok (if decide (v_gap e >= gap) then
          if f_equals e a_hash a_key then inr (p, gap) else inl (next es p, gap + 1)
        else inr (p, gap))) (p, gap).

(** [do if (++a_p >= v_end) a_p = f_entries(); while (a_p->v_gap >= ++a_gap);] *)
Definition advance es : Z * Z → outcome (Z * Z) :=
  loop (rounds es) (λ '(p, gap),
    let p := next es p in
    let gap := gap + 1 in
    e ← rd es p;
    Ok (if decide (v_gap e >= gap) then inl (p, gap) else inr (p, gap))).

(** [t_table::f_put]: puts the carried entry at [p], and goes on with the
    entry it displaces, until a free slot is found. *)
Definition f_put_entry es (a_p : Z) (a_e : t_entry) : outcome (list t_entry) :=
  loop (rounds es) (λ '(es, p, c),
    e ← rd es p;
    es ← wr es p c;
    if decide (v_gap e = 0) then Ok (inr es) else
    '(p, gap) ← advance es (p, v_gap e);
    Ok (inl (es, p, {| v_gap := gap; v_hash := v_hash e; v_key := v_key e; v_value := v_value e |})))
  (es, a_p, a_e).

(** [while (q->v_gap >= ++gap) if (++q >= table1.v_end) q = entries;] *)
Definition probe es : Z * Z → outcome (Z * Z) :=
  loop (rounds es) (λ '(q, gap),
    let gap := gap + 1 in
    e ← rd es q;
    Ok (if decide (v_gap e >= gap) then inl (next es q, gap) else inr (q, gap))).

(** ** Rehashing *)

Fixpoint rehash_entries (es0 es1 : list t_entry) : outcome (list t_entry) :=
  match es0 with
  | [] => Ok es1
  | e :: es0 =>
    if decide (v_gap e = 0) then rehash_entries es0 es1 else
    '(q, gap) ← probe es1 (f_slot (Z.of_nat (length es1)) (v_hash e), 0);
    es1 ← f_put_entry es1 q
      {| v_gap := gap; v_hash := v_hash e; v_key := v_key e; v_value := v_value e |};
    rehash_entries es0 es1
  end.

Definition f_rehash (m : t_map) (rank : nat) : outcome t_map :=
  t1 ← t_table_instantiate rank;
  es ← rehash_entries (v_entries (v_table m)) (v_entries t1);
  Ok {| v_table := {| v_rank := rank; v_entries := es |}; v_size := v_size m |}.

(** ** Operations *)

Definition not_found {A} : outcome A := throw "key not found.".

(** [table->v_rank]; every table has one. *)
Definition rank_at (m : t_map) : outcome t_rank :=
  match v_ranks !! v_rank (v_table m) with Some r => Ok r | None => Fault end.

Definition set_entries (es : list t_entry) (n : Z) (m : t_map) : t_map :=
  {| v_table := {| v_rank := v_rank (v_table m); v_entries := es |}; v_size := n |}.

Definition new_map : outcome t_map :=
  t ← t_table_instantiate 0; Ok {| v_table := t; v_size := 0 |}.

Definition f_clear (m : t_map) : outcome t_map :=
  t ← t_table_instantiate 0; Ok {| v_table := t; v_size := 0 |}.

Definition f_get (m : t_map) (a_key : K) : outcome V :=
  let es := v_entries (v_table m) in
  o ← f_find es a_key;
  match o with Some p => e ← rd es p; Ok (v_value e) | None => not_found end.

Definition f_has (m : t_map) (a_key : K) : outcome bool :=
  o ← f_find (v_entries (v_table m)) a_key;
  Ok (match o with Some _ => true | None => false end).

Definition f_put (m : t_map) (a_key : K) (a_value : V) : outcome (V * t_map) :=
  let hash := f_hash a_key in
  let es := v_entries (v_table m) in
  '(p, gap) ← f_find_or_gap es hash a_key;
  e ← rd es p;
  if decide (v_gap e = gap) then
    es ← wr es p {| v_gap := v_gap e; v_hash := v_hash e; v_key := v_key e; v_value := a_value |};
    Ok (a_value, set_entries es (v_size m) m)
  else
    r ← rank_at m;
    '(m, p, gap) ←
      (if decide (v_size m >= v_upper r) then
         let rank := S (v_rank (v_table m)) in
         if decide (length v_ranks <= rank)%nat then throw "cannot grow." else
         m ← f_rehash m rank;
         '(p, gap) ← f_find_or_gap (v_entries (v_table m)) hash a_key;
         Ok (m, p, gap)
       else Ok (m, p, gap));
    es ← f_put_entry (v_entries (v_table m)) p
           {| v_gap := gap; v_hash := hash; v_key := a_key; v_value := a_value |};
    e ← rd es p;
    Ok (v_value e, set_entries es (v_size m + 1) m).

(** The group of entries after [q] with consecutive gaps [g + 1], [g + 2], ...:
    its last entry. *)
Definition last_of_group es : Z * Z → outcome Z :=
  loop (rounds es) (λ '(q, g),
    let r := next es q in
    let g := g + 1 in
    e ← rd es r;
    Ok (if decide (v_gap e < g) then inr q else inl (r, g))).

(** The [while (true)] of [f_remove]: [p] is the hole to be filled. *)
Definition close_hole es p : outcome (list t_entry) :=
  loop (rounds es) (λ '(es, p),
    let q := next es p in
    e ← rd es q;
    let gap := v_gap e in
    if decide (gap <= 1) then Ok (inr es) else
    q ← last_of_group es (q, gap);
    e ← rd es q;
    es ← wr es p {| v_gap := gap - 1; v_hash := v_hash e; v_key := v_key e; v_value := v_value e |};
    es ← wr es q {| v_gap := 0; v_hash := v_hash e; v_key := knull; v_value := vnull |};
    Ok (inl (es, q))) (es, p).

Definition f_remove (m : t_map) (a_key : K) : outcome (V * t_map) :=
  let es := v_entries (v_table m) in
  o ← f_find es a_key;
  match o with
  | None => not_found
  | Some p =>
    e ← rd es p;
    es ← wr es p {| v_gap := 0; v_hash := v_hash e; v_key := knull; v_value := vnull |};
    es ← close_hole es p;
    r ← rank_at m;
    let m := set_entries es (v_size m - 1) m in
    m ← (if decide (v_size m < v_lower r) then
           match v_rank (v_table m) with
           | O => Fault
           | S rank => f_rehash m rank
           end
         else Ok m);
    Ok (v_value e, m)
  end.

(** The scan shared by the constructor of [t_iterator], which starts at the
    first entry, and [f_next]; the end is the null entry. *)
Definition seek es : Z → outcome (option Z) :=
  loop (rounds es) (λ p,
    if decide (p >= Z.of_nat (length es)) then Ok (inr None) else
    e ← rd es p;
    Ok (if decide (v_gap e ≠ 0) then inr (Some p) else inl (p + 1))).

Definition t_iterator_begin es : outcome (option Z) := seek es 0.

Definition f_next es p : outcome (option Z) := seek es (p + 1).

(** [each]: the callable is called with the key and value of each entry. *)
Fixpoint each_from {S} (fuel : nat) es (a_callable : S → K * V → outcome S) (i : option Z) (s : S)
    : outcome S :=
  match fuel, i with
  | O, _ => Fault
  | _, None => Ok s
  | Datatypes.S fuel, Some p =>
    e ← rd es p;
    i ← f_next es p;
    s ← a_callable s (v_key e, v_value e);
    each_from fuel es a_callable i s
  end.

Definition each {S} (a_callable : S → K * V → outcome S) (m : t_map) (s : S) : outcome S :=
  let es := v_entries (v_table m) in
  i ← t_iterator_begin es; each_from (rounds es) es a_callable i s.

(** [__string]: the lambda [get], and the loop. *)
Definition get_entry es (i : option Z) : outcome (option (Z * K * V)) :=
  match i with
  | None => Ok None
  | Some p => e ← rd es p; Ok (Some (p, v_key e, v_value e))
  end.

Fixpoint string_from (fuel : nat) es (key_string : K → string) (value_string : V → string)
    (i : Z * K * V) (s : string) : outcome string :=
  match fuel with
  | O => Fault
  | S fuel =>
    let '(p, x, y) := i in
    let s := (s +:+ key_string x +:+ ": " +:+ value_string y)%string in
    i ← f_next es p;
    o ← get_entry es i;
    match o with
    | None => Ok s
    | Some i => string_from fuel es key_string value_string i (s +:+ ", ")%string
    end
  end.

Definition f__string (key_string : K → string) (value_string : V → string) (m : t_map) : outcome string :=
  let es := v_entries (v_table m) in
  i ← t_iterator_begin es;
  o ← get_entry es i;
  s ← match o with
      | None => Ok "{"%string
      | Some i => string_from (rounds es) es key_string value_string i "{"%string
      end;
  Ok (s +:+ "}")%string.

(** The items in the order of the table. *)
Definition iterate_entries es : list (K * V) :=
  map (λ e, (v_key e, v_value e)) (filter (λ e, v_gap e ≠ 0) es).

(** [t_type_of<t_map>::f_do_construct]: keys and values alternate; a last key
    without a value gets the null value. *)
Fixpoint construct_pairs (to_key : V → K) (m : t_map) (xs : list V) : outcome t_map :=
  match xs with
  | [] => Ok m
  | [x] => '(_, m) ← f_put m (to_key x) vnull; Ok m
  | x :: y :: xs => '(_, m) ← f_put m (to_key x) y; construct_pairs to_key m xs
  end.

(** The methods bound by [t_type_of<t_map>::f_define]. *)
Inductive call := Get (k : K) | Has (k : K) | Put (k : K) (v : V) | Remove (k : K) | Size | Clear.

Inductive answer := AValue (v : V) | ATruth (b : bool) | ACount (n : Z) | ANothing.

Definition run (m : t_map) (c : call) : outcome (answer * t_map) :=
  match c with
  | Get k => v ← f_get m k; Ok (AValue v, m)
  | Has k => b ← f_has m k; Ok (ATruth b, m)
  | Put k v => '(v, m) ← f_put m k v; Ok (AValue v, m)
  | Remove k => '(v, m) ← f_remove m k; Ok (AValue v, m)
  | Size => Ok (ACount (v_size m), m)
  | Clear => m ← f_clear m; Ok (ANothing, m)
  end.

(** ** The Robin Hood invariant *)

Abbreviation len t := (Z.of_nat (length t)).
Abbreviation ent es i := (cell empty_entry es i).
Abbreviation gap_at es i := (v_gap (cell empty_entry es i)).

(** Positions in a table of [n] entries: addition modulo [n], for
    [0 ≤ x < 2 n], and the distance from [p] forward to [e]. *)
Definition wrap (n x : Z) : Z := if decide (x < n) then x else x - n.
Definition dist (n p e : Z) : Z := if decide (p ≤ e) then e - p else e - p + n.

(** The entry at [i] lies [gap - 1] slots after the home of its hash. *)
Definition at_home es i : Prop :=
  gap_at es i ≤ len es ∧ wrap (len es) (f_slot (len es) (v_hash (ent es i)) + gap_at es i - 1) = i.

(** Robin Hood order: the gap grows by at most one from an entry to the next,
    so that no entry is nearer its home than a probe for its successor was. *)
Record robin_hood es : Prop := {
  rh_length : 2 ≤ len es;
  rh_nonneg : ∀ i, 0 ≤ i < len es → 0 ≤ gap_at es i;
  rh_step : ∀ i, 0 ≤ i < len es → gap_at es (next es i) ≤ gap_at es i + 1;
  rh_home : ∀ i, 0 ≤ i < len es → gap_at es i ≠ 0 → at_home es i
}.

Definition free es e : Prop := 0 ≤ e < len es ∧ gap_at es e = 0.

Ltac pos_solve :=
  unfold next, wrap, dist in *; repeat case_decide; subst; try lia; try done; try (f_equal; lia).

Lemma next_range es p : 0 ≤ p < len es → 0 ≤ next es p < len es.
Proof. intros. pos_solve. Qed.

Lemma next_length es es' p : length es = length es' → next es p = next es' p.
Proof. intros H. unfold next. by rewrite H. Qed.

Lemma next_inj es p q :
  0 ≤ p < len es → 0 ≤ q < len es → next es p = next es q → p = q.
Proof. intros Hp Hq. pos_solve. Qed.

Lemma next_neq es p : 2 ≤ len es → 0 ≤ p < len es → next es p ≠ p.
Proof. intros H2 Hp. pos_solve. Qed.

Lemma dist_next es p e :
  0 ≤ p < len es → 0 ≤ e < len es → p ≠ e → dist (len es) (next es p) e = dist (len es) p e - 1.
Proof. intros Hp He Hne. pos_solve. Qed.

Lemma dist_bounds n p e : 0 ≤ p < n → 0 ≤ e < n → 0 ≤ dist n p e < n.
Proof. intros Hp He. pos_solve. Qed.

Lemma dist_zero n p e : 0 ≤ p < n → 0 ≤ e < n → dist n p e = 0 → p = e.
Proof. intros Hp He. pos_solve. Qed.

Lemma wrap_next es x :
  0 ≤ x < 2 * len es - 1 → next es (wrap (len es) x) = wrap (len es) (x + 1).
Proof. intros Hx. pos_solve. Qed.

Lemma f_slot_range es h : 0 < len es → 0 ≤ f_slot (len es) h < len es.
Proof. intros H. unfold f_slot. apply Z.mod_pos_bound. lia. Qed.

(** Along a probe sequence the difference between the gap found and the gap
    expected does not increase. *)
Lemma rh_mono es s j k :
  robin_hood es → 0 ≤ s < len es → 0 ≤ j ≤ k → k ≤ len es →
  gap_at es (wrap (len es) (s + k)) - k ≤ gap_at es (wrap (len es) (s + j)) - j.
Proof.
  intros Hrh Hs Hj. replace k with (j + Z.of_nat (Z.to_nat (k - j))) by lia.
  generalize (Z.to_nat (k - j)). intros d. induction d as [|d IH]; intros Hd.
  { by rewrite Z.add_0_r. }
  specialize (IH ltac:(lia)).
  pose proof (rh_step es Hrh (wrap (len es) (s + (j + Z.of_nat d)))) as Hstep.
  rewrite wrap_next in Hstep by lia.
  replace (s + (j + Z.of_nat (S d))) with (s + (j + Z.of_nat d) + 1) by lia.
  specialize (Hstep ltac:(pos_solve)). lia.
Qed.

(** Every gap is bounded by the distance from a free slot. *)
Lemma gap_bound es e i :
  robin_hood es → free es e → 0 ≤ i < len es → gap_at es i ≤ dist (len es) e i.
Proof.
  intros Hrh [He H0] Hi. pose proof (dist_bounds (len es) e i He Hi).
  pose proof (rh_mono es e 0 (dist (len es) e i) Hrh He ltac:(lia) ltac:(lia)) as H1.
  replace (wrap (len es) (e + dist (len es) e i)) with i in H1 by pos_solve.
  replace (wrap (len es) (e + 0)) with e in H1 by pos_solve. lia.
Qed.

(** ** Probing loops *)

(** Up to gap [g], the probe sequence of home [s] has found entries at least
    as far from their homes, none of which satisfies [match_]. *)
Definition probed es (s g : Z) (match_ : t_entry → bool) : Prop :=
  (∀ j, 1 ≤ j < g → gap_at es (wrap (len es) (s + j - 1)) >= j)
  ∧ (∀ j, 1 ≤ j < g → gap_at es (wrap (len es) (s + j - 1)) = j →
       match_ (ent es (wrap (len es) (s + j - 1))) = false).

(** A probe whose entries so far were at least as far as expected has not
    passed the free slot. *)
Lemma probed_before_free es e s g m :
  robin_hood es → free es e → 0 ≤ s < len es → 1 ≤ g → probed es s g m →
  gap_at es (wrap (len es) (s + g - 1)) >= g → g ≤ len es →
  g < dist (len es) s e + 1.
Proof.
  intros Hrh [He H0] Hs Hg _ Hge Hgl. pose proof (dist_bounds (len es) s e Hs He).
  destruct (decide (g < dist (len es) s e + 1)); [done|].
  pose proof (rh_mono es s (dist (len es) s e) (g - 1) Hrh Hs ltac:(lia) ltac:(lia)) as H1.
  replace (wrap (len es) (s + dist (len es) s e)) with e in H1 by pos_solve.
  replace (s + (g - 1)) with (s + g - 1) in H1 by lia. lia.
Qed.

Lemma probed_step es s g m :
  probed es s g m → gap_at es (wrap (len es) (s + g - 1)) >= g →
  (gap_at es (wrap (len es) (s + g - 1)) = g → m (ent es (wrap (len es) (s + g - 1))) = false) →
  probed es s (g + 1) m.
Proof.
  intros [H1 H2] Hge Hm. split; intros j Hj.
  - destruct (decide (j = g)) as [->|]; [done|]. apply H1. lia.
  - destruct (decide (j = g)) as [->|]; [done|]. apply H2. lia.
Qed.

(** The position of a probe. *)
Definition at_probe es (s : Z) (st : Z * Z) : Prop :=
  1 ≤ st.2 ≤ len es ∧ st.1 = wrap (len es) (s + st.2 - 1).

Lemma at_probe_next es s p g :
  0 ≤ s < len es → at_probe es s (p, g) → g + 1 ≤ len es → at_probe es s (next es p, g + 1).
Proof.
  intros Hs [Hg Hp] Hle. cbn in *. subst p. split; cbn; [lia|]. rewrite wrap_next by lia. f_equal. lia.
Qed.

Lemma at_probe_range es s p g : 0 ≤ s < len es → at_probe es s (p, g) → 0 ≤ p < len es.
Proof. intros Hs [Hg Hp]. cbn in *. pos_solve. Qed.

Section probing.
  Context (es : list t_entry) (e : Z) (Hrh : robin_hood es) (Hfree : free es e).
  Context (s : Z) (Hs : 0 ≤ s < len es).

Lemma probe_start : at_probe es s (s, 1).
Proof. pose proof (rh_length es Hrh). split; cbn; pos_solve. Qed.

(** One more round of a probing loop that has found an entry far enough. *)
Lemma probe_round p g m :
  at_probe es s (p, g) → probed es s g m → gap_at es p >= g →
  g < dist (len es) s e + 1 ∧ g + 1 ≤ len es ∧ at_probe es s (next es p, g + 1).
Proof.
  intros Hp Hm Hge. assert (Hp' := Hp). destruct Hp' as [Hg Heq]. cbn in Hg, Heq.
  assert (g < dist (len es) s e + 1).
  { apply (probed_before_free es e s g m); try done; try lia. by rewrite <- Heq. }
  pose proof (dist_bounds (len es) s e Hs (proj1 Hfree)).
  split_and!; [done|lia|]. apply at_probe_next; [done|done|lia].
Qed.

Lemma skip_farther_ok m :
  ∃ p g, skip_farther es (s, 1) = Ok (p, g) ∧ at_probe es s (p, g) ∧ probed es s g m
  ∧ gap_at es p ≤ g.
Proof.
  pose proof (rh_length es Hrh). pose proof (dist_bounds (len es) s e Hs (proj1 Hfree)).
  edestruct (loop_ind (E := string) (λ '(p, gap),
      x ← rd es p; Ok (if decide (v_gap x > gap) then inl (next es p, gap + 1) else inr (p, gap)))
    (λ st, at_probe es s st ∧ probed es s st.2 m)
    (λ r, at_probe es s r ∧ probed es s r.2 m ∧ gap_at es r.1 ≤ r.2)
    (λ st, Z.max 0 (dist (len es) s e + 2 - st.2))) as ([p g] & Heq & Hp & Hm & Hle).
  - intros [p g] [Hp Hm]. cbn in Hm. split; [lia|].
    pose proof (at_probe_range es s p g Hs Hp) as Hr.
    rewrite (rd_cell empty_entry) by done. cbn [mbind outcome_bind].
    destruct (decide (gap_at es p > g)).
    + left. eexists. split; [done|].
      destruct (probe_round p g m Hp Hm) as (? & ? & ?); [lia|].
      destruct Hp as [Hg Hpos]. cbn in Hg, Hpos.
      split; [split; [done|]|cbn; lia]. cbn. apply probed_step; [done|..]; rewrite <- Hpos; lia.
    + right. eexists. split; [done|]. cbn. split_and!; done || lia.
  - split; [apply probe_start|]. split; cbn; lia.
  - cbn. unfold rounds. instantiate (1 := rounds es). unfold rounds. lia.
  - exists p, g. by split_and!.
Qed.

(** What a search for [m] establishes: found at [p], or at [(p, g)] it is
    certain that no entry of home [s] matches. *)
Definition found (m : t_entry → bool) (p : Z) : Prop :=
  0 ≤ p < len es ∧ gap_at es p ≠ 0 ∧ m (ent es p) = true.

Definition missed (m : t_entry → bool) (p g : Z) : Prop :=
  at_probe es s (p, g) ∧ probed es s g m ∧ gap_at es p < g.

Lemma scan_ok m p g :
  at_probe es s (p, g) → probed es s g m → gap_at es p ≤ g →
  ∃ p' g', loop (E := string) (rounds es) (λ '(p, gap),
      x ← rd es p;
      Ok (if decide (v_gap x >= gap) then
            if m x then inr (p, gap) else inl (next es p, gap + 1)
          else inr (p, gap))) (p, g) = Ok (p', g')
  ∧ at_probe es s (p', g')
  ∧ (missed m p' g' ∨ found m p' ∧ gap_at es p' = g').
Proof.
  intros Hp0 Hm0 Hle0. pose proof (dist_bounds (len es) s e Hs (proj1 Hfree)).
  edestruct (loop_ind (E := string) (λ '(p, gap),
      x ← rd es p;
      Ok (if decide (v_gap x >= gap) then
            if m x then inr (p, gap) else inl (next es p, gap + 1)
          else inr (p, gap)))
    (λ st, at_probe es s st ∧ probed es s st.2 m ∧ gap_at es st.1 ≤ st.2)
    (λ r, at_probe es s r ∧ (missed m r.1 r.2 ∨ found m r.1 ∧ gap_at es r.1 = r.2))
    (λ st, Z.max 0 (dist (len es) s e + 2 - st.2))) as ([p' g'] & Heq & Hres).
  - intros [p1 g1] (Hp & Hm & Hle). cbn in Hm, Hle. split; [lia|].
    pose proof (at_probe_range es s p1 g1 Hs Hp) as Hr.
    rewrite (rd_cell empty_entry) by done. cbn [mbind outcome_bind].
    destruct (decide (gap_at es p1 >= g1)).
    + assert (gap_at es p1 = g1) as Hg1 by lia.
      destruct (m (ent es p1)) eqn:Em.
      * right. eexists. split; [done|]. split; [done|]. right. cbn.
        destruct Hp as [? _]. cbn in *. split; [split_and!; [lia|lia|lia|done]|done].
      * left. eexists. split; [done|].
        destruct (probe_round p1 g1 m Hp Hm) as (? & ? & ?); [lia|].
        destruct Hp as [Hg Hpos]. cbn in Hg, Hpos.
        pose proof (rh_step es Hrh p1 Hr).
        split; [split_and!; [done| |cbn; lia]|cbn; lia].
        cbn. apply probed_step; [done|..]; rewrite <- Hpos; [lia|done].
    + right. eexists. split; [done|]. split; [done|]. left. split_and!; done || cbn; lia.
  - by split_and!.
  - cbn. instantiate (1 := rounds es). unfold rounds. destruct Hp0 as [Hg _]. cbn in Hg. lia.
  - exists p', g'. split; [done|]. apply Hres.
Qed.
End probing.

(** The two scanning loops of the source test [==] and [>=]; after
    [skip_farther] they stop at the same place. *)
Lemma f_find_or_gap_ok es e hash (key : K) :
  robin_hood es → free es e →
  ∃ p g, f_find_or_gap es hash key = Ok (p, g) ∧ at_probe es (f_slot (len es) hash) (p, g)
  ∧ (missed es (f_slot (len es) hash) (λ x, f_equals x hash key) p g
     ∨ found es (λ x, f_equals x hash key) p ∧ gap_at es p = g).
Proof.
  intros Hrh Hfree. pose proof (rh_length es Hrh).
  pose proof (f_slot_range es hash ltac:(lia)) as Hs. unfold f_find_or_gap.
  destruct (skip_farther_ok es e Hrh Hfree _ Hs (λ x, f_equals x hash key))
    as (p & g & -> & Hp & Hm & Hle). cbn [mbind outcome_bind].
  apply (scan_ok es e Hrh Hfree _ Hs (λ x, f_equals x hash key) p g Hp Hm Hle).
Qed.

Lemma scan_equal_ok es e s p g m :
  robin_hood es → free es e → 0 ≤ s < len es →
  at_probe es s (p, g) → probed es s g m → gap_at es p ≤ g →
  ∃ o, loop (E := string) (rounds es) (λ '(p, gap),
      x ← rd es p;
      Ok (if decide (v_gap x = gap) then
            if m x then inr (Some p) else inl (next es p, gap + 1)
          else inr None)) (p, g) = Ok o
  ∧ match o with Some p' => found es m p' | None => ∃ p' g', missed es s m p' g' end.
Proof.
  intros Hrh Hfree Hs Hp0 Hm0 Hle0. pose proof (dist_bounds (len es) s e Hs (proj1 Hfree)).
  apply (loop_ind _ (λ st, at_probe es s st ∧ probed es s st.2 m ∧ gap_at es st.1 ≤ st.2) _
    (λ st, Z.max 0 (dist (len es) s e + 2 - st.2))).
  - intros [p1 g1] (Hp & Hm & Hle). cbn in Hm, Hle. split; [lia|].
    pose proof (at_probe_range es s p1 g1 Hs Hp) as Hr.
    rewrite (rd_cell empty_entry) by done. cbn [mbind outcome_bind].
    destruct (decide (gap_at es p1 = g1)) as [Hg1|].
    + destruct (m (ent es p1)) eqn:Em.
      * right. eexists. split; [done|]. destruct Hp as [? _]. cbn in *. split_and!; lia || done.
      * left. eexists. split; [done|].
        destruct (probe_round es e Hrh Hfree s Hs p1 g1 m Hp Hm) as (? & ? & ?); [lia|].
        destruct Hp as [Hg Hpos]. cbn in Hg, Hpos. pose proof (rh_step es Hrh p1 Hr).
        split; [split_and!; [done| |cbn; lia]|cbn; lia].
        cbn. apply probed_step; [done|..]; rewrite <- Hpos; [lia|done].
    + right. eexists. split; [done|]. exists p1, g1. split_and!; done || lia.
  - by split_and!.
  - unfold rounds. destruct Hp0 as [Hg _]. cbn in *. lia.
Qed.

Lemma f_find_ok es e (key : K) :
  robin_hood es → free es e →
  ∃ o, f_find es key = Ok o
  ∧ match o with
    | Some p => found es (λ x, f_equals x (f_hash key) key) p
    | None => ∃ p g, missed es (f_slot (len es) (f_hash key)) (λ x, f_equals x (f_hash key) key) p g
    end.
Proof.
  intros Hrh Hfree. pose proof (rh_length es Hrh).
  pose proof (f_slot_range es (f_hash key) ltac:(lia)) as Hs. unfold f_find.
  destruct (skip_farther_ok es e Hrh Hfree _ Hs (λ x, f_equals x (f_hash key) key))
    as (p & g & -> & Hp & Hm & Hle). cbn [mbind outcome_bind].
  by apply (scan_equal_ok es e _ p g (λ x, f_equals x (f_hash key) key)).
Qed.

(** After a miss no entry of the table matches. *)
Lemma missed_none es s m p g i :
  robin_hood es → 0 ≤ s < len es → missed es s m p g →
  0 ≤ i < len es → gap_at es i ≠ 0 → f_slot (len es) (v_hash (ent es i)) = s →
  m (ent es i) = false.
Proof.
  intros Hrh Hs ([Hg Hp] & [_ Hm] & Hlt) Hi Hi0 Hslot. cbn in Hg, Hp.
  pose proof (rh_nonneg es Hrh i Hi). destruct (rh_home es Hrh i Hi Hi0) as [Hle Hhome].
  rewrite Hslot in Hhome. destruct (decide (gap_at es i < g)).
  - pose proof (Hm (gap_at es i)) as Hm'. rewrite Hhome in Hm'. apply Hm'; [lia|done].
  - pose proof (rh_mono es s (g - 1) (gap_at es i - 1) Hrh Hs ltac:(lia) ltac:(lia)) as Hmono.
    replace (s + (g - 1)) with (s + g - 1) in Hmono by lia.
    replace (s + (gap_at es i - 1)) with (s + gap_at es i - 1) in Hmono by lia.
    rewrite Hhome, <- Hp in Hmono. lia.
Qed.

(** ** The contents of a table *)

Definition item (e : t_entry) : list (K * V) :=
  if decide (v_gap e = 0) then [] else [(v_key e, v_value e)].

Lemma iterate_cons e es : iterate_entries (e :: es) = item e ++ iterate_entries es.
Proof.
  unfold iterate_entries, item. destruct (decide (v_gap e = 0)).
  - by rewrite filter_cons_False by (intros H; by apply H).
  - by rewrite filter_cons_True.
Qed.

Lemma iterate_app es1 es2 : iterate_entries (es1 ++ es2) = iterate_entries es1 ++ iterate_entries es2.
Proof. unfold iterate_entries. by rewrite filter_app, map_app. Qed.

Lemma iterate_insert es p x :
  0 ≤ p < len es →
  item (ent es p) ++ iterate_entries (<[Z.to_nat p := x]> es) ≡ₚ item x ++ iterate_entries es.
Proof.
  intros Hp. destruct (lookup_lt_is_Some_2 es (Z.to_nat p)) as [y Hy]; [lia|].
  replace (ent es p) with y by (unfold cell; by rewrite nth_lookup, Hy).
  rewrite insert_take_drop by lia. rewrite <- (take_drop_middle es (Z.to_nat p) y Hy) at 3.
  rewrite !iterate_app, !iterate_cons. solve_Permutation.
Qed.

Lemma ent_insert es p x i :
  0 ≤ p < len es → 0 ≤ i →
  ent (<[Z.to_nat p := x]> es) i = if decide (p = i) then x else ent es i.
Proof. apply cell_insert. Qed.

(** Membership in the contents, by position. *)
Lemma elem_of_iterate es kv :
  kv ∈ iterate_entries es ↔
  ∃ i, 0 ≤ i < len es ∧ gap_at es i ≠ 0 ∧ kv = (v_key (ent es i), v_value (ent es i)).
Proof.
  unfold iterate_entries. rewrite list_elem_of_fmap. split.
  - intros (e & -> & [Hg He]%list_elem_of_filter). apply list_elem_of_lookup in He as [i Hi].
    exists (Z.of_nat i). pose proof (lookup_lt_Some _ _ _ Hi).
    replace (ent es (Z.of_nat i)) with e by (unfold cell; by rewrite Nat2Z.id, nth_lookup, Hi).
    split_and!; done || lia.
  - intros (i & Hi & Hg & ->). exists (ent es i). split; [done|].
    apply list_elem_of_filter. split; [done|]. apply list_elem_of_lookup. exists (Z.to_nat i).
    destruct (lookup_lt_is_Some_2 es (Z.to_nat i)) as [y Hy]; [lia|].
    unfold cell. by rewrite nth_lookup, Hy.
Qed.

(** A table with fewer items than entries has a free slot. *)
Lemma free_exists es :
  (∀ i, 0 ≤ i < len es → 0 ≤ gap_at es i) →
  (length (iterate_entries es) < length es)%nat → ∃ e, free es e.
Proof.
  induction es as [|x es IH]; intros Hnn Hlt; [cbn in Hlt; lia|].
  rewrite iterate_cons in Hlt. unfold item in Hlt. destruct (decide (v_gap x = 0)) as [H0|H0].
  - exists 0. split; [cbn; lia|]. done.
  - cbn in Hlt. destruct IH as (e & He & Hg); [|lia|].
    + intros i Hi. specialize (Hnn (i + 1)). rewrite cell_cons, decide_False in Hnn by lia.
      replace (i + 1 - 1) with i in Hnn by lia. apply Hnn. cbn. lia.
    + exists (e + 1). split; [cbn; lia|]. rewrite cell_cons, decide_False by lia.
      by replace (e + 1 - 1) with e by lia.
Qed.

(** ** Putting an entry *)

(** [c] may be put at [p]: it would be at home there, is farther from its home
    than the present entry, and not too far for the preceding one. *)
Record placeable es (p : Z) (c : t_entry) : Prop := {
  pl_range : 0 ≤ p < len es;
  pl_gap : 1 ≤ v_gap c ≤ len es;
  pl_home : wrap (len es) (f_slot (len es) (v_hash c) + v_gap c - 1) = p;
  pl_poorer : gap_at es p < v_gap c;
  pl_pred : ∀ i, 0 ≤ i < len es → next es i = p → v_gap c ≤ gap_at es i + 1
}.

Lemma insert_length es (p : nat) x : len (<[p := x]> es) = len es.
Proof. by rewrite length_insert. Qed.

Lemma rh_place es p c : robin_hood es → placeable es p c → robin_hood (<[Z.to_nat p := c]> es).
Proof.
  intros Hrh [Hp Hg Hhome Hpoor Hpred].
  assert (Hnext : ∀ i, next (<[Z.to_nat p := c]> es) i = next es i)
    by (intros; apply next_length, length_insert).
  split; unfold at_home; rewrite ?insert_length.
  - apply (rh_length es Hrh).
  - intros i Hi. rewrite ent_insert by lia. case_decide; [lia|]. by apply (rh_nonneg es Hrh).
  - intros i Hi. rewrite Hnext, !ent_insert by (pose proof (next_range es i Hi); lia).
    pose proof (rh_step es Hrh i Hi). case_decide as H1; case_decide as H2; subst; try lia.
    by apply Hpred.
  - intros i Hi. rewrite ent_insert by lia. case_decide; [subst|by apply (rh_home es Hrh)].
    intros _. split; [lia|done].
Qed.

(** The displaced entry [d], formerly at [p], finds its next place. *)
Lemma advance_ok es p d e :
  robin_hood es → free es e → 0 ≤ p < len es → p ≠ e →
  1 ≤ v_gap d < gap_at es p →
  wrap (len es) (f_slot (len es) (v_hash d) + v_gap d - 1) = p →
  ∃ q g, advance es (p, v_gap d) = Ok (q, g)
  ∧ placeable es q {| v_gap := g; v_hash := v_hash d; v_key := v_key d; v_value := v_value d |}
  ∧ dist (len es) q e < dist (len es) p e.
Proof.
  intros Hrh Hfree Hp Hpe Hg Hhome. pose proof (rh_length es Hrh) as Hlen.
  pose proof (f_slot_range es (v_hash d) ltac:(lia)) as Hs.
  destruct (loop_ind (E := string) (λ '(p, gap), e ← rd es (next es p);
      Ok (if decide (v_gap e >= gap + 1) then inl (next es p, gap + 1) else inr (next es p, gap + 1)))
    (λ st, 0 ≤ st.1 < len es ∧ 1 ≤ st.2 ≤ gap_at es st.1
       ∧ wrap (len es) (f_slot (len es) (v_hash d) + st.2 - 1) = st.1
       ∧ dist (len es) st.1 e ≤ dist (len es) p e)
    (λ st, placeable es st.1 {| v_gap := st.2; v_hash := v_hash d; v_key := v_key d; v_value := v_value d |}
       ∧ dist (len es) st.1 e < dist (len es) p e)
    (λ st, dist (len es) st.1 e)) with (fuel := rounds es) (s := (p, v_gap d))
    as ([q g] & Heq & Hpl & Hd).
  - intros [q g] (Hq & Hgq & Hhq & Hdq). cbn in *.
    pose proof (dist_bounds (len es) q e Hq (proj1 Hfree)). split; [lia|].
    pose proof (next_range es q Hq) as Hq'.
    assert (q ≠ e) as Hqe by (intros ->; destruct Hfree; lia).
    pose proof (dist_next es q e Hq (proj1 Hfree) Hqe).
    pose proof (gap_bound es e q Hrh Hfree Hq).
    pose proof (dist_bounds (len es) e q (proj1 Hfree) Hq).
    rewrite (rd_cell empty_entry) by done. cbn [mbind outcome_bind].
    assert (Hhq' : wrap (len es) (f_slot (len es) (v_hash d) + (g + 1) - 1) = next es q).
    { rewrite <- Hhq, wrap_next by lia. f_equal. lia. }
    destruct (decide (gap_at es (next es q) >= g + 1)); [left|right]; eexists; (split; [done|]); cbn.
    + split_and!; lia || done.
    + split; [split; cbn; try done; try lia|lia].
      intros i Hi Hni. apply next_inj in Hni as ->; [|done|done]. lia.
  - cbn. split_and!; try done; lia.
  - cbn. pose proof (dist_bounds (len es) p e Hp (proj1 Hfree)). unfold rounds. lia.
  - exists q, g. by split_and!.
Qed.

(** Every occupied entry carries the hash of its key. *)
Definition hashed es : Prop :=
  ∀ i, 0 ≤ i < len es → gap_at es i ≠ 0 → v_hash (ent es i) = f_hash (v_key (ent es i)).

Lemma hashed_insert es p x :
  0 ≤ p < len es → hashed es → (v_gap x ≠ 0 → v_hash x = f_hash (v_key x)) →
  hashed (<[Z.to_nat p := x]> es).
Proof.
  intros Hp Hes Hx i. rewrite insert_length. intros Hi. rewrite ent_insert by lia.
  case_decide; [done|]. by apply Hes.
Qed.

Lemma f_put_entry_ok es p c e :
  robin_hood es → hashed es → free es e → placeable es p c → v_hash c = f_hash (v_key c) →
  ∃ es', f_put_entry es p c = Ok es' ∧ robin_hood es' ∧ hashed es' ∧ length es' = length es
  ∧ ent es' p = c ∧ iterate_entries es' ≡ₚ (v_key c, v_value c) :: iterate_entries es.
Proof.
  intros Hrh Hha Hfree Hpl Hhc.
  apply (loop_ind _ (λ '(es1, p1, c1),
      robin_hood es1 ∧ hashed es1 ∧ length es1 = length es ∧ free es1 e ∧ placeable es1 p1 c1
      ∧ v_hash c1 = f_hash (v_key c1)
      ∧ (p1 = p ∧ c1 = c ∨ ent es1 p = c ∧ dist (len es) p1 e < dist (len es) p e)
      ∧ (v_key c1, v_value c1) :: iterate_entries es1 ≡ₚ (v_key c, v_value c) :: iterate_entries es)
    _ (λ '(es1, p1, c1), dist (len es) p1 e)).
  - intros [[es1 p1] c1] (Hrh1 & Hha1 & Hl1 & Hfree1 & Hpl1 & Hhc1 & Hput & Hperm).
    assert (Hpl1' := Hpl1). destruct Hpl1' as [Hp1 Hg1 Hhome1 Hpoor1 Hpred1].
    pose proof (dist_bounds (len es1) p1 e Hp1 (proj1 Hfree1)). rewrite <- Hl1. split; [lia|].
    rewrite (rd_cell empty_entry) by done. cbn [mbind outcome_bind].
    rewrite wr_ok by done. cbn [mbind outcome_bind].
    set (es2 := <[Z.to_nat p1 := c1]> es1).
    assert (Hrh2 : robin_hood es2) by (by apply rh_place).
    assert (Hl2 : length es2 = length es1) by apply length_insert.
    assert (Hha2 : hashed es2) by (apply hashed_insert; done).
    assert (Hput2 : ent es2 p = c ∧ dist (len es1) p1 e ≤ dist (len es1) p e).
    { pose proof (pl_range _ _ _ Hpl). subst es2. rewrite ent_insert by lia.
      destruct Hput as [[-> ->]|[Hput Hd]]; [by rewrite decide_True|].
      rewrite decide_False by (intros ->; lia). rewrite Hl1. split; [done|lia]. }
    pose proof (iterate_insert es1 p1 c1 Hp1) as Hit. fold es2 in Hit.
    unfold item in Hit at 2. rewrite decide_False in Hit by lia. cbn [app] in Hit.
    unfold item in Hit. destruct (decide (gap_at es1 p1 = 0)) as [H0|H0].
    + right. eexists. split; [done|]. split_and!; try done; [apply Hput2|].
      cbn [app] in Hit. by rewrite Hit.
    + left. pose proof (rh_nonneg es1 Hrh1 p1 Hp1).
      assert (p1 ≠ e) as Hne by (intros ->; by destruct Hfree1).
      destruct (advance_ok es2 p1 (ent es1 p1) e Hrh2) as (q & g & Hadv & Hplq & Hdq); try done.
      * destruct Hfree1 as [? He]. split; [rewrite Hl2; done|]. subst es2.
        rewrite ent_insert by lia. by rewrite decide_False.
      * by rewrite Hl2.
      * subst es2. rewrite ent_insert by lia. rewrite decide_True by done. lia.
      * rewrite Hl2. by apply (rh_home es1 Hrh1).
      * rewrite Hadv. cbn [mbind outcome_bind]. eexists. split; [done|].
        split; [|by rewrite Hl2 in Hdq].
        split_and!; try done.
        { destruct Hfree1 as [? He]. split; [rewrite Hl2; done|]. subst es2.
          rewrite ent_insert by lia. by rewrite decide_False. }
        { cbn. apply Hha1; done. }
        { right. split; [apply Hput2|]. rewrite Hl2 in Hdq. destruct Hput2. lia. }
        { cbn. cbn [app] in Hit. by rewrite Hit. }
  - split_and!; try done. by left.
  - pose proof (dist_bounds (len es) p e (pl_range _ _ _ Hpl) (proj1 Hfree)). unfold rounds. lia.
Qed.

(** ** Closing the hole left by a removal *)

(** The invariant with a hole at [p]: the order may be broken at the hole
    only, and by at most one. *)
Record holed es (p : Z) : Prop := {
  ho_length : 2 ≤ len es;
  ho_range : 0 ≤ p < len es;
  ho_gap : gap_at es p = 0;
  ho_nonneg : ∀ i, 0 ≤ i < len es → 0 ≤ gap_at es i;
  ho_step : ∀ i, 0 ≤ i < len es → i ≠ p → gap_at es (next es i) ≤ gap_at es i + 1;
  ho_jump : ∀ i, 0 ≤ i < len es → next es i = p → gap_at es (next es p) ≤ gap_at es i + 2;
  ho_home : ∀ i, 0 ≤ i < len es → gap_at es i ≠ 0 → at_home es i
}.

Lemma make_hole es p x :
  robin_hood es → 0 ≤ p < len es → v_gap x = 0 → holed (<[Z.to_nat p := x]> es) p.
Proof.
  intros Hrh Hp Hx. pose proof (rh_length es Hrh).
  assert (Hnext : ∀ i, next (<[Z.to_nat p := x]> es) i = next es i)
    by (intros; apply next_length, length_insert).
  assert (Hgap : ∀ i, 0 ≤ i → gap_at (<[Z.to_nat p := x]> es) i = if decide (p = i) then 0 else gap_at es i)
    by (intros i Hi; rewrite ent_insert by lia; by case_decide).
  split; unfold at_home; rewrite ?insert_length; try done.
  - rewrite Hgap by lia. by rewrite decide_True.
  - intros i Hi. rewrite Hgap by lia. case_decide; [done|]. by apply rh_nonneg.
  - intros i Hi Hne. rewrite Hnext, !Hgap by (pose proof (next_range es i Hi); lia).
    rewrite (decide_False (P := p = i)) by done. pose proof (rh_step es Hrh i Hi).
    case_decide; [|done]. pose proof (rh_nonneg es Hrh i Hi). lia.
  - intros i Hi. rewrite Hnext. intros Hni. pose proof (next_neq es p ltac:(done) Hp).
    pose proof (next_neq es i ltac:(done) Hi).
    rewrite Hnext, !Hgap by (pose proof (next_range es p Hp); lia).
    rewrite !decide_False by congruence.
    pose proof (rh_step es Hrh i Hi). pose proof (rh_step es Hrh p Hp). subst p. lia.
  - intros i Hi. rewrite ent_insert by lia. case_decide; [done|]. by apply (rh_home es Hrh).
Qed.

(** A hole whose successor is at home, or free, is no longer one. *)
Lemma hole_closed es p : holed es p → gap_at es (next es p) ≤ 1 → robin_hood es.
Proof.
  intros Hh Hle. split; [apply Hh|apply Hh| |apply (ho_home es p Hh)].
  intros i Hi. destruct (decide (i = p)) as [->|Hne]; [rewrite (ho_gap es p Hh); lia|].
  by apply (ho_step es p Hh).
Qed.

(** The entries from the successor of the hole to [q] form the beginning of a
    group: consecutive gaps, one home, no free slot in between. *)
Definition in_group es (p : Z) (st : Z * Z) : Prop :=
  let '(q, g) := st in
  let g0 := gap_at es (next es p) in
  0 ≤ q < len es ∧ q ≠ p ∧ gap_at es q = g ∧ g0 ≤ g
  ∧ wrap (len es) (p + (g - g0 + 1)) = q ∧ g - g0 + 1 < len es.

Lemma last_of_group_ok es p e :
  holed es p → free es e → e ≠ p → 1 < gap_at es (next es p) →
  ∃ q g, last_of_group es (next es p, gap_at es (next es p)) = Ok q
  ∧ in_group es p (q, g) ∧ gap_at es (next es q) ≤ g
  ∧ dist (len es) q e < dist (len es) p e.
Proof.
  intros Hh [He H0] Hep Hg0. pose proof (ho_length es p Hh) as Hlen.
  pose proof (ho_range es p Hh) as Hp. pose proof (next_range es p Hp) as Hnp.
  pose proof (next_neq es p Hlen Hp) as Hnn.
  destruct (loop_ind (E := string) (λ '(q, g), e ← rd es (next es q);
      Ok (if decide (v_gap e < g + 1) then inr q else inl (next es q, g + 1)))
    (λ st, in_group es p st ∧ dist (len es) st.1 e < dist (len es) p e)
    (λ q, ∃ g, in_group es p (q, g) ∧ gap_at es (next es q) ≤ g
       ∧ dist (len es) q e < dist (len es) p e)
    (λ st, dist (len es) st.1 e)) with (fuel := rounds es)
    (s := (next es p, gap_at es (next es p))) as (q & Heq & g & Hin & Hle & Hd).
  - intros [q g] [(Hq & Hqp & Hgq & Hge & Hpos & Hsh) Hd]. cbn in Hd.
    pose proof (dist_bounds (len es) q e Hq He). split; [cbn; lia|].
    pose proof (next_range es q Hq) as Hnq.
    rewrite (rd_cell empty_entry) by done. cbn [mbind outcome_bind].
    assert (q ≠ e) as Hqe by (intros ->; lia).
    pose proof (dist_next es q e Hq He Hqe). pose proof (ho_step es p Hh q Hq Hqp).
    destruct (decide (gap_at es (next es q) < g + 1)).
    + right. eexists. split; [done|]. exists g. unfold in_group. split_and!; done || lia.
    + left. eexists. split; [done|]. split; [|cbn; lia]. split; [|cbn; lia].
      assert (Hqp' : next es q ≠ p) by (intros E; rewrite E, (ho_gap es p Hh) in *; lia).
      unfold in_group. split_and!; try done; try lia.
      * rewrite <- Hpos, wrap_next by lia. f_equal. lia.
      * destruct (decide (g - gap_at es (next es p) + 2 < len es)); [lia|].
        exfalso. apply Hqp'. rewrite <- Hpos. rewrite wrap_next by lia. pos_solve.
  - split; [|cbn; rewrite dist_next by done; lia]. unfold in_group.
    split_and!; try done; try lia. unfold next, wrap. repeat case_decide; lia.
  - cbn. pose proof (dist_bounds (len es) (next es p) e Hnp He). unfold rounds. lia.
  - exists q, g. by split_and!.
Qed.

(** Moving the last entry of the group into the hole makes its slot the hole. *)
Definition fill_hole es (p q : Z) : list t_entry :=
  let x := ent es q in
  <[Z.to_nat q := {| v_gap := 0; v_hash := v_hash x; v_key := knull; v_value := vnull |}]>
    (<[Z.to_nat p := {| v_gap := gap_at es (next es p) - 1; v_hash := v_hash x;
                        v_key := v_key x; v_value := v_value x |}]> es).

Lemma ent_fill es p q i :
  0 ≤ p < len es → 0 ≤ q < len es → 0 ≤ i →
  ent (fill_hole es p q) i =
  if decide (q = i) then {| v_gap := 0; v_hash := v_hash (ent es q); v_key := knull; v_value := vnull |}
  else if decide (p = i) then
    {| v_gap := gap_at es (next es p) - 1; v_hash := v_hash (ent es q);
       v_key := v_key (ent es q); v_value := v_value (ent es q) |}
  else ent es i.
Proof.
  intros Hp Hq Hi. unfold fill_hole. rewrite ent_insert by (rewrite ?insert_length; lia).
  case_decide; [done|]. by rewrite ent_insert by lia.
Qed.

Lemma length_fill es p q : length (fill_hole es p q) = length es.
Proof. unfold fill_hole. by rewrite !length_insert. Qed.

Lemma holed_fill es p q g :
  holed es p → 1 < gap_at es (next es p) → in_group es p (q, g) → gap_at es (next es q) ≤ g →
  holed (fill_hole es p q) q.
Proof.
  intros Hh Hg0 (Hq & Hqp & Hgq & Hge & Hpos & Hsh) Hle.
  pose proof (ho_length es p Hh) as Hlen. pose proof (ho_range es p Hh) as Hp.
  assert (Hnext : ∀ i, next (fill_hole es p q) i = next es i)
    by (intros; apply next_length, length_fill).
  assert (Hgap : ∀ i, 0 ≤ i → gap_at (fill_hole es p q) i =
    if decide (q = i) then 0 else if decide (p = i) then gap_at es (next es p) - 1 else gap_at es i)
    by (intros i Hi; rewrite ent_fill by done; by repeat case_decide).
  pose proof (next_neq es q Hlen Hq) as Hnq. pose proof (next_neq es p Hlen Hp) as Hnp.
  split; unfold at_home; rewrite ?length_fill; try done.
  - rewrite Hgap by lia. by rewrite decide_True.
  - intros i Hi. rewrite Hgap by lia. pose proof (ho_nonneg es p Hh i Hi). repeat case_decide; lia.
  - intros i Hi Hiq. rewrite Hnext, !Hgap by (pose proof (next_range es i Hi); lia).
    rewrite (decide_False (P := q = i)) by done.
    pose proof (ho_nonneg es p Hh i Hi). destruct (decide (p = i)) as [<-|Hpi].
    + rewrite (decide_False (P := p = next es p)) by done. case_decide; lia.
    + pose proof (ho_step es p Hh i Hi ltac:(done)).
      destruct (decide (q = next es i)); [lia|]. case_decide as Hni; [|done].
      pose proof (ho_jump es p Hh i Hi ltac:(done)). lia.
  - intros i Hi. rewrite Hnext. intros Hni.
    pose proof (next_neq es i Hlen Hi) as Hii.
    rewrite Hnext, !Hgap by (pose proof (next_range es q Hq); lia).
    rewrite (decide_False (P := q = next es q)), (decide_False (P := q = i)) by congruence.
    assert (Hstep : i ≠ p → gap_at es q ≤ gap_at es i + 1)
      by (intros Hip; rewrite <- Hni; by apply (ho_step es p Hh)).
    destruct (decide (p = i)) as [<-|Hpi]; case_decide; try lia.
    rewrite <- Hni in *. lia.
  - intros i Hi. rewrite ent_fill by lia. destruct (decide (q = i)); [done|].
    destruct (decide (p = i)) as [<-|]; cbn.
    + intros Hne. pose proof (ho_home es p Hh q Hq ltac:(lia)) as [Hl Hhome].
      pose proof (f_slot_range es (v_hash (ent es q)) ltac:(lia)). split; [lia|].
      set (s := f_slot (len es) (v_hash (ent es q))) in *. clearbody s.
      unfold wrap in *. repeat case_decide; lia.
    + intros Hne. by apply (ho_home es p Hh).
Qed.

Lemma iterate_fill es p q :
  0 ≤ p < len es → 0 ≤ q < len es → p ≠ q → gap_at es p = 0 → gap_at es q ≠ 0 →
  1 < gap_at es (next es p) → iterate_entries (fill_hole es p q) ≡ₚ iterate_entries es.
Proof.
  intros Hp Hq Hpq Hgp Hgq Hg0. unfold fill_hole.
  set (x := {| v_gap := gap_at es (next es p) - 1; v_hash := _; v_key := _; v_value := _ |}).
  set (es1 := <[Z.to_nat p := x]> es).
  pose proof (iterate_insert es p x Hp) as H1. fold es1 in H1.
  unfold item in H1. rewrite (decide_True (P := gap_at es p = 0)), decide_False in H1
    by (done || cbn; lia). cbn [app v_key v_value x] in H1.
  assert (Hl1 : len es1 = len es) by apply insert_length.
  set (y := {| v_gap := 0; v_hash := _; v_key := _; v_value := _ |}).
  pose proof (iterate_insert es1 q y ltac:(lia)) as H2.
  assert (Heq : ent es1 q = ent es q) by (subst es1; rewrite ent_insert by lia; by rewrite decide_False).
  unfold item in H2. rewrite Heq, (decide_False (P := gap_at es q = 0)), decide_True in H2 by done.
  cbn [app] in H2. rewrite H1 in H2. by apply Permutation_cons_inv in H2.
Qed.

Lemma close_hole_ok es p e :
  holed es p → hashed es → free es e → e ≠ p →
  ∃ es', close_hole es p = Ok es' ∧ robin_hood es' ∧ hashed es' ∧ length es' = length es
  ∧ iterate_entries es' ≡ₚ iterate_entries es.
Proof.
  intros Hh Hha Hfree Hep.
  apply (loop_ind _ (λ '(es1, p1),
      holed es1 p1 ∧ hashed es1 ∧ length es1 = length es ∧ free es1 e ∧ e ≠ p1
      ∧ iterate_entries es1 ≡ₚ iterate_entries es)
    _ (λ '(es1, p1), dist (len es) p1 e)).
  - intros [es1 p1] (Hh1 & Hha1 & Hl1 & Hfree1 & Hep1 & Hperm).
    pose proof (ho_range es1 p1 Hh1) as Hp1. rewrite <- Hl1.
    pose proof (dist_bounds (len es1) p1 e Hp1 (proj1 Hfree1)). split; [lia|].
    cbv zeta. rewrite (rd_cell empty_entry) by (apply next_range; done). cbn [mbind outcome_bind].
    destruct (decide (gap_at es1 (next es1 p1) <= 1)) as [Hle|Hgt].
    + right. eexists. split; [done|]. split_and!; try done. by apply (hole_closed es1 p1).
    + left. destruct (last_of_group_ok es1 p1 e Hh1 Hfree1 Hep1 ltac:(lia))
        as (q & g & -> & Hin & Hle & Hd).
      assert (Hin' := Hin). destruct Hin' as (Hq & Hqp & Hgq & Hge & Hpos & Hsh).
      cbn [mbind outcome_bind].
      rewrite (rd_cell empty_entry) by done. cbn [mbind outcome_bind].
      rewrite wr_ok by done. cbn [mbind outcome_bind].
      rewrite wr_ok by (rewrite insert_length; done). cbn [mbind outcome_bind].
      eexists. split; [done|]. fold (fill_hole es1 p1 q). split; [|done]. split_and!.
      * apply (holed_fill es1 p1 q g); done || lia.
      * apply hashed_insert; [rewrite insert_length; done| |done].
        apply hashed_insert; [done|done|]. intros _. cbn. apply Hha1; [done|lia].
      * by rewrite length_fill.
      * destruct Hfree1 as [He H0]. split; [by rewrite length_fill|].
        rewrite ent_fill by lia. repeat case_decide; subst; done.
      * intros ->. destruct Hfree1. lia.
      * rewrite iterate_fill; try done; try lia. apply (ho_gap es1 p1 Hh1).
  - by split_and!.
  - pose proof (dist_bounds (len es) p e (ho_range _ _ Hh) (proj1 Hfree)). unfold rounds. lia.
Qed.
#[local] Arguments iterate_entries es : simpl never.

(** ** Rehashing *)

(** Where a probe has ended without a match, an entry of that home can be put. *)
Lemma missed_placeable es s m p c :
  robin_hood es → 0 ≤ s < len es → missed es s m p (v_gap c) → f_slot (len es) (v_hash c) = s →
  placeable es p c.
Proof.
  intros Hrh Hs (Hp & [Hge _] & Hlt) Hslot. pose proof (rh_length es Hrh).
  pose proof (at_probe_range es s p _ Hs Hp). destruct Hp as [Hg Hp]. cbn in Hg, Hp.
  split; try done; [by rewrite Hslot|].
  intros i Hi Hni. destruct (decide (v_gap c = 1)) as [->|].
  { pose proof (rh_nonneg es Hrh i Hi). lia. }
  specialize (Hge (v_gap c - 1) ltac:(lia)).
  assert (Hq : 0 ≤ wrap (len es) (s + (v_gap c - 1) - 1) < len es) by pos_solve.
  assert (Hnq : next es (wrap (len es) (s + (v_gap c - 1) - 1)) = next es i)
    by (rewrite wrap_next by lia; rewrite Hni, Hp; f_equal; lia).
  apply next_inj in Hnq; [|done|done]. rewrite Hnq in Hge. lia.
Qed.

Lemma probe_ok es e s :
  robin_hood es → free es e → 0 ≤ s < len es →
  ∃ q g, probe es (s, 0) = Ok (q, g) ∧ missed es s (λ _, false) q g.
Proof.
  intros Hrh Hfree Hs. pose proof (dist_bounds (len es) s e Hs (proj1 Hfree)).
  destruct (loop_ind (E := string) (λ '(q, gap),
      x ← rd es q;
      Ok (if decide (v_gap x >= gap + 1) then inl (next es q, gap + 1) else inr (q, gap + 1)))
    (λ st, at_probe es s (st.1, st.2 + 1) ∧ probed es s (st.2 + 1) (λ _, false))
    (λ r, missed es s (λ _, false) r.1 r.2)
    (λ st, Z.max 0 (dist (len es) s e + 1 - st.2))) with (fuel := rounds es) (s := (s, 0))
    as ([q g] & Heq & Hm).
  - intros [q g] [Hq Hm]. cbn in Hq, Hm. split; [lia|].
    pose proof (at_probe_range es s q _ Hs Hq) as Hr.
    rewrite (rd_cell empty_entry) by done. cbn [mbind outcome_bind].
    destruct (decide (gap_at es q >= g + 1)).
    + left. eexists. split; [done|].
      destruct (probe_round es e Hrh Hfree s Hs q (g + 1) _ Hq Hm) as (? & ? & ?); [done|].
      destruct Hq as [Hg Hpos]. cbn in Hg, Hpos.
      split; [split; [done|]|cbn; lia]. cbn. apply probed_step; [done| |done]. by rewrite <- Hpos.
    + right. eexists. split; [done|]. split_and!; done || cbn; lia.
  - cbn. split; [by apply (probe_start es Hrh)|]. split; lia.
  - cbn. unfold rounds. lia.
  - by exists q, g.
Qed.

Lemma rehash_entries_ok es0 : ∀ es1,
  Forall (λ e, v_gap e ≠ 0 → v_hash e = f_hash (v_key e)) es0 →
  robin_hood es1 → hashed es1 →
  (length (iterate_entries es0) + length (iterate_entries es1) < length es1)%nat →
  ∃ es, rehash_entries es0 es1 = Ok es ∧ robin_hood es ∧ hashed es ∧ length es = length es1
  ∧ iterate_entries es ≡ₚ iterate_entries es0 ++ iterate_entries es1.
Proof.
  induction es0 as [|x es0 IH]; intros es1 Hh0 Hrh Hha Hlt; cbn [rehash_entries].
  { by exists es1. }
  apply Forall_cons in Hh0 as [Hhx Hh0]. rewrite iterate_cons in *. unfold item in *.
  destruct (decide (v_gap x = 0)) as [H0|H0]; [by apply IH|].
  rewrite length_app in Hlt. cbn [length app] in *.
  destruct (free_exists es1) as [e He]; [apply Hrh|lia|].
  pose proof (f_slot_range es1 (v_hash x) ltac:(pose proof (rh_length es1 Hrh); lia)) as Hs.
  destruct (probe_ok es1 e _ Hrh He Hs) as (q & g & -> & Hmiss). cbn [mbind outcome_bind].
  set (c := {| v_gap := g; v_hash := v_hash x; v_key := v_key x; v_value := v_value x |}).
  destruct (f_put_entry_ok es1 q c e) as (es2 & -> & Hrh2 & Hha2 & Hl2 & _ & Hp2); try done.
  { by apply (missed_placeable es1 _ (λ _, false) q c Hrh Hs). }
  { by apply Hhx. }
  pose proof (Permutation_length Hp2) as Hlen2. cbn [length] in Hlen2. cbn [mbind outcome_bind].
  destruct (IH es2 Hh0 Hrh2 Hha2) as (es & -> & Hrh' & Hha' & Hl' & Hp'); [lia|].
  exists es. split_and!; try done; [by rewrite Hl'|].
  rewrite Hp', Hp2. cbn [v_key v_value c]. by rewrite Permutation_middle.
Qed.

Lemma cell_repeat_empty n i : ent (repeat empty_entry n) i = empty_entry.
Proof.
  unfold cell. rewrite nth_lookup. destruct (_ !! _) as [x|] eqn:Hx; [|done].
  apply list_elem_of_lookup_2, list_elem_of_In in Hx. by apply repeat_spec in Hx.
Qed.

Lemma fresh_robin_hood n :
  (2 ≤ n)%nat → robin_hood (repeat empty_entry n) ∧ hashed (repeat empty_entry n)
  ∧ iterate_entries (repeat empty_entry n) = [].
Proof.
  intros Hn. split_and!.
  - split; [rewrite repeat_length; lia|..]; intros i Hi; rewrite !cell_repeat_empty; done.
  - intros i Hi. by rewrite cell_repeat_empty.
  - clear. induction n as [|n IH]; [done|]. cbn [repeat]. by rewrite iterate_cons, IH.
Qed.

Lemma hashed_Forall es : hashed es → Forall (λ e, v_gap e ≠ 0 → v_hash e = f_hash (v_key e)) es.
Proof.
  intros Hha. apply Forall_lookup. intros i x Hx. pose proof (lookup_lt_Some _ _ _ Hx).
  specialize (Hha (Z.of_nat i)). unfold cell in Hha. rewrite Nat2Z.id, nth_lookup, Hx in Hha.
  apply Hha. lia.
Qed.

(** ** Well-formed maps *)

(** Two keys are the same when their hashes agree and [f_equals] says so.  The
    interpreter relies on the hash and equality methods of keys being
    consistent; this is what it relies on. *)
Definition same_key (k k' : K) : bool := bool_decide (f_hash k = f_hash k') && f_key_equals k k'.

Context (Hsame : Equivalence (λ k k', same_key k k' = true)).

Lemma same_key_sym k k' : same_key k k' = same_key k' k.
Proof. apply eq_true_iff_eq. split; apply (Equivalence_Symmetric (Equivalence := Hsame)). Qed.

Lemma same_key_trans k1 k2 k : same_key k1 k2 = true → same_key k1 k = same_key k2 k.
Proof.
  intros H. apply eq_true_iff_eq.
  split; apply (Equivalence_Transitive (Equivalence := Hsame)); [by rewrite same_key_sym|done].
Qed.

(** The keys of an association list are pairwise different. *)
Fixpoint distinct (l : list (K * V)) : Prop :=
  match l with
  | [] => True
  | kv :: l => Forall (λ kv', same_key kv.1 kv'.1 = false) l ∧ distinct l
  end.

#[global] Instance distinct_perm : Proper (Permutation ==> iff) distinct.
Proof.
  assert (∀ l l', l ≡ₚ l' → distinct l → distinct l') as H;
    [|intros l l' Hl; split; apply H; done].
  induction 1 as [|x l l' Hl IH|x y l|]; cbn; [done| | |tauto].
  - intros [Hx H]. split; [by rewrite <- Hl|auto].
  - intros [[Hxy Hy]%Forall_cons [Hx H]]. split_and!; [|done|done].
    apply Forall_cons. by rewrite same_key_sym.
Qed.

(** ** The specification: association lists *)

Fixpoint assoc (l : list (K * V)) (k : K) : option V :=
  match l with
  | [] => None
  | (k', v) :: l => if same_key k' k then Some v else assoc l k
  end.

Definition assoc_put (l : list (K * V)) (k : K) (v : V) : list (K * V) :=
  match assoc l k with
  | Some _ => map (λ kv, if same_key kv.1 k then (kv.1, v) else kv) l
  | None => (k, v) :: l
  end.

Definition assoc_remove (l : list (K * V)) (k : K) : list (K * V) :=
  filter (λ kv, same_key kv.1 k = false) l.

Lemma assoc_None l k : assoc l k = None ↔ Forall (λ kv, same_key kv.1 k = false) l.
Proof.
  induction l as [|[k' v] l IH]; cbn; [split; auto|].
  rewrite Forall_cons. cbn. destruct (same_key k' k); [|rewrite IH; tauto].
  split; [done|by intros [? _]].
Qed.

Lemma assoc_Some l k v :
  distinct l → assoc l k = Some v ↔ ∃ k', (k', v) ∈ l ∧ same_key k' k = true.
Proof.
  induction l as [|[k' w] l IH]; cbn; intros Hd.
  { split; [done|]. by intros (? & ?%not_elem_of_nil & _). }
  destruct Hd as [Hk Hd]. cbn in Hk. destruct (same_key k' k) eqn:E.
  - split; [intros [= ->]; exists k'; split; [left|done]|].
    intros (k2 & [[= -> ->]|H]%elem_of_cons & H2); [done|].
    rewrite Forall_forall in Hk. specialize (Hk _ H). cbn in Hk.
    rewrite (same_key_trans k' k) in Hk by done. rewrite same_key_sym in Hk. congruence.
  - rewrite (IH Hd). split; intros (k2 & H & H2); exists k2; (split; [|done]).
    + by right.
    + apply elem_of_cons in H as [[= -> ->]|H]; [congruence|done].
Qed.

Lemma assoc_perm l l' k : distinct l → l ≡ₚ l' → assoc l k = assoc l' k.
Proof.
  intros Hd Hl. assert (Hd' : distinct l') by (by rewrite <- Hl).
  apply option_eq. intros v. rewrite !assoc_Some by done. by setoid_rewrite Hl.
Qed.

Lemma assoc_put_perm l l' k v : distinct l → l ≡ₚ l' → assoc_put l k v ≡ₚ assoc_put l' k v.
Proof.
  intros Hd Hl. unfold assoc_put. rewrite (assoc_perm l l') by done.
  destruct (assoc l' k); [|by rewrite Hl]. by apply Permutation_map.
Qed.

Lemma assoc_remove_perm l l' k : l ≡ₚ l' → assoc_remove l k ≡ₚ assoc_remove l' k.
Proof. intros Hl. unfold assoc_remove. by rewrite Hl. Qed.

Lemma assoc_put_distinct l k v : distinct l → distinct (assoc_put l k v).
Proof.
  intros Hd. unfold assoc_put. destruct (assoc l k) eqn:E.
  - clear E. induction l as [|[k' w] l IH]; cbn; [done|]. destruct Hd as [Hk Hd].
    split; [|by apply IH]. apply Forall_map. rewrite Forall_forall in *. intros kv Hkv.
    specialize (Hk kv Hkv). cbn in *. by repeat case_match.
  - split; [|done]. apply assoc_None in E. eapply Forall_impl; [exact E|].
    intros kv. cbn. by rewrite same_key_sym.
Qed.

Lemma distinct_filter (P : K * V → Prop) `{∀ x, Decision (P x)} l : distinct l → distinct (filter P l).
Proof.
  induction l as [|x l IH]; [done|]. intros [Hx Hd]. rewrite filter_cons.
  case_decide; [|auto]. split; [|auto]. rewrite Forall_forall in *. intros y [_ Hy]%list_elem_of_filter. auto.
Qed.

(** ** The invariant of a map *)

(** At most three quarters of the entries are occupied.  The number of items
    may exceed the upper bound of the rank after a removal: see
    [rank_thrashes]. *)
Record wf (m : t_map) : Prop := {
  wf_rank : ∃ r, v_ranks !! v_rank (v_table m) = Some r
            ∧ len (v_entries (v_table m)) = v_capacity r
            ∧ 4 * v_size m ≤ 3 * v_capacity r;
  wf_order : robin_hood (v_entries (v_table m));
  wf_hashed : hashed (v_entries (v_table m));
  wf_size : v_size m = Z.of_nat (length (iterate_entries (v_entries (v_table m))));
  wf_distinct : distinct (iterate_entries (v_entries (v_table m)))
}.

Definition items (m : t_map) : list (K * V) := iterate_entries (v_entries (v_table m)).

(** What the code relies on of the table of ranks. *)
Definition rank_fits (r : t_rank) : bool :=
  bool_decide (2 ≤ v_capacity r ∧ 4 * v_upper r ≤ 3 * v_capacity r ∧ 0 ≤ v_lower r).

Definition ranks_fit (r r' : t_rank) : bool :=
  bool_decide (3 * v_capacity r + 4 ≤ 3 * v_capacity r' ∧ 4 * v_lower r' ≤ 3 * v_capacity r + 4).

Fixpoint consecutive {A} (f : A → A → bool) (l : list A) : bool :=
  match l with
  | x :: ((y :: _) as l) => f x y && consecutive f l
  | _ => true
  end.

Lemma consecutive_lookup {A} (f : A → A → bool) l i x y :
  consecutive f l = true → l !! i = Some x → l !! S i = Some y → f x y = true.
Proof.
  revert i. induction l as [|a l IH]; intros i Hl Hx Hy; [done|].
  destruct l as [|b l]; [by destruct i|].
  cbn [consecutive] in Hl. apply andb_prop in Hl as [Hab Hl].
  destruct i; [|by apply (IH i)]. cbn in Hx, Hy. congruence.
Qed.

Lemma v_ranks_fit : forallb rank_fits v_ranks && consecutive ranks_fit v_ranks = true.
Proof. vm_compute. done. Qed.

Lemma rank_ok i r : v_ranks !! i = Some r → 2 ≤ v_capacity r ∧ 4 * v_upper r ≤ 3 * v_capacity r ∧ 0 ≤ v_lower r.
Proof.
  intros Hr. pose proof v_ranks_fit as [H _]%andb_prop. rewrite forallb_forall in H.
  specialize (H r). rewrite <- list_elem_of_In in H.
  specialize (H (list_elem_of_lookup_2 _ i _ Hr)). by apply bool_decide_eq_true in H.
Qed.

Lemma ranks_ok i r r' :
  v_ranks !! i = Some r → v_ranks !! S i = Some r' →
  3 * v_capacity r + 4 ≤ 3 * v_capacity r' ∧ 4 * v_lower r' ≤ 3 * v_capacity r + 4.
Proof.
  intros Hr Hr'. pose proof v_ranks_fit as [_ H]%andb_prop.
  pose proof (consecutive_lookup _ _ _ _ _ H Hr Hr') as H'. by apply bool_decide_eq_true in H'.
Qed.

Lemma instantiate_ok i r :
  v_ranks !! i = Some r →
  ∃ t, t_table_instantiate i = Ok t ∧ v_rank t = i ∧ len (v_entries t) = v_capacity r
  ∧ robin_hood (v_entries t) ∧ hashed (v_entries t) ∧ iterate_entries (v_entries t) = [].
Proof.
  intros Hr. destruct (rank_ok i r Hr) as [Hc _]. unfold t_table_instantiate. rewrite Hr.
  destruct (fresh_robin_hood (Z.to_nat (v_capacity r))) as (H1 & H2 & H3); [lia|].
  eexists. split; [done|]. cbn [v_rank v_entries]. split_and!; try done. rewrite repeat_length. lia.
Qed.

Lemma new_map_ok : ∃ m, new_map = Ok m ∧ wf m ∧ items m = [].
Proof.
  destruct (instantiate_ok 0 (rank_of 11 0) eq_refl) as (t & Ht & Hr & Hl & Hrh & Hha & Hi).
  unfold new_map. rewrite Ht. cbn [mbind outcome_bind]. eexists. split; [done|].
  unfold items. cbn. split; [|done]. split; cbn; rewrite ?Hi; try done.
  exists (rank_of 11 0). by rewrite Hr.
Qed.

(** Whoever changes the rank has to check that the items fit. *)
Lemma f_rehash_ok (m : t_map) i r :
  hashed (v_entries (v_table m)) → v_size m = Z.of_nat (length (items m)) → distinct (items m) →
  v_ranks !! i = Some r → 4 * v_size m ≤ 3 * v_capacity r →
  ∃ m', f_rehash m i = Ok m' ∧ wf m' ∧ v_rank (v_table m') = i ∧ v_size m' = v_size m
  ∧ items m' ≡ₚ items m.
Proof.
  intros Hha Hsz Hd Hr Hle. destruct (rank_ok i r Hr) as (Hcap & _).
  destruct (instantiate_ok i r Hr) as (t & Ht & Hri & Hl & Hrh' & Hha' & Hi').
  unfold f_rehash. rewrite Ht. cbn [mbind outcome_bind]. unfold items in *.
  destruct (rehash_entries_ok (v_entries (v_table m)) (v_entries t)) as (es & -> & Hrh2 & Hha2 & Hl2 & Hp2);
    [by apply hashed_Forall|done|done|rewrite Hi'; cbn; lia|].
  rewrite Hi', app_nil_r in Hp2. cbn [mbind outcome_bind]. eexists. split; [done|].
  cbn. split_and!; try done. split; cbn; try done.
  - exists r. split_and!; try done. by rewrite Hl2.
  - by rewrite Hp2.
  - by rewrite Hp2.
Qed.

Lemma wf_free m : wf m → ∃ e, free (v_entries (v_table m)) e.
Proof.
  intros [(r & Hr & Hl & Hle) Hrh _ Hsz _]. destruct (rank_ok _ _ Hr) as (Hcap & _).
  apply free_exists; [apply Hrh|lia].
Qed.

(** What a search finds, in terms of the items. *)
Lemma found_item es p (k : K) :
  hashed es → found es (λ x, f_equals x (f_hash k) k) p →
  ∃ k', v_key (ent es p) = k' ∧ same_key k' k = true ∧ (k', v_value (ent es p)) ∈ iterate_entries es.
Proof.
  intros Hha (Hp & Hg & Hm). exists (v_key (ent es p)). split_and!; [done| |].
  - unfold f_equals in Hm. unfold same_key. by rewrite <- Hha.
  - apply elem_of_iterate. by exists p.
Qed.

Lemma missed_item es (k : K) p g :
  robin_hood es → hashed es →
  missed es (f_slot (len es) (f_hash k)) (λ x, f_equals x (f_hash k) k) p g →
  assoc (iterate_entries es) k = None.
Proof.
  intros Hrh Hha Hmiss. apply assoc_None, Forall_forall. intros kv Hkv.
  apply elem_of_iterate in Hkv as (i & Hi & Hg & ->). cbn.
  pose proof (f_slot_range es (f_hash k) ltac:(pose proof (rh_length es Hrh); lia)) as Hs.
  unfold same_key. case_bool_decide as Hh; [|done]. cbn.
  pose proof (missed_none es _ _ p g i Hrh Hs Hmiss Hi Hg) as Hf. cbn in Hf.
  unfold f_equals in Hf. rewrite Hha, bool_decide_true in Hf by done. apply Hf. by f_equal.
Qed.

(** ** Operations on well-formed maps *)

Lemma found_ok m (k : K) p :
  wf m → found (v_entries (v_table m)) (λ x, f_equals x (f_hash k) k) p →
  assoc (items m) k = Some (v_value (ent (v_entries (v_table m)) p)).
Proof.
  intros Hwf Hf. destruct (found_item _ _ _ (wf_hashed m Hwf) Hf) as (k' & _ & Hk & Hin).
  apply assoc_Some; [apply (wf_distinct m Hwf)|]. by exists k'.
Qed.

Lemma find_ok m (k : K) :
  wf m →
  ∃ o, f_find (v_entries (v_table m)) k = Ok o
  ∧ match o with
    | Some p => found (v_entries (v_table m)) (λ x, f_equals x (f_hash k) k) p
    | None => assoc (items m) k = None
    end.
Proof.
  intros Hwf. destruct (wf_free m Hwf) as [e He].
  destruct (f_find_ok _ e k (wf_order m Hwf) He) as (o & Ho & Hres). exists o. split; [done|].
  destruct o; [done|]. destruct Hres as (p & g & Hmiss). by apply (missed_item _ _ p g); apply Hwf || done.
Qed.

Lemma f_get_ok m (k : K) :
  wf m → f_get m k = match assoc (items m) k with Some v => Ok v | None => not_found end.
Proof.
  intros Hwf. destruct (find_ok m k Hwf) as (o & Ho & Hres). unfold f_get. rewrite Ho.
  cbn [mbind outcome_bind]. destruct o as [p|]; [|by rewrite Hres].
  rewrite (found_ok m k p Hwf Hres). destruct Hres as [Hp _]. by rewrite (rd_cell empty_entry) by done.
Qed.

Lemma f_has_ok m (k : K) : wf m → f_has m k = Ok (bool_decide (is_Some (assoc (items m) k))).
Proof.
  intros Hwf. destruct (find_ok m k Hwf) as (o & Ho & Hres). unfold f_has. rewrite Ho.
  cbn [mbind outcome_bind]. destruct o as [p|]; [|by rewrite Hres].
  by rewrite (found_ok m k p Hwf Hres).
Qed.

(** Replacing the value of one item. *)
Lemma assoc_put_present l l' (k k' : K) v w :
  distinct l → same_key k' k = true → l ≡ₚ (k', w) :: l' → assoc_put l k v ≡ₚ (k', v) :: l'.
Proof.
  intros Hd Hk Hl. rewrite (assoc_put_perm l _ k v Hd Hl). unfold assoc_put. cbn. rewrite Hk.
  constructor. rewrite Hl in Hd. destruct Hd as [Hf _]. cbn in Hf.
  rewrite <- (map_id l') at 2. erewrite (map_ext_in _ (λ x, x)); [done|].
  intros kv Hin%list_elem_of_In. rewrite Forall_forall in Hf. specialize (Hf _ Hin).
  rewrite (same_key_trans k' k), same_key_sym in Hf by done. by rewrite Hf.
Qed.

Lemma assoc_remove_present l l' (k k' : K) w :
  distinct l → same_key k' k = true → l ≡ₚ (k', w) :: l' → assoc_remove l k ≡ₚ l'.
Proof.
  intros Hd Hk Hl. rewrite (assoc_remove_perm _ _ k Hl). unfold assoc_remove.
  rewrite filter_cons_False by (cbn; congruence). rewrite Hl in Hd. destruct Hd as [Hf _]. cbn in Hf.
  clear Hl. induction Hf as [|kv l' Hkv Hf IH]; [done|]. rewrite filter_cons_True; [by rewrite IH|].
  cbn. by rewrite same_key_sym, <- (same_key_trans k' k).
Qed.

Lemma items_insert es p x :
  0 ≤ p < len es → gap_at es p ≠ 0 →
  iterate_entries es ≡ₚ (v_key (ent es p), v_value (ent es p))
    :: iterate_entries (<[Z.to_nat p := {| v_gap := 0; v_hash := x; v_key := knull; v_value := vnull |}]> es).
Proof.
  intros Hp Hg. pose proof (iterate_insert es p
    {| v_gap := 0; v_hash := x; v_key := knull; v_value := vnull |} Hp) as H.
  unfold item in H. rewrite decide_False, decide_True in H by done. cbn [app] in H. by rewrite H.
Qed.

(** Assigning the value of an occupied entry. *)
Lemma set_value_ok m p (v : V) :
  wf m → 0 ≤ p < len (v_entries (v_table m)) → gap_at (v_entries (v_table m)) p ≠ 0 →
  let x := ent (v_entries (v_table m)) p in
  let m' := set_entries (<[Z.to_nat p := {| v_gap := v_gap x; v_hash := v_hash x; v_key := v_key x;
                                            v_value := v |}]> (v_entries (v_table m))) (v_size m) m in
  (∀ k, same_key (v_key x) k = true → items m' ≡ₚ assoc_put (items m) k v) ∧ wf m'.
Proof.
  intros [(r & Hr & Hl & Hle) Hrh Hha Hsz Hd] Hp Hg x m'.
  set (es := v_entries (v_table m)) in *. set (y := Build_t_entry _ _ _ _) in m'.
  pose proof (iterate_insert es p y Hp) as Hit. unfold item in Hit.
  fold x in Hit. rewrite !decide_False in Hit by done. cbn [app y v_key v_value] in Hit.
  pose proof (items_insert es p 0 Hp Hg) as Hit0. fold x in Hit0.
  rewrite Hit0 in Hit. rewrite Permutation_swap in Hit. apply Permutation_cons_inv in Hit.
  assert (Hput : ∀ k, same_key (v_key x) k = true → items m' ≡ₚ assoc_put (items m) k v).
  { intros k Hk. unfold items. fold es. rewrite (assoc_put_present _ _ _ _ v _ Hd Hk Hit0). exact Hit. }
  split; [done|].
  assert (Hself : same_key (v_key x) (v_key x) = true) by apply (Equivalence_Reflexive (Equivalence := Hsame)).
  split.
  - exists r. split_and!; try done. cbn. by rewrite insert_length.
  - cbn. split; unfold at_home; rewrite ?insert_length; [apply Hrh|..]; intros i Hi;
      rewrite ?(next_length _ es) by apply length_insert;
      rewrite ?ent_insert by (pose proof (next_range es i Hi); lia).
    + case_decide; [subst; by apply Hrh|by apply Hrh].
    + pose proof (rh_step es Hrh i Hi) as Hstep.
      destruct (decide (p = next es i)) as [E|], (decide (p = i)) as [E'|]; try lia;
        [rewrite <- E in Hstep|subst i]; exact Hstep.
    + case_decide; [subst|]; intros; by apply Hrh.
  - cbn. apply hashed_insert; [done|done|]. intros _. by apply Hha.
  - change (v_size m = len (iterate_entries (<[Z.to_nat p := y]> es))). rewrite Hsz.
    apply Permutation_length in Hit, Hit0. cbn [length] in Hit, Hit0. lia.
  - specialize (Hput _ Hself). unfold items in Hput. rewrite Hput. by apply assoc_put_distinct.
Qed.

(** Putting an entry of a new key where the search has missed it. *)
Lemma put_new_ok m (k : K) (v : V) p g r :
  wf m → v_ranks !! v_rank (v_table m) = Some r → 4 * (v_size m + 1) ≤ 3 * v_capacity r →
  missed (v_entries (v_table m)) (f_slot (len (v_entries (v_table m))) (f_hash k))
    (λ x, f_equals x (f_hash k) k) p g →
  ∃ es, f_put_entry (v_entries (v_table m)) p
      {| v_gap := g; v_hash := f_hash k; v_key := k; v_value := v |} = Ok es
  ∧ rd es p =@{outcome t_entry} Ok {| v_gap := g; v_hash := f_hash k; v_key := k; v_value := v |}
  ∧ wf (set_entries es (v_size m + 1) m)
  ∧ iterate_entries es ≡ₚ assoc_put (items m) k v.
Proof.
  intros Hwf Hr Hle Hmiss. destruct (wf_free m Hwf) as [e He].
  pose proof (missed_item _ k p g (wf_order m Hwf) (wf_hashed m Hwf) Hmiss) as Hnone.
  destruct Hwf as [(r0 & Hr0 & Hl & _) Hrh Hha Hsz Hd].
  assert (r0 = r) as -> by congruence. set (es := v_entries (v_table m)) in *.
  pose proof (rh_length es Hrh) as Hlen. pose proof (f_slot_range es (f_hash k) ltac:(lia)) as Hs.
  set (c := {| v_gap := g; v_hash := f_hash k; v_key := k; v_value := v |}).
  assert (Hpl : placeable es p c) by by apply (missed_placeable es _ _ p c Hrh Hs Hmiss).
  destruct (f_put_entry_ok es p c e) as (es' & Hput & Hrh' & Hha' & Hl' & Hc & Hperm); try done.
  exists es'. split; [done|]. destruct Hpl as [Hp _ _ _ _]. split.
  { by rewrite (rd_cell empty_entry), Hc by (rewrite Hl'; done). }
  assert (Hi : iterate_entries es' ≡ₚ assoc_put (items m) k v).
  { rewrite Hperm. unfold assoc_put, items. fold es. by rewrite Hnone. }
  split; [|done]. split; cbn; try done.
  - exists r. split_and!; try done. by rewrite Hl'.
  - apply Permutation_length in Hperm. cbn [length] in Hperm. rewrite Hsz. lia.
  - rewrite Hi. by apply assoc_put_distinct.
Qed.

(** [f_put] fails only when the table of the last rank is half full. *)
Definition growable (m : t_map) : Prop :=
  ∀ r, v_ranks !! v_rank (v_table m) = Some r → v_upper r ≤ v_size m →
  is_Some (v_ranks !! S (v_rank (v_table m))).

Lemma growable_small m : wf m → v_size m < 805306370 → growable m.
Proof.
  intros _ Hsz r Hr Hle. apply lookup_lt_is_Some_2. pose proof (lookup_lt_Some _ _ _ Hr) as Hlt.
  destruct (decide (v_rank (v_table m) = 27%nat)) as [E|]; [|change (length v_ranks) with 28%nat in *; lia].
  rewrite E in Hr. change (Some (R 1610612741) = Some r) in Hr. injection Hr as <-.
  change (v_upper (R 1610612741)) with 805306370 in Hle. lia.
Qed.

(** Growing for a new key: the next rank, and the position found anew. *)
Lemma map_grow_ok m (k : K) r :
  wf m → v_ranks !! v_rank (v_table m) = Some r → v_upper r ≤ v_size m → growable m →
  assoc (items m) k = None →
  ∃ m' r' p g, f_rehash m (S (v_rank (v_table m))) = Ok m' ∧ wf m' ∧ items m' ≡ₚ items m
  ∧ v_size m' = v_size m
  ∧ v_rank (v_table m') = S (v_rank (v_table m)) ∧ v_ranks !! v_rank (v_table m') = Some r'
  ∧ 4 * (v_size m + 1) ≤ 3 * v_capacity r'
  ∧ f_find_or_gap (v_entries (v_table m')) (f_hash k) k = Ok (p, g)
  ∧ missed (v_entries (v_table m')) (f_slot (len (v_entries (v_table m'))) (f_hash k))
      (λ x, f_equals x (f_hash k) k) p g.
Proof.
  intros Hwf Hr Hle Hgrow Hnone. destruct (Hgrow r Hr Hle) as [r' Hr'].
  destruct (ranks_ok _ _ _ Hr Hr') as [Hcap _].
  destruct (wf_rank m Hwf) as (r0 & Hr0 & _ & Hsz). assert (r0 = r) as -> by congruence.
  destruct (f_rehash_ok m (S (v_rank (v_table m))) r') as (m' & Hm' & Hwf' & Hrk & Hsz' & Hperm);
    try apply Hwf; [done|lia|].
  destruct (wf_free m' Hwf') as [e He].
  destruct (f_find_or_gap_ok _ e (f_hash k) k (wf_order m' Hwf') He) as (p & g & Hf & _ & Hres).
  exists m', r', p, g. rewrite Hrk. split_and!; try done; [lia|].
  destruct Hres as [|[Hfound _]]; [done|exfalso].
  rewrite <- (assoc_perm (items m')), (found_ok m' k p) in Hnone; try done. apply Hwf'.
Qed.

Lemma f_put_ok m (k : K) (v : V) :
  wf m → growable m →
  ∃ m', f_put m k v = Ok (v, m') ∧ wf m' ∧ items m' ≡ₚ assoc_put (items m) k v
  ∧ ∀ r, v_ranks !! v_rank (v_table m) = Some r →
      v_rank (v_table m') = (if decide (assoc (items m) k = None ∧ v_upper r ≤ v_size m)
                             then S (v_rank (v_table m)) else v_rank (v_table m)).
Proof.
  intros Hwf Hgrow. destruct (wf_free m Hwf) as [e He].
  destruct (f_find_or_gap_ok _ e (f_hash k) k (wf_order m Hwf) He) as (p & g & Hf & Hat & Hres).
  destruct (wf_rank m Hwf) as (r & Hr & Hl & Hle).
  pose proof (rh_length _ (wf_order m Hwf)) as Hlen.
  pose proof (f_slot_range (v_entries (v_table m)) (f_hash k) ltac:(lia)) as Hs.
  pose proof (at_probe_range _ _ _ _ Hs Hat) as Hp.
  unfold f_put. rewrite Hf. cbn [mbind outcome_bind].
  rewrite (rd_cell empty_entry) by done. cbn [mbind outcome_bind].
  destruct Hres as [Hmiss|[Hfound Hg]].
  - rewrite decide_False by (destruct Hmiss as (_ & _ & ?); lia).
    unfold rank_at. rewrite Hr. cbn [mbind outcome_bind].
    pose proof (missed_item _ k p g (wf_order m Hwf) (wf_hashed m Hwf) Hmiss) as Hnone.
    destruct (decide (v_size m >= v_upper r)).
    + destruct (map_grow_ok m k r Hwf Hr ltac:(lia) Hgrow Hnone)
        as (m' & r' & p' & g' & Hm' & Hwf' & Hperm & Hsz' & Hrk & Hr' & Hle' & Hf' & Hmiss').
      rewrite Hrk in Hr'. pose proof (lookup_lt_Some _ _ _ Hr').
      rewrite decide_False by lia. rewrite Hm'. cbn [mbind outcome_bind].
      rewrite Hf'. cbn [mbind outcome_bind].
      destruct (put_new_ok m' k v p' g' r' Hwf') as (es & -> & Hrd & Hwf2 & Hi);
        [by rewrite Hrk|by rewrite Hsz'|done|].
      cbn [mbind outcome_bind]. rewrite Hrd. cbn [mbind outcome_bind]. eexists. split; [done|].
      split; [done|]. split; [unfold items at 1; cbn; rewrite Hi; apply assoc_put_perm; [apply Hwf'|done]|].
      intros r2 Hr2. assert (r2 = r) as -> by congruence. by rewrite decide_True by (split; [done|lia]).
    + destruct (rank_ok _ _ Hr) as (_ & Hup & _). cbn [mbind outcome_bind].
      destruct (put_new_ok m k v p g r Hwf Hr) as (es & -> & Hrd & Hwf2 & Hi); [lia|done|].
      cbn [mbind outcome_bind]. rewrite Hrd. cbn [mbind outcome_bind]. eexists.
      split_and!; try done. intros r2 Hr2. assert (r2 = r) as -> by congruence.
      by rewrite decide_False by (intros [_ ?]; lia).
  - rewrite decide_True by done. rewrite wr_ok by done. cbn [mbind outcome_bind].
    eexists. split; [done|].
    destruct (found_item _ _ _ (wf_hashed m Hwf) Hfound) as (k' & <- & Hk & _).
    assert (Hg0 := proj1 (proj2 Hfound)).
    destruct (set_value_ok m p v Hwf Hp Hg0) as [Hi Hwf']. split_and!; [done|by apply Hi|].
    intros r2 _. pose proof (found_ok m k p Hwf) as Hsome. rewrite decide_False; [done|].
    intros [Hnone _]. rewrite Hsome in Hnone; done.
Qed.

(** Emptying an occupied entry and closing the hole. *)
Lemma remove_entry_ok es p e x :
  robin_hood es → hashed es → free es e → 0 ≤ p < len es → gap_at es p ≠ 0 →
  ∃ es', close_hole (<[Z.to_nat p := {| v_gap := 0; v_hash := x; v_key := knull; v_value := vnull |}]> es) p
    = Ok es'
  ∧ robin_hood es' ∧ hashed es' ∧ length es' = length es
  ∧ iterate_entries es ≡ₚ (v_key (ent es p), v_value (ent es p)) :: iterate_entries es'.
Proof.
  intros Hrh Hha [He He0] Hp Hg. set (h := Build_t_entry _ _ _ _).
  assert (Hep : e ≠ p) by congruence.
  destruct (close_hole_ok (<[Z.to_nat p := h]> es) p e) as (es' & Hes & Hrh' & Hha' & Hl & Hperm).
  - by apply make_hole.
  - by apply hashed_insert.
  - split; [by rewrite insert_length|]. rewrite ent_insert by lia. by rewrite decide_False.
  - done.
  - exists es'. split_and!; try done; [by rewrite Hl, length_insert|].
    rewrite Hperm. by apply items_insert.
Qed.

(** The invariant before [f_remove] looks at the lower bound. *)
Lemma map_shrink_ok m es r :
  wf m → v_ranks !! v_rank (v_table m) = Some r → len es = v_capacity r →
  robin_hood es → hashed es → distinct (iterate_entries es) →
  v_size m = Z.of_nat (length (iterate_entries es)) + 1 →
  ∃ m', (let m1 := set_entries es (v_size m - 1) m in
         if decide (v_size m1 < v_lower r) then
           match v_rank (v_table m1) with O => Fault | S rank => f_rehash m1 rank end
         else Ok m1) = Ok m'
  ∧ wf m' ∧ items m' ≡ₚ iterate_entries es
  ∧ v_rank (v_table m') = (if decide (v_size m - 1 < v_lower r)
                           then Nat.pred (v_rank (v_table m)) else v_rank (v_table m)).
Proof.
  intros Hwf Hr Hl Hrh Hha Hd Hsz. destruct (wf_rank m Hwf) as (r0 & Hr0 & _ & Hle).
  assert (r0 = r) as -> by congruence. cbv zeta. cbn [set_entries v_size v_table v_rank].
  destruct (decide (v_size m - 1 < v_lower r)) as [Hlow|].
  - destruct (v_rank (v_table m)) as [|i] eqn:Ei.
    { cbn in Hr. injection Hr as <-. cbn in Hlow. lia. }
    pose proof (lookup_lt_Some _ _ _ Hr) as Hlt.
    destruct (lookup_lt_is_Some_2 v_ranks i) as [r' Hr']; [lia|].
    destruct (ranks_ok _ _ _ Hr' Hr) as [_ Hlower].
    destruct (f_rehash_ok (set_entries es (v_size m - 1) m) i r') as (m' & Hm' & Hwf' & Hrk & _ & Hperm);
      unfold items; cbn [set_entries v_size v_table v_entries]; try done; try lia.
    exists m'. by split_and!.
  - eexists. split; [done|]. split_and!; try done. split; cbn; try done; [|lia].
    exists r. split_and!; done || lia.
Qed.

Lemma map_f_remove_ok m (k : K) :
  wf m →
  match assoc (items m) k with
  | Some v => ∃ m', f_remove m k = Ok (v, m') ∧ wf m' ∧ items m' ≡ₚ assoc_remove (items m) k
                ∧ ∀ r, v_ranks !! v_rank (v_table m) = Some r →
                   v_rank (v_table m') = (if decide (v_size m - 1 < v_lower r)
                     then Nat.pred (v_rank (v_table m)) else v_rank (v_table m))
  | None => f_remove m k = not_found
  end.
Proof.
  intros Hwf. destruct (find_ok m k Hwf) as (o & Ho & Hres). unfold f_remove. rewrite Ho.
  cbn [mbind outcome_bind]. destruct o as [p|]; [|by rewrite Hres].
  rewrite (found_ok m k p Hwf Hres).
  destruct (found_item _ _ _ (wf_hashed m Hwf) Hres) as (k' & <- & Hk & _).
  destruct Hres as (Hp & Hg & _). destruct (wf_free m Hwf) as [e He].
  destruct (wf_rank m Hwf) as (r & Hr & Hl & _).
  rewrite (rd_cell empty_entry) by done. cbn [mbind outcome_bind].
  rewrite wr_ok by done. cbn [mbind outcome_bind].
  destruct (remove_entry_ok _ p e (v_hash (ent (v_entries (v_table m)) p)) (wf_order m Hwf) (wf_hashed m Hwf)
    He Hp Hg) as (es & -> & Hrh & Hha & Hl' & Hperm).
  cbn [mbind outcome_bind]. unfold rank_at. rewrite Hr. cbn [mbind outcome_bind].
  pose proof (wf_distinct m Hwf) as Hd. assert (Hd' := Hd). rewrite Hperm in Hd'. destruct Hd' as [_ Hd'].
  pose proof (Permutation_length Hperm) as Hlen. cbn [length] in Hlen.
  destruct (map_shrink_ok m es r Hwf Hr) as (m' & Hm' & Hwf' & Hi & Hrk); try done;
    [by rewrite Hl'|rewrite (wf_size m Hwf); lia|].
  cbv zeta in Hm'. rewrite Hm'. cbn [mbind outcome_bind]. eexists. split; [done|].
  split_and!; [done| |].
  - rewrite Hi. symmetry. by apply (assoc_remove_present _ _ _ (v_key (ent (v_entries (v_table m)) p)) _ Hd Hk Hperm).
  - intros r' Hr'. by simplify_eq.
Qed.

(** ** Traversals *)

Lemma drop_cell es p : 0 ≤ p < len es → drop (Z.to_nat p) es = ent es p :: drop (Z.to_nat (p + 1)) es.
Proof.
  intros Hp. destruct (lookup_lt_is_Some_2 es (Z.to_nat p)) as [x Hx]; [lia|].
  rewrite (drop_S _ _ _ Hx). unfold cell. rewrite nth_lookup, Hx. cbn. do 2 f_equal. lia.
Qed.

Lemma seek_ok es p :
  0 ≤ p ≤ len es →
  ∃ o, seek es p = Ok o
  ∧ match o with
    | None => iterate_entries (drop (Z.to_nat p) es) = []
    | Some q => p ≤ q < len es
        ∧ iterate_entries (drop (Z.to_nat p) es)
          = (v_key (ent es q), v_value (ent es q)) :: iterate_entries (drop (Z.to_nat (q + 1)) es)
    end.
Proof.
  intros Hp. set (l := iterate_entries (drop (Z.to_nat p) es)).
  apply (loop_ind _ (λ q, p ≤ q ≤ len es ∧ l = iterate_entries (drop (Z.to_nat q) es)) _ (λ q, len es - q)).
  - intros q [Hq Hl]. split; [lia|]. destruct (decide (q >= len es)).
    + right. eexists. split; [done|]. rewrite Hl, drop_ge by lia. done.
    + rewrite (rd_cell empty_entry) by lia. cbn [mbind outcome_bind].
      rewrite drop_cell, iterate_cons in Hl by lia. unfold item in Hl.
      destruct (decide (gap_at es q = 0)) as [H0|H0].
      * left. eexists. split; [by rewrite decide_False by (intros H; by apply H)|].
        split; [|lia]. split; [lia|done].
      * right. eexists. split; [by rewrite decide_True|]. cbn [app] in Hl. split; [lia|done].
  - split; [lia|done].
  - unfold rounds. lia.
Qed.

Lemma each_items {S} (f : S → K * V → outcome S) m s : each f m s = fold_calls f s (items m).
Proof.
  unfold each, items, t_iterator_begin. set (es := v_entries (v_table m)).
  assert (∀ fuel p s, 0 ≤ p ≤ len es → len es - p < Z.of_nat fuel →
    (i ← seek es p; each_from fuel es f i s) = fold_calls f s (iterate_entries (drop (Z.to_nat p) es))) as H;
    [|apply (H (rounds es) 0 s); unfold rounds; lia].
  induction fuel as [|fuel IH]; intros p s' Hp Hf; [lia|].
  destruct (seek_ok es p Hp) as (o & -> & Ho). cbn [mbind outcome_bind].
  destruct o as [q|]; [|by rewrite Ho]. destruct Ho as [Hq ->]. cbn [each_from fold_calls].
  rewrite (rd_cell empty_entry) by lia. cbn [mbind outcome_bind].
  specialize (IH (q + 1)). destruct (seek_ok es (q + 1)) as (o & Ho & _); [lia|].
  unfold f_next. rewrite Ho in IH |- *. cbn [mbind outcome_bind] in IH |- *.
  destruct (f s' _) as [s2| |]; [|done..]. cbn. apply IH; lia.
Qed.

Definition spec_string (key_string : K → string) (value_string : V → string) (l : list (K * V)) : string :=
  ("{" +:+ String.concat ", " (map (λ kv, key_string kv.1 +:+ ": " +:+ value_string kv.2) l) +:+ "}")%string.

Lemma string_from_ok (ks : K → string) (vs : V → string) es fuel : ∀ p x y s,
  0 ≤ p < len es → len es - p < Z.of_nat fuel →
  string_from fuel es ks vs (p, x, y) s = Ok (s +:+ String.concat ", "
    (map (λ kv, ks kv.1 +:+ ": " +:+ vs kv.2)
       ((x, y) :: iterate_entries (drop (Z.to_nat (p + 1)) es))))%string.
Proof.
  induction fuel as [|fuel IH]; intros p x y s Hp Hf; [lia|]. cbn [string_from].
  destruct (seek_ok es (p + 1)) as (o & Ho & Hi); [lia|]. unfold f_next. rewrite Ho.
  cbn [mbind outcome_bind]. destruct o as [q|]; cbn [get_entry].
  - destruct Hi as [Hq ->]. rewrite (rd_cell empty_entry) by lia. cbn [mbind outcome_bind].
    rewrite IH by lia. cbn [map String.concat fst snd]. by rewrite !string_app_assoc.
  - by rewrite Hi.
Qed.

Lemma f__string_items (ks : K → string) (vs : V → string) m :
  f__string ks vs m = Ok (spec_string ks vs (items m)).
Proof.
  unfold f__string, items, t_iterator_begin, spec_string. set (es := v_entries (v_table m)).
  destruct (seek_ok es 0) as (o & -> & Hi); [lia|]. cbn [mbind outcome_bind].
  change (Z.to_nat 0) with 0%nat in Hi. rewrite drop_0 in Hi.
  destruct o as [q|]; cbn [get_entry mbind outcome_bind]; [|by rewrite Hi].
  destruct Hi as [Hq ->]. rewrite (rd_cell empty_entry) by lia. cbn [mbind outcome_bind].
  rewrite string_from_ok by (unfold rounds; lia). cbn [mbind outcome_bind]. by rewrite string_app_assoc.
Qed.

(** ** Programs on maps *)

Definition spec_run (l : list (K * V)) (c : call) : outcome (answer * list (K * V)) :=
  match c with
  | Get k => match assoc l k with Some v => Ok (AValue v, l) | None => not_found end
  | Has k => Ok (ATruth (bool_decide (is_Some (assoc l k))), l)
  | Put k v => Ok (AValue v, assoc_put l k v)
  | Remove k => match assoc l k with Some v => Ok (AValue v, assoc_remove l k) | None => not_found end
  | Size => Ok (ACount (Z.of_nat (length l)), l)
  | Clear => Ok (ANothing, [])
  end.

Definition represents (m : t_map) (l : list (K * V)) : Prop := wf m ∧ items m ≡ₚ l.

Lemma represents_size m l : represents m l → v_size m = len l.
Proof. intros [Hwf Hl]. rewrite (wf_size m Hwf). f_equal. by apply Permutation_length. Qed.

Definition run_rel (r : answer * t_map) (s : answer * list (K * V)) : Prop :=
  r.1 = s.1 ∧ represents r.2 s.2 ∧ len s.2 ≤ 805306370.

Lemma map_run_ok m l c :
  represents m l → len l < 805306370 → outcome_rel run_rel (run m c) (spec_run l c).
Proof.
  intros Hrep Hlt. assert (Hrep' := Hrep). destruct Hrep' as [Hwf Hl].
  pose proof (wf_distinct m Hwf) as Hd. pose proof (represents_size m l Hrep) as Hsz.
  assert (Ha : ∀ k, assoc (items m) k = assoc l k) by (intros; by apply assoc_perm).
  destruct c as [k|k|k v|k| |]; cbn [run spec_run].
  - rewrite f_get_ok, Ha by done. destruct (assoc l k); [|done]. split_and!; done || cbn; lia.
  - rewrite f_has_ok, Ha by done. split_and!; done || cbn; lia.
  - destruct (f_put_ok m k v Hwf) as (m' & -> & Hwf' & Hi & _); [apply growable_small; done || lia|].
    split; [done|]. assert (Hr' : represents m' (assoc_put l k v)).
    { split; [done|]. rewrite Hi. by apply assoc_put_perm. }
    split; [done|]. cbn. unfold assoc_put. destruct (assoc l k); [rewrite length_map|cbn [length]]; lia.
  - pose proof (map_f_remove_ok m k Hwf) as H. rewrite Ha in H. destruct (assoc l k) as [v|]; [|by rewrite H].
    destruct H as (m' & -> & Hwf' & Hi & _). split; [done|]. split.
    + split; [done|]. cbn. rewrite Hi. by apply assoc_remove_perm.
    + cbn. unfold assoc_remove. pose proof (length_filter (λ kv, same_key kv.1 k = false) l). lia.
  - split; [by cbn; rewrite Hsz|]. split; [done|cbn; lia].
  - destruct new_map_ok as (m' & Hm' & Hwf' & Hi). change (f_clear m) with new_map. rewrite Hm'.
    split; [done|]. split; [split; [done|by cbn; rewrite Hi]|cbn; lia].
Qed.

Lemma spec_run_length l c a l' : spec_run l c = Ok (a, l') → len l' ≤ len l + 1.
Proof.
  destruct c as [k|k|k v|k| |]; cbn; try case_match; intros; simplify_eq; try (cbn; lia).
  - unfold assoc_put. case_match; [rewrite length_map|cbn [length]]; lia.
  - unfold assoc_remove. pose proof (length_filter (λ kv, same_key kv.1 k = false) l). lia.
Qed.

Lemma map_spec_run_no_fault l c : spec_run l c ≠ Fault.
Proof. destruct c; cbn; by try case_match. Qed.

Lemma map_trace_ok cs : ∀ m l,
  represents m l → len l + Z.of_nat (length cs) ≤ 805306370 → trace run m cs = trace spec_run l cs.
Proof.
  induction cs as [|c cs IH]; intros m l Hm Hlen; [done|]. cbn [trace length] in *.
  pose proof (map_run_ok m l c Hm ltac:(lia)) as Hr. pose proof (spec_run_length l c) as Hl'.
  destruct (run m c) as [[a m']| |], (spec_run l c) as [[a' l']| |]; try done; cbn [outcome_rel] in Hr.
  - destruct Hr as (Ha & Hm' & _). cbn [fst snd] in Ha, Hm'. rewrite Ha.
    f_equal. apply IH; [done|]. specialize (Hl' _ _ eq_refl). lia.
  - subst. f_equal. apply IH; [done|lia].
Qed.

Lemma trace_no_fault cs : ∀ l, Fault ∉ trace spec_run l cs.
Proof.
  induction cs as [|c cs IH]; intros l; cbn; [by apply not_elem_of_nil|].
  pose proof (map_spec_run_no_fault l c). destruct (spec_run l c) as [[a l']| |]; try done; by apply not_elem_of_cons.
Qed.

(** [f_put] of a new key in a map that cannot grow. *)
Lemma f_put_full m (k : K) (v : V) :
  wf m → ¬ growable m → assoc (items m) k = None → f_put m k v = throw "cannot grow.".
Proof.
  intros Hwf Hgrow Hnone. destruct (wf_free m Hwf) as [e He].
  destruct (f_find_or_gap_ok _ e (f_hash k) k (wf_order m Hwf) He) as (p & g & Hf & Hat & Hres).
  pose proof (f_slot_range (v_entries (v_table m)) (f_hash k)
    ltac:(pose proof (rh_length _ (wf_order m Hwf)); lia)) as Hs.
  pose proof (at_probe_range _ _ _ _ Hs Hat) as Hp.
  unfold f_put. rewrite Hf. cbn [mbind outcome_bind].
  rewrite (rd_cell empty_entry) by done. cbn [mbind outcome_bind].
  destruct Hres as [(_ & _ & Hlt)|[Hfound _]];
    [|by rewrite (found_ok m k p Hwf Hfound) in Hnone].
  rewrite decide_False by lia. unfold rank_at.
  destruct (wf_rank m Hwf) as (r & Hr & _). rewrite Hr. cbn [mbind outcome_bind].
  destruct (decide (v_size m >= v_upper r)).
  - destruct (decide (length v_ranks <= S (v_rank (v_table m)))%nat); [done|].
    destruct Hgrow. intros r' Hr' _. apply lookup_lt_is_Some_2. lia.
  - destruct Hgrow. intros r' Hr' ?. assert (r' = r) as -> by congruence. lia.
Qed.

(** *** Construction *)

Fixpoint spec_construct (to_key : V → K) (l : list (K * V)) (xs : list V) : list (K * V) :=
  match xs with
  | [] => l
  | [x] => assoc_put l (to_key x) vnull
  | x :: y :: xs => spec_construct to_key (assoc_put l (to_key x) y) xs
  end.

Lemma put_represents m l (k : K) (v : V) :
  represents m l → len l < 805306370 →
  ∃ m', f_put m k v = Ok (v, m') ∧ represents m' (assoc_put l k v) ∧ len (assoc_put l k v) ≤ len l + 1.
Proof.
  intros Hrep Hlt. pose proof (represents_size m l Hrep). destruct Hrep as [Hwf Hl].
  destruct (f_put_ok m k v Hwf) as (m' & -> & Hwf' & Hi & _); [apply growable_small; done || lia|].
  exists m'. split_and!; try done.
  - split; [done|]. rewrite Hi. apply assoc_put_perm; [apply Hwf|done].
  - unfold assoc_put. case_match; [rewrite length_map|cbn [length]]; lia.
Qed.

Lemma map_construct_ok (to_key : V → K) (n : nat) : ∀ xs m l,
  (length xs ≤ n)%nat → represents m l → len l + Z.of_nat (length xs) < 805306370 →
  ∃ m', construct_pairs to_key m xs = Ok m' ∧ represents m' (spec_construct to_key l xs).
Proof.
  induction n as [|n IH]; intros xs m l Hn Hm Hlt; destruct xs as [|x [|y xs]];
    cbn [length construct_pairs spec_construct] in *; try lia; try by exists m.
  - destruct (put_represents m l (to_key x) vnull Hm) as (m' & -> & Hm' & _); [lia|]. by exists m'.
  - destruct (put_represents m l (to_key x) y Hm) as (m' & -> & Hm' & Hl'); [lia|].
    cbn [mbind outcome_bind]. apply IH; [lia|done|lia].
Qed.

Lemma found_remove_length m (k : K) v :
  wf m → assoc (items m) k = Some v → S (length (assoc_remove (items m) k)) = length (items m).
Proof.
  intros Hwf Hk. apply assoc_Some in Hk as (k' & Hin & Hk); [|apply Hwf].
  apply elem_of_Permutation in Hin as [l Hl].
  rewrite (assoc_remove_present _ _ _ _ _ (wf_distinct m Hwf) Hk Hl). by rewrite Hl.
Qed.

(** ** Properties *)

(** C7 (map_trace_refines_assoc): a program that works on a map through its
    methods sees exactly the results, exceptions included, of the same methods
    on an association list with at most one item per key, as long as the map
    stays below the half of the largest table; no access ever leaves the table
    and every probe terminates. *)
Theorem map_trace_refines_assoc cs :
  Z.of_nat (length cs) ≤ 805306370 →
  ∃ m, new_map = Ok m ∧ trace run m cs = trace spec_run [] cs ∧ Fault ∉ trace run m cs.
Proof.
  intros Hlen. destruct new_map_ok as (m & Hm & Hwf & Hi). exists m. split; [done|].
  rewrite (map_trace_ok cs m []); [by split; [|apply trace_no_fault]| |cbn; lia].
  split; [done|by rewrite Hi].
Qed.

(** [f_put] replaces the value of the key, which keeps the key
    object already stored, or adds the item; it moves to the next rank exactly
    when a new key finds the table half full, and throws, changing nothing,
    exactly when there is no next rank then. *)
Theorem map_put m (k : K) (v : V) r :
  wf m → v_ranks !! v_rank (v_table m) = Some r →
  match assoc (items m) k with
  | None =>
    if decide (v_upper r ≤ v_size m ∧ v_ranks !! S (v_rank (v_table m)) = None)
    then f_put m k v = throw "cannot grow."
    else ∃ m', f_put m k v = Ok (v, m') ∧ wf m' ∧ items m' ≡ₚ (k, v) :: items m
         ∧ v_rank (v_table m') = (if decide (v_upper r ≤ v_size m)
                                  then S (v_rank (v_table m)) else v_rank (v_table m))
  | Some _ =>
    growable m →
    ∃ m', f_put m k v = Ok (v, m') ∧ wf m' ∧ v_rank (v_table m') = v_rank (v_table m)
    ∧ items m' ≡ₚ map (λ kv, if same_key kv.1 k then (kv.1, v) else kv) (items m)
  end.
Proof.
  intros Hwf Hr. pose proof (f_put_ok m k v Hwf) as H. unfold assoc_put in H.
  destruct (assoc (items m) k) as [w|] eqn:Ea.
  - intros Hg. destruct (H Hg) as (m' & Hm' & Hwf' & Hi & Hrk). exists m'.
    split_and!; try done. rewrite (Hrk r Hr). by rewrite decide_False by (by intros [? _]).
  - destruct (decide _) as [[Hup Hnext]|Hn].
    + apply f_put_full; try done. intros Hg. destruct (Hg r Hr Hup) as [? ?]. congruence.
    + destruct H as (m' & Hm' & Hwf' & Hi & Hrk).
      { intros r' Hr' Hup. simplify_eq. destruct (v_ranks !! S _) eqn:E; [by eexists|]. by destruct Hn. }
      exists m'. split_and!; try done. rewrite (Hrk r Hr). repeat case_decide; tauto.
Qed.

(** [f_remove] returns the value of the key and leaves the
    other items, whatever entries had to be shifted to close the hole, or
    throws; it moves to the previous rank exactly when the size falls below
    the lower bound, and there always is one then. *)
Theorem map_remove m (k : K) r :
  wf m → v_ranks !! v_rank (v_table m) = Some r →
  match assoc (items m) k with
  | None => f_remove m k = throw "key not found."
  | Some v =>
    ∃ m', f_remove m k = Ok (v, m') ∧ wf m'
    ∧ items m' ≡ₚ filter (λ kv, same_key kv.1 k = false) (items m)
    ∧ v_rank (v_table m') = (if decide (v_size m - 1 < v_lower r)
                             then Nat.pred (v_rank (v_table m)) else v_rank (v_table m))
  end.
Proof.
  intros Hwf Hr. pose proof (map_f_remove_ok m k Hwf) as H. destruct (assoc (items m) k); [|done].
  destruct H as (m' & H1 & H2 & H3 & H4). exists m'. split_and!; try done. by apply H4.
Qed.

(** Where the lower bound of a rank exceeds the upper
    bound of the rank before it, a map at the lower bound from which one key
    is removed and another one put is rehashed by both calls. *)
Theorem map_rank_thrashes m (k k' : K) (v v' : V) i r r' :
  wf m → v_rank (v_table m) = S i → v_ranks !! i = Some r → v_ranks !! S i = Some r' →
  v_upper r < v_lower r' → v_size m = v_lower r' →
  assoc (items m) k = Some v → assoc (assoc_remove (items m) k) k' = None →
  ∃ m1 m2, f_remove m k = Ok (v, m1) ∧ v_rank (v_table m1) = i
  ∧ f_put m1 k' v' = Ok (v', m2) ∧ v_rank (v_table m2) = S i ∧ v_size m2 = v_lower r'.
Proof.
  intros Hwf Hrk Hr Hr' Hlt Hsz Hk Hk'. pose proof (map_f_remove_ok m k Hwf) as H. rewrite Hk in H.
  destruct H as (m1 & Hm1 & Hwf1 & Hi1 & Hrk1). rewrite Hrk in Hrk1. specialize (Hrk1 r' Hr').
  rewrite decide_True in Hrk1 by lia. cbn in Hrk1.
  assert (Hnone : assoc (items m1) k' = None) by (rewrite (assoc_perm _ _ _ (wf_distinct _ Hwf1) Hi1); done).
  assert (Hs1 : v_size m1 = v_size m - 1).
  { pose proof (found_remove_length m k v Hwf Hk) as Hl. rewrite (wf_size m1 Hwf1), (wf_size m Hwf).
    apply Permutation_length in Hi1. unfold items in *. lia. }
  destruct (f_put_ok m1 k' v' Hwf1) as (m2 & Hm2 & Hwf2 & Hi2 & Hrk2).
  { intros r2 _ _. rewrite Hrk1, Hr'. by eexists. }
  exists m1, m2. split_and!; try done.
  - rewrite Hrk1 in Hrk2. rewrite (Hrk2 r Hr). rewrite decide_True by (split; [done|lia]). done.
  - unfold assoc_put in Hi2. rewrite Hnone in Hi2. apply Permutation_length in Hi2.
    rewrite (wf_size m2 Hwf2). unfold items in *. rewrite Hi2. cbn [length].
    pose proof (wf_size m1 Hwf1). lia.
Qed.

(** Construction puts the alternating keys and values in
    turn, a last key without a value getting the null value; [each] calls the
    callable once for each item, in the order of the table, and stops when it
    throws; [__string] writes the items in the same order. *)
Theorem map_traversals {S} (to_key : V → K) xs (f : S → K * V → outcome S) (s : S)
    (key_string : K → string) (value_string : V → string) :
  Z.of_nat (length xs) < 805306370 →
  ∃ m0 m, new_map = Ok m0 ∧ construct_pairs to_key m0 xs = Ok m
  ∧ items m ≡ₚ spec_construct to_key [] xs
  ∧ each f m s = fold_calls f s (items m)
  ∧ f__string key_string value_string m = Ok (spec_string key_string value_string (items m)).
Proof.
  intros Hlen. destruct new_map_ok as (m0 & Hm0 & Hwf & Hi). exists m0.
  destruct (map_construct_ok to_key (length xs) xs m0 []) as (m & Hm & _ & Hp); [done| |cbn; lia|].
  { split; [done|by rewrite Hi]. }
  exists m. split_and!; try done; [apply each_items|apply f__string_items].
Qed.
End HashMap.

(** ** Witnesses

    Keys and values are numbers; every third key has the same hash. *)
Definition sample_hash (k : nat) : Z := Z.of_nat (k / 3) * 23.

#[export] Instance sample_equivalence : Equivalence (λ k k', same_key sample_hash Nat.eqb k k' = true).
Proof.
  assert (∀ k k', same_key sample_hash Nat.eqb k k' = true ↔ k = k') as H.
  { intros k k'. unfold same_key. split.
    - intros [_ ?%Nat.eqb_eq]%andb_prop. done.
    - intros ->. by rewrite bool_decide_true, Nat.eqb_refl. }
  split; repeat intro; rewrite ?H in *; congruence.
Qed.

(** Thirteen items with keys 0 to 12. *)
Definition sample_pairs : list nat := concat (map (λ k, [k; k + 100]%nat) (seq 0 13)).

Definition sample_build : outcome (@t_map nat nat) :=
  m ← new_map 0%nat 0%nat; construct_pairs 0%nat 0%nat sample_hash Nat.eqb id m sample_pairs.

Definition sample : @t_map nat nat :=
  Eval vm_compute in
  match sample_build with
  | Ok m => m
  | _ => {| v_table := {| v_rank := 0; v_entries := [] |}; v_size := 0 |}
  end.

Lemma sample_wf : wf 0%nat 0%nat sample_hash Nat.eqb sample.
Proof.
  assert (sample_build = Ok sample) as Hb by (vm_compute; reflexivity). unfold sample_build in Hb.
  destruct (new_map_ok 0%nat 0%nat sample_hash Nat.eqb) as (m0 & Hm0 & Hwf & Hi).
  rewrite Hm0 in Hb. cbn [mbind outcome_bind] in Hb.
  destruct (map_construct_ok 0%nat 0%nat sample_hash Nat.eqb _ id 26 sample_pairs m0 [])
    as (m & Hm & [Hwf' _]); [by vm_compute|split; [done|by rewrite Hi]|by vm_compute|].
  congruence.
Qed.

Lemma map_trace_witness :
  let cs := [Put 3 30; Put 4 40; Put 3 31; Get 3; Remove 4; Get 4; Size]%nat in
  Z.of_nat (length cs) ≤ 805306370
  ∧ ∃ m, new_map 0%nat 0%nat = Ok m
    ∧ trace (run 0%nat 0%nat sample_hash Nat.eqb) m cs = trace (spec_run sample_hash Nat.eqb) [] cs
    ∧ Fault ∉ trace (run 0%nat 0%nat sample_hash Nat.eqb) m cs.
Proof.
  intros cs. split; [vm_compute; discriminate|].
  apply (map_trace_refines_assoc 0%nat 0%nat sample_hash Nat.eqb _ cs). vm_compute. discriminate.
Defined.

Lemma map_put_witness :
  ∃ m', f_put 0%nat 0%nat sample_hash Nat.eqb sample 77%nat 5%nat = Ok (5%nat, m')
  ∧ wf 0%nat 0%nat sample_hash Nat.eqb m' ∧ items m' ≡ₚ (77, 5)%nat :: items sample
  ∧ v_rank (v_table m') = 2%nat.
Proof.
  exact (map_put 0%nat 0%nat sample_hash Nat.eqb _ sample 77%nat 5%nat (R 53) sample_wf eq_refl).
Defined.

Lemma map_remove_witness :
  ∃ m', f_remove 0%nat 0%nat sample_hash Nat.eqb sample 4%nat = Ok (104%nat, m')
  ∧ wf 0%nat 0%nat sample_hash Nat.eqb m'
  ∧ items m' ≡ₚ filter (λ kv, same_key sample_hash Nat.eqb kv.1 4%nat = false) (items sample)
  ∧ v_rank (v_table m') = 1%nat.
Proof.
  exact (map_remove 0%nat 0%nat sample_hash Nat.eqb _ sample 4%nat (R 53) sample_wf eq_refl).
Defined.

Lemma map_rank_thrashes_witness :
  ∃ m1 m2, f_remove 0%nat 0%nat sample_hash Nat.eqb sample 4%nat = Ok (104%nat, m1)
  ∧ v_rank (v_table m1) = 1%nat
  ∧ f_put 0%nat 0%nat sample_hash Nat.eqb m1 50%nat 9%nat = Ok (9%nat, m2)
  ∧ v_rank (v_table m2) = 2%nat ∧ v_size m2 = 13.
Proof.
  exact (map_rank_thrashes 0%nat 0%nat sample_hash Nat.eqb _ sample 4%nat 50%nat 104%nat 9%nat 1 (R 23) (R 53)
    sample_wf eq_refl eq_refl eq_refl eq_refl eq_refl eq_refl eq_refl).
Defined.

Lemma map_traversals_witness :
  Z.of_nat 3 < 805306370
  ∧ ∃ m0 m, new_map 0%nat 0%nat = Ok m0
    ∧ construct_pairs 0%nat 0%nat sample_hash Nat.eqb id m0 [1; 10; 2]%nat = Ok m
    ∧ items m ≡ₚ spec_construct 0%nat sample_hash Nat.eqb id [] [1; 10; 2]%nat
    ∧ each (λ s kv, Ok (s + kv.2)%nat) m 0%nat = fold_calls (λ s kv, Ok (s + kv.2)%nat) 0%nat (items m)
    ∧ f__string (λ _, "k"%string) (λ _, "v"%string) m
      = Ok (spec_string (λ _, "k"%string) (λ _, "v"%string) (items m)).
Proof.
  split; [reflexivity|].
  apply (map_traversals 0%nat 0%nat sample_hash Nat.eqb _ id [1; 10; 2]%nat). reflexivity.
Defined.
