(* ===== verification/Text.v ===== *)
(** * Strings (src: include/xemmai/string.h, src/string.cc, include/xemmai/global.h)

    A [t_string] is an immutable array of wide characters; it is a list here.
    [t_stringer] builds one in the array of an object that it replaces by a
    larger one when it is full. *)
From stdpp Require Import base list numbers strings.
From S2P Require Import Prelude Machine Layout.
Local Open Scope Z_scope.

Definition text : Type := list Z.
Implicit Types (t u : text) (c : Z).

Definition out_of_range {A} : outcome A := throw "out of range.".

Definition f_size (s : text) : Z := Z.of_nat (length s).

(** ** Comparison *)

(** [std::char_traits<wchar_t>::compare], whose sign is all that is used. *)
Fixpoint traits_compare (s t : text) (n : nat) {struct n} : outcome Z :=
  match n with
  | O => Ok 0
  | S n =>
    match s, t with
    | x :: s, y :: t => if x <? y then Ok (-1) else if y <? x then Ok 1 else traits_compare s t n
    | _, _ => Fault
    end
  end.

(** [operator==] *)
Definition text_equals (s t : text) : outcome bool :=
  if f_size s =? f_size t then n ← traits_compare s t (length s); Ok (n =? 0) else Ok false.

Definition f_compare (s t : text) : outcome Z :=
  n ← traits_compare s t (Nat.min (length s) (length t));
  if n =? 0 then Ok (if f_size s <? f_size t then -1 else if f_size t <? f_size s then 1 else 0) else Ok n.

(** The operators of [t_type_of<t_string>] on another string. *)
Definition f_do_less (s t : text) : outcome bool := n ← f_compare s t; Ok (n <? 0).
Definition f_do_less_equal (s t : text) : outcome bool := n ← f_compare s t; Ok (n <=? 0).
Definition f_do_greater (s t : text) : outcome bool := n ← f_compare s t; Ok (0 <? n).
Definition f_do_greater_equal (s t : text) : outcome bool := n ← f_compare s t; Ok (0 <=? n).

(** ** Parts *)

(** A [wchar_t] has 32 bits and a sign. *)
Definition to_wchar (z : Z) : Z := (z + 2 ^ 31) mod 2 ^ 32 - 2 ^ 31.

Definition from_code (a_code : Z) : text := [to_wchar a_code].

(** The [a_n] characters at [a_p] are copied. *)
Definition copy_n (s : text) (a_p a_n : Z) : outcome text :=
  if decide (0 <= a_p ∧ 0 <= a_n ∧ a_p + a_n <= f_size s) then Ok (take (Z.to_nat a_n) (drop (Z.to_nat a_p) s)) else Fault.

Definition f__substring (a_self : text) (a_i a_n : Z) : outcome text :=
  if 0 <? a_n then copy_n a_self a_i a_n else Ok [].

(** [substring] with one argument and with two; they are [size_t]s. *)
Definition substring1 (a_self : text) (a_i : Z) : outcome text :=
  if f_size a_self <? a_i then out_of_range else f__substring a_self a_i (f_size a_self - a_i).

Definition substring2 (a_self : text) (a_i a_n : Z) : outcome text :=
  if f_size a_self <? a_i then out_of_range else f__substring a_self a_i (Z.min a_n (f_size a_self - a_i)).

Definition code_at (a_self : text) (a_i : Z) : outcome Z :=
  if f_size a_self <=? a_i then out_of_range else rd a_self a_i.

(** ** Objects

    A string is an object with a class and an address: [f__add] gives one of
    its operands when the other is empty. *)
Record t_object := Object' { o_type : Z; o_text : text }.

(** What [f__add] gives: an operand, or a new object. *)
Inductive t_sum := Self | Argument | New (o : t_object).

Definition f__add (a_self x : t_object) : t_sum :=
  if f_size (o_text a_self) <=? 0 then Argument
  else if f_size (o_text x) <=? 0 then Self
  else New (Object' (o_type a_self) (o_text a_self ++ o_text x)).

Definition sum_object (a_self x : t_object) (r : t_sum) : t_object :=
  match r with Self => a_self | Argument => x | New o => o end.

(** ** [t_stringer]

    The array of [v_p] has a cell for a terminator; [v_i] and [v_j] are
    offsets into it. *)
Record t_stringer := Stringer { cells : text; v_i : Z; v_j : Z }.

Definition sizeof_t_string : Z := 8.
Definition sizeof_wchar_t : Z := 4.

(** The empty string, which all stringers begin with. *)
Definition new_stringer : t_stringer := Stringer [0] 0 0.

(** The new array has arbitrary contents beyond the copy. *)
Definition f_grow (garbage : Z → Z) (s : t_stringer) : outcome t_stringer :=
  let n0 := v_j s in
  let n1 := f_size_to_capacity sizeof_t_string sizeof_wchar_t
    (if 0 <? n0 then f_capacity_to_size sizeof_t_string sizeof_wchar_t (n0 + 1) * 2 else sizeof_t_object) - 1 in
  copy ← copy_n (cells s) 0 (v_i s);
  if decide (v_i s <= n1 + 1) then Ok (Stringer (copy ++ tabulate (n1 + 1 - v_i s) garbage) (v_i s) n1) else Fault.

(** [operator<<] of a character and of a string. *)
Definition put_char (garbage : Z → Z) (s : t_stringer) (a_c : Z) : outcome t_stringer :=
  r ← (if v_i s =? v_j s then f_grow garbage s else Ok s);
  l ← wr (cells r) (v_i r) a_c;
  Ok (Stringer l (v_i r + 1) (v_j r)).

Definition put_text (garbage : Z → Z) (s : t_stringer) (a_s : text) : outcome t_stringer :=
  r ← loop (S (length a_s)) (λ r : t_stringer, if v_j r - v_i r <? f_size a_s then r ← f_grow garbage r; Ok (inl r) else Ok (inr r)) s;
  if decide (v_i r + f_size a_s <= f_size (cells r)) then
    Ok (Stringer (take (Z.to_nat (v_i r)) (cells r) ++ a_s ++ drop (Z.to_nat (v_i r + f_size a_s)) (cells r)) (v_i r + f_size a_s) (v_j r))
  else Fault.

Definition f_rewind (s : t_stringer) (a_i : Z) : t_stringer := Stringer (cells s) a_i (v_j s).

(** The conversion to an object: the terminator is put, and the size is known. *)
Definition built (s : t_stringer) : outcome text :=
  l ← wr (cells s) (v_i s) 0; copy_n l 0 (v_i s).

(** A piece of a text: a character or a string. *)
Definition put (garbage : Z → Z) (s : t_stringer) (x : Z + text) : outcome t_stringer :=
  match x with inl c => put_char garbage s c | inr t => put_text garbage s t end.

Definition piece (x : Z + text) : text := match x with inl c => [c] | inr t => t end.

(** ** Strings are ordered *)

(** The first difference decides, and a proper prefix comes before. *)
Definition before (s t : text) : Prop :=
  (∃ p x y u v, s = p ++ x :: u ∧ t = p ++ y :: v ∧ x < y) ∨ ∃ x u, t = s ++ x :: u.

Lemma before_cons x s t : before s t → before (x :: s) (x :: t).
Proof. intros [(p & a & b & u & v & -> & -> & Hlt)|(a & u & ->)]; [left; by exists (x :: p), a, b, u, v|right; by exists a, u]. Qed.

Lemma traits_compare_ok s t n : (n <= length s)%nat → (n <= length t)%nat →
  ∃ r, traits_compare s t n = Ok r ∧
    ((r = 0 ∧ take n s = take n t) ∨ (r = -1 ∧ before (take n s) (take n t) ∧ before s t) ∨ (r = 1 ∧ before (take n t) (take n s) ∧ before t s)).
Proof.
  revert s t. induction n as [|n IH]; intros s t Hs Ht; cbn; [by exists 0; auto|].
  destruct s as [|x s]; [cbn in Hs; lia|]. destruct t as [|y t]; [cbn in Ht; lia|]. cbn in Hs, Ht |- *.
  assert (HB : ∀ a b u v, a < b → before (a :: u) (b :: v)) by (intros a b u v Hab; left; by exists [], a, b, u, v).
  destruct (Z.ltb_spec x y); [exists (-1); split; [done|]; right; left; split_and!; [done|by apply HB..]|].
  destruct (Z.ltb_spec y x); [exists 1; split; [done|]; right; right; split_and!; [done|by apply HB..]|].
  assert (x = y) as -> by lia. destruct (IH s t ltac:(lia) ltac:(lia)) as (r & -> & [[-> E]|[(-> & ? & ?)|(-> & ? & ?)]]).
  - exists 0. split; [done|]. left. by rewrite E.
  - exists (-1). split; [done|]. right. left. split_and!; [done|by apply before_cons..].
  - exists 1. split; [done|]. right. right. split_and!; [done|by apply before_cons..].
Qed.

Lemma traits_compare_equal s t : length s = length t → ∃ r, traits_compare s t (length s) = Ok r ∧ (r = 0 ↔ s = t).
Proof.
  intros Hl. destruct (traits_compare_ok s t (length s)) as (r & Hr & Hc); [done|by rewrite Hl|]. exists r. split; [done|].
  assert (Hnot : ∀ u, ¬ before u u).
  { intros u [(p & x & y & v & w & E1 & E2 & ?)|(x & v & E)].
    - rewrite E1 in E2. apply app_inv_head in E2. injection E2. lia.
    - apply (f_equal length) in E. rewrite length_app in E. cbn in E. lia. }
  rewrite !firstn_all, Hl, firstn_all in Hc. destruct Hc as [[-> ?]|[(-> & Hb & _)|(-> & Hb & _)]]; [done|..]; (split; [done|]); intros ->; by destruct (Hnot t).
Qed.

Lemma text_equals_ok s t : text_equals s t = Ok (bool_decide (s = t)).
Proof.
  unfold text_equals, f_size. destruct (Z.eqb_spec (Z.of_nat (length s)) (Z.of_nat (length t))) as [Hl|Hl].
  - destruct (traits_compare_equal s t ltac:(lia)) as (r & -> & Hr). cbn. f_equal. destruct (Z.eqb_spec r 0); case_bool_decide; tauto.
  - rewrite bool_decide_false; [done|]. by intros ->.
Qed.

#[export] Instance before_strict : StrictOrder before.
Proof.
  split.
  - intros u [(p & x & y & v & w & E1 & E2 & ?)|(x & v & E)].
    + rewrite E1 in E2. apply app_inv_head in E2. injection E2. lia.
    + apply (f_equal length) in E. rewrite length_app in E. cbn in E. lia.
  - intros s t u [(p & x & y & a & b & -> & -> & Hlt)|(x & a & ->)] [(q & z & w & c & d & E & -> & Hlt')|(z & c & ->)].
    + left. destruct (app_eq_inv _ _ _ _ E) as [(k & -> & E')|(k & -> & E')]; destruct k as [|k0 k]; cbn in E'; injection E' as -> ->; rewrite ?app_nil_r.
      * eexists q, x, w, _, _. split_and!; [reflexivity|reflexivity|lia].
      * exists q, k0, w, (k ++ x :: a), d. rewrite <- app_assoc. split_and!; [done|done|lia].
      * eexists p, x, w, _, _. split_and!; [reflexivity|reflexivity|lia].
      * exists p, x, k0, a, (k ++ w :: d). rewrite <- app_assoc. split_and!; [done|done|lia].
    + left. exists p, x, y, a, (b ++ z :: c). rewrite <- app_assoc. split_and!; done.
    + destruct (app_eq_inv _ _ _ _ E) as [(k & -> & E')|(k & -> & E')]; destruct k as [|k0 k]; cbn in E'.
      * injection E' as -> ->. right. rewrite app_nil_r. by exists w, d.
      * injection E' as -> ->. left. exists q, k0, w, k, d. done.
      * injection E' as -> ->. right. rewrite app_nil_r. by exists w, d.
      * injection E' as -> ->. right. exists k0, (k ++ w :: d). by rewrite <- app_assoc.
    + right. exists x, (a ++ z :: c). by rewrite <- app_assoc.
Qed.

(** The sign of [f_compare] is the order. *)
Lemma f_compare_ok s t : ∃ n, f_compare s t = Ok n ∧ (n < 0 ↔ before s t) ∧ (n = 0 ↔ s = t) ∧ (0 < n ↔ before t s).
Proof.
  destruct (traits_compare_ok s t (Nat.min (length s) (length t)) ltac:(lia) ltac:(lia)) as (r & Hr & Hc).
  enough (H : ∃ n, f_compare s t = Ok n ∧ ((n < 0 ∧ before s t) ∨ (n = 0 ∧ s = t) ∨ (0 < n ∧ before t s))).
  { destruct H as (n & Hn & H). exists n. split; [done|].
    assert (Hi : ∀ u v, before u v → u ≠ v) by (intros u v Hb ->; by apply (irreflexivity before) in Hb).
    assert (Ha : ∀ u v, before u v → ¬ before v u) by (intros u v Hb Hb'; apply (irreflexivity before u); by etrans).
    destruct H as [[? Hb]|[[? ->]|[? Hb]]].
    - specialize (Hi _ _ Hb). specialize (Ha _ _ Hb). split_and!; split; intros; try done; lia.
    - assert (¬ before t t) by apply (irreflexivity before). split_and!; split; intros; try done; lia.
    - pose proof (Hi _ _ Hb). specialize (Ha _ _ Hb). split_and!; split; intros; try done; subst; try lia; done. }
  unfold f_compare. rewrite Hr. cbn [mbind outcome_bind]. destruct Hc as [[-> E]|[(-> & _ & Hb)|(-> & _ & Hb)]]; cbn -[f_size].
  2: { exists (-1). split; [done|]. left. split; [lia|done]. }
  2: { exists 1. split; [done|]. right. right. split; [lia|done]. }
  unfold f_size. assert (HP : ∀ u v : text, (length u < length v)%nat → take (Nat.min (length u) (length v)) u = take (Nat.min (length u) (length v)) v → before u v).
  { intros u v Hl E'. rewrite Nat.min_l, firstn_all in E' by lia. right. destruct (drop (length u) v) as [|x w] eqn:Ed.
    - apply (f_equal length) in Ed. rewrite length_drop in Ed. cbn in Ed. lia.
    - exists x, w. rewrite <- Ed. rewrite <- (take_drop (length u) v) at 1. by rewrite <- E'. }
  destruct (Z.ltb_spec (Z.of_nat (length s)) (Z.of_nat (length t))); [exists (-1); split; [done|]; left; split; [done|]; apply HP; [lia|done]|].
  destruct (Z.ltb_spec (Z.of_nat (length t)) (Z.of_nat (length s))); [exists 1; split; [done|]; right; right; split; [done|]; apply HP; [lia|by rewrite Nat.min_comm]|].
  exists 0. split; [done|]. right. left. split; [done|]. assert (Hl : length s = length t) by lia. by rewrite Hl, Nat.min_id, firstn_all, <- Hl, firstn_all in E.
Qed.

(** ** Texts are built *)

(** The array has room for the capacity and a terminator, and begins with the
    text so far. *)
Record builds (s : t_stringer) (t : text) : Prop := {
  b_text : take (Z.to_nat (v_i s)) (cells s) = t;
  b_size : v_i s = f_size t;
  b_room : 0 <= v_i s <= v_j s;
  b_cells : f_size (cells s) = v_j s + 1;
}.

Lemma new_builds : builds new_stringer [].
Proof. by split. Qed.

Lemma copy_n_ok s n : 0 <= n <= f_size s → copy_n s 0 n = Ok (take (Z.to_nat n) s).
Proof. intros Hn. unfold copy_n. by rewrite decide_True by lia. Qed.

(** The capacity of the new array is more than twice as large. *)
Lemma grown_capacity n : 0 <= n →
  2 * n < f_size_to_capacity sizeof_t_string sizeof_wchar_t
    (if 0 <? n then f_capacity_to_size sizeof_t_string sizeof_wchar_t (n + 1) * 2 else sizeof_t_object) - 1.
Proof.
  intros Hn. destruct (Z.ltb_spec 0 n) as [H0|H0]; [|assert (n = 0) as -> by lia; reflexivity].
  pose proof (f_capacity_to_size_bounds sizeof_t_string sizeof_wchar_t (n + 1)) as [[Hb _] _]. cbv zeta in Hb.
  unfold f_size_to_capacity, sizeof_wchar_t in *. change (f_fields_offset sizeof_t_string) with 80 in *.
  assert (2 * n + 1 < (f_capacity_to_size sizeof_t_string 4 (n + 1) * 2 - 80) / 4); [|lia].
  apply Z.lt_le_trans with (2 * n + 2); [lia|]. apply Z.div_le_lower_bound; lia.
Qed.

Lemma f_grow_ok garbage (s : t_stringer) t : builds s t → ∃ s', f_grow garbage s = Ok s' ∧ builds s' t ∧ v_i s' = v_i s ∧ 2 * v_j s < v_j s'.
Proof.
  intros [H1 H2 H3 H4]. unfold f_grow. set (n1 := f_size_to_capacity _ _ _ - 1). pose proof (grown_capacity (v_j s) ltac:(lia)) as Hn. fold n1 in Hn.
  rewrite copy_n_ok by lia. cbn [mbind outcome_bind]. rewrite decide_True by lia. eexists. split; [done|]. cbn [v_i v_j]. split_and!; [|done|lia].
  assert (Hl : length (take (Z.to_nat (v_i s)) (cells s)) = Z.to_nat (v_i s)) by (rewrite length_take; unfold f_size in *; lia).
  split; cbn [cells v_i v_j].
  - rewrite take_app_le, <- H1 by lia. rewrite take_take. by rewrite Nat.min_id.
  - done.
  - lia.
  - unfold f_size in *. rewrite length_app, Hl, length_tabulate. lia.
Qed.

Lemma put_char_ok garbage (s : t_stringer) t c : builds s t → ∃ s', put_char garbage s c = Ok s' ∧ builds s' (t ++ [c]).
Proof.
  intros Hb. unfold put_char.
  assert (Hg : ∃ r, (if v_i s =? v_j s then f_grow garbage s else Ok s) = Ok r ∧ builds r t ∧ v_i r < v_j r).
  { pose proof (b_room _ _ Hb). destruct (Z.eqb_spec (v_i s) (v_j s)) as [E|E]; [|exists s; split_and!; [done|done|lia]].
    destruct (f_grow_ok garbage s t Hb) as (r & Hr & Hb' & Hi & Hj). exists r. split_and!; [done|done|lia]. }
  destruct Hg as (r & -> & [H1 H2 H3 H4] & Hlt). cbn [mbind outcome_bind]. unfold f_size in *. rewrite wr_ok by lia. cbn [mbind outcome_bind].
  eexists. split; [done|]. split; cbn [cells v_i v_j].
  - rewrite Z2Nat.inj_add by lia. change (Z.to_nat 1) with 1%nat. rewrite Nat.add_1_r.
    rewrite (take_S_r _ _ c) by (apply list_lookup_insert_eq; lia). rewrite take_insert_ge by lia. by rewrite H1.
  - unfold f_size. rewrite length_app. cbn. lia.
  - lia.
  - unfold f_size. rewrite length_insert. lia.
Qed.

Lemma put_text_ok garbage (s : t_stringer) t u : builds s t → ∃ s', put_text garbage s u = Ok s' ∧ builds s' (t ++ u).
Proof.
  intros Hb. unfold put_text.
  destruct (loop_ind (E := string) (λ r : t_stringer, if v_j r - v_i r <? f_size u then r ← f_grow garbage r; Ok (inl r) else Ok (inr r))
    (λ r, builds r t) (λ r, builds r t ∧ f_size u <= v_j r - v_i r) (λ r, Z.max 0 (f_size u - (v_j r - v_i r)))) with (fuel := S (length u)) (s := s) as (r & -> & [H1 H2 H3 H4] & Hroom).
  - intros r Hr. split; [lia|]. pose proof (b_room _ _ Hr). destruct (Z.ltb_spec (v_j r - v_i r) (f_size u)) as [Hlt|Hge]; [left|right; by exists r].
    destruct (f_grow_ok garbage r t Hr) as (r' & -> & Hr' & Hi & Hj). exists r'. split_and!; [done|done|]. lia.
  - done.
  - pose proof (b_room _ _ Hb). unfold f_size. lia.
  - cbn [mbind outcome_bind]. rewrite decide_True by lia. eexists. split; [done|]. unfold f_size in *.
    assert (Hl : length (take (Z.to_nat (v_i r)) (cells r)) = Z.to_nat (v_i r)) by (rewrite length_take; lia).
    split; cbn [cells v_i v_j]; unfold f_size.
    + rewrite H1, app_assoc. apply take_app_length'. rewrite length_app, H1 in *. lia.
    + rewrite length_app. lia.
    + lia.
    + rewrite !length_app, Hl, length_drop. lia.
Qed.

Lemma put_all_ok garbage xs : ∀ (s : t_stringer) t, builds s t → ∃ s', fold_calls (put garbage) s xs = Ok s' ∧ builds s' (t ++ concat (map piece xs)).
Proof.
  induction xs as [|x xs IH]; intros s t Hb; cbn [fold_calls map concat]; [exists s; by rewrite app_nil_r|].
  assert (Hx : ∃ s', put garbage s x = Ok s' ∧ builds s' (t ++ piece x)) by (destruct x; [by apply put_char_ok|by apply put_text_ok]).
  destruct Hx as (s1 & -> & Hb1). cbn [mbind outcome_bind]. destruct (IH s1 _ Hb1) as (s2 & -> & Hb2). exists s2. by rewrite app_assoc.
Qed.

Lemma built_ok (s : t_stringer) t : builds s t → built s = Ok t.
Proof.
  intros [H1 H2 H3 H4]. unfold built. unfold f_size in *. rewrite wr_ok by lia. cbn [mbind outcome_bind].
  rewrite copy_n_ok by (unfold f_size; rewrite length_insert; lia). by rewrite take_insert_ge, H1 by lia.
Qed.

(** C26 (stringers_build_texts): a string that is built from characters and
    strings with a [t_stringer] is their concatenation; however often the array
    has to grow, and whatever the new arrays contain, no character is written
    or read outside of an array. *)
Theorem stringers_build_texts (garbage : Z → Z) (xs : list (Z + text)) :
  (s ← fold_calls (put garbage) new_stringer xs; built s) = Ok (concat (map piece xs)).
Proof. destruct (put_all_ok garbage xs _ _ new_builds) as (s & -> & Hb). cbn [mbind outcome_bind]. by rewrite (built_ok _ _ Hb). Qed.

(** ** Parts of a string *)

(** [substring] gives the part, cut at the end of the string, or throws. *)
Lemma substring2_ok s i n : 0 <= i → 0 <= n →
  substring2 s i n = if decide (i <= f_size s) then Ok (take (Z.to_nat n) (drop (Z.to_nat i) s)) else out_of_range.
Proof.
  intros Hi Hn. unfold substring2, f__substring. unfold f_size in *. destruct (Z.ltb_spec (Z.of_nat (length s)) i); [by rewrite decide_False by lia|].
  rewrite decide_True by lia. destruct (Z.ltb_spec 0 (Z.min n (Z.of_nat (length s) - i))) as [H0|H0].
  - unfold copy_n, f_size. rewrite decide_True by lia. f_equal. destruct (Z.min_spec n (Z.of_nat (length s) - i)) as [[? ->]|[? ->]]; [done|].
    rewrite !take_ge; [done|rewrite length_drop; lia..].
  - destruct (Z.min_spec n (Z.of_nat (length s) - i)) as [[? E]|[? E]].
    + assert (n = 0) as -> by lia. done.
    + rewrite drop_ge, take_nil by lia. done.
Qed.
