(* ===== verification/Keys.v ===== *)
(** * Tuples, and values as keys (src: include/xemmai/tuple.h, src/tuple.cc,
    include/xemmai/global.h, include/xemmai/type.h)

    A map asks its keys for their hash and whether they are equal.  A key is
    the value with what it refers to: strings, tuples, and objects that are
    equal only to themselves.  An address tells whether two references are to
    the same object. *)
From stdpp Require Import base list numbers strings.
From S2P Require Import Prelude Machine Text.
From S2P Require HashMap.
Local Open Scope Z_scope.

Inductive key :=
| key_null
| key_boolean (b : bool)
| key_integer (v_integer : Z)
| key_float (v_float : double)
| key_string (p : Z) (s : text)
| key_tuple (p : Z) (v_entries : list key)
| key_object (p : Z).

Section Induction.
Context (P : key → Prop) (Hnull : P key_null) (Hboolean : ∀ b, P (key_boolean b)) (Hinteger : ∀ z, P (key_integer z)) (Hfloat : ∀ d, P (key_float d)).
Context (Hstring : ∀ p s, P (key_string p s)) (Htuple : ∀ p xs, Forall P xs → P (key_tuple p xs)) (Hobject : ∀ p, P (key_object p)).

Fixpoint key_ind' (k : key) : P k :=
  match k with
  | key_null => Hnull
  | key_boolean b => Hboolean b
  | key_integer z => Hinteger z
  | key_float d => Hfloat d
  | key_string p s => Hstring p s
  | key_tuple p xs =>
    Htuple p xs ((fix list xs : Forall P xs := match xs with [] => Forall_nil_2 _ | x :: xs => Forall_cons_2 _ _ _ (key_ind' x) (list xs) end) xs)
  | key_object p => Hobject p
  end.
End Induction.

(** [f_tag]: the pointer of a value that is not a number. *)
Definition c_tag__NULL : Z := 0.
Definition c_tag__FALSE : Z := 1.
Definition c_tag__TRUE : Z := 2.

Definition key_not_supported {A} : outcome A := throw "not supported.".
Definition key_type_error {A} : outcome A := throw "argument0 must be of another type.".

Section Hash.
(** [std::hash] of the standard library. *)
Context (hash_text : text → Z) (hash_double : double → Z).

(** ** [t_value::f_hash] and [t_tuple::f_hash] *)

Fixpoint f_hash (k : key) : Z :=
  match k with
  | key_null => c_tag__NULL
  | key_boolean b => if b then c_tag__TRUE else c_tag__FALSE
  | key_integer z => z
  | key_float d => to_intptr (hash_double d)
  | key_string _ s => to_intptr (hash_text s)
  | key_tuple _ xs => (fix hash n xs := match xs with [] => n | x :: xs => hash (Z.lxor n (f_hash x)) xs end) 0 xs
  | key_object p => p
  end.
End Hash.

(** ** [t_value::f_equals] and [t_tuple::f_equals] *)

(** The pointer of a reference to an object. *)
Definition pointer (k : key) : option Z :=
  match k with key_string p _ | key_tuple p _ | key_object p => Some p | _ => None end.

Fixpoint f_equals (x y : key) {struct x} : bool :=
  match x with
  | key_null => match y with key_null => true | _ => false end
  | key_boolean b => match y with key_boolean c => Bool.eqb b c | _ => false end
  | key_integer i => match y with key_integer j => i =? j | key_float e => d_eq (d_of i) e | _ => false end
  | key_float d => match y with key_integer j => d_eq d (d_of j) | key_float e => d_eq d e | _ => false end
  | key_string _ s => match y with key_string _ t => match text_equals s t with Ok b => b | _ => false end | _ => false end
  | key_tuple p xs =>
    match y with
    | key_tuple q ys =>
      (p =? q) || ((length xs =? length ys)%nat
        && (fix all xs ys := match xs, ys with x :: xs, y :: ys => f_equals x y && all xs ys | _, _ => true end) xs ys)
    | _ => false
    end
  | key_object p => bool_decide (pointer y = Some p)
  end.

(** ** [t_value::f_less] and [t_tuple::f_compare] *)

Fixpoint f_less (x y : key) {struct x} : outcome bool :=
  match x with
  | key_null | key_boolean _ | key_object _ => key_not_supported
  | key_integer i => match y with key_integer j => Ok (i <? j) | key_float e => Ok (d_lt (d_of i) e) | _ => key_not_supported end
  | key_float d => match y with key_integer j => Ok (d_lt d (d_of j)) | key_float e => Ok (d_lt d e) | _ => key_type_error end
  | key_string _ s => match y with key_string _ t => f_do_less s t | _ => key_type_error end
  | key_tuple p xs =>
    match y with
    | key_tuple q ys =>
      n ← (if p =? q then Ok 0 else
             (fix compare xs ys : outcome Z :=
                match xs, ys with
                | [], ys => Ok (match ys with [] => 0 | _ => -1 end)
                | _ :: _, [] => Ok 1
                | x :: xs, y :: ys => if f_equals x y then compare xs ys else b ← f_less x y; Ok (if (b : bool) then -1 else 1)
                end) xs ys);
      Ok (n <? 0)
    | _ => key_type_error
    end
  end.

(** [t_tuple::f_compare] *)
Fixpoint compare_entries (xs ys : list key) : outcome Z :=
  match xs, ys with
  | [], ys => Ok (match ys with [] => 0 | _ => -1 end)
  | _ :: _, [] => Ok 1
  | x :: xs, y :: ys => if f_equals x y then compare_entries xs ys else b ← f_less x y; Ok (if (b : bool) then -1 else 1)
  end.

Definition tuple_compare (p : Z) (xs : list key) (q : Z) (ys : list key) : outcome Z :=
  if p =? q then Ok 0 else compare_entries xs ys.

Definition tuple_less_equal p xs q ys : outcome bool := n ← tuple_compare p xs q ys; Ok (n <=? 0).
Definition tuple_greater p xs q ys : outcome bool := n ← tuple_compare p xs q ys; Ok (0 <? n).
Definition tuple_greater_equal p xs q ys : outcome bool := n ← tuple_compare p xs q ys; Ok (0 <=? n).

(** [t_tuple::f_get_at]; the index is a [size_t]. *)
Definition tuple_get_at (xs : list key) (a_index : Z) : outcome key :=
  if Z.of_nat (length xs) <=? a_index then out_of_range else rd xs a_index.

(** [t_tuple::f_string], with the strings of the entries: an entry whose
    [f_string] is not a string is an error. *)
Fixpoint string_entries (garbage : Z → Z) (s : t_stringer) (strings : list (option text)) : outcome t_stringer :=
  match strings with
  | [] => Ok s
  | None :: _ => throw "value must be a string."
  | Some x :: strings =>
    s ← put_text garbage s x;
    match strings with
    | [] => Ok s
    | _ => s ← put_char garbage s 44; s ← put_char garbage s 32; string_entries garbage s strings
    end
  end.

Definition tuple_string (garbage : Z → Z) (strings : list (option text)) : outcome text :=
  s ← put_char garbage new_stringer 39; s ← put_char garbage s 40;
  s ← string_entries garbage s strings;
  s ← put_char garbage s 41; built s.

(** ** Keys without floating-point numbers *)

(** What the address of an object tells of it. *)
Inductive body := body_text (s : text) | body_tuple (xs : list key) | body_plain.
Section Plain.
Context (store : Z → body).

Fixpoint plain (k : key) : Prop :=
  match k with
  | key_float _ => False
  | key_string p s => store p = body_text s
  | key_tuple p xs => store p = body_tuple xs ∧ (fix all xs := match xs with [] => True | x :: xs => plain x ∧ all xs end) xs
  | key_object p => store p = body_plain
  | _ => True
  end.

(** A key without the addresses of strings and tuples. *)
Fixpoint erase (k : key) : key :=
  match k with
  | key_string _ s => key_string 0 s
  | key_tuple _ xs => key_tuple 0 (map erase xs)
  | _ => k
  end.

Lemma plain_tuple p xs : plain (key_tuple p xs) ↔ store p = body_tuple xs ∧ Forall plain xs.
Proof.
  cbn. apply and_iff_compat_l. induction xs as [|x xs IH]; [split; [constructor|done]|].
  rewrite Forall_cons. by rewrite IH.
Qed.

Lemma equals_entries xs ys : Forall (λ x, ∀ y, plain x → plain y → f_equals x y = true ↔ erase x = erase y) xs → Forall plain xs → Forall plain ys →
  (length xs =? length ys)%nat && (fix all xs ys := match xs, ys with x :: xs, y :: ys => f_equals x y && all xs ys | _, _ => true end) xs ys = true ↔
  map erase xs = map erase ys.
Proof.
  intros HX. revert ys. induction HX as [|x xs Hx HX IH]; intros [|y ys] Hxs Hys; cbn; try (split; done).
  apply Forall_cons in Hxs as [Px Pxs], Hys as [Py Pys].
  specialize (IH ys Pxs Pys). specialize (Hx y Px Py). rewrite andb_true_iff in IH. rewrite !andb_true_iff, Hx.
  split.
  - intros (? & H1 & H2). rewrite H1. f_equal. by apply IH.
  - intros [= H1 H2]. apply IH in H2 as [? ?]. auto.
Qed.

(** Equality ignores where strings and tuples are. *)
Lemma f_equals_erase x : ∀ y, plain x → plain y → f_equals x y = true ↔ erase x = erase y.
Proof.
  induction x as [|b|z|d|p s|p xs IH|p] using key_ind'; intros y Hx Hy.
  - by destruct y.
  - destruct y; try done. cbn. rewrite Bool.eqb_true_iff. split; [by intros ->|by intros [= ->]].
  - destruct y; try done. cbn. rewrite Z.eqb_eq. split; [by intros ->|by intros [= ->]].
  - done.
  - destruct y; try done. cbn. rewrite text_equals_ok, bool_decide_eq_true. split; [by intros ->|by intros [= ->]].
  - destruct y as [|b|z|d|q s|q ys|q]; try done. apply plain_tuple in Hx as [Hp Hx], Hy as [Hq Hy].
    pose proof (equals_entries xs ys IH Hx Hy) as HE. cbn [f_equals erase]. rewrite orb_true_iff, Z.eqb_eq. rewrite HE. split.
    + intros [->|E]; [|by rewrite E]. assert (xs = ys) as -> by congruence. done.
    + intros [= E]. by right.
  - cbn. rewrite bool_decide_eq_true. destruct y; cbn in *; try (split; done); try (split; [intros [= ->]; intuition congruence|done]).
    split; [by intros [= ->]|by intros [= ->]].
Qed.

(** [std::hash] of the standard library, which may be any function. *)
Context (hash_text : text → Z) (hash_double : double → Z).
Abbreviation f_hash := (f_hash hash_text hash_double).

Lemma f_hash_erase k : f_hash (erase k) = f_hash k.
Proof.
  induction k as [|b|z|d|p s|p xs IH|p] using key_ind'; try done. cbn [erase Keys.f_hash]. generalize 0 as n.
  induction IH as [|x xs Hx HX IH]; intros n; [done|]. cbn [map]. by rewrite Hx, IH.
Qed.

(** ** Maps *)

Definition plain_key : Type := sig plain.

Definition plain_hash (k : plain_key) : Z := f_hash (`k).
Definition plain_equals (x y : plain_key) : bool := f_equals (`x) (`y).

#[export] Instance plain_equivalence : Equivalence (λ x y, plain_equals x y = true).
Proof.
  unfold plain_equals. split.
  - intros [x Hx]. by apply f_equals_erase.
  - intros [x Hx] [y Hy] H. apply f_equals_erase in H; [|done..]. by apply f_equals_erase.
  - intros [x Hx] [y Hy] [z Hz] H1 H2. apply f_equals_erase in H1; [|done..]. apply f_equals_erase in H2; [|done..].
    apply f_equals_erase; [done..|]. cbn in *. congruence.
Qed.

Lemma equal_hash x y : plain_equals x y = true → plain_hash x = plain_hash y.
Proof.
  destruct x as [x Hx], y as [y Hy]. intros H. apply f_equals_erase in H; [|done..]. unfold plain_hash. cbn in *.
  by rewrite <- (f_hash_erase x), H, f_hash_erase.
Qed.

Lemma same_equals x y : HashMap.same_key plain_hash plain_equals x y = plain_equals x y.
Proof.
  unfold HashMap.same_key. destruct (plain_equals x y) eqn:E; [|by rewrite andb_false_r].
  rewrite bool_decide_true; [done|]. by apply equal_hash.
Qed.

#[export] Instance same_equivalence : Equivalence (λ x y, HashMap.same_key plain_hash plain_equals x y = true).
Proof.
  split.
  - intros x. rewrite same_equals. by apply (Equivalence_Reflexive (Equivalence := plain_equivalence)).
  - intros x y. rewrite !same_equals. by apply (Equivalence_Symmetric (Equivalence := plain_equivalence)).
  - intros x y z. rewrite !same_equals. by apply (Equivalence_Transitive (Equivalence := plain_equivalence)).
Qed.
End Plain.

(** ** Association lists along a map of keys *)

Section Along.
Context {K K' V : Type} (hash : K → Z) (equals : K → K → bool) (hash' : K' → Z) (equals' : K' → K' → bool) (g : K → K').
Abbreviation same := (HashMap.same_key hash equals).
Abbreviation same' := (HashMap.same_key hash' equals').
Context (Hg : ∀ x y, same x y = same' (g x) (g y)).

Definition call_along (c : @HashMap.call K V) : @HashMap.call K' V :=
  match c with
  | HashMap.Get k => HashMap.Get (g k)
  | HashMap.Has k => HashMap.Has (g k)
  | HashMap.Put k v => HashMap.Put (g k) v
  | HashMap.Remove k => HashMap.Remove (g k)
  | HashMap.Size => HashMap.Size
  | HashMap.Clear => HashMap.Clear
  end.

Abbreviation along l := (map (prod_map g id) l).

Lemma assoc_along (l : list (K * V)) k : HashMap.assoc hash' equals' (along l) (g k) = HashMap.assoc hash equals l k.
Proof. induction l as [|[x v] l IH]; [done|]. cbn. rewrite <- Hg, IH. done. Qed.

Lemma assoc_put_along (l : list (K * V)) k v :
  HashMap.assoc_put hash' equals' (along l) (g k) v = along (HashMap.assoc_put hash equals l k v).
Proof.
  unfold HashMap.assoc_put. rewrite assoc_along. destruct (HashMap.assoc hash equals l k); [|done].
  rewrite !map_map. apply map_ext. intros [x w]. cbn. rewrite <- Hg. by destruct (same x k).
Qed.

Lemma assoc_remove_along (l : list (K * V)) k :
  HashMap.assoc_remove hash' equals' (along l) (g k) = along (HashMap.assoc_remove hash equals l k).
Proof.
  unfold HashMap.assoc_remove. induction l as [|[x v] l IH]; [done|]. cbn [map prod_map].
  rewrite !filter_cons. cbn. rewrite <- Hg, IH. by destruct (decide (same x k = false)).
Qed.

Lemma trace_along cs : ∀ l : list (K * V),
  trace (HashMap.spec_run hash' equals') (along l) (map call_along cs) = trace (HashMap.spec_run hash equals) l cs.
Proof.
  induction cs as [|c cs IH]; intros l; [done|].
  destruct c as [k|k|k v|k| |]; cbn [map call_along trace HashMap.spec_run]; rewrite ?assoc_along, ?assoc_put_along, ?assoc_remove_along, ?length_map, ?IH; try done.
  1,2: destruct (HashMap.assoc hash equals l k) as [w|]; cbn [trace HashMap.not_found]; [|done]; f_equal; apply IH.
  f_equal. apply (IH []).
Qed.
End Along.

(** ** Properties *)

#[export] Instance key_eq_dec : EqDecision key.
Proof.
  refine (fix go x y : Decision (x = y) :=
    match x, y with
    | key_null, key_null => left eq_refl
    | key_boolean b, key_boolean c => cast_if (decide (b = c))
    | key_integer i, key_integer j => cast_if (decide (i = j))
    | key_float d, key_float e => cast_if (decide (d = e))
    | key_string p s, key_string q t => cast_if_and (decide (p = q)) (decide (s = t))
    | key_tuple p xs, key_tuple q ys => cast_if_and (decide (p = q)) (@decide (xs = ys) (@list_eq_dec _ go xs ys))
    | key_object p, key_object q => cast_if (decide (p = q))
    | _, _ => right _
    end); clear go; abstract congruence.
Defined.

(** A program that uses values as keys, and the same program on the values. *)
Definition erase_call {V} (store : Z → body) (c : @HashMap.call (plain_key store) V) : @HashMap.call key V :=
  call_along (λ k : plain_key store, erase (`k)) c.

(** C23 (maps_are_keyed_by_values): a program that works on a map with null,
    booleans, integers, strings, tuples of them and other objects as keys sees
    the results of an association list whose keys are compared by structure
    alone: whether two equal strings or tuples are one object or two does not
    matter, and neither do their hashes, whatever the hash function of
    strings is.  Other objects are compared by identity. *)
Theorem maps_are_keyed_by_values {V} (hash_text : text → Z) (hash_double : double → Z) (store : Z → body) (knull : plain_key store) (vnull : V)
    (cs : list (@HashMap.call (plain_key store) V)) :
  Z.of_nat (length cs) ≤ 805306370 →
  ∃ m, HashMap.new_map knull vnull = Ok m ∧
    trace (HashMap.run knull vnull (plain_hash store hash_text hash_double) (plain_equals store)) m cs =
    trace (HashMap.spec_run (λ _, 0) (λ x y, bool_decide (x = y))) [] (map (erase_call store) cs).
Proof.
  intros Hlen. pose proof (same_equivalence store hash_text hash_double) as Hsame.
  destruct (HashMap.new_map_ok knull vnull (plain_hash store hash_text hash_double) (plain_equals store)) as (m & Hm & Hwf & Hi).
  exists m. split; [done|]. rewrite (HashMap.map_trace_ok knull vnull _ _ Hsame cs m []); [|by split; [|rewrite Hi]|cbn; lia].
  symmetry. refine (trace_along _ _ (λ _, 0) (λ x y, bool_decide (x = y)) (λ k : plain_key store, erase (`k)) _ cs []).
  intros x y. rewrite same_equals. unfold HashMap.same_key. rewrite bool_decide_true by done. cbn [andb].
  apply eq_true_iff_eq. rewrite bool_decide_eq_true. destruct x as [x Hx], y as [y Hy]. by apply (f_equals_erase store).
Qed.

(** An integer and a floating-point number that are equal have different
    hashes, unless the hash of the number happens to be the integer. *)
Lemma equal_numbers_are_different_keys (hash_text : text → Z) (hash_double : double → Z) i :
  d_eq (d_of i) (d_of i) = true → to_intptr (hash_double (d_of i)) ≠ i →
  f_equals (key_integer i) (key_float (d_of i)) = true ∧
  HashMap.same_key (f_hash hash_text hash_double) f_equals (key_integer i) (key_float (d_of i)) = false.
Proof. intros He Hh. split; [done|]. unfold HashMap.same_key. cbn [f_hash]. by rewrite bool_decide_false by done. Qed.

(** ** The order of values *)

(** Values that can be compared: numbers with numbers, strings with strings,
    and tuples whose entries can be compared as far as both have them. *)
Fixpoint comparable (x y : key) {struct x} : Prop :=
  match x, y with
  | key_integer _, key_integer _ => True
  | key_string _ _, key_string _ _ => True
  | key_tuple _ xs, key_tuple _ ys =>
    (fix all xs ys := match xs, ys with x :: xs, y :: ys => comparable x y ∧ all xs ys | _, _ => True end) xs ys
  | _, _ => False
  end.

(** Tuples are ordered lexicographically. *)
Inductive below : key → key → Prop :=
| below_integer i j : i < j → below (key_integer i) (key_integer j)
| below_string p q s t : before s t → below (key_string p s) (key_string q t)
| below_prefix p q xs ys z zs : map erase xs = map erase ys → below (key_tuple p xs) (key_tuple q (ys ++ z :: zs))
| below_entry p q xs ys x y us vs : map erase xs = map erase ys → below x y → below (key_tuple p (xs ++ x :: us)) (key_tuple q (ys ++ y :: vs)).

(** Exactly one of three. *)
Definition three_ways (x y : key) : Prop :=
  (f_equals x y = true ∧ f_less x y = Ok false ∧ f_less y x = Ok false) ∨
  (f_equals x y = false ∧ f_less x y = Ok true ∧ f_less y x = Ok false ∧ below x y) ∨
  (f_equals x y = false ∧ f_less x y = Ok false ∧ f_less y x = Ok true ∧ below y x).

Lemma f_less_tuple p xs q ys : f_less (key_tuple p xs) (key_tuple q ys) = (n ← tuple_compare p xs q ys; Ok (n <? 0)).
Proof. reflexivity. Qed.

Lemma f_equals_tuple p xs q ys : f_equals (key_tuple p xs) (key_tuple q ys) = (p =? q) ||
  ((length xs =? length ys)%nat && (fix all xs ys := match xs, ys with x :: xs, y :: ys => f_equals x y && all xs ys | _, _ => true end) xs ys).
Proof. reflexivity. Qed.

Lemma text_three_ways s t :
  (s = t ∧ f_do_less s t = Ok false ∧ f_do_less t s = Ok false) ∨
  (s ≠ t ∧ f_do_less s t = Ok true ∧ f_do_less t s = Ok false ∧ before s t) ∨
  (s ≠ t ∧ f_do_less s t = Ok false ∧ f_do_less t s = Ok true ∧ before t s).
Proof.
  unfold f_do_less. destruct (f_compare_ok s t) as (n & -> & H1 & H2 & H3), (f_compare_ok t s) as (m & -> & H4 & H5 & H6). cbn.
  destruct (Z.lt_trichotomy n 0) as [Hn|[->|Hn]].
  - right. left. assert (0 < m) by tauto. split_and!; [naive_solver lia| | |tauto]; f_equal; lia.
  - left. assert (s = t) by tauto. assert (m = 0) as -> by naive_solver. done.
  - right. right. assert (m < 0) by tauto. split_and!; [naive_solver lia| | |tauto]; f_equal; lia.
Qed.

Section Order.
Context (store : Z → body).

Lemma f_equals_sym x y : plain store x → plain store y → f_equals x y = f_equals y x.
Proof. intros Hx Hy. apply eq_true_iff_eq. rewrite !(f_equals_erase store) by done. done. Qed.

(** Entries are compared until two differ. *)
Definition entries_ways (xs ys : list key) : Prop :=
  (map erase xs = map erase ys ∧ compare_entries xs ys = Ok 0 ∧ compare_entries ys xs = Ok 0) ∨
  (map erase xs ≠ map erase ys ∧ compare_entries xs ys = Ok (-1) ∧ compare_entries ys xs = Ok 1 ∧ ∀ p q, below (key_tuple p xs) (key_tuple q ys)) ∨
  (map erase xs ≠ map erase ys ∧ compare_entries xs ys = Ok 1 ∧ compare_entries ys xs = Ok (-1) ∧ ∀ p q, below (key_tuple q ys) (key_tuple p xs)).

Lemma below_cons x y : erase x = erase y → ∀ xs ys, (∀ p q, below (key_tuple p xs) (key_tuple q ys)) → ∀ p q, below (key_tuple p (x :: xs)) (key_tuple q (y :: ys)).
Proof.
  intros He xs ys H p q. specialize (H p q). inversion H; subst.
  - apply (below_prefix p q (x :: xs) (y :: ys0)). cbn. by f_equal.
  - apply (below_entry p q (x :: xs0) (y :: ys0)); [|done]. cbn. by f_equal.
Qed.

Lemma entries_three_ways xs : Forall (λ x, ∀ y, plain store x → plain store y → comparable x y → three_ways x y) xs →
  ∀ ys, Forall (plain store) xs → Forall (plain store) ys →
  (fix all xs ys := match xs, ys with x :: xs, y :: ys => comparable x y ∧ all xs ys | _, _ => True end) xs ys → entries_ways xs ys.
Proof.
  induction 1 as [|x xs Hx HX IH]; intros [|y ys] Pxs Pys Hc.
  - by left.
  - right. left. split_and!; [done..|]. intros p q. by apply (below_prefix p q [] []).
  - right. right. split_and!; [done..|]. intros p q. by apply (below_prefix q p [] []).
  - apply Forall_cons in Pxs as [Px Pxs], Pys as [Py Pys]. destruct Hc as [Hc Hcs].
    unfold entries_ways. cbn [compare_entries map]. rewrite <- (f_equals_sym x y) by done.
    assert (Hd : f_equals x y = false → erase x :: map erase xs ≠ erase y :: map erase ys).
    { intros He [= E _]. apply (f_equals_erase store) in E; [congruence|done..]. }
    destruct (Hx y Px Py Hc) as [(He & _)|[(He & H1 & H2 & Hb)|(He & H1 & H2 & Hb)]].
    + rewrite He. apply (f_equals_erase store) in He; [|done..].
      destruct (IH ys Pxs Pys Hcs) as [(E & -> & ->)|[(Hn & -> & -> & Hb)|(Hn & -> & -> & Hb)]]; [left|right;left|right;right]; split_and!; try done.
      * by f_equal.
      * congruence.
      * by apply below_cons.
      * congruence.
      * intros p q. by apply below_cons.
    + rewrite He, H1, H2. right. left. split_and!; [|done|done|]; [apply Hd, He|]. intros p q. by apply (below_entry p q [] []).
    + rewrite He, H1, H2. right. right. split_and!; [|done|done|]; [apply Hd, He|]. intros p q. by apply (below_entry q p [] []).
Qed.

Lemma tuple_three_ways p xs q ys : plain store (key_tuple p xs) → plain store (key_tuple q ys) → entries_ways xs ys →
  three_ways (key_tuple p xs) (key_tuple q ys).
Proof.
  intros Hx Hy Hw. assert (He := f_equals_erase store _ _ Hx Hy). unfold three_ways. rewrite !f_less_tuple. unfold tuple_compare.
  rewrite (Z.eqb_sym q p). destruct (Z.eqb_spec p q) as [<-|Hpq].
  - left. split_and!; [|done..]. rewrite f_equals_tuple. by rewrite Z.eqb_refl.
  - destruct Hw as [(E & H1 & H2)|[(E & H1 & H2 & Hb)|(E & H1 & H2 & Hb)]]; rewrite H1, H2.
    + left. split_and!; [|done..]. apply He. cbn. by rewrite E.
    + right. left. split_and!; [|done..|apply Hb]. apply not_true_iff_false. rewrite He. cbn. congruence.
    + right. right. split_and!; [|done..|apply Hb]. apply not_true_iff_false. rewrite He. cbn. congruence.
Qed.
End Order.

(** C24 (values_are_ordered): of two values of the same kind, tuples being
    compared lexicographically and strings by their characters, exactly one is
    less than the other or they are equal; the comparison does not throw, and
    whether strings and tuples are one object or two does not matter. *)
Theorem values_are_ordered (store : Z → body) (x y : key) :
  plain store x → plain store y → comparable x y → three_ways x y.
Proof.
  revert y. induction x as [|b|z|d|p s|p xs IH|p] using key_ind'; intros y Hx Hy Hc; try done.
  - destruct y as [| |w| | | |]; try done. unfold three_ways. cbn. destruct (Z.eqb_spec z w), (Z.ltb_spec z w), (Z.ltb_spec w z); try lia; auto 10 using below.
    all: right; (left + right); split_and!; try done; by constructor.
  - destruct y as [| | | |q t| |]; try done. unfold three_ways. cbn [f_equals f_less]. rewrite text_equals_ok.
    destruct (text_three_ways s t) as [(E & H)|[(E & H)|(E & H)]]; [left; by rewrite bool_decide_true|right;left|right;right].
    all: rewrite bool_decide_false by done; destruct H as (? & ? & ?); split_and!; try done; by constructor.
  - destruct y as [| | | | |q ys|]; try done. apply (tuple_three_ways store); [done..|].
    apply plain_tuple in Hx as [_ Hx], Hy as [_ Hy]. by apply (entries_three_ways store).
Qed.

(** ** Witnesses

    Objects 1 and 2 are strings with the same text, 3 and 4 tuples of one of
    them and of a number. *)
Definition sample_text : text := [97; 98].

Definition sample_store (p : Z) : body :=
  if p =? 1 then body_text sample_text
  else if p =? 2 then body_text sample_text
  else if p =? 3 then body_tuple [key_string 1 sample_text; key_integer 5]
  else if p =? 4 then body_tuple [key_string 2 sample_text; key_integer 5]
  else if p =? 5 then body_tuple [key_string 2 sample_text; key_integer 6]
  else body_plain.

Definition sample_tuple (p q n : Z) : key := key_tuple p [key_string q sample_text; key_integer n].

Lemma maps_are_keyed_by_values_witness :
  let null : plain_key sample_store := exist _ key_null I in
  let x : plain_key sample_store := exist _ (sample_tuple 3 1 5) (conj eq_refl (conj eq_refl (conj I I))) in
  let y : plain_key sample_store := exist _ (sample_tuple 4 2 5) (conj eq_refl (conj eq_refl (conj I I))) in
  let calls := [HashMap.Put x 1; HashMap.Put y 2; HashMap.Get x; HashMap.Size] in
  Z.of_nat (length calls) ≤ 805306370 ∧
  ∃ m, HashMap.new_map null 0 = Ok m ∧
    trace (HashMap.run null 0 (plain_hash sample_store (λ t, f_size t) (λ _, 0)) (plain_equals sample_store)) m calls =
    trace (HashMap.spec_run (λ _, 0) (λ x y, bool_decide (x = y))) [] (map (erase_call sample_store) calls).
Proof.
  intros null x y calls. split; [vm_compute; discriminate|].
  apply (maps_are_keyed_by_values (λ t, f_size t) (λ _, 0) sample_store null 0 calls). vm_compute. discriminate.
Defined.

Lemma values_are_ordered_witness :
  let x := sample_tuple 3 1 5 in
  let y := sample_tuple 5 2 6 in
  comparable x y ∧ three_ways x y.
Proof.
  intros x y. split; [split; [exact I|split; exact I]|].
  apply (values_are_ordered sample_store x y); [exact (conj eq_refl (conj eq_refl (conj I I)))..|].
  split; [exact I|split; exact I].
Defined.
