(* ===== verification/Bytes.v ===== *)
(** * Arrays of bytes (src: include/xemmai/bytes.h, src/bytes.cc,
    include/xemmai/global.h)

    Indices are [intptr_t]s, of which negative ones count from the end, and
    sizes are [size_t]s: an integer that is passed as a size is converted
    modulo 2 ^ 64.  The bytes of an object are those its memory has room for,
    which [v_size] should be the number of. *)
From stdpp Require Import base list numbers strings.
From S2P Require Import Prelude Machine Layout Text.
Local Open Scope Z_scope.

Record t_bytes := Bytes' { v_size : Z; f_entries : list Z }.
Implicit Types (bs cs : t_bytes) (i n : Z).

Definition sizeof_t_bytes : Z := 8.

(** What [f_allocate] asks the heap for: the size is added to those of the
    header of objects and of a [t_bytes]. *)
Definition allocation (a_size : Z) : Z := to_size (f_fields_offset 0 + to_size (sizeof_t_bytes + a_size)).

(** The bytes are not initialized. *)
Definition f__construct (garbage : Z → Z) (a_size : Z) : t_bytes :=
  Bytes' a_size (tabulate (allocation a_size - f_fields_offset 0 - sizeof_t_bytes) garbage).

(** [t_type_of<t_bytes>::f_do_instantiate] of an integer. *)
Definition f_do_instantiate (garbage : Z → Z) (z : Z) : t_bytes := f__construct garbage (to_size z).

(** [f_validate] of an index gives the offset. *)
Definition f_validate bs (a_index : Z) : outcome Z :=
  if a_index <? 0 then
    let a_index := to_intptr (a_index + v_size bs) in
    if a_index <? 0 then out_of_range else Ok a_index
  else if to_intptr (v_size bs) <=? a_index then out_of_range else Ok a_index.

(** [f_validate] of an index and a size. *)
Definition f_validate_range bs (a_index a_size : Z) : outcome Z :=
  a_index ← (if a_index <? 0 then
               let a_index := to_intptr (a_index + v_size bs) in
               if a_index <? 0 then out_of_range else Ok a_index
             else Ok a_index);
  if v_size bs <? to_size (a_index + a_size) then out_of_range else Ok a_index.

Definition f_get_at bs (a_index : Z) : outcome Z :=
  a_index ← f_validate bs a_index; rd (f_entries bs) a_index.

(** Storing an integer in an [unsigned char]; the result is what was stored. *)
Definition f_set_at bs (a_index a_value : Z) : outcome (Z * t_bytes) :=
  a_index ← f_validate bs a_index;
  l ← wr (f_entries bs) a_index (a_value mod 256);
  Ok (a_value mod 256, Bytes' (v_size bs) l).

(** [std::copy] into an array: all bytes must be inside of the arrays. *)
Definition copy_bytes (xs : list Z) (p a_size : Z) (ys : list Z) (q : Z) : outcome (list Z) :=
  if decide (0 <= p ∧ p + a_size <= Z.of_nat (length xs) ∧ 0 <= q ∧ q + a_size <= Z.of_nat (length ys)) then
    Ok (take (Z.to_nat q) ys ++ take (Z.to_nat a_size) (drop (Z.to_nat p) xs) ++ drop (Z.to_nat (q + a_size)) ys)
  else Fault.

(** [f_copy] to another object, and to the object itself.  [std::copy] is not
    defined when the destination begins in the source. *)
Definition f_copy bs (a_index0 a_size : Z) (a_other : t_bytes) (a_index1 : Z) : outcome t_bytes :=
  a_index0 ← f_validate_range bs a_index0 a_size;
  a_index1 ← f_validate_range a_other a_index1 a_size;
  l ← copy_bytes (f_entries bs) a_index0 a_size (f_entries a_other) a_index1;
  Ok (Bytes' (v_size a_other) l).

Definition f_copy_self bs (a_index0 a_size a_index1 : Z) : outcome t_bytes :=
  a_index0 ← f_validate_range bs a_index0 a_size;
  a_index1 ← f_validate_range bs a_index1 a_size;
  if (a_index0 <=? a_index1) && (a_index1 <? a_index0 + a_size) then Fault
  else l ← copy_bytes (f_entries bs) a_index0 a_size (f_entries bs) a_index1; Ok (Bytes' (v_size bs) l).

(** ** [f_string] *)

(** The digits of [L"%02x"]. *)
Definition hex_digit (n : Z) : Z := if n <? 10 then 48 + n else 87 + n.

(** The loop over the offsets [i] below [v_size]. *)
Fixpoint string_bytes (garbage : Z → Z) bs (fuel : nat) (i : Z) (s : t_stringer) : outcome t_stringer :=
  match fuel with
  | O => Fault
  | S fuel =>
    b ← rd (f_entries bs) i;
    s ← put_char garbage s (hex_digit (b / 16));
    s ← put_char garbage s (hex_digit (b mod 16));
    let i := i + 1 in
    if v_size bs <=? i then Ok s
    else s ← put_char garbage s 44; s ← put_char garbage s 32; string_bytes garbage bs fuel i s
  end.

(** An object has at most as many bytes as its memory. *)
Definition f_string (garbage : Z → Z) bs : outcome text :=
  s ← put_char garbage new_stringer 39; s ← put_char garbage s 91;
  s ← (if 0 <? v_size bs then string_bytes garbage bs (S (length (f_entries bs))) 0 s else Ok s);
  s ← put_char garbage s 93; built s.

(** ** Indices *)

(** An object that owns the bytes it has: addresses have 47 bits. *)
Record well bs : Prop := {
  w_size : Z.of_nat (length (f_entries bs)) = v_size bs;
  w_bound : v_size bs <= INTPTR_MAX;
}.

(** The offset an index stands for. *)
Definition offset bs i : Z := if i <? 0 then i + v_size bs else i.

Lemma f_construct_well garbage n : 0 <= n <= INTPTR_MAX - 80 → well (f_do_instantiate garbage n).
Proof.
  unfold INTPTR_MAX. intros Hn. unfold f_do_instantiate. rewrite to_size_id by (unfold SIZE_MODULUS; lia).
  split; cbn [f__construct v_size f_entries]; [|unfold INTPTR_MAX; lia]. rewrite length_tabulate.
  unfold allocation, sizeof_t_bytes. change (f_fields_offset 0) with 72. rewrite (to_size_id (8 + n)) by (unfold SIZE_MODULUS; lia). rewrite to_size_id by (unfold SIZE_MODULUS; lia). lia.
Qed.

Section Well.
Context bs (Hbs : well bs).

Lemma well_size : 0 <= v_size bs <= INTPTR_MAX.
Proof. destruct Hbs. lia. Qed.

Lemma offset_intptr i : is_intptr i → i < 0 → to_intptr (i + v_size bs) = i + v_size bs.
Proof. pose proof well_size. unfold is_intptr, INTPTR_MIN, INTPTR_MAX in *. intros. apply to_intptr_id. unfold is_intptr, INTPTR_MIN, INTPTR_MAX. lia. Qed.

Lemma byte_index_ok i : is_intptr i →
  f_validate bs i = if decide (0 <= offset bs i < v_size bs) then Ok (offset bs i) else out_of_range.
Proof.
  intros Hi. pose proof well_size. unfold f_validate, offset. rewrite (to_intptr_id (v_size bs)) by (unfold is_intptr, INTPTR_MIN, INTPTR_MAX in *; lia).
  destruct (Z.ltb_spec i 0).
  - rewrite offset_intptr by done. destruct (Z.ltb_spec (i + v_size bs) 0); [by rewrite decide_False by lia|by rewrite decide_True by lia].
  - destruct (Z.leb_spec (v_size bs) i); [by rewrite decide_False by lia|by rewrite decide_True by lia].
Qed.

Lemma byte_range_ok i n : is_intptr i → 0 <= n <= INTPTR_MAX →
  f_validate_range bs i n = if decide (0 <= offset bs i ∧ offset bs i + n <= v_size bs) then Ok (offset bs i) else out_of_range.
Proof.
  intros Hi Hn. pose proof well_size. unfold f_validate_range, offset.
  assert (HS : 0 <= i → to_size (i + n) = i + n) by (intros; apply to_size_id; unfold is_intptr, INTPTR_MIN, INTPTR_MAX, SIZE_MODULUS in *; lia).
  destruct (Z.ltb_spec i 0).
  - rewrite offset_intptr by done. destruct (Z.ltb_spec (i + v_size bs) 0); [by rewrite decide_False by lia|]. cbn [mbind outcome_bind].
    rewrite to_size_id by (unfold INTPTR_MAX, SIZE_MODULUS in *; lia).
    destruct (Z.ltb_spec (v_size bs) (i + v_size bs + n)); [by rewrite decide_False by lia|by rewrite decide_True by lia].
  - cbn [mbind outcome_bind]. rewrite HS by lia. destruct (Z.ltb_spec (v_size bs) (i + n)); [by rewrite decide_False by lia|by rewrite decide_True by lia].
Qed.

(** A byte is read, or written; an index outside throws. *)
Lemma f_get_at_ok i : is_intptr i →
  f_get_at bs i = if decide (0 <= offset bs i < v_size bs) then Ok (cell 0 (f_entries bs) (offset bs i)) else out_of_range.
Proof.
  intros Hi. unfold f_get_at. rewrite byte_index_ok by done. destruct (decide _) as [H|]; [|done]. cbn [mbind outcome_bind].
  apply rd_cell. destruct Hbs. lia.
Qed.

Lemma f_set_at_ok i x : is_intptr i →
  f_set_at bs i x = if decide (0 <= offset bs i < v_size bs)
    then Ok (x mod 256, Bytes' (v_size bs) (<[Z.to_nat (offset bs i) := x mod 256]> (f_entries bs))) else out_of_range.
Proof.
  intros Hi. unfold f_set_at. rewrite byte_index_ok by done. destruct (decide _) as [H|]; [|done]. cbn [mbind outcome_bind].
  rewrite wr_ok; [done|]. destruct Hbs. lia.
Qed.
End Well.

(** The bytes at [q] are replaced. *)
Definition splice (xs : list Z) (p n : Z) (ys : list Z) (q : Z) : list Z :=
  take (Z.to_nat q) ys ++ take (Z.to_nat n) (drop (Z.to_nat p) xs) ++ drop (Z.to_nat (q + n)) ys.

Definition fits bs i n : Prop := 0 <= offset bs i ∧ offset bs i + n <= v_size bs.

#[export] Instance fits_dec bs i n : Decision (fits bs i n).
Proof. unfold fits. apply _. Defined.

Lemma length_spliced (xs : list Z) p n (ys : list Z) q : 0 <= p → 0 <= n → p + n <= Z.of_nat (length xs) → 0 <= q → q + n <= Z.of_nat (length ys) →
  length (splice xs p n ys q) = length ys.
Proof. intros. unfold splice. rewrite !length_app, !length_take, !length_drop. lia. Qed.

Lemma f_copy_ok bs cs i n j : well bs → well cs → is_intptr i → is_intptr j → 0 <= n <= INTPTR_MAX →
  f_copy bs i n cs j = if decide (fits bs i n ∧ fits cs j n)
    then Ok (Bytes' (v_size cs) (splice (f_entries bs) (offset bs i) n (f_entries cs) (offset cs j))) else out_of_range.
Proof.
  intros Hb Hc Hi Hj Hn. unfold f_copy. rewrite (byte_range_ok bs), (byte_range_ok cs) by done. unfold fits.
  destruct (decide (0 <= offset bs i ∧ _)) as [H1|H1]; [|cbn; case_decide; tauto || done]. cbn [mbind outcome_bind].
  destruct (decide (0 <= offset cs j ∧ _)) as [H2|H2]; [|cbn; case_decide; tauto || done]. cbn [mbind outcome_bind].
  rewrite decide_True by done. destruct Hb, Hc. unfold copy_bytes. by rewrite decide_True by lia.
Qed.

Lemma f_copy_self_ok bs i n j : well bs → is_intptr i → is_intptr j → 0 <= n <= INTPTR_MAX →
  ¬ (offset bs i <= offset bs j < offset bs i + n) →
  f_copy_self bs i n j = f_copy bs i n bs j.
Proof.
  intros Hb Hi Hj Hn Ho. unfold f_copy_self, f_copy. rewrite !(byte_range_ok bs) by done.
  destruct (decide (0 <= offset bs i ∧ _)); [|done]. cbn [mbind outcome_bind]. destruct (decide (0 <= offset bs j ∧ _)); [|done]. cbn [mbind outcome_bind].
  destruct (Z.leb_spec (offset bs i) (offset bs j)), (Z.ltb_spec (offset bs j) (offset bs i + n)); try done. lia.
Qed.

(** A copy that moves bytes up over themselves is not defined. *)
Lemma overlapping_copy bs i n j : well bs → is_intptr i → is_intptr j → 0 <= n <= INTPTR_MAX → fits bs i n → fits bs j n →
  offset bs i <= offset bs j < offset bs i + n → f_copy_self bs i n j = Fault.
Proof.
  intros Hb Hi Hj Hn H1 H2 Ho. unfold f_copy_self. rewrite !(byte_range_ok bs) by done. rewrite !decide_True by done. cbn [mbind outcome_bind].
  by rewrite (proj2 (Z.leb_le _ _)), (proj2 (Z.ltb_lt _ _)) by lia.
Qed.

(** The size of a copy that is converted from a negative integer passes the
    test when the sum wraps around. *)
Lemma copy_of_negative_size bs cs i j : well bs → well cs → 0 < i <= v_size bs → 0 < j <= v_size cs → f_copy bs i (to_size (-1)) cs j = Fault.
Proof.
  intros Hb Hc Hi Hj. assert (HW : ∀ ds k, well ds → 0 < k <= v_size ds → f_validate_range ds k (to_size (-1)) = Ok k).
  { intros ds k Hd Hk. pose proof (well_size ds Hd). unfold f_validate_range. rewrite (proj2 (Z.ltb_ge _ _)) by lia. cbn [mbind outcome_bind].
    change (to_size (-1)) with (2 ^ 64 - 1). replace (to_size (k + (2 ^ 64 - 1))) with (k - 1).
    - by rewrite (proj2 (Z.ltb_ge _ _)) by lia.
    - unfold to_size, INTPTR_MAX, SIZE_MODULUS in *. replace (k + (2 ^ 64 - 1)) with (k - 1 + 1 * 2 ^ 64) by lia.
      rewrite Z.mod_add by done. rewrite Z.mod_small; lia. }
  unfold f_copy. rewrite !HW by done. cbn [mbind outcome_bind]. unfold copy_bytes. rewrite decide_False; [done|].
  change (to_size (-1)) with (2 ^ 64 - 1). destruct Hb. unfold INTPTR_MAX in *. lia.
Qed.

(** The memory of [Bytes(-1)] has no byte, and [v_size] is the largest. *)
Lemma bytes_of_negative_size garbage : f_entries (f_do_instantiate garbage (-1)) = [] ∧ v_size (f_do_instantiate garbage (-1)) = 2 ^ 64 - 1 ∧
  f_string garbage (f_do_instantiate garbage (-1)) = Fault.
Proof. split_and!; reflexivity. Qed.

(** ** Strings *)

(** The digits, with a comma and a space between bytes. *)
Fixpoint hex_text (xs : list Z) : text :=
  match xs with
  | [] => []
  | x :: xs => hex_digit (x / 16) :: hex_digit (x mod 16) :: match xs with [] => [] | _ => 44 :: 32 :: hex_text xs end
  end.

Lemma string_bytes_ok garbage bs (Hbs : well bs) fuel : ∀ i (s : t_stringer) t,
  builds s t → 0 <= i < v_size bs → Z.of_nat fuel + i > v_size bs →
  ∃ s', string_bytes garbage bs fuel i s = Ok s' ∧ builds s' (t ++ hex_text (drop (Z.to_nat i) (f_entries bs))).
Proof.
  induction fuel as [|fuel IH]; intros i s t Hb Hi Hf; [lia|]. cbn [string_bytes].
  rewrite (rd_cell 0) by (destruct Hbs; lia). cbn [mbind outcome_bind]. set (x := cell 0 (f_entries bs) i).
  assert (Hd : drop (Z.to_nat i) (f_entries bs) = x :: drop (Z.to_nat (i + 1)) (f_entries bs)).
  { rewrite Z2Nat.inj_add by lia. change (Z.to_nat 1) with 1%nat. rewrite Nat.add_1_r. apply drop_S.
    pose proof (w_size bs Hbs). destruct (lookup_lt_is_Some_2 (f_entries bs) (Z.to_nat i)) as [y Hy]; [lia|].
    rewrite Hy. unfold x, cell. by rewrite (nth_lookup_Some _ _ _ _ Hy). }
  destruct (put_char_ok garbage s t (hex_digit (x / 16)) Hb) as (s1 & -> & Hb1). cbn [mbind outcome_bind].
  destruct (put_char_ok garbage s1 _ (hex_digit (x mod 16)) Hb1) as (s2 & -> & Hb2). cbn [mbind outcome_bind].
  rewrite Hd. cbn [hex_text]. pose proof (w_size bs Hbs). destruct (Z.leb_spec (v_size bs) (i + 1)) as [He|He].
  - exists s2. split; [done|]. rewrite drop_ge by lia. by rewrite <- app_assoc in Hb2.
  - destruct (put_char_ok garbage s2 _ 44 Hb2) as (s3 & -> & Hb3). cbn [mbind outcome_bind].
    destruct (put_char_ok garbage s3 _ 32 Hb3) as (s4 & -> & Hb4). cbn [mbind outcome_bind].
    destruct (IH (i + 1) s4 _ Hb4 ltac:(lia) ltac:(lia)) as (s5 & -> & Hb5). exists s5. split; [done|].
    destruct (drop (Z.to_nat (i + 1)) (f_entries bs)) eqn:E; [apply (f_equal length) in E; rewrite length_drop in E; cbn in E; lia|].
    by rewrite <- !app_assoc in Hb5.
Qed.

Lemma f_string_ok garbage bs : well bs → f_string garbage bs = Ok (39 :: 91 :: hex_text (f_entries bs) ++ [93]).
Proof.
  intros Hbs. unfold f_string.
  destruct (put_char_ok garbage new_stringer _ 39 new_builds) as (s1 & -> & Hb1). cbn [mbind outcome_bind].
  destruct (put_char_ok garbage s1 _ 91 Hb1) as (s2 & -> & Hb2). cbn [mbind outcome_bind].
  assert (Hs : ∃ s3, (if 0 <? v_size bs then string_bytes garbage bs (S (length (f_entries bs))) 0 s2 else Ok s2) = Ok s3 ∧
    builds s3 (([39] ++ [91]) ++ hex_text (f_entries bs))).
  { pose proof (w_size bs Hbs). destruct (Z.ltb_spec 0 (v_size bs)).
    - by destruct (string_bytes_ok garbage bs Hbs (S (length (f_entries bs))) 0 s2 _ Hb2) as (s3 & ? & ?); [lia..|exists s3].
    - exists s2. split; [done|]. destruct (f_entries bs); [done|cbn in *; lia]. }
  destruct Hs as (s3 & -> & Hb3). cbn [mbind outcome_bind].
  destruct (put_char_ok garbage s3 _ 93 Hb3) as (s4 & -> & Hb4). cbn [mbind outcome_bind].
  rewrite (built_ok _ _ Hb4). by rewrite <- app_assoc.
Qed.

Definition is_byte (x : Z) : Prop := 0 <= x < 256.

Lemma hex_digit_inj n m : 0 <= n < 16 → 0 <= m < 16 → hex_digit n = hex_digit m → n = m.
Proof. unfold hex_digit. intros. destruct (Z.ltb_spec n 10), (Z.ltb_spec m 10); lia. Qed.

Lemma hex_text_inj xs : ∀ ys, Forall is_byte xs → Forall is_byte ys → hex_text xs = hex_text ys → xs = ys.
Proof.
  induction xs as [|x xs IH]; intros [|y ys] HX HY; [done|discriminate..|]. apply Forall_cons in HX as [Hx HX], HY as [Hy HY].
  unfold is_byte in *. cbn [hex_text]. intros [= H1 H2 H3].
  apply hex_digit_inj in H1; [|split; [apply Z.div_pos; lia|apply Z.div_lt_upper_bound; lia]..].
  apply hex_digit_inj in H2; [|apply Z.mod_pos_bound; lia..].
  assert (x = y) as -> by (rewrite (Z.div_mod x 16), (Z.div_mod y 16) by done; congruence). f_equal.
  apply IH; [done..|]. destruct xs, ys; try discriminate; [done|]. exact (f_equal (drop 2) H3).
Qed.

(** ** Programs *)

(** The methods of an object that is used with another one. *)
Inductive call :=
| GetAt (i : Z)
| SetAt (i x : Z)
| CopyTo (i n j : Z)
| CopyFrom (i n j : Z)
| Size
| String.

Inductive answer := AInteger (n : Z) | AText (t : text) | ANothing.

(** The two objects; a size is an integer converted to [size_t]. *)
Definition run (garbage : Z → Z) (s : t_bytes * t_bytes) (c : call) : outcome (answer * (t_bytes * t_bytes)) :=
  let '(bs, cs) := s in
  match c with
  | GetAt i => x ← f_get_at bs i; Ok (AInteger x, s)
  | SetAt i x => '(x, bs) ← f_set_at bs i x; Ok (AInteger x, (bs, cs))
  | CopyTo i n j => cs ← f_copy bs i (to_size n) cs j; Ok (ANothing, (bs, cs))
  | CopyFrom i n j => bs ← f_copy cs i (to_size n) bs j; Ok (ANothing, (bs, cs))
  | Size => Ok (AInteger (to_intptr (v_size bs)), s)
  | String => t ← f_string garbage bs; Ok (AText t, s)
  end.

(** The same on sequences. *)
Definition index_of (xs : list Z) (i : Z) : Z := if i <? 0 then i + Z.of_nat (length xs) else i.

Definition inside (xs : list Z) (i n : Z) : bool := bool_decide (0 <= index_of xs i ∧ index_of xs i + n <= Z.of_nat (length xs)).

Definition copied (xs : list Z) (i n : Z) (ys : list Z) (j : Z) : outcome (list Z) :=
  if inside xs i n && inside ys j n then Ok (splice xs (index_of xs i) n ys (index_of ys j)) else out_of_range.

Definition spec_run (s : list Z * list Z) (c : call) : outcome (answer * (list Z * list Z)) :=
  let '(xs, ys) := s in
  match c with
  | GetAt i => if inside xs i 1 then Ok (AInteger (cell 0 xs (index_of xs i)), s) else out_of_range
  | SetAt i x => if inside xs i 1 then Ok (AInteger (x mod 256), (<[Z.to_nat (index_of xs i) := x mod 256]> xs, ys)) else out_of_range
  | CopyTo i n j => ys ← copied xs i n ys j; Ok (ANothing, (xs, ys))
  | CopyFrom i n j => xs ← copied ys i n xs j; Ok (ANothing, (xs, ys))
  | Size => Ok (AInteger (Z.of_nat (length xs)), s)
  | String => Ok (AText (39 :: 91 :: hex_text xs ++ [93]), s)
  end.

(** Arguments are integers, and sizes are not negative. *)
Definition proper (c : call) : Prop :=
  match c with
  | GetAt i | SetAt i _ => is_intptr i
  | CopyTo i n j | CopyFrom i n j => is_intptr i ∧ is_intptr j ∧ 0 <= n <= INTPTR_MAX
  | _ => True
  end.

Definition run_rel (r : answer * (t_bytes * t_bytes)) (r' : answer * (list Z * list Z)) : Prop :=
  r.1 = r'.1 ∧ well r.2.1 ∧ well r.2.2 ∧ r'.2 = (f_entries r.2.1, f_entries r.2.2).

Lemma index_offset bs i : well bs → index_of (f_entries bs) i = offset bs i.
Proof. intros Hbs. unfold index_of, offset. by rewrite (w_size bs Hbs). Qed.

Lemma inside_fits bs i n : well bs → inside (f_entries bs) i n = bool_decide (fits bs i n).
Proof. intros Hbs. unfold inside, fits. rewrite index_offset by done. apply bool_decide_ext. by rewrite (w_size bs Hbs). Qed.

Lemma copied_ok bs cs i n j : well bs → well cs → is_intptr i → is_intptr j → 0 <= n <= INTPTR_MAX →
  outcome_rel (λ ds ys, well ds ∧ ys = f_entries ds) (f_copy bs i (to_size n) cs j) (copied (f_entries bs) i n (f_entries cs) j).
Proof.
  intros Hb Hc Hi Hj Hn. rewrite to_size_id by (unfold INTPTR_MAX, SIZE_MODULUS in *; lia). rewrite f_copy_ok by done.
  unfold copied. rewrite !inside_fits, !index_offset by done.
  destruct (decide (fits bs i n ∧ fits cs j n)) as [[H1 H2]|Hn'].
  - rewrite !bool_decide_true by done. cbn. split; [|done]. unfold fits in *. destruct Hc as [Hc1 Hc2], Hb.
    split; cbn; [|done]. rewrite length_spliced; lia.
  - destruct (bool_decide (fits bs i n) && bool_decide (fits cs j n)) eqn:E; [|done].
    apply andb_prop in E as [E1%bool_decide_eq_true E2%bool_decide_eq_true]. tauto.
Qed.

Lemma call_ok garbage s c : well s.1 → well s.2 → proper c →
  outcome_rel run_rel (run garbage s c) (spec_run (f_entries s.1, f_entries s.2) c).
Proof.
  destruct s as [bs cs]. cbn [fst snd]. intros Hb Hc Hp. pose proof (well_size bs Hb).
  assert (H1 : ∀ i, bool_decide (fits bs i 1) = bool_decide (0 <= offset bs i < v_size bs)) by (intros; apply bool_decide_ext; unfold fits; lia).
  destruct c as [i|i x|i n j|i n j| |]; cbn [run spec_run proper] in *; rewrite ?inside_fits, ?H1, ?index_offset by done.
  - rewrite f_get_at_ok by done. by case_decide; [rewrite bool_decide_true by done|rewrite bool_decide_false by done].
  - rewrite f_set_at_ok by done. case_decide; [rewrite bool_decide_true by done|by rewrite bool_decide_false by done].
    cbn. split_and!; [done| |done|done]. split; cbn; [|apply Hb]. rewrite length_insert. apply Hb.
  - destruct Hp as (Hi & Hj & Hn). eapply outcome_rel_bind; [by apply copied_ok|]. intros ds ys [Hd ->]. by split_and!.
  - destruct Hp as (Hi & Hj & Hn). eapply outcome_rel_bind; [by apply copied_ok|]. intros ds ys [Hd ->]. by split_and!.
  - split_and!; try done. cbn. f_equal. rewrite (w_size bs Hb). apply to_intptr_id. unfold is_intptr, INTPTR_MIN, INTPTR_MAX in *. lia.
  - rewrite f_string_ok by done. by split_and!.
Qed.

Lemma bytes_calls_ok garbage calls : Forall proper calls → ∀ s, well s.1 → well s.2 →
  trace (run garbage) s calls = trace spec_run (f_entries s.1, f_entries s.2) calls ∧ Fault ∉ trace (run garbage) s calls.
Proof.
  induction 1 as [|c calls Hp _ IH]; intros s Hb Hc; [by split; [|apply not_elem_of_nil]|].
  pose proof (call_ok garbage s c Hb Hc Hp) as H. cbn [trace].
  destruct (run garbage s c) as [[a s']| |], (spec_run _ c) as [[a' s'']| |]; try done; cbn [outcome_rel] in H.
  - destruct H as (Ha & Hb' & Hc' & Hs). cbn [fst snd] in *. subst. destruct (IH s' Hb' Hc') as [-> ?]. by split; [|apply not_elem_of_cons].
  - subst. destruct (IH s Hb Hc) as [-> ?]. by split; [|apply not_elem_of_cons].
Qed.

(** C25 (bytes_trace_refines_sequences): a program on two objects of bytes sees
    the results and exceptions of the methods on sequences of integers modulo
    256: indices that are negative count from the end, an access or a copy
    outside of a sequence throws, and nothing outside of the memory of the
    objects is read or written, whatever it contains at first.  The sizes of
    copies are not negative ([proper]); for those see [copy_of_negative_size]
    and [bytes_of_negative_size]. *)
Theorem bytes_trace_refines_sequences (garbage : Z → Z) (n m : Z) (calls : list call) :
  0 <= n <= INTPTR_MAX - 80 → 0 <= m <= INTPTR_MAX - 80 → Forall proper calls →
  let bs := f_do_instantiate garbage n in
  let cs := f_do_instantiate garbage m in
  trace (run garbage) (bs, cs) calls = trace spec_run (f_entries bs, f_entries cs) calls ∧
  (Fault ∉ trace (run garbage) (bs, cs) calls) ∧ v_size bs = n ∧ v_size cs = m.
Proof.
  intros Hn Hm Hp bs cs. destruct (bytes_calls_ok garbage calls Hp (bs, cs)) as [H1 H2]; [by apply f_construct_well..|].
  split_and!; [done|done|apply to_size_id; unfold INTPTR_MAX, SIZE_MODULUS in *; lia..].
Qed.

Lemma bytes_trace_refines_sequences_witness :
  let calls := [SetAt 0 300; SetAt (-1) 17; CopyTo 0 2 1; CopyFrom 1 3 0; GetAt 4; String; GetAt 2] in
  trace (run (λ _, 7)) (f_do_instantiate (λ _, 7) 3, f_do_instantiate (λ _, 7) 4) calls
    = trace spec_run ([7; 7; 7], [7; 7; 7; 7]) calls ∧
  (Fault ∉ trace (run (λ _, 7)) (f_do_instantiate (λ _, 7) 3, f_do_instantiate (λ _, 7) 4) calls) ∧
  v_size (f_do_instantiate (λ _, 7) 3) = 3 ∧ v_size (f_do_instantiate (λ _, 7) 4) = 4.
Proof.
  intros calls. refine (bytes_trace_refines_sequences (λ _, 7) 3 4 calls _ _ _); [split; vm_compute; discriminate..|].
  repeat constructor; vm_compute; discriminate.
Defined.
