(* ===== verification/Reader.v ===== *)
(** * Readers of text (src: include/xemmai/io/reader.h, src/io__reader.cc)

    A reader gets bytes from a callable into a buffer and converts them to
    characters with [iconv], one at a time. *)
From stdpp Require Import base list numbers strings.
From S2P Require Import Prelude Machine Layout Text Bytes.
Local Open Scope Z_scope.

(** ** The callable and the encoding *)

(** What a reader relies on of [v_read]: it reads at most [size] of the bytes
    that are left into the buffer at [off] and returns how many, zero at the
    end, or a negative number if it would block. *)
Class Source (W : Type) := {
  v_read : W → list Z → Z → Z → outcome (Z * list Z * W);
  bytes_left : W → list Z;
  v_read_ok w buffer off size : 0 <= off → 0 < size → off + size <= Z.of_nat (length buffer) →
    ∃ n buffer' w', v_read w buffer off size = Ok (n, buffer', w') ∧ length buffer' = length buffer ∧
      take (Z.to_nat off) buffer' = take (Z.to_nat off) buffer ∧
      (n < 0 ∧ bytes_left w' = bytes_left w ∨
       n = 0 ∧ bytes_left w = [] ∧ bytes_left w' = [] ∨
       0 < n <= size ∧ bytes_left w = take (Z.to_nat n) (drop (Z.to_nat off) buffer') ++ bytes_left w');
}.

(** The next character of some bytes, and how many bytes it takes. *)
Inductive decoded := Char (c : Z) (n : nat) | Incomplete | Invalid.

(** What [iconv] reports when it stops. *)
Inductive errno := Done | E2BIG | EINVAL | EILSEQ.

(** What [iconv] does with an encoding that has no state: characters are the
    sequences [encode] gives, of which none begins another.  When there is no
    room for a character it reports that, or that the bytes left are not a
    whole one. *)
Class Encoding := {
  decode : list Z → decoded;
  full : list Z → errno;
  encode : Z → list Z;
  encodable : Z → Prop;
  encode_length c : encodable c → (0 < length (encode c) <= 16)%nat;
  decode_encode c bs : encodable c → decode (encode c ++ bs) = Char c (length (encode c));
  decode_prefix c bs bs' : encodable c → encode c = bs ++ bs' → bs ≠ [] → bs' ≠ [] → decode bs = Incomplete;
  full_ok bs : full bs = E2BIG ∨ full bs = EINVAL ∧ decode bs = Incomplete;
}.

Section Reader.
Context `{Source W, Encoding}.

Definition sizeof_wchar : Z := 4.

Record t_reader := Reader {
  v_buffer : list Z;
  v_p0 : Z;
  v_n0 : Z;
  v_result : Z;
  v_c : Z;
  v_n1 : Z;
}.

(** The buffer fills an object of eight units. *)
Definition buffer_size : Z := f_size_to_capacity sizeof_t_bytes 1 (sizeof_t_object * 8).

Definition new_reader (garbage : Z → Z) : t_reader := Reader (tabulate buffer_size garbage) 0 0 0 0 sizeof_wchar.

(** The bytes that are not converted yet. *)
Definition pending (r : t_reader) : outcome (list Z) :=
  if decide (0 <= v_p0 r ∧ 0 <= v_n0 r ∧ v_p0 r + v_n0 r <= Z.of_nat (length (v_buffer r)))
  then Ok (take (Z.to_nat (v_n0 r)) (drop (Z.to_nat (v_p0 r)) (v_buffer r))) else Fault.

(** [f_read()]: they are moved to the beginning, and more are read. *)
Definition f_read (s : t_reader * W) : outcome (t_reader * W) :=
  let '(r, w) := s in
  bs ← pending r;
  let buffer := bs ++ drop (length bs) (v_buffer r) in
  '(n, buffer, w) ← v_read w buffer (v_n0 r) (Z.of_nat (length buffer) - v_n0 r);
  Ok (Reader buffer 0 (if 0 <? n then v_n0 r + n else v_n0 r) n (v_c r) (v_n1 r), w).

(** [iconv] with room for a character or for none: what it reports, the bytes
    it takes, and the character it gives. *)
Definition iconv (bs : list Z) (room : bool) : errno * nat * option Z :=
  match bs with
  | [] => (Done, 0%nat, None)
  | _ =>
    if room then
      match decode bs with
      | Char c n => (match drop n bs with [] => Done | bs => full bs end, n, Some c)
      | Incomplete => (EINVAL, 0%nat, None)
      | Invalid => (EILSEQ, 0%nat, None)
      end
    else (full bs, 0%nat, None)
  end.

(** The pointers after [iconv]. *)
Definition converted (r : t_reader) (n : nat) (c : option Z) : t_reader :=
  Reader (v_buffer r) (v_p0 r + Z.of_nat n) (v_n0 r - Z.of_nat n) (v_result r)
    (match c with Some c => c | None => v_c r end) (match c with Some _ => v_n1 r - sizeof_wchar | None => v_n1 r end).

(** An iteration of the loop; it ends with whether there is a character. *)
Definition convert (s : t_reader * W) : outcome ((t_reader * W) + (bool * (t_reader * W))) :=
  let '(r, w) := s in
  bs ← pending r;
  let '(e, n, c) := iconv bs (0 <? v_n1 r) in
  let r := converted r n c in
  match e with
  | EINVAL =>
    '(r, w) ← f_read (r, w);
    if v_result r <? 0 then Ok (inr (false, (r, w)))
    else if v_result r =? 0 then throw "incomplete sequence."
    else Ok (inl (r, w))
  | E2BIG => Ok (inr (true, (r, w)))
  | EILSEQ => throw "system error"
  | Done =>
    if v_n1 r <=? 0 then Ok (inr (true, (r, w)))
    else
      '(r, w) ← f_read (r, w);
      if v_result r <=? 0 then Ok (inr (false, (r, w))) else Ok (inl (r, w))
  end.

(** [f_get]: a character, or [WEOF]. *)
Definition f_get (fuel : nat) (s : t_reader * W) : outcome (option Z * (t_reader * W)) :=
  let rest s :=
    '(b, s) ← loop fuel convert s;
    if (b : bool) then let '(r, w) := s in Ok (Some (v_c r), (Reader (v_buffer r) (v_p0 r) (v_n0 r) (v_result r) (v_c r) sizeof_wchar, w))
    else Ok (None, s) in
  if v_n0 s.1 <=? 0 then
    s ← f_read s;
    if v_result s.1 <=? 0 then Ok (None, s) else rest s
  else rest s.

(** ** Invariant *)

(** The bytes of some characters. *)
Definition encodes (bs cs : list Z) : Prop := bs = concat (map encode cs) ∧ Forall encodable cs.

(** What is left to read: a character that was converted, and those of the
    bytes. *)
Record reads (s : t_reader * W) (cs : list Z) : Prop := {
  r_buffer : Z.of_nat (length (v_buffer s.1)) = buffer_size;
  r_room : v_n1 s.1 = 0 ∨ v_n1 s.1 = sizeof_wchar;
  r_chars : ∃ bs ds, pending s.1 = Ok bs ∧ encodes (bs ++ bytes_left s.2) ds ∧
    cs = (if v_n1 s.1 =? 0 then [v_c s.1] else []) ++ ds;
}.

Lemma buffer_size_eq : buffer_size = 944.
Proof. reflexivity. Qed.

Lemma new_reads garbage w ds : encodes (bytes_left w) ds → reads (new_reader garbage, w) ds.
Proof.
  intros Hw. split; cbn [fst snd new_reader v_buffer v_n1 v_c].
  - by rewrite length_tabulate.
  - by right.
  - exists [], ds. split_and!; [|done|done]. unfold pending, new_reader. cbn [v_p0 v_n0 v_buffer]. rewrite length_tabulate. by rewrite decide_True by (rewrite buffer_size_eq; lia).
Qed.

Lemma nothing_left ds : encodes [] ds → ds = [].
Proof.
  intros [E Hd]. destruct Hd as [|d ds Hd _]; [done|]. pose proof (encode_length d Hd). cbn in E. destruct (encode d); [cbn in *; lia|done].
Qed.

(** Bytes at the beginning of encoded characters. *)
Lemma decode_cases bs rest ds : encodes (bs ++ rest) ds → bs ≠ [] →
  (∃ c ds' bs', ds = c :: ds' ∧ bs = encode c ++ bs' ∧ encodes (bs' ++ rest) ds' ∧ decode bs = Char c (length (encode c))) ∨
  (decode bs = Incomplete ∧ (length bs < 16)%nat ∧ rest ≠ []).
Proof.
  intros [E Hd] Hbs. destruct Hd as [|c ds Hc Hd]; [destruct bs; done|]. cbn [map concat] in E.
  destruct (app_eq_inv _ _ _ _ E) as [(k & E1 & E2)|(k & E1 & E2)].
  - left. exists c, ds, k. split_and!; [done..|]. rewrite E1. by apply decode_encode.
  - pose proof (encode_length c Hc) as HL. rewrite E1, length_app in HL. destruct k as [|x k].
    + left. exists c, ds, []. rewrite app_nil_r in E1. rewrite <- E1, app_nil_r. split_and!; [done..|]. pose proof (decode_encode c [] Hc) as HD. by rewrite app_nil_r in HD.
    + right. split_and!; [by apply (decode_prefix c bs (x :: k))|cbn in HL; lia|by rewrite E2].
Qed.

Lemma pending_bounds r bs : pending r = Ok bs → Z.of_nat (length bs) = v_n0 r ∧ 0 <= v_n0 r <= Z.of_nat (length (v_buffer r)).
Proof. unfold pending. case_decide as Hd; [|done]. intros [= <-]. rewrite length_take, length_drop. lia. Qed.

(** Reading keeps what is left. *)
Lemma f_read_ok r w bs ds : Z.of_nat (length (v_buffer r)) = buffer_size → pending r = Ok bs → (length bs < 16)%nat →
  encodes (bs ++ bytes_left w) ds →
  ∃ r' w' bs', f_read (r, w) = Ok (r', w') ∧ Z.of_nat (length (v_buffer r')) = buffer_size ∧ pending r' = Ok bs' ∧
    encodes (bs' ++ bytes_left w') ds ∧ v_c r' = v_c r ∧ v_n1 r' = v_n1 r ∧
    (v_result r' < 0 ∧ bytes_left w' = bytes_left w ∧ bs' = bs ∨
     v_result r' = 0 ∧ bytes_left w = [] ∧ bytes_left w' = [] ∧ bs' = bs ∨
     0 < v_result r' ∧ (length (bytes_left w') < length (bytes_left w))%nat).
Proof.
  intros Hl Hp Hb E. pose proof (pending_bounds r bs Hp) as [Hn Hn']. unfold f_read. rewrite Hp. cbn [mbind outcome_bind].
  set (buffer := bs ++ drop (length bs) (v_buffer r)).
  assert (HL : Z.of_nat (length buffer) = buffer_size) by (unfold buffer; rewrite length_app, length_drop; lia).
  destruct (v_read_ok w buffer (v_n0 r) (Z.of_nat (length buffer) - v_n0 r)) as (n & buffer' & w' & -> & Hl' & Ht & Hc); [lia|rewrite HL, buffer_size_eq; lia|lia|].
  cbn [mbind outcome_bind]. eexists _, w', (take (Z.to_nat (if 0 <? n then v_n0 r + n else v_n0 r)) buffer'). split; [done|]. cbn [v_buffer v_c v_n1 v_result]. split; [by rewrite Hl'|].
  assert (HT : take (length bs) buffer' = bs).
  { rewrite <- Hn in Ht. rewrite Nat2Z.id in Ht. rewrite Ht. unfold buffer. apply take_app_length. }
  assert (HP : ∀ m, 0 <= m → m <= Z.of_nat (length buffer') → ∀ c n1 res, pending (Reader buffer' 0 m res c n1) = Ok (take (Z.to_nat m) buffer')).
  { intros m Hm Hm' c n1 res. unfold pending. cbn [v_p0 v_n0 v_buffer]. rewrite decide_True by lia. done. }
  destruct (Z.ltb_spec 0 n) as [Hpos|Hneg].
  - destruct Hc as [[? _]|[[? _]|[Hn1 Hw]]]; [lia..|]. rewrite HP by lia. split; [done|].
    rewrite Z2Nat.inj_add, <- Hn, Nat2Z.id in * by lia.
    assert (HS : take (length bs + Z.to_nat n) buffer' = bs ++ take (Z.to_nat n) (drop (length bs) buffer')).
    { rewrite <- (take_drop (length bs) (take (length bs + Z.to_nat n) buffer')) at 1. rewrite take_take, Nat.min_l, HT by lia. f_equal. rewrite skipn_firstn_comm. f_equal. lia. }
    split_and!; [|done|done|].
    + rewrite HS, <- app_assoc, <- Hw. done.
    + right. right. split; [lia|]. rewrite Hw, length_app, length_take, length_drop. lia.
  - rewrite HP by lia. split; [done|]. rewrite <- Hn, Nat2Z.id, HT. destruct Hc as [[Hn1 Hw]|[[-> [Hw Hw']]|[? _]]]; [| |lia].
    + split_and!; [by rewrite Hw|done|done|]. left. by split_and!.
    + split_and!; [by rewrite Hw', <- Hw|done|done|]. right. left. done.
Qed.
Lemma converted_pending r bs n c : pending r = Ok bs → (n <= length bs)%nat → pending (converted r n c) = Ok (drop n bs).
Proof.
  intros Hp Hn. pose proof (pending_bounds r bs Hp) as [Hl _]. unfold pending in *. cbn [converted v_p0 v_n0 v_buffer]. case_decide as Hd; [|done]. injection Hp as <-.
  rewrite length_take, length_drop in Hn. rewrite decide_True by lia. f_equal.
  rewrite skipn_firstn_comm, drop_drop. f_equal; [lia|f_equal; lia].
Qed.

(** A character that was converted but not returned waits for the rest of the
    next one. *)
Definition resumable (s : t_reader * W) : Prop := v_n1 s.1 = 0 → v_n0 s.1 ≠ 0.

(** How [f_get] ends, with what was left. *)
Definition got (cs : list Z) (res : option Z * (t_reader * W)) : Prop :=
  let '(c, s) := res in
  match c with
  | Some c => ∃ cs', cs = c :: cs' ∧ reads s cs' ∧ resumable s
  | None => reads s cs ∧ resumable s ∧ (v_result s.1 < 0 ∨ v_result s.1 = 0 ∧ cs = [])
  end.

(** The same of the loop, which leaves a character in [v_c]. *)
Definition loop_got (cs : list Z) (res : bool * (t_reader * W)) : Prop :=
  let '(b, s) := res in if b then v_n1 s.1 = 0 ∧ reads s cs else got cs (None, s).

(** A round goes on with fewer bytes left, or ends. *)
Definition round (s : t_reader * W) (cs : list Z) (res : outcome ((t_reader * W) + (bool * (t_reader * W)))) : Prop :=
  (∃ s', res = Ok (inl s') ∧ reads s' cs ∧ (length (bytes_left s'.2) < length (bytes_left s.2))%nat) ∨ (∃ q, res = Ok (inr q) ∧ loop_got cs q).

(** More bytes are needed and there are some. *)
Lemma incomplete_round r0 r w bs cs : reads (r, w) cs → pending r = Ok bs → bs ≠ [] → (length bs < 16)%nat → bytes_left w ≠ [] →
  round (r0, w) cs ('(r, w) ← f_read (r, w);
    if v_result r <? 0 then Ok (inr (false, (r, w))) else if v_result r =? 0 then throw "incomplete sequence." else Ok (inl (r, w))).
Proof.
  intros [HB HR (bs' & ds & Hp & HE & HC)] Hp' Hbs Hb Hne. cbn [fst snd] in *. rewrite Hp in Hp'. injection Hp' as ->.
  destruct (f_read_ok r w bs ds HB Hp Hb HE) as (r' & w' & bs' & -> & HB' & Hp' & HE' & Hc' & Hn' & Hcase). cbn [mbind outcome_bind].
  assert (Hreads : reads (r', w') cs) by (split; cbn [fst snd]; [done|by rewrite Hn'|exists bs', ds; by rewrite Hn', Hc']).
  destruct Hcase as [(H1 & H2 & H3)|[(H1 & H2 & _)|(H1 & H2)]]; [|done|].
  - right. rewrite (proj2 (Z.ltb_lt _ 0)) by done. eexists. split; [done|]. split; [done|]. split; [|by left].
    intros _. pose proof (pending_bounds r' bs' Hp') as [Hl _]. subst bs'. cbn [fst]. destruct bs; [done|cbn in Hl; lia].
  - left. rewrite (proj2 (Z.ltb_ge _ 0)), (proj2 (Z.eqb_neq _ 0)) by lia. by eexists.
Qed.

Lemma convert_round s cs : reads s cs → round s cs (convert s).
Proof.
  destruct s as [r w]. intros Hs. assert (Hs' := Hs). destruct Hs' as [HB HR (bs & ds & Hp & HE & HC)]. cbn [fst snd] in *. unfold convert. rewrite Hp. cbn [mbind outcome_bind].
  assert (Hr0 : reads (converted r 0 None, w) cs).
  { split; cbn [fst snd converted v_buffer v_n1 v_c]; [done..|]. exists bs, ds. split_and!; [|done|done]. pose proof (converted_pending r bs 0 None Hp ltac:(lia)) as H1. by rewrite drop_0 in H1. }
  assert (Hp0 : pending (converted r 0 None) = Ok bs) by (pose proof (converted_pending r bs 0 None Hp ltac:(lia)) as H1; by rewrite drop_0 in H1).
  destruct HR as [Hn1|Hn1]; rewrite Hn1 in *; cbn [Z.ltb Z.compare sizeof_wchar Z.eqb app] in *; unfold sizeof_wchar in *.
  - destruct bs as [|b bs]; cbn [iconv].
    + right. cbn [converted v_n1]. rewrite Hn1. eexists. split; [done|]. split; [done|]. done.
    + destruct (full_ok (b :: bs)) as [->|[-> Hd]]; [right; eexists; split; [done|by split]|].
      destruct (decode_cases (b :: bs) (bytes_left w) ds HE ltac:(done)) as [(c & ds' & bs' & _ & _ & _ & Hd')|(_ & Hl & Hne)]; [congruence|].
      by apply (incomplete_round _ _ w (b :: bs)).
  - destruct bs as [|b bs].
    + cbn [iconv converted v_n1]. rewrite Hn1. cbn [Z.leb Z.compare].
      destruct (f_read_ok (converted r 0 None) w [] ds HB Hp0 ltac:(cbn; lia) HE) as (r' & w' & bs' & -> & HB' & Hp' & HE' & Hc' & Hn' & Hcase). cbn [mbind outcome_bind].
      assert (Hreads : reads (r', w') cs) by (split; cbn [fst snd]; [done|right; rewrite Hn'; done|exists bs', ds; rewrite Hn'; cbn [converted v_n1]; rewrite Hn1; done]).
      assert (Hres : resumable (r', w')) by (intros Hz; cbn [fst] in Hz; rewrite Hn' in Hz; cbn [converted v_n1] in Hz; lia).
      destruct Hcase as [(H1 & H2 & H3)|[(H1 & H2 & _)|(H1 & H2)]].
      * right. rewrite (proj2 (Z.leb_le _ 0)) by lia. eexists. split; [done|]. split; [done|]. split; [exact Hres|by left].
      * right. rewrite (proj2 (Z.leb_le _ 0)) by lia. eexists. split; [done|]. split; [done|]. split; [exact Hres|]. right. split; [done|]. rewrite HC.
        rewrite H2 in HE. by rewrite (nothing_left ds HE).
      * left. rewrite (proj2 (Z.leb_gt _ 0)) by lia. eexists. by split.
    + destruct (decode_cases (b :: bs) (bytes_left w) ds HE ltac:(done)) as [(c & ds' & bs' & -> & Eb & HE' & Hd)|(Hd & Hl & Hne)]; cbn [iconv]; rewrite Hd.
      * assert (Hp1 : pending (converted r (length (encode c)) (Some c)) = Ok bs').
        { rewrite (converted_pending r (b :: bs)) by (done || rewrite Eb, length_app; lia). by rewrite Eb, drop_app_length. }
        assert (H1 : reads (converted r (length (encode c)) (Some c), w) cs).
        { split; cbn [fst snd converted v_buffer v_n1 v_c]; rewrite ?Hn1; [done|by left|]. exists bs', ds'. by rewrite HC. }
        rewrite Eb, drop_app_length. destruct bs' as [|b' bs'].
        { right. cbn [converted v_n1]. rewrite Hn1. eexists. split; [done|]. split; [cbn; by rewrite Hn1|done]. }
        destruct (full_ok (b' :: bs')) as [->|[-> Hd']]; [right; eexists; split; [done|split; [cbn; by rewrite Hn1|done]]|].
        destruct (decode_cases (b' :: bs') (bytes_left w) ds' HE' ltac:(done)) as [(c' & ds'' & bs'' & _ & _ & _ & Hd'')|(_ & Hl & Hne)]; [congruence|].
        by apply (incomplete_round _ _ w (b' :: bs')).
      * by apply (incomplete_round _ _ w (b :: bs)).
Qed.

Lemma loop_round fuel s cs : reads s cs → (length (bytes_left s.2) < fuel)%nat → ∃ q, loop fuel convert s = Ok q ∧ loop_got cs q.
Proof.
  intros Hs Hf. apply (loop_ind convert (λ s, reads s cs) (loop_got cs) (λ s, Z.of_nat (length (bytes_left s.2)))); [|done|lia].
  intros s1 H1. split; [lia|]. destruct (convert_round s1 cs H1) as [(s2 & E & H2 & H3)|(q & E & Hq)]; [left; exists s2|right; by exists q].
  split_and!; [done..|lia].
Qed.

Lemma reader_get_ok fuel s cs : reads s cs → resumable s → (length (bytes_left s.2) < fuel)%nat → ∃ res, f_get fuel s = Ok res ∧ got cs res.
Proof.
  intros Hs Hrs Hf.
  assert (HL : ∀ s', reads s' cs → (length (bytes_left s'.2) < fuel)%nat → ∃ res, ('(b, s) ← loop fuel convert s';
    if (b : bool) then let '(r, w) := s in Ok (Some (v_c r), (Reader (v_buffer r) (v_p0 r) (v_n0 r) (v_result r) (v_c r) sizeof_wchar, w))
    else Ok (None, s)) = Ok res ∧ got cs res).
  { intros s' Hs' Hf'. destruct (loop_round fuel s' cs Hs' Hf') as ([b [r w]] & -> & Hq). cbn [mbind outcome_bind]. destruct b; [|by eexists].
    destruct Hq as [Hn [HB HR (bs & ds & Hp & HE & HC)]]. cbn [fst snd] in *. eexists. split; [done|]. rewrite Hn in HC. exists ds. split; [done|].
    split; [|done]. split; cbn [fst snd v_buffer v_n1]; [done|by right|]. by exists bs, ds. }
  unfold f_get. destruct (Z.leb_spec (v_n0 s.1) 0) as [Hn0|Hn0]; [|by apply HL].
  destruct s as [r w]. assert (Hs' := Hs). destruct Hs' as [HB HR (bs & ds & Hp & HE & HC)]. cbn [fst snd] in *. pose proof (pending_bounds r bs Hp) as [Hl _].
  assert (bs = []) as -> by (destruct bs; [done|cbn in Hl; lia]).
  destruct (f_read_ok r w [] ds HB Hp ltac:(cbn; lia) HE) as (r' & w' & bs' & -> & HB' & Hp' & HE' & Hc' & Hn' & Hcase). cbn [mbind outcome_bind fst snd].
  assert (Hreads : reads (r', w') cs) by (split; cbn [fst snd]; [done|by rewrite Hn'|exists bs', ds; by rewrite Hn', Hc']).
  assert (Hn1 : v_n1 r = sizeof_wchar).
  { destruct HR as [HR|HR]; [|done]. destruct (Hrs HR). cbn [fst]. cbn in Hl. lia. }
  assert (Hres : resumable (r', w')) by (intros Hz; cbn [fst] in Hz; rewrite Hn', Hn1 in Hz; done).
  destruct Hcase as [(H1 & H2 & H3)|[(H1 & H2 & _)|(H1 & H2)]].
  - rewrite (proj2 (Z.leb_le _ 0)) by lia. eexists. split; [done|]. split; [done|]. split; [done|by left].
  - rewrite (proj2 (Z.leb_le _ 0)) by lia. eexists. split; [done|]. split; [done|]. split; [done|]. right. split; [done|].
    rewrite HC, Hn1. rewrite H2 in HE. by rewrite (nothing_left ds HE).
  - rewrite (proj2 (Z.leb_gt _ 0)) by lia. apply HL; [done|cbn [snd]; lia].
Qed.

(** ** [f_read] and [f_read_line] *)

(** The characters an object of [f_instantiate] has memory for, with the
    terminator. *)
Definition text_room (a_n : Z) : Z := (to_size (sizeof_t_string + to_size (sizeof_wchar_t * to_size (a_n + 1))) - sizeof_t_string) / sizeof_wchar_t.

(** The characters are stored one by one, and [k] more are wanted. *)
Fixpoint fill (fuel : nat) (room : Z) (k : nat) (t : text) (s : t_reader * W) : outcome (text * (t_reader * W)) :=
  if decide (f_size t < room) then
    match k with
    | O => Ok (t, s)
    | S k =>
      '(c, s) ← f_get fuel s;
      match c with Some c => fill fuel room k (t ++ [c]) s | None => Ok (t, s) end
    end
  else Fault.

(** Null, or a string. *)
Definition no_text (s : t_reader * W) : option text := if v_result s.1 <? 0 then None else Some [].

Definition f_read_text (fuel : nat) (a_size : Z) (s : t_reader * W) : outcome (option text * (t_reader * W)) :=
  let a_size := to_size a_size in
  if a_size <=? 0 then Ok (Some [], s) else
  '(c, s) ← f_get fuel s;
  match c with
  | None => Ok (no_text s, s)
  | Some c => '(t, s) ← fill fuel (text_room a_size) (Z.to_nat (a_size - 1)) [c] s; Ok (Some t, s)
  end.

(** The line so far is with the stringer. *)
Fixpoint read_line (fuel k : nat) (t : text) (c : Z) (s : t_reader * W) : outcome (text * (t_reader * W)) :=
  match k with
  | O => Fault
  | S k =>
    if c =? 10 then Ok (t ++ [c], s) else
    '(d, s) ← f_get fuel s;
    match d with Some d => read_line fuel k (t ++ [c]) d s | None => Ok (t ++ [c], s) end
  end.

Definition f_read_line (fuel : nat) (s : t_reader * W) : outcome (option text * (t_reader * W)) :=
  '(c, s) ← f_get fuel s;
  match c with
  | None => Ok (no_text s, s)
  | Some c => '(t, s) ← read_line fuel fuel [] c s; Ok (Some t, s)
  end.

(** The methods. *)
Inductive call := Read (n : Z) | ReadLine.

Definition run (fuel : nat) (s : t_reader * W) (c : call) : outcome (option text * (t_reader * W)) :=
  match c with Read n => f_read_text fuel n s | ReadLine => f_read_line fuel s end.

Fixpoint runs (fuel : nat) (s : t_reader * W) (calls : list call) : outcome (list (option text) * (t_reader * W)) :=
  match calls with
  | [] => Ok ([], s)
  | c :: calls => '(t, s) ← run fuel s c; '(ts, s) ← runs fuel s calls; Ok (t :: ts, s)
  end.

(** Nothing more can be read now: the source would block, or is at its end. *)
Definition stopped (s : t_reader * W) (cs : list Z) : Prop := v_result s.1 < 0 ∨ cs = [].

(** What is left is [cs], and can be read. *)
Definition ready (s : t_reader * W) (cs : list Z) : Prop := reads s cs ∧ resumable s.

Lemma bytes_bound s cs : reads s cs → (length (bytes_left s.2) <= 16 * length cs)%nat.
Proof.
  intros [_ _ (bs & ds & _ & [HE Hd] & ->)]. rewrite length_app.
  assert (HB : (length (concat (map encode ds)) <= 16 * length ds)%nat).
  { clear HE. induction Hd as [|d ds Hc _ IH]; [done|]. cbn [map concat length]. rewrite length_app. pose proof (encode_length d Hc). lia. }
  rewrite <- HE, length_app in HB. lia.
Qed.

Lemma f_get_ready fuel s cs : ready s cs → (16 * length cs < fuel)%nat →
  ∃ c s', f_get fuel s = Ok (c, s') ∧
  match c with Some c => ∃ cs', cs = c :: cs' ∧ ready s' cs' | None => ready s' cs ∧ stopped s' cs end.
Proof.
  intros [Hs Hr] Hf. pose proof (bytes_bound s cs Hs). destruct (reader_get_ok fuel s cs Hs Hr ltac:(lia)) as ([c s'] & -> & Hg). exists c, s'. split; [done|].
  unfold ready, stopped. destruct c as [c|]; cbn in Hg; [destruct Hg as (cs' & ? & ? & ?); by exists cs'|destruct Hg as (? & ? & [?|[? ?]]); tauto].
Qed.

Lemma reader_fill_ok fuel room k : ∀ t s cs, ready s cs → (16 * length cs < fuel)%nat → f_size t + Z.of_nat k < room →
  ∃ u s' cs', fill fuel room k t s = Ok (t ++ u, s') ∧ cs = u ++ cs' ∧ ready s' cs' ∧ (length u <= k)%nat ∧ (length u = k ∨ stopped s' cs').
Proof.
  induction k as [|k IH]; intros t s cs Hs Hf Hk; cbn [fill]; rewrite decide_True by lia.
  - exists [], s, cs. rewrite app_nil_r. split_and!; [done..|by left].
  - destruct (f_get_ready fuel s cs Hs Hf) as (c & s1 & -> & Hc). cbn [mbind outcome_bind]. destruct c as [c|].
    + destruct Hc as (cs1 & -> & H1). cbn [length] in Hf. destruct (IH (t ++ [c]) s1 cs1 H1 ltac:(lia)) as (u & s2 & cs2 & -> & -> & H2 & Hl & Hu).
      { unfold f_size in *. rewrite length_app. cbn. lia. }
      exists (c :: u), s2, cs2. rewrite <- app_assoc. cbn. split_and!; [done..|lia|]. destruct Hu; [left; lia|by right].
    + destruct Hc as [H1 H2]. exists [], s1, cs. rewrite app_nil_r. split_and!; [done..|cbn; lia|by right].
Qed.

Lemma read_line_ok fuel k : ∀ t c s cs, ready s cs → (16 * length cs < fuel)%nat → (length cs < k)%nat →
  ∃ u s' cs', read_line fuel k t c s = Ok (t ++ u, s') ∧ c :: cs = u ++ cs' ∧ ready s' cs' ∧ u ≠ [] ∧
  ((∃ v, u = v ++ [10] ∧ 10 ∉ v) ∨ (10 ∉ u) ∧ stopped s' cs').
Proof.
  induction k as [|k IH]; intros t c s cs Hs Hf Hk; [lia|]. cbn [read_line]. destruct (Z.eqb_spec c 10) as [->|Hc].
  - exists [10], s, cs. split_and!; [done..|]. left. exists []. split; [done|apply not_elem_of_nil].
  - destruct (f_get_ready fuel s cs Hs Hf) as (d & s1 & -> & Hd). cbn [mbind outcome_bind]. destruct d as [d|].
    + destruct Hd as (cs1 & -> & H1). cbn [length] in *. destruct (IH (t ++ [c]) d s1 cs1 H1 ltac:(lia) ltac:(lia)) as (u & s2 & cs2 & -> & E & H2 & Hne & Hu).
      exists (c :: u), s2, cs2. rewrite <- app_assoc. cbn. split_and!; [done|by rewrite E|done|done|].
      destruct Hu as [(v & -> & Hv)|[Hu Hst]]; [left; exists (c :: v)|right]; (split; [done|]) || (split; [|done]); apply not_elem_of_cons; split; done.
    + destruct Hd as [H1 H2]. exists [c], s1, cs. split_and!; [done..|]. right. split; [|done]. apply not_elem_of_cons. split; [done|apply not_elem_of_nil].
Qed.

(** What a call gives. *)
Definition gives (c : call) (t : option text) (s : t_reader * W) (cs : list Z) : Prop :=
  match c, t with
  | Read n, Some t => f_size t <= n ∧ (f_size t = n ∨ stopped s cs)
  | ReadLine, Some t => (∃ u, t = u ++ [10] ∧ 10 ∉ u) ∨ (10 ∉ t) ∧ stopped s cs
  | _, None => v_result s.1 < 0
  end.

Definition read_text (t : option text) : text := match t with Some t => t | None => [] end.

(** Sizes that fit in memory. *)
Definition proper_call (c : call) : Prop := match c with Read n => 0 <= n <= 2 ^ 60 | ReadLine => True end.

Lemma no_text_ok s cs : stopped s cs → read_text (no_text s) = [] ∧ (no_text s = None → v_result s.1 < 0).
Proof. unfold no_text. destruct (Z.ltb_spec (v_result s.1) 0); [by split|]. by split. Qed.

Lemma text_room_ok n : 0 <= n <= 2 ^ 60 → text_room n = n + 1.
Proof.
  intros Hn. unfold text_room, sizeof_t_string, sizeof_wchar_t. rewrite (to_size_id (n + 1)) by (unfold SIZE_MODULUS; lia).
  rewrite (to_size_id (4 * (n + 1))) by (unfold SIZE_MODULUS; lia). rewrite to_size_id by (unfold SIZE_MODULUS; lia).
  replace (8 + 4 * (n + 1) - 8) with ((n + 1) * 4) by lia. by apply Z.div_mul.
Qed.

Lemma reader_run_ok fuel s cs c : ready s cs → (16 * length cs < fuel)%nat → proper_call c →
  ∃ t s' cs', run fuel s c = Ok (t, s') ∧ cs = read_text t ++ cs' ∧ ready s' cs' ∧ gives c t s' cs'.
Proof.
  intros Hs Hf Hc. destruct c as [n|]; cbn [run].
  - cbn [proper_call] in Hc. assert (Hn : 0 <= n < SIZE_MODULUS) by (unfold SIZE_MODULUS; lia). unfold f_read_text. rewrite to_size_id by done. destruct (Z.leb_spec n 0) as [Hz|Hz].
    { exists (Some []), s, cs. split_and!; [done..|]. unfold gives, f_size. cbn [length]. lia. }
    destruct (f_get_ready fuel s cs Hs Hf) as (c & s1 & -> & Hd). cbn [mbind outcome_bind]. destruct c as [c|].
    + destruct Hd as (cs1 & -> & H1). cbn [length] in Hf. rewrite text_room_ok by lia.
      destruct (reader_fill_ok fuel (n + 1) (Z.to_nat (n - 1)) [c] s1 cs1 H1 ltac:(lia)) as (u & s2 & cs2 & -> & -> & H2 & Hl & Hu); [unfold f_size; cbn; lia|]. cbn [mbind outcome_bind].
      exists (Some (c :: u)), s2, cs2. split_and!; [done..|]. unfold gives, f_size. cbn [length]. split; [lia|]. destruct Hu; [left; lia|by right].
    + destruct Hd as [H1 H2]. destruct (no_text_ok s1 cs H2) as [E1 E2]. exists (no_text s1), s1, cs. rewrite E1. split_and!; [done..|].
      cbn. destruct (no_text s1) as [t|]; [|by apply E2]. cbn in E1. subst. split; [unfold f_size; cbn; lia|by right].
  - unfold f_read_line. destruct (f_get_ready fuel s cs Hs Hf) as (c & s1 & -> & Hd). cbn [mbind outcome_bind]. destruct c as [c|].
    + destruct Hd as (cs1 & -> & H1). cbn [length] in Hf. destruct (read_line_ok fuel fuel [] c s1 cs1 H1 ltac:(lia) ltac:(lia)) as (u & s2 & cs2 & -> & E & H2 & _ & Hu).
      cbn [mbind outcome_bind]. exists (Some u), s2, cs2. by split_and!.
    + destruct Hd as [H1 H2]. destruct (no_text_ok s1 cs H2) as [E1 E2]. exists (no_text s1), s1, cs. rewrite E1. split_and!; [done..|].
      cbn. destruct (no_text s1) as [t|]; [|by apply E2]. cbn in E1. subst. right. split; [apply not_elem_of_nil|done].
Qed.

(** What the calls of a program give, one after another. *)
Inductive given : list call → list (option text) → list Z → list Z → Prop :=
| given_nil cs : given [] [] cs cs
| given_cons c calls t ts s cs cs' : ready s cs → gives c t s cs → given calls ts cs cs' → given (c :: calls) (t :: ts) (read_text t ++ cs) cs'.

(** C32 (readers_give_the_text): however a source splits the bytes of a text into
    pieces, in the middle of characters or not, and however often it would block,
    the methods of a reader give the characters of the text, none of them lost,
    repeated or in another order: [read] as many as it is asked for and
    [read_line] up to the next newline, or fewer if the source blocks or ends. *)
Theorem readers_give_the_text (garbage : Z → Z) (w : W) (cs : list Z) (calls : list call) (fuel : nat) :
  encodes (bytes_left w) cs → Forall proper_call calls → (16 * length cs < fuel)%nat →
  ∃ ts s' cs', runs fuel (new_reader garbage, w) calls = Ok (ts, s') ∧ given calls ts cs cs' ∧ cs = concat (map read_text ts) ++ cs' ∧ ready s' cs'.
Proof.
  intros Hw Hp Hf. assert (Hs : ready (new_reader garbage, w) cs) by by split; [apply new_reads|].
  generalize dependent (new_reader garbage, w). clear Hw. generalize dependent cs. induction Hp as [|c calls Hc _ IH]; intros cs Hf s Hs; cbn [runs].
  - exists [], s, cs. split_and!; try done. constructor.
  - destruct (reader_run_ok fuel s cs c Hs Hf Hc) as (t & s1 & cs1 & -> & -> & H1 & Hg). cbn [mbind outcome_bind].
    rewrite length_app in Hf. destruct (IH cs1 ltac:(lia) s1 H1) as (ts & s2 & cs2 & -> & H2 & E & H3). cbn [mbind outcome_bind].
    exists (t :: ts), s2, cs2. split_and!; [done|by apply (given_cons _ _ _ _ s1)|cbn; by rewrite <- app_assoc, <- E|done].
Qed.
End Reader.

(** ** A source and an encoding *)

(** A source that has its bytes in pieces, and would block before an empty
    one. *)
Definition read_pieces (w : list (list Z)) (buffer : list Z) (off size : Z) : outcome (Z * list Z * list (list Z)) :=
  match w with
  | [] => Ok (0, buffer, [])
  | [] :: w => Ok (-1, buffer, w)
  | piece :: w =>
    let n := Nat.min (length piece) (Z.to_nat size) in
    Ok (Z.of_nat n, take (Z.to_nat off) buffer ++ take n piece ++ drop (Z.to_nat off + n) buffer,
      if (n <? length piece)%nat then drop n piece :: w else w)
  end.

#[export] Program Instance pieces : Source (list (list Z)) := {| v_read := read_pieces; bytes_left w := concat w |}.
Next Obligation.
  intros w buffer off size Ho Hs Hr. destruct w as [|[|b piece] w]; cbn [read_pieces].
  - eexists _, _, _. split_and!; [done..|]. right. by left.
  - eexists _, _, _. split_and!; [done..|]. by left.
  - set (n := Nat.min _ _). assert (0 < n)%nat by (unfold n; cbn [length]; lia). assert (Hl : (n <= length (b :: piece))%nat) by (unfold n; lia). assert (Hn : Z.of_nat n <= size) by (unfold n; lia).
    clearbody n. assert (Ht : length (take (Z.to_nat off) buffer) = Z.to_nat off) by (rewrite length_take; lia).
    assert (Hm : length (take n (b :: piece)) = n) by (rewrite length_take; lia).
    eexists _, _, _. split; [reflexivity|]. split_and!.
    + rewrite !length_app, Ht, Hm, length_drop. lia.
    + rewrite take_app_le, take_ge by lia. done.
    + right. right. split; [lia|]. rewrite Nat2Z.id, drop_app_ge, Ht, Nat.sub_diag, drop_0 by lia.
      rewrite take_app_le, (take_ge (take n _)) by lia. destruct (Nat.ltb_spec n (length (b :: piece))); cbn [concat].
      * rewrite app_assoc, take_drop. done.
      * by rewrite take_ge by lia.
Qed.

(** UTF-8. *)
Definition utf8_encode (c : Z) : list Z :=
  if c <? 128 then [c]
  else if c <? 2048 then [192 + c / 64; 128 + c mod 64]
  else if c <? 65536 then [224 + c / 4096; 128 + c / 64 mod 64; 128 + c mod 64]
  else [240 + c / 262144; 128 + c / 4096 mod 64; 128 + c / 64 mod 64; 128 + c mod 64].

(** The bytes that follow the first. *)
Fixpoint utf8_follow (k : nat) (c : Z) (n : nat) (bs : list Z) : decoded :=
  match k, bs with
  | O, _ => Char c n
  | S _, [] => Incomplete
  | S k, b :: bs => if decide (128 <= b < 192) then utf8_follow k (c * 64 + (b - 128)) (S n) bs else Invalid
  end.

Definition utf8_decode (bs : list Z) : decoded :=
  match bs with
  | [] => Incomplete
  | b :: bs =>
    if b <? 128 then Char b 1
    else if b <? 192 then Invalid
    else if b <? 224 then utf8_follow 1 (b - 192) 1 bs
    else if b <? 240 then utf8_follow 2 (b - 224) 1 bs
    else utf8_follow 3 (b - 240) 1 bs
  end.

Lemma utf8_follow_S k c n d bs : 0 <= d < 64 → utf8_follow (S k) c n ((128 + d) :: bs) = utf8_follow k (c * 64 + d) (S n) bs.
Proof. intros Hd. cbn [utf8_follow]. rewrite decide_True by lia. f_equal. lia. Qed.

Definition utf8_full (bs : list Z) : errno := match utf8_decode bs with Incomplete => EINVAL | _ => E2BIG end.

#[export] Program Instance utf8 : Encoding := {|
  decode := utf8_decode;
  full := utf8_full;
  encode := utf8_encode;
  encodable c := 0 <= c < 1114112;
|}.
Next Obligation. intros c _. unfold utf8_encode. repeat case_match; cbn; lia. Qed.
Next Obligation.
  intros c bs Hc. cbn beta in Hc. unfold utf8_encode. pose proof (Z.mod_pos_bound c 64 ltac:(lia)). pose proof (Z.mod_pos_bound (c / 64) 64 ltac:(lia)). pose proof (Z.mod_pos_bound (c / 4096) 64 ltac:(lia)).
  pose proof (Z.div_mod c 64 ltac:(lia)). pose proof (Z.div_mod (c / 64) 64 ltac:(lia)). pose proof (Z.div_mod (c / 4096) 64 ltac:(lia)).
  assert (c / 64 / 64 = c / 4096) by (by rewrite Z.div_div). assert (c / 4096 / 64 = c / 262144) by (by rewrite Z.div_div).
  repeat case_match; repeat match goal with E : (_ <? _) = true |- _ => apply Z.ltb_lt in E | E : (_ <? _) = false |- _ => apply Z.ltb_ge in E end; cbn [app utf8_decode length].
  - by rewrite (proj2 (Z.ltb_lt c 128)).
  - rewrite (proj2 (Z.ltb_ge _ 128)), (proj2 (Z.ltb_ge _ 192)), (proj2 (Z.ltb_lt _ 224)) by lia. rewrite utf8_follow_S by done. cbn [utf8_follow]. f_equal. lia.
  - rewrite (proj2 (Z.ltb_ge _ 128)), (proj2 (Z.ltb_ge _ 192)), (proj2 (Z.ltb_ge _ 224)), (proj2 (Z.ltb_lt _ 240)) by lia. rewrite !utf8_follow_S by done. cbn [utf8_follow]. f_equal. lia.
  - rewrite (proj2 (Z.ltb_ge _ 128)), (proj2 (Z.ltb_ge _ 192)), (proj2 (Z.ltb_ge _ 224)), (proj2 (Z.ltb_ge _ 240)) by lia. rewrite !utf8_follow_S by done. cbn [utf8_follow]. f_equal. lia.
Qed.
Next Obligation.
  intros c bs bs' Hc. cbn beta in Hc. unfold utf8_encode. pose proof (Z.mod_pos_bound c 64 ltac:(lia)). pose proof (Z.mod_pos_bound (c / 64) 64 ltac:(lia)). pose proof (Z.mod_pos_bound (c / 4096) 64 ltac:(lia)).
  pose proof (Z.div_mod c 64 ltac:(lia)). pose proof (Z.div_mod (c / 64) 64 ltac:(lia)). pose proof (Z.div_mod (c / 4096) 64 ltac:(lia)).
  assert (c / 64 / 64 = c / 4096) by (by rewrite Z.div_div). assert (c / 4096 / 64 = c / 262144) by (by rewrite Z.div_div).
  repeat case_match; repeat match goal with E : (_ <? _) = true |- _ => apply Z.ltb_lt in E | E : (_ <? _) = false |- _ => apply Z.ltb_ge in E end;
    destruct bs as [|b0 [|b1 [|b2 [|b3 bs]]]]; cbn [app]; intros HE Hne Hne'; try done; simplify_eq; try done; try (by destruct bs; simplify_eq); cbn [utf8_decode].
  - rewrite (proj2 (Z.ltb_ge _ 128)), (proj2 (Z.ltb_ge _ 192)), (proj2 (Z.ltb_lt _ 224)) by lia. done.
  - rewrite (proj2 (Z.ltb_ge _ 128)), (proj2 (Z.ltb_ge _ 192)), (proj2 (Z.ltb_ge _ 224)), (proj2 (Z.ltb_lt _ 240)) by lia. done.
  - rewrite (proj2 (Z.ltb_ge _ 128)), (proj2 (Z.ltb_ge _ 192)), (proj2 (Z.ltb_ge _ 224)), (proj2 (Z.ltb_lt _ 240)) by lia. by rewrite utf8_follow_S.
  - rewrite (proj2 (Z.ltb_ge _ 128)), (proj2 (Z.ltb_ge _ 192)), (proj2 (Z.ltb_ge _ 224)), (proj2 (Z.ltb_ge _ 240)) by lia. done.
  - rewrite (proj2 (Z.ltb_ge _ 128)), (proj2 (Z.ltb_ge _ 192)), (proj2 (Z.ltb_ge _ 224)), (proj2 (Z.ltb_ge _ 240)) by lia. by rewrite utf8_follow_S.
  - rewrite (proj2 (Z.ltb_ge _ 128)), (proj2 (Z.ltb_ge _ 192)), (proj2 (Z.ltb_ge _ 224)), (proj2 (Z.ltb_ge _ 240)) by lia. by rewrite !utf8_follow_S.
Qed.
Next Obligation. intros bs. unfold utf8_full. destruct (utf8_decode bs) eqn:E; [by left|by right|by left]. Qed.

(** A text of two lines, split in the middle of characters. *)
Definition some_pieces : list (list Z) := [[72; 233 / 64 + 192]; []; [128 + 233 mod 64; 10; 226]; [130]; []; [172; 33]].

Lemma readers_give_the_text_witness :
  ∃ ts s' cs', runs 100 (new_reader (λ _, 0), some_pieces) [Read 1; ReadLine; ReadLine; Read 5; Read 5; Read 5] = Ok (ts, s') ∧
    given [Read 1; ReadLine; ReadLine; Read 5; Read 5; Read 5] ts [72; 233; 10; 8364; 33] cs' ∧ [72; 233; 10; 8364; 33] = concat (map read_text ts) ++ cs' ∧ ready s' cs'.
Proof.
  apply (readers_give_the_text (λ _, 0) some_pieces [72; 233; 10; 8364; 33] [Read 1; ReadLine; ReadLine; Read 5; Read 5; Read 5] 100).
  - split; [reflexivity|]. repeat constructor; cbn; lia.
  - repeat constructor; cbn; lia.
  - cbn. lia.
Defined.

(** A character waits until the bytes after it are whole ones: the first call
    gives null, and the newline is a line of its own. *)
Example some_reads :
  (runs 100 (new_reader (λ _, 0), some_pieces) [Read 1; ReadLine; ReadLine; Read 5; Read 5; Read 5]) ≫= (λ r, Ok r.1) =
  Ok [None; Some [72; 233]; Some [10]; Some [8364; 33]; Some []; Some []].
Proof. vm_compute. reflexivity. Qed.

(** The size of the string of [read(-1)] wraps around: it has no room for a
    character. *)
Lemma read_of_negative_size : text_room (to_size (-1)) = 0 ∧
  ∀ fuel k t (s : t_reader * list (list Z)), fill fuel (text_room (to_size (-1))) k t s = Fault.
Proof.
  split; [reflexivity|]. change (text_room (to_size (-1))) with 0. intros fuel k t s.
  assert (¬ f_size t < 0) by (unfold f_size; lia). destruct k; cbn [fill]; by rewrite decide_False.
Qed.
