(* ===== verification/Writer.v ===== *)
(** * Writers of text (src: include/xemmai/io/writer.h, src/io__writer.cc)

    A writer converts characters with [iconv] into a buffer, and gives the
    buffer to a callable when it is full or to be flushed.  The callable may
    take less than it is given; the writer then has to be resumed. *)
From stdpp Require Import base list numbers strings.
From S2P Require Import Prelude Machine Layout Text Bytes Reader.
Local Open Scope Z_scope.

(** What a writer relies on of [v_write]: it takes some of the [size] bytes of
    the buffer at [off], none if it would block, and returns how many. *)
Class Sink (W : Type) := {
  v_write : W → list Z → Z → Z → outcome (Z * W);
  written : W → list Z;
  v_write_ok w buffer off size : 0 <= off → 0 <= size → off + size <= Z.of_nat (length buffer) →
    ∃ n w', v_write w buffer off size = Ok (n, w') ∧ 0 <= n <= size ∧ written w' = written w ++ take (Z.to_nat n) (drop (Z.to_nat off) buffer);
}.

Definition newline : Z := 10.

Section Writer.
Context `{Sink W, Encoding, !∀ c, Decision (encodable c)}.

(** [v_p0] and [v_n0] are the characters that are not converted yet; [v_p1] and
    [v_remain] are offsets of the buffer, and [v_value] is whether there is
    one. *)
Record t_writer := Writer {
  v_buffer : list Z;
  v_p0 : text;
  v_p1 : Z;
  v_n1 : Z;
  v_remain : option Z;
  v_value : bool;
  v_step : nat;
}.

Definition new_writer (garbage : Z → Z) : t_writer := Writer (tabulate buffer_size garbage) [] 0 buffer_size None false 0.

Definition set_v_p0 (t : text) (r : t_writer) : t_writer := Writer (v_buffer r) t (v_p1 r) (v_n1 r) (v_remain r) (v_value r) (v_step r).
Definition set_v_value (b : bool) (r : t_writer) : t_writer := Writer (v_buffer r) (v_p0 r) (v_p1 r) (v_n1 r) (v_remain r) b (v_step r).
Definition set_v_step (n : nat) (r : t_writer) : t_writer := Writer (v_buffer r) (v_p0 r) (v_p1 r) (v_n1 r) (v_remain r) (v_value r) n.

Abbreviation state := (t_writer * W)%type.

(** [f_write()]: the rest of the buffer is given to the callable. *)
Definition write_buffer (s : state) : outcome (bool * state) :=
  let '(r, w) := s in
  let p := default 0 (v_remain r) in
  '(n, w) ← v_write w (v_buffer r) p (v_p1 r - p);
  let p := p + n in
  if p <? v_p1 r then Ok (false, (Writer (v_buffer r) (v_p0 r) (v_p1 r) (v_n1 r) (Some p) (v_value r) (v_step r), w))
  else Ok (true, (Writer (v_buffer r) (v_p0 r) 0 (Z.of_nat (length (v_buffer r))) None (v_value r) (v_step r), w)).

(** [iconv] to an encoding that has no state: as many characters as there is
    room for.  What it reports, what is left of the characters, and the
    bytes. *)
Fixpoint iconv (t : text) (room : Z) : errno * text * list Z :=
  match t with
  | [] => (Done, [], [])
  | c :: t' =>
    if decide (encodable c) then
      if Z.of_nat (length (encode c)) <=? room
      then let '(e, t, bs) := iconv t' (room - Z.of_nat (length (encode c))) in (e, t, encode c ++ bs)
      else (E2BIG, t, [])
    else (EILSEQ, t, [])
  end.

(** The bytes are stored at [v_p1]. *)
Definition put_bytes (r : t_writer) (t : text) (bs : list Z) : outcome t_writer :=
  if decide (0 <= v_p1 r ∧ v_p1 r + Z.of_nat (length bs) <= Z.of_nat (length (v_buffer r)))
  then Ok (Writer (take (Z.to_nat (v_p1 r)) (v_buffer r) ++ bs ++ drop (Z.to_nat (v_p1 r) + length bs) (v_buffer r)) t
    (v_p1 r + Z.of_nat (length bs)) (v_n1 r - Z.of_nat (length bs)) (v_remain r) (v_value r) (v_step r))
  else Fault.

(** [f_write(&v_p0, &v_n0)], an iteration of the loop. *)
Definition convert (s : state) : outcome (state + (bool * state)) :=
  let '(r, w) := s in
  let '(e, t, bs) := iconv (v_p0 r) (v_n1 r) in
  r ← put_bytes r t bs;
  match e with
  | Done => Ok (inr (true, (r, w)))
  | E2BIG => '(b, s) ← write_buffer (r, w); Ok (if (b : bool) then inl s else inr (false, s))
  | _ => throw "system error"
  end.

Definition write_chars (fuel : nat) (s : state) : outcome (bool * state) := loop fuel convert s.

(** [f_write(NULL, NULL)]: [iconv] returns to its initial state, which takes no
    bytes in an encoding that has no state. *)
Definition write_reset (s : state) : outcome (bool * state) := Ok (true, s).

(** What a method returns; [None] is the error that it has to be resumed. *)
Definition resume_required : string := "resume required.".
Abbreviation answer := (option bool).

Definition f__write (fuel : nat) (a_value : text) (s : state) : outcome (answer * state) :=
  match v_remain s.1 with
  | Some _ => Ok (None, s)
  | None =>
    '(b, s) ← write_chars fuel (set_v_p0 a_value s.1, s.2);
    if (b : bool) then Ok (Some true, s) else Ok (Some false, (set_v_value true s.1, s.2))
  end.

(** A case of the [switch], which falls through to the next. *)
Definition resume_step (fuel step : nat) (s : state) : outcome (bool * state) :=
  match step with
  | 4 => Ok (true, (set_v_p0 [newline] s.1, s.2))
  | 3 => write_chars fuel s
  | 2 => write_reset s
  | 1 => write_buffer s
  | _ => Ok (true, s)
  end%nat.

Fixpoint resume_steps (fuel step : nat) (s : state) : outcome (bool * state) :=
  match step with
  | O => Ok (true, s)
  | S k =>
    '(b, s) ← resume_step fuel step s;
    if (b : bool) then resume_steps fuel k (set_v_step k s.1, s.2) else Ok (false, s)
  end.

Definition f__resume (fuel : nat) (s : state) : outcome (bool * state) :=
  if v_value s.1 then
    '(b, s) ← write_chars fuel s;
    if (b : bool) then resume_steps fuel (v_step s.1) (set_v_value false s.1, s.2) else Ok (false, s)
  else resume_steps fuel (v_step s.1) s.

Definition answered (r : outcome (bool * state)) : outcome (answer * state) := '(b, s) ← r; Ok (Some b, s).

Definition f_write_line (fuel : nat) (a_value : text) (s : state) : outcome (answer * state) :=
  '(b, s) ← f__write fuel a_value s;
  match b with
  | None => Ok (None, s)
  | Some b =>
    let s := (set_v_step 4 s.1, s.2) in
    if (b : bool) then answered (f__resume fuel s) else Ok (Some false, s)
  end.

Definition f_flush (fuel : nat) (s : state) : outcome (answer * state) :=
  match v_remain s.1 with
  | Some _ => Ok (None, s)
  | None => answered (f__resume fuel (set_v_step 2 s.1, s.2))
  end.

(** The methods. *)
Inductive call := Write (t : text) | WriteLine (t : text) | Flush | Resume.

#[export] Instance call_dec : EqDecision call.
Proof. solve_decision. Defined.

Definition run (fuel : nat) (s : state) (c : call) : outcome (answer * state) :=
  match c with
  | Write t => f__write fuel t s
  | WriteLine t => f_write_line fuel t s
  | Flush => f_flush fuel s
  | Resume => answered (f__resume fuel s)
  end.

Fixpoint runs (fuel : nat) (s : state) (calls : list call) : outcome (list answer * state) :=
  match calls with
  | [] => Ok ([], s)
  | c :: calls => '(a, s) ← run fuel s c; '(l, s) ← runs fuel s calls; Ok (a :: l, s)
  end.

(** ** What a writer promises *)

(** The text it was given, the bytes it wrote, and whether it has to be resumed
    and will then flush. *)
Record promise := Promise { given : text; output : list Z; busy : option bool }.

Definition text_of (c : call) : text := match c with Write t => t | WriteLine t => t ++ [newline] | _ => [] end.

Definition flushes (c : call) : bool := match c with WriteLine _ | Flush => true | _ => false end.

Definition bytes_of (t : text) : list Z := concat (map encode t).

(** Some bytes of the text are written, or all of them. *)
Definition goes_on (a : promise) (g : text) (o : list Z) (all : bool) : Prop :=
  (∃ bs, o = output a ++ bs) ∧ (∃ bs, bytes_of g = o ++ bs) ∧ (all = true → o = bytes_of g).

Inductive serves : promise → call → answer → promise → Prop :=
| serves_refuse a f c : busy a = Some f → c ≠ Resume → serves a c None a
| serves_nothing a : busy a = None → serves a Resume (Some true) a
| serves_start a c g o : busy a = None → c ≠ Resume → g = given a ++ text_of c → goes_on a g o (flushes c) → serves a c (Some true) (Promise g o None)
| serves_partly a c g o : busy a = None → c ≠ Resume → g = given a ++ text_of c → goes_on a g o false → serves a c (Some false) (Promise g o (Some (flushes c)))
| serves_rest a f o : busy a = Some f → goes_on a (given a) o f → serves a Resume (Some true) (Promise (given a) o None)
| serves_less a f o : busy a = Some f → goes_on a (given a) o false → serves a Resume (Some false) (Promise (given a) o (Some f)).

Inductive served : promise → list call → list answer → promise → Prop :=
| served_nil a : served a [] [] a
| served_cons a c r a1 calls l a2 : serves a c r a1 → served a1 calls l a2 → served a (c :: calls) (r :: l) a2.

(** ** Conversion *)

(** The characters can be encoded. *)
Definition proper (t : text) : Prop := Forall encodable t.

Lemma iconv_ok t : ∀ room, proper t → ∃ e t1 t2, iconv t room = (e, t2, bytes_of t1) ∧ t = t1 ++ t2 ∧
  (e = Done ∧ t2 = [] ∨ e = E2BIG ∧ ∃ c t', t2 = c :: t' ∧ room - Z.of_nat (length (bytes_of t1)) < Z.of_nat (length (encode c))) ∧
  (0 <= room → Z.of_nat (length (bytes_of t1)) <= room).
Proof.
  induction t as [|c t IH]; intros room Ht; cbn [iconv].
  - exists Done, [], []. split_and!; [done..|by left|done].
  - apply Forall_cons in Ht as [Hc Ht]. rewrite decide_True by done.
    destruct (Z.leb_spec (Z.of_nat (length (encode c))) room).
    + destruct (IH (room - Z.of_nat (length (encode c))) Ht) as (e & t1 & t2 & -> & -> & He & Hl). exists e, (c :: t1), t2.
      unfold bytes_of in *. cbn [map concat]. rewrite length_app. split_and!; [done..| |lia].
      destruct He as [?|(? & c' & t' & ? & ?)]; [by left|right]. split; [done|]. exists c', t'. split; [done|lia].
    + exists E2BIG, [], (c :: t). split_and!; [done..| |done]. right. split; [done|]. exists c, t. cbn. split; [done|lia].
Qed.

Lemma bytes_of_app t1 t2 : bytes_of (t1 ++ t2) = bytes_of t1 ++ bytes_of t2.
Proof. unfold bytes_of. by rewrite map_app, concat_app. Qed.

(** Bytes of the buffer that are not written. *)
Definition unsent (r : t_writer) : list Z := drop (Z.to_nat (default 0 (v_remain r))) (take (Z.to_nat (v_p1 r)) (v_buffer r)).

(** The buffer is filled from its beginning. *)
Record filled (r : t_writer) : Prop := {
  fl_size : Z.of_nat (length (v_buffer r)) = buffer_size;
  fl_p1 : 0 <= v_p1 r;
  fl_sum : v_p1 r + v_n1 r = buffer_size;
  fl_n1 : 0 <= v_n1 r;
  fl_remain : match v_remain r with None => True | Some p => 0 <= p < v_p1 r end;
}.

(** There is no room for the next character. *)
Definition stuck (r : t_writer) : Prop := ∃ c t, v_p0 r = c :: t ∧ v_n1 r < Z.of_nat (length (encode c)).

Lemma new_filled garbage : filled (new_writer garbage).
Proof. split; cbn -[buffer_size tabulate]; rewrite ?buffer_size_eq; [by rewrite length_tabulate|done..]. Qed.

(** The bytes that are given to the callable are written or remain. *)
Lemma write_buffer_ok r w : filled r → ∃ b r' w', write_buffer (r, w) = Ok (b, (r', w')) ∧ filled r' ∧
  v_p0 r' = v_p0 r ∧ v_value r' = v_value r ∧ v_step r' = v_step r ∧
  written w' ++ unsent r' = written w ++ unsent r ∧ written w `prefix_of` written w' ∧
  (if (b : bool) then v_remain r' = None ∧ v_n1 r' = buffer_size else v_remain r' ≠ None ∧ v_n1 r' = v_n1 r).
Proof.
  intros [Hb Hp1 Hs Hn Hr]. unfold write_buffer. set (p := default 0 (v_remain r)).
  assert (Hp : 0 <= p <= v_p1 r) by (unfold p; destruct (v_remain r); cbn; lia).
  destruct (v_write_ok w (v_buffer r) p (v_p1 r - p)) as (n & w' & -> & Hn' & Hw); [lia..|]. cbn [mbind outcome_bind].
  assert (HE : ∀ q, q = p + n → written w' ++ drop (Z.to_nat q) (take (Z.to_nat (v_p1 r)) (v_buffer r)) = written w ++ unsent r).
  { intros q ->. rewrite Hw, <- app_assoc. f_equal. unfold unsent. fold p.
    rewrite <- (take_drop (Z.to_nat n) (drop (Z.to_nat p) (take _ _))), drop_drop. f_equal; [|f_equal; lia].
    rewrite skipn_firstn_comm, take_take. f_equal. lia. }
  assert (HP : written w `prefix_of` written w') by (rewrite Hw; by eexists).
  destruct (Z.ltb_spec (p + n) (v_p1 r)); eexists _, _, _; (split; [reflexivity|]).
  - split; [split; cbn; lia|]. split_and!; try done. by apply HE.
  - split; [split; cbn; try lia; by rewrite Z.add_0_l|]. split_and!; try done. rewrite <- (HE (v_p1 r)) by lia. f_equal. unfold unsent. cbn.
    symmetry. apply drop_ge. rewrite length_take. lia.
Qed.

Lemma put_bytes_ok r t bs : filled r → Z.of_nat (length bs) <= v_n1 r → ∃ r', put_bytes r t bs = Ok r' ∧ filled r' ∧
  v_p0 r' = t ∧ v_value r' = v_value r ∧ v_step r' = v_step r ∧ unsent r' = unsent r ++ bs ∧ v_remain r' = v_remain r ∧
  v_n1 r' = v_n1 r - Z.of_nat (length bs).
Proof.
  intros [Hb Hp1 Hs Hn Hr] Hl. unfold put_bytes. rewrite decide_True by lia. eexists. split; [reflexivity|].
  assert (HT : length (take (Z.to_nat (v_p1 r)) (v_buffer r)) = Z.to_nat (v_p1 r)) by (rewrite length_take; lia).
  split.
  - split; cbn; rewrite ?length_app, ?length_drop, ?HT; try lia. destruct (v_remain r); [lia|done].
  - split_and!; try done. unfold unsent. cbn. rewrite Z2Nat.inj_add, Nat2Z.id by lia.
    rewrite app_assoc, take_app_le, take_ge by (rewrite length_app; lia). rewrite drop_app_le; [done|].
    rewrite HT. destruct (v_remain r); cbn; lia.
Qed.

Lemma bytes_of_room c t n : Z.of_nat (length (bytes_of (c :: t))) <= n → n < Z.of_nat (length (encode c)) → False.
Proof. unfold bytes_of. cbn [map concat]. rewrite length_app. lia. Qed.

(** ** The loop *)

(** A loop begins with room for a character, or with a buffer that was not
    taken as a whole because there was none. *)
Record writing (N : nat) (s0 : state) (tot : list Z) (s : state) : Prop := {
  wr_filled : filled s.1;
  wr_proper : proper (v_p0 s.1);
  wr_length : (length (v_p0 s.1) <= N)%nat;
  wr_value : v_value s.1 = v_value s0.1;
  wr_step : v_step s.1 = v_step s0.1;
  wr_total : written s.2 ++ unsent s.1 ++ bytes_of (v_p0 s.1) = tot;
  wr_prefix : written s0.2 `prefix_of` written s.2;
}.

Definition may_go (r : t_writer) : Prop := v_remain r = None ∨ stuck r.

Definition wrote (N : nat) (s0 : state) (tot : list Z) (res : bool * state) : Prop :=
  let '(b, s) := res in
  writing N s0 tot s ∧ if (b : bool) then v_p0 s.1 = [] ∧ v_remain s.1 = None else v_remain s.1 ≠ None ∧ stuck s.1.

Definition left_over (s : state) : Z := 2 * Z.of_nat (length (v_p0 s.1)) + (if v_n1 s.1 =? buffer_size then 0 else 1).

Lemma convert_ok N s0 tot s : writing N s0 tot s → may_go s.1 →
  (∃ s', convert s = Ok (inl s') ∧ (writing N s0 tot s' ∧ may_go s'.1) ∧ left_over s' < left_over s) ∨ (∃ q, convert s = Ok (inr q) ∧ wrote N s0 tot q).
Proof.
  destruct s as [r w]. intros [Hf Hp Hl Hv Hst Ht Hpre] Hgo. cbn [fst snd] in *. unfold convert.
  destruct (iconv_ok (v_p0 r) (v_n1 r) Hp) as (e & t1 & t2 & -> & Ep & He & Hlen). specialize (Hlen (fl_n1 r Hf)).
  destruct (put_bytes_ok r t2 (bytes_of t1) Hf Hlen) as (r1 & -> & Hf1 & Hp1 & Hv1 & Hs1 & Hu1 & Hr1 & Hn1). cbn [mbind outcome_bind].
  assert (HE : unsent r1 ++ bytes_of t2 = unsent r ++ bytes_of (v_p0 r)) by (by rewrite Hu1, Ep, bytes_of_app, <- app_assoc).
  assert (Hp2 : proper t2) by (unfold proper in *; rewrite Ep in Hp; by apply Forall_app in Hp as [_ ?]).
  assert (Hl2 : (length t2 <= N)%nat) by (rewrite Ep, length_app in Hl; lia).
  destruct He as [[-> ->]|(-> & c & t' & -> & Hroom)].
  - right. eexists. split; [reflexivity|]. split.
    + split; cbn [fst snd]; rewrite ?Hp1; try done; congruence.
    + cbn [fst]. split; [done|]. rewrite Hr1. destruct Hgo as [?|(c & t & E & Hn)]; [done|]. rewrite app_nil_r in Ep. rewrite <- Ep, E in Hlen.
      destruct (bytes_of_room c t (v_n1 r) Hlen Hn).
  - destruct (write_buffer_ok r1 w Hf1) as (b & r2 & w2 & -> & Hf2 & Hp2' & Hv2 & Hs2 & Hw2 & Hpre2 & Hb). cbn [mbind outcome_bind].
    assert (HW : writing N s0 tot (r2, w2)).
    { split; cbn [fst snd]; rewrite ?Hp2', ?Hp1; try done; try congruence; [|by etrans]. rewrite app_assoc, Hw2, <- app_assoc, HE. done. }
    destruct b; [left|right]; eexists; (split; [reflexivity|]).
    + destruct Hb as [Hb1 Hb2]. split; [split; [done|by left]|]. unfold left_over. cbn [fst]. rewrite Hb2, Z.eqb_refl, Hp2', Hp1, Ep, length_app.
      destruct t1 as [|x t1]; cbn [length]; [|destruct (_ =? _); lia]. cbn in Hroom. assert (encodable c) as Hc by by apply Forall_cons in Hp2 as [? _]. pose proof (encode_length c Hc).
      rewrite (proj2 (Z.eqb_neq (v_n1 r) buffer_size)) by (rewrite buffer_size_eq; lia). lia.
    + destruct Hb as [Hb1 Hb2]. split; [done|]. split; [done|]. exists c, t'. split; [by rewrite <- Hp1|]. cbn [fst]. lia.
Qed.

Lemma write_chars_ok fuel N tot s : filled s.1 → proper (v_p0 s.1) → (length (v_p0 s.1) <= N)%nat → may_go s.1 →
  written s.2 ++ unsent s.1 ++ bytes_of (v_p0 s.1) = tot → (2 * N + 1 < fuel)%nat → ∃ q, write_chars fuel s = Ok q ∧ wrote N s tot q.
Proof.
  intros Hf Hp Hl Hgo Ht Hfu. unfold write_chars. apply (loop_ind convert (λ s', writing N s tot s' ∧ may_go s'.1) (wrote N s tot) left_over).
  - intros s1 [Hw Hg]. split; [unfold left_over; destruct (_ =? _); lia|]. by apply convert_ok.
  - by split.
  - unfold left_over. destruct (_ =? _); lia.
Qed.

(** ** The steps of [f__resume] *)

(** The characters that are not converted, with those to come. *)
Definition to_come (r : t_writer) : text :=
  (if v_value r then v_p0 r else []) ++ match v_step r with 4 => [newline] | 3 => v_p0 r | _ => [] end%nat.

Definition total (s : state) : list Z := written s.2 ++ unsent s.1 ++ bytes_of (to_come s.1).

(** Where a call stops. *)
Record stopped (N : nat) (s0 : state) (tot : list Z) (s : state) : Prop := {
  st_filled : filled s.1;
  st_proper : proper (v_p0 s.1);
  st_length : (length (v_p0 s.1) <= N)%nat;
  st_total : total s = tot;
  st_prefix : written s0.2 `prefix_of` written s.2;
}.

(** What there is to resume: nothing, or characters without or with a flush, or
    a flush. *)
Definition waits (f : option bool) (r : t_writer) : Prop :=
  match f with
  | None => v_remain r = None ∧ v_value r = false ∧ v_step r = 0%nat
  | Some f => v_remain r ≠ None ∧
    (v_value r = true ∧ stuck r ∧ v_step r = (if f then 4 else 0)%nat ∨
     v_value r = false ∧ f = true ∧ (v_step r = 3%nat ∧ stuck r ∨ v_step r = 1%nat))
  end.

(** How a call ends that flushes or not. *)
Definition ends (N : nat) (s0 : state) (tot : list Z) (f : bool) (res : bool * state) : Prop :=
  let '(b, s) := res in
  stopped N s0 tot s ∧ if (b : bool) then waits None s.1 ∧ (f = true → written s.2 = tot) else waits (Some f) s.1.

Lemma ends_prefix N s0 s1 tot f q : written s0.2 `prefix_of` written s1.2 → ends N s1 tot f q → ends N s0 tot f q.
Proof. destruct q as [b s]. intros Hp [[] Hb]. split; [|done]. split; try done. by etrans. Qed.

Lemma filled_same r r' : filled r → v_buffer r' = v_buffer r → v_p1 r' = v_p1 r → v_n1 r' = v_n1 r → v_remain r' = v_remain r → filled r'.
Proof. intros [] E1 E2 E3 E4. split; by rewrite ?E1, ?E2, ?E3, ?E4. Qed.

Lemma unsent_empty r : filled r → v_remain r = None → v_n1 r = buffer_size → unsent r = [].
Proof.
  intros Hf Hr Hn. pose proof (fl_sum r Hf). unfold unsent. rewrite Hr. assert (v_p1 r = 0) as -> by lia. done.
Qed.

Lemma total_no_chars s : v_value s.1 = false → (v_step s.1 = 0 ∨ v_step s.1 = 1 ∨ v_step s.1 = 2)%nat → total s = written s.2 ++ unsent s.1.
Proof. intros Hv Hs. unfold total, to_come. rewrite Hv. destruct Hs as [->|[->| ->]]; cbn; by rewrite app_nil_r. Qed.

(** The texts that are written, and the fuel. *)
Context (N fuel : nat) (HN : (1 <= N)%nat) (Hfuel : (2 * N + 1 < fuel)%nat) (Hnewline : encodable newline).

(** A state in which a step begins. *)
Record begins (k : nat) (s : state) : Prop := {
  bg_filled : filled s.1;
  bg_proper : proper (v_p0 s.1);
  bg_length : (length (v_p0 s.1) <= N)%nat;
  bg_value : v_value s.1 = false;
  bg_step : v_step s.1 = k;
}.

Lemma begins_step k s j : begins k s → begins j (set_v_step j s.1, s.2).
Proof. intros []. split; try done. by apply (filled_same s.1). Qed.

Lemma resume_1 s : begins 1 s → ∃ q, resume_steps fuel 1 s = Ok q ∧ ends N s (total s) true q.
Proof.
  destruct s as [r w]. intros [Hf Hp Hl Hv Hs]. cbn [fst snd] in *. cbn [resume_steps resume_step].
  destruct (write_buffer_ok r w Hf) as (b & r2 & w2 & -> & Hf2 & Hp2 & Hv2 & Hs2 & Hw2 & Hpre & Hb). cbn [mbind outcome_bind].
  assert (HT : total (r, w) = written w2 ++ unsent r2) by (rewrite Hw2; apply total_no_chars; cbn [fst]; auto). rewrite HT.
  destruct b; destruct Hb as [Hb1 Hb2]; eexists; (split; [reflexivity|]); split.
  - split; cbn [fst snd set_v_step v_p0]; rewrite ?Hp2; try done; [by apply (filled_same r2)|].
    rewrite total_no_chars by (cbn; rewrite ?Hv2; auto). done.
  - cbn [fst snd]. split; [split_and!; [done|cbn; congruence|done]|]. intros _. by rewrite (unsent_empty r2), app_nil_r.
  - split; cbn [fst snd]; rewrite ?Hp2; try done. rewrite total_no_chars by (cbn; rewrite ?Hv2, ?Hs2; auto). done.
  - cbn [fst]. split; [done|]. right. split_and!; [congruence|done|]. right. by rewrite Hs2.
Qed.

Lemma resume_2 s : begins 2 s → ∃ q, resume_steps fuel 2 s = Ok q ∧ ends N s (total s) true q.
Proof.
  intros Hs. pose proof (begins_step 2 s 1 Hs) as Hs1. destruct (resume_1 _ Hs1) as (q & E & Hq). exists q. split; [exact E|].
  rewrite total_no_chars in Hq by (rewrite ?(bg_value _ _ Hs1), ?(bg_step _ _ Hs1); auto).
  rewrite total_no_chars by (rewrite ?(bg_value _ _ Hs), ?(bg_step _ _ Hs); auto). by apply (ends_prefix _ s) in Hq.
Qed.

Lemma resume_3 s : begins 3 s → may_go s.1 → ∃ q, resume_steps fuel 3 s = Ok q ∧ ends N s (total s) true q.
Proof.
  intros [Hf Hp Hl Hv Hs] Hgo. assert (HT : total s = written s.2 ++ unsent s.1 ++ bytes_of (v_p0 s.1)) by (unfold total, to_come; by rewrite Hv, Hs).
  cbn [resume_steps resume_step]. destruct (write_chars_ok fuel N (total s) s Hf Hp Hl Hgo) as ([b s1] & -> & Hw & Hb); [done|lia|]. cbn [mbind outcome_bind].
  destruct Hw as [Hf1 Hp1 Hl1 Hv1 Hs1 Ht1 Hpre]. destruct b; destruct Hb as [Hb1 Hb2].
  - assert (HB : begins 2 (set_v_step 2 s1.1, s1.2)) by (split; try done; [by apply (filled_same s1.1)|cbn; congruence]).
    destruct (resume_2 _ HB) as (q & E & Hq). exists q. split; [exact E|]. apply (ends_prefix _ s) in Hq; [|done].
    rewrite total_no_chars in Hq by (rewrite ?(bg_value _ _ HB), ?(bg_step _ _ HB); auto). rewrite <- Ht1, Hb1. cbn [bytes_of map concat]. by rewrite app_nil_r.
  - eexists. split; [reflexivity|]. split.
    + split; try done. rewrite <- Ht1. unfold total, to_come. by rewrite Hv1, Hv, Hs1, Hs.
    + split; [done|]. right. split_and!; [congruence|done|left; split; [congruence|done]].
Qed.

Lemma resume_4 s : begins 4 s → v_remain s.1 = None → ∃ q, resume_steps fuel 4 s = Ok q ∧ ends N s (total s) true q.
Proof.
  intros Hs Hr. assert (HB : begins 3 (set_v_step 3 (set_v_p0 [newline] s.1), s.2)).
  { destruct Hs as [Hf Hp Hl Hv Hs]. split; try done; [by apply (filled_same s.1)|by apply Forall_singleton]. }
  destruct (resume_3 _ HB) as (q & E & Hq); [by left|]. exists q. split; [exact E|]. 
  assert (HE : total (set_v_step 3 (set_v_p0 [newline] s.1), s.2) = total s).
  { unfold total, to_come. cbn [fst snd set_v_step set_v_p0 v_value v_step v_p0]. rewrite (bg_value _ _ Hs), (bg_step _ _ Hs). done. }
  rewrite <- HE. by apply (ends_prefix _ s) in Hq.
Qed.

(** ** The methods *)

(** What every state between calls has. *)
Record steady (s : state) : Prop := {
  sy_filled : filled s.1;
  sy_proper : proper (v_p0 s.1);
  sy_length : (length (v_p0 s.1) <= N)%nat;
}.

Lemma steady_begins k s : steady s → v_value s.1 = false → v_step s.1 = k → begins k s.
Proof. intros []. by split. Qed.

Lemma f__resume_ok f s : steady s → waits (Some f) s.1 → ∃ q, f__resume fuel s = Ok q ∧ ends N s (total s) f q.
Proof.
  intros Hs [Hr [(Hv & Hst & Hp)|(Hv & -> & [[Hp Hst]|Hp])]]; unfold f__resume; rewrite Hv; [|rewrite Hp..].
  - destruct (write_chars_ok fuel N _ s (sy_filled _ Hs) (sy_proper _ Hs) (sy_length _ Hs) (or_intror Hst) eq_refl ltac:(lia)) as ([b s1] & -> & [Hf1 Hp1 Hl1 Hv1 Hs1 Ht1 Hpre] & Hb).
    assert (HT : total s = (written s.2 ++ unsent s.1 ++ bytes_of (v_p0 s.1)) ++ bytes_of (if f then [newline] else [])).
    { unfold total, to_come. rewrite Hv, Hp, bytes_of_app, <- !app_assoc. by destruct f. }
    rewrite HT, <- Ht1. cbn [mbind outcome_bind]. destruct b; destruct Hb as [Hb1 Hb2].
    + assert (HE : total (set_v_value false s1.1, s1.2) = (written s1.2 ++ unsent s1.1 ++ bytes_of (v_p0 s1.1)) ++ bytes_of (if f then [newline] else [])).
      { unfold total, to_come. cbn [fst snd set_v_value v_value v_step v_p0]. rewrite Hs1, Hp, Hb1, app_nil_r, <- app_assoc. by destruct f. }
      rewrite <- HE, Hs1, Hp. destruct f.
      * destruct (resume_4 (set_v_value false s1.1, s1.2)) as (q & E & Hq); [|done|exists q; split; [exact E|by apply (ends_prefix _ s) in Hq]].
        split; try done; [by apply (filled_same s1.1)|cbn; congruence].
      * eexists. split; [reflexivity|]. split; [split; try done; by apply (filled_same s1.1)|]. split; [|done]. split_and!; [done|done|cbn; congruence].
    + eexists. split; [reflexivity|]. split.
      * split; try done. unfold total, to_come. rewrite Hv1, Hv, Hs1, Hp, bytes_of_app, <- !app_assoc. by destruct f.
      * split; [done|]. left. split_and!; [congruence|done|congruence].
  - apply resume_3; [by apply steady_begins|by right].
  - apply resume_1. by apply steady_begins.
Qed.

Lemma f__write_ok t s : steady s → waits None s.1 → proper t → (length t <= N)%nat →
  ∃ b s', f__write fuel t s = Ok (Some b, s') ∧ ends N s (total s ++ bytes_of t) false (b, s').
Proof.
  intros Hs (Hr & Hv & Hp) Ht Hl. unfold f__write. rewrite Hr.
  destruct (write_chars_ok fuel N (total s ++ bytes_of t) (set_v_p0 t s.1, s.2)) as ([b s1] & -> & [Hf1 Hp1 Hl1 Hv1 Hs1 Ht1 Hpre] & Hb); cbn [fst snd set_v_p0 v_p0] in *; try done.
  - apply (filled_same s.1); [apply Hs|done..].
  - by left.
  - rewrite total_no_chars by auto. by rewrite <- app_assoc.
  - change (v_value s1.1 = v_value s.1) in Hv1. change (v_step s1.1 = v_step s.1) in Hs1. rewrite Hv in Hv1. rewrite Hp in Hs1.
    cbn [mbind outcome_bind]. destruct b; destruct Hb as [Hb1 Hb2]; eexists _, _; (split; [reflexivity|]); split.
    + split; try done. rewrite <- Ht1, Hb1. rewrite total_no_chars by auto. cbn [bytes_of map concat]. by rewrite app_nil_r.
    + split; [|done]. split_and!; [done|cbn in *; congruence..].
    + split; try done; [by apply (filled_same s1.1)|]. rewrite <- Ht1. unfold total, to_come. cbn [fst snd set_v_value v_value v_step v_p0].
      rewrite Hs1. by rewrite app_nil_r.
    + split; [done|]. left. split_and!; [done|done|cbn in *; congruence].
Qed.

(** The promise of a state. *)
Record serving (a : promise) (s : state) : Prop := {
  sv_steady : steady s;
  sv_total : total s = bytes_of (given a);
  sv_output : output a = written s.2;
  sv_waits : waits (busy a) s.1;
}.

Lemma ends_serving a s g f b s' : serving a s → ends N s (bytes_of g) f (b, s') →
  serving (Promise g (written s'.2) (if b then None else Some f)) s' ∧ goes_on a g (written s'.2) (b && f).
Proof.
  intros [Hs Ht Ho Hw] [[Hf Hp Hl Ht' [bs Hpre]] Hb]. split.
  - split; [by split|done|done|]. cbn [busy]. destruct b; [by destruct Hb|done].
  - split_and!; [exists bs; by rewrite Ho|eexists; rewrite <- Ht'; reflexivity|]. intros [-> ->]%andb_true_iff. by apply Hb.
Qed.

(** The texts can be encoded. *)
Definition proper_call (c : call) : Prop :=
  match c with Write t | WriteLine t => proper t ∧ (length t <= N)%nat | _ => True end.

Lemma f__resume_steps k s : v_value s.1 = false → f__resume fuel (set_v_step k s.1, s.2) = resume_steps fuel k (set_v_step k s.1, s.2).
Proof. intros Hv. unfold f__resume. change (v_value (set_v_step k s.1, s.2).1) with (v_value s.1). by rewrite Hv. Qed.

(** The end of [write_line], after the text. *)
Lemma write_line_end s s1 b g : ends N s (bytes_of g) false (b, s1) →
  ∃ b' s2, (if b then answered (f__resume fuel (set_v_step 4 s1.1, s1.2)) else Ok (Some false, (set_v_step 4 s1.1, s1.2))) = Ok (Some b', s2) ∧
    ends N s (bytes_of (g ++ [newline])) true (b', s2).
Proof.
  intros [[Hf Hp Hl Ht Hpre] Hb]. rewrite bytes_of_app, <- Ht. destruct b.
  - destruct Hb as [(Hr & Hv & Hst) _]. rewrite f__resume_steps by done.
    destruct (resume_4 (set_v_step 4 s1.1, s1.2)) as ([b' s2] & E & Hq); [split; try done; by apply (filled_same s1.1)|done|].
    exists b', s2. rewrite E. split; [done|]. apply (ends_prefix _ s) in Hq; [|done].
    rewrite (total_no_chars s1) by auto. rewrite <- app_assoc. unfold total, to_come in Hq. cbn [fst snd set_v_step v_value v_step] in Hq. by rewrite Hv in Hq.
  - eexists _, _. split; [reflexivity|]. destruct Hb as [Hr [(Hv & Hs & Hst)|(_ & ? & _)]]; [|done]. split; [|split; [done|left; by split_and!]].
    split; try done; [by apply (filled_same s1.1)|]. unfold total, to_come. cbn [fst snd set_v_step v_value v_step v_p0]. rewrite Hv, Hst, !bytes_of_app, <- !app_assoc. done.
Qed.

Lemma flush_ok s : steady s → waits None s.1 →
  ∃ b s', answered (f__resume fuel (set_v_step 2 s.1, s.2)) = Ok (Some b, s') ∧ ends N s (total s) true (b, s').
Proof.
  intros Hs (Hr & Hv & Hst). rewrite f__resume_steps by done.
  destruct (resume_2 (set_v_step 2 s.1, s.2)) as ([b s'] & E & Hq); [destruct Hs; split; try done; by apply (filled_same s.1)|].
  rewrite E. exists b, s'. split; [done|]. apply (ends_prefix _ s) in Hq; [|done].
  rewrite total_no_chars in Hq by (cbn; auto). by rewrite total_no_chars by auto.
Qed.

Lemma writer_run_ok a s c : serving a s → proper_call c →
  ∃ r s' a', run fuel s c = Ok (r, s') ∧ serves a c r a' ∧ serving a' s'.
Proof.
  intros Hs Hc. assert (Hs' := Hs). destruct Hs' as [Hst Ht Ho Hw]. destruct (busy a) as [f|] eqn:Eb.
  { destruct (decide (c = Resume)) as [->|Hn].
    - destruct (f__resume_ok f s Hst Hw) as ([b s'] & E & Hq). rewrite Ht in Hq. destruct (ends_serving a s (given a) f b s' Hs Hq) as [H1' H2].
      cbn [run]. rewrite E. eexists _, _, _. split; [reflexivity|]. split; [|exact H1']. destruct b; [by apply (serves_rest a f)|by apply (serves_less a f)].
    - exists None, s, a. split; [|by split; [apply (serves_refuse a f)|]]. destruct Hw as [Hr _]. destruct (v_remain s.1) eqn:Er; [|done].
      destruct c; cbn [run]; unfold f_write_line, f_flush, f__write; rewrite ?Er; done. }
  assert (HT : ∀ t, total s ++ bytes_of t = bytes_of (given a ++ t)) by (intros t; by rewrite Ht, bytes_of_app).
  assert (HW := Hw). destruct HW as (Hr & Hv & Hp). destruct c as [t|t| |]; cbn [run proper_call] in *.
  - destruct Hc as [Hc Hl]. destruct (f__write_ok t s Hst Hw Hc Hl) as (b & s' & -> & Hq). rewrite HT in Hq. destruct (ends_serving a s _ _ b s' Hs Hq) as [H1' H2].
    eexists _, _, _. split; [reflexivity|]. split; [|exact H1']. destruct b; [by apply serves_start|by apply serves_partly].
  - destruct Hc as [Hc Hl]. destruct (f__write_ok t s Hst Hw Hc Hl) as (b & s' & E & Hq). unfold f_write_line. rewrite E. cbn [mbind outcome_bind].
    rewrite HT in Hq. destruct (write_line_end s s' b (given a ++ t) Hq) as (b2 & s2 & -> & Hq2). rewrite <- app_assoc in Hq2.
    destruct (ends_serving a s _ _ b2 s2 Hs Hq2) as [H1' H2]. rewrite andb_comm in H2. eexists _, _, _. split; [reflexivity|]. split; [|exact H1'].
    destruct b2; [by apply serves_start|by apply serves_partly].
  - destruct (flush_ok s Hst Hw) as (b & s' & E & Hq). rewrite Ht in Hq. destruct (ends_serving a s _ _ b s' Hs Hq) as [H1' H2]. rewrite andb_comm in H2.
    unfold f_flush. rewrite Hr, E. eexists _, _, _. split; [reflexivity|]. split; [|exact H1'].
    destruct b; [apply serves_start|apply serves_partly]; cbn [text_of]; rewrite ?app_nil_r; done.
  - exists (Some true), s, a. split; [unfold f__resume; rewrite Hv, Hp; by destruct s|]. split; [by apply serves_nothing|done].
Qed.

Lemma writer_runs_ok calls : ∀ a s, serving a s → Forall proper_call calls →
  ∃ l s' a', runs fuel s calls = Ok (l, s') ∧ served a calls l a' ∧ serving a' s'.
Proof.
  induction calls as [|c calls IH]; intros a s Hs Hc; cbn [runs].
  - exists [], s, a. split_and!; try done. constructor.
  - apply Forall_cons in Hc as [Hc Hcs]. destruct (writer_run_ok a s c Hs Hc) as (r & s1 & a1 & -> & Hr & Hs1). cbn [mbind outcome_bind].
    destruct (IH a1 s1 Hs1 Hcs) as (l & s2 & a2 & -> & Hl & Hs2). cbn [mbind outcome_bind]. eexists _, _, _. split; [reflexivity|]. split; [|done]. by apply (served_cons _ _ _ a1).
Qed.

Lemma new_serving garbage w : written w = [] → serving (Promise [] [] None) (new_writer garbage, w).
Proof.
  intros Hw. split; cbn [given output busy fst snd].
  - split; [apply new_filled|by apply Forall_nil|cbn; lia].
  - unfold total. cbn [fst snd]. by rewrite Hw.
  - done.
  - done.
Qed.
End Writer.

(** C31 (writers_write_the_text): whatever a program calls, with texts that the
    encoding has characters for ([proper_call]; other texts throw in the middle
    of them, io__writer.cc), and however little the callable takes each time, a writer refuses to go on only when it has to be
    resumed; the bytes it gives to the callable are those of the texts it
    accepted, in order, none lost or repeated; and a call that flushes is done
    only when all of them are written, newlines of [write_line] included. *)
Theorem writers_write_the_text `{Sink W, Encoding, !∀ c, Decision (encodable c)}
  (garbage : Z → Z) (w : W) (calls : list call) (N fuel : nat) :
  encodable newline → written w = [] → (1 <= N)%nat → Forall (proper_call N) calls → (2 * N + 1 < fuel)%nat →
  ∃ l r w' a, runs fuel (new_writer garbage, w) calls = Ok (l, (r, w')) ∧ served (Promise [] [] None) calls l a ∧
    written w' = output a ∧ (is_Some (v_remain r) ↔ is_Some (busy a)).
Proof.
  intros Hn Hw HN Hc Hf. destruct (writer_runs_ok N fuel HN Hf Hn calls (Promise [] [] None) (new_writer garbage, w)) as (l & [r w'] & a & E & Ha & [_ _ Ho Hb]); [by eapply new_serving|done|].
  exists l, r, w', a. split_and!; [done..|]. cbn [fst] in Hb. destruct (busy a); cbn in Hb; destruct Hb as [Hb _].
  - split; intros _; [by eexists|]. destruct (v_remain r); [by eexists|done].
  - rewrite Hb. by split; intros [? ?].
Qed.

(** ** A callable *)

(** A callable that takes only so many bytes at a time, at first. *)
Definition take_some (w : list nat * list Z) (buffer : list Z) (off size : Z) : outcome (Z * (list nat * list Z)) :=
  let n := Nat.min (default (Z.to_nat size) (head w.1)) (Z.to_nat size) in
  Ok (Z.of_nat n, (tail w.1, w.2 ++ take n (drop (Z.to_nat off) buffer))).

#[export] Program Instance takes : Sink (list nat * list Z) := {| v_write := take_some; written w := w.2 |}.
Next Obligation.
  intros [l out] buffer off size Ho Hs Hl. eexists _, _. split; [reflexivity|]. split; [lia|]. by rewrite Nat2Z.id.
Qed.

#[export] Instance utf8_encodable c : Decision (encodable c).
Proof. unfold encodable, utf8. apply _. Defined.

Definition some_writes : list call := [Write [72; 233]; WriteLine [8364]; Write [33]; Resume; Resume; Flush; Write [33]; Resume].

Lemma writers_write_the_text_witness :
  ∃ l r w' a, runs 20 (new_writer (λ _, 0), ([2; 0; 3]%nat, [])) some_writes = Ok (l, (r, w')) ∧ served (Promise [] [] None) some_writes l a ∧
    written w' = output a ∧ (is_Some (v_remain r) ↔ is_Some (busy a)).
Proof.
  apply (writers_write_the_text (λ _, 0) ([2; 0; 3]%nat, []) some_writes 5 20).
  - split; vm_compute; congruence.
  - reflexivity.
  - lia.
  - repeat constructor; cbn; lia.
  - lia.
Defined.

(** Calls are refused until the writer has been resumed. *)
Example some_answers :
  (runs 20 (new_writer (λ _, 0), ([2; 0; 3]%nat, [])) some_writes) ≫= (λ r, Ok (r.1, r.2.2.2)) =
  Ok ([Some true; Some false; None; Some false; Some false; None; None; Some true], [72; 195; 169; 226; 130; 172; 10]).
Proof. vm_compute. reflexivity. Qed.
