(* ===== verification/Sharable.v ===== *)
(** * Ownership of shared values (src: include/xemmai/sharable.h,
    src/sharable.cc, include/xemmai/engine.h)

    A value belongs to a thread, which uses it without a lock, or is shared,
    and then used under a lock that many readers or one writer can have.  The
    steps of threads on one value are interleaved: every read of [v_owner],
    every locking and every unlocking is a step.  What runs under the lock may
    call the script (the methods of the keys of a map, the callables of readers
    and writers), and that may use, own or share the value again: a thread has
    a stack of what it is in. *)
From stdpp Require Import base gmap sets list strings functions.
From S2P Require Import Prelude.
Local Open Scope nat_scope.

Abbreviation thread := nat.

(** [std::shared_lock] and [std::lock_guard], with and without safe regions. *)
Inductive T_lock := Shared | Exclusive.

#[export] Instance T_lock_dec : EqDecision T_lock.
Proof. solve_decision. Defined.

(** Where a thread is in [f_owned_or_shared], [f_own] or [f_share]. *)
Inductive phase :=
| Unowned (k : T_lock)               (* f_owned() was false *)
| Waiting (k : T_lock)               (* f_shared() was true: T_lock lock(v_mutex) *)
| Locked (k : T_lock)                (* before the second test of f_shared() *)
| Running (k : T_lock) (locked : bool) (* a_do() *)
| Owning_waits
| Owning                             (* f_own with the lock *)
| Sharing_waits
| Sharing.                           (* f_share with the lock *)

(** The value: its owner and its [std::shared_mutex]; and the threads, with the
    innermost call first. *)
Record state := State {
  v_owner : option thread;
  writer : option thread;
  readers : gset thread;
  frames : thread → list phase;
}.

(** A new value belongs to the thread that made it. *)
Definition new_value (t : thread) : state := State (Some t) None ∅ (λ _, []).

Inductive action := Use (k : T_lock) | Own | Share | Proceed.

Definition set_frames (t : thread) (fs : list phase) (s : state) : state := State (v_owner s) (writer s) (readers s) (<[t := fs]> (frames s)).

Definition set_owner (o : option thread) (s : state) : state := State o (writer s) (readers s) (frames s).

(** What a step raises. *)
Abbreviation event := (option string).

(** A step of a thread: a lock that is not available blocks it; locking a
    [std::shared_mutex] that the thread has already is undefined. *)
Inductive result := Blocked | Undefined | Steps (s : state) (e : event).

Definition quiet (s : state) : result := Steps s None.
Definition raise (e : string) (s : state) : result := Steps s (Some e).

(** [T_lock lock(v_mutex)], and what follows. *)
Definition lock (k : T_lock) (t : thread) (s : state) (next : state → result) : result :=
  if decide (writer s = Some t ∨ t ∈ readers s) then Undefined else
  match k, writer s with
  | _, Some _ => Blocked
  | Shared, None => next (State (v_owner s) None ({[t]} ∪ readers s) (frames s))
  | Exclusive, None => if decide (readers s = ∅) then next (State (v_owner s) (Some t) ∅ (frames s)) else Blocked
  end.

Definition unlock (k : T_lock) (t : thread) (s : state) : state :=
  match k with
  | Shared => State (v_owner s) (writer s) (readers s ∖ {[t]}) (frames s)
  | Exclusive => State (v_owner s) None (readers s) (frames s)
  end.

Definition not_owned : string := "not owned.".
Definition already_owned : string := "already owned.".
Definition owned_by_another : string := "owned by another thread.".

(** A call. *)
Definition push (t : thread) (p : phase) (s : state) : state := set_frames t (p :: frames s t) s.

(** [f_owned_or_shared] begins. *)
Definition use (k : T_lock) (t : thread) (s : state) : result :=
  if decide (v_owner s = Some t) then quiet (push t (Running k false) s) else quiet (push t (Unowned k) s).

(** [f_own] begins. *)
Definition f_own (t : thread) (s : state) : result := quiet (push t Owning_waits s).

(** [f_share] begins. *)
Definition f_share (t : thread) (s : state) : result :=
  if decide (v_owner s = Some t) then quiet (push t Sharing_waits s) else raise not_owned s.

(** The next step of the innermost call of a thread; an exception ends it. *)
Definition proceed (t : thread) (s : state) : result :=
  match frames s t with
  | [] => Blocked
  | p :: fs =>
    match p with
    | Unowned k =>
      match v_owner s with
      | None => quiet (set_frames t (Waiting k :: fs) s)
      | Some _ => raise owned_by_another (set_frames t fs s)
      end
    | Waiting k => lock k t s (λ s, quiet (set_frames t (Locked k :: fs) s))
    | Locked k =>
      match v_owner s with
      | None => quiet (set_frames t (Running k true :: fs) s)
      | Some _ => raise owned_by_another (set_frames t fs (unlock k t s))
      end
    | Running k locked => quiet (set_frames t fs (if locked then unlock k t s else s))
    | Owning_waits => lock Exclusive t s (λ s, quiet (set_frames t (Owning :: fs) s))
    | Owning =>
      match v_owner s with
      | Some _ => raise already_owned (set_frames t fs (unlock Exclusive t s))
      | None => quiet (set_frames t fs (unlock Exclusive t (set_owner (Some t) s)))
      end
    | Sharing_waits => lock Exclusive t s (λ s, quiet (set_frames t (Sharing :: fs) s))
    | Sharing => quiet (set_frames t fs (unlock Exclusive t (set_owner None s)))
    end
  end.

(** A thread calls a method when it is in none, or in the [a_do] of one. *)
Definition calls (fs : list phase) : bool :=
  match fs with [] | Running _ _ :: _ => true | _ => false end.

Definition step (s : state) (ta : thread * action) : result :=
  let '(t, a) := ta in
  match a with
  | Proceed => proceed t s
  | Use k => if calls (frames s t) then use k t s else Blocked
  | Own => if calls (frames s t) then f_own t s else Blocked
  | Share => if calls (frames s t) then f_share t s else Blocked
  end.

(** A schedule. *)
Fixpoint steps_to (s : state) (tas : list (thread * action)) : option state :=
  match tas with [] => Some s | ta :: tas => match step s ta with Steps s _ => steps_to s tas | _ => None end end.

(** No thread shares the value while it is using it. *)
Definition disciplined (s : state) (ta : thread * action) : Prop := ta.2 = Share → frames s ta.1 = [].

Inductive reachable (t0 : thread) : state → Prop :=
| reachable_new : reachable t0 (new_value t0)
| reachable_step s ta s' e : reachable t0 s → disciplined s ta → step s ta = Steps s' e → reachable t0 s'.

(** ** The invariant *)

(** The lock that a thread has in a phase. *)
Definition holds (p : phase) : option T_lock :=
  match p with
  | Locked k | Running k true => Some k
  | Owning | Sharing => Some Exclusive
  | _ => None
  end.

Fixpoint held (fs : list phase) : option T_lock :=
  match fs with [] => None | p :: fs => match holds p with Some k => Some k | None => held fs end end.

(** What a phase knows of the owner. *)
Definition knows (t : thread) (p : phase) (o : option thread) : Prop :=
  match p with
  | Running _ false | Sharing_waits | Sharing => o = Some t
  | Running _ true => o = None
  | _ => True
  end.

(** The calls below the innermost one run [a_do], and one of all has the lock;
    sharing is not called from another call. *)
Fixpoint nested (fs : list phase) : Prop :=
  match fs with
  | [] => True
  | p :: fs =>
    Forall (λ p, ∃ k b, p = Running k b) fs ∧ (holds p ≠ None → held fs = None)
    ∧ (p = Sharing_waits ∨ p = Sharing → fs = []) ∧ nested fs
  end.

Record consistent (s : state) : Prop := {
  c_writer t : writer s = Some t ↔ held (frames s t) = Some Exclusive;
  c_readers t : t ∈ readers s ↔ held (frames s t) = Some Shared;
  c_exclusive : writer s ≠ None → readers s = ∅;
  c_knows t p : p ∈ frames s t → knows t p (v_owner s);
  c_nested t : nested (frames s t);
}.

Lemma consistent_new t : consistent (new_value t).
Proof. split; cbn; try done; set_solver. Qed.

Lemma at_same t fs s : frames (set_frames t fs s) t = fs.
Proof. cbn. apply fn_lookup_insert. Qed.

Lemma at_other t u fs s : u ≠ t → frames (set_frames t fs s) u = frames s u.
Proof. intros H. cbn. by apply fn_lookup_insert_ne. Qed.

(** What changes in a step of a thread: its calls, the owner, the lock. *)
Lemma consistent_set (o : option thread) (w : option thread) (r : gset thread) t fs s :
  consistent s →
  (w = Some t ↔ held fs = Some Exclusive) → (t ∈ r ↔ held fs = Some Shared) →
  (∀ u, u ≠ t → (w = Some u ↔ writer s = Some u) ∧ (u ∈ r ↔ u ∈ readers s)) → (w ≠ None → r = ∅) →
  (∀ p, p ∈ fs → knows t p o) → (∀ u p, u ≠ t → p ∈ frames s u → knows u p o) → nested fs →
  consistent (State o w r (<[t := fs]> (frames s))).
Proof.
  intros [Hw Hr He Hk Hn] H1 H2 H3 H4 H5 H6 H7.
  assert (Hother : ∀ u, u ≠ t → (<[t := fs]> (frames s)) u = frames s u) by (intros u Hu; by apply fn_lookup_insert_ne).
  split; cbn [v_owner writer readers frames]; try done.
  - intros u. destruct (decide (u = t)) as [->|Hu]; [by rewrite fn_lookup_insert|].
    rewrite Hother, (proj1 (H3 u Hu)) by done. apply Hw.
  - intros u. destruct (decide (u = t)) as [->|Hu]; [by rewrite fn_lookup_insert|].
    rewrite Hother, (proj2 (H3 u Hu)) by done. apply Hr.
  - intros u p. destruct (decide (u = t)) as [->|Hu]; [rewrite fn_lookup_insert; apply H5|].
    rewrite Hother by done. by apply H6.
  - intros u. destruct (decide (u = t)) as [->|Hu]; [by rewrite fn_lookup_insert|]. rewrite Hother by done. apply Hn.
Qed.

Lemma consistent_frames t fs s :
  consistent s → held fs = held (frames s t) → (∀ p, p ∈ fs → knows t p (v_owner s)) → nested fs →
  consistent (set_frames t fs s).
Proof.
  intros Hs Hh Hk Hn. apply consistent_set; try done.
  - rewrite Hh. apply Hs.
  - rewrite Hh. apply Hs.
  - apply Hs.
  - intros u p _. apply Hs.
Qed.

Lemma consistent_lock k t s fs s' e :
  consistent s → held fs = Some k → (∀ p, p ∈ fs → knows t p (v_owner s)) → nested fs →
  lock k t s (λ s, quiet (set_frames t fs s)) = Steps s' e → consistent s' ∧ v_owner s' = v_owner s.
Proof.
  intros Hs Hh Hk Hn Hl. unfold lock in Hl. case_decide as Hu; [done|]. destruct (writer s) as [w|] eqn:Ew; [by destruct k|].
  destruct k; [|case_decide as Hr; [|done]]; injection Hl as <- <-; (split; [|done]);
    apply (consistent_set _ _ _ t fs s); rewrite ?Hh, ?Ew; cbn [writer readers frames v_owner]; try done; try set_solver; try (intros u p _; apply Hs).
Qed.

Lemma consistent_unlock k t s fs :
  consistent s → held (frames s t) = Some k → held fs = None → (∀ p, p ∈ fs → knows t p (v_owner s)) → nested fs →
  consistent (set_frames t fs (unlock k t s)).
Proof.
  intros Hs Hh Hf Hk Hn. pose proof (c_writer _ Hs t) as Hw. pose proof (c_readers _ Hs t) as Hr. rewrite Hh in Hw, Hr.
  pose proof (c_exclusive _ Hs) as He.
  destruct k; unfold set_frames; cbn [unlock v_owner writer readers frames]; apply (consistent_set _ _ _ t fs s); rewrite ?Hf; try done;
    try (intros u p _; apply Hs).
  - split; [|done]. by intros Ht%Hw.
  - set_solver.
  - intros u Hu. split; [done|set_solver].
  - intros Hn'. rewrite He by done. set_solver.
  - split; [|done]. by intros Ht%Hr.
  - intros u Hu. split; [|done]. split; [done|]. intros Hwu. rewrite (proj2 Hw eq_refl) in Hwu. congruence.
Qed.

(** Another thread that has the lock is in the way. *)
Lemma exclusive_alone s t u : consistent s → held (frames s t) = Some Exclusive → held (frames s u) ≠ None → u = t.
Proof.
  intros [Hw Hr He Hk] Ht Hu. apply Hw in Ht as Hwt. destruct (held (frames s u)) as [[]|] eqn:Eu; [|apply Hw in Eu; congruence|done].
  apply Hr in Eu. rewrite He in Eu by congruence. set_solver.
Qed.

Lemma held_in p fs : p ∈ fs → holds p ≠ None → held fs ≠ None.
Proof.
  induction fs as [|q fs IH]; [by intros ?%not_elem_of_nil|]. cbn. intros [->|Hp]%elem_of_cons Hh; [by destruct (holds q)|].
  destruct (holds q); [done|]. by apply IH.
Qed.

(** Changing the owner under the lock. *)
Lemma consistent_owner o t s fs :
  consistent s → held (frames s t) = Some Exclusive → held fs = None → (∀ p, p ∈ fs → knows t p o) → nested fs →
  (∀ u p, u ≠ t → p ∈ frames s u → knows u p (v_owner s) → holds p = None → knows u p o) →
  consistent (set_frames t fs (unlock Exclusive t (set_owner o s))).
Proof.
  intros Hs Hh Hf Hk Hn Ho. pose proof (c_writer _ Hs t) as Hw. pose proof (c_readers _ Hs t) as Hr. rewrite Hh in Hw, Hr.
  unfold set_frames. cbn [unlock set_owner v_owner writer readers frames].
  apply (consistent_set _ _ _ t fs s); rewrite ?Hf; try done.
  - split; [|done]. by intros Ht%Hr.
  - intros u Hu. split; [|done]. split; [done|]. intros Hwu. rewrite (proj2 Hw eq_refl) in Hwu. congruence.
  - intros u p Hu Hp. apply Ho; [done|done|by apply (c_knows _ Hs)|]. destruct (holds p) eqn:E; [|done].
    destruct Hu. apply (exclusive_alone s t u Hs Hh). eapply held_in; [done|by rewrite E].
Qed.

(** A call from inside of [a_do]. *)
Lemma nested_push p fs : calls fs = true → nested fs → holds p = None → (p = Sharing_waits ∨ p = Sharing → fs = []) → nested (p :: fs).
Proof.
  intros Hc Hn Hh Hsh. split_and!; [|by rewrite Hh|done|done]. destruct fs as [|[| | |k b| | | |] fs]; try done. constructor; [by exists k, b|apply Hn].
Qed.

Lemma consistent_push s t p :
  consistent s → calls (frames s t) = true → holds p = None → knows t p (v_owner s) → (p = Sharing_waits ∨ p = Sharing → frames s t = []) →
  consistent (push t p s).
Proof.
  intros Hs Hc Hh Hk Hsh. apply consistent_frames; [done|cbn; by rewrite Hh| |by apply nested_push; [|apply Hs|..]].
  intros q [->|Hq]%elem_of_cons; [done|by apply (c_knows _ Hs)].
Qed.

Section Step.
Context (s : state) (t : thread) (p : phase) (fs : list phase).
Hypothesis Hs : consistent s.
Hypothesis Hf : frames s t = p :: fs.

Lemma top_nested : Forall (λ p, ∃ k b, p = Running k b) fs ∧ (holds p ≠ None → held fs = None)
  ∧ (p = Sharing_waits ∨ p = Sharing → fs = []) ∧ nested fs.
Proof. pose proof (c_nested _ Hs t) as Hn. by rewrite Hf in Hn. Qed.

Lemma rest_knows q : q ∈ fs → knows t q (v_owner s).
Proof. intros Hq. apply (c_knows _ Hs). rewrite Hf. by right. Qed.

Lemma top_knows : knows t p (v_owner s).
Proof. apply (c_knows _ Hs). rewrite Hf. by left. Qed.

Lemma top_held k : holds p = Some k → held (frames s t) = Some k ∧ held fs = None.
Proof. intros Hp. rewrite Hf. cbn. rewrite Hp. split; [done|]. apply top_nested. by rewrite Hp. Qed.

(** The innermost call goes on without the lock, or has it already. *)
Lemma replace_ok q : holds q = holds p → knows t q (v_owner s) → (q = Sharing_waits ∨ q = Sharing → fs = []) → consistent (set_frames t (q :: fs) s).
Proof.
  intros Hh Hk Hsh. destruct top_nested as (H1 & H2 & _ & H4). apply consistent_frames; [done|rewrite Hf; cbn; by rewrite Hh| |].
  - intros x [->|Hx]%elem_of_cons; [done|by apply rest_knows].
  - split_and!; [done|by rewrite Hh|done|done].
Qed.

Lemma leave_ok : holds p = None → consistent (set_frames t fs s).
Proof.
  intros Hh. apply consistent_frames; [done|rewrite Hf; cbn; by rewrite Hh|apply rest_knows|apply top_nested].
Qed.

Lemma pop_unlock_ok k : holds p = Some k → consistent (set_frames t fs (unlock k t s)).
Proof. intros [H1 H2]%top_held. apply consistent_unlock; [done|done|done|apply rest_knows|apply top_nested]. Qed.

(** The lock that the innermost call gets. *)
Lemma lock_ok k q s' e : holds q = Some k → holds p = None → knows t q (v_owner s) → (q = Sharing_waits ∨ q = Sharing → fs = []) →
  lock k t s (λ s, quiet (set_frames t (q :: fs) s)) = Steps s' e → consistent s' ∧ v_owner s' = v_owner s.
Proof.
  intros Hq Hp Hk Hsh Hl. destruct top_nested as (H1 & _ & _ & H4). apply (consistent_lock k t s (q :: fs) s' e); try done; [cbn; by rewrite Hq| |].
  - intros x [->|Hx]%elem_of_cons; [done|by apply rest_knows].
  - split_and!; [done| |done|done]. intros _. unfold lock in Hl. case_decide as Hu; [done|].
    assert (E : held (frames s t) = held fs) by (rewrite Hf; cbn; by rewrite Hp). rewrite <- E.
    destruct (held (frames s t)) as [[]|] eqn:Eh; [|apply (c_writer _ Hs) in Eh; tauto|done]. apply (c_readers _ Hs) in Eh. tauto.
Qed.

(** A thread that has no owner below has calls that hold the lock, and the other
    way round. *)
Lemma rest_owner q : q ∈ fs → held fs = None → v_owner s = Some t.
Proof.
  intros Hq Hh. destruct top_nested as (H1 & _). rewrite list.Forall_forall in H1. destruct (H1 q Hq) as (k & b & ->).
  apply rest_knows in Hq as Hk. destruct b; [|done]. destruct (held_in _ _ Hq); done.
Qed.
End Step.

Lemma proceed_consistent s t s' e : consistent s → proceed t s = Steps s' e → consistent s'.
Proof.
  intros Hs H. unfold proceed in H. destruct (frames s t) as [|p fs] eqn:Ef; [done|].
  pose proof (top_nested s t p fs Hs Ef) as (Hrun & Hone & Hsh & Hnest). pose proof (top_knows s t p fs Hs Ef) as Hk.
  destruct p as [k|k|k|k [|]| | | |]; unfold quiet, raise in H.
  - destruct (v_owner s); injection H as <- <-; [by eapply leave_ok|]. by eapply replace_ok; try done; intros [|].
  - eapply (lock_ok s t (Waiting k) fs Hs Ef k (Locked k)); try done. by intros [|].
  - destruct (v_owner s) eqn:Eo; injection H as <- <-; [by eapply pop_unlock_ok|]. eapply replace_ok; try done. by intros [|].
  - injection H as <- <-. by eapply pop_unlock_ok.
  - injection H as <- <-. by eapply leave_ok.
  - eapply (lock_ok s t Owning_waits fs Hs Ef Exclusive Owning); try done. by intros [|].
  - destruct (v_owner s) eqn:Eo; injection H as <- <-; [exact (pop_unlock_ok s t Owning fs Hs Ef Exclusive eq_refl)|].
    destruct (top_held s t _ _ Hs Ef Exclusive eq_refl) as [H1 H2]. apply consistent_owner; try done.
    + intros q Hq. pose proof (rest_owner s t _ _ Hs Ef q Hq H2). congruence.
    + intros u q Hu Hq Hkq Hn. rewrite Eo in Hkq. by destruct q as [| | |? [|]| | | |].
  - eapply (lock_ok s t Sharing_waits fs Hs Ef Exclusive Sharing); try done. intros _. apply Hsh. by left.
  - injection H as <- <-. destruct (top_held s t _ _ Hs Ef Exclusive eq_refl) as [H1 H2]. rewrite (Hsh (or_intror eq_refl)) in *.
    apply consistent_owner; try done.
    + by intros q ?%not_elem_of_nil.
    + intros u q Hu Hq Hkq Hn. cbn in Hk. rewrite Hk in Hkq. destruct q as [| | |? [|]| | | |]; cbn in *; congruence.
Qed.

Lemma step_consistent s ta s' e : consistent s → disciplined s ta → step s ta = Steps s' e → consistent s'.
Proof.
  intros Hs Hd H. destruct ta as [t a]. unfold step in H. destruct a as [k| | |]; [..|by eapply proceed_consistent];
    destruct (calls (frames s t)) eqn:Ec; try done; unfold use, f_own, f_share, quiet, raise in H.
  - case_decide; injection H as <- <-; apply consistent_push; try done; by intros [|].
  - injection H as <- <-. apply consistent_push; try done. by intros [|].
  - case_decide; injection H as <- <-; [|done]. apply consistent_push; try done. intros _. by apply Hd.
Qed.

Lemma reachable_consistent t0 s : reachable t0 s → consistent s.
Proof. induction 1 as [|s ta s' e _ IH Hd H]; [apply consistent_new|by apply (step_consistent s ta s' e)]. Qed.

(** ** Properties *)

(** A thread is using the value. *)
Definition uses (s : state) (t : thread) (k : T_lock) : Prop := ∃ locked, Running k locked ∈ frames s t.

(** A thread that waits for the lock. *)
Definition wants (fs : list phase) : option T_lock :=
  match fs with Waiting k :: _ => Some k | (Owning_waits | Sharing_waits) :: _ => Some Exclusive | _ => None end.

(** The lock that a thread has is that of the call that uses the value. *)
Lemma held_running t k s : consistent s → Running k true ∈ frames s t → held (frames s t) = Some k.
Proof.
  intros Hs. pose proof (c_nested _ Hs t) as Hn. induction (frames s t) as [|p fs IH]; [by intros ?%not_elem_of_nil|].
  destruct Hn as (_ & Hone & _ & Hn). intros [<-|Hp]%elem_of_cons; [done|]. cbn. specialize (IH Hn Hp). destruct (holds p); [|done].
  rewrite Hone in IH by done. done.
Qed.

Lemma using_alone s t u k l : consistent s → uses s t k → uses s u l → t ≠ u → k = Shared ∧ l = Shared ∧ v_owner s = None.
Proof.
  intros Hs [b Ht] [c Hu] Hn. pose proof (c_knows _ Hs t _ Ht) as Kt. pose proof (c_knows _ Hs u _ Hu) as Ku.
  destruct b, c; cbn in Kt, Ku; try congruence. apply (held_running t k s Hs) in Ht. apply (held_running u l s Hs) in Hu. split_and!; [| |done].
  - destruct k; [done|]. destruct Hn. symmetry. apply (exclusive_alone s t u Hs); [done|by rewrite Hu].
  - destruct l; [done|]. destruct Hn. apply (exclusive_alone s u t Hs); [done|by rewrite Ht].
Qed.

Lemma using_owner s t u k a s' e : consistent s → uses s t k → disciplined s (u, a) → step s (u, a) = Steps s' e → v_owner s' = v_owner s.
Proof.
  intros Hs [b Ht] Hd H. pose proof (c_knows _ Hs t _ Ht) as Kt. unfold step in H.
  destruct a as [l| | |]; [destruct (calls _); [|done]; unfold use, f_own, f_share, quiet, raise in H..|];
    try (repeat case_decide; by injection H as <- <-).
  unfold proceed in H. destruct (frames s u) as [|p fs] eqn:Ef; [done|].
  pose proof (top_nested s u p fs Hs Ef) as (_ & _ & Hsh & _). pose proof (top_knows s u p fs Hs Ef) as Ku.
  assert (HE : holds p = Some Exclusive → t ≠ u → b = false).
  { intros Hx Hn. destruct b; [|done]. destruct Hn. apply (exclusive_alone s u t Hs); [by eapply top_held|]. by eapply held_in. }
  destruct p as [l|l|l|l [|]| | | |]; unfold quiet, raise in H.
  - destruct (v_owner s) eqn:Eo; by injection H as <- <-.
  - eapply (lock_ok s u (Waiting l) fs Hs Ef l (Locked l)); try done. by intros [|].
  - destruct (v_owner s) eqn:Eo; injection H as <- <-; by destruct l.
  - injection H as <- <-. by destruct l.
  - by injection H as <- <-.
  - eapply (lock_ok s u Owning_waits fs Hs Ef Exclusive Owning); try done. by intros [|].
  - destruct (v_owner s) as [w|] eqn:Eo; [by injection H as <- <-|]. destruct (decide (t = u)) as [->|Hn].
    + destruct (top_held s u _ _ Hs Ef Exclusive eq_refl) as [_ H2]. rewrite Ef in Ht. apply elem_of_cons in Ht as [|Ht]; [done|].
      pose proof (rest_owner s u _ _ Hs Ef _ Ht H2). congruence.
    + rewrite HE in Kt by done. done.
  - eapply (lock_ok s u Sharing_waits fs Hs Ef Exclusive Sharing); try done. intros _. apply Hsh. by left.
  - cbn in Ku. destruct (decide (t = u)) as [->|Hn].
    + rewrite Ef, (Hsh (or_intror eq_refl)) in Ht. by apply list_elem_of_singleton in Ht.
    + destruct b; cbn in Kt; [|congruence]. by specialize (HE eq_refl Hn).
Qed.

(** A thread that has the lock is not blocked. *)
Lemma holder_proceeds s u : consistent s → held (frames s u) ≠ None → step s (u, Proceed) ≠ Blocked.
Proof.
  intros Hs Hu. assert (Hl : ∀ k next, lock k u s next = Undefined).
  { intros k next. unfold lock. rewrite decide_True; [done|]. destruct (held (frames s u)) as [[]|] eqn:E; [| |done].
    - right. by apply (c_readers _ Hs).
    - left. by apply (c_writer _ Hs). }
  cbn. unfold proceed, quiet, raise. destruct (frames s u) as [|[l|l|l|l b| | | |] fs]; rewrite ?Hl; try done; by destruct (v_owner s).
Qed.

Lemma blocked_by s t k : consistent s → wants (frames s t) = Some k → step s (t, Proceed) = Blocked →
  ∃ u, u ≠ t ∧ held (frames s u) ≠ None.
Proof.
  intros Hs Hw H.
  assert (Hl : ∃ next, lock k t s next = Blocked ∧ ∀ s, next s ≠ Blocked).
  { cbn in H. unfold proceed in H. destruct (frames s t) as [|[l|l|l|l b| | | |] fs]; try done; injection Hw as <-; eexists; (split; [exact H|done]). }
  destruct Hl as (next & Hl & Hnext). unfold lock in Hl. case_decide as Hnot; [done|]. destruct (writer s) as [u|] eqn:Ew.
  - apply (c_writer _ Hs) in Ew as Hu. exists u. split; [|by rewrite Hu]. intros ->. by apply Hnot; left.
  - destruct k; [by apply Hnext in Hl|]. case_decide as Hr; [by apply Hnext in Hl|]. apply set_choose_L in Hr as [u Hu].
    apply (c_readers _ Hs) in Hu as Hh. exists u. split; [|by rewrite Hh]. intros ->. by apply Hnot; right.
Qed.


(** ** Methods that call the script *)

(** The owner shares the value from inside of [a_do], and another thread gets
    the lock while the first goes on. *)
Lemma nested_share_races : ∃ s,
  steps_to (new_value 0) [(0, Use Exclusive); (0, Share); (0, Proceed); (0, Proceed); (1, Use Exclusive); (1, Proceed); (1, Proceed); (1, Proceed)] = Some s ∧
  uses s 0 Exclusive ∧ uses s 1 Exclusive.
Proof. eexists. split; [vm_compute; reflexivity|]. split; eexists; by left. Qed.

(** ** A witness: two threads of a shared value. *)

(** Whether a schedule keeps to the discipline. *)
Fixpoint keeps (s : state) (tas : list (thread * action)) : bool :=
  match tas with
  | [] => true
  | ta :: tas =>
    (match ta.2 with Share => match frames s ta.1 with [] => true | _ => false end | _ => true end)
    && match step s ta with Steps s _ => keeps s tas | _ => true end
  end.

Lemma reachable_steps t0 tas : ∀ s s', reachable t0 s → keeps s tas = true → steps_to s tas = Some s' → reachable t0 s'.
Proof.
  induction tas as [|ta tas IH]; intros s s' Hs Hk H; cbn in H; [by simplify_eq|]. cbn in Hk. apply andb_true_iff in Hk as [Hd Hk].
  destruct (step s ta) as [| |s1 e] eqn:E; [done..|].
  apply (IH s1); [|done|done]. apply (reachable_step t0 s ta s1 e); [done| |done]. intros Ha. rewrite Ha in Hd. by destruct (frames s ta.1).
Qed.

(** A thread that uses a shared value from inside of [a_do] locks the mutex
    again. *)
Definition relocking (k l : T_lock) : list (thread * action) :=
  [(0, Share); (0, Proceed); (0, Proceed); (0, Use k); (0, Proceed); (0, Proceed); (0, Proceed); (0, Use l); (0, Proceed)].

Lemma nested_use_relocks k l : ∃ s,
  steps_to (new_value 0) (relocking k l) = Some s ∧ reachable 0 s ∧ uses s 0 k ∧ step s (0, Proceed) = Undefined.
Proof.
  destruct (steps_to (new_value 0) (relocking k l)) as [s|] eqn:E; [|destruct k, l; vm_compute in E; discriminate].
  exists s. split; [done|]. split; [apply (reachable_steps 0 (relocking k l) (new_value 0)); [constructor|by destruct k, l; vm_compute|done]|].
  destruct k, l; vm_compute in E; injection E as <-; (split; [eexists; right; by left|vm_compute; reflexivity]).
Qed.

(** The thread 0 uses the value from inside of [a_do] before it shares it. *)
Definition sample_steps : list (thread * action) :=
  [(0, Use Exclusive); (0, Use Shared); (0, Proceed); (0, Proceed); (0, Share); (0, Proceed); (0, Proceed); (0, Use Shared); (1, Use Shared); (0, Proceed); (1, Proceed); (1, Proceed); (0, Proceed); (2, Own); (1, Proceed); (0, Proceed)].

