(* ===== verification/Path.v ===== *)
(** * Paths (src: include/xemmai/portable/path.h, src/portable.cc)

    A [t_path] is an absolute path without empty components, [.] and [..];
    [operator/=] appends a path to it, one component after another. *)
From stdpp Require Import base list numbers strings.
From S2P Require Import Prelude Machine Text.
Local Open Scope Z_scope.

(** [v_directory_separator] of Unix, and the dot. *)
Definition v_directory_separator : Z := 47.
Definition dot : Z := 46.

(** The characters up to the next separator, and what follows it. *)
Fixpoint next_component (a_path : text) : text * text :=
  match a_path with
  | [] => ([], [])
  | c :: a_path =>
    if c =? v_directory_separator then ([], a_path)
    else let '(s, rest) := next_component a_path in (c :: s, rest)
  end.

(** [std::wstring::find_last_of] of the separator. *)
Fixpoint find_last_separator (path : text) : option nat :=
  match path with
  | [] => None
  | c :: path =>
    match find_last_separator path with
    | Some n => Some (S n)
    | None => if c =? v_directory_separator then Some 0%nat else None
    end
  end.

(** [std::wstring::erase] from a position, which [npos] is beyond. *)
Definition erase_from (path : text) (n : option nat) : outcome text :=
  match n with
  | None => throw "std::out_of_range"
  | Some n => Ok (if (0 <? n)%nat then take n path else path)
  end.

(** One component; [back] of an empty string is not defined. *)
Definition append_component (v_path s : text) : outcome text :=
  if bool_decide (s = []) || bool_decide (s = [dot]) then Ok v_path
  else if bool_decide (s = [dot; dot]) then erase_from v_path (find_last_separator v_path)
  else
    match last v_path with
    | None => Fault
    | Some c => Ok ((if c =? v_directory_separator then v_path else v_path ++ [v_directory_separator]) ++ s)
    end.

(** [operator/=]; a step takes at least one character. *)
Fixpoint append (fuel : nat) (v_path a_path : text) : outcome text :=
  match a_path with
  | [] => Ok v_path
  | _ =>
    match fuel with
    | O => Fault
    | S fuel =>
      let '(s, rest) := next_component a_path in
      v_path ← append_component v_path s;
      append fuel v_path rest
    end
  end.

Definition divide (v_path a_path : text) : outcome text := append (length a_path) v_path a_path.

Definition is_absolute (a_path : text) : bool :=
  match a_path with c :: _ => c =? v_directory_separator | [] => false end.

(** The constructor, with the result of [getcwd]. *)
Definition t_path (cwd a_path : text) : outcome text :=
  divide (if is_absolute a_path then [v_directory_separator] else cwd) a_path.

(** ** Components *)

(** A path is the list of its components. *)
Definition render (cs : list text) : text :=
  match cs with [] => [v_directory_separator] | _ => concat (map (cons v_directory_separator) cs) end.

Record component (c : text) : Prop := {
  component_separator : v_directory_separator ∉ c;
  component_empty : c ≠ [];
  component_dot : c ≠ [dot];
  component_dots : c ≠ [dot; dot];
}.

(** The components of any text. *)
Fixpoint components (fuel : nat) (a_path : text) : list text :=
  match a_path, fuel with
  | [], _ | _, O => []
  | _, S fuel => let '(s, rest) := next_component a_path in s :: components fuel rest
  end.

(** [..] removes a component, unless it is the only one. *)
Definition enter (cs : list text) (s : text) : list text :=
  if bool_decide (s = []) || bool_decide (s = [dot]) then cs
  else if bool_decide (s = [dot; dot]) then (if (1 <? length cs)%nat then removelast cs else cs)
  else cs ++ [s].

Lemma next_component_ok a : ∀ s rest, next_component a = (s, rest) → (v_directory_separator ∉ s) ∧ (a ≠ [] → (length rest < length a)%nat).
Proof.
  induction a as [|c a IH]; intros s rest H; cbn in H; [simplify_eq; split; [apply not_elem_of_nil|done]|].
  destruct (Z.eqb_spec c v_directory_separator) as [->|Hc]; [simplify_eq; split; [apply not_elem_of_nil|cbn; lia]|].
  destruct (next_component a) as [t r] eqn:E. simplify_eq. destruct (IH t rest eq_refl) as [H1 H2]. split.
  - apply not_elem_of_cons. auto.
  - intros _. cbn. destruct a; [cbn in E; simplify_eq; cbn; lia|]. specialize (H2 ltac:(done)). cbn in *. lia.
Qed.

Lemma find_last_none c : v_directory_separator ∉ c → find_last_separator c = None.
Proof.
  induction c as [|x c IH]; intros H; [done|]. apply not_elem_of_cons in H as [Hx Hc]. cbn. rewrite IH by done. by rewrite (proj2 (Z.eqb_neq x v_directory_separator)).
Qed.

Lemma find_last_app p c : v_directory_separator ∉ c → find_last_separator (p ++ v_directory_separator :: c) = Some (length p).
Proof. intros Hc. induction p as [|x p IH]; cbn; [by rewrite find_last_none|by rewrite IH]. Qed.

Lemma render_snoc cs c : render (cs ++ [c]) = concat (map (cons v_directory_separator) cs) ++ v_directory_separator :: c.
Proof. unfold render. destruct (cs ++ [c]) eqn:E; [by destruct cs|]. rewrite <- E, map_app, concat_app. cbn. by rewrite app_nil_r. Qed.

Lemma render_nonempty cs : cs ≠ [] → render cs = concat (map (cons v_directory_separator) cs).
Proof. by destruct cs. Qed.

Lemma last_concat cs c : component c → last (render (cs ++ [c])) ≠ Some v_directory_separator ∧ last (render (cs ++ [c])) ≠ None.
Proof.
  intros [Hs He _ _]. rewrite render_snoc. destruct (last c) as [x|] eqn:Ex; [|by apply last_None in Ex].
  assert (HL : last (concat (map (cons v_directory_separator) cs) ++ v_directory_separator :: c) = Some x).
  { change (v_directory_separator :: c) with ([v_directory_separator] ++ c). rewrite app_assoc, last_app, Ex. done. }
  rewrite HL. split; [|done]. intros [= ->]. apply Hs. apply last_Some in Ex as [l ->]. apply elem_of_app. right. by left.
Qed.

(** A component is entered. *)
Lemma append_component_ok cs s : Forall component cs → v_directory_separator ∉ s →
  append_component (render cs) s = Ok (render (enter cs s)) ∧ Forall component (enter cs s).
Proof.
  intros Hcs Hs. unfold append_component, enter. destruct (bool_decide (s = []) || bool_decide (s = [dot])) eqn:E1; [done|].
  apply orb_false_iff in E1 as [E1%bool_decide_eq_false E2%bool_decide_eq_false].
  destruct cs as [|c cs' _] using rev_ind.
  - destruct (bool_decide (s = [dot; dot])) eqn:E3; [done|]. apply bool_decide_eq_false in E3. cbn. rewrite app_nil_r. split; [done|]. by apply Forall_singleton.
  - apply Forall_app in Hcs as [Hcs' [Hc _]%Forall_cons]. destruct (bool_decide (s = [dot; dot])) eqn:E3.
    + rewrite render_snoc. rewrite find_last_app by apply Hc. cbn [erase_from]. rewrite length_app. cbn [length].
      destruct (Nat.ltb_spec 0 (length (concat (map (cons v_directory_separator) cs')))) as [Hl|Hl].
      * assert (cs' ≠ []) as Hne by (intros E; rewrite E in Hl; cbn in Hl; lia). rewrite (proj2 (Nat.ltb_lt _ _)) by (destruct cs'; [done|cbn; lia]).
        rewrite removelast_last. split; [|done]. rewrite take_app_length. by rewrite render_nonempty.
      * assert (cs' = []) as -> by (destruct cs'; [done|cbn in Hl; lia]). split; [cbn; by rewrite app_nil_r|]. cbn. by apply Forall_singleton.
    + apply bool_decide_eq_false in E3. destruct (last_concat cs' c Hc) as [L1 L2]. destruct (last (render (cs' ++ [c]))) as [x|]; [|done].
      rewrite (proj2 (Z.eqb_neq x v_directory_separator)) by congruence. split.
      * rewrite (render_snoc (cs' ++ [c]) s), (render_nonempty (cs' ++ [c])) by (intros E; by apply app_eq_nil in E as [_ ?]). by rewrite <- app_assoc.
      * apply Forall_app. split; [apply Forall_app; split; [done|by apply Forall_singleton]|by apply Forall_singleton].
Qed.

Lemma path_append_ok fuel : ∀ cs a, Forall component cs → (length a ≤ fuel)%nat →
  append fuel (render cs) a = Ok (render (fold_left enter (components fuel a) cs)) ∧ Forall component (fold_left enter (components fuel a) cs).
Proof.
  induction fuel as [|fuel IH]; intros cs a Hcs Hl; [by destruct a; [|cbn in Hl; lia]|]. destruct a as [|x a]; [done|]. cbn [append components].
  destruct (next_component (x :: a)) as [s rest] eqn:E. apply next_component_ok in E as [Hs Hr]. specialize (Hr ltac:(done)).
  destruct (append_component_ok cs s Hcs Hs) as [-> Hcs']. cbn [mbind outcome_bind fold_left]. apply IH; [done|lia].
Qed.

(** The components of the path of a text, from the directory [cwd]. *)
Definition path_of (cwd : list text) (a_path : text) : list text :=
  fold_left enter (components (length a_path) a_path) (if is_absolute a_path then [] else cwd).

Lemma t_path_ok cwd a : Forall component cwd → t_path (render cwd) a = Ok (render (path_of cwd a)) ∧ Forall component (path_of cwd a).
Proof.
  intros Hc. unfold t_path, divide, path_of. destruct (is_absolute a); [|by apply path_append_ok].
  change [v_directory_separator] with (render []). by apply path_append_ok.
Qed.

(** ** A path is its own path *)

Lemma next_component_separator s rest : v_directory_separator ∉ s → next_component (s ++ v_directory_separator :: rest) = (s, rest).
Proof.
  induction s as [|c s IH]; intros H; cbn; [done|]. apply not_elem_of_cons in H as [Hc Hs].
  by rewrite (proj2 (Z.eqb_neq c v_directory_separator)), IH.
Qed.

Lemma next_component_last s : v_directory_separator ∉ s → next_component s = (s, []).
Proof.
  induction s as [|c s IH]; intros H; cbn; [done|]. apply not_elem_of_cons in H as [Hc Hs].
  by rewrite (proj2 (Z.eqb_neq c v_directory_separator)), IH.
Qed.

Lemma components_separated fuel : ∀ c cs, component c → Forall component cs → (length (c ++ concat (map (cons v_directory_separator) cs)) <= fuel)%nat →
  components fuel (c ++ concat (map (cons v_directory_separator) cs)) = c :: cs.
Proof.
  induction fuel as [|fuel IH]; intros c cs Hc Hcs Hl.
  - destruct (component_empty c Hc). rewrite length_app in Hl. destruct c; [done|cbn in Hl; lia].
  - destruct (c ++ concat (map (cons v_directory_separator) cs)) as [|x a] eqn:E; [destruct (component_empty c Hc); by destruct c|]. cbn [components]. rewrite <- E.
    destruct cs as [|d cs]; cbn [map concat].
    + rewrite app_nil_r, next_component_last by apply Hc. by destruct fuel.
    + apply Forall_cons in Hcs as [Hd Hcs]. change ((v_directory_separator :: d) ++ concat (map (cons v_directory_separator) cs)) with (v_directory_separator :: d ++ concat (map (cons v_directory_separator) cs)).
      rewrite next_component_separator by apply Hc. rewrite IH; [done..|].
      rewrite <- E in Hl. cbn [map concat] in Hl. rewrite length_app in Hl. cbn [length app] in Hl. pose proof (component_empty c Hc). destruct c; [done|]. cbn [length] in Hl. lia.
Qed.

Lemma fold_enter cs : ∀ ds, Forall component cs → fold_left enter cs ds = ds ++ cs.
Proof.
  induction cs as [|c cs IH]; intros ds Hcs; [by rewrite app_nil_r|]. apply Forall_cons in Hcs as [[Hs He Hd Hdd] Hcs]. cbn [fold_left].
  assert (enter ds c = ds ++ [c]) as -> by (unfold enter; by rewrite !bool_decide_false). rewrite IH by done. by rewrite <- app_assoc.
Qed.

Lemma path_of_render cwd cs : Forall component cs → path_of cwd (render cs) = cs.
Proof.
  intros Hcs. unfold path_of. destruct cs as [|c cs]; [done|]. apply Forall_cons in Hcs as Hcs'. destruct Hcs' as [Hc Hcs'].
  rewrite render_nonempty by done. cbn [map concat app is_absolute]. rewrite Z.eqb_refl. cbn [length components next_component]. rewrite Z.eqb_refl.
  rewrite components_separated by done. exact (fold_enter (c :: cs) [] Hcs).
Qed.

(** C33 (paths_are_normal): the path of any text, from a directory that is a path,
    is the path of the components that are entered one after another: empty
    components and [.] change nothing, and [..] goes back unless one component is
    left.  No component of it is empty, [.] or [..], and the path of a path is
    that path. *)
Theorem paths_are_normal (cwd : list text) (a_path : text) :
  Forall component cwd →
  t_path (render cwd) a_path = Ok (render (path_of cwd a_path)) ∧ Forall component (path_of cwd a_path) ∧
  t_path (render cwd) (render (path_of cwd a_path)) = Ok (render (path_of cwd a_path)).
Proof.
  intros Hc. destruct (t_path_ok cwd a_path Hc) as [H1 H2]. split_and!; [done..|].
  rewrite (proj1 (t_path_ok cwd _ Hc)). by rewrite path_of_render.
Qed.

(** The parent of a directory of the root is the directory itself: [/usr/..]. *)
Lemma parent_of_first : t_path [47] [47; 117; 115; 114; 47; 46; 46] = Ok [47; 117; 115; 114].
Proof. reflexivity. Qed.

(** [a//./b/../c/d/] from [/x]. *)
Lemma paths_are_normal_witness :
  let a := [97; 47; 47; 46; 47; 98; 47; 46; 46; 47; 99; 47; 100; 47] in
  path_of [[120]] a = [[120]; [97]; [99]; [100]] ∧
  t_path (render [[120]]) a = Ok (render (path_of [[120]] a)) ∧ Forall component (path_of [[120]] a) ∧
  t_path (render [[120]]) (render (path_of [[120]] a)) = Ok (render (path_of [[120]] a)).
Proof.
  split; [reflexivity|]. apply (paths_are_normal [[120]]). repeat constructor; try discriminate. apply (bool_decide_unpack (v_directory_separator ∉ [120])). reflexivity.
Defined.
