(* ===== verification/Lexer.v ===== *)
(** * The lexer (src: include/xemmai/lexer.h, src/lexer.cc)

    [t_lexer] reads wide characters from a stream and hands tokens to the
    parser, one at a time, with the position of the token, whether it is the
    first of its line, and the indentation of its line. *)
From Stdlib Require Import Ascii Sorted.
From stdpp Require Import base list numbers strings.
From S2P Require Import Prelude Machine.
Local Open Scope Z_scope.

(** ** Characters *)

(** [wint_t]: a character code, or [WEOF]. *)
Definition WEOF : Z := -1.

Definition ch (a : Ascii.ascii) : Z := Z.of_N (Ascii.N_of_ascii a).
Arguments ch _%_char.

Definition newline : Z := 10.
Definition quote : Z := 34.

Definition chars (s : string) : list Z := map ch (String.list_ascii_of_string s).

(** Decimal and hexadecimal digits do not depend on the locale. *)
Definition iswdigit (c : Z) : bool := (ch "0" <=? c) && (c <=? ch "9").

Definition iswxdigit (c : Z) : bool :=
  iswdigit c || ((ch "A" <=? c) && (c <=? ch "F")) || ((ch "a" <=? c) && (c <=? ch "f")).

(** What the platform decides: the classification of the C library in the
    locale of the process, and [overflowed], what is left in [v_integer] where
    a literal does not fit in it.  Signed overflow is undefined in C++; a
    processor leaves some number, and the proofs hold for any. *)
Class Ctype := {
  iswspace : Z → bool;
  iswalpha : Z → bool;
  overflowed : Z → Z;
  iswspace_WEOF : iswspace WEOF = false;
  iswalpha_WEOF : iswalpha WEOF = false;
  iswalpha_ascii c : 0 ≤ c < 128 →
    iswalpha c = ((ch "A" <=? c) && (c <=? ch "Z")) || ((ch "a" <=? c) && (c <=? ch "z"))
}.

Definition iswalnum `{Ctype} (c : Z) : bool := iswalpha c || iswdigit c.

Definition f_is_symbol `{Ctype} (a_c : Z) : bool := iswalnum a_c || (a_c =? ch "_").

(** ** Tokens *)

Inductive t_token :=
| c_token__EOF | c_token__EXCLAMATION | c_token__PERCENT | c_token__AMPERSAND
| c_token__APOSTROPHE | c_token__LEFT_PARENTHESIS | c_token__RIGHT_PARENTHESIS
| c_token__ASTERISK | c_token__PLUS | c_token__COMMA | c_token__HYPHEN | c_token__DOT
| c_token__SLASH | c_token__COLON | c_token__SEMICOLON | c_token__LESS | c_token__EQUAL
| c_token__GREATER | c_token__QUESTION | c_token__ATMARK | c_token__LEFT_BRACKET
| c_token__RIGHT_BRACKET | c_token__HAT | c_token__LEFT_BRACE | c_token__BAR
| c_token__RIGHT_BRACE | c_token__TILDE | c_token__LEFT_SHIFT | c_token__RIGHT_SHIFT
| c_token__EQUALS | c_token__NOT_EQUALS | c_token__IDENTICAL | c_token__NOT_IDENTICAL
| c_token__LESS_EQUAL | c_token__GREATER_EQUAL | c_token__AND_ALSO | c_token__OR_ELSE
| c_token__NULL | c_token__TRUE | c_token__FALSE | c_token__SYMBOL | c_token__SELF
| c_token__INTEGER | c_token__FLOAT | c_token__STRING | c_token__BREAK | c_token__CONTINUE
| c_token__RETURN | c_token__THROW | c_token__IF | c_token__ELSE | c_token__WHILE
| c_token__FOR | c_token__TRY | c_token__CATCH | c_token__FINALLY.

#[export] Instance t_token_eq_dec : EqDecision t_token.
Proof. solve_decision. Defined.

(** [t_at] *)
Record t_at := { at_position : Z; at_line : Z; at_column : Z }.

#[export] Instance t_at_eq_dec : EqDecision t_at.
Proof. solve_decision. Defined.

(** [t_lexer::t_error] *)
Record t_error := { error_message : string; error_path : string; error_at : t_at }.

Section Lexer.
Context `{Ctype}.
(** The number of bytes of a character in the encoding of the stream. *)
Context (width : Z → Z).
Context (v_path : string).
(** [std::from_chars] on [double]. *)
Context {F : Type} (from_chars_float : list Z → option F).

(** ** State *)

(** The part of the state that reading a character changes: the characters
    [getwc] has yet to return, [ftell], the position of the current line, the
    line and the column, and the current character. *)
Record t_reader := {
  v_stream : list Z; v_tell : Z;
  v_position : Z; v_line : Z; v_column : Z; v_c : Z
}.

(** The union of [v_string], [v_integer] and [v_float]. *)
Inductive t_datum :=
| Uninitialized | Text (s : list Z) | Integer (i : Z) | Float (f : F).

Record t_lexer := {
  v_reader : t_reader;
  v_at : t_at;
  v_newline : bool;
  v_indent : list Z;
  v_token : t_token;
  v_value : list Z;
  v_datum : t_datum
}.

Definition with_reader (l : t_lexer) (r : t_reader) : t_lexer :=
  {| v_reader := r; v_at := v_at l; v_newline := v_newline l; v_indent := v_indent l;
     v_token := v_token l; v_value := v_value l; v_datum := v_datum l |}.
Definition with_at (l : t_lexer) (a : t_at) : t_lexer :=
  {| v_reader := v_reader l; v_at := a; v_newline := v_newline l; v_indent := v_indent l;
     v_token := v_token l; v_value := v_value l; v_datum := v_datum l |}.
Definition with_newline (l : t_lexer) (b : bool) : t_lexer :=
  {| v_reader := v_reader l; v_at := v_at l; v_newline := b; v_indent := v_indent l;
     v_token := v_token l; v_value := v_value l; v_datum := v_datum l |}.
Definition with_indent (l : t_lexer) (s : list Z) : t_lexer :=
  {| v_reader := v_reader l; v_at := v_at l; v_newline := v_newline l; v_indent := s;
     v_token := v_token l; v_value := v_value l; v_datum := v_datum l |}.
Definition with_token (l : t_lexer) (t : t_token) : t_lexer :=
  {| v_reader := v_reader l; v_at := v_at l; v_newline := v_newline l; v_indent := v_indent l;
     v_token := t; v_value := v_value l; v_datum := v_datum l |}.
Definition with_value (l : t_lexer) (s : list Z) : t_lexer :=
  {| v_reader := v_reader l; v_at := v_at l; v_newline := v_newline l; v_indent := v_indent l;
     v_token := v_token l; v_value := s; v_datum := v_datum l |}.
Definition with_datum (l : t_lexer) (d : t_datum) : t_lexer :=
  {| v_reader := v_reader l; v_at := v_at l; v_newline := v_newline l; v_indent := v_indent l;
     v_token := v_token l; v_value := v_value l; v_datum := d |}.

Abbreviation c_of l := (v_c (v_reader l)).

(** ** Reading *)

(** [std::getwc] *)
Definition getwc (r : t_reader) : t_reader :=
  match v_stream r with
  | [] => {| v_stream := []; v_tell := v_tell r; v_position := v_position r;
             v_line := v_line r; v_column := v_column r; v_c := WEOF |}
  | c :: s => {| v_stream := s; v_tell := v_tell r + width c; v_position := v_position r;
                 v_line := v_line r; v_column := v_column r; v_c := c |}
  end.

Definition get_reader (r : t_reader) : t_reader :=
  getwc
    (if decide (v_c r = newline)
     then {| v_stream := v_stream r; v_tell := v_tell r; v_position := v_tell r;
             v_line := v_line r + 1; v_column := 1; v_c := v_c r |}
     else {| v_stream := v_stream r; v_tell := v_tell r; v_position := v_position r;
             v_line := v_line r; v_column := v_column r + 1; v_c := v_c r |}).

Definition f_get (l : t_lexer) : t_lexer := with_reader l (get_reader (v_reader l)).

(** A lexical error: the position is that of the token. *)
Definition f_throw {A} (l : t_lexer) : result t_error A :=
  Throw {| error_message := "lexical error."; error_path := v_path; error_at := v_at l |}.

(** Loops read at least one character a round. *)
Definition fuel (l : t_lexer) : nat := S (S (length (v_stream (v_reader l)))).

(** [while (a_test(v_c)) { a_act; f_get(); }] on a buffer. *)
Definition while_get {S} (a_test : Z → bool) (a_act : t_lexer → S → result t_error S) (l : t_lexer) (s : S)
    : result t_error (t_lexer * S) :=
  loop (fuel l) (λ '(l, s),
    if a_test (c_of l) then s ← a_act l s; Ok (inl (f_get l, s)) else Ok (inr (l, s))) (l, s).

Definition is_blank (c : Z) : bool := negb (c =? newline) && iswspace c.

Definition f_read_indent (l : t_lexer) : result t_error t_lexer :=
  '(l, s) ← while_get is_blank (λ l s, Ok (s ++ [c_of l])) l (v_indent l);
  Ok (with_indent l s).

Definition f_skip_line (l : t_lexer) : result t_error t_lexer :=
  loop (fuel l) (λ l,
    if c_of l =? newline then Ok (inr (f_get l)) else
    let l := f_get l in
    Ok (if c_of l =? WEOF then inr l else inl l)) l.

(** [t_stringer::f_rewind] *)
Definition f_rewind (i : nat) (s : list Z) : list Z := take i s.

(** The end of a line: [is_skipped] tells a blank or comment line. *)
Definition is_skipped (c : Z) : bool := (c =? newline) || (c =? ch "#").

(** [for (; i < n && v_c != L'\n' && std::iswspace(v_c); ++i) ...]: compares
    the indentation of a line with that of the line before. *)
Fixpoint match_indent (s : list Z) (i : nat) (l : t_lexer) : result t_error (t_lexer * nat) :=
  match s with
  | [] => Ok (l, i)
  | c :: s =>
    if is_blank (c_of l) then
      if c_of l =? c then match_indent s (S i) (f_get l) else f_throw l
    else Ok (l, i)
  end.

(** The first lines of a source: blank and comment lines are skipped. *)
Definition next_line (l : t_lexer) : result t_error t_lexer :=
  loop (fuel l) (λ l,
    l ← f_skip_line l;
    let n := length (v_indent l) in
    '(l, i) ← match_indent (v_indent l) 0 l;
    l ← f_read_indent l;
    if negb (is_skipped (c_of l)) then
      Ok (inr (if decide (i < n)%nat then with_indent l (f_rewind i (v_indent l)) else l))
    else
      Ok (inl (if decide (n < length (v_indent l))%nat then with_indent l (f_rewind n (v_indent l)) else l))) l.

(** ** Tokens *)

Definition set (a_token : t_token) (l : t_lexer) : t_lexer := with_token l a_token.

Definition next (a_token : t_token) (l : t_lexer) : t_lexer := f_get (with_token l a_token).

(** The character an escape sequence stands for. *)
Definition escape (c : Z) : option Z :=
  if c =? quote then Some quote
  else if c =? ch "0" then Some 0
  else if c =? ch "\" then Some (ch "\")
  else if c =? ch "a" then Some 7
  else if c =? ch "b" then Some 8
  else if c =? ch "f" then Some 12
  else if c =? ch "n" then Some 10
  else if c =? ch "r" then Some 13
  else if c =? ch "t" then Some 9
  else if c =? ch "v" then Some 11
  else None.

(** A string literal, from its opening quote on. *)
Definition read_string (l : t_lexer) : result t_error t_lexer :=
  loop (fuel l) (λ '(l, s),
    let l := f_get l in
    let c := c_of l in
    if c =? WEOF then f_throw l
    else if c =? quote then Ok (inr (next c_token__STRING (with_datum l (Text s))))
    else if c =? ch "\" then
      let l := f_get l in
      match escape (c_of l) with
      | Some x => Ok (inl (l, s ++ [x]))
      | None => f_throw l
      end
    else Ok (inl (l, s ++ [c]))) (l, []).

(** The lambda [match], on a keyword [pre ++ suf] whose part [pre] has been
    read; [true] when the keyword and nothing more was there. *)
Fixpoint match_from (pre suf : list Z) (a_token : t_token) (l : t_lexer) : bool * t_lexer :=
  let l := f_get l in
  match suf with
  | [] =>
    if f_is_symbol (c_of l) then (false, with_value l (v_value l ++ pre))
    else (true, with_token l a_token)
  | c :: suf =>
    if c_of l =? c then match_from (pre ++ [c]) suf a_token l
    else (false, with_value l (v_value l ++ pre))
  end.

Definition match_ (a_s : string) (a_i : nat) (a_token : t_token) (l : t_lexer) : bool * t_lexer :=
  match_from (take a_i (chars a_s)) (drop a_i (chars a_s)) a_token l.

Definition append (s : string) (l : t_lexer) : bool * t_lexer :=
  (false, with_value l (v_value l ++ chars s)).

(** The [switch] on the first letters of a symbol. *)
Definition match_keyword (l : t_lexer) : bool * t_lexer :=
  let c := c_of l in
  if c =? ch "b" then match_ "break" 1 c_token__BREAK l
  else if c =? ch "c" then
    let l := f_get l in
    if c_of l =? ch "a" then match_ "catch" 2 c_token__CATCH l
    else if c_of l =? ch "o" then match_ "continue" 2 c_token__CONTINUE l
    else append "c" l
  else if c =? ch "e" then match_ "else" 1 c_token__ELSE l
  else if c =? ch "f" then
    let l := f_get l in
    if c_of l =? ch "a" then match_ "false" 2 c_token__FALSE l
    else if c_of l =? ch "i" then match_ "finally" 2 c_token__FINALLY l
    else if c_of l =? ch "o" then match_ "for" 2 c_token__FOR l
    else append "f" l
  else if c =? ch "i" then match_ "if" 1 c_token__IF l
  else if c =? ch "n" then match_ "null" 1 c_token__NULL l
  else if c =? ch "r" then match_ "return" 1 c_token__RETURN l
  else if c =? ch "t" then
    let l := f_get l in
    if c_of l =? ch "h" then match_ "throw" 2 c_token__THROW l
    else if c_of l =? ch "r" then
      let l := f_get l in
      if c_of l =? ch "u" then match_ "true" 3 c_token__TRUE l
      else if c_of l =? ch "y" then match_ "try" 3 c_token__TRY l
      else append "tr" l
    else append "t" l
  else if c =? ch "w" then match_ "while" 1 c_token__WHILE l
  else (false, l).

Definition push_value (l : t_lexer) (s : list Z) : result t_error (list Z) := Ok (s ++ [c_of l]).

Definition read_symbol (l : t_lexer) : result t_error t_lexer :=
  let l := with_value l [] in
  match match_keyword l with
  | (true, l) => Ok l
  | (false, l) =>
    '(l, s) ← while_get f_is_symbol push_value l (v_value l);
    Ok (with_token (with_value l s) c_token__SYMBOL)
  end.

(** [$] and the scopes it climbs. *)
Definition read_self (l : t_lexer) : result t_error t_lexer :=
  let l := with_value (f_get l) [] in
  '(l, s) ← while_get (λ c, (c =? ch "@") || (c =? ch "^")) push_value l (v_value l);
  Ok (set c_token__SELF (with_value l s)).

(** *** Numbers *)

(** [intptr_t] arithmetic on [v_integer]. *)
Definition to_integer (i : Z) : Z := if decide (is_intptr i) then i else overflowed i.

(** [i < 10 ? i : i - 7 & 0xf] *)
Definition hex_digit (c : Z) : Z :=
  let i := c - ch "0" in if i <? 10 then i else Z.land (i - 7) 15.

Definition read_hexadecimal (l : t_lexer) : result t_error (t_lexer * Z) :=
  let l := f_get l in
  if negb (iswxdigit (c_of l)) then f_throw l else
  while_get iswxdigit (λ l i, Ok (to_integer (i * 16 + hex_digit (c_of l)))) l 0.

Definition read_octal (l : t_lexer) : result t_error (t_lexer * Z) :=
  while_get iswdigit (λ l i,
    if ch "8" <=? c_of l then f_throw l else Ok (to_integer (i * 8 + (c_of l - ch "0")))) l 0.

(** [char cs[32]] and its lambda [push]. *)
Definition push (l : t_lexer) (cs : list Z) : result t_error (list Z) :=
  if decide (32 <= length cs)%nat then f_throw l else Ok (cs ++ [c_of l]).

(** [std::from_chars] on [intptr_t], for decimal digits. *)
Definition decimal (cs : list Z) : Z := foldl (λ n c, n * 10 + (c - ch "0")) 0 cs.

Definition from_chars_integer (cs : list Z) : option Z :=
  if decide (cs ≠ [] ∧ decimal cs ≤ INTPTR_MAX) then Some (decimal cs) else None.

(** The fraction and the exponent, from the point on. *)
Definition read_fraction (l : t_lexer) (cs : list Z) : result t_error (t_lexer * list Z) :=
  cs ← push l cs;
  '(l, cs) ← while_get iswdigit push (f_get l) cs;
  if (c_of l =? ch "E") || (c_of l =? ch "e") then
    cs ← push l cs;
    let l := f_get l in
    '(l, cs) ← (if (c_of l =? ch "+") || (c_of l =? ch "-") then cs ← push l cs; Ok (f_get l, cs)
                else Ok (l, cs));
    if negb (iswdigit (c_of l)) then f_throw l else
    while_get iswdigit push l cs
  else Ok (l, cs).

Definition read_number (l : t_lexer) : result t_error t_lexer :=
  let zero := c_of l =? ch "0" in
  let l := if zero then f_get l else l in
  if zero && negb (c_of l =? ch ".") then
    '(l, i) ← (if (c_of l =? ch "X") || (c_of l =? ch "x") then read_hexadecimal l else read_octal l);
    Ok (set c_token__INTEGER (with_datum l (Integer (Z.land i INTPTR_MAX))))
  else
    '(l, cs) ← while_get iswdigit push l [];
    if c_of l =? ch "." then
      let l := with_token l c_token__FLOAT in
      '(l, cs) ← read_fraction l cs;
      match from_chars_float cs with Some f => Ok (with_datum l (Float f)) | None => f_throw l end
    else
      let l := with_token l c_token__INTEGER in
      match from_chars_integer cs with Some i => Ok (with_datum l (Integer i)) | None => f_throw l end.

Definition read_colons (l : t_lexer) : result t_error t_lexer :=
  '(l, n) ← while_get (λ c, c =? ch ":") (λ _ n, Ok (n + 1)) (f_get l) 1;
  Ok (set c_token__COLON (with_datum l (Integer n))).

(** The [switch] of [f_next]. *)
Definition read_token (l : t_lexer) : result t_error t_lexer :=
  let c := c_of l in
  if c =? WEOF then Ok (set c_token__EOF l)
  else if c =? ch "!" then
    let l := f_get l in
    if negb (c_of l =? ch "=") then Ok (set c_token__EXCLAMATION l) else
    let l := f_get l in
    if negb (c_of l =? ch "=") then Ok (set c_token__NOT_EQUALS l) else
    Ok (next c_token__NOT_IDENTICAL l)
  else if c =? quote then read_string l
  else if c =? ch "$" then read_self l
  else if c =? ch "%" then Ok (next c_token__PERCENT l)
  else if c =? ch "&" then
    let l := f_get l in
    if c_of l =? ch "&" then Ok (next c_token__AND_ALSO l) else Ok (set c_token__AMPERSAND l)
  else if c =? ch "'" then Ok (next c_token__APOSTROPHE l)
  else if c =? ch "(" then Ok (next c_token__LEFT_PARENTHESIS l)
  else if c =? ch ")" then Ok (next c_token__RIGHT_PARENTHESIS l)
  else if c =? ch "*" then Ok (next c_token__ASTERISK l)
  else if c =? ch "+" then Ok (next c_token__PLUS l)
  else if c =? ch "," then Ok (next c_token__COMMA l)
  else if c =? ch "-" then Ok (next c_token__HYPHEN l)
  else if c =? ch "." then Ok (next c_token__DOT l)
  else if c =? ch "/" then Ok (next c_token__SLASH l)
  else if c =? ch ":" then read_colons l
  else if c =? ch ";" then Ok (next c_token__SEMICOLON l)
  else if c =? ch "<" then
    let l := f_get l in
    if c_of l =? ch "<" then Ok (next c_token__LEFT_SHIFT l)
    else if c_of l =? ch "=" then Ok (next c_token__LESS_EQUAL l)
    else Ok (set c_token__LESS l)
  else if c =? ch "=" then
    let l := f_get l in
    if negb (c_of l =? ch "=") then Ok (set c_token__EQUAL l) else
    let l := f_get l in
    if negb (c_of l =? ch "=") then Ok (set c_token__EQUALS l) else
    Ok (next c_token__IDENTICAL l)
  else if c =? ch ">" then
    let l := f_get l in
    if c_of l =? ch "=" then Ok (next c_token__GREATER_EQUAL l)
    else if c_of l =? ch ">" then Ok (next c_token__RIGHT_SHIFT l)
    else Ok (set c_token__GREATER l)
  else if c =? ch "?" then Ok (next c_token__QUESTION l)
  else if c =? ch "@" then Ok (next c_token__ATMARK l)
  else if c =? ch "[" then Ok (next c_token__LEFT_BRACKET l)
  else if c =? ch "]" then Ok (next c_token__RIGHT_BRACKET l)
  else if c =? ch "^" then Ok (next c_token__HAT l)
  else if c =? ch "{" then Ok (next c_token__LEFT_BRACE l)
  else if c =? ch "|" then
    let l := f_get l in
    if c_of l =? ch "|" then Ok (next c_token__OR_ELSE l) else Ok (set c_token__BAR l)
  else if c =? ch "}" then Ok (next c_token__RIGHT_BRACE l)
  else if c =? ch "~" then Ok (next c_token__TILDE l)
  else if iswalpha c || (c =? ch "_") then read_symbol l
  else if iswdigit c then read_number l
  else f_throw l.

Definition skip_blanks (l : t_lexer) : result t_error t_lexer :=
  '(l, _) ← while_get is_blank (λ _ s, Ok s) l (); Ok l.

Definition mark (l : t_lexer) : t_lexer :=
  let r := v_reader l in
  with_at l {| at_position := v_position r; at_line := v_line r; at_column := v_column r |}.

Definition f_next (l : t_lexer) : result t_error t_lexer :=
  l ← skip_blanks l;
  let l := with_newline l (is_skipped (c_of l)) in
  l ← (if v_newline l then next_line l else Ok l);
  read_token (mark l).

(** The constructor: skips the blank and comment lines at the beginning, and
    reads the first token. *)
Definition first_line (l : t_lexer) : result t_error t_lexer :=
  loop (fuel l) (λ l,
    l ← f_read_indent l;
    if negb (is_skipped (c_of l)) then Ok (inr l) else
    l ← f_skip_line (with_indent l (f_rewind 0 (v_indent l)));
    Ok (inl l)) l.

Definition open (text : list Z) : t_lexer :=
  {| v_reader := getwc {| v_stream := text; v_tell := 0; v_position := 0; v_line := 1; v_column := 1; v_c := WEOF |};
     v_at := {| at_position := 0; at_line := 0; at_column := 0 |}; v_newline := false; v_indent := [];
     v_token := c_token__EOF; v_value := []; v_datum := Uninitialized |}.

Definition new_lexer (text : list Z) : result t_error t_lexer :=
  l ← first_line (open text); f_next l.

(** ** Readers *)

(** The characters from the current one on. *)
Definition remaining (r : t_reader) : list Z :=
  (if decide (v_c r = WEOF) then [] else [v_c r]) ++ v_stream r.

Abbreviation input l := (remaining (v_reader l)).

(** [WEOF] marks the end of the stream and nothing else. *)
Definition valid_reader (r : t_reader) : Prop :=
  (v_c r = WEOF → v_stream r = []) ∧ Forall (λ c, c ≠ WEOF) (v_stream r).

Abbreviation valid l := (valid_reader (v_reader l)).

Fixpoint read (n : nat) (r : t_reader) : t_reader :=
  match n with O => r | S n => read n (get_reader r) end.

(** Reading [n] characters. *)
Definition skip (n : nat) (l : t_lexer) : t_lexer := with_reader l (read n (v_reader l)).

Lemma get_reader_ok r :
  valid_reader r → valid_reader (get_reader r) ∧ remaining (get_reader r) = tail (remaining r).
Proof.
  intros [H1 H2]. unfold get_reader, getwc, remaining, valid_reader.
  assert (Hs : v_stream (if decide (v_c r = newline) then
      {| v_stream := v_stream r; v_tell := v_tell r; v_position := v_tell r;
         v_line := v_line r + 1; v_column := 1; v_c := v_c r |} else
      {| v_stream := v_stream r; v_tell := v_tell r; v_position := v_position r;
         v_line := v_line r; v_column := v_column r + 1; v_c := v_c r |}) = v_stream r) by by case_decide.
  rewrite Hs. clear Hs. destruct (v_stream r) as [|c s] eqn:E; cbn [v_stream v_c].
  - split; [done|]. rewrite decide_True by done. by case_decide.
  - apply Forall_cons in H2 as [Hc H2]. split; [split; [by intros ->|done]|].
    rewrite decide_False by done. destruct (decide (v_c r = WEOF)) as [Heof|]; [by specialize (H1 Heof)|done].
Qed.

Lemma read_ok n r :
  valid_reader r → valid_reader (read n r) ∧ remaining (read n r) = drop n (remaining r).
Proof.
  revert r. induction n as [|n IH]; intros r Hr; cbn [read]; [by rewrite drop_0|].
  destruct (get_reader_ok r Hr) as [Hv Hi]. destruct (IH _ Hv) as [Hv' Hi']. split; [done|].
  rewrite Hi', Hi. destruct (remaining r); [cbn; apply drop_nil|done].
Qed.

Lemma read_add n m r : read (n + m) r = read m (read n r).
Proof. revert r. induction n as [|n IH]; intros r; [done|]. apply IH. Qed.

Lemma skip_add n m l : skip (n + m) l = skip m (skip n l).
Proof. unfold skip. cbn. by rewrite read_add. Qed.

Lemma skip_0 l : skip 0 l = l.
Proof. by destruct l. Qed.

Lemma skip_S n l : skip (S n) l = skip n (f_get l).
Proof. done. Qed.

Lemma f_get_skip n l : f_get (skip n l) = skip (S n) l.
Proof. change (f_get (skip n l)) with (skip 1 (skip n l)). rewrite <- skip_add. f_equal. lia. Qed.

Lemma valid_skip n l : valid l → valid (skip n l).
Proof. intros. by apply read_ok. Qed.

Lemma input_skip n l : valid l → input (skip n l) = drop n (input l).
Proof. intros. by apply read_ok. Qed.

Lemma current l : valid l → c_of l = hd WEOF (input l).
Proof.
  intros [Hc _]. unfold remaining. case_decide as H0; [|done]. by rewrite (Hc H0), H0.
Qed.

Lemma current_skip n l : valid l → c_of (skip n l) = hd WEOF (drop n (input l)).
Proof. intros Hl. rewrite current by by apply valid_skip. by rewrite input_skip. Qed.

Lemma fuel_input l : (length (input l) < fuel l)%nat.
Proof. unfold remaining, fuel. rewrite length_app. case_decide; cbn; lia. Qed.

Lemma input_cons l : valid l → c_of l ≠ WEOF → input l = c_of l :: tail (input l).
Proof. intros _ Hc. unfold remaining. by rewrite decide_False. Qed.

(** No character of the input is [WEOF]. *)
Lemma input_no_eof l : valid l → Forall (λ c, c ≠ WEOF) (input l).
Proof.
  intros [_ Hs]. unfold remaining. case_decide; [done|]. by constructor.
Qed.

(** ** Loops *)

(** The number of characters at the front that pass a test. *)
Fixpoint count_while (p : Z → bool) (s : list Z) : nat :=
  match s with
  | [] => 0
  | c :: s => if p c then S (count_while p s) else 0
  end.

Lemma count_while_length p s : (count_while p s ≤ length s)%nat.
Proof. induction s as [|c s IH]; cbn; [done|]. case_match; lia. Qed.

Lemma count_while_Forall p s : Forall (λ c, p c = true) (take (count_while p s) s).
Proof.
  induction s as [|c s IH]; cbn; [constructor|]. destruct (p c) eqn:E; [by constructor|constructor].
Qed.

Lemma count_while_stop p s :
  p WEOF = false → p (hd WEOF (drop (count_while p s) s)) = false.
Proof. intros H0. induction s as [|c s IH]; cbn; [done|]. by destruct (p c) eqn:E. Qed.

(** A reading loop reads exactly the characters that pass its test. *)
Lemma while_get_ok {S} (p : Z → bool) act (act' : t_at → Z → S → result t_error S) l (s : S) :
  valid l → p WEOF = false → (∀ l s, act l s = act' (v_at l) (c_of l) s) →
  while_get p act l s =
    (let n := count_while p (input l) in
     s ← fold_calls (λ s c, act' (v_at l) c s) s (take n (input l)); Ok (skip n l, s)).
Proof.
  intros Hl H0 Hact. unfold while_get. pose proof (fuel_input l) as Hf. revert Hf.
  generalize (fuel l). intros f Hf. revert l s Hl Hf. induction f as [|f IH]; intros l s Hl Hf; [lia|].
  cbn [loop]. rewrite (current l Hl). destruct (input l) as [|c i] eqn:Ei; cbn [hd count_while].
  { rewrite H0. cbn. by rewrite skip_0. }
  destruct (p c) eqn:Ep; [|by cbn; rewrite skip_0].
  rewrite Hact, (current l Hl), Ei. cbn [hd take fold_calls].
  destruct (act' (v_at l) c s) as [s'| |]; try done. cbn [mbind outcome_bind].
  destruct (get_reader_ok _ Hl) as [Hv Hi]. rewrite Ei in Hi. cbn [tail] in Hi.
  rewrite IH; [|done|change (input (f_get l)) with (remaining (get_reader (v_reader l))); rewrite Hi; cbn in Hf; lia].
  change (input (f_get l)) with (remaining (get_reader (v_reader l))). rewrite Hi.
  by change (v_at (f_get l)) with (v_at l).
Qed.

Lemma while_get_pure {S} (p : Z → bool) act (g : Z → S → S) l (s : S) :
  valid l → p WEOF = false → (∀ l s, act l s = Ok (g (c_of l) s)) →
  while_get p act l s =
    (let n := count_while p (input l) in Ok (skip n l, foldl (λ s c, g c s) s (take n (input l)))).
Proof.
  intros Hl H0 Hact. rewrite (while_get_ok p act (λ _ c s, Ok (g c s))) by done. cbv zeta.
  assert (∀ u s, fold_calls (λ s c, Ok (g c s)) s u =@{result t_error S} Ok (foldl (λ s c, g c s) s u)) as ->; [|done].
  intros u. induction u as [|c u IH]; intros s0; [done|]. apply IH.
Qed.

Lemma foldl_snoc (s u : list Z) : foldl (λ s c, s ++ [c]) s u = s ++ u.
Proof.
  revert s. induction u as [|c u IH]; intros s; cbn; [by rewrite app_nil_r|]. by rewrite IH, <- app_assoc.
Qed.

Lemma is_blank_WEOF : is_blank WEOF = false.
Proof. unfold is_blank. by rewrite iswspace_WEOF, andb_false_r. Qed.

Lemma f_is_symbol_WEOF : f_is_symbol WEOF = false.
Proof. unfold f_is_symbol, iswalnum. by rewrite iswalpha_WEOF. Qed.

Lemma f_read_indent_ok l :
  valid l →
  f_read_indent l =
    (let n := count_while is_blank (input l) in
     Ok (with_indent (skip n l) (v_indent l ++ take n (input l)))).
Proof.
  intros Hl. unfold f_read_indent.
  rewrite (while_get_pure is_blank _ (λ c s, s ++ [c])) by (done || apply is_blank_WEOF).
  cbn [mbind outcome_bind]. by rewrite foldl_snoc.
Qed.

Lemma skip_blanks_ok l :
  valid l → skip_blanks l = Ok (skip (count_while is_blank (input l)) l).
Proof.
  intros Hl. unfold skip_blanks.
  by rewrite (while_get_pure is_blank _ (λ _ s, s)) by (done || apply is_blank_WEOF).
Qed.

(** ** String literals *)

(** What follows the opening quote of a literal: its string and the number of
    characters up to the closing quote. *)
Fixpoint unescape (i : list Z) : option (list Z * nat) :=
  match i with
  | [] => None
  | c :: i =>
    if c =? quote then Some ([], 1%nat)
    else if c =? ch "\" then
      match i with
      | [] => None
      | x :: i =>
        match escape x, unescape i with
        | Some y, Some (s, n) => Some (y :: s, S (S n))
        | _, _ => None
        end
      end
    else match unescape i with Some (s, n) => Some (c :: s, S n) | None => None end
  end.

Lemma escape_WEOF : escape WEOF = None.
Proof. done. Qed.

Lemma input_get l : valid l → valid (f_get l) ∧ input (f_get l) = tail (input l).
Proof. intros Hl. by apply get_reader_ok. Qed.

Lemma read_string_ok l :
  valid l →
  read_string l =
    match unescape (tail (input l)) with
    | Some (s, n) => Ok (skip (S n) (with_token (with_datum l (Text s)) c_token__STRING))
    | None => f_throw l
    end.
Proof.
  intros Hl. unfold read_string.
  assert (∀ f l s, valid l → (length (tail (input l)) < f)%nat →
    loop f (λ '(l, s),
      let l := f_get l in
      let c := c_of l in
      if c =? WEOF then f_throw l
      else if c =? quote then Ok (inr (next c_token__STRING (with_datum l (Text s))))
      else if c =? ch "\" then
        let l := f_get l in
        match escape (c_of l) with Some x => Ok (inl (l, s ++ [x])) | None => f_throw l end
      else Ok (inl (l, s ++ [c]))) (l, s) =
    match unescape (tail (input l)) with
    | Some (s', n) => Ok (skip (S n) (with_token (with_datum l (Text (s ++ s'))) c_token__STRING))
    | None => f_throw l
    end) as H0.
  { clear l Hl. induction f as [f IH] using (well_founded_induction lt_wf); intros l s Hl Hf.
    destruct f as [|f]; [lia|]. cbn [loop]. cbv zeta.
    destruct (input_get l Hl) as [Hl1 Hi1]. rewrite (current (f_get l) Hl1), Hi1.
    pose proof (input_no_eof _ Hl1) as Hne. rewrite Hi1 in Hne.
    destruct (tail (input l)) as [|c i] eqn:Ei; [done|]. cbn [hd unescape].
    apply Forall_cons in Hne as [Hc Hne]. destruct (Z.eqb_spec c WEOF); [done|].
    destruct (Z.eqb_spec c quote).
    { cbn [mbind outcome_bind]. by rewrite app_nil_r. }
    destruct (Z.eqb_spec c (ch "\")).
    - destruct (input_get _ Hl1) as [Hl2 Hi2]. rewrite Hi1 in Hi2. cbn [tail] in Hi2.
      rewrite (current _ Hl2), Hi2. destruct i as [|x i]; cbn [hd]; [by rewrite escape_WEOF|].
      destruct (escape x) as [y|]; [|done]. cbn [mbind outcome_bind].
      rewrite IH; [|lia|done|rewrite Hi2; cbn in Hf |- *; lia]. rewrite Hi2. cbn [tail].
      destruct (unescape i) as [[s' n']|]; [|done]. by rewrite <- app_assoc.
    - cbn [mbind outcome_bind]. rewrite IH; [|lia|done|rewrite Hi1; cbn in Hf |- *; lia].
      rewrite Hi1. cbn [tail]. destruct (unescape i) as [[s' n']|]; [|done]. by rewrite <- app_assoc. }
  rewrite H0; [done|done|]. pose proof (fuel_input l). destruct (input l); cbn in *; lia.
Qed.

(** The literal that denotes a string. *)
Definition escape_char (c : Z) : list Z :=
  if (c =? quote) || (c =? ch "\") then [ch "\"; c] else [c].

Definition quoted (s : list Z) : list Z := quote :: concat (map escape_char s) ++ [quote].

Lemma unescape_quoted s i :
  unescape (concat (map escape_char s) ++ quote :: i)
  = Some (s, S (length (concat (map escape_char s)))).
Proof.
  induction s as [|c s IH]; [done|]. cbn [map concat]. rewrite <- app_assoc, length_app.
  unfold escape_char at 1 3. destruct (Z.eqb_spec c quote) as [->|Hq].
  { cbn [orb app]. change (unescape (ch "\" :: quote :: ?i)) with
      (match unescape i with Some (s, n) => Some (quote :: s, S (S n)) | None => None end).
    by rewrite IH. }
  destruct (Z.eqb_spec c (ch "\")) as [->|Hb].
  { cbn [orb app]. change (unescape (ch "\" :: ch "\" :: ?i)) with
      (match unescape i with Some (s, n) => Some (ch "\" :: s, S (S n)) | None => None end).
    by rewrite IH. }
  cbn [orb app unescape]. rewrite (proj2 (Z.eqb_neq c quote) Hq), (proj2 (Z.eqb_neq c (ch "\")) Hb).
  by rewrite IH.
Qed.

(** ** Symbols and keywords *)

Definition keywords : list (string * t_token) := [
  ("break", c_token__BREAK); ("catch", c_token__CATCH); ("continue", c_token__CONTINUE);
  ("else", c_token__ELSE); ("false", c_token__FALSE); ("finally", c_token__FINALLY);
  ("for", c_token__FOR); ("if", c_token__IF); ("null", c_token__NULL);
  ("return", c_token__RETURN); ("throw", c_token__THROW); ("true", c_token__TRUE);
  ("try", c_token__TRY); ("while", c_token__WHILE)
]%string.

(** The reference: look the whole symbol up in the table. *)
Fixpoint keyword_in (table : list (string * t_token)) (w : list Z) : option t_token :=
  match table with
  | [] => None
  | (s, t) :: table => if decide (w = chars s) then Some t else keyword_in table w
  end.

Definition keyword (w : list Z) : option t_token := keyword_in keywords w.

Definition symbol_of (i : list Z) : list Z := take (count_while f_is_symbol i) i.

(** The common prefix of a keyword and the input. *)
Fixpoint common (s i : list Z) : nat :=
  match s, i with
  | c :: s, d :: i => if d =? c then S (common s i) else 0
  | _, _ => 0
  end.

Lemma match_from_ok suf : ∀ pre tok l,
  valid l → c_of l ≠ WEOF → Forall (λ c, c ≠ WEOF) suf →
  let i := tail (input l) in
  let k := common suf i in
  match_from pre suf tok l =
  if decide (k = length suf ∧ f_is_symbol (hd WEOF (drop k i)) = false)
  then (true, with_token (skip (S k) l) tok)
  else (false, with_value (skip (S k) l) (v_value l ++ pre ++ take k suf)).
Proof.
  induction suf as [|c suf IH]; intros pre tok l Hl Hc Hsuf i k;
    cbn [match_from]; cbv zeta; destruct (input_get l Hl) as [Hl1 Hi1];
    rewrite (current _ Hl1), Hi1; subst k; fold i.
  - cbn [common drop]. rewrite drop_0, app_nil_r. destruct (f_is_symbol (hd WEOF i)) eqn:E.
    + by rewrite decide_False by (by intros [_ ?]).
    + by rewrite decide_True.
  - apply Forall_cons in Hsuf as [Hcne Hsuf].
    destruct i as [|d i'] eqn:Ei; cbn [hd common].
    { rewrite (proj2 (Z.eqb_neq WEOF c)) by done.
      rewrite decide_False by (by intros [? _]). cbn [take]. by rewrite app_nil_r. }
    destruct (Z.eqb_spec d c) as [->|Hd].
    + rewrite IH; [|done|by rewrite (current _ Hl1), Hi1; subst i; rewrite Ei|done].
      rewrite Hi1. fold i. rewrite Ei. cbn [tail drop length take].
      rewrite <- app_assoc. cbn [app].
      destruct (decide _) as [[H1 H2]|H1].
      * rewrite decide_True by (split; [lia|done]). done.
      * rewrite decide_False by (intros [? ?]; apply H1; split; [lia|done]). done.
    + rewrite decide_False by (by intros [? _]). cbn [take]. by rewrite app_nil_r.
Qed.

(** Whether the whole symbol is the keyword. *)
Lemma common_symbol s i :
  Forall (λ c, f_is_symbol c = true) s →
  symbol_of i = s ↔
  common s i = length s ∧ f_is_symbol (hd WEOF (drop (common s i) i)) = false.
Proof.
  revert i. induction s as [|c s IH]; intros i Hs; unfold symbol_of.
  - cbn. rewrite drop_0. destruct i as [|d i]; cbn.
    + split; [|done]. intros _. split; [done|apply f_is_symbol_WEOF].
    + destruct (f_is_symbol d); cbn; [|done]. split; [done|by intros []].
  - apply Forall_cons in Hs as [Hc Hs]. destruct i as [|d i]; [by split; [|intros []]|]. cbn [common].
    destruct (Z.eqb_spec d c) as [->|Hd].
    + cbn. rewrite Hc. cbn. specialize (IH i Hs). unfold symbol_of in IH.
      split; [intros [= H1]; apply IH in H1 as []; split; [lia|done]|].
      intros [H1 H2]. f_equal. apply IH. split; [lia|done].
    + split; [|by intros []]. cbn. destruct (f_is_symbol d); [|done]. by intros [= ? ?].
Qed.

(** A partly matched keyword is a part of the symbol. *)
Lemma common_take s i :
  Forall (λ c, f_is_symbol c = true) s →
  take (common s i) s = take (common s i) i ∧ (common s i ≤ count_while f_is_symbol i)%nat.
Proof.
  revert i. induction s as [|c s IH]; intros i Hs; [by split; [destruct i|cbn; lia]|].
  apply Forall_cons in Hs as [Hc Hs]. destruct i as [|d i]; [by split; [|cbn; lia]|]. cbn [common].
  destruct (Z.eqb_spec d c) as [->|Hd]; [|by split; [|cbn; lia]].
  destruct (IH i Hs) as [IH1 IH2]. cbn. rewrite Hc. split; [by rewrite IH1|lia].
Qed.

Lemma f_is_symbol_ascii c :
  ch "a" ≤ c ≤ ch "z" → f_is_symbol c = true.
Proof.
  intros Hc. unfold f_is_symbol, iswalnum.
  change (ch "a") with 97 in Hc. change (ch "z") with 122 in Hc.
  rewrite iswalpha_ascii by lia. change (ch "a") with 97. change (ch "z") with 122.
  rewrite (proj2 (Z.leb_le 97 c)), (proj2 (Z.leb_le c 122)) by lia. by rewrite orb_true_r.
Qed.

Definition lowercase (s : list Z) : Prop := Forall (λ c, ch "a" ≤ c ≤ ch "z") s.

Lemma lowercase_symbol s : lowercase s → Forall (λ c, f_is_symbol c = true) s.
Proof. intros Hs. eapply Forall_impl; [exact Hs|]. apply f_is_symbol_ascii. Qed.

Lemma common_app u s i : common (u ++ s) (u ++ i) = (length u + common s i)%nat.
Proof. induction u as [|c u IH]; [done|]. cbn. by rewrite Z.eqb_refl, IH. Qed.

(** What [match_keyword] establishes: the whole symbol was a keyword, or a part
    of it, no keyword, has been read into the value. *)
Definition keyword_read (l : t_lexer) (r : bool * t_lexer) : Prop :=
  let w := symbol_of (input l) in
  match keyword w with
  | Some t => r = (true, with_token (skip (length w) l) t)
  | None => ∃ k, (k ≤ count_while f_is_symbol (input l))%nat
                 ∧ r = (false, with_value (skip k l) (take k (input l)))
  end.

Lemma match_ok l s j tok :
  valid l → v_value l = [] → (j < length (chars s))%nat → lowercase (chars s) →
  take (S j) (input l) = take (S j) (chars s) →
  keyword (symbol_of (input l)) = (if decide (symbol_of (input l) = chars s) then Some tok else None) →
  keyword_read l (match_ s (S j) tok (skip j l)).
Proof.
  intros Hl Hv Hj Hs Hpre Hkey. unfold keyword_read, match_. rewrite Hkey. clear Hkey.
  set (u := take (S j) (chars s)) in *. set (suf := drop (S j) (chars s)).
  assert (Hsu : chars s = u ++ suf) by (symmetry; apply take_drop).
  assert (Hlu : length u = S j) by (subst u; rewrite length_take; lia).
  set (i := drop (S j) (input l)).
  assert (Hi : input l = u ++ i) by (rewrite <- Hpre; symmetry; apply take_drop).
  assert (Ht : tail (input (skip j l)) = i).
  { rewrite input_skip by done. subst i. clear. revert j.
    induction (input l) as [|c x IH]; intros j; [by rewrite !drop_nil|].
    destruct j; [done|]. cbn. apply IH. }
  assert (Hne : ∀ s, lowercase s → Forall (λ c, c ≠ WEOF) s).
  { intros s' Hs'. eapply Forall_impl; [exact Hs'|]. cbn. intros c [Hc _] ->. done. }
  assert (Hsuf : lowercase suf) by (rewrite Hsu in Hs; by apply Forall_app in Hs as [_ ?]).
  rewrite match_from_ok; [|by apply valid_skip| |by apply Hne].
  2:{ rewrite current_skip, Hi by done. rewrite drop_app_le by lia.
      destruct (drop j u) as [|c x] eqn:Ed; [apply (f_equal length) in Ed; rewrite length_drop in Ed; cbn in Ed; lia|].
      rewrite Hsu in Hs. apply Forall_app in Hs as [Hu _]. rewrite <- (take_drop j u), Ed in Hu.
      apply Hne, Forall_app in Hu as [_ Hu]. by apply Forall_cons in Hu as [? _]. }
  rewrite Ht. pose proof (common_symbol (chars s) (input l) (lowercase_symbol _ Hs)) as Hiff.
  pose proof (common_take (chars s) (input l) (lowercase_symbol _ Hs)) as [Htake Hcount].
  rewrite Hsu, Hi, common_app, length_app, drop_app_add, <- Hi, <- Hsu in Hiff.
  rewrite Hsu, Hi, common_app, <- Hi in Htake. rewrite Hsu, Hi, common_app, <- Hi, Hlu in Hcount.
  destruct (decide (symbol_of (input l) = chars s)) as [E|E].
  - rewrite decide_True by (apply Hiff in E as [? ?]; split; [lia|done]).
    apply Hiff in E as E'. destruct E' as [E' _]. rewrite E, Hsu, length_app.
    f_equal. f_equal. rewrite <- skip_add. f_equal. lia.
  - rewrite decide_False by (intros [? ?]; apply E, Hiff; split; [lia|done]).
    exists (S j + common suf i)%nat. split; [done|]. f_equal. change (v_value (skip j l)) with (v_value l).
    rewrite Hv, <- skip_add. cbn [app]. rewrite take_app_add in Htake. rewrite Hlu in Htake.
    rewrite Htake. f_equal. f_equal. lia.
Qed.

Lemma symbol_of_cons c i : f_is_symbol c = true → symbol_of (c :: i) = c :: symbol_of i.
Proof. unfold symbol_of. cbn. by intros ->. Qed.

Lemma lowercase_chars s :
  forallb (λ c, (ch "a" <=? c) && (c <=? ch "z")) (chars s) = true → lowercase (chars s).
Proof.
  rewrite forallb_forall. intros Hs. apply Forall_forall. intros c Hc%list_elem_of_In.
  apply Hs in Hc. apply andb_prop in Hc as [?%Z.leb_le ?%Z.leb_le]. done.
Qed.

(** Giving up after the characters [s], when no keyword continues them. *)
Lemma append_ok l s j :
  valid l → v_value l = [] → length (chars s) = j → lowercase (chars s) →
  take j (input l) = chars s → keyword (symbol_of (input l)) = None →
  keyword_read l (append s (skip j l)).
Proof.
  intros Hl Hv Hj Hs Hpre Hkey. unfold keyword_read. rewrite Hkey. exists j. split.
  - pose proof (common_take (chars s) (input l) (lowercase_symbol _ Hs)) as [_ Hle].
    rewrite <- (take_drop j (input l)), Hpre in Hle at 1.
    rewrite <- (app_nil_r (chars s)) in Hle at 1. rewrite common_app in Hle. cbn in Hle. lia.
  - unfold append. change (v_value (skip j l)) with (v_value l). rewrite Hv, Hpre. done.
Qed.

Lemma keyword_none_ok l : v_value l = [] → keyword (symbol_of (input l)) = None → keyword_read l (false, l).
Proof.
  intros Hv Hkey. unfold keyword_read. rewrite Hkey. exists 0%nat. split; [lia|].
  rewrite skip_0. cbn. destruct l; cbn in *. by rewrite Hv.
Qed.

Lemma symbol_of_not c i : f_is_symbol c = false → symbol_of (c :: i) = [].
Proof. unfold symbol_of. cbn. by intros ->. Qed.

(** No keyword begins with [u ++ [c]]. *)
Definition no_keyword (u : list Z) (c : Z) : bool :=
  forallb (λ '(s, _), negb (bool_decide (take (S (length u)) (chars s) = u ++ [c]))) keywords.

Lemma no_keyword_ok u i :
  Forall (λ c, f_is_symbol c = true) u →
  forallb (λ '(s, _), negb (bool_decide (chars s = u))) keywords = true →
  (∀ c i', i = c :: i' → no_keyword u c = true) →
  keyword (symbol_of (u ++ i)) = None.
Proof.
  intros Hu Hexact Hno.
  assert (Hsym : symbol_of (u ++ i) = u ++ symbol_of i).
  { clear Hexact Hno. induction Hu as [|c u Hc Hu IH]; [done|]. cbn [app]. by rewrite symbol_of_cons, IH. }
  rewrite Hsym. clear Hsym Hu.
  assert (Hw : ∀ s t, (s, t) ∈ keywords → u ++ symbol_of i ≠ chars s).
  { intros s t Hin E. rewrite forallb_forall in Hexact.
    unfold no_keyword in Hno. setoid_rewrite forallb_forall in Hno.
    apply list_elem_of_In in Hin. destruct i as [|c i]; [|destruct (f_is_symbol c) eqn:Ec].
    - specialize (Hexact _ Hin). cbn in Hexact. rewrite bool_decide_true in Hexact; [done|].
      rewrite <- E. cbn. by rewrite app_nil_r.
    - specialize (Hno c i eq_refl _ Hin). cbn in Hno. rewrite bool_decide_true in Hno; [done|].
      rewrite <- E, symbol_of_cons by done. rewrite take_app_ge by lia.
      replace (S (length u) - length u)%nat with 1%nat by lia. done.
    - specialize (Hexact _ Hin). cbn in Hexact. rewrite bool_decide_true in Hexact; [done|].
      rewrite <- E, symbol_of_not by done. by rewrite app_nil_r. }
  revert Hw. generalize (u ++ symbol_of i). clear. intros w. unfold keyword.
  induction keywords as [|[s t] table IH]; intros Hw; [done|]. cbn [keyword_in].
  rewrite decide_False by (apply (Hw s t); left). apply IH. intros s' t' Hin. apply (Hw s' t'). by right.
Qed.

(** [s] is the only keyword that begins with [u]. *)
Definition only_keyword (u : list Z) (s : string) (tok : t_token) : bool :=
  existsb (λ '(s', t), bool_decide (s' = s ∧ t = tok)) keywords
  && forallb (λ '(s', t), bool_decide (s' = s ∧ t = tok)
                          || negb (bool_decide (take (length u) (chars s') = u))) keywords.

Lemma only_keyword_ok u i s tok :
  Forall (λ c, f_is_symbol c = true) u → only_keyword u s tok = true →
  keyword (symbol_of (u ++ i)) = (if decide (symbol_of (u ++ i) = chars s) then Some tok else None).
Proof.
  intros Hu [Hex Hall]%andb_prop.
  assert (Hsym : symbol_of (u ++ i) = u ++ symbol_of i).
  { clear Hex Hall. induction Hu as [|c u Hc Hu IH]; [done|]. cbn [app]. by rewrite symbol_of_cons, IH. }
  rewrite Hsym. clear Hsym Hu. generalize (symbol_of i). clear i. intros i. unfold keyword.
  induction keywords as [|[s' t] table IH]; [done|]. cbn [keyword_in existsb forallb] in *.
  apply andb_prop in Hall as [Hst Hall]. destruct (bool_decide_reflect (s' = s ∧ t = tok)) as [[-> ->]|Hne].
  - destruct (decide (u ++ i = chars s)) as [E|E]; [done|].
    clear IH Hex Hst. induction table as [|[s' t] table IH]; [done|]. cbn [keyword_in forallb] in *.
    apply andb_prop in Hall as [Hst Hall]. destruct (bool_decide_reflect (s' = s ∧ t = tok)) as [[-> ->]|Hne].
    + rewrite decide_False by done. by apply IH.
    + cbn [orb] in Hst. rewrite decide_False; [by apply IH|]. intros E'.
      rewrite bool_decide_true in Hst; [done|]. rewrite <- E'. by rewrite take_app_length.
  - cbn [orb] in Hst, Hex. rewrite decide_False; [by apply IH|]. intros E'.
    rewrite bool_decide_true in Hst; [done|]. rewrite <- E'. by rewrite take_app_length.
Qed.

(** The branches of [match_keyword], for an input of which [u] has been read
    up to its last character. *)
Lemma match_branch l u s j tok i :
  valid l → v_value l = [] → input l = u ++ i → length u = S j →
  (forallb (λ c, (ch "a" <=? c) && (c <=? ch "z")) (chars s) && bool_decide (take (S j) (chars s) = u)
   && only_keyword u s tok) = true →
  keyword_read l (match_ s (S j) tok (skip j l)).
Proof.
  intros Hl Hv Hi Hu [[Hs Hp]%andb_prop Hk]%andb_prop. apply lowercase_chars in Hs.
  apply bool_decide_eq_true in Hp. apply match_ok; try done.
  - apply (f_equal length) in Hp. rewrite length_take in Hp. lia.
  - rewrite Hi, Hp. rewrite <- Hu. apply take_app_length.
  - rewrite Hi. apply only_keyword_ok; [|done]. rewrite <- Hp. by apply Forall_take, lowercase_symbol.
Qed.

Lemma match_first l c s tok i :
  valid l → v_value l = [] → input l = c :: i →
  (forallb (λ c, (ch "a" <=? c) && (c <=? ch "z")) (chars s) && bool_decide (take 1 (chars s) = [c])
   && only_keyword [c] s tok) = true →
  keyword_read l (match_ s 1 tok l).
Proof. intros. rewrite <- (skip_0 l) at 2. by apply (match_branch l [c] s 0 tok i). Qed.

Lemma append_branch l s j i :
  valid l → v_value l = [] → input l = chars s ++ i → length (chars s) = j →
  (forallb (λ c, (ch "a" <=? c) && (c <=? ch "z")) (chars s)
   && forallb (λ '(s', _), negb (bool_decide (chars s' = chars s))) keywords) = true →
  (∀ c i', i = c :: i' → no_keyword (chars s) c = true) →
  keyword_read l (append s (skip j l)).
Proof.
  intros Hl Hv Hi Hj [Hs Hk]%andb_prop Hno. apply lowercase_chars in Hs. apply append_ok; try done.
  - rewrite Hi, <- Hj. apply take_app_length.
  - rewrite Hi. apply no_keyword_ok; [by apply lowercase_symbol|done|done].
Qed.

Ltac no_keyword_solve :=
  unfold no_keyword, keywords; cbv [forallb negb bool_decide chars map String.list_ascii_of_string length take app];
  repeat match goal with
    | |- context [decide_rel eq ?a ?b] =>
      let E := fresh in destruct (decide_rel eq a b) as [E|E];
      [exfalso; first [discriminate E | injection E; intros; congruence]|]
    end; done.

Lemma match_keyword_ok l :
  valid l → v_value l = [] → f_is_symbol (c_of l) = true → keyword_read l (match_keyword l).
Proof.
  intros Hl Hv Hsym. assert (Hc : c_of l ≠ WEOF) by (intros E; by rewrite E, f_is_symbol_WEOF in Hsym).
  pose proof (input_cons l Hl Hc) as Hi. set (i := tail (input l)) in Hi. clearbody i.
  assert (Hget : c_of (f_get l) = hd WEOF i).
  { destruct (input_get l Hl) as [Hl1 Hi1]. by rewrite (current _ Hl1), Hi1, Hi. }
  assert (Hget2 : c_of (f_get (f_get l)) = hd WEOF (tail i)).
  { destruct (input_get l Hl) as [Hl1 Hi1]. destruct (input_get _ Hl1) as [Hl2 Hi2].
    by rewrite (current _ Hl2), Hi2, Hi1, Hi. }
  unfold match_keyword. cbv zeta. rewrite Hget, Hget2. clear Hget Hget2.
  repeat match goal with
  | |- context [if c_of l =? ?x then _ else _] =>
    destruct (Z.eqb_spec (c_of l) x) as [Ec|?]; [rewrite Ec in Hi|]
  end.
  all: try (by eapply match_first; [done|done|exact Hi|]).
  - change (f_get l) with (skip 1 l). destruct i as [|d i]; [by apply (append_branch l "c" 1 [])|].
    cbn [hd]. destruct (Z.eqb_spec d (ch "a")) as [->|Ha]; [by apply (match_branch l (chars "ca") _ _ _ i)|].
    destruct (Z.eqb_spec d (ch "o")) as [->|Ho]; [by apply (match_branch l (chars "co") _ _ _ i)|].
    apply (append_branch l "c" 1 (d :: i)); try done. intros ? ? [= <- <-]. no_keyword_solve.
  - change (f_get l) with (skip 1 l). destruct i as [|d i]; [by apply (append_branch l "f" 1 [])|].
    cbn [hd]. destruct (Z.eqb_spec d (ch "a")) as [->|Ha]; [by apply (match_branch l (chars "fa") _ _ _ i)|].
    destruct (Z.eqb_spec d (ch "i")) as [->|Hi']; [by apply (match_branch l (chars "fi") _ _ _ i)|].
    destruct (Z.eqb_spec d (ch "o")) as [->|Ho]; [by apply (match_branch l (chars "fo") _ _ _ i)|].
    apply (append_branch l "f" 1 (d :: i)); try done. intros ? ? [= <- <-]. no_keyword_solve.
  - change (f_get (f_get l)) with (skip 2 l). change (f_get l) with (skip 1 l).
    destruct i as [|d i]; [by apply (append_branch l "t" 1 [])|].
    cbn [hd tail]. destruct (Z.eqb_spec d (ch "h")) as [->|Hh]; [by apply (match_branch l (chars "th") _ _ _ i)|].
    destruct (Z.eqb_spec d (ch "r")) as [->|Hr].
    + destruct i as [|d i]; [by apply (append_branch l "tr" 2 [])|]. cbn [hd].
      destruct (Z.eqb_spec d (ch "u")) as [->|Hu]; [by apply (match_branch l (chars "tru") _ 2 _ i)|].
      destruct (Z.eqb_spec d (ch "y")) as [->|Hy]; [by apply (match_branch l (chars "try") _ 2 _ i)|].
      apply (append_branch l "tr" 2 (d :: i)); try done. intros ? ? [= <- <-]. no_keyword_solve.
    + apply (append_branch l "t" 1 (d :: i)); try done. intros ? ? [= <- <-]. no_keyword_solve.
  - apply keyword_none_ok; [done|]. rewrite Hi. apply (no_keyword_ok []); [done|done|].
    intros ? ? [= <- <-]. no_keyword_solve.
Qed.

(** [read_symbol] agrees with the reference: read the symbol, look it up. *)
Lemma read_symbol_ok l :
  valid l → f_is_symbol (c_of l) = true →
  let w := symbol_of (input l) in
  read_symbol l = Ok (match keyword w with
    | Some t => with_token (with_value (skip (length w) l) []) t
    | None => with_token (with_value (skip (length w) l) w) c_token__SYMBOL
    end).
Proof.
  intros Hl Hc w. unfold read_symbol. cbv zeta.
  pose proof (match_keyword_ok (with_value l []) Hl eq_refl Hc) as Hk. unfold keyword_read in Hk.
  change (input (with_value l [])) with (input l) in Hk. fold w in Hk.
  destruct (keyword w) as [t|]; [by rewrite Hk|]. destruct Hk as (k & Hk & ->).
  assert (Hv : valid (with_value (skip k (with_value l [])) (take k (input l)))) by by apply valid_skip.
  rewrite (while_get_pure f_is_symbol _ (λ c s, s ++ [c])) by (done || apply f_is_symbol_WEOF).
  cbv zeta. cbn [mbind outcome_bind]. rewrite foldl_snoc.
  change (input (with_value (skip k (with_value l [])) (take k (input l)))) with (input (skip k l)).
  rewrite input_skip by done. change (v_value (with_value (skip k (with_value l [])) (take k (input l))))
    with (take k (input l)).
  assert (Hw : length w = (k + count_while f_is_symbol (drop k (input l)))%nat
               ∧ w = take k (input l) ++ take (count_while f_is_symbol (drop k (input l))) (drop k (input l))).
  { subst w. unfold symbol_of. clear -Hk. revert Hk. generalize (input l). intros i. revert k.
    induction i as [|c i IH]; intros k Hk; cbn in *; [by destruct k; [|lia]|].
    destruct (f_is_symbol c) eqn:E.
    - destruct k as [|k]; cbn; [rewrite E; cbn; split; [f_equal; rewrite length_take; pose proof (count_while_length f_is_symbol i); lia|done]|].
      destruct (IH k) as [H1 H2]; [lia|]. split; [lia|]. by rewrite H2 at 1.
    - assert (k = 0%nat) as -> by lia. cbn. by rewrite E. }
  destruct Hw as [Hlen Hw]. rewrite <- Hw, Hlen, skip_add. done.
Qed.

(** ** Operators *)

(** The tokens of fixed spelling that are no keywords, longer ones first. *)
Definition operators : list (string * t_token) := [
  ("!==", c_token__NOT_IDENTICAL); ("===", c_token__IDENTICAL);
  ("!=", c_token__NOT_EQUALS); ("&&", c_token__AND_ALSO); ("<<", c_token__LEFT_SHIFT);
  ("<=", c_token__LESS_EQUAL); ("==", c_token__EQUALS); (">=", c_token__GREATER_EQUAL);
  (">>", c_token__RIGHT_SHIFT); ("||", c_token__OR_ELSE);
  ("!", c_token__EXCLAMATION); ("%", c_token__PERCENT); ("&", c_token__AMPERSAND);
  ("'", c_token__APOSTROPHE); ("(", c_token__LEFT_PARENTHESIS); (")", c_token__RIGHT_PARENTHESIS);
  ("*", c_token__ASTERISK); ("+", c_token__PLUS); (",", c_token__COMMA); ("-", c_token__HYPHEN);
  (".", c_token__DOT); ("/", c_token__SLASH); (";", c_token__SEMICOLON); ("<", c_token__LESS);
  ("=", c_token__EQUAL); (">", c_token__GREATER); ("?", c_token__QUESTION); ("@", c_token__ATMARK);
  ("[", c_token__LEFT_BRACKET); ("]", c_token__RIGHT_BRACKET); ("^", c_token__HAT);
  ("{", c_token__LEFT_BRACE); ("|", c_token__BAR); ("}", c_token__RIGHT_BRACE); ("~", c_token__TILDE)
]%string.

Fixpoint starts_with (s i : list Z) : bool :=
  match s, i with
  | [], _ => true
  | c :: s, d :: i => (d =? c) && starts_with s i
  | _ :: _, [] => false
  end.

Lemma starts_with_ok s i : starts_with s i = true ↔ s `prefix_of` i.
Proof.
  revert i. induction s as [|c s IH]; intros i; cbn.
  { split; [intros _; apply prefix_nil|done]. }
  destruct i as [|d i]; [split; [done|intros H0; by apply prefix_nil_not in H0]|].
  rewrite andb_true_iff, IH, Z.eqb_eq. split.
  - intros [-> Hp]. by apply prefix_cons.
  - intros Hp. split; [symmetry; by apply prefix_cons_inv_1 in Hp|by apply prefix_cons_inv_2 in Hp].
Qed.

(** The reference: the first entry of the table that the input begins with. *)
Fixpoint operator_in (table : list (string * t_token)) (i : list Z) : option (string * t_token) :=
  match table with
  | [] => None
  | (s, t) :: table => if starts_with (chars s) i then Some (s, t) else operator_in table i
  end.

Definition operator (i : list Z) : option (string * t_token) := operator_in operators i.

(** It is a longest one: maximal munch. *)
Lemma operator_longest i s t s' t' :
  operator i = Some (s, t) → (s', t') ∈ operators → chars s' `prefix_of` i →
  chars s `prefix_of` i ∧ (length (chars s') ≤ length (chars s))%nat.
Proof.
  unfold operator. assert (Hsorted : StronglySorted (λ x y, length (chars y.1) ≤ length (chars x.1))%nat operators).
  { unfold operators. repeat constructor. }
  induction operators as [|[s0 t0] table IH]; [done|]. cbn [operator_in].
  apply StronglySorted_inv in Hsorted as [Hs Hall].
  destruct (starts_with (chars s0) i) eqn:E.
  - intros [= -> ->] Hin Hp. split; [by apply starts_with_ok|].
    apply elem_of_cons in Hin as [[= -> ->]|Hin]; [done|]. rewrite Forall_forall in Hall. by apply Hall in Hin.
  - intros Ho Hin Hp. apply elem_of_cons in Hin as [[= -> ->]|Hin]; [|by apply IH].
    apply starts_with_ok in Hp. congruence.
Qed.

(** [read_token] on the other tokens. *)
Definition read_other (l : t_lexer) : result t_error t_lexer :=
  let c := c_of l in
  if c =? WEOF then Ok (set c_token__EOF l)
  else if c =? quote then read_string l
  else if c =? ch "$" then read_self l
  else if c =? ch ":" then read_colons l
  else if iswalpha c || (c =? ch "_") then read_symbol l
  else if iswdigit c then read_number l
  else f_throw l.

(** The entries for one first character. *)
Definition operators_from (c : Z) : list (string * t_token) :=
  List.filter (λ '(s, _), match chars s with x :: _ => c =? x | [] => false end) operators.

Lemma operator_cons c i : operator (c :: i) = operator_in (operators_from c) (c :: i).
Proof.
  unfold operator, operators_from. assert (Hne : Forall (λ '(s, _), chars s ≠ []) operators).
  { repeat constructor; discriminate. }
  induction Hne as [|[s t] table Hs Hne IH]; [done|]. cbn [operator_in List.filter].
  destruct (chars s) as [|x u] eqn:Es; [done|]. cbn [starts_with].
  destruct (Z.eqb_spec c x) as [->|Hx]; cbn [andb]; [|done].
  cbn [operator_in]. rewrite Es. cbn [starts_with]. rewrite Z.eqb_refl. cbn [andb]. by rewrite IH.
Qed.

Lemma starts_with_cons x s c i : starts_with (x :: s) (c :: i) = (c =? x) && starts_with s i.
Proof. done. Qed.

Lemma operator_in_cons s t table i :
  operator_in ((s, t) :: table) i = if starts_with (chars s) i then Some (s, t) else operator_in table i.
Proof. done. Qed.

Lemma operators_from_nil c :
  Forall (λ '(s, _), match chars s with x :: _ => c ≠ x | [] => True end) operators → operators_from c = [].
Proof.
  unfold operators_from. induction 1 as [|[s t] table Hs Hall IH]; [done|]. cbn [List.filter].
  destruct (chars s); [done|]. by rewrite (proj2 (Z.eqb_neq c _)).
Qed.

Lemma f_get_skip1 l : f_get l = skip 1 l.
Proof. done. Qed.

Lemma next_skip t l : next t l = with_token (f_get l) t.
Proof. done. Qed.

Ltac operator_first c :=
  rewrite (operator_cons c);
  let t := eval vm_compute in (operators_from c) in change (operators_from c) with t;
  cbn [operator_in chars map String.list_ascii_of_string starts_with];
  rewrite ?Z.eqb_refl; cbn [andb].

Lemma read_token_operator l :
  valid l →
  read_token l = match operator (input l) with
    | Some (s, t) => Ok (with_token (skip (length (chars s)) l) t)
    | None => read_other l
    end.
Proof.
  intros Hl. unfold read_token. cbv zeta. destruct (Z.eqb_spec (c_of l) WEOF) as [Ec|Hc].
  { assert (Hi : input l = []).
    { pose proof (current l Hl). pose proof (input_no_eof l Hl) as Hne. destruct (input l); [done|].
      apply Forall_cons in Hne as [? _]. cbn in *. congruence. }
    rewrite Hi. cbn. unfold read_other. by rewrite Ec. }
  pose proof (input_cons l Hl Hc) as Hi. set (i := tail (input l)) in Hi. clearbody i.
  assert (Hget : c_of (f_get l) = hd WEOF i).
  { destruct (input_get l Hl) as [Hl1 Hi1]. by rewrite (current _ Hl1), Hi1, Hi. }
  assert (Hget2 : c_of (f_get (f_get l)) = hd WEOF (tail i)).
  { destruct (input_get l Hl) as [Hl1 Hi1]. destruct (input_get _ Hl1) as [Hl2 Hi2].
    by rewrite (current _ Hl2), Hi2, Hi1, Hi. }
  rewrite Hi.
  repeat match goal with
  | |- (if c_of l =? ?x then _ else _) = _ =>
    destruct (Z.eqb_spec (c_of l) x) as [Ec|?];
    [rewrite Ec; operator_first x; unfold read_other; rewrite ?Ec; clear Ec;
     lazymatch goal with |- context [v_c (v_reader (f_get l))] => idtac | _ => reflexivity end|]
  end.
  all: rewrite ?Hget, ?Hget2; clear Hget Hget2; unfold set; rewrite ?next_skip, ?f_get_skip1, ?f_get_skip.
  all: lazymatch goal with |- context [hd WEOF _] =>
    destruct i as [|d1 i]; [reflexivity|]; cbn [hd tail starts_with];
    repeat match goal with
    | |- context [d1 =? ?x] => destruct (Z.eqb_spec d1 x); [subst d1|]; cbn [andb negb]
    end;
    lazymatch goal with |- context [hd WEOF _] => idtac | _ => reflexivity end | _ => idtac end.
  all: lazymatch goal with |- context [hd WEOF _] =>
    destruct i as [|d2 i]; [reflexivity|]; cbn [hd tail starts_with];
    destruct (Z.eqb_spec d2 (ch "=")); [subst d2|]; cbn [andb negb]; reflexivity | _ => idtac end.
  rewrite operator_cons. replace (operators_from (c_of l)) with (@nil (string * t_token)).
  { unfold read_other. cbv zeta. rewrite (proj2 (Z.eqb_neq (c_of l) WEOF)), (proj2 (Z.eqb_neq (c_of l) quote)),
      (proj2 (Z.eqb_neq (c_of l) (ch "$"))), (proj2 (Z.eqb_neq (c_of l) (ch ":"))) by assumption. done. }
  symmetry. apply operators_from_nil. revert Hc. clear Hi Hl. generalize dependent (c_of l).
  intros. unfold operators. repeat (constructor; [cbn [chars map String.list_ascii_of_string]; assumption|]).
  constructor.
Qed.

(** ** Progress and errors *)

(** [l'] has read a part of the input of [l]; where the token is and how its
    line is indented is the same. *)
Definition reads (l l' : t_lexer) : Prop :=
  (∃ n, (n ≤ length (input l))%nat ∧ v_reader l' = read n (v_reader l))
  ∧ v_at l' = v_at l ∧ v_indent l' = v_indent l ∧ v_newline l' = v_newline l.

(** An operation that reads, throws at the token, and terminates. *)
Definition reads_to {A} (pos : A → t_lexer) (l : t_lexer) (m : result t_error A) : Prop :=
  match m with
  | Ok a => reads l (pos a)
  | Throw e => e = {| error_message := "lexical error."; error_path := v_path; error_at := v_at l |}
  | Fault => False
  end.

Lemma reads_refl l l' :
  v_reader l' = v_reader l → v_at l' = v_at l → v_indent l' = v_indent l → v_newline l' = v_newline l →
  reads l l'.
Proof. intros H1 H2 H3 H4. split_and!; [exists 0%nat; split; [lia|done]|done..]. Qed.

Lemma reads_valid l l' : reads l l' → valid l → valid l'.
Proof. intros [(n & _ & ->) _] Hl. by apply read_ok. Qed.

Lemma reads_trans l1 l2 l3 : valid l1 → reads l1 l2 → reads l2 l3 → reads l1 l3.
Proof.
  intros Hl [(n & Hn & H1) (A1 & A2 & A3)] [(m & Hm & H2) (B1 & B2 & B3)].
  split_and!; try congruence. exists (n + m)%nat. rewrite read_add, <- H1. split; [|done].
  rewrite H1 in Hm. rewrite (proj2 (read_ok n _ Hl)), length_drop in Hm. lia.
Qed.

Lemma reads_skip l n : (n ≤ length (input l))%nat → reads l (skip n l).
Proof. intros Hn. split_and!; [by exists n|done..]. Qed.

Lemma reads_get l : valid l → c_of l ≠ WEOF → reads l (f_get l).
Proof. intros Hl Hc. apply (reads_skip l 1). rewrite (input_cons l Hl Hc). cbn. lia. Qed.

Lemma reads_to_bind {A B} (pA : A → t_lexer) (pB : B → t_lexer) l m (f : A → result t_error B) :
  valid l → reads_to pA l m →
  (∀ a, reads l (pA a) → valid (pA a) → reads_to pB (pA a) (f a)) →
  reads_to pB l (m ≫= f).
Proof.
  intros Hl Hm Hf. destruct m as [a|e|]; cbn in *; [|done|done].
  pose proof (reads_valid _ _ Hm Hl) as Hv. specialize (Hf a Hm Hv).
  destruct (f a); cbn in *; [by apply (reads_trans l (pA a))| |done].
  destruct Hm as [_ (Ha & _)]. by rewrite <- Ha.
Qed.

Lemma reads_throw {A} (pos : A → t_lexer) l : reads_to pos l (f_throw l).
Proof. done. Qed.

(** The same, from a lexer that differs in what is not read. *)
Lemma reads_to_get {A} (pos : A → t_lexer) l m :
  valid l → c_of l ≠ WEOF → reads_to pos (f_get l) m → reads_to pos l m.
Proof.
  intros Hl Hc Hm. destruct m; cbn in *; [|done|done].
  apply (reads_trans l (f_get l)); [done|by apply reads_get|done].
Qed.

Lemma reads_to_while {S} (p : Z → bool) act (act' : t_at → Z → S → result t_error S) l (s : S) :
  valid l → p WEOF = false → (∀ l s, act l s = act' (v_at l) (c_of l) s) →
  (∀ l s, match act l s with
          | Ok _ => True
          | Throw e => e = {| error_message := "lexical error."; error_path := v_path; error_at := v_at l |}
          | Fault => False
          end) →
  reads_to fst l (while_get p act l s).
Proof.
  intros Hl H0 Hact Hthrow. rewrite (while_get_ok p act act') by done. cbv zeta.
  set (n := count_while p (input l)). pose proof (count_while_length p (input l)) as Hn. fold n in Hn.
  assert (∀ u s, match fold_calls (λ s c, act' (v_at l) c s) s u with
    | Ok _ => True
    | Throw e => e = {| error_message := "lexical error."; error_path := v_path; error_at := v_at l |}
    | Fault => False end) as Hfold.
  { intros u. induction u as [|c u IH]; intros s0; cbn; [done|].
    specialize (Hthrow (with_reader l {| v_stream := []; v_tell := 0; v_position := 0; v_line := 0;
      v_column := 0; v_c := c |}) s0). rewrite Hact in Hthrow. cbn in Hthrow.
    destruct (act' (v_at l) c s0); [apply IH|done|done]. }
  specialize (Hfold (take n (input l)) s). destruct (fold_calls _ _ _); cbn; [|done|done].
  by apply reads_skip.
Qed.

Ltac reading_while := eapply reads_to_while; [done|done|intros; reflexivity|].

Lemma iswdigit_not_eof c : iswdigit c = true → c ≠ WEOF.
Proof. by intros ? ->. Qed.

Lemma push_reads l cs :
  match push l cs with
  | Ok _ => True
  | Throw e => e = {| error_message := "lexical error."; error_path := v_path; error_at := v_at l |}
  | Fault => False
  end.
Proof. unfold push. by case_decide. Qed.

Definition push_at (a : t_at) (c : Z) (cs : list Z) : result t_error (list Z) :=
  if decide (32 <= length cs)%nat
  then Throw {| error_message := "lexical error."; error_path := v_path; error_at := a |}
  else Ok (cs ++ [c]).

Lemma reads_digits l cs : valid l → reads_to fst l (while_get iswdigit push l cs).
Proof. intros Hl. apply (reads_to_while _ _ push_at); [done|done|done|apply push_reads]. Qed.

Lemma read_hexadecimal_reads l : valid l → c_of l ≠ WEOF → reads_to fst l (read_hexadecimal l).
Proof.
  intros Hl Hc. apply reads_to_get; [done|done|]. unfold read_hexadecimal. cbv zeta.
  case_match; [done|]. eapply (reads_to_while _ _ (λ _ c i, Ok (to_integer (i * 16 + hex_digit c))));
    [by apply input_get|done|done|done].
Qed.

Lemma read_octal_reads l : valid l → reads_to fst l (read_octal l).
Proof.
  intros Hl. unfold read_octal.
  eapply (reads_to_while _ _ (λ at_ c i, if ch "8" <=? c then
    Throw {| error_message := "lexical error."; error_path := v_path; error_at := at_ |}
    else Ok (to_integer (i * 8 + (c - ch "0"))))); [done|done|done|]. intros l0 i.
  by destruct (ch "8" <=? c_of l0).
Qed.

Lemma push_bind {B} (pos : B → t_lexer) l cs (f : list Z → result t_error B) :
  (∀ cs, reads_to pos l (f cs)) → reads_to pos l (cs ← push l cs; f cs).
Proof. intros Hf. unfold push. case_decide; [done|]. apply Hf. Qed.

Lemma eqb_not_eof c x : (c =? ch x) = true → c ≠ WEOF.
Proof. intros ->%Z.eqb_eq E. unfold ch, WEOF in E. lia. Qed.

Lemma read_fraction_reads l cs : valid l → c_of l ≠ WEOF → reads_to fst l (read_fraction l cs).
Proof.
  intros Hl Hc. unfold read_fraction. apply push_bind. intros cs1.
  apply reads_to_get; [done|done|]. destruct (input_get l Hl) as [Hl1 _].
  eapply (reads_to_bind fst); [done|by apply reads_digits|]. intros [l2 cs2] _ Hl2. cbn [fst] in *.
  destruct ((c_of l2 =? ch "E") || (c_of l2 =? ch "e")) eqn:Ee; [|by apply reads_refl].
  assert (Hc2 : c_of l2 ≠ WEOF) by (apply orb_prop in Ee as [?|?]; by eapply eqb_not_eof).
  apply push_bind. intros cs3. cbv zeta. apply reads_to_get; [done|done|].
  destruct (input_get l2 Hl2) as [Hl3 _].
  eapply (reads_to_bind fst); [done| |].
  - destruct ((c_of (f_get l2) =? ch "+") || (c_of (f_get l2) =? ch "-")) eqn:Es; [|by apply reads_refl].
    apply push_bind. intros cs4. apply reads_get; [done|]. apply orb_prop in Es as [?|?]; by eapply eqb_not_eof.
  - intros [l4 cs4] _ Hl4. cbn [fst] in *. case_match; [done|]. by apply reads_digits.
Qed.

Lemma reads_set {A} (m : result t_error (t_lexer * A)) (f : t_lexer → A → t_lexer) l :
  valid l → reads_to fst l m →
  (∀ l a, v_reader (f l a) = v_reader l ∧ v_at (f l a) = v_at l ∧ v_indent (f l a) = v_indent l
          ∧ v_newline (f l a) = v_newline l) →
  reads_to id l ('(l, a) ← m; Ok (f l a)).
Proof.
  intros Hl Hm Hf. eapply (reads_to_bind fst); [done|done|]. intros [l' a] _ _.
  apply reads_refl; apply Hf.
Qed.

Lemma read_number_reads l :
  valid l → iswdigit (c_of l) = true → reads_to id l (read_number l).
Proof.
  intros Hl Hc. pose proof (iswdigit_not_eof _ Hc) as Hne. unfold read_number. cbv zeta.
  set (zero := c_of l =? ch "0"). set (l1 := if zero then f_get l else l).
  assert (Hl1 : valid l1 ∧ reads l l1).
  { subst l1. destruct zero; [split; [by apply input_get|by apply reads_get]|].
    split; [done|by apply reads_refl]. }
  clearbody l1. destruct Hl1 as [Hl1 Hr].
  cut (reads_to id l1 (if zero && negb (c_of l1 =? ch ".") then
      '(l, i) ← (if (c_of l1 =? ch "X") || (c_of l1 =? ch "x") then read_hexadecimal l1 else read_octal l1);
      Ok (set c_token__INTEGER (with_datum l (Integer (Z.land i INTPTR_MAX))))
    else
      '(l, cs) ← while_get iswdigit push l1 [];
      if c_of l =? ch "." then
        '(l, cs) ← read_fraction (with_token l c_token__FLOAT) cs;
        match from_chars_float cs with Some f => Ok (with_datum l (Float f)) | None => f_throw l end
      else
        match from_chars_integer cs with
        | Some i => Ok (with_datum (with_token l c_token__INTEGER) (Integer i))
        | None => f_throw (with_token l c_token__INTEGER)
        end)).
  { intros Hm. destruct Hr as [Hn (Ha & Hind & Hnl)] eqn:Er.
    match goal with |- reads_to _ _ ?m => destruct m as [l2|e|]; cbn in *; [by apply (reads_trans l l1)| |done] end.
    by rewrite <- Ha. }
  destruct (zero && negb (c_of l1 =? ch ".")) eqn:Ez.
  - apply reads_set; [done| |done].
    destruct ((c_of l1 =? ch "X") || (c_of l1 =? ch "x")) eqn:Ex; [|by apply read_octal_reads].
    apply read_hexadecimal_reads; [done|]. apply orb_prop in Ex as [?|?]; by eapply eqb_not_eof.
  - eapply (reads_to_bind fst); [done|by apply reads_digits|]. intros [l2 cs] _ Hl2. cbn [fst] in *.
    destruct (c_of l2 =? ch ".") eqn:Ed.
    + eapply (reads_to_bind fst); [done|exact (read_fraction_reads (with_token l2 c_token__FLOAT) cs Hl2 (eqb_not_eof _ _ Ed))|].
      intros [l3 cs3] _ _. cbn [fst]. case_match; [by apply reads_refl|done].
    + case_match; [by apply reads_refl|done].
Qed.

Lemma read_string_reads l : valid l → c_of l ≠ WEOF → reads_to id l (read_string l).
Proof.
  intros Hl Hc. rewrite read_string_ok by done.
  destruct (unescape (tail (input l))) as [[s n]|] eqn:E; [|done].
  assert (n ≤ length (tail (input l)))%nat as Hn.
  { revert E. generalize (tail (input l)). clear. intros i. revert s n.
    induction i as [i IH] using (induction_ltof1 _ (@length Z)). unfold ltof in IH. intros s n.
    destruct i as [|c i]; [done|]. cbn [unescape length].
    destruct (c =? quote); [intros; simplify_eq; lia|]. destruct (c =? ch "\").
    - destruct i as [|x i]; [done|]. destruct (escape x); [|done].
      destruct (unescape i) as [[s' n']|] eqn:E; [|done]. intros. simplify_eq.
      specialize (IH i ltac:(cbn; lia) _ _ E). cbn. lia.
    - destruct (unescape i) as [[s' n']|] eqn:E; [|done]. intros. simplify_eq.
      specialize (IH i ltac:(cbn; lia) _ _ E). lia. }
  cbn. apply (reads_trans l (skip (S n) l)); [done| |by apply reads_refl].
  apply reads_skip. rewrite (input_cons l Hl Hc). cbn. lia.
Qed.

Lemma read_other_reads l : valid l → reads_to id l (read_other l).
Proof.
  intros Hl. unfold read_other. cbv zeta. destruct (Z.eqb_spec (c_of l) WEOF) as [|Hc]; [by apply reads_refl|].
  destruct (c_of l =? quote); [by apply read_string_reads|].
  destruct (c_of l =? ch "$").
  { apply reads_to_get; [done|done|]. destruct (input_get l Hl) as [Hl1 _].
    change (reads_to id (with_value (f_get l) []) (read_self l)). unfold read_self. cbv zeta.
    apply reads_set; [done| |done]. by apply (reads_to_while _ _ (λ _ c s, Ok (s ++ [c]))). }
  destruct (c_of l =? ch ":").
  { apply reads_to_get; [done|done|]. destruct (input_get l Hl) as [Hl1 _].
    apply reads_set; [done| |done]. by apply (reads_to_while _ _ (λ _ c n, Ok (n + 1))). }
  destruct (iswalpha (c_of l) || (c_of l =? ch "_")) eqn:Ea.
  { rewrite read_symbol_ok; [|done|].
    - cbn. assert (Hw : (length (symbol_of (input l)) ≤ length (input l))%nat)
        by (unfold symbol_of; rewrite length_take; lia).
      apply (reads_trans l (skip (length (symbol_of (input l))) l)); [done|by apply reads_skip|].
      case_match; by apply reads_refl.
    - unfold f_is_symbol, iswalnum. apply orb_prop in Ea as [->| ->]; [done|by rewrite orb_true_r]. }
  destruct (iswdigit (c_of l)) eqn:Ed; [by apply read_number_reads|done].
Qed.

Lemma read_token_reads l : valid l → reads_to id l (read_token l).
Proof.
  intros Hl. rewrite read_token_operator by done.
  destruct (operator (input l)) as [[s t]|] eqn:Eo; [|by apply read_other_reads].
  assert (Hp : chars s `prefix_of` input l).
  { revert Eo. unfold operator. induction operators as [|[s' t'] table IH]; [done|]. cbn.
    destruct (starts_with (chars s') (input l)) eqn:E; [|done]. intros [= -> ->]. by apply starts_with_ok. }
  apply prefix_length in Hp. cbn.
  apply (reads_trans l (skip (length (chars s)) l)); [done|by apply reads_skip|by apply reads_refl].
Qed.

(** ** Indentation *)

(** The rest of a line, its newline included. *)
Fixpoint line_length (i : list Z) : nat :=
  match i with
  | [] => 0
  | c :: i => if c =? newline then 1 else S (line_length i)
  end.

Definition blanks (i : list Z) : list Z := take (count_while is_blank i) i.

Definition comparable (s w : list Z) : bool := starts_with s w || starts_with w s.

Lemma f_skip_line_ok l :
  valid l → c_of l ≠ WEOF → f_skip_line l = Ok (skip (line_length (input l)) l).
Proof.
  unfold f_skip_line. pose proof (fuel_input l) as Hf. revert Hf. generalize (fuel l). intros f.
  revert l. induction f as [|f IH]; intros l Hf Hl Hc; [lia|].
  pose proof (input_cons l Hl Hc) as Hi. destruct (input_get l Hl) as [Hl1 Hi1]. cbn [loop].
  rewrite Hi. cbn [line_length]. destruct (Z.eqb_spec (c_of l) newline); [done|].
  cbv zeta. rewrite <- Hi1. destruct (Z.eqb_spec (c_of (f_get l)) WEOF) as [E|E].
  - assert (input (f_get l) = []) as ->; [|done].
    unfold remaining. rewrite decide_True by done. by apply Hl1.
  - cbn [mbind outcome_bind]. rewrite IH; [done| |done|done].
    rewrite Hi in Hf. rewrite Hi1. cbn in Hf. lia.
Qed.

Lemma match_indent_ok s : ∀ i l,
  valid l →
  match_indent s i l =
    (let w := blanks (input l) in
     let k := Nat.min (length s) (length w) in
     if comparable s w then Ok (skip k l, (i + k)%nat) else f_throw l).
Proof.
  induction s as [|c s IH]; intros i l Hl; cbv zeta; cbn [match_indent].
  { cbn. by rewrite skip_0, Nat.add_0_r. }
  rewrite (current l Hl). unfold blanks. destruct (input l) as [|d x] eqn:Ei; cbn [hd count_while].
  { rewrite is_blank_WEOF. cbn. by rewrite skip_0, Nat.add_0_r. }
  destruct (is_blank d) eqn:Ed; cbn [take].
  2:{ rewrite Nat.min_0_r. cbn. by rewrite skip_0, Nat.add_0_r. }
  unfold comparable. rewrite !starts_with_cons. rewrite (Z.eqb_sym c d).
  destruct (d =? c); cbn [andb orb]; [|done].
  destruct (input_get l Hl) as [Hl1 Hi1]. rewrite IH by done. rewrite Hi1, Ei. cbn [tail length Nat.min].
  unfold comparable, blanks. destruct (_ || _); [|done]. by rewrite Nat.add_succ_r.
Qed.

(** The reference: [i] is the input from the end of a line on and [s] the
    indentation of that line.  Every line up to the next one that is neither
    blank nor a comment has to be indented by a part or an extension of [s];
    the indentation of the latter is the result. *)
Inductive offside (s : list Z) : list Z → nat → option (list Z) → Prop :=
| offside_line i :
  let line := drop (line_length i) i in
  let w := blanks line in
  comparable s w = true → is_skipped (hd WEOF (drop (length w) line)) = false →
  offside s i (line_length i + length w) (Some w)
| offside_skip i m o :
  let line := drop (line_length i) i in
  let w := blanks line in
  comparable s w = true → is_skipped (hd WEOF (drop (length w) line)) = true →
  offside s (drop (length w) line) m o →
  offside s i (line_length i + length w + m) o
| offside_error i :
  comparable s (blanks (drop (line_length i) i)) = false →
  offside s i 0 None.

Lemma length_blanks i : length (blanks i) = count_while is_blank i.
Proof. unfold blanks. rewrite length_take. pose proof (count_while_length is_blank i). lia. Qed.

Lemma blanks_take_drop i k :
  (k ≤ length (blanks i))%nat → count_while is_blank (drop k i) = (length (blanks i) - k)%nat
  ∧ take (length (blanks i) - k) (drop k i) = drop k (blanks i).
Proof.
  rewrite length_blanks. unfold blanks. revert k. induction i as [|c i IH]; intros k Hk.
  { cbn in Hk. by replace k with 0%nat by lia. }
  destruct k as [|k]; [by rewrite !drop_0, Nat.sub_0_r|]. cbn in *.
  destruct (is_blank c) eqn:E; cbn in *; [|lia]. apply IH. lia.
Qed.

Lemma comparable_min s w :
  comparable s w = true →
  s ++ drop (Nat.min (length s) (length w)) w = (if decide (length s ≤ length w)%nat then w else s)
  ∧ take (Nat.min (length s) (length w)) s = take (Nat.min (length s) (length w)) w.
Proof.
  intros [Hp|Hp]%orb_prop; apply starts_with_ok in Hp as [x ->]; rewrite length_app.
  - rewrite decide_True by lia. rewrite Nat.min_l by lia. rewrite drop_app_length, take_app_length, firstn_all. done.
  - rewrite Nat.min_r by lia. rewrite drop_all, app_nil_r, take_app_length, firstn_all. split; [|done].
    case_decide; [|done]. destruct x; [by rewrite app_nil_r|cbn in *; lia].
Qed.

(** Reading the indentation of a line after comparing it. *)
Lemma line_indent_ok l s :
  valid l → v_indent l = s → comparable s (blanks (input l)) = true →
  let w := blanks (input l) in
  let k := Nat.min (length s) (length w) in
  f_read_indent (skip k l)
  = Ok (with_indent (skip (length w) l) (if decide (length s ≤ length w)%nat then w else s)).
Proof.
  intros Hl Hs Hcmp w k. rewrite f_read_indent_ok by by apply valid_skip. cbv zeta.
  rewrite input_skip by done. destruct (blanks_take_drop (input l) k) as [H1 H2]; [subst k w; lia|].
  fold w in H1, H2. rewrite H1, H2. change (v_indent (skip k l)) with (v_indent l). rewrite Hs.
  destruct (comparable_min s w Hcmp) as [H3 _]. fold k in H3. rewrite H3.
  change (with_indent (skip (length w - k) (skip k l)) ?x) with (with_indent (skip (length w - k) (skip k l)) x).
  rewrite <- skip_add. do 3 f_equal. subst k. lia.
Qed.

Lemma next_line_ok l :
  valid l → is_skipped (c_of l) = true →
  ∃ m o, offside (v_indent l) (input l) m o
  ∧ next_line l = match o with Some w => Ok (with_indent (skip m l) w) | None => f_throw l end.
Proof.
  unfold next_line. pose proof (fuel_input l) as Hf. revert Hf. generalize (fuel l). intros f.
  revert l. induction f as [|f IH]; intros l Hf Hl Hsk; [lia|]. cbn [loop].
  assert (Hc : c_of l ≠ WEOF) by (intros E; by rewrite E in Hsk).
  rewrite f_skip_line_ok by done. cbn [mbind outcome_bind].
  set (n := line_length (input l)). set (l1 := skip n l).
  assert (Hl1 : valid l1) by by apply valid_skip.
  assert (Hi1 : input l1 = drop n (input l)) by by apply input_skip.
  change (v_indent l1) with (v_indent l). set (s := v_indent l). rewrite match_indent_ok by done. cbv zeta.
  rewrite Hi1. set (w := blanks (drop n (input l))).
  destruct (comparable s w) eqn:Hcmp.
  2:{ exists 0%nat, None. split; [by apply offside_error|done]. }
  cbn [mbind outcome_bind]. pose proof (line_indent_ok l1 s Hl1 eq_refl) as Hind. cbv zeta in Hind.
  rewrite Hi1 in Hind. fold w in Hind. rewrite (Hind Hcmp). clear Hind. cbn [mbind outcome_bind].
  set (l2 := with_indent _ _).
  assert (Hc2 : c_of l2 = hd WEOF (drop (length w) (drop n (input l)))).
  { change (c_of l2) with (c_of (skip (length w) l1)). by rewrite current_skip, Hi1. }
  rewrite Hc2. destruct (is_skipped (hd WEOF (drop (length w) (drop n (input l))))) eqn:Esk; cbn [negb].
  - cbn [mbind outcome_bind].
    assert (Hl2 : (if decide (length s < length (v_indent l2))%nat
              then with_indent l2 (f_rewind (length s) (v_indent l2)) else l2)
            = skip (n + length w) l).
    { rewrite skip_add. fold l1. subst l2. cbn [v_indent with_indent]. unfold f_rewind.
      assert (Hback : ∀ x, x = s → with_indent (skip (length w) l1) x = skip (length w) l1) by (by intros x ->).
      set (v := if decide (length s ≤ length w)%nat then w else s).
      assert (Hv : take (length s) v = s ∧ (length s ≤ length v)%nat).
      { subst v. pose proof (comparable_min s w Hcmp) as [_ Hmin].
        case_decide; [rewrite Nat.min_l in Hmin by lia; rewrite <- Hmin|]; by rewrite firstn_all. }
      destruct Hv as [Hv Hlen]. clearbody v. destruct (decide (length s < length v)%nat).
      - change (with_indent (with_indent ?a ?b) ?c) with (with_indent a c). by apply Hback.
      - apply Hback. by rewrite <- Hv, take_ge by lia. }
    rewrite Hl2. destruct (IH (skip (n + length w) l)) as (m & o & Ho & Heq).
    + rewrite input_skip, length_drop by done. pose proof (input_cons l Hl Hc) as Hi.
      assert (1 ≤ n)%nat by (subst n; rewrite Hi; cbn; destruct (c_of l =? newline); lia).
      apply (f_equal length) in Hi. cbn in Hi. lia.
    + by apply valid_skip.
    + rewrite current_skip by done. by rewrite <- drop_drop.
    + rewrite Heq. exists (n + length w + m)%nat, o. split.
      * apply offside_skip; [done|done|]. rewrite input_skip in Ho by done.
        change (v_indent (skip (n + length w) l)) with s in Ho. by rewrite <- drop_drop in Ho.
      * destruct o; [|done]. by rewrite <- skip_add.
  - exists (n + length w)%nat, (Some w). split; [by apply offside_line|]. cbn [mbind outcome_bind].
    rewrite skip_add. fold l1. subst l2. cbn [v_indent with_indent]. unfold f_rewind.
    pose proof (comparable_min s w Hcmp) as [_ Hmin].
    destruct (decide (length s ≤ length w)%nat).
    + rewrite decide_False by lia. done.
    + rewrite decide_True by lia. rewrite Nat.min_r in * by lia. rewrite Nat.add_0_l. rewrite Hmin, firstn_all. done.
Qed.

(** What the reference says of the result: the token's line is preceded by a
    complete line, its indentation consists of blanks and is comparable with
    the one before. *)
Lemma offside_sound s i m w :
  offside s i m (Some w) →
  ∃ u, i = u ++ w ++ drop m i ∧ m = (length u + length w)%nat ∧ (m ≤ length i)%nat
  ∧ Forall (λ c, is_blank c = true) w ∧ is_blank (hd WEOF (drop m i)) = false
  ∧ is_skipped (hd WEOF (drop m i)) = false ∧ comparable s w = true
  ∧ ((∃ u', u = u' ++ [newline]) ∨ drop m i = []).
Proof.
  assert (Hline : ∀ i, (line_length i ≤ length i)%nat
      ∧ ((∃ u', take (line_length i) i = u' ++ [newline]) ∨ drop (line_length i) i = [])).
  { clear. induction i as [|c i IH]; cbn; [by split; [|right]|].
    destruct (Z.eqb_spec c newline) as [->|]; cbn; [split; [lia|left; by exists []]|].
    destruct IH as [IH1 [(u' & IH2)|IH2]]; (split; [lia|]); [left|by right].
    exists (c :: u'). by rewrite IH2. }
  remember (Some w) as o eqn:Eo. intros Ho. revert w Eo. induction Ho as [i line w Hcmp Hsk|i m o line w Hcmp Hsk Ho IH|i Hcmp];
    intros w1 Eo; [assert (w1 = w) as -> by congruence| |done].
  - destruct (Hline i) as [Hlen Hend]. exists (take (line_length i) i).
    rewrite length_take, Nat.min_l by done. rewrite <- (drop_drop i (length w) (line_length i)).
    fold line. pose proof (length_blanks line) as Hbl. fold w in Hbl.
    assert (Hlw : (length w ≤ length line)%nat) by (rewrite Hbl; apply count_while_length).
    split_and!.
    + unfold w at 1, blanks. rewrite Hbl, take_drop. unfold line. by rewrite take_drop.
    + done.
    + unfold line in Hlw. rewrite length_drop in Hlw. lia.
    + apply count_while_Forall.
    + rewrite Hbl. apply count_while_stop, is_blank_WEOF.
    + done.
    + done.
    + destruct Hend as [?|Hend]; [by left|right]. fold line in Hend. by rewrite Hend, drop_nil.
  - subst o. destruct (IH w1 eq_refl) as (u & Hi & Hm & Hle & H1 & H2 & H3 & H4 & H5).
    destruct (Hline i) as [Hlen _]. pose proof (length_blanks line) as Hbl. fold w in Hbl.
    assert (Hlw : (length w ≤ length line)%nat) by (rewrite Hbl; apply count_while_length).
    assert (Hd : drop (line_length i + length w + m) i = drop m (drop (length w) line)).
    { unfold line. rewrite !drop_drop. f_equal. lia. }
    exists (take (line_length i) i ++ w ++ u). rewrite Hd.
    rewrite !length_app, length_take, Nat.min_l by done.
    rewrite length_drop in Hle. assert (length line = (length i - line_length i)%nat) by apply length_drop.
    split_and!; try done; try lia.
    + rewrite <- !app_assoc, <- Hi. unfold w at 1, blanks. rewrite Hbl, take_drop. unfold line. by rewrite take_drop.
    + destruct H5 as [(u' & ->)|]; [left|by right].
      exists (take (line_length i) i ++ w ++ u'). by rewrite <- !app_assoc.
Qed.

(** What may stand between tokens: blanks, line ends, and comments up to the
    end of their line.  [comment_after b w] tells whether a comment is open
    after [w], when [b] tells it before [w]. *)
Fixpoint comment_after (b : bool) (w : list Z) : option bool :=
  match w with
  | [] => Some b
  | c :: w =>
    if c =? newline then comment_after false w
    else if b then comment_after true w
    else if is_blank c then comment_after false w
    else if c =? ch "#" then comment_after true w
    else None
  end.

(** [w] separates a token from the token that the rest [i] begins with: no
    comment is open, unless the source ends, and no more of it can be skipped. *)
Definition separates (w i : list Z) : Prop :=
  (comment_after false w = Some false ∨ comment_after false w = Some true ∧ i = [])
  ∧ is_blank (hd WEOF i) = false ∧ is_skipped (hd WEOF i) = false.

Lemma comment_after_app b w w' :
  comment_after b (w ++ w') = match comment_after b w with Some b => comment_after b w' | None => None end.
Proof. revert b. induction w as [|c w IH]; intros b; [done|]. cbn. rewrite !IH. by repeat case_match. Qed.

Lemma comment_after_blanks w : Forall (λ c, is_blank c = true) w → comment_after false w = Some false.
Proof.
  induction 1 as [|c w Hc _ IH]; [done|]. cbn. rewrite Hc, IH. by case_match.
Qed.

(** Behind a comment, and a line that is left. *)
Lemma comment_line i :
  comment_after true (take (line_length i) i) = Some false
  ∨ comment_after true (take (line_length i) i) = Some true ∧ drop (line_length i) i = [].
Proof.
  induction i as [|c i IH]; cbn; [by right|]. destruct (Z.eqb_spec c newline) as [->|Hc]; cbn; [by left|].
  by rewrite (proj2 (Z.eqb_neq _ _) Hc).
Qed.

Lemma skipped_line i :
  is_blank (hd WEOF i) = false → is_skipped (hd WEOF i) = true →
  comment_after false (take (line_length i) i) = Some false
  ∨ comment_after false (take (line_length i) i) = Some true ∧ drop (line_length i) i = [].
Proof.
  destruct i as [|c i]; [done|]. cbn. intros Hb Hs. destruct (Z.eqb_spec c newline) as [->|Hc]; cbn; [by left|].
  rewrite (proj2 (Z.eqb_neq _ _) Hc), Hb. unfold is_skipped in Hs. rewrite (proj2 (Z.eqb_neq _ _) Hc) in Hs.
  cbn in Hs. rewrite Hs. apply comment_line.
Qed.

(** The way to the token of another line separates. *)
Lemma offside_separates s i m w :
  offside s i m (Some w) → is_blank (hd WEOF i) = false → is_skipped (hd WEOF i) = true →
  separates (take m i) (drop m i).
Proof.
  intros Ho Hb Hs. destruct (offside_sound _ _ _ _ Ho) as (_ & _ & _ & _ & _ & Hb' & Hs' & _).
  split; [|done]. clear Hb' Hs'.
  assert (Hpart : ∀ i, let line := drop (line_length i) i in let w := blanks line in
    is_blank (hd WEOF i) = false → is_skipped (hd WEOF i) = true →
    take (line_length i + length w) i = take (line_length i) i ++ w ∧
    (comment_after false (take (line_length i) i ++ w) = Some false ∨
     comment_after false (take (line_length i) i ++ w) = Some true ∧ line = [])).
  { clear. intros i line w Hb Hs. split.
    - rewrite <- take_take_drop. fold line. f_equal. unfold w at 1. by rewrite length_blanks.
    - rewrite comment_after_app. destruct (skipped_line i Hb Hs) as [->|[-> Hl]]; [|fold line in Hl].
      + left. apply comment_after_blanks, count_while_Forall.
      + right. split; [|done]. unfold w. by rewrite Hl. }
  remember (Some w) as o eqn:Eo. induction Ho as [i line w' Hcmp Hsk|i m o line w' Hcmp Hsk Ho IH|i Hcmp]; [| |done].
  - pose proof (Hpart i Hb Hs) as Hp. cbv zeta in Hp. fold line in Hp. fold w' in Hp.
    destruct Hp as [-> [?|[? Hl]]]; [by left|right]. split; [done|]. rewrite <- (drop_drop i (length w') (line_length i)). fold line. by rewrite Hl, drop_nil.
  - pose proof (Hpart i Hb Hs) as Hp. cbv zeta in Hp. fold line in Hp. fold w' in Hp. destruct Hp as [Ht Hc].
    assert (Hd : drop (length w') line = drop (line_length i + length w') i) by (unfold line; by rewrite drop_drop).
    destruct Hc as [Hc|[_ Hl]].
    2: { rewrite Hl, drop_nil in Hsk. done. }
    rewrite <- take_take_drop, <- (drop_drop i m), comment_after_app, Ht, Hc, <- Hd.
    apply IH; [done|..|done]. unfold w'. rewrite length_blanks. apply count_while_stop, is_blank_WEOF.
Qed.

(** ** Positions *)

(** The line a text ends in. *)
Definition last_line (u : list Z) : list Z :=
  foldl (λ s c, if decide (c = newline) then [] else s ++ [c]) [] u.

Definition newlines (u : list Z) : nat := length (List.filter (λ c, c =? newline) u).

Fixpoint bytes (u : list Z) : Z := match u with [] => 0 | c :: u => width c + bytes u end.

(** The position of the character after [u]: the offset of its line in bytes,
    the line and the column, counted from 1. *)
Definition at_of (u : list Z) : t_at :=
  {| at_position := bytes u - bytes (last_line u);
     at_line := 1 + Z.of_nat (newlines u);
     at_column := 1 + Z.of_nat (length (last_line u)) |}.

(** The reader is at the character after [u]. *)
Definition located (u : list Z) (r : t_reader) : Prop :=
  {| at_position := v_position r; at_line := v_line r; at_column := v_column r |} = at_of u
  ∧ v_tell r = bytes u + (if decide (v_c r = WEOF) then 0 else width (v_c r)).

Lemma bytes_app u x : bytes (u ++ x) = bytes u + bytes x.
Proof. induction u as [|c u IH]; cbn; [done|]. rewrite IH. lia. Qed.

Lemma last_line_snoc u c :
  last_line (u ++ [c]) = if decide (c = newline) then [] else last_line u ++ [c].
Proof. unfold last_line. by rewrite foldl_app. Qed.

Lemma newlines_snoc u c : newlines (u ++ [c]) = (newlines u + (if decide (c = newline) then 1 else 0))%nat.
Proof.
  unfold newlines. rewrite List.filter_app, length_app. cbn.
  destruct (Z.eqb_spec c newline); case_decide; done.
Qed.

Lemma located_get u r :
  valid_reader r → v_c r ≠ WEOF → located u r → located (u ++ [v_c r]) (get_reader r).
Proof.
  intros [_ Hs] Hc [Hat Htell]. unfold at_of in Hat. injection Hat as Hp Hl Hcol.
  rewrite decide_False in Htell by done. unfold get_reader, getwc, located, at_of.
  rewrite last_line_snoc, newlines_snoc, bytes_app. cbn [bytes].
  destruct (decide (v_c r = newline)) as [En|En]; cbn [v_stream];
    destruct (v_stream r) as [|x y]; cbn [v_position v_line v_column v_tell v_c];
    rewrite ?(decide_True (P := WEOF = WEOF)) by done;
    try (apply Forall_cons in Hs as [? _]; rewrite decide_False by done);
    (split; [|lia]); f_equal; rewrite ?bytes_app, ?length_app; cbn [bytes length]; lia.
Qed.

Lemma located_read n : ∀ u r,
  valid_reader r → (n ≤ length (remaining r))%nat → located u r →
  located (u ++ take n (remaining r)) (read n r).
Proof.
  induction n as [|n IH]; intros u r Hr Hn Hu; [by rewrite app_nil_r|]. cbn [read].
  assert (Hc : v_c r ≠ WEOF).
  { intros E. unfold remaining in Hn. rewrite decide_True in Hn by done. destruct Hr as [Hr _].
    rewrite (Hr E) in Hn. cbn in Hn. lia. }
  destruct (get_reader_ok r Hr) as [Hr1 Hi1].
  assert (Hi : remaining r = v_c r :: tail (remaining r)) by (unfold remaining; by rewrite decide_False).
  rewrite Hi in Hn |- *. cbn [take tail length] in *. rewrite <- Hi1 in Hn |- *.
  specialize (IH (u ++ [v_c r]) _ Hr1 ltac:(lia) (located_get u r Hr Hc Hu)).
  by rewrite <- app_assoc in IH.
Qed.

Lemma open_ok text :
  Forall (λ c, c ≠ WEOF) text → valid (open text) ∧ input (open text) = text
  ∧ located [] (v_reader (open text)).
Proof.
  intros Ht. unfold valid_reader, remaining, located, open, getwc.
  destruct text as [|c text]; cbn [v_stream v_reader v_c v_tell v_position v_line v_column].
  - rewrite decide_True by done. done.
  - apply Forall_cons in Ht as [Hc Ht]. rewrite decide_False by done. split_and!; try done. cbn. by rewrite decide_False.
Qed.

(** ** The lexer as a whole *)

Lemma mark_at u l : located u (v_reader l) → v_at (mark l) = at_of u.
Proof. by intros [? _]. Qed.

(** Reading on within the text. *)
Definition in_text (text : list Z) (l : t_lexer) : Prop :=
  valid l ∧ ∃ u, text = u ++ input l ∧ located u (v_reader l).

Lemma in_text_skip text u n l :
  valid l → text = u ++ input l → located u (v_reader l) → (n ≤ length (input l))%nat →
  text = (u ++ take n (input l)) ++ input (skip n l)
  ∧ located (u ++ take n (input l)) (v_reader (skip n l)).
Proof.
  intros Hl Ht Hu Hn. rewrite input_skip, <- app_assoc, take_drop by done.
  split; [done|]. by apply located_read.
Qed.

Lemma hd_drop_length (i : list Z) n : hd WEOF (drop n i) ≠ WEOF → (n < length i)%nat.
Proof.
  intros Hh. destruct (decide (n < length i)%nat); [done|]. by rewrite drop_ge in Hh by lia.
Qed.

(** What a call of [f_next] does to the lexer: what it reads is a separation
    [w], and the characters [t] of the token; [v_at] is the position of the
    first of these, and the rest of the state is what [read_token] makes of
    them, from a state at that position. *)
Record next_token (text : list Z) (l l' : t_lexer) : Prop := {
  nt_text : in_text text l';
  nt_span : ∃ u w t l2, text = u ++ input l ∧ input l = w ++ t ++ input l'
            ∧ separates w (t ++ input l')
            ∧ v_at l' = at_of (u ++ w)
            ∧ located (u ++ w) (v_reader l2) ∧ input l2 = t ++ input l'
            ∧ read_token (mark l2) = Ok l'
            ∧ (v_token l' = c_token__EOF ∨ t ≠ []);
  nt_indent : if v_newline l' then comparable (v_indent l) (v_indent l') = true
              else v_indent l' = v_indent l
}.

(** The way to the token: blanks, or the rest of the line and the indentation
    of the next one. *)
Lemma to_token_ok u l :
  valid l → located u (v_reader l) →
  let k := count_while is_blank (input l) in
  let l1 := with_newline (skip k l) (is_skipped (c_of (skip k l))) in
  match (if v_newline l1 then next_line l1 else Ok l1) with
  | Ok l2 => valid l2 ∧ (∃ w, input l = w ++ input l2 ∧ located (u ++ w) (v_reader l2) ∧ separates w (input l2))
             ∧ v_newline l2 = v_newline l1
             ∧ (if v_newline l2 then comparable (v_indent l) (v_indent l2) = true
                else v_indent l2 = v_indent l)
  | Throw e => e = {| error_message := "lexical error."; error_path := v_path; error_at := v_at l |}
  | Fault => False
  end.
Proof.
  intros Hl Hu k l1. pose proof (count_while_length is_blank (input l)) as Hk. fold k in Hk.
  assert (Ht : u ++ input l = u ++ input l) by done.
  destruct (in_text_skip _ u k l Hl Ht Hu Hk) as [_ Hu1].
  assert (Hl1 : valid l1) by by apply (valid_skip k l).
  assert (Hbk : comment_after false (take k (input l)) = Some false) by apply comment_after_blanks, count_while_Forall.
  assert (Hb : is_blank (c_of l1) = false).
  { change (c_of l1) with (c_of (skip k l)). rewrite current_skip by done.
    apply count_while_stop, is_blank_WEOF. }
  assert (Hi1 : input l1 = drop k (input l)) by by apply (input_skip k l).
  rewrite current in Hb by done.
  destruct (v_newline l1) eqn:Enl; assert (Hs := Enl); change (v_newline l1) with (is_skipped (c_of l1)) in Hs;
    rewrite current in Hs by done.
  - assert (Hsk : is_skipped (c_of l1) = true) by by rewrite current.
    destruct (next_line_ok l1 Hl1 Hsk) as (m & [w|] & Ho & ->); [|done].
    destruct (offside_sound _ _ _ _ Ho) as (v & _ & _ & Hm & _ & _ & _ & Hcmp & _).
    destruct (offside_separates _ _ _ _ Ho Hb Hs) as [Hsep Hend].
    set (l2 := with_indent (skip m l1) w). cbv iota.
    destruct (in_text_skip _ (u ++ take k (input l)) m l1 Hl1 (eq_refl _) Hu1 Hm) as [_ Hu2].
    assert (Hi2 : input l2 = drop m (input l1)) by by apply (input_skip m l1).
    split_and!.
    + by apply (valid_skip m l1).
    + exists (take k (input l) ++ take m (input l1)). rewrite Hi2, app_assoc. split_and!; [|done|].
      * by rewrite <- app_assoc, take_drop, Hi1, take_drop.
      * split; [|done]. by rewrite comment_after_app, Hbk.
    + done.
    + assert (v_newline l2 = true) as -> by exact Enl. exact Hcmp.
  - split_and!; try done.
    + exists (take k (input l)). split_and!; [by rewrite Hi1, take_drop|done|]. split; [by left|done].
    + assert (v_newline l1 = false) as -> by exact Enl. done.
Qed.

(** *** Termination *)

Lemma reads_shorter l l' : valid l → reads l l' → (length (input l') ≤ length (input l))%nat.
Proof.
  intros Hl [(n & _ & ->) _]. rewrite (proj2 (read_ok n _ Hl)), length_drop. lia.
Qed.

Lemma get_shorter l : valid l → c_of l ≠ WEOF → S (length (input (f_get l))) = length (input l).
Proof.
  intros Hl Hc. destruct (input_get l Hl) as [_ Hi]. rewrite Hi, (input_cons l Hl Hc). done.
Qed.

Lemma read_number_progress l l' :
  valid l → iswdigit (c_of l) = true → read_number l = Ok l' → (length (input l') < length (input l))%nat.
Proof.
  intros Hl Hc. pose proof (iswdigit_not_eof _ Hc) as Hne. pose proof (get_shorter l Hl Hne) as Hget.
  unfold read_number. cbv zeta. set (zero := c_of l =? ch "0"). set (l1 := if zero then f_get l else l).
  assert (Hl1 : valid l1) by (subst l1; destruct zero; [by apply input_get|done]).
  destruct (zero && negb (c_of l1 =? ch ".")) eqn:Ez.
  - apply andb_prop in Ez as [Ez _]. assert (Hlen : S (length (input l1)) = length (input l)) by (subst l1; by rewrite Ez).
    clearbody l1. intros H1.
    assert (Hr : reads_to id l1 (Ok l')); [|apply (reads_shorter _ l') in Hr; [lia|done]].
    rewrite <- H1. apply reads_set; [done| |done].
    destruct ((c_of l1 =? ch "X") || (c_of l1 =? ch "x")) eqn:Ex; [|by apply read_octal_reads].
    apply read_hexadecimal_reads; [done|]. apply orb_prop in Ex as [?|?]; by eapply eqb_not_eof.
  - rewrite (while_get_ok iswdigit push push_at) by done. cbv zeta.
    set (n := count_while iswdigit (input l1)). pose proof (count_while_length iswdigit (input l1)) as Hn. fold n in Hn.
    assert (Hlen : (length (input (skip n l1)) < length (input l))%nat).
    { rewrite input_skip, length_drop by done. destruct zero eqn:E0; [subst l1; lia|].
      assert (1 ≤ n)%nat; [|subst l1; lia].
      subst n l1. rewrite (input_cons l Hl Hne). cbn [count_while]. rewrite Hc. lia. }
    assert (Hln : valid (skip n l1)) by by apply valid_skip.
    destruct (fold_calls _ _ _) as [cs| |]; cbn [mbind outcome_bind]; [|done|done].
    destruct (c_of (skip n l1) =? ch ".") eqn:Ed.
    + pose proof (read_fraction_reads (with_token (skip n l1) c_token__FLOAT) cs Hln (eqb_not_eof _ _ Ed)) as Hr.
      destruct (read_fraction _ cs) as [[l3 cs3]| |]; cbn [mbind outcome_bind]; [|done|done].
      apply (reads_shorter _ l3) in Hr; [|done].
      change (input (with_token (skip n l1) c_token__FLOAT)) with (input (skip n l1)) in Hr.
      destruct (from_chars_float cs3); [|done]. intros [= <-]. change (input (with_datum l3 ?d)) with (input l3). lia.
    + destruct (from_chars_integer cs); [|done]. intros [= <-].
      change (input (with_datum (with_token ?l ?t) ?d)) with (input l). lia.
Qed.

Lemma read_token_progress l l' :
  valid l → read_token l = Ok l' →
  v_token l' = c_token__EOF ∨ (length (input l') < length (input l))%nat.
Proof.
  intros Hl. rewrite read_token_operator by done.
  destruct (operator (input l)) as [[s t]|] eqn:Eo.
  - intros [= <-]. right. change (input (with_token ?l t)) with (input l).
    assert (Hs : chars s `prefix_of` input l ∧ chars s ≠ []).
    { assert (Hne : Forall (λ '(s, _), chars s ≠ []) operators) by (repeat constructor; discriminate).
      revert Eo. unfold operator. induction Hne as [|[s' t'] table Hs' Hne IH]; [done|]. cbn.
      destruct (starts_with (chars s') (input l)) eqn:E; [|done]. intros [= -> ->].
      split; [by apply starts_with_ok|done]. }
    destruct Hs as [Hp%prefix_length Hs]. rewrite input_skip, length_drop by done.
    destruct (chars s); [done|cbn in *; lia].
  - unfold read_other. cbv zeta. destruct (Z.eqb_spec (c_of l) WEOF) as [|Hc]; [intros [= <-]; by left|].
    intros Heq. right. pose proof (get_shorter l Hl Hc) as Hget. destruct (input_get l Hl) as [Hl1 _].
    destruct (c_of l =? quote).
    { rewrite read_string_ok in Heq by done. destruct (unescape _) as [[s n]|]; [|done]. injection Heq as <-.
      change (input (skip (S n) ?x)) with (input (skip (S n) l)). rewrite input_skip, length_drop by done. lia. }
    destruct (c_of l =? ch "$").
    { unfold read_self in Heq. cbv zeta in Heq.
      assert (Hr : reads_to id (with_value (f_get l) []) (Ok l')).
      { rewrite <- Heq. apply reads_set; [done| |done]. by apply (reads_to_while _ _ (λ _ c s, Ok (s ++ [c]))). }
      apply (reads_shorter _ l') in Hr; [|done]. change (input (with_value (f_get l) [])) with (input (f_get l)) in Hr.
      lia. }
    destruct (c_of l =? ch ":").
    { unfold read_colons in Heq. assert (Hr : reads_to id (f_get l) (Ok l')).
      { rewrite <- Heq. apply reads_set; [done| |done]. by apply (reads_to_while _ _ (λ _ c n, Ok (n + 1))). }
      apply (reads_shorter _ l') in Hr; [|done]. lia. }
    destruct (iswalpha (c_of l) || (c_of l =? ch "_")) eqn:Ea.
    { assert (Hsym : f_is_symbol (c_of l) = true).
      { unfold f_is_symbol, iswalnum. apply orb_prop in Ea as [->| ->]; [done|by rewrite orb_true_r]. }
      rewrite read_symbol_ok in Heq by done.
      assert (Hlen : input l' = input (skip (length (symbol_of (input l))) l)) by (injection Heq as <-; by case_match).
      rewrite Hlen, input_skip, length_drop by done. rewrite (input_cons l Hl Hc).
      rewrite symbol_of_cons by done. cbn. lia. }
    destruct (iswdigit (c_of l)) eqn:Ed; [by apply read_number_progress|done].
Qed.

Lemma f_next_ok text l :
  in_text text l →
  match f_next l with
  | Ok l' => next_token text l l'
  | Throw e => error_message e = "lexical error."%string ∧ error_path e = v_path
               ∧ (error_at e = v_at l
                  ∨ ∃ u w i, text = u ++ input l ∧ input l = w ++ i ∧ separates w i ∧ error_at e = at_of (u ++ w))
  | Fault => False
  end.
Proof.
  intros [Hl (u & Ht & Hu)]. pose proof (to_token_ok u l Hl Hu) as Hto. cbv zeta in Hto. unfold f_next.
  rewrite skip_blanks_ok by done. cbn [mbind outcome_bind].
  set (l1 := with_newline _ _) in *. cbv zeta.
  destruct (if v_newline l1 then next_line l1 else Ok l1) as [l2|e|]; cbn [mbind outcome_bind];
    [|subst e; split_and!; [done|done|by left]|done].
  destruct Hto as (Hl2 & (w & Hw & Hu2 & Hsep) & Hnl & Hind).
  assert (Hlm : valid (mark l2)) by done.
  pose proof (read_token_reads (mark l2) Hlm) as Hr. pose proof (read_token_progress (mark l2)) as Hprog.
  destruct (read_token (mark l2)) as [l3|e|] eqn:E3; cbn in Hr; [|subst e; split_and!; [done|done|right]|done].
  - destruct Hr as [(n & Hn & Hr) (Ha & Hi3 & Hn3)]. cbn [v_reader mark with_at] in Hn, Hr.
    assert (Ht2 : text = (u ++ w) ++ input l2) by (by rewrite <- app_assoc, <- Hw).
    destruct (in_text_skip text (u ++ w) n l2 Hl2 Ht2 Hu2 Hn) as [Ht3 Hu3].
    assert (Hinp : input l3 = drop n (input l2)) by (rewrite Hr; by apply read_ok).
    assert (Htail : take n (input l2) ++ input l3 = input l2) by (by rewrite Hinp, take_drop).
    split.
    + split; [rewrite Hr; by apply read_ok|]. exists ((u ++ w) ++ take n (input l2)). rewrite Hinp, Hr.
      rewrite input_skip in Ht3 by done. done.
    + exists u, w, (take n (input l2)), l2. rewrite Htail, Ha. split_and!; try done; [by apply mark_at|].
      destruct (Hprog l3 Hlm eq_refl) as [?|Hlt]; [by left|right]. intros E.
      change (input (mark l2)) with (input l2) in Hlt. rewrite <- Htail, E in Hlt. cbn in Hlt. lia.
    + rewrite Hn3, Hi3. cbn. done.
  - exists u, w, (input l2). split_and!; [done|done|done|]. by apply mark_at.
Qed.

Lemma f_next_progress text l l' :
  in_text text l → f_next l = Ok l' →
  v_token l' = c_token__EOF ∨ (length (input l') < length (input l))%nat.
Proof.
  intros Hin Heq. pose proof (f_next_ok text l Hin) as Hok. rewrite Heq in Hok.
  destruct (nt_span _ _ _ Hok) as (u & w & t & l2 & _ & -> & _ & _ & _ & _ & _ & [?|Ht]); [by left|right].
  rewrite !length_app. destruct t; [done|cbn; lia].
Qed.

Lemma first_line_ok text :
  Forall (λ c, c ≠ WEOF) text → ∃ l, first_line (open text) = Ok l ∧ in_text text l
  ∧ Forall (λ c, is_blank c = true) (v_indent l).
Proof.
  intros Htext. destruct (open_ok text Htext) as (Hl & Hi & Hu). unfold first_line.
  apply (loop_ind _ (λ l, in_text text l ∧ v_indent l = []) _ (λ l, Z.of_nat (length (input l)))).
  - intros l [[Hl1 (u & Ht & Hu1)] Hind]. split; [lia|]. rewrite f_read_indent_ok by done. cbv zeta.
    set (k := count_while is_blank (input l)). pose proof (count_while_length is_blank (input l)) as Hk. fold k in Hk.
    destruct (in_text_skip text u k l Hl1 Ht Hu1 Hk) as [Ht2 Hu2]. cbn [mbind outcome_bind].
    rewrite Hind. cbn [app]. set (l2 := with_indent _ _).
    assert (Hl2 : valid l2) by by apply (valid_skip k l).
    destruct (is_skipped (c_of l2)) eqn:Esk; cbn [negb].
    + left. set (l3 := with_indent l2 _).
      assert (Hc : c_of l3 ≠ WEOF) by (intros E; change (c_of l2) with (c_of l3) in Esk; by rewrite E in Esk).
      rewrite f_skip_line_ok by done. cbn [mbind outcome_bind]. eexists. split; [done|].
      set (n := line_length (input l3)).
      assert (Hn : (1 ≤ n ≤ length (input l3))%nat).
      { subst n. rewrite (input_cons l3 Hl2 Hc). cbn [line_length length].
        assert (∀ i, line_length i ≤ length i)%nat as Hll by (clear; intros i; induction i; cbn; [done|case_match; lia]).
        specialize (Hll (tail (input l3))). destruct (c_of l3 =? newline); lia. }
      destruct (in_text_skip text _ n l3 Hl2 Ht2 Hu2 ltac:(lia)) as [Ht3 Hu3]. split.
      * split; [split; [by apply (valid_skip n l3)|by eexists]|]. done.
      * rewrite input_skip, length_drop by done. change (input l3) with (input (skip k l)) in Hn |- *.
        rewrite input_skip, length_drop in Hn |- * by done. lia.
    + right. eexists. split; [done|]. split; [split; [done|by eexists]|]. apply count_while_Forall.
  - split; [split; [done|by exists []; rewrite Hi]|done].
  - pose proof (fuel_input (open text)). lia.
Qed.

(** The lexers after each token, up to the end of the source. *)
Fixpoint tokens (fuel : nat) (l : t_lexer) : result t_error (list t_lexer) :=
  match fuel with
  | O => Fault
  | S fuel =>
    if decide (v_token l = c_token__EOF) then Ok [l] else
    l' ← f_next l; ls ← tokens fuel l'; Ok (l :: ls)
  end.

Definition lex (text : list Z) : result t_error (list t_lexer) :=
  l ← new_lexer text; tokens (S (S (length text))) l.

Lemma tokens_ok text n : ∀ l,
  in_text text l →
  (length (input l) + (if decide (v_token l = c_token__EOF) then 0 else 1) < n)%nat →
  tokens n l ≠ Fault.
Proof.
  induction n as [|n IH]; intros l Hl Hn; [lia|]. cbn [tokens].
  destruct (decide (v_token l = c_token__EOF)); [done|].
  pose proof (f_next_ok text l Hl) as Hok. pose proof (f_next_progress text l) as Hprog.
  destruct (f_next l) as [l'| |]; cbn [mbind outcome_bind]; [|done|done].
  assert (tokens n l' ≠ Fault) as Hn'; [|by destruct (tokens n l')].
  apply IH; [apply Hok|]. specialize (Hprog l' Hl eq_refl).
  destruct (nt_span _ _ _ Hok) as (u & w & t & l2 & _ & Hspan & _).
  assert (Hle : (length (input l') ≤ length (input l))%nat) by (rewrite Hspan, !length_app; lia).
  destruct Hprog as [E|Hlt]; [rewrite decide_True by done; lia|case_decide; lia].
Qed.

Lemma lex_ok text : Forall (λ c, c ≠ WEOF) text → lex text ≠ Fault.
Proof.
  intros Htext. unfold lex, new_lexer. destruct (first_line_ok text Htext) as (l & -> & Hin & _).
  cbn [mbind outcome_bind]. pose proof (f_next_ok text l Hin) as Hok.
  destruct (f_next l) as [l'| |]; cbn [mbind outcome_bind]; [|done|done].
  assert (Hin' := nt_text _ _ _ Hok). apply (tokens_ok text); [done|].
  destruct Hin' as [_ (u & Ht & _)]. apply (f_equal length) in Ht. rewrite length_app in Ht.
  case_decide; lia.
Qed.

(** *** Numbers *)

(** The digits of a number in base [b], most significant first. *)
Fixpoint digits_of (fuel : nat) (b n : Z) : list Z :=
  match fuel with
  | O => []
  | S fuel => (if decide (n < b) then [] else digits_of fuel b (n / b)) ++ [ch "0" + n mod b]
  end.

Lemma decimal_snoc cs c : decimal (cs ++ [c]) = decimal cs * 10 + (c - ch "0").
Proof. unfold decimal. by rewrite foldl_app. Qed.

Lemma decimal_digits fuel n : 0 ≤ n < 10 ^ Z.of_nat fuel → decimal (digits_of fuel 10 n) = n.
Proof.
  revert n. induction fuel as [|fuel IH]; intros n Hn; [cbn in *; unfold decimal; cbn; lia|].
  cbn [digits_of]. rewrite decimal_snoc. case_decide.
  - unfold decimal. cbn [foldl]. rewrite Z.mod_small by lia. lia.
  - rewrite IH; [pose proof (Z.div_mod n 10 ltac:(done)); lia|].
    split; [apply Z.div_pos; lia|]. apply Z.div_lt_upper_bound; [lia|].
    rewrite Nat2Z.inj_succ, Z.pow_succ_r in Hn by lia. lia.
Qed.

Lemma digits_digits fuel n : 0 ≤ n → Forall (λ c, iswdigit c = true) (digits_of fuel 10 n).
Proof.
  revert n. induction fuel as [|fuel IH]; intros n Hn; [constructor|]. cbn [digits_of].
  apply Forall_app. split; [case_decide; [constructor|apply IH, Z.div_pos; lia]|].
  constructor; [|constructor]. unfold iswdigit. pose proof (Z.mod_pos_bound n 10 ltac:(done)).
  apply andb_true_intro. change (ch "9") with (ch "0" + 9). split; apply Z.leb_le; lia.
Qed.

Lemma digits_length fuel b n : (length (digits_of fuel b n) ≤ fuel)%nat.
Proof.
  revert n. induction fuel as [|fuel IH]; intros n; cbn; [lia|]. rewrite length_app. cbn.
  case_decide; cbn; [lia|]. specialize (IH (n / b)). lia.
Qed.

(** The first digit of a positive number is not zero. *)
Lemma digits_first fuel n :
  0 < n < 10 ^ Z.of_nat fuel → ∃ c cs, digits_of fuel 10 n = c :: cs ∧ c ≠ ch "0".
Proof.
  revert n. induction fuel as [|fuel IH]; intros n Hn; [cbn in Hn; lia|]. cbn [digits_of].
  case_decide.
  - exists (ch "0" + n mod 10), []. split; [done|]. rewrite Z.mod_small by lia. lia.
  - destruct (IH (n / 10)) as (c & cs & -> & Hc).
    + split; [apply Z.div_str_pos; lia|]. apply Z.div_lt_upper_bound; [lia|].
      rewrite Nat2Z.inj_succ, Z.pow_succ_r in Hn by lia. lia.
    + by exists c, (cs ++ [ch "0" + n mod 10]).
Qed.

Lemma count_while_app p u i :
  Forall (λ c, p c = true) u → p (hd WEOF i) = false → p WEOF = false → count_while p (u ++ i) = length u.
Proof.
  intros Hu Hi H0. induction Hu as [|c u Hc Hu IH]; cbn; [|by rewrite Hc, IH].
  destruct i as [|d i]; cbn in *; [done|]. by rewrite Hi.
Qed.

Lemma push_at_room a c cs : (length cs < 32)%nat → push_at a c cs = Ok (cs ++ [c]).
Proof. intros Hl. unfold push_at. by rewrite decide_False by lia. Qed.

Lemma push_at_full a c cs :
  (32 ≤ length cs)%nat →
  push_at a c cs = Throw {| error_message := "lexical error."; error_path := v_path; error_at := a |}.
Proof. intros Hl. unfold push_at. by rewrite decide_True by lia. Qed.

Lemma push_digits_ok a u : ∀ cs,
  (length cs + length u ≤ 32)%nat → fold_calls (λ s c, push_at a c s) cs u = Ok (cs ++ u).
Proof.
  induction u as [|c u IH]; intros cs Hl; [by rewrite app_nil_r|]. cbn [fold_calls length] in *.
  rewrite push_at_room by lia. cbn [mbind outcome_bind].
  rewrite IH by (rewrite length_app; cbn; lia). by rewrite <- app_assoc.
Qed.

(** More digits than the buffer holds. *)
Lemma push_digits_full a u : ∀ cs,
  (length cs ≤ 32)%nat → (32 < length cs + length u)%nat →
  fold_calls (λ s c, push_at a c s) cs u
  = Throw {| error_message := "lexical error."; error_path := v_path; error_at := a |}.
Proof.
  induction u as [|c u IH]; intros cs Hcs Hl; cbn [fold_calls length] in *; [lia|].
  destruct (decide (32 ≤ length cs)%nat); [by rewrite push_at_full|].
  rewrite push_at_room by lia. cbn [mbind outcome_bind]. apply IH; rewrite length_app; cbn; lia.
Qed.

(** A literal of decimal digits. *)
Lemma read_decimal_ok l u i :
  valid l → input l = u ++ i → Forall (λ c, iswdigit c = true) u → hd WEOF u ≠ ch "0" → u ≠ [] →
  iswdigit (hd WEOF i) = false → hd WEOF i ≠ ch "." →
  read_number l =
  if decide ((length u ≤ 32)%nat ∧ decimal u ≤ INTPTR_MAX)
  then Ok (with_datum (with_token (skip (length u) l) c_token__INTEGER) (Integer (decimal u)))
  else f_throw l.
Proof.
  intros Hl Hi Hu Hz Hne Hd Hdot. unfold read_number. cbv zeta.
  assert (Hc : c_of l = hd WEOF u) by (rewrite current, Hi by done; by destruct u).
  rewrite Hc, (proj2 (Z.eqb_neq _ _) Hz). cbn [andb].
  rewrite (while_get_ok iswdigit push push_at) by done. cbv zeta.
  rewrite Hi, count_while_app by done. rewrite take_app_length.
  destruct (decide (length u ≤ 32)%nat) as [Hlen|Hlen].
  - rewrite push_digits_ok by (cbn; lia). cbn [mbind outcome_bind app].
    rewrite current_skip, Hi, drop_app_length by done. rewrite (proj2 (Z.eqb_neq _ _) Hdot).
    unfold from_chars_integer. destruct (decide (u ≠ [] ∧ decimal u ≤ INTPTR_MAX)) as [[_ Hmax]|Hmax].
    + by rewrite decide_True.
    + rewrite decide_False by (intros [_ ?]; apply Hmax; done). done.
  - rewrite push_digits_full by (cbn; lia). cbn [mbind outcome_bind]. rewrite decide_False by (by intros [? _]). done.
Qed.

(** A literal of digits after [0.]: the zero is not passed on. *)
Lemma read_zero_point l u i :
  valid l → input l = ch "0" :: ch "." :: u ++ i → Forall (λ c, iswdigit c = true) u →
  (length u ≤ 31)%nat →
  iswdigit (hd WEOF i) = false → hd WEOF i ≠ ch "E" → hd WEOF i ≠ ch "e" →
  read_number l =
  match from_chars_float (ch "." :: u) with
  | Some f => Ok (with_datum (with_token (skip (S (S (length u))) l) c_token__FLOAT) (Float f))
  | None => f_throw l
  end.
Proof.
  intros Hl Hi Hu Hlen Hd HE He. unfold read_number. cbv zeta.
  destruct (input_get l Hl) as [Hl1 Hi1]. rewrite Hi in Hi1. cbn [tail] in Hi1.
  destruct (input_get _ Hl1) as [Hl2 Hi2]. rewrite Hi1 in Hi2. cbn [tail] in Hi2.
  assert (Hc : c_of l = ch "0") by (by rewrite current, Hi).
  assert (Hc1 : c_of (f_get l) = ch ".") by (by rewrite current, Hi1).
  rewrite Hc, Z.eqb_refl, Hc1, Z.eqb_refl. cbn [andb negb].
  rewrite (while_get_ok iswdigit push push_at) by done. cbv zeta. rewrite Hi1.
  change (count_while iswdigit (ch "." :: u ++ i)) with 0%nat. cbn [take fold_calls mbind outcome_bind].
  rewrite skip_0, Hc1, Z.eqb_refl. unfold read_fraction.
  change (push (with_token (f_get l) c_token__FLOAT) []) with (push_at (v_at l) (c_of (f_get l)) []).
  rewrite push_at_room, Hc1 by (cbn; lia). cbn [mbind outcome_bind app].
  set (l2 := f_get (with_token (f_get l) c_token__FLOAT)).
  assert (Hv2 : valid l2) by done. assert (Hin2 : input l2 = u ++ i) by exact Hi2.
  rewrite (while_get_ok iswdigit push push_at) by done. cbv zeta.
  rewrite Hin2, count_while_app, take_app_length, push_digits_ok by (done || cbn; lia).
  cbn [mbind outcome_bind app]. rewrite current_skip, Hin2, drop_app_length by done.
  rewrite (proj2 (Z.eqb_neq _ _) HE), (proj2 (Z.eqb_neq _ _) He). cbn [orb mbind outcome_bind].
  destruct (from_chars_float (ch "." :: u)); [|done]. by rewrite !skip_S.
Qed.

Lemma not_operator c i :
  iswalpha c || (c =? ch "_") || iswdigit c || (c =? quote) = true → operator (c :: i) = None.
Proof.
  intros Hc. rewrite operator_cons. rewrite operators_from_nil; [done|].
  assert (Hop : ∀ a, forallb (λ x, negb ((ch "A" <=? x) && (x <=? ch "Z") || ((ch "a" <=? x) && (x <=? ch "z"))
      || (x =? ch "_") || iswdigit x || (x =? quote)) && (0 <=? x) && (x <? 128)) [ch a] = true → c ≠ ch a).
  { intros a Ha ->. cbn [forallb] in Ha. rewrite andb_true_r in Ha.
    apply andb_prop in Ha as [[Ha H0]%andb_prop H1]. apply Z.leb_le in H0. apply Z.ltb_lt in H1.
    rewrite iswalpha_ascii in Hc by lia. by rewrite Hc in Ha. }
  unfold operators. repeat (constructor; [apply Hop; reflexivity|]). constructor.
Qed.

Lemma read_token_other l :
  valid l → iswalpha (c_of l) || (c_of l =? ch "_") || iswdigit (c_of l) || (c_of l =? quote) = true →
  read_token l = read_other l.
Proof.
  intros Hl Hc. rewrite read_token_operator by done.
  assert (Hne : c_of l ≠ WEOF) by (intros E; rewrite E, iswalpha_WEOF in Hc; done).
  by rewrite (input_cons l Hl Hne), not_operator.
Qed.

Lemma read_other_number l : iswdigit (c_of l) = true → read_other l = read_number l.
Proof.
  intros Hc. assert (Hr : ch "0" ≤ c_of l ≤ ch "9").
  { by apply andb_prop in Hc as [?%Z.leb_le ?%Z.leb_le]. }
  change (ch "0") with 48 in Hr. change (ch "9") with 57 in Hr. unfold read_other. cbv zeta. unfold WEOF, quote.
  change (ch "$") with 36. change (ch ":") with 58. change (ch "_") with 95.
  rewrite !(proj2 (Z.eqb_neq (c_of l) _)) by lia. rewrite iswalpha_ascii by lia.
  change (ch "A") with 65. change (ch "a") with 97.
  rewrite (proj2 (Z.leb_gt 65 _)), (proj2 (Z.leb_gt 97 _)) by lia. cbn [andb orb]. by rewrite Hc.
Qed.

(** ** Properties *)

(** C35 (lexing_terminates): on every text, the lexer delivers finitely many
    tokens, the end of the source being the last one, or throws a lexical
    error; no loop of it runs on at the end of the stream. *)
Theorem lexing_terminates text :
  Forall (λ c, c ≠ WEOF) text →
  match lex text with
  | Ok ls => ∃ ls' l, ls = ls' ++ [l] ∧ v_token l = c_token__EOF
             ∧ Forall (λ l, v_token l ≠ c_token__EOF) ls'
  | Throw e => error_message e = "lexical error."%string
  | Fault => False
  end.
Proof.
  intros Htext. pose proof (lex_ok text Htext) as Hok. unfold lex, new_lexer in *.
  destruct (first_line_ok text Htext) as (l & Hl & Hin & _). rewrite Hl in *. cbn [mbind outcome_bind] in *.
  pose proof (f_next_ok text l Hin) as Hn. destruct (f_next l) as [l1|e|]; cbn [mbind outcome_bind] in *;
    [|apply Hn|done]. apply nt_text in Hn. revert l1 Hn Hok. clear -v_path. generalize (S (S (length text))).
  intros n. induction n as [|n IH]; intros l Hl Hok; [done|]. cbn [tokens] in *.
  destruct (decide (v_token l = c_token__EOF)); [by exists [], l|].
  pose proof (f_next_ok text l Hl) as Hn. destruct (f_next l) as [l1|e|]; cbn [mbind outcome_bind] in *; [|apply Hn|done].
  specialize (IH l1 (nt_text _ _ _ Hn)). destruct (tokens n l1) as [ls| |]; cbn [mbind outcome_bind] in *; [|by apply IH|done].
  destruct (IH ltac:(done)) as (ls' & l' & -> & Hl' & Hls'). exists (l :: ls'), l'. split_and!; [done|done|by constructor].
Qed.


(** C22 (offside_indentation): at the end of a line the lexer goes to the next line
    that is neither blank nor a comment and takes its indentation, provided
    that of every line on the way begins like the indentation before, as far
    as both go; otherwise it throws. *)
Theorem offside_indentation l :
  valid l → is_skipped (c_of l) = true →
  ∃ m o, offside (v_indent l) (input l) m o
  ∧ match o with
    | Some w =>
      next_line l = Ok (with_indent (skip m l) w)
      ∧ ∃ u, input l = u ++ w ++ input (skip m l) ∧ Forall (λ c, is_blank c = true) w
        ∧ is_blank (c_of (skip m l)) = false ∧ is_skipped (c_of (skip m l)) = false
        ∧ ((∃ u', u = u' ++ [newline]) ∨ input (skip m l) = [])
    | None => next_line l = f_throw l
    end.
Proof.
  intros Hl Hs. destruct (next_line_ok l Hl Hs) as (m & o & Ho & Heq). exists m, o. split; [done|].
  destruct o as [w|]; [|done]. split; [done|].
  destruct (offside_sound _ _ _ _ Ho) as (u & Hi & _ & _ & H1 & H2 & H3 & _ & H4).
  exists u. rewrite !current_skip, !input_skip by done. by split_and!.
Qed.

(** The hand-written keyword matcher agrees with
    looking the longest run of symbol characters up in the table of keywords;
    any other such run is a symbol with itself as its value. *)
Theorem keywords_by_table l :
  valid l → iswalpha (c_of l) || (c_of l =? ch "_") = true →
  let w := symbol_of (input l) in
  read_token l = Ok (match keyword w with
    | Some t => with_token (with_value (skip (length w) l) []) t
    | None => with_token (with_value (skip (length w) l) w) c_token__SYMBOL
    end).
Proof.
  intros Hl Hc w. rewrite read_token_other by (done || by rewrite Hc). unfold read_other. cbv zeta.
  destruct (Z.eqb_spec (c_of l) WEOF) as [E|_]; [by rewrite E, iswalpha_WEOF in Hc|].
  assert (Hq : ∀ a, (0 <=? ch a) && (ch a <? 128) && negb ((ch "A" <=? ch a) && (ch a <=? ch "Z")
      || ((ch "a" <=? ch a) && (ch a <=? ch "z")) || (ch a =? ch "_")) = true → (c_of l =? ch a) = false).
  { intros a [[H0%Z.leb_le H1%Z.ltb_lt]%andb_prop Ha]%andb_prop. apply Z.eqb_neq. intros E.
    rewrite E, iswalpha_ascii in Hc by lia. by rewrite Hc in Ha. }
  rewrite (Hq "034"%char eq_refl : (c_of l =? quote) = false), !Hq, Hc by done.
  apply read_symbol_ok; [done|]. unfold f_is_symbol, iswalnum. apply orb_prop in Hc as [->| ->]; [done|].
  by rewrite orb_true_r.
Qed.

(** The nested tests on operator characters
    agree with the table of operators, and deliver the longest entry the input
    begins with. *)
Theorem operators_maximal_munch l s t :
  valid l → operator (input l) = Some (s, t) →
  read_token l = Ok (with_token (skip (length (chars s)) l) t)
  ∧ chars s `prefix_of` input l
  ∧ ∀ s' t', (s', t') ∈ operators → chars s' `prefix_of` input l →
      (length (chars s') ≤ length (chars s))%nat.
Proof.
  intros Hl Ho. rewrite read_token_operator, Ho by done. split; [done|]. split.
  - revert Ho. unfold operator. induction operators as [|[s' t'] table IH]; [done|]. cbn.
    destruct (starts_with (chars s') (input l)) eqn:E; [|done]. intros [= -> ->]. by apply starts_with_ok.
  - intros s' t' Hin Hp. by apply (operator_longest (input l) s t s' t').
Qed.

(** The literal of a string, in which quotes
    and backslashes are escaped, reads back as that string, whatever follows;
    a literal that the source ends in is a lexical error. *)
Theorem string_literal_roundtrip l s i :
  valid l → input l = quoted s ++ i →
  read_token l = Ok (skip (length (quoted s)) (with_token (with_datum l (Text s)) c_token__STRING)).
Proof.
  intros Hl Hi. assert (Hc : c_of l = quote) by (by rewrite current, Hi).
  rewrite read_token_other; [|done|rewrite Hc; apply orb_true_r]. unfold read_other. rewrite Hc.
  cbv zeta. change (quote =? WEOF) with false. rewrite Z.eqb_refl. cbv iota.
  rewrite read_string_ok by done. rewrite Hi. unfold quoted. cbn [app tail].
  rewrite <- app_assoc. cbn [app]. rewrite unescape_quoted. cbn [length]. rewrite length_app. cbn [length].
  f_equal. f_equal. lia.
Qed.

(** The decimal digits of every integer from 1
    to the largest [intptr_t] read back as that integer. *)
Theorem integer_literal_roundtrip l n i :
  valid l → 0 < n ≤ INTPTR_MAX → input l = digits_of 19 10 n ++ i →
  iswdigit (hd WEOF i) = false → hd WEOF i ≠ ch "." →
  read_token l =
    Ok (with_datum (with_token (skip (length (digits_of 19 10 n)) l) c_token__INTEGER) (Integer n)).
Proof.
  intros Hl Hn Hi Hd Hdot. assert (Hn' : 0 < n < 10 ^ Z.of_nat 19).
  { split; [lia|]. apply (Z.le_lt_trans _ INTPTR_MAX); [lia|done]. }
  destruct (digits_first 19 n Hn') as (c & cs & Hcs & Hz).
  pose proof (digits_digits 19 n ltac:(lia)) as Hdig.
  assert (Hc : iswdigit (c_of l) = true).
  { rewrite current, Hi, Hcs by done. rewrite Hcs in Hdig. by apply Forall_cons in Hdig as [? _]. }
  rewrite read_token_other by (done || by rewrite Hc, orb_true_r). rewrite read_other_number by done.
  rewrite (read_decimal_ok l (digits_of 19 10 n) i) by (done || by rewrite Hcs).
  rewrite decimal_digits by lia. rewrite decide_True; [done|]. split; [|lia].
  pose proof (digits_length 19 10 n). lia.
Qed.

(** Of a literal [0.ddd] only [.ddd] is converted, so
    that [0.] is a lexical error where [1.] is a float. *)
Theorem zero_point_literal l u i :
  valid l → input l = ch "0" :: ch "." :: u ++ i → Forall (λ c, iswdigit c = true) u →
  (length u ≤ 31)%nat →
  iswdigit (hd WEOF i) = false → hd WEOF i ≠ ch "E" → hd WEOF i ≠ ch "e" →
  read_token l =
  match from_chars_float (ch "." :: u) with
  | Some f => Ok (with_datum (with_token (skip (S (S (length u))) l) c_token__FLOAT) (Float f))
  | None => f_throw l
  end.
Proof.
  intros Hl Hi Hu Hlen Hd HE He. assert (Hc : iswdigit (c_of l) = true) by (by rewrite current, Hi).
  rewrite read_token_other by (done || by rewrite Hc, orb_true_r). rewrite read_other_number by done.
  by apply (read_zero_point l u i).
Qed.
End Lexer.

(** ** Witnesses: the C locale, one byte a character *)

#[export] Instance c_locale : Ctype.
Proof.
  refine {|
    overflowed := to_intptr;
    iswspace c := (c =? 32) || ((9 <=? c) && (c <=? 13));
    iswalpha c := ((ch "A" <=? c) && (c <=? ch "Z")) || ((ch "a" <=? c) && (c <=? ch "z"))
  |}; done.
Defined.

Definition byte_width (c : Z) : Z := 1.

(** A conversion that refuses a lone point. *)
Definition sample_from_chars (cs : list Z) : option (list Z) :=
  if decide (cs = [ch "."]) then None else Some cs.

Definition open_at (s : string) : @t_lexer (list Z) := open byte_width (chars s).

Lemma open_at_valid s : forallb (λ c, 0 <=? c) (chars s) = true → valid_reader (v_reader (open_at s)).
Proof.
  intros Hs. apply (open_ok byte_width (F := list Z)). apply Forall_forall. intros c Hc%list_elem_of_In.
  rewrite forallb_forall in Hs. apply Hs, Z.leb_le in Hc. unfold WEOF. lia.
Qed.

Lemma chars_no_eof s : forallb (λ c, 0 <=? c) (chars s) = true → Forall (λ c, c ≠ WEOF) (chars s).
Proof.
  intros Hs. apply Forall_forall. intros c Hc%list_elem_of_In.
  rewrite forallb_forall in Hs. apply Hs, Z.leb_le in Hc. unfold WEOF. lia.
Qed.

Definition line_feed : string := String "010"%char "".

Definition sample_source : string :=
  ("while a" +:+ line_feed +:+ "  b = 0x1F" +:+ line_feed +:+ "   # comment" +:+ line_feed +:+ "c !== 12")%string.

Lemma lexing_terminates_witness :
  match lex byte_width "" sample_from_chars (chars sample_source) with
  | Ok ls => ∃ ls' l, ls = ls' ++ [l] ∧ v_token l = c_token__EOF
             ∧ Forall (λ l, v_token l ≠ c_token__EOF) ls'
  | Throw e => error_message e = "lexical error."%string
  | Fault => False
  end.
Proof. apply (lexing_terminates byte_width "" sample_from_chars), chars_no_eof. reflexivity. Defined.


Lemma offside_indentation_witness :
  let l := open_at (line_feed +:+ "  # c" +:+ line_feed +:+ " a") in
  is_skipped (v_c (v_reader l)) = true
  ∧ ∃ m o, offside (v_indent l) (remaining (v_reader l)) m o
    ∧ match o with
      | Some w =>
        next_line byte_width "" l = Ok (with_indent (skip byte_width m l) w)
        ∧ ∃ u, remaining (v_reader l) = u ++ w ++ remaining (v_reader (skip byte_width m l))
          ∧ Forall (λ c, is_blank c = true) w
          ∧ is_blank (v_c (v_reader (skip byte_width m l))) = false
          ∧ is_skipped (v_c (v_reader (skip byte_width m l))) = false
          ∧ ((∃ u', u = u' ++ [newline]) ∨ remaining (v_reader (skip byte_width m l)) = [])
      | None => next_line byte_width "" l = f_throw "" l
      end.
Proof.
  intros l. split; [reflexivity|].
  apply (offside_indentation byte_width "" l); [apply open_at_valid; reflexivity|reflexivity].
Defined.

Lemma keywords_by_table_witness :
  read_token byte_width "" sample_from_chars (open_at "trying")
  = Ok (with_token (with_value (skip byte_width 6 (open_at "trying")) (chars "trying")) c_token__SYMBOL)
  ∧ read_token byte_width "" sample_from_chars (open_at "try.")
    = Ok (with_token (with_value (skip byte_width 3 (open_at "try.")) []) c_token__TRY).
Proof.
  split.
  - etransitivity; [apply (keywords_by_table byte_width "" sample_from_chars (open_at "trying"))|];
      [apply open_at_valid; reflexivity|reflexivity|vm_compute; reflexivity].
  - etransitivity; [apply (keywords_by_table byte_width "" sample_from_chars (open_at "try."))|];
      [apply open_at_valid; reflexivity|reflexivity|vm_compute; reflexivity].
Defined.

Lemma operators_maximal_munch_witness :
  read_token byte_width "" sample_from_chars (open_at "!==a")
  = Ok (with_token (skip byte_width 3 (open_at "!==a")) c_token__NOT_IDENTICAL).
Proof.
  apply (operators_maximal_munch byte_width "" sample_from_chars (open_at "!==a") "!==" c_token__NOT_IDENTICAL);
    [apply open_at_valid; reflexivity|reflexivity].
Defined.

Lemma string_literal_roundtrip_witness :
  let l := open byte_width (quoted [97; quote; ch "\"; 10] ++ [ch ";"]) in
  read_token byte_width "" sample_from_chars l
  = Ok (skip byte_width 8 (with_token (with_datum l (Text [97; quote; ch "\"; 10])) c_token__STRING)).
Proof.
  intros l. apply (string_literal_roundtrip byte_width "" sample_from_chars l [97; quote; ch "\"; 10] [ch ";"]).
  - apply (open_ok byte_width (F := list Z)). repeat constructor; discriminate.
  - reflexivity.
Defined.

Lemma integer_literal_roundtrip_witness :
  let l := open_at "9223372036854775807;" in
  read_token byte_width "" sample_from_chars l
  = Ok (with_datum (with_token (skip byte_width 19 l) c_token__INTEGER) (Integer INTPTR_MAX)).
Proof.
  intros l. apply (integer_literal_roundtrip byte_width "" sample_from_chars l INTPTR_MAX [ch ";"]);
    [apply open_at_valid; reflexivity|split; [reflexivity|discriminate]|reflexivity|reflexivity|discriminate].
Defined.

Lemma zero_point_literal_witness :
  read_token byte_width "" sample_from_chars (open_at "0.;") = f_throw "" (open_at "0.;")
  ∧ is_ok (read_token byte_width "" sample_from_chars (open_at "1.;")) = true.
Proof.
  split; [|reflexivity].
  apply (zero_point_literal byte_width "" sample_from_chars (open_at "0.;") [] [ch ";"]);
    [apply open_at_valid; reflexivity|reflexivity|constructor|cbn; lia|reflexivity|discriminate|discriminate].
Defined.
