(* ===== verification/Ast.v ===== *)
(** * The syntax tree and its scopes (src: include/xemmai/ast.h, src/ast.cc)

    The nodes the parser builds, and the scopes it collects variables in.
    Nodes and scopes live in an arena; a scope is referred to by its index in
    the arena and a variable by its scope and symbol. *)
From stdpp Require Import base list numbers strings gmap.
From S2P Require Import Prelude Lexer.
Local Open Scope Z_scope.

(** Symbols are interned: they are their names. *)
Definition t_symbol := list Z.

(** The instructions the parser chooses for operators. *)
Inductive t_instruction :=
| c_instruction__PLUS_T | c_instruction__MINUS_T | c_instruction__NOT_T | c_instruction__COMPLEMENT_T
| c_instruction__MULTIPLY_TT | c_instruction__DIVIDE_TT | c_instruction__MODULUS_TT
| c_instruction__ADD_TT | c_instruction__SUBTRACT_TT
| c_instruction__LEFT_SHIFT_TT | c_instruction__RIGHT_SHIFT_TT
| c_instruction__LESS_TT | c_instruction__LESS_EQUAL_TT | c_instruction__GREATER_TT
| c_instruction__GREATER_EQUAL_TT
| c_instruction__EQUALS_TT | c_instruction__NOT_EQUALS_TT | c_instruction__IDENTICAL_TT
| c_instruction__NOT_IDENTICAL_TT
| c_instruction__AND_TT | c_instruction__XOR_TT | c_instruction__OR_TT.

#[export] Instance t_instruction_eq_dec : EqDecision t_instruction.
Proof. solve_decision. Defined.

(** The objects a module keeps alive for its code. *)
Inductive t_slot := Slot_symbol (s : t_symbol) | Slot_text (s : list Z) | Slot_tuple | Slot_list | Slot_map.

#[export] Instance t_slot_eq_dec : EqDecision t_slot.
Proof. solve_decision. Defined.

(** [t_code::t_variable] *)
Record t_variable := { v_shared : bool; v_varies : bool; v_index : nat }.

Definition new_variable : t_variable := {| v_shared := false; v_varies := false; v_index := 0 |}.

(** ** Intrusive circular lists

    [ast::t_list] links its elements through their [v_next] in a ring: the
    tail's next is the first element. *)
Section ring.
Context {K : Type} `{Countable K}.

Record t_ring := { v_tail : option K; v_next : gmap K K }.

Definition ring_push (a_p : K) (r : t_ring) : option t_ring :=
  match v_tail r with
  | Some t =>
    n ← v_next r !! t;
    let next := <[t := a_p]> (<[a_p := n]> (v_next r)) in
    Some {| v_tail := Some a_p; v_next := next |}
  | None => Some {| v_tail := Some a_p; v_next := <[a_p := a_p]> (v_next r) |}
  end.

(** [f_each]: the elements from the one after the tail to the tail. *)
Fixpoint ring_from (fuel : nat) (r : t_ring) (t p : K) : option (list K) :=
  match fuel with
  | O => None
  | S fuel =>
    p ← v_next r !! p;
    if decide (p = t) then Some [p] else l ← ring_from fuel r t p; Some (p :: l)
  end.

Definition ring_elements (fuel : nat) (r : t_ring) : option (list K) :=
  match v_tail r with None => Some [] | Some t => ring_from fuel r t t end.

(** The effect of [f_push] on the elements.  Pushing an element that is in the
    ring already cuts off the elements after it. *)
Definition push (l : list K) (a_p : K) : list K :=
  match last l with
  | None => [a_p]
  | Some t =>
    if decide (a_p = t) then [a_p]
    else match list_find (a_p =.) l with
         | Some (i, _) => take (S i) l
         | None => l ++ [a_p]
         end
  end.
End ring.
Arguments t_ring K {_ _}.

Section Ast.
Context {F : Type}.

(** ** Nodes *)

Inductive t_literal :=
| Literal_object (o : t_slot) | Literal_bool (b : bool) | Literal_integer (i : Z) | Literal_float (f : F).

#[warnings="-register-all"]
Inductive t_node :=
| t_nodes (xs : list t_node)
| t_lambda (v_at : t_at) (scope : nat) (v_variadic : bool) (v_arguments : nat)
    (v_defaults : list t_node) (v_body : t_node)
| t_if (v_condition : option t_node) (v_true v_false : t_node)
| t_while (v_condition : option t_node) (v_body : t_node)
| t_for (v_initialization v_condition v_next : option t_node) (v_body : t_node)
| t_break (v_expression : t_node)
| t_continue (v_at : t_at)
| t_return (v_expression : t_node)
| t_try (v_body : t_node) (v_catches : list (t_node * (nat * t_symbol) * t_node))
    (v_finally : option t_node)
| t_throw (v_at : t_at) (v_expression : t_node)
| t_object_get (v_at : t_at) (v_target : t_node) (v_key : t_symbol)
| t_object_get_indirect (v_at : t_at) (v_target v_key : t_node)
| t_object_put (v_at : t_at) (v_target : t_node) (v_key : t_symbol) (v_value : t_node)
| t_object_put_indirect (v_at : t_at) (v_target v_key v_value : t_node)
| t_object_has (v_at : t_at) (v_target : t_node) (v_key : t_symbol)
| t_object_has_indirect (v_at : t_at) (v_target v_key : t_node)
| t_symbol_get (v_at : t_at) (v_outer : nat) (v_scope : option nat) (v_symbol : t_symbol)
| t_scope_put (v_at : t_at) (v_outer : nat) (v_variable : nat * t_symbol) (v_value : t_node)
| t_self (v_at : t_at) (v_outer : nat)
| t_class (v_at : t_at) (v_target : t_node)
| t_super (v_at : t_at) (v_target : t_node)
| t_null (v_at : t_at)
| t_literal_node (v_at : t_at) (v_value : t_literal)
| t_unary (v_at : t_at) (v_instruction : t_instruction) (v_expression : t_node)
| t_binary (v_at : t_at) (v_instruction : t_instruction) (v_left v_right : t_node)
| t_preserve
| t_call (v_at : t_at) (v_target : t_node) (v_arguments : list t_node) (v_expands : list (t_at * nat))
| t_get_at (v_at : t_at) (v_target v_index : t_node)
| t_set_at (v_at : t_at) (v_target v_index v_value : t_node).

(** ** Scopes *)

(** [t_scope]; [v_privates] lists the symbols of the variables in the ring. *)
Record t_scope := {
  v_outer : option nat;
  v_scope_shared : bool;
  v_self_shared : bool;
  v_references : gset t_symbol;
  v_unresolveds : gset t_symbol;
  v_variables : gmap t_symbol t_variable;
  v_privates : list t_symbol;
  v_privates_size : nat;
  v_shareds : nat
}.

Definition new_scope (a_outer : option nat) : t_scope :=
  {| v_outer := a_outer; v_scope_shared := false; v_self_shared := false; v_references := ∅;
     v_unresolveds := ∅; v_variables := ∅; v_privates := []; v_privates_size := 0; v_shareds := 0 |}.

Definition with_shared (b : bool) (c : t_scope) : t_scope :=
  {| v_outer := v_outer c; v_scope_shared := b; v_self_shared := v_self_shared c;
     v_references := v_references c; v_unresolveds := v_unresolveds c; v_variables := v_variables c;
     v_privates := v_privates c; v_privates_size := v_privates_size c; v_shareds := v_shareds c |}.
Definition with_self_shared (b : bool) (c : t_scope) : t_scope :=
  {| v_outer := v_outer c; v_scope_shared := v_scope_shared c; v_self_shared := b;
     v_references := v_references c; v_unresolveds := v_unresolveds c; v_variables := v_variables c;
     v_privates := v_privates c; v_privates_size := v_privates_size c; v_shareds := v_shareds c |}.
Definition with_references (x : gset t_symbol) (c : t_scope) : t_scope :=
  {| v_outer := v_outer c; v_scope_shared := v_scope_shared c; v_self_shared := v_self_shared c;
     v_references := x; v_unresolveds := v_unresolveds c; v_variables := v_variables c;
     v_privates := v_privates c; v_privates_size := v_privates_size c; v_shareds := v_shareds c |}.
Definition with_unresolveds (x : gset t_symbol) (c : t_scope) : t_scope :=
  {| v_outer := v_outer c; v_scope_shared := v_scope_shared c; v_self_shared := v_self_shared c;
     v_references := v_references c; v_unresolveds := x; v_variables := v_variables c;
     v_privates := v_privates c; v_privates_size := v_privates_size c; v_shareds := v_shareds c |}.
Definition with_variables (x : gmap t_symbol t_variable) (c : t_scope) : t_scope :=
  {| v_outer := v_outer c; v_scope_shared := v_scope_shared c; v_self_shared := v_self_shared c;
     v_references := v_references c; v_unresolveds := v_unresolveds c; v_variables := x;
     v_privates := v_privates c; v_privates_size := v_privates_size c; v_shareds := v_shareds c |}.
Definition with_privates (x : list t_symbol) (n : nat) (c : t_scope) : t_scope :=
  {| v_outer := v_outer c; v_scope_shared := v_scope_shared c; v_self_shared := v_self_shared c;
     v_references := v_references c; v_unresolveds := v_unresolveds c; v_variables := v_variables c;
     v_privates := x; v_privates_size := n; v_shareds := v_shareds c |}.
Definition with_shareds (n : nat) (c : t_scope) : t_scope :=
  {| v_outer := v_outer c; v_scope_shared := v_scope_shared c; v_self_shared := v_self_shared c;
     v_references := v_references c; v_unresolveds := v_unresolveds c; v_variables := v_variables c;
     v_privates := v_privates c; v_privates_size := v_privates_size c; v_shareds := n |}.

Definition share (x : t_variable) : t_variable :=
  {| v_shared := true; v_varies := v_varies x; v_index := v_index x |}.
Definition vary (x : t_variable) : t_variable :=
  {| v_shared := v_shared x; v_varies := true; v_index := v_index x |}.
Definition place (i : nat) (x : t_variable) : t_variable :=
  {| v_shared := v_shared x; v_varies := v_varies x; v_index := i |}.

(** [v_privates.f_push] *)
Definition push_private (s : t_symbol) (c : t_scope) : t_scope :=
  with_privates (push (v_privates c) s) (S (v_privates_size c)) c.

Definition push_variable (s : t_symbol) (c : t_scope) : t_scope :=
  push_private s (with_variables (<[s := new_variable]> (v_variables c)) c).

(** The elements of a ring after the one that was its tail. *)
Definition after (l : list t_symbol) (tail : option t_symbol) : list t_symbol :=
  match tail with
  | None => l
  | Some x => match list_find (x =.) l with Some (i, _) => drop (S i) l | None => [] end
  end.

Definition f_vary (a_p : option t_symbol) (c : t_scope) : t_scope :=
  with_variables (foldr (alter vary) (v_variables c) (after (v_privates c) a_p)) c.

(** The loop of [f_classify] over the elements after [kept]. *)
Fixpoint classify (kept rest : list t_symbol) (c : t_scope) : t_scope :=
  match rest with
  | [] => with_privates kept (v_privates_size c) c
  | s :: rest =>
    match v_variables c !! s with
    | Some x =>
      if v_shared x then
        classify kept rest
          (with_variables (<[s := place (v_shareds c) x]> (v_variables c)) (with_shareds (S (v_shareds c)) c))
      else
        classify (kept ++ [s]) rest
          (with_variables (<[s := place (v_privates_size c) x]> (v_variables c))
             (with_privates (v_privates c) (S (v_privates_size c)) c))
    | None => classify kept rest c
    end
  end.
End Ast.

(** ** The ring of [t_list] is a list *)

Section ring_ok.
Context {K : Type} `{Countable K}.
Implicit Types (r : t_ring K) (l : list K) (a x t : K).

(** [r] links the elements of [l] in order, and the last one to the first. *)
Definition is_ring r l : Prop :=
  NoDup l ∧ v_tail r = last l ∧ ∀ i x, l !! i = Some x → v_next r !! x = l !! (S i mod length l)%nat.

Lemma is_ring_tail r l t :
  is_ring r l → v_tail r = Some t →
  ∃ h, l !! (length l - 1)%nat = Some t ∧ head l = Some h ∧ v_next r !! t = Some h.
Proof.
  intros (_ & Htail & Hnext) Ht. rewrite Ht in Htail. symmetry in Htail.
  destruct l as [|h l']; [done|]. set (l := h :: l') in *. exists h.
  rewrite last_lookup in Htail. replace (pred (length l)) with (length l - 1)%nat in Htail by lia.
  split_and!; [done|done|]. rewrite (Hnext _ _ Htail).
  assert (length l <> 0)%nat by done. replace (S (length l - 1)) with (length l) by lia.
  by rewrite Nat.Div0.mod_same.
Qed.

Lemma mod_next (n m : nat) : (S n < m)%nat → (S n mod m = S n)%nat.
Proof. apply Nat.mod_small. Qed.

Lemma ring_push_cut r l a i t h :
  is_ring r l → v_tail r = Some t → head l = Some h → l !! i = Some a → a ≠ t →
  is_ring {| v_tail := Some a; v_next := <[t := a]> (<[a := h]> (v_next r)) |} (take (S i) l).
Proof.
  intros Hr Ht Hh Hi Hat. pose proof Hr as (Hnd & _ & Hnext).
  destruct (is_ring_tail r l t Hr Ht) as (h' & Hlast & Hh' & _). simplify_eq.
  pose proof (lookup_lt_Some _ _ _ Hi) as Hlen.
  assert (i ≠ length l - 1)%nat by (intros ->; congruence).
  assert (Hlen' : length (take (S i) l) = S i) by (rewrite length_take; lia).
  split_and!; cbn.
  - eapply sublist_NoDup; [done|apply sublist_take].
  - rewrite last_lookup, Hlen'. cbn. by rewrite lookup_take_lt by lia.
  - rewrite Hlen'. intros k x Hk. pose proof (lookup_lt_Some _ _ _ Hk) as Hlk. rewrite Hlen' in Hlk.
    rewrite lookup_take_lt in Hk by lia.
    assert (x ≠ t) by (intros ->; pose proof (NoDup_lookup _ _ _ _ Hnd Hk Hlast); lia).
    rewrite lookup_insert_ne by done. destruct (decide (x = a)) as [->|Hx].
    + pose proof (NoDup_lookup _ _ _ _ Hnd Hk Hi) as ->.
      rewrite lookup_insert_eq, Nat.Div0.mod_same. by destruct l.
    + assert (k ≠ i) by congruence. rewrite lookup_insert_ne by done. rewrite (Hnext _ _ Hk).
      rewrite !mod_next by lia. by rewrite lookup_take_lt by lia.
Qed.

Lemma ring_push_snoc r l a t h :
  is_ring r l → v_tail r = Some t → head l = Some h → a ∉ l →
  is_ring {| v_tail := Some a; v_next := <[t := a]> (<[a := h]> (v_next r)) |} (l ++ [a]).
Proof.
  intros Hr Ht Hh Ha. pose proof Hr as (Hnd & _ & Hnext).
  destruct (is_ring_tail r l t Hr Ht) as (h' & Hlast & Hh' & _). simplify_eq.
  pose proof (lookup_lt_Some _ _ _ Hlast) as Hlen.
  assert (Hat : a ≠ t) by (intros ->; apply Ha; by eapply list_elem_of_lookup_2).
  split_and!; cbn.
  - apply NoDup_app. split_and!; [done| |apply NoDup_singleton].
    intros x Hx Hx'. apply list_elem_of_singleton in Hx' as ->. done.
  - by rewrite last_snoc.
  - rewrite length_app. cbn. intros k x Hk.
    destruct (decide (k = length l)) as [->|Hkl].
    + rewrite lookup_app_r, Nat.sub_diag in Hk by lia. injection Hk as <-.
      rewrite lookup_insert_ne by done. rewrite lookup_insert_eq.
      replace (length l + 1)%nat with (S (length l)) by lia. rewrite Nat.Div0.mod_same.
      by destruct l.
    + pose proof (lookup_lt_Some _ _ _ Hk) as Hlk. rewrite length_app in Hlk. cbn in Hlk.
      rewrite lookup_app_l in Hk by lia.
      assert (x ≠ a) by (intros ->; apply Ha; by eapply list_elem_of_lookup_2).
      rewrite (Nat.mod_small (S k)) by lia. destruct (decide (x = t)) as [->|Hx].
      * pose proof (NoDup_lookup _ _ _ _ Hnd Hk Hlast) as ->. rewrite lookup_insert_eq.
        replace (S (length l - 1)) with (length l) by lia.
        by rewrite lookup_app_r, Nat.sub_diag by lia.
      * assert (k ≠ length l - 1)%nat by congruence.
        rewrite !lookup_insert_ne by done. rewrite (Hnext _ _ Hk), mod_next by lia.
        by rewrite lookup_app_l by lia.
Qed.

Lemma ring_push_ok r l a :
  is_ring r l → ∃ r', ring_push a r = Some r' ∧ is_ring r' (push l a).
Proof.
  intros Hr. pose proof Hr as (Hnd & Htail & Hnext). unfold ring_push, push. rewrite <- Htail.
  destruct (v_tail r) as [t|] eqn:Ht.
  - destruct (is_ring_tail r l t Hr Ht) as (h & Hlast & Hh & Hth). rewrite Hth. cbn.
    eexists. split; [done|]. destruct (decide (a = t)) as [->|Hat].
    + split_and!; [apply NoDup_singleton|done|]. cbn. intros [|k] x Hk; [|done]. injection Hk as <-.
      by rewrite lookup_insert_eq.
    + destruct (list_find (a =.) l) as [[i x]|] eqn:Hf.
      * apply list_find_Some in Hf as (Hi & <- & _). by eapply ring_push_cut.
      * apply list_find_None in Hf. eapply ring_push_snoc; [done..|].
        intros Ha. rewrite Forall_forall in Hf. by apply (Hf a Ha).
  - symmetry in Htail. apply last_None in Htail as ->. eexists. split; [done|].
    split_and!; [apply NoDup_singleton|done|]. cbn. intros [|k] x Hk; [|done]. injection Hk as <-.
    by rewrite lookup_insert_eq.
Qed.

Lemma ring_from_ok r l t fuel k p :
  is_ring r l → v_tail r = Some t → (k < length l)%nat → v_next r !! p = l !! k →
  (length l - k <= fuel)%nat → ring_from fuel r t p = Some (drop k l).
Proof.
  intros Hr Ht. pose proof Hr as (Hnd & _ & Hnext).
  destruct (is_ring_tail r l t Hr Ht) as (h & Hlast & _ & _).
  revert k p. induction fuel as [|fuel IH]; intros k p Hk Hp Hf; [lia|]. cbn [ring_from]. rewrite Hp.
  destruct (lookup_lt_is_Some_2 l k Hk) as [x Hx]. rewrite Hx. cbn.
  rewrite (drop_S _ _ _ Hx). destruct (decide (x = t)) as [->|Hxt].
  - pose proof (NoDup_lookup _ _ _ _ Hnd Hx Hlast) as ->. by rewrite drop_ge by lia.
  - assert (k ≠ length l - 1)%nat by congruence.
    rewrite (IH (S k)); [done|lia|by rewrite (Hnext _ _ Hx), mod_next by lia|lia].
Qed.

Lemma ring_elements_ok r l : is_ring r l → ring_elements (length l) r = Some l.
Proof.
  intros Hr. unfold ring_elements. destruct (v_tail r) as [t|] eqn:Ht.
  - destruct (is_ring_tail r l t Hr Ht) as (h & Hlast & Hh & Hth).
    pose proof (lookup_lt_Some _ _ _ Hlast).
    rewrite (ring_from_ok r l t _ 0); [done|done|done|lia|rewrite Hth; by destruct l|lia].
  - destruct Hr as (_ & Htail & _). rewrite Ht in Htail. symmetry in Htail.
    by apply last_None in Htail as ->.
Qed.

(** The circular list of the syntax tree is the
    sequence of its elements: walking from the one after the tail visits them
    in order, and pushing an element appends it.  An element that is in the
    ring already becomes the tail and cuts off those after it. *)
Theorem ring_implements_list r l a :
  is_ring r l →
  ring_elements (length l) r = Some l ∧
  ∃ r', ring_push a r = Some r' ∧ ring_elements (length (push l a)) r' = Some (push l a) ∧
        is_ring r' (push l a) ∧ (a ∉ l → push l a = l ++ [a]).
Proof.
  intros Hr. split; [by apply ring_elements_ok|].
  destruct (ring_push_ok r l a Hr) as (r' & Hp & Hr'). exists r'.
  split_and!; [done|by apply ring_elements_ok|done|]. intros Ha. unfold push.
  destruct (last l) as [t|] eqn:Hl; [|by apply last_None in Hl as ->].
  rewrite decide_False by (intros ->; apply Ha; by apply last_Some_elem_of).
  destruct (list_find (a =.) l) as [[i x]|] eqn:Hf; [|done].
  apply list_find_Some in Hf as (Hi & <- & _). destruct Ha. by eapply list_elem_of_lookup_2.
Qed.
End ring_ok.

(** The ring of three elements, and its second one pushed again. *)
Definition sample_ring : t_ring Z := {| v_tail := Some 3; v_next := {[1 := 2; 2 := 3; 3 := 1]} |}.

Lemma ring_implements_list_witness :
  is_ring sample_ring [1; 2; 3] ∧ ring_elements 3 sample_ring = Some [1; 2; 3] ∧
  ∃ r', ring_push 2 sample_ring = Some r' ∧ ring_elements 2 r' = Some [1; 2].
Proof.
  assert (Hr : is_ring sample_ring [1; 2; 3]).
  { split_and!; [by apply (bool_decide_unpack _)|done|]. intros [|[|[|i]]] x Hx; try done; by injection Hx as <-. }
  destruct (ring_implements_list sample_ring [1; 2; 3] 2 Hr) as (He & r' & Hp & He' & _).
  split_and!; [done|exact He|]. exists r'. split; [exact Hp|exact He'].
Defined.
