(* ===== verification/Parser.v ===== *)
(** * The parser (src: include/xemmai/parser.h, src/parser.cc)

    A recursive-descent parser over the tokens of the lexer.  Layout is part of
    the grammar: bodies are delimited by indentation, and the first token of a
    line ends an expression.  The parser also collects the variables of each
    scope and decides which are captured by inner scopes. *)
From Stdlib Require Import Ascii.
From stdpp Require Import base list numbers strings gmap.
From S2P Require Import Prelude Machine Lexer Ast.
Local Open Scope Z_scope.

(** ** The interface of the lexer

    What the parser uses of the lexer, and what it relies on for termination:
    a token other than the end of source is followed by less input. *)
Class TokenSource (F S : Type) := {
  lexer_token : S → t_token;
  lexer_newline : S → bool;
  lexer_indent : S → nat;
  lexer_value : S → list Z;
  lexer_string : S → list Z;
  lexer_integer : S → Z;
  lexer_float : S → F;
  lexer_at : S → t_at;
  lexer_path : S → string;
  lexer_next : S → result t_error S;
  lexer_ok : S → Prop;
  lexer_left : S → nat;
  lexer_next_ok s : lexer_ok s → lexer_token s ≠ c_token__EOF →
    match lexer_next s with
    | Ok s' => lexer_ok s' ∧ (lexer_left s' < lexer_left s)%nat
    | Throw e => error_message e = "lexical error."%string
    | Fault => False
    end
}.

Section Parser.
Context {F S : Type} `{!TokenSource F S}.
(** Negation of [double]. *)
Context (float_negate : F → F).

Abbreviation t_node := (@t_node F).

(** ** State *)

(** [v_scopes] are the scopes of the arena; [v_slots] the slots of the module. *)
Record t_parser := {
  v_lexer : S;
  v_slots : list t_slot;
  v_scopes : list t_scope;
  v_scope : nat;
  v_can_jump : bool;
  v_can_return : bool
}.

Definition with_lexer (l : S) (s : t_parser) : t_parser :=
  {| v_lexer := l; v_slots := v_slots s; v_scopes := v_scopes s; v_scope := v_scope s;
     v_can_jump := v_can_jump s; v_can_return := v_can_return s |}.
Definition with_slots (x : list t_slot) (s : t_parser) : t_parser :=
  {| v_lexer := v_lexer s; v_slots := x; v_scopes := v_scopes s; v_scope := v_scope s;
     v_can_jump := v_can_jump s; v_can_return := v_can_return s |}.
Definition with_scopes (x : list t_scope) (s : t_parser) : t_parser :=
  {| v_lexer := v_lexer s; v_slots := v_slots s; v_scopes := x; v_scope := v_scope s;
     v_can_jump := v_can_jump s; v_can_return := v_can_return s |}.
Definition with_scope (i : nat) (s : t_parser) : t_parser :=
  {| v_lexer := v_lexer s; v_slots := v_slots s; v_scopes := v_scopes s; v_scope := i;
     v_can_jump := v_can_jump s; v_can_return := v_can_return s |}.
Definition with_can_jump (b : bool) (s : t_parser) : t_parser :=
  {| v_lexer := v_lexer s; v_slots := v_slots s; v_scopes := v_scopes s; v_scope := v_scope s;
     v_can_jump := b; v_can_return := v_can_return s |}.
Definition with_can_return (b : bool) (s : t_parser) : t_parser :=
  {| v_lexer := v_lexer s; v_slots := v_slots s; v_scopes := v_scopes s; v_scope := v_scope s;
     v_can_jump := v_can_jump s; v_can_return := b |}.

(** ** The parser monad *)

Definition M (A : Type) : Type := t_parser → result t_error (A * t_parser).

#[local] Instance M_ret : MRet M := λ A a s, Ok (a, s).
#[local] Instance M_bind : MBind M := λ A B f m s,
  match m s with
  | Ok (a, s) => f a s
  | Throw e => Throw e
  | Fault => Fault
  end.

Definition gets {A} (f : t_parser → A) : M A := λ s, Ok (f s, s).
Definition modify (f : t_parser → t_parser) : M () := λ s, Ok ((), f s).

Definition f_throw {A} (a_message : string) : M A := λ s,
  Throw {| error_message := "syntax error: " +:+ a_message;
           error_path := lexer_path (v_lexer s); error_at := lexer_at (v_lexer s) |}.

(** [if (a_condition) f_throw(a_message);] *)
Definition throw_if (a_condition : bool) (a_message : string) : M () :=
  if a_condition then f_throw a_message else mret ().

(** A loop that consumes a token in every round. *)
Definition rounds (s : t_parser) : nat := Datatypes.S (lexer_left (v_lexer s)).

Fixpoint repeat_m {A B} (fuel : nat) (body : A → M (A + B)) (a : A) : M B :=
  match fuel with
  | O => λ _, Fault
  | Datatypes.S fuel =>
    r ← body a;
    match r with inl a => repeat_m fuel body a | inr b => mret b end
  end.

Definition while_m {A B} (body : A → M (A + B)) (a : A) : M B :=
  n ← gets rounds; repeat_m n body a.

(** ** Tokens *)

Definition f_token : M t_token := gets (λ s, lexer_token (v_lexer s)).
Definition f_newline : M bool := gets (λ s, lexer_newline (v_lexer s)).
Definition f_indent : M nat := gets (λ s, lexer_indent (v_lexer s)).
Definition f_at : M t_at := gets (λ s, lexer_at (v_lexer s)).
Definition f_integer : M Z := gets (λ s, lexer_integer (v_lexer s)).

Definition f_next : M () := λ s,
  match lexer_next (v_lexer s) with
  | Ok l => Ok ((), with_lexer l s)
  | Throw e => Throw e
  | Fault => Fault
  end.

Definition f_slot (o : t_slot) : M t_slot := λ s, Ok (o, with_slots (v_slots s ++ [o]) s).

Definition f_symbol : M t_symbol :=
  x ← gets (λ s, lexer_value (v_lexer s)); _ ← f_slot (Slot_symbol x); mret x.

Definition is_ (t u : t_token) : bool := bool_decide (t = u).

Definition f_single_colon : M bool := t ← f_token; n ← f_integer; mret (is_ t c_token__COLON && (n =? 1)).

Definition f_any (a_indent : nat) (a_right : t_token) : M bool :=
  nl ← f_newline; i ← f_indent; t ← f_token;
  mret ((negb nl || bool_decide (a_indent < i)%nat) && negb (is_ t a_right)).

Definition f_close (a_indent : nat) (a_right : t_token) : M () :=
  nl ← f_newline; i ← f_indent; t ← f_token;
  if (negb nl || bool_decide (a_indent <= i)%nat) && is_ t a_right then f_next else mret ().

(** ** Scopes *)

Definition scope_at (i : nat) : M t_scope := λ s,
  match v_scopes s !! i with Some c => Ok (c, s) | None => Fault end.

Definition on_scope (i : nat) (f : t_scope → t_scope) : M () := λ s,
  match v_scopes s !! i with
  | Some c => Ok ((), with_scopes (<[i := f c]> (v_scopes s)) s)
  | None => Fault
  end.

Definition new_scope_m (a_outer : option nat) : M nat := λ s,
  Ok (length (v_scopes s), with_scopes (v_scopes s ++ [new_scope a_outer]) s).

Definition f_variable (a_scope : nat) (a_symbol : t_symbol) : M () :=
  on_scope a_scope (λ c,
    match v_variables c !! a_symbol with
    | None => push_variable a_symbol c
    | Some x => with_variables (<[a_symbol := vary x]> (v_variables c)) c
    end).

(** [for (size_t i = 0; i < outer; ++i) ...] *)
Fixpoint climb (outer : nat) (scope : option nat) : M (option nat) :=
  match outer with
  | O => mret scope
  | Datatypes.S outer =>
    match scope with
    | None => f_throw "no more outer scope."
    | Some i => c ← scope_at i; climb outer (v_outer c)
    end
  end.

Definition some_scope (scope : option nat) : M nat :=
  match scope with Some i => mret i | None => f_throw "no more outer scope." end.

Definition f_has_expression : M bool :=
  nl ← f_newline; t ← f_token;
  mret (negb nl &&
    match t with
    | c_token__EXCLAMATION | c_token__APOSTROPHE | c_token__LEFT_PARENTHESIS | c_token__PLUS
    | c_token__HYPHEN | c_token__COLON | c_token__ATMARK | c_token__LEFT_BRACKET
    | c_token__LEFT_BRACE | c_token__TILDE | c_token__NULL | c_token__TRUE | c_token__FALSE
    | c_token__SYMBOL | c_token__SELF | c_token__INTEGER | c_token__FLOAT | c_token__STRING
    | c_token__IF | c_token__WHILE | c_token__FOR | c_token__TRY => true
    | _ => false
    end).

(** ** Sequences of expressions

    The definitions up to [f_expression_with] are parameterized by the parser
    of expressions, [f_expression]. *)
Section expression.
Context (f_expression : M t_node).

Definition f_argument (a_indent : nat) (a_nodes : list t_node) : M (bool * list t_node) :=
  e ← f_expression;
  let a_nodes := a_nodes ++ [e] in
  t ← f_token; nl ← f_newline; i ← f_indent;
  if negb (is_ t c_token__COMMA) then mret (nl && bool_decide (a_indent < i)%nat, a_nodes)
  else if nl && bool_decide (i < a_indent)%nat then mret (false, a_nodes)
  else _ ← f_next; mret (true, a_nodes).

Definition f_arguments (a_indent : nat) : M (list t_node * list (t_at * nat)) :=
  while_m (λ '(arguments, expands),
    t ← f_token;
    expands ←
      (if is_ t c_token__ASTERISK
       then a ← f_at; _ ← f_next; mret (expands ++ [(a, length arguments)])
       else mret expands);
    '(b, arguments) ← f_argument a_indent arguments;
    mret (if b : bool then inl (arguments, expands) else inr (arguments, expands))) ([], []).

Definition f_expressions (a_nodes : list t_node) : M (list t_node) :=
  while_m (λ a_nodes,
    e ← f_expression;
    let a_nodes := a_nodes ++ [e] in
    nl ← f_newline; t ← f_token;
    if nl || negb (is_ t c_token__COMMA) then mret (inr a_nodes)
    else _ ← f_next; mret (inl a_nodes)) a_nodes.

Definition f_options : M (option t_node) :=
  nl ← f_newline; t ← f_token;
  if nl : bool then mret None
  else if is_ t c_token__SEMICOLON then _ ← f_next; mret None
  else
    nodes ← f_expressions [];
    nl ← f_newline; t ← f_token;
    _ ← (if negb nl then
           _ ← throw_if (negb (is_ t c_token__SEMICOLON)) "expecting ';'."; f_next
         else mret ());
    mret (Some (t_nodes nodes)).

Definition f_body (a_indent : nat) : M t_node :=
  nl ← f_newline;
  if negb nl then f_expression else
  indent ← f_indent;
  if decide (a_indent < indent)%nat then
    nodes ← while_m (λ nodes,
      nodes ← f_expressions nodes;
      nl ← f_newline; i ← f_indent;
      mret (if nl && bool_decide (i = indent) then inl nodes else inr nodes)) [];
    i ← f_indent;
    _ ← throw_if (bool_decide (indent < i)%nat) "unexpected indent.";
    mret (t_nodes nodes)
  else mret (t_nodes []).

(** ** Primary expressions *)

(** [can not assign to expression.] *)
Definition check_assignable (a_assignable : bool) : M () :=
  throw_if (negb a_assignable) "can not assign to expression.".

(** A symbol of the scope [outer] levels out. *)
Definition f_target_symbol (at_ : t_at) (a_assignable : bool) (outer : nat) (scope : option nat) : M t_node :=
  symbol ← f_symbol;
  _ ← f_next;
  t ← f_token;
  if is_ t c_token__EQUAL then
    _ ← check_assignable a_assignable;
    i ← some_scope scope;
    _ ← f_next;
    _ ← f_variable i symbol;
    _ ← (if decide (0 < outer)%nat
         then on_scope i (λ c, with_variables (alter (λ x, vary (share x)) symbol (v_variables c)) c)
         else mret ());
    e ← f_expression;
    mret (t_scope_put at_ outer (i, symbol) e)
  else
    _ ← match scope with
        | Some i => on_scope i (λ c,
            if decide (0 < outer)%nat then with_unresolveds ({[symbol]} ∪ v_unresolveds c) c
            else with_references ({[symbol]} ∪ v_references c) c)
        | None => mret ()
        end;
    mret (t_symbol_get at_ outer scope symbol).

(** [$], its classes and supers, and a member of it. *)
Definition f_target_self (at_ : t_at) (a_assignable : bool) (outer : nat) (scope : option nat) : M t_node :=
  i ← some_scope scope;
  _ ← (if decide (0 < outer)%nat then on_scope i (with_self_shared true) else mret ());
  cs ← gets (λ s, lexer_value (v_lexer s));
  let target := foldl (λ target c, if c =? ch "@" then t_class at_ target else t_super at_ target)
                  (t_self at_ outer) cs in
  _ ← f_next;
  nl ← f_newline; t ← f_token;
  if negb nl && is_ t c_token__SYMBOL then
    at_ ← f_at;
    key ← f_symbol;
    _ ← f_next;
    t ← f_token;
    if is_ t c_token__EQUAL then
      _ ← check_assignable a_assignable;
      _ ← f_next;
      e ← f_expression;
      mret (t_object_put at_ target key e)
    else mret (t_object_get at_ target key)
  else mret target.

Definition f_target_scoped (at_ : t_at) (a_assignable : bool) : M t_node :=
  scope ← gets v_scope;
  t ← f_token;
  '(outer, scope) ←
    (if is_ t c_token__COLON then
       n ← f_integer;
       scope ← climb (Z.to_nat n) (Some scope);
       _ ← f_next;
       mret (Z.to_nat n, scope)
     else mret (0%nat, Some scope));
  t ← f_token;
  match t with
  | c_token__SYMBOL => f_target_symbol at_ a_assignable outer scope
  | c_token__SELF => f_target_self at_ a_assignable outer scope
  | _ => f_throw "expecting symbol or self."
  end.

(** [t(...)], the construction of a tuple, a list or a map, from its opening
    token on. *)
Definition f_construct (at_ : t_at) (type : t_slot) (right : t_token) : M t_node :=
  indent ← f_indent;
  _ ← f_next;
  o ← f_slot type;
  any ← f_any indent right;
  '(arguments, expands) ← (if any : bool then f_arguments indent else mret ([], []));
  _ ← f_close indent right;
  mret (t_call at_ (t_literal_node at_ (Literal_object o)) arguments expands).

Definition f_target_quote (at_ : t_at) : M t_node :=
  _ ← f_next;
  t ← f_token;
  match t with
  | c_token__SYMBOL => symbol ← f_symbol; _ ← f_next; mret (t_literal_node at_ (Literal_object (Slot_symbol symbol)))
  | c_token__LEFT_PARENTHESIS => f_construct at_ Slot_tuple c_token__RIGHT_PARENTHESIS
  | _ => f_throw "expecting symbol or '('."
  end.

Definition f_target_parenthesis : M t_node :=
  indent ← f_indent;
  _ ← f_next;
  any ← f_any indent c_token__RIGHT_PARENTHESIS;
  nodes ← (if any : bool then
             while_m (λ nodes, '(b, nodes) ← f_argument indent nodes;
                               mret (if b : bool then inl nodes else inr nodes)) []
           else mret []);
  _ ← f_close indent c_token__RIGHT_PARENTHESIS;
  mret (t_nodes nodes).

Definition f_target_map (at_ : t_at) : M t_node :=
  indent ← f_indent;
  _ ← f_next;
  o ← f_slot Slot_map;
  any ← f_any indent c_token__RIGHT_BRACE;
  arguments ←
    (if any : bool then
       while_m (λ arguments,
         key ← f_expression;
         colon ← f_single_colon;
         _ ← throw_if (negb colon) "expecting ':'.";
         _ ← f_next;
         value ← f_expression;
         let arguments := arguments ++ [key; value] in
         t ← f_token; nl ← f_newline; i ← f_indent;
         if is_ t c_token__COMMA then
           if nl && bool_decide (i < indent)%nat then mret (inr arguments)
           else _ ← f_next; mret (inl arguments)
         else if negb nl || bool_decide (i <= indent)%nat then mret (inr arguments)
         else mret (inl arguments)) []
     else mret []);
  _ ← f_close indent c_token__RIGHT_BRACE;
  mret (t_call at_ (t_literal_node at_ (Literal_object o)) arguments []).

(** *** Lambdas *)

(** [v_variables.emplace(f_symbol(), ..)] and [v_privates.f_push] of its
    variable: a name given twice is one variable, pushed twice. *)
Definition f_parameter (lambda : nat) : M () :=
  symbol ← f_symbol;
  on_scope lambda (λ c,
    match v_variables c !! symbol with
    | None => push_variable symbol c
    | Some _ => push_private symbol c
    end).

Definition f_parameters (lambda : nat) : M (bool * list t_node) :=
  while_m (λ defaults,
    t ← f_token;
    match t with
    | c_token__SYMBOL =>
      _ ← f_parameter lambda;
      _ ← f_next;
      t ← f_token;
      defaults ←
        (if is_ t c_token__EQUAL then _ ← f_next; e ← f_expression; mret (defaults ++ [e])
         else _ ← throw_if (bool_decide (0 < length defaults)%nat) "expecting '='."; mret defaults);
      nl ← f_newline; t ← f_token;
      if nl && negb (is_ t c_token__RIGHT_PARENTHESIS) then mret (inl defaults)
      else if is_ t c_token__COMMA then _ ← f_next; mret (inl defaults)
      else mret (inr (false, defaults))
    | c_token__ASTERISK =>
      _ ← f_next;
      t ← f_token;
      _ ← throw_if (negb (is_ t c_token__SYMBOL)) "expecting symbol.";
      _ ← f_parameter lambda;
      _ ← f_next;
      mret (inr (true, defaults))
    | _ => f_throw "expecting symbol or '*'."
    end) [].

(** After the body: what the lambda leaves unresolved goes to its outer scope,
    and its own variables an inner scope refers to become shared. *)
Definition resolve (lambda outer : nat) : M () :=
  c ← scope_at lambda;
  let found := filter (λ x, is_Some (v_variables c !! x)) (v_unresolveds c) in
  let left := filter (λ x, v_variables c !! x = None) (v_unresolveds c) in
  let up := left ∪ filter (λ x, v_variables c !! x = None) (v_references c) in
  _ ← on_scope lambda (λ c, with_variables (set_fold (alter share) (v_variables c) found) c);
  on_scope outer (λ o, with_unresolveds (up ∪ v_unresolveds o) o).

(** The indices of the arguments: the walk goes round the ring. *)
Fixpoint place_arguments (n i : nat) (c : t_scope) : t_scope :=
  match n with
  | O => c
  | Datatypes.S n =>
    let c :=
      match v_privates c !! (i mod length (v_privates c))%nat with
      | Some s =>
        match v_variables c !! s with
        | Some x =>
          if v_shared x then
            with_variables (<[s := place (v_shareds c) x]> (v_variables c)) (with_shareds (Datatypes.S (v_shareds c)) c)
          else with_variables (<[s := place i x]> (v_variables c)) c
        | None => c
        end
      | None => c
      end in
    place_arguments n (Datatypes.S i) c
  end.

(** The indices of all variables of a lambda. *)
Definition place_variables (arguments : nat) (c : t_scope) : t_scope :=
  let c := if v_self_shared c then with_shareds (Datatypes.S (v_shareds c)) c else c in
  let c := place_arguments arguments 0 c in
  let l := v_privates c in
  let done_ := if decide (arguments = 0%nat) then 0%nat
               else Datatypes.S ((arguments - 1) mod length l)%nat in
  if decide (done_ = length l) then c
  else classify (take done_ l) (drop done_ l) (with_privates l arguments c).

Definition f_target_lambda (at_ : t_at) : M t_node :=
  indent ← f_indent;
  _ ← f_next;
  outer ← gets v_scope;
  lambda ← new_scope_m (Some outer);
  nl ← f_newline; t ← f_token;
  '(variadic, defaults) ←
    (if negb nl && is_ t c_token__LEFT_PARENTHESIS then
       _ ← f_next;
       t ← f_token;
       r ← (if is_ t c_token__RIGHT_PARENTHESIS then mret (false, [])
            else
              r ← f_parameters lambda;
              t ← f_token;
              _ ← throw_if (negb (is_ t c_token__RIGHT_PARENTHESIS)) "expecting ')'.";
              mret r);
       _ ← f_next;
       mret r
     else mret (false, []));
  c ← scope_at lambda;
  let arguments := size (v_variables c) in
  _ ← on_scope outer (with_shared true);
  _ ← modify (with_scope lambda);
  can_jump ← gets v_can_jump;
  can_return ← gets v_can_return;
  _ ← modify (with_can_return true);
  body ← f_body indent;
  _ ← resolve lambda outer;
  _ ← modify (with_scope outer);
  _ ← modify (with_can_jump can_jump);
  _ ← modify (with_can_return can_return);
  _ ← on_scope lambda (place_variables arguments);
  mret (t_lambda at_ lambda variadic arguments defaults body).

(** *** [f_target] *)

Definition f_literal (at_ : t_at) (x : @t_literal F) : M t_node := _ ← f_next; mret (t_literal_node at_ x).

Definition f_optional_expression (at_ : t_at) : M t_node :=
  b ← f_has_expression; if b : bool then f_expression else mret (t_null at_).

Definition f_target (a_assignable : bool) : M t_node :=
  at_ ← f_at;
  t ← f_token;
  match t with
  | c_token__COLON | c_token__SYMBOL | c_token__SELF => f_target_scoped at_ a_assignable
  | c_token__APOSTROPHE => f_target_quote at_
  | c_token__LEFT_PARENTHESIS => f_target_parenthesis
  | c_token__ATMARK => f_target_lambda at_
  | c_token__LEFT_BRACKET => f_construct at_ Slot_list c_token__RIGHT_BRACKET
  | c_token__LEFT_BRACE => f_target_map at_
  | c_token__NULL => _ ← f_next; mret (t_null at_)
  | c_token__TRUE => f_literal at_ (Literal_bool true)
  | c_token__FALSE => f_literal at_ (Literal_bool false)
  | c_token__INTEGER => i ← f_integer; f_literal at_ (Literal_integer i)
  | c_token__FLOAT => f ← gets (λ s, lexer_float (v_lexer s)); f_literal at_ (Literal_float f)
  | c_token__STRING =>
    x ← gets (λ s, lexer_string (v_lexer s));
    _ ← f_next;
    o ← f_slot (Slot_text x);
    mret (t_literal_node at_ (Literal_object o))
  | c_token__BREAK =>
    b ← gets v_can_jump;
    _ ← throw_if (negb b) "expecting inside loop.";
    _ ← f_next;
    e ← f_optional_expression at_;
    mret (t_break e)
  | c_token__CONTINUE =>
    b ← gets v_can_jump;
    _ ← throw_if (negb b) "expecting inside loop.";
    _ ← f_next;
    mret (t_continue at_)
  | c_token__RETURN =>
    b ← gets v_can_return;
    _ ← throw_if (negb b) "expecting within lambda.";
    _ ← f_next;
    e ← f_optional_expression at_;
    mret (t_return e)
  | c_token__THROW => _ ← f_next; e ← f_expression; mret (t_throw at_ e)
  | _ => f_throw "unexpected token."
  end.
(** ** Postfix operations *)

(** [.?] and a name *)
Definition f_action_has (at_ : t_at) (a_target : t_node) : M t_node :=
  _ ← f_next;
  t ← f_token;
  match t with
  | c_token__LEFT_PARENTHESIS =>
    indent ← f_indent;
    _ ← f_next;
    key ← f_expression;
    _ ← f_close indent c_token__RIGHT_PARENTHESIS;
    mret (t_object_has_indirect at_ a_target key)
  | c_token__SYMBOL => key ← f_symbol; _ ← f_next; mret (t_object_has at_ a_target key)
  | _ => f_throw "expecting '(' or symbol."
  end.

(** An assignment ends the loop, [inr]; the other operations go on. *)
Definition f_put (a_assignable : bool) (put : t_node → t_node) (get : t_node) : M (t_node + t_node) :=
  t ← f_token;
  if is_ t c_token__EQUAL then
    _ ← check_assignable a_assignable;
    _ ← f_next;
    e ← f_expression;
    mret (inr (put e))
  else mret (inl get).

Definition f_action_dot (a_target : t_node) (a_assignable : bool) : M (t_node + t_node) :=
  at_ ← f_at;
  _ ← f_next;
  t ← f_token;
  match t with
  | c_token__LEFT_PARENTHESIS =>
    indent ← f_indent;
    _ ← f_next;
    key ← f_expression;
    _ ← f_close indent c_token__RIGHT_PARENTHESIS;
    f_put a_assignable (t_object_put_indirect at_ a_target key) (t_object_get_indirect at_ a_target key)
  | c_token__SYMBOL =>
    key ← f_symbol;
    _ ← f_next;
    f_put a_assignable (t_object_put at_ a_target key) (t_object_get at_ a_target key)
  | c_token__ATMARK => _ ← f_next; mret (inl (t_class at_ a_target))
  | c_token__HAT => _ ← f_next; mret (inl (t_super at_ a_target))
  | c_token__QUESTION => n ← f_action_has at_ a_target; mret (inl n)
  | _ => f_throw "expecting '(' or '?' or '@' or '^' or symbol."
  end.

Definition f_action_call (a_target : t_node) : M t_node :=
  at_ ← f_at;
  indent ← f_indent;
  _ ← f_next;
  any ← f_any indent c_token__RIGHT_PARENTHESIS;
  '(arguments, expands) ← (if any : bool then f_arguments indent else mret ([], []));
  _ ← f_close indent c_token__RIGHT_PARENTHESIS;
  mret (t_call at_ a_target arguments expands).

Definition f_action_at (a_target : t_node) (a_assignable : bool) : M (t_node + t_node) :=
  at_ ← f_at;
  indent ← f_indent;
  _ ← f_next;
  index ← f_expression;
  _ ← f_close indent c_token__RIGHT_BRACKET;
  f_put a_assignable (t_set_at at_ a_target index) (t_get_at at_ a_target index).

Definition f_action (a_indent : nat) (a_target : t_node) (a_assignable : bool) : M t_node :=
  while_m (λ a_target,
    nl ← f_newline; i ← f_indent; t ← f_token;
    if negb nl || (bool_decide (a_indent < i)%nat && is_ t c_token__DOT) then
      match t with
      | c_token__LEFT_PARENTHESIS => n ← f_action_call a_target; mret (inl n)
      | c_token__DOT => f_action_dot a_target a_assignable
      | c_token__LEFT_BRACKET => f_action_at a_target a_assignable
      | _ => mret (inr a_target)
      end
    else mret (inr a_target)) a_target.

(** ** Operators *)

Definition unary_instruction (t : t_token) : option t_instruction :=
  match t with
  | c_token__PLUS => Some c_instruction__PLUS_T
  | c_token__HYPHEN => Some c_instruction__MINUS_T
  | c_token__EXCLAMATION => Some c_instruction__NOT_T
  | c_token__TILDE => Some c_instruction__COMPLEMENT_T
  | _ => None
  end.

(** A sign or a complement in front of a literal is a part of it. *)
Definition fold_literal (instruction : t_instruction) : M (option (@t_literal F)) :=
  t ← f_token;
  match instruction, t with
  | c_instruction__PLUS_T, c_token__INTEGER => i ← f_integer; mret (Some (Literal_integer i))
  | c_instruction__MINUS_T, c_token__INTEGER => i ← f_integer; mret (Some (Literal_integer (to_intptr (- i))))
  | c_instruction__PLUS_T, c_token__FLOAT =>
    f ← gets (λ s, lexer_float (v_lexer s)); mret (Some (Literal_float f))
  | c_instruction__MINUS_T, c_token__FLOAT =>
    f ← gets (λ s, lexer_float (v_lexer s)); mret (Some (Literal_float (float_negate f)))
  | c_instruction__COMPLEMENT_T, c_token__INTEGER => i ← f_integer; mret (Some (Literal_integer (Z.lnot i)))
  | _, _ => mret None
  end.

Fixpoint f_unary_from (fuel : nat) (a_assignable : bool) : M t_node :=
  match fuel with
  | O => λ _, Fault
  | Datatypes.S fuel =>
    indent ← f_indent;
    t ← f_token;
    match unary_instruction t with
    | None => target ← f_target a_assignable; f_action indent target a_assignable
    | Some instruction =>
      at_ ← f_at;
      _ ← f_next;
      o ← fold_literal instruction;
      match o with
      | Some x => _ ← f_next; f_action indent (t_literal_node at_ x) a_assignable
      | None => e ← f_unary_from fuel false; mret (t_unary at_ instruction e)
      end
    end
  end.

Definition f_unary (a_assignable : bool) : M t_node := n ← gets rounds; f_unary_from n a_assignable.

(** The loop of the binary operators of one precedence. *)
Definition binary (operand : bool → M t_node) (instruction : t_token → option t_instruction)
    (a_assignable : bool) : M t_node :=
  node ← operand a_assignable;
  while_m (λ node,
    nl ← f_newline; t ← f_token;
    if nl : bool then mret (inr node) else
    match instruction t with
    | None => mret (inr node)
    | Some x =>
      at_ ← f_at;
      _ ← f_next;
      right ← operand false;
      mret (inl (t_binary at_ x node right))
    end) node.

Definition f_multiplicative : bool → M t_node := binary f_unary (λ t,
  match t with
  | c_token__ASTERISK => Some c_instruction__MULTIPLY_TT
  | c_token__SLASH => Some c_instruction__DIVIDE_TT
  | c_token__PERCENT => Some c_instruction__MODULUS_TT
  | _ => None
  end).

Definition f_additive : bool → M t_node := binary f_multiplicative (λ t,
  match t with
  | c_token__PLUS => Some c_instruction__ADD_TT
  | c_token__HYPHEN => Some c_instruction__SUBTRACT_TT
  | _ => None
  end).

Definition f_shift : bool → M t_node := binary f_additive (λ t,
  match t with
  | c_token__LEFT_SHIFT => Some c_instruction__LEFT_SHIFT_TT
  | c_token__RIGHT_SHIFT => Some c_instruction__RIGHT_SHIFT_TT
  | _ => None
  end).

Definition f_relational : bool → M t_node := binary f_shift (λ t,
  match t with
  | c_token__LESS => Some c_instruction__LESS_TT
  | c_token__LESS_EQUAL => Some c_instruction__LESS_EQUAL_TT
  | c_token__GREATER => Some c_instruction__GREATER_TT
  | c_token__GREATER_EQUAL => Some c_instruction__GREATER_EQUAL_TT
  | _ => None
  end).

Definition f_equality : bool → M t_node := binary f_relational (λ t,
  match t with
  | c_token__EQUALS => Some c_instruction__EQUALS_TT
  | c_token__NOT_EQUALS => Some c_instruction__NOT_EQUALS_TT
  | c_token__IDENTICAL => Some c_instruction__IDENTICAL_TT
  | c_token__NOT_IDENTICAL => Some c_instruction__NOT_IDENTICAL_TT
  | _ => None
  end).

Definition f_and : bool → M t_node := binary f_equality (λ t,
  match t with c_token__AMPERSAND => Some c_instruction__AND_TT | _ => None end).

Definition f_xor : bool → M t_node := binary f_and (λ t,
  match t with c_token__HAT => Some c_instruction__XOR_TT | _ => None end).

Definition f_or : bool → M t_node := binary f_xor (λ t,
  match t with c_token__BAR => Some c_instruction__OR_TT | _ => None end).

(** The loop of [&&] and [||]. *)
Definition branches (operand : bool → M t_node) (token : t_token) (branch : t_node → t_node → t_node)
    (a_assignable : bool) : M t_node :=
  node ← operand a_assignable;
  while_m (λ node,
    nl ← f_newline; t ← f_token;
    if negb nl && is_ t token then
      _ ← f_next;
      right ← operand false;
      mret (inl (branch node right))
    else mret (inr node)) node.

Definition f_and_also : bool → M t_node :=
  branches f_or c_token__AND_ALSO (λ node right, t_if (Some node) right t_preserve).

Definition f_or_else : bool → M t_node :=
  branches f_and_also c_token__OR_ELSE (λ node right, t_if (Some node) t_preserve right).

Fixpoint f_conditional_from (fuel : nat) (a_assignable : bool) : M t_node :=
  match fuel with
  | O => λ _, Fault
  | Datatypes.S fuel =>
    node ← f_or_else a_assignable;
    nl ← f_newline; t ← f_token;
    if nl || negb (is_ t c_token__QUESTION) then mret node else
    _ ← f_next;
    true_ ← f_conditional_from fuel false;
    colon ← f_single_colon;
    _ ← throw_if (negb colon) "expecting ':'.";
    _ ← f_next;
    false_ ← f_conditional_from fuel false;
    mret (t_if (Some node) true_ false_)
  end.

Definition f_conditional (a_assignable : bool) : M t_node :=
  n ← gets rounds; f_conditional_from n a_assignable.

(** ** Statements *)

Definition f_if : M t_node :=
  at_ ← f_at;
  indent ← f_indent;
  _ ← f_next;
  condition ← f_options;
  true_ ← f_body indent;
  nl ← f_newline; i ← f_indent; t ← f_token;
  false_ ←
    (if (negb nl || bool_decide (i = indent)) && is_ t c_token__ELSE
     then _ ← f_next; f_body indent
     else mret (t_null at_));
  mret (t_if condition true_ false_).

(** [v_scope->v_privates.v_tail] *)
Definition private_tail : M (option t_symbol) :=
  i ← gets v_scope; c ← scope_at i; mret (last (v_privates c)).

Definition vary_from (tail : option t_symbol) : M () :=
  i ← gets v_scope; on_scope i (f_vary tail).

(** The body of a loop. *)
Definition f_loop_body (indent : nat) (tail : option t_symbol) : M t_node :=
  can_jump ← gets v_can_jump;
  _ ← modify (with_can_jump true);
  body ← f_body indent;
  _ ← modify (with_can_jump can_jump);
  _ ← vary_from tail;
  mret body.

Definition f_while : M t_node :=
  indent ← f_indent;
  _ ← f_next;
  tail ← private_tail;
  condition ← f_options;
  body ← f_loop_body indent tail;
  mret (t_while condition body).

Definition f_for : M t_node :=
  indent ← f_indent;
  _ ← f_next;
  initialization ← f_options;
  tail ← private_tail;
  condition ← f_options;
  next ← f_options;
  body ← f_loop_body indent tail;
  mret (t_for initialization condition next body).

Definition f_catches (indent : nat) : M (list (t_node * (nat * t_symbol) * t_node)) :=
  while_m (λ catches,
    i ← f_indent; t ← f_token;
    if bool_decide (i = indent) && is_ t c_token__CATCH then
      _ ← f_next;
      expression ← f_expression;
      t ← f_token;
      _ ← throw_if (negb (is_ t c_token__SYMBOL)) "expecting symbol.";
      symbol ← f_symbol;
      _ ← f_next;
      scope ← gets v_scope;
      _ ← f_variable scope symbol;
      body ← f_body indent;
      mret (inl (catches ++ [(expression, (scope, symbol), body)]))
    else mret (inr catches)) [].

Definition f_try : M t_node :=
  indent ← f_indent;
  _ ← f_next;
  body ← f_body indent;
  catches ← f_catches indent;
  i ← f_indent; t ← f_token;
  if bool_decide (i = indent) && is_ t c_token__FINALLY then
    _ ← f_next;
    can_jump ← gets v_can_jump;
    _ ← modify (with_can_jump false);
    can_return ← gets v_can_return;
    _ ← modify (with_can_return false);
    finally ← f_body indent;
    _ ← modify (with_can_jump can_jump);
    _ ← modify (with_can_return can_return);
    mret (t_try body catches (Some finally))
  else
    _ ← throw_if (bool_decide (catches = [])) "expecting 'finally'.";
    mret (t_try body catches None).

Definition f_expression_with : M t_node :=
  t ← f_token;
  match t with
  | c_token__IF => f_if
  | c_token__WHILE => f_while
  | c_token__FOR => f_for
  | c_token__TRY => f_try
  | _ => f_conditional true
  end.
End expression.

(** [f_expression], which calls itself only after a token. *)
Fixpoint f_expression_from (fuel : nat) : M t_node :=
  match fuel with
  | O => λ _, Fault
  | Datatypes.S fuel => f_expression_with (f_expression_from fuel)
  end.

Definition f_expression : M t_node := n ← gets rounds; f_expression_from n.

(** ** The whole source *)

(** [t_parser::operator()]: the body of the module's scope, the first one. *)
Definition parse : M t_node :=
  scope ← new_scope_m None;
  _ ← modify (with_scope scope);
  t ← f_token;
  nodes ←
    (if is_ t c_token__EOF then mret [] else
     indent ← f_indent;
     while_m (λ nodes,
       nodes ← f_expressions f_expression nodes;
       t ← f_token; nl ← f_newline; i ← f_indent;
       if is_ t c_token__EOF then mret (inr nodes) else
       _ ← throw_if (negb nl) "expecting newline.";
       _ ← throw_if (negb (bool_decide (i = indent))) "unexpected indent.";
       mret (inl nodes)) []);
  _ ← on_scope scope (λ c,
    let found := filter (λ x, is_Some (v_variables c !! x)) (v_unresolveds c) in
    let c := with_variables (set_fold (alter share) (v_variables c) found) c in
    let c := if v_self_shared c then with_shareds (Datatypes.S (v_shareds c)) c else c in
    if decide (v_privates c = []) then c else classify [] (v_privates c) (with_privates (v_privates c) 0 c));
  mret (t_nodes nodes).

Definition new_parser (l : S) : t_parser :=
  {| v_lexer := l; v_slots := []; v_scopes := []; v_scope := 0; v_can_jump := false; v_can_return := false |}.
End Parser.

(** ** The lexer as the source of tokens *)

Section Source.
Context `{Ctype} (width : Z → Z) (v_path : string).
Context {F : Type} (from_chars_float : list Z → option F) (float_zero : F).

Abbreviation t_lexer := (@Lexer.t_lexer F).

Definition text_left (l : t_lexer) : nat :=
  length (remaining (v_reader l)) + (if decide (v_token l = c_token__EOF) then 0 else 1).

Lemma text_next_ok (l : t_lexer) :
  (∃ text, in_text width text l) → v_token l ≠ c_token__EOF →
  match Lexer.f_next width v_path from_chars_float l with
  | Ok l' => (∃ text, in_text width text l') ∧ (text_left l' < text_left l)%nat
  | Throw e => error_message e = "lexical error."%string
  | Fault => False
  end.
Proof.
  intros [text Hin] Ht. pose proof (f_next_ok width v_path from_chars_float text l Hin) as Hok.
  pose proof (f_next_progress width v_path from_chars_float text l) as Hprog.
  destruct (Lexer.f_next width v_path from_chars_float l) as [l'| |]; [|apply Hok|done].
  destruct Hok as [Hin' (u & w & t & l2 & _ & Hspan & _) _]. split; [by exists text|].
  assert (Hle : (length (remaining (v_reader l')) ≤ length (remaining (v_reader l)))%nat) by (rewrite Hspan, !length_app; lia).
  specialize (Hprog l' Hin eq_refl). unfold text_left.
  rewrite (decide_False (P := v_token l = c_token__EOF)) by done. destruct Hprog as [->|Hlt].
  - rewrite decide_True by done. lia.
  - case_decide; lia.
Qed.

(** The members of the union are read as the token tells. *)
#[export] Instance text_source : TokenSource F t_lexer := {
  lexer_token := v_token;
  lexer_newline := v_newline;
  lexer_indent l := length (v_indent l);
  lexer_value := v_value;
  lexer_string l := match v_datum l with Text s => s | _ => [] end;
  lexer_integer l := match v_datum l with Integer i => i | _ => 0 end;
  lexer_float l := match v_datum l with Float f => f | _ => float_zero end;
  lexer_at := Lexer.v_at;
  lexer_path _ := v_path;
  lexer_next := Lexer.f_next width v_path from_chars_float;
  lexer_ok l := ∃ text, in_text width text l;
  lexer_left := text_left;
  lexer_next_ok := text_next_ok
}.

(** The constructor of [t_parser] and [operator()]. *)
Definition parse_text (float_negate : F → F) (text : list Z) : result t_error (t_node * t_parser) :=
  match new_lexer width v_path from_chars_float text with
  | Ok l => parse float_negate (new_parser l)
  | Throw e => Throw e
  | Fault => Fault
  end.
End Source.
