(* ===== verification/ParserTotal.v ===== *)
(** * Parsing terminates, and jumps are where they may be

    The parser of any source ends in a syntax tree or an error, and the
    [break], [continue] and [return] of the tree are where the flags of the
    parser allow them.  One induction on the input that is left proves both. *)
From Stdlib Require Import Ascii.
From stdpp Require Import base list numbers strings gmap.
From S2P Require Import Prelude Machine Lexer Ast Parser.
Local Open Scope Z_scope.

(** ** Well-placed jumps

    [jumps inherits can_jump can_return e]: every [break] and [continue] of [e]
    is in the body of a loop of [e] unless [can_jump], and every [return] is
    in a lambda unless [can_return].  [inherits] tells whether a loop around a
    lambda counts for the body of the lambda, as it does for the parser. *)
Fixpoint jumps {F} (inherits can_jump can_return : bool) (e : @t_node F) : bool :=
  let J := jumps inherits can_jump can_return in
  let O o := match o with Some e => jumps inherits can_jump can_return e | None => true end in
  match e with
  | t_nodes xs => forallb J xs
  | t_lambda _ _ _ _ defaults body =>
    forallb J defaults && jumps inherits (inherits && can_jump) true body
  | t_if condition x y => O condition && J x && J y
  | t_while condition body => O condition && jumps inherits true can_return body
  | t_for initialization condition next body =>
    O initialization && O condition && O next && jumps inherits true can_return body
  | t_break x => can_jump && J x
  | t_continue _ => can_jump
  | t_return x => can_return && J x
  | t_try body catches finally =>
    J body && forallb (λ c, J c.1.1 && J c.2) catches
    && match finally with Some x => jumps inherits false false x | None => true end
  | t_throw _ x | t_object_get _ x _ | t_object_has _ x _ | t_scope_put _ _ _ x
  | t_class _ x | t_super _ x | t_unary _ _ x => J x
  | t_object_get_indirect _ x y | t_object_put _ x _ y | t_object_has_indirect _ x y
  | t_binary _ _ x y | t_get_at _ x y => J x && J y
  | t_object_put_indirect _ x y z | t_set_at _ x y z => J x && J y && J z
  | t_call _ x arguments _ => J x && forallb J arguments
  | t_symbol_get _ _ _ _ | t_self _ _ | t_null _ | t_literal_node _ _ | t_preserve => true
  end.

Section Total.
Context {F S : Type} `{!TokenSource F S}.
Context (float_negate : F → F).

Abbreviation t_node := (@t_node F).
Abbreviation t_parser := (@t_parser S).
Abbreviation M := (@M S).
#[local] Existing Instances M_ret M_bind.

Definition left_ (s : t_parser) : nat := lexer_left (v_lexer s).
Definition token_ (s : t_parser) : t_token := lexer_token (v_lexer s).

(** ** States and results of the parser *)

(** The state of a parser that may or may not meet jumps, in the scope [c] of
    [m] scopes at least. *)
Record st (j r : bool) (c m : nat) (s : t_parser) : Prop := {
  st_lexer : lexer_ok (v_lexer s);
  st_jump : v_can_jump s = j;
  st_return : v_can_return s = r;
  st_scope : v_scope s = c;
  st_scope_lt : (c < length (v_scopes s))%nat;
  st_scopes : (m <= length (v_scopes s))%nat;
  st_outer : Forall (λ x, match v_outer x with Some o => (o < length (v_scopes s))%nat | None => True end)
               (v_scopes s)
}.

(** Errors come from the lexer or from [f_throw]. *)
Definition error_ok (e : t_error) : Prop :=
  error_message e = "lexical error."%string
  ∨ ∃ a_message, error_message e = ("syntax error: " +:+ a_message)%string.

(** [Q] holds of a result; errors are allowed and faults are not. *)
Definition wp {A} (m : M A) (Q : A → t_parser → Prop) (s : t_parser) : Prop :=
  match m s with Ok (a, s') => Q a s' | Throw e => error_ok e | Fault => False end.

Lemma wp_mono {A} (m : M A) (P Q : A → t_parser → Prop) s :
  wp m P s → (∀ a s', P a s' → Q a s') → wp m Q s.
Proof. unfold wp. destruct (m s) as [[a s']| |]; auto. Qed.

Lemma wp_bind {A B} (m : M A) (f : A → M B) Q s : wp m (λ a, wp (f a) Q) s → wp (m ≫= f) Q s.
Proof. unfold wp, mbind, M_bind. by destruct (m s) as [[a s']| |]. Qed.

Lemma wp_ret {A} (a : A) (Q : A → t_parser → Prop) s : Q a s → wp (mret a) Q s.
Proof. done. Qed.

Lemma wp_gets {A} (f : t_parser → A) (Q : A → t_parser → Prop) s : Q (f s) s → wp (gets f) Q s.
Proof. done. Qed.

Lemma wp_modify f (Q : () → t_parser → Prop) s : Q () (f s) → wp (modify f) Q s.
Proof. done. Qed.

Lemma wp_throw {A} x (Q : A → t_parser → Prop) s : wp (f_throw x) Q s.
Proof. right. by exists x. Qed.

Lemma wp_throw_if b x (Q : () → t_parser → Prop) s : (b = false → Q () s) → wp (throw_if b x) Q s.
Proof. destruct b; [intros _; apply wp_throw|intros H; by apply H]. Qed.

Lemma wp_next j r c m (Q : () → t_parser → Prop) s :
  st j r c m s → token_ s ≠ c_token__EOF →
  (∀ s', st j r c m s' → (left_ s' < left_ s)%nat → Q () s') → wp f_next Q s.
Proof.
  intros Hs Ht HQ. unfold wp, f_next. pose proof (lexer_next_ok _ (st_lexer _ _ _ _ _ Hs) Ht) as H.
  destruct (lexer_next (v_lexer s)) as [l| |]; [|by left|done].
  destruct H. apply HQ; [|done]. destruct Hs. by split.
Qed.

Lemma wp_slot j r c m (Q : t_slot → t_parser → Prop) o s :
  st j r c m s →
  (∀ s', st j r c m s' → v_lexer s' = v_lexer s → Q o s') → wp (f_slot o) Q s.
Proof. intros Hs HQ. apply HQ; [|done]. destruct Hs. by split. Qed.

Lemma wp_symbol j r c m (Q : t_symbol → t_parser → Prop) s :
  st j r c m s →
  (∀ x s', st j r c m s' → v_lexer s' = v_lexer s → Q x s') → wp f_symbol Q s.
Proof. intros Hs HQ. apply HQ; [|done]. destruct Hs. by split. Qed.

Lemma wp_on_scope j r c m (Q : () → t_parser → Prop) i f s :
  st j r c m s → (i < length (v_scopes s))%nat → (∀ x, v_outer (f x) = v_outer x) →
  (∀ s', st j r c m s' → v_lexer s' = v_lexer s → length (v_scopes s') = length (v_scopes s) → Q () s') →
  wp (on_scope i f) Q s.
Proof.
  intros Hs Hi Hf HQ. unfold wp, on_scope. destruct (lookup_lt_is_Some_2 _ _ Hi) as [x Hx]. rewrite Hx.
  apply HQ; [|done|by cbn; rewrite length_insert]. destruct Hs as [? ? ? ? ? ? Ho].
  split; cbn; rewrite ?length_insert; try done. apply Forall_insert; [done|]. rewrite Hf.
  exact (Forall_lookup_1 _ _ _ _ Ho Hx).
Qed.

Lemma wp_scope_at j r c m (Q : t_scope → t_parser → Prop) i s :
  st j r c m s → (i < length (v_scopes s))%nat →
  (∀ x, match v_outer x with Some o => (o < length (v_scopes s))%nat | None => True end → Q x s) →
  wp (scope_at i) Q s.
Proof.
  intros Hs Hi HQ. unfold wp, scope_at. destruct (lookup_lt_is_Some_2 _ _ Hi) as [x Hx]. rewrite Hx.
  apply HQ. exact (Forall_lookup_1 _ _ _ _ (st_outer _ _ _ _ _ Hs) Hx).
Qed.

Lemma wp_new_scope j r c m (Q : nat → t_parser → Prop) o s :
  st j r c m s → match o with Some o => (o < length (v_scopes s))%nat | None => True end →
  (∀ s', st j r c m s' → v_lexer s' = v_lexer s →
     length (v_scopes s') = Datatypes.S (length (v_scopes s)) → Q (length (v_scopes s)) s') →
  wp (new_scope_m o) Q s.
Proof.
  intros Hs Ho HQ. apply HQ; [|done|by cbn; rewrite length_app; cbn; lia].
  destruct Hs as [? ? ? ? ? ? Hout]. split; cbn; rewrite ?length_app; cbn; try done; try lia.
  apply Forall_app. split.
  - eapply Forall_impl; [exact Hout|]. cbn. intros x. destruct (v_outer x); lia.
  - apply Forall_singleton. cbn. destruct o; lia.
Qed.

Lemma wp_repeat {A B} (I : A → t_parser → Prop) (Q : B → t_parser → Prop) (body : A → M (A + B)) :
  (∀ a s, I a s → wp (body a) (λ x s', match x with
      | inl a' => I a' s' ∧ (left_ s' < left_ s)%nat
      | inr b => Q b s'
      end) s) →
  ∀ fuel a s, (left_ s < fuel)%nat → I a s → wp (repeat_m fuel body a) Q s.
Proof.
  intros Hbody fuel. induction fuel as [|fuel IH]; intros a s Hl HI; [lia|]. cbn [repeat_m].
  apply wp_bind. eapply wp_mono; [by apply Hbody|]. intros [a'|b] s' H; [|done].
  apply IH; [lia|]. apply H.
Qed.

Lemma wp_while {A B} (I : A → t_parser → Prop) (Q : B → t_parser → Prop) (body : A → M (A + B)) a s :
  (∀ a s, I a s → wp (body a) (λ x s', match x with
      | inl a' => I a' s' ∧ (left_ s' < left_ s)%nat
      | inr b => Q b s'
      end) s) →
  I a s → wp (while_m body a) Q s.
Proof.
  intros Hbody HI. unfold while_m. apply wp_bind, wp_gets.
  by apply (wp_repeat I); [|unfold rounds, left_; lia|].
Qed.

(** [f_any] only looks. *)
Lemma wp_any i t (Q : bool → t_parser → Prop) s : (∀ b, Q b s) → wp (f_any i t) Q s.
Proof. intros H. apply H. Qed.

Lemma is_spec (t u : t_token) : reflect (t = u) (is_ t u).
Proof. unfold is_. apply bool_decide_reflect. Qed.
End Total.

(** ** Stepping through the parser *)

(** [token_ s] is known not to be the end. *)
Ltac not_eof :=
  let E := fresh in
  intros E; unfold token_ in *;
  repeat match goal with H : v_lexer ?s = _, E : context [v_lexer ?s] |- _ => rewrite H in E end;
  first [congruence | repeat match goal with H : context [lexer_token _] |- _ => rewrite E in H end; done].

Ltac same_lexer :=
  repeat match goal with H : v_lexer ?s = v_lexer _ |- context [v_lexer ?s] => rewrite H end.

(** What is left of the input. *)
Ltac shorter :=
  unfold left_ in *;
  repeat match goal with H : v_lexer ?s = v_lexer _ |- _ => rewrite H in *; clear H end; lia.

Ltac tree := cbn [jumps forallb] in *; rewrite ?forallb_app, ?andb_true_iff in *; cbn in *; 
  rewrite ?forallb_app, ?andb_true_iff in *; cbn in *;
  intuition (congruence || auto).

(** The scope is in the arena. *)
Ltac in_scope :=
  match goal with
  | H : st _ _ _ _ ?s |- context [v_scopes ?s] =>
    pose proof (st_scopes _ _ _ _ _ H); pose proof (st_scope_lt _ _ _ _ _ H); lia
  end.

(** A change of a scope leaves its outer scope. *)
Ltac outer := let x := fresh in intros x; cbn beta; repeat case_match; reflexivity.

(** One step of the parser. *)
Ltac step :=
  lazymatch goal with
  | |- wp (mbind _ _) _ _ => apply wp_bind
  | |- wp (mret _) _ _ => apply wp_ret; cbn beta iota
  | |- wp (f_throw _) _ _ => apply wp_throw
  | |- wp (λ _, Fault) _ _ => fail
  | |- wp (gets _) _ _ => apply wp_gets; cbn beta
  | |- wp (throw_if ?b _) _ _ =>
    lazymatch b with
    | context [is_ ?t ?u] => destruct (is_spec t u); cbn [andb orb negb]
    | _ => apply wp_throw_if; intros ?; try discriminate
    end
  | |- wp (check_assignable _) _ _ => apply wp_throw_if; intros _
  | |- wp f_token _ _ => apply wp_gets; cbn beta; same_lexer
  | |- wp f_newline _ _ => apply wp_gets; cbn beta
  | |- wp f_indent _ _ => apply wp_gets; cbn beta
  | |- wp f_at _ _ => apply wp_gets; cbn beta
  | |- wp f_integer _ _ => apply wp_gets; cbn beta
  | |- wp f_next _ _ => eapply wp_next; [eassumption|not_eof|intros ? ? ?]
  | |- wp (f_slot _) _ _ => eapply wp_slot; [eassumption|intros ? ? ?]
  | |- wp f_symbol _ _ => eapply wp_symbol; [eassumption|intros ? ? ? ?]
  | |- wp (on_scope _ _) _ _ =>
    eapply wp_on_scope; [eassumption|try in_scope|try outer|intros ? ? ? ?]
  | |- wp (f_any _ _) _ _ => apply wp_any; intros ?
  | |- wp f_single_colon _ _ => unfold f_single_colon
  | |- context [is_ (lexer_token (v_lexer ?s)) ?u] => destruct (is_spec (lexer_token (v_lexer s)) u); cbn [andb orb negb];
      rewrite ?andb_false_r, ?andb_true_r, ?orb_false_r, ?orb_true_r; cbn beta iota
  | |- wp (if ?b then _ else _) _ _ => destruct b eqn:?
  | |- wp (match ?x with _ => _ end) _ _ => destruct x eqn:?
  end.

Ltac call H := eapply wp_mono; [eapply H; try eassumption; try shorter | cbn beta iota; intros ? ? (? & ? & ?)].

Section Grammar.
Context {F S : Type} `{!TokenSource F S}.
Context (float_negate : F → F).

Abbreviation t_node := (@t_node F).
Abbreviation t_parser := (@t_parser S).
Abbreviation M := (@M S).
#[local] Existing Instances M_ret M_bind.

(** From every state with less than [N] tokens left, [m] consumes input and
    has results that satisfy [R]. *)
Definition consumes {A} (N : nat) (m : M A) (R : bool → bool → A → Prop) : Prop :=
  ∀ j r c l s, st j r c l s → (left_ s < N)%nat →
    wp m (λ a s', st j r c l s' ∧ (left_ s' < left_ s)%nat ∧ R j r a) s.

(** The same when the next token is known. *)
Definition follows {A} (N : nat) (P : t_token → Prop) (m : M A) (R : bool → bool → A → Prop) : Prop :=
  ∀ j r c l s, st j r c l s → (left_ s <= N)%nat → P (lexer_token (v_lexer s)) →
    wp m (λ a s', st j r c l s' ∧ (left_ s' < left_ s)%nat ∧ R j r a) s.

Definition node_ok (j r : bool) (e : t_node) : Prop := jumps true j r e = true.
Definition nodes_ok (j r : bool) (l : list t_node) : Prop := forallb (jumps true j r) l = true.

Lemma nodes_ok_snoc j r l e : nodes_ok j r l → node_ok j r e → nodes_ok j r (l ++ [e]).
Proof. unfold nodes_ok, node_ok. intros. rewrite forallb_app. cbn. by rewrite andb_true_r, andb_true_iff. Qed.

Lemma nodes_ok_node j r l : nodes_ok j r l → node_ok j r (t_nodes l).
Proof. done. Qed.

Lemma wp_close j r c l i t (Q : () → t_parser → Prop) s :
  st j r c l s → t ≠ c_token__EOF →
  (∀ s', st j r c l s' → (left_ s' <= left_ s)%nat → Q () s') → wp (f_close i t) Q s.
Proof.
  intros Hs Ht HQ. unfold f_close. repeat step; try (apply HQ; [done|lia]).
Qed.
(** The state, what is left and the tree at the end of a function. *)
Ltac finish :=
  split_and!; try eassumption; try shorter;
  solve [eauto using nodes_ok_node, nodes_ok_snoc | unfold node_ok, nodes_ok in *; tree].

Lemma st_le j r c m m' s : st j r c m s → (m' <= m)%nat → st j r c m' s.
Proof. intros [] ?. split; try done. lia. Qed.

Lemma wp_variable j r c l i x (Q : () → t_parser → Prop) s :
  st j r c l s → (i < length (v_scopes s))%nat →
  (∀ s', st j r c l s' → v_lexer s' = v_lexer s → Q () s') → wp (f_variable i x) Q s.
Proof. intros Hs Hi HQ. unfold f_variable. step. auto. Qed.

Lemma climb_ok j r c l n o (Q : option nat → t_parser → Prop) s :
  st j r c l s → (match o with Some i => i < length (v_scopes s) | None => True end)%nat →
  (∀ o', (match o' with Some i => i < length (v_scopes s) | None => True end)%nat → Q o' s) →
  wp (climb n o) Q s.
Proof.
  intros Hs. revert o. induction n as [|n IH]; intros o Ho HQ; cbn [climb]; [by apply HQ|].
  destruct o as [i|]; [|apply wp_throw]. step. eapply wp_scope_at; [done|done|]. intros x Hx. by apply IH.
Qed.

Definition scope_lt (l : nat) (o : option nat) : Prop :=
  match o with Some i => (i < l)%nat | None => True end.

Lemma st_with_scope j r c c' m s : st j r c m s → (c' < length (v_scopes s))%nat → st j r c' m (with_scope c' s).
Proof. intros [] ?. by split. Qed.

Lemma st_with_can_jump j j' r c m s : st j r c m s → st j' r c m (with_can_jump j' s).
Proof. intros []. by split. Qed.

Lemma st_with_can_return j r r' c m s : st j r c m s → st j r' c m (with_can_return r' s).
Proof. intros []. by split. Qed.

Lemma classify_outer kept rest x : v_outer (classify kept rest x) = v_outer x.
Proof.
  revert kept x. induction rest as [|s rest IH]; intros kept x; [done|]. cbn [classify].
  repeat case_match; by rewrite IH.
Qed.

Lemma place_arguments_outer n i x : v_outer (place_arguments n i x) = v_outer x.
Proof.
  revert i x. induction n as [|n IH]; intros i x; [done|]. cbn [place_arguments]. rewrite IH.
  by repeat case_match.
Qed.

Lemma place_variables_outer n x : v_outer (place_variables n x) = v_outer x.
Proof.
  unfold place_variables. cbn zeta. destruct (decide (_ = length _)).
  - rewrite place_arguments_outer. by destruct (v_self_shared x).
  - rewrite classify_outer. cbn [v_outer with_privates]. rewrite place_arguments_outer. by destruct (v_self_shared x).
Qed.

(** ** The functions that parse nested expressions *)

Section expression.
Context (f_expression : M t_node) (N : nat).
Hypothesis f_expression_ok : consumes N f_expression node_ok.

Lemma f_argument_ok i nodes :
  consumes N (f_argument f_expression i nodes)
    (λ j r x, nodes_ok j r nodes → nodes_ok j r x.2).
Proof.
  intros j r c l s Hs Hn. unfold f_argument. step. call f_expression_ok.
  repeat step; cbn [snd]; (split_and!; [eassumption|shorter|eauto using nodes_ok_snoc]).
Qed.

Lemma f_arguments_ok i :
  consumes N (f_arguments f_expression i) (λ j r x, nodes_ok j r x.1).
Proof.
  intros j r c l s Hs Hn. unfold f_arguments.
  apply (wp_while (λ a s', st j r c l s' ∧ (left_ s' <= left_ s)%nat ∧ nodes_ok j r a.1)); [|done].
  intros [arguments expands] s1 (Hs1 & Hl1 & Ha). repeat step.
  - call f_argument_ok. destruct a as [b nodes]. destruct b; cbn in *; repeat step; cbn [fst] in *;
      split_and!; auto; try done; shorter.
  - call f_argument_ok. destruct a as [b nodes]. destruct b; cbn in *; repeat step; cbn [fst] in *;
      split_and!; auto; try done; shorter.
Qed.

Lemma f_expressions_ok nodes :
  consumes N (f_expressions f_expression nodes) (λ j r x, nodes_ok j r nodes → nodes_ok j r x).
Proof.
  intros j r c l s Hs Hn. unfold f_expressions, while_m. step. step. unfold rounds.
  cbn [repeat_m]. step. step. call f_expression_ok. repeat step;
    try (split_and!; [eassumption|shorter|eauto using nodes_ok_snoc]).
  apply (wp_repeat (λ a s', st j r c l s' ∧ (left_ s' < left_ s)%nat ∧ (nodes_ok j r nodes → nodes_ok j r a)));
    [|shorter|split_and!; [done|shorter|eauto using nodes_ok_snoc]].
  intros x s3 (Hs3 & Hl3 & Hx). step. call f_expression_ok. repeat step;
    (split_and!; [eassumption|shorter|eauto using nodes_ok_snoc]) || (split; [split_and!|]; eauto using nodes_ok_snoc; shorter).
Qed.

Definition option_ok (j r : bool) (o : option t_node) : Prop :=
  match o with Some e => node_ok j r e | None => True end.

(** [f_options] follows other tokens; it may consume none. *)
Lemma f_options_ok j r c l s :
  st j r c l s → (left_ s < N)%nat →
  wp (f_options f_expression) (λ o s', st j r c l s' ∧ (left_ s' <= left_ s)%nat ∧ option_ok j r o) s.
Proof.
  intros Hs Hn. unfold f_options. repeat step; try (split_and!; [eassumption|shorter|done]).
  call f_expressions_ok. repeat step; (split_and!; [eassumption|shorter|match goal with H : _ → nodes_ok _ _ _ |- _ => by apply H end]).
Qed.

Lemma f_body_ok i j r c l s :
  st j r c l s → (left_ s < N)%nat →
  wp (f_body f_expression i) (λ e s', st j r c l s' ∧ (left_ s' <= left_ s)%nat ∧ node_ok j r e) s.
Proof.
  intros Hs Hn. unfold f_body. repeat step.
  - call f_expression_ok. split_and!; auto; try done; shorter.
  - apply (wp_while (λ a s', st j r c l s' ∧ (left_ s' <= left_ s)%nat ∧ nodes_ok j r a)); [|done].
    intros nodes s1 (Hs1 & Hl1 & Ha). step. call f_expressions_ok. repeat step.
    destruct (_ && _); [split_and!; auto; try done; shorter|]. repeat step. finish.
  - finish.
Qed.

Lemma f_construct_ok a o right j r c l s :
  right ≠ c_token__EOF → st j r c l s → (left_ s <= N)%nat → lexer_token (v_lexer s) ≠ c_token__EOF →
  wp (f_construct f_expression a o right) (λ e s', st j r c l s' ∧ (left_ s' < left_ s)%nat ∧ node_ok j r e) s.
Proof.
  intros Hr Hs Hn Ht. unfold f_construct. do 9 step.
  apply wp_mono with (λ x s', st j r c l s' ∧ (left_ s' < left_ s)%nat ∧ nodes_ok j r x.1).
  { destruct b; [call f_arguments_ok|step]; split_and!; auto; try done; shorter. }
  intros [arguments expands] s2 (Hs2 & Hl2 & Ha). cbn in Ha. step. eapply wp_close; [done..|].
  intros s3 Hs3 Hl3. step. finish.
Qed.
Lemma f_target_symbol_ok a b outer scope j r c l s :
  st j r c l s → (left_ s <= N)%nat → lexer_token (v_lexer s) = c_token__SYMBOL → scope_lt l scope →
  wp (f_target_symbol f_expression a b outer scope)
    (λ e s', st j r c l s' ∧ (left_ s' < left_ s)%nat ∧ node_ok j r e) s.
Proof.
  intros Hs Hn Ht Hi. unfold f_target_symbol. do 5 step. step.
  destruct (is_spec (lexer_token (v_lexer s'0)) c_token__EQUAL).
  - do 2 step. destruct scope as [i|]; [|apply wp_throw]. cbn in Hi. cbn [some_scope]. repeat step.
    eapply wp_variable; [done|in_scope|]. intros s3 Hs3 Hl3. step.
    apply wp_mono with (λ _ s', st j r c l s' ∧ v_lexer s' = v_lexer s3).
    { repeat step; split; auto; congruence. }
    intros _ s4 [Hs4 Hl4]. step. call f_expression_ok. step. finish.
  - step. destruct scope as [i|]; cbn in Hi; repeat step; finish.
Qed.

Lemma f_target_self_ok a b outer scope j r c l s :
  st j r c l s → (left_ s <= N)%nat → lexer_token (v_lexer s) = c_token__SELF → scope_lt l scope →
  wp (f_target_self f_expression a b outer scope)
    (λ e s', st j r c l s' ∧ (left_ s' < left_ s)%nat ∧ node_ok j r e) s.
Proof.
  intros Hs Hn Ht Hi. unfold f_target_self. step. destruct scope as [i|]; [|apply wp_throw]. cbn in Hi.
  cbn [some_scope]. do 2 step.
  apply wp_mono with (λ _ s', st j r c l s' ∧ v_lexer s' = v_lexer s).
  { repeat step; split; auto; congruence. }
  intros _ s1 [Hs1 Hl1]. do 2 step.
  set (target := foldl _ _ _).
  assert (Htarget : node_ok j r target).
  { subst target. generalize (lexer_value (v_lexer s1)). intros cs.
    assert (He : node_ok j r (t_self a outer)) by done. revert He. generalize (@t_self F a outer).
    induction cs as [|x cs IH]; intros e He; [done|]. cbn [foldl]. apply IH. by case_match. }
  clearbody target. repeat step; try (call f_expression_ok; repeat step); finish.
Qed.

Lemma f_target_scoped_ok a b j r c l s :
  st j r c l s → (left_ s <= N)%nat → lexer_token (v_lexer s) ≠ c_token__EOF →
  wp (f_target_scoped f_expression a b)
    (λ e s', st j r c l s' ∧ (left_ s' < left_ s)%nat ∧ node_ok j r e) s.
Proof.
  intros Hs Hn Ht. unfold f_target_scoped. do 5 step.
  pose proof (st_scope_lt _ _ _ _ _ Hs) as Hc. rewrite (st_scope _ _ _ _ _ Hs).
  pose proof (st_scopes _ _ _ _ _ Hs) as Hl.
  assert (Hm : st j r c (length (v_scopes s)) s) by (destruct Hs; by split). clear Hs.
  apply wp_mono with (λ x s', st j r c (length (v_scopes s)) s' ∧ (left_ s' <= left_ s)%nat ∧
    scope_lt (length (v_scopes s)) x.2).
  { step; repeat step; [|split_and!; done].
    eapply climb_ok; [done..|]. intros o Ho. repeat step. split_and!; [done|shorter|done]. }
  intros [outer scope] s1 (Hs1 & Hl1 & Hi). repeat step.
  - eapply wp_mono; [by apply f_target_symbol_ok; eauto; lia|]. intros e s2 (? & ? & ?).
    split_and!; [by eapply st_le|lia|done].
  - eapply wp_mono; [by apply f_target_self_ok; eauto; lia|]. intros e s2 (? & ? & ?).
    split_and!; [by eapply st_le|lia|done].
Qed.
Lemma f_target_quote_ok a j r c l s :
  st j r c l s → (left_ s <= N)%nat → lexer_token (v_lexer s) ≠ c_token__EOF →
  wp (f_target_quote f_expression a) (λ e s', st j r c l s' ∧ (left_ s' < left_ s)%nat ∧ node_ok j r e) s.
Proof.
  intros Hs Hn Ht. unfold f_target_quote. repeat step; try finish.
  eapply wp_mono; [eapply f_construct_ok; try eassumption; [done|shorter|congruence]|].
  cbn. intros e s1 (? & ? & ?). finish.
Qed.

Lemma f_target_parenthesis_ok j r c l s :
  st j r c l s → (left_ s <= N)%nat → lexer_token (v_lexer s) ≠ c_token__EOF →
  wp (f_target_parenthesis f_expression) (λ e s', st j r c l s' ∧ (left_ s' < left_ s)%nat ∧ node_ok j r e) s.
Proof.
  intros Hs Hn Ht. unfold f_target_parenthesis. do 7 step.
  apply wp_mono with (λ x s', st j r c l s' ∧ (left_ s' < left_ s)%nat ∧ nodes_ok j r x).
  { destruct b; [|step; by split_and!].
    apply (wp_while (λ a s', st j r c l s' ∧ (left_ s' < left_ s)%nat ∧ nodes_ok j r a)); [|done].
    intros nodes s1 (Hs1 & Hl1 & Ha). step. call f_argument_ok. destruct a as [b x]. cbn [snd] in *.
    destruct b; step; split_and!; auto; try done; shorter. }
  intros nodes s2 (Hs2 & Hl2 & Ha). step. eapply wp_close; [done..|].
  intros s3 Hs3 Hl3. step. finish.
Qed.

Lemma f_target_map_ok a j r c l s :
  st j r c l s → (left_ s <= N)%nat → lexer_token (v_lexer s) ≠ c_token__EOF →
  wp (f_target_map f_expression a) (λ e s', st j r c l s' ∧ (left_ s' < left_ s)%nat ∧ node_ok j r e) s.
Proof.
  intros Hs Hn Ht. unfold f_target_map. do 9 step.
  apply wp_mono with (λ x s', st j r c l s' ∧ (left_ s' < left_ s)%nat ∧ nodes_ok j r x).
  { destruct b; [|step; split_and!; [done|shorter|done]].
    apply (wp_while (λ a s', st j r c l s' ∧ (left_ s' < left_ s)%nat ∧ nodes_ok j r a));
      [|split_and!; [done|shorter|done]].
    intros nodes s1 (Hs1 & Hl1 & Ha). step. call f_expression_ok. repeat step.
    call f_expression_ok.
    assert (nodes_ok j r (nodes ++ [a0; a1])).
    { change [a0; a1] with ([a0] ++ [a1]). rewrite app_assoc. eauto using nodes_ok_snoc. }
    repeat step; split_and!; auto; try done; shorter. }
  intros nodes s2 (Hs2 & Hl2 & Ha). step. eapply wp_close; [done..|].
  intros s3 Hs3 Hl3. step. finish.
Qed.
Lemma wp_parameter j r c l lambda (Q : () → t_parser → Prop) s :
  st j r c l s → (lambda < l)%nat →
  (∀ s', st j r c l s' → v_lexer s' = v_lexer s → Q () s') → wp (f_parameter lambda) Q s.
Proof.
  intros Hs Hi HQ. unfold f_parameter. repeat step. apply HQ; [done|congruence].
Qed.

Lemma f_parameters_ok lambda j r c l s :
  st j r c l s → (left_ s < N)%nat → (lambda < l)%nat →
  wp (f_parameters f_expression lambda)
    (λ x s', st j r c l s' ∧ (left_ s' < left_ s)%nat ∧ nodes_ok j r x.2) s.
Proof.
  intros Hs Hn Hi. unfold f_parameters.
  apply (wp_while (λ a s', st j r c l s' ∧ (left_ s' <= left_ s)%nat ∧ nodes_ok j r a)); [|done].
  intros defaults s1 (Hs1 & Hl1 & Ha). repeat step.
  - eapply wp_parameter; [done..|]. intros s2 Hs2 Hl2. repeat step. split_and!; auto; shorter.
  - eapply wp_parameter; [done..|]. intros s2 Hs2 Hl2. do 5 step.
    apply wp_mono with (λ x s', st j r c l s' ∧ (left_ s' < left_ s1)%nat ∧ nodes_ok j r x).
    { repeat step; [call f_expression_ok; step|]; finish. }
    intros x s3 (Hs3 & Hl3 & Hx). repeat step; split_and!; auto; try done; shorter.
Qed.

Lemma resolve_ok lambda outer j r c l (Q : () → t_parser → Prop) s :
  st j r c l s → (lambda < l)%nat → (outer < l)%nat →
  (∀ s', st j r c l s' → v_lexer s' = v_lexer s → Q () s') → wp (resolve lambda outer) Q s.
Proof.
  intros Hs Hi Ho HQ. unfold resolve. step. eapply wp_scope_at; [done|in_scope|]. intros x Hx.
  repeat step. apply HQ; [done|congruence].
Qed.

Lemma f_target_lambda_ok a j r c l s :
  st j r c l s → (left_ s <= N)%nat → lexer_token (v_lexer s) ≠ c_token__EOF →
  wp (f_target_lambda f_expression a) (λ e s', st j r c l s' ∧ (left_ s' < left_ s)%nat ∧ node_ok j r e) s.
Proof.
  intros Hs Hn Ht. unfold f_target_lambda. do 7 step.
  rewrite (st_scope _ _ _ _ _ H). eapply wp_new_scope; [done|exact (st_scope_lt _ _ _ _ _ H)|].
  pose proof (st_scopes _ _ _ _ _ H) as Hl. pose proof (st_scope_lt _ _ _ _ _ H) as Hc.
  set (lambda := length (v_scopes s')) in *. intros s2 Hs2 Hx2 Hl2.
  assert (Hm : st j r c (Datatypes.S lambda) s2) by (destruct Hs2; split; try done; lia).
  clear Hs2 H. do 5 step. 
  apply wp_mono with (λ x s', st j r c (Datatypes.S lambda) s' ∧ (left_ s' < left_ s)%nat ∧ nodes_ok j r x.2).
  { repeat step; try finish. 
    call f_parameters_ok. destruct a0 as [v d]. cbn [snd] in *. repeat step. finish. }
  intros [variadic defaults] s3 (Hs3 & Hl3 & Hd). cbn [snd] in Hd.
  step. eapply wp_scope_at; [done|in_scope|]. intros x _. do 2 step.
  step. apply wp_modify. step. step. step. step. step. apply wp_modify.
  assert (Hj : v_can_jump (with_scope lambda s'0) = j) by apply H.
  assert (Hr : v_can_return (with_scope lambda s'0) = r) by apply H. rewrite Hj, Hr.
  pose proof (st_with_can_return _ _ true _ _ _ (st_with_scope _ _ _ lambda _ _ H ltac:(in_scope))) as Hs4.
  assert (Hl4 : left_ (with_can_return true (with_scope lambda s'0)) = left_ s3).
  { unfold left_. cbn. by rewrite H1. }
  revert Hs4 Hl4. generalize (with_can_return true (with_scope lambda s'0)). clear H H1 H2 Hj Hr s'0.
  intros s4 Hs4 Hl4. step. call f_body_ok. step.
  eapply resolve_ok; [done|lia|lia|]. intros s5 Hs5 Hl5. 
  do 3 (step; apply wp_modify).
  pose proof (st_with_can_return _ _ r _ _ _ (st_with_can_jump _ j _ _ _ _
    (st_with_scope _ _ _ c _ _ Hs5 ltac:(in_scope)))) as Hs6.
  assert (Hl6 : (left_ (with_can_return r (with_can_jump j (with_scope c s5))) <= left_ s3)%nat).
  { change (left_ s5 <= left_ s3)%nat. shorter. }
  revert Hs6 Hl6. generalize (with_can_return r (with_can_jump j (with_scope c s5))). intros s6 Hs6 Hl6.
  step. eapply wp_on_scope; [done|in_scope|apply place_variables_outer|]. intros s7 Hs7 Hl7 _. step.
  split_and!; [eapply st_le; [done|lia]|shorter|].
  unfold node_ok, nodes_ok in *. cbn. by rewrite Hd.
Qed.
Ltac tail H :=
  eapply wp_mono;
  [eapply H; try eassumption; try shorter; try congruence | cbn beta; intros ? ? (? & ? & ?); finish].

Lemma f_optional_ok a j r c l s :
  st j r c l s → (left_ s < N)%nat →
  wp (f_optional_expression f_expression a)
    (λ e s', st j r c l s' ∧ (left_ s' <= left_ s)%nat ∧ node_ok j r e) s.
Proof.
  intros Hs Hn. unfold f_optional_expression, f_has_expression. do 6 step. 
  destruct (_ && _); [tail f_expression_ok|finish].
Qed.

Lemma f_target_ok b j r c l s :
  st j r c l s → (left_ s <= N)%nat →
  wp (f_target f_expression b) (λ e s', st j r c l s' ∧ (left_ s' < left_ s)%nat ∧ node_ok j r e) s.
Proof.
  intros Hs Hn. unfold f_target, f_literal. do 4 step.
  destruct (lexer_token (v_lexer s)) eqn:Ht; try apply wp_throw;
    repeat step;
    lazymatch goal with
    | |- wp (f_target_scoped _ _ _) _ _ => tail f_target_scoped_ok
    | |- wp (f_target_quote _ _) _ _ => tail f_target_quote_ok
    | |- wp (f_target_parenthesis _) _ _ => tail f_target_parenthesis_ok
    | |- wp (f_target_lambda _ _) _ _ => tail f_target_lambda_ok
    | |- wp (f_construct _ _ _ _) _ _ => tail f_construct_ok
    | |- wp (f_target_map _ _) _ _ => tail f_target_map_ok
    | |- wp f_expression _ _ => call f_expression_ok; step; finish
    | |- wp _ _ _ => idtac
    | |- _ => try (split_and!; [done|shorter|done])
    end.
  - rewrite (st_jump _ _ _ _ _ Hs), negb_false_iff in H. subst j.
    call f_optional_ok. step. finish.
  - rewrite (st_jump _ _ _ _ _ Hs), negb_false_iff in H. subst j. finish.
  - rewrite (st_return _ _ _ _ _ Hs), negb_false_iff in H. subst r.
    call f_optional_ok. step. finish.
Qed.

(** ** Postfix operations *)

Lemma f_action_has_ok a x j r c l s :
  st j r c l s → (left_ s <= N)%nat → lexer_token (v_lexer s) ≠ c_token__EOF → node_ok j r x →
  wp (f_action_has f_expression a x) (λ e s', st j r c l s' ∧ (left_ s' < left_ s)%nat ∧ node_ok j r e) s.
Proof.
  intros Hs Hn Ht Hx. unfold f_action_has. repeat step; try finish.
  call f_expression_ok. step. eapply wp_close; [done..|]. intros. step. finish.
Qed.

(** The parts of [f_action]: an operation whose result is [inr] ends it. *)
Definition either_ok (j r : bool) (x : t_node + t_node) : Prop :=
  match x with inl e | inr e => node_ok j r e end.

Lemma assignment_ok b put get j r c l s :
  st j r c l s → (left_ s <= N)%nat → (∀ e, node_ok j r e → node_ok j r (put e)) → node_ok j r get →
  wp (f_put f_expression b put get)
    (λ x s', st j r c l s' ∧ (left_ s' <= left_ s)%nat ∧ either_ok j r x) s.
Proof.
  intros Hs Hn Hput Hget. unfold f_put. repeat step.
  - call f_expression_ok. step. split_and!; [done|shorter|by apply Hput].
  - split_and!; [done|shorter|done].
Qed.

Ltac put :=
  eapply wp_mono; [eapply assignment_ok; try eassumption; try shorter; intros; unfold node_ok in *; tree
                  | cbn beta; intros ? ? (? & ? & ?); split_and!; [done|shorter|done]].

Lemma f_action_dot_ok x b j r c l s :
  st j r c l s → (left_ s <= N)%nat → lexer_token (v_lexer s) ≠ c_token__EOF → node_ok j r x →
  wp (f_action_dot f_expression x b)
    (λ y s', st j r c l s' ∧ (left_ s' < left_ s)%nat ∧ either_ok j r y) s.
Proof.
  intros Hs Hn Ht Hx. unfold f_action_dot. repeat step; try (split_and!; [done|shorter|done]).
  - call f_expression_ok. step. eapply wp_close; [done..|]. intros. put.
  - eapply wp_mono; [eapply f_action_has_ok; try eassumption; [shorter|congruence]|].
    intros ? ? (? & ? & ?). step. split_and!; [done|shorter|done].
  - put.
Qed.

Lemma f_action_call_ok x j r c l s :
  st j r c l s → (left_ s <= N)%nat → lexer_token (v_lexer s) ≠ c_token__EOF → node_ok j r x →
  wp (f_action_call f_expression x) (λ e s', st j r c l s' ∧ (left_ s' < left_ s)%nat ∧ node_ok j r e) s.
Proof.
  intros Hs Hn Ht Hx. unfold f_action_call. do 9 step.
  apply wp_mono with (λ x s', st j r c l s' ∧ (left_ s' < left_ s)%nat ∧ nodes_ok j r x.1).
  { destruct b; [call f_arguments_ok|step]; split_and!; auto; try done; shorter. }
  intros [arguments expands] s2 (Hs2 & Hl2 & Ha). cbn in Ha. step. eapply wp_close; [done..|].
  intros s3 Hs3 Hl3. step. finish.
Qed.

Lemma f_action_at_ok x b j r c l s :
  st j r c l s → (left_ s <= N)%nat → lexer_token (v_lexer s) ≠ c_token__EOF → node_ok j r x →
  wp (f_action_at f_expression x b)
    (λ y s', st j r c l s' ∧ (left_ s' < left_ s)%nat ∧ either_ok j r y) s.
Proof.
  intros Hs Hn Ht Hx. unfold f_action_at. do 7 step. call f_expression_ok. step.
  eapply wp_close; [done..|]. intros. put.
Qed.

Lemma f_action_ok i x b j r c l s :
  st j r c l s → (left_ s <= N)%nat → node_ok j r x →
  wp (f_action f_expression i x b)
    (λ e s', st j r c l s' ∧ (left_ s' <= left_ s)%nat ∧ node_ok j r e) s.
Proof.
  intros Hs Hn Hx. unfold f_action.
  apply (wp_while (λ a s', st j r c l s' ∧ (left_ s' <= left_ s)%nat ∧ node_ok j r a)); [|done].
  intros y s1 (Hs1 & Hl1 & Hy). do 6 step. 
  destruct (_ || _); [|step; by split_and!].
  destruct (lexer_token (v_lexer s1)) eqn:Ht; try (step; by split_and!).
  - step. eapply wp_mono; [eapply f_action_call_ok; try eassumption; [shorter|congruence]|].
    intros ? ? (? & ? & ?). step. split_and!; auto; shorter.
  - eapply wp_mono; [eapply f_action_dot_ok; try eassumption; [shorter|congruence]|].
    intros [e|e] ? (? & ? & ?); split_and!; auto; shorter.
  - eapply wp_mono; [eapply f_action_at_ok; try eassumption; [shorter|congruence]|].
    intros [e|e] ? (? & ? & ?); split_and!; auto; shorter.
Qed.

(** ** Operators *)

(** An operand, which may follow an operator. *)
Definition operand_ok (operand : bool → M t_node) : Prop :=
  ∀ b j r c l s, st j r c l s → (left_ s <= N)%nat →
    wp (operand b) (λ e s', st j r c l s' ∧ (left_ s' < left_ s)%nat ∧ node_ok j r e) s.

Lemma fold_literal_ok x (Q : option (@t_literal F) → t_parser → Prop) s :
  (∀ o, (o = None ∨ lexer_token (v_lexer s) ≠ c_token__EOF) → Q o s) →
  wp (fold_literal float_negate x) Q s.
Proof.
  intros HQ. unfold fold_literal. do 2 step.
  destruct x; try (step; apply HQ; by left);
    destruct (lexer_token (v_lexer s)) eqn:Ht; try (step; apply HQ; by left);
    do 3 step; apply HQ; by right.
Qed.

Lemma f_unary_from_ok fuel b j r c l s :
  st j r c l s → (left_ s <= N)%nat → (left_ s < fuel)%nat →
  wp (f_unary_from float_negate f_expression fuel b)
    (λ e s', st j r c l s' ∧ (left_ s' < left_ s)%nat ∧ node_ok j r e) s.
Proof.
  revert b s. induction fuel as [|fuel IH]; intros b s Hs Hn Hf; [lia|]. cbn [f_unary_from].
  do 4 step. destruct (unary_instruction _) as [x|] eqn:Hx.
  - assert (lexer_token (v_lexer s) ≠ c_token__EOF) by (intros E; by rewrite E in Hx).
    do 5 step. apply fold_literal_ok. intros o [->|Ht]; [|destruct o].
    + step. call IH. step. finish.
    + do 2 step. eapply wp_mono; [eapply f_action_ok; [eassumption|shorter|done]|].
      intros ? ? (? & ? & ?). finish.
    + step. call IH. step. finish.
  - step. call f_target_ok. eapply wp_mono; [eapply f_action_ok; [eassumption|shorter|done]|].
    intros ? ? (? & ? & ?). finish.
Qed.

Lemma f_unary_ok : operand_ok (f_unary float_negate f_expression).
Proof.
  intros b j r c l s Hs Hn. unfold f_unary. do 2 step.
  apply f_unary_from_ok; [done|done|unfold rounds, left_; lia].
Qed.

(** The loops of the binary operators turn operands into operands. *)
Lemma binary_ok operand instruction :
  operand_ok operand → instruction c_token__EOF = None → operand_ok (binary operand instruction).
Proof.
  intros Ho Hi b j r c l s Hs Hn. unfold binary. step. call Ho.
  apply (wp_while (λ a s', st j r c l s' ∧ (left_ s' < left_ s)%nat ∧ node_ok j r a)); [|done].
  intros e s1 (Hs1 & Hl1 & He). repeat step; try by split_and!.
  call Ho. step. split; [finish|shorter].
Qed.

Lemma branches_ok operand token branch :
  operand_ok operand → token ≠ c_token__EOF →
  (∀ j r x y, node_ok j r x → node_ok j r y → node_ok j r (branch x y)) →
  operand_ok (branches operand token branch).
Proof.
  intros Ho Ht Hb b j r c l s Hs Hn. unfold branches. step. call Ho.
  apply (wp_while (λ a s', st j r c l s' ∧ (left_ s' < left_ s)%nat ∧ node_ok j r a)); [|done].
  intros e s1 (Hs1 & Hl1 & He). repeat step; try by split_and!.
  call Ho. step. split_and!; auto; shorter.
Qed.

Lemma f_or_else_ok : operand_ok (f_or_else float_negate f_expression).
Proof.
  apply branches_ok; [|done|].
  - apply branches_ok; [|done|].
    + repeat (apply binary_ok; [|done]). apply f_unary_ok.
    + intros. unfold node_ok in *. tree.
  - intros. unfold node_ok in *. tree.
Qed.

Lemma f_conditional_from_ok fuel b j r c l s :
  st j r c l s → (left_ s <= N)%nat → (left_ s < fuel)%nat →
  wp (f_conditional_from float_negate f_expression fuel b)
    (λ e s', st j r c l s' ∧ (left_ s' < left_ s)%nat ∧ node_ok j r e) s.
Proof.
  revert b s. induction fuel as [|fuel IH]; intros b s Hs Hn Hf; [lia|]. cbn [f_conditional_from].
  step. call f_or_else_ok. repeat step; try finish.
  call IH. repeat step. call IH. step. finish.
Qed.
(** ** Statements *)

Lemma f_if_ok j r c l s :
  st j r c l s → (left_ s <= N)%nat → lexer_token (v_lexer s) ≠ c_token__EOF →
  wp (f_if f_expression) (λ e s', st j r c l s' ∧ (left_ s' < left_ s)%nat ∧ node_ok j r e) s.
Proof.
  intros Hs Hn Ht. unfold f_if. do 7 step. call f_options_ok. step. call f_body_ok. do 7 step.
  apply wp_mono with (λ e s', st j r c l s' ∧ (left_ s' < left_ s)%nat ∧ node_ok j r e).
  { repeat step; [call f_body_ok|..]; finish. }
  intros e s4 (Hs4 & Hl4 & He). step. unfold option_ok in *. destruct a; finish.
Qed.

Lemma wp_private_tail j r c l (Q : option t_symbol → t_parser → Prop) s :
  st j r c l s → (∀ o, Q o s) → wp private_tail Q s.
Proof.
  intros Hs HQ. unfold private_tail. do 3 step. rewrite (st_scope _ _ _ _ _ Hs).
  eapply wp_scope_at; [done|in_scope|]. intros x _. by step.
Qed.

Lemma f_loop_body_ok i tail j r c l s :
  st j r c l s → (left_ s < N)%nat →
  wp (f_loop_body f_expression i tail)
    (λ e s', st j r c l s' ∧ (left_ s' <= left_ s)%nat ∧ jumps true true r e = true) s.
Proof.
  intros Hs Hn. unfold f_loop_body. do 3 step. apply wp_modify. rewrite (st_jump _ _ _ _ _ Hs).
  pose proof (st_with_can_jump _ true _ _ _ _ Hs) as Hs1. step.
  eapply wp_mono; [eapply f_body_ok; [exact Hs1|exact Hn]|]. cbn beta. intros e s2 (Hs2 & Hl2 & He).
  step. apply wp_modify. pose proof (st_with_can_jump _ j _ _ _ _ Hs2) as Hs3.
  change (left_ s2 <= left_ s)%nat in Hl2.
  assert (Hl3 : left_ (with_can_jump j s2) = left_ s2) by done.
  revert Hs3 Hl3. generalize (with_can_jump j s2). intros s3 Hs3 Hl3.
  step. unfold vary_from. do 2 step. rewrite (st_scope _ _ _ _ _ Hs3). repeat step.
  split_and!; [done|shorter|done].
Qed.

Lemma f_while_ok j r c l s :
  st j r c l s → (left_ s <= N)%nat → lexer_token (v_lexer s) ≠ c_token__EOF →
  wp (f_while f_expression) (λ e s', st j r c l s' ∧ (left_ s' < left_ s)%nat ∧ node_ok j r e) s.
Proof.
  intros Hs Hn Ht. unfold f_while. do 5 step. eapply wp_private_tail; [done|]. intros o. step.
  call f_options_ok. step. call f_loop_body_ok. step. unfold option_ok in *. destruct a; finish.
Qed.

Lemma f_for_ok j r c l s :
  st j r c l s → (left_ s <= N)%nat → lexer_token (v_lexer s) ≠ c_token__EOF →
  wp (f_for f_expression) (λ e s', st j r c l s' ∧ (left_ s' < left_ s)%nat ∧ node_ok j r e) s.
Proof.
  intros Hs Hn Ht. unfold f_for. do 5 step. call f_options_ok. step.
  eapply wp_private_tail; [done|]. intros o. step.
  call f_options_ok. step. call f_options_ok. step. call f_loop_body_ok. step. unfold option_ok in *.
  split_and!; [done|shorter|]. unfold node_ok in *. cbn. destruct a, a0, a1; tree.
Qed.

Definition catches_ok (j r : bool) (l : list (t_node * (nat * t_symbol) * t_node)) : Prop :=
  forallb (λ x, jumps true j r x.1.1 && jumps true j r x.2) l = true.

Lemma f_catches_ok i j r c l s :
  st j r c l s → (left_ s <= N)%nat →
  wp (f_catches f_expression i) (λ x s', st j r c l s' ∧ (left_ s' <= left_ s)%nat ∧ catches_ok j r x) s.
Proof.
  intros Hs Hn. unfold f_catches.
  apply (wp_while (λ a s', st j r c l s' ∧ (left_ s' <= left_ s)%nat ∧ catches_ok j r a)); [|done].
  intros x s1 (Hs1 & Hl1 & Hx). repeat step; try by split_and!.
  call f_expression_ok. repeat step. match goal with H : st _ _ _ _ ?s |- context [v_scope ?s] => rewrite (st_scope _ _ _ _ _ H) end.
  eapply wp_variable; [done|in_scope|]. intros s3 Hs3 Hl3. step. call f_body_ok. step.
  split; [|shorter]. split_and!; [done|shorter|]. unfold catches_ok, node_ok in *.
  rewrite forallb_app, Hx. cbn. rewrite !andb_true_iff. auto.
Qed.

Lemma f_try_ok j r c l s :
  st j r c l s → (left_ s <= N)%nat → lexer_token (v_lexer s) ≠ c_token__EOF →
  wp (f_try f_expression) (λ e s', st j r c l s' ∧ (left_ s' < left_ s)%nat ∧ node_ok j r e) s.
Proof.
  intros Hs Hn Ht. unfold f_try. do 5 step. call f_body_ok. step. call f_catches_ok.
  do 5 step; repeat step.
  2, 3: split_and!; [done|shorter|unfold node_ok, catches_ok in *; cbn; rewrite !andb_true_iff; auto].
  match goal with H : st j r c l ?s2 |- wp _ _ ?s2 => rename H into Hs2; rename s2 into s3 end.
  rewrite (st_jump _ _ _ _ _ Hs2). apply wp_modify. do 3 step. apply wp_modify.
  assert (Hr : v_can_return (with_can_jump false s3) = r) by apply Hs2. rewrite Hr.
  pose proof (st_with_can_return _ _ false _ _ _ (st_with_can_jump _ false _ _ _ _ Hs2)) as Hs4.
  step. eapply wp_mono; [eapply f_body_ok; [exact Hs4|change (left_ s3 < N)%nat; shorter]|].
  cbn beta. intros e5 s5 (Hs5 & Hl5 & He5). change (left_ s5 <= left_ s3)%nat in Hl5.
  step. apply wp_modify. step. apply wp_modify. step.
  split_and!; [exact (st_with_can_return _ _ r _ _ _ (st_with_can_jump _ j _ _ _ _ Hs5))| |].
  - change (left_ s5 < left_ s)%nat. shorter.
  - unfold node_ok, catches_ok in *. cbn. rewrite !andb_true_iff. auto.
Qed.

Lemma f_expression_with_ok j r c l s :
  st j r c l s → (left_ s <= N)%nat →
  wp (f_expression_with float_negate f_expression)
    (λ e s', st j r c l s' ∧ (left_ s' < left_ s)%nat ∧ node_ok j r e) s.
Proof.
  intros Hs Hn. unfold f_expression_with. do 2 step.
  assert (Hc : wp (f_conditional float_negate f_expression true)
    (λ e s', st j r c l s' ∧ (left_ s' < left_ s)%nat ∧ node_ok j r e) s).
  { unfold f_conditional. do 2 step. apply f_conditional_from_ok; [done|done|unfold rounds, left_; lia]. }
  destruct (lexer_token (v_lexer s)) eqn:Ht; try exact Hc.
  all: lazymatch goal with
    | |- wp (f_if _) _ _ => apply f_if_ok
    | |- wp (f_while _) _ _ => apply f_while_ok
    | |- wp (f_for _) _ _ => apply f_for_ok
    | |- wp (f_try _) _ _ => apply f_try_ok
    end; [done|done|congruence].
Qed.
End expression.

(** ** The recursion *)

Lemma f_expression_from_ok n : consumes n (f_expression_from float_negate n) node_ok.
Proof.
  induction n as [|n IH]; intros j r c l s Hs Hn; [lia|]. cbn [f_expression_from].
  apply (f_expression_with_ok _ n IH); [done|lia].
Qed.

Lemma f_expression_ok N : consumes N (f_expression float_negate) node_ok.
Proof.
  intros j r c l s Hs _. unfold f_expression. do 2 step.
  apply f_expression_from_ok; [done|unfold rounds, left_; lia].
Qed.

(** A parser at its beginning. *)
Lemma parse_ok l : lexer_ok l →
  wp (parse float_negate) (λ e _, node_ok false false e) (new_parser l).
Proof.
  intros Hl. unfold parse. step.
  (* The scope of the module. *)
  unfold wp at 1, new_scope_m. cbn [v_scopes new_parser length app with_scopes]. step. apply wp_modify.
  assert (Hs : st false false 0 1 (with_scope 0 (with_scopes [new_scope None] (new_parser l)))).
  { split; cbn; try done; try lia. by apply Forall_singleton. }
  revert Hs. generalize (with_scope 0 (with_scopes [new_scope None] (new_parser l))). intros s Hs.
  do 3 step.
  apply wp_mono with (λ x s', st false false 0 1 s' ∧ nodes_ok false false x).
  { repeat step; [by split|].
    apply (wp_while (λ a s', st false false 0 1 s' ∧ nodes_ok false false a)); [|done].
    intros x s1 (Hs1 & Hx). step.
    eapply wp_mono; [eapply f_expressions_ok; [exact (f_expression_ok _)|done|apply Nat.lt_succ_diag_r]|].
    cbn beta. intros y s2 (Hs2 & Hl2 & Hy). repeat step; split_and!; auto. }
  intros x s2 [Hs2 Hx]. step. eapply wp_on_scope; [done|in_scope| |].
  - intros y. cbn zeta. destruct (decide _).
    + by destruct (v_self_shared _).
    + rewrite classify_outer. by destruct (v_self_shared _).
  - intros s3 Hs3 _ _. by step.
Qed.
End Grammar.

(** ** Properties *)

Section Properties.
Context `{Ctype} (width : Z → Z) (v_path : string).
Context {F : Type} (from_chars_float : list Z → option F) (float_zero : F) (float_negate : F → F).

Abbreviation parse_text := (parse_text width v_path from_chars_float float_zero float_negate).
#[local] Existing Instance text_source.

Lemma parse_text_ok text : Forall (λ c, c ≠ WEOF) text →
  match parse_text text with
  | Ok (e, _) => jumps true false false e = true
  | Throw e => error_ok e
  | Fault => False
  end.
Proof.
  intros Htext. unfold Parser.parse_text, new_lexer.
  destruct (first_line_ok width (F := F) text Htext) as (l & -> & Hin & _).
  cbn [mbind outcome_bind].
  pose proof (f_next_ok width v_path from_chars_float text l Hin) as Hn.
  destruct (Lexer.f_next width v_path from_chars_float l) as [l1|e|]; [|left; apply Hn|done].
  assert (Hl : @lexer_ok _ _ (text_source width v_path from_chars_float float_zero) l1)
    by (exists text; exact (nt_text _ _ _ _ _ _ Hn)).
  pose proof (parse_ok float_negate l1 Hl) as Hp. unfold wp in Hp.
  destruct (parse float_negate (new_parser l1)) as [[e s]| |]; done.
Qed.

(** C17 (parsing_terminates): the parser of any text returns a syntax tree or
    throws a lexical or a syntax error: its recursion and all of its loops
    end, it asks the lexer for no token after the end of the source, and it
    never looks for a scope outside of the arena. *)
Theorem parsing_terminates text : Forall (λ c, c ≠ WEOF) text →
  match parse_text text with
  | Ok _ => True
  | Throw e => error_ok e
  | Fault => False
  end.
Proof.
  intros Htext. pose proof (parse_text_ok text Htext). by destruct (parse_text text) as [[e s]| |].
Qed.

(** In the tree of a text, every [break] and
    [continue] is inside the body of a loop and not in between a [finally] and
    its end, every [return] is in a lambda and not in a [finally] of it; a loop
    around a lambda counts as one for the body of the lambda. *)
Theorem jumps_are_guarded text e s : Forall (λ c, c ≠ WEOF) text →
  parse_text text = Ok (e, s) → jumps true false false e = true.
Proof. intros Htext He. pose proof (parse_text_ok text Htext) as Hp. by rewrite He in Hp. Qed.
End Properties.

Abbreviation sample_parse s := (parse_text byte_width "sample" sample_from_chars [] (λ f, f) (chars s)).

Lemma sample_text s : Forall (λ c, c ≠ WEOF) (chars s).
Proof. apply Forall_forall. intros c Hc. apply list_elem_of_fmap in Hc as (a & -> & _). unfold ch, WEOF. lia. Qed.

(** A loop with a lambda in it. *)
Definition sample_loop : string :=
  "while true" +:+ line_feed +:+ "  f = @(x) break x" +:+ line_feed.

(** The lambda of [sample_loop] has no loop, and yet its [break] is accepted. *)
Theorem break_in_lambda_accepted :
  match sample_parse sample_loop with
  | Ok (e, _) => jumps true false false e = true ∧ jumps false false false e = false
  | _ => False
  end.
Proof. vm_compute. done. Qed.

(** Sample inputs. *)
Lemma parsing_terminates_witness :
  match sample_parse "f = @(x" with
  | Ok _ => False
  | Throw e => error_message e = "syntax error: expecting ')'."%string ∧ error_ok e
  | Fault => False
  end.
Proof.
  pose proof (parsing_terminates byte_width "sample" sample_from_chars [] (λ f, f) (chars "f = @(x")
                (sample_text _)) as H.
  destruct (parse_text _ _ _ _ _ _) as [p|e|] eqn:E.
  - vm_compute in E. discriminate.
  - split; [|exact H]. vm_compute in E. by injection E as <-.
  - done.
Defined.

Lemma jumps_are_guarded_witness :
  match sample_parse sample_loop with
  | Ok (e, _) => jumps true false false e = true
  | _ => False
  end.
Proof.
  pose proof (jumps_are_guarded byte_width "sample" sample_from_chars [] (λ f, f) (chars sample_loop)) as H.
  assert (Ht : is_ok (sample_parse sample_loop) = true) by (vm_compute; reflexivity).
  revert H Ht.
  destruct (parse_text _ _ _ _ _ _) as [[e s]|e|]; intros H Ht; [|discriminate|discriminate].
  exact (H e s (sample_text _) eq_refl).
Defined.

(** A parameter whose name is repeated cuts the ones in between off the
    variables that get places: the second parameter has no slot of its own. *)
Theorem repeated_parameter_loses :
  match sample_parse "@(a, b, a) b" with
  | Ok (_, s) =>
    match v_scopes s !! 1%nat with
    | Some c => size (v_variables c) = 2%nat ∧ v_privates c = [chars "a"] ∧
                v_index <$> v_variables c !! chars "b" = Some 0%nat ∧
                v_index <$> v_variables c !! chars "a" = Some 1%nat
    | None => False
    end
  | _ => False
  end.
Proof. vm_compute. done. Qed.
