(* ===== verification/ParserScope.v ===== *)
(** * The places of variables

    When the parser leaves a lambda it gives every variable of it a place: a
    slot of the stack, or of the scope object for a variable that inner
    lambdas share.  No two variables get the same place. *)
From stdpp Require Import base list numbers strings gmap.
From S2P Require Import Prelude Lexer Ast Parser.
Local Open Scope nat_scope.

Section Places.
Implicit Types (c : t_scope) (l kept rest : list t_symbol) (s : t_symbol) (x : t_variable).

(** How many symbols of a list satisfy [p]. *)
Fixpoint count (p : t_symbol → bool) l : nat :=
  match l with [] => 0 | s :: l => (if p s then 1 else 0) + count p l end.

Lemma count_app p l1 l2 : count p (l1 ++ l2) = count p l1 + count p l2.
Proof. induction l1 as [|s l1 IH]; cbn; [done|]. rewrite IH. lia. Qed.

Lemma count_lt p l k k' s : l !! k = Some s → p s = true → k < k' → count p (take k l) < count p (take k' l).
Proof.
  revert k k'. induction l as [|s' l IH]; intros k k' Hk Hp Hlt; [done|].
  destruct k' as [|k']; [lia|]. destruct k as [|k]; cbn in *.
  - injection Hk as ->. rewrite Hp. lia.
  - pose proof (IH k k' Hk Hp ltac:(lia)). lia.
Qed.

(** The symbols that satisfy [p] are told apart by the number of those before them. *)
Lemma count_inj p l k1 k2 s1 s2 :
  l !! k1 = Some s1 → l !! k2 = Some s2 → p s1 = true → p s2 = true →
  count p (take k1 l) = count p (take k2 l) → s1 = s2.
Proof.
  intros H1 H2 Hp1 Hp2 Heq. destruct (decide (k1 = k2)) as [->|Hne]; [congruence|].
  assert (k1 < k2 ∨ k2 < k1) as [Hlt|Hlt] by lia.
  - pose proof (count_lt p l k1 k2 s1 H1 Hp1 Hlt). lia.
  - pose proof (count_lt p l k2 k1 s2 H2 Hp2 Hlt). lia.
Qed.

Lemma count_bound p l k s : l !! k = Some s → p s = true → count p (take k l) < count p l.
Proof.
  intros Hk Hp. pose proof (lookup_lt_Some _ _ _ Hk) as Hl.
  pose proof (count_lt p l k (length l) s Hk Hp Hl) as H. by rewrite (take_ge l (length l)) in H by lia.
Qed.

Abbreviation shared_in := count.
Abbreviation private_in sh := (count (λ s, negb (sh s))).

(** The flags of the variables of [l]. *)
Definition flags sh l c : Prop := ∀ s, s ∈ l → ∃ x, v_variables c !! s = Some x ∧ v_shared x = sh s.

Lemma flags_place sh s l i c x :
  s ∉ l → flags sh (s :: l) c → flags sh l (with_variables (<[s := place i x]> (v_variables c)) c).
Proof.
  intros Hs Hf s' Hs'. cbn. rewrite lookup_insert_ne by congruence. apply Hf. by right.
Qed.

(** [f_classify] numbers the shared variables from [v_shareds] on and the
    others from [v_size] on, in the order of the ring. *)
Lemma classify_ok sh kept rest c :
  NoDup rest → flags sh rest c →
  let c' := classify kept rest c in
  v_privates c' = kept ++ filter (λ s, sh s = false) rest ∧
  v_privates_size c' = v_privates_size c + private_in sh rest ∧
  v_shareds c' = v_shareds c + shared_in sh rest ∧
  (∀ s, s ∉ rest → v_variables c' !! s = v_variables c !! s) ∧
  ∀ k s x, rest !! k = Some s → v_variables c !! s = Some x →
    v_variables c' !! s = Some (place (if sh s then v_shareds c + shared_in sh (take k rest)
                                       else v_privates_size c + private_in sh (take k rest)) x).
Proof.
  revert kept c. induction rest as [|s rest IH]; intros kept c Hnd Hf; cbn [classify].
  { cbn. rewrite app_nil_r. split_and!; [done|lia|lia|done|done]. }
  apply NoDup_cons in Hnd as [Hs Hnd].
  destruct (Hf s ltac:(left)) as (x & Hx & Hsh). rewrite Hx, filter_cons. cbn [count].
  rewrite <- Hsh.
  assert (Hlater : ∀ i k s' y, (s :: rest) !! k = Some s' → s' ≠ s → v_variables c !! s' = Some y →
    ∃ k', k = S k' ∧ rest !! k' = Some s' ∧ <[s := place i x]> (v_variables c) !! s' = Some y).
  { intros i [|k] s' y Hk Hne Hy; [by injection Hk as ->|]. exists k. by rewrite lookup_insert_ne. }
  destruct (v_shared x) eqn:Hxs.
  all: match goal with |- context [classify ?k _ ?c1] =>
    destruct (IH k c1 Hnd (flags_place _ _ _ _ _ _ Hs Hf)) as (Hp & Hsz & Hss & Hout & Hin) end.
  all: cbn in Hp, Hsz, Hss, Hout, Hin |- *; rewrite Hp, Hsz, Hss.
  all: split_and!; try lia; try (by rewrite <- ?app_assoc).
  1, 3: intros s' Hs'; rewrite Hout by (intros ?; apply Hs'; by right);
        apply lookup_insert_ne; intros ->; apply Hs'; by left.
  all: intros k s' y Hk Hy; destruct (decide (s' = s)) as [->|Hne];
    [ assert (k = 0) as -> by (destruct k as [|k]; [done|]; destruct Hs; by eapply list_elem_of_lookup_2);
      rewrite Hout, lookup_insert_eq by done; cbn; simplify_eq;
      rewrite <- Hsh; cbn; do 2 f_equal; lia
    | destruct (Hlater 0 k s' y Hk Hne Hy) as (k' & -> & Hk' & _);
      rewrite (Hin k' s' y Hk' ltac:(by rewrite lookup_insert_ne)); cbn [take count];
      rewrite <- Hsh; destruct (sh s'); cbn [negb]; do 2 f_equal; lia ].
Qed.

(** The arguments get their positions as places, or the next shared ones. *)
Lemma place_arguments_ok sh n i l c :
  v_privates c = l → i + n <= length l → NoDup l → flags sh l c →
  let c' := place_arguments n i c in
  v_privates c' = l ∧ v_privates_size c' = v_privates_size c ∧
  v_shareds c' = v_shareds c + shared_in sh (take n (drop i l)) ∧
  (∀ s, s ∉ take n (drop i l) → v_variables c' !! s = v_variables c !! s) ∧
  ∀ k s x, k < n → l !! (i + k) = Some s → v_variables c !! s = Some x →
    v_variables c' !! s = Some (place (if sh s then v_shareds c + shared_in sh (take k (drop i l)) else i + k) x).
Proof.
  revert i c. induction n as [|n IH]; intros i c Hl Hin Hnd Hf; cbn [place_arguments].
  { rewrite take_0. cbn. split_and!; [done|done|lia|done|intros; lia]. }
  rewrite Hl, Nat.mod_small by lia.
  destruct (lookup_lt_is_Some_2 l i ltac:(lia)) as [s Hs]. rewrite Hs.
  destruct (Hf s) as (x & Hx & Hsh); [by eapply list_elem_of_lookup_2|]. rewrite Hx.
  rewrite (drop_S _ _ _ Hs). cbn [take count]. rewrite <- Hsh.
  assert (Hlater : s ∉ take n (drop (S i) l)).
  { intros Hin'. apply list_elem_of_lookup_1 in Hin' as [k Hk].
    apply lookup_take_Some in Hk as [Hk _]. rewrite lookup_drop in Hk.
    pose proof (NoDup_lookup _ _ _ _ Hnd Hs Hk). lia. }
  match goal with |- context [place_arguments n (S i) ?c] => set (c1 := c) end.
  set (p := if v_shared x then v_shareds c else i).
  assert (Hc1 : v_privates c1 = l ∧ v_privates_size c1 = v_privates_size c ∧
    v_shareds c1 = v_shareds c + (if v_shared x then 1 else 0) ∧
    v_variables c1 = <[s := place p x]> (v_variables c)).
  { subst c1 p. destruct (v_shared x); cbn; split_and!; try done; lia. }
  clearbody c1. destruct Hc1 as (Hp1 & Hz1 & Hs1 & Hv1).
  destruct (IH (S i) c1 Hp1 ltac:(lia) Hnd) as (Hp & Hz & Hss & Hout & Hplace).
  { intros s' Hs'. rewrite Hv1. destruct (decide (s' = s)) as [->|Hne].
    - exists (place p x). by rewrite lookup_insert_eq.
    - rewrite lookup_insert_ne by done. by apply Hf. }
  split_and!; [done|congruence|lia| |].
  - intros s' Hs'. rewrite Hout, Hv1 by (intros ?; apply Hs'; by right).
    apply lookup_insert_ne. intros ->. apply Hs'. by left.
  - intros [|k] s' y Hk Hs' Hy.
    + replace (i + 0) with i in Hs' by lia. simplify_eq. rewrite Hout, Hv1, lookup_insert_eq by done.
      subst p. cbn. rewrite <- Hsh. destruct (v_shared x); do 2 f_equal; lia.
    + assert (s' ≠ s).
      { intros ->. pose proof (NoDup_lookup _ _ _ _ Hnd Hs Hs'). lia. }
      rewrite (Hplace k s' y ltac:(lia)); [|by replace (S i + k) with (i + S k) by lia|by rewrite Hv1, lookup_insert_ne].
      cbn [take count]. rewrite Hs1, <- Hsh. destruct (sh s'), (v_shared x); do 2 f_equal; lia.
Qed.

(** ** Scopes *)

(** What holds of the scope of a lambda without repeated parameters: its ring
    lists its variables. *)
Definition scope_ok c : Prop :=
  NoDup (v_privates c) ∧ (∀ s, s ∈ v_privates c ↔ is_Some (v_variables c !! s)) ∧
  v_privates_size c = length (v_privates c) ∧ v_shareds c = 0.

(** Whether a variable is shared. *)
Definition sharing c s : bool :=
  match v_variables c !! s with Some x => v_shared x | None => false end.

Lemma flags_sharing c l : scope_ok c → (∀ s, s ∈ l → s ∈ v_privates c) → flags (sharing c) l c.
Proof.
  intros (_ & Hdom & _) Hl s Hs. apply Hl, Hdom in Hs as [x Hx]. exists x. split; [done|].
  unfold sharing. by rewrite Hx.
Qed.

(** The place of the [k]-th variable of a scope. *)
Definition place_of c arguments k s : nat :=
  let l := v_privates c in
  if sharing c s then (if v_self_shared c then 1 else 0) + shared_in (sharing c) (take k l)
  else if decide (k < arguments) then k
  else arguments + private_in (sharing c) (take (k - arguments) (drop arguments l)).

(** The scope before its arguments are placed. *)
Definition with_self c : t_scope := if v_self_shared c then with_shareds (S (v_shareds c)) c else c.

Lemma with_self_ok c :
  v_privates (with_self c) = v_privates c ∧ v_privates_size (with_self c) = v_privates_size c ∧
  v_variables (with_self c) = v_variables c ∧
  v_shareds (with_self c) = v_shareds c + (if v_self_shared c then 1 else 0).
Proof. unfold with_self. destruct (v_self_shared c); cbn; split_and!; try done; lia. Qed.

Lemma place_variables_unfold arguments c :
  arguments <= length (v_privates c) →
  v_privates (place_arguments arguments 0 (with_self c)) = v_privates c →
  place_variables arguments c =
  let c1 := place_arguments arguments 0 (with_self c) in
  if decide (arguments = length (v_privates c)) then c1
  else classify (take arguments (v_privates c)) (drop arguments (v_privates c))
         (with_privates (v_privates c) arguments c1).
Proof.
  intros Ha Hp. unfold place_variables. cbn zeta. fold (with_self c). rewrite Hp.
  assert (Hd : (if decide (arguments = 0) then 0
                else S ((arguments - 1) mod length (v_privates c))) = arguments).
  { case_decide; [lia|]. rewrite Nat.mod_small by lia. lia. }
  by rewrite Hd.
Qed.

Lemma take_drop_count sh n k l :
  n <= k → shared_in sh (take n l) + shared_in sh (take (k - n) (drop n l)) = shared_in sh (take k l).
Proof.
  intros Hn. rewrite <- count_app. f_equal. rewrite <- (take_drop n (take k l)), take_take, skipn_firstn_comm.
  by replace (n `min` k) with n by lia.
Qed.

Lemma place_variables_ok arguments c :
  scope_ok c → arguments <= length (v_privates c) →
  let c' := place_variables arguments c in
  let l := v_privates c in
  v_shareds c' = (if v_self_shared c then 1 else 0) + shared_in (sharing c) l ∧
  v_privates_size c' = arguments + private_in (sharing c) (drop arguments l) ∧
  ∀ k s x, l !! k = Some s → v_variables c !! s = Some x →
    v_variables c' !! s = Some (place (place_of c arguments k s) x).
Proof.
  intros Hc Ha. pose proof Hc as (Hnd & Hdom & Hsize & Hsh).
  destruct (with_self_ok c) as (Hp0 & Hz0 & Hv0 & Hs0). rewrite Hsh in Hs0. cbn in Hs0.
  set (l := v_privates c) in *. set (sh := sharing c).
  destruct (place_arguments_ok sh arguments 0 l (with_self c)) as (Hp & Hz & Hss & Hout & Hplace);
    [done|lia|done| |].
  { intros s Hs. rewrite Hv0. by apply (flags_sharing c l Hc). }
  cbn zeta. rewrite (place_variables_unfold arguments c Ha Hp). fold l. cbn zeta.
  rewrite drop_0 in *. set (c1 := place_arguments arguments 0 (with_self c)) in *.
  destruct (decide (arguments = length l)) as [->|Hne].
  - rewrite take_ge in Hss by lia. rewrite drop_ge by lia.
    split_and!; [lia|cbn; lia|]. intros k s x Hk Hx. pose proof (lookup_lt_Some _ _ _ Hk).
    rewrite (Hplace k s x) by (done || by rewrite Hv0). unfold place_of. fold l sh.
    rewrite (decide_True (P := k < length l)) by done. destruct (sh s); do 2 f_equal; cbn; lia.
  - assert (Hnd' : NoDup (drop arguments l)) by (eapply sublist_NoDup; [done|apply sublist_drop]).
    assert (Hdisj : ∀ s, s ∈ drop arguments l → s ∉ take arguments l).
    { intros s Hs Hs'. rewrite <- (take_drop arguments l) in Hnd. apply NoDup_app in Hnd as (_ & Hd & _).
      by apply (Hd s). }
    destruct (classify_ok sh (take arguments l) (drop arguments l) (with_privates l arguments c1) Hnd')
      as (_ & Hz' & Hss' & Hout' & Hplace').
    { intros s Hs. cbn. rewrite Hout by auto. rewrite Hv0.
      apply (flags_sharing c l Hc); [done|]. rewrite <- (take_drop arguments l). apply elem_of_app. by right. }
    cbn in Hz', Hss', Hout', Hplace' |- *. rewrite Hz', Hss', Hss, Hs0.
    pose proof (count_app sh (take arguments l) (drop arguments l)) as Hcount. rewrite take_drop in Hcount.
    split_and!; [lia|done|]. intros k s x Hk Hx. pose proof (lookup_lt_Some _ _ _ Hk) as Hlt.
    unfold place_of. fold l sh. destruct (decide (k < arguments)) as [Hka|Hka].
    + assert (Hin : s ∈ take arguments l).
      { apply list_elem_of_lookup. exists k. by rewrite lookup_take_lt. }
      rewrite Hout' by (intros ?; by apply (Hdisj s)).
      rewrite (Hplace k s x Hka Hk) by (by rewrite Hv0). destruct (sh s); do 2 f_equal; cbn; lia.
    + assert (Hk' : drop arguments l !! (k - arguments) = Some s).
      { rewrite lookup_drop. by replace (arguments + (k - arguments)) with k by lia. }
      rewrite (Hplace' (k - arguments) s x Hk').
      * pose proof (take_drop_count sh arguments k l ltac:(lia)). rewrite Hss, Hs0.
        destruct (sh s); do 2 f_equal; cbn; lia.
      * rewrite Hout, Hv0; [done|]. apply Hdisj. by eapply list_elem_of_lookup_2.
Qed.


End Places.

(** ** How scopes come about *)

Lemma new_scope_ok o : scope_ok (new_scope o).
Proof.
  split_and!; cbn; [by apply NoDup_nil_2|..|done|done]. intros s. rewrite lookup_empty.
  split; [by intros ?%not_elem_of_nil|by intros []].
Qed.

(** A new name is added at the end of the ring. *)
Lemma push_variable_ok s c :
  scope_ok c → v_variables c !! s = None →
  scope_ok (push_variable s c) ∧ v_privates (push_variable s c) = v_privates c ++ [s].
Proof.
  intros (Hnd & Hdom & Hsize & Hsh) Hs.
  assert (Hin : s ∉ v_privates c) by (rewrite Hdom, Hs; by intros []).
  assert (Hpush : push (v_privates c) s = v_privates c ++ [s]).
  { unfold push. destruct (last (v_privates c)) as [t|] eqn:Hl; [|by apply last_None in Hl as ->].
    rewrite decide_False by (intros ->; apply Hin; by apply last_Some_elem_of).
    destruct (list_find (s =.) (v_privates c)) as [[i x]|] eqn:Hf; [|done].
    apply list_find_Some in Hf as (Hi & <- & _). destruct Hin. by eapply list_elem_of_lookup_2. }
  split; [|done]. unfold push_variable, push_private. split_and!; cbn; rewrite ?Hpush; try done.
  - apply NoDup_app. split_and!; [done| |apply NoDup_singleton].
    intros x Hx ->%list_elem_of_singleton. done.
  - intros x. rewrite elem_of_app, list_elem_of_singleton, Hdom. destruct (decide (x = s)) as [->|Hx].
    + rewrite lookup_insert_eq. split; eauto.
    + rewrite lookup_insert_ne by done. tauto.
  - rewrite length_app. cbn. lia.
Qed.

(** Every use of a variable that [f_variable] serves keeps the scope in order;
    the variable of a name used before varies from then on. *)
Lemma f_variable_keeps {S} (i : nat) (s : t_symbol) (p : @t_parser S) c :
  v_scopes p !! i = Some c → scope_ok c →
  ∃ c', f_variable i s p = Ok ((), with_scopes (<[i := c']> (v_scopes p)) p) ∧ scope_ok c' ∧
    (v_variables c !! s = None → v_privates c' = v_privates c ++ [s]) ∧
    (∀ x, v_variables c !! s = Some x → v_privates c' = v_privates c ∧
       v_variables c' !! s = Some (vary x)).
Proof.
  intros Hc Hok. unfold f_variable, on_scope. rewrite Hc. eexists. split; [done|].
  destruct (v_variables c !! s) as [x|] eqn:Hx.
  - pose proof Hok as (Hnd & Hdom & Hsize & Hsh). split_and!; [|by intros ?|].
    + split_and!; try done. intros s'. cbn. rewrite Hdom. destruct (decide (s' = s)) as [->|Hne].
      * rewrite lookup_insert_eq, Hx. split; eauto.
      * by rewrite lookup_insert_ne.
    + intros y [= <-]. split; [done|]. cbn. by rewrite lookup_insert_eq.
  - destruct (push_variable_ok s c Hok Hx). split_and!; auto. done.
Qed.

(** A scope with a private argument, a shared one, [$] and two more variables. *)
Definition sample_scope : t_scope :=
  with_self_shared true
    (with_variables {[[1%Z] := new_variable; [2%Z] := share new_variable; [3%Z] := share new_variable;
                      [4%Z] := new_variable]}
       (with_privates [[1%Z]; [2%Z]; [3%Z]; [4%Z]] 4 (new_scope None))).

