(* ===== verification/ParserGrammar.v ===== *)
(** * The grammar of operators

    The parser of expressions against their grammar, given as a table of
    operators with precedences.  The functions of the parser, one for every
    precedence, read every phrase of the grammar as the tree it stands for, and
    of a source with operators only they read nothing else: operators of higher
    precedence bind tighter, binary operators associate to the left, and
    conditionals to the right. *)
From stdpp Require Import base list numbers strings gmap.
From S2P Require Import Prelude Machine Lexer Ast Parser.
Local Open Scope nat_scope.

(** ** Tokens *)

(** A list of tokens with values is a source of tokens, all on one line. *)
Definition tokens := list (t_token * Z).

Definition origin : t_at := {| at_position := 0; at_line := 1; at_column := 1 |}.

Definition head_token (l : tokens) : t_token := match l with [] => c_token__EOF | (t, _) :: _ => t end.

Definition tokens_source {F} (zero : F) : TokenSource F tokens.
Proof.
  refine {|
    lexer_token := head_token;
    lexer_newline _ := false;
    lexer_indent _ := 0;
    lexer_value _ := [];
    lexer_string _ := [];
    lexer_integer l := match l with [] => 0%Z | (_, i) :: _ => i end;
    lexer_float _ := zero;
    lexer_at _ := origin;
    lexer_path _ := EmptyString;
    lexer_next l := Ok (tail l);
    lexer_ok _ := True;
    lexer_left := length
  |}.
  intros [|t l] _ Ht; [done|]. cbn. split; [done|lia].
Defined.

(** ** The grammar *)

Inductive prefix := Plus | Minus | Not | Complement.
Inductive infix :=
| Multiply | Divide | Modulus | Add | Subtract | LeftShift | RightShift
| Less | LessEqual | Greater | GreaterEqual | Equals | NotEquals | Identical | NotIdentical
| And | Xor | Or.

Inductive expr :=
| Integer (i : Z)
| Parens (e : expr)
| Prefix (u : prefix) (e : expr)
| Infix (b : infix) (l r : expr)
| AndAlso (l r : expr)
| OrElse (l r : expr)
| Conditional (c t f : expr).

Definition prefix_token (u : prefix) : t_token :=
  match u with
  | Plus => c_token__PLUS | Minus => c_token__HYPHEN | Not => c_token__EXCLAMATION
  | Complement => c_token__TILDE
  end.

Definition prefix_instruction (u : prefix) : t_instruction :=
  match u with
  | Plus => c_instruction__PLUS_T | Minus => c_instruction__MINUS_T | Not => c_instruction__NOT_T
  | Complement => c_instruction__COMPLEMENT_T
  end.

(** The table: the token, the instruction and the level of an operator. *)
Definition infix_row (b : infix) : t_token * t_instruction * nat :=
  match b with
  | Multiply => (c_token__ASTERISK, c_instruction__MULTIPLY_TT, 2)
  | Divide => (c_token__SLASH, c_instruction__DIVIDE_TT, 2)
  | Modulus => (c_token__PERCENT, c_instruction__MODULUS_TT, 2)
  | Add => (c_token__PLUS, c_instruction__ADD_TT, 3)
  | Subtract => (c_token__HYPHEN, c_instruction__SUBTRACT_TT, 3)
  | LeftShift => (c_token__LEFT_SHIFT, c_instruction__LEFT_SHIFT_TT, 4)
  | RightShift => (c_token__RIGHT_SHIFT, c_instruction__RIGHT_SHIFT_TT, 4)
  | Less => (c_token__LESS, c_instruction__LESS_TT, 5)
  | LessEqual => (c_token__LESS_EQUAL, c_instruction__LESS_EQUAL_TT, 5)
  | Greater => (c_token__GREATER, c_instruction__GREATER_TT, 5)
  | GreaterEqual => (c_token__GREATER_EQUAL, c_instruction__GREATER_EQUAL_TT, 5)
  | Equals => (c_token__EQUALS, c_instruction__EQUALS_TT, 6)
  | NotEquals => (c_token__NOT_EQUALS, c_instruction__NOT_EQUALS_TT, 6)
  | Identical => (c_token__IDENTICAL, c_instruction__IDENTICAL_TT, 6)
  | NotIdentical => (c_token__NOT_IDENTICAL, c_instruction__NOT_IDENTICAL_TT, 6)
  | And => (c_token__AMPERSAND, c_instruction__AND_TT, 7)
  | Xor => (c_token__HAT, c_instruction__XOR_TT, 8)
  | Or => (c_token__BAR, c_instruction__OR_TT, 9)
  end.

Definition infix_token (b : infix) : t_token := (infix_row b).1.1.
Definition infix_instruction (b : infix) : t_instruction := (infix_row b).1.2.
Definition infix_level (b : infix) : nat := (infix_row b).2.

(** How tightly a phrase binds; a lower level is tighter. *)
Definition level (e : expr) : nat :=
  match e with
  | Integer _ | Parens _ => 0
  | Prefix _ _ => 1
  | Infix b _ _ => infix_level b
  | AndAlso _ _ => 10
  | OrElse _ _ => 11
  | Conditional _ _ _ => 12
  end.

(** The phrases: the operand on the left may be of the same level, and the
    one on the right is of a lower one. *)
Fixpoint phrase (e : expr) : bool :=
  match e with
  | Integer _ => true
  | Parens e => phrase e
  | Prefix _ e => phrase e && (level e <=? 1)
  | Infix b l r => phrase l && phrase r && (level l <=? infix_level b) && (level r <? infix_level b)
  | AndAlso l r => phrase l && phrase r && (level l <=? 10) && (level r <? 10)
  | OrElse l r => phrase l && phrase r && (level l <=? 11) && (level r <? 11)
  | Conditional c t f => phrase c && phrase t && phrase f && (level c <? 12)
  end.

Definition tok (t : t_token) : t_token * Z := (t, 0%Z).

(** The tokens of a phrase; a single colon has the value 1. *)
Fixpoint print (e : expr) : tokens :=
  match e with
  | Integer i => [(c_token__INTEGER, i)]
  | Parens e => [tok c_token__LEFT_PARENTHESIS] ++ print e ++ [tok c_token__RIGHT_PARENTHESIS]
  | Prefix u e => [tok (prefix_token u)] ++ print e
  | Infix b l r => print l ++ [tok (infix_token b)] ++ print r
  | AndAlso l r => print l ++ [tok c_token__AND_ALSO] ++ print r
  | OrElse l r => print l ++ [tok c_token__OR_ELSE] ++ print r
  | Conditional c t f =>
    print c ++ [tok c_token__QUESTION] ++ print t ++ [(c_token__COLON, 1%Z)] ++ print f
  end.

(** The tokens that are read as a phrase, whatever the values of operators are:
    those of [print], but a closing parenthesis may be missing, which the parser
    does not report. *)
Inductive written : expr → tokens → Prop :=
| written_integer i : written (Integer i) [(c_token__INTEGER, i)]
| written_parens e w i j : written e w →
    written (Parens e) ((c_token__LEFT_PARENTHESIS, i) :: w ++ [(c_token__RIGHT_PARENTHESIS, j)])
| written_open e w i : written e w → written (Parens e) ((c_token__LEFT_PARENTHESIS, i) :: w)
| written_prefix u e w i : written e w → written (Prefix u e) ((prefix_token u, i) :: w)
| written_infix b l r w v i : written l w → written r v →
    written (Infix b l r) (w ++ (infix_token b, i) :: v)
| written_and_also l r w v i : written l w → written r v →
    written (AndAlso l r) (w ++ (c_token__AND_ALSO, i) :: v)
| written_or_else l r w v i : written l w → written r v →
    written (OrElse l r) (w ++ (c_token__OR_ELSE, i) :: v)
| written_conditional c t f w v u i : written c w → written t v → written f u →
    written (Conditional c t f) (w ++ (c_token__QUESTION, i) :: v ++ (c_token__COLON, 1%Z) :: u).

Lemma written_print e : written e (print e).
Proof. induction e; cbn [print app]; by constructor. Qed.

Section Node.
Context {F : Type}.
Abbreviation t_node := (@t_node F).

Definition integer (i : Z) : t_node := t_literal_node origin (Literal_integer i).

(** The tree of a phrase; the sign of a literal is part of it. *)
Fixpoint node (e : expr) : t_node :=
  match e with
  | Integer i => integer i
  | Parens e => t_nodes [node e]
  | Prefix Plus (Integer i) => integer i
  | Prefix Minus (Integer i) => integer (to_intptr (- i))
  | Prefix Complement (Integer i) => integer (Z.lnot i)
  | Prefix u e => t_unary origin (prefix_instruction u) (node e)
  | Infix b l r => t_binary origin (infix_instruction b) (node l) (node r)
  | AndAlso l r => t_if (Some (node l)) (node r) t_preserve
  | OrElse l r => t_if (Some (node l)) t_preserve (node r)
  | Conditional c t f => t_if (Some (node c)) (node t) (node f)
  end.
End Node.

(** The level of the operator a token is, as it follows an operand.  The
    openings of a postfix operation are at the level of the operands. *)
Definition token_level (t : t_token) : option nat :=
  match t with
  | c_token__LEFT_PARENTHESIS | c_token__LEFT_BRACKET | c_token__DOT => Some 0
  | c_token__ASTERISK | c_token__SLASH | c_token__PERCENT => Some 2
  | c_token__PLUS | c_token__HYPHEN => Some 3
  | c_token__LEFT_SHIFT | c_token__RIGHT_SHIFT => Some 4
  | c_token__LESS | c_token__LESS_EQUAL | c_token__GREATER | c_token__GREATER_EQUAL => Some 5
  | c_token__EQUALS | c_token__NOT_EQUALS | c_token__IDENTICAL | c_token__NOT_IDENTICAL => Some 6
  | c_token__AMPERSAND => Some 7
  | c_token__HAT => Some 8
  | c_token__BAR => Some 9
  | c_token__AND_ALSO => Some 10
  | c_token__OR_ELSE => Some 11
  | c_token__QUESTION => Some 12
  | _ => None
  end.

(** The tokens of the grammar, and others that end an expression. *)
Definition vocabulary (t : t_token) : bool :=
  match t with
  | c_token__INTEGER | c_token__LEFT_PARENTHESIS | c_token__RIGHT_PARENTHESIS
  | c_token__EXCLAMATION | c_token__TILDE | c_token__COLON
  | c_token__SEMICOLON | c_token__RIGHT_BRACKET | c_token__RIGHT_BRACE | c_token__EQUAL | c_token__EOF
  | c_token__ELSE | c_token__CATCH | c_token__FINALLY => true
  | c_token__LEFT_BRACKET | c_token__DOT => false
  | t => match token_level t with Some _ => true | None => false end
  end.

Definition ends_operand (t : t_token) : bool :=
  match t with c_token__INTEGER | c_token__RIGHT_PARENTHESIS => true | _ => false end.

(** Two tokens that do not make a call or an empty pair of parentheses. *)
Definition apart (t u : t_token) : bool :=
  match t, u with
  | c_token__INTEGER, c_token__LEFT_PARENTHESIS | c_token__RIGHT_PARENTHESIS, c_token__LEFT_PARENTHESIS
  | c_token__LEFT_PARENTHESIS, c_token__RIGHT_PARENTHESIS => false
  | _, _ => true
  end.

(** Sources with operators only. *)
Fixpoint plain (l : tokens) : bool :=
  match l with
  | [] => true
  | t :: l => vocabulary t.1 && apart t.1 (head_token l) && plain l
  end.

(** What follows a phrase of the level [n] does not extend it. *)
Definition ends (n : nat) (rest : tokens) : Prop :=
  match token_level (head_token rest) with Some m => n < m | None => True end.

Lemma ends_le n m rest : ends n rest → m <= n → ends m rest.
Proof. unfold ends. destruct (token_level _); lia. Qed.

(** No token is an operator of the level of the prefixes. *)
Lemma ends_1 rest : ends 0 rest → ends 1 rest.
Proof. unfold ends. destruct (head_token rest); cbn; lia. Qed.

Lemma infix_token_level b : token_level (infix_token b) = Some (infix_level b).
Proof. by destruct b. Qed.

Lemma ends_infix n b l : n < infix_level b → ends n (tok (infix_token b) :: l).
Proof. unfold ends. cbn [head_token tok]. by rewrite infix_token_level. Qed.

(** ** Every function of the parser reads the phrases of its level *)

(** The first token of a phrase. *)
Fixpoint start (e : expr) : t_token :=
  match e with
  | Integer _ => c_token__INTEGER
  | Parens _ => c_token__LEFT_PARENTHESIS
  | Prefix u _ => prefix_token u
  | Infix _ l _ | AndAlso l _ | OrElse l _ | Conditional l _ _ => start l
  end.

Lemma head_print e rest : head_token (print e ++ rest) = start e.
Proof. revert rest. induction e; intros rest; cbn [print start]; rewrite <- ?app_assoc; try done. Qed.

Lemma start_cases e :
  start e = c_token__INTEGER ∨ start e = c_token__LEFT_PARENTHESIS ∨ ∃ u, start e = prefix_token u.
Proof. induction e; cbn; eauto. Qed.

Lemma start_not e t : t = c_token__RIGHT_PARENTHESIS ∨ t = c_token__EOF → is_ (start e) t = false.
Proof.
  intros Ht. destruct (start_cases e) as [->|[->|[u ->]]]; [by destruct Ht as [->| ->]..|].
  by destruct u, Ht as [->| ->].
Qed.

Lemma level_bound e : level e <= 12.
Proof. destruct e as [| | |[]| | |]; cbn; lia. Qed.

Section Reading.
Context {F : Type} (zero : F) (float_negate : F → F).
#[local] Existing Instances M_ret M_bind.
#[local] Instance source : TokenSource F tokens := tokens_source zero.

Abbreviation t_node := (@t_node F).
Abbreviation t_parser := (@t_parser tokens).
Abbreviation M := (@M tokens).
Implicit Types (e : expr) (rest : tokens) (p : t_parser) (m : M t_node).

(** [m] reads the phrases of the level [n] and of at most [N] tokens. *)
Definition reads (n N : nat) (m : M t_node) : Prop :=
  ∀ e rest p, phrase e = true → level e <= n → length (print e) <= N → ends n rest →
    m (with_lexer (print e ++ rest) p) = Ok (node e, with_lexer rest p).

(** Evaluation of a sequence. *)
Lemma bind_ok {A B} (m : M A) (f : A → M B) p a p' : m p = Ok (a, p') → (m ≫= f) p = f a p'.
Proof. intros H. unfold mbind, M_bind. by rewrite H. Qed.

Lemma next_read t l p : f_next (with_lexer (t :: l) p) = Ok ((), with_lexer l p).
Proof. done. Qed.
Lemma token_read l p : f_token (with_lexer l p) = Ok (head_token l, with_lexer l p).
Proof. done. Qed.
Lemma newline_read l p : f_newline (with_lexer l p) = Ok (false, with_lexer l p).
Proof. done. Qed.
Lemma indent_read l p : f_indent (with_lexer l p) = Ok (0, with_lexer l p).
Proof. done. Qed.
Lemma at_read l p : f_at (with_lexer l p) = Ok (origin, with_lexer l p).
Proof. done. Qed.
Lemma integer_read t i l p : f_integer (with_lexer ((t, i) :: l) p) = Ok (i, with_lexer ((t, i) :: l) p).
Proof. done. Qed.
Lemma colon_read l p : f_single_colon (with_lexer ((c_token__COLON, 1%Z) :: l) p)
  = Ok (true, with_lexer ((c_token__COLON, 1%Z) :: l) p).
Proof. done. Qed.
Lemma rounds_read l p : gets rounds (with_lexer l p) = Ok (S (length l), with_lexer l p).
Proof. done. Qed.
Lemma any_read i t l p : f_any i t (with_lexer l p) = Ok (negb (is_ (head_token l) t), with_lexer l p).
Proof. done. Qed.
Lemma close_read i t l p : f_close i t (with_lexer (tok t :: l) p) = Ok ((), with_lexer l p).
Proof. unfold f_close, mbind, M_bind. cbn. unfold is_. by rewrite bool_decide_true. Qed.

Ltac read :=
  erewrite bind_ok by first [apply next_read | apply token_read | apply newline_read | apply indent_read
    | apply at_read | apply integer_read | apply colon_read | apply rounds_read | apply any_read
    | apply close_read | eassumption];
  cbn beta iota.

Lemma print_nonempty e : 1 <= length (print e).
Proof. induction e; cbn; rewrite ?length_app; cbn; lia. Qed.

(** *** Primary and unary expressions *)

Section Unary.
Context (f_expression : M t_node) (N : nat).
Hypothesis expression_reads : ∀ N', N' < N → reads 12 N' f_expression.

(** After an operand that ends there is nothing to apply. *)
Lemma action_ends i (x : t_node) (a : bool) rest p :
  ends 0 rest →
  f_action f_expression i x a (with_lexer rest p) = Ok (x, with_lexer rest p).
Proof.
  unfold ends. intros Hr. unfold f_action, while_m, repeat_m, rounds, mbind, M_bind, gets. cbn -[is_].
  destruct (head_token rest) eqn:E; cbn in Hr; try reflexivity; lia.
Qed.

Lemma parens_reads e rest p :
  phrase e = true → length (print (Parens e)) <= N →
  f_target_parenthesis f_expression (with_lexer (print (Parens e) ++ rest) p)
  = Ok (t_nodes [node e], with_lexer rest p).
Proof.
  intros He Hlen. cbn [print app length] in *. rewrite length_app in Hlen. cbn in Hlen.
  assert (Hr : f_expression (with_lexer (print e ++ tok c_token__RIGHT_PARENTHESIS :: rest) p)
    = Ok (node e, with_lexer (tok c_token__RIGHT_PARENTHESIS :: rest) p)).
  { apply (expression_reads (length (print e)) ltac:(lia)); try done. by apply level_bound. }
  assert (Ha : f_argument f_expression 0 [] (with_lexer (print e ++ tok c_token__RIGHT_PARENTHESIS :: rest) p)
    = Ok ((false, [node e]), with_lexer (tok c_token__RIGHT_PARENTHESIS :: rest) p)).
  { unfold f_argument. do 4 read. done. }
  unfold f_target_parenthesis. do 2 read. rewrite <- app_assoc. cbn [app]. read.
  rewrite head_print, (start_not e _ (or_introl eq_refl)). cbn [negb].
  assert (Hw : while_m (λ nodes, '(b, nodes) ← f_argument f_expression 0 nodes;
                               mret (if b : bool then inl nodes else inr nodes)) []
    (with_lexer (print e ++ tok c_token__RIGHT_PARENTHESIS :: rest) p)
    = Ok ([node e], with_lexer (tok c_token__RIGHT_PARENTHESIS :: rest) p)).
  { unfold while_m. read. cbn [repeat_m]. erewrite bind_ok; [|by read]. done. }
  by do 2 read.
Qed.

Lemma target_reads e a rest p :
  phrase e = true → level e = 0 → length (print e) <= N →
  f_target f_expression a (with_lexer (print e ++ rest) p) = Ok (node e, with_lexer rest p).
Proof.
  destruct e as [i|e| |[]| | |]; try discriminate; intros He _ Hlen.
  - reflexivity.
  - exact (parens_reads e rest p He Hlen).
Qed.

Lemma prefix_unary u : unary_instruction (prefix_token u) = Some (prefix_instruction u).
Proof. by destruct u. Qed.

Lemma literal_none x l p :
  head_token l ≠ c_token__INTEGER → head_token l ≠ c_token__FLOAT →
  fold_literal float_negate x (with_lexer l p) = Ok (None, with_lexer l p).
Proof.
  intros Hi Hf. unfold fold_literal. read. destruct x; try done; destruct (head_token l); done.
Qed.

Lemma unary_from_reads fuel a e rest p :
  phrase e = true → level e <= 1 → length (print e) <= N → length (print e) <= fuel → ends 1 rest →
  f_unary_from float_negate f_expression fuel a (with_lexer (print e ++ rest) p)
  = Ok (node e, with_lexer rest p).
Proof.
  intros He Hle Hn Hfuel Hr. assert (Hr0 : ends 0 rest) by (eapply ends_le; [done|lia]).
  revert a e He Hle Hn Hfuel. induction fuel as [|fuel IH]; intros a e He Hle Hn Hfuel.
  { pose proof (print_nonempty e). lia. }
  cbn [f_unary_from]. do 2 read. rewrite head_print.
  destruct (decide (level e = 0)) as [H0|H0].
  - replace (unary_instruction (start e)) with (@None t_instruction) by (by destruct e as [| | |[]| | |]).
    erewrite bind_ok by (by apply target_reads). by apply action_ends.
  - destruct e as [| |u e|[]| | |]; cbn in Hle, H0; try lia. cbn [start phrase print app length] in *.
    rewrite prefix_unary. do 2 read. apply andb_true_iff in He as [He Hle'].
    apply Nat.leb_le in Hle'.
    destruct e as [i|e|u' e|[]| | |]; cbn in Hle'; try lia.
    + destruct u; try (erewrite bind_ok by reflexivity; cbn beta iota; read; by apply action_ends).
      erewrite bind_ok by reflexivity. cbn beta iota.
      erewrite bind_ok by (apply (IH false (Integer i)); cbn in *; (done || lia)). done.
    + erewrite bind_ok by (by apply literal_none). cbn beta iota.
      erewrite bind_ok by (apply (IH false (Parens e)); try done; lia). by destruct u.
    + erewrite bind_ok by (apply literal_none; rewrite head_print; by destruct u'). cbn beta iota.
      erewrite bind_ok by (apply (IH false (Prefix u' e)); try done; lia). by destruct u.
Qed.

Lemma unary_reads a : reads 1 N (f_unary float_negate f_expression a).
Proof.
  intros e rest p He Hle Hn Hr. unfold f_unary. read. apply unary_from_reads; try done.
  rewrite length_app. lia.
Qed.

(** *** Binary operators *)

(** A round of the loop of a level goes over the last operator of a phrase,
    and the loop leaves what follows a phrase. *)
Definition rounds_over n (body : t_node → M (t_node + t_node)) : Prop :=
  (∀ e rest p, phrase e = true → level e = S n → length (print e) <= N → ends n rest →
    ∃ l ts, phrase l = true ∧ level l <= S n ∧ length (print l) < length (print e) ∧
      print e ++ rest = print l ++ ts ∧ ends n ts ∧ length rest < length ts ∧
      body (node l) (with_lexer ts p) = Ok (inl (node e), with_lexer rest p)) ∧
  ∀ x rest p, ends (S n) rest → body x (with_lexer rest p) = Ok (inr x, with_lexer rest p).

(** The loop comes to the last operator of the phrase. *)
Lemma spine n (operand : bool → M t_node) body a e rest p :
  (∀ a, reads n N (operand a)) → rounds_over n body →
  phrase e = true → level e <= S n → length (print e) <= N → ends n rest →
  ∃ k x l, operand a (with_lexer (print e ++ rest) p) = Ok (x, with_lexer l p) ∧ k + length rest <= length l ∧
    ∀ fuel, repeat_m (k + fuel) body x (with_lexer l p) = repeat_m fuel body (node e) (with_lexer rest p).
Proof.
  intros Hop [Hround _]. remember (length (print e)) as size eqn:Hsize.
  revert e rest Hsize. induction (lt_wf size) as [size _ IH]. intros e rest -> He Hle Hn Hr.
  destruct (decide (level e <= n)) as [Hlow|Hlow].
  { exists 0, (node e), rest. split_and!; [by apply Hop|lia|done]. }
  destruct (Hround e rest p He ltac:(lia) Hn Hr) as (l & ts & Hl & Hll & Hlt & -> & Hts & Hlen & Hstep).
  destruct (IH (length (print l)) Hlt l ts eq_refl Hl Hll ltac:(lia) Hts) as (k & x & ts' & Hx & Hk & Hloop).
  exists (S k), x, ts'. split_and!; [done|lia|]. intros fuel.
  replace (S k + fuel) with (k + S fuel) by lia. rewrite Hloop. cbn [repeat_m].
  by erewrite bind_ok by exact Hstep.
Qed.

Lemma loop_reads n (operand : bool → M t_node) body a :
  (∀ a, reads n N (operand a)) → rounds_over n body →
  reads (S n) N (x ← operand a; while_m body x).
Proof.
  intros Hop Hb e rest p He Hle Hn Hr.
  destruct (spine n operand body a e rest p Hop Hb He Hle Hn (ends_le (S n) n rest Hr ltac:(lia)))
    as (k & x & l & Hx & Hk & Hloop).
  read. unfold while_m. read. replace (S (length l)) with (k + S (length l - k)) by lia.
  rewrite Hloop. cbn [repeat_m]. by erewrite bind_ok by (by apply Hb).
Qed.

Lemma binary_reads n (operand : bool → M t_node) instruction a :
  (∀ a, reads n N (operand a)) → 1 <= n → S n < 10 →
  (∀ b, infix_level b = S n → instruction (infix_token b) = Some (infix_instruction b)) →
  (∀ t, token_level t ≠ Some (S n) → instruction t = None) →
  reads (S n) N (binary operand instruction a).
Proof.
  intros Hop Hn1 Hn10 Hins Hnone. apply loop_reads; [done|]. split.
  - intros e rest p He Hle Hn Hr. destruct e as [| | |b l r| | |]; cbn [level phrase print] in *; try lia.
    rewrite !andb_true_iff, Nat.leb_le, Nat.ltb_lt in He. destruct He as [[[Hl Hr'] Hll] Hlr].
    rewrite !length_app in *. cbn in Hn |- *.
    exists l, (tok (infix_token b) :: print r ++ rest). rewrite <- !app_assoc.
    split_and!; [done|lia|lia|done|apply ends_infix; lia|cbn; rewrite length_app; lia|].
    do 2 read. cbn [head_token tok]. rewrite (Hins b) by done. do 2 read.
    erewrite bind_ok by (apply (Hop false r); try done; lia). done.
  - intros x rest p Hr. do 2 read. rewrite Hnone; [done|]. unfold ends in Hr. intros E.
    rewrite E in Hr. cbn in Hr. lia.
Qed.

Lemma branches_reads n (operand : bool → M t_node) token branch (mk : expr → expr → expr) a :
  (∀ a, reads n N (operand a)) → token_level token = Some (S n) →
  (∀ e, level e = S n → ∃ l r, e = mk l r) →
  (∀ l r, phrase (mk l r) = phrase l && phrase r && (level l <=? S n) && (level r <? S n)) →
  (∀ l r, print (mk l r) = print l ++ [tok token] ++ print r) →
  (∀ l r, node (mk l r) = branch (node l) (node r)) →
  reads (S n) N (branches operand token branch a).
Proof.
  intros Hop Ht Hmk Hphrase Hprint Hnode. apply loop_reads; [done|]. split.
  - intros e rest p He Hle Hn Hr. destruct (Hmk e Hle) as (l & r & ->).
    rewrite Hphrase, !andb_true_iff, Nat.leb_le, Nat.ltb_lt in He. destruct He as [[[Hl Hr'] Hll] Hlr].
    rewrite Hprint, Hnode, !length_app in *. cbn in Hn |- *.
    exists l, (tok token :: print r ++ rest). rewrite <- !app_assoc.
    split_and!; [done|lia|lia|done|unfold ends; cbn; rewrite Ht; lia|cbn; rewrite length_app; lia|].
    do 2 read. unfold is_. cbn [head_token tok]. rewrite bool_decide_true by done. cbn [negb andb]. read.
    erewrite bind_ok by (apply (Hop false r); try done; lia). done.
  - intros x rest p Hr. do 2 read. unfold is_. rewrite bool_decide_false; [done|].
    unfold ends in Hr. intros E. rewrite E, Ht in Hr. lia.
Qed.

Lemma or_reads a : reads 9 N (f_or float_negate f_expression a).
Proof.
  revert a. unfold f_or, f_xor, f_and, f_equality, f_relational, f_shift, f_additive, f_multiplicative.
  repeat (intros a; apply binary_reads;
    [clear a|lia|lia|intros []; try discriminate; done|intros []; cbn; congruence]).
  exact unary_reads.
Qed.

Lemma or_else_reads a : reads 11 N (f_or_else float_negate f_expression a).
Proof.
  unfold f_or_else. apply (branches_reads 10 _ _ _ OrElse); try done.
  - intros a'. apply (branches_reads 9 _ _ _ AndAlso); try done; [exact or_reads|].
    intros []; try discriminate; [by destruct b|by eauto].
  - intros []; try discriminate; [by destruct b|by eauto].
Qed.

(** *** Conditionals *)

Lemma conditional_from_reads fuel a e rest p :
  phrase e = true → length (print e) <= N → length (print e) <= fuel → ends 12 rest →
  f_conditional_from float_negate f_expression fuel a (with_lexer (print e ++ rest) p)
  = Ok (node e, with_lexer rest p).
Proof.
  revert a e rest. induction fuel as [|fuel IH]; intros a e rest He Hn Hfuel Hr.
  { pose proof (print_nonempty e). lia. }
  cbn [f_conditional_from]. destruct (decide (level e <= 11)) as [Hle|Hle].
  - erewrite bind_ok by (apply or_else_reads; try done; eapply ends_le; [done|lia]).
    do 2 read. unfold is_. rewrite bool_decide_false; [done|].
    unfold ends in Hr. intros E. rewrite E in Hr. cbn in Hr. lia.
  - destruct e as [| | |[]| | |c t f]; cbn [level infix_level infix_row snd] in Hle; try (cbn in Hle; lia).
    cbn [phrase print node] in *. rewrite !andb_true_iff, Nat.ltb_lt in He.
    destruct He as [[[Hc Ht] Hf] Hlc]. rewrite !length_app in *. cbn in Hn, Hfuel.
    rewrite <- !app_assoc. cbn [app].
    erewrite bind_ok by (apply or_else_reads; [done|lia|lia|unfold ends; cbn; lia]).
    cbn beta iota. do 2 read. cbn [head_token tok]. unfold is_. rewrite bool_decide_true by done.
    cbn [orb negb]. read.
    erewrite bind_ok by (apply (IH false t); [done|lia|lia|done]). cbn beta iota. cbn [app]. read.
    erewrite bind_ok by reflexivity. read.
    by erewrite bind_ok by (apply (IH false f); [done|lia|lia|done]).
Qed.

Lemma expression_with_reads : reads 12 N (f_expression_with float_negate f_expression).
Proof.
  intros e rest p He _ Hn Hr. unfold f_expression_with. read. rewrite head_print.
  assert (Hc : f_conditional float_negate f_expression true (with_lexer (print e ++ rest) p)
    = Ok (node e, with_lexer rest p)).
  { unfold f_conditional. read. apply conditional_from_reads; try done. rewrite length_app. lia. }
  destruct (start_cases e) as [->|[->|[u ->]]]; [done|done|by destruct u].
Qed.
End Unary.

Lemma expression_from_reads fuel : reads 12 fuel (f_expression_from float_negate fuel).
Proof.
  induction fuel as [fuel IH] using lt_wf_ind. destruct fuel as [|fuel].
  { intros e rest p _ _ Hn _. pose proof (print_nonempty e). lia. }
  cbn [f_expression_from]. apply (expression_with_reads _ (S fuel)). intros N' HN' e rest p He Hle Hn Hr.
  apply (IH fuel); try done; lia.
Qed.

(** ** Every function of the parser reads nothing but phrases of its level *)

(** What [m] makes of a source with operators only. *)
Definition read_as (n : nat) (w0 l : tokens) (x : t_node) p (r : t_parser) : Prop :=
  ∃ e w rest, l = w ++ rest ∧ written e (w0 ++ w) ∧ phrase e = true ∧ level e <= n ∧ ends n rest ∧
    x = node e ∧ r = with_lexer rest p.

Definition accepts (n : nat) (m : M t_node) : Prop :=
  ∀ l p x r, plain l = true → m (with_lexer l p) = Ok (x, r) → read_as n [] l x p r.

Lemma bind_inv {A B} (m : M A) (f : A → M B) p b r :
  (m ≫= f) p = Ok (b, r) → ∃ a p', m p = Ok (a, p') ∧ f a p' = Ok (b, r).
Proof. unfold mbind, M_bind. destruct (m p) as [[a p']| |]; [by eauto|done..]. Qed.

Lemma plain_app w l : plain (w ++ l) = true → plain l = true.
Proof. induction w as [|t w IH]; [done|]. cbn. intros [_ H]%andb_true_iff. by apply IH. Qed.

Lemma plain_cons t i l : plain ((t, i) :: l) = true → vocabulary t = true ∧ apart t (head_token l) = true ∧ plain l = true.
Proof. cbn. rewrite !andb_true_iff. tauto. Qed.

Lemma plain_head l : plain l = true → vocabulary (head_token l) = true.
Proof. destruct l as [|[t i] l]; [done|]. by intros [? _]%plain_cons. Qed.

(** A phrase ends with an operand. *)
Lemma written_last e w : written e w → ∃ w' t i, w = w' ++ [(t, i)] ∧ ends_operand t = true.
Proof.
  induction 1 as [i|e w i j _ _|e w i _ (w' & t & k & -> & Ht)|u e w i _ (w' & t & k & -> & Ht)
    |b l r w v i _ _ _ (w' & t & k & -> & Ht)|l r w v i _ _ _ (w' & t & k & -> & Ht)
    |l r w v i _ _ _ (w' & t & k & -> & Ht)|c t f w v u i _ _ _ _ _ (w' & t' & k & -> & Ht)].
  - by exists [], c_token__INTEGER, i.
  - exists ((c_token__LEFT_PARENTHESIS, i) :: w), c_token__RIGHT_PARENTHESIS, j. done.
  - by exists ((c_token__LEFT_PARENTHESIS, i) :: w'), t, k.
  - by exists ((prefix_token u, i) :: w'), t, k.
  - exists (w ++ (infix_token b, i) :: w'), t, k. by rewrite <- app_assoc.
  - exists (w ++ (c_token__AND_ALSO, i) :: w'), t, k. by rewrite <- app_assoc.
  - exists (w ++ (c_token__OR_ELSE, i) :: w'), t, k. by rewrite <- app_assoc.
  - exists (w ++ (c_token__QUESTION, i) :: v ++ (c_token__COLON, 1%Z) :: w'), t', k.
    repeat (rewrite <- app_assoc || cbn [app]). done.
Qed.

(** No operand is called. *)
Lemma plain_ends e w l : plain (w ++ l) = true → written e w → ends 0 l.
Proof.
  intros Hp (w' & t & i & -> & Ht)%written_last. rewrite <- app_assoc in Hp.
  apply plain_app, plain_cons in Hp as (_ & Ha & Hl%plain_head). unfold ends.
  destruct (head_token l) eqn:E; try done; cbn; try lia; by destruct t.
Qed.

Ltac read_in H :=
  erewrite bind_ok in H by first [apply next_read | apply token_read | apply newline_read | apply indent_read
    | apply at_read | apply integer_read | apply rounds_read | apply any_read | eassumption];
  cbn beta iota in H.

Section Accepting.
Context (f_expression : M t_node).
Hypothesis expression_accepts : accepts 12 f_expression.

Lemma action_ends_inv i (x : t_node) (a : bool) l p y r :
  ends 0 l → f_action f_expression i x a (with_lexer l p) = Ok (y, r) → y = x ∧ r = with_lexer l p.
Proof. intros Hl H. rewrite action_ends in H by done. by injection H as <- <-. Qed.

Lemma parens_accepts i l p x r :
  plain ((c_token__LEFT_PARENTHESIS, i) :: l) = true →
  f_target_parenthesis f_expression (with_lexer ((c_token__LEFT_PARENTHESIS, i) :: l) p) = Ok (x, r) →
  read_as 0 [] ((c_token__LEFT_PARENTHESIS, i) :: l) x p r.
Proof.
  intros Hp H. pose proof Hp as (_ & Ha & Hl)%plain_cons. unfold f_target_parenthesis in H. do 3 read_in H.
  assert (Hany : negb (is_ (head_token l) c_token__RIGHT_PARENTHESIS) = true).
  { unfold is_. destruct (head_token l); done. }
  rewrite Hany in H. apply bind_inv in H as (nodes & p1 & Hw & H).
  assert (Hnodes : ∃ e w rest, l = w ++ rest ∧ written e w ∧ phrase e = true ∧ ends 12 rest ∧
    nodes = [node e] ∧ p1 = with_lexer rest p).
  { unfold while_m in Hw. read_in Hw. cbn [repeat_m] in Hw. apply bind_inv in Hw as (b & p2 & Hb & Hw).
    apply bind_inv in Hb as ([b' ns] & p3 & Harg & Hb). unfold f_argument in Harg.
    apply bind_inv in Harg as (y & p4 & Hy & Harg).
    destruct (expression_accepts l p y p4 Hl Hy) as (e & w & rest & Hlw & Hwr & Hph & _ & He & Hn & Hp4). subst p4 y.
    cbn [app] in Hwr. do 3 read_in Harg.
    assert (Hc : is_ (head_token rest) c_token__COMMA = false).
    { pose proof (plain_head rest) as Hv. rewrite Hlw in Hl. specialize (Hv (plain_app _ _ Hl)).
      unfold is_. by destruct (head_token rest). }
    rewrite Hc in Harg. cbn in Harg. injection Harg as <- <- <-. cbn in Hb. injection Hb as <- <-.
    cbn in Hw. injection Hw as <- <-. by exists e, w, rest. }
  destruct Hnodes as (e & w & rest & -> & Hwr & Hph & He & -> & ->).
  apply bind_inv in H as ([] & p2 & Hc & H). injection H as <- <-.
  unfold f_close in Hc. do 3 read_in Hc. cbn [negb orb andb] in Hc.
  destruct (is_ (head_token rest) c_token__RIGHT_PARENTHESIS) eqn:Er.
  - destruct rest as [|[t j] rest]; [done|]. apply bool_decide_eq_true in Er. cbn in Er. subst t.
    cbn in Hc. injection Hc as <-.
    assert (Hwp : written (Parens e) ((c_token__LEFT_PARENTHESIS, i) :: w ++ [(c_token__RIGHT_PARENTHESIS, j)])) by by constructor.
    exists (Parens e), ((c_token__LEFT_PARENTHESIS, i) :: w ++ [(c_token__RIGHT_PARENTHESIS, j)]), rest.
    split_and!; try done; [cbn; by rewrite <- app_assoc|].
    eapply plain_ends; [|exact Hwp]. cbn [app]. by rewrite <- app_assoc.
  - cbn in Hc. injection Hc as <-. exists (Parens e), ((c_token__LEFT_PARENTHESIS, i) :: w), rest.
    split_and!; try done; [by apply written_open|]. eapply ends_le; [done|lia].
Qed.

Lemma climb_state n o p o' r : climb n o p = Ok (o', r) → r = p.
Proof.
  revert o. induction n as [|n IH]; intros o H; cbn [climb] in H; [by injection H as _ <-|].
  destruct o as [k|]; [|discriminate]. apply bind_inv in H as (c & p' & Hs & H). unfold scope_at in Hs.
  destruct (v_scopes _ !! k); [|done]. injection Hs as <- <-. by eapply IH.
Qed.

Lemma target_accepts a : accepts 0 (f_target f_expression a).
Proof.
  intros l p x r Hl H. pose proof (plain_head l Hl) as Hv. unfold f_target in H. do 2 read_in H.
  destruct l as [|[t i] l]; [done|]. cbn [head_token] in *.
  destruct t; try done; try (by apply parens_accepts).
  - exfalso. unfold f_target_scoped in H. apply bind_inv in H as (c & p1 & Hc & H).
    injection Hc as <- <-. read_in H. apply bind_inv in H as ([o c] & p2 & Hc & H).
    change (is_ (head_token ((c_token__COLON, i) :: l)) c_token__COLON) with true in Hc. cbn iota in Hc.
    read_in Hc. apply bind_inv in Hc as (c1 & p3 & Hcl & Hc).
    assert (Hp3 : p3 = with_lexer ((c_token__COLON, i) :: l) p).
    { by eapply climb_state. }
    subst p3. read_in Hc. injection Hc as <- <- <-. read_in H.
    apply plain_cons in Hl as (_ & _ & Hl%plain_head). by destruct (head_token l).
  - cbn in H. injection H as <- <-.
    assert (Hw : written (Integer i) [(c_token__INTEGER, i)]) by constructor.
    exists (Integer i), [(c_token__INTEGER, i)], l. split_and!; try done. by eapply plain_ends; [|exact Hw].
Qed.

(** A prefix operator. *)
Lemma unary_token t x : unary_instruction t = Some x → ∃ u, t = prefix_token u ∧ x = prefix_instruction u.
Proof. destruct t; try done; intros [= <-]; [by exists Not|by exists Plus|by exists Minus|by exists Complement]. Qed.

Lemma unary_from_accepts fuel a : accepts 1 (f_unary_from float_negate f_expression fuel a).
Proof.
  revert a. induction fuel as [|fuel IH]; intros a l p x r Hl H; [done|]. cbn [f_unary_from] in H. do 2 read_in H.
  destruct (unary_instruction (head_token l)) as [ins|] eqn:Eu.
  - apply unary_token in Eu as (u & Ht & ->). destruct l as [|[t i] l]; [by destruct u|]. cbn in Ht. subst t.
    pose proof Hl as (_ & _ & Hl')%plain_cons. do 2 read_in H.
    apply bind_inv in H as (o & p1 & Ho & H).
    assert (Hcase : o = None ∧ p1 = with_lexer l p ∧ (∀ k, u ≠ Not → head_token l = c_token__INTEGER → l = (c_token__INTEGER, k) :: tail l → False) ∨
      ∃ k l', l = (c_token__INTEGER, k) :: l' ∧ p1 = with_lexer l p ∧ u ≠ Not ∧
        (t_literal_node origin <$> o) = Some (node (Prefix u (Integer k)))).
    { destruct l as [|[t k] l]; [left; unfold fold_literal in Ho; read_in Ho; by destruct u; injection Ho as <- <-|].
      pose proof Hl' as (Hv & _ & _)%plain_cons.
      destruct (decide (t = c_token__INTEGER)) as [->|Hti].
      - destruct u; cbn in Ho; injection Ho as <- <-.
        + right. by exists k, l.
        + right. by exists k, l.
        + left. by split_and!.
        + right. by exists k, l.
      - left. rewrite literal_none in Ho; [|done|by intros E; cbn in E; subst t].
        injection Ho as <- <-. split_and!; [done|done|]. by intros k' _ E. }
    destruct Hcase as [(-> & -> & Hno)|(k & l' & -> & -> & Hu & Ho')].
    + apply bind_inv in H as (y & p2 & Hy & H). injection H as <- <-.
      destruct (IH false l p y p2 Hl' Hy) as (e & w & rest & -> & Hw & Hph & Hle & He & -> & ->).
      cbn [app] in Hw. exists (Prefix u e), ((prefix_token u, i) :: w), rest.
      split_and!; try done; [by constructor|cbn; rewrite Hph; cbn; by apply Nat.leb_le|].
      destruct u; try done; destruct e as [k| | | | | |]; try done;
        exfalso; inversion Hw; subst; by apply (Hno k).
    + destruct o as [lit|]; [|done]. cbn in Ho'. apply (inj Some) in Ho'. read_in H.
      assert (Hw : written (Prefix u (Integer k)) ((prefix_token u, i) :: [(c_token__INTEGER, k)])) by repeat constructor.
      assert (He : ends 0 l') by (eapply (plain_ends _ ((prefix_token u, i) :: [(c_token__INTEGER, k)])); [|exact Hw]; done).
      apply action_ends_inv in H as [-> ->]; [|done].
      exists (Prefix u (Integer k)), ((prefix_token u, i) :: [(c_token__INTEGER, k)]), l'. split_and!; try done. by apply ends_1.
  - apply bind_inv in H as (y & p1 & Hy & H).
    destruct (target_accepts a l p y p1 Hl Hy) as (e & w & rest & -> & Hw & Hph & Hle & He & -> & ->).
    apply action_ends_inv in H as [-> ->]; [|done]. exists e, w, rest. split_and!; try done; [lia|].
    by apply ends_1.
Qed.
Lemma unary_accepts a : accepts 1 (f_unary float_negate f_expression a).
Proof. intros l p x r Hl H. unfold f_unary in H. read_in H. by eapply unary_from_accepts. Qed.

(** A round of the loop of a level extends the phrase before it, or leaves what
    ends it. *)
Definition round_accepts n (body : t_node → M (t_node + t_node)) : Prop :=
  ∀ e0 w0 l p y r, plain l = true → written e0 w0 → phrase e0 = true → level e0 <= S n → ends n l →
    body (node e0) (with_lexer l p) = Ok (y, r) →
    y = inr (node e0) ∧ r = with_lexer l p ∧ ends (S n) l ∨
    ∃ e w rest, y = inl (node e) ∧ l = w ++ rest ∧ written e (w0 ++ w) ∧ phrase e = true ∧ level e <= S n ∧
      ends n rest ∧ r = with_lexer rest p.

Lemma rounds_accept n body fuel : round_accepts n body →
  ∀ e0 w0 l p x r, plain l = true → written e0 w0 → phrase e0 = true → level e0 <= S n → ends n l →
    repeat_m fuel body (node e0) (with_lexer l p) = Ok (x, r) → read_as (S n) w0 l x p r.
Proof.
  intros Hb. induction fuel as [|fuel IH]; intros e0 w0 l p x r Hl Hw Hph Hle He H; [done|].
  cbn [repeat_m] in H. apply bind_inv in H as (y & p1 & Hy & H).
  destruct (Hb e0 w0 l p y p1 Hl Hw Hph Hle He Hy) as [(-> & -> & He')|(e & w & rest & -> & -> & Hw' & Hph' & Hle' & He' & ->)].
  - injection H as <- <-. exists e0, [], l. rewrite app_nil_r. by split_and!.
  - destruct (IH e (w0 ++ w) rest p x r) as (e1 & w1 & rest1 & -> & Hw1 & ?); try done; [by eapply plain_app|].
    exists e1, (w ++ w1), rest1. split; [by rewrite <- app_assoc|]. by rewrite (app_assoc w0).
Qed.

Lemma loop_accepts n (operand : bool → M t_node) body a :
  (∀ a, accepts n (operand a)) → round_accepts n body → accepts (S n) (x ← operand a; while_m body x).
Proof.
  intros Hop Hb l p x r Hl H. apply bind_inv in H as (y & p1 & Hy & H).
  destruct (Hop a l p y p1 Hl Hy) as (e & w & rest & -> & Hw & Hph & Hle & He & -> & ->). cbn [app] in Hw.
  unfold while_m in H. read_in H.
  destruct (rounds_accept n body (S (length rest)) Hb e w rest p x r) as (e1 & w1 & rest1 & -> & Hw1 & ?);
    [by eapply plain_app|done|done|lia|done|exact H|].
  exists e1, (w ++ w1), rest1. rewrite <- app_assoc. by split.
Qed.

Lemma ends_deeper n l : ends n l → token_level (head_token l) ≠ Some (S n) → ends (S n) l.
Proof. unfold ends. destruct (token_level _) as [m|]; [|done]. intros H Hne. assert (m ≠ S n) by congruence. lia. Qed.

Lemma binary_accepts n (operand : bool → M t_node) instruction a :
  (∀ a, accepts n (operand a)) →
  (∀ t x, instruction t = Some x → ∃ b, t = infix_token b ∧ x = infix_instruction b ∧ infix_level b = S n) →
  (∀ t, instruction t = None → token_level t ≠ Some (S n)) →
  accepts (S n) (binary operand instruction a).
Proof.
  intros Hop Hins Hnone. apply loop_accepts; [done|]. intros e0 w0 l p y r Hl Hw Hph Hle He H. do 2 read_in H.
  destruct (instruction (head_token l)) as [x|] eqn:Ei.
  - apply Hins in Ei as (b & Ht & -> & Hb). destruct l as [|[t i] l]; [by destruct b|]. cbn in Ht. subst t.
    apply plain_cons in Hl as (_ & _ & Hl). do 2 read_in H. apply bind_inv in H as (z & p1 & Hz & H).
    destruct (Hop false l p z p1 Hl Hz) as (e & w & rest & -> & Hw' & Hph' & Hle' & He' & -> & ->). injection H as <- <-.
    right. exists (Infix b e0 e), ((infix_token b, i) :: w), rest. cbn [app phrase level] in *.
    rewrite Hph, Hph', Hb. split_and!; try done; [by constructor|].
    by rewrite (proj2 (Nat.leb_le _ _)), (proj2 (Nat.ltb_lt _ _)) by lia.
  - injection H as <- <-. left. split_and!; [done|done|]. by apply ends_deeper, Hnone.
Qed.

Lemma branches_accepts n (operand : bool → M t_node) token branch (mk : expr → expr → expr) a :
  (∀ a, accepts n (operand a)) → token_level token = Some (S n) →
  (∀ t, token_level t = Some (S n) → t = token) →
  (∀ l r, phrase (mk l r) = phrase l && phrase r && (level l <=? S n) && (level r <? S n)) →
  (∀ l r, level (mk l r) = S n) →
  (∀ l r w v i, written l w → written r v → written (mk l r) (w ++ (token, i) :: v)) →
  (∀ l r, node (mk l r) = branch (node l) (node r)) →
  accepts (S n) (branches operand token branch a).
Proof.
  intros Hop Ht Huniq Hphrase Hlevel Hwritten Hnode. apply loop_accepts; [done|].
  intros e0 w0 l p y r Hl Hw Hph Hle He H. do 2 read_in H. cbn [negb andb] in H.
  destruct (is_ (head_token l) token) eqn:Ei.
  - apply bool_decide_eq_true in Ei. destruct l as [|[t i] l]; [cbn in Ei; by subst token|]. cbn in Ei. subst t.
    apply plain_cons in Hl as (_ & _ & Hl). read_in H. apply bind_inv in H as (z & p1 & Hz & H).
    destruct (Hop false l p z p1 Hl Hz) as (e & w & rest & -> & Hw' & Hph' & Hle' & He' & -> & ->). injection H as <- <-.
    right. exists (mk e0 e), ((token, i) :: w), rest. rewrite Hnode, Hphrase, Hlevel, Hph, Hph'. split_and!; try done; [by apply Hwritten|].
    by rewrite (proj2 (Nat.leb_le _ _)), (proj2 (Nat.ltb_lt _ _)) by lia.
  - injection H as <- <-. left. split_and!; [done|done|]. apply bool_decide_eq_false in Ei. apply ends_deeper; [done|]. intros E. by apply Ei, Huniq.
Qed.

Lemma or_accepts a : accepts 9 (f_or float_negate f_expression a).
Proof.
  revert a. unfold f_or, f_xor, f_and, f_equality, f_relational, f_shift, f_additive, f_multiplicative.
  repeat (intros a; apply binary_accepts;
    [clear a|intros t x Hx; destruct t; try discriminate Hx; injection Hx as <-;
      first [by exists Multiply | by exists Divide | by exists Modulus | by exists Add | by exists Subtract
        | by exists LeftShift | by exists RightShift | by exists Less | by exists LessEqual | by exists Greater
        | by exists GreaterEqual | by exists Equals | by exists NotEquals | by exists Identical | by exists NotIdentical
        | by exists And | by exists Xor | by exists Or]
    |intros []; discriminate]).
  exact unary_accepts.
Qed.

Lemma or_else_accepts a : accepts 11 (f_or_else float_negate f_expression a).
Proof.
  unfold f_or_else. apply (branches_accepts 10 _ _ _ OrElse); try done; [|by intros []|by constructor].
  intros a'. apply (branches_accepts 9 _ _ _ AndAlso); try done; [exact or_accepts|by intros []|by constructor].
Qed.

Lemma conditional_from_accepts fuel a : accepts 12 (f_conditional_from float_negate f_expression fuel a).
Proof.
  revert a. induction fuel as [|fuel IH]; intros a l p x r Hl H; [done|]. cbn [f_conditional_from] in H.
  apply bind_inv in H as (y & p1 & Hy & H).
  destruct (or_else_accepts a l p y p1 Hl Hy) as (c & w & rest & -> & Hw & Hc & Hlc & He & -> & ->). cbn [app] in Hw.
  apply plain_app in Hl. do 2 read_in H. cbn [orb] in H. destruct (is_ (head_token rest) c_token__QUESTION) eqn:Eq; cbn [negb] in H.
  - apply bool_decide_eq_true in Eq. destruct rest as [|[t i] rest]; [done|]. cbn in Eq. subst t.
    apply plain_cons in Hl as (_ & _ & Hl). read_in H. apply bind_inv in H as (z & p2 & Hz & H).
    destruct (IH false rest p z p2 Hl Hz) as (t & v & rest2 & -> & Hv & Ht & _ & _ & -> & ->). cbn [app] in Hv.
    apply plain_app in Hl. unfold f_single_colon in H. apply bind_inv in H as (b & p3 & Hb & H).
    destruct rest2 as [|[t' j] rest2]; [by do 2 (erewrite bind_ok in Hb by reflexivity); injection Hb as <- <-|].
    do 2 read_in Hb. injection Hb as <- <-. apply bind_inv in H as ([] & p4 & Hth & H). cbn [head_token] in Hth.
    destruct (is_ t' c_token__COLON && (j =? 1)%Z) eqn:Ec; [|discriminate].
    injection Hth as <-. apply andb_true_iff in Ec as [Ec Ei]. apply bool_decide_eq_true in Ec as ->.
    apply Z.eqb_eq in Ei as ->.
    apply plain_cons in Hl as (_ & _ & Hl). read_in H. apply bind_inv in H as (u & p5 & Hu & H).
    destruct (IH false rest2 p u p5 Hl Hu) as (f & q & rest3 & -> & Hq & Hf & _ & Hef & -> & ->). injection H as <- <-.
    cbn [app] in Hq. exists (Conditional c t f), (w ++ (c_token__QUESTION, i) :: v ++ (c_token__COLON, 1%Z) :: q), rest3.
    split_and!; try done.
    + by repeat (rewrite <- app_assoc || cbn [app]).
    + by constructor.
    + cbn. rewrite Hc, Ht, Hf. cbn. apply Nat.leb_le. lia.
  - injection H as <- <-. exists c, w, rest. split_and!; try done; [lia|]. apply bool_decide_eq_false in Eq.
    apply ends_deeper; [done|]. intros E. apply Eq. by destruct (head_token rest).
Qed.

Lemma expression_with_accepts : accepts 12 (f_expression_with float_negate f_expression).
Proof.
  intros l p x r Hl H. unfold f_expression_with in H. read_in H.
  assert (Hc : f_conditional float_negate f_expression true (with_lexer l p) = Ok (x, r)).
  { pose proof (plain_head l Hl) as Hv. revert H Hv. by destruct (head_token l). }
  unfold f_conditional in Hc. read_in Hc. by eapply conditional_from_accepts.
Qed.
End Accepting.

Lemma expression_from_accepts fuel : accepts 12 (f_expression_from float_negate fuel).
Proof. induction fuel as [|fuel IH]; [done|]. by apply expression_with_accepts. Qed.

(** C8 (operators_by_precedence): the parser of expressions reads the phrases of
    the grammar of operators, and nothing else.  It reads every phrase, in front
    of anything that does not go on with it, as the tree of the phrase, and
    stops behind it.  And whatever it reads of a source with operators only
    ([plain]: no names, no calls, no empty parentheses) is a phrase, up to
    parentheses that are not closed, which it does not report; it gives the tree
    of that phrase, and what is left does not go on with it.  In a phrase, the
    left operand of a binary operator may be another one of the same precedence,
    its right operand binds tighter, and a conditional may be the branch of
    another. *)
Theorem operators_by_precedence :
  (∀ e rest p, phrase e = true → ends 12 rest →
     f_expression float_negate (with_lexer (print e ++ rest) p) = Ok (node e, with_lexer rest p)) ∧
  (∀ l p x r, plain l = true → f_expression float_negate (with_lexer l p) = Ok (x, r) →
     ∃ e w rest, l = w ++ rest ∧ written e w ∧ phrase e = true ∧ ends 12 rest ∧ x = node e ∧ r = with_lexer rest p).
Proof.
  split.
  - intros e rest p He Hr. unfold f_expression. read. apply expression_from_reads; try done.
    + apply level_bound.
    + rewrite length_app. lia.
  - intros l p x r Hl H. unfold f_expression in H. read_in H.
    destruct (expression_from_accepts _ l p x r Hl H) as (e & w & rest & ? & ? & ? & _ & ? & ? & ?). by exists e, w, rest.
Qed.
End Reading.

(** [-1 * (2 + 3) - 4 - 5 ? 6 : 7 ? 8 : 9] *)
Definition sample_phrase : expr :=
  Conditional
    (Infix Subtract
      (Infix Subtract (Infix Multiply (Prefix Minus (Integer 1)) (Parens (Infix Add (Integer 2) (Integer 3))))
         (Integer 4)) (Integer 5))
    (Integer 6) (Conditional (Integer 7) (Integer 8) (Integer 9)).

(** [1 + (2 * 3);] *)
Definition sample_tokens : tokens :=
  [(c_token__INTEGER, 1%Z); tok c_token__PLUS; tok c_token__LEFT_PARENTHESIS; (c_token__INTEGER, 2%Z); tok c_token__ASTERISK;
   (c_token__INTEGER, 3%Z); tok c_token__RIGHT_PARENTHESIS; tok c_token__SEMICOLON].

Lemma operators_by_precedence_witness :
  phrase sample_phrase = true ∧
  (let sub x y := t_binary origin c_instruction__SUBTRACT_TT x y in
  @f_expression (list Z) tokens (tokens_source []) (λ f, f)
    (with_lexer (print sample_phrase ++ [tok c_token__SEMICOLON]) (new_parser []))
  = Ok (t_if (Some (sub (sub (t_binary origin c_instruction__MULTIPLY_TT (integer (-1))
                 (t_nodes [t_binary origin c_instruction__ADD_TT (integer 2) (integer 3)]))
                 (integer 4)) (integer 5)))
          (integer 6) (t_if (Some (integer 7)) (integer 8) (integer 9)),
        with_lexer [tok c_token__SEMICOLON] (new_parser []))) ∧
  plain sample_tokens = true ∧
  ∃ e w rest, sample_tokens = w ++ rest ∧ written e w ∧ phrase e = true ∧ ends 12 rest ∧
    t_binary origin c_instruction__ADD_TT (integer 1) (t_nodes [t_binary origin c_instruction__MULTIPLY_TT (integer 2) (integer 3)])
      = @node (list Z) e ∧
    with_lexer [tok c_token__SEMICOLON] (new_parser []) = with_lexer rest (new_parser []).
Proof.
  split; [reflexivity|]. split.
  - cbn zeta.
    etransitivity; [apply (proj1 (operators_by_precedence [] (λ f, f)) sample_phrase [tok c_token__SEMICOLON]); done|].
    reflexivity.
  - split; [reflexivity|].
    apply (proj2 (operators_by_precedence [] (λ f, f)) sample_tokens (new_parser [])); vm_compute; reflexivity.
Defined.

(** A parenthesis that is not closed is not an error. *)
Theorem open_parenthesis_accepted :
  @f_expression (list Z) tokens (tokens_source []) (λ f, f)
    (new_parser [tok c_token__LEFT_PARENTHESIS; (c_token__INTEGER, 1%Z); tok c_token__SEMICOLON])
  = Ok (t_nodes [integer 1], new_parser [tok c_token__SEMICOLON]).
Proof. reflexivity. Qed.
