(* ===== verification/Types.v ===== *)
(** * Types: layout, lookup and member access (src: include/xemmai/type.h,
    src/type.cc, src/class.cc, include/xemmai/class.h, include/xemmai/global.h)

    A type describes its instances: the names of their fields, laid out first,
    and the class fields shared by all of them.  This file holds the store, the
    record of a type, the construction of a derived type and the accesses to
    members, with and without the cache that an instruction keeps.  The layout
    is proved right in TypeLayout.v, the accesses in TypeAccess.v. *)
From stdpp Require Import base gmap list numbers strings.
From S2P Require Import Prelude Machine Layout.
Local Open Scope Z_scope.

(** ** The store *)

(** [t_value]: a tag with its payload, or the address of an object. *)
Inductive value : Type :=
| Null
| Boolean (b : bool)
| Integer (z : Z)
| Float (d : double)
| Object (a : Z).

#[export] Instance value_eq_dec : EqDecision value.
Proof. solve_decision. Defined.

(** [c_tag__OBJECT]: smaller pointers are tags. *)
Definition c_tag__OBJECT : Z := 5.

(** [t_value::f_tag]: the pointer as a number. *)
Definition f_tag (v : value) : Z :=
  match v with
  | Null => 0
  | Boolean false => 1
  | Boolean true => 2
  | Integer _ => 3
  | Float _ => 4
  | Object a => a
  end.

(** [t_fields]: what a class body declares. *)
Record t_fields := Fields {
  v_instance : list Z;
  v_class : list (Z * value)
}.

(** The overrides of the virtual members of a type that a C++ class chooses. *)
Inductive getter := object_do_get | class_do_get | builder_do_get.
Inductive putter := object_do_put | builder_do_put.

Record t_native_type := NativeType {
  c_NATIVE : Z;
  v_get : getter;
  v_put : putter;
  v_derivable : bool
}.

(** [t_type_of<t_object>]; the two arrays behind the record are [fields] and
    [key2index]. *)
Record t_type := Type' {
  v_native : t_native_type;
  v_super : option Z;
  v_module : value;
  v_instance_fields : Z;
  fields : list (Z * value);
  key2index : list (Z * Z);
  v_bindable : bool
}.

Definition v_fields (t : t_type) : Z := Z.of_nat (length (fields t)).
Definition v_fields_offset (t : t_type) : Z := Layout.f_fields_offset (c_NATIVE (v_native t)).

(** [t_builder]: the thread that owns it and the fields it fills, until it is
    disposed of. *)
Record t_builder := Builder {
  v_owner : Z;
  v_builder_fields : option t_fields
}.

Inductive data :=
| of_type (t : t_type)
| of_symbol (s : string)
| of_method (v_function : Z) (v_self : value)
| of_builder (b : t_builder)
| of_other.

Record t_object := Object' {
  o_type : Z;
  o_fields : list value;
  o_data : data
}.

(** The objects by address, the types of the tags and of some built-in
    objects, and the running thread. *)
Record world := World {
  objects : gmap Z t_object;
  v_tag_types : Z → Z;
  type_of_method : Z;
  type_of_builder : Z;
  type_of_type : Z;
  current_thread : Z
}.

(** The allocator: a new address for every store. *)
Class Allocator := {
  allocate : gmap Z t_object → Z;
  allocate_fresh m : m !! allocate m = None;
  allocate_object m : c_tag__OBJECT ≤ allocate m
}.

Definition with_objects (w : world) (m : gmap Z t_object) : world :=
  World m (v_tag_types w) (type_of_method w) (type_of_builder w) (type_of_type w) (current_thread w).

Definition object_at (w : world) (a : Z) : outcome t_object :=
  match objects w !! a with Some o => Ok o | None => Fault end.

Definition type_at (w : world) (a : Z) : outcome t_type :=
  o ← object_at w a;
  match o_data o with of_type t => Ok t | _ => Fault end.

Definition f_object_or_throw (v : value) : outcome Z :=
  match v with Object a => Ok a | _ => throw "not supported." end.

(** [t_value::f_type]: the address of the type of a value. *)
Definition f_type (w : world) (v : value) : outcome Z :=
  match v with
  | Object a => o ← object_at w a; Ok (o_type o)
  | _ => Ok (v_tag_types w (f_tag v))
  end.

(** [this->f_fields()]. *)
Definition f_fields (w : world) (v : value) : outcome (list value) :=
  match v with Object a => o ← object_at w a; Ok (o_fields o) | _ => Fault end.

Definition set_fields (w : world) (a : Z) (l : list value) : outcome world :=
  o ← object_at w a;
  Ok (with_objects w (<[a := Object' (o_type o) l (o_data o)]> (objects w))).

(** [f_as<t_symbol>().f_string()], without a check. *)
Definition symbol_string (w : world) (a : Z) : outcome string :=
  o ← object_at w a;
  match o_data o with of_symbol s => Ok s | _ => Fault end.

Definition is_symbol (w : world) (a : Z) : bool :=
  match objects w !! a with
  | Some o => match o_data o with of_symbol _ => true | _ => false end
  | None => false
  end.

(** ** [std::map] as a sorted association list *)

Fixpoint map_find {A} (k : Z) (l : list (Z * A)) : option A :=
  match l with
  | [] => None
  | (k', v) :: l => if k' =? k then Some v else map_find k l
  end.

Fixpoint map_emplace {A} (k : Z) (v : A) (l : list (Z * A)) : list (Z * A) :=
  match l with
  | [] => [(k, v)]
  | (k', v') :: l' =>
    if k <? k' then (k, v) :: l
    else if k =? k' then l
    else (k', v') :: map_emplace k v l'
  end.

(** [map.at(k) = v]. *)
Fixpoint map_at {A} (k : Z) (v : A) (l : list (Z * A)) : outcome (list (Z * A)) :=
  match l with
  | [] => throw "map::at"
  | (k', v') :: l' =>
    if k' =? k then Ok ((k', v) :: l')
    else l'' ← map_at k v l'; Ok ((k', v') :: l'')
  end.

(** ** The cached index

    An instruction that accesses a member keeps an index, which the access
    reads and overwrites by reference, also when it goes on to throw. *)
Definition cached (A : Type) : Type := Z → outcome A * Z.

#[export] Instance cached_bind : MBind cached := fun A B f m i =>
  match m i with
  | (Ok a, i) => f a i
  | (Throw e, i) => (Throw e, i)
  | (Fault, i) => (Fault, i)
  end.

Definition lift {A} (o : outcome A) : cached A := fun i => (o, i).
Definition get_index : cached Z := fun i => (Ok i, i).
Definition set_index (i : Z) : cached unit := fun _ => (Ok tt, i).

(** ** Lookup *)

(** The state of the binary search: the bounds [i] and [j]. *)
Definition f_index_step (t : t_type) (a_key : Z) (s : Z * Z) : outcome (Z * Z + Z) :=
  let '(i, j) := s in
  if i <? j then
    let k := to_size (i + j) / 2 in
    '(first, second) ← rd (key2index t) k;
    if first =? a_key then Ok (inr second)
    else if first <? a_key then Ok (inl (k + 1, j))
    else Ok (inl (i, k))
  else Ok (inr (v_fields t)).

Definition f_index (t : t_type) (a_key : Z) : outcome Z :=
  loop (S (length (fields t))) (f_index_step t a_key) (0, v_fields t).

(** ** Derivation *)

Definition merge_instance (w : world) (s : list (Z * value) * list (Z * Z)) (x : Z)
    : outcome (list (Z * value) * list (Z * Z)) :=
  let '(fields, key2index) := s in
  if bool_decide (is_Some (map_find x key2index)) then m ← symbol_string w x; Throw m
  else Ok (fields ++ [(x, Null)], map_emplace x (Z.of_nat (length fields)) key2index).

Definition merge_inherited (s : list (Z * value) * list (Z * Z)) (x : Z * value)
    : outcome (list (Z * value) * list (Z * Z)) :=
  let '(fields, key2index) := s in
  key2index ← map_at (x.1) (Z.of_nat (length fields)) key2index;
  Ok (fields ++ [x], key2index).

Definition merge_class (w : world) (instance_fields : Z) (s : list (Z * value) * list (Z * Z))
    (x : Z * value) : outcome (list (Z * value) * list (Z * Z)) :=
  let '(fields, key2index) := s in
  match map_find (x.1) key2index with
  | None => Ok (fields ++ [x], map_emplace (x.1) (Z.of_nat (length fields)) key2index)
  | Some second =>
    if second <? instance_fields then m ← symbol_string w (x.1); Throw m
    else
      f ← rd fields second;
      fields ← wr fields second (f.1, x.2);
      Ok (fields, key2index)
  end.

(** [t_type::f_merge]. *)
Definition f_merge (w : world) (t : t_type) (a_fields : t_fields)
    : outcome (list (Z * value) * list (Z * Z)) :=
  let vi := Z.to_nat (v_instance_fields t) in
  let key2index := foldl (λ m '(k, v), map_emplace k v m) [] (key2index t) in
  '(fields1, key2index) ←
    fold_calls (merge_instance w) (take vi (fields t), key2index) (v_instance a_fields);
  let instance_fields := Z.of_nat (length fields1) in
  '(fields2, key2index) ← fold_calls merge_inherited (fields1, key2index) (drop vi (fields t));
  fold_calls (merge_class w instance_fields) (fields2, key2index) (v_class a_fields).

(** The two natives that stand for [Object.__initialize]. *)
Class Initializers := {
  v_initialize_validate : value;
  v_initialize_ignore : value
}.

(** The type that [t_type::f_derive<T>] constructs; [a_this] is the address of
    the type [t] it derives. *)
Definition derive_type `{Initializers} (w : world) (a_this : Z) (t : t_type) (T : t_native_type)
    (a_module : value) (a_fields : t_fields) (a_overridden_construct : bool) : outcome t_type :=
  '(fields, key2index) ← f_merge w t a_fields;
  let instance := v_instance_fields t + Z.of_nat (length (v_instance a_fields)) in
  fields ←
    (if a_overridden_construct then
       initialize ← rd fields instance;
       if decide (initialize.2 = v_initialize_validate) then
         wr fields instance (initialize.1, v_initialize_ignore)
       else Ok fields
     else Ok fields);
  Ok (Type' T (Some a_this) a_module instance fields key2index false).

Section stores.
Context `{Initializers} `{Allocator}.

(** [t_type::f_derive<T>]: the new type and its object. *)
Definition f_derive (w : world) (a_this : Z) (T : t_native_type) (a_module : value)
    (a_fields : t_fields) (a_overridden_construct : bool) : outcome (Z * world) :=
  t ← type_at w a_this;
  p ← derive_type w a_this t T a_module a_fields a_overridden_construct;
  o ← object_at w a_this;
  let a := allocate (objects w) in
  Ok (a, with_objects w (<[a := Object' (o_type o) [] (of_type p)]> (objects w))).

(** [t_type::f_do_derive] and [t_derivable::f_do_derive]. *)
Definition f_do_derive (w : world) (a_this : Z) (a_fields : t_fields) : outcome (Z * world) :=
  t ← type_at w a_this;
  f_derive w a_this (v_native t) (v_module t) a_fields false.

(** The loop of [t_type::f_derives]. *)
Definition f_derives_step (w : world) (a_type : Z) (p : Z) : outcome (Z + bool) :=
  if p =? a_type then Ok (inr true)
  else
    t ← type_at w p;
    match v_super t with
    | Some p => Ok (inl p)
    | None => Ok (inr false)
    end.

Definition f_derives (w : world) (a_this a_type : Z) : outcome bool :=
  loop (S (size (objects w))) (f_derives_step w a_type) a_this.

(** [t_type::f_do_construct]: an instance with empty fields. *)
Definition f_do_construct (w : world) (a_this : Z) : outcome (value * world) :=
  t ← type_at w a_this;
  let a := allocate (objects w) in
  Ok (Object a, with_objects w
    (<[a := Object' a_this (replicate (Z.to_nat (v_instance_fields t)) Null) of_other]> (objects w))).

(** ** Member access *)

(** [t_type::f_throw_undefined_field]; the name that the error about a key
    that is not a symbol shows is the compiler's. *)
Class TypeNames := { name_of_t_symbol : string }.
Context `{TypeNames}.

Definition f_check_symbol (w : world) (a_key : Z) : outcome unit :=
  if is_symbol w a_key then Ok tt
  else Throw ("key must be " +:+ name_of_t_symbol +:+ ".")%string.

Definition f_throw_undefined_field {A} (w : world) (a_key : Z) : outcome A :=
  _ ← f_check_symbol w a_key;
  s ← symbol_string w a_key;
  Throw ("undefined field: " +:+ s)%string.

Definition f_is_bindable (w : world) (v : value) : outcome bool :=
  match v with
  | Object a => o ← object_at w a; t ← type_at w (o_type o); Ok (v_bindable t)
  | _ => Ok false
  end.

(** [f_new<t_method>(f_global(), field, a_this)]. *)
Definition new_method (w : world) (field a_this : value) : outcome (value * world) :=
  match field with
  | Object f =>
    let a := allocate (objects w) in
    Ok (Object a, with_objects w (<[a := Object' (type_of_method w) [] (of_method f a_this)]> (objects w)))
  | _ => Fault
  end.

(** Reading a class field through an instance. *)
Definition get_class_field (w : world) (t : t_type) (a_this : value) (i : Z) : outcome (value * world) :=
  field ← rd (fields t) i;
  b ← f_is_bindable w (field.2);
  if (b : bool) then new_method w (field.2) a_this else Ok (field.2, w).

(** [t_class::f_do_get]: a member of a class. *)
Definition class_f_do_get (w : world) (a_this : Z) (a_key : Z) : cached (value * world) :=
  type ← lift (type_at w a_this);
  let search :=
    i ← lift (f_index type a_key);
    if (i <? v_instance_fields type) || (v_fields type <=? i) then lift (f_throw_undefined_field w a_key)
    else _ ← set_index i; field ← lift (rd (fields type) i); lift (Ok (field.2, w)) in
  i ← get_index;
  if (i <? v_instance_fields type) || (v_fields type <=? i) then search
  else
    field ← lift (rd (fields type) i);
    if field.1 =? a_key then lift (Ok (field.2, w)) else search.

Definition builder_fields (w : world) (a_this : Z) : outcome (t_builder * t_fields) :=
  o ← object_at w a_this;
  match o_data o with
  | of_builder b =>
    if v_owner b =? current_thread w then
      match v_builder_fields b with
      | Some f => Ok (b, f)
      | None => throw "already disposed."
      end
    else throw "not owned."
  | _ => Fault
  end.

Definition set_builder_fields (w : world) (a_this : Z) (b : t_builder) (f : t_fields) : outcome world :=
  o ← object_at w a_this;
  Ok (with_objects w
    (<[a_this := Object' (o_type o) (o_fields o) (of_builder (Builder (v_owner b) (Some f)))]> (objects w))).

(** [t_type_of<t_builder>::f_do_get]: declares an instance field. *)
Definition builder_f_do_get (w : world) (a_this : Z) (a_key : Z) : outcome (value * world) :=
  '(b, f) ← builder_fields w a_this;
  _ ← f_check_symbol w a_key;
  w ← set_builder_fields w a_this b (Fields (v_instance f ++ [a_key]) (v_class f));
  Ok (Null, w).

(** [t_type_of<t_builder>::f_do_put]: declares a class field. *)
Definition builder_f_do_put (w : world) (a_this : Z) (a_key : Z) (a_value : value) : outcome world :=
  '(b, f) ← builder_fields w a_this;
  _ ← f_check_symbol w a_key;
  set_builder_fields w a_this b (Fields (v_instance f) (v_class f ++ [(a_key, a_value)])).

(** [this->*v_get], for the object [a_this]; a tagged value has a type without
    overrides. *)
Definition call_get (w : world) (t : t_type) (a_this : value) (a_key : Z) : cached (value * world) :=
  match v_get (v_native t), a_this with
  | object_do_get, _ => lift (f_throw_undefined_field w a_key)
  | class_do_get, Object a => class_f_do_get w a a_key
  | builder_do_get, Object a => lift (builder_f_do_get w a a_key)
  | _, _ => lift Fault
  end.

Definition call_put (w : world) (t : t_type) (a_this : Z) (a_key : Z) (a_value : value) : outcome world :=
  match v_put (v_native t) with
  | object_do_put => f_throw_undefined_field w a_key
  | builder_do_put => builder_f_do_put w a_this a_key a_value
  end.

(** [a_this->f_fields()[i]]. *)
Definition get_field (w : world) (a_this : value) (i : Z) : outcome value :=
  l ← f_fields w a_this; rd l i.

(** [t_type::f__get]. *)
Definition f__get (w : world) (t : t_type) (a_this : value) (a_key : Z) : cached (value * world) :=
  i ← lift (f_index t a_key);
  if i <? v_instance_fields t then
    _ ← set_index i; v ← lift (get_field w a_this i); lift (Ok (v, w))
  else if i <? v_fields t then
    _ ← set_index (i - v_instance_fields t); lift (get_class_field w t a_this i)
  else call_get w t a_this a_key.

(** Whether the array of fields has the key at an index within a bound. *)
Definition hits (t : t_type) (bound i a_key : Z) : outcome bool :=
  if i <? bound then field ← rd (fields t) i; Ok (field.1 =? a_key) else Ok false.

(** [t_type::f_get]: first at the cached index. *)
Definition f_get (w : world) (t : t_type) (a_this : value) (a_key : Z) : cached (value * world) :=
  i ← get_index;
  hit ← lift (hits t (v_instance_fields t) i a_key);
  if (hit : bool) then v ← lift (get_field w a_this i); lift (Ok (v, w))
  else
    let i := to_size (i + v_instance_fields t) in
    hit ← lift (hits t (v_fields t) i a_key);
    if (hit : bool) then lift (get_class_field w t a_this i) else f__get w t a_this a_key.

(** What a call needs: [a_stack[0]] and [a_stack[1]]. *)
Definition bound : Type := value * value.

(** [t_type::f_bind_class]. *)
Definition f_bind_class (w : world) (t : t_type) (a_this : value) (a_index : Z) : outcome bound :=
  field ← rd (fields t) a_index;
  b ← f_is_bindable w (field.2);
  Ok (field.2, if (b : bool) then a_this else Null).

Definition f__bind (w : world) (t : t_type) (a_this : value) (a_key : Z) : cached (bound * world) :=
  i ← lift (f_index t a_key);
  if i <? v_instance_fields t then
    _ ← set_index i; v ← lift (get_field w a_this i); lift (Ok ((v, Null), w))
  else if i <? v_fields t then
    _ ← set_index (i - v_instance_fields t); b ← lift (f_bind_class w t a_this i); lift (Ok (b, w))
  else
    '(v, w) ← call_get w t a_this a_key; lift (Ok ((v, Null), w)).

(** [t_type::f_bind]: the class fields first. *)
Definition f_bind (w : world) (t : t_type) (a_this : value) (a_key : Z) : cached (bound * world) :=
  a_index ← get_index;
  let i := to_size (a_index + v_instance_fields t) in
  hit ← lift (hits t (v_fields t) i a_key);
  if (hit : bool) then b ← lift (f_bind_class w t a_this i); lift (Ok (b, w))
  else
    hit ← lift (hits t (v_instance_fields t) a_index a_key);
    if (hit : bool) then v ← lift (get_field w a_this a_index); lift (Ok ((v, Null), w))
    else f__bind w t a_this a_key.

(** [a_this->f_fields()[i] = a_value]. *)
Definition put_field (w : world) (a_this i : Z) (a_value : value) : outcome world :=
  l ← f_fields w (Object a_this);
  l ← wr l i a_value;
  set_fields w a_this l.

Definition f__put (w : world) (t : t_type) (a_this : Z) (a_key : Z) (a_value : value) : cached world :=
  i ← lift (f_index t a_key);
  if i <? v_instance_fields t then _ ← set_index i; lift (put_field w a_this i a_value)
  else lift (call_put w t a_this a_key a_value).

Definition f_put (w : world) (t : t_type) (a_this : Z) (a_key : Z) (a_value : value) : cached world :=
  i ← get_index;
  hit ← lift (hits t (v_instance_fields t) i a_key);
  if (hit : bool) then lift (put_field w a_this i a_value) else f__put w t a_this a_key a_value.

(** [t_type::f_do_has], which no type overrides. *)
Definition f_do_has : bool := false.

(** [t_type::f_has]: here the cache holds the index among all the fields. *)
Definition f_has (t : t_type) (a_key : Z) : cached bool :=
  i ← get_index;
  hit ← lift (hits t (v_fields t) i a_key);
  if (hit : bool) then lift (Ok true)
  else
    i ← lift (f_index t a_key);
    if v_fields t <=? i then lift (Ok f_do_has) else _ ← set_index i; lift (Ok true).

(** An invocation ends in a call of [callee]; [receiver] is what it writes to
    [a_stack[1]], if it does. *)
Record call := Call { callee : Z; receiver : option value }.

(** [t_type::f_invoke_class], up to the call. *)
Definition f_invoke_class (w : world) (t : t_type) (a_this : value) (a_index : Z) : outcome call :=
  field ← rd (fields t) a_index;
  p ← f_object_or_throw (field.2);
  b ← f_is_bindable w (Object p);
  Ok (Call p (if (b : bool) then Some a_this else None)).

(** [t_value::f_call], up to the call. *)
Definition f_call (v : value) : outcome call := p ← f_object_or_throw v; Ok (Call p None).

Definition f__invoke (w : world) (t : t_type) (a_this : value) (a_key : Z) : cached (call * world) :=
  i ← lift (f_index t a_key);
  if i <? v_instance_fields t then
    _ ← set_index i; v ← lift (get_field w a_this i); c ← lift (f_call v); lift (Ok (c, w))
  else if i <? v_fields t then
    _ ← set_index (i - v_instance_fields t); c ← lift (f_invoke_class w t a_this i); lift (Ok (c, w))
  else
    '(v, w) ← call_get w t a_this a_key; c ← lift (f_call v); lift (Ok (c, w)).

Definition f_invoke (w : world) (t : t_type) (a_this : value) (a_key : Z) : cached (call * world) :=
  a_index ← get_index;
  let i := to_size (a_index + v_instance_fields t) in
  hit ← lift (hits t (v_fields t) i a_key);
  if (hit : bool) then c ← lift (f_invoke_class w t a_this i); lift (Ok (c, w))
  else
    hit ← lift (hits t (v_instance_fields t) a_index a_key);
    if (hit : bool) then
      v ← lift (get_field w a_this a_index); c ← lift (f_call v); lift (Ok (c, w))
    else f__invoke w t a_this a_key.

(** *** Access to the members of a value

    [t_value::f_get], [f_bind], [f_put], [f_has] and [f_call] with a key. *)
Inductive access : Type :=
| Get (a_this : value) (a_key : Z)
| Bind (a_this : value) (a_key : Z)
| Put (a_this : value) (a_key : Z) (a_value : value)
| Has (a_this : value) (a_key : Z)
| Invoke (a_this : value) (a_key : Z).

Inductive answer : Type :=
| Got (v : value) (w : world)
| Bound (b : bound) (w : world)
| Done (w : world)
| Whether (b : bool)
| Invoked (c : call) (w : world).

Definition type_of (w : world) (v : value) : outcome t_type := a ← f_type w v; type_at w a.

Definition perform (w : world) (a : access) : cached answer :=
  match a with
  | Get a_this a_key =>
    t ← lift (type_of w a_this); '(v, w) ← f_get w t a_this a_key; lift (Ok (Got v w))
  | Bind a_this a_key =>
    t ← lift (type_of w a_this); '(b, w) ← f_bind w t a_this a_key; lift (Ok (Bound b w))
  | Put a_this a_key a_value =>
    p ← lift (f_object_or_throw a_this);
    t ← lift (type_of w a_this); w ← f_put w t p a_key a_value; lift (Ok (Done w))
  | Has a_this a_key =>
    match a_this with
    | Object _ => t ← lift (type_of w a_this); b ← f_has t a_key; lift (Ok (Whether b))
    | _ => lift (Ok (Whether false))
    end
  | Invoke a_this a_key =>
    t ← lift (type_of w a_this); '(c, w) ← f_invoke w t a_this a_key; lift (Ok (Invoked c w))
  end.

(** [t_builder::f_do]: [a_do] runs with a builder of its own, which fills the
    fields and is disposed of at the end. *)
Definition f_do (w : world) (a_do : world → Z → outcome world) : outcome (t_fields * world) :=
  let builder := allocate (objects w) in
  let w := with_objects w
    (<[builder := Object' (type_of_builder w) []
         (of_builder (Builder (current_thread w) (Some (Fields [] []))))]> (objects w)) in
  w ← a_do w builder;
  o ← object_at w builder;
  match o_data o with
  | of_builder (Builder owner (Some f)) =>
    Ok (f, with_objects w
      (<[builder := Object' (o_type o) (o_fields o) (of_builder (Builder owner None))]> (objects w)))
  | _ => Fault
  end.

(** [t_class::f_do_add]: [class :$] with the body [a_do]. *)
Definition f_do_add (w : world) (a_this : Z) (a_do : world → Z → outcome world) : outcome (Z * world) :=
  p ← type_at w a_this;
  if v_derivable (v_native p) then
    '(fields, w) ← f_do w a_do;
    f_do_derive w a_this fields
  else throw "underivable.".

(** [t_type::f_do_instantiate]: the new object, and the call of its
    [__initialize]. *)
Definition f_do_instantiate (w : world) (a_this : Z) : outcome (value * call * world) :=
  '(v, w) ← f_do_construct w a_this;
  t ← type_at w a_this;
  c ← f_invoke_class w t v (v_instance_fields t);
  Ok (v, c, w).
End stores.

(** ** Operators *)

(** The class fields that [Object] defines, in the order of
    [t_type::f_define]. *)
Inductive operator : Type :=
| op_initialize | op_call | op_string | op_hash | op_get_at | op_set_at
| op_plus | op_minus | op_complement | op_multiply | op_divide | op_modulus
| op_add | op_subtract | op_left_shift | op_right_shift
| op_less | op_less_equal | op_greater | op_greater_equal | op_equals | op_not_equals
| op_and | op_xor | op_or.

#[export] Instance operator_eq_dec : EqDecision operator.
Proof. solve_decision. Defined.

Definition object_operators : list operator :=
  [op_initialize; op_call; op_string; op_hash; op_get_at; op_set_at;
   op_plus; op_minus; op_complement; op_multiply; op_divide; op_modulus;
   op_add; op_subtract; op_left_shift; op_right_shift;
   op_less; op_less_equal; op_greater; op_greater_equal; op_equals; op_not_equals;
   op_and; op_xor; op_or].

(** [t_define::f_derive<T_super>(a_type)]: fills a type made on boot. *)
Definition define_type (w : world) (super t : t_type) (a_fields : t_fields) : outcome t_type :=
  '(fields, key2index) ← f_merge w super a_fields;
  Ok (Type' (v_native t) (v_super t) (v_module t) (Z.of_nat (length (v_instance a_fields)))
        fields key2index (v_bindable t)).

(** [t_type::f_define], for the symbols and the natives of the operators. *)
Definition f_define (w : world) (t : t_type) (f_symbol : operator → Z) (native : operator → value)
    : outcome t_type :=
  define_type w t t (Fields [] (map (λ op, (f_symbol op, native op)) object_operators)).

(** [Object] before its fields are defined. *)
Definition boot_object (T : t_native_type) : t_type := Type' T None Null 0 [] [] false.

(** The indices that [f_do_instantiate], [f_do_call], [f_do_string],
    [f_do_hash] and the [XEMMAI__TYPE__METHOD]s pass, from the first class
    field. *)
Definition method_index (op : operator) : Z :=
  match op with
  | op_initialize => 0 | op_call => 1 | op_string => 2 | op_hash => 3
  | op_get_at => 4 | op_set_at => 5
  | op_plus => 6 | op_minus => 7 | op_complement => 8
  | op_multiply => 9 | op_divide => 10 | op_modulus => 11
  | op_add => 12 | op_subtract => 13 | op_left_shift => 14 | op_right_shift => 15
  | op_less => 16 | op_less_equal => 17 | op_greater => 18 | op_greater_equal => 19
  | op_equals => 20 | op_not_equals => 21
  | op_and => 22 | op_xor => 23 | op_or => 24
  end.

(** The number of arguments that an operator is called with; [__call] passes
    those of the call on. *)
Definition method_arguments (op : operator) (a_n : Z) : Z :=
  match op with
  | op_call => a_n
  | op_set_at => 2
  | op_initialize | op_string | op_hash | op_plus | op_minus | op_complement => 0
  | _ => 1
  end.

(** [f_do_call] and the [XEMMAI__TYPE__METHOD]s: bind the class field at the
    operator's index and return the number of arguments. *)
Definition f_do_method (w : world) (op : operator) (a_this : Z) (a_n : Z) : outcome (bound * Z) :=
  a ← f_type w (Object a_this);
  type ← type_at w a;
  b ← f_bind_class w type (Object a_this) (v_instance_fields type + method_index op);
  Ok (b, method_arguments op a_n).

(** [f_do_string] and [f_do_hash] invoke the field at once. *)
Definition f_do_invoke_method (w : world) (op : operator) (a_this : Z) : outcome call :=
  a ← f_type w (Object a_this);
  type ← type_at w a;
  f_invoke_class w type (Object a_this) (v_instance_fields type + method_index op).
