(* ===== verification/TypeLayout.v ===== *)
(** * The layout of derived types (Types.v)

    The table of a type finds every field by its name; derivation keeps it so,
    leaves the inherited instance fields where they were and the inherited
    class fields at their distance from the end of the instance fields, and
    throws exactly when two declarations collide. *)
From stdpp Require Import base gmap list numbers strings sorting.
From S2P Require Import Prelude Machine Layout Types.
Local Open Scope Z_scope.

(** ** Association lists *)

Section maps.
Context {A : Type}.
Implicit Types (l : list (Z * A)) (k : Z) (v : A).

Definition ordered l : Prop := StronglySorted (λ x y, x.1 < y.1) l.

Lemma map_find_Some l k v : map_find k l = Some v → (k, v) ∈ l.
Proof.
  induction l as [|[k' v'] l IH]; cbn; [done|].
  destruct (Z.eqb_spec k' k) as [->|]; [intros [= ->]; left|intros; right; auto].
Qed.

Lemma map_find_is_Some l k : is_Some (map_find k l) ↔ k ∈ l.*1.
Proof.
  induction l as [|[k' v'] l IH]; cbn; [split; [by intros []|set_solver]|].
  rewrite elem_of_cons. destruct (Z.eqb_spec k' k) as [->|]; [split; [by left|by eexists]|].
  rewrite IH. split; [by right|intros [->|]; done].
Qed.

Lemma map_find_None l k : map_find k l = None ↔ k ∉ l.*1.
Proof. rewrite <- map_find_is_Some, eq_None_not_Some. done. Qed.

Lemma map_find_app k l1 l2 :
  map_find k (l1 ++ l2) = match map_find k l1 with Some v => Some v | None => map_find k l2 end.
Proof. induction l1 as [|[k' v'] l1 IH]; cbn; [done|]. by destruct (k' =? k). Qed.

Lemma map_find_lookup l k i v :
  NoDup l.*1 → l !! i = Some (k, v) → map_find k l = Some v.
Proof.
  revert i. induction l as [|[k' v'] l IH]; intros [|i] Hn Hi; cbn in *; try done.
  - injection Hi as -> ->. by rewrite Z.eqb_refl.
  - apply NoDup_cons in Hn as [Hk Hn]. destruct (Z.eqb_spec k' k) as [->|]; [|eauto].
    destruct Hk. apply (list_elem_of_lookup_2 _ i). rewrite list_lookup_fmap. exact (f_equal (fmap fst) Hi).
Qed.

Lemma emplace_in k v l x : x ∈ map_emplace k v l → x = (k, v) ∨ x ∈ l.
Proof.
  induction l as [|[k' v'] l IH]; cbn; [by intros ->%list_elem_of_singleton; left|].
  destruct (k <? k'); [|destruct (k =? k'); [by right|]]; rewrite !elem_of_cons; [tauto|].
  intros [->|?%IH]; tauto.
Qed.

Lemma emplace_ordered k v l : ordered l → ordered (map_emplace k v l).
Proof.
  unfold ordered. induction 1 as [|[k' v'] l Hl IH Hk]; cbn; [repeat constructor|].
  destruct (Z.ltb_spec k k').
  - constructor; [by constructor|]. constructor; [done|].
    eapply Forall_impl; [done|]. cbn. intros. lia.
  - destruct (Z.eqb_spec k k'); [by constructor|]. constructor; [done|].
    apply Forall_forall. intros x [->|Hx]%emplace_in; cbn; [lia|].
    by apply (Forall_forall (λ y, k' < y.1) l).
Qed.

Lemma find_emplace k k' v l :
  ordered l → map_find k' (map_emplace k v l) =
    match map_find k' l with Some v' => Some v' | None => if k =? k' then Some v else None end.
Proof.
  unfold ordered. induction 1 as [|[k1 v1] l Hl IH Hk]; cbn; [done|].
  destruct (Z.ltb_spec k k1); cbn.
  - destruct (Z.eqb_spec k k') as [->|]; [|by destruct (k1 =? k'), (map_find k' l)].
    destruct (Z.eqb_spec k1 k'); [lia|]. destruct (map_find k' l) eqn:E; [|done].
    apply map_find_Some in E. apply (Forall_forall (λ y, k1 < y.1) l) in E; [|done]. cbn in E. lia.
  - destruct (Z.eqb_spec k k1) as [->|]; cbn; [|by destruct (k1 =? k')].
    destruct (Z.eqb_spec k1 k'); [done|by destruct (map_find k' l)].
Qed.

Lemma emplace_end k v l : (∀ x, x ∈ l → x.1 < k) → map_emplace k v l = l ++ [(k, v)].
Proof.
  induction l as [|[k' v'] l IH]; intros H; cbn; [done|].
  assert (k' < k) by (apply (H (k', v')); left).
  case_tests. f_equal. apply IH. intros x Hx. apply H. by right.
Qed.

(** Copying an ordered array into a map and back. *)
Lemma rebuild_ordered l : ordered l → foldl (λ m '(k, v), map_emplace k v m) [] l = l.
Proof.
  unfold ordered. intros Hl.
  cut (∀ m, StronglySorted (λ x y, x.1 < y.1) (m ++ l) →
    foldl (λ m '(k, v), map_emplace k v m) m l = m ++ l); [intros H; by apply (H [])|].
  clear Hl. induction l as [|[k v] l IH]; intros m Hm; cbn; [by rewrite app_nil_r|].
  rewrite emplace_end.
  - rewrite IH; by rewrite <- app_assoc.
  - intros x Hx. refine (StronglySorted_app_1_elem_of _ m ((k, v) :: l) x (k, v) Hm Hx _); left.
Qed.

Lemma map_at_ok k v l :
  is_Some (map_find k l) → ∃ l', map_at k v l = Ok l' ∧ l'.*1 = l.*1 ∧
    ∀ k', map_find k' l' = if k =? k' then Some v else map_find k' l.
Proof.
  induction l as [|[k1 v1] l IH]; intros [v' Hv]; cbn in *; [done|].
  destruct (Z.eqb_spec k1 k) as [->|].
  - exists ((k, v) :: l). split_and!; [done..|]. intros k'. cbn. by destruct (k =? k').
  - destruct IH as (l' & -> & Hk & Hf); [by eexists|]. exists ((k1, v1) :: l').
    split_and!; [done|cbn; by f_equal|]. intros k'. cbn.
    rewrite Hf. destruct (Z.eqb_spec k1 k'), (Z.eqb_spec k k'); congruence.
Qed.

(** The order only depends on the keys. *)
Lemma ordered_keys l1 l2 : l1.*1 = l2.*1 → ordered l1 → ordered l2.
Proof.
  unfold ordered. intros Hk Hl. revert l2 Hk. induction Hl as [|[k v] l Hl IH Hf]; intros [|[k2 v2] l2] Hk; try done; [constructor|].
  rewrite !fmap_cons in Hk. injection Hk as <- Hk. constructor; [by apply IH|].
  apply Forall_forall. intros [k' v'] Hx. cbn.
  assert (k' ∈ l.*1) as ([k'' ?] & Hk' & Hin)%list_elem_of_fmap
    by (rewrite Hk; apply list_elem_of_fmap; by exists (k', v')).
  cbn in Hk'. subst. by apply (Forall_forall (λ y, k < y.1) l) in Hin.
Qed.

Lemma ordered_NoDup l : ordered l → NoDup l.*1.
Proof.
  unfold ordered. induction 1 as [|[k v] l Hl IH Hf]; cbn; [constructor|].
  constructor; [|done]. intros ([k' v'] & Hk & Hin)%list_elem_of_fmap. cbn in Hk. subst.
  apply (Forall_forall (λ y, k' < y.1) l) in Hin; [|done]. cbn in Hin. lia.
Qed.
End maps.

(** ** Tables of fields *)

Implicit Types (F : list (Z * value)) (m : list (Z * Z)).

(** [m] gives the index of every field of [F], and has the names [rest] as
    well, whose indices are not known yet. *)
Definition partial F (rest : list Z) m : Prop :=
  ordered m
  ∧ (∀ (i : nat) k, F.*1 !! i = Some k → map_find k m = Some (Z.of_nat i))
  ∧ (∀ k, k ∈ m.*1 ↔ k ∈ F.*1 ∨ k ∈ rest).

(** The table of a type: the index of every field. *)
Definition index_ok F m : Prop := partial F [] m.

Definition type_ok (t : t_type) : Prop :=
  index_ok (fields t) (key2index t)
  ∧ 0 ≤ v_instance_fields t ≤ v_fields t
  ∧ v_fields t < 2 ^ 60.

Lemma partial_NoDup F rest m : partial F rest m → NoDup F.*1.
Proof.
  intros (_ & Hi & _). apply NoDup_alt. intros i j k Hik Hjk.
  apply Hi in Hik. apply Hi in Hjk. rewrite Hik in Hjk. injection Hjk. lia.
Qed.

Lemma partial_find F rest m k :
  partial F rest m → map_find k m = None ↔ k ∉ F.*1 ++ rest.
Proof. intros (_ & _ & Hk). by rewrite map_find_None, Hk, elem_of_app. Qed.

Lemma index_ok_find F m k i :
  index_ok F m → map_find k m = Some i ↔ 0 ≤ i ∧ F.*1 !! Z.to_nat i = Some k.
Proof.
  intros (Ho & Hi & Hk). split.
  - intros Hf. assert (k ∈ F.*1) as [j Hj]%list_elem_of_lookup.
    { assert (k ∈ m.*1) as [|[]%not_elem_of_nil]%Hk; [|done].
      apply map_find_is_Some. by eexists. }
    pose proof (Hi j k Hj) as Hj'. rewrite Hf in Hj'. injection Hj' as ->. split; [lia|]. by rewrite Nat2Z.id.
  - intros [? H]. apply Hi in H. by rewrite Z2Nat.id in H.
Qed.

Lemma partial_snoc F rest m x m' :
  partial F rest m → x.1 ∉ F.*1 → x.1 ∉ rest → ordered m' →
  (∀ k, map_find k m' = if x.1 =? k then Some (Z.of_nat (length F)) else map_find k m) →
  partial (F ++ [x]) rest m'.
Proof.
  intros (Ho & Hi & Hk) Hx Hr Ho' Hf. split_and!; [done|..].
  - intros i k Hl. rewrite fmap_app in Hl. rewrite Hf.
    apply lookup_app_Some in Hl as [Hl|[Hlen Hl]].
    + destruct (Z.eqb_spec (x.1) k) as [<-|]; [|by apply Hi].
      destruct Hx. by apply list_elem_of_lookup_2 in Hl.
    + rewrite length_fmap in *. apply list_lookup_singleton_Some in Hl as [Hl <-].
      rewrite Z.eqb_refl. f_equal. lia.
  - intros k. rewrite <- map_find_is_Some, Hf, fmap_app, elem_of_app.
    change ([x].*1) with [x.1]. rewrite list_elem_of_singleton.
    destruct (Z.eqb_spec (x.1) k) as [<-|].
    + split; [tauto|by eexists].
    + rewrite map_find_is_Some, Hk. intuition congruence.
Qed.

Lemma partial_rest F rest rest' m :
  (∀ k, k ∈ F.*1 ∨ k ∈ rest ↔ k ∈ F.*1 ∨ k ∈ rest') → partial F rest m → partial F rest' m.
Proof. intros H (Ho & Hi & Hk). split_and!; [done..|]. intros k. by rewrite Hk. Qed.

(** A table only depends on the names. *)
Lemma partial_names F F' rest m : F.*1 = F'.*1 → partial F rest m → partial F' rest m.
Proof. intros H. unfold partial. by rewrite H. Qed.

(** The names of a table are those of the fields. *)
Lemma index_ok_permutation F m : index_ok F m → m.*1 ≡ₚ F.*1.
Proof.
  intros Hm. pose proof (partial_NoDup _ _ _ Hm). destruct Hm as (Ho & _ & Hk).
  apply NoDup_Permutation; [by apply ordered_NoDup|done|].
  intros k. rewrite Hk, elem_of_nil. tauto.
Qed.

Lemma index_ok_length F m : index_ok F m → length m = length F.
Proof.
  intros Hm%index_ok_permutation%Permutation_length. by rewrite !length_fmap in Hm.
Qed.

(** ** Lookup *)

Lemma ordered_lookup m i j x y :
  ordered m → m !! i = Some x → m !! j = Some y → (i < j)%nat → x.1 < y.1.
Proof.
  unfold ordered. intros Ho. revert i j. induction Ho as [|z m Hm IH Hz]; intros i j Hi Hj Hij; [done|].
  destruct j as [|j]; [lia|]. destruct i as [|i]; cbn in Hi, Hj.
  - injection Hi as ->. apply (Forall_forall (λ y, x.1 < y.1) m); [done|].
    by apply list_elem_of_lookup_2 in Hj.
  - apply (IH i j); [done|done|lia].
Qed.

(** The bounds of the search: what is to their left is smaller, what is to
    their right is larger. *)
Definition searching (m : list (Z * Z)) (a_key : Z) (s : Z * Z) : Prop :=
  0 ≤ s.1 ≤ s.2 ∧ s.2 ≤ Z.of_nat (length m)
  ∧ (∀ (p : nat) x, m !! p = Some x → Z.of_nat p < s.1 → x.1 < a_key)
  ∧ (∀ (p : nat) x, m !! p = Some x → s.2 ≤ Z.of_nat p → a_key < x.1).

(** What the search returns: the index in the table, or the number of fields. *)
Definition index_of (t : t_type) (a_key : Z) : Z :=
  default (v_fields t) (map_find a_key (key2index t)).

Lemma f_index_step_ok t a_key s :
  type_ok t → searching (key2index t) a_key s →
  (∃ s', f_index_step t a_key s = Ok (inl s') ∧ searching (key2index t) a_key s' ∧ s'.2 - s'.1 < s.2 - s.1)
  ∨ f_index_step t a_key s = Ok (inr (index_of t a_key)).
Proof.
  intros (Hm & Hv & Hs) (Hij & Hj & Hl & Hr). destruct s as [i j]. cbn [fst snd] in *.
  pose proof (index_ok_length _ _ Hm) as Hlen. unfold v_fields in *.
  pose proof Hm as (Ho & _). unfold f_index_step.
  destruct (Z.ltb_spec i j) as [Hlt|Hge].
  - rewrite to_size_id by (unfold SIZE_MODULUS; lia).
    set (k := (i + j) / 2). assert (i ≤ k < j) as Hk by (unfold k; pose proof (Z.div_mod (i + j) 2); pose proof (Z.mod_pos_bound (i + j) 2); lia).
    destruct (rd_ok (E := string) (key2index t) k ltac:(lia)) as ([first second] & Hx & ->).
    cbn [mbind outcome_bind].
    destruct (Z.eqb_spec first a_key) as [->|Hne].
    + right. unfold index_of. erewrite map_find_lookup; [done|by apply ordered_NoDup|done].
    + left. destruct (Z.ltb_spec first a_key) as [Hf|Hf]; eexists; (split; [done|]);
        unfold searching; cbn [fst snd]; (split; [|lia]); split_and!; try lia; try done.
      * intros p x Hp Hpk. destruct (decide (p = Z.to_nat k)) as [->|].
        { rewrite Hx in Hp. injection Hp as <-. done. }
        pose proof (ordered_lookup _ p (Z.to_nat k) x (first, second) Ho Hp Hx ltac:(lia)). cbn in *. lia.
      * intros p x Hp Hpk. destruct (decide (p = Z.to_nat k)) as [->|].
        { rewrite Hx in Hp. injection Hp as <-. cbn. lia. }
        pose proof (ordered_lookup _ (Z.to_nat k) p (first, second) x Ho Hx Hp ltac:(lia)). cbn in *. lia.
  - right. unfold index_of. enough (map_find a_key (key2index t) = None) as -> by done.
    apply map_find_None. intros ([k x] & -> & [p Hp]%list_elem_of_lookup)%list_elem_of_fmap. cbn in *.
    destruct (decide (Z.of_nat p < i)).
    + specialize (Hl p _ Hp ltac:(done)). cbn in Hl. lia.
    + specialize (Hr p _ Hp ltac:(lia)). cbn in Hr. lia.
Qed.

Lemma f_index_ok t a_key : type_ok t → f_index t a_key = Ok (index_of t a_key).
Proof.
  intros Ht. pose proof Ht as (Hm & Hv & _). pose proof (index_ok_length _ _ Hm) as Hlen.
  unfold f_index.
  destruct (loop_ind (f_index_step t a_key) (searching (key2index t) a_key)
    (λ r, r = index_of t a_key) (λ s, s.2 - s.1)) with (fuel := S (length (fields t)))
    (s := (0, v_fields t)) as (r & Hr & ->); [..|done].
  - intros s Hs. split; [destruct Hs; lia|].
    destruct (f_index_step_ok t a_key s Ht Hs) as [(s' & ? & ? & ?)|?]; [left|right]; eauto.
  - unfold searching, v_fields. cbn [fst snd]. split_and!; try lia.
    intros p x Hp%lookup_lt_Some. lia.
  - unfold v_fields. cbn [fst snd]. lia.
Qed.

Lemma index_of_range t a_key : type_ok t → 0 ≤ index_of t a_key ≤ v_fields t.
Proof.
  intros (Hm & Hv & _). unfold index_of. destruct (map_find _ _) as [i|] eqn:E; cbn; [|lia].
  apply (index_ok_find _ _ _ _ Hm) in E as [? E]. apply lookup_lt_Some in E.
  rewrite length_fmap in E. unfold v_fields. lia.
Qed.

(** Below the number of fields, the index is that of the field's name. *)
Lemma index_of_field t a_key i :
  type_ok t → 0 ≤ i < v_fields t →
  index_of t a_key = i ↔ ∃ x, fields t !! Z.to_nat i = Some x ∧ x.1 = a_key.
Proof.
  intros (Hm & Hv & _) Hi. unfold index_of. split.
  - destruct (map_find _ _) as [i'|] eqn:E; cbn; [intros ->|lia].
    apply (index_ok_find _ _ _ _ Hm) in E as [_ E]. rewrite list_lookup_fmap in E.
    destruct (fields t !! Z.to_nat i) as [x|]; [|done]. exists x. split; [done|]. by injection E.
  - intros (x & Hx & <-). enough (map_find (x.1) (key2index t) = Some i) as -> by done.
    apply (index_ok_find _ _ _ _ Hm). split; [lia|]. by rewrite list_lookup_fmap, Hx.
Qed.

Lemma index_of_absent t a_key :
  type_ok t → index_of t a_key = v_fields t ↔ a_key ∉ (fields t).*1.
Proof.
  intros (Hm & Hv & _). unfold index_of.
  pose proof (partial_find _ _ _ a_key Hm) as HN. rewrite app_nil_r in HN. rewrite <- HN.
  destruct (map_find _ _) as [i'|] eqn:E; cbn; [|done].
  apply (index_ok_find _ _ _ _ Hm) in E as [_ E]. apply lookup_lt_Some in E.
  rewrite length_fmap in E. unfold v_fields. split; [lia|done].
Qed.

(** ** Merging *)

(** Definition of a class field: it replaces the value of the name or comes
    last. *)
Fixpoint put_class F (x : Z * value) : list (Z * value) :=
  match F with
  | [] => [x]
  | y :: F => if y.1 =? x.1 then x :: F else y :: put_class F x
  end.

(** New instance fields, which have no value in the type. *)
Definition blank (xs : list Z) : list (Z * value) := map (λ x, (x, Null)) xs.

Lemma blank_names xs : (blank xs).*1 = xs.
Proof. induction xs as [|x xs IH]; cbn; [done|]. by f_equal. Qed.

Lemma blank_find xs k : map_find k (blank xs) = if decide (k ∈ xs) then Some Null else None.
Proof.
  induction xs as [|x xs IH]; [done|]. change (blank (x :: xs)) with ((x, Null) :: blank xs).
  cbn [map_find]. rewrite IH.
  rewrite (decide_ext (k ∈ x :: xs) (k = x ∨ k ∈ xs)) by apply elem_of_cons.
  destruct (Z.eqb_spec x k) as [->|]; repeat case_decide; intuition congruence.
Qed.

(** The fields of a derived type. *)
Definition merged (t : t_type) (a_fields : t_fields) : list (Z * value) :=
  let vi := Z.to_nat (v_instance_fields t) in
  foldl put_class
    (take vi (fields t) ++ blank (v_instance a_fields) ++ drop vi (fields t))
    (v_class a_fields).

(** The names of the instance fields of a derived type. *)
Definition instance_names (t : t_type) (a_fields : t_fields) : list Z :=
  take (Z.to_nat (v_instance_fields t)) (fields t).*1 ++ v_instance a_fields.

(** No declaration collides: the new instance fields have new names, and no
    class field has the name of an instance field. *)
Definition compatible (t : t_type) (a_fields : t_fields) : bool :=
  bool_decide (NoDup (v_instance a_fields ++ (fields t).*1)) &&
  forallb (λ x, bool_decide (x.1 ∉ instance_names t a_fields)) (v_class a_fields).

Lemma put_class_new F x : x.1 ∉ F.*1 → put_class F x = F ++ [x].
Proof.
  induction F as [|y F IH]; intros Hx; [done|]. rewrite fmap_cons in Hx.
  apply not_elem_of_cons in Hx as [Hy Hx]. cbn.
  destruct (Z.eqb_spec (y.1) (x.1)); [congruence|]. by rewrite IH.
Qed.

Lemma put_class_old F x (i : nat) : NoDup F.*1 → F.*1 !! i = Some (x.1) → put_class F x = <[i := x]> F.
Proof.
  revert i. induction F as [|y F IH]; intros i Hn Hi; [done|].
  rewrite fmap_cons in Hn, Hi. apply NoDup_cons in Hn as [Hy Hn].
  destruct i as [|i]; cbn in Hi |- *.
  - injection Hi as ->. by rewrite Z.eqb_refl.
  - destruct (Z.eqb_spec (y.1) (x.1)) as [He|]; [|by rewrite (IH i)].
    destruct Hy. rewrite He. by apply list_elem_of_lookup_2 in Hi.
Qed.

Lemma put_class_names F x (i : nat) : F.*1 !! i = Some (x.1) → (<[i := x]> F).*1 = F.*1.
Proof. intros Hi. rewrite list_fmap_insert. by apply list_insert_id. Qed.

Lemma put_class_prefix F x : F.*1 `prefix_of` (put_class F x).*1.
Proof.
  induction F as [|y F IH]; [apply prefix_nil|]. cbn.
  destruct (Z.eqb_spec (y.1) (x.1)) as [He|]; cbn; [by rewrite He|]. by apply prefix_cons.
Qed.

Lemma put_classes_prefix xs F : F.*1 `prefix_of` (foldl put_class F xs).*1.
Proof.
  revert F. induction xs as [|x xs IH]; intros F; [done|]. cbn.
  etrans; [apply put_class_prefix|apply IH].
Qed.

Lemma put_classes_new l F : NoDup (F ++ l).*1 → foldl put_class F l = F ++ l.
Proof.
  revert F. induction l as [|x l IH]; intros F Hn; cbn; [by rewrite app_nil_r|].
  rewrite fmap_app, fmap_cons in Hn. pose proof Hn as (_ & Hx & _)%NoDup_app.
  rewrite put_class_new; [|intros HF; destruct (Hx _ HF); left].
  rewrite IH; rewrite <- app_assoc; [done|]. by rewrite fmap_app.
Qed.

Lemma put_class_length F x : (length (put_class F x) ≤ length F + 1)%nat.
Proof. induction F as [|y F IH]; cbn; [lia|]. destruct (y.1 =? x.1); cbn; lia. Qed.

Lemma put_classes_length xs F : (length (foldl put_class F xs) ≤ length F + length xs)%nat.
Proof.
  revert F. induction xs as [|x xs IH]; intros F; cbn; [lia|].
  pose proof (IH (put_class F x)). pose proof (put_class_length F x). lia.
Qed.

Lemma put_class_find F x k :
  map_find k (put_class F x) = if x.1 =? k then Some (x.2) else map_find k F.
Proof.
  destruct x as [kx vx]. cbn [fst snd]. induction F as [|[ky vy] F IH]; cbn; [done|].
  destruct (Z.eqb_spec ky kx) as [->|]; cbn; [by destruct (kx =? k)|].
  rewrite IH. destruct (Z.eqb_spec ky k), (Z.eqb_spec kx k); congruence.
Qed.

(** The last definition of a name wins. *)
Lemma put_classes_find xs F k :
  map_find k (foldl put_class F xs) =
  match map_find k (rev xs) with Some v => Some v | None => map_find k F end.
Proof.
  revert F. induction xs as [|x xs IH]; intros F; cbn; [done|].
  rewrite IH, put_class_find, map_find_app. destruct (map_find k (rev xs)); [done|].
  destruct x as [kx vx]. cbn. by destruct (kx =? k).
Qed.

(** The names of the symbols a class body uses. *)
Definition symbols (w : world) (l : list Z) : Prop := Forall (λ x, is_symbol w x = true) l.

Lemma symbol_string_ok w x : is_symbol w x = true → ∃ s, symbol_string w x = Ok s.
Proof.
  unfold is_symbol, symbol_string, object_at. destruct (objects w !! x) as [o|]; [|done]. cbn.
  destruct (o_data o); try done. eauto.
Qed.

Lemma throw_symbol {A} w x : is_symbol w x = true → ∃ e, (s ← symbol_string w x; Throw s) =@{outcome A} Throw e.
Proof. intros [s Hs]%symbol_string_ok. exists s. by rewrite Hs. Qed.

(** *** The new instance fields *)
Lemma merge_instance_ok w F rest m x :
  partial F rest m →
  (x ∉ F.*1 ++ rest → ∃ m', merge_instance w (F, m) x = Ok (F ++ [(x, Null)], m') ∧ partial (F ++ [(x, Null)]) rest m')
  ∧ (x ∈ F.*1 ++ rest → is_symbol w x = true → ∃ e, merge_instance w (F, m) x = Throw e).
Proof.
  intros Hm. pose proof (partial_find _ _ _ x Hm) as Hf. unfold merge_instance. split.
  - intros Hx. pose proof Hx as [HxF Hxr]%not_elem_of_app. apply Hf in Hx. rewrite Hx.
    rewrite bool_decide_eq_false_2 by (intros [? ?]; done).
    eexists. split; [done|]. destruct Hm as (Ho & Hi & Hk).
    eapply partial_snoc; [by split_and!|done|done|by apply emplace_ordered|].
    intros k. cbn [fst]. rewrite find_emplace by done. destruct (Z.eqb_spec x k) as [<-|]; [by rewrite Hx|].
    by destruct (map_find k m).
  - intros Hx Hs. rewrite bool_decide_eq_true_2; [exact (throw_symbol w x Hs)|].
    apply not_eq_None_Some. intros HN%Hf. done.
Qed.

Lemma merge_instances_ok w xs F rest m :
  partial F rest m → NoDup rest → (∀ x, x ∈ rest → x ∉ F.*1) →
  (NoDup (xs ++ F.*1 ++ rest) →
     ∃ m', fold_calls (merge_instance w) (F, m) xs = Ok (F ++ blank xs, m')
       ∧ partial (F ++ blank xs) rest m')
  ∧ (¬ NoDup (xs ++ F.*1 ++ rest) → symbols w xs →
     ∃ e, fold_calls (merge_instance w) (F, m) xs = Throw e).
Proof.
  intros Hm Hr Hd. revert F m Hm Hd. induction xs as [|x xs IH]; intros F m Hm Hd.
  - split.
    + intros _. exists m. cbn. by rewrite app_nil_r.
    + intros []. cbn. apply NoDup_app. split_and!; [by eapply partial_NoDup| |done].
      intros y HF Hy. by apply (Hd y).
  - destruct (merge_instance_ok w F rest m x Hm) as [Hok Hth].
    change (fold_calls (merge_instance w) (F, m) (x :: xs)) with
      (s ← merge_instance w (F, m) x; fold_calls (merge_instance w) s xs).
    change ((x :: xs) ++ F.*1 ++ rest) with (x :: (xs ++ F.*1 ++ rest)).
    assert (Hperm : xs ++ (F ++ [(x, Null)]).*1 ++ rest ≡ₚ x :: (xs ++ F.*1 ++ rest)).
    { rewrite fmap_app. change ([(x, Null)].*1) with [x]. rewrite <- (app_assoc F.*1 [x]), !(app_assoc xs).
      symmetry. apply (Permutation_middle (xs ++ F.*1) rest x). }
    assert (Hd' : x ∉ F.*1 ++ rest → ∀ y, y ∈ rest → y ∉ (F ++ [(x, Null)]).*1).
    { intros [_ Hx]%not_elem_of_app y Hy. rewrite fmap_app, not_elem_of_app. split; [by apply Hd|].
      intros ->%list_elem_of_singleton. done. }
    split.
    + intros Hn. pose proof Hn as [Hx Hn']%NoDup_cons.
      apply not_elem_of_app in Hx as [_ Hx].
      destruct (Hok Hx) as (m1 & -> & Hm1). cbn [mbind outcome_bind].
      destruct (IH _ _ Hm1) as [(m2 & -> & Hm2) _].
      * by apply Hd'.
      * by rewrite Hperm.
      * exists m2. rewrite <- app_assoc in *. done.
    + intros Hn [Hsx Hs]%Forall_cons.
      destruct (decide (x ∈ F.*1 ++ rest)) as [Hx|Hx].
      * destruct (Hth Hx Hsx) as [e ->]. by exists e.
      * destruct (Hok Hx) as (m1 & -> & Hm1). cbn [mbind outcome_bind].
        apply (IH _ _ Hm1); [by apply Hd'|by rewrite Hperm|done].
Qed.

(** *** The inherited class fields *)
Lemma merge_inherited_ok xs F m :
  partial F xs.*1 m → NoDup (F.*1 ++ xs.*1) →
  ∃ m', fold_calls merge_inherited (F, m) xs = Ok (F ++ xs, m') ∧ index_ok (F ++ xs) m'.
Proof.
  revert F m. induction xs as [|x xs IH]; intros F m Hm Hn.
  - exists m. cbn. by rewrite app_nil_r.
  - rewrite fmap_cons in *. apply NoDup_app in Hn as (HnF & HFx & [Hx Hnx]%NoDup_cons).
    assert (x.1 ∉ F.*1) as HxF by (intros HxF; destruct (HFx _ HxF); left).
    pose proof Hm as (Ho & Hi & Hk).
    destruct (map_at_ok (x.1) (Z.of_nat (length F)) m) as (m1 & Hm1 & Hk1 & Hf1).
    { apply map_find_is_Some, Hk. right. left. }
    cbn [fold_calls merge_inherited]. rewrite Hm1. cbn [mbind outcome_bind].
    destruct (IH (F ++ [x]) m1) as (m2 & Hm2 & Hi2).
    + split_and!; [by eapply ordered_keys|..].
      * intros i k Hl. rewrite fmap_app in Hl. rewrite Hf1.
        apply lookup_app_Some in Hl as [Hl|[Hlen Hl]].
        -- destruct (Z.eqb_spec (x.1) k) as [<-|]; [|by apply Hi].
           destruct HxF. by apply list_elem_of_lookup_2 in Hl.
        -- rewrite length_fmap in *. apply list_lookup_singleton_Some in Hl as [Hl <-].
           rewrite Z.eqb_refl. f_equal. lia.
      * intros k. rewrite Hk1, Hk, fmap_app, elem_of_app, elem_of_cons.
        change ([x].*1) with [x.1]. rewrite list_elem_of_singleton. tauto.
    + rewrite fmap_app. change ([x].*1) with [x.1]. rewrite <- app_assoc. apply NoDup_app.
      split_and!; [done|done|]. by apply NoDup_cons.
    + exists m2. rewrite <- app_assoc in *. done.
Qed.

(** *** The class fields *)
Lemma merge_class_ok w (n : Z) F m x :
  index_ok F m → 0 ≤ n →
  (x.1 ∉ take (Z.to_nat n) F.*1 →
     ∃ m', merge_class w n (F, m) x = Ok (put_class F x, m') ∧ index_ok (put_class F x) m')
  ∧ (x.1 ∈ take (Z.to_nat n) F.*1 → is_symbol w (x.1) = true → ∃ e, merge_class w n (F, m) x = Throw e).
Proof.
  intros Hm Hn0. pose proof (partial_NoDup _ _ _ Hm) as Hn.
  pose proof (partial_find _ _ _ (x.1) Hm) as HN. rewrite app_nil_r in HN.
  unfold merge_class. destruct (map_find (x.1) m) as [i|] eqn:E.
  - apply (index_ok_find _ _ _ _ Hm) in E as [Hi0 E].
    pose proof E as Hlt%lookup_lt_Some. rewrite length_fmap in Hlt. split.
    + intros Hx. destruct (Z.ltb_spec i n).
      { destruct Hx. apply (list_elem_of_lookup_2 _ (Z.to_nat i)). rewrite lookup_take_lt by lia. done. }
      destruct (rd_ok (E := string) F i ltac:(lia)) as (f & Hf & ->). cbn [mbind outcome_bind].
      assert (f.1 = x.1) as -> by (rewrite list_lookup_fmap, Hf in E; by injection E).
      rewrite wr_ok by lia. cbn [mbind outcome_bind]. exists m.
      rewrite (put_class_old F x (Z.to_nat i)) by done. destruct x as [k v]. cbn [fst snd] in *.
      split; [done|]. by eapply partial_names; [symmetry; apply put_class_names|].
    + intros Hx Hs. destruct (Z.ltb_spec i n); [by apply throw_symbol|].
      apply list_elem_of_lookup in Hx as [j Hj]. apply lookup_take_Some in Hj as [Hj Hjn].
      pose proof (NoDup_lookup _ _ _ _ Hn E Hj). lia.
  - assert (x.1 ∉ F.*1) as Hx by (by apply HN). split.
    + intros _. rewrite put_class_new by done. eexists. split; [done|].
      destruct Hm as (Ho & Hi & Hk).
      eapply partial_snoc; [by split_and!|done|by apply not_elem_of_nil|by apply emplace_ordered|].
      intros k. rewrite find_emplace by done. destruct (Z.eqb_spec (x.1) k) as [<-|]; [by rewrite E|].
      by destruct (map_find k m).
    + intros Hx'. destruct Hx. 
      rewrite <- (take_drop (Z.to_nat n) F.*1). apply elem_of_app. by left.
Qed.

Lemma merge_classes_ok w xs F m (n : nat) :
  index_ok F m → (n ≤ length F)%nat → symbols w xs.*1 →
  if forallb (λ x, bool_decide (x.1 ∉ take n F.*1)) xs then
    ∃ m', fold_calls (merge_class w (Z.of_nat n)) (F, m) xs = Ok (foldl put_class F xs, m')
      ∧ index_ok (foldl put_class F xs) m'
  else ∃ e, fold_calls (merge_class w (Z.of_nat n)) (F, m) xs = Throw e.
Proof.
  revert F m. induction xs as [|x xs IH]; intros F m Hm Hn Hs; [by exists m|].
  rewrite fmap_cons in Hs. apply Forall_cons in Hs as [Hx Hs].
  destruct (merge_class_ok w (Z.of_nat n) F m x Hm ltac:(lia)) as [Hok Hth]. rewrite Nat2Z.id in Hok, Hth.
  cbn [forallb fold_calls].
  destruct (bool_decide_reflect (x.1 ∉ take n F.*1)) as [Hi|Hi]; cbn [andb].
  - destruct (Hok Hi) as (m1 & -> & Hm1). cbn [mbind outcome_bind foldl].
    assert (take n (put_class F x).*1 = take n F.*1) as Ht.
    { destruct (put_class_prefix F x) as [k ->]. apply take_app_le. by rewrite length_fmap. }
    specialize (IH (put_class F x) m1 Hm1). rewrite Ht in IH. apply IH; [|done].
    pose proof (prefix_length _ _ (put_class_prefix F x)). rewrite !length_fmap in *. lia.
  - apply dec_stable in Hi. destruct (Hth Hi Hx) as [e ->]. by exists e.
Qed.

(** The whole of [f_merge]. *)
Lemma f_merge_ok w t a_fields :
  type_ok t → symbols w (v_instance a_fields ++ (v_class a_fields).*1) →
  if compatible t a_fields then
    ∃ m, f_merge w t a_fields = Ok (merged t a_fields, m) ∧ index_ok (merged t a_fields) m
  else ∃ e, f_merge w t a_fields = Throw e.
Proof.
  intros (Hm & Hv & _) [Hsi Hsc]%Forall_app. unfold f_merge, merged, compatible, instance_names.
  unfold v_fields in Hv. set (vi := Z.to_nat (v_instance_fields t)).
  rewrite rebuild_ordered by apply Hm.
  pose proof (partial_NoDup _ _ _ Hm) as Hnd.
  assert (HF : (fields t).*1 = (take vi (fields t)).*1 ++ (drop vi (fields t)).*1)
    by by rewrite <- fmap_app, take_drop.
  rewrite HF in Hnd. pose proof Hnd as (_ & Hd & Hnr)%NoDup_app.
  assert (Hp : partial (take vi (fields t)) (drop vi (fields t)).*1 (key2index t)).
  { destruct Hm as (Ho & Hi & Hk). split_and!; [done|..].
    - intros i k Hl. apply Hi. rewrite HF. by apply lookup_app_l_Some.
    - intros k. rewrite Hk, HF, elem_of_app, elem_of_nil. tauto. }
  destruct (merge_instances_ok w (v_instance a_fields) _ _ _ Hp Hnr) as [Hok Hth].
  { intros x Hr Hf. by apply (Hd x). }
  rewrite <- HF in Hok, Hth.
  destruct (bool_decide_reflect (NoDup (v_instance a_fields ++ (fields t).*1))) as [Hn|Hn]; cbn [andb].
  - destruct (Hok Hn) as (m1 & -> & Hm1). cbn [mbind outcome_bind].
    destruct (merge_inherited_ok _ _ _ Hm1) as (m2 & -> & Hm2).
    { eapply NoDup_Permutation_proper; [|exact Hn]. rewrite HF, fmap_app.
      rewrite (Permutation_app_comm ((take vi (fields t)).*1)), <- app_assoc.
      by rewrite blank_names. }
    cbn [mbind outcome_bind].
    pose proof (merge_classes_ok w (v_class a_fields) _ m2
      (length (take vi (fields t) ++ blank (v_instance a_fields))) Hm2
      ltac:(rewrite !length_app; lia) Hsc) as H.
    rewrite fmap_app, (take_app_length' _.*1) in H by (symmetry; apply length_fmap).
    rewrite fmap_app, blank_names, fmap_take, <- app_assoc in H. rewrite <- app_assoc.
    destruct (forallb _ _); [|exact H].
    destruct H as (m3 & -> & Hm3). by exists m3.
  - destruct (Hth Hn Hsi) as [e ->]. by exists e.
Qed.

(** The names of a derived type. *)
Lemma merged_names t a_fields :
  ∃ new, (merged t a_fields).*1 =
    instance_names t a_fields ++ drop (Z.to_nat (v_instance_fields t)) (fields t).*1 ++ new.
Proof.
  unfold merged, instance_names. set (F := _ ++ _ ++ _).
  destruct (put_classes_prefix (v_class a_fields) F) as [new ->]. exists new. unfold F.
  by rewrite !fmap_app, blank_names, fmap_take, fmap_drop, <- !app_assoc.
Qed.

Lemma merged_length t a_fields :
  (length (merged t a_fields) ≤
    length (fields t) + length (v_instance a_fields) + length (v_class a_fields))%nat.
Proof.
  unfold merged. pose proof (put_classes_length (v_class a_fields)
    (take (Z.to_nat (v_instance_fields t)) (fields t) ++ blank (v_instance a_fields)
      ++ drop (Z.to_nat (v_instance_fields t)) (fields t))) as H.
  rewrite !length_app in H. unfold blank in H at 2. rewrite length_map, length_take, length_drop in H.
  unfold blank in *. lia.
Qed.

(** A type constructed by derivation has the names that were merged. *)
Lemma derive_type_inv `{Initializers} w a t T md fs ov t' :
  type_ok t → symbols w (v_instance fs ++ (v_class fs).*1) →
  derive_type w a t T md fs ov = Ok t' →
  compatible t fs = true
  ∧ index_ok (merged t fs) (key2index t')
  ∧ (fields t').*1 = (merged t fs).*1
  ∧ (ov = false → fields t' = merged t fs)
  ∧ v_super t' = Some a ∧ v_native t' = T
  ∧ v_instance_fields t' = v_instance_fields t + Z.of_nat (length (v_instance fs)).
Proof.
  intros Ht Hs Hd. unfold derive_type in Hd. pose proof (f_merge_ok w t fs Ht Hs) as Hm.
  destruct (compatible t fs); [|by destruct Hm as [e Hm]; rewrite Hm in Hd].
  destruct Hm as (m & Hm & Hi). rewrite Hm in Hd. cbn [mbind outcome_bind] in Hd.
  apply outcome_bind_ok in Hd as (F & HF & Hd). injection Hd as <-. cbn.
  assert (F.*1 = (merged t fs).*1 ∧ (ov = false → F = merged t fs)) as [HF1 HF2].
  { destruct ov; [|by injection HF as <-]. split; [|done].
    apply outcome_bind_ok in HF as ([k v] & Hk & HF). cbn in HF.
    case_decide; [|by injection HF as <-].
    unfold rd in Hk. case_decide; [|done]. destruct (merged t fs !! _) as [x|] eqn:E; [|done].
    injection Hk as ->. pose proof E as Hlt%lookup_lt_Some.
    rewrite wr_ok in HF by lia. injection HF as <-.
    by rewrite (put_class_names _ (k, v_initialize_ignore)) by by rewrite list_lookup_fmap, E. }
  by split_and!.
Qed.

(** ** Derived types *)

(** The arrays of a derived type fit in memory. *)
Definition room (t : t_type) (a_fields : t_fields) : Prop :=
  v_fields t + Z.of_nat (length (v_instance a_fields)) + Z.of_nat (length (v_class a_fields)) < 2 ^ 60.

Section derivation.
Context `{Initializers}.
Variable w : world.

Lemma derive_type_layout a t T md fs ov t' :
  type_ok t → symbols w (v_instance fs ++ (v_class fs).*1) → room t fs →
  derive_type w a t T md fs ov = Ok t' →
  type_ok t'
  ∧ (∀ i, 0 ≤ i < v_instance_fields t →
       (fields t').*1 !! Z.to_nat i = (fields t).*1 !! Z.to_nat i)
  ∧ (∀ k key, 0 ≤ k → (fields t).*1 !! Z.to_nat (v_instance_fields t + k) = Some key →
       (fields t').*1 !! Z.to_nat (v_instance_fields t' + k) = Some key).
Proof.
  intros Ht Hs Hr Hd. pose proof Ht as (_ & Hv & _).
  destruct (derive_type_inv w a t T md fs ov t' Ht Hs Hd) as (_ & Hi & Hn0 & _ & _ & _ & Hvi).
  destruct (merged_names t fs) as [new Hnew]. pose proof Hn0 as Hn. rewrite Hnew in Hn. unfold instance_names in Hn.
  unfold v_fields in Hv. set (vi := Z.to_nat (v_instance_fields t)) in *.
  assert (length (take vi (fields t).*1) = vi) as Hlen
    by (rewrite length_take, length_fmap; lia).
  split; [|split].
  - split_and!.
    + by eapply partial_names; [symmetry; exact Hn0|].
    + lia.
    + unfold v_fields. rewrite <- (length_fmap fst), Hn, !length_app, Hlen. lia.
    + unfold v_fields, room in *. rewrite <- (length_fmap fst), Hn0, length_fmap.
      pose proof (merged_length t fs). unfold v_fields in Hr. lia.
  - intros i Hi0. rewrite Hn, <- app_assoc, lookup_app_l by lia. apply lookup_take_lt. lia.
  - intros k key Hk Hkey. rewrite Hn, lookup_app_r by (rewrite length_app, Hlen; lia).
    rewrite length_app, Hlen. apply lookup_app_l_Some. rewrite lookup_drop. rewrite <- Hkey. f_equal. lia.
Qed.

(** The types that derive from [t], directly or not. *)
Inductive descends (t : t_type) : t_type → Prop :=
| descends_refl : descends t t
| descends_derive a t1 T md fs ov t2 :
    descends t t1 → symbols w (v_instance fs ++ (v_class fs).*1) → room t1 fs →
    derive_type w a t1 T md fs ov = Ok t2 → descends t t2.

Lemma descends_layout t t' :
  type_ok t → descends t t' →
  type_ok t'
  ∧ (∀ k key, 0 ≤ k → (fields t).*1 !! Z.to_nat (v_instance_fields t + k) = Some key →
       (fields t').*1 !! Z.to_nat (v_instance_fields t' + k) = Some key).
Proof.
  intros Ht. induction 1 as [|a t1 T md fs ov t2 _ [IH1 IH2] Hs Hr Hd]; [done|].
  destruct (derive_type_layout a t1 T md fs ov t2 IH1 Hs Hr Hd) as (Ht2 & _ & Hk). split; [done|].
  intros k key Hk0 Hkey. by apply Hk, IH2.
Qed.

Lemma boot_object_ok T : type_ok (boot_object T).
Proof.
  split; [|done]. split; [apply SSorted_nil|split; [done|]].
  intros k. cbn. rewrite elem_of_nil. tauto.
Qed.

Lemma f_define_ok T f_symbol native t :
  Inj (=) (=) f_symbol → (∀ op, is_symbol w (f_symbol op) = true) →
  f_define w (boot_object T) f_symbol native = Ok t →
  type_ok t ∧ v_instance_fields t = 0
  ∧ ∀ op, (fields t).*1 !! Z.to_nat (method_index op) = Some (f_symbol op).
Proof.
  intros Hinj Hsym Hd. unfold f_define, define_type in Hd.
  set (l := map (λ op, (f_symbol op, native op)) object_operators) in *.
  assert (Hl : l.*1 = map f_symbol object_operators) by done.
  pose proof (boot_object_ok T) as Hb.
  pose proof (f_merge_ok w (boot_object T) (Fields [] l) Hb) as Hm.
  assert (Hsy : symbols w ([] ++ l.*1)).
  { rewrite Hl. apply Forall_forall. intros x (op & <- & _)%list_elem_of_In%in_map_iff. apply Hsym. }
  specialize (Hm Hsy). destruct (compatible _ _); [|by destruct Hm as [e Hm]; rewrite Hm in Hd].
  destruct Hm as (m & Hm & Hi). rewrite Hm in Hd. injection Hd as <-. cbn [fields key2index v_instance_fields v_instance length].
  assert (merged (boot_object T) (Fields [] l) = l) as Hml.
  { apply (put_classes_new l []). change (NoDup l.*1). rewrite Hl.
    apply (NoDup_fmap_2 f_symbol). by apply (bool_decide_unpack _). }
  rewrite Hml in *. split; [|split; [done|]].
  - split_and!; [done|done| |]; unfold v_fields; cbn [fields]; unfold l; rewrite length_map; cbn; lia.
  - intros op. by destruct op.
Qed.
End derivation.

(** ** Properties *)

(** C19 (derived_type_layout): a type derived from a well-formed type is well
    formed, its table finds every field, it keeps the instance fields of its
    base at their positions, so that the code of the base works on its
    instances, and it keeps the class fields of its base at their distance
    from the instance fields, so that indices relative to them stay valid. *)
Theorem derived_type_layout `{Initializers} w a t T md fs ov t' :
  type_ok t → symbols w (v_instance fs ++ (v_class fs).*1) → room t fs →
  derive_type w a t T md fs ov = Ok t' →
  type_ok t'
  ∧ v_super t' = Some a
  ∧ v_instance_fields t' = v_instance_fields t + Z.of_nat (length (v_instance fs))
  ∧ (∀ i, 0 ≤ i < v_instance_fields t →
       (fields t').*1 !! Z.to_nat i = (fields t).*1 !! Z.to_nat i)
  ∧ (∀ k key, 0 ≤ k → (fields t).*1 !! Z.to_nat (v_instance_fields t + k) = Some key →
       (fields t').*1 !! Z.to_nat (v_instance_fields t' + k) = Some key).
Proof.
  intros Ht Hs Hr Hd. destruct (derive_type_layout w a t T md fs ov t' Ht Hs Hr Hd) as (H1 & H2 & H3).
  destruct (derive_type_inv w a t T md fs ov t' Ht Hs Hd) as (_ & _ & _ & _ & H4 & _ & H5).
  by split_and!.
Qed.

(** Deriving a type succeeds or throws, never
    anything else; it throws exactly when a new instance field has a name that
    the base has or that is declared twice, or a class field the name of an
    instance field.  The members of the derived type are the new instance
    fields, the last definition of every class field, and what else the base
    has. *)
Theorem derived_type_members `{Initializers} w a t T md fs :
  type_ok t → symbols w (v_instance fs ++ (v_class fs).*1) →
  if compatible t fs then
    ∃ t', derive_type w a t T md fs false = Ok t'
      ∧ ∀ key, map_find key (fields t') =
          if decide (key ∈ v_instance fs) then Some Null
          else match map_find key (rev (v_class fs)) with
               | Some v => Some v
               | None => map_find key (fields t)
               end
  else ∃ e, derive_type w a t T md fs false = Throw e.
Proof.
  intros Ht Hs. pose proof (f_merge_ok w t fs Ht Hs) as Hm. unfold derive_type.
  destruct (compatible t fs) eqn:Hc; [|by destruct Hm as [e ->]; exists e].
  destruct Hm as (m & -> & _). eexists. split; [done|]. intros key. cbn [fields].
  unfold compatible in Hc. apply andb_true_iff in Hc as [(_ & Hd & _)%bool_decide_eq_true%NoDup_app Hcl].
  unfold merged. rewrite put_classes_find, !map_find_app. set (vi := Z.to_nat (v_instance_fields t)) in *.
  assert (HF : ∀ k, map_find k (fields t) = match map_find k (take vi (fields t)) with
      Some v => Some v | None => map_find k (drop vi (fields t)) end)
    by (intros k; by rewrite <- map_find_app, take_drop).
  rewrite blank_find, HF. case_decide as Hk.
  - assert (map_find key (rev (v_class fs)) = None) as ->.
    { apply map_find_None. intros ((k & v) & -> & Hin%list_elem_of_In%in_rev)%list_elem_of_fmap.
      rewrite forallb_forall in Hcl. specialize (Hcl _ Hin). apply bool_decide_eq_true in Hcl.
      apply Hcl. apply elem_of_app. by right. }
    assert (map_find key (take vi (fields t)) = None) as ->; [|done].
    apply map_find_None. intros Hin. apply (Hd key Hk).
    rewrite <- (take_drop vi (fields t)), fmap_app. apply elem_of_app. by left.
  - by destruct (map_find key (rev (v_class fs))), (map_find key (take vi (fields t))).
Qed.

(** ** A sample

    [class Point; $x; $move = 1] as a type with its symbols. *)
Module Sample.

Definition object_native : t_native_type := NativeType 0 object_do_get object_do_put true.

Definition symbol_object (s : string) : t_object := Object' 1 [] (of_symbol s).

Definition sample_world : world :=
  World {[ 100 := symbol_object "x"; 101 := symbol_object "y"; 102 := symbol_object "move" ]}
    (λ _, 1) 2 4 3 0.

Definition point_fields : t_fields := Fields [100] [(102, Integer 1)].

Definition point : t_type :=
  Type' object_native None Null 1 [(100, Null); (102, Integer 1)] [(100, 0); (102, 1)] false.

(** [class Point3 : Point; $y; $move = 2]. *)
Definition point3_fields : t_fields := Fields [101] [(102, Integer 2)].

#[export] Instance sample_initializers : Initializers :=
  {| v_initialize_validate := Object 8; v_initialize_ignore := Object 9 |}.

Definition point3 : t_type :=
  Type' object_native (Some 50) Null 2 [(100, Null); (101, Null); (102, Integer 2)]
    [(100, 0); (101, 1); (102, 2)] false.

Lemma point_ok : type_ok point.
Proof.
  pose proof (f_merge_ok sample_world (boot_object object_native) point_fields
    (boot_object_ok _) ltac:(by repeat constructor)) as H.
  change (compatible _ _) with true in H. destruct H as (m & Hm & Hi).
  vm_compute in Hm. injection Hm as <-. split; [exact Hi|]. by vm_compute.
Qed.
End Sample.

Section witnesses.
Import Sample.

Lemma derived_type_layout_witness :
  type_ok point3 ∧ v_super point3 = Some 50 ∧ v_instance_fields point3 = 2.
Proof.
  destruct (derived_type_layout sample_world 50 point object_native Null point3_fields false point3)
    as (? & ? & ? & _); [exact point_ok|by repeat constructor|by vm_compute|by vm_compute|].
  by split_and!.
Defined.

Lemma derived_type_members_witness :
  ∃ t', derive_type sample_world 50 point object_native Null point3_fields false = Ok t'
    ∧ map_find 101 (fields t') = Some Null ∧ map_find 102 (fields t') = Some (Integer 2).
Proof.
  destruct (derived_type_members sample_world 50 point object_native Null point3_fields)
    as (t' & Ht & Hf); [exact point_ok|by repeat constructor|].
  exists t'. split; [exact Ht|]. by rewrite !Hf.
Defined.
End witnesses.
