(* ===== verification/TypeAccess.v ===== *)
(** * Member access and its cached index (Types.v)

    A reference for the accesses to members, which looks a name up among the
    fields of the type and keeps nothing; the accesses of the interpreter agree
    with it whatever index their instruction holds. *)
From stdpp Require Import base gmap list numbers strings.
From S2P Require Import Prelude Machine Layout Types TypeLayout.
Local Open Scope Z_scope.

(** ** The reference *)

(** Where a type keeps a name. *)
Inductive place := In_instance (i : Z) | In_class (i : Z) | Nowhere.

Definition place_of (t : t_type) (a_key : Z) : place :=
  match list_find (λ y, y.1 = a_key) (fields t) with
  | Some (i, _) =>
    let i := Z.of_nat i in if i <? v_instance_fields t then In_instance i else In_class i
  | None => Nowhere
  end.

Section reference.
Context `{Allocator} `{TypeNames}.

Definition class_member (w : world) (a_this : Z) (a_key : Z) : outcome (value * world) :=
  type ← type_at w a_this;
  match place_of type a_key with
  | In_class i => field ← rd (fields type) i; Ok (field.2, w)
  | _ => f_throw_undefined_field w a_key
  end.

(** A name that the type does not have. *)
Definition get_elsewhere (w : world) (t : t_type) (a_this : value) (a_key : Z) : outcome (value * world) :=
  match v_get (v_native t), a_this with
  | object_do_get, _ => f_throw_undefined_field w a_key
  | class_do_get, Object a => class_member w a a_key
  | builder_do_get, Object a => builder_f_do_get w a a_key
  | _, _ => Fault
  end.

Definition refer (w : world) (a : access) : outcome answer :=
  match a with
  | Get a_this a_key =>
    t ← type_of w a_this;
    '(v, w) ← match place_of t a_key with
              | In_instance i => v ← get_field w a_this i; Ok (v, w)
              | In_class i => get_class_field w t a_this i
              | Nowhere => get_elsewhere w t a_this a_key
              end;
    Ok (Got v w)
  | Bind a_this a_key =>
    t ← type_of w a_this;
    '(b, w) ← match place_of t a_key with
              | In_instance i => v ← get_field w a_this i; Ok ((v, Null), w)
              | In_class i => b ← f_bind_class w t a_this i; Ok (b, w)
              | Nowhere => '(v, w) ← get_elsewhere w t a_this a_key; Ok ((v, Null), w)
              end;
    Ok (Bound b w)
  | Put a_this a_key a_value =>
    p ← f_object_or_throw a_this;
    t ← type_of w a_this;
    w ← match place_of t a_key with
        | In_instance i => put_field w p i a_value
        | _ => call_put w t p a_key a_value
        end;
    Ok (Done w)
  | Has a_this a_key =>
    match a_this with
    | Object _ =>
      t ← type_of w a_this;
      Ok (Whether (match place_of t a_key with Nowhere => false | _ => true end))
    | _ => Ok (Whether false)
    end
  | Invoke a_this a_key =>
    t ← type_of w a_this;
    '(c, w) ← match place_of t a_key with
              | In_instance i => v ← get_field w a_this i; c ← f_call v; Ok (c, w)
              | In_class i => c ← f_invoke_class w t a_this i; Ok (c, w)
              | Nowhere => '(v, w) ← get_elsewhere w t a_this a_key; c ← f_call v; Ok (c, w)
              end;
    Ok (Invoked c w)
  end.
End reference.

(** ** Agreement *)

(** Every type of the store has a right table. *)
Definition world_ok (w : world) : Prop := ∀ a t, type_at w a = Ok t → type_ok t.

Lemma world_ok_map w :
  map_Forall (λ _ o, match o_data o with of_type t => type_ok t | _ => True end) (objects w) → world_ok w.
Proof.
  intros Hm a t Ht. unfold type_at, object_at in Ht.
  destruct (objects w !! a) as [o|] eqn:E; [|done]. specialize (Hm a o E). cbn in Hm, Ht.
  destruct (o_data o); try done. by injection Ht as <-.
Qed.

(** An index that an instruction can hold. *)
Definition index_range (i : Z) : Prop := 0 ≤ i < 2 ^ 60.

(** A cached computation gives [o] and leaves an index in range, from every
    index in range. *)
Definition yields {A} (m : cached A) (o : outcome A) : Prop :=
  ∀ i, index_range i → (m i).1 = o ∧ index_range (m i).2.

Lemma yields_lift {A} (o : outcome A) : yields (lift o) o.
Proof. by intros i Hi. Qed.

Lemma yields_set {A} i (m : cached A) o : index_range i → yields m o → yields (_ ← set_index i; m) o.
Proof. intros Hi Hm j Hj. cbn. by apply Hm. Qed.

Lemma yields_bind {A B} (m : cached A) o (f : A → cached B) g :
  yields m o → (∀ a, o = Ok a → yields (f a) (g a)) → yields (m ≫= f) (o ≫= g).
Proof.
  intros Hm Hf i Hi. destruct (Hm i Hi) as [<- Hi']. unfold mbind, cached_bind.
  destruct (m i) as [[a|e|] i'] eqn:E; cbn in *; [by apply Hf|done..].
Qed.

Lemma yields_bind_lift {A B} (o : outcome A) (f : A → cached B) g :
  (∀ a, o = Ok a → yields (f a) (g a)) → yields (lift o ≫= f) (o ≫= g).
Proof. intros Hf. apply yields_bind; [apply yields_lift|done]. Qed.

Lemma yields_ok {A B} (a : A) (f : A → cached B) o : yields (f a) o → yields (lift (Ok a) ≫= f) o.
Proof. done. Qed.

Lemma lift_ok_at {A B} (a : A) (f : A → cached B) i : (lift (Ok a) ≫= f) i = f a i.
Proof. done. Qed.

(** A computation that looks at the index first. *)
Lemma yields_index {A} (f : Z → cached A) o :
  (∀ i, index_range i → (f i i).1 = o ∧ index_range (f i i).2) → yields (i ← get_index; f i) o.
Proof. intros Hf i Hi. exact (Hf i Hi). Qed.

Section agreement.
Context `{Allocator} `{TypeNames}.

Lemma place_of_index t a_key :
  type_ok t → place_of t a_key =
    let i := index_of t a_key in
    if i <? v_instance_fields t then In_instance i
    else if i <? v_fields t then In_class i else Nowhere.
Proof.
  intros Ht. pose proof Ht as (_ & Hv & _). cbn zeta.
  pose proof (index_of_range t a_key Ht). unfold place_of.
  destruct (list_find _ (fields t)) as [[i y]|] eqn:E.
  - apply list_find_Some in E as (E & Hy & _). pose proof E as Hlt%lookup_lt_Some.
    assert (index_of t a_key = Z.of_nat i) as ->.
    { apply index_of_field; [done|unfold v_fields; lia|]. exists y. by rewrite Nat2Z.id. }
    unfold v_fields. case_tests; done.
  - apply list_find_None in E.
    assert (index_of t a_key = v_fields t) as Hi.
    { apply index_of_absent; [done|]. intros (y & -> & Hy)%list_elem_of_fmap.
      exact (proj1 (List.Forall_forall _ _) E y (proj1 (list_elem_of_In _ _) Hy) eq_refl). }
    rewrite Hi. case_tests; done.
Qed.

(** A hit is at the index of the name. *)
Lemma hits_index t bound i a_key :
  type_ok t → 0 ≤ i → bound ≤ v_fields t →
  hits t bound i a_key = Ok (bool_decide (i < bound ∧ index_of t a_key = i)).
Proof.
  intros Ht Hi Hb. unfold hits. destruct (Z.ltb_spec i bound) as [Hlt|Hge].
  - destruct (rd_ok (E := string) (fields t) i) as (x & Hx & ->); [unfold v_fields in Hb; lia|]. cbn.
    f_equal. pose proof (index_of_field t a_key i Ht ltac:(lia)) as Hf.
    destruct (Z.eqb_spec (x.1) a_key); symmetry; [apply bool_decide_eq_true_2|apply bool_decide_eq_false_2].
    + split; [done|]. apply Hf. eauto.
    + intros [_ (y & Hy & ?)%Hf]. congruence.
  - by rewrite bool_decide_eq_false_2 by lia.
Qed.

(** The cached index of a class field, with the sum in [size_t]. *)
Lemma class_index t i :
  type_ok t → index_range i → to_size (i + v_instance_fields t) = i + v_instance_fields t.
Proof. intros (_ & Hv & Hf) Hi. apply to_size_id. unfold index_range, SIZE_MODULUS in *. lia. Qed.

Ltac place t a_key Ht :=
  rewrite (place_of_index t a_key Ht); cbn zeta;
  pose proof (index_of_range t a_key Ht);
  let H := fresh in pose proof Ht as (_ & H & ?).

Lemma class_f_do_get_ok w a a_key :
  world_ok w → yields (class_f_do_get w a a_key) (class_member w a a_key).
Proof.
  intros Hw. unfold class_f_do_get, class_member. apply yields_bind_lift. intros t Ht%Hw.
  assert (Hs : yields (i ← lift (f_index t a_key);
      if (i <? v_instance_fields t) || (v_fields t <=? i) then lift (f_throw_undefined_field w a_key)
      else _ ← set_index i; field ← lift (rd (fields t) i); lift (Ok (field.2, w)))
    match place_of t a_key with
    | In_class i => field ← rd (fields t) i; Ok (field.2, w)
    | _ => f_throw_undefined_field w a_key
    end).
  { rewrite f_index_ok by done. apply yields_ok. place t a_key Ht.
    case_tests; cbn [orb]; try apply yields_lift. apply yields_set; [unfold index_range; lia|].
    apply yields_bind_lift. intros. apply yields_lift. }
  apply yields_index. intros i Hi.
  destruct ((i <? v_instance_fields t) || (v_fields t <=? i)) eqn:Hr; [by apply Hs|].
  apply orb_false_iff in Hr as [Hr1%Z.ltb_ge Hr2%Z.leb_gt].
  destruct (rd_ok (E := string) (fields t) i) as (x & Hx & Hrd); [unfold v_fields in *; unfold index_range in *; lia|].
  rewrite Hrd, lift_ok_at.
  destruct (Z.eqb_spec (x.1) a_key) as [He|]; [|by apply Hs].
  assert (index_of t a_key = i) as Hidx by (apply index_of_field; [done|unfold index_range in *; lia|eauto]).
  place t a_key Ht. rewrite Hidx. case_tests. rewrite Hrd. done.
Qed.

Lemma call_get_ok w t this a_key : world_ok w → yields (call_get w t this a_key) (get_elsewhere w t this a_key).
Proof.
  intros Hw. unfold call_get, get_elsewhere.
  destruct (v_get (v_native t)), this; try apply yields_lift. by apply class_f_do_get_ok.
Qed.

(** The proof steps of the accesses: the index of the name decides the branch,
    and a hit is at that index. *)
Ltac yields_steps :=
  repeat first
    [ apply yields_lift | apply yields_ok
    | apply yields_set; [unfold index_range in *; lia|]
    | apply yields_bind_lift; intros
    | apply yields_bind; [by apply call_get_ok|intros [? ?] ?] ].

Lemma f__get_ok w t this a_key :
  world_ok w → type_ok t →
  yields (f__get w t this a_key)
    match place_of t a_key with
    | In_instance i => v ← get_field w this i; Ok (v, w)
    | In_class i => get_class_field w t this i
    | Nowhere => get_elsewhere w t this a_key
    end.
Proof.
  intros Hw Ht. unfold f__get. rewrite f_index_ok by done. apply yields_ok.
  place t a_key Ht. case_tests; yields_steps. by apply call_get_ok.
Qed.

Lemma f__bind_ok w t this a_key :
  world_ok w → type_ok t →
  yields (f__bind w t this a_key)
    match place_of t a_key with
    | In_instance i => v ← get_field w this i; Ok ((v, Null), w)
    | In_class i => b ← f_bind_class w t this i; Ok (b, w)
    | Nowhere => '(v, w) ← get_elsewhere w t this a_key; Ok ((v, Null), w)
    end.
Proof.
  intros Hw Ht. unfold f__bind. rewrite f_index_ok by done. apply yields_ok.
  place t a_key Ht. case_tests; yields_steps.
Qed.

Lemma f__put_ok w t p a_key v :
  type_ok t →
  yields (f__put w t p a_key v)
    match place_of t a_key with
    | In_instance i => put_field w p i v
    | _ => call_put w t p a_key v
    end.
Proof.
  intros Ht. unfold f__put. rewrite f_index_ok by done. apply yields_ok.
  place t a_key Ht. case_tests; yields_steps.
Qed.

Lemma f__invoke_ok w t this a_key :
  world_ok w → type_ok t →
  yields (f__invoke w t this a_key)
    match place_of t a_key with
    | In_instance i => v ← get_field w this i; c ← f_call v; Ok (c, w)
    | In_class i => c ← f_invoke_class w t this i; Ok (c, w)
    | Nowhere => '(v, w) ← get_elsewhere w t this a_key; c ← f_call v; Ok (c, w)
    end.
Proof.
  intros Hw Ht. unfold f__invoke. rewrite f_index_ok by done. apply yields_ok.
  place t a_key Ht. case_tests; yields_steps.
Qed.

(** A look at the cached index: on a hit the branch is that of the name, and
    otherwise the access goes on. *)
Ltac hit t a_key Ht :=
  lazy zeta iota beta;
  lazymatch goal with |- ((lift (hits t ?b ?j a_key) ≫= _) _).1 = _ ∧ _ => rewrite (hits_index t b j a_key) end;
  [|first [done | lia | pose proof Ht as (_ & ? & _); unfold index_range in *; lia]..];
  rewrite lift_ok_at; let Hhit := fresh "Hhit" in case_bool_decide as Hhit;
  [rewrite (place_of_index t a_key Ht); cbn zeta; destruct Hhit as [? ->];
   pose proof Ht as (_ & ? & ?); unfold index_range in *; case_tests|lazy zeta iota beta].

Lemma f_get_yields w t this a_key :
  world_ok w → type_ok t →
  yields (f_get w t this a_key)
    match place_of t a_key with
    | In_instance i => v ← get_field w this i; Ok (v, w)
    | In_class i => get_class_field w t this i
    | Nowhere => get_elsewhere w t this a_key
    end.
Proof.
  intros Hw Ht. apply yields_index. intros i Hi. rewrite (class_index t i Ht Hi).
  hit t a_key Ht; [by apply yields_bind_lift; [intros; apply yields_lift|]|].
  hit t a_key Ht; [by apply yields_lift|]. by apply f__get_ok.
Qed.

Lemma f_bind_ok w t this a_key :
  world_ok w → type_ok t →
  yields (f_bind w t this a_key)
    match place_of t a_key with
    | In_instance i => v ← get_field w this i; Ok ((v, Null), w)
    | In_class i => b ← f_bind_class w t this i; Ok (b, w)
    | Nowhere => '(v, w) ← get_elsewhere w t this a_key; Ok ((v, Null), w)
    end.
Proof.
  intros Hw Ht. apply yields_index. intros i Hi. rewrite (class_index t i Ht Hi).
  hit t a_key Ht; [by apply yields_bind_lift; [intros; apply yields_lift|]|].
  hit t a_key Ht; [by apply yields_bind_lift; [intros; apply yields_lift|]|]. by apply f__bind_ok.
Qed.

Lemma f_put_yields w t p a_key v :
  type_ok t →
  yields (f_put w t p a_key v)
    match place_of t a_key with
    | In_instance i => put_field w p i v
    | _ => call_put w t p a_key v
    end.
Proof.
  intros Ht. apply yields_index. intros i Hi.
  hit t a_key Ht; [by apply yields_lift|]. by apply f__put_ok.
Qed.

Lemma f_has_yields t a_key :
  type_ok t →
  yields (f_has t a_key) (Ok (match place_of t a_key with Nowhere => false | _ => true end)).
Proof.
  intros Ht. apply yields_index. intros i Hi.
  hit t a_key Ht; [by apply yields_lift..|].
  rewrite f_index_ok, lift_ok_at by done. place t a_key Ht.
  case_tests; try (by apply yields_lift);
    (apply yields_set; [unfold index_range; lia|apply yields_lift|done]).
Qed.

Lemma f_invoke_ok w t this a_key :
  world_ok w → type_ok t →
  yields (f_invoke w t this a_key)
    match place_of t a_key with
    | In_instance i => v ← get_field w this i; c ← f_call v; Ok (c, w)
    | In_class i => c ← f_invoke_class w t this i; Ok (c, w)
    | Nowhere => '(v, w) ← get_elsewhere w t this a_key; c ← f_call v; Ok (c, w)
    end.
Proof.
  intros Hw Ht. apply yields_index. intros i Hi. rewrite (class_index t i Ht Hi).
  hit t a_key Ht; [by apply yields_bind_lift; [intros; apply yields_lift|]|].
  hit t a_key Ht; [by apply yields_bind_lift; [intros; yields_steps|]|]. by apply f__invoke_ok.
Qed.

Lemma perform_yields w a : world_ok w → yields (perform w a) (refer w a).
Proof.
  intros Hw. assert (∀ v t, type_of w v = Ok t → type_ok t) as Hty.
  { unfold type_of. intros v t (p & _ & Ht)%outcome_bind_ok. by eapply Hw. }
  destruct a as [this k|this k|this k v|this k|this k]; cbn [perform refer].
  - apply yields_bind_lift. intros t Ht%Hty. apply yields_bind; [by apply f_get_yields|]. intros [] _. apply yields_lift.
  - apply yields_bind_lift. intros t Ht%Hty. apply yields_bind; [by apply f_bind_ok|]. intros [] _. apply yields_lift.
  - apply yields_bind_lift. intros p _. apply yields_bind_lift. intros t Ht%Hty.
    apply yields_bind; [by apply f_put_yields|]. intros ? _. apply yields_lift.
  - destruct this; try apply yields_lift. apply yields_bind_lift. intros t Ht%Hty.
    change (Ok (Whether ?b)) with (b' ← Ok b; Ok (Whether b')) || idtac.
    intros i Hi. destruct (f_has_yields t k Ht i Hi) as [Hb Hi']. unfold mbind, cached_bind.
    destruct (f_has t k i) as [[b|e|] i'] eqn:E; cbn in *; [|done..]. by injection Hb as ->.
  - apply yields_bind_lift. intros t Ht%Hty. apply yields_bind; [by apply f_invoke_ok|]. intros [] _. apply yields_lift.
Qed.

(** ** A site of the program

    An instruction is executed any number of times, in whatever states other
    code leaves the store; its index starts as 0. *)
Fixpoint site (a_index : Z) (l : list (world * access)) : list (outcome answer) :=
  match l with
  | [] => []
  | (w, a) :: l => let '(r, a_index) := perform w a a_index in r :: site a_index l
  end.

Lemma site_ok a_index l :
  index_range a_index → Forall (λ x, world_ok x.1) l →
  site a_index l = map (λ x, refer x.1 x.2) l.
Proof.
  intros Hi Hl. revert a_index Hi. induction Hl as [|[w a] l Hw _ IH]; intros i Hi; [done|].
  cbn [site map fst snd]. destruct (perform_yields w a Hw i Hi) as [<- Hi'].
  destruct (perform w a i) as [r i']. cbn. f_equal. by apply IH.
Qed.
End agreement.

(** ** Properties *)

(** C9 (inline_caches_are_transparent): an instruction that accesses a member
    through its cached index, executed any number of times on any values, keys
    and well-formed stores, gives the results and the stores of a lookup by
    name that keeps nothing, errors included. *)
Theorem inline_caches_are_transparent `{Allocator} `{TypeNames} (l : list (world * access)) :
  Forall (λ x, world_ok x.1) l → site 0 l = map (λ x, refer x.1 x.2) l.
Proof. by apply site_ok. Qed.

(** The operators of [Object] are at their indices in every type. *)
Lemma operator_index `{Initializers} w T f_symbol native t t' op :
  Inj (=) (=) f_symbol → (∀ op, is_symbol w (f_symbol op) = true) →
  f_define w (boot_object T) f_symbol native = Ok t → descends w t t' →
  type_ok t' ∧ v_instance_fields t' + method_index op < v_fields t'
  ∧ index_of t' (f_symbol op) = v_instance_fields t' + method_index op.
Proof.
  intros Hinj Hs Hd Hdesc. destruct (f_define_ok w T f_symbol native t Hinj Hs Hd) as (Ht & Hvi & Hop).
  destruct (descends_layout w t t' Ht Hdesc) as (Ht' & Hk). split; [done|].
  specialize (Hk (method_index op) (f_symbol op)). rewrite Hvi in Hk. cbn [Z.add] in Hk.
  specialize (Hk ltac:(by destruct op) (Hop op)). pose proof Ht' as (_ & Hv & _).
  pose proof Hk as Hlt%lookup_lt_Some. rewrite length_fmap in Hlt.
  assert (0 ≤ method_index op) by by destruct op.
  split; [unfold v_fields; lia|]. apply index_of_field; [done|unfold v_fields; lia|].
  rewrite list_lookup_fmap in Hk. destruct (fields t' !! _) as [x|]; [|done].
  exists x. split; [done|]. by injection Hk.
Qed.

(** In every type that derives from
    [Object], however many times and with whatever fields, applying an operator
    through its fixed index binds or invokes the member that the operator's
    name denotes in that type, overridden or not. *)
Theorem operators_are_found_by_index `{Initializers} `{Allocator} `{TypeNames}
    w T f_symbol native t t' op a_this a_n :
  Inj (=) (=) f_symbol → (∀ op, is_symbol w (f_symbol op) = true) →
  f_define w (boot_object T) f_symbol native = Ok t → descends w t t' →
  type_of w (Object a_this) = Ok t' →
  f_do_method w op a_this a_n =
    ('(b, _) ← (f__bind w t' (Object a_this) (f_symbol op) 0).1; Ok (b, method_arguments op a_n))
  ∧ f_do_invoke_method w op a_this =
    ('(c, _) ← (f__invoke w t' (Object a_this) (f_symbol op) 0).1; Ok c).
Proof.
  intros Hinj Hs Hd Hdesc Hty.
  destruct (operator_index w T f_symbol native t t' op Hinj Hs Hd Hdesc) as (Ht' & Hlt & Hi).
  pose proof Ht' as (_ & Hv & _). assert (0 ≤ method_index op) by by destruct op.
  unfold type_of in Hty. apply outcome_bind_ok in Hty as (a & Ha & Hty).
  unfold f_do_method, f_do_invoke_method, f__bind, f__invoke.
  rewrite Ha, f_index_ok by done. cbn [mbind outcome_bind]. rewrite Hty, Hi, !lift_ok_at.
  cbn [mbind outcome_bind].
  destruct (Z.ltb_spec (v_instance_fields t' + method_index op) (v_instance_fields t')); [lia|].
  destruct (Z.ltb_spec (v_instance_fields t' + method_index op) (v_fields t')); [|lia].
  unfold mbind, cached_bind, lift, set_index. split.
  - by destruct (f_bind_class _ _ _ _).
  - by destruct (f_invoke_class _ _ _ _).
Qed.

Module Site.
Import Sample.

(** [point] at 20 with an instance at 30, [point3] at 50 with one at 60. *)
Definition site_world : world :=
  World (<[20 := Object' 2 [] (of_type point)]>
    (<[30 := Object' 20 [Integer 7] of_other]>
    (<[50 := Object' 2 [] (of_type point3)]>
    (<[60 := Object' 50 [Integer 8; Integer 9] of_other]> (objects sample_world)))))
    (λ _, 1) 2 4 3 0.

#[export] Instance site_allocator : Allocator.
Proof.
  refine {| allocate m := foldr Z.max c_tag__OBJECT ((map_to_list m).*1) + 1 |}.
  - intros m. apply eq_None_not_Some. intros [o Ho].
    set (l := (map_to_list m).*1) in *.
    assert (Hin : foldr Z.max c_tag__OBJECT l + 1 ∈ l).
    { apply list_elem_of_fmap. exists (foldr Z.max c_tag__OBJECT l + 1, o). split; [done|].
      by apply elem_of_map_to_list. }
    assert (Hmax : ∀ x, x ∈ l → x ≤ foldr Z.max c_tag__OBJECT l).
    { clear. induction l as [|y l IH]; intros x; [by intros []%not_elem_of_nil|].
      intros [->|Hx]%elem_of_cons; cbn; [lia|]. specialize (IH x Hx). lia. }
    specialize (Hmax _ Hin). lia.
  - intros m. induction ((map_to_list m).*1) as [|y l IH]; cbn; lia.
Defined.

#[export] Instance site_names : TypeNames := {| name_of_t_symbol := "N6xemmai8t_symbolE" |}.

Lemma site_world_ok : world_ok site_world.
Proof.
  assert (type_ok point3) as H3.
  { apply (derive_type_layout sample_world 50 point object_native Null point3_fields false point3);
      [exact point_ok|by repeat constructor|by vm_compute..]. }
  apply world_ok_map. unfold site_world, sample_world. cbn [objects].
  repeat (apply map_Forall_insert_2; [first [exact point_ok|exact H3|exact I]|]).
  apply map_Forall_empty.
Qed.

(** [Object], a type that overrides [__add], and an instance of it. *)
Definition f_symbol (op : operator) : Z := 200 + method_index op.
Definition native (op : operator) : value := Object 300.

#[export] Instance f_symbol_inj : Inj (=) (=) f_symbol.
Proof. intros op op'. unfold f_symbol. by destruct op, op'. Qed.

Definition symbol_world : world :=
  World (list_to_map (map (λ op, (f_symbol op, symbol_object "")) object_operators)) (λ _, 1) 2 4 3 0.

Definition get_ok {A} (d : A) (o : outcome A) : A := match o with Ok a => a | _ => d end.

Definition adding_fields : t_fields := Fields [] [(f_symbol op_add, Object 301)].

Definition object_type : t_type := Eval vm_compute in
  get_ok (boot_object object_native)
    (f_define symbol_world (boot_object object_native) f_symbol native).

Definition adding : t_type := Eval vm_compute in
  get_ok (boot_object object_native)
    (derive_type symbol_world 10 object_type object_native Null adding_fields false).

Definition adding_world : world :=
  World (<[11 := Object' 2 [] (of_type adding)]>
    (<[12 := Object' 2 [] (of_type (Type' object_native None Null 0 [] [] true))]>
    (<[70 := Object' 11 [] of_other]>
    (<[300 := Object' 12 [] of_other]> (<[301 := Object' 12 [] of_other]> (objects symbol_world))))))
    (λ _, 1) 2 4 3 0.
End Site.

Section witnesses.
Import Sample Site.

Lemma inline_caches_are_transparent_witness :
  site 0 [(site_world, Get (Object 30) 100); (site_world, Get (Object 60) 102);
          (site_world, Has (Object 60) 101); (site_world, Get (Object 30) 101)]
  = [Ok (Got (Integer 7) site_world); Ok (Got (Integer 2) site_world); Ok (Whether true);
     throw "undefined field: y"].
Proof.
  rewrite inline_caches_are_transparent.
  - reflexivity.
  - by repeat (apply Forall_cons_2; [exact site_world_ok|]).
Defined.

Lemma operators_are_found_by_index_witness :
  f_do_method adding_world op_add 70 1 = Ok ((Object 301, Object 70), 1)
  ∧ f_do_invoke_method adding_world op_string 70 = Ok (Call 300 (Some (Object 70))).
Proof.
  split.
  - rewrite (proj1 (operators_are_found_by_index adding_world object_native f_symbol native
      object_type adding op_add 70 1 _ ltac:(by intros []) ltac:(by vm_compute)
      ltac:(eapply (descends_derive _ _ 10 object_type object_native Null adding_fields false);
            [apply descends_refl|by repeat constructor|by vm_compute|by vm_compute])
      ltac:(by vm_compute))).
    by vm_compute.
  - rewrite (proj2 (operators_are_found_by_index adding_world object_native f_symbol native
      object_type adding op_string 70 0 _ ltac:(by intros []) ltac:(by vm_compute)
      ltac:(eapply (descends_derive _ _ 10 object_type object_native Null adding_fields false);
            [apply descends_refl|by repeat constructor|by vm_compute|by vm_compute])
      ltac:(by vm_compute))).
    by vm_compute.
Defined.
End witnesses.
