(* ===== verification/TypeSafety.v ===== *)
(** * Safety of the store of types and instances (Types.v)

    A well-formed store: every object has a type, as many fields as the type
    says, and the data that the overrides of its type expect.  Member accesses,
    derivations and constructions never leave the arrays of the store and keep
    it well formed. *)
From stdpp Require Import base gmap list numbers strings.
From S2P Require Import Prelude Machine Layout Types TypeLayout TypeAccess.
Local Open Scope Z_scope.

(** ** Well-formed stores *)

Definition value_ok (w : world) (v : value) : Prop :=
  match v with Object a => is_Some (objects w !! a) | _ => True end.

Definition fields_ok (w : world) (f : t_fields) : Prop :=
  symbols w (v_instance f ++ (v_class f).*1) ∧ Forall (value_ok w) (v_class f).*2.

Definition data_ok (w : world) (d : data) : Prop :=
  match d with
  | of_type t => type_ok t ∧ Forall (value_ok w) (fields t).*2
  | of_method f self => value_ok w (Object f) ∧ value_ok w self
  | of_builder b => match v_builder_fields b with Some f => fields_ok w f | None => True end
  | _ => True
  end.

(** What the overrides of a type expect of its instances. *)
Definition expected (T : t_native_type) (d : data) : Prop :=
  (v_get T = class_do_get → ∃ t, d = of_type t)
  ∧ (v_get T = builder_do_get ∨ v_put T = builder_do_put → ∃ b, d = of_builder b).

Definition object_ok (w : world) (o : t_object) : Prop :=
  (∃ t, type_at w (o_type o) = Ok t
     ∧ Z.of_nat (length (o_fields o)) = v_instance_fields t ∧ expected (v_native t) (o_data o))
  ∧ Forall (value_ok w) (o_fields o) ∧ data_ok w (o_data o)
  ∧ match o_data o with of_type _ => o_fields o = [] | _ => True end.

(** A type without instance fields or overrides: that of a tag or of
    methods. *)
Definition plain_type (w : world) (a : Z) : Prop :=
  ∃ t, type_at w a = Ok t ∧ v_instance_fields t = 0 ∧ type_ok t
    ∧ v_get (v_native t) = object_do_get ∧ v_put (v_native t) = object_do_put.

Definition heap_ok (w : world) : Prop :=
  (∀ a o, objects w !! a = Some o → object_ok w o)
  ∧ (∀ n, 0 ≤ n < c_tag__OBJECT → plain_type w (v_tag_types w n))
  ∧ plain_type w (type_of_method w)
  ∧ (∃ t, type_at w (type_of_builder w) = Ok t ∧ v_instance_fields t = 0
       ∧ v_get (v_native t) = builder_do_get ∧ v_put (v_native t) = builder_do_put).

(** ** Growing a store *)

(** What an object keeps for good: its type, and the data that other objects
    rely on. *)
Definition kept (o o' : t_object) : Prop :=
  o_type o' = o_type o
  ∧ match o_data o with
    | of_type _ | of_symbol _ => o_data o' = o_data o
    | _ => True
    end.

Definition extends (w w' : world) : Prop :=
  (∀ a o, objects w !! a = Some o → ∃ o', objects w' !! a = Some o' ∧ kept o o')
  ∧ v_tag_types w' = v_tag_types w ∧ type_of_method w' = type_of_method w
  ∧ type_of_builder w' = type_of_builder w ∧ type_of_type w' = type_of_type w.

Section extends.
Context (w w' : world) (He : extends w w').

Lemma extends_value v : value_ok w v → value_ok w' v.
Proof.
  destruct v; try done. intros [o Ho]. destruct He as [H _].
  destruct (H _ _ Ho) as (o' & ? & _). by exists o'.
Qed.

Lemma extends_values l : Forall (value_ok w) l → Forall (value_ok w') l.
Proof. intros H. eapply Forall_impl; [done|]. apply extends_value. Qed.

Lemma extends_type a t : type_at w a = Ok t → type_at w' a = Ok t.
Proof.
  unfold type_at, object_at. destruct (objects w !! a) as [o|] eqn:Eo; [|done]. cbn.
  intros Ht. destruct He as [H _]. destruct (H _ _ Eo) as (o' & -> & _ & Hk). cbn.
  destruct (o_data o); try done. by rewrite Hk.
Qed.

Lemma extends_plain a : plain_type w a → plain_type w' a.
Proof. intros (t & Ht & H). exists t. split; [by apply extends_type|done]. Qed.

Lemma extends_symbol a : is_symbol w a = true → is_symbol w' a = true.
Proof.
  unfold is_symbol. destruct (objects w !! a) as [o|] eqn:Eo; [|done].
  destruct He as [H _]. destruct (H _ _ Eo) as (o' & -> & _ & Hk).
  destruct (o_data o); try done. by rewrite Hk.
Qed.

Lemma extends_data d : data_ok w d → data_ok w' d.
Proof.
  destruct d as [t| |f v|[o [f|]]|]; cbn [data_ok v_builder_fields]; try done.
  - intros [? ?]. split; [done|by apply extends_values].
  - intros [? ?]. split; [by apply (extends_value (Object f))|by apply extends_value].
  - intros [Hs ?]. split; [|by apply extends_values].
    eapply Forall_impl; [exact Hs|]. apply extends_symbol.
Qed.

Lemma extends_object o : object_ok w o → object_ok w' o.
Proof.
  intros ((t & Ht & H) & Hf & Hd & Hn). split_and!; [|by apply extends_values|by apply extends_data|done].
  exists t. split; [by apply extends_type|done].
Qed.
End extends.

Lemma extends_trans w1 w2 w3 : extends w1 w2 → extends w2 w3 → extends w1 w3.
Proof.
  intros [Hk1 (? & ? & ? & ?)] [Hk2 (? & ? & ? & ?)]. split; [|split_and!; congruence].
  intros a o Ho. destruct (Hk1 a o Ho) as (o1 & Ho1 & Ht1 & Hd1).
  destruct (Hk2 a o1 Ho1) as (o2 & Ho2 & Ht2 & Hd2). exists o2. split; [done|].
  split; [congruence|]. destruct (o_data o); try done; rewrite Hd1 in Hd2; congruence.
Qed.

(** Writing an object that keeps what there was at its address. *)
Lemma heap_ok_insert w a o :
  heap_ok w → (∀ o', objects w !! a = Some o' → kept o' o) →
  let w' := with_objects w (<[a := o]> (objects w)) in
  (extends w w' → object_ok w' o) → heap_ok w' ∧ extends w w' ∧ value_ok w' (Object a).
Proof.
  intros (Ho & Ht & Hm & t & Htb & Hbt) Hk w' Hok.
  assert (He : extends w w').
  { split; [|done]. intros b o' Hb. unfold w'. cbn. destruct (decide (a = b)) as [<-|Hne].
    - exists o. rewrite lookup_insert_eq. eauto.
    - exists o'. rewrite lookup_insert_ne by done. repeat split; [done|]. by destruct (o_data o'). }
  split_and!; [split_and!|done|].
  - intros b o' Hb. unfold w' in Hb. cbn in Hb. apply lookup_insert_Some in Hb as [[<- <-]|[_ Hb]].
    + by apply Hok.
    + eapply extends_object; eauto.
  - intros n Hn. by apply (extends_plain w w' He), Ht.
  - by apply (extends_plain w w' He).
  - exists t. split; [by apply (extends_type w w' He)|done].
  - unfold w'. cbn. rewrite lookup_insert_eq. by eexists.
Qed.

Lemma heap_ok_allocate `{Allocator} w o :
  heap_ok w → let w' := with_objects w (<[allocate (objects w) := o]> (objects w)) in
  (extends w w' → object_ok w' o) →
  heap_ok w' ∧ extends w w' ∧ value_ok w' (Object (allocate (objects w))).
Proof.
  intros Hw w' Ho. apply heap_ok_insert; [done| |done]. intros o'. by rewrite allocate_fresh.
Qed.

Lemma heap_world_ok w : heap_ok w → world_ok w.
Proof.
  intros (Ho & _) a t Ht. unfold type_at, object_at in Ht.
  destruct (objects w !! a) as [o|] eqn:E; [|done]. cbn in Ht. destruct (o_data o) eqn:Ed; try done.
  injection Ht as ->. destruct (Ho _ _ E) as (_ & _ & Hd & _). rewrite Ed in Hd. apply Hd.
Qed.

(** ** Results *)

(** An operation throws, or returns a result that is right in a well-formed
    store that extends [w]; it does not fault. *)
Definition safe {A} (w : world) (Q : world → A → Prop) (o : outcome (A * world)) : Prop :=
  match o with
  | Ok (x, w') => heap_ok w' ∧ extends w w' ∧ Q w' x
  | Throw _ => True
  | Fault => False
  end.

Lemma extends_refl w : extends w w.
Proof. split; [|done]. intros a o Ho. exists o. repeat split; [done|]. by destruct (o_data o). Qed.

Lemma safe_ret {A} w (Q : world → A → Prop) x : heap_ok w → Q w x → safe w Q (Ok (x, w)).
Proof. intros. cbn. split_and!; [done|apply extends_refl|done]. Qed.

Lemma safe_weaken {A} w w1 (Q : world → A → Prop) o : extends w w1 → safe w1 Q o → safe w Q o.
Proof.
  intros He. destruct o as [[x w']| |]; cbn; try done. intros (? & ? & ?).
  split_and!; [done|by eapply extends_trans|done].
Qed.

Section operations.
Context `{Allocator} `{TypeNames}.

Lemma throw_undefined_safe {A} w k : ∃ e, f_throw_undefined_field (A := A) w k = Throw e.
Proof.
  unfold f_throw_undefined_field, f_check_symbol. destruct (is_symbol w k) eqn:E; [|by eexists].
  destruct (symbol_string_ok w k E) as [s Hs]. cbn. rewrite Hs. by eexists.
Qed.

Lemma type_values w a t : heap_ok w → type_at w a = Ok t → Forall (value_ok w) (fields t).*2.
Proof.
  intros (Ho & _) Ht. unfold type_at, object_at in Ht.
  destruct (objects w !! a) as [o|] eqn:E; [|done]. cbn in Ht. destruct (o_data o) eqn:Ed; try done.
  injection Ht as ->. destruct (Ho _ _ E) as (_ & _ & Hd & _). rewrite Ed in Hd. apply Hd.
Qed.

(** A field of a type, by its index. *)
Lemma rd_field w a t i :
  heap_ok w → type_at w a = Ok t → 0 ≤ i < v_fields t →
  ∃ k v, rd (fields t) i =@{outcome _} Ok (k, v) ∧ value_ok w v.
Proof.
  intros Hw Ht Hi. destruct (rd_ok (E := string) (fields t) i Hi) as ([k v] & Hx & Hr).
  exists k, v. split; [done|]. pose proof (type_values w a t Hw Ht) as Hv. rewrite Forall_forall in Hv.
  apply Hv. apply list_elem_of_fmap. exists (k, v). split; [done|]. by apply list_elem_of_lookup_2 in Hx.
Qed.

Lemma is_bindable_ok w v :
  heap_ok w → value_ok w v → ∃ b, f_is_bindable w v = Ok b ∧ (b = true → ∃ a, v = Object a).
Proof.
  intros (Ho & _) Hv. destruct v as [| | | |a]; try by exists false.
  destruct Hv as [o Ha]. destruct (Ho _ _ Ha) as ((t & Ht & _) & _).
  exists (v_bindable t). split; [|eauto]. unfold f_is_bindable, object_at. rewrite Ha. cbn. by rewrite Ht.
Qed.

(** The type of a value and its fields. *)
Lemma type_of_ok w v :
  heap_ok w → value_ok w v →
  ∃ a t, f_type w v = Ok a ∧ type_at w a = Ok t ∧ type_ok t
    ∧ match v with
      | Object p => ∃ o, objects w !! p = Some o ∧ o_type o = a
          ∧ Z.of_nat (length (o_fields o)) = v_instance_fields t ∧ expected (v_native t) (o_data o)
      | _ => plain_type w a
      end.
Proof.
  intros Hw Hv. pose proof Hw as (Ho & Ht & _). pose proof (heap_world_ok w Hw) as Hty.
  assert (Htag : ∀ n, 0 ≤ n < c_tag__OBJECT →
    ∃ a t, (Ok (v_tag_types w n) : outcome Z) = Ok a ∧ type_at w a = Ok t ∧ type_ok t ∧ plain_type w a).
  { intros n Hn. destruct (Ht n Hn) as (t & Hat & Hp). eexists _, t. split_and!; [done|done|by eapply Hty|by exists t]. }
  destruct v as [|[]| | |p]; [exact (Htag 0 ltac:(done))|exact (Htag 2 ltac:(done))|exact (Htag 1 ltac:(done))
    |exact (Htag 3 ltac:(done))|exact (Htag 4 ltac:(done))|].
  destruct Hv as [o Hp]. destruct (Ho _ _ Hp) as ((t & Hat & Hl & He) & _).
  exists (o_type o), t. unfold f_type, object_at. rewrite Hp. split_and!; [done|done|by eapply Hty|].
  by exists o.
Qed.

Lemma get_field_ok w v a t i :
  heap_ok w → value_ok w v → f_type w v = Ok a → type_at w a = Ok t → 0 ≤ i < v_instance_fields t →
  ∃ x, get_field w v i = Ok x ∧ value_ok w x.
Proof.
  intros Hw Hv Hf Ht Hi. destruct (type_of_ok w v Hw Hv) as (a' & t' & Hf' & Ht' & _ & Hob).
  simplify_eq. rewrite Hf in Hf'. simplify_eq. rewrite Ht in Ht'. simplify_eq.
  assert (plain_type w a' → False) as Hplain.
  { intros (t2 & Ht2 & Hz & _). rewrite Ht in Ht2. simplify_eq. lia. }
  destruct v as [| | | |p]; try by destruct Hplain.
  destruct Hob as (o & Hp & _ & Hl & _). unfold get_field, f_fields, object_at. rewrite Hp. cbn.
  destruct (rd_ok (E := string) (o_fields o) i ltac:(lia)) as (x & Hx & ->). exists x. split; [done|].
  destruct Hw as (Ho & _). destruct (Ho _ _ Hp) as (_ & Hfs & _).
  rewrite Forall_forall in Hfs. apply Hfs. by apply list_elem_of_lookup_2 in Hx.
Qed.

Lemma new_method_safe w f this :
  heap_ok w → value_ok w (Object f) → value_ok w this → safe w value_ok (new_method w (Object f) this).
Proof.
  intros Hw Hf Ht. cbn [new_method].
  set (o := Object' (type_of_method w) [] (of_method f this)).
  destruct (heap_ok_allocate w o Hw) as (? & ? & ?); [|by cbn; split_and!].
  intros He. pose proof Hw as (_ & _ & Hm & _). destruct (extends_plain _ _ He _ Hm) as (t & Hat & Hz & _ & Hg & Hp).
  split; [|split; [done|split; [|done]; split; [by apply (extends_value _ _ He (Object f))|by apply (extends_value _ _ He)]]].
  exists t. split_and!; [done|by rewrite Hz|]. split; rewrite ?Hg, ?Hp; [done|by intros []].
Qed.

Lemma get_class_field_safe w a t this i :
  heap_ok w → type_at w a = Ok t → value_ok w this → 0 ≤ i < v_fields t →
  safe w value_ok (get_class_field w t this i).
Proof.
  intros Hw Ht Hv Hi. unfold get_class_field.
  destruct (rd_field w a t i Hw Ht Hi) as (k & v & -> & Hvv). cbn [mbind outcome_bind snd].
  destruct (is_bindable_ok w v Hw Hvv) as ([] & -> & Hb); cbn [mbind outcome_bind].
  - destruct Hb as [f ->]; [done|]. by apply new_method_safe.
  - by apply safe_ret.
Qed.

Lemma class_member_safe w a k : heap_ok w → (∃ t, type_at w a = Ok t) → safe w value_ok (class_member w a k).
Proof.
  intros Hw [t Ht]. unfold class_member. rewrite Ht. cbn [mbind outcome_bind].
  pose proof (heap_world_ok w Hw a t Ht) as Hty. rewrite (place_of_index t k Hty). cbn zeta.
  pose proof (index_of_range t k Hty). destruct (@throw_undefined_safe (value * world) w k) as [e ->].
  case_tests; try done.
  destruct (rd_field w a t (index_of t k) Hw Ht ltac:(lia)) as (k' & v & -> & Hv). by apply safe_ret.
Qed.

Lemma set_builder_safe w a b f :
  heap_ok w → fields_ok w f → (∃ o, objects w !! a = Some o ∧ o_data o = of_builder b) →
  ∃ w', set_builder_fields w a b f = Ok w' ∧ heap_ok w' ∧ extends w w'.
Proof.
  intros Hw Hf (o & Ho & Hd). unfold set_builder_fields, object_at. rewrite Ho. eexists. split; [done|].
  destruct (heap_ok_insert w a (Object' (o_type o) (o_fields o) (of_builder (Builder (v_owner b) (Some f)))) Hw)
    as (? & ? & _); [..|done].
  - intros o'. rewrite Ho. intros [= <-]. split; [done|]. by rewrite Hd.
  - intros He. destruct Hw as (Hoo & _). pose proof (extends_object _ _ He _ (Hoo _ _ Ho)) as ((t & Ht & Hl & Hg & Hx) & Hv & _).
    rewrite Hd in *. split; [|split; [done|split; [|done]]]; [|by apply (extends_data _ _ He (of_builder (Builder (v_owner b) (Some f))))].
    exists t. split_and!; [done|done|]. split; cbn.
    + intros Hc. destruct (Hg Hc) as [? [=]].
    + by eexists.
Qed.

Lemma builder_fields_safe w a :
  heap_ok w → (∃ o b, objects w !! a = Some o ∧ o_data o = of_builder b) →
  (∃ b f o, builder_fields w a = Ok (b, f) ∧ fields_ok w f ∧ objects w !! a = Some o ∧ o_data o = of_builder b)
  ∨ ∃ e, builder_fields w a = Throw e.
Proof.
  intros (Ho & _) (o & b & Ha & Hb). unfold builder_fields, object_at. rewrite Ha. cbn. rewrite Hb.
  destruct (v_owner b =? current_thread w); [|right; by eexists].
  destruct (v_builder_fields b) as [f|] eqn:Ef; [|right; by eexists]. left. exists b, f, o. split_and!; try done.
  all: destruct (Ho _ _ Ha) as (_ & _ & Hd & _); rewrite Hb in Hd; cbn in Hd; rewrite Ef in Hd; apply Hd.
Qed.

Lemma builder_get_safe w a k :
  heap_ok w → (∃ o b, objects w !! a = Some o ∧ o_data o = of_builder b) →
  safe w value_ok (builder_f_do_get w a k).
Proof.
  intros Hw Hb. unfold builder_f_do_get, f_check_symbol.
  destruct (builder_fields_safe w a Hw Hb) as [(b & f & o & -> & [Hs Hv] & Ho & Hd)|[e ->]]; [|done].
  cbn [mbind outcome_bind]. destruct (is_symbol w k) eqn:Hk; [|done]. cbn [mbind outcome_bind].
  destruct (set_builder_safe w a b (Fields (v_instance f ++ [k]) (v_class f)) Hw) as (w' & -> & Hw' & He);
    [|by exists o|by cbn].
  split; [|done]. cbn. rewrite <- app_assoc. apply Forall_app in Hs as [? ?].
  apply Forall_app. split; [done|]. by constructor.
Qed.

Lemma builder_put_safe w a k v :
  heap_ok w → value_ok w v → (∃ o b, objects w !! a = Some o ∧ o_data o = of_builder b) →
  match builder_f_do_put w a k v with Ok w' => heap_ok w' ∧ extends w w' | Throw _ => True | Fault => False end.
Proof.
  intros Hw Hvv Hb. unfold builder_f_do_put, f_check_symbol.
  destruct (builder_fields_safe w a Hw Hb) as [(b & f & o & -> & [Hs Hv] & Ho & Hd)|[e ->]]; [|done].
  cbn [mbind outcome_bind]. destruct (is_symbol w k) eqn:Hk; [|done]. cbn [mbind outcome_bind].
  destruct (set_builder_safe w a b (Fields (v_instance f) (v_class f ++ [(k, v)])) Hw) as (w' & -> & Hw' & He);
    [|by exists o|done].
  split; cbn; rewrite fmap_app; [rewrite app_assoc|]; apply Forall_app; by repeat constructor.
Qed.

(** An object with its type. *)
Lemma typed w v t :
  heap_ok w → value_ok w v → type_of w v = Ok t →
  ∃ a, f_type w v = Ok a ∧ type_at w a = Ok t ∧ type_ok t
    ∧ match v with
      | Object p => ∃ o, objects w !! p = Some o ∧ o_type o = a
          ∧ Z.of_nat (length (o_fields o)) = v_instance_fields t ∧ expected (v_native t) (o_data o)
      | _ => v_get (v_native t) = object_do_get
      end.
Proof.
  intros Hw Hv Ht. destruct (type_of_ok w v Hw Hv) as (a & t' & Hf & Hat & Hty & Hob).
  unfold type_of in Ht. rewrite Hf in Ht. cbn in Ht. rewrite Hat in Ht. injection Ht as ->.
  exists a. split_and!; [done..|].
  destruct v; try done; destruct Hob as (t2 & Ht2 & _ & _ & Hg & _); rewrite Hat in Ht2; by injection Ht2 as ->.
Qed.

Lemma get_elsewhere_safe w v t k :
  heap_ok w → value_ok w v → type_of w v = Ok t → safe w value_ok (get_elsewhere w t v k).
Proof.
  intros Hw Hv Ht. destruct (typed w v t Hw Hv Ht) as (a & Hf & Hat & Hty & Hob).
  unfold get_elsewhere. destruct (v_get (v_native t)) eqn:Eg.
  - destruct (@throw_undefined_safe (value * world) w k) as [e Hth]. by destruct v; rewrite Hth.
  - destruct v; try done. destruct Hob as (o & Ho & _ & _ & [He _]). destruct (He Eg) as [t' Hd].
    apply class_member_safe; [done|]. exists t'. unfold type_at, object_at. by rewrite Ho; cbn; rewrite Hd.
  - destruct v; try done. destruct Hob as (o & Ho & _ & _ & [_ He]). destruct (He (or_introl Eg)) as [b Hd].
    apply builder_get_safe; [done|]. by exists o, b.
Qed.

Lemma call_put_safe w p t k v :
  heap_ok w → value_ok w (Object p) → type_of w (Object p) = Ok t → value_ok w v →
  match call_put w t p k v with Ok w' => heap_ok w' ∧ extends w w' | Throw _ => True | Fault => False end.
Proof.
  intros Hw Hp Ht Hv. destruct (typed w (Object p) t Hw Hp Ht) as (a & Hf & Hat & Hty & o & Ho & _ & _ & [_ He]).
  unfold call_put. destruct (v_put (v_native t)) eqn:Eg.
  - by destruct (@throw_undefined_safe world w k) as [e ->].
  - destruct (He (or_intror eq_refl)) as [b Hd]. apply builder_put_safe; [done..|]. by exists o, b.
Qed.

Lemma put_field_safe w p t i v :
  heap_ok w → value_ok w (Object p) → type_of w (Object p) = Ok t → value_ok w v →
  0 ≤ i < v_instance_fields t →
  ∃ w', put_field w p i v = Ok w' ∧ heap_ok w' ∧ extends w w'.
Proof.
  intros Hw Hp Ht Hv Hi. destruct (typed w (Object p) t Hw Hp Ht) as (a & Hf & Hat & Hty & o & Ho & Ha & Hl & He).
  unfold put_field, f_fields, set_fields, object_at. rewrite Ho. cbn [mbind outcome_bind].
  rewrite wr_ok by lia. cbn [mbind outcome_bind]. eexists. split; [done|].
  destruct (heap_ok_insert w p (Object' (o_type o) (<[Z.to_nat i := v]> (o_fields o)) (o_data o)) Hw)
    as (? & ? & _); [..|done].
  - intros o'. rewrite Ho. intros [= <-]. split; [done|]. by destruct (o_data o).
  - intros Hex. destruct Hw as (Hoo & _).
    pose proof (extends_object _ _ Hex _ (Hoo _ _ Ho)) as ((t' & Ht' & Hl' & He') & Hfs & Hd & Hn).
    split; [|split; [|split; [done|]]].
    + exists t'. cbn. by rewrite length_insert.
    + cbn. apply Forall_insert; [done|]. by apply (extends_value _ _ Hex).
    + cbn. destruct (o_data o); try done. by rewrite Hn.
Qed.

(** *** Member accesses *)

Definition access_ok (w : world) (a : access) : Prop :=
  match a with
  | Get v _ | Bind v _ | Has v _ | Invoke v _ => value_ok w v
  | Put v _ x => value_ok w v ∧ value_ok w x
  end.

Definition call_ok (w : world) (c : call) : Prop :=
  value_ok w (Object (callee c)) ∧ match receiver c with Some v => value_ok w v | None => True end.

(** What an answer holds is in the store that it leaves. *)
Definition answer_ok (w : world) (r : outcome answer) : Prop :=
  match r with
  | Ok (Got v w') => heap_ok w' ∧ extends w w' ∧ value_ok w' v
  | Ok (Bound b w') => heap_ok w' ∧ extends w w' ∧ value_ok w' (b.1) ∧ value_ok w' (b.2)
  | Ok (Done w') => heap_ok w' ∧ extends w w'
  | Ok (Whether _) => True
  | Ok (Invoked c w') => heap_ok w' ∧ extends w w' ∧ call_ok w' c
  | Throw _ => True
  | Fault => False
  end.

Lemma f_bind_class_safe w a t this i :
  heap_ok w → type_at w a = Ok t → value_ok w this → 0 ≤ i < v_fields t →
  ∃ b, f_bind_class w t this i = Ok b ∧ value_ok w (b.1) ∧ value_ok w (b.2).
Proof.
  intros Hw Ht Hv Hi. unfold f_bind_class.
  destruct (rd_field w a t i Hw Ht Hi) as (k & v & -> & Hvv). cbn [mbind outcome_bind snd].
  destruct (is_bindable_ok w v Hw Hvv) as (b & -> & _). cbn. eexists. split; [done|]. cbn. by destruct b.
Qed.

Lemma f_call_safe w v : value_ok w v → match f_call v with Ok c => call_ok w c | Throw _ => True | Fault => False end.
Proof. intros Hv. by destruct v. Qed.

Lemma f_invoke_class_safe w a t this i :
  heap_ok w → type_at w a = Ok t → value_ok w this → 0 ≤ i < v_fields t →
  match f_invoke_class w t this i with Ok c => call_ok w c | Throw _ => True | Fault => False end.
Proof.
  intros Hw Ht Hv Hi. unfold f_invoke_class.
  destruct (rd_field w a t i Hw Ht Hi) as (k & v & -> & Hvv). cbn [mbind outcome_bind snd].
  destruct v as [| | | |p]; try done. cbn [f_object_or_throw mbind outcome_bind].
  destruct (is_bindable_ok w (Object p) Hw Hvv) as (b & -> & _). cbn. split; [done|]. by destruct b.
Qed.

Lemma refer_safe w a : heap_ok w → access_ok w a → answer_ok w (refer w a).
Proof.
  intros Hw Ha. pose proof (extends_refl w) as Hr.
  assert (Hty : ∀ v, value_ok w v → ∃ p t, type_of w v = Ok t ∧ f_type w v = Ok p ∧ type_at w p = Ok t ∧ type_ok t).
  { intros v Hv. destruct (type_of_ok w v Hw Hv) as (p & t & Hf & Hat & Ht & _). exists p, t.
    split_and!; [|done..]. unfold type_of. by rewrite Hf. }
  destruct a as [v k|v k|v k x|v k|v k]; cbn [refer access_ok] in *.
  all: try (destruct Ha as [Ha Hx]).
  all: destruct (Hty v Ha) as (p & t & Hto & Hf & Hat & Ht).
  all: pose proof Ht as (_ & Hvi & _); pose proof (index_of_range t k Ht).
  - rewrite Hto. cbn [mbind outcome_bind]. rewrite (place_of_index t k Ht). cbn zeta. case_tests.
    + by destruct (get_field_ok w v p t (index_of t k) Hw Ha Hf Hat ltac:(lia)) as (y & -> & ?).
    + pose proof (get_class_field_safe w p t v (index_of t k) Hw Hat Ha ltac:(lia)) as Hs.
      by destruct (get_class_field _ _ _ _) as [[]| |].
    + pose proof (get_elsewhere_safe w v t k Hw Ha Hto) as Hs. by destruct (get_elsewhere _ _ _ _) as [[]| |].
  - rewrite Hto. cbn [mbind outcome_bind]. rewrite (place_of_index t k Ht). cbn zeta. case_tests.
    + by destruct (get_field_ok w v p t (index_of t k) Hw Ha Hf Hat ltac:(lia)) as (y & -> & ?).
    + by destruct (f_bind_class_safe w p t v (index_of t k) Hw Hat Ha ltac:(lia)) as (b & -> & ? & ?).
    + pose proof (get_elsewhere_safe w v t k Hw Ha Hto) as Hs. destruct (get_elsewhere _ _ _ _) as [[]| |]; try done.
      destruct Hs as (? & ? & ?). by cbn.
  - destruct v as [| | | |q]; try done. cbn [f_object_or_throw mbind outcome_bind]. rewrite Hto.
    cbn [mbind outcome_bind]. rewrite (place_of_index t k Ht). cbn zeta.
    pose proof (call_put_safe w q t k x Hw Ha Hto Hx) as Hcp.
    case_tests; [|by destruct (call_put _ _ _ _ _)..].
    by destruct (put_field_safe w q t (index_of t k) x Hw Ha Hto Hx ltac:(lia)) as (w' & -> & ? & ?).
  - destruct v; try done. rewrite Hto. by cbn.
  - rewrite Hto. cbn [mbind outcome_bind]. rewrite (place_of_index t k Ht). cbn zeta. case_tests.
    + destruct (get_field_ok w v p t (index_of t k) Hw Ha Hf Hat ltac:(lia)) as (y & -> & Hy).
      cbn [mbind outcome_bind]. pose proof (f_call_safe w y Hy). by destruct (f_call y).
    + pose proof (f_invoke_class_safe w p t v (index_of t k) Hw Hat Ha ltac:(lia)).
      by destruct (f_invoke_class _ _ _ _).
    + pose proof (get_elsewhere_safe w v t k Hw Ha Hto) as Hs. destruct (get_elsewhere _ _ _ _) as [[y w']| |]; try done.
      destruct Hs as (? & ? & Hy). cbn [mbind outcome_bind]. pose proof (f_call_safe w' y Hy). by destruct (f_call y).
Qed.
End operations.

(** ** Derivation and construction *)

Lemma put_class_values (P : value → Prop) F x : Forall P F.*2 → P (x.2) → Forall P (put_class F x).*2.
Proof.
  intros HF Hx. induction F as [|y F IH]; cbn; [by constructor|].
  apply Forall_cons in HF as [Hy HF]. destruct (y.1 =? x.1); constructor; auto.
Qed.

Lemma merged_values (P : value → Prop) t fs :
  P Null → Forall P (fields t).*2 → Forall P (v_class fs).*2 → Forall P (merged t fs).*2.
Proof.
  intros HN Ht Hc. unfold merged.
  assert (Forall P (take (Z.to_nat (v_instance_fields t)) (fields t) ++ blank (v_instance fs)
      ++ drop (Z.to_nat (v_instance_fields t)) (fields t)).*2) as HF.
  { rewrite !fmap_app, fmap_take, fmap_drop, !Forall_app. split_and!.
    - by apply Forall_take.
    - induction (v_instance fs); cbn; by constructor.
    - by apply Forall_drop. }
  revert HF Hc. generalize (take (Z.to_nat (v_instance_fields t)) (fields t) ++ blank (v_instance fs)
      ++ drop (Z.to_nat (v_instance_fields t)) (fields t)).
  induction (v_class fs) as [|x xs IH]; intros F HF Hc; cbn; [done|].
  apply Forall_cons in Hc as [Hx Hc]. apply IH; [by apply put_class_values|done].
Qed.

Section derivation.
Context `{Initializers} `{Allocator} `{TypeNames}.

Lemma f_derives_super w a a' t :
  type_at w a = Ok t → v_super t = Some a' → a ≠ a' → f_derives w a a' = Ok true.
Proof.
  intros Ht Hs Hne. unfold f_derives.
  assert (size (objects w) ≠ 0%nat) as Hsz.
  { unfold type_at, object_at in Ht. destruct (objects w !! a) eqn:E; [|done].
    intros Hz%map_size_empty_inv. by rewrite Hz, lookup_empty in E. }
  assert (f_derives_step w a' a = Ok (inl a')) as Hf1.
  { unfold f_derives_step. rewrite (proj2 (Z.eqb_neq a a') Hne), Ht. cbn. by rewrite Hs. }
  assert (f_derives_step w a' a' = Ok (inr true)) as Hf2
    by (unfold f_derives_step; by rewrite Z.eqb_refl).
  destruct (size (objects w)) as [|n]; [done|]. cbn [loop]. rewrite Hf1. cbn. by rewrite Hf2.
Qed.

Lemma f_do_derive_safe w a t fs :
  heap_ok w → type_at w a = Ok t → fields_ok w fs → room t fs →
  safe w (λ w' a', (∃ t', type_at w' a' = Ok t' ∧ v_super t' = Some a ∧ v_native t' = v_native t)
               ∧ f_derives w' a' a = Ok true)
    (f_do_derive w a fs).
Proof.
  intros Hw Ht [Hs Hv] Hr. pose proof (heap_world_ok w Hw a t Ht) as Hty.
  unfold f_do_derive, f_derive. rewrite Ht. cbn [mbind outcome_bind].
  pose proof (f_merge_ok w t fs Hty Hs) as Hm.
  destruct (derive_type w a t (v_native t) (v_module t) fs false) as [t'| |] eqn:Hd; cbn [mbind outcome_bind].
  - unfold type_at in Ht. destruct (object_at w a) as [o| |] eqn:Ho; try done. cbn [mbind outcome_bind] in *.
    unfold object_at in Ho. destruct (objects w !! a) as [o'|] eqn:Ea; [|done]. injection Ho as ->.
    destruct (derive_type_inv w a t _ _ fs false t' Hty Hs Hd) as (_ & _ & _ & HF & Hsu & Hn & _).
    destruct (derive_type_layout w a t _ _ fs false t' Hty Hs Hr Hd) as (Hty' & _).
    destruct (heap_ok_allocate w (Object' (o_type o) [] (of_type t')) Hw) as (? & He & ?).
    + intros He. pose proof Hw as (Hoo & _). pose proof (Hoo _ _ Ea) as Hoa.
      pose proof (extends_object _ _ He _ Hoa) as ((tc & Htc & Hl & [He1 He2]) & _ & _ & Hnil).
      destruct (o_data o) as [t0| | | |] eqn:Edo; try done. injection Ht as ->.
      split; [|split; [done|split; [|done]]].
      * exists tc. split_and!; [done|by rewrite <- Hl, Hnil|]. split; [by eexists|].
        intros Hb. by destruct (He2 Hb).
      * split; [done|]. apply (extends_values _ _ He). rewrite HF by done.
        apply merged_values; [done| |done]. eapply (type_values w a); [done|].
        unfold type_at, object_at. rewrite Ea. cbn. by rewrite Edo.
    + cbn [safe]. split_and!; [done..| |].
      * exists t'. split; [|done]. unfold type_at, object_at. cbn. by rewrite lookup_insert_eq.
      * apply (f_derives_super _ _ a t'); [|done|].
        -- unfold type_at, object_at. cbn. by rewrite lookup_insert_eq.
        -- intros Heq. pose proof (allocate_fresh (objects w)) as Hf. congruence.
  - done.
  - unfold derive_type in Hd. destruct (compatible t fs).
    + destruct Hm as (m & Hm & _). rewrite Hm in Hd. done.
    + destruct Hm as (e & Hm). rewrite Hm in Hd. done.
Qed.

Lemma f_do_construct_safe w a t :
  heap_ok w → type_at w a = Ok t →
  v_get (v_native t) = object_do_get → v_put (v_native t) = object_do_put →
  safe w (λ w' v, value_ok w' v ∧ ∃ p o, v = Object p ∧ objects w' !! p = Some o ∧ o_type o = a
            ∧ o_fields o = replicate (Z.to_nat (v_instance_fields t)) Null)
    (f_do_construct w a).
Proof.
  intros Hw Ht Hg Hp. unfold f_do_construct. rewrite Ht. cbn [mbind outcome_bind].
  pose proof (heap_world_ok w Hw a t Ht) as (_ & Hvi & _).
  destruct (heap_ok_allocate w (Object' a (replicate (Z.to_nat (v_instance_fields t)) Null) of_other) Hw) as (? & ? & ?).
  - intros He. split; [|split; [|done]].
    + exists t. split_and!; [by apply (extends_type _ _ He)|cbn; rewrite length_replicate; lia|].
      split; rewrite ?Hg, ?Hp; [done|by intros []].
    + by apply Forall_replicate.
  - cbn. split_and!; [done..|]. eexists _, _. split; [done|]. split; [apply lookup_insert_eq|done].
Qed.

Lemma f_do_instantiate_safe w a t :
  heap_ok w → type_at w a = Ok t → v_instance_fields t < v_fields t →
  v_get (v_native t) = object_do_get → v_put (v_native t) = object_do_put →
  safe w (λ w' '(v, c), value_ok w' v ∧ call_ok w' c) (f_do_instantiate w a).
Proof.
  intros Hw Ht Hlt Hg Hp. unfold f_do_instantiate.
  pose proof (f_do_construct_safe w a t Hw Ht Hg Hp) as Hc.
  destruct (f_do_construct w a) as [[v w']| |]; try done. cbn [mbind outcome_bind].
  destruct Hc as (Hw' & He & Hv & _). pose proof (extends_type _ _ He _ _ Ht) as Ht'. rewrite Ht'. cbn [mbind outcome_bind].
  pose proof (heap_world_ok w Hw a t Ht) as (_ & Hvi & _).
  pose proof (f_invoke_class_safe w' a t v (v_instance_fields t) Hw' Ht' Hv ltac:(lia)) as Hi.
  by destruct (f_invoke_class _ _ _ _).
Qed.

(** ** Class bodies *)

(** What a class body does with its builder: [$x] and [$x = v]. *)
Inductive declaration :=
| Declare_instance (a_key : Z)
| Declare_class (a_key : Z) (a_value : value).

Definition declare (w : world) (builder : Z) (d : declaration) : outcome world :=
  match d with
  | Declare_instance k =>
    r ← (perform w (Get (Object builder) k) 0).1;
    match r with Got _ w => Ok w | _ => Fault end
  | Declare_class k v =>
    r ← (perform w (Put (Object builder) k v) 0).1;
    match r with Done w => Ok w | _ => Fault end
  end.

Definition class_body (ds : list declaration) (w : world) (builder : Z) : outcome world :=
  fold_calls (λ w d, declare w builder d) w ds.

Definition declared (d : declaration) : t_fields :=
  match d with
  | Declare_instance k => Fields [k] []
  | Declare_class k v => Fields [] [(k, v)]
  end.

(** The fields that a body declares, in order. *)
Definition declarations (ds : list declaration) : t_fields :=
  Fields (d ← ds; v_instance (declared d)) (d ← ds; v_class (declared d)).

(** A declaration names a symbol, and an instance field must not have the name
    of a member of builders, which the access would find instead. *)
Definition declarable (w : world) (t : t_type) (d : declaration) : Prop :=
  match d with
  | Declare_instance k => is_symbol w k = true ∧ k ∉ (fields t).*1
  | Declare_class k _ => is_symbol w k = true
  end.

(** The store with a builder of the running thread. *)
Definition with_builder (w : world) (b : Z) (f : option t_fields) : world :=
  with_objects w (<[b := Object' (type_of_builder w) [] (of_builder (Builder (current_thread w) f))]> (objects w)).

Definition builder_type (w : world) (t : t_type) : Prop :=
  type_at w (type_of_builder w) = Ok t ∧ v_instance_fields t = 0
  ∧ v_get (v_native t) = builder_do_get ∧ v_put (v_native t) = builder_do_put.

Lemma declare_ok w b t f d :
  world_ok w → objects w !! b = None → builder_type w t → declarable w t d →
  declare (with_builder w b (Some f)) b d =
    Ok (with_builder w b (Some (Fields (v_instance f ++ v_instance (declared d))
                                       (v_class f ++ v_class (declared d))))).
Proof.
  intros Hw Hb (Ht & Hvi & Hg & Hp) Hd. set (wb := with_builder w b (Some f)).
  assert (Hat : ∀ a t', type_at w a = Ok t' → type_at wb a = Ok t').
  { intros a t'. unfold type_at, object_at, wb, with_builder. cbn. destruct (decide (b = a)) as [<-|].
    - by rewrite Hb. - by rewrite lookup_insert_ne. }
  assert (Hsym : ∀ k, is_symbol w k = true → is_symbol wb k = true).
  { intros k. unfold is_symbol, wb, with_builder. cbn. destruct (decide (b = k)) as [<-|].
    - by rewrite Hb. - by rewrite lookup_insert_ne. }
  assert (Hwb : world_ok wb).
  { intros a t'. unfold type_at, object_at, wb, with_builder. cbn. destruct (decide (b = a)) as [<-|].
    - by rewrite lookup_insert_eq.
    - rewrite lookup_insert_ne by done. apply Hw. }
  assert (Hty : type_of wb (Object b) = Ok t).
  { unfold type_of, f_type, object_at, wb, with_builder. cbn. rewrite lookup_insert_eq. cbn. by apply Hat. }
  assert (Hbf : builder_fields wb b = Ok (Builder (current_thread w) (Some f), f)).
  { unfold builder_fields, object_at, wb, with_builder. cbn. rewrite lookup_insert_eq. cbn. by rewrite Z.eqb_refl. }
  assert (Hset : ∀ f', set_builder_fields wb b (Builder (current_thread w) (Some f)) f' = Ok (with_builder w b (Some f'))).
  { intros f'. unfold set_builder_fields, object_at, wb, with_builder, with_objects. cbn. rewrite lookup_insert_eq. cbn.
    by rewrite insert_insert_eq. }
  pose proof (Hw _ _ Ht) as Hto.
  destruct d as [k|k v]; cbn [declare declared v_instance v_class].
  - destruct Hd as [Hk Hn]. rewrite (proj1 (perform_yields wb _ Hwb 0 ltac:(split; done))). cbn [refer].
    rewrite Hty. cbn [mbind outcome_bind]. rewrite (place_of_index t k Hto). cbn zeta.
    apply (index_of_absent t k Hto) in Hn. pose proof Hto as (_ & Hv & _). rewrite Hn. case_tests.
    unfold get_elsewhere. rewrite Hg. unfold builder_f_do_get, f_check_symbol.
    rewrite Hbf. cbn [mbind outcome_bind]. rewrite (Hsym k Hk). cbn [mbind outcome_bind].
    rewrite Hset. cbn. by rewrite app_nil_r.
  - rewrite (proj1 (perform_yields wb _ Hwb 0 ltac:(split; done))). cbn [refer f_object_or_throw mbind outcome_bind].
    rewrite Hty. cbn [mbind outcome_bind]. rewrite (place_of_index t k Hto). cbn zeta.
    pose proof (index_of_range t k Hto). rewrite Hvi.
    assert (Hcp : call_put wb t b k v = Ok (with_builder w b (Some (Fields (v_instance f) (v_class f ++ [(k, v)]))))).
    { unfold call_put. rewrite Hp. unfold builder_f_do_put, f_check_symbol. rewrite Hbf. cbn [mbind outcome_bind].
      rewrite (Hsym k Hd). cbn [mbind outcome_bind]. apply Hset. }
    case_tests; rewrite Hcp; cbn; by rewrite app_nil_r.
Qed.

Lemma class_body_ok w b t ds f :
  world_ok w → objects w !! b = None → builder_type w t → Forall (declarable w t) ds →
  class_body ds (with_builder w b (Some f)) b =
    Ok (with_builder w b (Some (Fields (v_instance f ++ v_instance (declarations ds))
                                       (v_class f ++ v_class (declarations ds))))).
Proof.
  intros Hw Hb Ht Hds. revert f. induction Hds as [|d ds Hd _ IH]; intros f.
  - cbn. rewrite !app_nil_r. by destruct f.
  - unfold class_body in *. cbn [fold_calls]. rewrite (declare_ok w b t f d Hw Hb Ht Hd).
    cbn [mbind outcome_bind]. rewrite IH. cbn. by rewrite <- !app_assoc.
Qed.
End derivation.

(** ** Properties *)

(** C37 (member_access_is_safe): in a well-formed store, reading, binding,
    writing, testing or invoking a member of any value with any key, through
    any cached index, stays inside the arrays of the store: it throws, or
    leaves a well-formed store that extends the old one and an answer that
    refers to objects of it. *)
Theorem member_access_is_safe `{Allocator} `{TypeNames} w a i :
  heap_ok w → access_ok w a → index_range i →
  answer_ok w (perform w a i).1 ∧ index_range (perform w a i).2.
Proof.
  intros Hw Ha Hi. destruct (perform_yields w a (heap_world_ok w Hw) i Hi) as [-> Hi'].
  split; [by apply refer_safe|done].
Qed.

(** C38 (types_stay_well_formed): deriving a type, making an instance and
    instantiating throw or leave a well-formed store: the new type is below its
    base, the new instance has as many empty fields as its type declares, and
    the call of [__initialize] finds its function. *)
Theorem types_stay_well_formed `{Initializers} `{Allocator} `{TypeNames} w a t fs :
  heap_ok w → type_at w a = Ok t →
  (fields_ok w fs → room t fs →
     safe w (λ w' a', (∃ t', type_at w' a' = Ok t' ∧ v_super t' = Some a ∧ v_native t' = v_native t)
               ∧ f_derives w' a' a = Ok true)
       (f_do_derive w a fs))
  ∧ (v_get (v_native t) = object_do_get → v_put (v_native t) = object_do_put →
     safe w (λ w' v, value_ok w' v ∧ ∃ p o, v = Object p ∧ objects w' !! p = Some o ∧ o_type o = a
               ∧ o_fields o = replicate (Z.to_nat (v_instance_fields t)) Null)
       (f_do_construct w a)
     ∧ (v_instance_fields t < v_fields t →
        safe w (λ w' '(v, c), value_ok w' v ∧ call_ok w' c) (f_do_instantiate w a))).
Proof.
  intros Hw Ht. split.
  - by apply f_do_derive_safe.
  - intros Hg Hp. split; [by eapply f_do_construct_safe|]. intros. by eapply f_do_instantiate_safe.
Qed.

(** Running a class body with its builder collects
    exactly the instance fields and the class fields that the body declares, in
    order, and derives the class with them; a class that is not derivable
    throws. *)
Theorem class_body_declares `{Initializers} `{Allocator} `{TypeNames} w a p t ds :
  world_ok w → builder_type w t → Forall (declarable w t) ds → type_at w a = Ok p →
  f_do_add w a (class_body ds) =
    if v_derivable (v_native p) then
      f_do_derive (with_builder w (allocate (objects w)) None) a (declarations ds)
    else throw "underivable.".
Proof.
  intros Hw Ht Hds Hp. unfold f_do_add, f_do. rewrite Hp. cbn [mbind outcome_bind].
  destruct (v_derivable (v_native p)); [|done].
  fold (with_builder w (allocate (objects w)) (Some (Fields [] []))).
  rewrite (class_body_ok w (allocate (objects w)) t ds _ Hw (allocate_fresh _) Ht Hds). cbn [mbind outcome_bind v_instance v_class app].
  assert (Hob : ∀ f b, object_at (with_builder w b f) b =
      Ok (Object' (type_of_builder w) [] (of_builder (Builder (current_thread w) f)))).
  { intros f b. unfold object_at, with_builder. cbn. by rewrite lookup_insert_eq. }
  rewrite Hob. cbn [mbind outcome_bind o_data o_type o_fields].
  unfold with_builder, with_objects. cbn. by rewrite insert_insert_eq.
Qed.

Module Store.
Import Sample Site.

Definition class_type : t_type := Type' (NativeType 0 class_do_get object_do_put false) None Null 0 [] [] false.
Definition plain : t_type := Type' object_native None Null 0 [] [] false.
Definition builder_t : t_type := Type' (NativeType 16 builder_do_get builder_do_put false) None Null 0 [] [] false.

Definition store_objects : list (Z * t_object) :=
  [(5, Object' 5 [] (of_type class_type));
   (6, Object' 5 [] (of_type plain));
   (7, Object' 5 [] (of_type builder_t));
   (20, Object' 5 [] (of_type point));
   (30, Object' 20 [Integer 7] of_other);
   (100, Object' 6 [] (of_symbol "x"));
   (101, Object' 6 [] (of_symbol "y"));
   (102, Object' 6 [] (of_symbol "move"))].

Definition store : world := World (list_to_map store_objects) (λ _, 6) 6 7 5 0.

Lemma empty_type_ok T : type_ok (Type' T None Null 0 [] [] false).
Proof. apply (boot_object_ok T). Qed.

Lemma store_ok : heap_ok store.
Proof.
  assert (Hpl : plain_type store 6) by (exists plain; split_and!; try done; apply empty_type_ok).
  split; [|split; [done|split; [done|by exists builder_t]]].
  intros a o Ho. apply elem_of_list_to_map_2 in Ho.
  assert (Hobj : ∀ t d l, type_at store (match d with of_other => 20 | of_symbol _ => 6 | _ => 5 end) = Ok t →
    Z.of_nat (length l) = v_instance_fields t → expected (v_native t) d → Forall (value_ok store) l → data_ok store d →
    match d with of_type _ => l = [] | _ => True end →
    object_ok store (Object' (match d with of_other => 20 | of_symbol _ => 6 | _ => 5 end) l d)).
  { intros t d l ? ? ? ? ? ?. split_and!; try done. exists t. done. }
  assert (Hex : ∀ t', expected (v_native class_type) (of_type t')).
  { intros t'. split; [by eexists|by intros []]. }
  repeat (apply elem_of_cons in Ho as [[= -> ->]|Ho]); [..|by apply not_elem_of_nil in Ho].
  - apply (Hobj class_type (of_type class_type)); try done. split; [apply empty_type_ok|done].
  - apply (Hobj class_type (of_type plain)); try done. split; [apply empty_type_ok|done].
  - apply (Hobj class_type (of_type builder_t)); try done. split; [apply empty_type_ok|done].
  - apply (Hobj class_type (of_type point)); try done. split; [exact point_ok|by repeat constructor].
  - apply (Hobj point of_other); try done; [split; [done|by intros []]|by repeat constructor].
  - apply (Hobj plain (of_symbol "x")); try done. split; [done|by intros []].
  - apply (Hobj plain (of_symbol "y")); try done. split; [done|by intros []].
  - apply (Hobj plain (of_symbol "move")); try done. split; [done|by intros []].
Qed.
End Store.

Section witnesses.
Import Sample Site Store.

Lemma member_access_is_safe_witness :
  answer_ok store (perform store (Put (Object 30) 100 (Integer 8)) 0).1
  ∧ answer_ok store (perform store (Get (Object 20) 102) 5).1.
Proof.
  split.
  - exact (proj1 (member_access_is_safe store (Put (Object 30) 100 (Integer 8)) 0 store_ok
      ltac:(split; [by eexists|done]) ltac:(done))).
  - exact (proj1 (member_access_is_safe store (Get (Object 20) 102) 5 store_ok
      ltac:(by eexists) ltac:(done))).
Defined.

Lemma types_stay_well_formed_witness :
  safe store (λ w' a', (∃ t', type_at w' a' = Ok t' ∧ v_super t' = Some 20 ∧ v_native t' = object_native)
      ∧ f_derives w' a' 20 = Ok true)
    (f_do_derive store 20 (Fields [101] [(102, Object 30)])).
Proof.
  refine (proj1 (types_stay_well_formed store 20 point (Fields [101] [(102, Object 30)]) store_ok eq_refl) _ _).
  - split; [by repeat constructor|]. constructor; [by eexists|constructor].
  - done.
Defined.

Lemma class_body_declares_witness :
  f_do_add store 20 (class_body [Declare_instance 101; Declare_class 102 (Integer 2)]) =
  f_do_derive (with_builder store (allocate (objects store)) None) 20 (Fields [101] [(102, Integer 2)]).
Proof.
  exact (class_body_declares store 20 point builder_t
    [Declare_instance 101; Declare_class 102 (Integer 2)]
    (heap_world_ok _ store_ok) ltac:(by repeat split)
    ltac:(repeat constructor; apply not_elem_of_nil) eq_refl).
Defined.
End witnesses.
