(* ===== verification/Operators.v ===== *)
(** * Operators on numbers (src: src/code_operator.h, src/code.cc, src/ast.cc,
    src/integer.cc, include/xemmai/integer.h, include/xemmai/float.h,
    src/float.cc, include/xemmai/global.h)

    A binary operator on numbers has four implementations: the compiler folds
    it on constants, the interpreter has an instruction for every combination
    of the kinds of its operands, the number types have native methods, and the
    runtime library calls it on values.  This file holds all four. *)
From stdpp Require Import base numbers strings.
From S2P Require Import Prelude Machine Layout Types.
Local Open Scope Z_scope.

(** ** The operators of C++ *)

(** The operators, as the instructions name them. *)
Inductive binary : Type :=
| MULTIPLY | DIVIDE | MODULUS | ADD | SUBTRACT | LEFT_SHIFT | RIGHT_SHIFT
| LESS | LESS_EQUAL | GREATER | GREATER_EQUAL
| EQUALS | NOT_EQUALS | IDENTICAL | NOT_IDENTICAL
| AND | XOR | OR.

#[export] Instance binary_eq_dec : EqDecision binary.
Proof. solve_decision. Defined.

(** A C++ number of type [intptr_t], [uintptr_t] or [double]. *)
Inductive number := I (z : Z) | U (z : Z) | D (d : double).

(** Signed overflow, division by zero and shifts by a negative or large count
    are undefined. *)
Definition checked (z : Z) : outcome Z := if decide (is_intptr z) then Ok z else Fault.

Definition shift_ok (n : Z) : Prop := 0 ≤ n < 64.

#[export] Instance shift_ok_dec n : Decision (shift_ok n).
Proof. unfold shift_ok. apply _. Defined.

Definition signed (op : binary) (x y : Z) : outcome value :=
  match op with
  | MULTIPLY => z ← checked (x * y); Ok (Integer z)
  | DIVIDE => if y =? 0 then Fault else z ← checked (Z.quot x y); Ok (Integer z)
  | MODULUS => if y =? 0 then Fault else _ ← checked (Z.quot x y); Ok (Integer (Z.rem x y))
  | ADD => z ← checked (x + y); Ok (Integer z)
  | SUBTRACT => z ← checked (x - y); Ok (Integer z)
  | LEFT_SHIFT => if decide (shift_ok y) then Ok (Integer (to_intptr (Z.shiftl x y))) else Fault
  | RIGHT_SHIFT => if decide (shift_ok y) then Ok (Integer (Z.shiftr x y)) else Fault
  | LESS => Ok (Boolean (x <? y))
  | LESS_EQUAL => Ok (Boolean (x <=? y))
  | GREATER => Ok (Boolean (y <? x))
  | GREATER_EQUAL => Ok (Boolean (y <=? x))
  | EQUALS | IDENTICAL => Ok (Boolean (x =? y))
  | NOT_EQUALS | NOT_IDENTICAL => Ok (Boolean (negb (x =? y)))
  | AND => Ok (Integer (Z.land x y))
  | XOR => Ok (Integer (Z.lxor x y))
  | OR => Ok (Integer (Z.lor x y))
  end.

(** An unsigned operator, whose result becomes an [intptr_t]; the count of a
    shift is not converted. *)
Definition unsigned (op : binary) (x y : Z) : outcome value :=
  let a := to_size x in
  let b := to_size y in
  match op with
  | MULTIPLY => Ok (Integer (to_intptr (a * b)))
  | DIVIDE => if b =? 0 then Fault else Ok (Integer (to_intptr (a / b)))
  | MODULUS => if b =? 0 then Fault else Ok (Integer (to_intptr (a mod b)))
  | ADD => Ok (Integer (to_intptr (a + b)))
  | SUBTRACT => Ok (Integer (to_intptr (a - b)))
  | LEFT_SHIFT => if decide (shift_ok y) then Ok (Integer (to_intptr (Z.shiftl a y))) else Fault
  | RIGHT_SHIFT => if decide (shift_ok y) then Ok (Integer (to_intptr (Z.shiftr a y))) else Fault
  | LESS => Ok (Boolean (a <? b))
  | LESS_EQUAL => Ok (Boolean (a <=? b))
  | GREATER => Ok (Boolean (b <? a))
  | GREATER_EQUAL => Ok (Boolean (b <=? a))
  | EQUALS | IDENTICAL => Ok (Boolean (a =? b))
  | NOT_EQUALS | NOT_IDENTICAL => Ok (Boolean (negb (a =? b)))
  | AND => Ok (Integer (to_intptr (Z.land a b)))
  | XOR => Ok (Integer (to_intptr (Z.lxor a b)))
  | OR => Ok (Integer (to_intptr (Z.lor a b)))
  end.

(** C++ has no other operators on [double]. *)
Definition floating (op : binary) (x y : double) : outcome value :=
  match op with
  | MULTIPLY => Ok (Float (d_mul x y))
  | DIVIDE => Ok (Float (d_div x y))
  | ADD => Ok (Float (d_add x y))
  | SUBTRACT => Ok (Float (d_sub x y))
  | LESS => Ok (Boolean (d_lt x y))
  | LESS_EQUAL => Ok (Boolean (d_le x y))
  | GREATER => Ok (Boolean (d_lt y x))
  | GREATER_EQUAL => Ok (Boolean (d_le y x))
  | EQUALS | IDENTICAL => Ok (Boolean (d_eq x y))
  | NOT_EQUALS | NOT_IDENTICAL => Ok (Boolean (negb (d_eq x y)))
  | _ => Fault
  end.

(** The usual arithmetic conversions; a shift has the type of its left
    operand. *)
Definition apply (op : binary) (x y : number) : outcome value :=
  match x, y with
  | D x, D y => floating op x y
  | D x, (I y | U y) => floating op x (d_of y)
  | (I x | U x), D y => floating op (d_of x) y
  | I x, I y => signed op x y
  | U x, (I y | U y) => unsigned op x y
  | I x, U y =>
    match op with LEFT_SHIFT | RIGHT_SHIFT => signed op x y | _ => unsigned op x y end
  end.

(** ** The instructions *)

(** The groups of operators that the macros of [code_operator.h] define
    alike. *)
Inductive group := ARITHMETIC | INTEGRAL | EQUALITY | IDENTITY | BITWISE.

Definition group_of (op : binary) : group :=
  match op with
  | MULTIPLY | DIVIDE | ADD | SUBTRACT | LESS | LESS_EQUAL | GREATER | GREATER_EQUAL => ARITHMETIC
  | MODULUS | LEFT_SHIFT | RIGHT_SHIFT => INTEGRAL
  | EQUALS | NOT_EQUALS => EQUALITY
  | IDENTICAL | NOT_IDENTICAL => IDENTITY
  | AND | XOR | OR => BITWISE
  end.

(** The [a_operator] of equality and identity: nothing, or [!]. *)
Definition sign (op : binary) (b : bool) : bool :=
  match op with NOT_EQUALS | NOT_IDENTICAL => negb b | _ => b end.

(** The objects that hold numbers: those whose types derive from [Integer] and
    those whose types derive from [Float]. *)
Class Numbers := {
  integer_of : Z → option Z;
  float_of : Z → option double
}.

(** What an instruction does: it has a value, or it calls the method of the
    left operand with the right one. *)
Inductive effect := Value (v : value) | Method (a0 : Z) (op : binary) (a1 : value).

Definition not_supported {A} : outcome A := throw "not supported.".

Definition PRIMITIVE_CALL (v : outcome value) : outcome effect := x ← v; Ok (Value x).

Definition boolean (b : bool) : outcome effect := Ok (Value (Boolean b)).

Section operators.
Context `{Numbers}.

(** [f_as<bool>]. *)
Definition f_boolean (v : value) : bool := 2 <=? f_tag v.

Definition OBJECT_OR_THROW (op : binary) (a0 a1 : value) : outcome effect :=
  match a0 with Object p => Ok (Method p op a1) | _ => not_supported end.

Definition OBJECT_OR_FALSE (op : binary) (a0 a1 : value) : outcome effect :=
  match a0 with Object p => Ok (Method p op a1) | _ => boolean (sign op false) end.

(** [XEMMAI__CODE__BINARY_DERIVED_OR_THROW] for [intptr_t], [uintptr_t] and
    [double]; [x] is the left operand. *)
Definition derived_or_throw (op : binary) (x : number) (of_object : Z → option number) (a1 : value)
    : outcome effect :=
  match a1 with
  | Object p =>
    match of_object p with Some y => PRIMITIVE_CALL (apply op x y) | None => not_supported end
  | _ => not_supported
  end.

Definition as_intptr (p : Z) : option number := option_map I (integer_of p).
Definition as_uintptr (p : Z) : option number := option_map U (integer_of p).
Definition as_double (p : Z) : option number := option_map D (float_of p).

Definition derived_equal_integer (a0 : Z) (a1 : value) : bool :=
  match a1 with
  | Object p => match integer_of p with Some y => a0 =? y | None => false end
  | _ => false
  end.

Definition derived_equal_float (a0 : double) (a1 : value) : bool :=
  match a1 with
  | Object p => match float_of p with Some y => d_eq a0 y | None => false end
  | _ => false
  end.

(** [t_code::f_binary_arithmetic]. *)
Definition f_binary_arithmetic (op : binary) (a0 : double) (a1 : value) : outcome effect :=
  match a1 with
  | Float y => PRIMITIVE_CALL (apply op (D a0) (D y))
  | Integer y => PRIMITIVE_CALL (apply op (D a0) (I y))
  | _ => derived_or_throw op (D a0) as_double a1
  end.

(** [t_code::f_binary_integral]: the left operand is a [uintptr_t]. *)
Definition f_binary_integral (op : binary) (a0 : Z) (a1 : value) : outcome effect :=
  match a1 with
  | Integer y => PRIMITIVE_CALL (apply op (U a0) (I y))
  | _ => derived_or_throw op (U a0) as_intptr a1
  end.

(** [t_code::f_binary_equality], both overloads. *)
Definition f_binary_equality_integer (a0 : Z) (a1 : value) : bool :=
  match a1 with
  | Integer y => a0 =? y
  | Float y => d_eq (d_of a0) y
  | _ => derived_equal_integer a0 a1
  end.

Definition f_binary_equality_float (a0 : double) (a1 : value) : bool :=
  match a1 with
  | Float y => d_eq a0 y
  | Integer y => d_eq a0 (d_of y)
  | _ => derived_equal_float a0 a1
  end.

(** [XEMMAI__CODE__BINARY_ARITHMETIC_INTEGER]. *)
Definition arithmetic_integer (op : binary) (a0 : Z) (a1 : value) : outcome effect :=
  match a1 with
  | Integer y => PRIMITIVE_CALL (apply op (I a0) (I y))
  | Float y => PRIMITIVE_CALL (apply op (I a0) (D y))
  | _ => derived_or_throw op (I a0) as_intptr a1
  end.

(** [t_value::operator==]. *)
Definition f_equal (a0 a1 : value) : bool :=
  match a0, a1 with
  | Integer x, Integer y => x =? y
  | Float x, Float y => d_eq x y
  | _, _ => f_tag a0 =? f_tag a1
  end.

(** Equal pointers: equal tags or the same object. *)
Definition same_pointer (a0 a1 : value) : bool := f_tag a0 =? f_tag a1.

Definition bits (op : binary) (x y : bool) : bool :=
  match op with AND => x && y | XOR => xorb x y | _ => x || y end.

(** [XEMMAI__CODE__BINARY_EQUALITY] of LX, XL and XX; the cases of numbers are
    parameters. *)
Definition equality (op : binary) (integer : Z → bool) (float : double → bool) (a0 a1 : value)
    : outcome effect :=
  match a0 with
  | Null | Boolean _ => boolean (sign op (same_pointer a0 a1))
  | Integer x => boolean (sign op (integer x))
  | Float x => boolean (sign op (float x))
  | Object p => if same_pointer a0 a1 then boolean (sign op true) else Ok (Method p op a1)
  end.

Definition identity (op : binary) (a0 a1 : value) : outcome effect := boolean (sign op (f_equal a0 a1)).

(** Two operands of any kind: the instructions VV, TV, VT and TT. *)
Definition run_XX (op : binary) (a0 a1 : value) : outcome effect :=
  match group_of op with
  | ARITHMETIC =>
    match a0 with
    | Integer x => arithmetic_integer op x a1
    | Float x => f_binary_arithmetic op x a1
    | _ => OBJECT_OR_THROW op a0 a1
    end
  | INTEGRAL =>
    match a0 with
    | Integer x => f_binary_integral op x a1
    | _ => OBJECT_OR_THROW op a0 a1
    end
  | EQUALITY =>
    equality op (fun x => f_binary_equality_integer x a1) (fun x => f_binary_equality_float x a1) a0 a1
  | IDENTITY => identity op a0 a1
  | BITWISE =>
    match a0 with
    | Boolean x => boolean (bits op x (f_boolean a1))
    | Integer x => f_binary_integral op x a1
    | _ => OBJECT_OR_THROW op a0 a1
    end
  end.

(** A literal on the left, which is not a number: LL, LV and LT.  A number
    would take the default case of equality, whose method call it does not
    have. *)
Definition run_LX (op : binary) (a0 a1 : value) : outcome effect :=
  match group_of op with
  | ARITHMETIC | INTEGRAL => OBJECT_OR_THROW op a0 a1
  | EQUALITY =>
    match a0 with
    | Null | Boolean _ => boolean (sign op (same_pointer a0 a1))
    | Object p => if same_pointer a0 a1 then boolean (sign op true) else Ok (Method p op a1)
    | _ => Fault
    end
  | IDENTITY => identity op a0 a1
  | BITWISE =>
    match a0 with
    | Boolean x => boolean (bits op x (f_boolean a1))
    | _ => OBJECT_OR_THROW op a0 a1
    end
  end.

(** A literal on the right: VL and TL. *)
Definition run_XL (op : binary) (a0 a1 : value) : outcome effect :=
  match group_of op with
  | ARITHMETIC =>
    match a0 with
    | Integer x => derived_or_throw op (I x) as_intptr a1
    | Float x => derived_or_throw op (D x) as_double a1
    | _ => OBJECT_OR_THROW op a0 a1
    end
  | INTEGRAL =>
    match a0 with
    | Integer x => derived_or_throw op (I x) as_uintptr a1
    | _ => OBJECT_OR_THROW op a0 a1
    end
  | EQUALITY =>
    equality op (fun x => derived_equal_integer x a1) (fun x => derived_equal_float x a1) a0 a1
  | IDENTITY => identity op a0 a1
  | BITWISE =>
    match a0 with
    | Boolean x => boolean (bits op x (f_boolean a1))
    | Integer x => derived_or_throw op (I x) as_uintptr a1
    | _ => OBJECT_OR_THROW op a0 a1
    end
  end.

(** A literal on the left and an integer constant on the right. *)
Definition run_LI (op : binary) (a0 : value) (a1 : Z) : outcome effect :=
  match group_of op with
  | ARITHMETIC | INTEGRAL | BITWISE => OBJECT_OR_THROW op a0 (Integer a1)
  | EQUALITY => OBJECT_OR_FALSE op a0 (Integer a1)
  | IDENTITY => boolean (sign op false)
  end.

(** An integer constant on the right: VI and TI. *)
Definition run_XI (op : binary) (a0 : value) (a1 : Z) : outcome effect :=
  match group_of op with
  | ARITHMETIC =>
    match a0 with
    | Integer x => PRIMITIVE_CALL (apply op (I x) (I a1))
    | Float x => PRIMITIVE_CALL (apply op (D x) (I a1))
    | _ => OBJECT_OR_THROW op a0 (Integer a1)
    end
  | INTEGRAL =>
    match a0 with
    | Integer x => PRIMITIVE_CALL (apply op (U x) (I a1))
    | _ => OBJECT_OR_THROW op a0 (Integer a1)
    end
  | EQUALITY =>
    match a0 with
    | Integer x => boolean (sign op (x =? a1))
    | Float x => boolean (sign op (d_eq x (d_of a1)))
    | _ => OBJECT_OR_FALSE op a0 (Integer a1)
    end
  | IDENTITY => identity op a0 (Integer a1)
  | BITWISE =>
    match a0 with
    | Integer x => PRIMITIVE_CALL (apply op (I x) (I a1))
    | _ => OBJECT_OR_THROW op a0 (Integer a1)
    end
  end.

(** An integer constant on the left and a literal on the right. *)
Definition run_IL (op : binary) (a0 : Z) (a1 : value) : outcome effect :=
  match group_of op with
  | ARITHMETIC => derived_or_throw op (I a0) as_intptr a1
  | INTEGRAL | BITWISE => derived_or_throw op (I a0) as_uintptr a1
  | EQUALITY => boolean (sign op (derived_equal_integer a0 a1))
  | IDENTITY => boolean (sign op false)
  end.

(** An integer constant on the left: IV and IT. *)
Definition run_IX (op : binary) (a0 : Z) (a1 : value) : outcome effect :=
  match group_of op with
  | ARITHMETIC => arithmetic_integer op a0 a1
  | INTEGRAL | BITWISE => f_binary_integral op a0 a1
  | EQUALITY => boolean (sign op (f_binary_equality_integer a0 a1))
  | IDENTITY => identity op (Integer a0) a1
  end.

(** A literal on the left and a float constant on the right. *)
Definition run_LF (op : binary) (a0 : value) (a1 : double) : outcome effect :=
  match group_of op with
  | ARITHMETIC | INTEGRAL | BITWISE => OBJECT_OR_THROW op a0 (Float a1)
  | EQUALITY => OBJECT_OR_FALSE op a0 (Float a1)
  | IDENTITY => boolean (sign op false)
  end.

(** A float constant on the right: VF and TF. *)
Definition run_XF (op : binary) (a0 : value) (a1 : double) : outcome effect :=
  match group_of op with
  | ARITHMETIC =>
    match a0 with
    | Float x => PRIMITIVE_CALL (apply op (D x) (D a1))
    | Integer x => PRIMITIVE_CALL (apply op (I x) (D a1))
    | _ => OBJECT_OR_THROW op a0 (Float a1)
    end
  | INTEGRAL | BITWISE => OBJECT_OR_THROW op a0 (Float a1)
  | EQUALITY =>
    match a0 with
    | Float x => boolean (sign op (d_eq x a1))
    | Integer x => boolean (sign op (d_eq (d_of x) a1))
    | _ => OBJECT_OR_FALSE op a0 (Float a1)
    end
  | IDENTITY => identity op a0 (Float a1)
  end.

(** A float constant on the left and a literal on the right. *)
Definition run_FL (op : binary) (a0 : double) (a1 : value) : outcome effect :=
  match group_of op with
  | ARITHMETIC => derived_or_throw op (D a0) as_double a1
  | INTEGRAL | BITWISE => not_supported
  | EQUALITY => boolean (sign op (derived_equal_float a0 a1))
  | IDENTITY => boolean (sign op false)
  end.

(** A float constant on the left: FV and FT. *)
Definition run_FX (op : binary) (a0 : double) (a1 : value) : outcome effect :=
  match group_of op with
  | ARITHMETIC => f_binary_arithmetic op a0 a1
  | INTEGRAL | BITWISE => not_supported
  | EQUALITY => boolean (sign op (f_binary_equality_float a0 a1))
  | IDENTITY => identity op (Float a0) a1
  end.
End operators.

(** ** The natives of the number types *)

Section natives.
Context `{Numbers} `{TypeNames}.

(** The error of [f_check] for an argument; its text names the C++ type. *)
Definition type_error {A} : outcome A := throw "argument0 must be of another type.".

(** [f_is<intptr_t>] with [f_as<intptr_t>]: the tag or a derived object. *)
Definition f_as_integer (v : value) : option Z :=
  match v with
  | Integer y => Some y
  | Object p => integer_of p
  | _ => None
  end.

(** [f_is<double>] with [f_as<double>]: integers are converted. *)
Definition f_as_float (v : value) : option double :=
  match v with
  | Integer y => Some (d_of y)
  | Float y => Some y
  | Object p => float_of p
  | _ => None
  end.

(** [f__multiply], [f__divide], [f__add], [f__subtract] and the comparisons of
    [t_type_of<intptr_t>]. *)
Definition integer_arithmetic (op : binary) (a_self : Z) (a_value : value) : outcome value :=
  match a_value with
  | Integer y => apply op (I a_self) (I y)
  | Float y => apply op (I a_self) (D y)
  | _ =>
    match f_as_integer a_value with
    | Some y => apply op (I a_self) (I y)
    | None => not_supported
    end
  end.

(** [f__equals] and [f__not_equals]. *)
Definition integer_equals (a_self : Z) (a_value : value) : bool :=
  match a_value with
  | Integer y => a_self =? y
  | Float y => d_eq (d_of a_self) y
  | _ => match f_as_integer a_value with Some y => a_self =? y | None => false end
  end.

(** [f__modulus], the shifts and the bitwise operators, on arguments that
    [t_member] converts; a right shift is one of [size_t]. *)
Definition integer_integral (op : binary) (a_self : Z) (a_value : value) : outcome value :=
  match f_as_integer a_value with
  | Some y => apply op (if decide (op = RIGHT_SHIFT) then U a_self else I a_self) (I y)
  | None => type_error
  end.

(** A native of [Integer]. *)
Definition integer_native (op : binary) (a_self : Z) (a_value : value) : outcome value :=
  match group_of op with
  | ARITHMETIC => integer_arithmetic op a_self a_value
  | EQUALITY | IDENTITY => Ok (Boolean (sign op (integer_equals a_self a_value)))
  | INTEGRAL | BITWISE => integer_integral op a_self a_value
  end.

(** [f__equals] and [f__not_equals] of [t_type_of<double>]. *)
Definition float_equals (a_self : double) (a_value : value) : bool :=
  match f_as_float a_value with Some y => d_eq a_self y | None => false end.

(** A native of [Float], which inherits the others from [Object]. *)
Definition float_native (op : binary) (a_self : double) (a_value : value) : outcome value :=
  match group_of op with
  | ARITHMETIC =>
    match f_as_float a_value with Some y => apply op (D a_self) (D y) | None => type_error end
  | EQUALITY | IDENTITY => Ok (Boolean (sign op (float_equals a_self a_value)))
  | INTEGRAL | BITWISE => not_supported
  end.

(** ** The operators of [t_value] *)
Definition value_operator (op : binary) (a0 a1 : value) : outcome effect :=
  match group_of op with
  | ARITHMETIC =>
    match a0 with
    | Integer x => PRIMITIVE_CALL (integer_arithmetic op x a1)
    | Float x =>
      match f_as_float a1 with Some y => PRIMITIVE_CALL (apply op (D x) (D y)) | None => type_error end
    | Object p => Ok (Method p op a1)
    | _ => not_supported
    end
  | INTEGRAL =>
    match a0 with
    | Integer x =>
      match f_as_integer a1 with Some y => PRIMITIVE_CALL (apply op (U x) (I y)) | None => type_error end
    | Object p => Ok (Method p op a1)
    | _ => not_supported
    end
  | EQUALITY =>
    match a0 with
    | Null | Boolean _ => boolean (sign op (same_pointer a0 a1))
    | Integer x => boolean (sign op (integer_equals x a1))
    | Float x => boolean (sign op (float_equals x a1))
    | Object p => Ok (Method p op a1)
    end
  | IDENTITY => identity op a0 a1
  | BITWISE =>
    match a0 with
    | Boolean x => boolean (bits op x (f_boolean a1))
    | Integer x =>
      match f_as_integer a1 with Some y => PRIMITIVE_CALL (apply op (I x) (I y)) | None => type_error end
    | Object p => Ok (Method p op a1)
    | _ => not_supported
    end
  end.
End natives.

(** ** Constant folding

    [ast::t_binary::f_emit] on two constants: each case computes in C++ what
    its instruction stands for. *)

Definition fold_II (op : binary) (l r : Z) : outcome value :=
  match op with
  | RIGHT_SHIFT => apply op (U l) (I r)
  | _ => apply op (I l) (I r)
  end.

Definition fold_IF (op : binary) (l : Z) (r : double) : outcome value :=
  match op with
  | MULTIPLY | DIVIDE | ADD | SUBTRACT | LESS | LESS_EQUAL | GREATER | GREATER_EQUAL
  | EQUALS | NOT_EQUALS => apply op (I l) (D r)
  | IDENTICAL => Ok (Boolean false)
  | NOT_IDENTICAL => Ok (Boolean true)
  | _ => not_supported
  end.

Definition fold_FI (op : binary) (l : double) (r : Z) : outcome value :=
  match op with
  | MULTIPLY | DIVIDE | ADD | SUBTRACT | LESS | LESS_EQUAL | GREATER | GREATER_EQUAL
  | EQUALS | NOT_EQUALS => apply op (D l) (I r)
  | IDENTICAL => Ok (Boolean false)
  | NOT_IDENTICAL => Ok (Boolean true)
  | _ => not_supported
  end.

Definition fold_FF (op : binary) (l r : double) : outcome value :=
  match op with
  | MULTIPLY | DIVIDE | ADD | SUBTRACT | LESS | LESS_EQUAL | GREATER | GREATER_EQUAL
  | EQUALS | NOT_EQUALS | IDENTICAL | NOT_IDENTICAL => apply op (D l) (D r)
  | _ => not_supported
  end.

(** [ast::t_operand]: what the code for an operand leaves to the operator. *)
Inductive t_operand :=
| c_tag__INTEGER (v_integer : Z)
| c_tag__FLOAT (v_float : double)
| c_tag__LITERAL (v_value : value)
| c_tag__VARIABLE (v_index : nat)
| c_tag__TEMPORARY.

(** Two constants are folded; anything else becomes an instruction. *)
Definition fold_binary (op : binary) (left right : t_operand) : option (outcome value) :=
  match left, right with
  | c_tag__INTEGER l, c_tag__INTEGER r => Some (fold_II op l r)
  | c_tag__INTEGER l, c_tag__FLOAT r => Some (fold_IF op l r)
  | c_tag__FLOAT l, c_tag__INTEGER r => Some (fold_FI op l r)
  | c_tag__FLOAT l, c_tag__FLOAT r => Some (fold_FF op l r)
  | _, _ => None
  end.

(** The instruction that [f_emit] selects by the kinds of the operands, run on
    the values of the variables and the temporaries. *)
Section emitted.
Context `{Numbers}.

(** The value of an operand; [x] is that of a variable or a temporary. *)
Definition operand_value (o : t_operand) (x : value) : value :=
  match o with
  | c_tag__INTEGER z => Integer z
  | c_tag__FLOAT d => Float d
  | c_tag__LITERAL v => v
  | c_tag__VARIABLE _ | c_tag__TEMPORARY => x
  end.

Definition run_binary (op : binary) (left right : t_operand) (x y : value) : option (outcome effect) :=
  match left, right with
  | (c_tag__INTEGER _ | c_tag__FLOAT _), (c_tag__INTEGER _ | c_tag__FLOAT _) => None
  | c_tag__LITERAL v, c_tag__INTEGER r => Some (run_LI op v r)
  | (c_tag__VARIABLE _ | c_tag__TEMPORARY), c_tag__INTEGER r => Some (run_XI op x r)
  | c_tag__LITERAL v, c_tag__FLOAT r => Some (run_LF op v r)
  | (c_tag__VARIABLE _ | c_tag__TEMPORARY), c_tag__FLOAT r => Some (run_XF op x r)
  | c_tag__INTEGER l, c_tag__LITERAL v => Some (run_IL op l v)
  | c_tag__FLOAT l, c_tag__LITERAL v => Some (run_FL op l v)
  | c_tag__LITERAL v, c_tag__LITERAL v' => Some (run_LX op v v')
  | (c_tag__VARIABLE _ | c_tag__TEMPORARY), c_tag__LITERAL v => Some (run_XL op x v)
  | c_tag__INTEGER l, _ => Some (run_IX op l y)
  | c_tag__FLOAT l, _ => Some (run_FX op l y)
  | c_tag__LITERAL v, _ => Some (run_LX op v y)
  | _, _ => Some (run_XX op x y)
  end.

(** ** Unary operators *)

Inductive unary := PLUS | MINUS | NOT | COMPLEMENT.

(** The instruction, for a literal, a variable or a temporary; a call of a
    method is [None]. *)
Definition run_unary (op : unary) (a0 : value) : outcome (option value) :=
  match op with
  | PLUS =>
    match a0 with
    | Integer _ | Float _ => Ok (Some a0)
    | Object _ => Ok None
    | _ => not_supported
    end
  | MINUS =>
    match a0 with
    | Integer x => z ← checked (- x); Ok (Some (Integer z))
    | Float x => Ok (Some (Float (d_opp x)))
    | Object _ => Ok None
    | _ => not_supported
    end
  | NOT => Ok (Some (Boolean (negb (f_boolean a0))))
  | COMPLEMENT =>
    match a0 with
    | Integer x => Ok (Some (Integer (Z.lnot x)))
    | Object _ => Ok None
    | _ => not_supported
    end
  end.

(** [ast::t_unary::f_emit] on a constant. *)
Definition fold_unary (op : unary) (operand : t_operand) : option (outcome value) :=
  match operand with
  | c_tag__INTEGER x =>
    Some (match op with
          | PLUS => Ok (Integer x)
          | MINUS => z ← checked (- x); Ok (Integer z)
          | NOT => Ok (Boolean false)
          | COMPLEMENT => Ok (Integer (Z.lnot x))
          end)
  | c_tag__FLOAT x =>
    Some (match op with
          | PLUS => Ok (Float x)
          | MINUS => Ok (Float (d_opp x))
          | NOT => Ok (Boolean false)
          | COMPLEMENT => not_supported
          end)
  | _ => None
  end.
End emitted.

(** ** Agreement *)

(** The addresses of objects are no tags, and integers are [intptr_t]s. *)
Definition proper `{Numbers} (v : value) : Prop :=
  match v with
  | Integer x => is_intptr x
  | Object p =>
    c_tag__OBJECT ≤ p ∧ match integer_of p with Some x => is_intptr x | None => True end
  | _ => True
  end.

Definition proper_operand `{Numbers} (o : t_operand) (x : value) : Prop :=
  proper (operand_value o x)
  ∧ match o with c_tag__LITERAL (Integer _ | Float _) => False | _ => True end.

(** The instructions that differ from the general one: a bitwise operator with
    a boolean on the left and a constant number on the right, and a right shift
    of a negative integer by a literal object that holds an integer. *)
Definition diverges `{Numbers} (op : binary) (left right : t_operand) (x : value) : bool :=
  match operand_value left x, right with
  | Boolean _, (c_tag__INTEGER _ | c_tag__FLOAT _) => match group_of op with BITWISE => true | _ => false end
  | Integer z, c_tag__LITERAL (Object p) =>
    bool_decide (op = RIGHT_SHIFT) && (z <? 0) && bool_decide (integer_of p ≠ None)
  | _, _ => false
  end.

(** Two outcomes that differ in the text of an exception at most. *)
Definition agree {A} (m1 m2 : outcome A) : Prop :=
  match m1, m2 with
  | Ok a, Ok b => a = b
  | Throw _, Throw _ => True
  | Fault, Fault => True
  | _, _ => False
  end.
