(* ===== verification/OperatorAgreement.v ===== *)
(** * The implementations of the operators agree (Operators.v)

    The instructions for operands of special kinds, constant folding, the
    natives of the number types and the runtime library against the general
    instruction; and where they do not agree. *)
From stdpp Require Import base numbers strings.
From S2P Require Import Prelude Machine Layout Types Operators.
Local Open Scope Z_scope.

(** ** Words *)

Lemma to_intptr_mod z : to_intptr (z mod 2 ^ 64) = to_intptr z.
Proof.
  rewrite <- (to_intptr_shift (z mod 2 ^ 64) (z / 2 ^ 64)). f_equal.
  pose proof (Z.div_mod z (2 ^ 64) ltac:(done)). lia.
Qed.

Lemma to_intptr_size z : to_intptr (to_size z) = to_intptr z.
Proof. apply to_intptr_mod. Qed.

Lemma to_size_ones z : to_size z = Z.land z (Z.ones 64).
Proof. unfold to_size. by rewrite Z.land_ones by lia. Qed.

(** An [intptr_t] has equal bits from the sign on. *)
Lemma is_intptr_shiftr z : is_intptr z ↔ Z.shiftr z 63 = 0 ∨ Z.shiftr z 63 = -1.
Proof.
  rewrite Z.shiftr_div_pow2 by lia. unfold is_intptr, INTPTR_MIN, INTPTR_MAX.
  pose proof (Z.div_mod z (2 ^ 63) ltac:(done)). pose proof (Z.mod_pos_bound z (2 ^ 63) ltac:(done)). lia.
Qed.

Section bitwise.
Variables x y : Z.
Hypotheses (Hx : is_intptr x) (Hy : is_intptr y).

Lemma land_intptr : to_intptr (Z.land (to_size x) (to_size y)) = Z.land x y.
Proof.
  rewrite !to_size_ones.
  replace (Z.land (Z.land x (Z.ones 64)) (Z.land y (Z.ones 64))) with (Z.land (Z.land x y) (Z.ones 64))
    by (apply Z.bits_inj'; intros n Hn; rewrite !Z.land_spec; by destruct (Z.testbit x n), (Z.testbit y n), (Z.testbit (Z.ones 64) n)).
  rewrite <- to_size_ones, to_intptr_size. apply to_intptr_id, is_intptr_shiftr. rewrite Z.shiftr_land.
  apply is_intptr_shiftr in Hx as [-> | ->], Hy as [-> | ->]; auto.
Qed.

Lemma lxor_intptr : to_intptr (Z.lxor (to_size x) (to_size y)) = Z.lxor x y.
Proof.
  rewrite !to_size_ones.
  replace (Z.lxor (Z.land x (Z.ones 64)) (Z.land y (Z.ones 64))) with (Z.land (Z.lxor x y) (Z.ones 64))
    by (apply Z.bits_inj'; intros n Hn; rewrite ?Z.land_spec, ?Z.lxor_spec, ?Z.land_spec; by destruct (Z.testbit x n), (Z.testbit y n), (Z.testbit (Z.ones 64) n)).
  rewrite <- to_size_ones, to_intptr_size. apply to_intptr_id, is_intptr_shiftr. rewrite Z.shiftr_lxor.
  apply is_intptr_shiftr in Hx as [-> | ->], Hy as [-> | ->]; auto.
Qed.

Lemma lor_intptr : to_intptr (Z.lor (to_size x) (to_size y)) = Z.lor x y.
Proof.
  rewrite !to_size_ones.
  replace (Z.lor (Z.land x (Z.ones 64)) (Z.land y (Z.ones 64))) with (Z.land (Z.lor x y) (Z.ones 64))
    by (apply Z.bits_inj'; intros n Hn; rewrite ?Z.land_spec, ?Z.lor_spec, ?Z.land_spec; by destruct (Z.testbit x n), (Z.testbit y n), (Z.testbit (Z.ones 64) n)).
  rewrite <- to_size_ones, to_intptr_size. apply to_intptr_id, is_intptr_shiftr. rewrite Z.shiftr_lor.
  apply is_intptr_shiftr in Hx as [-> | ->], Hy as [-> | ->]; auto.
Qed.
End bitwise.

(** Bitwise operators do not depend on signedness. *)
Lemma bitwise_signed op x y :
  is_intptr x → is_intptr y → group_of op = BITWISE → unsigned op x y = signed op x y.
Proof.
  intros Hx Hy Hop. destruct op; try done; cbn;
    by rewrite ?land_intptr, ?lxor_intptr, ?lor_intptr.
Qed.

(** Neither do left shifts. *)
Lemma left_shift_signed x y : unsigned LEFT_SHIFT x y = signed LEFT_SHIFT x y.
Proof.
  cbn. destruct (decide (shift_ok y)) as [Hy|]; [|done]. unfold shift_ok in Hy.
  rewrite !Z.shiftl_mul_pow2 by lia. do 2 f_equal.
  rewrite <- (to_intptr_mod (to_size x * 2 ^ y)), <- (to_intptr_mod (x * 2 ^ y)).
  unfold to_size, SIZE_MODULUS. by rewrite Z.mul_mod_idemp_l.
Qed.

(** A right shift of a number that is not negative. *)
Lemma right_shift_signed x y : is_intptr x → 0 ≤ x → unsigned RIGHT_SHIFT x y = signed RIGHT_SHIFT x y.
Proof.
  intros Hx H0. cbn. destruct (decide (shift_ok y)) as [Hy|]; [|done]. unfold shift_ok in Hy.
  unfold is_intptr, INTPTR_MIN, INTPTR_MAX in Hx.
  rewrite to_size_id by (unfold SIZE_MODULUS; lia). do 2 f_equal.
  rewrite Z.shiftr_div_pow2 by lia. apply to_intptr_id. unfold is_intptr, INTPTR_MIN, INTPTR_MAX.
  pose proof (Z.div_pos x (2 ^ y) H0 ltac:(lia)). pose proof (Z.div_le_upper_bound x (2 ^ y) x ltac:(lia)).
  assert (1 ≤ 2 ^ y) by lia. nia.
Qed.

(** The remainder of numbers that are not negative. *)
Lemma modulus_signed x y :
  is_intptr x → is_intptr y → 0 ≤ x → 0 ≤ y → unsigned MODULUS x y = signed MODULUS x y.
Proof.
  intros Hx Hy H0 H1. unfold is_intptr, INTPTR_MIN, INTPTR_MAX in *. cbn.
  rewrite !to_size_id by (unfold SIZE_MODULUS; lia).
  destruct (Z.eqb_spec y 0) as [|Hne]; [done|].
  pose proof (Z.quot_pos x y ltac:(lia) ltac:(lia)). pose proof (Z.quot_le_upper_bound x y x ltac:(lia) ltac:(nia)).
  unfold checked. rewrite decide_True by (unfold is_intptr, INTPTR_MIN, INTPTR_MAX; lia). cbn.
  rewrite Z.rem_mod_nonneg by lia. do 2 f_equal. apply to_intptr_id.
  pose proof (Z.mod_pos_bound x y ltac:(lia)). unfold is_intptr, INTPTR_MIN, INTPTR_MAX. lia.
Qed.

(** ** The instructions *)

Section agreement.
Context `{Numbers}.

Lemma same_pointer_tag p a1 : c_tag__OBJECT ≤ p → f_tag a1 < c_tag__OBJECT → same_pointer (Object p) a1 = false.
Proof. intros H1 H2. unfold same_pointer. cbn [f_tag]. apply Z.eqb_neq. lia. Qed.

(** A literal of the program: not a number. *)
Definition literal (v : value) : Prop :=
  match v with Integer _ | Float _ => False | _ => True end.

Lemma f_equal_literal a0 a1 : literal a0 → proper a0 → f_tag a1 = 3 ∨ f_tag a1 = 4 → f_equal a0 a1 = false.
Proof.
  intros Hl Hp Ht. assert (f_equal a0 a1 = (f_tag a0 =? f_tag a1)) as -> by by destruct a0.
  apply Z.eqb_neq. destruct a0 as [|[]| | |p]; try done; cbn in *; unfold c_tag__OBJECT in *; lia.
Qed.

Lemma f_equal_number a0 a1 : literal a1 → proper a1 → f_tag a0 = 3 ∨ f_tag a0 = 4 → f_equal a0 a1 = false.
Proof.
  intros Hl Hp Ht. assert (f_equal a0 a1 = (f_tag a0 =? f_tag a1)) as -> by by destruct a0, a1.
  apply Z.eqb_neq. destruct a1 as [|[]| | |p]; try done; cbn in Hp |- *; unfold c_tag__OBJECT in *; lia.
Qed.

Lemma run_LX_XX op a0 a1 : literal a0 → run_LX op a0 a1 = run_XX op a0 a1.
Proof. intros Hl. unfold run_LX, run_XX, equality. by destruct (group_of op), a0. Qed.

Lemma run_LI_XX op a0 z :
  literal a0 → proper a0 → (group_of op = BITWISE → ∀ b, a0 ≠ Boolean b) → run_LI op a0 z = run_XX op a0 (Integer z).
Proof.
  intros Hl Hp Hb. unfold run_LI, run_XX, equality, identity.
  destruct (group_of op).
  - by destruct a0.
  - by destruct a0.
  - destruct a0 as [|[]| | |p]; try done. by rewrite (same_pointer_tag p) by (first [apply Hp | done]).
  - rewrite f_equal_literal; auto.
  - destruct a0; try done. by destruct (Hb eq_refl b).
Qed.

Lemma run_LF_XX op a0 d :
  literal a0 → proper a0 → (group_of op = BITWISE → ∀ b, a0 ≠ Boolean b) → run_LF op a0 d = run_XX op a0 (Float d).
Proof.
  intros Hl Hp Hb. unfold run_LF, run_XX, equality, identity.
  destruct (group_of op).
  - by destruct a0.
  - by destruct a0.
  - destruct a0 as [|[]| | |p]; try done. by rewrite (same_pointer_tag p) by (first [apply Hp | done]).
  - rewrite f_equal_literal; auto.
  - destruct a0; try done. by destruct (Hb eq_refl b).
Qed.

(** An integer on the left of a bitwise operator. *)
Lemma bitwise_integral op x y :
  is_intptr x → is_intptr y → group_of op = BITWISE →
  PRIMITIVE_CALL (apply op (U x) (I y)) = PRIMITIVE_CALL (apply op (I x) (I y)).
Proof. intros. cbn [apply]. by rewrite bitwise_signed. Qed.

Lemma run_XI_XX op a0 z :
  proper a0 → is_intptr z → (group_of op = BITWISE → ∀ b, a0 ≠ Boolean b) → run_XI op a0 z = run_XX op a0 (Integer z).
Proof.
  intros Hp Hz Hb. unfold run_XI, run_XX, equality. destruct (group_of op) eqn:Hg.
  - by destruct a0.
  - by destruct a0.
  - destruct a0 as [|[]| | |p]; try done. by rewrite (same_pointer_tag p) by (first [apply Hp | done]).
  - done.
  - destruct a0; try done; [by destruct (Hb eq_refl b)|]. cbn [f_binary_integral]. by rewrite bitwise_integral.
Qed.

Lemma run_XF_XX op a0 d :
  proper a0 → (group_of op = BITWISE → ∀ b, a0 ≠ Boolean b) → run_XF op a0 d = run_XX op a0 (Float d).
Proof.
  intros Hp Hb. unfold run_XF, run_XX, equality. destruct (group_of op) eqn:Hg.
  - by destruct a0.
  - by destruct a0.
  - destruct a0 as [|[]| | |p]; try done. by rewrite (same_pointer_tag p) by (first [apply Hp | done]).
  - done.
  - destruct a0; try done. by destruct (Hb eq_refl b).
Qed.

(** An integer and a literal object that holds one: the right operand is
    unsigned for one instruction, the left one for the other. *)
Lemma derived_integral op x a1 :
  group_of op = INTEGRAL ∨ group_of op = BITWISE → is_intptr x → proper a1 → literal a1 →
  (op = RIGHT_SHIFT → x < 0 → ∀ p, a1 = Object p → integer_of p = None) →
  derived_or_throw op (I x) as_uintptr a1 = f_binary_integral op x a1.
Proof.
  intros Hop Hx Hp Hl Hs. destruct a1 as [| | | |p]; try done.
  cbn [derived_or_throw f_binary_integral]. unfold as_uintptr, as_intptr.
  destruct (integer_of p) as [y|] eqn:Ey; [|done]. cbn [option_map]. f_equal.
  destruct Hop as [Hop|Hop]; destruct op; try done; cbn [apply].
  - by rewrite left_shift_signed.
  - destruct (decide (x < 0)) as [Hneg|]; [by specialize (Hs eq_refl Hneg p eq_refl); congruence|].
    by rewrite right_shift_signed by (done || lia).
Qed.

Lemma run_XL_XX op a0 a1 :
  proper a0 → proper a1 → literal a1 →
  (op = RIGHT_SHIFT → ∀ x p, a0 = Integer x → x < 0 → a1 = Object p → integer_of p = None) →
  run_XL op a0 a1 = run_XX op a0 a1.
Proof.
  intros Hp0 Hp1 Hl Hs. unfold run_XL, run_XX. destruct (group_of op) eqn:Hg.
  - by destruct a0, a1.
  - destruct a0 as [| |x| |]; try done. apply derived_integral; try done; [by left|].
    intros ? ? p ->. by eapply Hs.
  - by destruct a0, a1.
  - done.
  - destruct a0 as [| |x| |]; try done. apply derived_integral; try done; [by right|].
    intros ? ? p ->. by eapply Hs.
Qed.

Lemma run_IL_XX op x a1 :
  is_intptr x → proper a1 → literal a1 →
  (op = RIGHT_SHIFT → x < 0 → ∀ p, a1 = Object p → integer_of p = None) →
  run_IL op x a1 = run_XX op (Integer x) a1.
Proof.
  intros Hx Hp1 Hl Hs. unfold run_IL, run_XX, equality, identity. destruct (group_of op) eqn:Hg.
  - by destruct a1.
  - apply derived_integral; auto.
  - by destruct a1.
  - rewrite f_equal_number; auto.
  - apply derived_integral; auto.
Qed.

Lemma run_IX_XX op x a1 : run_IX op x a1 = run_XX op (Integer x) a1.
Proof. unfold run_IX, run_XX. by destruct (group_of op). Qed.

Lemma run_FL_XX op x a1 : proper a1 → literal a1 → run_FL op x a1 = run_XX op (Float x) a1.
Proof.
  intros Hp1 Hl. unfold run_FL, run_XX, equality, identity. destruct (group_of op) eqn:Hg; try by destruct a1.
  rewrite f_equal_number; auto.
Qed.

Lemma run_FX_XX op x a1 : run_FX op x a1 = run_XX op (Float x) a1.
Proof. unfold run_FX, run_XX. by destruct (group_of op). Qed.
End agreement.

(** ** Constant folding, natives and the runtime library *)

Section others.
Context `{Numbers}.

Lemma fold_II_XX op l r :
  is_intptr l → is_intptr r → (op = MODULUS → 0 ≤ l ∧ 0 ≤ r) →
  PRIMITIVE_CALL (fold_II op l r) = run_XX op (Integer l) (Integer r).
Proof.
  intros Hl Hr Hm. destruct op; try done; cbn [fold_II apply run_XX group_of f_binary_integral].
  - destruct (Hm eq_refl). by rewrite modulus_signed.
  - by rewrite left_shift_signed.
  - by rewrite bitwise_signed.
  - by rewrite bitwise_signed.
  - by rewrite bitwise_signed.
Qed.

(** The natives of [Integer], below identity, which is no method. *)
Lemma integer_native_XX op x a1 :
  is_intptr x → proper a1 → group_of op ≠ IDENTITY →
  (op = MODULUS → 0 ≤ x ∧ ∀ y, f_as_integer a1 = Some y → 0 ≤ y) →
  agree (PRIMITIVE_CALL (integer_native op x a1)) (run_XX op (Integer x) a1).
Proof.
  intros Hx Hp Hi Hm. unfold integer_native, run_XX.
  assert (Hint : group_of op = INTEGRAL ∨ group_of op = BITWISE →
    agree (PRIMITIVE_CALL (integer_integral op x a1)) (f_binary_integral op x a1)).
  { intros Hg. unfold integer_integral.
    assert (Hsame : ∀ y, f_as_integer a1 = Some y → is_intptr y →
      apply op (if decide (op = RIGHT_SHIFT) then U x else I x) (I y) = apply op (U x) (I y)).
    { intros y Hy Hyr. case_decide as Hd; [done|]. cbn [apply].
      destruct Hg as [Hg|Hg]; [|by rewrite bitwise_signed].
      destruct op; try done; [|by rewrite left_shift_signed].
      destruct (Hm eq_refl) as [? Hm']. rewrite modulus_signed; auto. }
    destruct a1 as [| |y| |p]; try done; cbn [f_as_integer] in *.
    - cbn [f_binary_integral]. rewrite Hsame by done. by destruct (apply op (U x) (I y)).
    - cbn [f_binary_integral derived_or_throw]. unfold as_intptr.
      destruct Hp as [_ Hp]. destruct (integer_of p) as [y|] eqn:Ey; [|done].
      rewrite Hsame by done. cbn [option_map]. by destruct (apply op (U x) (I y)). }
  destruct (group_of op) eqn:Hg.
  - unfold integer_arithmetic, arithmetic_integer.
    destruct a1 as [| |y|y|p]; try done; cbn [f_as_integer derived_or_throw]; unfold as_intptr.
    + by destruct (apply op (I x) (I y)).
    + by destruct (apply op (I x) (D y)).
    + destruct (integer_of p) as [y|]; [|done]. cbn [option_map]. by destruct (apply op (I x) (I y)).
  - apply Hint. by left.
  - unfold equality. cbn. f_equal. by destruct a1.
  - done.
  - apply Hint. by right.
Qed.

Lemma float_native_XX op x a1 :
  group_of op ≠ IDENTITY →
  agree (PRIMITIVE_CALL (float_native op x a1)) (run_XX op (Float x) a1).
Proof.
  intros Hi. unfold float_native, run_XX. destruct (group_of op) eqn:Hg; try done.
  - unfold f_binary_arithmetic. destruct a1 as [| |y|y|p]; try done; cbn [f_as_float derived_or_throw].
    + cbn [apply]. by destruct (floating op x (d_of y)).
    + by destruct (apply op (D x) (D y)).
    + unfold as_double. destruct (float_of p) as [y|]; [|done]. cbn [option_map]. by destruct (apply op (D x) (D y)).
  - unfold equality. cbn. f_equal. by destruct a1.
Qed.

(** The library's operators, which call the method of an object also to compare
    it with itself. *)
Lemma value_operator_XX op a0 a1 :
  proper a0 → proper a1 → (group_of op = EQUALITY → ∀ p, a0 = Object p → a1 ≠ Object p) →
  agree (value_operator op a0 a1) (run_XX op a0 a1).
Proof.
  intros Hp0 Hp1 He. unfold value_operator, run_XX.
  assert (Hint : ∀ x, is_intptr x → group_of op = INTEGRAL ∨ group_of op = BITWISE →
    ∀ n, (n = U x ∨ n = I x ∧ group_of op = BITWISE) →
    agree (match f_as_integer a1 with Some y => PRIMITIVE_CALL (apply op n (I y)) | None => type_error end)
      (f_binary_integral op x a1)).
  { intros x Hx Hg n Hn.
    assert (Hsame : ∀ y, is_intptr y → apply op n (I y) = apply op (U x) (I y)).
    { intros y Hy. destruct Hn as [->|[-> Hb]]; [done|]. cbn [apply]. by rewrite bitwise_signed. }
    destruct a1 as [| |y| |p]; try done; cbn [f_as_integer f_binary_integral derived_or_throw].
    - rewrite Hsame by done. by destruct (apply op (U x) (I y)).
    - unfold as_intptr. destruct Hp1 as [_ Hp1]. destruct (integer_of p) as [y|]; [|done].
      rewrite Hsame by done. cbn [option_map]. by destruct (apply op (U x) (I y)). }
  destruct (group_of op) eqn:Hg.
  - destruct a0 as [|b|x|x|p]; try done.
    + pose proof (integer_native_XX op x a1 Hp0 Hp1) as Hn. unfold integer_native, run_XX in Hn. rewrite Hg in Hn.
      apply Hn; [done|]. by intros ->.
    + pose proof (float_native_XX op x a1) as Hn. unfold float_native, run_XX in Hn. rewrite Hg in Hn.
      specialize (Hn ltac:(done)). by destruct (f_as_float a1).
  - destruct a0; try done. apply Hint; auto.
  - unfold equality. destruct a0 as [|b|x|x|p]; try done.
    + cbn. do 2 f_equal. by destruct a1.
    + cbn. do 2 f_equal. by destruct a1.
    + assert (same_pointer (Object p) a1 = false) as ->; [|done].
      destruct a1 as [|b|x|x|q].
      1-4: rewrite (same_pointer_tag p); [done|apply Hp0|by destruct b || done].
      unfold same_pointer. cbn [f_tag]. apply Z.eqb_neq. intros ->. by destruct (He eq_refl q eq_refl).
  - cbn. by destruct (f_equal a0 a1).
  - destruct a0; try done. apply Hint; auto.
Qed.
End others.

(** ** Properties *)

(** C12 (instructions_agree): whatever the kinds of the operands of a binary
    operator are, the instruction that the compiler selects has the effect of
    the general instruction on the same values: the same value, the same call
    of a method, the same error.  The exceptions are bitwise operators on a
    boolean and a constant number, and the right shift of a negative integer by
    a literal object that holds an integer. *)
Theorem instructions_agree `{Numbers} op left right x y m :
  proper_operand left x → proper_operand right y → diverges op left right x = false →
  run_binary op left right x y = Some m →
  m = run_XX op (operand_value left x) (operand_value right y).
Proof.
  intros [Hl Hll] [Hr Hrl] Hd Hm.
  assert (Hb : ∀ v z, operand_value left x = v → right = c_tag__INTEGER z ∨ (∃ d, right = c_tag__FLOAT d) →
    group_of op = BITWISE → ∀ b, v ≠ Boolean b).
  { intros v z <- Hk Hg b Hv. unfold diverges in Hd. rewrite Hv, Hg in Hd. by destruct Hk as [->|[? ->]]. }
  assert (Hs : ∀ v, right = c_tag__LITERAL v → op = RIGHT_SHIFT → ∀ z p, operand_value left x = Integer z → z < 0 →
    v = Object p → integer_of p = None).
  { intros v -> -> z p Hz Hneg ->. unfold diverges in Hd. rewrite Hz in Hd.
    apply Z.ltb_lt in Hneg. rewrite Hneg in Hd. cbn in Hd. apply bool_decide_eq_false in Hd. by apply dec_stable. }
  destruct left as [l|l|l|l|], right as [r|r|r|r|]; cbn [run_binary] in Hm; try done; injection Hm as <-;
    cbn [operand_value] in *.
  all: repeat match goal with H : match ?l with _ => _ end |- _ => change (literal l) in H end.
  all: first
    [ apply run_IX_XX | apply run_FX_XX | reflexivity
    | by apply run_LX_XX
    | by apply run_FL_XX
    | apply run_IL_XX; try done; intros; by eapply Hs
    | apply run_LI_XX; try done; by (eapply Hb; [|left])
    | apply run_LF_XX; try done; by (eapply (Hb _ 0); [|right; eexists])
    | apply run_XI_XX; try done; by (eapply Hb; [|left])
    | apply run_XF_XX; try done; by (eapply (Hb _ 0); [|right; eexists])
    | apply run_XL_XX; try done; intros; by eapply Hs ].
Qed.

(** C39 (folding_and_natives_agree): folding a unary or a binary operator on
    constants, calling the native method of a number, and the operators of the
    runtime library give the result of the interpreter's instruction, up to the
    text of an exception.  There are two exceptions: the remainder of a negative
    number, and the equality of an object with itself, for which the operators
    of [t_value] call the method and the instruction answers at once. *)
Theorem folding_and_natives_agree `{Numbers} :
  (∀ op left right x y m, proper_operand left x → proper_operand right y →
     (op = MODULUS → ∀ l r, left = c_tag__INTEGER l → right = c_tag__INTEGER r → 0 ≤ l ∧ 0 ≤ r) →
     fold_binary op left right = Some m →
     PRIMITIVE_CALL m = run_XX op (operand_value left x) (operand_value right y))
  ∧ (∀ op operand x m, fold_unary op operand = Some m →
       (v ← m; Ok (Some v)) = run_unary op (operand_value operand x))
  ∧ (∀ op x a1, is_intptr x → proper a1 → group_of op ≠ IDENTITY →
       (op = MODULUS → 0 ≤ x ∧ ∀ y, f_as_integer a1 = Some y → 0 ≤ y) →
       agree (PRIMITIVE_CALL (integer_native op x a1)) (run_XX op (Integer x) a1))
  ∧ (∀ op x a1, group_of op ≠ IDENTITY →
       agree (PRIMITIVE_CALL (float_native op x a1)) (run_XX op (Float x) a1))
  ∧ (∀ op a0 a1, proper a0 → proper a1 →
       (group_of op = EQUALITY → ∀ p, a0 = Object p → a1 ≠ Object p) →
       agree (value_operator op a0 a1) (run_XX op a0 a1)).
Proof.
  split; [|split; [|split; [|split]]].
  - intros op left right x y m [Hl _] [Hr _] Hm Hf.
    destruct left as [l|l|l|l|], right as [r|r|r|r|]; try done; injection Hf as <-; cbn [operand_value] in *.
    + apply fold_II_XX; [done..|]. intros ->. by apply Hm.
    + by destruct op.
    + by destruct op.
    + by destruct op.
  - intros op operand x m Hf. destruct operand as [z|d| | |]; try done; injection Hf as <-; destruct op; try done.
    cbn. by destruct (checked (- z)).
  - intros. by apply integer_native_XX.
  - intros. by apply float_native_XX.
  - intros. by apply value_operator_XX.
Qed.

(** C40 (negative_remainder_diverges): for a negative integer and a positive
    one, constant folding and the native [__modulus] truncate towards zero,
    while every instruction and the runtime library take the remainder of the
    two's complement pattern, which is not negative: -10 % 9 is -1 between two
    constants and 6 when the left operand is a variable. *)
Theorem negative_remainder_diverges `{Numbers} x y :
  is_intptr x → is_intptr y → x < 0 → 0 < y →
  fold_II MODULUS x y = Ok (Integer (Z.rem x y))
  ∧ integer_native MODULUS x (Integer y) = Ok (Integer (Z.rem x y))
  ∧ run_XX MODULUS (Integer x) (Integer y) = Ok (Value (Integer ((x + 2 ^ 64) mod y)))
  ∧ run_XI MODULUS (Integer x) y = Ok (Value (Integer ((x + 2 ^ 64) mod y)))
  ∧ value_operator MODULUS (Integer x) (Integer y) = Ok (Value (Integer ((x + 2 ^ 64) mod y)))
  ∧ - y < Z.rem x y ≤ 0 ∧ 0 ≤ (x + 2 ^ 64) mod y < y.
Proof.
  intros Hx Hy Hneg Hpos. unfold is_intptr, INTPTR_MIN, INTPTR_MAX in *.
  assert (Hs : signed MODULUS x y = Ok (Integer (Z.rem x y))).
  { cbn. destruct (Z.eqb_spec y 0); [lia|]. unfold checked. rewrite decide_True; [done|].
    unfold is_intptr, INTPTR_MIN, INTPTR_MAX. pose proof (Z.quot_rem x y ltac:(lia)) as Hq.
    pose proof (Z.quot_opp_l x y ltac:(lia)) as Ho.
    pose proof (Z.quot_pos (- x) y ltac:(lia) ltac:(lia)). pose proof (Z.quot_le_upper_bound (- x) y (- x) ltac:(lia) ltac:(nia)).
    lia. }
  assert (Hu : unsigned MODULUS x y = Ok (Integer ((x + 2 ^ 64) mod y))).
  { cbn. rewrite (to_size_id y) by (unfold SIZE_MODULUS; lia). destruct (Z.eqb_spec y 0); [lia|].
    assert (to_size x = x + 2 ^ 64) as ->.
    { unfold to_size, SIZE_MODULUS. rewrite <- (Z.mod_add x 1) by done. rewrite Z.mod_small by lia. lia. }
    do 2 f_equal. apply to_intptr_id. pose proof (Z.mod_pos_bound (x + 2 ^ 64) y ltac:(lia)).
    unfold is_intptr, INTPTR_MIN, INTPTR_MAX. lia. }
  split_and!; try done.
  - cbn [run_XX group_of f_binary_integral apply]. by rewrite Hu.
  - cbn [run_XI group_of apply]. by rewrite Hu.
  - cbn [value_operator group_of f_as_integer apply]. by rewrite Hu.
  - pose proof (Z.rem_opp_l x y ltac:(lia)). pose proof (Z.rem_bound_pos (- x) y ltac:(lia) ltac:(lia)). lia.
  - pose proof (Z.rem_opp_l x y ltac:(lia)). pose proof (Z.rem_bound_pos (- x) y ltac:(lia) ltac:(lia)). lia.
  - pose proof (Z.mod_pos_bound (x + 2 ^ 64) y ltac:(lia)). lia.
  - pose proof (Z.mod_pos_bound (x + 2 ^ 64) y ltac:(lia)). lia.
Qed.

(** A bitwise operator on a boolean converts the other operand to a boolean,
    except where that is a constant number. *)
Lemma boolean_and_constant `{Numbers} b z :
  run_XX AND (Boolean b) (Integer z) = Ok (Value (Boolean b))
  ∧ run_XI AND (Boolean b) z = throw "not supported."
  ∧ run_LI AND (Boolean b) z = throw "not supported.".
Proof. by destruct b. Qed.

(** Nothing guards against a zero divisor or the overflow of a quotient. *)
Lemma integer_division_traps `{Numbers} x :
  run_XX DIVIDE (Integer x) (Integer 0) = Fault
  ∧ run_XX MODULUS (Integer x) (Integer 0) = Fault
  ∧ run_XX DIVIDE (Integer INTPTR_MIN) (Integer (-1)) = Fault
  ∧ fold_II DIVIDE x 0 = Fault.
Proof. done. Qed.

(** ** A sample *)

(** An object at 10 that holds the integer 4. *)
#[export] Instance sample_numbers : Numbers :=
  {| integer_of p := if p =? 10 then Some 4 else None; float_of _ := None |}.

Lemma instructions_agree_witness :
  Ok (Value (Integer 5)) = run_XX ADD (Integer 2) (Integer 3)
  ∧ Ok (Value (Integer (-4))) = run_XX OR (Integer (-8)) (Object 10).
Proof.
  split.
  - apply (instructions_agree ADD (c_tag__VARIABLE 0) (c_tag__INTEGER 3) (Integer 2) Null); done.
  - apply (instructions_agree OR (c_tag__INTEGER (-8)) (c_tag__LITERAL (Object 10)) Null Null); done.
Defined.

Lemma folding_and_natives_agree_witness :
  PRIMITIVE_CALL (fold_FI DIVIDE (d_of 7) 2) = run_XX DIVIDE (Float (d_of 7)) (Integer 2)
  ∧ agree (PRIMITIVE_CALL (integer_native LEFT_SHIFT (-1) (Object 10))) (run_XX LEFT_SHIFT (Integer (-1)) (Object 10)).
Proof.
  destruct (@folding_and_natives_agree sample_numbers) as (Hf & _ & Hn & _). split.
  - apply (Hf DIVIDE (c_tag__FLOAT (d_of 7)) (c_tag__INTEGER 2) Null Null); done.
  - apply Hn; done.
Defined.

Lemma negative_remainder_diverges_witness :
  fold_II MODULUS (-10) 9 = Ok (Integer (-1))
  ∧ run_XX MODULUS (Integer (-10)) (Integer 9) = Ok (Value (Integer 6)).
Proof.
  destruct (negative_remainder_diverges (-10) 9) as (Hf & _ & Hr & _); [done..|]. by split.
Defined.
