(* ===== verification/Exact.v ===== *)
(** * Integers and fractions as floating-point numbers

    Sums and differences of numbers [z / 2 ^ k] are exact in [double] when the
    mantissas of the results are below 2 ^ 53, and products of integers: the
    mantissas are shifted without loss. *)
From Stdlib Require Import SpecFloat.
From stdpp Require Import base numbers.
From S2P Require Import Prelude Machine.
Local Open Scope Z_scope.

Definition exact (z : Z) : Prop := Z.abs z < 2 ^ 53.

#[export] Instance exact_dec z : Decision (exact z).
Proof. unfold exact. apply _. Defined.

(** ** Digits and shifts *)

Abbreviation digits p := (Z.pos (digits2_pos p)).
Abbreviation shifted k p := (Nat.iter k xO p).

Lemma digits_log2 p : digits p = Z.log2 (Z.pos p) + 1.
Proof.
  assert (H : ∀ q, digits2_pos q = Pos.size q) by (induction q; cbn; congruence).
  rewrite H. destruct p; cbn [Pos.size Z.log2]; lia.
Qed.

Lemma digits_exact p : exact (Z.pos p) → digits p ≤ 53.
Proof. unfold exact. intros H. rewrite digits_log2. pose proof (proj1 (Z.log2_lt_pow2 (Z.pos p) 53 ltac:(lia)) ltac:(lia)). lia. Qed.

Lemma digits_mono p q : (p ≤ q)%positive → digits p ≤ digits q.
Proof. intros H. rewrite !digits_log2. pose proof (Z.log2_le_mono (Z.pos p) (Z.pos q) ltac:(lia)). lia. Qed.

Lemma digits_shifted k p : digits (shifted k p) = digits p + Z.of_nat k.
Proof. induction k as [|k IH]; [by rewrite Z.add_0_r|]. rewrite Nat2Z.inj_succ. change (shifted (S k) p) with (xO (shifted k p)). cbn [digits2_pos]. rewrite Pos2Z.inj_succ, IH. lia. Qed.

Lemma shifted_value k p : Z.pos (shifted k p) = Z.pos p * 2 ^ Z.of_nat k.
Proof. induction k as [|k IH]; [by rewrite Z.mul_1_r|]. rewrite Nat2Z.inj_succ, Z.pow_succ_r by lia. change (shifted (S k) p) with (xO (shifted k p)). lia. Qed.

Lemma shifted_pos (p q : positive) k : Z.pos p = Z.pos q * 2 ^ Z.of_nat k → p = shifted k q.
Proof. rewrite <- shifted_value. congruence. Qed.

Lemma iter_pos_nat {A} (f : A → A) p : ∀ x, SpecFloat.iter_pos f p x = Nat.iter (Pos.to_nat p) f x.
Proof.
  induction p as [p IH|p IH|]; intros x; cbn [SpecFloat.iter_pos]; [| |done].
  - rewrite !IH, <- Nat.iter_add, Nat.iter_swap, Pos2Nat.inj_xI. change (f (Nat.iter (Pos.to_nat p + Pos.to_nat p) f x)) with (Nat.iter (S (Pos.to_nat p + Pos.to_nat p)) f x).
    f_equal. lia.
  - rewrite !IH, <- Nat.iter_add, Pos2Nat.inj_xO. f_equal. lia.
Qed.

Lemma pos_iter_shifted p d k : Pos.iter xO (shifted k p) d = shifted (Pos.to_nat d + k) p.
Proof. rewrite Pos2Nat.inj_iter. symmetry. apply Nat.iter_add. Qed.

(** Shifting out zeros loses nothing. *)
Lemma shr_shifted j : ∀ k p, (j ≤ k)%nat →
  Nat.iter j shr_1 {| shr_m := Z.pos (shifted k p); shr_r := false; shr_s := false |}
    = {| shr_m := Z.pos (shifted (k - j) p); shr_r := false; shr_s := false |}.
Proof.
  induction j as [|j IH]; intros k p Hj; [by rewrite Nat.sub_0_r|].
  match goal with |- Nat.iter (S j) ?f ?x = _ => change (Nat.iter (S j) f x) with (f (Nat.iter j f x)) end. rewrite IH by lia.
  replace (k - j)%nat with (S (k - S j)) by lia. done.
Qed.

(** ** Rounding an integer, over a power of two *)

(** [z / 2 ^ k]. *)
Definition dyadic (z : Z) (k : nat) : double := binary_normalize d_prec d_emax z (- Z.of_nat k) false.

(** The mantissa of [p / 2 ^ k] has 53 digits. *)
Definition whole (s : bool) (p : positive) (k : nat) : double :=
  S754_finite s (shifted (Z.to_nat (53 - digits p)) p) (digits p - 53 - Z.of_nat k).

(** No number is too small for that. *)
Abbreviation fine k := (k ≤ 1000)%nat.

Lemma digits_pos p : 0 < digits p.
Proof. done. Qed.

Section Rounding.
Context (p : positive) (k : nat) (Hp : digits p ≤ 53) (Hk : fine k).

Lemma fexp_digits : fexp d_prec d_emax (digits p - Z.of_nat k) = digits p - 53 - Z.of_nat k.
Proof. pose proof (digits_pos p). unfold fexp, emin, d_prec, d_emax. lia. Qed.

Lemma shr_fexp_shifted j : 53 ≤ digits p + Z.of_nat j →
  shr_fexp d_prec d_emax (Z.pos (shifted j p)) (- Z.of_nat (j + k)) loc_Exact
    = ({| shr_m := Z.pos (shifted (Z.to_nat (53 - digits p)) p); shr_r := false; shr_s := false |}, digits p - 53 - Z.of_nat k).
Proof.
  intros Hj. unfold shr_fexp. cbn [Zdigits2 shr_record_of_loc]. rewrite digits_shifted.
  replace (digits p + Z.of_nat j + - Z.of_nat (j + k)) with (digits p - Z.of_nat k) by lia. rewrite fexp_digits.
  destruct (digits p - 53 - Z.of_nat k - - Z.of_nat (j + k)) as [|n|n] eqn:En; [| |lia]; cbn [shr].
  - replace j with (Z.to_nat (53 - digits p)) by lia. f_equal; lia.
  - rewrite iter_pos_nat, shr_shifted by lia. f_equal; [|lia]. do 2 f_equal. f_equal. lia.
Qed.

Lemma round_aux_whole s j : 53 ≤ digits p + Z.of_nat j →
  binary_round_aux d_prec d_emax s (Z.pos (shifted j p)) (- Z.of_nat (j + k)) loc_Exact = whole s p k.
Proof.
  intros Hj. unfold binary_round_aux. rewrite shr_fexp_shifted by done. cbn [shr_m loc_of_shr_record round_nearest_even].
  replace (digits p - 53 - Z.of_nat k) with (- Z.of_nat (Z.to_nat (53 - digits p) + k)) at 1 by lia.
  rewrite shr_fexp_shifted by lia. cbn [shr_m]. unfold d_emax, d_prec. by rewrite (proj2 (Z.leb_le _ _)) by lia.
Qed.

Lemma round_whole s j : binary_round d_prec d_emax s (shifted j p) (- Z.of_nat (j + k)) = whole s p k.
Proof.
  unfold binary_round. rewrite digits_shifted. replace (digits p + Z.of_nat j + - Z.of_nat (j + k)) with (digits p - Z.of_nat k) by lia.
  rewrite fexp_digits. unfold shl_align.
  destruct (digits p - 53 - Z.of_nat k - - Z.of_nat (j + k)) as [|n|n] eqn:En; try (apply round_aux_whole; lia).
  rewrite pos_iter_shifted. replace (digits p - 53 - Z.of_nat k) with (- Z.of_nat (Pos.to_nat n + j + k)) by lia. apply round_aux_whole; lia.
Qed.
End Rounding.

Lemma dyadic_0 z : dyadic z 0 = d_of z.
Proof. done. Qed.

(** What is rounded is [0] or has a mantissa of 53 digits. *)
Lemma dyadic_whole z k : exact z → fine k → z = 0 ∨ ∃ s p, dyadic z k = whole s p k ∧ z = cond_Zopp s (Z.pos p) ∧ digits p ≤ 53.
Proof.
  intros Hz Hk. destruct z as [|p|p]; [by left|right; exists false, p|right; exists true, p]; pose proof (digits_exact p Hz);
    (split_and!; [by apply (round_whole p k)  with (j := 0%nat)|done|done]).
Qed.

(** A common factor of both parts of the fraction is lost. *)
Lemma dyadic_scale z j k : exact z → fine k → dyadic (z * 2 ^ Z.of_nat j) (j + k) = dyadic z k.
Proof.
  intros Hz Hk. unfold dyadic. destruct z as [|p|p]; [done| |].
  - rewrite <- shifted_value. cbn [binary_normalize]. rewrite round_whole by (done || by apply digits_exact).
    symmetry. apply (round_whole p k) with (j := 0%nat); [by apply digits_exact|done].
  - replace (Z.neg p * 2 ^ Z.of_nat j) with (Z.neg (shifted j p)) by (pose proof (shifted_value j p); lia). cbn [binary_normalize].
    rewrite round_whole by (done || by apply digits_exact). symmetry. apply (round_whole p k) with (j := 0%nat); [by apply digits_exact|done].
Qed.

(** Equal fractions. *)
Lemma dyadic_equal x j z k : exact z → fine k → x * 2 ^ Z.of_nat k = z * 2 ^ Z.of_nat j → dyadic x j = dyadic z k.
Proof.
  intros Hz Hk H. destruct (decide (k ≤ j)%nat) as [Hle|Hgt].
  - replace j with ((j - k) + k)%nat in H |- * by lia. rewrite Nat2Z.inj_add, Z.pow_add_r in H by lia.
    assert (x = z * 2 ^ Z.of_nat (j - k)) as -> by nia. by apply dyadic_scale.
  - replace k with ((k - j) + j)%nat in H |- * by lia. rewrite Nat2Z.inj_add, Z.pow_add_r in H by lia.
    assert (z = x * 2 ^ Z.of_nat (k - j)) as -> by nia. symmetry. apply dyadic_scale; [unfold exact in *; nia|lia].
Qed.

(** ** Operations *)

Lemma align_whole p j l : digits p ≤ 53 → 53 - digits p + Z.of_nat j ≤ Z.of_nat l →
  Z.pos (fst (shl_align (shifted (Z.to_nat (53 - digits p)) p) (digits p - 53 - Z.of_nat j) (- Z.of_nat l))) = Z.pos p * 2 ^ Z.of_nat (l - j).
Proof.
  intros Hp Hl. unfold shl_align. destruct (- Z.of_nat l - (digits p - 53 - Z.of_nat j)) as [|n|n] eqn:En; [| |]; cbn [fst].
  - rewrite shifted_value. do 2 f_equal. lia.
  - lia.
  - rewrite pos_iter_shifted, shifted_value. do 2 f_equal. lia.
Qed.

Abbreviation pow2 k := (2 ^ Z.of_nat k).

Lemma pow2_pos k : 0 < pow2 k.
Proof. by apply Z.pow_pos_nonneg; lia. Qed.

Lemma pow2_sub l j : (j ≤ l)%nat → pow2 l = pow2 (l - j) * pow2 j.
Proof. intros H. rewrite <- Z.pow_add_r by lia. f_equal. lia. Qed.

(** [x / 2 ^ j + y / 2 ^ k = z / 2 ^ m]. *)
Definition sum_of (x : Z) (j : nat) (y : Z) (k : nat) (z : Z) (m : nat) : Prop :=
  x * pow2 k * pow2 m + y * pow2 j * pow2 m = z * pow2 j * pow2 k.

Section Sum.
Context (s t : bool) (p q : positive) (j k m : nat) (z : Z).
Hypothesis Hp : digits p ≤ 53.
Hypothesis Hq : digits q ≤ 53.
Hypothesis Hz : exact z.
Hypothesis Hm : fine m.

(** Both mantissas are shifted to the smaller exponent. *)
Lemma aligned : ∃ l, (j ≤ l)%nat ∧ (k ≤ l)%nat ∧ Z.min (digits p - 53 - Z.of_nat j) (digits q - 53 - Z.of_nat k) = - Z.of_nat l ∧
  Z.pos (fst (shl_align (shifted (Z.to_nat (53 - digits p)) p) (digits p - 53 - Z.of_nat j) (- Z.of_nat l))) = Z.pos p * pow2 (l - j) ∧
  Z.pos (fst (shl_align (shifted (Z.to_nat (53 - digits q)) q) (digits q - 53 - Z.of_nat k) (- Z.of_nat l))) = Z.pos q * pow2 (l - k).
Proof.
  exists (Z.to_nat (- Z.min (digits p - 53 - Z.of_nat j) (digits q - 53 - Z.of_nat k))). split_and!; [lia..| |]; apply align_whole; lia.
Qed.

Lemma sum_dyadic x y l : (j ≤ l)%nat → (k ≤ l)%nat → sum_of x j y k z m →
  binary_normalize d_prec d_emax (x * pow2 (l - j) + y * pow2 (l - k)) (- Z.of_nat l) false = dyadic z m.
Proof.
  intros Hj Hk H. apply dyadic_equal; [done..|]. unfold sum_of in H. pose proof (pow2_sub l j Hj) as Ej. pose proof (pow2_sub l k Hk) as Ek.
  apply (Z.mul_reg_r _ _ (pow2 j * pow2 k)); [pose proof (pow2_pos j); pose proof (pow2_pos k); nia|].
  transitivity (pow2 l * (x * pow2 k * pow2 m + y * pow2 j * pow2 m)); [|rewrite H; ring].
  transitivity (x * pow2 m * pow2 k * (pow2 (l - j) * pow2 j) + y * pow2 m * pow2 j * (pow2 (l - k) * pow2 k)); [ring|].
  rewrite <- Ej, <- Ek. ring.
Qed.

Lemma add_whole : sum_of (cond_Zopp s (Z.pos p)) j (cond_Zopp t (Z.pos q)) k z m → d_add (whole s p j) (whole t q k) = dyadic z m.
Proof.
  intros H. destruct aligned as (l & Hj & Hk & Hl & H1 & H2). unfold d_add, whole. cbn [SFadd]. rewrite Hl, H1, H2.
  rewrite <- (sum_dyadic _ _ l Hj Hk H). f_equal. destruct s, t; cbn [cond_Zopp]; lia.
Qed.

Lemma sub_whole : sum_of (cond_Zopp s (Z.pos p)) j (- cond_Zopp t (Z.pos q)) k z m → d_sub (whole s p j) (whole t q k) = dyadic z m.
Proof.
  intros H. destruct aligned as (l & Hj & Hk & Hl & H1 & H2). unfold d_sub, whole. cbn [SFsub]. rewrite Hl, H1, H2.
  rewrite <- (sum_dyadic _ _ l Hj Hk H). f_equal. destruct s, t; cbn [cond_Zopp]; lia.
Qed.
End Sum.

(** Sums and differences that have a mantissa of 53 digits are exact. *)
Section Operations.
Context (x : Z) (j : nat) (y : Z) (k : nat) (z : Z) (m : nat).
Hypothesis Hx : exact x.
Hypothesis Hy : exact y.
Hypothesis Hz : exact z.
Hypothesis Hj : fine j.
Hypothesis Hk : fine k.
Hypothesis Hm : fine m.

Lemma sum_zero_l u : x = 0 → sum_of x j u k z m → u * pow2 m = z * pow2 k.
Proof. intros -> H. unfold sum_of in H. pose proof (pow2_pos j). nia. Qed.

Lemma sum_zero_r : sum_of x j 0 k z m → x * pow2 m = z * pow2 j.
Proof. intros H. unfold sum_of in H. pose proof (pow2_pos k). nia. Qed.

Lemma d_add_dyadic : sum_of x j y k z m → d_add (dyadic x j) (dyadic y k) = dyadic z m.
Proof.
  intros H. destruct (dyadic_whole x j Hx Hj) as [Ex|(s & p & Ex & Ep & Hp)].
  - rewrite Ex. transitivity (dyadic y k); [by destruct (dyadic_whole y k Hy Hk) as [->|(t & q & -> & _ & _)]|]. apply dyadic_equal; [done..|]. by apply sum_zero_l.
  - destruct (dyadic_whole y k Hy Hk) as [Ey|(t & q & Ey & Eq & Hq)].
    + rewrite Ey in H |- *. transitivity (dyadic x j); [by rewrite Ex|]. apply dyadic_equal; [done..|]. by apply sum_zero_r.
    + rewrite Ex, Ey. apply add_whole; try done. by rewrite <- Ep, <- Eq.
Qed.

Lemma d_sub_zero : d_sub (dyadic 0 j) (dyadic y k) = dyadic (- y) k.
Proof.
  destruct (dyadic_whole y k Hy Hk) as [->|(t & q & Ey & -> & Hq)]; [done|]. rewrite Ey.
  replace (- cond_Zopp t (Z.pos q)) with (cond_Zopp (negb t) (Z.pos q)) by by destruct t.
  destruct t; symmetry; apply (round_whole q k Hq Hk) with (j := 0%nat).
Qed.

Lemma d_sub_dyadic : sum_of x j (- y) k z m → d_sub (dyadic x j) (dyadic y k) = dyadic z m.
Proof.
  intros H. destruct (dyadic_whole x j Hx Hj) as [Ex|(s & p & Ex & Ep & Hp)].
  - rewrite Ex, d_sub_zero. apply dyadic_equal; [done..|]. by apply sum_zero_l.
  - destruct (dyadic_whole y k Hy Hk) as [Ey|(t & q & Ey & Eq & Hq)].
    + rewrite Ey in H |- *. transitivity (dyadic x j); [by rewrite Ex|]. apply dyadic_equal; [done..|]. by apply sum_zero_r.
    + rewrite Ex, Ey. apply sub_whole; try done. by rewrite <- Ep, <- Eq.
Qed.
End Operations.

(** Integers. *)
Lemma d_add_exact x y : exact x → exact y → exact (x + y) → d_add (d_of x) (d_of y) = d_of (x + y).
Proof. intros Hx Hy Hs. apply (d_add_dyadic x 0 y 0 (x + y) 0); try done; try lia. unfold sum_of. lia. Qed.

Lemma d_sub_exact x y : exact x → exact y → exact (x - y) → d_sub (d_of x) (d_of y) = d_of (x - y).
Proof. intros Hx Hy Hs. apply (d_sub_dyadic x 0 y 0 (x - y) 0); try done; try lia. unfold sum_of. lia. Qed.

Lemma d_mul_exact x y : exact x → exact y → exact (x * y) → 0 < y → d_mul (d_of x) (d_of y) = d_of (x * y).
Proof.
  intros Hx Hy Hs Hn. rewrite <- !dyadic_0. destruct (dyadic_whole y 0 Hy ltac:(lia)) as [->|(t & q & Ey & -> & Hq)]; [done|].
  destruct t; cbn [cond_Zopp] in *; [lia|].
  destruct (dyadic_whole x 0 Hx ltac:(lia)) as [->|(s & p & Ex & -> & Hp)]; rewrite Ey; [done|]. rewrite Ex.
  unfold d_mul, whole. cbn [SFmul]. rewrite xorb_false_r.
  assert (HM : digits (p * q) ≤ 53) by (apply digits_exact; destruct s; cbn [cond_Zopp] in Hs; unfold exact in *; lia).
  assert (Hm : digits p ≤ digits (p * q)) by (apply digits_mono; nia).
  set (a := Z.to_nat (53 - digits p)). set (b := Z.to_nat (53 - digits q)).
  assert (shifted a p * shifted b q = shifted (a + b) (p * q))%positive as ->.
  { apply shifted_pos. rewrite !Pos2Z.inj_mul, !shifted_value, Nat2Z.inj_add, Z.pow_add_r by lia. lia. }
  replace (digits p - 53 - Z.of_nat 0 + (digits q - 53 - Z.of_nat 0)) with (- Z.of_nat (a + b + 0)) by lia.
  rewrite round_aux_whole by lia. symmetry.
  destruct s; [change (cond_Zopp true (Z.pos p) * Z.pos q) with (Z.neg (p * q))|change (cond_Zopp false (Z.pos p) * Z.pos q) with (Z.pos (p * q))];
    apply (round_whole (p * q) 0 HM ltac:(lia)) with (j := 0%nat).
Qed.

(** ** Rounding down *)

(** [std::floor], and the conversion to an integer. *)
Definition d_floor (d : double) : option Z :=
  match d with
  | S754_zero _ => Some 0
  | S754_finite s m e => Some (if 0 <=? e then cond_Zopp s (Z.pos m) * 2 ^ e else cond_Zopp s (Z.pos m) / 2 ^ (- e))
  | _ => None
  end.

Lemma d_floor_dyadic z k : exact z → fine k → d_floor (dyadic z k) = Some (z / pow2 k).
Proof.
  intros Hz Hk. destruct (dyadic_whole z k Hz Hk) as [->|(s & p & -> & -> & Hp)]; [done|]. unfold whole. cbn [d_floor]. f_equal.
  set (l := Z.to_nat (53 - digits p)).
  assert (HE : cond_Zopp s (Z.pos (shifted l p)) = cond_Zopp s (Z.pos p) * pow2 l) by (rewrite shifted_value; destruct s; cbn [cond_Zopp]; lia).
  rewrite HE. destruct (Z.leb_spec 0 (digits p - 53 - Z.of_nat k)).
  - replace (digits p - 53 - Z.of_nat k) with 0 by lia. replace l with 0%nat by lia. replace k with 0%nat by lia. rewrite Z.div_1_r. lia.
  - replace (- (digits p - 53 - Z.of_nat k)) with (Z.of_nat k + Z.of_nat l) by lia. rewrite Z.pow_add_r by lia.
    pose proof (pow2_pos l). pose proof (pow2_pos k). by rewrite Z.div_mul_cancel_r by lia.
Qed.

Lemma d_floor_exact z : exact z → d_floor (d_of z) = Some z.
Proof. intros Hz. rewrite <- dyadic_0, d_floor_dyadic by (done || lia). by rewrite Z.div_1_r. Qed.
