(* ===== verification/Time.v ===== *)
(** * Times (src: modules/time.cc)

    A time is a [double], the seconds since the beginning of 1970; [compose]
    makes one from the items of a tuple, and [decompose] a tuple of a time. *)
From stdpp Require Import base list numbers strings.
From S2P Require Import Prelude Machine Exact Keys.
From S2P Require Operators.
Local Open Scope Z_scope.

(** ** Items *)

Definition item_type {A} : outcome A := throw "item must be of another type.".

(** The items are counted before they are accessed. *)
Definition item_at (a_tuple : list key) (a_index : nat) : outcome key :=
  match a_tuple !! a_index with Some x => Ok x | None => Fault end.

Definition f_item (a_tuple : list key) (a_index : nat) : outcome Z :=
  a ← item_at a_tuple a_index;
  match a with key_integer z => Ok z | _ => item_type end.

Definition f_item_with_fraction (a_tuple : list key) (a_index : nat) : outcome double :=
  a ← item_at a_tuple a_index;
  match a with key_integer z => Ok (d_of z) | key_float d => Ok d | _ => item_type end.

(** ** [compose] *)

(** Signed arithmetic must not overflow. *)
Abbreviation checked := Operators.checked.

Definition v_epoch_days : Z := 1969 * 365 + 1969 ÷ 4 - 1969 ÷ 100 + 1969 ÷ 400.

Definition v_month_base_days : list Z := [0; 31; 59; 90; 120; 151; 181; 212; 243; 273; 304; 334].

(** The days of a year and a month, and of a day of it. *)
Definition compose_days (year month day : Z) : outcome Z :=
  month ← checked (month - 1);
  year ← checked (year + month ÷ 12);
  let month := Z.rem month 12 in
  '(year, month) ← (if month <? 0 then year ← checked (year - 1); Ok (year, month + 12) else Ok (year, month));
  days ← rd v_month_base_days month;
  let days := if (1 <? month) && (Z.rem year 4 =? 0) && (negb (Z.rem year 100 =? 0) || (Z.rem year 400 =? 0)) then days + 1 else days in
  year ← checked (year - 1);
  n ← checked (year * 365);
  n ← checked (n + year ÷ 4);
  n ← checked (n - year ÷ 100);
  n ← checked (n + year ÷ 400);
  days ← checked (days + n);
  days ← checked (days + day);
  days ← checked (days - 1);
  checked (days - v_epoch_days).

(** The time of the days; items that are missing are zero. *)
Definition compose_time (days : Z) (a_value : list key) : outcome double :=
  let n := length a_value in
  let t := d_mul (d_of days) (d_of 24) in
  t ← (if (4 <=? n)%nat then x ← f_item a_value 3; Ok (d_add t (d_of x)) else Ok t);
  let t := d_mul t (d_of 60) in
  t ← (if (5 <=? n)%nat then x ← f_item a_value 4; Ok (d_add t (d_of x)) else Ok t);
  let t := d_mul t (d_of 60) in
  if (6 <=? n)%nat then x ← f_item_with_fraction a_value 5; Ok (d_add t x) else Ok t.

Definition compose (a_value : list key) : outcome double :=
  if (length a_value <? 3)%nat then throw "must have at least 3 items." else
  year ← f_item a_value 0;
  month ← f_item a_value 1;
  day ← f_item a_value 2;
  days ← compose_days year month day;
  compose_time days a_value.

(** ** [decompose] *)

(** [std::tm]: the year counts from 1900, and the month and the day of the
    year from zero. *)
Record tm := Tm { tm_year : Z; tm_mon : Z; tm_mday : Z; tm_hour : Z; tm_min : Z; tm_sec : Z; tm_wday : Z; tm_yday : Z }.

Definition leap (y : Z) : bool := (y mod 4 =? 0) && (negb (y mod 100 =? 0) || (y mod 400 =? 0)).

Definition month_lengths (l : bool) : list Z := [31; if l then 29 else 28; 31; 30; 31; 30; 31; 31; 30; 31; 30; 31].

(** The month of a day of the year, and the day of the month. *)
Fixpoint find_month (lengths : list Z) (m yday : Z) : Z * Z :=
  match lengths with
  | [] => (m, yday + 1)
  | l :: lengths => if yday <? l then (m, yday + 1) else find_month lengths (m + 1) (yday - l)
  end.

(** The year of a day of the Gregorian calendar, and the day of the year: by
    the periods of 400, 100, 4 years and a year from the beginning of year 1. *)
Definition find_year (n : Z) : Z * Z :=
  let c := Z.min 3 (n mod 146097 / 36524) in
  let r := n mod 146097 - c * 36524 in
  let y := Z.min 3 (r mod 1461 / 365) in
  (400 * (n / 146097) + 100 * c + 4 * (r / 1461) + y + 1, r mod 1461 - y * 365).

(** [std::gmtime] gives NULL if the year is not an [int]. *)
Definition gmtime (t : Z) : option tm :=
  let days := t / 86400 in
  let s := t mod 86400 in
  let '(y, yday) := find_year (days + 719162) in
  let '(m, d) := find_month (month_lengths (leap y)) 0 yday in
  if decide (- 2 ^ 31 <= y - 1900 < 2 ^ 31) then
    Some (Tm (y - 1900) m d (s / 3600) (s mod 3600 / 60) (s mod 60) ((days + 4) mod 7) yday)
  else None.

(** Converting what is not a [std::time_t], and reading from NULL, are not
    defined. *)
Definition decompose (a_value : double) : outcome (list key) :=
  match d_floor a_value with
  | None => Fault
  | Some t0 =>
    if decide (is_intptr t0) then
      let fraction := d_sub a_value (d_of t0) in
      match gmtime t0 with
      | None => Fault
      | Some t1 =>
        Ok [key_integer (tm_year t1 + 1900); key_integer (tm_mon t1 + 1); key_integer (tm_mday t1);
            key_integer (tm_hour t1); key_integer (tm_min t1); key_float (d_add (d_of (tm_sec t1)) fraction);
            key_integer (tm_wday t1); key_integer (tm_yday t1 + 1)]
      end
    else Fault
  end.

(** ** The calendar *)

Record date := Date { year : Z; month : Z; day : Z }.

Definition month_length (l : bool) (m : Z) : Z := cell 0 (month_lengths l) (m - 1).

Definition valid (x : date) : Prop := 1 <= month x <= 12 ∧ 1 <= day x <= month_length (leap (year x)) (month x).

(** The day after. *)
Definition tomorrow (x : date) : date :=
  if day x <? month_length (leap (year x)) (month x) then Date (year x) (month x) (day x + 1)
  else if month x <? 12 then Date (year x) (month x + 1) 1
  else Date (year x + 1) 1 1.

(** The days before a year, from the beginning of year 1. *)
Definition days_before (y : Z) : Z := (y - 1) * 365 + (y - 1) / 4 - (y - 1) / 100 + (y - 1) / 400.

(** The days before a month of a year. *)
Definition days_in (l : bool) (m : Z) : Z := cell 0 v_month_base_days (m - 1) + (if (2 <? m) && l then 1 else 0).

Definition number (x : date) : Z := days_before (year x) + days_in (leap (year x)) (month x) + day x - 1 - v_epoch_days.

Lemma div_step y k : 0 < k → y / k = (y - 1) / k + (if y mod k =? 0 then 1 else 0).
Proof. intros Hk. destruct (Z.eqb_spec (y mod k) 0); Z.div_mod_to_equations; nia. Qed.

Lemma multiples y : (y mod 400 = 0 → y mod 100 = 0) ∧ (y mod 100 = 0 → y mod 4 = 0).
Proof. split; intros H; Z.div_mod_to_equations; lia. Qed.

Lemma leap_days y : days_before (y + 1) = days_before y + 365 + (if leap y then 1 else 0).
Proof.
  unfold days_before, leap. rewrite Z.add_simpl_r, (div_step y 4), (div_step y 100), (div_step y 400) by done.
  pose proof (multiples y) as [H1 H2].
  destruct (Z.eqb_spec (y mod 4) 0), (Z.eqb_spec (y mod 100) 0), (Z.eqb_spec (y mod 400) 0); cbn [andb orb negb]; try lia; tauto.
Qed.

(** A month of a year by its number. *)
Lemma month_cases (P : Z → Prop) m : 1 <= m <= 12 → P 1 → P 2 → P 3 → P 4 → P 5 → P 6 → P 7 → P 8 → P 9 → P 10 → P 11 → P 12 → P m.
Proof.
  intros Hm. assert (m = 1 ∨ m = 2 ∨ m = 3 ∨ m = 4 ∨ m = 5 ∨ m = 6 ∨ m = 7 ∨ m = 8 ∨ m = 9 ∨ m = 10 ∨ m = 11 ∨ m = 12) as H by lia.
  by destruct_or! H; subst.
Qed.

Lemma days_in_next l m : 1 <= m <= 12 →
  days_in l m + month_length l m = if m <? 12 then days_in l (m + 1) else 365 + (if l then 1 else 0).
Proof. intros Hm. pattern m. apply month_cases; [exact Hm|..]; by destruct l. Qed.

Lemma days_in_1 l : days_in l 1 = 0.
Proof. by destruct l. Qed.

(** Consecutive days have consecutive numbers. *)
Lemma number_tomorrow x : valid x → number (tomorrow x) = number x + 1.
Proof.
  destruct x as [y m d]. intros [Hm Hd]. unfold tomorrow, number. cbn [year month day] in *. pose proof (days_in_next (leap y) m Hm) as Hn.
  destruct (Z.ltb_spec d (month_length (leap y) m)); cbn [year month day]; [lia|].
  destruct (Z.ltb_spec m 12); cbn [year month day]; [lia|]. rewrite leap_days, days_in_1. lia.
Qed.

Lemma month_length_bounds l m : 1 <= m <= 12 → 28 <= month_length l m <= 31.
Proof. intros Hm. pattern m. apply month_cases; [exact Hm|..]; destruct l; vm_compute; split; discriminate. Qed.

Lemma valid_tomorrow x : valid x → valid (tomorrow x).
Proof.
  destruct x as [y m d]. intros [Hm Hd]. unfold tomorrow, valid in *. cbn [year month day] in *.
  destruct (Z.ltb_spec d (month_length (leap y) m)); cbn [year month day]; [lia|].
  destruct (Z.ltb_spec m 12); cbn [year month day].
  - pose proof (month_length_bounds (leap y) (m + 1) ltac:(lia)). lia.
  - pose proof (month_length_bounds (leap (y + 1)) 1 ltac:(lia)). lia.
Qed.

(** ** Composition *)

(** Division that truncates, of numbers that are not negative. *)
Lemma quot_div y k : 0 <= y → 0 < k → y ÷ k = y / k ∧ Z.rem y k = y mod k.
Proof. intros. split; [by apply Z.quot_div_nonneg; lia|by apply Z.rem_mod_nonneg; lia]. Qed.

Lemma checked_ok z : is_intptr z → checked z = Ok z.
Proof. intros Hz. unfold Operators.checked. by rewrite decide_True by done. Qed.

(** A month counts from the beginning of its year, whatever year it is given
    with: [m - 1 + 12 k] months of [y - k]. *)
Lemma normal_month y m k : 1 <= m <= 12 →
  let n := m - 1 + 12 * k in
  (if Z.rem n 12 <? 0 then y - k + n ÷ 12 - 1 = y ∧ Z.rem n 12 + 12 = m - 1 else y - k + n ÷ 12 = y ∧ Z.rem n 12 = m - 1).
Proof.
  intros Hm n. pose proof (Z.quot_rem' n 12) as HQ. pose proof (Z.rem_bound_abs n 12 ltac:(done)) as HR.
  destruct (Z.ltb_spec (Z.rem n 12) 0) as [Hr|Hr]; unfold n in *.
  - assert (Z.rem (m - 1 + 12 * k) 12 = m - 1 - 12) by lia. split; lia.
  - assert (Z.rem (m - 1 + 12 * k) 12 = m - 1) by lia. split; lia.
Qed.

Lemma v_epoch_days_eq : v_epoch_days = 719162.
Proof. reflexivity. Qed.

Lemma leap_rem y : 0 <= y → (Z.rem y 4 =? 0) && (negb (Z.rem y 100 =? 0) || (Z.rem y 400 =? 0)) = leap y.
Proof. intros Hy. unfold leap. by rewrite (proj2 (quot_div y 4 Hy ltac:(done))), (proj2 (quot_div y 100 Hy ltac:(done))), (proj2 (quot_div y 400 Hy ltac:(done))). Qed.

(** Dates of which no number overflows. *)
Definition moderate (z : Z) : Prop := - 10 ^ 9 <= z <= 10 ^ 9.

Lemma intptr_bound z : - 2 ^ 62 <= z <= 2 ^ 62 → is_intptr z.
Proof. unfold is_intptr, INTPTR_MIN, INTPTR_MAX. lia. Qed.

Lemma month_base_at m : 1 <= m <= 12 → rd v_month_base_days (m - 1) =@{outcome Z} Ok (cell 0 v_month_base_days (m - 1)) ∧ 0 <= cell 0 v_month_base_days (m - 1) <= 334.
Proof. intros Hm. split; [apply rd_cell; cbn; lia|]. pattern m. apply month_cases; [exact Hm|..]; vm_compute; split; discriminate. Qed.

Lemma compose_days_ok y m k d : 1 <= y → moderate y → 1 <= m <= 12 → moderate k → moderate d →
  compose_days (y - k) (m + 12 * k) d = Ok (number (Date y m d)).
Proof.
  unfold moderate. intros Hy Hy' Hm Hk Hd. unfold compose_days.
  replace (m + 12 * k - 1) with (m - 1 + 12 * k) by lia.
  pose proof (normal_month y m k Hm) as Hn. cbv zeta in Hn. set (n := m - 1 + 12 * k) in *.
  assert (HQ : - 10 ^ 9 - 1 <= n ÷ 12 <= 10 ^ 9 + 1) by (destruct (Z.rem n 12 <? 0); lia).
  rewrite (checked_ok n) by (apply intptr_bound; lia). cbn [mbind outcome_bind].
  rewrite (checked_ok (y - k + n ÷ 12)) by (apply intptr_bound; lia). cbn [mbind outcome_bind].
  assert ((if Z.rem n 12 <? 0 then year ← checked (y - k + n ÷ 12 - 1); Ok (year, Z.rem n 12 + 12) else Ok (y - k + n ÷ 12, Z.rem n 12)) = Ok (y, m - 1)) as ->.
  { destruct (Z.rem n 12 <? 0); destruct Hn as [-> ->]; [|done]. by rewrite checked_ok by (apply intptr_bound; lia). }
  cbn [mbind outcome_bind]. destruct (month_base_at m Hm) as [-> Hb]. cbn [mbind outcome_bind].
  replace (1 <? m - 1) with (2 <? m) by (destruct (Z.ltb_spec 2 m), (Z.ltb_spec 1 (m - 1)); lia || done).
  rewrite <- andb_assoc, leap_rem by lia. set (b := cell 0 v_month_base_days (m - 1)) in *.
  destruct (quot_div (y - 1) 4 ltac:(lia) ltac:(lia)) as [E4 _], (quot_div (y - 1) 100 ltac:(lia) ltac:(lia)) as [E100 _], (quot_div (y - 1) 400 ltac:(lia) ltac:(lia)) as [E400 _].
  assert (HD : 0 <= (y - 1) / 4 <= 10 ^ 9 ∧ 0 <= (y - 1) / 100 <= 10 ^ 9 ∧ 0 <= (y - 1) / 400 <= 10 ^ 9) by (Z.div_mod_to_equations; lia).
  assert (HL : (if (2 <? m) && leap y then b + 1 else b) = b + (if (2 <? m) && leap y then 1 else 0)) by (destruct ((2 <? m) && leap y); lia).
  rewrite HL. assert (Hl : 0 <= (if (2 <? m) && leap y then 1 else 0) <= 1) by (destruct ((2 <? m) && leap y); lia).
  set (l := if (2 <? m) && leap y then 1 else 0) in *. cbv zeta.
  repeat (rewrite checked_ok by (apply intptr_bound; rewrite ?E4, ?E100, ?E400, ?v_epoch_days_eq; lia); cbn [mbind outcome_bind]).
  f_equal. unfold number, days_before, days_in. cbn [year month day]. fold b l. rewrite E4, E100, E400. lia.
Qed.

Lemma exact_bound z : - 2 ^ 52 <= z <= 2 ^ 52 → exact z.
Proof. unfold exact. lia. Qed.

(** The item of the seconds: [s / 2 ^ k], or an integer. *)
Definition seconds (x : key) (s : Z) (k : nat) : Prop := x = key_float (dyadic s k) ∨ k = 0%nat ∧ x = key_integer s.

Lemma compose_time_ok days y m d h mi s k x rest :
  - 10 ^ 9 * 400 <= days <= 10 ^ 9 * 400 → moderate h → moderate mi → seconds x s k → (k ≤ 900)%nat → exact s →
  let minutes := (days * 24 + h) * 60 + mi in
  - 2 ^ 52 <= minutes * 60 <= 2 ^ 52 → exact (minutes * 60 * pow2 k + s) →
  compose_time days (y :: m :: d :: key_integer h :: key_integer mi :: x :: rest) = Ok (dyadic (minutes * 60 * pow2 k + s) k).
Proof.
  intros Hdays Hh Hmi Hx Hk Hs minutes Hm Ht. unfold moderate in *. unfold compose_time. cbn [length Nat.leb f_item item_at lookup list_lookup mbind outcome_bind].
  assert (f_item_with_fraction (y :: m :: d :: key_integer h :: key_integer mi :: x :: rest) 5 = Ok (dyadic s k)) as -> by by destruct Hx as [->|[-> ->]].
  cbn [mbind outcome_bind].
  rewrite d_mul_exact by (try apply exact_bound; lia).
  rewrite d_add_exact by (try apply exact_bound; lia).
  rewrite d_mul_exact by (try apply exact_bound; lia).
  rewrite d_add_exact by (try apply exact_bound; lia).
  rewrite d_mul_exact by (try apply exact_bound; lia).
  f_equal. apply (d_add_dyadic _ 0); [by apply exact_bound|done|done|lia..|]. unfold sum_of. fold minutes. change (pow2 0) with 1. ring.
Qed.

Lemma number_bounds x : valid x → 1 <= year x → moderate (year x) → - 10 ^ 6 <= number x <= 10 ^ 9 * 366 + 10 ^ 6.
Proof.
  destruct x as [y m d]. unfold valid, moderate, number, days_before. cbn [year month day]. intros [Hm Hd] Hy Hy'.
  pose proof (days_in_next (leap y) m Hm). pose proof (month_length_bounds (leap y) m Hm). rewrite v_epoch_days_eq.
  assert (0 <= days_in (leap y) m <= 366) by (unfold days_in; pose proof (month_base_at m Hm) as [_ ?]; destruct ((2 <? m) && leap y); lia).
  Z.div_mod_to_equations. lia.
Qed.

Lemma compose_ok y m j d h mi s k x rest : valid (Date y m d) → 1 <= y → moderate y → moderate j →
  moderate h → moderate mi → seconds x s k → (k ≤ 900)%nat → exact s →
  let minutes := (number (Date y m d) * 24 + h) * 60 + mi in
  - 2 ^ 52 <= minutes * 60 <= 2 ^ 52 → exact (minutes * 60 * pow2 k + s) →
  compose (key_integer (y - j) :: key_integer (m + 12 * j) :: key_integer d :: key_integer h :: key_integer mi :: x :: rest)
    = Ok (dyadic (minutes * 60 * pow2 k + s) k).
Proof.
  intros Hv Hy Hy' Hj Hh Hmi Hx Hk Hs minutes Hm' Ht. pose proof (number_bounds _ Hv Hy Hy') as Hb. destruct Hv as [Hm Hd]. cbn [year month day] in *.
  unfold compose. cbn [length Nat.ltb Nat.leb f_item item_at lookup list_lookup mbind outcome_bind].
  pose proof (month_length_bounds (leap y) m Hm). rewrite compose_days_ok by (done || unfold moderate; lia). cbn [mbind outcome_bind].
  apply compose_time_ok; try done. lia.
Qed.

(** ** Decomposition *)

Lemma find_month_ok (l : bool) yday : 0 <= yday < 365 + (if l then 1 else 0) →
  let '(m, d) := find_month (month_lengths l) 0 yday in
  1 <= m + 1 <= 12 ∧ 1 <= d <= month_length l (m + 1) ∧ days_in l (m + 1) + d - 1 = yday.
Proof.
  intros Hd. destruct l; cbn [month_lengths find_month].
  all: repeat match goal with |- context [?a <? ?b] => destruct (Z.ltb_spec a b) end; try lia.
  all: change (0 + 1) with 1; split_and!; try lia; match goal with |- context [month_length ?l ?m] => let r := eval vm_compute in (month_length l m) in change (month_length l m) with r | |- context [days_in ?l ?m] => let r := eval vm_compute in (days_in l m) in change (days_in l m) with r end; lia.
Qed.

Lemma find_year_ok n : 0 <= n →
  let '(y, yday) := find_year n in
  1 <= y ∧ days_before y + yday = n ∧ 0 <= yday < 365 + (if leap y then 1 else 0).
Proof.
  intros Hn. unfold find_year. set (q := n / 146097). set (r := n mod 146097).
  assert (Hr : 0 <= r < 146097) by by apply Z.mod_pos_bound. assert (HN : n = 146097 * q + r) by by apply Z.div_mod.
  assert (Hq : 0 <= q) by by apply Z.div_pos. clearbody q r.
  set (c := Z.min 3 (r / 36524)). assert (Hc : 0 <= c <= 3 ∧ 0 <= r - c * 36524 < 36524 + (if c =? 3 then 1 else 0)).
  { unfold c. destruct (Z.eqb_spec (Z.min 3 (r / 36524)) 3); Z.div_mod_to_equations; lia. }
  clearbody c. set (r2 := r - c * 36524) in *. set (p := r2 / 1461). set (r3 := r2 mod 1461).
  assert (H3 : 0 <= r3 < 1461 ∧ r2 = 1461 * p + r3) by (split; [by apply Z.mod_pos_bound|by apply Z.div_mod]).
  assert (Hp : 0 <= p <= 24 ∧ (p = 24 → r3 < 1460 + (if c =? 3 then 1 else 0))).
  { destruct (Z.eqb_spec c 3); lia. }
  clearbody p r3. set (y := Z.min 3 (r3 / 365)). assert (Hy : 0 <= y <= 3 ∧ 0 <= r3 - y * 365 < 365 + (if y =? 3 then 1 else 0)).
  { unfold y. destruct (Z.eqb_spec (Z.min 3 (r3 / 365)) 3); Z.div_mod_to_equations; lia. }
  clearbody y. set (Y := 400 * q + 100 * c + 4 * p + y + 1).
  assert (E4 : (Y - 1) / 4 = 100 * q + 25 * c + p) by (symmetry; apply (Z.div_unique_pos _ _ _ y); lia).
  assert (E100 : (Y - 1) / 100 = 4 * q + c) by (symmetry; apply (Z.div_unique_pos _ _ _ (4 * p + y)); lia).
  assert (E400 : (Y - 1) / 400 = q) by (symmetry; apply (Z.div_unique_pos _ _ _ (100 * c + 4 * p + y)); lia).
  split_and!; [lia|unfold days_before; rewrite E4, E100, E400; lia|lia|].
  assert (HL : y = 3 → leap Y = negb (p =? 24) || (c =? 3)).
  { intros ->. unfold leap. assert (Y mod 4 = 0) as -> by (unfold Y; Z.div_mod_to_equations; lia). cbn [andb Z.eqb].
    destruct (Z.eqb_spec p 24) as [->|Hne].
    - assert (Y mod 100 = 0) as -> by (unfold Y; Z.div_mod_to_equations; lia). cbn [negb orb Z.eqb].
      destruct (Z.eqb_spec c 3) as [->|]; apply Z.eqb_eq || apply Z.eqb_neq; unfold Y; Z.div_mod_to_equations; lia.
    - cbn [negb orb]. assert (Y mod 100 ≠ 0) as HY%Z.eqb_neq by (unfold Y; Z.div_mod_to_equations; lia). by rewrite HY. }
  destruct (Z.eqb_spec y 3) as [Hy3|]; [|destruct (leap Y); lia].
  rewrite HL by done. destruct (Z.eqb_spec p 24), (Z.eqb_spec c 3); cbn [negb orb]; lia.
Qed.

(** The seconds of the beginning of year 1. *)
Definition year_one : Z := - 719162 * 86400.

(** The whole seconds of [n / 2 ^ k], and the rest. *)
Lemma whole_seconds_of n k : exact n → (k ≤ 47)%nat → year_one <= n / pow2 k <= 2 ^ 51 →
  let z := n / pow2 k in let f := n mod pow2 k in
  n = z * pow2 k + f ∧ 0 <= f < pow2 k ∧ d_floor (dyadic n k) = Some z ∧ d_sub (dyadic n k) (d_of z) = dyadic f k ∧
  ∀ s, 0 <= s < 60 → exact (s * pow2 k + f) ∧ d_add (d_of s) (dyadic f k) = dyadic (s * pow2 k + f) k.
Proof.
  intros Hn Hk Hz z f. unfold year_one in *. pose proof (pow2_pos k) as Hp. assert (HP : pow2 k <= 2 ^ 47) by (apply Z.pow_le_mono_r; lia).
  assert (E : n = z * pow2 k + f) by (unfold z, f; rewrite Z.mul_comm; by apply Z.div_mod; lia).
  assert (Hf : 0 <= f < pow2 k) by by apply Z.mod_pos_bound.
  assert (Ez : exact z) by (apply exact_bound; unfold z; lia). assert (Ef : exact f) by (apply exact_bound; lia).
  split_and!; [done|lia..|by apply d_floor_dyadic; [|lia]| |].
  - apply (d_sub_dyadic n k z 0 f k); try done; try lia. unfold sum_of. change (pow2 0) with 1. rewrite E at 1. ring.
  - intros s Hs. assert (Es : exact (s * pow2 k + f)) by (unfold exact; nia). split; [done|].
    apply (d_add_dyadic s 0 f k _ k); try done; try lia; [apply exact_bound; lia|]. unfold sum_of. change (pow2 0) with 1. ring.
Qed.

Lemma decompose_ok n k : exact n → (k ≤ 47)%nat → year_one <= n / pow2 k <= 2 ^ 51 →
  ∃ x h mi s, let yday := days_in (leap (year x)) (month x) + day x in
  decompose (dyadic n k) = Ok [key_integer (year x); key_integer (month x); key_integer (day x); key_integer h; key_integer mi; key_float (dyadic s k);
                           key_integer ((number x + 4) mod 7); key_integer yday] ∧
  valid x ∧ 1 <= year x <= 10 ^ 9 ∧ 0 <= h < 24 ∧ 0 <= mi < 60 ∧ 0 <= s < 60 * pow2 k ∧ exact s ∧
  ((number x * 24 + h) * 60 + mi) * 60 * pow2 k + s = n.
Proof.
  intros Hn Hk Hz. destruct (whole_seconds_of n k Hn Hk Hz) as (En & Hf & Efl & Esub & Eadd).
  set (z := n / pow2 k) in *. set (f := n mod pow2 k) in *. clearbody z f. unfold year_one in Hz.
  unfold decompose. rewrite Efl. rewrite decide_True by (apply intptr_bound; lia). unfold gmtime. cbv zeta. rewrite Esub.
  assert (HD : - 719162 <= z / 86400 <= 2 ^ 51) by (Z.div_mod_to_equations; lia).
  assert (HS : 0 <= z mod 86400 < 86400 ∧ z = 86400 * (z / 86400) + z mod 86400) by (split; [by apply Z.mod_pos_bound|by apply Z.div_mod]).
  set (days := z / 86400) in *. set (t := z mod 86400) in *. assert (HDm : days <= 10 ^ 11) by lia.
  pose proof (find_year_ok (days + 719162) ltac:(lia)) as HY. destruct (find_year (days + 719162)) as [y yday]. destruct HY as (Hy & Hyn & Hyd).
  pose proof (find_month_ok (leap y) yday Hyd) as HM. destruct (find_month (month_lengths (leap y)) 0 yday) as [m d]. destruct HM as (Hm & Hd & Hmd).
  assert (Hyb : y <= 10 ^ 9) by (unfold days_before in Hyn; Z.div_mod_to_equations; lia).
  rewrite decide_True by lia. cbn [tm_year tm_mon tm_mday tm_hour tm_min tm_sec tm_wday tm_yday].
  assert (HN : number (Date y (m + 1) d) = days) by (unfold number; cbn [year month day]; rewrite v_epoch_days_eq; lia).
  assert (HF : 0 <= t mod 60 < 60 ∧ 0 <= t mod 3600 / 60 < 60 ∧ 0 <= t / 3600 < 24 ∧ t = (t / 3600 * 60 + t mod 3600 / 60) * 60 + t mod 60) by (Z.div_mod_to_equations; lia).
  destruct (Eadd (t mod 60) ltac:(lia)) as [Es ->].
  exists (Date y (m + 1) d), (t / 3600), (t mod 3600 / 60), (t mod 60 * pow2 k + f). cbn [year month day]. rewrite HN.
  replace (y - 1900 + 1900) with y by lia. replace (yday + 1) with (days_in (leap y) (m + 1) + d) by lia.
  pose proof (pow2_pos k). clearbody days t. assert (0 <= t mod 60 * pow2 k) by nia. assert (t mod 60 * pow2 k <= 59 * pow2 k) by (apply Z.mul_le_mono_nonneg_r; lia).
  split_and!; lia || done || (rewrite En, (proj2 HS); destruct HF as (_ & _ & _ & HF); rewrite HF at 4; ring).
Qed.

(** ** Properties *)

(** C27 (compositions_count_seconds): [compose] of a date and a time counts the
    seconds since the beginning of 1970 in the Gregorian calendar, without any
    error of rounding: consecutive days have consecutive numbers, and months
    beyond the year belong to the years before or after. *)
Theorem compositions_count_seconds (y m k d h mi s : Z) :
  valid (Date y m d) → 1 <= y → moderate y → moderate k → moderate h → moderate mi → moderate s →
  let n := ((number (Date y m d) * 24 + h) * 60 + mi) * 60 + s in
  - 2 ^ 51 <= n <= 2 ^ 51 →
  compose [key_integer (y - k); key_integer (m + 12 * k); key_integer d; key_integer h; key_integer mi; key_integer s] = Ok (d_of n) ∧
  number (Date 1970 1 1) = 0 ∧ (∀ x, valid x → valid (tomorrow x) ∧ number (tomorrow x) = number x + 1).
Proof.
  intros Hv Hy Hy' Hk Hh Hmi Hs n Hn. split_and!; [|reflexivity|].
  - unfold moderate in *. rewrite (compose_ok y m k d h mi s 0); unfold moderate; try lia; try done; [|by right|by apply exact_bound; lia|apply exact_bound; lia].
    change (pow2 0) with 1. rewrite Z.mul_1_r. by apply f_equal.
  - intros x Hx. by split; [apply valid_tomorrow|apply number_tomorrow].
Qed.

(** C28 (times_decompose_and_compose): [decompose] of a time from year 1 on, a
    number of seconds [n / 2 ^ k] of which the smallest unit is [2 ^ -47] or
    more, gives a date of the Gregorian calendar and a time of the day with the
    whole fraction of the second, which together are the time exactly, the day
    of the week and of the year; and [compose] makes the same time from them. *)
Theorem times_decompose_and_compose (n : Z) (k : nat) :
  exact n → (k ≤ 47)%nat → year_one <= n / pow2 k <= 2 ^ 51 →
  ∃ x h mi s,
    let items := [key_integer (year x); key_integer (month x); key_integer (day x); key_integer h; key_integer mi; key_float (dyadic s k);
                  key_integer ((number x + 4) mod 7); key_integer (days_in (leap (year x)) (month x) + day x)] in
    decompose (dyadic n k) = Ok items ∧ compose items = Ok (dyadic n k) ∧
    valid x ∧ 0 <= h < 24 ∧ 0 <= mi < 60 ∧ 0 <= s < 60 * pow2 k ∧
    ((number x * 24 + h) * 60 + mi) * 60 * pow2 k + s = n.
Proof.
  intros Hn Hk Hz. destruct (decompose_ok n k Hn Hk Hz) as (x & h & mi & s & HD & Hv & Hy & Hh & Hmi & Hs & Es & E). exists x, h, mi, s.
  cbv zeta. split_and!; [done| |done|lia..]. destruct x as [y m d]. cbn [year month day] in *.
  replace (key_integer y) with (key_integer (y - 0)) by (f_equal; lia). replace (key_integer m) with (key_integer (m + 12 * 0)) by (f_equal; lia).
  assert (n / pow2 k = ((number (Date y m d) * 24 + h) * 60 + mi) * 60 + s / pow2 k ∧ 0 <= s / pow2 k < 60) as [Ed Hsd].
  { pose proof (pow2_pos k). rewrite <- E, Z.add_comm, Z.div_add, Z.add_comm by lia. split; [done|].
    split; [by apply Z.div_pos; lia|apply Z.div_lt_upper_bound; lia]. }
  rewrite compose_ok with (s := s) (k := k); unfold moderate; rewrite ?E; try done; try lia; [by left|unfold year_one in *; lia].
Qed.

(** Before year 1 the divisions truncate the wrong way: the last day of year 0
    has the number of the day after it. *)
Lemma year_zero_collides : compose_days 0 12 31 = compose_days 1 1 1 ∧ tomorrow (Date 0 12 31) = Date 1 1 1.
Proof. split; reflexivity. Qed.

(** A year that is not an [int] makes [std::gmtime] fail, which is not tested. *)
Lemma decompose_far_future : decompose (d_of (2 ^ 60)) = Fault.
Proof. vm_compute. reflexivity. Qed.

(** 29 February 2024, 12:34:56, given with its month in the year before. *)
Lemma compositions_count_seconds_witness :
  compose [key_integer 2023; key_integer 14; key_integer 29; key_integer 12; key_integer 34; key_integer 56] = Ok (d_of 1709210096) ∧
  number (Date 1970 1 1) = 0 ∧ (∀ x, valid x → valid (tomorrow x) ∧ number (tomorrow x) = number x + 1).
Proof.
  apply (compositions_count_seconds 2024 2 1 29 12 34 56); repeat split; vm_compute; discriminate.
Defined.

(** The last quarter of a second of 28 February 2000. *)
Lemma times_decompose_and_compose_witness : ∃ x h mi s,
  let items := [key_integer (year x); key_integer (month x); key_integer (day x); key_integer h; key_integer mi; key_float (dyadic s 2);
                key_integer ((number x + 4) mod 7); key_integer (days_in (leap (year x)) (month x) + day x)] in
  decompose (dyadic 3807129599 2) = Ok items ∧ compose items = Ok (dyadic 3807129599 2) ∧
  valid x ∧ 0 <= h < 24 ∧ 0 <= mi < 60 ∧ 0 <= s < 60 * pow2 2 ∧ ((number x * 24 + h) * 60 + mi) * 60 * pow2 2 + s = 3807129599.
Proof. apply (times_decompose_and_compose 3807129599 2); [vm_compute; reflexivity|lia|split; vm_compute; discriminate]. Defined.
