(* ===== verification/TimeText.v ===== *)
(** * Texts of times (src: modules/time.cc)

    The parsers and printers of dates of RFC 2822, HTTP and XML schemas, over
    the directives of [swscanf] and [swprintf] that they use. *)
From Stdlib Require Import Ascii.
From stdpp Require Import base list numbers strings.
From S2P Require Import Prelude Machine Exact Text Keys Time.
Local Open Scope Z_scope.

(** ** Characters *)

(** The code of a character, and a literal. *)
Definition chr (c : ascii) : Z := Z.of_N (N_of_ascii c).
Arguments chr _%_char.

Fixpoint txt (s : string) : text :=
  match s with EmptyString => [] | String c s => chr c :: txt s end.
Arguments txt _%_string.

(** The character at an offset of a string that ends with a zero. *)
Definition at_ (s : text) (i : nat) : Z := nth i s 0.

Fixpoint c_str (s : text) : text :=
  match s with [] => [] | c :: s => if c =? 0 then [] else c :: c_str s end.

Definition iswdigit (c : Z) : bool := (48 <=? c) && (c <=? 57).

(** A [switch] whose cases are a letter in upper and lower case. *)
Fixpoint switch (c : Z) (cases : list (ascii * Z)) (default : Z) : Z :=
  match cases with
  | [] => default
  | (l, n) :: cases => if (c =? chr l) || (c =? chr l + 32) then n else switch c cases default
  end.

(** ** Names *)

Definition f_month_name_to_number (a_name : text) : Z :=
  let a_n n := if at_ a_name 3 =? 0 then n else 0 in
  switch (at_ a_name 0)
    [("A"%char, switch (at_ a_name 1)
        [("P"%char, switch (at_ a_name 2) [("R"%char, a_n 4)] 0);
         ("U"%char, switch (at_ a_name 2) [("G"%char, a_n 8)] 0)] 0);
     ("D"%char, switch (at_ a_name 1) [("E"%char, switch (at_ a_name 2) [("C"%char, a_n 12)] 0)] 0);
     ("F"%char, switch (at_ a_name 1) [("E"%char, switch (at_ a_name 2) [("B"%char, a_n 2)] 0)] 0);
     ("J"%char, switch (at_ a_name 1)
        [("A"%char, switch (at_ a_name 2) [("N"%char, a_n 1)] 0);
         ("U"%char, switch (at_ a_name 2) [("L"%char, a_n 7); ("N"%char, a_n 6)] 0)] 0);
     ("M"%char, switch (at_ a_name 1) [("A"%char, switch (at_ a_name 2) [("R"%char, a_n 3); ("Y"%char, a_n 5)] 0)] 0);
     ("N"%char, switch (at_ a_name 1) [("O"%char, switch (at_ a_name 2) [("V"%char, a_n 11)] 0)] 0);
     ("O"%char, switch (at_ a_name 1) [("C"%char, switch (at_ a_name 2) [("T"%char, a_n 10)] 0)] 0);
     ("S"%char, switch (at_ a_name 1) [("E"%char, switch (at_ a_name 2) [("P"%char, a_n 9)] 0)] 0)] 0.

Definition f_zone_to_offset_us (a_zone : text) (a_military a_us : Z) : Z :=
  let last a_us := switch (at_ a_zone 2) [("T"%char, if at_ a_zone 3 =? 0 then a_us * 3600 else 0)] 0 in
  if at_ a_zone 1 =? 0 then a_military * 3600
  else switch (at_ a_zone 1) [("D"%char, last (a_us + 1)); ("S"%char, last a_us)] 0.

Definition digit_value (c : Z) : Z := c - 48.

Definition f_zone_to_offset (a_zone : text) : Z :=
  let a := at_ a_zone in
  if (a 0%nat =? chr "+") || (a 0%nat =? chr "-") then
    if iswdigit (a 1%nat) && iswdigit (a 2%nat) then
      let i := if a 3%nat =? chr ":" then 4%nat else 3%nat in
      if negb (iswdigit (a i)) || negb (iswdigit (a (i + 1)%nat)) || negb (a (i + 2)%nat =? 0) then 0 else
      let hour := digit_value (a 1%nat) * 10 + digit_value (a 2%nat) in
      let minute := digit_value (a i) * 10 + digit_value (a (i + 1)%nat) in
      (if a 0%nat =? chr "-" then -60 else 60) * (hour * 60 + minute)
    else 0
  else
    let single n := if a 1%nat =? 0 then n * 3600 else 0 in
    let us := f_zone_to_offset_us a_zone in
    switch (a 0%nat)
      [("A"%char, single 1); ("B"%char, single 2); ("C"%char, us 3 (-6)); ("D"%char, single 4); ("E"%char, us 5 (-5));
       ("F"%char, single 6); ("G"%char, single 7); ("H"%char, single 8); ("I"%char, single 9); ("K"%char, single 10);
       ("L"%char, single 11); ("M"%char, us 12 (-7)); ("N"%char, single (-1)); ("O"%char, single (-2)); ("P"%char, us (-3) (-8));
       ("Q"%char, single (-4)); ("R"%char, single (-5)); ("S"%char, single (-6)); ("T"%char, single (-7)); ("U"%char, single (-8));
       ("V"%char, single (-9)); ("W"%char, single (-10)); ("X"%char, single (-11)); ("Y"%char, single (-12))] 0.

Definition v_rfc2822_days : list text := map txt ["Sun"; "Mon"; "Tue"; "Wed"; "Thu"; "Fri"; "Sat"]%string.

Definition v_rfc2822_months : list text :=
  map txt ["Jan"; "Feb"; "Mar"; "Apr"; "May"; "Jun"; "Jul"; "Aug"; "Sep"; "Oct"; "Nov"; "Dec"]%string.

(** ** [swscanf]

    A number in front of the letters of a directive is the largest count of
    characters; [*] does not store. *)
Inductive directive :=
| blanks
| literal (c : Z)
| scan_ld (width : nat)
| scan_ls (width : nat)
| skip_ls (width : nat)
| skip_letters
| position.

(** What a directive stores. *)
Inductive stored := stored_integer (z : Z) | stored_text (t : text) | stored_position (i : nat).

Section Scan.
(** [iswspace] depends on the locale. *)
Context (iswspace : Z → bool).

Fixpoint skip_blanks (s : text) : text :=
  match s with c :: s' => if iswspace c then skip_blanks s' else s | [] => [] end.

(** The longest prefix of at most [width] characters. *)
Fixpoint span (p : Z → bool) (width : nat) (s : text) : text * text :=
  match width, s with
  | S width, c :: s' => if p c then let '(t, rest) := span p width s' in (c :: t, rest) else ([], s)
  | _, _ => ([], s)
  end.

Definition decimal_value (ds : text) : Z := fold_left (λ n c, n * 10 + digit_value c) ds 0.

Definition scan_digits (width : nat) (s : text) : option (Z * text) :=
  match span iswdigit width s with ([], _) => None | (ds, rest) => Some (decimal_value ds, rest) end.

(** A sign counts as a character. *)
Definition scan_integer (width : nat) (s : text) : option (Z * text) :=
  match skip_blanks s with
  | c :: s' =>
    if c =? chr "-" then '(z, rest) ← scan_digits (width - 1) s'; Some (- z, rest)
    else if c =? chr "+" then scan_digits (width - 1) s'
    else scan_digits width (c :: s')
  | [] => None
  end.

Definition scan_word (width : nat) (s : text) : option (text * text) :=
  match span (λ c, negb (iswspace c)) width (skip_blanks s) with ([], _) => None | (t, rest) => Some (t, rest) end.

Definition is_letter (c : Z) : bool := (65 <=? c) && (c <=? 90) || (97 <=? c) && (c <=? 122).

(** The values stored until a directive fails; [n] is the length of the whole
    text. *)
Fixpoint scan (n : nat) (ds : list directive) (s : text) : list stored :=
  match ds with
  | [] => []
  | blanks :: ds => scan n ds (skip_blanks s)
  | literal c :: ds => match s with x :: s => if x =? c then scan n ds s else [] | [] => [] end
  | scan_ld w :: ds => match scan_integer w s with Some (z, s) => stored_integer z :: scan n ds s | None => [] end
  | scan_ls w :: ds => match scan_word w s with Some (t, s) => stored_text t :: scan n ds s | None => [] end
  | skip_ls w :: ds => match scan_word w s with Some (_, s) => scan n ds s | None => [] end
  | skip_letters :: ds => match span is_letter (length s) s with ([], _) => [] | (_, s) => scan n ds s end
  | position :: ds => stored_position (n - length s) :: scan n ds s
  end.

Definition swscanf (s : text) (ds : list directive) : list stored := scan (length (c_str s)) ds (c_str s).

Definition invalid_format {A} : outcome A := throw "invalid format.".

Definition full_year (year : Z) : Z := if year <? 50 then year + 2000 else if year <? 1000 then year + 1900 else year.

(** ** [parse_rfc2822] *)

Definition rfc2822_format : list directive :=
  [skip_ls 3; literal (chr ","); blanks; scan_ld 2; blanks; scan_ls 3; blanks; scan_ld 4; blanks; scan_ld 2; literal (chr ":"); scan_ld 2; position].

(** The seconds, which may be missing, and the zone. *)
Definition rfc2822_zone (s : text) (i : nat) : outcome (Z * text) :=
  if at_ s i =? chr ":" then
    match swscanf (drop (S i) s) [scan_ld 2; blanks; scan_ls 5] with
    | [stored_integer second; stored_text zone] => Ok (second, zone)
    | _ => invalid_format
    end
  else
    match swscanf (drop i s) [blanks; scan_ls 5] with
    | [stored_text zone] => Ok (0, zone)
    | _ => invalid_format
    end.

Definition parse_rfc2822 (a_value : text) : outcome (list key) :=
  match swscanf a_value rfc2822_format with
  | [stored_integer day; stored_text month; stored_integer year; stored_integer hour; stored_integer minute; stored_position i] =>
    let m := f_month_name_to_number month in
    if m <=? 0 then invalid_format else
    '(second, zone) ← rfc2822_zone a_value i;
    Ok [key_integer (full_year year); key_integer m; key_integer day; key_integer hour; key_integer minute; key_integer second;
        key_integer (f_zone_to_offset zone)]
  | _ => invalid_format
  end.

(** ** [parse_http] *)

(** The three forms: of RFC 1123, of RFC 850, and of [asctime]. *)
Definition http_format1 : list directive :=
  [skip_ls 3; literal (chr ","); blanks; scan_ld 2; blanks; scan_ls 3; blanks; scan_ld 4; blanks; scan_ld 2; literal (chr ":"); scan_ld 2;
   literal (chr ":"); scan_ld 2; blanks; literal (chr "G"); literal (chr "M"); literal (chr "T")].

Definition http_format2 : list directive :=
  [skip_letters; literal (chr ","); blanks; scan_ld 2; literal (chr "-"); scan_ls 3; literal (chr "-"); scan_ld 2; blanks; scan_ld 2;
   literal (chr ":"); scan_ld 2; literal (chr ":"); scan_ld 2; blanks; literal (chr "G"); literal (chr "M"); literal (chr "T")].

Definition http_format3 : list directive :=
  [skip_ls 3; blanks; scan_ls 3; blanks; scan_ld 2; blanks; scan_ld 2; literal (chr ":"); scan_ld 2; literal (chr ":"); scan_ld 2; blanks; scan_ld 4].

Definition http_fields (a_value : text) : outcome (Z * text * Z * Z * Z * Z) :=
  match swscanf a_value http_format1 with
  | [stored_integer day; stored_text month; stored_integer year; stored_integer hour; stored_integer minute; stored_integer second] =>
    Ok (day, month, year, hour, minute, second)
  | _ =>
    match swscanf a_value http_format2 with
    | [stored_integer day; stored_text month; stored_integer year; stored_integer hour; stored_integer minute; stored_integer second] =>
      Ok (day, month, year, hour, minute, second)
    | _ =>
      match swscanf a_value http_format3 with
      | [stored_text month; stored_integer day; stored_integer hour; stored_integer minute; stored_integer second; stored_integer year] =>
        Ok (day, month, year, hour, minute, second)
      | _ => invalid_format
      end
    end
  end.

Definition parse_http (a_value : text) : outcome (list key) :=
  '(day, month, year, hour, minute, second) ← http_fields a_value;
  let m := f_month_name_to_number month in
  if m <=? 0 then invalid_format else
  Ok [key_integer (full_year year); key_integer m; key_integer day; key_integer hour; key_integer minute; key_integer second].
End Scan.

(** ** [swprintf] *)

(** The digits of a number of at most [fuel] digits. *)
Fixpoint decimal_digits (fuel : nat) (z : Z) : text :=
  match fuel with
  | O => []
  | S fuel => if z <? 10 then [48 + z] else decimal_digits fuel (z / 10) ++ [48 + z mod 10]
  end.

(** A number padded with zeros; 2 ^ 64 has twenty digits. *)
Definition print_ld (width : nat) (z : Z) : text :=
  let ds := decimal_digits 20 (Z.abs z) in
  let sign := if z <? 0 then [chr "-"] else [] in
  sign ++ replicate (width - length sign - length ds) 48 ++ ds.

(** What does not fit in the array with its terminator is an error of
    [swprintf]; the result -1 is taken for a size that is beyond the array. *)
Definition printed (size : Z) (t : text) : outcome text := if Z.of_nat (length t) <? size then Ok t else Fault.

(** [static_cast<intptr_t>] of what is rounded down. *)
Definition whole_seconds (d : double) : outcome Z :=
  match d_floor d with Some z => Operators.checked z | None => Fault end.

(** [std::abs] and the sign of an offset. *)
Definition offset_sign (a_offset : Z) : Z := if 0 <? a_offset then chr "+" else chr "-".

Definition offset_minutes (a_offset : Z) : outcome Z := a ← Operators.checked (Z.abs a_offset); Ok (a ÷ 60).

Definition format_rfc2822 (a_value : list key) (a_offset : Z) : outcome text :=
  if (length a_value <? 7)%nat then throw "must have at least 7 items." else
  year ← f_item a_value 0; month ← f_item a_value 1; day ← f_item a_value 2; hour ← f_item a_value 3; minute ← f_item a_value 4;
  second ← f_item_with_fraction a_value 5; second ← whole_seconds second;
  week ← f_item a_value 6;
  a ← offset_minutes a_offset;
  day_name ← rd v_rfc2822_days week;
  month_name ← rd v_rfc2822_months (month - 1);
  printed 32 (day_name ++ txt ", " ++ print_ld 1 day ++ txt " " ++ month_name ++ txt " " ++ print_ld 4 year ++ txt " " ++ print_ld 2 hour
    ++ txt ":" ++ print_ld 2 minute ++ txt ":" ++ print_ld 2 second ++ txt " " ++ [offset_sign a_offset] ++ print_ld 2 (a ÷ 60) ++ print_ld 2 (Z.rem a 60)).

Definition format_http (a_value : list key) : outcome text :=
  if (length a_value <? 7)%nat then throw "must have at least 7 items." else
  year ← f_item a_value 0; month ← f_item a_value 1; day ← f_item a_value 2; hour ← f_item a_value 3; minute ← f_item a_value 4;
  second ← f_item_with_fraction a_value 5; second ← whole_seconds second;
  week ← f_item a_value 6;
  day_name ← rd v_rfc2822_days week;
  month_name ← rd v_rfc2822_months (month - 1);
  printed 30 (day_name ++ txt ", " ++ print_ld 2 day ++ txt " " ++ month_name ++ txt " " ++ print_ld 4 year ++ txt " " ++ print_ld 2 hour
    ++ txt ":" ++ print_ld 2 minute ++ txt ":" ++ print_ld 2 second ++ txt " GMT").

(** ** Dates of XML schemas

    The conversions of floating-point numbers are parameters: [%lf] and
    [%02.*f]. *)
Section Xsd.
Context (iswspace : Z → bool) (scan_lf : text → option (double * text)) (print_f : Z → double → text).

Definition xsd_format : list directive :=
  [scan_ld 5; literal (chr "-"); scan_ld 2; literal (chr "-"); scan_ld 2; literal (chr "T"); scan_ld 2; literal (chr ":"); scan_ld 2; literal (chr ":"); position].

Definition parse_xsd (a_value : text) : outcome (list key) :=
  match swscanf iswspace a_value xsd_format with
  | [stored_integer year; stored_integer month; stored_integer day; stored_integer hour; stored_integer minute; stored_position i] =>
    match scan_lf (drop i (c_str a_value)) with
    | Some (second, s) =>
      let items := [key_integer year; key_integer month; key_integer day; key_integer hour; key_integer minute; key_float second] in
      match scan_word iswspace 6 s with
      | Some (zone, _) => Ok (items ++ [key_integer (f_zone_to_offset zone)])
      | None => Ok items
      end
    | None => invalid_format
    end
  | _ => invalid_format
  end.

Definition format_xsd (a_value : list key) (a_offset a_precision : Z) : outcome text :=
  if (length a_value <? 6)%nat then throw "must have at least 6 items." else
  year ← f_item a_value 0; month ← f_item a_value 1; day ← f_item a_value 2; hour ← f_item a_value 3; minute ← f_item a_value 4;
  second ← f_item_with_fraction a_value 5;
  let t := print_ld 4 year ++ txt "-" ++ print_ld 2 month ++ txt "-" ++ print_ld 2 day ++ txt "T" ++ print_ld 2 hour ++ txt ":" ++ print_ld 2 minute
    ++ txt ":" ++ print_f a_precision second in
  if a_offset =? 0 then printed 30 (t ++ txt "Z")
  else a ← offset_minutes a_offset; printed 30 (t ++ [offset_sign a_offset] ++ print_ld 2 (a ÷ 60) ++ txt ":" ++ print_ld 2 (Z.rem a 60)).
End Xsd.

(** ** Reading what was printed *)

Definition readable (w : nat) (t : text) (z : Z) : bool :=
  negb (length t =? 0)%nat && forallb iswdigit t && (length t <=? w)%nat && (decimal_value t =? z).

(** The fields of dates: a day, two digits, and four digits. *)
Definition short_field (z : Z) : bool := readable 2 (print_ld 1 z) z && readable 2 (print_ld 2 z) z && (length (print_ld 2 z) =? 2)%nat.

Definition long_field (z : Z) : bool := readable 4 (print_ld 4 z) z && (length (print_ld 4 z) =? 4)%nat.

Fixpoint all_from (p : Z → bool) (n : nat) (z : Z) : bool :=
  match n with O => true | S n => p z && all_from p n (z + 1) end.

Lemma all_from_ok p n : ∀ a z, all_from p n a = true → a <= z < a + Z.of_nat n → p z = true.
Proof.
  induction n as [|n IH]; intros a z H Hz; [lia|]. cbn in H. apply andb_prop in H as [Ha H].
  destruct (decide (z = a)) as [->|]; [done|]. apply (IH (a + 1)); [done|lia].
Qed.

Lemma short_fields : all_from short_field 100 0 = true.
Proof. vm_compute. reflexivity. Qed.

Lemma long_fields : all_from long_field (Z.to_nat 10000) 0 = true.
Proof. vm_compute. reflexivity. Qed.

Lemma print_day z : 0 <= z < 100 → readable 2 (print_ld 1 z) z = true.
Proof. intros Hz. pose proof (all_from_ok _ _ 0 z short_fields ltac:(lia)) as H. unfold short_field in H. rewrite !andb_true_iff in H. tauto. Qed.

Lemma print_2 z : 0 <= z < 100 → readable 2 (print_ld 2 z) z = true ∧ length (print_ld 2 z) = 2%nat.
Proof. intros Hz. pose proof (all_from_ok _ _ 0 z short_fields ltac:(lia)) as H. unfold short_field in H. rewrite !andb_true_iff, Nat.eqb_eq in H. tauto. Qed.

Lemma print_4 z : 0 <= z < 10000 → readable 4 (print_ld 4 z) z = true ∧ length (print_ld 4 z) = 4%nat.
Proof. intros Hz. pose proof (all_from_ok _ _ 0 z long_fields ltac:(lia)) as H. unfold long_field in H. rewrite !andb_true_iff, Nat.eqb_eq in H. tauto. Qed.

(** The next character is not a digit. *)
Definition ends_digits (s : text) : bool := match s with c :: _ => negb (iswdigit c) | [] => true end.

Lemma span_all p w t rest : forallb p t = true → (length t <= w)%nat → match rest with c :: _ => p c = false | [] => True end ∨ length t = w →
  span p w (t ++ rest) = (t, rest).
Proof.
  revert w. induction t as [|c t IH]; intros w Hp Hl Hr; cbn in Hl |- *.
  - destruct w; [done|]. destruct Hr as [Hr|Hr]; [|done]. destruct rest as [|c rest]; [done|]. cbn. by rewrite Hr.
  - destruct w; [lia|]. cbn in Hp |- *. apply andb_prop in Hp as [-> Hp]. rewrite IH; [done|done|lia|]. destruct Hr; [by left|right; cbn in *; lia].
Qed.

Section Read.
Context (iswspace : Z → bool) (Hspace : ∀ c, 0 <= c < 128 → iswspace c = (c =? 32) || ((9 <=? c) && (c <=? 13))).

Lemma digit_bounds c : iswdigit c = true → 48 <= c <= 57.
Proof. unfold iswdigit. lia. Qed.

Lemma space_digit c : iswdigit c = true → iswspace c = false.
Proof. intros H%digit_bounds. rewrite Hspace by lia. lia. Qed.

Lemma skip_blanks_id c s : iswspace c = false → skip_blanks iswspace (c :: s) = c :: s.
Proof. intros H. cbn. by rewrite H. Qed.

Lemma skip_blank c s : iswspace c = false → skip_blanks iswspace (32 :: c :: s) = c :: s.
Proof. intros H. cbn [skip_blanks]. rewrite (Hspace 32) by lia. cbn. by rewrite H. Qed.

Lemma readable_cons w t z : readable w t z = true → ∃ c t', t = c :: t' ∧ iswdigit c = true.
Proof. unfold readable. rewrite !andb_true_iff. intros (((H & Hd) & _) & _). destruct t as [|c t']; [done|]. exists c, t'. split; [done|]. cbn in Hd. by apply andb_prop in Hd as [? _]. Qed.

Lemma skip_blanks_readable w t z rest : readable w t z = true →
  skip_blanks iswspace (t ++ rest) = t ++ rest ∧ skip_blanks iswspace (32 :: t ++ rest) = t ++ rest.
Proof. intros H. destruct (readable_cons w t z H) as (c & t' & -> & Hc). apply space_digit in Hc. by split; [apply skip_blanks_id|apply skip_blank]. Qed.

Lemma scan_readable w t z rest : readable w t z = true → ends_digits rest = true → scan_integer iswspace w (t ++ rest) = Some (z, rest).
Proof.
  intros H Hr. unfold scan_integer. rewrite (proj1 (skip_blanks_readable w t z rest H)). destruct (readable_cons w t z H) as (c & t' & -> & Hc).
  apply digit_bounds in Hc. change ((c :: t') ++ rest) with (c :: t' ++ rest). change (chr "-") with 45. change (chr "+") with 43. cbv beta iota.
  rewrite (proj2 (Z.eqb_neq c 45)), (proj2 (Z.eqb_neq c 43)) by lia. change (c :: t' ++ rest) with ((c :: t') ++ rest).
  unfold readable in H. rewrite !andb_true_iff, Nat.leb_le, Z.eqb_eq in H. destruct H as (((_ & Hd) & Hl) & Hv).
  unfold scan_digits. rewrite span_all; [by rewrite Hv|done|done|]. left. unfold ends_digits in Hr. destruct rest; [done|]. by apply negb_true_iff.
Qed.

(** A word of the full width. *)
Definition is_word (t : text) : bool := forallb (λ c, negb (iswspace c)) t && negb (length t =? 0)%nat.

Lemma is_word_cons t : is_word t = true → ∃ c t', t = c :: t' ∧ iswspace c = false.
Proof. unfold is_word. rewrite andb_true_iff. intros [Hd H]. destruct t as [|c t']; [done|]. exists c, t'. split; [done|]. cbn in Hd. apply andb_prop in Hd as [? _]. by apply negb_true_iff. Qed.

Lemma skip_blanks_word t rest : is_word t = true → skip_blanks iswspace (t ++ rest) = t ++ rest ∧ skip_blanks iswspace (32 :: t ++ rest) = t ++ rest.
Proof. intros H. destruct (is_word_cons t H) as (c & t' & -> & Hc). by split; [apply skip_blanks_id|apply skip_blank]. Qed.

Lemma scan_word_ok t rest : is_word t = true → scan_word iswspace (length t) (t ++ rest) = Some (t, rest).
Proof.
  intros H. unfold scan_word. rewrite (proj1 (skip_blanks_word t rest H)). destruct (is_word_cons t H) as (c & t' & E & _).
  unfold is_word in H. apply andb_prop in H as [H _]. rewrite span_all; [by rewrite E|done|done|by right].
Qed.

(** ** The directives, one by one *)

Lemma scan_skip_word n ds t rest : is_word t = true → scan iswspace n (skip_ls (length t) :: ds) (t ++ rest) = scan iswspace n ds rest.
Proof. intros H. cbn [scan]. by rewrite scan_word_ok. Qed.

Lemma scan_literal n ds c rest : scan iswspace n (literal c :: ds) (c :: rest) = scan iswspace n ds rest.
Proof. cbn [scan]. by rewrite Z.eqb_refl. Qed.

Lemma scan_number n ds w t z rest : readable w t z = true → ends_digits rest = true →
  scan iswspace n (scan_ld w :: ds) (t ++ rest) = stored_integer z :: scan iswspace n ds rest.
Proof. intros H Hr. cbn [scan]. by rewrite (scan_readable w t z rest). Qed.

Lemma scan_blank_number n ds w t z rest : readable w t z = true → ends_digits rest = true →
  scan iswspace n (blanks :: scan_ld w :: ds) (32 :: t ++ rest) = stored_integer z :: scan iswspace n ds rest.
Proof. intros H Hr. cbn [scan]. rewrite (proj2 (skip_blanks_readable w t z rest H)). by rewrite (scan_readable w t z rest). Qed.

Lemma scan_blank_word n ds t rest : is_word t = true →
  scan iswspace n (blanks :: scan_ls (length t) :: ds) (32 :: t ++ rest) = stored_text t :: scan iswspace n ds rest.
Proof. intros H. cbn [scan]. rewrite (proj2 (skip_blanks_word t rest H)). by rewrite scan_word_ok. Qed.

(** ** Names *)

Lemma words_ascii t : forallb (λ c, (33 <=? c) && (c <? 127)) t = true → t ≠ [] → is_word t = true.
Proof.
  intros H Ht. unfold is_word. apply andb_true_iff. split; [|by destruct t].
  apply forallb_forall. intros c Hc. pose proof (proj1 (forallb_forall _ _) H c Hc) as Hb. cbv beta in Hb. rewrite Hspace by lia. lia.
Qed.

Lemma day_name w : 0 <= w < 7 → ∃ t, rd v_rfc2822_days w =@{outcome text} Ok t ∧ is_word t = true ∧ length t = 3%nat ∧ Forall (λ c, c ≠ 0) t.
Proof.
  intros Hw. assert (w = 0 ∨ w = 1 ∨ w = 2 ∨ w = 3 ∨ w = 4 ∨ w = 5 ∨ w = 6) as H by lia.
  destruct_or! H; subst; (eexists; split_and!; [reflexivity|by apply words_ascii|reflexivity|repeat constructor; discriminate]).
Qed.

Lemma month_name m : 1 <= m <= 12 → ∃ t, rd v_rfc2822_months (m - 1) =@{outcome text} Ok t ∧ is_word t = true ∧ length t = 3%nat ∧
  f_month_name_to_number t = m ∧ Forall (λ c, c ≠ 0) t.
Proof.
  intros Hm. pattern m. apply month_cases; [exact Hm|..]; (eexists; split_and!; [reflexivity|by apply words_ascii|reflexivity|reflexivity|repeat constructor; discriminate]).
Qed.

(** A text without zeros is a C string. *)
Lemma c_str_id t : Forall (λ c, c ≠ 0) t → c_str t = t.
Proof. induction 1 as [|c t Hc _ IH]; [done|]. cbn. by rewrite (proj2 (Z.eqb_neq c 0) Hc), IH. Qed.

Lemma readable_no_zero w t z : readable w t z = true → Forall (λ c, c ≠ 0) t.
Proof.
  unfold readable. rewrite !andb_true_iff. intros (((_ & Hd) & _) & _). apply Forall_forall. intros c Hc%list_elem_of_In.
  pose proof (proj1 (forallb_forall _ _) Hd c Hc) as H%digit_bounds. lia.
Qed.

(** ** The fields of a date *)

Record fields (y m d h mi s w : Z) : Prop := {
  f_year : 1000 <= y < 10000; f_month : 1 <= m <= 12; f_day : 0 <= d < 100; f_hour : 0 <= h < 100;
  f_minute : 0 <= mi < 100; f_second : 0 <= s < 100; f_week : 0 <= w < 7;
}.

(** The beginning of a date up to the minutes. *)
Lemma scan_rfc2822 n D M d y h mi p1 p4 ph pm rest :
  is_word D = true → length D = 3%nat → is_word M = true → length M = 3%nat →
  readable 2 p1 d = true → readable 4 p4 y = true → readable 2 ph h = true → readable 2 pm mi = true → ends_digits rest = true →
  ∀ ds, scan iswspace n ([skip_ls 3; literal 44; blanks; scan_ld 2; blanks; scan_ls 3; blanks; scan_ld 4; blanks; scan_ld 2; literal 58; scan_ld 2] ++ ds)
    (D ++ 44 :: 32 :: p1 ++ 32 :: M ++ 32 :: p4 ++ 32 :: ph ++ 58 :: pm ++ rest)
  = stored_integer d :: stored_text M :: stored_integer y :: stored_integer h :: stored_integer mi :: scan iswspace n ds rest.
Proof.
  intros HD HDl HM HMl H1 H4 Hh Hm Hr ds. cbn [app]. rewrite <- HDl at 1. rewrite scan_skip_word by done. rewrite scan_literal.
  rewrite (scan_blank_number _ _ 2 p1 d) by done. rewrite <- HMl at 1. rewrite scan_blank_word by done.
  rewrite (scan_blank_number _ _ 4 p4 y) by done. rewrite (scan_blank_number _ _ 2 ph h) by done. rewrite scan_literal.
  by rewrite (scan_number _ _ 2 pm mi).
Qed.
End Read.

(** ** Zones *)

Lemma two_digits t z : readable 2 t z = true → length t = 2%nat → ∃ x y, t = [x; y] ∧ iswdigit x = true ∧ iswdigit y = true ∧ digit_value x * 10 + digit_value y = z.
Proof.
  unfold readable. rewrite !andb_true_iff, Z.eqb_eq. intros (((_ & Hd) & _) & Hv) Hl. destruct t as [|x [|y [|]]]; try done. exists x, y.
  cbn [forallb] in Hd. rewrite !andb_true_iff in Hd. destruct Hd as (? & ? & _). split_and!; done.
Qed.

Lemma zone_printed c a b : c = 43 ∨ c = 45 → 0 <= a < 100 → 0 <= b < 100 →
  f_zone_to_offset (c :: print_ld 2 a ++ print_ld 2 b) = (if c =? 45 then -60 else 60) * (a * 60 + b).
Proof.
  intros Hc Ha Hb. destruct (print_2 a Ha) as [Ra La], (print_2 b Hb) as [Rb Lb].
  destruct (two_digits _ _ Ra La) as (x & y & -> & Hx & Hy & <-), (two_digits _ _ Rb Lb) as (u & v & -> & Hu & Hv & <-).
  unfold f_zone_to_offset. cbn [app at_ nth]. unfold at_. cbn [nth Nat.add]. change (chr "+") with 43. change (chr "-") with 45. change (chr ":") with 58.
  rewrite (proj2 (Z.eqb_neq u 58)) by (apply digit_bounds in Hu; lia). cbn [nth Nat.add]. rewrite Hx, Hy, Hu, Hv. cbn [andb orb negb Z.eqb].
  by destruct Hc; subst.
Qed.

Lemma drop_rest (p r : text) : drop (length (p ++ r) - length r) (p ++ r) = r.
Proof. rewrite length_app, Nat.add_sub. apply drop_app_length. Qed.

Section Roundtrip.
Context (iswspace : Z → bool) (Hspace : ∀ c, 0 <= c < 128 → iswspace c = (c =? 32) || ((9 <=? c) && (c <=? 13))).

Lemma is_word_zone c a b : c = 43 ∨ c = 45 → 0 <= a < 100 → 0 <= b < 100 →
  let zone := c :: print_ld 2 a ++ print_ld 2 b in is_word iswspace zone = true ∧ length zone = 5%nat ∧ Forall (λ c, c ≠ 0) zone.
Proof.
  intros Hc Ha Hb. destruct (print_2 a Ha) as [Ra La], (print_2 b Hb) as [Rb Lb]. cbv zeta. split_and!.
  - destruct (two_digits _ _ Ra La) as (x & y & -> & Hx%digit_bounds & Hy%digit_bounds & _), (two_digits _ _ Rb Lb) as (u & v & -> & Hu%digit_bounds & Hv%digit_bounds & _).
    apply words_ascii; [done| |done]. cbn. lia.
  - cbn [length]. rewrite length_app. lia.
  - constructor; [lia|]. apply Forall_app. split; by eapply readable_no_zero.
Qed.

Lemma whole_seconds_ok s : 0 <= s < 100 → whole_seconds (d_of s) = Ok s.
Proof. intros Hs. unfold whole_seconds. rewrite d_floor_exact by (apply exact_bound; lia). by rewrite checked_ok by (apply intptr_bound; lia). Qed.

Lemma offset_parts off : (60 | off) → Z.abs off < 360000 →
  ∃ a, offset_minutes off = Ok a ∧ 0 <= a ÷ 60 < 100 ∧ 0 <= Z.rem a 60 < 100 ∧
  (if offset_sign off =? 45 then -60 else 60) * (a ÷ 60 * 60 + Z.rem a 60) = off ∧ (offset_sign off = 43 ∨ offset_sign off = 45).
Proof.
  intros [q ->] Hq. unfold offset_minutes, offset_sign. rewrite checked_ok by (apply intptr_bound; lia). cbn [mbind outcome_bind]. exists (Z.abs q).
  assert (Z.abs (q * 60) ÷ 60 = Z.abs q) as -> by (rewrite Z.abs_mul; change (Z.abs 60) with 60; by apply Z.quot_mul).
  destruct (quot_div (Z.abs q) 60 ltac:(lia) ltac:(lia)) as [-> ->]. change (chr "+") with 43. change (chr "-") with 45.
  split_and!; try done; try (Z.div_mod_to_equations; lia); destruct (Z.ltb_spec 0 (q * 60)); try (by left + right); cbn [Z.eqb Pos.eqb]; Z.div_mod_to_equations; lia.
Qed.

Lemma no_zeros_app (t u : text) : Forall (λ c, c ≠ 0) t → Forall (λ c, c ≠ 0) u → Forall (λ c, c ≠ 0) (t ++ u).
Proof. intros. by apply Forall_app. Qed.

Lemma no_zeros_cons c (u : text) : c ≠ 0 → Forall (λ c, c ≠ 0) u → Forall (λ c, c ≠ 0) (c :: u).
Proof. by constructor. Qed.

(** The seconds and the zone, after the minutes. *)
Lemma rfc2822_zone_ok (p : text) ps zone s : readable 2 ps s = true → is_word iswspace zone = true → length zone = 5%nat → Forall (λ c, c ≠ 0) zone →
  let r := 58 :: ps ++ 32 :: zone in
  rfc2822_zone iswspace (p ++ r) (length (p ++ r) - length r) = Ok (s, zone).
Proof.
  intros Hs Hw Hl Hz r. unfold rfc2822_zone. set (i := (length (p ++ r) - length r)%nat). assert (Hi : drop i (p ++ r) = r) by apply drop_rest.
  assert (Ha : at_ (p ++ r) i = 58).
  { unfold at_. rewrite <- (Nat.add_0_r i), <- nth_skipn, Hi. done. }
  rewrite Ha. change (58 =? chr ":") with true. cbv iota.
  assert (HS : drop (S i) (p ++ r) = ps ++ 32 :: zone) by (change (S i) with (1 + i)%nat; rewrite Nat.add_1_l, <- Nat.add_1_r, <- drop_drop, Hi; done).
  rewrite HS. unfold swscanf.
  rewrite c_str_id by (apply no_zeros_app; [by eapply readable_no_zero|by apply no_zeros_cons]).
  rewrite (scan_number iswspace Hspace _ _ 2 ps s) by done. rewrite <- Hl. rewrite <- (app_nil_r zone) at 3.
  by rewrite scan_blank_word.
Qed.

(** C29 (rfc2822_dates_are_read_back): what [format_rfc2822] prints fits in its
    array, and [parse_rfc2822] reads the same fields and the same offset from
    it, for [fields] in range (years of four digits, months from 1 to 12, days
    of the week from 0 to 6, numbers of at most two digits, which need not be
    those of a date) and offsets of whole minutes below 100 hours; outside of
    them see [rfc2822_unchecked]. *)
Theorem rfc2822_dates_are_read_back (y m d h mi s w off : Z) :
  fields y m d h mi s w → (60 | off) → Z.abs off < 360000 →
  ∃ t, format_rfc2822 (map key_integer [y; m; d; h; mi; s; w]) off = Ok t ∧
    parse_rfc2822 iswspace t = Ok (map key_integer [y; m; d; h; mi; s; off]).
Proof.
  intros [Hy Hm Hd Hh Hmi Hs Hw] H60 Ho. unfold format_rfc2822. cbn [map length Nat.ltb Nat.leb f_item f_item_with_fraction item_at lookup list_lookup mbind outcome_bind].
  rewrite whole_seconds_ok by done. cbn [mbind outcome_bind].
  destruct (offset_parts off H60 Ho) as (a & -> & Ha & Hb & Hoff & Hsign). cbn [mbind outcome_bind].
  destruct (day_name iswspace Hspace w Hw) as (D & -> & HD & HDl & HDz). cbn [mbind outcome_bind].
  destruct (month_name iswspace Hspace m Hm) as (M & -> & HM & HMl & HMn & HMz). cbn [mbind outcome_bind].
  pose proof (print_day d Hd) as R1. destruct (print_4 y ltac:(lia)) as [R4 L4], (print_2 h Hh) as [Rh Lh], (print_2 mi Hmi) as [Rm Lm], (print_2 s Hs) as [Rs Ls].
  destruct (is_word_zone (offset_sign off) _ _ Hsign Ha Hb) as (HZ & HZl & HZz). set (zone := offset_sign off :: print_ld 2 (a ÷ 60) ++ print_ld 2 (Z.rem a 60)) in *.
  set (r := 58 :: print_ld 2 s ++ 32 :: zone).
  set (t := D ++ 44 :: 32 :: print_ld 1 d ++ 32 :: M ++ 32 :: print_ld 4 y ++ 32 :: print_ld 2 h ++ 58 :: print_ld 2 mi ++ r).
  assert (HT : D ++ txt ", " ++ print_ld 1 d ++ txt " " ++ M ++ txt " " ++ print_ld 4 y ++ txt " " ++ print_ld 2 h ++ txt ":" ++ print_ld 2 mi ++ txt ":"
    ++ print_ld 2 s ++ txt " " ++ [offset_sign off] ++ print_ld 2 (a ÷ 60) ++ print_ld 2 (Z.rem a 60) = t) by reflexivity.
  rewrite HT. clear HT. exists t. split.
  - unfold printed. rewrite (proj2 (Z.ltb_lt _ _)); [done|]. unfold readable in R1. rewrite !andb_true_iff, Nat.leb_le in R1.
    unfold t, r. repeat (rewrite length_app || cbn [length]). lia.
  - assert (HE : ∃ p, t = p ++ r).
    { exists (D ++ 44 :: 32 :: print_ld 1 d ++ 32 :: M ++ 32 :: print_ld 4 y ++ 32 :: print_ld 2 h ++ 58 :: print_ld 2 mi). unfold t. repeat (rewrite <- app_assoc || cbn [app]). done. }
    assert (Hz : Forall (λ c, c ≠ 0) t).
    { unfold t, r. repeat (simple apply no_zeros_app || (simple apply no_zeros_cons; [done|])); try done; by eapply readable_no_zero. }
    unfold parse_rfc2822, swscanf. rewrite c_str_id by done.
    unfold t at 2. rewrite (scan_rfc2822 iswspace Hspace _ D M d y h mi _ _ _ _ r HD HDl HM HMl R1 R4 Rh Rm eq_refl [position]). cbn [scan].
    rewrite HMn. rewrite (proj2 (Z.leb_gt m 0)) by lia. destruct HE as [p HE]. rewrite HE.
    pose proof (rfc2822_zone_ok p _ zone s Rs HZ HZl HZz) as HQ. cbv zeta in HQ. fold r in HQ. rewrite HQ. cbn [mbind outcome_bind].
    unfold full_year. rewrite (proj2 (Z.ltb_ge y 50)), (proj2 (Z.ltb_ge y 1000)) by lia.
    unfold zone. rewrite zone_printed by done. by rewrite Hoff.
Qed.

(** The same for [format_http] and the first of
    the forms of [parse_http]. *)
Theorem http_dates_are_read_back (y m d h mi s w : Z) :
  fields y m d h mi s w →
  ∃ t, format_http (map key_integer [y; m; d; h; mi; s; w]) = Ok t ∧
    parse_http iswspace t = Ok (map key_integer [y; m; d; h; mi; s]).
Proof.
  intros [Hy Hm Hd Hh Hmi Hs Hw]. unfold format_http. cbn [map length Nat.ltb Nat.leb f_item f_item_with_fraction item_at lookup list_lookup mbind outcome_bind].
  rewrite whole_seconds_ok by done. cbn [mbind outcome_bind].
  destruct (day_name iswspace Hspace w Hw) as (D & -> & HD & HDl & HDz). cbn [mbind outcome_bind].
  destruct (month_name iswspace Hspace m Hm) as (M & -> & HM & HMl & HMn & HMz). cbn [mbind outcome_bind].
  destruct (print_2 d Hd) as [R1 L1], (print_4 y ltac:(lia)) as [R4 L4], (print_2 h Hh) as [Rh Lh], (print_2 mi Hmi) as [Rm Lm], (print_2 s Hs) as [Rs Ls].
  set (r := 58 :: print_ld 2 s ++ txt " GMT").
  set (t := D ++ 44 :: 32 :: print_ld 2 d ++ 32 :: M ++ 32 :: print_ld 4 y ++ 32 :: print_ld 2 h ++ 58 :: print_ld 2 mi ++ r).
  assert (HT : D ++ txt ", " ++ print_ld 2 d ++ txt " " ++ M ++ txt " " ++ print_ld 4 y ++ txt " " ++ print_ld 2 h ++ txt ":" ++ print_ld 2 mi ++ txt ":"
    ++ print_ld 2 s ++ txt " GMT" = t) by reflexivity.
  rewrite HT. clear HT. exists t. split.
  - unfold printed. rewrite (proj2 (Z.ltb_lt _ _)); [done|]. unfold t, r. repeat (rewrite length_app || cbn [length]). change (length (txt " GMT")) with 4%nat. lia.
  - assert (Hz : Forall (λ c, c ≠ 0) t).
    { unfold t, r. repeat (simple apply no_zeros_app || (simple apply no_zeros_cons; [done|])); try done; try (by eapply readable_no_zero). by repeat constructor. }
    unfold parse_http, http_fields, swscanf. rewrite c_str_id by done. unfold http_format1.
    unfold t at 2. change (chr ",") with 44. change (chr ":") with 58.
    rewrite (scan_rfc2822 iswspace Hspace _ D M d y h mi _ _ _ _ r HD HDl HM HMl R1 R4 Rh Rm eq_refl
      [literal 58; scan_ld 2; blanks; literal (chr "G"); literal (chr "M"); literal (chr "T")]).
    unfold r. rewrite scan_literal, (scan_number iswspace Hspace _ _ 2 _ s) by done.
    assert (HG : scan iswspace (length t) [blanks; literal (chr "G"); literal (chr "M"); literal (chr "T")] (txt " GMT") = []).
    { change (txt " GMT") with [32; 71; 77; 84]. cbn [scan]. rewrite skip_blank; [done|done|]. by rewrite Hspace by lia. }
    rewrite HG. cbn [mbind outcome_bind]. rewrite HMn. rewrite (proj2 (Z.leb_gt m 0)) by lia.
    unfold full_year. by rewrite (proj2 (Z.ltb_ge y 50)), (proj2 (Z.ltb_ge y 1000)) by lia.
Qed.
End Roundtrip.

(** ** What is not tested *)

(** A year of five digits, or a day of the week beyond Saturday. *)
Lemma rfc2822_unchecked :
  format_rfc2822 (map key_integer [10000; 12; 31; 23; 59; 59; 0]) 0 = Fault ∧
  format_rfc2822 (map key_integer [2000; 12; 31; 23; 59; 59; 7]) 0 = Fault ∧
  format_rfc2822 (map key_integer [2000; 0; 31; 23; 59; 59; 0]) 0 = Fault.
Proof. split_and!; vm_compute; reflexivity. Qed.

Lemma http_unchecked :
  format_http (map key_integer [10000; 12; 31; 23; 59; 59; 0]) = Fault ∧ format_http (map key_integer [2000; 12; 31; 23; 59; 59; -1]) = Fault.
Proof. split; vm_compute; reflexivity. Qed.

(** A date of an XML schema with an offset leaves six characters for the
    seconds: those with a precision of five and more do not fit, and neither
    do two digits with a precision of four. *)
Lemma xsd_overflow (print_f : Z → double → text) y m d h mi s w off precision :
  fields y m d h mi s w → off ≠ 0 → (60 | off) → Z.abs off < 360000 → (7 <= length (print_f precision (d_of s)))%nat →
  format_xsd print_f (map key_integer [y; m; d; h; mi; s]) off precision = Fault.
Proof.
  intros [Hy Hm Hd Hh Hmi Hs _] Hn H60 Ho Hl. unfold format_xsd. cbn [map length Nat.ltb Nat.leb f_item f_item_with_fraction item_at lookup list_lookup mbind outcome_bind].
  rewrite (proj2 (Z.eqb_neq off 0)) by done. destruct (offset_parts off H60 Ho) as (a & -> & Ha & Hb & _ & _). cbn [mbind outcome_bind].
  destruct (print_4 y ltac:(lia)) as [_ L4], (print_2 m ltac:(lia)) as [_ Lm], (print_2 d Hd) as [_ Ld], (print_2 h Hh) as [_ Lh], (print_2 mi Hmi) as [_ Lmi],
    (print_2 _ Ha) as [_ La], (print_2 _ Hb) as [_ Lb].
  unfold printed. rewrite (proj2 (Z.ltb_ge _ _)); [done|]. rewrite !length_app, L4, Lm, Ld, Lh, Lmi, La, Lb. cbn [length txt]. lia.
Qed.

(** The zones of RFC 822. *)
Lemma zone_names :
  map (λ z, f_zone_to_offset (txt z)) ["GMT"; "UT"; "EST"; "EDT"; "CST"; "CDT"; "MST"; "MDT"; "PST"; "PDT"; "A"; "M"; "N"; "Y"; "Z"]%string
  = map (λ h, h * 3600) [0; 0; -5; -4; -6; -5; -7; -6; -8; -7; 1; 12; -1; -12; 0].
Proof. vm_compute. reflexivity. Qed.

(** ** Witnesses *)

Definition sample_space (c : Z) : bool := (c =? 32) || ((9 <=? c) && (c <=? 13)).

Lemma rfc2822_dates_are_read_back_witness : ∃ t,
  format_rfc2822 (map key_integer [1994; 11; 6; 8; 49; 37; 0]) (-34200) = Ok t ∧
  parse_rfc2822 sample_space t = Ok (map key_integer [1994; 11; 6; 8; 49; 37; -34200]).
Proof.
  apply (rfc2822_dates_are_read_back sample_space (λ c _, eq_refl) 1994 11 6 8 49 37 0 (-34200)); [|by exists (-570)|by vm_compute].
  split; split; vm_compute; reflexivity || discriminate.
Defined.

Lemma http_dates_are_read_back_witness : ∃ t,
  format_http (map key_integer [1994; 11; 6; 8; 49; 37; 0]) = Ok t ∧
  parse_http sample_space t = Ok (map key_integer [1994; 11; 6; 8; 49; 37]).
Proof.
  apply (http_dates_are_read_back sample_space (λ c _, eq_refl) 1994 11 6 8 49 37 0).
  split; split; vm_compute; reflexivity || discriminate.
Defined.
