(* ===== verification/Collector.v ===== *)
(** * The cycle collector (src: include/xemmai/object.h, src/engine.cc)

    Reference counting with the collection of cycles by trial deletion, as the
    thread of the collector runs it.  Objects are records in a finite map from
    addresses.  The lists that go through [v_next], [v_previous], [v_scan] and
    [v_next_cycle] are lists of addresses; [v_link] tells which list [v_next]
    and [v_previous] of an object belong to.  Access to an object that was
    freed, a failing assertion, and the reuse of the links of an object that is
    still in the list of roots are faults. *)
From stdpp Require Import base list numbers strings gmap.
From S2P Require Import Prelude Machine.
Local Open Scope Z_scope.

Abbreviation t_address := positive.

Inductive t_color :=
| c_color__BLACK | c_color__PURPLE | c_color__GRAY | c_color__WHITING | c_color__WHITE
| c_color__ORANGE | c_color__RED.

#[export] Instance t_color_eq_dec : EqDecision t_color.
Proof. solve_decision. Defined.

(** [v_next] is null, in the list of roots, or in a cycle, where [v_previous]
    is null. *)
Inductive t_link := Unlinked | Root | Cycle.

#[export] Instance t_link_eq_dec : EqDecision t_link.
Proof. solve_decision. Defined.

(** [v_slots] are the objects that the fields and the native data of the
    object refer to, as they are scanned; a finalizer reports the same ones. *)
Record t_object := {
  v_color : t_color;
  v_reviving : bool;
  v_count : Z;
  v_cyclic : Z;
  v_type : option t_address;
  v_slots : list t_address;
  v_link : t_link
}.

Definition with_color (c : t_color) (o : t_object) : t_object :=
  {| v_color := c; v_reviving := v_reviving o; v_count := v_count o; v_cyclic := v_cyclic o;
     v_type := v_type o; v_slots := v_slots o; v_link := v_link o |}.
Definition with_reviving (b : bool) (o : t_object) : t_object :=
  {| v_color := v_color o; v_reviving := b; v_count := v_count o; v_cyclic := v_cyclic o;
     v_type := v_type o; v_slots := v_slots o; v_link := v_link o |}.
Definition with_count (n : Z) (o : t_object) : t_object :=
  {| v_color := v_color o; v_reviving := v_reviving o; v_count := to_size n; v_cyclic := v_cyclic o;
     v_type := v_type o; v_slots := v_slots o; v_link := v_link o |}.
Definition with_cyclic (n : Z) (o : t_object) : t_object :=
  {| v_color := v_color o; v_reviving := v_reviving o; v_count := v_count o; v_cyclic := to_size n;
     v_type := v_type o; v_slots := v_slots o; v_link := v_link o |}.
Definition with_type (t : option t_address) (o : t_object) : t_object :=
  {| v_color := v_color o; v_reviving := v_reviving o; v_count := v_count o; v_cyclic := v_cyclic o;
     v_type := t; v_slots := v_slots o; v_link := v_link o |}.
Definition with_slots (l : list t_address) (o : t_object) : t_object :=
  {| v_color := v_color o; v_reviving := v_reviving o; v_count := v_count o; v_cyclic := v_cyclic o;
     v_type := v_type o; v_slots := l; v_link := v_link o |}.
Definition with_link (k : t_link) (o : t_object) : t_object :=
  {| v_color := v_color o; v_reviving := v_reviving o; v_count := v_count o; v_cyclic := v_cyclic o;
     v_type := v_type o; v_slots := v_slots o; v_link := k |}.

(** The heap and the state of the collector's thread and of the engine. *)
Record t_engine := {
  v_objects : gmap t_address t_object;
  v_scan_stack : list t_address;
  v_roots : list t_address;
  v_cycle : list t_address;
  v_cycles : list (list t_address);
  v_object__release : nat;
  v_object__collect : nat
}.

Definition set_objects (h : gmap t_address t_object) (s : t_engine) : t_engine :=
  {| v_objects := h; v_scan_stack := v_scan_stack s; v_roots := v_roots s; v_cycle := v_cycle s;
     v_cycles := v_cycles s; v_object__release := v_object__release s; v_object__collect := v_object__collect s |}.
Definition set_scan_stack (l : list t_address) (s : t_engine) : t_engine :=
  {| v_objects := v_objects s; v_scan_stack := l; v_roots := v_roots s; v_cycle := v_cycle s;
     v_cycles := v_cycles s; v_object__release := v_object__release s; v_object__collect := v_object__collect s |}.
Definition set_roots (l : list t_address) (s : t_engine) : t_engine :=
  {| v_objects := v_objects s; v_scan_stack := v_scan_stack s; v_roots := l; v_cycle := v_cycle s;
     v_cycles := v_cycles s; v_object__release := v_object__release s; v_object__collect := v_object__collect s |}.
Definition set_cycle (l : list t_address) (s : t_engine) : t_engine :=
  {| v_objects := v_objects s; v_scan_stack := v_scan_stack s; v_roots := v_roots s; v_cycle := l;
     v_cycles := v_cycles s; v_object__release := v_object__release s; v_object__collect := v_object__collect s |}.
Definition set_cycles (l : list (list t_address)) (s : t_engine) : t_engine :=
  {| v_objects := v_objects s; v_scan_stack := v_scan_stack s; v_roots := v_roots s; v_cycle := v_cycle s;
     v_cycles := l; v_object__release := v_object__release s; v_object__collect := v_object__collect s |}.

Definition count_release (s : t_engine) : t_engine :=
  {| v_objects := v_objects s; v_scan_stack := v_scan_stack s; v_roots := v_roots s; v_cycle := v_cycle s;
     v_cycles := v_cycles s; v_object__release := S (v_object__release s);
     v_object__collect := v_object__collect s |}.
Definition count_collect (s : t_engine) : t_engine :=
  {| v_objects := v_objects s; v_scan_stack := v_scan_stack s; v_roots := v_roots s; v_cycle := v_cycle s;
     v_cycles := v_cycles s; v_object__release := v_object__release s;
     v_object__collect := S (v_object__collect s) |}.

(** ** Access to objects *)

Definition get (p : t_address) (s : t_engine) : outcome t_object :=
  match v_objects s !! p with Some o => Ok o | None => Fault end.

Definition update (f : t_object → t_object) (p : t_address) (s : t_engine) : outcome t_engine :=
  match v_objects s !! p with
  | Some o => Ok (set_objects (<[p := f o]> (v_objects s)) s)
  | None => Fault
  end.

(** [f_append] *)
Definition f_append (p : t_address) (s : t_engine) : outcome t_engine :=
  s ← update (with_link Root) p s; Ok (set_roots (v_roots s ++ [p]) s).

(** [if (!v_next) f_append(this);] *)
Definition append_unlinked (p : t_address) (s : t_engine) : outcome t_engine :=
  o ← get p s; if decide (v_link o = Unlinked) then f_append p s else Ok s.

Definition f_push (p : t_address) (s : t_engine) : outcome t_engine :=
  Ok (set_scan_stack (p :: v_scan_stack s) s).

(** [f_step]: the slots of an object, and its type. *)
Definition f_step (push : t_address → t_engine → outcome t_engine) (p : t_address) (s : t_engine) :
    outcome t_engine :=
  o ← get p s;
  match v_type o with
  | Some t => fold_calls (λ s q, push q s) s (v_slots o ++ [t])
  | None => Fault
  end.

Fixpoint f_loop (fuel : nat) (step : t_address → t_engine → outcome t_engine) (p : t_address) (s : t_engine) :
    outcome t_engine :=
  match fuel with
  | O => Fault
  | S fuel =>
    s ← step p s;
    match v_scan_stack s with
    | [] => Ok s
    | q :: stack => f_loop fuel step q (set_scan_stack stack s)
    end
  end.

(** No loop goes through an object more than twice. *)
Definition rounds (s : t_engine) : nat := S (2 * size (v_objects s)).

(** ** Reference counts *)

Definition f_increment (p : t_address) (s : t_engine) : outcome t_engine :=
  s ← update (λ o, with_color c_color__BLACK (with_count (v_count o + 1) o)) p s;
  append_unlinked p s.

(** What is common to [f_decrement_push] and [f_decrement]: [zero] is what is
    done with an object that nothing refers to any more. *)
Definition decrement (zero : t_address → t_engine → outcome t_engine) (p : t_address) (s : t_engine) :
    outcome t_engine :=
  o ← get p s;
  if decide (v_count o > 0) then
    s ← update (λ o, with_count (v_count o - 1) o) p s;
    if decide (v_count o - 1 > 0) then
      s ← update (with_color c_color__PURPLE) p s; append_unlinked p s
    else zero p s
  else Fault.

Definition f_decrement_push : t_address → t_engine → outcome t_engine := decrement f_push.

(** [f_free] *)
Definition f_free (p : t_address) (s : t_engine) : t_engine := set_objects (delete p (v_objects s)) s.

Definition f_free_as_release (p : t_address) (s : t_engine) : t_engine := f_free p (count_release s).
Definition f_free_as_collect (p : t_address) (s : t_engine) : t_engine := f_free p (count_collect s).

Definition f_decrement_step (p : t_address) (s : t_engine) : outcome t_engine :=
  s ← f_step f_decrement_push p s;
  s ← update (with_type None) p s;
  o ← get p s;
  match v_link o with
  | Cycle => Ok s
  | Root => Ok (f_free_as_release p (set_roots (filter (λ q, q ≠ p) (v_roots s)) s))
  | Unlinked => Ok (f_free_as_release p s)
  end.

Definition f_decrement : t_address → t_engine → outcome t_engine :=
  decrement (λ p s, f_loop (rounds s) f_decrement_step p s).

(** ** The candidates for collection *)

Definition f_prescan_black_push (p : t_address) (s : t_engine) : outcome t_engine :=
  o ← get p s;
  if decide (v_color o = c_color__BLACK ∨ v_color o = c_color__PURPLE) then Ok s
  else s ← update (with_color c_color__BLACK) p s; f_push p s.

Definition f_prescan_black (p : t_address) (s : t_engine) : outcome t_engine :=
  o ← get p s;
  s ← (if decide (v_color o ≠ c_color__PURPLE) then update (with_color c_color__BLACK) p s else Ok s);
  f_loop (rounds s) (f_step f_prescan_black_push) p s.

Definition gray (o : t_object) : t_object := with_color c_color__GRAY (with_cyclic (v_count o) o).

Definition f_mark_gray_push (p : t_address) (s : t_engine) : outcome t_engine :=
  o ← get p s;
  s ← (if decide (v_color o ≠ c_color__GRAY) then s ← update gray p s; f_push p s else Ok s);
  update (λ o, with_cyclic (v_cyclic o - 1) o) p s.

Definition f_mark_gray (p : t_address) (s : t_engine) : outcome t_engine :=
  s ← update gray p s; f_loop (rounds s) (f_step f_mark_gray_push) p s.

Definition f_scan_black_push (p : t_address) (s : t_engine) : outcome t_engine :=
  o ← get p s;
  if decide (v_color o = c_color__BLACK) then Ok s
  else s ← update (with_color c_color__BLACK) p s; f_push p s.

Definition f_scan_gray_scan_black_push (p : t_address) (s : t_engine) : outcome t_engine :=
  o ← get p s;
  if decide (v_color o = c_color__BLACK) then Ok s else
  s ← (if decide (v_color o ≠ c_color__WHITING) then f_push p s else Ok s);
  update (with_color c_color__BLACK) p s.

Definition f_scan_gray_push (p : t_address) (s : t_engine) : outcome t_engine :=
  o ← get p s;
  if decide (v_color o ≠ c_color__GRAY) then Ok s else
  s ← update (with_color (if decide (v_cyclic o > 0) then c_color__BLACK else c_color__WHITING)) p s;
  f_push p s.

Definition f_scan_gray_step (p : t_address) (s : t_engine) : outcome t_engine :=
  o ← get p s;
  if decide (v_color o = c_color__BLACK) then f_step f_scan_gray_scan_black_push p s
  else s ← update (with_color c_color__WHITE) p s; f_step f_scan_gray_push p s.

Definition f_scan_gray (p : t_address) (s : t_engine) : outcome t_engine :=
  o ← get p s;
  if decide (v_color o ≠ c_color__GRAY) then Ok s
  else if decide (v_cyclic o > 0) then
    s ← update (with_color c_color__BLACK) p s; f_loop (rounds s) (f_step f_scan_black_push) p s
  else f_loop (rounds s) f_scan_gray_step p s.

Definition red (o : t_object) : t_object :=
  with_link Cycle (with_cyclic (v_count o) (with_color c_color__RED o)).

(** The object is put behind the first one of the cycle. *)
Definition f_collect_white_push (p : t_address) (s : t_engine) : outcome t_engine :=
  o ← get p s;
  if decide (v_color o ≠ c_color__WHITE) then Ok s
  else if decide (v_link o = Unlinked) then
    s ← update red p s;
    match v_cycle s with
    | [] => Fault
    | q :: cycle => f_push p (set_cycle (q :: p :: cycle) s)
    end
  else Fault.

Definition f_collect_white (p : t_address) (s : t_engine) : outcome t_engine :=
  s ← update red p s;
  f_loop (rounds s) (f_step f_collect_white_push) p (set_cycle [p] s).

Definition f_scan_red (p : t_address) (s : t_engine) : outcome t_engine :=
  o ← get p s;
  if decide (v_color o = c_color__RED ∧ v_cyclic o > 0) then update (λ o, with_cyclic (v_cyclic o - 1) o) p s
  else Ok s.

(** *** The loops of [f_collector] over the roots *)

Definition each (f : t_address → t_engine → outcome t_engine) (l : list t_address) (s : t_engine) :
    outcome t_engine :=
  fold_calls (λ s p, f p s) s l.

(** The roots that turn out to be purple are kept; [assert(q->v_count > 0)]. *)
Fixpoint mark_roots (l kept : list t_address) (s : t_engine) : outcome t_engine :=
  match l with
  | [] => Ok (set_roots kept s)
  | q :: l =>
    o ← get q s;
    if decide (v_count o > 0) then
      if decide (v_color o = c_color__PURPLE) then s ← f_mark_gray q s; mark_roots l (kept ++ [q]) s
      else s ← update (with_link Unlinked) q s; mark_roots l kept s
    else Fault
  end.

Definition collect_root (p : t_address) (s : t_engine) : outcome t_engine :=
  o ← get p s;
  if decide (v_color o = c_color__WHITE) then
    s ← f_collect_white p s;
    s ← each (f_step f_scan_red) (v_cycle s) s;
    s ← each (update (with_color c_color__ORANGE)) (v_cycle s) s;
    Ok (set_cycles (v_cycle s :: v_cycles s) s)
  else update (with_link Unlinked) p s.

Fixpoint collect_roots (l : list t_address) (s : t_engine) : outcome t_engine :=
  match l with
  | [] => Ok s
  | p :: l => s ← collect_root p (set_roots l s); collect_roots l s
  end.

(** The part of [f_collector] that looks for cycles. *)
Definition find_cycles (s : t_engine) : outcome t_engine :=
  s ← each f_prescan_black (v_roots s) s;
  s ← mark_roots (v_roots s) [] s;
  s ← each f_scan_gray (v_roots s) s;
  collect_roots (v_roots s) s.

(** ** The cycles found before *)

(** A cycle lost its dead objects: the others in the order of the links, and
    whether one of them was touched.  The scan starts behind the first one. *)
Fixpoint check_cycle (l : list t_address) (s : t_engine) : outcome (list t_address * bool * t_engine) :=
  match l with
  | [] => Ok ([], false, s)
  | q :: l =>
    o ← get q s;
    match v_type o with
    | Some _ =>
      let failed := bool_decide (v_color o ≠ c_color__ORANGE ∨ v_cyclic o > 0 ∨ v_reviving o = true) in
      s ← update (with_reviving false) q s;
      '(l, b, s) ← check_cycle l s;
      Ok (q :: l, failed || b, s)
    | None => check_cycle l (f_free_as_collect q s)
    end
  end.

(** [cycle]: the last one of the circular list comes first. *)
Definition rotate (l : list t_address) : list t_address :=
  match last l with Some p => p :: removelast l | None => [] end.

(** A cycle that failed: its dead objects are the garbage. *)
Fixpoint release_cycle (l garbage : list t_address) (s : t_engine) : outcome (list t_address * t_engine) :=
  match l with
  | [] => Ok (garbage, s)
  | p :: l =>
    o ← get p s;
    if decide (v_count o <= 0) then release_cycle l (p :: garbage) s
    else if decide (v_color o = c_color__PURPLE) then s ← f_append p s; release_cycle l garbage s
    else
      s ← update (λ o, with_link Unlinked (with_color c_color__BLACK o)) p s;
      release_cycle l garbage s
  end.

Definition purple_orange (p : t_address) (s : t_engine) : outcome t_engine :=
  o ← get p s;
  if decide (v_color o = c_color__ORANGE) then update (with_color c_color__PURPLE) p s else Ok s.

Definition f_cyclic_decrement_push (p : t_address) (s : t_engine) : outcome t_engine :=
  o ← get p s;
  match v_color o with
  | c_color__RED => Ok s
  | c_color__ORANGE => update (λ o, with_cyclic (v_cyclic o - 1) (with_count (v_count o - 1) o)) p s
  | _ => f_decrement p s
  end.

Definition f_cyclic_decrement (p : t_address) (s : t_engine) : outcome t_engine :=
  s ← f_step f_cyclic_decrement_push p s; update (with_type None) p s.

Definition free_cycle (cycle : list t_address) (s : t_engine) : outcome t_engine :=
  s ← each (update (with_color c_color__RED)) cycle s;
  s ← each f_cyclic_decrement cycle s;
  Ok (foldl (λ s p, f_free_as_collect p s) s cycle).

(** One round of [while (v_cycles)]; [cycle] is not empty. *)
Definition process_cycle (cycle garbage : list t_address) (s : t_engine) :
    outcome (list t_address * t_engine) :=
  '(l, failed, s) ← check_cycle (drop 1 cycle ++ take 1 cycle) s;
  match rotate l with
  | [] => Ok (garbage, s)
  | p :: l =>
    if failed : bool then s ← purple_orange p s; release_cycle (p :: l) garbage s
    else s ← free_cycle (p :: l) s; Ok (garbage, s)
  end.

Fixpoint process_cycles (l : list (list t_address)) (garbage : list t_address) (s : t_engine) :
    outcome (list t_address * t_engine) :=
  match l with
  | [] => Ok (garbage, s)
  | cycle :: l =>
    '(garbage, s) ← process_cycle cycle garbage (set_cycles l s);
    process_cycles l garbage s
  end.

Definition free_garbage (p : t_address) (s : t_engine) : outcome t_engine :=
  s ← update (with_link Unlinked) p s; f_loop (rounds s) f_decrement_step p s.

(** The part of [f_collector] that frees the cycles found before. *)
Definition free_cycles (s : t_engine) : outcome t_engine :=
  '(garbage, s) ← process_cycles (v_cycles s) [] s; each free_garbage garbage s.

(** ** A round of [f_collector]

    After the threads' increments and decrements are done.  [live] is what the
    heap reports; [lower] is [v_object__lower]. *)
Definition f_collector (threshold live : Z) (lower : Z) (s : t_engine) : outcome (Z * t_engine) :=
  s ← free_cycles s;
  if decide (v_roots s = []) then Ok (lower, s) else
  let lower := Z.min live lower in
  if decide (to_size (live - lower) >= threshold) then s ← find_cycles s; Ok (live, s)
  else Ok (lower, s).
