(* ===== verification/CollectorGraph.v ===== *)
(** * Reference graphs

    What the proofs of the collector share: references counted over lists of
    objects, reachability, and the parts of the heap that the search for cycles
    leaves alone. *)
From stdpp Require Import base list numbers strings gmap.
From S2P Require Import Prelude Machine Collector.
Local Open Scope Z_scope.

(** ** Counting *)

Section Counting.
Implicit Types (c : t_address → list t_address) (l P Q : list t_address) (x y : t_address).

Fixpoint occ y l : nat :=
  match l with [] => 0 | x :: l => (if decide (x = y) then 1 else 0) + occ y l end.

Lemma occ_app y l1 l2 : occ y (l1 ++ l2) = (occ y l1 + occ y l2)%nat.
Proof. induction l1 as [|x l1 IH]; cbn; [done|]. rewrite IH. lia. Qed.

Lemma occ_in y l : y ∈ l ↔ (0 < occ y l)%nat.
Proof.
  induction l as [|x l IH]; cbn.
  - split; [by intros ?%not_elem_of_nil|lia].
  - rewrite elem_of_cons, IH. destruct (decide (x = y)); split; intros; [lia|by left|destruct H; [congruence|lia]|right; lia].
Qed.

(** How often the objects of [P] refer to [y]. *)
Fixpoint refs c P y : nat :=
  match P with [] => 0 | x :: P => occ y (c x) + refs c P y end.

Lemma refs_app c P Q y : refs c (P ++ Q) y = (refs c P y + refs c Q y)%nat.
Proof. induction P as [|x P IH]; cbn; [done|]. rewrite IH. lia. Qed.

Lemma refs_in c P x y : x ∈ P → y ∈ c x → (0 < refs c P y)%nat.
Proof.
  induction P as [|z P IH]; [by intros ?%not_elem_of_nil|].
  intros [->|Hx]%elem_of_cons Hy; cbn; [apply occ_in in Hy; lia|]. specialize (IH Hx Hy). lia.
Qed.

Lemma refs_pos c P y : (0 < refs c P y)%nat → ∃ x, x ∈ P ∧ y ∈ c x.
Proof.
  induction P as [|z P IH]; cbn; [lia|]. intros H.
  destruct (decide (0 < occ y (c z))%nat) as [Hz|Hz].
  - exists z. split; [by left|by apply occ_in].
  - destruct IH as (x & Hx & Hy); [lia|]. exists x. split; [by right|done].
Qed.

Lemma refs_perm c P Q y : P ≡ₚ Q → refs c P y = refs c Q y.
Proof. induction 1; cbn; lia. Qed.

Lemma refs_ext c c' P y : (∀ x, x ∈ P → c x = c' x) → refs c P y = refs c' P y.
Proof.
  induction P as [|z P IH]; cbn; intros H; [done|]. rewrite (H z) by (by left).
  rewrite IH; [done|]. intros x Hx. apply H. by right.
Qed.

(** [Q] splits into a part and the rest. *)
Lemma refs_split c P Q y :
  NoDup P → NoDup Q → (∀ x, x ∈ P → x ∈ Q) →
  refs c Q y = (refs c P y + refs c (filter (λ x, x ∉ P) Q) y)%nat.
Proof.
  intros HP HQ Hsub. rewrite <- refs_app. apply refs_perm.
  apply NoDup_Permutation; [done| |].
  - apply NoDup_app. split_and!; [done| |by apply NoDup_filter].
    intros x Hx Hx'. by apply list_elem_of_filter in Hx' as [? _].
  - intros x. rewrite elem_of_app, list_elem_of_filter. specialize (Hsub x). destruct (decide (x ∈ P)); tauto.
Qed.

Lemma refs_le c P Q y :
  NoDup P → NoDup Q → (∀ x, x ∈ P → x ∈ Q) → (refs c P y <= refs c Q y)%nat.
Proof. intros HP HQ Hsub. rewrite (refs_split c P Q y HP HQ Hsub). lia. Qed.

(** ** Reachability *)

Definition reach c : relation t_address := rtc (λ x y, y ∈ c x).

Lemma reach_closed c (A : t_address → Prop) x y :
  (∀ x y, A x → y ∈ c x → A y) → A x → reach c x y → A y.
Proof. intros Hcl Hx Hr. induction Hr as [|x z y Hz _ IH]; eauto. Qed.

Lemma reach_step c x y z : reach c x y → z ∈ c y → reach c x z.
Proof. intros Hr Hz. by eapply rtc_r. Qed.

Lemma reach_ext c c' x y : (∀ z, c z = c' z) → reach c x y → reach c' x y.
Proof.
  intros Hc Hr. induction Hr as [|x z y Hz _ IH]; [reflexivity|].
  eapply rtc_l; [|exact IH]. by rewrite <- Hc.
Qed.
End Counting.

(** ** Heaps *)

Definition children_of (o : t_object) : list t_address :=
  v_slots o ++ match v_type o with Some t => [t] | None => [] end.

Definition children (h : gmap t_address t_object) (x : t_address) : list t_address :=
  match h !! x with Some o => children_of o | None => [] end.

Definition addresses (h : gmap t_address t_object) : list t_address := (map_to_list h).*1.

Lemma addresses_nodup (h : gmap t_address t_object) : NoDup (addresses h).
Proof. apply NoDup_fst_map_to_list. Qed.

Lemma addresses_in h x : x ∈ addresses h ↔ is_Some (h !! x).
Proof.
  unfold addresses. rewrite list_elem_of_fmap. split.
  - intros ([y o] & -> & Hin). apply elem_of_map_to_list in Hin. eauto.
  - intros [o Ho]. exists (x, o). split; [done|]. by apply elem_of_map_to_list.
Qed.

Lemma addresses_length h : length (addresses h) = size h.
Proof. unfold addresses. by rewrite length_fmap, length_map_to_list. Qed.

(** Distinct objects of a heap are no more than its size. *)
Lemma nodup_length (h : gmap t_address t_object) l : NoDup l → (∀ x, x ∈ l → is_Some (h !! x)) → (length l <= size h)%nat.
Proof.
  intros Hl Hin. rewrite <- addresses_length. apply submseteq_length, NoDup_submseteq; [done|].
  intros x Hx. by apply addresses_in, Hin.
Qed.

(** What the search for cycles leaves alone in an object. *)
Definition skeleton (o : t_object) : Z * option t_address * list t_address * bool :=
  (v_count o, v_type o, v_slots o, v_reviving o).

Definition same_heap (h h' : gmap t_address t_object) : Prop := skeleton <$> h = skeleton <$> h'.

#[export] Instance same_heap_equivalence : Equivalence same_heap.
Proof. split; unfold same_heap; congruence. Qed.

Lemma same_heap_insert h x o o' : h !! x = Some o → skeleton o' = skeleton o → same_heap (<[x := o']> h) h.
Proof.
  intros Hx Ho. unfold same_heap. rewrite fmap_insert, Ho. apply insert_id. by rewrite lookup_fmap, Hx.
Qed.

Lemma same_heap_lookup h h' x o :
  same_heap h h' → h !! x = Some o → ∃ o', h' !! x = Some o' ∧ skeleton o' = skeleton o.
Proof.
  intros Hs Hx. assert (H : (skeleton <$> h') !! x = Some (skeleton o)) by (by rewrite <- Hs, lookup_fmap, Hx).
  rewrite lookup_fmap in H. destruct (h' !! x) as [o'|]; [|done]. apply (inj Some) in H. eauto.
Qed.

Lemma same_heap_children h h' x : same_heap h h' → children h x = children h' x.
Proof.
  intros Hs. unfold children. destruct (h !! x) as [o|] eqn:Hx.
  - destruct (same_heap_lookup _ _ _ _ Hs Hx) as (o' & -> & Ho). injection Ho as _ Ht Hsl _. unfold children_of. by rewrite Ht, Hsl.
  - destruct (h' !! x) as [o'|] eqn:Hx'; [|done].
    destruct (same_heap_lookup h' h x o') as (? & ? & _); [by symmetry|done|congruence].
Qed.

Lemma same_heap_is_Some h h' x : same_heap h h' → is_Some (h !! x) ↔ is_Some (h' !! x).
Proof.
  intros Hs. split; intros [o Ho].
  - destruct (same_heap_lookup _ _ _ _ Hs Ho) as (? & ? & _). eauto.
  - destruct (same_heap_lookup h' h x o) as (? & ? & _); [by symmetry|done|eauto].
Qed.

Lemma same_heap_size h h' : same_heap h h' → size h = size h'.
Proof. intros Hs. by rewrite <- (map_size_fmap skeleton h), Hs, map_size_fmap. Qed.

Lemma same_heap_addresses h h' y c : same_heap h h' → refs c (addresses h) y = refs c (addresses h') y.
Proof.
  intros Hs. apply refs_perm, NoDup_Permutation; [apply addresses_nodup..|].
  intros x. rewrite !addresses_in. by apply same_heap_is_Some.
Qed.

(** ** Stepping *)

Lemma update_ok f p s o :
  v_objects s !! p = Some o → update f p s = Ok (set_objects (<[p := f o]> (v_objects s)) s).
Proof. intros Ho. unfold update. by rewrite Ho. Qed.

Lemma get_ok p s o : v_objects s !! p = Some o → get p s = Ok o.
Proof. intros Ho. unfold get. by rewrite Ho. Qed.

Lemma fold_calls_ind {E S A} (f : S → A → result E S) (I : list A → S → Prop) l s :
  I [] s →
  (∀ l1 x l2 s, l = l1 ++ x :: l2 → I l1 s → ∃ s', f s x = Ok s' ∧ I (l1 ++ [x]) s') →
  ∃ s', fold_calls f s l = Ok s' ∧ I l s'.
Proof.
  intros H0 Hs. cut (∀ l2 l1 s, l = l1 ++ l2 → I l1 s → ∃ s', fold_calls f s l2 = Ok s' ∧ I l s').
  { intros H. by apply (H l [] s). }
  intros l2. induction l2 as [|x l2 IH]; intros l1 s1 Hl H1.
  - exists s1. split; [done|]. by rewrite Hl, app_nil_r.
  - destruct (Hs l1 x l2 s1 Hl H1) as (s2 & Hf & H2).
    destruct (IH (l1 ++ [x]) s2) as (s3 & H3 & HI); [by rewrite <- app_assoc|done|].
    exists s3. split; [|done]. cbn. by rewrite Hf.
Qed.

(** [f_step] takes an invariant through the children of an object. *)
Lemma f_step_ind push p s o t (I : list t_address → t_engine → Prop) :
  v_objects s !! p = Some o → v_type o = Some t → I [] s →
  (∀ l1 x l2 s, children_of o = l1 ++ x :: l2 → I l1 s → ∃ s', push x s = Ok s' ∧ I (l1 ++ [x]) s') →
  ∃ s', f_step push p s = Ok s' ∧ I (children_of o) s'.
Proof.
  intros Ho Ht H0 Hs. unfold f_step. rewrite (get_ok _ _ _ Ho). cbn [mbind outcome_bind]. rewrite Ht.
  assert (Hc : children_of o = v_slots o ++ [t]) by (unfold children_of; by rewrite Ht).
  rewrite Hc in *. apply fold_calls_ind; done.
Qed.

(** The rule for [f_loop]: [I done p s] holds when [p] was taken from the
    stack, and [done] counts the rounds made. *)
Lemma f_loop_ind step (I : nat → t_address → t_engine → Prop) (Q : t_engine → Prop) :
  (∀ n p s, I n p s → ∃ s', step p s = Ok s' ∧
     match v_scan_stack s' with
     | [] => Q s'
     | q :: stack => I (S n) q (set_scan_stack stack s')
     end) →
  ∀ bound, (∀ n p s, I n p s → (n < bound)%nat) →
  ∀ fuel p s, (bound <= fuel)%nat → I 0%nat p s → ∃ s', f_loop fuel step p s = Ok s' ∧ Q s'.
Proof.
  intros Hstep bound Hbound.
  cut (∀ fuel n p s, (bound <= fuel + n)%nat → I n p s → ∃ s', f_loop fuel step p s = Ok s' ∧ Q s').
  { intros H fuel p s Hf HI. apply (H fuel 0%nat); [lia|done]. }
  intros fuel. induction fuel as [|fuel IH]; intros n p s Hf HI.
  - specialize (Hbound _ _ _ HI). lia.
  - destruct (Hstep n p s HI) as (s' & Hs' & Hnext). cbn [f_loop]. rewrite Hs'. cbn [mbind outcome_bind].
    destruct (v_scan_stack s') as [|q stack] eqn:E; [by exists s'|]. apply (IH (S n)); [lia|done].
Qed.
