(* ===== verification/CollectorMark.v ===== *)
(** * Trial deletion

    [f_mark_gray] visits what is reachable from the purple roots and takes the
    references among the visited objects off their counts. *)
From stdpp Require Import base list numbers strings gmap.
From S2P Require Import Prelude Machine Collector CollectorGraph.
Local Open Scope Z_scope.

(** What the search changes besides the objects is the stack. *)
Definition rest_of (s : t_engine) :=
  (v_roots s, v_cycle s, v_cycles s, v_object__release s, v_object__collect s).

(** The heap at the start: references stay inside of it, and the counts are
    those of the references at least. *)
Record consistent (h : gmap t_address t_object) : Prop := {
  cs_type x o : h !! x = Some o → is_Some (v_type o);
  cs_closed x o y : h !! x = Some o → y ∈ children_of o → is_Some (h !! y);
  cs_count x o : h !! x = Some o →
    Z.of_nat (refs (children h) (addresses h) x) <= v_count o < SIZE_MODULUS
}.

Lemma children_closed h x y : consistent h → y ∈ children h x → is_Some (h !! y).
Proof.
  intros Hh. unfold children. destruct (h !! x) as [o|] eqn:Hx; [|by intros ?%not_elem_of_nil].
  by apply (cs_closed h Hh x).
Qed.

Section Mark.
Context (h0 : gmap t_address t_object).
Hypothesis Hh : consistent h0.
(** The roots, and the link of every object while the roots are marked. *)
Context (R0 : list t_address).
Hypothesis Hcolor : ∀ r x o, r ∈ R0 → reach (children h0) r x → h0 !! x = Some o →
  v_color o = c_color__BLACK ∨ v_color o = c_color__PURPLE.

Abbreviation c := (children h0).
Implicit Types (G P R : list t_address) (n : t_address → nat) (s : t_engine).

(** [G] is gray, and [n x] references to [x] are taken off.  [R] are the roots
    that were marked. *)
Record marking R (lk : t_address → option t_link) G n s : Prop := {
  mk_same : same_heap (v_objects s) h0;
  mk_nodup : NoDup G;
  mk_in x : x ∈ G → is_Some (h0 !! x);
  mk_gray x o : v_objects s !! x = Some o → x ∈ G →
    v_color o = c_color__GRAY ∧ v_cyclic o = v_count o - Z.of_nat (n x);
  mk_plain x : x ∉ G → v_color <$> v_objects s !! x = v_color <$> h0 !! x;
  mk_n x : (0 < n x)%nat → x ∈ G;
  mk_from x : x ∈ G → ∃ r, r ∈ R ∧ reach c r x;
  mk_link x : v_link <$> v_objects s !! x = lk x
}.

Lemma marking_ext R lk G n n' s : (∀ x, n x = n' x) → marking R lk G n s → marking R lk G n' s.
Proof.
  intros Hn [Hs Hnd Hin Hgray Hplain Hn0 Hfrom Hlink]. split; auto.
  - intros x o. rewrite <- Hn. auto.
  - intros x. rewrite <- Hn. auto.
Qed.

Lemma marking_perm R lk G G' n s : G ≡ₚ G' → marking R lk G n s → marking R lk G' n s.
Proof.
  intros HG [Hs Hnd Hin Hgray Hplain Hn0 Hfrom Hlink]. split; auto; try (intros x; rewrite <- HG; auto).
  - by rewrite <- HG.
  - intros x o Ho. rewrite <- HG. by apply Hgray.
Qed.

Lemma marking_stack R lk G n s st : marking R lk G n s → marking R lk G n (set_scan_stack st s).
Proof. intros []. by split. Qed.

Lemma skeleton_lookup s x o :
  same_heap (v_objects s) h0 → v_objects s !! x = Some o →
  ∃ o0, h0 !! x = Some o0 ∧ v_count o = v_count o0 ∧ v_type o = v_type o0 ∧ children_of o = c x.
Proof.
  intros Hs Ho. destruct (same_heap_lookup _ _ _ _ Hs Ho) as (o0 & Ho0 & Hsk). injection Hsk as Hc Ht Hsl _.
  exists o0. split_and!; [done|done|done|]. unfold children. rewrite Ho0. unfold children_of. by rewrite Ht, Hsl.
Qed.

(** Graying one more object. *)
Lemma marking_gray R lk G n s x o r :
  marking R lk G n s → v_objects s !! x = Some o → x ∉ G → r ∈ R → reach c r x →
  marking R lk (x :: G) n (set_objects (<[x := gray o]> (v_objects s)) s).
Proof.
  intros Hm Ho Hx Hr Hreach. destruct Hm as [Hs Hnd Hin Hgray Hplain Hn Hfrom Hlink].
  destruct (skeleton_lookup s x o Hs Ho) as (o0 & Ho0 & Hcount & _ & _).
  assert (Hnx : n x = 0%nat).
  { destruct (n x) eqn:E; [done|]. destruct Hx. apply Hn. lia. }
  assert (Hsize : to_size (v_count o) = v_count o).
  { apply to_size_id. pose proof (cs_count h0 Hh x o0 Ho0). lia. }
  split; cbn [v_objects set_objects].
  - etransitivity; [|exact Hs]. by apply (same_heap_insert _ _ o).
  - by apply NoDup_cons.
  - intros y [->|Hy]%elem_of_cons; eauto.
  - intros y oy. destruct (decide (y = x)) as [->|Hne].
    + rewrite lookup_insert_eq. intros [= <-] _. cbn. rewrite Hnx, Hsize. split; [done|lia].
    + rewrite lookup_insert_ne by done. intros Hy [->|Hin']%elem_of_cons; [done|by apply Hgray].
  - intros y Hy. apply not_elem_of_cons in Hy as [Hyx Hy]. rewrite lookup_insert_ne by congruence. by apply Hplain.
  - intros y Hy. right. by apply Hn.
  - intros y [->|Hy]%elem_of_cons; eauto.
  - intros y. rewrite <- Hlink. destruct (decide (y = x)) as [->|Hne].
    + by rewrite lookup_insert_eq, Ho.
    + by rewrite lookup_insert_ne.
Qed.

(** Taking one reference off. *)
Lemma marking_take R lk G n s x o :
  marking R lk G n s → v_objects s !! x = Some o → x ∈ G → Z.of_nat (n x) < v_count o →
  marking R lk G (λ y, (n y + occ y [x])%nat)
    (set_objects (<[x := with_cyclic (v_cyclic o - 1) o]> (v_objects s)) s).
Proof.
  intros Hm Ho Hx Hlt. destruct Hm as [Hs Hnd Hin Hgray Hplain Hn Hfrom Hlink].
  destruct (skeleton_lookup s x o Hs Ho) as (o0 & Ho0 & Hcount & _ & _).
  destruct (Hgray x o Ho Hx) as [Hco Hcy].
  assert (Hsize : to_size (v_cyclic o - 1) = v_cyclic o - 1).
  { apply to_size_id. pose proof (cs_count h0 Hh x o0 Ho0). lia. }
  split; cbn [v_objects set_objects]; try done.
  - etransitivity; [|exact Hs]. by apply (same_heap_insert _ _ o).
  - intros y oy. cbn [occ]. destruct (decide (y = x)) as [->|Hne].
    + rewrite lookup_insert_eq, decide_True by done. intros [= <-] _. cbn. rewrite Hsize. split; [done|lia].
    + rewrite lookup_insert_ne, decide_False by congruence. intros Hy Hy'. rewrite Nat.add_0_r. by apply Hgray.
  - intros y Hy. rewrite lookup_insert_ne by congruence. by apply Hplain.
  - intros y Hy. cbn [occ] in Hy. destruct (decide (x = y)) as [<-|Hne]; [done|]. apply Hn. lia.
  - intros y. rewrite <- Hlink. destruct (decide (y = x)) as [->|Hne].
    + by rewrite lookup_insert_eq, Ho.
    + by rewrite lookup_insert_ne.
Qed.

(** An object of the heap as it is in a later state. *)
Lemma same_object s x :
  same_heap (v_objects s) h0 → is_Some (h0 !! x) →
  ∃ o o0, v_objects s !! x = Some o ∧ h0 !! x = Some o0 ∧ v_count o = v_count o0 ∧ children_of o = c x ∧
          is_Some (v_type o).
Proof.
  intros Hs [o0 Ho0]. symmetry in Hs.
  destruct (same_heap_lookup _ _ _ _ Hs Ho0) as (o & Ho & _). symmetry in Hs.
  destruct (skeleton_lookup s x o Hs Ho) as (o0' & Ho0' & Hcount & Ht & Hch). simplify_eq.
  exists o, o0. split_and!; try done. rewrite Ht. by apply (cs_type h0 Hh x).
Qed.

Lemma mark_gray_push_ok R lk G n s x r :
  marking R lk G n s → is_Some (h0 !! x) → r ∈ R → r ∈ R0 → reach c r x →
  (n x < refs c (addresses h0) x)%nat →
  ∃ s' new, f_mark_gray_push x s = Ok s' ∧ v_scan_stack s' = new ++ v_scan_stack s ∧
    marking R lk (new ++ G) (λ y, (n y + occ y [x])%nat) s' ∧ rest_of s' = rest_of s ∧
    (∀ y, y ∈ new → y = x).
Proof.
  intros Hm Hx Hr Hr0 Hreach Hlt.
  destruct (same_object s x (mk_same _ _ _ _ _ Hm) Hx) as (o & o0 & Ho & Ho0 & Hcount & _ & _).
  pose proof (cs_count h0 Hh x o0 Ho0) as Hbound.
  unfold f_mark_gray_push. rewrite (get_ok _ _ _ Ho). cbn [mbind outcome_bind].
  destruct (decide (x ∈ G)) as [Hin|Hin].
  - destruct (mk_gray _ _ _ _ _ Hm x o Ho Hin) as [Hco _].
    rewrite decide_False by (intros H; by apply H). cbn [mbind outcome_bind]. rewrite (update_ok _ _ _ _ Ho).
    eexists _, []. split_and!; [done|done| |done|by intros y ?%not_elem_of_nil].
    apply (marking_take R lk G n s x o); try done. lia.
  - assert (Hco : v_color o ≠ c_color__GRAY).
    { pose proof (mk_plain _ _ _ _ _ Hm x Hin) as Hp. rewrite Ho, Ho0 in Hp. cbn in Hp. injection Hp as Hp.
      destruct (Hcolor r x o0 Hr0 Hreach Ho0) as [E|E]; congruence. }
    rewrite decide_True by done. rewrite (update_ok _ _ _ _ Ho). cbn [mbind outcome_bind f_push].
    pose proof (marking_gray R lk G n s x o r Hm Ho Hin Hr Hreach) as Hm1.
    set (s1 := set_objects (<[x := gray o]> (v_objects s)) s) in *.
    assert (Ho1 : v_objects (set_scan_stack (x :: v_scan_stack s1) s1) !! x = Some (gray o))
      by (cbn; by rewrite lookup_insert_eq).
    rewrite (update_ok _ _ _ _ Ho1). eexists _, [x].
    split_and!; [done|done| |done|by intros y ->%list_elem_of_singleton].
    apply (marking_take R lk (x :: G) n _ x (gray o)); [by apply marking_stack|done|by left|cbn; lia].
Qed.

(** Between the rounds of a loop: [P] was visited, and [p] is next. *)
Definition between R lk P p n s : Prop :=
  marking R lk (p :: v_scan_stack s ++ P) n s.

Lemma mark_gray_step_ok R lk P p s :
  (∀ r, r ∈ R → r ∈ R0) → between R lk P p (refs c P) s →
  ∃ s', f_step f_mark_gray_push p s = Ok s' ∧ rest_of s' = rest_of s ∧
    marking R lk (v_scan_stack s' ++ p :: P) (refs c (p :: P)) s'.
Proof.
  intros HR Hb. pose proof Hb as Hm0. unfold between in Hm0.
  assert (Hp : is_Some (h0 !! p)) by (eapply mk_in; [exact Hm0|by left]).
  destruct (mk_from _ _ _ _ _ Hm0 p) as (r & Hr & Hreach); [by left|].
  destruct (same_object s p (mk_same _ _ _ _ _ Hm0) Hp) as (o & o0 & Ho & Ho0 & _ & Hch & [t Ht]).
  destruct (f_step_ind f_mark_gray_push p s o t (λ l s', ∃ new,
      v_scan_stack s' = new ++ v_scan_stack s ∧ rest_of s' = rest_of s ∧
      marking R lk (new ++ p :: v_scan_stack s ++ P) (λ y, (refs c P y + occ y l)%nat) s')) as (s' & Hs' & Hend).
  - done.
  - done.
  - exists []. split_and!; [done|done|]. eapply marking_ext; [|exact Hm0]. intros y. cbn. lia.
  - intros l1 x l2 s1 Hl (new & Hst & Hrest & Hm). rewrite Hch in Hl.
    assert (Hx : x ∈ c p) by (rewrite Hl; apply elem_of_app; right; by left).
    destruct (mark_gray_push_ok R lk _ _ s1 x r Hm) as (s2 & new2 & Hs2 & Hst2 & Hm2 & Hrest2 & _).
    + by apply (children_closed h0 p).
    + done.
    + by apply HR.
    + by eapply reach_step.
    + pose proof (mk_nodup _ _ _ _ _ Hm0) as Hnd. pose proof (mk_in _ _ _ _ _ Hm0) as Hin.
      assert (Hle : (refs c (p :: P) x <= refs c (addresses h0) x)%nat).
      { apply refs_le; [|apply addresses_nodup|].
        - eapply sublist_NoDup; [exact Hnd|]. apply sublist_skip. apply sublist_inserts_l. done.
        - intros y Hy. apply addresses_in, Hin. apply elem_of_cons in Hy as [->|Hy]; [by left|].
          right. apply elem_of_app. by right. }
      cbn [refs] in Hle. rewrite Hl, occ_app in Hle. cbn [occ] in Hle. rewrite decide_True in Hle by done. lia.
    + exists s2. split; [done|]. exists (new2 ++ new). rewrite <- !app_assoc, Hst2, Hst.
      split_and!; [done|congruence|]. eapply marking_ext; [|exact Hm2]. intros y. cbn beta.
      rewrite occ_app. lia.
  - destruct Hend as (new & Hst & Hrest & Hm). exists s'. split_and!; [done|done|].
    rewrite Hst. eapply marking_ext; [|eapply marking_perm; [|exact Hm]].
    + intros y. cbn [refs]. rewrite Hch. lia.
    + rewrite <- !app_assoc. apply Permutation_app_head, Permutation_middle.
Qed.

(** The loop visits all that is reachable. *)
Lemma mark_gray_loop_ok R lk P p s :
  (∀ r, r ∈ R → r ∈ R0) → between R lk P p (refs c P) s →
  ∃ s' P', f_loop (rounds s) (f_step f_mark_gray_push) p s = Ok s' ∧
    rest_of s' = rest_of s ∧ v_scan_stack s' = [] ∧ marking R lk P' (refs c P') s' ∧ p ∈ P' ∧
    ∀ x, x ∈ P → x ∈ P'.
Proof.
  intros HR Hb.
  destruct (f_loop_ind (f_step f_mark_gray_push)
    (λ k q s1, ∃ P1, between R lk P1 q (refs c P1) s1 ∧ rest_of s1 = rest_of s ∧ (k <= length P1)%nat ∧
       p ∈ q :: P1 ∧ ∀ x, x ∈ P → x ∈ P1)
    (λ s1, ∃ P1, v_scan_stack s1 = [] ∧ marking R lk P1 (refs c P1) s1 ∧ rest_of s1 = rest_of s ∧
       p ∈ P1 ∧ ∀ x, x ∈ P → x ∈ P1)) with (bound := S (2 * size h0)) (fuel := rounds s) (p := p) (s := s)
    as (s' & Hs' & P' & Hst & Hm & Hrest & Hp & HP).
  - intros k q s1 (P1 & Hb1 & Hrest1 & Hk & Hp1 & HP1).
    destruct (mark_gray_step_ok R lk P1 q s1 HR Hb1) as (s2 & Hs2 & Hrest2 & Hm2).
    exists s2. split; [done|]. destruct (v_scan_stack s2) as [|q' stack] eqn:Hst2.
    + exists (q :: P1). split_and!; [done|done|congruence|done|]. intros x Hx. right. auto.
    + exists (q :: P1). split_and!; [|by transitivity (rest_of s1)|cbn; lia|by right|].
      * unfold between. cbn [v_scan_stack set_scan_stack]. by apply marking_stack.
      * intros x Hx. right. auto.
  - intros k q s1 (P1 & Hb1 & _ & Hk & _). pose proof (mk_nodup _ _ _ _ _ Hb1) as Hnd.
    pose proof (nodup_length h0 _ Hnd (mk_in _ _ _ _ _ Hb1)) as Hl. cbn in Hl. rewrite length_app in Hl. lia.
  - unfold rounds. rewrite (same_heap_size _ _ (mk_same _ _ _ _ _ Hb)). lia.
  - exists P. split_and!; [done|done|lia|by left|done].
  - exists s', P'. split_and!; done.
Qed.

(** All references of the visited objects stay among them. *)
Lemma marking_closed R lk P s x y : marking R lk P (refs c P) s → x ∈ P → y ∈ c x → y ∈ P.
Proof. intros Hm Hx Hy. apply (mk_n _ _ _ _ _ Hm). by apply (refs_in c P x). Qed.

(** ** All roots *)

(** A root of the list does not refer to the ones after it. *)
Fixpoint ordered R : Prop :=
  match R with [] => True | a :: R => (∀ b, b ∈ R → ¬ reach c a b) ∧ ordered R end.

Lemma ordered_snoc R q : ordered R → (∀ a, a ∈ R → ¬ reach c a q) → ordered (R ++ [q]).
Proof.
  induction R as [|a R IH]; cbn; intros HR Hq.
  - split; [|done]. by intros b ?%not_elem_of_nil.
  - destruct HR as [Ha HR]. split; [|by apply IH; auto; intros b Hb; apply Hq; right].
    intros b [Hb| ->%list_elem_of_singleton]%elem_of_app; [by apply Ha|apply Hq; by left].
Qed.

(** The links when the objects of [l] are roots and no object is in a cycle. *)
Definition link_in (l : list t_address) x : option t_link :=
  if decide (x ∈ l) then Some Root else (λ _, Unlinked) <$> h0 !! x.

Lemma marking_roots R R' lk G n s : (∀ r, r ∈ R → r ∈ R') → marking R lk G n s → marking R' lk G n s.
Proof.
  intros HR [Hs Hnd Hin Hgray Hplain Hn0 Hfrom Hlink]. split; auto.
  intros x Hx. destruct (Hfrom x Hx) as (r & Hr & Hreach). eauto.
Qed.

(** Taking a root off its list. *)
Lemma marking_unlink R l1 q l2 G n s o :
  marking R (link_in (l1 ++ q :: l2)) G n s → v_objects s !! q = Some o → NoDup (l1 ++ q :: l2) →
  marking R (link_in (l1 ++ l2)) G n (set_objects (<[q := with_link Unlinked o]> (v_objects s)) s).
Proof.
  intros [Hs Hnd Hin Hgray Hplain Hn Hfrom Hlink] Ho Hq. split; cbn [v_objects set_objects]; auto.
  - etransitivity; [|exact Hs]. by apply (same_heap_insert _ _ o).
  - intros x ox. destruct (decide (x = q)) as [->|Hne].
    + rewrite lookup_insert_eq. intros [= <-]. cbn. by apply Hgray.
    + rewrite lookup_insert_ne by done. by apply Hgray.
  - intros x Hx. rewrite <- (Hplain x Hx). destruct (decide (x = q)) as [->|Hne].
    + by rewrite lookup_insert_eq, Ho.
    + by rewrite lookup_insert_ne.
  - intros x. specialize (Hlink x). unfold link_in in *. destruct (decide (x = q)) as [->|Hne].
    + rewrite lookup_insert_eq. cbn. rewrite decide_False.
      * destruct (skeleton_lookup s q o Hs Ho) as (o0 & -> & _). done.
      * apply NoDup_app in Hq as (_ & Hd & [Hq _]%NoDup_cons).
        intros [Hl|Hl]%elem_of_app; [|done]. apply (Hd q Hl). by left.
    + rewrite lookup_insert_ne, Hlink by done.
      assert (Hiff : x ∈ l1 ++ q :: l2 ↔ x ∈ l1 ++ l2) by (rewrite !elem_of_app, elem_of_cons; tauto).
      do 2 case_decide; tauto.
Qed.

(** The marked heap: [R] are the roots that were kept, and [P] is what they
    reach. *)
Record marked R P s : Prop := {
  md_marking : marking R (link_in R) P (refs c P) s;
  md_stack : v_scan_stack s = [];
  md_ordered : ordered R;
  md_nodup : NoDup R;
  md_roots : ∀ r, r ∈ R → r ∈ P
}.

Lemma mark_gray_ok R lk P q s o :
  (∀ r, r ∈ R → r ∈ R0) → q ∈ R0 → is_Some (h0 !! q) →
  marking R lk P (refs c P) s → v_scan_stack s = [] → v_objects s !! q = Some o → q ∉ P →
  ∃ s' P', f_mark_gray q s = Ok s' ∧ rest_of s' = rest_of s ∧ v_scan_stack s' = [] ∧
    marking (R ++ [q]) lk P' (refs c P') s' ∧ q ∈ P' ∧ ∀ x, x ∈ P → x ∈ P'.
Proof.
  intros HR Hq Hin Hm Hst Ho HqP. unfold f_mark_gray. rewrite (update_ok _ _ _ _ Ho). cbn [mbind outcome_bind].
  set (s1 := set_objects (<[q := gray o]> (v_objects s)) s).
  assert (Hb : between (R ++ [q]) lk P q (refs c P) s1).
  { unfold between. cbn [s1 v_scan_stack set_objects]. rewrite Hst.
    apply (marking_gray (R ++ [q]) lk P (refs c P) s q o q); [|done|done| |reflexivity].
    - apply (marking_roots R); [|done]. intros r Hr. apply elem_of_app. by left.
    - apply elem_of_app. right. by left. }
  destruct (mark_gray_loop_ok (R ++ [q]) lk P q s1) as (s' & P' & Hs' & Hrest & Hst' & Hm' & Hq' & HP'); [|done|].
  - intros r [Hr|Hr%list_elem_of_singleton]%elem_of_app; [auto|congruence].
  - exists s', P'. split_and!; done.
Qed.

Lemma mark_roots_ok l kept P s :
  (∀ r, r ∈ kept ++ l → r ∈ R0) → (∀ r, r ∈ l → ∃ o, h0 !! r = Some o ∧ 0 < v_count o) → NoDup (kept ++ l) →
  marking kept (link_in (kept ++ l)) P (refs c P) s → v_scan_stack s = [] →
  ordered kept → (∀ r, r ∈ kept → r ∈ P) →
  ∃ s' R P', mark_roots l kept s = Ok s' ∧ v_roots s' = R ∧ rest_of s' = rest_of (set_roots R s) ∧
    marked R P' s' ∧ (∀ r, r ∈ R → r ∈ kept ++ l) ∧ (∀ x, x ∈ P → x ∈ P') ∧
    (∀ r, r ∈ R → r ∈ kept ∨ v_color <$> h0 !! r = Some c_color__PURPLE) ∧
    ∀ r, r ∈ l → v_color <$> h0 !! r = Some c_color__PURPLE → r ∈ P'.
Proof.
  revert kept P s. induction l as [|q l IH]; intros kept P s Hkl Hl Hnd Hm Hst Hord Hkept; cbn [mark_roots].
  - rewrite app_nil_r in *. exists (set_roots kept s), kept, P. split_and!; try done.
    + split; try done. destruct Hm. by split.
    + intros r Hr. by left.
    + by intros r ?%not_elem_of_nil.
  - assert (Hq : is_Some (h0 !! q)) by (destruct (Hl q) as (o & -> & _); [by left|by eexists]).
    destruct (same_object s q (mk_same _ _ _ _ _ Hm) Hq) as (o & o0 & Ho & Ho0 & Hcount & _ & _).
    rewrite (get_ok _ _ _ Ho). cbn [mbind outcome_bind].
    rewrite decide_True by (destruct (Hl q) as (o1 & ? & ?); [by left|simplify_eq; lia]).
    assert (Hq0 : q ∈ R0) by (apply Hkl, elem_of_app; right; by left).
    destruct (decide (v_color o = c_color__PURPLE)) as [Hco|Hco].
    + assert (HqP : q ∉ P).
      { intros HqP. destruct (mk_gray _ _ _ _ _ Hm q o Ho HqP). congruence. }
      destruct (mark_gray_ok kept (link_in (kept ++ q :: l)) P q s o) as (s1 & P1 & Hs1 & Hrest1 & Hst1 & Hm1 & HqP1 & HP1);
        [|done|done|exact Hm|done|done|done|].
      { intros r Hr. apply Hkl, elem_of_app. by left. }
      rewrite Hs1. cbn [mbind outcome_bind].
      destruct (IH (kept ++ [q]) P1 s1) as (s' & R & P' & Hs' & HR & Hrest & Hmd & HRl & HP' & HRc & Hpurple).
      * intros r. rewrite <- app_assoc. apply Hkl.
      * intros r Hr. apply Hl. by right.
      * by rewrite <- app_assoc.
      * by rewrite <- app_assoc.
      * done.
      * apply ordered_snoc; [done|]. intros a Ha Hreach. apply HqP.
        apply (reach_closed c (λ x, x ∈ P) a q); [|auto|done]. intros x y. by apply (marking_closed _ _ _ _ _ _ Hm).
      * intros r [Hr| ->%list_elem_of_singleton]%elem_of_app; auto.
      * exists s', R, P'. split_and!; try done.
        -- rewrite Hrest. unfold rest_of in *. cbn in *. congruence.
        -- intros r Hr. apply HRl in Hr. by rewrite <- app_assoc in Hr.
        -- auto.
        -- intros r Hr. destruct (HRc r Hr) as [[?| ->%list_elem_of_singleton]%elem_of_app|?]; [by left| |by right].
           right. rewrite <- (mk_plain _ _ _ _ _ Hm q HqP), Ho. cbn. by f_equal.
        -- intros r [-> |Hr]%elem_of_cons Hcr; auto.
    + rewrite (update_ok _ _ _ _ Ho). cbn [mbind outcome_bind].
      pose proof (marking_unlink kept kept q l P (refs c P) s o Hm Ho Hnd) as Hm1.
      destruct (IH kept P (set_objects (<[q := with_link Unlinked o]> (v_objects s)) s)) as (s' & R & P' & Hs' & HR & Hrest & Hmd & HRl & HP' & HRc & Hpurple);
        [| | |exact Hm1|done|done|done|].
      * intros r Hr. apply Hkl. apply elem_of_app. apply elem_of_app in Hr as [Hr|Hr]; [by left|right; by right].
      * intros r Hr. apply Hl. by right.
      * eapply sublist_NoDup; [exact Hnd|]. apply sublist_app; [done|by apply sublist_cons].
      * exists s', R, P'. split_and!; try done.
        -- intros r Hr. apply HRl in Hr. apply elem_of_app. apply elem_of_app in Hr as [Hr|Hr]; [by left|right; by right].
        -- intros r [-> |Hr]%elem_of_cons Hcr; [|auto]. apply HP'.
           destruct (decide (q ∈ P)) as [|HqP]; [done|].
           pose proof (mk_plain _ _ _ _ _ Hm q HqP) as Hplain. rewrite Ho, Ho0 in Hplain. rewrite Ho0 in Hcr.
           cbn in *. congruence.
Qed.
End Mark.
