(* ===== verification/CollectorScan.v ===== *)
(** * Telling the live objects from the garbage

    [f_scan_gray] starts from the roots.  Of the objects that were visited, it
    blackens those that can be reached from one with references left over, and
    whitens the others. *)
From stdpp Require Import base list numbers strings gmap.
From S2P Require Import Prelude Machine Collector CollectorGraph CollectorMark.
Local Open Scope Z_scope.

Definition color (s : t_engine) (x : t_address) : option t_color := v_color <$> v_objects s !! x.

(** The part of a state that scanning leaves alone: everything but the colours
    and the stack. *)
Definition drawing (o : t_object) := (skeleton o, v_cyclic o, v_link o).

Definition frame (s s' : t_engine) : Prop :=
  drawing <$> v_objects s = drawing <$> v_objects s' ∧ rest_of s = rest_of s'.

#[export] Instance frame_equivalence : Equivalence frame.
Proof. split; repeat intro; unfold frame in *; intuition congruence. Qed.

Lemma frame_lookup s s' x o :
  frame s s' → v_objects s !! x = Some o → ∃ o', v_objects s' !! x = Some o' ∧ drawing o = drawing o'.
Proof.
  intros [Hf _] Ho. assert (H : (drawing <$> v_objects s') !! x = Some (drawing o)) by (by rewrite <- Hf, lookup_fmap, Ho).
  rewrite lookup_fmap in H. destruct (v_objects s' !! x) as [o'|]; [|done]. apply (inj Some) in H. eauto.
Qed.

Lemma frame_same_heap s s' : frame s s' → same_heap (v_objects s) (v_objects s').
Proof.
  intros [Hf _]. unfold same_heap.
  assert (H : (λ d : _ * _ * _, d.1.1) <$> (drawing <$> v_objects s)
            = (λ d : _ * _ * _, d.1.1) <$> (drawing <$> v_objects s')) by (by rewrite Hf).
  by rewrite <- !map_fmap_compose in H.
Qed.

Lemma frame_paint s x o k : v_objects s !! x = Some o → frame (set_objects (<[x := with_color k o]> (v_objects s)) s) s.
Proof.
  intros Ho. split; [|done]. cbn [v_objects set_objects]. rewrite fmap_insert. apply insert_id. by rewrite lookup_fmap, Ho.
Qed.

Lemma color_paint s x o k y :
  color (set_objects (<[x := with_color k o]> (v_objects s)) s) y = if decide (y = x) then Some k else color s y.
Proof.
  unfold color. cbn [v_objects set_objects]. case_decide as E; [subst; by rewrite lookup_insert_eq|by rewrite lookup_insert_ne].
Qed.

Section Scan.
(** The state when the scan begins, and what was visited. *)
Context (s0 : t_engine) (P : list t_address).
Abbreviation c := (children (v_objects s0)).
Hypothesis Hnodup : NoDup P.
Hypothesis Htype : ∀ x, x ∈ P → ∃ o, v_objects s0 !! x = Some o ∧ is_Some (v_type o).
Hypothesis Hclosed : ∀ x y, x ∈ P → y ∈ c x → y ∈ P.

(** References to [x] are left over. *)
Definition held (x : t_address) : Prop := ∃ o, v_objects s0 !! x = Some o ∧ v_cyclic o > 0.

Definition live (x : t_address) : Prop := ∃ z, z ∈ P ∧ held z ∧ reach c z x.

(** The objects of [E] are being stepped through. *)
Record scanning (E : list t_address) (s : t_engine) : Prop := {
  sc_frame : frame s s0;
  sc_plain x : x ∉ P → color s x = color s0 x;
  sc_color x : x ∈ P → color s x = Some c_color__GRAY ∨ color s x = Some c_color__BLACK ∨
                       color s x = Some c_color__WHITING ∨ color s x = Some c_color__WHITE;
  sc_live x : x ∈ P → color s x = Some c_color__BLACK → live x;
  sc_zero x : x ∈ P → color s x = Some c_color__WHITING ∨ color s x = Some c_color__WHITE → ¬ held x;
  sc_black x y : x ∈ P → color s x = Some c_color__BLACK → x ∉ E → x ∉ v_scan_stack s → y ∈ c x →
    color s y = Some c_color__BLACK;
  sc_white x y : x ∈ P → color s x = Some c_color__WHITE → x ∉ E → y ∈ c x → color s y ≠ Some c_color__GRAY;
  sc_whiting x : x ∈ P → color s x = Some c_color__WHITING → x ∈ v_scan_stack s;
  sc_stack x : x ∈ v_scan_stack s → x ∈ P ∧ (color s x = Some c_color__BLACK ∨ color s x = Some c_color__WHITING);
  sc_stack_nodup : NoDup (v_scan_stack s)
}.

(** How often an object is still to be taken from the stack at most. *)
Definition weight (s : t_engine) (x : t_address) : nat :=
  match color s x with
  | Some c_color__GRAY | Some c_color__WHITING => 2
  | Some c_color__WHITE => 1
  | _ => if decide (x ∈ v_scan_stack s) then 1 else 0
  end.

Definition potential (s : t_engine) : nat := sum_list (weight s <$> P).

(** What every step of the scan does. *)
Record advances (s s' : t_engine) : Prop := {
  ad_black x : color s x = Some c_color__BLACK → color s' x = Some c_color__BLACK;
  ad_gray x : x ∈ P → color s x ≠ Some c_color__GRAY → color s' x ≠ Some c_color__GRAY;
  ad_weight x : x ∈ P → (weight s' x <= weight s x)%nat
}.

#[local] Instance advances_preorder : PreOrder advances.
Proof.
  split.
  - intros s. by split.
  - intros s1 s2 s3 [Hb Hg Hw] [Hb' Hg' Hw']. split; [by auto|intros x Hx Hc; by apply Hg', Hg|].
    intros x Hx. transitivity (weight s2 x); auto.
Qed.

Lemma sum_le (f g : t_address → nat) Q :
  (∀ x, x ∈ Q → (f x <= g x)%nat) → (sum_list (f <$> Q) <= sum_list (g <$> Q))%nat.
Proof.
  induction Q as [|x Q IH]; cbn; intros H; [done|]. specialize (H x ltac:(by left)) as Hx.
  specialize (IH (λ y Hy, H y (list_elem_of_further y x Q Hy))). cbn in *. lia.
Qed.

Lemma sum_lt (f g : t_address → nat) Q x :
  (∀ y, y ∈ Q → (f y <= g y)%nat) → x ∈ Q → (f x < g x)%nat →
  (sum_list (f <$> Q) < sum_list (g <$> Q))%nat.
Proof.
  induction Q as [|z Q IH]; intros H; [by intros ?%not_elem_of_nil|].
  assert (HQ : ∀ y, y ∈ Q → (f y <= g y)%nat) by (intros y Hy; apply H; by right).
  pose proof (sum_le f g Q HQ) as Hle. specialize (H z ltac:(by left)) as Hz.
  intros [-> |Hx]%elem_of_cons Hlt; cbn in *; [lia|]. specialize (IH HQ Hx Hlt). lia.
Qed.

Lemma potential_le s s' : advances s s' → (potential s' <= potential s)%nat.
Proof. intros Ha. apply sum_le. by apply ad_weight. Qed.

Lemma potential_bound s : (potential s <= 2 * length P)%nat.
Proof.
  transitivity (sum_list ((λ _, 2%nat) <$> P)).
  - apply sum_le. intros x _. unfold weight. case_tests; repeat case_match; lia.
  - clear. induction P as [|x Q IH]; cbn in *; lia.
Qed.

(** ** Painting *)

(** [x] is painted [k], and the stack becomes [st]. *)
Record paints (x : t_address) (k : t_color) (st : list t_address) (s s' : t_engine) : Prop := {
  pt_frame : frame s' s;
  pt_color y : color s' y = if decide (y = x) then Some k else color s y;
  pt_stack : v_scan_stack s' = st
}.

Lemma paints_ok s x o k st :
  v_objects s !! x = Some o → paints x k st s (set_scan_stack st (set_objects (<[x := with_color k o]> (v_objects s)) s)).
Proof. intros Ho. split; [by apply (frame_paint s x o k)|intros y; by apply color_paint|done]. Qed.

Ltac paint_cases Hp :=
  repeat match goal with
  | H : context [color ?s' _] |- _ => lazymatch type of Hp with paints _ _ _ _ s' => rewrite (pt_color _ _ _ _ _ Hp) in H end
  end;
  repeat rewrite (pt_color _ _ _ _ _ Hp); 
  repeat match goal with
  | H : context [decide (?y = ?x)] |- _ => destruct (decide (y = x))
  | |- context [decide (?y = ?x)] => destruct (decide (y = x))
  end; subst; try done.

Lemma scanning_black E s s' x st :
  scanning E s → x ∈ P → live x → paints x c_color__BLACK st s s' →
  color s x ≠ Some c_color__BLACK →
  st = (if decide (color s x = Some c_color__WHITING) then v_scan_stack s else x :: v_scan_stack s) →
  scanning E s' ∧ advances s s'.
Proof.
  intros Hs Hx Hlive Hp Hnb Hst. destruct Hs as [Hf Hpl Hco Hli Hz Hb Hw Hwt Hsk Hnd].
  assert (Hxst : x ∈ st).
  { subst st. case_decide; [by apply Hwt|by left]. }
  assert (Hsub : ∀ y, y ∈ v_scan_stack s → y ∈ st) by (intros y; subst st; case_decide; [done|by right]).
  assert (Hsub' : ∀ y, y ∈ st → y = x ∨ y ∈ v_scan_stack s).
  { intros y; subst st; case_decide; [by right|by intros [?|?]%elem_of_cons; [left|right]]. }
  assert (Hndst : NoDup st).
  { subst st. case_decide as Hc; [done|]. constructor; [|done].
    intros Hin. destruct (Hsk x Hin) as [_ [?|?]]; done. }
  clear Hst. pose proof (pt_stack _ _ _ _ _ Hp) as Hst'.
  split; split.
  - etransitivity; [exact (pt_frame _ _ _ _ _ Hp)|done].
  - intros y Hy. paint_cases Hp. auto.
  - intros y Hy. paint_cases Hp; auto.
  - intros y Hy Hc. paint_cases Hp; auto.
  - intros y Hy Hc. paint_cases Hp; [by destruct Hc|auto].
  - intros y z Hy Hc HE Hin Hz'. rewrite Hst' in Hin. paint_cases Hp. eauto.
  - intros y z Hy Hc HE Hz'. paint_cases Hp; eauto.
  - intros y Hy Hc. rewrite Hst'. paint_cases Hp; auto.
  - intros y Hy. rewrite Hst' in Hy. apply Hsub' in Hy as [-> |Hy].
    + split; [done|]. left. paint_cases Hp.
    + destruct (Hsk y Hy) as [HyP Hc]. split; [done|]. paint_cases Hp; auto.
  - by rewrite Hst'.
  - intros y Hc. paint_cases Hp.
  - intros y Hy Hc. paint_cases Hp.
  - intros y Hy. unfold weight. rewrite Hst', (pt_color _ _ _ _ _ Hp). case_decide as Hyx.
    + subst y. rewrite decide_True by done. destruct (Hco x Hx) as [Hcx|[Hcx|[Hcx|Hcx]]]; rewrite Hcx; (lia || done).
    + rewrite (decide_ext (y ∈ st) (y ∈ v_scan_stack s)) by (split; intros Hd; [destruct (Hsub' y Hd)|]; auto; done). done.
Qed.

Lemma scanning_whiting E s s' x :
  scanning E s → x ∈ P → ¬ held x → paints x c_color__WHITING (x :: v_scan_stack s) s s' →
  color s x = Some c_color__GRAY → scanning E s' ∧ advances s s'.
Proof.
  intros Hs Hx Hheld Hp Hg. destruct Hs as [Hf Hpl Hco Hli Hz Hb Hw Hwt Hsk Hnd].
  assert (Hxst : x ∉ v_scan_stack s).
  { intros Hin. destruct (Hsk x Hin) as [_ [?|?]]; congruence. }
  pose proof (pt_stack _ _ _ _ _ Hp) as Hst'.
  split; split.
  - etransitivity; [exact (pt_frame _ _ _ _ _ Hp)|done].
  - intros y Hy. paint_cases Hp. auto.
  - intros y Hy. paint_cases Hp; auto.
  - intros y Hy Hc. paint_cases Hp; auto.
  - intros y Hy Hc. paint_cases Hp. auto.
  - intros y z Hy Hc HE Hin Hz'. rewrite Hst' in Hin. apply not_elem_of_cons in Hin as [Hyx Hin].
    paint_cases Hp; [|eauto]. specialize (Hb y x Hy Hc HE Hin Hz'). congruence.
  - intros y z Hy Hc HE Hz'. paint_cases Hp. eauto.
  - intros y Hy Hc. rewrite Hst'. paint_cases Hp; [by left|right; auto].
  - intros y Hy. rewrite Hst' in Hy. apply elem_of_cons in Hy as [-> |Hy].
    + split; [done|]. right. paint_cases Hp.
    + destruct (Hsk y Hy) as [HyP Hc]. split; [done|]. paint_cases Hp; auto.
  - rewrite Hst'. by constructor.
  - intros y Hc. paint_cases Hp. congruence.
  - intros y Hy Hc. paint_cases Hp.
  - intros y Hy. unfold weight. rewrite Hst', (pt_color _ _ _ _ _ Hp). case_decide as Hyx.
    + subst y. by rewrite Hg.
    + rewrite (decide_ext (y ∈ x :: v_scan_stack s) (y ∈ v_scan_stack s)) by (rewrite elem_of_cons; tauto). done.
Qed.

(** The next object: from the stack, or the first one. *)
Lemma scanning_take s s' p k st :
  scanning [] s → p ∈ P → paints p k st s s' →
  v_scan_stack s = p :: st ∨ v_scan_stack s = st ∧ color s p = Some c_color__GRAY →
  k = c_color__BLACK ∧ live p ∧ color s p ≠ Some c_color__WHITING ∨
  k = c_color__WHITE ∧ ¬ held p ∧ color s p ≠ Some c_color__BLACK →
  scanning [p] s' ∧ (potential s' < potential s)%nat ∧
  (∀ x, color s x = Some c_color__BLACK → color s' x = Some c_color__BLACK) ∧
  (∀ x, x ∈ P → color s x ≠ Some c_color__GRAY → color s' x ≠ Some c_color__GRAY) ∧
  color s' p = Some k ∧ v_scan_stack s' = st.
Proof.
  intros Hs Hx Hp Hstack Hk. destruct Hs as [Hf Hpl Hco Hli Hz Hb Hw Hwt Hsk Hnd].
  pose proof (pt_stack _ _ _ _ _ Hp) as Hst'.
  assert (Hpst : (p ∉ st) ∧ NoDup st ∧ ∀ y, y ≠ p → (y ∈ st ↔ y ∈ v_scan_stack s)).
  { destruct Hstack as [Hstack|[Hstack Hg]]; rewrite Hstack in *.
    - apply NoDup_cons in Hnd as [? ?]. split_and!; try done. intros y Hy. rewrite elem_of_cons. tauto.
    - split_and!; try done. intros Hin. destruct (Hsk p Hin) as [_ [?|?]]; congruence. }
  destruct Hpst as (Hpst & Hndst & Hiff).
  assert (Hold : color s p = Some c_color__GRAY ∨ p ∈ v_scan_stack s ∧
                 (color s p = Some c_color__BLACK ∨ color s p = Some c_color__WHITING)).
  { destruct Hstack as [Hstack|[_ Hg]]; [right|by left].
    assert (Hin : p ∈ v_scan_stack s) by (rewrite Hstack; by left). split; [done|]. by apply (Hsk p Hin). }
  assert (Hkw : k ≠ c_color__WHITING ∧ k ≠ c_color__GRAY) by (destruct Hk as [[-> _]|[-> _]]; done).
  destruct Hkw as [Hkw Hkg].
  split_and!; [split| | | | |].
  - etransitivity; [exact (pt_frame _ _ _ _ _ Hp)|done].
  - intros y Hy. paint_cases Hp. auto.
  - intros y Hy. paint_cases Hp; [|auto]. destruct Hk as [[-> _]|[-> _]]; auto.
  - intros y Hy Hc. paint_cases Hp; [|auto]. destruct Hk as [(-> & ? & _)|(-> & _)]; done.
  - intros y Hy Hc. paint_cases Hp; [|auto]. destruct Hk as [(-> & _)|(-> & ? & _)]; [by destruct Hc|done].
  - intros y z Hy Hc HE Hin Hz'. rewrite Hst' in Hin. apply not_elem_of_cons in HE as [HE _].
    paint_cases Hp.
    + rewrite (Hiff y HE) in Hin. pose proof (Hb y p Hy Hc (not_elem_of_nil _) Hin Hz') as Hcp.
      destruct Hk as [(-> & _)|(_ & _ & ?)]; done.
    + rewrite (Hiff y HE) in Hin. apply (Hb y z); [done|done|apply not_elem_of_nil|done|done].
  - intros y z Hy Hc HE Hz'. apply not_elem_of_cons in HE as [HE _]. paint_cases Hp; [congruence|].
    apply (Hw y z); [done|done|apply not_elem_of_nil|done].
  - intros y Hy Hc. rewrite Hst'. paint_cases Hp; [congruence|]. apply Hiff; auto.
  - intros y Hy. rewrite Hst' in Hy. assert (Hyp : y ≠ p) by congruence.
    apply (Hiff y Hyp), Hsk in Hy as [HyP Hc]. split; [done|]. paint_cases Hp; auto.
  - by rewrite Hst'.
  - apply (sum_lt _ _ P p); [|done|].
    + intros y Hy. unfold weight. rewrite Hst', (pt_color _ _ _ _ _ Hp). case_decide as Hyp.
      * subst y. rewrite decide_False by done.
        destruct Hold as [Hold|[Hin [Hold|Hold]]]; rewrite Hold; destruct Hk as [(-> & _)|(-> & _ & ?)]; try lia; done.
      * by rewrite (decide_ext _ _ _ _ (Hiff y Hyp)).
    + unfold weight. rewrite Hst', (pt_color _ _ _ _ _ Hp), decide_True, (decide_False (P := p ∈ st)) by done.
      destruct Hold as [Hold|[Hin [Hold|Hold]]]; rewrite Hold; destruct Hk as [(-> & _)|(-> & _ & ?)]; try lia; [|done].
      rewrite decide_True by done. lia.
  - intros y Hc. paint_cases Hp. destruct Hk as [(-> & _)|(_ & _ & ?)]; done.
  - intros y Hy Hc. paint_cases Hp. congruence.
  - paint_cases Hp.
  - done.
Qed.

(** ** The pushes *)

Lemma scanned_object E s x :
  scanning E s → x ∈ P → ∃ o, v_objects s !! x = Some o ∧ is_Some (v_type o) ∧ children_of o = c x ∧
    color s x = Some (v_color o) ∧ (v_cyclic o > 0 ↔ held x).
Proof.
  intros Hs Hx. destruct (Htype x Hx) as (o0 & Ho0 & Ht).
  pose proof (sc_frame _ _ Hs) as Hf. symmetry in Hf.
  destruct (frame_lookup _ _ _ _ Hf Ho0) as (o & Ho & Hd). injection Hd as _ Hty Hsl _ Hcy _.
  exists o. split_and!; [done|by rewrite <- Hty| | |].
  - unfold children, children_of. by rewrite Ho0, Hty, Hsl.
  - unfold color. by rewrite Ho.
  - unfold held. rewrite <- Hcy. split; [by exists o0|]. by intros (o1 & ? & ?); simplify_eq.
Qed.

(** The first one of the two is used when no object is whiting. *)
Lemma scan_black_push_same s x :
  color s x ≠ Some c_color__WHITING → f_scan_black_push x s = f_scan_gray_scan_black_push x s.
Proof.
  intros Hc. unfold f_scan_black_push, f_scan_gray_scan_black_push, get, update. unfold color in Hc.
  destruct (v_objects s !! x) as [o|] eqn:Ho; [|done]. cbn in *. case_decide; [done|].
  rewrite decide_True by congruence. cbn. by rewrite Ho.
Qed.

(** No object is whiting. *)
Definition calm (s : t_engine) : Prop := ∀ x, x ∈ P → color s x ≠ Some c_color__WHITING.

Lemma scan_gray_scan_black_push_ok E s x :
  scanning E s → x ∈ P → live x →
  ∃ s', f_scan_gray_scan_black_push x s = Ok s' ∧ scanning E s' ∧ advances s s' ∧
    color s' x = Some c_color__BLACK ∧ (calm s → calm s').
Proof.
  intros Hs Hx Hlive. destruct (scanned_object E s x Hs Hx) as (o & Ho & _ & _ & Hcol & _).
  unfold f_scan_gray_scan_black_push. rewrite (get_ok _ _ _ Ho). cbn [mbind outcome_bind].
  destruct (decide (v_color o = c_color__BLACK)) as [Hb|Hb].
  - exists s. split_and!; [done|done|done|congruence|done].
  - set (st := if decide (color s x = Some c_color__WHITING) then v_scan_stack s else x :: v_scan_stack s).
    destruct (scanning_black E s (set_scan_stack st (set_objects (<[x := with_color c_color__BLACK o]> (v_objects s)) s)) x st)
      as [Hs' Ha]; [done|done|done|by apply paints_ok|congruence|done|].
    pose proof (pt_color _ _ _ _ _ (paints_ok s x o c_color__BLACK st Ho)) as Hpc.
    eexists _. split_and!; [|exact Hs'|exact Ha| |].
    + subst st. destruct (decide (v_color o = c_color__WHITING)) as [Hw|Hw].
      * rewrite decide_False, decide_True by (try intros ?; congruence). cbn [mbind outcome_bind].
        rewrite (update_ok _ _ _ _ Ho). by destruct s.
      * rewrite decide_True, decide_False by congruence. cbn [mbind outcome_bind f_push].
        by rewrite (update_ok _ x _ o).
    + by rewrite Hpc, decide_True.
    + intros Hcalm y Hy. rewrite Hpc. case_decide; [done|by apply Hcalm].
Qed.

Lemma scan_gray_push_ok E s x :
  scanning E s → x ∈ P →
  ∃ s', f_scan_gray_push x s = Ok s' ∧ scanning E s' ∧ advances s s' ∧ color s' x ≠ Some c_color__GRAY ∧
    ∀ y, color s y ≠ Some c_color__GRAY → color s' y = color s y.
Proof.
  intros Hs Hx. destruct (scanned_object E s x Hs Hx) as (o & Ho & _ & _ & Hcol & Hheld).
  unfold f_scan_gray_push. rewrite (get_ok _ _ _ Ho). cbn [mbind outcome_bind].
  destruct (decide (v_color o ≠ c_color__GRAY)) as [Hg|Hg%dec_stable].
  - exists s. split_and!; [done|done|done|congruence|done].
  - rewrite (update_ok _ _ _ _ Ho). cbn [mbind outcome_bind f_push]. rewrite Hg in Hcol.
    set (k := if decide (v_cyclic o > 0) then c_color__BLACK else c_color__WHITING).
    assert (Hp : paints x k (x :: v_scan_stack s) s
                   (set_scan_stack (x :: v_scan_stack s) (set_objects (<[x := with_color k o]> (v_objects s)) s)))
      by (by apply paints_ok).
    eexists _. split; [done|]. apply and_assoc. split; [|split].
    + subst k. destruct (decide (v_cyclic o > 0)) as [Hc|Hc].
      * eapply scanning_black; [done|done| |exact Hp|congruence|by rewrite decide_False by congruence].
        exists x. split_and!; [done|by apply Hheld|reflexivity].
      * eapply scanning_whiting; [done|done| |exact Hp|done]. by rewrite <- Hheld.
    + rewrite (pt_color _ _ _ _ _ Hp), decide_True by done. subst k. by case_decide.
    + intros y Hy. rewrite (pt_color _ _ _ _ _ Hp), decide_False by congruence. done.
Qed.

(** Stepping through [p]: its children end up [ok]. *)
Lemma scan_step_ok (ok : option t_color → Prop) (I : t_engine → Prop) push s p :
  scanning [p] s → p ∈ P → I s →
  (∀ x s1, x ∈ c p → scanning [p] s1 → I s1 → advances s s1 →
     ∃ s2, push x s1 = Ok s2 ∧ scanning [p] s2 ∧ advances s1 s2 ∧ ok (color s2 x) ∧ I s2) →
  (∀ x s1 s2, x ∈ P → advances s1 s2 → ok (color s1 x) → ok (color s2 x)) →
  ∃ s', f_step push p s = Ok s' ∧ scanning [p] s' ∧ advances s s' ∧ I s' ∧ ∀ x, x ∈ c p → ok (color s' x).
Proof.
  intros Hs Hp HI Hpush Hkeep. destruct (scanned_object _ s p Hs Hp) as (o & Ho & [t Ht] & Hch & _ & _).
  rewrite <- Hch. apply (f_step_ind push p s o t (λ l s1, scanning [p] s1 ∧ advances s s1 ∧ I s1 ∧
    ∀ x, x ∈ l → ok (color s1 x))).
  - done.
  - done.
  - split_and!; [done|done|done|]. by intros x ?%not_elem_of_nil.
  - intros l1 x l2 s1 Hl (Hs1 & Ha1 & HI1 & Hok). rewrite Hch in Hl.
    assert (Hin : ∀ y, y ∈ l1 ++ [x] → y ∈ c p).
    { intros y [Hy| ->%list_elem_of_singleton]%elem_of_app; rewrite Hl; apply elem_of_app; [by left|right; by left]. }
    assert (Hx : x ∈ c p) by (apply Hin, elem_of_app; right; by left).
    destruct (Hpush x s1 Hx Hs1 HI1 Ha1) as (s2 & Hs2 & Hsc & Ha2 & Hokk & HI2).
    exists s2. split; [done|]. split_and!; [done|by etransitivity|done|].
    intros y [Hy| ->%list_elem_of_singleton]%elem_of_app; [|done].
    eapply Hkeep; [|exact Ha2|by apply Hok]. apply (Hclosed p); [done|]. apply Hin, elem_of_app. by left.
Qed.

Lemma scanning_done s p :
  scanning [p] s →
  (color s p = Some c_color__BLACK → ∀ y, y ∈ c p → color s y = Some c_color__BLACK) →
  (color s p = Some c_color__WHITE → ∀ y, y ∈ c p → color s y ≠ Some c_color__GRAY) →
  scanning [] s.
Proof.
  intros [Hf Hpl Hco Hli Hz Hb Hw Hwt Hsk Hnd] Hbp Hwp. split; try done.
  - intros x y Hx Hc _ Hst Hy. destruct (decide (x = p)) as [-> |Hne]; [by apply Hbp|].
    apply (Hb x y Hx Hc); [|done|done]. by intros ?%list_elem_of_singleton.
  - intros x y Hx Hc _ Hy. destruct (decide (x = p)) as [-> |Hne]; [by apply Hwp|].
    apply (Hw x y Hx Hc); [|done]. by intros ?%list_elem_of_singleton.
Qed.


(** ** The rounds *)

(** The loops of [f_scan_gray]: the first one when [calm] is kept. *)
Definition scan_step (b : bool) : t_address → t_engine → outcome t_engine :=
  if b then f_step f_scan_black_push else f_scan_gray_step.

(** [p] was taken in [s], and it is stepped through in [s1]. *)
Definition taken (b : bool) (p : t_address) (s s1 : t_engine) : Prop :=
  p ∈ P ∧ scanning [p] s1 ∧ (b = true → calm s1) ∧
  (color s p = Some c_color__BLACK ∧ s1 = s ∨
   color s p ≠ Some c_color__BLACK ∧ color s1 p = Some c_color__WHITE ∧ b = false ∧
   update (with_color c_color__WHITE) p s = Ok s1).

Lemma black_step_ok b push s p :
  scanning [p] s → p ∈ P → color s p = Some c_color__BLACK → (b = true → calm s) →
  (∀ x s1, x ∈ P → (b = true → calm s1) → push x s1 = f_scan_gray_scan_black_push x s1) →
  ∃ s', f_step push p s = Ok s' ∧ scanning [] s' ∧ advances s s' ∧ (b = true → calm s').
Proof.
  intros Hs Hp Hb Hcalm Hpush.
  destruct (scan_step_ok (λ k, k = Some c_color__BLACK) (λ s, b = true → calm s) push s p)
    as (s' & Hs' & Hsc & Ha & HI & Hok); try done.
  - intros x s1 Hx Hs1 HI _. assert (HxP : x ∈ P) by (by apply (Hclosed p)).
    rewrite Hpush by done. destruct (scan_gray_scan_black_push_ok [p] s1 x Hs1 HxP) as (s2 & Hs2 & Hsc & Ha & Hbx & Hc).
    + destruct (sc_live _ _ Hs p Hp Hb) as (z & Hz & Hh & Hr). exists z. split_and!; [done|done|]. by eapply reach_step.
    + exists s2. split_and!; auto.
  - intros x s1 s2 _ Ha. by apply ad_black.
  - exists s'. split_and!; try done. apply (scanning_done s' p); [done|auto|].
    intros Hw. pose proof (ad_black _ _ Ha p Hb). congruence.
Qed.

Lemma white_step_ok s p :
  scanning [p] s → p ∈ P → color s p = Some c_color__WHITE →
  ∃ s', f_step f_scan_gray_push p s = Ok s' ∧ scanning [] s' ∧ advances s s'.
Proof.
  intros Hs Hp Hw.
  destruct (scan_step_ok (λ k, k ≠ Some c_color__GRAY) (λ s, color s p = Some c_color__WHITE) f_scan_gray_push s p)
    as (s' & Hs' & Hsc & Ha & HI & Hok); try done.
  - intros x s1 Hx Hs1 HI _. assert (HxP : x ∈ P) by (by apply (Hclosed p)).
    destruct (scan_gray_push_ok [p] s1 x Hs1 HxP) as (s2 & Hs2 & Hsc & Ha & Hg & Hsame).
    exists s2. split_and!; try done. rewrite Hsame; [done|congruence].
  - intros x s1 s2 Hx Ha. by apply ad_gray.
  - exists s'. split_and!; try done. apply (scanning_done s' p); [done| |auto]. congruence.
Qed.

Lemma scan_round_ok b p s s1 :
  taken b p s s1 → ∃ s', scan_step b p s = Ok s' ∧ scanning [] s' ∧ advances s1 s' ∧ (b = true → calm s').
Proof.
  intros (Hp & Hs1 & Hcalm & Hk). destruct (scanned_object _ s1 p Hs1 Hp) as (o1 & Ho1 & _).
  destruct Hk as [[Hb ->]|(Hb & Hw & -> & Hu)].
  - destruct b; cbn [scan_step].
    + apply (black_step_ok true); try done. intros x s1 Hx Hc. apply scan_black_push_same. by apply Hc.
    + unfold f_scan_gray_step. rewrite (get_ok _ _ _ Ho1). unfold color in Hb. rewrite Ho1 in Hb. cbn in Hb.
      apply (inj Some) in Hb. cbn [mbind outcome_bind]. rewrite decide_True by done.
      apply (black_step_ok false); try done. unfold color. rewrite Ho1. cbn. by f_equal.
  - cbn [scan_step]. unfold f_scan_gray_step.
    destruct (v_objects s !! p) as [o|] eqn:Ho; [|by unfold update in Hu; rewrite Ho in Hu].
    rewrite (get_ok _ _ _ Ho). cbn [mbind outcome_bind]. unfold color in Hb. rewrite Ho in Hb. cbn in Hb.
    rewrite decide_False by congruence. rewrite Hu. cbn [mbind outcome_bind].
    destruct (white_step_ok s1 p Hs1 Hp Hw) as (s' & Hs' & Hsc & Ha). exists s'. split_and!; done.
Qed.

(** The next object from the stack. *)
Lemma scan_next b s p st :
  scanning [] s → (b = true → calm s) → v_scan_stack s = p :: st →
  ∃ s1, taken b p (set_scan_stack st s) s1 ∧ v_scan_stack s1 = st ∧ (potential s1 < potential s)%nat ∧
    (∀ x, color s x = Some c_color__BLACK → color s1 x = Some c_color__BLACK) ∧
    (∀ x, x ∈ P → color s x ≠ Some c_color__GRAY → color s1 x ≠ Some c_color__GRAY).
Proof.
  intros Hs Hcalm Hst. destruct (sc_stack _ _ Hs p) as [Hp Hcol]; [rewrite Hst; by left|].
  destruct (scanned_object _ s p Hs Hp) as (o & Ho & _ & _ & Hco & _). destruct Hcol as [Hb|Hw].
  - assert (Hpt : paints p c_color__BLACK st s (set_scan_stack st s)).
    { split; [done|intros y|done]. case_decide as E; [subst; done|done]. }
    destruct (scanning_take s _ p _ st Hs Hp Hpt) as (Hs1 & Hpo & Hbl & Hgr & _ & _).
    + by left.
    + left. split_and!; [done|by apply (sc_live _ _ Hs)|congruence].
    + exists (set_scan_stack st s). split; [|split_and!; done]. split_and!; [done|done|done|by left].
  - pose proof (paints_ok s p o c_color__WHITE st Ho) as Hpt.
    destruct (scanning_take s _ p _ st Hs Hp Hpt) as (Hs1 & Hpo & Hbl & Hgr & Hcp & _).
    + by left.
    + right. split_and!; [done|apply (sc_zero _ _ Hs p Hp); by left|congruence].
    + eexists (set_scan_stack st (set_objects (<[p := with_color c_color__WHITE o]> (v_objects s)) s)).
      split; [|split_and!; done]. destruct b.
      * by destruct (Hcalm eq_refl p Hp).
      * split_and!; [done|done|done|]. right. split_and!; [change (color s p ≠ Some c_color__BLACK); congruence|done|done|].
        by rewrite (update_ok _ _ _ o).
Qed.

Lemma scan_loop_ok b p s s1 fuel :
  taken b p s s1 → (S (potential s1) <= fuel)%nat →
  ∃ s', f_loop fuel (scan_step b) p s = Ok s' ∧ scanning [] s' ∧ v_scan_stack s' = [] ∧
    (∀ x, color s1 x = Some c_color__BLACK → color s' x = Some c_color__BLACK) ∧
    (∀ x, x ∈ P → color s1 x ≠ Some c_color__GRAY → color s' x ≠ Some c_color__GRAY).
Proof.
  intros Ht Hfuel.
  eapply (f_loop_ind (scan_step b) (λ n q t, ∃ t1, taken b q t t1 ∧ (n + potential t1 <= potential s1)%nat ∧
    (∀ x, color s1 x = Some c_color__BLACK → color t1 x = Some c_color__BLACK) ∧
    (∀ x, x ∈ P → color s1 x ≠ Some c_color__GRAY → color t1 x ≠ Some c_color__GRAY))
   (λ s', scanning [] s' ∧ v_scan_stack s' = [] ∧
    (∀ x, color s1 x = Some c_color__BLACK → color s' x = Some c_color__BLACK) ∧
    (∀ x, x ∈ P → color s1 x ≠ Some c_color__GRAY → color s' x ≠ Some c_color__GRAY)));
    [|intros n q t (t1 & _ & Hn & _)|exact Hfuel|].
  - intros n q t (t1 & Ht1 & Hn & Hb & Hg).
    destruct (scan_round_ok b q t t1 Ht1) as (t' & Ht' & Hsc & Ha & Hcalm). exists t'. split; [done|].
    pose proof (potential_le _ _ Ha) as Hle. destruct (v_scan_stack t') as [|q' st] eqn:Est.
    + split_and!; [done|done| |].
      * intros x Hx. apply (ad_black _ _ Ha), Hb, Hx.
      * intros x HxP Hx. apply (ad_gray _ _ Ha x HxP), Hg, Hx. done.
    + destruct (scan_next b t' q' st Hsc Hcalm Est) as (t2 & Ht2 & _ & Hlt & Hb2 & Hg2).
      exists t2. split; [done|]. split_and!; [lia| |].
      * intros x Hx. apply Hb2, (ad_black _ _ Ha), Hb, Hx.
      * intros x HxP Hx. apply (Hg2 x HxP), (ad_gray _ _ Ha x HxP), Hg, Hx. done.
  - lia.
  - exists s1. split; [done|]. split_and!; [lia|done|done].
Qed.

Lemma size_enough E s : scanning E s → (2 * length P <= 2 * size (v_objects s))%nat.
Proof.
  intros Hs. rewrite (same_heap_size _ _ (frame_same_heap _ _ (sc_frame _ _ Hs))).
  pose proof (nodup_length (v_objects s0) P Hnodup) as Hl. apply Nat.mul_le_mono_l, Hl.
  intros x Hx. destruct (Htype x Hx) as (o & -> & _). by eexists.
Qed.

Lemma scan_gray_ok s p :
  scanning [] s → v_scan_stack s = [] → p ∈ P →
  ∃ s', f_scan_gray p s = Ok s' ∧ scanning [] s' ∧ v_scan_stack s' = [] ∧ color s' p ≠ Some c_color__GRAY ∧
    ∀ x, x ∈ P → color s x ≠ Some c_color__GRAY → color s' x ≠ Some c_color__GRAY.
Proof.
  intros Hs Hst Hp. destruct (scanned_object _ s p Hs Hp) as (o & Ho & _ & _ & Hco & Hheld).
  unfold f_scan_gray. rewrite (get_ok _ _ _ Ho). cbn [mbind outcome_bind].
  destruct (decide (v_color o ≠ c_color__GRAY)) as [Hg|Hg%dec_stable].
  { exists s. split_and!; [done|done|done|congruence|done]. }
  rewrite Hg in Hco. pose proof (potential_bound s) as Hpb.
  assert (Htaken : ∀ b k s1 s2, s1 = set_objects (<[p := with_color k o]> (v_objects s)) s →
    k = c_color__BLACK ∧ held p ∧ b = true ∧ s2 = s1 ∨ k = c_color__WHITE ∧ ¬ held p ∧ b = false ∧ s2 = s →
    ∃ s', f_loop (rounds s2) (scan_step b) p s2 = Ok s' ∧ scanning [] s' ∧ v_scan_stack s' = [] ∧
      color s' p ≠ Some c_color__GRAY ∧
      ∀ x, x ∈ P → color s x ≠ Some c_color__GRAY → color s' x ≠ Some c_color__GRAY).
  { intros b k s1 s2 -> Hk.
    assert (Hpt : paints p k [] s (set_objects (<[p := with_color k o]> (v_objects s)) s)).
    { pose proof (paints_ok s p o k [] Ho) as [Hf Hc _]. split; [exact Hf|exact Hc|exact Hst]. }
    destruct (scanning_take s _ p k [] Hs Hp Hpt) as (Hs1 & Hpo & Hbl & Hgr & Hcp & _).
    - right. split; done.
    - destruct Hk as [(-> & Hh & _)|(-> & Hh & _)]; [left|right]; split_and!; try done; try congruence.
      exists p. split_and!; done.
    - assert (Hnw : calm s).
      { intros x Hx Hw. pose proof (sc_whiting _ _ Hs x Hx Hw) as Hin. rewrite Hst in Hin. by apply not_elem_of_nil in Hin. }
      assert (Hsize : (S (2 * length P) <= rounds s2)%nat).
      { pose proof (size_enough _ _ Hs). pose proof (size_enough _ _ Hs1). unfold rounds.
        destruct Hk as [(_ & _ & _ & ->)|(_ & _ & _ & ->)]; lia. }
      destruct (scan_loop_ok b p s2 (set_objects (<[p := with_color k o]> (v_objects s)) s) (rounds s2))
        as (s' & Hs' & Hsc & Hst' & Hb' & Hg').
      + split_and!; [done|done| |].
        * intros Hb x Hx. rewrite (pt_color _ _ _ _ _ Hpt). destruct (decide (x = p)); [|by apply Hnw].
          destruct Hk as [(-> & _)|(_ & _ & ? & _)]; congruence.
        * destruct Hk as [(-> & _ & -> & ->)|(-> & _ & -> & ->)]; [by left|right].
          split_and!; [congruence|done|done|by apply update_ok].
      + lia.
      + exists s'. split_and!; [done|done|done| |].
        * apply (Hg' p Hp). rewrite Hcp. destruct Hk as [(-> & _)|(-> & _)]; done.
        * intros x Hx Hc. by apply Hg', Hgr. }
  destruct (decide (v_cyclic o > 0)) as [Hc|Hc].
  - rewrite (update_ok _ _ _ _ Ho). cbn [mbind outcome_bind].
    eapply (Htaken true c_color__BLACK); [done|left]. split_and!; [done|by apply Hheld|done|done].
  - eapply (Htaken false c_color__WHITE); [done|right]. split_and!; [done|by rewrite <- Hheld|done|done].
Qed.

(** When all roots were scanned, what they reach is black or white. *)
Lemma scan_roots_ok R :
  (∀ r, r ∈ R → r ∈ P) → (∀ x, x ∈ P → ∃ r, r ∈ R ∧ reach c r x) →
  scanning [] s0 → v_scan_stack s0 = [] →
  ∃ s', each f_scan_gray R s0 = Ok s' ∧ scanning [] s' ∧ v_scan_stack s' = [] ∧
    ∀ x, x ∈ P → (color s' x = Some c_color__BLACK ∧ live x) ∨ (color s' x = Some c_color__WHITE ∧ ¬ live x).
Proof.
  intros HR Hreach Hs Hst.
  destruct (fold_calls_ind (λ s p, f_scan_gray p s) (λ l s, scanning [] s ∧ v_scan_stack s = [] ∧
    ∀ r, r ∈ l → color s r ≠ Some c_color__GRAY) R s0) as (s' & Hs' & Hsc & Hst' & Hg).
  - split_and!; [done|done|]. by intros r ?%not_elem_of_nil.
  - intros l1 x l2 s Hl (Hs1 & Hst1 & Hg1).
    assert (Hin : ∀ y, y ∈ l1 ++ [x] → y ∈ P).
    { intros y [Hy| ->%list_elem_of_singleton]%elem_of_app; apply HR; rewrite Hl; apply elem_of_app; [by left|right; by left]. }
    destruct (scan_gray_ok s x Hs1 Hst1) as (s2 & Hs2 & Hsc2 & Hst2 & Hx & Hmono); [apply Hin, elem_of_app; right; by left|].
    exists s2. split; [done|]. split_and!; [done|done|].
    intros r [Hr| ->%list_elem_of_singleton]%elem_of_app; [|done].
    apply Hmono; [|by apply Hg1]. apply Hin, elem_of_app. by left.
  - exists s'. split_and!; [done|done|done|].
    assert (Hno : ∀ x, x ∈ P → color s' x ≠ Some c_color__WHITING).
    { intros x Hx Hw. pose proof (sc_whiting _ _ Hsc x Hx Hw) as Hin. rewrite Hst' in Hin. by apply not_elem_of_nil in Hin. }
    assert (Hng : ∀ x, x ∈ P → color s' x ≠ Some c_color__GRAY).
    { intros x Hx. destruct (Hreach x Hx) as (r & Hr & Hrx).
      cut (x ∈ P ∧ color s' x ≠ Some c_color__GRAY); [by intros [_ ?]|].
      eapply (reach_closed c (λ x, x ∈ P ∧ color s' x ≠ Some c_color__GRAY)); [|split; [by apply HR|by apply Hg]|exact Hrx].
      intros y z [Hy Hcy] Hz. split; [by apply (Hclosed y)|].
      destruct (sc_color _ _ Hsc y Hy) as [E|[E|[E|E]]]; [done| |by destruct (Hno y Hy)|].
      - rewrite (sc_black _ _ Hsc y z Hy E); [done|apply not_elem_of_nil|rewrite Hst'; apply not_elem_of_nil|done].
      - apply (sc_white _ _ Hsc y z Hy E); [apply not_elem_of_nil|done]. }
    assert (Hlive : ∀ x, live x → x ∈ P ∧ color s' x = Some c_color__BLACK).
    { intros x (z & Hz & Hh & Hr).
      eapply (reach_closed c (λ x, x ∈ P ∧ color s' x = Some c_color__BLACK)); [| |exact Hr].
      - intros y w [Hy Hcy] Hw. split; [by apply (Hclosed y)|].
        apply (sc_black _ _ Hsc y w Hy Hcy); [apply not_elem_of_nil|rewrite Hst'; apply not_elem_of_nil|done].
      - split; [done|]. destruct (sc_color _ _ Hsc z Hz) as [E|[E|[E|E]]]; [by destruct (Hng z Hz)|done|..];
          destruct (sc_zero _ _ Hsc z Hz); auto. }
    intros x Hx. destruct (sc_color _ _ Hsc x Hx) as [E|[E|[E|E]]]; [by destruct (Hng x Hx)| |by destruct (Hno x Hx)|].
    + left. split; [done|by apply (sc_live _ _ Hsc)].
    + right. split; [done|]. intros Hl. destruct (Hlive x Hl). congruence.
Qed.
End Scan.
