(* ===== verification/CollectorCycles.v ===== *)
(** * Collecting the cycles

    [f_collect_white] takes the white objects that a root reaches into a cycle,
    and [f_scan_red] leaves to their [v_cyclic] what refers to them from
    outside of the cycle. *)
From stdpp Require Import base list numbers strings gmap.
From S2P Require Import Prelude Machine Collector CollectorGraph CollectorMark CollectorScan.
Local Open Scope Z_scope.

Section Collect.
(** The state in which the white root [p] is found. *)
Context (s0 : t_engine) (p : t_address).
Abbreviation h := (v_objects s0).
Abbreviation c := (children h).
Hypothesis Hobject : ∀ x, reach c p x → ∃ o, h !! x = Some o ∧ is_Some (v_type o) ∧
  Z.of_nat (refs c (addresses h) x) <= v_count o < SIZE_MODULUS.
Hypothesis Hwhite : color s0 p = Some c_color__WHITE.
Hypothesis Hlink : ∀ x o, reach c p x → x ≠ p → h !! x = Some o → v_color o = c_color__WHITE → v_link o = Unlinked.
Hypothesis Hred : ∀ x, reach c p x → color s0 x ≠ Some c_color__RED.
Hypothesis Hstack : v_scan_stack s0 = [].

(** The objects of [s] are those of [s0] changed by [F]. *)
Definition changed (F : t_address → t_object → t_object) (s : t_engine) : Prop :=
  ∀ x, v_objects s !! x = F x <$> h !! x.

Lemma changed_ext F F' s : (∀ x o, h !! x = Some o → F x o = F' x o) → changed F s → changed F' s.
Proof. intros HF Hs x. rewrite Hs. destruct (h !! x) as [o|] eqn:Ho; [|done]. cbn. by rewrite (HF x o). Qed.

Lemma changed_update F F' g s x o :
  changed F s → h !! x = Some o → F' x o = g (F x o) → (∀ y o, y ≠ x → F' y o = F y o) →
  ∃ s', update g x s = Ok s' ∧ changed F' s' ∧ v_scan_stack s' = v_scan_stack s ∧ rest_of s' = rest_of s.
Proof.
  intros Hs Ho Hx Hy. assert (Hos : v_objects s !! x = Some (F x o)) by (by rewrite Hs, Ho).
  rewrite (update_ok _ _ _ _ Hos). eexists. split_and!; [done| |done|done].
  intros y. cbn [v_objects set_objects]. destruct (decide (y = x)) as [-> |Hne].
  - by rewrite lookup_insert_eq, Ho, <- Hx.
  - rewrite lookup_insert_ne, Hs by done. destruct (h !! y); [|done]. cbn. by rewrite Hy.
Qed.

Definition if_in (C : list t_address) (g : t_address → t_object → t_object) (x : t_address) (o : t_object) : t_object :=
  if decide (x ∈ C) then g x o else o.

Lemma if_in_skeleton C g x o : (∀ o, skeleton (g x o) = skeleton o) → skeleton (if_in C g x o) = skeleton o.
Proof. intros Hg. unfold if_in. by case_decide. Qed.

(** ** The white objects *)

(** [V] were stepped through; [C] is the cycle. *)
Record collecting (V C pending : list t_address) (s : t_engine) : Prop := {
  co_changed : changed (if_in C (λ _, red)) s;
  co_cycle : v_cycle s = C;
  co_head : ∃ C', C = p :: C';
  co_perm : C ≡ₚ pending ++ v_scan_stack s ++ V;
  co_nodup : NoDup C;
  co_white x : x ∈ C → color s0 x = Some c_color__WHITE ∧ reach c p x;
  co_rest : (v_roots s, v_cycles s, v_object__release s, v_object__collect s)
          = (v_roots s0, v_cycles s0, v_object__release s0, v_object__collect s0)
}.

Lemma collect_push_ok V C pending s x y :
  collecting V C pending s → x ∈ C → y ∈ c x →
  ∃ s' C', f_collect_white_push y s = Ok s' ∧ collecting V C' pending s' ∧
    (∀ z, z ∈ C → z ∈ C') ∧ (color s0 y = Some c_color__WHITE → y ∈ C').
Proof.
  intros Hs Hx Hy. destruct Hs as [Hch Hcy [C0 HC0] Hperm Hnd Hw Hrest].
  assert (Hreach : reach c p y) by (eapply reach_step; [by apply Hw|done]).
  destruct (Hobject y Hreach) as (o & Ho & _ & _).
  assert (Hos : v_objects s !! y = Some (if_in C (λ _, red) y o)) by (by rewrite Hch, Ho).
  unfold f_collect_white_push. rewrite (get_ok _ _ _ Hos). cbn [mbind outcome_bind].
  unfold if_in. destruct (decide (y ∈ C)) as [Hin|Hin].
  { exists s, C. cbn. split_and!; try done. by split; eauto. }
  destruct (decide (v_color o ≠ c_color__WHITE)) as [Hc|Hc%dec_stable].
  { exists s, C. split_and!; [done| |done|]; [by split; eauto|]. unfold color. rewrite Ho. cbn. congruence. }
  assert (Hyp : y ≠ p) by (intros ->; apply Hin; rewrite HC0; by left).
  rewrite decide_True by (by apply (Hlink y o)).
  destruct (changed_update _ (if_in (p :: y :: C0) (λ _, red)) red s y o Hch Ho) as (s1 & -> & Hch1 & Hst1 & Hrest1).
  { unfold if_in. rewrite decide_True, (decide_False (P := y ∈ C)); [done|done|by right; left]. }
  { intros z oz Hz. unfold if_in. rewrite HC0. apply decide_ext. rewrite !elem_of_cons. tauto. }
  injection Hrest1 as Hr1 Hcy1 Hcs1 Hre1 Hco1.
  cbn [mbind outcome_bind]. rewrite Hcy1, Hcy, HC0. eexists _, (p :: y :: C0). split; [done|]. split_and!.
  - split; cbn [v_cycle v_scan_stack v_roots v_cycles v_object__release v_object__collect set_scan_stack set_cycle].
    + exact Hch1.
    + done.
    + by exists (y :: C0).
    + rewrite Hst1. rewrite HC0 in Hperm. rewrite (Permutation_swap y p C0). rewrite Hperm. cbn.
      by rewrite Permutation_middle.
    + rewrite HC0 in Hnd, Hin. apply not_elem_of_cons in Hin as [_ Hin]. apply NoDup_cons in Hnd as [Hp Hnd].
      apply NoDup_cons. split; [apply not_elem_of_cons; split; congruence|]. by apply NoDup_cons.
    + intros z Hz. assert (Hz' : z = y ∨ z ∈ C) by (rewrite HC0; rewrite !elem_of_cons in *; tauto).
      destruct Hz' as [-> |Hz']; [|by apply Hw]. split; [|done]. unfold color. rewrite Ho. cbn. by f_equal.
    + congruence.
  - intros z. rewrite !elem_of_cons. tauto.
  - intros _. right. by left.
Qed.

Lemma collect_step_ok V C q s :
  collecting V C [q] s → ∃ s' C', f_step f_collect_white_push q s = Ok s' ∧ collecting (q :: V) C' [] s' ∧
    (∀ z, z ∈ C → z ∈ C') ∧ ∀ y, y ∈ c q → color s0 y = Some c_color__WHITE → y ∈ C'.
Proof.
  intros Hs. assert (Hq : q ∈ C) by (rewrite (co_perm _ _ _ _ Hs); by left).
  destruct (Hobject q) as (o & Ho & [t Ht] & _); [by apply (co_white _ _ _ _ Hs)|].
  assert (Hsk : ∀ x o, skeleton (if_in C (λ _, red) x o) = skeleton o) by (intros; by apply if_in_skeleton).
  specialize (Hsk q o). injection Hsk as _ Hty Hsl _.
  destruct (f_step_ind f_collect_white_push q s (if_in C (λ _, red) q o) t
    (λ l s1, ∃ C1, collecting V C1 [q] s1 ∧ (∀ z, z ∈ C → z ∈ C1) ∧
       ∀ y, y ∈ l → color s0 y = Some c_color__WHITE → y ∈ C1)) as (s' & Hs' & C' & HC' & Hsub & Hall).
  - by rewrite (co_changed _ _ _ _ Hs), Ho.
  - congruence.
  - exists C. split_and!; [done|done|]. by intros y ?%not_elem_of_nil.
  - intros l1 y l2 s1 Hl (C1 & HC1 & Hsub1 & Hall1).
    assert (Hy : y ∈ c q).
    { unfold children. rewrite Ho. unfold children_of in *. rewrite Hty, Hsl in Hl. rewrite Hl.
      apply elem_of_app. right. by left. }
    destruct (collect_push_ok V C1 [q] s1 q y HC1) as (s2 & C2 & Hs2 & HC2 & Hsub2 & Hy2); [by apply Hsub1|done|].
    exists s2. split; [done|]. exists C2. split_and!; [done|auto|].
    intros z [Hz| ->%list_elem_of_singleton]%elem_of_app Hcz; auto.
  - exists s', C'. split; [done|]. split_and!; [|done|].
    + destruct HC' as [? ? ? Hperm ? ? ?]. split; try done. rewrite Hperm. cbn. apply Permutation_middle.
    + intros y Hy. apply Hall. unfold children in Hy. rewrite Ho in Hy. unfold children_of in *. by rewrite Hty, Hsl.
Qed.

Definition whites_closed (V C : list t_address) : Prop :=
  ∀ x y, x ∈ V → y ∈ c x → color s0 y = Some c_color__WHITE → y ∈ C.

Lemma collect_white_ok :
  ∃ s' C, f_collect_white p s0 = Ok s' ∧ collecting C C [] s' ∧ v_scan_stack s' = [] ∧ whites_closed C C.
Proof.
  destruct (Hobject p) as (o & Ho & _); [reflexivity|]. unfold f_collect_white.
  destruct (changed_update (λ _ o, o) (if_in [p] (λ _, red)) red s0 p o) as (s1 & -> & Hch1 & Hst1 & Hrest1).
  { intros x. by destruct (h !! x). }
  { done. }
  { unfold if_in. by rewrite decide_True by (by left). }
  { intros y oy Hy. unfold if_in. by rewrite decide_False by (by intros ?%list_elem_of_singleton). }
  cbn [mbind outcome_bind]. injection Hrest1 as Hr1 Hcy1 Hcs1 Hre1 Hco1.
  assert (Hlen : ∀ V C pending s, collecting V C pending s → (length C <= size h)%nat).
  { intros V C pending s Hs. apply nodup_length; [by apply (co_nodup _ _ _ _ Hs)|].
    intros x Hx. destruct (Hobject x) as (ox & -> & _); [by apply (co_white _ _ _ _ Hs)|by eexists]. }
  assert (Hsize : size (v_objects s1) = size h).
  { apply same_heap_size. apply map_eq. intros x. rewrite !lookup_fmap, Hch1.
    destruct (h !! x) as [ox|]; [|done]. cbn. by rewrite if_in_skeleton. }
  destruct (f_loop_ind (f_step f_collect_white_push)
    (λ n q s, ∃ V C, collecting V C [q] s ∧ whites_closed V C ∧ (n <= length V)%nat)
    (λ s, ∃ C, collecting C C [] s ∧ v_scan_stack s = [] ∧ whites_closed C C))
    with (bound := S (2 * size h)) (fuel := rounds s1) (p := p) (s := set_cycle [p] s1) as (s' & Hs' & C & HC).
  - intros n q s (V & C & HVC & Hcl & Hn).
    destruct (collect_step_ok V C q s HVC) as (s' & C' & Hs' & HC' & Hsub & Hq). exists s'. split; [done|].
    assert (Hcl' : whites_closed (q :: V) C').
    { intros x y [-> |Hx]%elem_of_cons Hy Hcy; [by apply Hq|by eapply Hsub, Hcl]. }
    destruct (v_scan_stack s') as [|q' st] eqn:Hst.
    + destruct HC' as [Ha Hb Hc Hperm Hd He Hf]. rewrite Hst in Hperm. cbn in Hperm.
      exists C'. split_and!; [|done|].
      * split; try done. by rewrite Hst.
      * intros x y. rewrite Hperm at 1. apply Hcl'.
    + exists (q :: V), C'. split_and!; [|done|cbn; lia].
      destruct HC' as [Ha Hb Hc Hperm Hd He Hf]. rewrite Hst in Hperm. split; done.
  - intros n q s (V & C & HVC & _ & Hn). pose proof (Hlen _ _ _ _ HVC) as Hl.
    rewrite (Permutation_length (co_perm _ _ _ _ HVC)) in Hl. cbn in Hl. rewrite length_app in Hl. lia.
  - unfold rounds. lia.
  - exists [], [p]. split_and!; [|by intros x y ?%not_elem_of_nil|cbn; lia]. split; cbn; try done.
    + by exists [].
    + by rewrite Hst1, Hstack.
    + apply NoDup_singleton.
    + intros x ->%list_elem_of_singleton. split; [done|reflexivity].
    + congruence.
  - exists s', C. by split.
Qed.

(** ** The references from outside of the cycle *)

Definition reddened (n : t_address → nat) (x : t_address) (o : t_object) : t_object :=
  with_cyclic (v_count o - Z.of_nat (n x)) (red o).

Lemma reddened_take n n' y o :
  (n y < refs c (addresses h) y)%nat → n' y = S (n y) → reach c p y → h !! y = Some o →
  let r := reddened n y o in
  v_cyclic r > 0 ∧ with_cyclic (v_cyclic r - 1) r = reddened n' y o.
Proof.
  intros Hlt Hn Hr Ho. destruct (Hobject y Hr) as (o' & Ho' & _ & Hc). simplify_eq. cbn.
  rewrite to_size_id by lia. split; [lia|]. unfold reddened, with_cyclic. cbn. do 2 f_equal. lia.
Qed.

Section Cycle.
(** The cycle. *)
Context (C : list t_address).
Hypothesis Hnodup : NoDup C.
Hypothesis Hreach : ∀ x, x ∈ C → reach c p x.

Lemma in_heap x : x ∈ C → ∃ o, h !! x = Some o ∧ is_Some (v_type o) ∧ children_of o = c x.
Proof.
  intros Hx. destruct (Hobject x (Hreach x Hx)) as (o & Ho & Ht & _). exists o. split_and!; [done|done|].
  unfold children. by rewrite Ho.
Qed.

Lemma scan_red_push_ok n n' s y :
  changed (if_in C (reddened n)) s → reach c p y → (n y < refs c (addresses h) y)%nat →
  n' y = S (n y) → (∀ z, z ≠ y → n' z = n z) →
  ∃ s', f_scan_red y s = Ok s' ∧ changed (if_in C (reddened n')) s' ∧ v_scan_stack s' = v_scan_stack s ∧
    rest_of s' = rest_of s.
Proof.
  intros Hs Hr Hlt Hny Hnz. destruct (Hobject y Hr) as (o & Ho & _).
  assert (Hos : v_objects s !! y = Some (if_in C (reddened n) y o)) by (by rewrite Hs, Ho).
  unfold f_scan_red. rewrite (get_ok _ _ _ Hos). cbn [mbind outcome_bind].
  destruct (reddened_take n n' y o Hlt Hny Hr Ho) as [Hpos Htake].
  unfold if_in. destruct (decide (y ∈ C)) as [Hy|Hy].
  - rewrite decide_True by done.
    apply (changed_update (if_in C (reddened n)) _ _ s y o Hs Ho).
    + unfold if_in. by rewrite !decide_True by done.
    + intros z oz Hz. unfold if_in, reddened. by rewrite Hnz.
  - rewrite decide_False.
    + exists s. split_and!; [done| |done|done]. eapply changed_ext; [|exact Hs].
      intros z oz _. unfold if_in. case_decide; [|done]. unfold reddened. rewrite Hnz by congruence. done.
    + intros [Hc _]. apply (Hred y Hr). unfold color. rewrite Ho. cbn. by f_equal.
Qed.

Lemma scan_red_ok s :
  changed (if_in C (λ _, red)) s →
  ∃ s', each (f_step f_scan_red) C s = Ok s' ∧ changed (if_in C (reddened (refs c C))) s' ∧
    v_scan_stack s' = v_scan_stack s ∧ rest_of s' = rest_of s.
Proof.
  intros Hs. apply (fold_calls_ind _ (λ L s', changed (if_in C (reddened (refs c L))) s' ∧
    v_scan_stack s' = v_scan_stack s ∧ rest_of s' = rest_of s)).
  - split_and!; [|done|done]. eapply changed_ext; [|exact Hs]. intros x o _. unfold if_in, reddened. cbn.
    by rewrite Z.sub_0_r.
  - intros L q L2 s1 HL (Hs1 & Hst1 & Hr1).
    assert (Hq : q ∈ C) by (rewrite HL; apply elem_of_app; right; by left).
    destruct (in_heap q Hq) as (o & Ho & [t Ht] & Hch).
    assert (Hsk : skeleton (if_in C (reddened (refs c L)) q o) = skeleton o) by (by apply if_in_skeleton).
    injection Hsk as _ Hty Hsl _.
    assert (Hch' : children_of (if_in C (reddened (refs c L)) q o) = c q) by (unfold children_of in *; by rewrite Hty, Hsl).
    destruct (f_step_ind f_scan_red q s1 (if_in C (reddened (refs c L)) q o) t (λ l s', 
        changed (if_in C (reddened (λ y, (refs c L y + occ y l)%nat))) s' ∧
        v_scan_stack s' = v_scan_stack s ∧ rest_of s' = rest_of s)) as (s' & Hs' & Hch2 & Hst2 & Hr2).
    + by rewrite Hs1, Ho.
    + congruence.
    + split_and!; [|done|done]. eapply changed_ext; [|exact Hs1]. intros x ox _. unfold if_in, reddened. cbn.
      by rewrite Nat.add_0_r.
    + intros l1 y l2 s2 Hl (Hs2 & Hst2 & Hr2). rewrite Hch' in Hl.
      assert (Hy : y ∈ c q) by (rewrite Hl; apply elem_of_app; right; by left).
      destruct (scan_red_push_ok (λ z, (refs c L z + occ z l1)%nat) (λ z, (refs c L z + occ z (l1 ++ [y]))%nat) s2 y Hs2)
        as (s3 & Hs3 & Hch3 & Hst3 & Hr3).
      * eapply reach_step; [by apply Hreach|done].
      * assert (Hle : (refs c (L ++ [q]) y <= refs c (addresses h) y)%nat).
        { apply refs_le; [|apply addresses_nodup|].
          - rewrite HL in Hnodup. change (q :: L2) with ([q] ++ L2) in Hnodup. rewrite app_assoc in Hnodup.
            by apply NoDup_app in Hnodup as [? _].
          - intros z Hz. apply addresses_in. destruct (in_heap z) as (oz & -> & _); [|by eexists].
            rewrite HL. apply elem_of_app in Hz as [Hz| ->%list_elem_of_singleton]; apply elem_of_app; [by left|right; by left]. }
        rewrite refs_app in Hle. cbn [refs] in Hle. rewrite Hl, occ_app in Hle. cbn [occ] in Hle.
        rewrite decide_True in Hle by done. lia.
      * rewrite occ_app. cbn [occ]. rewrite decide_True by done. lia.
      * intros z Hz. rewrite occ_app. cbn [occ]. rewrite decide_False by congruence. lia.
      * exists s3. split_and!; [done|done|congruence|congruence].
    + exists s'. split_and!; [done| |done|done]. rewrite Hch' in Hch2. eapply changed_ext; [|exact Hch2].
      intros x ox _. unfold if_in, reddened. rewrite refs_app. cbn [refs]. by rewrite Nat.add_0_r.
Qed.

(** An object of a cycle that was found. *)
Definition oranged (x : t_address) (o : t_object) : t_object :=
  with_color c_color__ORANGE (reddened (refs c C) x o).

Lemma orange_ok s :
  changed (if_in C (reddened (refs c C))) s →
  ∃ s', each (update (with_color c_color__ORANGE)) C s = Ok s' ∧ changed (if_in C oranged) s' ∧
    v_scan_stack s' = v_scan_stack s ∧ rest_of s' = rest_of s.
Proof.
  intros Hs.
  destruct (fold_calls_ind (λ s q, update (with_color c_color__ORANGE) q s)
    (λ L s', changed (if_in C (λ x o, if_in L (λ _, with_color c_color__ORANGE) x (reddened (refs c C) x o))) s' ∧
      v_scan_stack s' = v_scan_stack s ∧ rest_of s' = rest_of s) C s) as (s' & Hs' & Hch & Hst & Hr).
  - split_and!; [|done|done]. exact Hs.
  - intros L q L2 s1 HL (Hs1 & Hst1 & Hr1).
    assert (Hq : q ∈ C) by (rewrite HL; apply elem_of_app; right; by left).
    assert (HqL : q ∉ L).
    { rewrite HL in Hnodup. apply NoDup_app in Hnodup as (_ & Hd & _). intros Hin. apply (Hd q Hin). by left. }
    destruct (in_heap q Hq) as (o & Ho & _).
    destruct (changed_update _ (if_in C (λ x o, if_in (L ++ [q]) (λ _, with_color c_color__ORANGE) x (reddened (refs c C) x o)))
      (with_color c_color__ORANGE) s1 q o Hs1 Ho) as (s2 & Hs2 & Hch2 & Hst2 & Hr2).
    + unfold if_in. rewrite !(decide_True (P := q ∈ C)) by done. rewrite decide_True, decide_False; [done|done|].
      apply elem_of_app. right. by left.
    + intros y oy Hy. unfold if_in. rewrite (decide_ext (y ∈ L ++ [q]) (y ∈ L)); [done|].
      rewrite elem_of_app, list_elem_of_singleton. tauto.
    + exists s2. split_and!; [done|done|congruence|congruence].
  - exists s'. split_and!; [done| |done|done]. eapply changed_ext; [|exact Hch].
    intros x o _. unfold if_in. by case_decide.
Qed.
End Cycle.

(** A white root is taken into a cycle. *)
Lemma collect_root_white :
  ∃ s' C, collect_root p s0 = Ok s' ∧ changed (if_in C (oranged C)) s' ∧ v_scan_stack s' = [] ∧
    v_cycles s' = C :: v_cycles s0 ∧ v_roots s' = v_roots s0 ∧
    v_object__release s' = v_object__release s0 ∧ v_object__collect s' = v_object__collect s0 ∧
    NoDup C ∧ p ∈ C ∧ (∀ x, x ∈ C → color s0 x = Some c_color__WHITE ∧ reach c p x) ∧ whites_closed C C.
Proof.
  destruct (Hobject p) as (o & Ho & _); [reflexivity|]. unfold collect_root. rewrite (get_ok _ _ _ Ho).
  cbn [mbind outcome_bind]. rewrite decide_True by (unfold color in Hwhite; rewrite Ho in Hwhite; cbn in Hwhite; congruence).
  destruct collect_white_ok as (s1 & C & -> & HC & Hst1 & Hcl). cbn [mbind outcome_bind].
  destruct HC as [Hch1 Hcy1 [C0 HC0] _ Hnd Hw Hrest1]. rewrite Hcy1.
  assert (Hreach : ∀ x, x ∈ C → reach c p x) by (intros x Hx; by apply Hw).
  destruct (scan_red_ok C Hnd Hreach s1 Hch1) as (s2 & -> & Hch2 & Hst2 & Hr2). cbn [mbind outcome_bind].
  assert (Hcy2 : v_cycle s2 = C) by (injection Hr2; congruence). rewrite Hcy2.
  destruct (orange_ok C Hnd Hreach s2 Hch2) as (s3 & -> & Hch3 & Hst3 & Hr3). cbn [mbind outcome_bind].
  injection Hrest1 as Hro1 Hcs1 Hre1 Hco1. injection Hr2 as Hro2 Hc2 Hcs2 Hre2 Hco2. injection Hr3 as Hro3 Hc3 Hcs3 Hre3 Hco3.
  eexists _, C. split; [done|]. cbn. split_and!; try done; try congruence.
  rewrite HC0. by left.
Qed.
End Collect.
