(* ===== verification/CollectorFind.v ===== *)
(** * The search for cycles

    The phases of the search put together: the cycles found are exactly what
    the purple roots reach and nothing else holds. *)
From stdpp Require Import base list numbers strings gmap.
From S2P Require Import Prelude Machine Collector CollectorGraph CollectorMark CollectorScan CollectorCycles.
Local Open Scope Z_scope.

Lemma consistent_same h h' : same_heap h h' → consistent h → consistent h'.
Proof.
  intros Hs [Ht Hcl Hc]. symmetry in Hs.
  assert (Hl : ∀ x o, h' !! x = Some o → ∃ o', h !! x = Some o' ∧ v_count o' = v_count o ∧ v_type o' = v_type o ∧ children_of o' = children_of o).
  { intros x o Ho. destruct (same_heap_lookup _ _ _ _ Hs Ho) as (o' & Ho' & Hsk). injection Hsk as ? Hty Hsl _.
    exists o'. split_and!; [done|done|done|]. unfold children_of. by rewrite Hty, Hsl. }
  split.
  - intros x o Ho. destruct (Hl x o Ho) as (o' & Ho' & _ & <- & _). eauto.
  - intros x o y Ho Hy. destruct (Hl x o Ho) as (o' & Ho' & _ & _ & E). rewrite <- E in Hy.
    apply (same_heap_is_Some _ _ _ Hs). eauto.
  - intros x o Ho. destruct (Hl x o Ho) as (o' & Ho' & <- & _ & _).
    rewrite (same_heap_addresses _ _ _ _ Hs), (refs_ext _ (children h)); [by apply Hc|].
    intros z _. by apply same_heap_children.
Qed.

(** ** Prescanning *)

Definition settled (k : option t_color) : Prop := k = Some c_color__BLACK ∨ k = Some c_color__PURPLE.

#[export] Instance settled_dec k : Decision (settled k).
Proof. unfold settled. apply _. Defined.

Section Prescan.
Context (s0 : t_engine).
Abbreviation c := (children (v_objects s0)).
Hypothesis Hh : consistent (v_objects s0).

(** The references of a settled object are settled, unless it is in [E] or it
    is going to be stepped through. *)
Record prescanning (E : t_address → Prop) (s : t_engine) : Prop := {
  ps_frame : frame s s0;
  ps_color x : color s x = color s0 x ∨ ¬ settled (color s0 x) ∧ color s x = Some c_color__BLACK;
  ps_closed x y : settled (color s x) → ¬ E x → x ∉ v_scan_stack s → y ∈ c x → settled (color s y)
}.

Lemma prescanned_object E s x :
  prescanning E s → is_Some (v_objects s0 !! x) →
  ∃ o t, v_objects s !! x = Some o ∧ v_type o = Some t ∧ children_of o = c x ∧ color s x = Some (v_color o).
Proof.
  intros Hs [o0 Ho0]. pose proof (ps_frame _ _ Hs) as Hf. symmetry in Hf.
  destruct (frame_lookup _ _ _ _ Hf Ho0) as (o & Ho & Hd). injection Hd as _ Hty Hsl _ _ _.
  destruct (cs_type _ Hh x o0 Ho0) as [t Ht]. exists o, t. split_and!; [done|congruence| |].
  - unfold children, children_of. by rewrite Ho0, Hty, Hsl.
  - unfold color. by rewrite Ho.
Qed.

Lemma prescan_paint E s x o st :
  prescanning E s → v_objects s !! x = Some o → ¬ settled (color s x) → E x ∨ x ∈ st →
  (∀ y, y ∈ v_scan_stack s → y ∈ st) → (∀ y, y ∈ st → y = x ∨ y ∈ v_scan_stack s) →
  prescanning E (set_scan_stack st (set_objects (<[x := with_color c_color__BLACK o]> (v_objects s)) s)).
Proof.
  intros [Hf Hc Hcl] Ho Hx HE Hst Hst'.
  pose proof (paints_ok s x o c_color__BLACK st Ho) as [Hpf Hpc Hps].
  assert (Hset : ∀ y, settled (color s y) → settled (color (set_scan_stack st (set_objects (<[x := with_color c_color__BLACK o]> (v_objects s)) s)) y)).
  { intros y Hy. rewrite Hpc. case_decide; [by left|done]. }
  split.
  - by etransitivity.
  - intros y. rewrite Hpc. case_decide as E1; [|done]. subst y. right. split; [|done].
    destruct (Hc x) as [Hcx|[? _]]; [by rewrite <- Hcx|done].
  - intros y z Hy HEy Hin Hz. rewrite Hpc in Hy. case_decide as E1.
    + subst y. cbn in Hin. tauto.
    + apply Hset. apply (Hcl y z Hy HEy); [|done]. auto.
Qed.

Lemma prescan_black_push_ok E s x :
  prescanning E s → is_Some (v_objects s0 !! x) →
  ∃ s' new, f_prescan_black_push x s = Ok s' ∧ prescanning E s' ∧ v_scan_stack s' = new ++ v_scan_stack s ∧
    settled (color s' x) ∧ (∀ y, settled (color s y) → settled (color s' y)) ∧
    (new = [] ∨ new = [x] ∧ ¬ settled (color s x)).
Proof.
  intros Hs Hx. destruct (prescanned_object E s x Hs Hx) as (o & t & Ho & _ & _ & Hco).
  unfold f_prescan_black_push. rewrite (get_ok _ _ _ Ho). cbn [mbind outcome_bind].
  destruct (decide (v_color o = c_color__BLACK ∨ v_color o = c_color__PURPLE)) as [Hc|Hc].
  - exists s, []. split_and!; [done|done|done| |done|by left]. unfold settled. rewrite Hco. destruct Hc as [-> | ->]; auto.
  - rewrite (update_ok _ _ _ _ Ho). cbn [mbind outcome_bind f_push].
    assert (Hx' : ¬ settled (color s x)) by (unfold settled; rewrite Hco; intros [?|?]; apply Hc; [left|right]; congruence).
    eexists _, [x]. split_and!; [done| |done| | |by right].
    + apply (prescan_paint E s x o (x :: v_scan_stack s)); try done; [right; by left|by right|].
      intros y. by rewrite elem_of_cons.
    + left. change (color (set_objects (<[x := with_color c_color__BLACK o]> (v_objects s)) s) x = Some c_color__BLACK).
      by rewrite color_paint, decide_True.
    + intros y Hy. change (settled (color (set_objects (<[x := with_color c_color__BLACK o]> (v_objects s)) s) y)).
      rewrite color_paint. case_decide; [by left|done].
Qed.

(** Stepping through [p]: [V] are the objects that were stepped through. *)
Definition prescan_head (E : t_address → Prop) (V : list t_address) (p : t_address) (s : t_engine) : Prop :=
  prescanning (λ x, E x ∨ x = p) s ∧ NoDup (p :: v_scan_stack s ++ V) ∧
  ∀ x, x ∈ p :: v_scan_stack s ++ V → settled (color s x) ∧ is_Some (v_objects s0 !! x).

Lemma prescan_step_ok E V p s :
  prescan_head E V p s →
  ∃ s', f_step f_prescan_black_push p s = Ok s' ∧ prescanning E s' ∧
    (∀ y, settled (color s y) → settled (color s' y)) ∧ NoDup (v_scan_stack s' ++ p :: V) ∧
    ∀ x, x ∈ v_scan_stack s' ++ p :: V → settled (color s' x) ∧ is_Some (v_objects s0 !! x).
Proof.
  intros (Hs & Hnd & Hin). destruct (Hin p) as [Hp Hps]; [by left|].
  destruct (prescanned_object _ s p Hs Hps) as (o & t & Ho & Ht & Hch & _).
  destruct (f_step_ind f_prescan_black_push p s o t (λ l s1, prescanning (λ x, E x ∨ x = p) s1 ∧
     (∀ y, settled (color s y) → settled (color s1 y)) ∧ NoDup (v_scan_stack s1 ++ p :: V) ∧
     (∀ x, x ∈ v_scan_stack s1 ++ p :: V → settled (color s1 x) ∧ is_Some (v_objects s0 !! x)) ∧
     ∀ x, x ∈ l → settled (color s1 x))) as (s' & Hs' & Hps' & Hmono & Hnd' & Hin' & Hall).
  - done.
  - done.
  - split_and!; [done|done| | |by intros x ?%not_elem_of_nil].
    + by rewrite <- Permutation_middle.
    + intros x Hx. apply Hin. by rewrite Permutation_middle.
  - intros l1 x l2 s1 Hl (Hs1 & Hm1 & Hnd1 & Hin1 & Hall1). rewrite Hch in Hl.
    assert (Hx : is_Some (v_objects s0 !! x)).
    { apply (children_closed _ p _ Hh). rewrite Hl. apply elem_of_app. right. by left. }
    destruct (prescan_black_push_ok _ s1 x Hs1 Hx) as (s2 & new & Hs2 & Hps2 & Hst2 & Hsx & Hm2 & Hnew).
    exists s2. split; [done|]. rewrite Hst2. split_and!; [done|auto| | |].
    + destruct Hnew as [-> |[-> Hns]]; [done|]. cbn. apply NoDup_cons. split; [|done].
      intros Hx1. by apply Hns, Hin1.
    + intros y Hy. destruct Hnew as [-> |[-> Hns]]; cbn in Hy.
      * destruct (Hin1 y Hy). auto.
      * apply elem_of_cons in Hy as [-> |Hy]; [done|]. destruct (Hin1 y Hy). auto.
    + intros y [Hy| ->%list_elem_of_singleton]%elem_of_app; auto.
  - exists s'. split_and!; try done. destruct Hps' as [Hf Hc Hcl]. split; [done|done|].
    intros x y Hx HE Hst Hy. destruct (decide (x = p)) as [-> |Hne]; [apply Hall; by rewrite Hch|].
    apply (Hcl x y Hx); [by intros [?|?]|done|done].
Qed.

Lemma prescan_black_ok E p s :
  prescanning (λ x, E x ∨ x = p) s → v_scan_stack s = [] → is_Some (v_objects s0 !! p) →
  ∃ s', f_prescan_black p s = Ok s' ∧ prescanning E s' ∧ v_scan_stack s' = [] ∧ settled (color s' p) ∧
    ∀ y, settled (color s y) → settled (color s' y).
Proof.
  intros Hs Hst Hp. destruct (prescanned_object _ s p Hs Hp) as (o & t & Ho & _ & _ & Hco).
  unfold f_prescan_black. rewrite (get_ok _ _ _ Ho). cbn [mbind outcome_bind].
  assert (H1 : ∃ s1, (if decide (v_color o ≠ c_color__PURPLE) then update (with_color c_color__BLACK) p s else Ok s) = Ok s1 ∧
    prescanning (λ x, E x ∨ x = p) s1 ∧ v_scan_stack s1 = [] ∧ settled (color s1 p) ∧
    ∀ y, settled (color s y) → settled (color s1 y)).
  { destruct (decide (v_color o ≠ c_color__PURPLE)) as [Hc|Hc%dec_stable].
    - rewrite (update_ok _ _ _ _ Ho). eexists. split; [done|].
      pose proof (paints_ok s p o c_color__BLACK [] Ho) as [Hpf Hpc _].
      split_and!; [|done| |].
      + destruct (decide (settled (color s p))) as [Hsp|Hsp].
        * destruct Hs as [Hf Hcs Hcl]. split; [by etransitivity| |].
          -- intros y. rewrite color_paint. case_decide; [subst y|done].
             destruct (Hcs p) as [Hcp|]; [|tauto]. left. rewrite <- Hcp. destruct Hsp as [Hsp|Hsp]; congruence.
          -- intros x y Hx HE Hin Hy. rewrite color_paint in *. case_decide; [tauto|].
             case_decide; [by left|]. by apply (Hcl x y).
        * pose proof (prescan_paint (λ x, E x ∨ x = p) s p o [] Hs Ho Hsp) as Hpp.
          destruct s; cbn in Hst; subst. apply Hpp; [by left; right|done|by intros y ?%not_elem_of_nil].
      + left. by rewrite color_paint, decide_True.
      + intros y Hy. rewrite color_paint. case_decide; [by left|done].
    - exists s. split_and!; [done|done|done| |done]. right. congruence. }
  destruct H1 as (s1 & -> & Hs1 & Hst1 & Hp1 & Hm1). cbn [mbind outcome_bind].
  destruct (f_loop_ind (f_step f_prescan_black_push)
    (λ n q s, ∃ V, prescan_head E V q s ∧ (n <= length V)%nat ∧ ∀ y, settled (color s1 y) → settled (color s y))
    (λ s, prescanning E s ∧ v_scan_stack s = [] ∧ ∀ y, settled (color s1 y) → settled (color s y)))
    with (bound := S (2 * size (v_objects s0))) (fuel := rounds s1) (p := p) (s := s1) as (s' & Hs' & Hps & Hst' & Hm).
  - intros n q s2 (V & Hhd & Hn & Hm2). destruct (prescan_step_ok E V q s2 Hhd) as (s3 & Hs3 & Hps3 & Hm3 & Hnd3 & Hin3).
    exists s3. split; [done|]. destruct (v_scan_stack s3) as [|q' st] eqn:Est.
    + split_and!; [done|done|auto].
    + exists (q :: V). split_and!; [|cbn; lia|].
      * split_and!; [|done|exact Hin3]. destruct Hps3 as [Hf Hc Hcl]. split; [done|done|].
        intros x y Hx HE Hin Hy. change (settled (color s3 y)). apply (Hcl x y Hx); [tauto| |done].
        rewrite Est. intros [?|?]%elem_of_cons; tauto.
      * intros y Hy. change (settled (color s3 y)). auto.
  - intros n q s2 (V & (_ & Hnd & Hin) & Hn & _).
    pose proof (nodup_length (v_objects s0) _ Hnd (λ x Hx, proj2 (Hin x Hx))) as Hl. cbn in Hl.
    rewrite length_app in Hl. lia.
  - unfold rounds. rewrite (same_heap_size _ _ (frame_same_heap _ _ (ps_frame _ _ Hs1))). lia.
  - exists []. split_and!; [|done|done]. split_and!; [done| |]; rewrite Hst1; cbn.
    + apply NoDup_singleton.
    + by intros x ->%list_elem_of_singleton.
  - exists s'. split_and!; auto.
Qed.

(** All roots. *)
Lemma prescan_ok R :
  prescanning (λ x, x ∈ R) s0 → v_scan_stack s0 = [] → (∀ r, r ∈ R → is_Some (v_objects s0 !! r)) →
  ∃ s', each f_prescan_black R s0 = Ok s' ∧ prescanning (λ _, False) s' ∧ v_scan_stack s' = [] ∧
    ∀ r, r ∈ R → settled (color s' r).
Proof.
  intros Hs Hst HR.
  cut (∀ R1 R2 s, R = R1 ++ R2 → prescanning (λ x, x ∈ R2) s → v_scan_stack s = [] →
    (∀ r, r ∈ R1 → settled (color s r)) → ∃ s', each f_prescan_black R2 s = Ok s' ∧ prescanning (λ _, False) s' ∧
    v_scan_stack s' = [] ∧ ∀ r, r ∈ R → settled (color s' r)).
  { intros H. apply (H [] R s0); try done. by intros r ?%not_elem_of_nil. }
  intros R1 R2. revert R1. induction R2 as [|r R2 IH]; intros R1 s HRR Hs1 Hst1 Hset.
  - exists s. rewrite app_nil_r in HRR. subst R1. split_and!; [done| |done|done].
    destruct Hs1 as [Hf Hc Hcl]. split; [done|done|]. intros x y Hx _. apply Hcl; [done|apply not_elem_of_nil].
  - destruct (prescan_black_ok (λ x, x ∈ R2) r s) as (s2 & Hs2 & Hps2 & Hst2 & Hr2 & Hm2).
    + destruct Hs1 as [Hf Hc Hcl]. split; [done|done|]. intros x y Hx HE. apply Hcl; [done|].
      rewrite elem_of_cons. tauto.
    + done.
    + apply HR. rewrite HRR. apply elem_of_app. right. by left.
    + destruct (IH (R1 ++ [r]) s2) as (s' & Hs' & H'); [by rewrite <- app_assoc|done|done| |].
      * intros q [Hq| ->%list_elem_of_singleton]%elem_of_app; auto.
      * exists s'. split; [|done]. unfold each. cbn [fold_calls]. rewrite Hs2. exact Hs'.
Qed.
End Prescan.

(** ** The roots that turned out white *)

(** A cycle refers to garbage of its own and of the cycles found before. *)
Fixpoint layered (c : t_address → list t_address) (W : t_address → Prop) (Cs : list (list t_address)) : Prop :=
  match Cs with
  | [] => True
  | C :: Cs => (∀ x y, x ∈ C ++ concat Cs → y ∈ c x → W y → y ∈ C ++ concat Cs) ∧ layered c W Cs
  end.

Lemma ordered_ext h h' R : same_heap h h' → ordered h R → ordered h' R.
Proof.
  intros Hs. induction R as [|a R IH]; [done|]. cbn. intros [Ha HR]. split; [|by apply IH].
  intros b Hb Hr. apply (Ha b Hb). eapply reach_ext; [|exact Hr]. intros z. symmetry. by apply same_heap_children.
Qed.

Lemma layered_ext c c' (W W' : t_address → Prop) Cs :
  (∀ x, c x = c' x) → (∀ x, W' x → W x) → layered c W Cs → layered c' W' Cs.
Proof.
  intros Hc HW. induction Cs as [|C Cs IH]; [done|]. cbn. intros [H1 H2]. split; [|by apply IH].
  intros x y Hx Hy Hw. apply (H1 x); [done|by rewrite Hc|by apply HW].
Qed.

Lemma ordered_app h L l a b :
  ordered h (L ++ l) → a ∈ L → b ∈ l → ¬ reach (children h) a b.
Proof.
  induction L as [|x L IH]; [by intros _ ?%not_elem_of_nil|]. cbn. intros [Hx HL] [-> |Ha]%elem_of_cons Hb.
  - apply Hx, elem_of_app. by right.
  - by apply IH.
Qed.

Section Roots.
(** The state when the objects of [P] are black or white. *)
Context (s1 : t_engine) (P R : list t_address).
Abbreviation h := (v_objects s1).
Abbreviation c := (children h).
Hypothesis Hobject : ∀ x, x ∈ P → ∃ o, h !! x = Some o ∧ is_Some (v_type o) ∧
  Z.of_nat (refs c (addresses h) x) <= v_count o < SIZE_MODULUS.
Hypothesis Hclosed : ∀ x y, x ∈ P → y ∈ c x → y ∈ P.
Hypothesis Hcolor : ∀ x, x ∈ P → color s1 x = Some c_color__BLACK ∨ color s1 x = Some c_color__WHITE.
Hypothesis Hordered : ordered h R.
Hypothesis Hnodup : NoDup R.
Hypothesis HR : ∀ r, r ∈ R → r ∈ P.

Definition whitened (x : t_address) : Prop := x ∈ P ∧ color s1 x = Some c_color__WHITE.

Record collected (Cs : list (list t_address)) (L l : list t_address) (s : t_engine) : Prop := {
  cd_same : same_heap (v_objects s) h;
  cd_out x : x ∉ concat Cs → color s x = color s1 x;
  cd_in C x o : C ∈ Cs → x ∈ C → v_objects s !! x = Some o →
    v_color o = c_color__ORANGE ∧ v_cyclic o = v_count o - Z.of_nat (refs c C x);
  cd_link x : v_link <$> v_objects s !! x = if decide (x ∈ concat Cs) then Some Cycle else link_in h l x;
  cd_white x : x ∈ concat Cs → whitened x ∧ ∃ a, a ∈ L ∧ reach c a x;
  cd_nodup : NoDup (concat Cs);
  cd_some C : C ∈ Cs → C ≠ [];
  cd_layered : layered c whitened Cs;
  cd_done r : r ∈ L → whitened r → r ∈ concat Cs;
  cd_stack : v_scan_stack s = [];
  cd_cycles : v_cycles s = Cs;
  cd_rest : v_roots s = l ∧ v_object__release s = v_object__release s1 ∧ v_object__collect s = v_object__collect s1
}.

Lemma layered_closed Cs x y : layered c whitened Cs → x ∈ concat Cs → y ∈ c x → whitened y → y ∈ concat Cs.
Proof. destruct Cs as [|C Cs]; [by intros _ ?%not_elem_of_nil|]. intros [H _]. apply H. Qed.

Lemma reach_in_P x y : x ∈ P → reach c x y → y ∈ P.
Proof. intros Hx Hr. by apply (reach_closed c (λ x, x ∈ P) x y). Qed.

Lemma collected_object Cs L l s x :
  collected Cs L l s → x ∈ P → ∃ o, v_objects s !! x = Some o ∧ is_Some (v_type o) ∧ color s x = Some (v_color o) ∧
  Z.of_nat (refs (children (v_objects s)) (addresses (v_objects s)) x) <= v_count o < SIZE_MODULUS ∧
  (x ∉ concat Cs → v_color o = c_color__BLACK ∨ v_color o = c_color__WHITE ∧ whitened x) ∧
  (x ∈ concat Cs → v_color o = c_color__ORANGE).
Proof.
  intros Hs Hx. destruct (Hobject x Hx) as (o1 & Ho1 & Ht & Hc).
  pose proof (cd_same _ _ _ _ Hs) as Hsame. symmetry in Hsame.
  destruct (same_heap_lookup _ _ _ _ Hsame Ho1) as (o & Ho & Hsk). injection Hsk as Hcount Hty _ _. symmetry in Hsame.
  exists o. refine (conj _ (conj _ (conj _ (conj _ (conj _ _))))); [done|by rewrite Hty|by unfold color; rewrite Ho| | |].
  - rewrite Hcount, (same_heap_addresses _ _ _ _ Hsame), (refs_ext _ c); [done|].
    intros z _. by apply same_heap_children.
  - intros Hout. pose proof (cd_out _ _ _ _ Hs x Hout) as Hco. unfold color at 1 in Hco. rewrite Ho in Hco. cbn in Hco.
    destruct (Hcolor x Hx) as [E|E]; rewrite E in Hco; apply (inj Some) in Hco; [by left|by right].
  - intros Hin. apply list_elem_of_In, in_concat in Hin as (C & HC & Hx').
    apply list_elem_of_In in HC, Hx'. by apply (cd_in _ _ _ _ Hs C x o).
Qed.

Lemma collect_root_kept Cs L l s p :
  R = L ++ p :: l → collected Cs L (p :: l) s → color s p ≠ Some c_color__WHITE →
  ∃ s', collect_root p (set_roots l s) = Ok s' ∧ collected Cs (L ++ [p]) l s'.
Proof.
  intros HRL Hs Hp. assert (HpP : p ∈ P) by (apply HR; rewrite HRL; apply elem_of_app; right; by left).
  destruct (collected_object _ _ _ _ p Hs HpP) as (o & Ho & Ht & Hco & _ & Hout & _).
  assert (Hpn : p ∉ concat Cs).
  { intros Hin. destruct (cd_white _ _ _ _ Hs p Hin) as (_ & a & Ha & Hr).
    apply (ordered_app h L (p :: l) a p); [by rewrite <- HRL|done|by left|done]. }
  assert (Hpl : p ∉ l).
  { rewrite HRL in Hnodup. apply NoDup_app in Hnodup as (_ & _ & [Hpl _]%NoDup_cons). done. }
  unfold collect_root. rewrite (get_ok _ _ o) by done. cbn [mbind outcome_bind].
  rewrite decide_False by congruence. rewrite (update_ok _ _ _ o) by done. eexists. split; [done|].
  assert (Hcol : ∀ x, color (set_objects (<[p := with_link Unlinked o]> (v_objects s)) s) x = color s x).
  { intros x. unfold color. cbn [v_objects set_objects]. destruct (decide (x = p)) as [-> |Hne].
    - by rewrite lookup_insert_eq, Ho.
    - by rewrite lookup_insert_ne. }
  destruct Hs as [Hsame Hcout Hin Hlk Hw Hnd Hsome Hlay Hdone Hst Hcy [Hro Hcnt]].
  split; cbn [v_objects v_scan_stack v_cycles v_roots v_object__release v_object__collect set_objects set_roots]; try done.
  - etransitivity; [|exact Hsame]. by apply (same_heap_insert _ _ o).
  - intros x Hx. transitivity (color s x); [apply Hcol|by apply Hcout].
  - intros C x ox HC Hx. destruct (decide (x = p)) as [-> |Hne].
    + destruct Hpn. apply list_elem_of_In, in_concat. exists C. split; by apply list_elem_of_In.
    + rewrite lookup_insert_ne by done. by apply Hin.
  - intros x. destruct (decide (x = p)) as [-> |Hne].
    + rewrite lookup_insert_eq, decide_False by done. unfold link_in. rewrite decide_False by done.
      destruct (Hobject p HpP) as (o1 & -> & _). done.
    + rewrite lookup_insert_ne, Hlk by done. case_decide; [done|]. unfold link_in.
      apply decide_ext. rewrite elem_of_cons. tauto.
  - intros x Hx. destruct (Hw x Hx) as (Hwx & a & Ha & Hr). split; [done|]. exists a. split; [|done].
    apply elem_of_app. by left.
  - intros r [Hr| ->%list_elem_of_singleton]%elem_of_app Hwr; [by apply Hdone|].
    destruct Hp. rewrite Hcout by done. apply Hwr.
Qed.

Lemma collect_root_found Cs L l s p :
  R = L ++ p :: l → collected Cs L (p :: l) s → color s p = Some c_color__WHITE →
  ∃ s' C, collect_root p (set_roots l s) = Ok s' ∧ collected (C :: Cs) (L ++ [p]) l s'.
Proof.
  intros HRL Hs Hp. assert (HpP : p ∈ P) by (apply HR; rewrite HRL; apply elem_of_app; right; by left).
  set (s0 := set_roots l s).
  assert (Hch : ∀ x, children (v_objects s0) x = c x) by (intros x; apply same_heap_children, (cd_same _ _ _ _ Hs)).
  assert (Hreach : ∀ x y, reach (children (v_objects s0)) x y → reach c x y) by (intros x y; by apply reach_ext).
  assert (Hobj : ∀ x, reach (children (v_objects s0)) p x → ∃ o, v_objects s !! x = Some o ∧ is_Some (v_type o) ∧
     color s x = Some (v_color o) ∧
     Z.of_nat (refs (children (v_objects s)) (addresses (v_objects s)) x) <= v_count o < SIZE_MODULUS ∧
     (x ∉ concat Cs → v_color o = c_color__BLACK ∨ v_color o = c_color__WHITE ∧ whitened x) ∧
     (x ∈ concat Cs → v_color o = c_color__ORANGE)).
  { intros x Hx. apply (collected_object _ _ _ _ _ Hs). apply (reach_in_P p); auto. }
  assert (Hlast : ∀ b, b ∈ l → ¬ reach c p b).
  { intros b. apply (ordered_app h (L ++ [p]) l p b); [rewrite <- app_assoc; cbn [app]; by rewrite <- HRL|].
    apply elem_of_app. right. by left. }
  destruct (collect_root_white s0 p) as (s' & C & Hs' & Hchg & Hst' & Hcy' & Hro' & Hre' & Hco' & HndC & HpC & HC & Hwc).
  - intros x Hx. destruct (Hobj x Hx) as (o & Ho & Ht & _ & Hc & _). exists o. done.
  - exact Hp.
  - intros x o Hx Hne Ho Hco. pose proof (cd_link _ _ _ _ Hs x) as Hlk. change (v_objects s0) with (v_objects s) in Ho.
    destruct (Hobj x Hx) as (o' & Ho' & _ & _ & _ & _ & Hin). simplify_eq. rewrite Ho in Hlk. cbn in Hlk.
    rewrite decide_False in Hlk by (intros Hi; rewrite (Hin Hi) in Hco; done).
    unfold link_in in Hlk. rewrite decide_False in Hlk.
    + destruct (h !! x); cbn in Hlk; congruence.
    + intros [?|Hxl]%elem_of_cons; [done|]. by apply (Hlast x Hxl), Hreach.
  - intros x Hx E. destruct (Hobj x Hx) as (o & Ho & _ & Hco & _ & Hout & Hin). change (color s0 x) with (color s x) in E.
    rewrite Hco in E. apply (inj Some) in E. destruct (decide (x ∈ concat Cs)) as [Hi|Hi].
    + specialize (Hin Hi). congruence.
    + destruct (Hout Hi) as [?|[? _]]; congruence.
  - apply (cd_stack _ _ _ _ Hs).
  - exists s', C. split; [done|].
    assert (HCw : ∀ x, x ∈ C → whitened x ∧ (x ∉ concat Cs) ∧ reach c p x).
    { intros x Hx. destruct (HC x Hx) as [Hcx Hr]. destruct (Hobj x Hr) as (o & _ & _ & Hco & _ & Hout & Hin).
      change (color s0 x) with (color s x) in Hcx. rewrite Hco in Hcx. apply (inj Some) in Hcx.
      assert (Hn : x ∉ concat Cs) by (intros Hi; rewrite (Hin Hi) in Hcx; done).
      split_and!; [|done|auto]. destruct (Hout Hn) as [?|[_ ?]]; [congruence|done]. }
    assert (HCl : ∀ x y, x ∈ C → y ∈ c x → whitened y → y ∈ C ++ concat Cs).
    { intros x y Hx Hy [_ Hwy]. destruct (decide (y ∈ concat Cs)) as [|Hn]; [apply elem_of_app; by right|].
      apply elem_of_app. left. apply (Hwc x y Hx); [by rewrite Hch|]. change (color s y = Some c_color__WHITE).
      by rewrite (cd_out _ _ _ _ Hs). }
    destruct Hs as [Hsame Hcout Hin Hlk Hw Hnd Hsome Hlay Hdone Hst Hcy [Hro [Hre Hco]]].
    assert (Hsame' : same_heap (v_objects s') (v_objects s)).
    { apply map_eq. intros x. rewrite !lookup_fmap, (Hchg x). change (v_objects s0) with (v_objects s).
      destruct (v_objects s !! x) as [o|]; [|done]. cbn. by rewrite if_in_skeleton. }
    split; try done.
    + by etransitivity.
    + intros x Hx. cbn in Hx. apply not_elem_of_app in Hx as [HxC Hx]. unfold color at 1. rewrite (Hchg x).
      unfold if_in. rewrite <- Hcout by done. unfold color. change (v_objects s0) with (v_objects s).
      destruct (v_objects s !! x); [|done]. cbn. by rewrite decide_False.
    + intros C' x o HC' Hx. rewrite (Hchg x). change (v_objects s0) with (v_objects s).
      destruct (v_objects s !! x) as [os|] eqn:Hos; [|done]. cbn. intros [= <-]. apply elem_of_cons in HC' as [-> |HC'].
      * unfold if_in. rewrite decide_True by done. cbn. split; [done|].
        destruct (Hobj x) as (o' & Ho' & _ & _ & Hc & _); [apply (HC x Hx)|]. simplify_eq.
        assert (Hle : (refs (children (v_objects s)) C x <= refs (children (v_objects s)) (addresses (v_objects s)) x)%nat).
        { apply refs_le; [done|apply addresses_nodup|]. intros z Hz. apply addresses_in.
          destruct (Hobj z) as (oz & -> & _); [apply (HC z Hz)|by eexists]. }
        rewrite to_size_id by lia. by rewrite (refs_ext (children (v_objects s)) c).
      * assert (Hxc : x ∈ concat Cs) by (apply list_elem_of_In, in_concat; exists C'; split; by apply list_elem_of_In).
        unfold if_in. rewrite decide_False by (intros Hx'; by apply (HCw x Hx')). by apply Hin.
    + intros x. rewrite (Hchg x). change (v_objects s0) with (v_objects s). cbn [concat].
      specialize (Hlk x). destruct (decide (x ∈ C)) as [HxC|HxC].
      * rewrite decide_True by (apply elem_of_app; by left).
        destruct (Hobj x) as (o & Ho & _); [apply (HC x HxC)|]. rewrite Ho. cbn. unfold if_in. by rewrite decide_True.
      * unfold if_in. rewrite (decide_ext (x ∈ C ++ concat Cs) (x ∈ concat Cs)) by (rewrite elem_of_app; tauto).
        destruct (v_objects s !! x) as [o|] eqn:Ho; cbn in *.
        -- rewrite decide_False, Hlk by done. case_decide; [done|]. unfold link_in. apply decide_ext.
           rewrite elem_of_cons. split; [intros [-> |?]; [done|done]|by right].
        -- rewrite Hlk. case_decide; [done|]. unfold link_in. apply decide_ext.
           rewrite elem_of_cons. split; [intros [-> |?]; [done|done]|by right].
    + intros x [HxC|Hx]%elem_of_app.
      * destruct (HCw x HxC) as (Hwx & _ & Hr). split; [done|]. exists p. split; [|done]. apply elem_of_app. right. by left.
      * destruct (Hw x Hx) as (Hwx & a & Ha & Hr). split; [done|]. exists a. split; [|done]. apply elem_of_app. by left.
    + cbn. apply NoDup_app. split_and!; [done| |done]. intros x Hx. by apply (HCw x Hx).
    + intros C' [-> |HC']%elem_of_cons; [|by apply Hsome]. intros ->. by apply not_elem_of_nil in HpC.
    + cbn. split; [|done]. intros x y [HxC|Hx]%elem_of_app Hy Hwy; [by apply (HCl x)|].
      apply elem_of_app. right. by apply (layered_closed Cs x).
    + intros r [Hr| ->%list_elem_of_singleton]%elem_of_app Hwr; apply elem_of_app; [right; by apply Hdone|by left].
    + rewrite Hcy'. cbn. congruence.
    + rewrite Hro', Hre', Hco'. done.
Qed.

Lemma collect_roots_ok s :
  v_scan_stack s1 = [] → v_cycles s1 = [] → v_roots s1 = R → (∀ x, v_link <$> h !! x = link_in h R x) →
  s = s1 → ∃ s' Cs, collect_roots R s = Ok s' ∧ collected Cs R [] s'.
Proof.
  intros Hst Hcy Hro Hlk ->.
  cut (∀ l L Cs s, R = L ++ l → collected Cs L l s → ∃ s' Cs', collect_roots l s = Ok s' ∧ collected Cs' R [] s').
  { intros H. apply (H R [] [] s1); [done|]. split; try done; try (by intros x ?%not_elem_of_nil).
    - intros C x o ?%not_elem_of_nil. done.
    - apply NoDup_nil. done. }
  intros l. induction l as [|p l IH]; intros L Cs s HRL Hs.
  - rewrite app_nil_r in HRL. subst L. by exists s, Cs.
  - cbn [collect_roots]. destruct (decide (color s p = Some c_color__WHITE)) as [Hp|Hp].
    + destruct (collect_root_found Cs L l s p HRL Hs Hp) as (s' & C & -> & Hs'). cbn [mbind outcome_bind].
      apply (IH (L ++ [p]) (C :: Cs)); [by rewrite <- app_assoc|done].
    + destruct (collect_root_kept Cs L l s p HRL Hs Hp) as (s' & -> & Hs'). cbn [mbind outcome_bind].
      apply (IH (L ++ [p]) Cs); [by rewrite <- app_assoc|done].
Qed.
End Roots.

(** ** The whole search *)

(** Between two rounds, when no cycle is left. *)
Record ready (s : t_engine) : Prop := {
  rd_heap : consistent (v_objects s);
  rd_settled x y : settled (color s x) → x ∉ v_roots s → y ∈ children (v_objects s) x → settled (color s y);
  rd_nodup : NoDup (v_roots s);
  rd_link x : v_link <$> v_objects s !! x = link_in (v_objects s) (v_roots s) x;
  rd_stack : v_scan_stack s = [];
  rd_cycles : v_cycles s = []
}.

(** [ext x] references to [x] come from outside of the heap. *)
Definition counted (ext : t_address → nat) (h : gmap t_address t_object) : Prop :=
  ∀ x o, h !! x = Some o → v_count o = Z.of_nat (ext x) + Z.of_nat (refs (children h) (addresses h) x).

(** No object in the list of roots has lost all its references: those that
    have are freed at once. *)
Definition roots_positive (s : t_engine) : Prop :=
  ∀ x o, x ∈ v_roots s → v_objects s !! x = Some o → 0 < v_count o.

(** What the purple roots reach. *)
Definition candidate (s : t_engine) (x : t_address) : Prop :=
  ∃ r, r ∈ v_roots s ∧ color s r = Some c_color__PURPLE ∧ reach (children (v_objects s)) r x.

(** Of the candidates, those that are reached from a reference of another
    object or from outside of the heap. *)
Definition held_from_outside (ext : t_address → nat) (s : t_engine) (x : t_address) : Prop :=
  ∃ z, candidate s z ∧ reach (children (v_objects s)) z x ∧
    ((0 < ext z)%nat ∨ ∃ y, is_Some (v_objects s !! y) ∧ ¬ candidate s y ∧ z ∈ children (v_objects s) y).

(** What the search leaves. *)
Record searched (s s' : t_engine) : Prop := {
  sr_same : same_heap (v_objects s') (v_objects s);
  sr_nodup : NoDup (concat (v_cycles s'));
  sr_some C : C ∈ v_cycles s' → C ≠ [];
  sr_cycle C x o : C ∈ v_cycles s' → x ∈ C → v_objects s' !! x = Some o →
    v_color o = c_color__ORANGE ∧ v_cyclic o = v_count o - Z.of_nat (refs (children (v_objects s)) C x);
  sr_link x : v_link <$> v_objects s' !! x =
    if decide (x ∈ concat (v_cycles s')) then Some Cycle else (λ _, Unlinked) <$> v_objects s !! x;
  sr_layered : layered (children (v_objects s)) (λ x, x ∈ concat (v_cycles s')) (v_cycles s');
  sr_color x : x ∉ concat (v_cycles s') → color s' x = color s x ∨ color s' x = Some c_color__BLACK;
  sr_black x : candidate s x → x ∉ concat (v_cycles s') → color s' x = Some c_color__BLACK;
  sr_settled x y : x ∉ concat (v_cycles s') → settled (color s' x) → y ∈ children (v_objects s) x → settled (color s' y);
  sr_stack : v_scan_stack s' = [];
  sr_rest : v_roots s' = [] ∧ v_object__release s' = v_object__release s ∧ v_object__collect s' = v_object__collect s
}.

(** References from outside, as the marking counts them. *)
Lemma left_over ext h P z o :
  consistent h → counted ext h → NoDup P → (∀ x, x ∈ P → is_Some (h !! x)) → h !! z = Some o →
  v_count o - Z.of_nat (refs (children h) P z) > 0 ↔
  (0 < ext z)%nat ∨ ∃ y, is_Some (h !! y) ∧ (y ∉ P) ∧ z ∈ children h y.
Proof.
  intros Hh Hext Hnd HP Ho. rewrite (Hext z o Ho).
  rewrite (refs_split (children h) P (addresses h)); [|done|apply addresses_nodup|intros x Hx; by apply addresses_in, HP].
  split.
  - intros Hpos. destruct (decide (0 < ext z)%nat) as [|Hz]; [by left|right].
    destruct (refs_pos (children h) (filter (λ x, x ∉ P) (addresses h)) z) as (y & Hy & Hzy); [lia|].
    apply list_elem_of_filter in Hy as [Hy Hin]. exists y. split_and!; [by apply addresses_in|done|done].
  - intros [Hz|(y & Hy & HyP & Hzy)]; [lia|].
    pose proof (refs_in (children h) (filter (λ x, x ∉ P) (addresses h)) y z) as Hin.
    rewrite list_elem_of_filter, addresses_in in Hin. specialize (Hin (conj HyP Hy) Hzy). lia.
Qed.

Section Search.
Context (s : t_engine).
Hypothesis Hs : ready s.
Hypothesis Hpos : roots_positive s.
Abbreviation h := (v_objects s).
Abbreviation c := (children h).

Lemma prescan_phase :
  ∃ s1, each f_prescan_black (v_roots s) s = Ok s1 ∧ frame s1 s ∧ v_scan_stack s1 = [] ∧
    (∀ x, color s1 x = color s x ∨ ¬ settled (color s x) ∧ color s1 x = Some c_color__BLACK) ∧
    (∀ x y, settled (color s1 x) → y ∈ c x → settled (color s1 y)) ∧
    (∀ r, r ∈ v_roots s → settled (color s1 r)).
Proof.
  assert (Hr : ∀ r, r ∈ v_roots s → is_Some (h !! r)).
  { intros r Hr. pose proof (rd_link s Hs r) as Hl. unfold link_in in Hl. rewrite decide_True in Hl by done.
    destruct (h !! r); [by eexists|done]. }
  destruct (prescan_ok s (rd_heap s Hs) (v_roots s)) as (s1 & Hs1 & [Hf Hc Hcl] & Hst & Hroots).
  - split; [reflexivity|by left|]. intros x y Hx HE _ Hy. by apply (rd_settled s Hs x).
  - apply (rd_stack s Hs).
  - done.
  - exists s1. split_and!; try done. intros x y Hx Hy. apply (Hcl x y); [done|tauto|rewrite Hst; apply not_elem_of_nil|done].
Qed.

(** What was visited is what can be a candidate. *)
Lemma mark_phase s1 :
  frame s1 s → v_scan_stack s1 = [] →
  (∀ x, color s1 x = color s x ∨ ¬ settled (color s x) ∧ color s1 x = Some c_color__BLACK) →
  (∀ x y, settled (color s1 x) → y ∈ c x → settled (color s1 y)) →
  (∀ r, r ∈ v_roots s → settled (color s1 r)) →
  ∃ s2 R P, mark_roots (v_roots s1) [] s1 = Ok s2 ∧ v_roots s2 = R ∧ rest_of s2 = rest_of (set_roots R s1) ∧
    marked (v_objects s1) R P s2 ∧ (∀ r, r ∈ R → r ∈ v_roots s) ∧ (∀ x, x ∈ P ↔ candidate s x).
Proof.
  intros Hf Hst Hc Hcl Hroots. pose proof (frame_same_heap _ _ Hf) as Hsame.
  assert (Hro : v_roots s1 = v_roots s) by (destruct Hf as [_ Hf]; by injection Hf).
  assert (Hch : ∀ x, children (v_objects s1) x = c x) by (intros x; by apply same_heap_children).
  assert (Hh1 : consistent (v_objects s1)) by (eapply consistent_same; [symmetry; exact Hsame|apply (rd_heap s Hs)]).
  assert (Hlk : ∀ x, v_link <$> v_objects s1 !! x = link_in (v_objects s1) (v_roots s1) x).
  { intros x. rewrite Hro. pose proof (rd_link s Hs x) as Hl. unfold link_in in *.
    destruct (v_objects s1 !! x) as [o1|] eqn:Ho1.
    - destruct (frame_lookup _ _ _ _ Hf Ho1) as (o & Ho & Hd). injection Hd as _ _ _ _ _ Hli. rewrite Ho in Hl.
      cbn in *. rewrite Hli. exact Hl.
    - destruct (h !! x) as [o|] eqn:Ho; [|done]. symmetry in Hf. destruct (frame_lookup _ _ _ _ Hf Ho) as (? & ? & _). congruence. }
  assert (Hcol : ∀ r x o, r ∈ v_roots s1 → reach (children (v_objects s1)) r x → v_objects s1 !! x = Some o →
    v_color o = c_color__BLACK ∨ v_color o = c_color__PURPLE).
  { intros r x o Hr Hrx Ho. rewrite Hro in Hr.
    assert (Hsx : settled (color s1 x)).
    { eapply (reach_closed (children (v_objects s1)) (λ x, settled (color s1 x))); [|by apply Hroots|exact Hrx].
      intros y z Hy Hz. rewrite Hch in Hz. by apply (Hcl y). }
    unfold settled, color in Hsx. rewrite Ho in Hsx. cbn in Hsx. destruct Hsx as [E|E]; injection E; auto. }
  destruct (mark_roots_ok (v_objects s1) Hh1 (v_roots s1) Hcol (v_roots s1) [] [] s1)
    as (s2 & R & P & Hs2 & HR & Hrest & Hmd & HRl & _ & HRc & Hpurple); try done.
  - intros r Hr. rewrite Hro in Hr. pose proof (rd_link s Hs r) as Hl. unfold link_in in Hl.
    rewrite decide_True in Hl by done. destruct (h !! r) as [o|] eqn:Ho; [|done]. symmetry in Hsame.
    destruct (same_heap_lookup _ _ _ _ Hsame Ho) as (o1 & Ho1 & Hsk). injection Hsk as Hcount _ _ _.
    exists o1. split; [done|]. rewrite Hcount. by apply (Hpos r).
  - rewrite Hro. cbn. apply (rd_nodup s Hs).
  - split; [done|by apply NoDup_nil|by intros x ?%not_elem_of_nil|by intros x o _ ?%not_elem_of_nil|done| | |exact Hlk].
    + intros x. cbn. lia.
    + by intros x ?%not_elem_of_nil.
  - exists s2, R, P. split_and!; try done; [intros r Hr; rewrite <- Hro; by apply HRl|].
    assert (Hp : ∀ r, color s1 r = Some c_color__PURPLE ↔ color s r = Some c_color__PURPLE).
    { intros r. destruct (Hc r) as [-> |[Hn ->]]; [done|]. split; [done|]. intros E. destruct Hn. by right. }
    intros x. split.
    + intros Hx. destruct (mk_from _ _ _ _ _ _ (md_marking _ _ _ _ Hmd) x Hx) as (r & Hr & Hrx). exists r.
      split_and!; [rewrite <- Hro; by apply HRl| |].
      * apply Hp. destruct (HRc r Hr) as [?%not_elem_of_nil|?]; done.
      * eapply reach_ext; [|exact Hrx]. done.
    + intros (r & Hr & Hrc & Hrx). eapply (reach_closed c (λ x, x ∈ P)); [| |exact Hrx].
      * intros y z Hy Hz. eapply marking_closed; [apply (md_marking _ _ _ _ Hmd)|exact Hy|by rewrite Hch].
      * apply Hpurple; [by rewrite Hro|]. by apply Hp.
Qed.

(** The live objects among those that were visited. *)
Lemma live_held ext s1 s2 R P x :
  counted ext h → same_heap (v_objects s1) h → marked (v_objects s1) R P s2 → (∀ x, x ∈ P ↔ candidate s x) →
  live s2 P x ↔ held_from_outside ext s x.
Proof.
  intros Hext Hsame Hmd HP. pose proof (md_marking _ _ _ _ Hmd) as Hm.
  assert (Hsame2 : same_heap (v_objects s2) h) by (etransitivity; [apply (mk_same _ _ _ _ _ _ Hm)|exact Hsame]).
  assert (Hch1 : ∀ x, children (v_objects s1) x = c x) by (intros y; by apply same_heap_children).
  assert (Hch2 : ∀ x, children (v_objects s2) x = c x) by (intros y; by apply same_heap_children).
  assert (Hheld : ∀ z, z ∈ P → held s2 z ↔
    (0 < ext z)%nat ∨ ∃ y, is_Some (h !! y) ∧ ¬ candidate s y ∧ z ∈ c y).
  { intros z Hz. destruct (mk_in _ _ _ _ _ _ Hm z Hz) as [o1 Ho1].
    destruct (same_heap_lookup _ _ _ _ Hsame Ho1) as (o & Ho & _). symmetry in Hsame2.
    destruct (same_heap_lookup _ _ _ _ Hsame2 Ho) as (o2 & Ho2 & Hsk). injection Hsk as Hc _ _ _.
    destruct (mk_gray _ _ _ _ _ _ Hm z o2 Ho2 Hz) as [_ Hcy].
    transitivity (v_count o - Z.of_nat (refs c P z) > 0).
    - unfold held. rewrite (refs_ext c (children (v_objects s1))), <- Hc, <- Hcy by done. split.
      + by intros (o' & ? & ?); simplify_eq.
      + by exists o2.
    - rewrite (left_over ext); [|apply (rd_heap s Hs)|done|apply (mk_nodup _ _ _ _ _ _ Hm)| |done].
      + apply or_iff_compat_l. split; intros (y & Hy & HyP & Hzy); exists y; split_and!; try done; by rewrite HP in *.
      + intros y Hy. apply (same_heap_is_Some _ _ _ Hsame), (mk_in _ _ _ _ _ _ Hm y Hy). }
  split; intros (z & Hz & H1 & H2).
  - exists z. split_and!; [by apply HP| |by apply Hheld]. by eapply reach_ext.
  - exists z. apply HP in Hz. split_and!; [done|by apply Hheld|]. eapply reach_ext; [|exact H1]. done.
Qed.

Lemma scan_phase ext s1 s2 R P :
  counted ext h → frame s1 s → rest_of s2 = rest_of (set_roots R s1) →
  marked (v_objects s1) R P s2 → (∀ x, x ∈ P ↔ candidate s x) →
  ∃ s3, each f_scan_gray R s2 = Ok s3 ∧ frame s3 s2 ∧ v_scan_stack s3 = [] ∧
    (∀ x, x ∉ P → color s3 x = color s1 x) ∧
    (∀ x, x ∈ P → (color s3 x = Some c_color__BLACK ∧ held_from_outside ext s x) ∨
                  (color s3 x = Some c_color__WHITE ∧ ¬ held_from_outside ext s x)).
Proof.
  intros Hext Hf Hrest Hmd HP. pose proof (md_marking _ _ _ _ Hmd) as Hm. pose proof (frame_same_heap _ _ Hf) as Hsame.
  assert (Hsame2 : same_heap (v_objects s2) h) by (etransitivity; [apply (mk_same _ _ _ _ _ _ Hm)|exact Hsame]).
  assert (Hch12 : ∀ x, children (v_objects s2) x = children (v_objects s1) x)
    by (intros y; apply same_heap_children, (mk_same _ _ _ _ _ _ Hm)).
  assert (Hh2 : consistent (v_objects s2)) by (eapply consistent_same; [symmetry; exact Hsame2|apply (rd_heap s Hs)]).
  assert (Hobj : ∀ x, x ∈ P → ∃ o, v_objects s2 !! x = Some o ∧ is_Some (v_type o)).
  { intros x Hx. pose proof (mk_in _ _ _ _ _ _ Hm x Hx) as Hin.
    apply (same_heap_is_Some _ _ _ (mk_same _ _ _ _ _ _ Hm)) in Hin as [o Ho]. exists o. split; [done|].
    by apply (cs_type _ Hh2 x). }
  assert (Hclosed : ∀ x y, x ∈ P → y ∈ children (v_objects s2) x → y ∈ P).
  { intros x y Hx Hy. rewrite Hch12 in Hy. by eapply marking_closed. }
  assert (Hgray : ∀ x, x ∈ P → color s2 x = Some c_color__GRAY).
  { intros x Hx. destruct (Hobj x Hx) as (o & Ho & _). unfold color. rewrite Ho. cbn. f_equal.
    by apply (mk_gray _ _ _ _ _ _ Hm x o). }
  destruct (scan_roots_ok s2 P (mk_nodup _ _ _ _ _ _ Hm) Hobj Hclosed R) as (s3 & Hs3 & Hsc & Hst3 & Hdich).
  - apply (md_roots _ _ _ _ Hmd).
  - intros x Hx. destruct (mk_from _ _ _ _ _ _ Hm x Hx) as (r & Hr & Hrx). exists r. split; [done|].
    eapply reach_ext; [|exact Hrx]. done.
  - pose proof (md_stack _ _ _ _ Hmd) as Hst. split; try done; try (intros x Hx; rewrite (Hgray x Hx); try done).
    + by left.
    + by intros [?|?].
    + intros x y Hx. by rewrite (Hgray x Hx).
    + intros x y Hx. by rewrite (Hgray x Hx).
    + intros x Hx. rewrite Hst in Hx. by apply not_elem_of_nil in Hx.
    + rewrite Hst. by apply NoDup_nil.
  - apply (md_stack _ _ _ _ Hmd).
  - exists s3. split_and!; [done|apply (sc_frame _ _ _ _ Hsc)|done| |].
    + intros x Hx. rewrite (sc_plain _ _ _ _ Hsc x Hx). unfold color. by apply (mk_plain _ _ _ _ _ _ Hm).
    + intros x Hx. rewrite <- (live_held ext s1 s2 R P x); auto.
Qed.
Lemma held_step ext x y : held_from_outside ext s x → y ∈ c x → held_from_outside ext s y.
Proof. intros (z & Hz & Hr & H) Hy. exists z. split_and!; [done|by eapply reach_step|done]. Qed.

Lemma candidate_step x y : candidate s x → y ∈ c x → candidate s y.
Proof. intros (r & Hr & Hc & Hrx) Hy. exists r. split_and!; [done|done|by eapply reach_step]. Qed.

Lemma collect_phase ext s1 s2 s3 R P :
  frame s1 s → v_scan_stack s1 = [] → (∀ r, r ∈ R → r ∈ v_roots s) →
  rest_of s2 = rest_of (set_roots R s1) → v_roots s2 = R →
  marked (v_objects s1) R P s2 → (∀ x, x ∈ P ↔ candidate s x) →
  frame s3 s2 → v_scan_stack s3 = [] →
  (∀ x, x ∈ P → (color s3 x = Some c_color__BLACK ∧ held_from_outside ext s x) ∨
                (color s3 x = Some c_color__WHITE ∧ ¬ held_from_outside ext s x)) →
  ∃ s' Cs, collect_roots R s3 = Ok s' ∧ collected s3 P Cs R [] s' ∧
    (∀ x, x ∈ concat Cs ↔ candidate s x ∧ ¬ held_from_outside ext s x).
Proof.
  intros Hf Hst1 HRs Hrest Hro Hmd HP Hf3 Hst3 Hdich.
  pose proof (md_marking _ _ _ _ Hmd) as Hm. pose proof (frame_same_heap _ _ Hf) as Hsame.
  assert (Hsame3 : same_heap (v_objects s3) (v_objects s1)).
  { etransitivity; [by apply frame_same_heap|apply (mk_same _ _ _ _ _ _ Hm)]. }
  assert (Hsame3' : same_heap (v_objects s3) h) by (by etransitivity).
  assert (Hh3 : consistent (v_objects s3)) by (eapply consistent_same; [symmetry; exact Hsame3'|apply (rd_heap s Hs)]).
  assert (Hch : ∀ x, children (v_objects s3) x = c x) by (intros y; by apply same_heap_children).
  assert (Hobj : ∀ x, x ∈ P → ∃ o, v_objects s3 !! x = Some o).
  { intros x Hx. apply (same_heap_is_Some _ _ _ Hsame3), (mk_in _ _ _ _ _ _ Hm x Hx). }
  destruct (collect_roots_ok s3 P R) with (s := s3) as (s' & Cs & Hs' & Hcd).
  - intros x Hx. destruct (Hobj x Hx) as [o Ho]. exists o. split_and!; [done|by apply (cs_type _ Hh3 x)|by apply (cs_count _ Hh3 x)..].
  - intros x y. rewrite !HP, Hch. apply candidate_step.
  - intros x Hx. destruct (Hdich x Hx) as [[? _]|[? _]]; auto.
  - eapply ordered_ext; [symmetry; exact Hsame3|]. apply (md_ordered _ _ _ _ Hmd).
  - apply (md_nodup _ _ _ _ Hmd).
  - apply (md_roots _ _ _ _ Hmd).
  - done.
  - destruct Hf3 as [_ Hr3]. destruct Hf as [_ Hr1]. pose proof (rd_cycles s Hs).
    unfold rest_of in *. cbn in *. congruence.
  - destruct Hf3 as [_ Hr3]. unfold rest_of in *. cbn in *. congruence.
  - intros x. transitivity (v_link <$> v_objects s2 !! x).
    + destruct Hf3 as [Hd _]. assert (E : drawing <$> v_objects s3 !! x = drawing <$> v_objects s2 !! x)
        by (by rewrite <- !lookup_fmap, Hd).
      destruct (v_objects s3 !! x) as [o3|], (v_objects s2 !! x) as [o2|]; cbn in *; unfold drawing in *; congruence.
    + rewrite (mk_link _ _ _ _ _ _ Hm x). unfold link_in. case_decide; [done|].
      destruct (v_objects s1 !! x) as [o|] eqn:Ho.
      * symmetry in Hsame3. destruct (same_heap_lookup _ _ _ _ Hsame3 Ho) as (o3 & -> & _). done.
      * destruct (v_objects s3 !! x) as [o3|] eqn:Ho3; [|done].
        destruct (same_heap_lookup _ _ _ _ Hsame3 Ho3) as (? & ? & _). congruence.
  - done.
  - exists s', Cs. split_and!; [done|done|]. intros x. split.
    + intros Hx. destruct (cd_white _ _ _ _ _ _ Hcd x Hx) as [[HxP Hw] _]. split; [by apply HP|].
      destruct (Hdich x HxP) as [[? _]|[_ ?]]; [congruence|done].
    + intros [Hx Hn]. assert (HxP : x ∈ P) by (by apply HP).
      destruct (mk_from _ _ _ _ _ _ Hm x HxP) as (r & Hr & Hrx).
      assert (Hw : ∀ y, y ∈ P → ¬ held_from_outside ext s y → whitened s3 P y).
      { intros y Hy Hny. split; [done|]. destruct (Hdich y Hy) as [[_ ?]|[? _]]; [done|done]. }
      assert (Hrx' : reach c r x) by (eapply reach_ext; [|exact Hrx]; intros y; by apply same_heap_children).
      cut (¬ held_from_outside ext s x → x ∈ concat Cs); [auto|].
      eapply (reach_closed c (λ x, x ∈ P ∧ (¬ held_from_outside ext s x → x ∈ concat Cs))); [| |exact Hrx'].
      * intros y z [HyP Hy] Hz. assert (HzP : z ∈ P) by (rewrite HP in *; by eapply candidate_step).
        split; [done|]. intros Hnz. eapply (layered_closed s3 P); [apply (cd_layered _ _ _ _ _ _ Hcd)| |by rewrite Hch|by apply Hw].
        apply Hy. intros Hhy. apply Hnz. by eapply held_step.
      * assert (HrP : r ∈ P) by (by apply (md_roots _ _ _ _ Hmd)). split; [done|]. intros Hnr.
        apply (cd_done _ _ _ _ _ _ Hcd r Hr). by apply Hw.
Qed.

Lemma find_cycles_ok ext :
  counted ext h →
  ∃ s', find_cycles s = Ok s' ∧ searched s s' ∧
    (∀ x, x ∈ concat (v_cycles s') ↔ candidate s x ∧ ¬ held_from_outside ext s x) ∧
    (∀ x, candidate s x → x ∈ concat (v_cycles s') ∨ held_from_outside ext s x).
Proof.
  intros Hext. unfold find_cycles.
  destruct prescan_phase as (s1 & -> & Hf1 & Hst1 & Hc1 & Hset1 & Hroots1). cbn [mbind outcome_bind].
  destruct (mark_phase s1 Hf1 Hst1 Hc1 Hset1 Hroots1) as (s2 & R & P & -> & HR & Hrest & Hmd & HRs & HP). cbn [mbind outcome_bind].
  destruct (scan_phase ext s1 s2 R P Hext Hf1 Hrest Hmd HP) as (s3 & Hs3 & Hf3 & Hst3 & Hc3 & Hdich).
  rewrite HR, Hs3. cbn [mbind outcome_bind].
  destruct (collect_phase ext s1 s2 s3 R P Hf1 Hst1 HRs Hrest HR Hmd HP Hf3 Hst3 Hdich) as (s' & Cs & Hs' & Hcd & Hconcat).
  assert (Hro3 : v_roots s3 = R) by (destruct Hf3 as [_ Hr3]; unfold rest_of in Hr3; cbn in Hr3; congruence).
  rewrite Hro3, Hs'. exists s'. pose proof (cd_cycles _ _ _ _ _ _ Hcd) as Hcy. rewrite Hcy. split; [done|].
  split; [|split; [done|]].
  2: { intros x Hx. destruct (Hdich x) as [[_ ?]|[_ Hn]]; [by apply HP|by right|]. left. by apply Hconcat. }
  pose proof (md_marking _ _ _ _ Hmd) as Hm. pose proof (frame_same_heap _ _ Hf1) as Hsame1.
  assert (Hsame3 : same_heap (v_objects s3) h).
  { etransitivity; [by apply frame_same_heap|]. etransitivity; [apply (mk_same _ _ _ _ _ _ Hm)|done]. }
  assert (Hch : ∀ x, children (v_objects s3) x = c x) by (intros y; by apply same_heap_children).
  assert (HoutP : ∀ x, x ∉ concat Cs → (x ∉ P) ∧ color s' x = color s1 x ∨ x ∈ P ∧ color s' x = Some c_color__BLACK).
  { intros x Hx. rewrite (cd_out _ _ _ _ _ _ Hcd x Hx). destruct (decide (x ∈ P)) as [HxP|HxP]; [right|left].
    - split; [done|]. destruct (Hdich x HxP) as [[? _]|[_ Hn]]; [done|]. destruct Hx. apply Hconcat. split; [by apply HP|done].
    - split; [done|by apply Hc3]. }
  destruct Hcd as [Hsame Hout Hin Hlk Hw Hnd Hsome Hlay Hdone Hst _ [Hro [Hre Hco]]].
  split; rewrite ?Hcy; try done.
  - by etransitivity.
  - intros C x o HC Hx Ho. destruct (Hin C x o HC Hx Ho) as [? Hcyc]. split; [done|]. by rewrite (refs_ext c (children (v_objects s3))).
  - intros x. rewrite Hlk. case_decide; [done|]. unfold link_in. rewrite decide_False by (apply not_elem_of_nil).
    destruct (v_objects s3 !! x) as [o3|] eqn:Ho3.
    + destruct (same_heap_lookup _ _ _ _ Hsame3 Ho3) as (? & -> & _). done.
    + destruct (h !! x) as [o|] eqn:Ho; [|done]. symmetry in Hsame3.
      destruct (same_heap_lookup _ _ _ _ Hsame3 Ho) as (? & ? & _). congruence.
  - eapply layered_ext; [exact Hch| |exact Hlay]. intros x Hx. by apply Hw.
  - intros x Hx. destruct (HoutP x Hx) as [[_ ->]|[_ ->]]; [|by right].
    destruct (Hc1 x) as [?|[_ ?]]; [by left|by right].
  - intros x Hcx Hx. destruct (HoutP x Hx) as [[HxP _]|[_ ?]]; [|done]. destruct HxP. by apply HP.
  - intros x y Hx Hsx Hy.
    assert (Hsy : y ∉ concat Cs → settled (color s1 y) → settled (color s' y)).
    { intros Hy' Hsy. destruct (HoutP y Hy') as [[_ ->]|[_ ->]]; [done|by left]. }
    assert (Hny : y ∉ concat Cs).
    { intros [Hcy' Hny]%Hconcat. apply Hny. destruct (HoutP x Hx) as [[HxP _]|[HxP Hb]].
      - exists y. split_and!; [done|reflexivity|]. right. exists x. split_and!; [|by rewrite <- HP|done].
        unfold children in Hy. destruct (h !! x); [by eexists|by apply not_elem_of_nil in Hy].
      - destruct (Hdich x HxP) as [[_ Hh]|[_ Hn]]; [by eapply held_step|].
        destruct Hx. apply Hconcat. split; [by apply HP|done]. }
    destruct (HoutP x Hx) as [[HxP Hc]|[HxP Hb]].
    + apply (Hsy Hny). apply (Hset1 x); [by rewrite <- Hc|done].
    + assert (HyP : y ∈ P) by (rewrite HP in *; by eapply candidate_step).
      destruct (HoutP y Hny) as [[? _]|[_ ->]]; [done|by left].
  - destruct Hf3 as [_ Hr3]. destruct Hf1 as [_ Hr1]. unfold rest_of in *. cbn in *. split_and!; congruence.
Qed.
End Search.
