(* ===== verification/CollectorFree.v ===== *)
(** * Freeing the cycles

    The cycles that were found are freed from the last one on: an object that
    only later cycles refer to from outside of its own is not referred to any
    more when its turn comes. *)
From stdpp Require Import base list numbers strings gmap.
From S2P Require Import Prelude Machine Collector CollectorGraph CollectorMark CollectorScan CollectorCycles CollectorFind.
Local Open Scope Z_scope.

Section Free.
(** The state after the search, with the garbage in cycles. *)
Context (s0 : t_engine) (ext : t_address → nat).
Abbreviation h := (v_objects s0).
Abbreviation c := (children h).
Abbreviation G := (concat (v_cycles s0)).

Record doomed : Prop := {
  dm_heap : consistent h;
  dm_counted : counted ext h;
  dm_only x y : x ∈ G → x ∈ c y → is_Some (h !! y) → y ∈ G;
  dm_ext x : x ∈ G → ext x = 0%nat;
  dm_kept x y : x ∈ G → y ∈ c x → y ∉ G →
    settled (color s0 y) ∧ ((0 < ext y)%nat ∨ ∃ z, is_Some (h !! z) ∧ (z ∉ G) ∧ y ∈ c z);
  dm_cycle C x : C ∈ v_cycles s0 → x ∈ C → ∃ o, h !! x = Some o ∧ v_color o = c_color__ORANGE ∧
    v_cyclic o = v_count o - Z.of_nat (refs c C x) ∧ v_reviving o = false;
  dm_link x o : x ∉ G → h !! x = Some o → v_link o = Unlinked;
  dm_layered : layered c (λ x, x ∈ G) (v_cycles s0);
  dm_nodup : NoDup G;
  dm_some C : C ∈ v_cycles s0 → C ≠ [];
  dm_roots : v_roots s0 = [];
  dm_stack : v_scan_stack s0 = []
}.
Hypothesis Hd : doomed.

Lemma in_cycle C x : C ∈ v_cycles s0 → x ∈ C → x ∈ G.
Proof. intros HC Hx. apply list_elem_of_In, in_concat. exists C. split; by apply list_elem_of_In. Qed.

Lemma garbage_cycle x : x ∈ G → ∃ C, C ∈ v_cycles s0 ∧ x ∈ C.
Proof.
  intros Hx. apply list_elem_of_In, in_concat in Hx as (C & HC & Hx). exists C. split; by apply list_elem_of_In.
Qed.

Lemma garbage_object x : x ∈ G → ∃ o, h !! x = Some o ∧ v_color o = c_color__ORANGE ∧ v_reviving o = false.
Proof.
  intros Hx. destruct (garbage_cycle x Hx) as (C & HC & HxC).
  destruct (dm_cycle Hd C x HC HxC) as (o & Ho & Hc & _ & Hr). by exists o.
Qed.

Lemma garbage_refs Q y : Q ≡ₚ G → (refs c Q y <= refs c (addresses h) y)%nat.
Proof.
  intros HQ. rewrite (refs_perm c Q G y HQ). apply refs_le; [apply (dm_nodup Hd)|apply addresses_nodup|].
  intros x Hx. apply addresses_in. destruct (garbage_object x Hx) as (o & -> & _). by eexists.
Qed.

(** Garbage is referred to by garbage only. *)
Lemma garbage_count x o : x ∈ G → h !! x = Some o → v_count o = Z.of_nat (refs c G x).
Proof.
  intros Hx Ho. rewrite (dm_counted Hd x o Ho), (dm_ext Hd x Hx).
  rewrite (refs_split c G (addresses h) x (dm_nodup Hd) (addresses_nodup h)).
  - cut (refs c (filter (λ y, y ∉ G) (addresses h)) x = 0%nat); [lia|].
    destruct (refs c (filter _ _) x) eqn:E; [done|].
    destruct (refs_pos c (filter (λ y, y ∉ G) (addresses h)) x) as (y & Hy & Hxy); [lia|].
    apply list_elem_of_filter in Hy as [Hy Hin]. apply addresses_in in Hin.
    destruct Hy. by apply (dm_only Hd x y).
  - intros y Hy. apply addresses_in. destruct (garbage_object y Hy) as (oy & -> & _). by eexists.
Qed.

(** What is kept has one reference more than those of the garbage. *)
Lemma kept_count x y o :
  x ∈ G → y ∈ c x → y ∉ G → h !! y = Some o → Z.of_nat (refs c G y) < v_count o < SIZE_MODULUS.
Proof.
  intros Hx Hy HyG Ho. pose proof (cs_count h (dm_heap Hd) y o Ho) as Hb. split; [|lia].
  rewrite (dm_counted Hd y o Ho).
  rewrite (refs_split c G (addresses h) y (dm_nodup Hd) (addresses_nodup h)).
  - destruct (dm_kept Hd x y Hx Hy HyG) as [_ [He|(z & Hz & HzG & Hyz)]]; [lia|].
    pose proof (refs_in c (filter (λ y, y ∉ G) (addresses h)) z y) as Hin.
    rewrite list_elem_of_filter, addresses_in in Hin. specialize (Hin (conj HzG Hz) Hyz). lia.
  - intros z Hz. apply addresses_in. destruct (garbage_object z Hz) as (oz & -> & _). by eexists.
Qed.

(** [F] was freed, [Cs] are the cycles left, and [n x] references to [x] were
    dropped. *)
Record freeing (F : list t_address) (Cs : list (list t_address)) (n : t_address → nat) (s : t_engine) : Prop := {
  fr_freed x : x ∈ F ∨ h !! x = None → v_objects s !! x = None;
  fr_cycle x o : x ∈ concat Cs → h !! x = Some o →
    v_objects s !! x = Some (with_cyclic (v_cyclic o - Z.of_nat (n x)) (with_count (v_count o - Z.of_nat (n x)) o));
  fr_out x o0 : x ∉ G → h !! x = Some o0 → ∃ o, v_objects s !! x = Some o ∧
    v_count o = v_count o0 - Z.of_nat (n x) ∧ v_type o = v_type o0 ∧ v_slots o = v_slots o0 ∧ v_reviving o = v_reviving o0 ∧
    v_color o = (if decide (n x = 0%nat) then v_color o0 else c_color__PURPLE) ∧
    v_link o = (if decide (n x = 0%nat) then Unlinked else Root);
  fr_roots : NoDup (v_roots s) ∧ ∀ x, x ∈ v_roots s ↔ (x ∉ G) ∧ is_Some (h !! x) ∧ n x ≠ 0%nat;
  fr_stack : v_scan_stack s = [];
  fr_cycles : v_cycles s = Cs;
  fr_counts : v_object__release s = v_object__release s0 ∧
    v_object__collect s = (v_object__collect s0 + length F)%nat
}.

Lemma freeing_ext F Cs n n' s : (∀ x, n x = n' x) → freeing F Cs n s → freeing F Cs n' s.
Proof.
  intros Hn [H1 H2 H3 [H4 H4'] H5 H6 H7]. split; try done.
  - intros x o Hx Ho. rewrite <- Hn. by apply H2.
  - intros x o Hx Ho. rewrite <- Hn. by apply H3.
  - split; [done|]. intros x. by rewrite <- Hn.
Qed.

(** ** Checking a cycle *)

Lemma check_cycle_ok l s :
  (∀ x, x ∈ l → ∃ o, v_objects s !! x = Some o ∧ is_Some (v_type o) ∧ v_color o = c_color__ORANGE ∧
     v_cyclic o <= 0 ∧ v_reviving o = false) →
  check_cycle l s = Ok (l, false, s).
Proof.
  induction l as [|q l IH]; intros Hl; [done|]. cbn [check_cycle].
  destruct (Hl q) as (o & Ho & [t Ht] & Hc & Hcy & Hr); [by left|].
  rewrite (get_ok _ _ _ Ho). cbn [mbind outcome_bind]. rewrite Ht, (update_ok _ _ _ _ Ho). cbn [mbind outcome_bind].
  assert (Hsame : set_objects (<[q := with_reviving false o]> (v_objects s)) s = s).
  { assert (E : with_reviving false o = o) by (destruct o; cbn in *; by subst). rewrite E, insert_id by done. by destruct s. }
  rewrite Hsame, IH by (intros x Hx; apply Hl; by right). cbn.
  rewrite bool_decide_eq_false_2; [done|]. intros [?|[?|?]]; [done|lia|congruence].
Qed.

Lemma match_cons {A B} (C : list A) (z : B) (f : list A → B) :
  C ≠ [] → match C with [] => z | p :: l => f (p :: l) end = f C.
Proof. by destruct C. Qed.

Lemma rotate_back (C : list t_address) : C ≠ [] → rotate (drop 1 C ++ take 1 C) = C.
Proof.
  destruct C as [|p C]; [done|]. intros _. cbn. unfold rotate. rewrite take_0, last_snoc.
  rewrite removelast_last. done.
Qed.

(** The head of the cycles is not referred to from the ones that are left. *)
Lemma head_count F C Cs x o :
  F ++ C ++ concat Cs ≡ₚ G → layered c (λ x, x ∈ G) (C :: Cs) → x ∈ C → h !! x = Some o →
  v_count o = Z.of_nat (refs c F x) + Z.of_nat (refs c C x).
Proof.
  intros HG [_ Hlay] Hx Ho.
  assert (Hnd : NoDup (F ++ C ++ concat Cs)) by (rewrite HG; apply (dm_nodup Hd)).
  assert (HxG : x ∈ G) by (rewrite <- HG; rewrite !elem_of_app; auto).
  rewrite (garbage_count x o HxG Ho), <- (refs_perm c _ _ x HG), !refs_app.
  cut (refs c (concat Cs) x = 0%nat); [lia|].
  destruct (refs c (concat Cs) x) eqn:E; [done|]. destruct (refs_pos c (concat Cs) x) as (y & Hy & Hxy); [lia|].
  apply NoDup_app in Hnd as (_ & _ & (_ & Hdis & _)%NoDup_app). destruct (Hdis x Hx).
  destruct Cs as [|C' Cs']; [done|]. cbn in Hlay. by apply (proj1 Hlay y x).
Qed.

(** ** Freeing a cycle *)

Section Cycle.
Context (F C : list t_address) (Cs : list (list t_address)).
Hypothesis HG : F ++ C ++ concat Cs ≡ₚ G.
Hypothesis Hlay : layered c (λ x, x ∈ G) (C :: Cs).

(** The objects of [C] are red, and those of [D] have no type any more. *)
Record opened (D : list t_address) (n : t_address → nat) (s : t_engine) : Prop := {
  op_freeing : freeing F Cs n s;
  op_red x o0 : x ∈ C → h !! x = Some o0 → ∃ o, v_objects s !! x = Some o ∧ v_color o = c_color__RED ∧
    v_slots o = v_slots o0 ∧ v_type o = if decide (x ∈ D) then None else v_type o0
}.

Lemma parts_disjoint x :
  (x ∈ F → x ∈ C → False) ∧ (x ∈ F → x ∈ concat Cs → False) ∧ (x ∈ C → x ∈ concat Cs → False).
Proof.
  assert (Hnd : NoDup (F ++ C ++ concat Cs)) by (rewrite HG; apply (dm_nodup Hd)).
  apply NoDup_app in Hnd as (_ & H1 & (_ & H2 & _)%NoDup_app). split_and!.
  - intros HF HC. apply (H1 x HF). apply elem_of_app. by left.
  - intros HF HC. apply (H1 x HF). apply elem_of_app. by right.
  - apply H2.
Qed.

Lemma part_in x : x ∈ F ∨ x ∈ C ∨ x ∈ concat Cs ↔ x ∈ G.
Proof. rewrite <- HG, !elem_of_app. done. Qed.

Lemma update_orange n s y o :
  freeing F Cs n s → y ∈ concat Cs → h !! y = Some o → (n y < refs c G y)%nat →
  ∃ s', update (λ o, with_cyclic (v_cyclic o - 1) (with_count (v_count o - 1) o)) y s = Ok s' ∧
    freeing F Cs (λ z, (n z + occ z [y])%nat) s' ∧ (∀ x, x ≠ y → v_objects s' !! x = v_objects s !! x).
Proof.
  intros Hf Hy Ho Hlt. assert (HyG : y ∈ G) by (apply part_in; auto).
  pose proof (garbage_count y o HyG Ho) as Hc. pose proof (cs_count h (dm_heap Hd) y o Ho) as Hb.
  pose proof (fr_cycle _ _ _ _ Hf y o Hy Ho) as Hos. rewrite (update_ok _ _ _ _ Hos). eexists. split; [done|].
  assert (Hne : ∀ x, x ≠ y → (n x + occ x [y])%nat = n x) by (intros x Hx; cbn; rewrite decide_False by congruence; lia).
  assert (Hyn : ∀ x, x ∉ G → x ≠ y) by (intros x Hx ->; done).
  destruct Hf as [H1 H2 H3 [H4 H4'] H5 H6 H7].
  split; [split; cbn [v_objects v_scan_stack v_cycles v_roots v_object__release v_object__collect set_objects]; try done|].
  - intros x Hx. rewrite lookup_insert_ne; [by apply H1|]. intros <-. destruct Hx as [Hx|Hx]; [|congruence].
    by apply (proj1 (proj2 (parts_disjoint y)) Hx).
  - intros x ox Hx Hox. destruct (decide (x = y)) as [-> |Hxy].
    + simplify_eq. rewrite lookup_insert_eq. f_equal. unfold with_cyclic, with_count; cbn [v_count v_cyclic v_color v_reviving v_type v_slots v_link occ].
      rewrite decide_True by done. unfold to_size. f_equal.
      * rewrite (Z.mod_small (v_count o - Z.of_nat (n y))) by (unfold SIZE_MODULUS in *; lia). f_equal. lia.
      * rewrite Zminus_mod_idemp_l. f_equal. lia.
    + rewrite lookup_insert_ne, Hne by done. by apply H2.
  - intros x ox Hx Hox. rewrite lookup_insert_ne by (apply not_eq_sym; by apply Hyn). rewrite Hne by (by apply Hyn). by apply H3.
  - split; [done|]. intros x. rewrite H4'. split; intros (Hx & Hi & Hnx); split_and!; try done.
    + by rewrite Hne by (by apply Hyn).
    + by rewrite Hne in Hnx by (by apply Hyn).
  - intros x Hx. cbn. by rewrite lookup_insert_ne.
Qed.

Lemma decrement_kept n s x y o0 :
  freeing F Cs n s → x ∈ G → y ∈ c x → y ∉ G → h !! y = Some o0 → (n y < refs c G y)%nat →
  ∃ s', f_cyclic_decrement_push y s = Ok s' ∧
    freeing F Cs (λ z, (n z + occ z [y])%nat) s' ∧ (∀ z, z ≠ y → v_objects s' !! z = v_objects s !! z).
Proof.
  intros Hf Hx Hy HyG Ho0 Hlt. pose proof (kept_count x y o0 Hx Hy HyG Ho0) as Hc.
  destruct (dm_kept Hd x y Hx Hy HyG) as [Hset _].
  destruct (fr_out _ _ _ _ Hf y o0 HyG Ho0) as (o & Ho & Hco & Hty & Hsl & Hrv & Hcol & Hlk).
  assert (Hne : ∀ x, x ≠ y → (n x + occ x [y])%nat = n x) by (intros z Hz; cbn; rewrite decide_False by congruence; lia).
  assert (Hyeq : (n y + occ y [y])%nat = S (n y)) by (cbn; rewrite decide_True by done; lia).
  assert (Hpush : f_cyclic_decrement_push y s = f_decrement y s).
  { unfold f_cyclic_decrement_push. rewrite (get_ok _ _ _ Ho). cbn [mbind outcome_bind].
    destruct (v_color o) eqn:E; try done; exfalso; case_decide; try congruence; unfold settled, color in Hset;
      rewrite Ho0 in Hset; cbn in Hset; destruct Hset; congruence. }
  rewrite Hpush. unfold f_decrement, decrement. rewrite (get_ok _ _ _ Ho). cbn [mbind outcome_bind].
  rewrite decide_True by lia. rewrite (update_ok _ _ _ _ Ho). cbn [mbind outcome_bind].
  rewrite decide_True by lia.
  set (o1 := with_count (v_count o - 1) o). set (s1 := set_objects (<[y := o1]> (v_objects s)) s).
  assert (Ho1 : v_objects s1 !! y = Some o1) by (cbn; apply lookup_insert_eq).
  rewrite (update_ok _ _ _ _ Ho1). cbn [mbind outcome_bind]. set (o2 := with_color c_color__PURPLE o1).
  set (s2 := set_objects (<[y := o2]> (v_objects s1)) s1).
  assert (Ho2 : v_objects s2 !! y = Some o2) by (cbn; apply lookup_insert_eq).
  assert (Happ : append_unlinked y s2 = Ok (set_objects (<[y := with_link Root o2]> (v_objects s))
    (if decide (n y = 0%nat) then set_roots (v_roots s ++ [y]) s else s))).
  { unfold append_unlinked. rewrite (get_ok _ _ _ Ho2). cbn [mbind outcome_bind]. cbn [o2 o1 v_link with_color with_count].
    rewrite Hlk. destruct (decide (n y = 0%nat)).
    - rewrite decide_True by done. unfold f_append. rewrite (update_ok _ _ _ _ Ho2). cbn [mbind outcome_bind].
      unfold s2, s1. cbn. by rewrite !insert_insert_eq.
    - rewrite decide_False by done. unfold s2, s1. cbn. rewrite !insert_insert_eq.
      assert (E : with_link Root o2 = o2) by (unfold o2, o1, with_link, with_color, with_count; cbn; f_equal; congruence).
      by rewrite E. }
  rewrite Happ. eexists. split; [done|].
  assert (Hsz : to_size (v_count o - 1) = v_count o - 1) by (apply to_size_id; lia).
  set (s' := set_objects _ _).
  assert (Hobj : ∀ z, v_objects s' !! z = if decide (z = y) then Some (with_link Root o2) else v_objects s !! z).
  { intros z. unfold s'. cbn [v_objects set_objects].
    destruct (decide (z = y)); [subst; apply lookup_insert_eq|by apply lookup_insert_ne]. }
  assert (Hroots : v_roots s' = if decide (n y = 0%nat) then v_roots s ++ [y] else v_roots s)
    by (unfold s'; cbn; by destruct (decide (n y = 0%nat))).
  assert (Hrest : v_scan_stack s' = v_scan_stack s ∧ v_cycles s' = v_cycles s ∧
    v_object__release s' = v_object__release s ∧ v_object__collect s' = v_object__collect s)
    by (unfold s'; cbn; by destruct (decide (n y = 0%nat))).
  destruct Hrest as (Hr1 & Hr2 & Hr3 & Hr4). destruct Hf as [H1 H2 H3 [H4 H4'] H5 H6 H7].
  clear Happ Hpush. clearbody s'. split; [split; rewrite ?Hr1, ?Hr2, ?Hr3, ?Hr4; try done|].
  - intros z Hz. rewrite Hobj, decide_False; [by apply H1|]. intros ->. destruct Hz as [Hz|]; [|congruence].
    apply HyG. apply part_in. by left.
  - intros z oz Hz Hoz. assert (Hzy : z ≠ y) by (intros ->; apply HyG, part_in; auto).
    rewrite Hobj, decide_False, Hne by done. by apply H2.
  - intros z oz Hz Hoz. rewrite Hobj. destruct (decide (z = y)) as [-> |Hzy]; [|rewrite Hne by done; by apply H3].
    simplify_eq. eexists. split; [done|]. rewrite Hyeq. cbn. rewrite Hsz. split_and!; try done; lia.
  - rewrite Hroots. split.
    + destruct (decide (n y = 0%nat)) as [Hn|Hn]; [|done]. apply NoDup_app. split_and!; [done| |apply NoDup_singleton].
      intros z Hz ->%list_elem_of_singleton. by apply H4' in Hz as (_ & _ & ?).
    + intros z. assert (Hz : z ∈ (if decide (n y = 0%nat) then v_roots s ++ [y] else v_roots s) ↔ z ∈ v_roots s ∨ z = y ∧ n y = 0%nat).
      { destruct (decide (n y = 0%nat)); [rewrite elem_of_app, list_elem_of_singleton|]; tauto. }
      rewrite Hz, H4'. destruct (decide (z = y)) as [-> |Hzy].
      * rewrite Hyeq. split; [intros _; split_and!; [done|by eexists|done]|]. intros _.
        destruct (decide (n y = 0%nat)); [by right|left]. split_and!; [done|by eexists|done].
      * rewrite Hne by done. tauto.
  - intros z Hz. by rewrite Hobj, decide_False.
Qed.

Lemma cyclic_decrement_push_ok D n s x y :
  opened D n s → x ∈ C → y ∈ c x → (n y < refs c G y)%nat →
  ∃ s', f_cyclic_decrement_push y s = Ok s' ∧ opened D (λ z, (n z + occ z [y])%nat) s'.
Proof.
  intros [Hf Hr] Hx Hy Hlt. assert (HxG : x ∈ G) by (apply part_in; auto).
  destruct (children_closed h x y (dm_heap Hd) Hy) as [o0 Ho0].
  assert (Hcy : y ∈ G → y ∈ C ++ concat Cs).
  { intros HyG. apply (proj1 Hlay x); [apply elem_of_app; by left|done|done]. }
  destruct (decide (y ∈ G)) as [HyG|HyG].
  - destruct (decide (y ∈ C)) as [HyC|HyC].
    + destruct (Hr y o0 HyC Ho0) as (o & Ho & Hc & _). exists s. split.
      * unfold f_cyclic_decrement_push. rewrite (get_ok _ _ _ Ho). cbn [mbind outcome_bind]. by rewrite Hc.
      * split; [|exact Hr].
        assert (Hne : ∀ z, z ≠ y → (n z + occ z [y])%nat = n z) by (intros z Hz; cbn; rewrite decide_False by congruence; lia).
        destruct Hf as [H1 H2 H3 [H4 H4'] H5 H6 H7]. split; try done.
        -- intros z oz Hz Hoz. rewrite Hne; [by apply H2|]. intros ->. by apply (proj2 (proj2 (parts_disjoint y))).
        -- intros z oz Hz Hoz. rewrite Hne; [by apply H3|]. by intros ->.
        -- split; [done|]. intros z. rewrite H4'. split; intros (Hz & Hi & Hnz); split_and!; try done.
           ++ rewrite Hne; [done|by intros ->].
           ++ rewrite Hne in Hnz; [done|by intros ->].
    + assert (HyCs : y ∈ concat Cs) by (specialize (Hcy HyG); apply elem_of_app in Hcy as [?|?]; done).
      destruct (update_orange n s y o0 Hf HyCs Ho0 Hlt) as (s' & Hs' & Hf' & Hsame). exists s'. split.
      * unfold f_cyclic_decrement_push. rewrite (get_ok _ _ _ (fr_cycle _ _ _ _ Hf y o0 HyCs Ho0)). cbn [mbind outcome_bind].
        destruct (garbage_object y HyG) as (o & Ho & Hc & _). simplify_eq. cbn. by rewrite Hc.
      * split; [done|]. intros z oz Hz Hoz. rewrite Hsame by (intros ->; done). by apply Hr.
  - destruct (decrement_kept n s x y o0 Hf HxG Hy HyG Ho0 Hlt) as (s' & Hs' & Hf' & Hsame). exists s'. split; [done|].
    split; [done|]. intros z oz Hz Hoz. rewrite Hsame; [by apply Hr|]. intros ->. apply HyG, part_in. auto.
Qed.

(** ** The objects of the cycle, one after the other *)

Lemma cyclic_decrement_ok L x L2 s :
  C = L ++ x :: L2 → opened L (refs c (F ++ L)) s →
  ∃ s', f_cyclic_decrement x s = Ok s' ∧ opened (L ++ [x]) (refs c (F ++ L ++ [x])) s'.
Proof.
  intros HC Hop. assert (Hx : x ∈ C) by (rewrite HC; apply elem_of_app; right; by left).
  assert (HxG : x ∈ G) by (apply part_in; auto).
  assert (HndC : NoDup (F ++ C)).
  { assert (Hnd : NoDup (F ++ C ++ concat Cs)) by (rewrite HG; apply (dm_nodup Hd)).
    rewrite app_assoc in Hnd. by apply NoDup_app in Hnd as [? _]. }
  assert (HxL : x ∉ L).
  { apply NoDup_app in HndC as (_ & _ & Hn). rewrite HC in Hn. apply NoDup_app in Hn as (_ & Hdis & _).
    intros Hin. apply (Hdis x Hin). by left. }
  destruct (garbage_object x HxG) as (o0 & Ho0 & _). destruct (cs_type h (dm_heap Hd) x o0 Ho0) as [t Ht].
  destruct (op_red _ _ _ Hop x o0 Hx Ho0) as (o & Ho & _ & Hsl & Hty). rewrite decide_False in Hty by done.
  assert (Hch : children_of o = c x) by (unfold children, children_of; by rewrite Ho0, Hsl, Hty).
  unfold f_cyclic_decrement.
  destruct (f_step_ind f_cyclic_decrement_push x s o t
    (λ l s', opened L (λ y, (refs c (F ++ L) y + occ y l)%nat) s')) as (s1 & -> & Hop1).
  - done.
  - congruence.
  - destruct Hop as [Hf Hr]. split; [|done]. eapply freeing_ext; [|exact Hf]. intros y. cbn. lia.
  - intros l1 y l2 s1 Hl Hop1. rewrite Hch in Hl.
    assert (Hy : y ∈ c x) by (rewrite Hl; apply elem_of_app; right; by left).
    destruct (cyclic_decrement_push_ok L _ s1 x y Hop1 Hx Hy) as (s2 & Hs2 & [Hf2 Hr2]).
    + assert (Hle : (refs c (F ++ L ++ [x]) y <= refs c G y)%nat).
      { rewrite <- (refs_perm c _ _ y HG). rewrite HC, <- app_assoc. change (x :: L2) with ([x] ++ L2).
        rewrite !refs_app. cbn. lia. }
      rewrite !refs_app in *. cbn [refs] in Hle. rewrite Hl, occ_app in Hle. cbn [occ] in Hle.
      rewrite decide_True in Hle by done. lia.
    + exists s2. split; [done|]. split; [|done]. eapply freeing_ext; [|exact Hf2]. intros z. cbn beta.
      rewrite occ_app. lia.
  - cbn [mbind outcome_bind]. rewrite Hch in Hop1. destruct Hop1 as [Hf1 Hr1].
    destruct (Hr1 x o0 Hx Ho0) as (o1 & Ho1 & Hc1 & Hsl1 & _).
    rewrite (update_ok _ _ _ _ Ho1). eexists. split; [done|].
    assert (Hne : ∀ z, (z ∈ F ∨ h !! z = None) ∨ z ∈ concat Cs ∨ z ∉ G → z ≠ x).
    { intros z Hz ->. destruct Hz as [[Hz|Hz]|[Hz|Hz]]; [|congruence| |done].
      - by apply (proj1 (parts_disjoint x)).
      - by apply (proj2 (proj2 (parts_disjoint x))). }
    destruct Hf1 as [H1 H2 H3 [H4 H4'] H5 H6 H7]. split.
    + apply (freeing_ext F Cs (λ y, (refs c (F ++ L) y + occ y (c x))%nat)).
      { intros y. rewrite !refs_app. cbn. lia. }
      split; cbn [v_objects set_objects]; try done.
      * intros z Hz. rewrite lookup_insert_ne; [by apply H1|]. apply not_eq_sym, Hne. by left.
      * intros z oz Hz Hoz. rewrite lookup_insert_ne; [by apply H2|]. apply not_eq_sym, Hne. auto.
      * intros z oz Hz Hoz. rewrite lookup_insert_ne; [by apply H3|]. apply not_eq_sym, Hne. auto.
    + intros z oz Hz Hoz. cbn [v_objects set_objects]. destruct (decide (z = x)) as [-> |Hzx].
      * simplify_eq. rewrite lookup_insert_eq. eexists. split; [done|]. cbn. split_and!; [done|done|].
        rewrite decide_True; [done|]. apply elem_of_app. right. by left.
      * rewrite lookup_insert_ne by done. destruct (Hr1 z oz Hz Hoz) as (o2 & Ho2 & Hc2 & Hsl2 & Hty2).
        exists o2. split_and!; [done|done|done|]. rewrite Hty2. apply decide_ext.
        rewrite elem_of_app, list_elem_of_singleton. tauto.
Qed.
(** A red object is not looked at as one of a cycle any more. *)
Lemma paint_red n L x L2 s :
  C = L ++ x :: L2 → freeing F Cs n s →
  (∀ x o0, x ∈ C → h !! x = Some o0 → ∃ o, v_objects s !! x = Some o ∧ (x ∈ L → v_color o = c_color__RED) ∧
     v_slots o = v_slots o0 ∧ v_type o = v_type o0) →
  ∃ s', update (with_color c_color__RED) x s = Ok s' ∧ freeing F Cs n s' ∧
  (∀ y o0, y ∈ C → h !! y = Some o0 → ∃ o, v_objects s' !! y = Some o ∧ (y ∈ L ++ [x] → v_color o = c_color__RED) ∧
     v_slots o = v_slots o0 ∧ v_type o = v_type o0).
Proof.
  intros HC Hf Hr. assert (Hx : x ∈ C) by (rewrite HC; apply elem_of_app; right; by left).
  assert (HxG : x ∈ G) by (apply part_in; auto). destruct (garbage_object x HxG) as (o0 & Ho0 & _).
  destruct (Hr x o0 Hx Ho0) as (o & Ho & _ & Hsl & Hty). rewrite (update_ok _ _ _ _ Ho). eexists. split; [done|].
  assert (Hne : ∀ z, (z ∈ F ∨ h !! z = None) ∨ z ∈ concat Cs ∨ z ∉ G → x ≠ z).
  { intros z Hz <-. destruct Hz as [[Hz|Hz]|[Hz|Hz]]; [|congruence| |done].
    - by apply (proj1 (parts_disjoint x)).
    - by apply (proj2 (proj2 (parts_disjoint x))). }
  destruct Hf as [H1 H2 H3 H4 H5 H6 H7]. split; [split; cbn [v_objects set_objects]; try done|].
  - intros z Hz. rewrite lookup_insert_ne by (apply Hne; by left). by apply H1.
  - intros z oz Hz Hoz. rewrite lookup_insert_ne by (apply Hne; auto). by apply H2.
  - intros z oz Hz Hoz. rewrite lookup_insert_ne by (apply Hne; auto). by apply H3.
  - intros y oy Hy Hoy. cbn [v_objects set_objects]. destruct (decide (y = x)) as [-> |Hyx].
    + simplify_eq. rewrite lookup_insert_eq. eexists. split_and!; done.
    + rewrite lookup_insert_ne by done. destruct (Hr y oy Hy Hoy) as (o1 & Ho1 & Hc1 & H'). exists o1. split_and!; try apply H'; [done|].
      intros [Hin| ->%list_elem_of_singleton]%elem_of_app; auto. done.
Qed.

Lemma free_objects l s :
  let s' := foldl (λ s p, f_free_as_collect p s) s l in
  (∀ x, v_objects s' !! x = if decide (x ∈ l) then None else v_objects s !! x) ∧
  v_scan_stack s' = v_scan_stack s ∧ v_roots s' = v_roots s ∧ v_cycles s' = v_cycles s ∧
  v_object__release s' = v_object__release s ∧ v_object__collect s' = (v_object__collect s + length l)%nat.
Proof.
  revert s. induction l as [|p l IH]; intros s; cbn zeta.
  - cbn [foldl]. split_and!; [|done..|cbn; lia]. intros x. by rewrite decide_False by apply not_elem_of_nil.
  - cbn [foldl]. destruct (IH (f_free_as_collect p s)) as (Ho & H1 & H2 & H3 & H4 & H5). split_and!; try done.
    + intros x. rewrite Ho. cbn. destruct (decide (x ∈ l)) as [Hx|Hx].
      * by rewrite decide_True by (by right).
      * destruct (decide (x = p)) as [-> |Hxp]; [rewrite lookup_delete_eq, decide_True by (by left); done|].
        rewrite lookup_delete_ne, decide_False by (try apply not_elem_of_cons; auto). done.
    + rewrite H5. cbn. lia.
Qed.

Lemma process_cycle_ok garbage s :
  C ≠ [] → C ∈ v_cycles s0 → freeing F (C :: Cs) (refs c F) s →
  ∃ s', process_cycle C garbage (set_cycles Cs s) = Ok (garbage, s') ∧ freeing (F ++ C) Cs (refs c (F ++ C)) s'.
Proof.
  intros Hne HCin Hf.
  assert (Hobj : ∀ x, x ∈ C → ∃ o0 o, h !! x = Some o0 ∧ v_objects s !! x = Some o ∧ v_slots o = v_slots o0 ∧
    v_type o = v_type o0 ∧ v_color o = c_color__ORANGE ∧ v_cyclic o = 0 ∧ v_reviving o = false).
  { intros x Hx. destruct (dm_cycle Hd C x HCin Hx) as (o0 & Ho0 & Hc & Hcy & Hr). exists o0. eexists.
    split; [done|]. split; [apply (fr_cycle _ _ _ _ Hf); [apply elem_of_app; by left|done]|]. cbn. split_and!; try done.
    rewrite Hcy, (head_count F C Cs x o0 HG Hlay Hx Ho0).
    replace (_ - _ - _) with 0 by lia. by apply to_size_id. }
  unfold process_cycle. rewrite check_cycle_ok; cbn [mbind outcome_bind].
  2: { intros x Hx. assert (HxC : x ∈ C).
       { by rewrite (Permutation_app_comm (drop 1 C)), take_drop in Hx. }
       destruct (Hobj x HxC) as (o0 & o & Ho0 & Ho & _ & Hty & Hc & Hcy & Hr). exists o. split_and!; try done; [|lia].
       rewrite Hty. by apply (cs_type h (dm_heap Hd) x). }
  rewrite rotate_back by done.
  rewrite (match_cons C (Ok (garbage, set_cycles Cs s)) (λ C, s1 ← free_cycle C (set_cycles Cs s); Ok (garbage, s1)) Hne).
  unfold free_cycle.
  assert (Hf1 : freeing F Cs (refs c F) (set_cycles Cs s)).
  { destruct Hf as [H1 H2 H3 H4 H5 H6 H7]. split; try done. intros x o Hx. apply H2, elem_of_app. by right. }
  destruct (fold_calls_ind (λ s q, update (with_color c_color__RED) q s) (λ L s, freeing F Cs (refs c F) s ∧
     ∀ x o0, x ∈ C → h !! x = Some o0 → ∃ o, v_objects s !! x = Some o ∧ (x ∈ L → v_color o = c_color__RED) ∧
     v_slots o = v_slots o0 ∧ v_type o = v_type o0) C (set_cycles Cs s)) as (s1 & Hs1 & Hf2 & Hr2).
  { split; [done|]. intros x o0 Hx Ho0. destruct (Hobj x Hx) as (o0' & o & Ho0' & Ho & Hsl & Hty & _). simplify_eq.
    exists o. split_and!; try done. by intros ?%not_elem_of_nil. }
  { intros L x L2 s1 HC [Hs1 Hr1]. by apply (paint_red _ L x L2). }
  change (each (update (with_color c_color__RED)) C (set_cycles Cs s) = Ok s1) in Hs1. rewrite Hs1. cbn [mbind outcome_bind].
  destruct (fold_calls_ind (λ s q, f_cyclic_decrement q s) (λ L s, opened L (refs c (F ++ L)) s) C s1)
    as (s2 & Hs2 & Hf3 & _).
  { rewrite app_nil_r. split; [done|]. intros x o0 Hx Ho0. destruct (Hr2 x o0 Hx Ho0) as (o & Ho & Hc & Hsl & Hty).
    exists o. rewrite decide_False by apply not_elem_of_nil. split_and!; auto. }
  { intros L x L2 s2 HC Hop. by apply (cyclic_decrement_ok L x L2). }
  change (each f_cyclic_decrement C s1 = Ok s2) in Hs2. rewrite Hs2. cbn [mbind outcome_bind]. eexists. split; [done|].
  destruct (free_objects C s2) as (Ho & E1 & E2 & E3 & E4 & E5).
  destruct Hf3 as [H1 H2 H3 [H4 H4'] H5 H6 [H7 H7']].
  split; rewrite ?E1, ?E2, ?E3, ?E4, ?E5; try done.
  - intros x Hx. rewrite Ho. case_decide as HxC; [done|]. apply H1. destruct Hx as [[?|?]%elem_of_app|?]; auto. done.
  - intros x o Hx Hox. rewrite Ho, decide_False; [by apply H2|]. intros ?. by apply (proj2 (proj2 (parts_disjoint x))).
  - intros x o Hx Hox. rewrite Ho, decide_False; [by apply H3|]. intros ?. apply Hx, part_in. auto.
  - rewrite H7', length_app. split; [done|lia].
Qed.
End Cycle.

Lemma process_cycles_ok Cs F s garbage :
  F ++ concat Cs ≡ₚ G → layered c (λ x, x ∈ G) Cs → (∀ C, C ∈ Cs → C ∈ v_cycles s0) →
  freeing F Cs (refs c F) s →
  ∃ s' F', process_cycles Cs garbage s = Ok (garbage, s') ∧ F' ≡ₚ G ∧ freeing F' [] (refs c F') s'.
Proof.
  revert F s. induction Cs as [|C Cs IH]; intros F s HG Hlay Hin Hf.
  - exists s, F. rewrite app_nil_r in HG. done.
  - cbn [process_cycles concat] in *. assert (HCin : C ∈ v_cycles s0) by (apply Hin; by left).
    destruct (process_cycle_ok F C Cs HG Hlay garbage s) as (s1 & -> & Hf1); [by apply (dm_some Hd)|done|done|].
    cbn [mbind outcome_bind]. apply (IH (F ++ C)); [by rewrite <- app_assoc|apply Hlay| |done].
    intros C' HC'. apply Hin. by right.
Qed.

(** All garbage is freed, and nothing else. *)
Lemma free_cycles_ok :
  ∃ s', free_cycles s0 = Ok s' ∧ freeing G [] (refs c G) s'.
Proof.
  destruct (process_cycles_ok (v_cycles s0) [] s0 []) as (s' & F & Hs' & HF & Hf).
  - done.
  - apply (dm_layered Hd).
  - done.
  - split; try done.
    + intros x [?%not_elem_of_nil|Hx]; done.
    + intros x o HxG Ho. rewrite Ho. f_equal. cbn [refs]. rewrite !Z.sub_0_r.
      destruct (garbage_cycle x HxG) as (C & HC & HxC). destruct (dm_cycle Hd C x HC HxC) as (o' & Ho' & _ & Hcy & _). simplify_eq.
      pose proof (cs_count h (dm_heap Hd) x o Ho) as Hb.
      assert (Hle : (refs c C x <= refs c G x)%nat).
      { apply list_elem_of_split in HC as (l1 & l2 & E). rewrite E, concat_app. cbn [concat]. rewrite !refs_app. lia. }
      pose proof (garbage_count x o HxG Ho) as Hgc. unfold with_cyclic, with_count. cbn. rewrite !to_size_id by lia. by destruct o.
    + intros x o Hx Ho. exists o. cbn. split_and!; try done; [lia|]. by apply (dm_link Hd x).
    + rewrite (dm_roots Hd). split; [by apply NoDup_nil|]. intros x. cbn. split; [by intros ?%not_elem_of_nil|]. intros (_ & _ & ?). done.
    + apply (dm_stack Hd).
  - unfold free_cycles. rewrite Hs'. cbn [mbind outcome_bind]. exists s'. split; [done|].
    destruct Hf as [H1 H2 H3 [H4 H4'] H5 H6 [H7 H7']]. split; try done.
    + intros x [Hx|Hx]; apply H1; [left; by rewrite HF|by right].
    + by intros x o0 ?%not_elem_of_nil.
    + intros x o0 Hx Ho0. rewrite <- (refs_perm c F G x HF). by apply H3.
    + split; [done|]. intros x. rewrite <- (refs_perm c F G x HF). apply H4'.
    + rewrite <- HF. done.
Qed.
End Free.
