(* ===== verification/CollectorRound.v ===== *)
(** * A collection

    The state of the heap between the operations of a program, and what the
    search for cycles followed by their freeing makes of it. *)
From stdpp Require Import base list numbers strings gmap.
From S2P Require Import Prelude Machine Collector CollectorGraph CollectorMark CollectorScan CollectorCycles CollectorFind CollectorFree.
Local Open Scope Z_scope.

(** What the references from outside of the heap reach. *)
Definition alive (ext : t_address → nat) (s : t_engine) (x : t_address) : Prop :=
  ∃ z, (0 < ext z)%nat ∧ is_Some (v_objects s !! z) ∧ reach (children (v_objects s)) z x.

(** The state of the heap.  [wf_garbage] says that the purple roots lead to all
    that is not alive. *)
Record wf (ext : t_address → nat) (s : t_engine) : Prop := {
  wf_ready : ready s;
  wf_counted : counted ext (v_objects s);
  wf_outside x : (0 < ext x)%nat → is_Some (v_objects s !! x);
  wf_pos x o : v_objects s !! x = Some o → 0 < v_count o;
  wf_reviving x o : v_objects s !! x = Some o → v_reviving o = false;
  wf_garbage x : is_Some (v_objects s !! x) → ¬ (¬ alive ext s x ∧ ¬ candidate s x)
}.

Lemma wf_roots_positive ext s : wf ext s → roots_positive s.
Proof. intros Hs x o _. apply (wf_pos _ _ Hs). Qed.

Lemma alive_step ext s x y : alive ext s x → y ∈ children (v_objects s) x → alive ext s y.
Proof. intros (z & Hz & Hin & Hr) Hy. exists z. split_and!; [done|done|by eapply reach_step]. Qed.

Lemma parent_in h x y : y ∈ children h x → is_Some (h !! x).
Proof. unfold children. destruct (h !! x); [by eexists|by intros ?%not_elem_of_nil]. Qed.

Lemma reach_in h x y : consistent h → is_Some (h !! x) → reach (children h) x y → is_Some (h !! y).
Proof.
  intros Hh Hx. apply (reach_closed (children h) (λ x, is_Some (h !! x))); [|done].
  intros a b _. by apply children_closed.
Qed.

Section Round.
Context (ext : t_address → nat) (s : t_engine).
Hypothesis Hready : ready s.
Hypothesis Hcounted : counted ext (v_objects s).
Hypothesis Hreviving : ∀ x o, v_objects s !! x = Some o → v_reviving o = false.
Abbreviation h := (v_objects s).
Abbreviation c := (children h).

Lemma same_counted s' : same_heap (v_objects s') h → counted ext (v_objects s').
Proof.
  intros Hs x o Ho. destruct (same_heap_lookup _ _ _ _ Hs Ho) as (o0 & Ho0 & Hsk). injection Hsk as Hc _ _ _.
  rewrite <- Hc, (same_heap_addresses _ _ _ _ Hs), (refs_ext _ c); [by apply Hcounted|].
  intros z _. by apply same_heap_children.
Qed.

(** What holds a candidate. *)
Lemma held_by x : held_from_outside ext s x →
  (0 < ext x)%nat ∨ ∃ z, is_Some (h !! z) ∧ (¬ candidate s z ∨ held_from_outside ext s z) ∧ x ∈ c z.
Proof.
  intros (z0 & Hz0 & Hr & Hh). apply rtc_inv_r in Hr as [<- |(w & Hw & Hwx)].
  - destruct Hh as [?|(y & Hy & Hny & Hzy)]; [by left|right]. exists y. auto.
  - right. exists w. split_and!; [by eapply parent_in| |done]. right. by exists z0.
Qed.

(** The cycles that were found can be freed. *)
Lemma searched_doomed s1 :
  searched s s1 → (∀ x, x ∈ concat (v_cycles s1) ↔ candidate s x ∧ ¬ held_from_outside ext s x) →
  (∀ x, candidate s x → x ∈ concat (v_cycles s1) ∨ held_from_outside ext s x) → doomed s1 ext.
Proof.
  intros Hs HG Hdich. pose proof (sr_same _ _ Hs) as Hsame.
  assert (Hch : ∀ x, children (v_objects s1) x = c x) by (intros x; by apply same_heap_children).
  assert (Hheap : consistent (v_objects s1)) by (eapply consistent_same; [symmetry; exact Hsame|apply (rd_heap s Hready)]).
  assert (Hobj : ∀ x, x ∈ concat (v_cycles s1) → ∃ o, v_objects s1 !! x = Some o ∧ v_reviving o = false).
  { intros x [(r & Hr & Hcr & Hrx) _]%HG.
    assert (Hin : is_Some (h !! x)).
    { eapply reach_in; [apply (rd_heap s Hready)| |exact Hrx]. unfold color in Hcr. destruct (h !! r); [by eexists|done]. }
    destruct Hin as [o0 Ho0]. symmetry in Hsame. destruct (same_heap_lookup _ _ _ _ Hsame Ho0) as (o & Ho & Hsk).
    injection Hsk as _ _ _ Hrv. exists o. split; [done|]. rewrite Hrv. by apply (Hreviving x). }
  split; try done.
  - by apply same_counted.
  - intros x y Hx Hxy _. rewrite Hch in Hxy. destruct (decide (y ∈ concat (v_cycles s1))) as [|Hin]; [done|].
    apply HG in Hx as [Hcx Hnx]. exfalso. apply Hnx. exists x. split_and!; [done|reflexivity|]. right. exists y.
    split_and!; [by eapply parent_in| |done]. intros Hcy. destruct (Hdich y Hcy) as [?|Hhy]; [done|].
    apply Hnx. by eapply held_step.
  - intros x [Hcx Hnx]%HG. destruct (decide (ext x = 0%nat)) as [|He]; [done|]. destruct Hnx.
    exists x. split_and!; [done|reflexivity|left; lia].
  - intros x y Hx Hy HyG. rewrite Hch in Hy. pose proof Hx as [Hcx Hnx]%HG.
    destruct (Hdich y) as [?|Hhy]; [by eapply candidate_step|done|]. split.
    + left. apply (sr_black _ _ Hs); [by eapply candidate_step|done].
    + destruct (held_by y Hhy) as [?|(z & Hz & Hzn & Hyz)]; [by left|right]. exists z. split_and!.
      * by apply (same_heap_is_Some _ _ _ Hsame).
      * rewrite HG. tauto.
      * by rewrite Hch.
  - intros C x HC Hx. destruct (Hobj x) as (o & Ho & Hrv).
    { apply list_elem_of_In, in_concat. exists C. split; by apply list_elem_of_In. }
    destruct (sr_cycle _ _ Hs C x o HC Hx Ho) as [Hco Hcy]. exists o. split_and!; [done|done| |done].
    rewrite Hcy. do 2 f_equal. by apply refs_ext.
  - intros x o Hx Ho. pose proof (sr_link _ _ Hs x) as Hl. rewrite decide_False in Hl by done. rewrite Ho in Hl.
    destruct (h !! x); cbn in Hl; congruence.
  - eapply layered_ext; [| |apply (sr_layered _ _ Hs)]; [done|done].
  - apply (sr_nodup _ _ Hs).
  - apply (sr_some _ _ Hs).
  - apply (sr_rest _ _ Hs).
  - apply (sr_stack _ _ Hs).
Qed.
End Round.

Section Freed.
Context (ext : t_address → nat) (s1 s2 : t_engine).
Hypothesis Hd : doomed s1 ext.
Abbreviation h := (v_objects s1).
Abbreviation c := (children h).
Abbreviation G := (concat (v_cycles s1)).
Hypothesis Hsettled : ∀ x y, x ∉ G → settled (color s1 x) → y ∈ c x → settled (color s1 y).
Hypothesis Hf : freeing s1 G [] (refs c G) s2.

Lemma freed_lookup x :
  match v_objects s2 !! x with
  | Some o => (x ∉ G) ∧ ∃ o0, h !! x = Some o0 ∧ v_count o = v_count o0 - Z.of_nat (refs c G x) ∧
      v_type o = v_type o0 ∧ v_slots o = v_slots o0 ∧ v_reviving o = v_reviving o0 ∧
      v_color o = (if decide (refs c G x = 0%nat) then v_color o0 else c_color__PURPLE) ∧
      v_link o = (if decide (refs c G x = 0%nat) then Unlinked else Root)
  | None => x ∈ G ∨ h !! x = None
  end.
Proof.
  destruct (decide (x ∈ G)) as [Hx|Hx].
  - rewrite (fr_freed _ _ _ _ _ Hf x) by (by left). by left.
  - destruct (h !! x) as [o0|] eqn:Ho0.
    + destruct (fr_out _ _ _ _ _ Hf x o0 Hx Ho0) as (o & -> & H). split; [done|]. exists o0. done.
    + rewrite (fr_freed _ _ _ _ _ Hf x) by (by right). by right.
Qed.

Lemma freed_is_Some x : is_Some (v_objects s2 !! x) ↔ is_Some (h !! x) ∧ x ∉ G.
Proof.
  pose proof (freed_lookup x) as H. destruct (v_objects s2 !! x) as [o|].
  - destruct H as (Hx & o0 & Ho0 & _). split; [intros _; split; [by eexists|done]|by eexists].
  - split; [by intros []|]. intros [[o Ho] Hx]. destruct H as [?|?]; [done|congruence].
Qed.

Lemma freed_children x : x ∉ G → children (v_objects s2) x = c x.
Proof.
  intros Hx. pose proof (freed_lookup x) as H. unfold children. destruct (v_objects s2 !! x) as [o|].
  - destruct H as (_ & o0 & -> & _ & Ht & Hsl & _). unfold children_of. by rewrite Ht, Hsl.
  - by destruct H as [?| ->].
Qed.

Lemma freed_color x : color s2 x = color s1 x ∨ x ∈ G ∨ color s2 x = Some c_color__PURPLE ∧ refs c G x ≠ 0%nat.
Proof.
  pose proof (freed_lookup x) as H. unfold color. destruct (v_objects s2 !! x) as [o|].
  - destruct H as (_ & o0 & -> & _ & _ & _ & _ & Hc & _). cbn. rewrite Hc. case_decide; [by left|]. by right; right.
  - destruct H as [?| ->]; [by right; left|by left].
Qed.

Lemma freed_addresses : addresses (v_objects s2) ≡ₚ filter (λ x, x ∉ G) (addresses h).
Proof.
  apply NoDup_Permutation; [apply addresses_nodup|apply NoDup_filter, addresses_nodup|].
  intros x. rewrite list_elem_of_filter, !addresses_in, freed_is_Some. tauto.
Qed.

Lemma freed_counted : counted ext (v_objects s2).
Proof.
  intros x o Ho. pose proof (freed_lookup x) as H. rewrite Ho in H.
  destruct H as (Hx & o0 & Ho0 & -> & _). rewrite (dm_counted _ _ Hd x o0 Ho0).
  rewrite (refs_split c G (addresses h) x (dm_nodup _ _ Hd) (addresses_nodup h)).
  - rewrite (refs_perm _ _ _ x freed_addresses).
    rewrite (refs_ext (children (v_objects s2)) c (filter (λ x, x ∉ G) (addresses h))); [lia|].
    intros y Hy. apply freed_children. by apply list_elem_of_filter in Hy as [? _].
  - intros y Hy. apply addresses_in. destruct (garbage_object s1 ext Hd y Hy) as (oy & -> & _). by eexists.
Qed.

Lemma freed_ready : ready s2.
Proof.
  pose proof (dm_heap _ _ Hd) as Hh. split; [split| | | | |].
  - intros x o Ho. pose proof (freed_lookup x) as H. rewrite Ho in H. destruct H as (_ & o0 & Ho0 & _ & -> & _).
    by apply (cs_type h Hh x).
  - intros x o y Ho Hy. assert (Hx : is_Some (h !! x) ∧ x ∉ G) by (apply freed_is_Some; by eexists).
    assert (Hy' : y ∈ c x) by (rewrite <- freed_children by apply Hx; unfold children; by rewrite Ho).
    apply freed_is_Some. split; [by eapply children_closed|]. intros HyG. apply (proj2 Hx).
    apply (dm_only _ _ Hd y x); [done|done|apply Hx].
  - intros x o Ho. pose proof (freed_counted x o Ho) as Hc. pose proof (freed_lookup x) as H. rewrite Ho in H.
    destruct H as (_ & o0 & Ho0 & Hc0 & _). pose proof (cs_count h Hh x o0 Ho0). lia.
  - intros x y Hsx Hro Hy. assert (Hx : is_Some (h !! x) ∧ x ∉ G) by (apply freed_is_Some; by eapply parent_in).
    rewrite freed_children in Hy by apply Hx.
    assert (Hsx1 : settled (color s1 x)).
    { destruct (freed_color x) as [<- |[?|[_ Hn]]]; [done|by destruct Hx|]. destruct Hro.
      apply (fr_roots _ _ _ _ _ Hf). split_and!; [apply Hx|apply Hx|done]. }
    assert (Hsy : settled (color s1 y)) by (by eapply Hsettled; [apply Hx| |]).
    destruct (freed_color y) as [-> |[Hyg|[-> _]]]; [done| |by right].
    destruct (proj2 Hx). apply (dm_only _ _ Hd y x); [done|done|apply Hx].
  - apply (fr_roots _ _ _ _ _ Hf).
  - intros x. pose proof (freed_lookup x) as H. unfold link_in. rewrite (decide_ext _ _ _ _ (proj2 (fr_roots _ _ _ _ _ Hf) x)).
    destruct (v_objects s2 !! x) as [o|] eqn:Ho; cbn.
    + destruct H as (Hx & o0 & Ho0 & _ & _ & _ & _ & _ & ->). case_decide as Hr.
      * rewrite decide_False; [done|]. by intros (_ & _ & ?).
      * rewrite decide_True; [done|]. split_and!; [done|by eexists|done].
    + rewrite decide_False; [done|]. intros (Hx & [o0 Ho0] & _). destruct H as [?|?]; [done|congruence].
  - apply (fr_stack _ _ _ _ _ Hf).
  - apply (fr_cycles _ _ _ _ _ Hf).
Qed.
End Freed.

(** Garbage is not alive. *)
Lemma held_alive ext s x :
  (∀ x, is_Some (v_objects s !! x) → ¬ (¬ alive ext s x ∧ ¬ candidate s x)) → consistent (v_objects s) →
  held_from_outside ext s x → ¬ ¬ alive ext s x.
Proof.
  intros Hg Hh (z & Hz & Hr & [He|(y & Hy & Hny & Hzy)]) Hn.
  - apply Hn. exists z. split_and!; [done| |done]. destruct Hz as (r & _ & Hcr & Hrz).
    eapply reach_in; [done| |exact Hrz]. unfold color in Hcr. destruct (v_objects s !! r); [by eexists|done].
  - apply (Hg y Hy). split; [|done]. intros (a & Ha & Hain & Hay). apply Hn. exists a. split_and!; [done|done|].
    etransitivity; [|exact Hr]. by eapply reach_step.
Qed.

(** The count of an object that is not alive may be positive, but not the other
    way round. *)
Lemma alive_pos ext s x o :
  counted ext (v_objects s) → alive ext s x → v_objects s !! x = Some o → 0 < v_count o.
Proof.
  intros Hc (a & Ha & Hin & Hr) Ho. rewrite (Hc x o Ho). apply rtc_inv_r in Hr as [<- |(w & _ & Hw)]; [lia|].
  pose proof (refs_in (children (v_objects s)) (addresses (v_objects s)) w x) as Hrefs.
  rewrite addresses_in in Hrefs. specialize (Hrefs (parent_in _ _ _ Hw) Hw). lia.
Qed.

(** The search and the freeing of what it found. *)
Lemma collection_ok ext s :
  wf ext s →
  ∃ s1 s2, find_cycles s = Ok s1 ∧ free_cycles s1 = Ok s2 ∧ wf ext s2 ∧
    (∀ x, is_Some (v_objects s !! x) → v_objects s2 !! x = None ↔ ¬ alive ext s x) ∧
    (∀ x o2, v_objects s2 !! x = Some o2 →
       ∃ o, v_objects s !! x = Some o ∧ v_type o2 = v_type o ∧ v_slots o2 = v_slots o) ∧
    v_object__release s2 = v_object__release s ∧
    v_object__collect s2 = (v_object__collect s + length (concat (v_cycles s1)))%nat.
Proof.
  intros Hs. pose proof (wf_ready _ _ Hs) as Hr. pose proof (rd_heap s Hr) as Hh.
  destruct (find_cycles_ok s Hr (wf_roots_positive ext s Hs) ext (wf_counted _ _ Hs)) as (s1 & Hs1 & Hsr & HG & Hdich).
  pose proof (sr_same _ _ Hsr) as Hsame.
  pose proof (searched_doomed ext s Hr (wf_counted _ _ Hs) (wf_reviving _ _ Hs) s1 Hsr HG Hdich) as Hd.
  destruct (free_cycles_ok s1 ext Hd) as (s2 & Hs2 & Hf).
  assert (Hch : ∀ x, children (v_objects s1) x = children (v_objects s) x) by (intros x; by apply same_heap_children).
  assert (Hsettled : ∀ x y, x ∉ concat (v_cycles s1) → settled (color s1 x) → y ∈ children (v_objects s1) x → settled (color s1 y)).
  { intros x y Hx Hsx Hy. rewrite Hch in Hy. by apply (sr_settled _ _ Hsr x y). }
  assert (Hnot : ∀ x, alive ext s x → x ∉ concat (v_cycles s1)).
  { intros x (a & Ha & Hin & Hax). eapply (reach_closed (children (v_objects s)) (λ x, x ∉ concat (v_cycles s1))); [| |exact Hax].
    - intros y z Hy Hz HzG. apply Hy. apply (dm_only _ _ Hd z y); [done|by rewrite Hch|].
      apply (same_heap_is_Some _ _ _ Hsame). by eapply parent_in.
    - intros HaG. rewrite (dm_ext _ _ Hd a HaG) in Ha. lia. }
  assert (Hdead : ∀ x, is_Some (v_objects s !! x) → ¬ alive ext s x → x ∈ concat (v_cycles s1)).
  { intros x Hx Hn. apply dec_stable. intros HnG. apply (wf_garbage _ _ Hs x Hx). split; [done|]. intros Hc.
    destruct (Hdich x Hc) as [?|Hheld]; [done|]. by destruct (held_alive ext s x (wf_garbage _ _ Hs) Hh Hheld). }
  pose proof (freed_is_Some s1 s2 Hf) as Hsome.
  assert (Hch2 : ∀ x, x ∉ concat (v_cycles s1) → children (v_objects s2) x = children (v_objects s) x).
  { intros x Hx. rewrite <- Hch. by apply freed_children. }
  assert (Halive : ∀ x, alive ext s x → alive ext s2 x).
  { intros x (a & Ha & Hin & Hax). assert (Haa : alive ext s a) by (exists a; split_and!; [done|done|reflexivity]).
    exists a. split_and!; [done| |].
    - apply Hsome. split; [by apply (same_heap_is_Some _ _ _ Hsame)|by apply Hnot].
    - apply (reach_closed (children (v_objects s)) (λ y, alive ext s y ∧ reach (children (v_objects s2)) a y) a x); [|split; [done|reflexivity]|done].
      intros y z [Hy Hay] Hz. split; [by eapply alive_step|]. eapply reach_step; [exact Hay|]. rewrite Hch2; [done|by apply Hnot]. }
  pose proof (freed_counted ext s1 s2 Hd Hf) as Hcnt2.
  assert (Hall : ∀ x, is_Some (v_objects s2 !! x) → ¬ ¬ alive ext s2 x).
  { intros x Hx Hn. apply Hsome in Hx as [Hx HxG]. apply HxG, Hdead; [by apply (same_heap_is_Some _ _ _ Hsame)|auto]. }
  exists s1, s2. split; [done|]. split; [done|]. split; [split|split_and!].
  - by apply (freed_ready ext s1).
  - done.
  - intros x Hx. pose proof (wf_outside _ _ Hs x Hx) as Hin.
    apply Hsome. split; [by apply (same_heap_is_Some _ _ _ Hsame)|]. apply Hnot. by exists x; split_and!; [| |reflexivity].
  - intros x o Ho. destruct (decide (0 < v_count o)) as [|Hp]; [done|].
    destruct (Hall x); [by eexists|]. intros Ha. by pose proof (alive_pos ext s2 x o Hcnt2 Ha Ho).
  - intros x o Ho. pose proof (freed_lookup s1 s2 Hf x) as H. rewrite Ho in H.
    destruct H as (_ & o1 & Ho1 & _ & _ & _ & -> & _). destruct (same_heap_lookup _ _ _ _ Hsame Ho1) as (o0 & Ho0 & Hsk).
    injection Hsk as _ _ _ <-. by apply (wf_reviving _ _ Hs x).
  - intros x Hx [Hn _]. by destruct (Hall x Hx).
  - intros x Hx. split.
    + intros Hnone Ha. assert (Hin : is_Some (v_objects s2 !! x)); [|rewrite Hnone in Hin; by destruct Hin].
      apply Hsome. split; [by apply (same_heap_is_Some _ _ _ Hsame)|by apply Hnot].
    + intros Hn. apply eq_None_not_Some. intros [_ HxG]%Hsome. by apply HxG, Hdead.
  - intros x o2 Ho2. pose proof (freed_lookup s1 s2 Hf x) as H. rewrite Ho2 in H.
    destruct H as (_ & o1 & Ho1 & _ & Ht & Hsl & _). destruct (same_heap_lookup _ _ _ _ Hsame Ho1) as (o0 & Ho0 & Hsk).
    injection Hsk as _ Ht0 Hsl0 _. exists o0. split_and!; congruence.
  - destruct (fr_counts _ _ _ _ _ Hf) as [-> _]. apply (sr_rest _ _ Hsr).
  - destruct (fr_counts _ _ _ _ _ Hf) as [_ ->]. destruct (sr_rest _ _ Hsr) as (_ & _ & ->). done.
Qed.
