(* ===== verification/CollectorCount.v ===== *)
(** * Reference counting

    The operations of a program on the heap: they free what nothing refers to
    any more, and they leave the purple roots from which the collector finds
    the rest. *)
From stdpp Require Import base list numbers strings gmap.
From S2P Require Import Prelude Machine Collector CollectorGraph CollectorMark CollectorScan CollectorCycles CollectorFind CollectorFree CollectorRound.
Local Open Scope Z_scope.

(** [f_decrement] on the way: the objects of [W] are not referred to any more,
    and they wait for [f_decrement_step]. *)
Record cascading (ext : t_address → nat) (W : list t_address) (s : t_engine) : Prop := {
  ca_heap : consistent (v_objects s);
  ca_counted : counted ext (v_objects s);
  ca_outside x : (0 < ext x)%nat → is_Some (v_objects s !! x);
  ca_zero x : x ∈ W → ∃ o, v_objects s !! x = Some o ∧ v_count o = 0;
  ca_pos x o : v_objects s !! x = Some o → x ∉ W → 0 < v_count o;
  ca_nodup : NoDup W;
  ca_settled x y : x ∉ W → settled (color s x) → x ∉ v_roots s → y ∈ children (v_objects s) x → settled (color s y);
  ca_roots : NoDup (v_roots s);
  ca_link x : v_link <$> v_objects s !! x = link_in (v_objects s) (v_roots s) x;
  ca_cycles : v_cycles s = [];
  ca_reviving x o : v_objects s !! x = Some o → v_reviving o = false;
  ca_garbage x : is_Some (v_objects s !! x) →
    ¬ (¬ alive ext s x ∧ ¬ candidate s x ∧ ¬ ∃ w, w ∈ W ∧ reach (children (v_objects s)) w x)
}.

Lemma wf_cascading ext s : wf ext s ↔ cascading ext [] s ∧ v_scan_stack s = [].
Proof.
  split.
  - intros [[H1 H2 H3 H4 H5 H6] Hc Ho Hp Hr Hg]. split; [|done]. split; try done.
    + by intros x ?%not_elem_of_nil.
    + eauto.
    + by apply NoDup_nil.
    + intros x y _. apply H2.
    + intros x Hx (Ha & Hcn & _). by apply (Hg x Hx).
  - intros [[H1 H2 H0 H3 H4 H5 H6 H7 H8 H9 H10 H11] Hst]. split; [split| | | | |]; try done.
    + intros x y. apply H6, not_elem_of_nil.
    + intros x o Ho. apply (H4 x o Ho), not_elem_of_nil.
    + intros x Hx [Ha Hc]. apply (H11 x Hx). split_and!; [done|done|]. by intros (w & ?%not_elem_of_nil & _).
Qed.

Lemma filter_other (p : t_address) (l : list t_address) : p ∉ l → filter (λ q, q ≠ p) l = l.
Proof.
  induction l as [|q l IH]; [done|]. intros [Hq Hl]%not_elem_of_cons. rewrite filter_cons_True by congruence. by rewrite IH.
Qed.

Section Step.
Context (ext : t_address → nat) (s : t_engine) (p : t_address).
Abbreviation h := (v_objects s).
Abbreviation c := (children h).
Abbreviation st := (v_scan_stack s).
Hypothesis Hs : cascading ext (p :: st) s.

Lemma not_referred x w : w ∈ p :: st → w ∉ c x.
Proof.
  intros Hw Hin. destruct (ca_zero _ _ _ Hs w Hw) as (o & Ho & Hz). pose proof (ca_counted _ _ _ Hs w o Ho) as Hc.
  pose proof (refs_in c (addresses h) x w) as Hr. rewrite addresses_in in Hr. specialize (Hr (parent_in _ _ _ Hin) Hin). lia.
Qed.

Lemma not_external w : w ∈ p :: st → ext w = 0%nat.
Proof. intros Hw. destruct (ca_zero _ _ _ Hs w Hw) as (o & Ho & Hz). pose proof (ca_counted _ _ _ Hs w o Ho). lia. Qed.

(** The references [l] of [p] were taken back. *)
Record stepping (l : list t_address) (s1 : t_engine) : Prop := {
  sp_object x o : h !! x = Some o → ∃ o1, v_objects s1 !! x = Some o1 ∧
    v_count o1 = v_count o - Z.of_nat (occ x l) ∧ v_type o1 = v_type o ∧ v_slots o1 = v_slots o ∧
    v_reviving o1 = v_reviving o ∧ (v_color o1 = v_color o ∨ v_color o1 = c_color__PURPLE) ∧
    ((0 < occ x l)%nat → 0 < v_count o1 → v_color o1 = c_color__PURPLE ∧ x ∈ v_roots s1) ∧
    (occ x l = 0%nat → v_color o1 = v_color o);
  sp_none x : h !! x = None → v_objects s1 !! x = None;
  sp_roots : NoDup (v_roots s1) ∧ (∀ x, x ∈ v_roots s → x ∈ v_roots s1);
  sp_link x : v_link <$> v_objects s1 !! x = link_in (v_objects s1) (v_roots s1) x;
  sp_stack : ∃ new, v_scan_stack s1 = new ++ st ∧ NoDup new ∧
    ∀ x, x ∈ new ↔ (0 < occ x l)%nat ∧ ∃ o1, v_objects s1 !! x = Some o1 ∧ v_count o1 = 0;
  sp_rest : v_cycles s1 = [] ∧ v_object__release s1 = v_object__release s ∧ v_object__collect s1 = v_object__collect s
}.

Lemma decrement_push_ok l1 x l2 s1 :
  c p = l1 ++ x :: l2 → stepping l1 s1 →
  ∃ s2, f_decrement_push x s1 = Ok s2 ∧ stepping (l1 ++ [x]) s2.
Proof.
  intros Hl Hs1. assert (Hx : x ∈ c p) by (rewrite Hl; apply elem_of_app; right; by left).
  destruct (children_closed h p x (ca_heap _ _ _ Hs) Hx) as [o Ho].
  pose proof (cs_count h (ca_heap _ _ _ Hs) x o Ho) as Hb.
  assert (Hocc : (occ x l1 < refs c (addresses h) x)%nat).
  { pose proof (refs_le c [p] (addresses h) x (NoDup_singleton p) (addresses_nodup h)) as Hle.
    cbn [refs] in Hle. rewrite Hl, occ_app in Hle. cbn [occ] in Hle. rewrite decide_True in Hle by done.
    assert (Hp : ∀ y, y ∈ [p] → y ∈ addresses h).
    { intros y ->%list_elem_of_singleton. apply addresses_in. by eapply parent_in. }
    specialize (Hle Hp). lia. }
  destruct (sp_object _ _ Hs1 x o Ho) as (o1 & Ho1 & Hc1 & Ht1 & Hsl1 & Hr1 & Hco1 & Hpu1 & Hz1).
  assert (Hsz : to_size (v_count o1 - 1) = v_count o1 - 1) by (apply to_size_id; lia).
  assert (Hne : ∀ y, y ≠ x → occ y (l1 ++ [x]) = occ y l1).
  { intros y Hy. rewrite occ_app. cbn. rewrite decide_False by congruence. lia. }
  assert (Heq : occ x (l1 ++ [x]) = S (occ x l1)) by (rewrite occ_app; cbn; rewrite decide_True by done; lia).
  unfold f_decrement_push, decrement. rewrite (get_ok _ _ _ Ho1). cbn [mbind outcome_bind].
  rewrite decide_True by lia. rewrite (update_ok _ _ _ _ Ho1). cbn [mbind outcome_bind].
  set (oc := with_count (v_count o1 - 1) o1). set (sc := set_objects (<[x := oc]> (v_objects s1)) s1).
  assert (Hoc : v_objects sc !! x = Some oc) by (cbn; apply lookup_insert_eq).
  pose proof (sp_link _ _ Hs1 x) as Hlk. rewrite Ho1 in Hlk. cbn in Hlk.
  assert (Hlink : ∀ m y, (∀ z, z ≠ x → m !! z = v_objects s1 !! z) → y ≠ x → v_link <$> m !! y = link_in m (v_roots s1) y).
  { intros m y Hm Hy. rewrite (Hm y Hy), (sp_link _ _ Hs1 y). unfold link_in. by rewrite (Hm y Hy). }
  destruct Hs1 as [H1 H2 [H3 H3'] H4 (new & H5 & H5' & H5'') H6].
  destruct (decide (v_count o1 - 1 > 0)) as [Hpos|Hzero].
  - rewrite (update_ok _ _ _ _ Hoc). cbn [mbind outcome_bind]. set (op := with_color c_color__PURPLE oc).
    set (sp := set_objects (<[x := op]> (v_objects sc)) sc).
    assert (Hop : v_objects sp !! x = Some op) by (cbn; apply lookup_insert_eq).
    assert (Happ : ∃ s2, append_unlinked x sp = Ok s2 ∧ (∀ y, y ≠ x → v_objects s2 !! y = v_objects s1 !! y) ∧
      v_objects s2 !! x = Some (with_link Root op) ∧ NoDup (v_roots s2) ∧ (∀ y, y ∈ v_roots s2 ↔ y = x ∨ y ∈ v_roots s1) ∧
      v_scan_stack s2 = v_scan_stack s1 ∧ v_cycles s2 = v_cycles s1 ∧ v_object__release s2 = v_object__release s1 ∧
      v_object__collect s2 = v_object__collect s1).
    { unfold append_unlinked. rewrite (get_ok _ _ _ Hop). cbn [mbind outcome_bind op oc v_link with_color with_count].
      unfold link_in in Hlk. destruct (decide (x ∈ v_roots s1)) as [Hin|Hin].
      - apply (inj Some) in Hlk. rewrite Hlk, decide_False by done. exists sp. split_and!; try done.
        + intros y Hy. cbn. by rewrite !lookup_insert_ne.
        + rewrite Hop. f_equal. unfold with_link, op, oc, with_color, with_count. cbn. by rewrite Hlk.
        + intros y. cbn. split; [by right|]. by intros [-> |].
      - rewrite Ho1 in Hlk. cbn in Hlk. apply (inj Some) in Hlk. rewrite Hlk, decide_True by done. unfold f_append.
        rewrite (update_ok _ _ _ _ Hop). cbn [mbind outcome_bind]. eexists. split; [done|]. cbn. split_and!; try done.
        + intros y Hy. by rewrite !lookup_insert_ne.
        + by rewrite lookup_insert_eq.
        + apply NoDup_app. split_and!; [done| |apply NoDup_singleton]. by intros y Hy ->%list_elem_of_singleton.
        + intros y. rewrite elem_of_app, list_elem_of_singleton. tauto. }
    destruct Happ as (s2 & Hs2 & Hoth & Hox & Hnd & Hro & Hst2 & Hcy2 & Hre2 & Hcl2). exists s2. split; [done|].
    clear Hs2. clearbody sp. split; rewrite ?Hst2, ?Hcy2, ?Hre2, ?Hcl2; try done.
    + intros y oy Hoy. destruct (decide (y = x)) as [-> |Hy].
      * simplify_eq. exists (with_link Root op). split; [done|]. rewrite Heq. cbn. rewrite Hsz. split_and!; try done; [lia|by right|].
        intros _ _. split; [done|]. apply Hro. by left.
      * rewrite (Hne y Hy), (Hoth y Hy). destruct (H1 y oy Hoy) as (oy1 & Hoy1 & ? & ? & ? & ? & ? & Hpu & ?). exists oy1.
        split_and!; try done. intros Ha Hb'. destruct (Hpu Ha Hb') as [? ?]. split; [done|]. apply Hro. by right.
    + intros y Hy. assert (Hyx : y ≠ x) by (intros ->; congruence). rewrite Hoth by done. by apply H2.
    + split; [done|]. intros y Hy. apply Hro. right. auto.
    + intros y. destruct (decide (y = x)) as [-> |Hy].
      * rewrite Hox. cbn. unfold link_in. rewrite decide_True; [done|]. apply Hro. by left.
      * rewrite (Hoth y Hy), (H4 y). unfold link_in. rewrite (Hoth y Hy). apply decide_ext. rewrite Hro. tauto.
    + exists new. split_and!; [done|done|]. intros y. rewrite H5''. destruct (decide (y = x)) as [-> |Hy].
      * rewrite Hox, Ho1. split; intros (_ & oy & [= <-] & Hoy); cbn in *; rewrite ?Hsz in *; lia.
      * by rewrite (Hne y Hy), (Hoth y Hy).
  - eexists. split; [done|].
    split; cbn [v_objects v_scan_stack v_roots v_cycles v_object__release v_object__collect set_scan_stack sc set_objects]; try done.
    + intros y oy Hoy. destruct (decide (y = x)) as [-> |Hy].
      * simplify_eq. exists oc. split; [apply lookup_insert_eq|]. rewrite Heq. cbn. rewrite Hsz. split_and!; try done; try (left; done); lia.
      * rewrite (Hne y Hy), lookup_insert_ne by done. by apply H1.
    + intros y Hy. assert (Hyx : y ≠ x) by (intros ->; congruence). rewrite lookup_insert_ne by done. by apply H2.
    + intros y. destruct (decide (y = x)) as [-> |Hy].
      * rewrite lookup_insert_eq. cbn. rewrite Hlk. unfold link_in. rewrite lookup_insert_eq, Ho1. done.
      * apply Hlink; [|done]. intros z Hz. by rewrite lookup_insert_ne.
    + exists (x :: new). rewrite H5. split_and!; [done| |].
      * apply NoDup_cons. split; [|done]. rewrite H5''. rewrite Ho1. intros (_ & o2 & [= <-] & ?). lia.
      * intros y. rewrite elem_of_cons, H5''. destruct (decide (y = x)) as [-> |Hy].
        -- rewrite lookup_insert_eq, Heq. split; [intros _|by left]. split; [lia|]. exists oc. split; [done|]. cbn. lia.
        -- rewrite (Hne y Hy), lookup_insert_ne by done. split; [by intros [?|?]|by right].
Qed.
(** Freeing [p] itself. *)
Lemma free_step s1 :
  stepping (c p) s1 →
  ∃ s2, (s' ← update (with_type None) p s1; o ← get p s';
         match v_link o with
         | Cycle => Ok s'
         | Root => Ok (f_free_as_release p (set_roots (filter (λ q, q ≠ p) (v_roots s')) s'))
         | Unlinked => Ok (f_free_as_release p s')
         end) = Ok s2 ∧ v_objects s2 = delete p (v_objects s1) ∧ v_roots s2 = filter (λ q, q ≠ p) (v_roots s1) ∧
    v_scan_stack s2 = v_scan_stack s1 ∧ v_cycles s2 = v_cycles s1 ∧
    v_object__release s2 = S (v_object__release s1) ∧ v_object__collect s2 = v_object__collect s1.
Proof.
  intros Hs1. destruct (ca_zero _ _ _ Hs p) as (o & Ho & _); [by left|].
  destruct (sp_object _ _ Hs1 p o Ho) as (o1 & Ho1 & _). rewrite (update_ok _ _ _ _ Ho1). cbn [mbind outcome_bind].
  pose proof (sp_link _ _ Hs1 p) as Hlk. rewrite Ho1 in Hlk. cbn in Hlk. unfold link_in in Hlk. rewrite Ho1 in Hlk.
  rewrite (get_ok _ _ (with_type None o1)) by (cbn; apply lookup_insert_eq). cbn [mbind outcome_bind v_link with_type].
  destruct (decide (p ∈ v_roots s1)) as [Hin|Hin]; apply (inj Some) in Hlk; rewrite Hlk; cbn.
  - eexists. split; [done|]. cbn. split_and!; try done. apply delete_insert_eq.
  - eexists. split; [done|]. cbn. split_and!; try done; [apply delete_insert_eq|].
    by rewrite filter_other.
Qed.

Section After.
Context (s1 s2 : t_engine).
Hypothesis Hs1 : stepping (c p) s1.
Hypothesis Hobj : v_objects s2 = delete p (v_objects s1).
Hypothesis Hroots : v_roots s2 = filter (λ q, q ≠ p) (v_roots s1).

Lemma after_object x o :
  x ≠ p → h !! x = Some o → ∃ o2, v_objects s2 !! x = Some o2 ∧
    v_count o2 = v_count o - Z.of_nat (occ x (c p)) ∧ v_type o2 = v_type o ∧ children_of o2 = children_of o ∧
    v_reviving o2 = v_reviving o ∧ (v_color o2 = v_color o ∨ v_color o2 = c_color__PURPLE) ∧
    ((0 < occ x (c p))%nat → 0 < v_count o2 → v_color o2 = c_color__PURPLE ∧ x ∈ v_roots s2) ∧
    (occ x (c p) = 0%nat → v_color o2 = v_color o).
Proof.
  intros Hx Ho. destruct (sp_object _ _ Hs1 x o Ho) as (o2 & Ho2 & Hc & Ht & Hsl & Hr & Hco & Hpu & Hz).
  exists o2. rewrite Hobj, lookup_delete_ne by done. split_and!; try done.
  - unfold children_of. by rewrite Ht, Hsl.
  - intros H1 H2. destruct (Hpu H1 H2) as [? ?]. split; [done|]. rewrite Hroots. by apply list_elem_of_filter.
Qed.

Lemma after_none x : x = p ∨ h !! x = None → v_objects s2 !! x = None.
Proof.
  rewrite Hobj. intros [-> |Hx]; [apply lookup_delete_eq|].
  destruct (decide (x = p)) as [-> |Hne]; [apply lookup_delete_eq|]. rewrite lookup_delete_ne by done. by apply (sp_none _ _ Hs1).
Qed.

Lemma after_before x o2 : v_objects s2 !! x = Some o2 → x ≠ p ∧ ∃ o, h !! x = Some o.
Proof.
  intros Ho2. destruct (decide (x = p)) as [Hx|Hx]; [by rewrite after_none in Ho2 by auto|]. split; [done|].
  destruct (h !! x) as [o|] eqn:Ho; [by exists o|]. by rewrite after_none in Ho2 by auto.
Qed.

Lemma after_children x : x ≠ p → children (v_objects s2) x = c x.
Proof.
  intros Hx. unfold children. destruct (h !! x) as [o|] eqn:Ho.
  - destruct (after_object x o Hx Ho) as (o2 & -> & _ & _ & Hch & _). done.
  - by rewrite after_none by auto.
Qed.

Lemma after_addresses : addresses h ≡ₚ p :: addresses (v_objects s2).
Proof.
  apply NoDup_Permutation; [apply addresses_nodup| |].
  - apply NoDup_cons. split; [|apply addresses_nodup]. rewrite addresses_in, after_none by auto. by intros [].
  - intros x. rewrite elem_of_cons, !addresses_in. split.
    + intros [o Ho]. destruct (decide (x = p)) as [|Hx]; [by left|right].
      destruct (after_object x o Hx Ho) as (o2 & -> & _). by eexists.
    + intros [-> |[o2 Ho2]]; [|by apply after_before in Ho2 as (_ & o & ->); eexists].
      destruct (ca_zero _ _ _ Hs p) as (o & -> & _); [by left|by eexists].
Qed.

Lemma after_counted : counted ext (v_objects s2).
Proof.
  intros x o2 Ho2. destruct (after_before x o2 Ho2) as (Hx & o & Ho).
  destruct (after_object x o Hx Ho) as (o2' & Ho2' & Hc & _). simplify_eq.
  rewrite Hc, (ca_counted _ _ _ Hs x o Ho), (refs_perm _ _ _ x after_addresses). cbn [refs].
  rewrite (refs_ext (children (v_objects s2)) c); [lia|].
  intros y Hy. apply after_children. intros ->. apply addresses_in in Hy. rewrite after_none in Hy by auto. by destruct Hy.
Qed.

(** No path goes through [p]. *)
Lemma after_reach x y : x ≠ p → reach c x y → y ≠ p ∧ reach (children (v_objects s2)) x y.
Proof.
  intros Hx Hr. apply (reach_closed c (λ y, y ≠ p ∧ reach (children (v_objects s2)) x y) x); [|split; [done|reflexivity]|done].
  intros a b [Ha Hra] Hb. split.
  - intros ->. by apply (not_referred a p); [by left|].
  - eapply reach_step; [exact Hra|]. by rewrite after_children.
Qed.

Lemma after_alive x : alive ext s x → alive ext s2 x.
Proof.
  intros (a & Ha & [oa Hoa] & Hr).
  assert (Hap : a ≠ p) by (intros ->; rewrite not_external in Ha by (by left); lia).
  exists a. split_and!; [done| |by apply after_reach].
  destruct (after_object a oa Hap Hoa) as (o2 & -> & _). by eexists.
Qed.

Lemma after_color x : x ≠ p → color s2 x = color s x ∨ color s2 x = Some c_color__PURPLE ∧ (0 < occ x (c p))%nat.
Proof.
  intros Hx. unfold color. destruct (h !! x) as [o|] eqn:Ho.
  - destruct (after_object x o Hx Ho) as (o2 & -> & _ & _ & _ & _ & Hco & _ & Hz). cbn.
    destruct (occ x (c p)) as [|n]; [left; by rewrite Hz|]. destruct Hco as [-> | ->]; [by left|right]. split; [done|lia].
  - rewrite after_none by auto. by left.
Qed.

Lemma after_root r : r ∈ v_roots s → r ≠ p → r ∈ v_roots s2.
Proof. intros Hr Hp. rewrite Hroots. apply list_elem_of_filter. split; [done|]. by apply (sp_roots _ _ Hs1). Qed.

Hypothesis Hstack : v_scan_stack s2 = v_scan_stack s1.

Lemma after_stack : ∃ new, v_scan_stack s2 = new ++ st ∧ NoDup (new ++ st) ∧
  (∀ x, x ∈ new ++ st → ∃ o2, v_objects s2 !! x = Some o2 ∧ v_count o2 = 0) ∧
  ∀ x o2, v_objects s2 !! x = Some o2 → x ∉ new ++ st → 0 < v_count o2.
Proof.
  destruct (sp_stack _ _ Hs1) as (new & Hst & Hnd & Hnew). exists new. rewrite Hstack.
  pose proof (ca_nodup _ _ _ Hs) as [Hpst Hndst]%NoDup_cons.
  assert (Hocc : ∀ x, x ∈ p :: st → occ x (c p) = 0%nat).
  { intros x Hx. destruct (occ x (c p)) eqn:E; [done|]. destruct (not_referred p x Hx). apply occ_in. lia. }
  split_and!; [done| | |].
  - apply NoDup_app. split_and!; [done| |done]. intros x [Hx _]%Hnew Hin. rewrite Hocc in Hx by (by right). lia.
  - intros x Hx. assert (Hxp : x ≠ p).
    { intros ->. apply elem_of_app in Hx as [[Hx _]%Hnew|Hx]; [|done]. rewrite Hocc in Hx by (by left). lia. }
    apply elem_of_app in Hx as [(_ & o1 & Ho1 & Hz)%Hnew|Hx].
    + exists o1. by rewrite Hobj, lookup_delete_ne.
    + destruct (ca_zero _ _ _ Hs x) as (o & Ho & Hz); [by right|].
      destruct (after_object x o Hxp Ho) as (o2 & Ho2 & Hc & _). exists o2. split; [done|].
      rewrite Hocc in Hc by (by right). lia.
  - intros x o2 Ho2 Hx. apply not_elem_of_app in Hx as [Hxn Hxs]. destruct (after_before x o2 Ho2) as (Hxp & o & Ho).
    destruct (after_object x o Hxp Ho) as (o2' & Ho2' & Hc & _). simplify_eq.
    destruct (decide (occ x (c p) = 0%nat)) as [Hz|Hz].
    + assert (0 < v_count o); [|lia]. apply (ca_pos _ _ _ Hs x o Ho). by apply not_elem_of_cons.
    + pose proof (after_counted x o2 Ho2) as Hcnt. destruct (decide (v_count o2 = 0)) as [Hzero|]; [|lia].
      destruct Hxn. apply Hnew. split; [lia|]. exists o2. rewrite Hobj, lookup_delete_ne in Ho2 by done. done.
Qed.

(** Garbage that [p] reached is reached from one of its references. *)
Lemma after_garbage new x :
  v_scan_stack s2 = new ++ st → (∀ x o2, v_objects s2 !! x = Some o2 → x ∉ new ++ st → 0 < v_count o2) →
  is_Some (v_objects s2 !! x) →
  ¬ (¬ alive ext s2 x ∧ ¬ candidate s2 x ∧ ¬ ∃ w, w ∈ new ++ st ∧ reach (children (v_objects s2)) w x).
Proof.
  intros Hst Hpos [o2 Ho2] (Ha & Hc & Hw). destruct (after_before x o2 Ho2) as (Hxp & o & Ho).
  assert (Hp : ¬ reach c p x).
  { intros Hr. apply rtc_inv in Hr as [<- |(y & Hy & Hyx)]; [done|].
    assert (Hyp : y ≠ p) by (intros ->; apply (not_referred p p); [by left|done]).
    destruct (after_reach y x Hyp Hyx) as [_ Hyx2].
    destruct (children_closed h p y (ca_heap _ _ _ Hs) Hy) as [oy Hoy].
    destruct (after_object y oy Hyp Hoy) as (oy2 & Hoy2 & _ & _ & _ & _ & _ & Hpu & _).
    destruct (decide (y ∈ new ++ st)) as [Hin|Hin]; [apply Hw; by exists y|].
    destruct Hpu as [Hcol Hro]; [by apply occ_in|by apply (Hpos y)|].
    apply Hc. exists y. split_and!; [done|unfold color; rewrite Hoy2; cbn; by f_equal|done]. }
  apply (ca_garbage _ _ _ Hs x); [by eexists|]. split_and!.
  - intros Hal. by apply Ha, after_alive.
  - intros (r & Hr & Hcr & Hrx). destruct (decide (r = p)) as [-> |Hrp]; [done|].
    apply Hc. exists r. split_and!; [by apply after_root| |by apply after_reach].
    destruct (after_color r Hrp) as [-> |[? _]]; done.
  - intros (w & [-> |Hwst]%elem_of_cons & Hwx); [done|]. apply Hw. exists w. split; [apply elem_of_app; by right|].
    apply after_reach; [|done]. intros ->. by pose proof (ca_nodup _ _ _ Hs) as [? _]%NoDup_cons.
Qed.

Lemma after_cascading : v_cycles s2 = [] → cascading ext (v_scan_stack s2) s2.
Proof.
  intros Hcy. destruct after_stack as (new & Hst & Hnd & Hzero & Hpos). rewrite Hst.
  split; try done.
  - split.
    + intros x o2 Ho2. destruct (after_before x o2 Ho2) as (Hx & o & Ho).
      destruct (after_object x o Hx Ho) as (o2' & Ho2' & _ & Ht & _). simplify_eq. rewrite Ht. by apply (cs_type h (ca_heap _ _ _ Hs) x).
    + intros x o2 y Ho2 Hy. destruct (after_before x o2 Ho2) as (Hx & o & Ho).
      assert (Hyx : y ∈ c x) by (rewrite <- after_children by done; unfold children; by rewrite Ho2).
      destruct (children_closed h x y (ca_heap _ _ _ Hs) Hyx) as [oy Hoy].
      destruct (after_object y oy) as (oy2 & -> & _); [|done|by eexists]. intros ->. by apply (not_referred x p); [by left|].
    + intros x o2 Ho2. pose proof (after_counted x o2 Ho2) as Hc. destruct (after_before x o2 Ho2) as (Hx & o & Ho).
      destruct (after_object x o Hx Ho) as (o2' & Ho2' & Hc2 & _). simplify_eq.
      pose proof (cs_count h (ca_heap _ _ _ Hs) x o Ho). lia.
  - apply after_counted.
  - intros x Hx. destruct (ca_outside _ _ _ Hs x Hx) as [o Ho].
    destruct (after_object x o) as (o2 & -> & _); [|done|by eexists]. intros ->. rewrite not_external in Hx by (by left). lia.
  - intros x y Hx Hsx Hro Hy. assert (Hxp : x ≠ p).
    { intros ->. pose proof (parent_in _ _ _ Hy) as Hin. rewrite after_none in Hin by auto. by destruct Hin. }
    rewrite after_children in Hy by done.
    assert (Hyp : y ≠ p) by (intros ->; by apply (not_referred x p); [by left|]).
    assert (Hsy : settled (color s y) → settled (color s2 y)).
    { intros Hsy. destruct (after_color y Hyp) as [-> |[-> _]]; [done|by right]. }
    apply Hsy. destruct (parent_in _ _ _ Hy) as [o Ho].
    destruct (after_object x o Hxp Ho) as (o2 & Ho2 & _ & _ & _ & _ & _ & Hpu & Hz).
    destruct (decide (occ x (c p) = 0%nat)) as [Hocc|Hocc].
    + apply (ca_settled _ _ _ Hs x y).
      * apply not_elem_of_cons. split; [done|]. intros Hin. apply Hx, elem_of_app. by right.
      * unfold color in *. rewrite Ho2 in Hsx. rewrite Ho. cbn in *. by rewrite <- Hz.
      * intros Hr. by apply Hro, after_root.
      * done.
    + destruct Hpu as [_ ?]; [lia|by apply (Hpos x)|done].
  - rewrite Hroots. apply NoDup_filter, (sp_roots _ _ Hs1).
  - intros x. destruct (decide (x = p)) as [-> |Hx].
    + rewrite after_none by auto. unfold link_in. rewrite after_none by auto. rewrite decide_False; [done|].
      rewrite Hroots. by intros [? _]%list_elem_of_filter.
    + unfold link_in. rewrite Hobj, lookup_delete_ne by done. rewrite (sp_link _ _ Hs1 x). unfold link_in. apply decide_ext.
      rewrite Hroots, list_elem_of_filter. tauto.
  - intros x o2 Ho2. destruct (after_before x o2 Ho2) as (Hx & o & Ho).
    destruct (after_object x o Hx Ho) as (o2' & Ho2' & _ & _ & _ & Hr & _). simplify_eq.
    rewrite Hr. by apply (ca_reviving _ _ _ Hs x).
  - intros x Hx. by apply after_garbage.
Qed.
End After.

Lemma decrement_step_ok :
  ∃ s2, f_decrement_step p s = Ok s2 ∧ cascading ext (v_scan_stack s2) s2 ∧
    size (v_objects s) = S (size (v_objects s2)) ∧
    (∀ x o2, v_objects s2 !! x = Some o2 → ∃ o, h !! x = Some o ∧ v_type o2 = v_type o ∧ children_of o2 = children_of o) ∧
    (∀ x, alive ext s x → alive ext s2 x).
Proof.
  destruct (ca_zero _ _ _ Hs p) as (o & Ho & Hzero); [by left|].
  destruct (cs_type h (ca_heap _ _ _ Hs) p o Ho) as [t Ht].
  assert (Hch : children_of o = c p) by (unfold children; by rewrite Ho).
  unfold f_decrement_step.
  destruct (f_step_ind f_decrement_push p s o t stepping Ho Ht) as (s1 & -> & Hs1).
  - split; try done.
    + intros x ox Hox. exists ox. cbn. split_and!; try done; [lia|by left|lia].
    + split; [apply (ca_roots _ _ _ Hs)|done].
    + apply (ca_link _ _ _ Hs).
    + exists []. split_and!; [done|by apply NoDup_nil|]. intros x. cbn. split; [by intros ?%not_elem_of_nil|lia].
    + split; [apply (ca_cycles _ _ _ Hs)|done].
  - intros l1 x l2 s1 Hl. rewrite Hch in Hl. by apply decrement_push_ok with (l2 := l2).
  - cbn [mbind outcome_bind]. rewrite Hch in Hs1.
    destruct (free_step s1 Hs1) as (s2 & -> & Hobj & Hroots & Hst & Hcy & Hre & Hcl). exists s2. split; [done|].
    split_and!.
    + apply (after_cascading s1 s2 Hs1 Hobj Hroots Hst). rewrite Hcy. apply (sp_rest _ _ Hs1).
    + rewrite <- !addresses_length, (Permutation_length (after_addresses s1 s2 Hs1 Hobj Hroots)). done.
    + intros x o2 Ho2. destruct (after_before s1 s2 Hs1 Hobj x o2 Ho2) as (Hx & ox & Hox).
      destruct (after_object s1 s2 Hs1 Hobj Hroots x ox Hx Hox) as (o2' & Ho2' & _ & Hty & Hchx & _). simplify_eq. by exists ox.
    + intros x. by apply (after_alive s1 s2).
Qed.
End Step.
