(* ===== verification/CollectorProgram.v ===== *)
(** * Programs on the collected heap

    What a program does with the heap, one operation after the other: it
    creates objects, takes and drops references to them from its stacks, and
    stores references in the slots of objects.  A collection may come in
    between. *)
From stdpp Require Import base list numbers strings gmap.
From S2P Require Import Prelude Machine Collector CollectorGraph CollectorMark CollectorScan CollectorCycles CollectorFind CollectorFree CollectorRound CollectorCount.
Local Open Scope Z_scope.

(** [f_allocate] and [f_be]: the colour and [v_cyclic] are what the memory
    held before.  The count is for a decrement that is pending. *)
Definition f_new (p t : t_address) (color : t_color) (cyclic : Z) (s : t_engine) : outcome t_engine :=
  match v_objects s !! p with
  | Some _ => Fault
  | None =>
    s ← f_increment t s;
    Ok (set_objects (<[p := {| v_color := color; v_reviving := false; v_count := 1; v_cyclic := cyclic;
                               v_type := Some t; v_slots := []; v_link := Unlinked |}]> (v_objects s)) s)
  end.

(** The increments and decrements of an assignment to a slot of [y]: [before]
    and [after] are the references in the other slots. *)
Definition f_assign (y : t_address) (before : list t_address) (old new : option t_address) (after : list t_address)
    (s : t_engine) : outcome t_engine :=
  s ← match new with Some x => f_increment x s | None => Ok s end;
  s ← update (with_slots (before ++ option_list new ++ after)) y s;
  match old with Some x => f_decrement x s | None => Ok s end.

(** ** One object is replaced by another of the same shape *)

Section Insert.
Context (h : gmap t_address t_object) (x : t_address) (o o' : t_object).
Hypothesis Ho : h !! x = Some o.
Abbreviation h' := (<[x := o']> h).

Lemma insert_addresses : addresses h' ≡ₚ addresses h.
Proof.
  apply NoDup_Permutation; [apply addresses_nodup..|]. intros y. rewrite !addresses_in.
  destruct (decide (y = x)) as [-> |Hy]; [|by rewrite lookup_insert_ne].
  rewrite lookup_insert_eq, Ho. split; intros _; by eexists.
Qed.

Lemma insert_is_Some y : is_Some (h' !! y) ↔ is_Some (h !! y).
Proof. rewrite <- !addresses_in. by rewrite insert_addresses. Qed.

Hypothesis Hch : children_of o' = children_of o.

Lemma insert_children y : children h' y = children h y.
Proof.
  unfold children. destruct (decide (y = x)) as [-> |Hy]; [by rewrite lookup_insert_eq, Ho|by rewrite lookup_insert_ne].
Qed.

Lemma insert_refs y : refs (children h') (addresses h') y = refs (children h) (addresses h) y.
Proof. rewrite (refs_perm _ _ _ y insert_addresses). apply refs_ext. intros z _. apply insert_children. Qed.

Lemma insert_consistent :
  consistent h → is_Some (v_type o') →
  Z.of_nat (refs (children h) (addresses h) x) <= v_count o' < SIZE_MODULUS → consistent h'.
Proof.
  intros [Ht Hcl Hc] Hty Hcount. split.
  - intros y oy. destruct (decide (y = x)) as [-> |Hy]; [rewrite lookup_insert_eq; by intros [= <-]|].
    rewrite lookup_insert_ne by done. apply Ht.
  - intros y oy z Hoy Hz. apply insert_is_Some. destruct (decide (y = x)) as [-> |Hy].
    + rewrite lookup_insert_eq in Hoy. apply (inj Some) in Hoy as <-. rewrite Hch in Hz. by apply (Hcl x o).
    + rewrite lookup_insert_ne in Hoy by done. by apply (Hcl y oy).
  - intros y oy. rewrite insert_refs. destruct (decide (y = x)) as [-> |Hy]; [rewrite lookup_insert_eq; by intros [= <-]|].
    rewrite lookup_insert_ne by done. apply Hc.
Qed.

Lemma insert_reach y z : reach (children h) y z → reach (children h') y z.
Proof. apply reach_ext. intros w. symmetry. apply insert_children. Qed.
End Insert.

(** One more reference from outside of the heap. *)
Definition plus (ext : t_address → nat) (x : t_address) : t_address → nat :=
  λ y, if decide (y = x) then S (ext y) else ext y.

Lemma plus_eq ext x : plus ext x x = S (ext x).
Proof. unfold plus. by rewrite decide_True. Qed.

Lemma plus_ne ext x y : y ≠ x → plus ext x y = ext y.
Proof. intros Hy. unfold plus. by rewrite decide_False. Qed.

Lemma plus_pos ext x y : (0 < plus ext x y)%nat → y = x ∨ (0 < ext y)%nat.
Proof. unfold plus. case_decide; auto. Qed.

Lemma wf_proper ext ext' s : (∀ x, ext x = ext' x) → wf ext s → wf ext' s.
Proof.
  intros He [H1 H2 H0 H3 H4 H5]. split; try done.
  - intros x o Ho. rewrite <- He. by apply H2.
  - intros x. rewrite <- He. apply H0.
  - intros x Hx [Ha Hc]. apply (H5 x Hx). split; [|done]. intros (z & Hz & H'). apply Ha. exists z. by rewrite <- He.
Qed.

(** [update] and [append_unlinked] at an object that becomes a root. *)
Lemma become_root f x s o :
  v_objects s !! x = Some o → v_link (f o) = v_link o →
  (∀ y, v_link <$> v_objects s !! y = link_in (v_objects s) (v_roots s) y) → NoDup (v_roots s) →
  ∃ s', (s ← update f x s; append_unlinked x s) = Ok s' ∧
    v_objects s' = <[x := with_link Root (f o)]> (v_objects s) ∧ NoDup (v_roots s') ∧
    (∀ y, y ∈ v_roots s' ↔ y = x ∨ y ∈ v_roots s) ∧
    (∀ y, v_link <$> v_objects s' !! y = link_in (v_objects s') (v_roots s') y) ∧
    v_scan_stack s' = v_scan_stack s ∧ v_cycles s' = v_cycles s ∧
    v_object__release s' = v_object__release s ∧ v_object__collect s' = v_object__collect s.
Proof.
  intros Ho Hf Hlink Hnd. rewrite (update_ok _ _ _ _ Ho). cbn [mbind outcome_bind].
  set (s1 := set_objects (<[x := f o]> (v_objects s)) s).
  assert (Ho1 : v_objects s1 !! x = Some (f o)) by (cbn; apply lookup_insert_eq).
  unfold append_unlinked. rewrite (get_ok _ _ _ Ho1). cbn [mbind outcome_bind]. rewrite Hf.
  pose proof (Hlink x) as Hx. rewrite Ho in Hx. unfold link_in in Hx. rewrite Ho in Hx. cbn in Hx.
  assert (Hall : ∀ R m, m = <[x := with_link Root (f o)]> (v_objects s) → (∀ y, y ∈ R ↔ y = x ∨ y ∈ v_roots s) →
    ∀ y, v_link <$> m !! y = link_in m R y).
  { intros R m -> HR y. unfold link_in. destruct (decide (y = x)) as [-> |Hy].
    - rewrite lookup_insert_eq, decide_True; [done|]. apply HR. by left.
    - rewrite lookup_insert_ne, (Hlink y) by done. unfold link_in. apply decide_ext. rewrite HR. tauto. }
  destruct (decide (x ∈ v_roots s)) as [Hin|Hin]; apply (inj Some) in Hx; rewrite Hx.
  - rewrite decide_False by done. exists s1. split; [done|].
    assert (E : f o = with_link Root (f o)) by (destruct (f o) eqn:E; cbn in *; by rewrite Hf, Hx).
    assert (Ho' : v_objects s1 = <[x := with_link Root (f o)]> (v_objects s)) by (by rewrite <- E).
    assert (HR : ∀ y, y ∈ v_roots s1 ↔ y = x ∨ y ∈ v_roots s) by (intros y; cbn; split; [by right|by intros [-> |]]).
    split_and!; try done. by apply Hall.
  - rewrite decide_True by done. unfold f_append. rewrite (update_ok _ _ _ _ Ho1). cbn [mbind outcome_bind].
    eexists. split; [done|].
    cbn [v_objects v_roots v_scan_stack v_cycles v_object__release v_object__collect set_objects set_roots].
    assert (HR : ∀ y, y ∈ v_roots s1 ++ [x] ↔ y = x ∨ y ∈ v_roots s) by (intros y; rewrite elem_of_app, list_elem_of_singleton; cbn; tauto).
    assert (Ho' : <[x := with_link Root (f o)]> (v_objects s1) = <[x := with_link Root (f o)]> (v_objects s))
      by (cbn; by rewrite insert_insert_eq).
    split_and!; try done.
    + apply NoDup_app. split_and!; [done| |apply NoDup_singleton]. by intros y Hy ->%list_elem_of_singleton.
    + by apply Hall.
Qed.

(** An object gets another count, and it becomes a root with a settled colour. *)
Section Root.
Context (ext ext' : t_address → nat) (s s' : t_engine) (x : t_address) (o : t_object) (k : t_color) (n : Z).
Abbreviation h := (v_objects s).
Abbreviation o' := (with_link Root (with_color k (with_count n o))).
Hypothesis Hs : wf ext s.
Hypothesis Ho : h !! x = Some o.
Hypothesis Hk : settled (Some k).
Hypothesis Hobj : v_objects s' = <[x := o']> h.
Hypothesis Hnd : NoDup (v_roots s').
Hypothesis Hroots : ∀ y, y ∈ v_roots s' ↔ y = x ∨ y ∈ v_roots s.
Hypothesis Hlink : ∀ y, v_link <$> v_objects s' !! y = link_in (v_objects s') (v_roots s') y.
Hypothesis Hstack : v_scan_stack s' = v_scan_stack s.
Hypothesis Hcycles : v_cycles s' = v_cycles s.
Hypothesis Hn : 0 < n < SIZE_MODULUS.
Hypothesis Hcount : n = Z.of_nat (ext' x) + Z.of_nat (refs (children h) (addresses h) x).
Hypothesis Hext : ∀ y, y ≠ x → ext' y = ext y.

Lemma root_children y : children (v_objects s') y = children h y.
Proof. rewrite Hobj. by apply (insert_children h x o). Qed.

Lemma root_reach y z : reach (children h) y z → reach (children (v_objects s')) y z.
Proof. apply reach_ext. intros w. symmetry. apply root_children. Qed.

Lemma root_color y : color s' y = if decide (y = x) then Some k else color s y.
Proof.
  unfold color. rewrite Hobj. case_decide as E; [rewrite E; by rewrite lookup_insert_eq|by rewrite lookup_insert_ne].
Qed.

Lemma root_wf :
  (∀ y, is_Some (h !! y) → ¬ (¬ alive ext' s' y ∧ ¬ candidate s' y)) → wf ext' s'.
Proof.
  intros Hg. pose proof (wf_ready _ _ Hs) as Hr. assert (Hsz : to_size n = n) by (apply to_size_id; lia).
  assert (Hlook : ∀ y oy, v_objects s' !! y = Some oy → y = x ∧ oy = o' ∨ y ≠ x ∧ h !! y = Some oy).
  { intros y oy. rewrite Hobj. destruct (decide (y = x)) as [-> |Hy].
    - rewrite lookup_insert_eq. intros [= <-]. by left.
    - rewrite lookup_insert_ne by done. by right. }
  split.
  - split.
    + rewrite Hobj. apply (insert_consistent h x o); [done|done|apply (rd_heap _ Hr)| |].
      * apply (cs_type h (rd_heap _ Hr) x o Ho).
      * cbn. rewrite Hsz. lia.
    + intros y z Hy Hro Hz. rewrite root_children in Hz. rewrite root_color in *.
      assert (Hyx : y ≠ x ∧ y ∉ v_roots s) by (split; intros ?; apply Hro, Hroots; auto).
      rewrite decide_False in Hy by apply Hyx.
      assert (Hsz' : settled (color s z)) by (apply (rd_settled _ Hr y z); [done|apply Hyx|done]).
      case_decide; done.
    + done.
    + done.
    + rewrite Hstack. apply (rd_stack _ Hr).
    + rewrite Hcycles. apply (rd_cycles _ Hr).
  - intros y oy Hoy. rewrite Hobj, (insert_refs h x o) by done. destruct (Hlook y oy Hoy) as [[-> ->]|[Hy Hoy']].
    + cbn. rewrite Hsz. done.
    + rewrite Hext by done. by apply (wf_counted _ _ Hs).
  - intros y Hy. rewrite Hobj. apply (insert_is_Some h x o); [done|]. destruct (decide (y = x)) as [-> |Hyx]; [by eexists|].
    rewrite Hext in Hy by done. by apply (wf_outside _ _ Hs).
  - intros y oy Hoy. destruct (Hlook y oy Hoy) as [[-> ->]|[Hy Hoy']]; [cbn; lia|by apply (wf_pos _ _ Hs y)].
  - intros y oy Hoy. destruct (Hlook y oy Hoy) as [[-> ->]|[Hy Hoy']]; [cbn; by apply (wf_reviving _ _ Hs x)|by apply (wf_reviving _ _ Hs y)].
  - intros y Hy. apply Hg. rewrite Hobj in Hy. by apply (insert_is_Some h x o o').
Qed.
End Root.

(** What an operation keeps: the objects that it leaves refer to the same ones
    as before. *)
Definition keeps (s s' : t_engine) : Prop :=
  ∀ y o', v_objects s' !! y = Some o' →
    ∃ o, v_objects s !! y = Some o ∧ v_type o' = v_type o ∧ children_of o' = children_of o.

Lemma keeps_trans s1 s2 s3 : keeps s1 s2 → keeps s2 s3 → keeps s1 s3.
Proof.
  intros H1 H2 y o3 Ho3. destruct (H2 y o3 Ho3) as (o2 & Ho2 & Ht2 & Hc2).
  destruct (H1 y o2 Ho2) as (o1 & Ho1 & Ht1 & Hc1). exists o1. split_and!; congruence.
Qed.

Lemma increment_ok ext s x o :
  wf ext s → v_objects s !! x = Some o → v_count o + 1 < SIZE_MODULUS →
  ∃ s', f_increment x s = Ok s' ∧ wf (plus ext x) s' ∧
    v_objects s' = <[x := with_link Root (with_color c_color__BLACK (with_count (v_count o + 1) o))]> (v_objects s) ∧
    (∀ y, is_Some (v_objects s !! y) ↔ is_Some (v_objects s' !! y)) ∧ settled (color s' x).
Proof.
  intros Hs Ho Hb. pose proof (wf_ready _ _ Hs) as Hr.
  destruct (become_root (λ o, with_color c_color__BLACK (with_count (v_count o + 1) o)) x s o Ho eq_refl
    (rd_link _ Hr) (rd_nodup _ Hr)) as (s' & Hs' & Hobj & Hnd & Hro & Hlink & Hst & Hcy & _).
  exists s'. split; [exact Hs'|]. pose proof (wf_counted _ _ Hs x o Ho) as Hc.
  assert (Hin : ∀ y, is_Some (v_objects s !! y) ↔ is_Some (v_objects s' !! y)).
  { intros y. rewrite Hobj. symmetry. by apply (insert_is_Some _ x o). }
  assert (Hreach : ∀ y z, reach (children (v_objects s)) y z → reach (children (v_objects s')) y z).
  { intros y z. by apply (root_reach s s' x o c_color__BLACK (v_count o + 1)). }
  assert (Hxa : alive (plus ext x) s' x).
  { exists x. rewrite plus_eq. split_and!; [lia|apply Hin; by eexists|reflexivity]. }
  split; [|split; [done|split; [done|]]].
  - apply (root_wf ext (plus ext x) s s' x o c_color__BLACK (v_count o + 1)); try done; [by left| | | |].
    + pose proof (wf_pos _ _ Hs x o Ho). lia.
    + rewrite plus_eq. lia.
    + intros y. apply plus_ne.
    + intros y Hy [Ha Hcn]. apply (wf_garbage _ _ Hs y Hy). split.
      * intros (z & Hz & Hzin & Hzy). apply Ha. exists z. split_and!; [|by apply Hin|by apply Hreach].
        unfold plus. case_decide; lia.
      * intros (r & Hrr & Hcr & Hry). destruct (decide (r = x)) as [-> |Hrx].
        -- apply Ha. exists x. rewrite plus_eq. split_and!; [lia|apply Hin; by eexists|by apply Hreach].
        -- apply Hcn. exists r. split_and!; [apply Hro; by right| |by apply Hreach].
           rewrite (root_color s s' x o c_color__BLACK (v_count o + 1)) by done. by rewrite decide_False.
  - rewrite (root_color s s' x o c_color__BLACK (v_count o + 1)) by done. rewrite decide_True by done. by left.
Qed.

(** ** Dropping a reference *)

Lemma cascading_stack ext W s st : cascading ext W s → cascading ext W (set_scan_stack st s).
Proof. intros []. by split. Qed.

(** The last reference: the object is freed, and what only it referred to. *)
Lemma cascade_ok ext s p :
  cascading ext (p :: v_scan_stack s) s → v_scan_stack s = [] →
  ∃ s', f_loop (rounds s) f_decrement_step p s = Ok s' ∧ wf ext s' ∧ keeps s s' ∧
    (∀ y, alive ext s y → alive ext s' y).
Proof.
  intros Hs Hst.
  destruct (f_loop_ind f_decrement_step
    (λ n q t, cascading ext (q :: v_scan_stack t) t ∧ (n + size (v_objects t) = size (v_objects s))%nat ∧
       keeps s t ∧ ∀ y, alive ext s y → alive ext t y)
    (λ t, wf ext t ∧ keeps s t ∧ ∀ y, alive ext s y → alive ext t y))
    with (bound := S (2 * size (v_objects s))) (fuel := rounds s) (p := p) (s := s) as (s' & Hs' & H').
  - intros n q t (Ht & Hn & Hk & Ha). destruct (decrement_step_ok ext t q Ht) as (t' & Ht' & Hc & Hsize & Hk' & Ha').
    assert (Hkt : keeps s t') by (by eapply keeps_trans).
    exists t'. split; [done|]. destruct (v_scan_stack t') as [|q' st] eqn:Est.
    + split_and!; [by apply wf_cascading|done|auto].
    + split_and!; [by apply cascading_stack|cbn; lia|done|].
      intros y Hy. by apply Ha', Ha.
  - intros n q t (_ & Hn & _). lia.
  - done.
  - split_and!; [done|lia| |done]. intros y o Ho. by exists o.
  - by exists s'.
Qed.

Lemma update_update f g x s : (s ← update f x s; update g x s) = update (λ o, g (f o)) x s.
Proof.
  unfold update. destruct (v_objects s !! x) as [o|] eqn:Ho; [|done]. cbn. rewrite lookup_insert_eq.
  by rewrite insert_insert_eq.
Qed.

Section Last.
Context (ext : t_address → nat) (s : t_engine) (x : t_address) (o : t_object).
Hypothesis Hs : wf (plus ext x) s.
Hypothesis Ho : v_objects s !! x = Some o.
Hypothesis Hone : v_count o = 1.
Abbreviation h := (v_objects s).
Abbreviation s1 := (set_objects (<[x := with_count 0 o]> h) s).

Lemma last_refs : ext x = 0%nat ∧ refs (children h) (addresses h) x = 0%nat.
Proof. pose proof (wf_counted _ _ Hs x o Ho) as Hc. rewrite plus_eq in Hc. lia. Qed.

Lemma last_cascading : cascading ext [x] s1.
Proof.
  pose proof (wf_ready _ _ Hs) as Hr. destruct last_refs as [He Hrefs].
  assert (Hch : ∀ y, children (v_objects s1) y = children h y) by (intros y; by apply (insert_children h x o)).
  assert (Hcol : ∀ y, color s1 y = color s y).
  { intros y. unfold color. cbn. destruct (decide (y = x)) as [-> |Hy]; [by rewrite lookup_insert_eq, Ho|by rewrite lookup_insert_ne]. }
  assert (Hreach : ∀ y z, reach (children h) y z → reach (children (v_objects s1)) y z) by (intros y z; by apply reach_ext).
  assert (Hlook : ∀ y oy, v_objects s1 !! y = Some oy → y = x ∧ oy = with_count 0 o ∨ y ≠ x ∧ h !! y = Some oy).
  { intros y oy. cbn. destruct (decide (y = x)) as [-> |Hy].
    - rewrite lookup_insert_eq. intros [= <-]. by left.
    - rewrite lookup_insert_ne by done. by right. }
  split; try done.
  - apply (insert_consistent h x o); [done|done|apply (rd_heap _ Hr)| |].
    + apply (cs_type h (rd_heap _ Hr) x o Ho).
    + rewrite Hrefs. cbn. rewrite to_size_id by done. done.
  - intros y oy Hoy. change (v_objects s1) with (<[x := with_count 0 o]> h). rewrite (insert_refs h x o) by done.
    destruct (Hlook y oy Hoy) as [[-> ->]|[Hy Hoy']].
    + cbn. rewrite to_size_id by done. lia.
    + rewrite (wf_counted _ _ Hs y oy Hoy'), plus_ne by done. done.
  - intros y Hy. apply (insert_is_Some h x o); [done|]. apply (wf_outside _ _ Hs). unfold plus. case_decide; lia.
  - intros y ->%list_elem_of_singleton. exists (with_count 0 o). split; [cbn; apply lookup_insert_eq|]. cbn. by apply to_size_id.
  - intros y oy Hoy Hy. destruct (Hlook y oy Hoy) as [[-> ->]|[_ Hoy']]; [|by apply (wf_pos _ _ Hs y)].
    destruct Hy. by left.
  - apply NoDup_singleton.
  - intros y z Hy Hsy Hro Hz. rewrite Hcol, Hch in *. by apply (rd_settled _ Hr y).
  - apply (rd_nodup _ Hr).
  - intros y. transitivity (v_link <$> h !! y).
    + cbn. destruct (decide (y = x)) as [-> |Hy]; [by rewrite lookup_insert_eq, Ho|by rewrite lookup_insert_ne].
    + rewrite (rd_link _ Hr y). unfold link_in. change (v_roots s1) with (v_roots s). destruct (decide (y ∈ v_roots s)); [done|]. cbn.
      destruct (decide (y = x)) as [-> |Hy]; [by rewrite lookup_insert_eq, Ho|by rewrite lookup_insert_ne].
  - apply (rd_cycles _ Hr).
  - intros y oy Hoy. destruct (Hlook y oy Hoy) as [[-> ->]|[_ Hoy']]; [exact (wf_reviving _ _ Hs x o Ho)|by apply (wf_reviving _ _ Hs y)].
  - intros y Hy (Ha & Hc & Hw). apply (insert_is_Some h x o) in Hy; [|done]. apply (wf_garbage _ _ Hs y Hy). split.
    + intros (z & Hz & Hzin & Hzy). apply plus_pos in Hz as [-> |Hz].
      * apply Hw. exists x. split; [by left|by apply Hreach].
      * apply Ha. exists z. split_and!; [done|by apply (insert_is_Some h x o)|by apply Hreach].
    + intros (r & Hr' & Hcr & Hry). apply Hc. exists r. split_and!; [done|by rewrite Hcol|by apply Hreach].
Qed.
End Last.

Lemma decrement_ok ext s x :
  wf (plus ext x) s → is_Some (v_objects s !! x) →
  ∃ s', f_decrement x s = Ok s' ∧ wf ext s' ∧ keeps s s' ∧ (∀ y, alive ext s y → alive ext s' y).
Proof.
  intros Hs [o Ho]. pose proof (wf_ready _ _ Hs) as Hr. pose proof (wf_counted _ _ Hs x o Ho) as Hc. rewrite plus_eq in Hc.
  pose proof (cs_count _ (rd_heap _ Hr) x o Ho) as Hb. pose proof (wf_pos _ _ Hs x o Ho) as Hpos.
  unfold f_decrement, decrement. rewrite (get_ok _ _ _ Ho). cbn [mbind outcome_bind]. rewrite decide_True by lia.
  destruct (decide (v_count o - 1 > 0)) as [Hp|Hp].
  - assert (E : (s ← update (λ o, with_count (v_count o - 1) o) x s; s ← update (with_color c_color__PURPLE) x s; append_unlinked x s)
      = (s ← update (λ o, with_color c_color__PURPLE (with_count (v_count o - 1) o)) x s; append_unlinked x s)).
    { rewrite <- update_update. by rewrite outcome_bind_assoc. }
    rewrite E. clear E.
    destruct (become_root (λ o, with_color c_color__PURPLE (with_count (v_count o - 1) o)) x s o Ho eq_refl
      (rd_link _ Hr) (rd_nodup _ Hr)) as (s' & Hs' & Hobj & Hnd & Hro & Hlink & Hst & Hcy & _).
    exists s'. split; [exact Hs'|].
    assert (Hin : ∀ y, is_Some (v_objects s !! y) → is_Some (v_objects s' !! y)).
    { intros y. rewrite Hobj. by apply (insert_is_Some _ x o). }
    assert (Hreach : ∀ y z, reach (children (v_objects s)) y z → reach (children (v_objects s')) y z).
    { intros y z. by apply (root_reach s s' x o c_color__PURPLE (v_count o - 1)). }
    assert (Hcol : ∀ y, color s' y = if decide (y = x) then Some c_color__PURPLE else color s y).
    { by apply (root_color s s' x o c_color__PURPLE (v_count o - 1)). }
    split; [|split].
    + apply (root_wf (plus ext x) ext s s' x o c_color__PURPLE (v_count o - 1)); try done; [by right|lia|lia| |].
      * intros y Hy. by rewrite plus_ne.
      * intros y Hy [Ha Hcn]. apply (wf_garbage _ _ Hs y Hy).
        assert (Hxy : ¬ reach (children (v_objects s)) x y).
        { intros Hxy. apply Hcn. exists x. split_and!; [apply Hro; by left|by rewrite Hcol, decide_True|by apply Hreach]. }
        split.
        -- intros (z & Hz & Hzin & Hzy). apply plus_pos in Hz as [-> |Hz]; [done|].
           apply Ha. exists z. split_and!; [done|by apply Hin|by apply Hreach].
        -- intros (r & Hrr & Hcr & Hry). apply Hcn. exists r. split_and!; [apply Hro; by right| |by apply Hreach].
           rewrite Hcol. by case_decide.
    + intros y oy Hoy. rewrite Hobj in Hoy. destruct (decide (y = x)) as [-> |Hy].
      * rewrite lookup_insert_eq in Hoy. apply (inj Some) in Hoy as <-. by exists o.
      * rewrite lookup_insert_ne in Hoy by done. by exists oy.
    + intros y (z & Hz & Hzin & Hzy). exists z. split_and!; [done|by apply Hin|by apply Hreach].
  - assert (Hone : v_count o = 1) by lia. rewrite (update_ok _ _ _ _ Ho), Hone. cbn [mbind outcome_bind].
    change (1 - 1) with 0. pose proof (last_cascading ext s x o Hs Ho Hone) as Hca.
    set (s1 := set_objects (<[x := with_count 0 o]> (v_objects s)) s) in *.
    assert (Hst1 : v_scan_stack s1 = []) by apply (rd_stack _ Hr).
    destruct (cascade_ok ext s1 x) as (s' & Hs' & Hwf & Hk & Ha); [by rewrite Hst1|done|].
    exists s'. split; [exact Hs'|]. split_and!; [done| |].
    + eapply keeps_trans; [|exact Hk]. intros y oy Hoy. cbn in Hoy. destruct (decide (y = x)) as [-> |Hy].
      * rewrite lookup_insert_eq in Hoy. apply (inj Some) in Hoy as <-. by exists o.
      * rewrite lookup_insert_ne in Hoy by done. by exists oy.
    + intros y (z & Hz & Hzin & Hzy). apply Ha. exists z. split_and!; [done|by apply (insert_is_Some _ x o)|].
      eapply reach_ext; [|exact Hzy]. intros w. symmetry. by apply (insert_children _ x o).
Qed.

(** ** Creating an object *)

Section New.
Context (ext : t_address → nat) (s : t_engine) (p t : t_address) (k : t_color) (cyclic : Z).
Hypothesis Hs : wf (plus ext t) s.
Hypothesis Hp : v_objects s !! p = None.
Hypothesis Ht : is_Some (v_objects s !! t).
Hypothesis Hsettled : settled (color s t).
Abbreviation h := (v_objects s).
Abbreviation o := {| v_color := k; v_reviving := false; v_count := 1; v_cyclic := cyclic; v_type := Some t; v_slots := []; v_link := Unlinked |}.
Abbreviation s' := (set_objects (<[p := o]> h) s).

Lemma new_children y : children (<[p := o]> h) y = if decide (y = p) then [t] else children h y.
Proof.
  unfold children. destruct (decide (y = p)) as [-> |Hy]; [by rewrite lookup_insert_eq|by rewrite lookup_insert_ne].
Qed.

Lemma new_refs y : refs (children (<[p := o]> h)) (addresses (<[p := o]> h)) y = (occ y [t] + refs (children h) (addresses h) y)%nat.
Proof.
  assert (Hperm : addresses (<[p := o]> h) ≡ₚ p :: addresses h).
  { unfold addresses. by rewrite map_to_list_insert. }
  rewrite (refs_perm _ _ _ y Hperm). cbn [refs]. rewrite new_children, decide_True by done. f_equal.
  apply refs_ext. intros z Hz. rewrite new_children, decide_False; [done|]. intros ->.
  apply addresses_in in Hz. rewrite Hp in Hz. by destruct Hz.
Qed.

Lemma no_refs_to_new : refs (children h) (addresses h) p = 0%nat ∧ ext p = 0%nat.
Proof.
  split.
  - destruct (refs (children h) (addresses h) p) eqn:E; [done|].
    destruct (refs_pos (children h) (addresses h) p) as (y & _ & Hy); [lia|].
    apply children_closed in Hy; [|apply (rd_heap _ (wf_ready _ _ Hs))]. rewrite Hp in Hy. by destruct Hy.
  - destruct (ext p) eqn:E; [done|]. destruct (wf_outside _ _ Hs p) as [o Ho]; [unfold plus; case_decide; lia|congruence].
Qed.

Lemma new_reach y z : y ≠ p → reach (children h) y z → reach (children (<[p := o]> h)) y z.
Proof.
  intros Hy Hr. cut (z ≠ p ∧ reach (children (<[p := o]> h)) y z); [by intros [_ ?]|].
  eapply (reach_closed (children h) (λ z, z ≠ p ∧ reach (children (<[p := o]> h)) y z)); [|split; [done|reflexivity]|exact Hr].
  intros a b [Ha Hra] Hb. split.
  - intros ->. apply children_closed in Hb; [|apply (rd_heap _ (wf_ready _ _ Hs))]. rewrite Hp in Hb. by destruct Hb.
  - eapply reach_step; [exact Hra|]. by rewrite new_children, decide_False.
Qed.

Lemma new_wf : wf (plus ext p) s'.
Proof.
  pose proof (wf_ready _ _ Hs) as Hr. pose proof (rd_heap _ Hr) as Hh. destruct no_refs_to_new as [Hrefs Hep].
  assert (Htp : t ≠ p) by (intros ->; rewrite Hp in Ht; by destruct Ht).
  assert (Hlook : ∀ y oy, v_objects s' !! y = Some oy → y = p ∧ oy = o ∨ y ≠ p ∧ h !! y = Some oy).
  { intros y oy. cbn. destruct (decide (y = p)) as [-> |Hy].
    - rewrite lookup_insert_eq. intros [= <-]. by left.
    - rewrite lookup_insert_ne by done. by right. }
  assert (Hin : ∀ y, is_Some (h !! y) → is_Some (v_objects s' !! y) ∧ y ≠ p).
  { intros y Hy. assert (Hyp : y ≠ p) by (intros ->; rewrite Hp in Hy; by destruct Hy). split; [|done]. cbn. by rewrite lookup_insert_ne. }
  assert (Hcnt : counted (plus ext p) (v_objects s')).
  { intros y oy Hoy. cbn [v_objects set_objects]. rewrite new_refs. destruct (Hlook y oy Hoy) as [[-> ->]|[Hy Hoy']].
    - rewrite plus_eq, Hrefs, Hep. cbn. rewrite decide_False by done. done.
    - rewrite (plus_ne _ _ y Hy), (wf_counted _ _ Hs y oy Hoy'). cbn. unfold plus. do 2 case_decide; subst; try done; lia. }
  assert (Hcol : ∀ y, y ≠ p → color s' y = color s y) by (intros y Hy; unfold color; cbn; by rewrite lookup_insert_ne).
  assert (Hpro : p ∉ v_roots s).
  { intros Hin'. pose proof (rd_link _ Hr p) as Hl. unfold link_in in Hl. rewrite decide_True, Hp in Hl by done. done. }
  split; [split; [split| | | | |]| | | | |]; try done.
  - intros y oy Hoy. destruct (Hlook y oy Hoy) as [[-> ->]|[_ Hoy']]; [by eexists|by apply (cs_type h Hh y)].
  - intros y oy z Hoy Hz. destruct (Hlook y oy Hoy) as [[-> ->]|[_ Hoy']]; apply Hin.
    + by apply list_elem_of_singleton in Hz as ->.
    + by apply (cs_closed h Hh y oy).
  - intros y oy Hoy. rewrite (Hcnt y oy Hoy). split; [lia|]. destruct (Hlook y oy Hoy) as [[-> ->]|[_ Hoy']].
    + pose proof (Hcnt p o Hoy). cbn in *. unfold SIZE_MODULUS. lia.
    + pose proof (Hcnt y oy Hoy). pose proof (cs_count h Hh y oy Hoy'). lia.
  - intros y z Hy Hro Hz. cbn in Hz. rewrite new_children in Hz. destruct (decide (y = p)) as [-> |Hyp].
    + apply list_elem_of_singleton in Hz as ->. by rewrite Hcol.
    + rewrite Hcol in Hy by done. rewrite Hcol; [by apply (rd_settled _ Hr y)|].
      apply Hin. by apply (children_closed h y z).
  - apply (rd_nodup _ Hr).
  - intros y. destruct (decide (y = p)) as [-> |Hy]; unfold link_in; cbn.
    + rewrite lookup_insert_eq, decide_False by done. done.
    + rewrite lookup_insert_ne by done. apply (rd_link _ Hr y).
  - apply (rd_stack _ Hr).
  - apply (rd_cycles _ Hr).
  - intros y Hy. destruct (decide (y = p)) as [-> |Hyp]; [cbn; rewrite lookup_insert_eq; by eexists|].
    rewrite plus_ne in Hy by done. apply Hin, (wf_outside _ _ Hs). unfold plus. case_decide; lia.
  - intros y oy Hoy. destruct (Hlook y oy Hoy) as [[-> ->]|[_ Hoy']]; [done|by apply (wf_pos _ _ Hs y)].
  - intros y oy Hoy. destruct (Hlook y oy Hoy) as [[-> ->]|[_ Hoy']]; [done|by apply (wf_reviving _ _ Hs y)].
  - intros y [oy Hoy] [Ha Hc].
    assert (Hpp : is_Some (v_objects s' !! p)) by (cbn; rewrite lookup_insert_eq; by eexists).
    destruct (Hlook y oy Hoy) as [[-> ->]|[Hyp Hoy']].
    { apply Ha. exists p. rewrite plus_eq. split_and!; [lia|done|reflexivity]. }
    apply (wf_garbage _ _ Hs y); [by eexists|]. split.
    + intros (z & Hz & Hzin & Hzy). destruct (Hin z Hzin) as [Hzin' Hzp]. apply plus_pos in Hz as [-> |Hz].
      * apply Ha. exists p. rewrite plus_eq. split_and!; [lia|done|]. eapply rtc_l; [|by apply new_reach].
        cbn. rewrite new_children, decide_True by done. by left.
      * apply Ha. exists z. rewrite plus_ne by done. split_and!; [done|done|by apply new_reach].
    + intros (r & Hrr & Hcr & Hry). assert (Hrp : r ≠ p) by (by intros ->).
      apply Hc. exists r. split_and!; [done|by rewrite Hcol|by apply new_reach].
Qed.
End New.

Lemma new_ok ext s p t k cyclic o :
  wf ext s → v_objects s !! p = None → v_objects s !! t = Some o → v_count o + 1 < SIZE_MODULUS →
  ∃ s', f_new p t k cyclic s = Ok s' ∧ wf (plus ext p) s'.
Proof.
  intros Hs Hp Ht Hb. unfold f_new. rewrite Hp.
  destruct (increment_ok ext s t o Hs Ht Hb) as (s1 & -> & Hs1 & _ & Hin & Hset). cbn [mbind outcome_bind].
  eexists. split; [done|]. apply (new_wf ext s1 p t); [done| |by apply Hin; eexists|done].
  apply eq_None_not_Some. rewrite <- Hin, Hp. by intros [].
Qed.

(** ** Assigning to a slot *)

Definition adds (ext : t_address → nat) (l : list t_address) : t_address → nat := λ y, (ext y + occ y l)%nat.

Lemma adds_plus ext x y : adds ext [x] y = plus ext x y.
Proof. unfold adds, plus. cbn. repeat case_decide; subst; try done; lia. Qed.

Section Slots.
Context (ext : t_address → nat) (s : t_engine) (y : t_address) (o : t_object) (before old new after : list t_address).
Abbreviation h := (v_objects s).
Abbreviation c := (children h).
Hypothesis Hs : wf (adds ext new) s.
Hypothesis Ho : h !! y = Some o.
Hypothesis Hslots : v_slots o = before ++ old ++ after.
Hypothesis Hy : alive ext s y.
Hypothesis Hnew : ∀ x, x ∈ new → is_Some (h !! x) ∧ settled (color s x).
Abbreviation o' := (with_slots (before ++ new ++ after) o).
Abbreviation s' := (set_objects (<[y := o']> h) s).

Lemma slots_occ z : (occ z (children_of o') + occ z old = occ z (children_of o) + occ z new)%nat.
Proof. unfold children_of. cbn. rewrite Hslots, !occ_app. lia. Qed.

Lemma slots_children z : children (<[y := o']> h) z = if decide (z = y) then children_of o' else c z.
Proof.
  unfold children. destruct (decide (z = y)) as [-> |Hz]; [by rewrite lookup_insert_eq|by rewrite lookup_insert_ne].
Qed.

Lemma slots_refs z :
  (refs (children (<[y := o']> h)) (addresses (<[y := o']> h)) z + occ z old = refs c (addresses h) z + occ z new)%nat.
Proof.
  rewrite (refs_perm _ _ _ z (insert_addresses h y o o' Ho)).
  assert (Hin : y ∈ addresses h) by (apply addresses_in; by eexists).
  apply list_elem_of_split in Hin as (l1 & l2 & E). pose proof (addresses_nodup h) as Hnd. rewrite E in *.
  rewrite !refs_app. cbn [refs]. rewrite slots_children, decide_True by done.
  apply NoDup_app in Hnd as (_ & Hd & [Hy2 _]%NoDup_cons).
  rewrite (refs_ext _ c l1), (refs_ext _ c l2).
  - assert (Hcy : c y = children_of o) by (unfold children; by rewrite Ho). rewrite Hcy. pose proof (slots_occ z). lia.
  - intros x Hx. rewrite slots_children, decide_False; [done|]. by intros ->.
  - intros x Hx. rewrite slots_children, decide_False; [done|]. intros ->. apply (Hd y Hx). by left.
Qed.

Lemma slots_child z : z ∈ c y → z ∈ children_of o' ∨ z ∈ old.
Proof.
  unfold children. rewrite Ho. intros Hz. apply occ_in in Hz. pose proof (slots_occ z).
  destruct (decide (0 < occ z old)%nat) as [Hz'|]; [right; by apply occ_in|left]. apply occ_in. lia.
Qed.

Lemma slots_child' z : z ∈ children_of o' → z ∈ c y ∨ z ∈ new.
Proof.
  unfold children. rewrite Ho. intros Hz. apply occ_in in Hz. pose proof (slots_occ z).
  destruct (decide (0 < occ z new)%nat) as [Hz'|]; [right; by apply occ_in|left]. apply occ_in. lia.
Qed.

Lemma slots_in z : is_Some (v_objects s' !! z) ↔ is_Some (h !! z).
Proof. by apply (insert_is_Some h y o). Qed.

Lemma slots_color z : color s' z = color s z.
Proof.
  unfold color. cbn. destruct (decide (z = y)) as [-> |Hz]; [by rewrite lookup_insert_eq, Ho|by rewrite lookup_insert_ne].
Qed.

(** The slots that are left lead to what is alive, but for the old reference. *)
Lemma slots_alive_step u v : alive (adds ext old) s' u → v ∈ c u → alive (adds ext old) s' v.
Proof.
  intros Hu Hv. destruct (decide (v ∈ old)) as [Hvo|Hvo].
  - exists v. split_and!; [|apply slots_in|reflexivity].
    + unfold adds. apply occ_in in Hvo. lia.
    + eapply children_closed; [apply (rd_heap _ (wf_ready _ _ Hs))|exact Hv].
  - apply (alive_step _ _ u); [done|]. cbn. rewrite slots_children. case_decide as E; [subst u|done].
    by destruct (slots_child v Hv).
Qed.

Lemma slots_alive_ext z w : (0 < ext z)%nat → is_Some (h !! z) → reach c z w → alive (adds ext old) s' w.
Proof.
  intros Hz Hin Hr. eapply (reach_closed c (alive (adds ext old) s')); [apply slots_alive_step| |exact Hr].
  exists z. split_and!; [unfold adds; lia|by apply slots_in|reflexivity].
Qed.

Lemma slots_alive w : alive (adds ext new) s w → alive (adds ext old) s' w.
Proof.
  intros (z & Hz & Hin & Hr). unfold adds in Hz. destruct (decide (0 < ext z)%nat) as [He|He]; [by eapply slots_alive_ext|].
  assert (Hzn : z ∈ new) by (apply occ_in; lia).
  eapply (reach_closed c (alive (adds ext old) s')); [apply slots_alive_step| |exact Hr].
  destruct Hy as (a & Ha & Hain & Hay). apply (alive_step _ _ y); [by eapply slots_alive_ext|].
  cbn. rewrite slots_children, decide_True by done. unfold children_of. cbn. rewrite !elem_of_app. auto.
Qed.

Lemma slots_wf : wf (adds ext old) s'.
Proof.
  pose proof (wf_ready _ _ Hs) as Hr. pose proof (rd_heap _ Hr) as Hh.
  assert (Hlook : ∀ z oz, v_objects s' !! z = Some oz → ∃ o0, h !! z = Some o0 ∧ v_count oz = v_count o0 ∧
    v_type oz = v_type o0 ∧ v_reviving oz = v_reviving o0 ∧ v_link oz = v_link o0).
  { intros z oz. cbn. destruct (decide (z = y)) as [-> |Hz].
    - rewrite lookup_insert_eq. intros [= <-]. by exists o.
    - rewrite lookup_insert_ne by done. intros Hoz. by exists oz. }
  assert (Hcnt : counted (adds ext old) (v_objects s')).
  { intros z oz Hoz. destruct (Hlook z oz Hoz) as (o0 & Ho0 & -> & _). rewrite (wf_counted _ _ Hs z o0 Ho0).
    pose proof (slots_refs z). cbn [v_objects set_objects]. unfold adds. lia. }
  split; [split; [split| | | | |]| | | | |]; try done.
  - intros z oz Hoz. destruct (Hlook z oz Hoz) as (o0 & Ho0 & _ & -> & _). by apply (cs_type h Hh z).
  - intros z oz w Hoz Hw. apply slots_in. assert (Hwc : w ∈ children (<[y := o']> h) z).
    { unfold children. cbn in Hoz. by rewrite Hoz. }
    rewrite slots_children in Hwc. case_decide as E; [|by eapply children_closed].
    destruct (slots_child' w Hwc) as [?|?]; [by eapply children_closed|by apply Hnew].
  - intros z oz Hoz. pose proof (Hcnt z oz Hoz) as Hc. destruct (Hlook z oz Hoz) as (o0 & Ho0 & Hc0 & _).
    pose proof (cs_count h Hh z o0 Ho0). lia.
  - intros z w Hz Hro Hw. cbn in Hw. rewrite slots_children in Hw. rewrite slots_color in *. case_decide as E.
    + subst z. destruct (slots_child' w Hw) as [?|?]; [by apply (rd_settled _ Hr y)|by apply Hnew].
    + by apply (rd_settled _ Hr z).
  - apply (rd_nodup _ Hr).
  - intros z. transitivity (v_link <$> h !! z).
    + cbn. destruct (decide (z = y)) as [-> |Hz]; [by rewrite lookup_insert_eq, Ho|by rewrite lookup_insert_ne].
    + rewrite (rd_link _ Hr z). unfold link_in. change (v_roots s') with (v_roots s). destruct (decide (z ∈ v_roots s)); [done|].
      cbn. destruct (decide (z = y)) as [-> |Hz]; [by rewrite lookup_insert_eq, Ho|by rewrite lookup_insert_ne].
  - apply (rd_stack _ Hr).
  - apply (rd_cycles _ Hr).
  - intros z Hz. apply slots_in. unfold adds in Hz. destruct (decide (0 < ext z)%nat) as [He|He].
    + apply (wf_outside _ _ Hs). unfold adds. lia.
    + apply (children_closed h y); [done|]. assert (Hzo : z ∈ old) by (apply occ_in; lia).
      unfold children. rewrite Ho. unfold children_of. rewrite Hslots, !elem_of_app. auto.
  - intros z oz Hoz. destruct (Hlook z oz Hoz) as (o0 & Ho0 & -> & _). by apply (wf_pos _ _ Hs z).
  - intros z oz Hoz. destruct (Hlook z oz Hoz) as (o0 & Ho0 & _ & _ & -> & _). by apply (wf_reviving _ _ Hs z).
  - intros w Hw [Ha Hc]. apply slots_in in Hw. apply (wf_garbage _ _ Hs w Hw). split; [intros Hal; by apply Ha, slots_alive|].
    intros (r & Hrr & Hcr & Hrw).
    cut (candidate s' w ∨ alive (adds ext old) s' w); [tauto|].
    eapply (reach_closed c (λ w, candidate s' w ∨ alive (adds ext old) s' w)); [| |exact Hrw].
    + intros u v [Hu|Hu] Hv; [|right; by eapply slots_alive_step].
      destruct (decide (v ∈ old)) as [Hvo|Hvo].
      * right. exists v. split_and!; [unfold adds; apply occ_in in Hvo; lia|apply slots_in; by eapply children_closed|reflexivity].
      * left. apply (candidate_step _ u); [done|]. cbn. rewrite slots_children. case_decide as E; [subst u|done].
        by destruct (slots_child v Hv).
    + left. exists r. split_and!; [done|by rewrite slots_color|reflexivity].
Qed.
End Slots.

Lemma assign_ok ext s y before old new after o :
  wf ext s → v_objects s !! y = Some o → v_slots o = before ++ option_list old ++ after → alive ext s y →
  (∀ x, new = Some x → ∃ ox, v_objects s !! x = Some ox ∧ v_count ox + 1 < SIZE_MODULUS) →
  ∃ s', f_assign y before old new after s = Ok s' ∧ wf ext s'.
Proof.
  intros Hs Ho Hsl Hy Hnew. unfold f_assign.
  assert (H1 : ∃ s1 o1, match new with Some x => f_increment x s | None => Ok s end = Ok s1 ∧ wf (adds ext (option_list new)) s1 ∧
    v_objects s1 !! y = Some o1 ∧ v_slots o1 = v_slots o ∧ alive ext s1 y ∧
    ∀ x, x ∈ option_list new → is_Some (v_objects s1 !! x) ∧ settled (color s1 x)).
  { destruct new as [x|]; cbn [option_list].
    - destruct (Hnew x eq_refl) as (ox & Hox & Hb). destruct (increment_ok ext s x ox Hs Hox Hb) as (s1 & Hs1 & Hwf & Hobj & Hin & Hset).
      assert (Hch : ∀ z, children (v_objects s1) z = children (v_objects s) z).
      { intros z. rewrite Hobj. by apply (insert_children _ x ox). }
      exists s1, (if decide (y = x) then with_link Root (with_color c_color__BLACK (with_count (v_count ox + 1) ox)) else o).
      split_and!; [done| | | | |].
      + eapply wf_proper; [|exact Hwf]. intros z. symmetry. apply adds_plus.
      + rewrite Hobj. case_decide as E; [subst; apply lookup_insert_eq|by rewrite lookup_insert_ne].
      + case_decide; [|done]. subst. simplify_eq. done.
      + destruct Hy as (a & Ha & Hain & Hay). exists a. split_and!; [done|by apply Hin|]. by eapply reach_ext; [|exact Hay].
      + intros z ->%list_elem_of_singleton. split; [|done]. apply Hin. by eexists.
    - exists s, o. split_and!; try done.
      + eapply wf_proper; [|exact Hs]. intros z. unfold adds. cbn. lia.
      + by intros x ?%not_elem_of_nil. }
  destruct H1 as (s1 & o1 & -> & Hs1 & Ho1 & Hsl1 & Hy1 & Hn1). cbn [mbind outcome_bind].
  rewrite (update_ok _ _ _ _ Ho1). cbn [mbind outcome_bind].
  pose proof (slots_wf ext s1 y o1 before (option_list old) (option_list new) after Hs1 Ho1 (eq_trans Hsl1 Hsl) Hy1 Hn1) as Hwf.
  destruct old as [z|]; cbn [option_list] in *.
  - destruct (decrement_ok ext (set_objects (<[y := with_slots (before ++ option_list new ++ after) o1]> (v_objects s1)) s1) z)
      as (s' & Hs' & Hwf' & _ & _).
    + eapply wf_proper; [|exact Hwf]. intros w. apply adds_plus.
    + apply (wf_outside _ _ Hwf). unfold adds. cbn. rewrite decide_True by done. lia.
    + by exists s'.
  - eexists. split; [done|]. eapply wf_proper; [|exact Hwf]. intros w. unfold adds. cbn. lia.
Qed.
