(* ===== verification/CollectorSafety.v ===== *)
(** * Memory safety, and the collection of all garbage

    The theorems about the collector, for sequences of operations of a
    program and for rounds of the collector's thread. *)
From stdpp Require Import base list numbers strings gmap.
From S2P Require Import Prelude Machine Collector CollectorGraph CollectorMark CollectorScan CollectorCycles CollectorFind CollectorFree CollectorRound CollectorCount CollectorProgram.
Local Open Scope Z_scope.

(** ** Calls *)

(** The references that the stacks of the threads hold, and the heap. *)
Definition world : Type := (t_address → nat) * t_engine.

Inductive t_call :=
| New (p t : t_address) (color : t_color) (cyclic : Z)
| Hold (x : t_address)
| Drop (x : t_address)
| Assign (y : t_address) (before : list t_address) (old new : option t_address) (after : list t_address)
| Collect.

Definition minus (ext : t_address → nat) (x : t_address) : t_address → nat :=
  λ y, if decide (y = x) then pred (ext y) else ext y.

Definition perform (call : t_call) (w : world) : outcome world :=
  let '(ext, s) := w in
  match call with
  | New p t color cyclic => s ← f_new p t color cyclic s; Ok (plus ext p, s)
  | Hold x => s ← f_increment x s; Ok (plus ext x, s)
  | Drop x => s ← f_decrement x s; Ok (minus ext x, s)
  | Assign y before old new after => s ← f_assign y before old new after s; Ok (ext, s)
  | Collect => s ← find_cycles s; s ← free_cycles s; Ok (ext, s)
  end.

(** There is room for another reference to [x]. *)
Definition countable (s : t_engine) (x : t_address) : Prop :=
  ∃ o, v_objects s !! x = Some o ∧ v_count o + 1 < SIZE_MODULUS.

(** A program uses the objects that it can reach. *)
Definition allowed (call : t_call) (w : world) : Prop :=
  let '(ext, s) := w in
  match call with
  | New p t _ _ => v_objects s !! p = None ∧ alive ext s t ∧ countable s t
  | Hold x => alive ext s x ∧ countable s x
  | Drop x => (0 < ext x)%nat
  | Assign y before old new after =>
    alive ext s y ∧ (∃ o, v_objects s !! y = Some o ∧ v_slots o = before ++ option_list old ++ after) ∧
    ∀ x, new = Some x → alive ext s x ∧ countable s x
  | Collect => True
  end.

Lemma perform_ok call w :
  wf (fst w) (snd w) → allowed call w → ∃ w', perform call w = Ok w' ∧ wf (fst w') (snd w').
Proof.
  destruct w as [ext s]. cbn [fst snd]. intros Hs. destruct call as [p t k cy|x|x|y before old new after|]; cbn [allowed perform].
  - intros (Hp & _ & o & Ho & Hb). destruct (new_ok ext s p t k cy o Hs Hp Ho Hb) as (s' & -> & Hwf). by eexists.
  - intros (_ & o & Ho & Hb). destruct (increment_ok ext s x o Hs Ho Hb) as (s' & -> & Hwf & _). by eexists.
  - intros Hx. destruct (decrement_ok (minus ext x) s x) as (s' & -> & Hwf & _); [| |by eexists].
    + eapply wf_proper; [|exact Hs]. intros y. unfold plus, minus. case_decide; [subst|done]. lia.
    + by apply (wf_outside _ _ Hs).
  - intros (Hy & (o & Ho & Hsl) & Hnew). destruct (assign_ok ext s y before old new after o Hs Ho Hsl Hy) as (s' & -> & Hwf).
    + intros x Hx. by destruct (Hnew x Hx).
    + by eexists.
  - intros _. destruct (collection_ok ext s Hs) as (s1 & s2 & -> & E & Hwf & _). cbn [mbind outcome_bind]. rewrite E. by eexists.
Qed.

Definition run (calls : list t_call) (w : world) : outcome world := fold_calls (λ w call, perform call w) w calls.

(** Every call is allowed in the state that the calls before it leave. *)
Fixpoint permitted (calls : list t_call) (w : world) : Prop :=
  match calls with
  | [] => True
  | call :: calls => allowed call w ∧ match perform call w with Ok w' => permitted calls w' | _ => True end
  end.

Lemma calls_ok calls w :
  wf (fst w) (snd w) → permitted calls w → ∃ w', run calls w = Ok w' ∧ wf (fst w') (snd w').
Proof.
  unfold run. revert w. induction calls as [|call calls IH]; intros w Hw Hp; [by exists w|]. destruct Hp as [Ha Hp]. cbn [fold_calls].
  destruct (perform_ok call w Hw Ha) as (w1 & E & Hw1). rewrite E in *. cbn [mbind outcome_bind]. by apply IH.
Qed.

(** ** Rounds of the collector *)

Lemma free_none s : v_cycles s = [] → free_cycles s = Ok s.
Proof. intros H. unfold free_cycles. by rewrite H. Qed.

Lemma collector_find ext s threshold live lower :
  wf ext s → v_roots s ≠ [] → to_size (live - Z.min live lower) >= threshold →
  f_collector threshold live lower s = (s ← find_cycles s; Ok (live, s)).
Proof.
  intros Hs Hr Ht. unfold f_collector. rewrite (free_none s) by apply (rd_cycles _ (wf_ready _ _ Hs)).
  cbn [mbind outcome_bind]. rewrite decide_False, decide_True by done. done.
Qed.

Lemma collector_none ext s threshold live lower :
  wf ext s → v_roots s = [] → f_collector threshold live lower s = Ok (lower, s).
Proof.
  intros Hs Hr. unfold f_collector. rewrite (free_none s) by apply (rd_cycles _ (wf_ready _ _ Hs)).
  cbn [mbind outcome_bind]. by rewrite decide_True.
Qed.

(** Whatever else a round does after it freed the cycles, it frees nothing. *)
Lemma collector_free ext s1 s2 threshold live lower :
  free_cycles s1 = Ok s2 → wf ext s2 →
  ∃ lower' s3, f_collector threshold live lower s1 = Ok (lower', s3) ∧
    ∀ x, is_Some (v_objects s3 !! x) ↔ is_Some (v_objects s2 !! x).
Proof.
  intros Hf Hs. unfold f_collector. rewrite Hf. cbn [mbind outcome_bind].
  destruct (decide (v_roots s2 = [])) as [Hr|Hr]; [by eexists _, s2|].
  destruct (decide (to_size (live - Z.min live lower) >= threshold)) as [Ht|Ht]; [|by eexists _, s2].
  destruct (find_cycles_ok s2 (wf_ready _ _ Hs) (wf_roots_positive _ _ Hs) ext (wf_counted _ _ Hs)) as (s3 & -> & Hsr & _).
  eexists _, s3. split; [done|]. intros x. by apply same_heap_is_Some, (sr_same _ _ Hsr).
Qed.

Lemma no_roots_alive ext s x : wf ext s → v_roots s = [] → is_Some (v_objects s !! x) → ¬ ¬ alive ext s x.
Proof.
  intros Hs Hr Hx Hn. apply (wf_garbage _ _ Hs x Hx). split; [done|]. intros (r & Hin & _). rewrite Hr in Hin.
  by apply not_elem_of_nil in Hin.
Qed.

(** ** A heap to start from *)

(** The class of classes, which refers to itself, and a reference to it. *)
Definition boot_ext : t_address → nat := λ x, if decide (x = 1%positive) then 1%nat else 0%nat.

Definition boot_class : t_object :=
  {| v_color := c_color__BLACK; v_reviving := false; v_count := 2; v_cyclic := 0; v_type := Some 1%positive;
     v_slots := []; v_link := Unlinked |}.

Definition boot_engine : t_engine :=
  {| v_objects := {[ 1%positive := boot_class ]}; v_scan_stack := []; v_roots := []; v_cycle := []; v_cycles := [];
     v_object__release := 0; v_object__collect := 0 |}.

Lemma boot_object x o : v_objects boot_engine !! x = Some o → x = 1%positive ∧ o = boot_class.
Proof. cbn. rewrite lookup_singleton_Some. by intros [<- <-]. Qed.

Lemma boot_children x : children (v_objects boot_engine) x = if decide (x = 1%positive) then [1%positive] else [].
Proof.
  unfold children. destruct (v_objects boot_engine !! x) as [o|] eqn:Ho.
  - apply boot_object in Ho as [-> ->]. done.
  - case_decide; [by subst|done].
Qed.

Lemma boot_wf : wf boot_ext boot_engine.
Proof.
  assert (Hc : counted boot_ext (v_objects boot_engine)).
  { intros x o [-> ->]%boot_object. vm_compute. done. }
  split; [split; [split| | | | |]| | | | |]; try done.
  - intros x o [-> ->]%boot_object. by eexists.
  - intros x o y [-> ->]%boot_object. intros ->%list_elem_of_singleton. by eexists.
  - intros x o [-> ->]%boot_object. vm_compute. split; congruence.
  - intros x y _ _ Hy. rewrite boot_children in Hy. case_decide; [|by apply not_elem_of_nil in Hy].
    apply list_elem_of_singleton in Hy as ->. by left.
  - by apply NoDup_nil.
  - intros x. unfold link_in. rewrite decide_False by apply not_elem_of_nil.
    destruct (v_objects boot_engine !! x) as [o|] eqn:Ho; [|done]. by apply boot_object in Ho as [-> ->].
  - intros x. unfold boot_ext. case_decide; [subst; by eexists|lia].
  - by intros x o [-> ->]%boot_object.
  - by intros x o [-> ->]%boot_object.
  - intros x [o Ho] [Ha _]. apply boot_object in Ho as [-> _]. apply Ha. exists 1%positive.
    split_and!; [unfold boot_ext; rewrite decide_True by done; lia|by eexists|reflexivity].
Qed.

(** Two objects that refer to each other are dropped. *)
Definition sample_calls : list t_call :=
  [ New 2 1 c_color__GRAY 7; New 3 1 c_color__WHITE 0; Assign 2 [] None (Some 3%positive) [];
    Assign 3 [] None (Some 2%positive) []; Drop 2; Drop 3 ].

Definition heap_of (r : outcome t_engine) : t_engine := match r with Ok s => s | _ => boot_engine end.

Definition heap1 : t_engine := Eval vm_compute in heap_of (f_new 2 1 c_color__GRAY 7 boot_engine).
Definition heap2 : t_engine := Eval vm_compute in heap_of (f_new 3 1 c_color__WHITE 0 heap1).
Definition heap3 : t_engine := Eval vm_compute in heap_of (f_assign 2 [] None (Some 3%positive) [] heap2).
Definition heap4 : t_engine := Eval vm_compute in heap_of (f_assign 3 [] None (Some 2%positive) [] heap3).
Definition heap5 : t_engine := Eval vm_compute in heap_of (f_decrement 2 heap4).
Definition heap6 : t_engine := Eval vm_compute in heap_of (f_decrement 3 heap5).

Definition sample_ext : t_address → nat := minus (minus (plus (plus boot_ext 2) 3) 2) 3.

Lemma permitted_cons call calls w w' :
  allowed call w → perform call w = Ok w' → permitted calls w' → permitted (call :: calls) w.
Proof. intros Ha Hp Hc. cbn [permitted]. by rewrite Hp. Qed.

Lemma held_alive_now ext s x : (0 < ext x)%nat → is_Some (v_objects s !! x) → alive ext s x.
Proof. intros Hx Hin. exists x. split_and!; [done|done|reflexivity]. Qed.

Ltac sample_object := eexists; split; [vm_compute; reflexivity|vm_compute; reflexivity].
Ltac sample_alive := apply held_alive_now; [apply Nat.ltb_lt; vm_compute; reflexivity|eexists; vm_compute; reflexivity].

Lemma sample_runs :
  permitted sample_calls (boot_ext, boot_engine) ∧ run sample_calls (boot_ext, boot_engine) = Ok (sample_ext, heap6).
Proof.
  assert (H1 : perform (New 2 1 c_color__GRAY 7) (boot_ext, boot_engine) = Ok (plus boot_ext 2, heap1)).
  { cbn [perform]. assert (E : f_new 2 1 c_color__GRAY 7 boot_engine = Ok heap1) by (vm_compute; reflexivity). by rewrite E. }
  assert (H2 : perform (New 3 1 c_color__WHITE 0) (plus boot_ext 2, heap1) = Ok (plus (plus boot_ext 2) 3, heap2)).
  { cbn [perform]. assert (E : f_new 3 1 c_color__WHITE 0 heap1 = Ok heap2) by (vm_compute; reflexivity). by rewrite E. }
  set (e := plus (plus boot_ext 2) 3) in *.
  assert (H3 : perform (Assign 2 [] None (Some 3%positive) []) (e, heap2) = Ok (e, heap3)).
  { cbn [perform]. assert (E : f_assign 2 [] None (Some 3%positive) [] heap2 = Ok heap3) by (vm_compute; reflexivity). by rewrite E. }
  assert (H4 : perform (Assign 3 [] None (Some 2%positive) []) (e, heap3) = Ok (e, heap4)).
  { cbn [perform]. assert (E : f_assign 3 [] None (Some 2%positive) [] heap3 = Ok heap4) by (vm_compute; reflexivity). by rewrite E. }
  assert (H5 : perform (Drop 2) (e, heap4) = Ok (minus e 2, heap5)).
  { cbn [perform]. assert (E : f_decrement 2 heap4 = Ok heap5) by (vm_compute; reflexivity). by rewrite E. }
  assert (H6 : perform (Drop 3) (minus e 2, heap5) = Ok (sample_ext, heap6)).
  { cbn [perform]. assert (E : f_decrement 3 heap5 = Ok heap6) by (vm_compute; reflexivity). by rewrite E. }
  split.
  - eapply permitted_cons; [|exact H1|].
    { split; [vm_compute; reflexivity|]. split; [sample_alive|]. eexists. split; [vm_compute; reflexivity|]. done. }
    eapply permitted_cons; [|exact H2|].
    { split; [vm_compute; reflexivity|]. split; [sample_alive|]. eexists. split; [vm_compute; reflexivity|]. done. }
    eapply permitted_cons; [|exact H3|].
    { split; [sample_alive|]. split; [sample_object|]. intros x [= <-]. split; [sample_alive|].
      eexists. split; [vm_compute; reflexivity|]. done. }
    eapply permitted_cons; [|exact H4|].
    { split; [sample_alive|]. split; [sample_object|]. intros x [= <-]. split; [sample_alive|].
      eexists. split; [vm_compute; reflexivity|]. done. }
    eapply permitted_cons; [|exact H5|]. { apply Nat.ltb_lt. vm_compute. reflexivity. }
    eapply permitted_cons; [|exact H6|]. { apply Nat.ltb_lt. vm_compute. reflexivity. }
    exact I.
  - unfold run, sample_calls. cbn [fold_calls].
    rewrite H1. cbn [mbind outcome_bind]. rewrite H2. cbn [mbind outcome_bind]. rewrite H3. cbn [mbind outcome_bind].
    rewrite H4. cbn [mbind outcome_bind]. rewrite H5. cbn [mbind outcome_bind]. rewrite H6. done.
Qed.

Lemma dropped_wf : wf sample_ext heap6.
Proof.
  destruct sample_runs as [Hp Hr]. destruct (calls_ok sample_calls (boot_ext, boot_engine) boot_wf Hp) as (w & Hw & Hwf).
  rewrite Hr in Hw. by injection Hw as <-.
Qed.

(** The two objects are not reachable any more, and a collection frees them. *)
Example sample_heap :
  addresses (v_objects heap6) = [3%positive; 2%positive; 1%positive] ∧
  v_roots heap6 = [1%positive; 3%positive; 2%positive] ∧
  addresses (v_objects (heap_of (s ← find_cycles heap6; free_cycles s))) = [1%positive].
Proof. vm_compute. done. Qed.

(** ** The theorems *)

(** The candidates that nothing else holds. *)
Definition collectable (ext : t_address → nat) (s : t_engine) (x : t_address) : Prop :=
  candidate s x ∧ ¬ held_from_outside ext s x.

(** Of the objects of [s], [s'] lacks exactly those that were not alive. *)
Definition frees_exactly_the_dead (ext : t_address → nat) (s s' : t_engine) : Prop :=
  ∀ x, is_Some (v_objects s !! x) → v_objects s' !! x = None ↔ ¬ alive ext s x.

(** C15 (search_is_exact): between two rounds of the collector, with counts that are those of the references, and
    positive for the roots, the search for cycles returns, and the cycles that it finds hold exactly the objects that purple roots reach and that
    nothing else holds: no other object and nothing outside of the heap refers to one on the way.  Objects, counts and
    references stay what they were. *)
Theorem search_is_exact (ext : t_address → nat) (s : t_engine) :
  ready s → roots_positive s → counted ext (v_objects s) →
  ∃ s', find_cycles s = Ok s' ∧ same_heap (v_objects s') (v_objects s) ∧ NoDup (concat (v_cycles s')) ∧
    ∀ x, x ∈ concat (v_cycles s') ↔ collectable ext s x.
Proof.
  intros Hs Hp Hc. destruct (find_cycles_ok s Hs Hp ext Hc) as (s' & Hs' & Hsr & HG & _). exists s'.
  split; [done|]. split; [apply (sr_same _ _ Hsr)|]. split; [apply (sr_nodup _ _ Hsr)|done].
Qed.

Lemma search_is_exact_witness :
  ∃ s', find_cycles heap6 = Ok s' ∧ same_heap (v_objects s') (v_objects heap6) ∧ NoDup (concat (v_cycles s')) ∧
    ∀ x, x ∈ concat (v_cycles s') ↔ collectable sample_ext heap6 x.
Proof.
  apply search_is_exact; [apply (wf_ready _ _ dropped_wf)|apply (wf_roots_positive _ _ dropped_wf)|apply (wf_counted _ _ dropped_wf)].
Defined.

(** C20 (collection_is_exact): on a well-formed heap, the search for cycles and the freeing of the cycles it found
    return; they free exactly the objects that no reference from outside of the heap reaches, what is left has the
    slots and the type that it had, and the heap is well-formed again. *)
Theorem collection_is_exact (ext : t_address → nat) (s : t_engine) :
  wf ext s →
  ∃ s1 s2, find_cycles s = Ok s1 ∧ free_cycles s1 = Ok s2 ∧ wf ext s2 ∧
    frees_exactly_the_dead ext s s2 ∧
    (∀ x o2, v_objects s2 !! x = Some o2 →
       ∃ o, v_objects s !! x = Some o ∧ v_type o2 = v_type o ∧ v_slots o2 = v_slots o) ∧
    v_object__collect s2 = (v_object__collect s + length (concat (v_cycles s1)))%nat.
Proof.
  intros Hs. destruct (collection_ok ext s Hs) as (s1 & s2 & H1 & H2 & H3 & H4 & H5 & _ & H6). exists s1, s2. done.
Qed.

Lemma collection_is_exact_witness :
  ∃ s1 s2, find_cycles heap6 = Ok s1 ∧ free_cycles s1 = Ok s2 ∧ wf sample_ext s2 ∧
    frees_exactly_the_dead sample_ext heap6 s2 ∧
    (∀ x o2, v_objects s2 !! x = Some o2 →
       ∃ o, v_objects heap6 !! x = Some o ∧ v_type o2 = v_type o ∧ v_slots o2 = v_slots o) ∧
    v_object__collect s2 = (v_object__collect heap6 + length (concat (v_cycles s1)))%nat.
Proof. apply collection_is_exact. exact dropped_wf. Defined.



(** C21 (garbage_is_collected): garbage does not stay.  When the heap grew by the threshold since the last search, a
    round of the collector and the round after it, whatever the heap reports then, leave none of the objects that were
    not reachable, and all that were. *)
Theorem garbage_is_collected (ext : t_address → nat) (s : t_engine) (threshold live live' lower : Z) :
  wf ext s → to_size (live - Z.min live lower) >= threshold →
  ∃ lower1 s1 lower2 s2, f_collector threshold live lower s = Ok (lower1, s1) ∧
    f_collector threshold live' lower1 s1 = Ok (lower2, s2) ∧
    frees_exactly_the_dead ext s s2.
Proof.
  intros Hs Ht. destruct (decide (v_roots s = [])) as [Hr|Hr].
  - exists lower, s, lower, s. rewrite !(collector_none ext) by done. split_and!; [done|done|].
    intros x Hx. split; [intros E; rewrite E in Hx; by destruct Hx|]. intros Hn. by destruct (no_roots_alive ext s x Hs Hr Hx).
  - destruct (collection_ok ext s Hs) as (s1 & s2 & H1 & H2 & Hwf & Hall & _).
    destruct (collector_free ext s1 s2 threshold live' live H2 Hwf) as (lower2 & s3 & H3 & Hsame).
    exists live, s1, lower2, s3. rewrite (collector_find ext s threshold live lower Hs Hr Ht), H1. split_and!; [done|done|].
    intros x Hx. rewrite <- (Hall x Hx). rewrite !eq_None_not_Some. by rewrite Hsame.
Qed.

Lemma garbage_is_collected_witness :
  to_size (100 - Z.min 100 0) >= 64 ∧
  ∃ lower1 s1 lower2 s2, f_collector 64 100 0 heap6 = Ok (lower1, s1) ∧
    f_collector 64 90 lower1 s1 = Ok (lower2, s2) ∧
    frees_exactly_the_dead sample_ext heap6 s2.
Proof.
  assert (H : to_size (100 - Z.min 100 0) >= 64) by (vm_compute; discriminate).
  split; [exact H|]. exact (garbage_is_collected sample_ext heap6 64 100 90 0 dropped_wf H).
Defined.
