(* ===== verification/Queue.v ===== *)
(** * The queues between the threads and the collector (src:
    include/xemmai/value.h, include/xemmai/engine.h, include/xemmai/thread.h,
    src/thread.cc, src/engine.cc)

    A thread does not count references itself: it pushes the objects to
    increment and to decrement to two ring buffers, from which the thread of
    the collector takes them.  The collector takes increments up to the current
    epoch of the thread, and decrements up to the one before.  The threads and
    the collector run concurrently: this file has their operations as steps
    between accesses to shared variables, and the state they work on. *)
From stdpp Require Import base list numbers.
From S2P Require Import Prelude.
Local Open Scope Z_scope.

(** ** The ring buffer

    A pointer into [v_objects] is its offset, and a null pointer is [None]. *)
Section Ring.
Context {A : Type} (A_SIZE : Z).

Record t_queue := {
  v_head : Z;
  v_next : Z;
  v_objects : list A;
  v_epoch : option Z;
  v_tail : Z;
}.

(** [a] is what the memory of [v_objects] held before. *)
Definition new_queue (a : list A) : t_queue :=
  {| v_head := 0; v_next := A_SIZE `div` 8; v_objects := a; v_epoch := None; v_tail := A_SIZE - 1 |}.

(** Where a thread is in [f__push]: after the store to [v_head]; in [f_next]
    before the test of [v_tail]; or after it.  The flag tells whether
    [v_head] went back to the start of the buffer. *)
Inductive t_push :=
| Stored (a : A)
| Waiting (wrapped : bool)
| Leaving (wrapped : bool).

Definition set_v_head (p : Z) (q : t_queue) : t_queue :=
  {| v_head := p; v_next := v_next q; v_objects := v_objects q; v_epoch := v_epoch q; v_tail := v_tail q |}.
Definition set_v_next (p : Z) (q : t_queue) : t_queue :=
  {| v_head := v_head q; v_next := p; v_objects := v_objects q; v_epoch := v_epoch q; v_tail := v_tail q |}.
Definition set_v_objects (a : list A) (q : t_queue) : t_queue :=
  {| v_head := v_head q; v_next := v_next q; v_objects := a; v_epoch := v_epoch q; v_tail := v_tail q |}.
Definition set_v_epoch (p : option Z) (q : t_queue) : t_queue :=
  {| v_head := v_head q; v_next := v_next q; v_objects := v_objects q; v_epoch := p; v_tail := v_tail q |}.
Definition set_v_tail (p : Z) (q : t_queue) : t_queue :=
  {| v_head := v_head q; v_next := v_next q; v_objects := v_objects q; v_epoch := v_epoch q; v_tail := p |}.

(** [*v_head = a_object] *)
Definition f__push (a_object : A) (q : t_queue) : outcome t_queue :=
  v ← wr (v_objects q) (v_head q) a_object;
  Ok (set_v_objects v q).

(** The rest of [f__push], and [f_next] up to its loop. *)
Definition push_advance (q : t_queue) : t_queue * option t_push :=
  if v_head q =? v_next q then
    if v_head q <? A_SIZE - 1 then (set_v_head (v_head q + 1) q, Some (Waiting false))
    else (set_v_head 0 q, Some (Waiting true))
  else (set_v_head (v_head q + 1) q, None).

(** [while (v_tail == v_head) engine->f_wait()] *)
Definition next_test (q : t_queue) (wrapped : bool) : t_push :=
  if v_tail q =? v_head q then Waiting wrapped else Leaving wrapped.

(** The rest of [f_next]. *)
Definition next_limit (q : t_queue) (wrapped : bool) : t_queue :=
  if wrapped then set_v_next (Z.min (v_tail q - 1) (v_head q + A_SIZE `div` 8)) q
  else
    let tail := v_tail q in
    set_v_next (Z.min (if tail <? v_head q then A_SIZE - 1 else tail - 1) (v_head q + A_SIZE `div` 8)) q.

(** Where the collector is in [f__flush]: at the test of the outer loop, or
    before the call of [a_do] in the inner one. *)
Inductive t_flush :=
| Outer (a_epoch : Z)
| Inner (a_epoch next : Z).

Definition f__flush (a_epoch : option Z) : t_flush :=
  match a_epoch with
  | Some e => Outer (if 0 <? e then e - 1 else A_SIZE - 1)
  | None => Outer (A_SIZE - 1)
  end.

(** One round of a loop: the object [a_do] is called on, and where the
    collector is next, if not at the end. *)
Definition flush_step (f : t_flush) (q : t_queue) : outcome (t_queue * option A * option t_flush) :=
  match f with
  | Outer a_epoch =>
    if v_tail q =? a_epoch then Ok (q, None, None)
    else if v_tail q <? A_SIZE - 1 then
      let next := if a_epoch <? v_tail q then A_SIZE - 1 else a_epoch in
      Ok (set_v_tail (v_tail q + 1) q, None, Some (Inner a_epoch next))
    else Ok (set_v_tail 0 q, None, Some (Inner a_epoch a_epoch))
  | Inner a_epoch next =>
    a ← rd (v_objects q) (v_tail q);
    if v_tail q =? next then Ok (q, Some a, Some (Outer a_epoch))
    else Ok (set_v_tail (v_tail q + 1) q, Some a, Some (Inner a_epoch next))
  end.
End Ring.
Arguments t_queue A : clear implicits.
Arguments t_push A : clear implicits.

(** ** Threads and the collector *)

Inductive t_kind := Increments | Decrements.
#[export] Instance t_kind_eq_dec : EqDecision t_kind.
Proof. solve_decision. Defined.

(** What happened: a thread, by its identity, completed a push, or the
    collector applied [f_increment] or [f_decrement]. *)
Inductive t_event (A : Type) :=
| Pushed (t : nat) (k : t_kind) (a : A)
| Applied (t : nat) (k : t_kind) (a : A).
Arguments Pushed {A} _ _ _.
Arguments Applied {A} _ _ _.

Section Threads.
Context {A : Type} (NDEBUG : bool).

(** The sizes of the buffers, in release and in debug builds. *)
Definition A_SIZE (k : t_kind) : Z :=
  match k with
  | Increments => if NDEBUG then 1024 * 16 else 128
  | Decrements => if NDEBUG then 1024 * 32 else 256
  end.

(** What a thread does: it runs outside of the queues, is in a push to one of
    them, or has left [f_epoch_get] of [f_finalize]. *)
Inductive t_at :=
| Running
| Pushing (k : t_kind) (p : t_push A)
| Finalizing.

Record t_internal := {
  v_id : nat;
  v_done : Z;
  v_increments : t_queue A;
  v_decrements : t_queue A;
  v_last : option Z;
  v_at : t_at;
}.

Definition queue_of (k : t_kind) (t : t_internal) : t_queue A :=
  match k with Increments => v_increments t | Decrements => v_decrements t end.

Definition set_queue (k : t_kind) (q : t_queue A) (t : t_internal) : t_internal :=
  {| v_id := v_id t; v_done := v_done t;
     v_increments := match k with Increments => q | Decrements => v_increments t end;
     v_decrements := match k with Increments => v_decrements t | Decrements => q end;
     v_last := v_last t; v_at := v_at t |}.

Definition set_at (p : t_at) (t : t_internal) : t_internal :=
  {| v_id := v_id t; v_done := v_done t; v_increments := v_increments t; v_decrements := v_decrements t;
     v_last := v_last t; v_at := p |}.

Definition set_done (n : Z) (t : t_internal) : t_internal :=
  {| v_id := v_id t; v_done := n; v_increments := v_increments t; v_decrements := v_decrements t;
     v_last := v_last t; v_at := v_at t |}.

Definition set_last (p : option Z) (t : t_internal) : t_internal :=
  {| v_id := v_id t; v_done := v_done t; v_increments := v_increments t; v_decrements := v_decrements t;
     v_last := p; v_at := v_at t |}.

Definition f_epoch_get (t : t_internal) : t_internal :=
  let t := set_queue Increments (set_v_epoch (Some (v_head (v_increments t))) (v_increments t)) t in
  set_queue Decrements (set_v_epoch (Some (v_head (v_decrements t))) (v_decrements t)) t.

(** Where the collector is: between two rounds; at the thread with the given
    index in [v_thread__internals]; in the [f_epoch] of the thread, before the
    increments are flushed; or in one of the flushes. *)
Inductive t_collector :=
| Idle
| Visiting (i : nat)
| Scanning (i : nat)
| Flushing (i : nat) (k : t_kind) (f : t_flush).

Record t_engine := {
  v_thread__internals : list t_internal;
  v_collector : t_collector;
  v_collector__epoch : nat;
  v_ids : nat;
  v_log : list (t_event A);
}.

Definition set_internals (ts : list t_internal) (s : t_engine) : t_engine :=
  {| v_thread__internals := ts; v_collector := v_collector s; v_collector__epoch := v_collector__epoch s; v_ids := v_ids s; v_log := v_log s |}.
Definition set_collector (c : t_collector) (s : t_engine) : t_engine :=
  {| v_thread__internals := v_thread__internals s; v_collector := c; v_collector__epoch := v_collector__epoch s; v_ids := v_ids s; v_log := v_log s |}.
Definition append_log (e : list (t_event A)) (s : t_engine) : t_engine :=
  {| v_thread__internals := v_thread__internals s; v_collector := v_collector s; v_collector__epoch := v_collector__epoch s; v_ids := v_ids s; v_log := v_log s ++ e |}.

Definition count_epoch (s : t_engine) : t_engine :=
  {| v_thread__internals := v_thread__internals s; v_collector := v_collector s;
     v_collector__epoch := S (v_collector__epoch s); v_ids := v_ids s; v_log := v_log s |}.

(** [v_thread__mutex] is not held by the collector. *)
Definition unlocked (s : t_engine) : bool := match v_collector s with Idle => true | _ => false end.

(** A new thread comes first in the list; it does not run before it is
    initialized. *)
Definition f_fork (increments decrements : list A) (s : t_engine) : t_engine :=
  {| v_thread__internals :=
       {| v_id := v_ids s; v_done := -1;
          v_increments := new_queue (A_SIZE Increments) increments;
          v_decrements := new_queue (A_SIZE Decrements) decrements;
          v_last := Some 0; v_at := Running |} :: v_thread__internals s;
     v_collector := v_collector s; v_collector__epoch := v_collector__epoch s; v_ids := S (v_ids s); v_log := v_log s |}.

(** The next step of a thread that is in a push. *)
Definition push_step (k : t_kind) (p : t_push A) (t : t_internal) : t_internal * list (t_event A) :=
  match p with
  | Stored a =>
    let '(q, p') := push_advance (A_SIZE k) (queue_of k t) in
    (set_at (match p' with Some p' => Pushing k p' | None => Running end) (set_queue k q t), [Pushed (v_id t) k a])
  | Waiting wrapped => (set_at (Pushing k (next_test (queue_of k t) wrapped)) t, [])
  | Leaving wrapped => (set_at Running (set_queue k (next_limit (A_SIZE k) (queue_of k t) wrapped) t), [])
  end.

(** The start of [f_epoch]: a thread that is not done is suspended and calls
    [f_epoch_get]. *)
Definition f_epoch (t : t_internal) : t_internal :=
  if 0 <? v_done t then set_done (v_done t + 1) t else f_epoch_get t.

(** The round comes to the thread at [i]. *)
Definition visit_thread (i : nat) (s : t_engine) : t_engine :=
  match v_thread__internals s !! i with
  | None => set_collector Idle s
  | Some t =>
    if 0 <=? v_done t then set_collector (Scanning i) (set_internals (<[i := f_epoch t]> (v_thread__internals s)) s)
    else set_collector (Visiting (S i)) s
  end.

(** The steps of [f_flush] of the increments and the decrements of the thread
    at [i], up to the return of [f_epoch]: then the thread stays in the list, or
    is deleted. *)
Definition flush_thread (i : nat) (k : t_kind) (f : t_flush) (s : t_engine) : outcome t_engine :=
  match v_thread__internals s !! i with
  | None => Fault
  | Some t =>
    '(q, a, f') ← flush_step (A_SIZE k) f (queue_of k t);
    let t := set_queue k q t in
    let s := append_log (match a with Some a => [Applied (v_id t) k a] | None => [] end) s in
    match f', k with
    | Some f', _ => Ok (set_collector (Flushing i k f') (set_internals (<[i := t]> (v_thread__internals s)) s))
    | None, Increments =>
      Ok (set_collector (Flushing i Decrements (f__flush (A_SIZE Decrements) (v_last t)))
           (set_internals (<[i := t]> (v_thread__internals s)) s))
    | None, Decrements =>
      let t := set_last (v_epoch (v_decrements t)) t in
      if v_done t <? 3 then
        Ok (set_collector (Visiting (S i)) (set_internals (<[i := t]> (v_thread__internals s)) s))
      else Ok (set_collector (Visiting i) (set_internals (delete i (v_thread__internals s)) s))
    end
  end.

(** The next step of the collector. *)
Definition f_collector (s : t_engine) : outcome t_engine :=
  match v_collector s with
  | Idle => Ok (set_collector (Visiting 0) (count_epoch s))
  | Visiting i => Ok (visit_thread i s)
  | Scanning i =>
    match v_thread__internals s !! i with
    | None => Fault
    | Some t => Ok (set_collector (Flushing i Increments (f__flush (A_SIZE Increments) (v_epoch (v_increments t)))) s)
    end
  | Flushing i k f => flush_thread i k f s
  end.

(** ** Schedules

    A step of a thread or of the collector.  A step that its thread or the
    mutex does not allow at the moment leaves the state as it is. *)
Inductive t_step :=
| Fork (increments decrements : list A)
| Initialize (i : nat)
| Cancel (i : nat)
| Push (i : nat) (k : t_kind) (a : A)
| Proceed (i : nat)
| Finalize (i : nat)
| Done (i : nat)
| Collect.

Definition thread_step (e : t_step) (locked : bool) (t : t_internal) : outcome (t_internal * list (t_event A)) :=
  match e, v_at t with
  | Initialize _, Running => Ok (if negb locked && (v_done t =? -1) then set_done 0 t else t, [])
  | Cancel _, Running => Ok (if negb locked && (v_done t =? -1) then set_done 1 t else t, [])
  | Push _ k a, Running =>
    if v_done t =? 0 then
      q ← f__push a (queue_of k t);
      Ok (set_at (Pushing k (Stored a)) (set_queue k q t), [])
    else Ok (t, [])
  | Proceed _, Pushing k p => Ok (push_step k p t)
  | Finalize _, Running => Ok (if v_done t =? 0 then set_at Finalizing (f_epoch_get t) else t, [])
  | Done _, Finalizing => Ok (if negb locked && (v_done t =? 0) then set_done (v_done t + 1) t else t, [])
  | _, _ => Ok (t, [])
  end.

Definition step_index (e : t_step) : nat :=
  match e with
  | Initialize i | Cancel i | Push i _ _ | Proceed i | Finalize i | Done i => i
  | Fork _ _ | Collect => O
  end.

Definition step (s : t_engine) (e : t_step) : outcome t_engine :=
  match e with
  | Fork increments decrements =>
    Ok (if unlocked s && (Z.of_nat (length increments) =? A_SIZE Increments) && (Z.of_nat (length decrements) =? A_SIZE Decrements)
        then f_fork increments decrements s else s)
  | Collect => f_collector s
  | _ =>
    match v_thread__internals s !! step_index e with
    | None => Ok s
    | Some t =>
      '(t', events) ← thread_step e (negb (unlocked s)) t;
      Ok (append_log events (set_internals (<[step_index e := t']> (v_thread__internals s)) s))
    end
  end.

Definition run (s : t_engine) (es : list t_step) : outcome t_engine := fold_calls step s es.

Definition start : t_engine := {| v_thread__internals := []; v_collector := Idle; v_collector__epoch := 0; v_ids := 0; v_log := [] |}.
End Threads.
Arguments t_at A : clear implicits.
Arguments t_internal A : clear implicits.
Arguments t_engine A : clear implicits.
Arguments t_step A : clear implicits.
#[global] Arguments A_SIZE NDEBUG k : simpl never.

(** What a thread pushed to a queue, and what was taken from it. *)
Definition pushed {A} (t : nat) (k : t_kind) (l : list (t_event A)) : list A :=
  omap (λ e, match e with
             | Pushed t' k' a => if decide (t' = t ∧ k' = k) then Some a else None
             | Applied _ _ _ => None
             end) l.

Definition applied {A} (t : nat) (k : t_kind) (l : list (t_event A)) : list A :=
  omap (λ e, match e with
             | Applied t' k' a => if decide (t' = t ∧ k' = k) then Some a else None
             | Pushed _ _ _ => None
             end) l.
#[global] Arguments pushed {A} t k l : simpl never.
#[global] Arguments applied {A} t k l : simpl never.
