(* ===== verification/QueueRing.v ===== *)
(** * The ring buffer (Queue.v)

    The buffer against the sequence of all pushes to it.  With counters that
    do not wrap around, the head is the number of pushes, the tail the number
    of objects taken, and the cell of an object the remainder of its number. *)
From stdpp Require Import base list numbers.
From S2P Require Import Prelude Queue.
Local Open Scope Z_scope.

(** Remainders of numbers less than a turn apart. *)
Lemma mod_shift N a d : 0 < N → 0 ≤ d < N →
  (a + d) mod N = if decide (a mod N + d < N) then a mod N + d else a mod N + d - N.
Proof.
  intros HN Hd. pose proof (Z.mod_pos_bound a N HN) as Hb. pose proof (Z.div_mod a N ltac:(lia)) as Ha.
  case_decide.
  - symmetry. apply (Z.mod_unique _ _ (a / N)); lia.
  - symmetry. apply (Z.mod_unique _ _ (a / N + 1)); lia.
Qed.

Lemma mod_inj N a b : 0 < N → 0 ≤ b - a < N → a mod N = b mod N → a = b.
Proof.
  intros HN Hd E. replace b with (a + (b - a)) in E by lia. rewrite mod_shift in E by lia.
  pose proof (Z.mod_pos_bound a N HN). case_decide; lia.
Qed.

Section Ring.
Context {A : Type} (N : Z) (HN : 2 ≤ N).
Implicit Types (ps : list A) (q : t_queue A) (p : option (t_push A)) (T m X : Z).

Abbreviation len ps := (Z.of_nat (length ps)).

(** [ps] are the pushes so far, [T] the number of objects the tail has gone
    over, and [m] the number of objects that were taken. *)
Record ring ps T m q : Prop := {
  ring_length : Z.of_nat (length (v_objects q)) = N;
  ring_head : v_head q = len ps mod N;
  ring_tail : v_tail q = (T - 1) mod N;
  ring_taken : 0 ≤ m ≤ T ∧ T ≤ m + 1;
  ring_room : T ≤ len ps ≤ T + N - 1;
  ring_content : ∀ i, m ≤ i < len ps → v_objects q !! Z.to_nat (i mod N) = ps !! Z.to_nat i;
}.

(** Up to [v_next] a push does not have to look at the tail. *)
Definition limit ps T q : Prop :=
  v_head q ≤ v_next q ≤ N - 1 ∧ len ps + (v_next q - v_head q) ≤ T + N - 2.

Definition pushing ps T q p : Prop :=
  match p with
  | None => limit ps T q
  | Some (Stored a) => limit ps T q ∧ v_objects q !! Z.to_nat (v_head q) = Some a
  | Some (Waiting wrapped) => wrapped = true → v_head q = 0
  | Some (Leaving wrapped) => (wrapped = true → v_head q = 0) ∧ len ps ≤ T + N - 2
  end.

(** The collector takes the objects before the [X]-th. *)
Definition flushing ps T m X q (f : t_flush) : Prop :=
  X ≤ len ps ∧
  match f with
  | Outer e => e = (X - 1) mod N ∧ m = T ∧ T ≤ X
  | Inner e next => e = (X - 1) mod N ∧ m = T - 1 ∧ ∃ Y, T ≤ Y ≤ X ∧ v_tail q + (Y - T) = next ∧ next ≤ N - 1 ∧ next = (Y - 1) mod N
  end.

(** What is stored in [v_epoch] and [v_last] for the number of pushes [X]. *)
Definition epoch_is (e : option Z) X : Prop :=
  match e with None => X = 0 | Some e => e = X mod N end.

Lemma ring_new a : Z.of_nat (length a) = N → ring [] 0 0 (new_queue N a).
Proof.
  intros Ha. split; cbn; try done; try lia.
  - change (0 - 1) with (-1). replace (-1) with ((N - 1) + (-1) * N) by lia.
    rewrite Z.mod_add by lia. rewrite Z.mod_small; lia.
Qed.

Lemma pushing_new a : pushing [] 0 (new_queue N a) None.
Proof.
  cbn. unfold limit. cbn. pose proof (Z.div_mod N 8 ltac:(lia)). pose proof (Z.mod_pos_bound N 8 ltac:(lia)). lia.
Qed.

Lemma ring_epoch ps T m e q : ring ps T m q → ring ps T m (set_v_epoch e q).
Proof. intros []. by split. Qed.

Lemma pushing_epoch ps T e q p : pushing ps T q p → pushing ps T (set_v_epoch e q) p.
Proof. by destruct p as [[]|]. Qed.

(** The store does not overwrite an object that is still to be taken. *)
Lemma f__push_ring ps T m a q :
  ring ps T m q → pushing ps T q None →
  ∃ q', f__push a q = Ok q' ∧ ring ps T m q' ∧ pushing ps T q' (Some (Stored a)) ∧ v_epoch q' = v_epoch q.
Proof.
  intros [Hl Hh Ht Hm Hr Hc] [Hn Hlim]. pose proof (Z.mod_pos_bound (len ps) N ltac:(lia)) as Hb.
  unfold f__push. rewrite wr_ok by lia. cbn [mbind outcome_bind]. eexists. split_and!; [done| | |done].
  - split; cbn; rewrite ?length_insert; try done. intros i Hi. rewrite list_lookup_insert_ne; [by apply Hc|].
    intros E. rewrite Hh in E. pose proof (Z.mod_pos_bound i N ltac:(lia)).
    assert (i = len ps); [|lia]. apply (mod_inj N); lia.
  - cbn. split; [by unfold limit|]. apply list_lookup_insert_eq. lia.
Qed.

Lemma push_advance_ring ps T m a q q' p' :
  ring ps T m q → pushing ps T q (Some (Stored a)) → push_advance N q = (q', p') →
  ring (ps ++ [a]) T m q' ∧ pushing (ps ++ [a]) T q' p' ∧ v_epoch q' = v_epoch q.
Proof.
  intros [Hl Hh Ht Hm Hr Hc] [[Hn Hlim] Ha] E. pose proof (Z.mod_pos_bound (len ps) N ltac:(lia)) as Hb.
  assert (Hhead : v_head q' = len (ps ++ [a]) mod N ∧ v_objects q' = v_objects q ∧ v_tail q' = v_tail q ∧ v_epoch q' = v_epoch q
    ∧ v_next q' = v_next q).
  { rewrite length_app. cbn. rewrite Nat2Z.inj_add, mod_shift by lia. revert E. unfold push_advance.
    case_tests; intros [= <- <-]; cbn; split_and!; lia || done. }
  destruct Hhead as (Hh' & Ho' & Ht' & He' & Hn'). split_and!; [| |done].
  - split; rewrite ?Ho', ?Ht'; try done.
    + rewrite length_app; cbn; lia.
    + intros i. rewrite length_app. cbn. intros Hi. destruct (decide (i = len ps)) as [-> |Hne].
      * rewrite Nat2Z.id, list_lookup_middle by done. rewrite <- Hh. done.
      * rewrite lookup_app_l by lia. apply Hc. lia.
  - assert (Hlen : len (ps ++ [a]) = len ps + 1) by (rewrite length_app; cbn; lia).
    revert E. unfold push_advance. case_tests; intros [= <- <-]; cbn in *; try done.
    unfold limit. cbn. lia.
Qed.

Lemma next_test_ring ps T m q wrapped :
  ring ps T m q → pushing ps T q (Some (Waiting wrapped)) → pushing ps T q (Some (next_test q wrapped)).
Proof.
  intros [Hl Hh Ht Hm Hr Hc] Hw. unfold next_test.
  destruct (Z.eqb_spec (v_tail q) (v_head q)) as [|H]; [done|]. split; [done|].
  enough (len ps ≠ T + N - 1) by lia. intros E. apply H. rewrite Ht, Hh, E.
  replace (T + N - 1) with (T - 1 + 1 * N) by lia. by rewrite Z.mod_add by lia.
Qed.

Lemma next_limit_ring ps T m q wrapped :
  ring ps T m q → pushing ps T q (Some (Leaving wrapped)) →
  ring ps T m (next_limit N q wrapped) ∧ pushing ps T (next_limit N q wrapped) None ∧
  v_epoch (next_limit N q wrapped) = v_epoch q.
Proof.
  intros [Hl Hh Ht Hm Hr Hc] [Hw Hroom]. split_and!.
  - unfold next_limit. by destruct wrapped.
  - assert (Hd : v_head q = if decide (v_tail q + (len ps - T + 1) < N) then v_tail q + (len ps - T + 1) else v_tail q + (len ps - T + 1) - N).
    { rewrite Hh, Ht. replace (len ps) with (T - 1 + (len ps - T + 1)) at 1 by lia. apply mod_shift; lia. }
    pose proof (Z.mod_pos_bound (len ps) N ltac:(lia)). pose proof (Z.mod_pos_bound (T - 1) N ltac:(lia)).
    pose proof (Z.div_mod N 8 ltac:(lia)). pose proof (Z.mod_pos_bound N 8 ltac:(lia)).
    cbn. unfold limit, next_limit. destruct wrapped; cbn.
    + specialize (Hw eq_refl). case_decide; lia.
    + case_decide; case_tests; lia.
  - unfold next_limit. by destruct wrapped.
Qed.

(** A blocked push goes on once enough was taken. *)
Lemma next_test_leaves ps T m q wrapped :
  ring ps T m q → len ps ≤ T + N - 2 → next_test q wrapped = Leaving wrapped.
Proof.
  intros [Hl Hh Ht Hm Hr Hc] Hroom. unfold next_test.
  destruct (Z.eqb_spec (v_tail q) (v_head q)) as [H|]; [|done]. rewrite Ht, Hh in H.
  pose proof (mod_inj N (T - 1) (len ps) ltac:(lia) ltac:(lia) H). lia.
Qed.

Lemma f__flush_ring ps T X e q :
  ring ps T T q → epoch_is e X → T ≤ X ≤ len ps → flushing ps T T X q (f__flush N e).
Proof.
  intros [Hl Hh Ht Hm Hr Hc] He HX. unfold f__flush, epoch_is in *.
  destruct e as [e|]; subst; split; try lia; split_and!; try lia.
  - assert (E : X mod N = if decide ((X - 1) mod N + 1 < N) then (X - 1) mod N + 1 else (X - 1) mod N + 1 - N).
    { rewrite <- mod_shift by lia. f_equal. lia. }
    pose proof (Z.mod_pos_bound (X - 1) N ltac:(lia)). case_decide; case_tests; lia.
  - change (0 - 1) with (-1). replace (-1) with ((N - 1) + (-1) * N) by lia.
    rewrite Z.mod_add by lia. rewrite Z.mod_small; lia.
Qed.

(** What is left of a flush. *)
Definition flush_measure T X (f : t_flush) : Z :=
  match f with Outer _ => 2 * (X - T) | Inner _ _ => 2 * (X - T) + 1 end.

Lemma pushing_mono ps T T' q q' p :
  T ≤ T' → v_head q' = v_head q → v_next q' = v_next q → v_objects q' = v_objects q →
  pushing ps T q p → pushing ps T' q' p.
Proof.
  intros HT E1 E2 E3 Hp. destruct p as [[]|]; cbn in *; unfold limit in *; rewrite ?E1, ?E2, ?E3; try (tauto || lia).
  - destruct Hp; split; [lia|done].
  - destruct Hp; split; [done|lia].
Qed.

(** The tail goes over one more object. *)
Lemma ring_tail_step ps T m q :
  ring ps T m q → m = T ∨ m = T - 1 → T < len ps →
  ring ps (T + 1) T (set_v_tail (if decide (v_tail q + 1 < N) then v_tail q + 1 else 0) q).
Proof.
  intros [Hl Hh Ht Hm Hr Hc] HmT HT. pose proof (Z.mod_pos_bound (T - 1) N ltac:(lia)).
  split; cbn; try done; try lia.
  - rewrite Ht. replace (T + 1 - 1) with (T - 1 + 1) by lia. rewrite (mod_shift N (T - 1)) by lia. case_decide; lia.
  - intros i Hi. apply Hc. lia.
Qed.

(** The position of the last object of a flush. *)
Lemma flush_end ps T m X q :
  ring ps T m q → T ≤ X ≤ len ps →
  (X - 1) mod N = v_tail q + (X - T) ∧ v_tail q + (X - T) < N ∨
  (X - 1) mod N = v_tail q + (X - T) - N ∧ N ≤ v_tail q + (X - T).
Proof.
  intros [Hl Hh Ht Hm Hr Hc] HX. pose proof (mod_shift N (T - 1) (X - T) ltac:(lia) ltac:(lia)) as E.
  replace (T - 1 + (X - T)) with (X - 1) in E by lia. rewrite <- Ht in E. case_decide; lia.
Qed.

(** One round of a flush: [a] is the next object if any is taken. *)
Definition flush_round ps T m X p q f (r : outcome (t_queue A * option A * option t_flush)) : Prop :=
  ∃ q' a f' T' m', r = Ok (q', a, f') ∧ ring ps T' m' q' ∧ pushing ps T' q' p ∧
    T ≤ T' ∧ v_epoch q' = v_epoch q ∧
    (match a with Some a => m' = m + 1 ∧ ps !! Z.to_nat m = Some a | None => m' = m end) ∧
    match f' with
    | Some f' => flushing ps T' m' X q' f' ∧ 0 ≤ flush_measure T' X f' < flush_measure T X f
    | None => T' = X ∧ m' = X ∧ q' = q
    end.

Lemma flush_outer_round ps T m X p q e :
  ring ps T m q → pushing ps T q p → flushing ps T m X q (Outer e) →
  flush_round ps T m X p q (Outer e) (flush_step N (Outer e) q).
Proof.
  intros HR Hp (HX & -> & -> & HTX). pose proof (flush_end _ _ _ X _ HR ltac:(lia)) as He.
  pose proof (Z.mod_pos_bound (T - 1) N ltac:(lia)) as Hb. rewrite <- (ring_tail _ _ _ _ HR) in Hb.
  pose proof (ring_room _ _ _ _ HR) as Hr. unfold flush_round. cbn [flush_step].
  destruct (Z.eqb_spec (v_tail q) ((X - 1) mod N)) as [E|E].
  { exists q, None, None, T, T. assert (T = X) as <- by lia. by split_and!. }
  assert (HT : T < X) by lia.
  pose proof (ring_tail_step _ _ _ _ HR (or_introl eq_refl) ltac:(lia)) as HR'.
  assert (Hmono : ∀ t, pushing ps (T + 1) (set_v_tail t q) p) by (intros t; apply (pushing_mono _ T _ q); done || lia).
  destruct (Z.ltb_spec (v_tail q) (N - 1)).
  - rewrite decide_True in HR' by lia. eexists _, None, (Some _). exists (T + 1), T. cbn [flush_measure].
    split_and!; [done|done|apply Hmono|lia|done|done| |cbn; lia..]. split; [done|]. split_and!; [done|lia|].
    destruct (Z.ltb_spec ((X - 1) mod N) (v_tail q)); cbn.
    + exists (T + (N - 1 - v_tail q)). split_and!; [lia..|].
      replace (T + (N - 1 - v_tail q) - 1) with (T - 1 + (N - 1 - v_tail q)) by lia.
      rewrite mod_shift, <- (ring_tail _ _ _ _ HR), decide_True by lia. lia.
    + exists X. split_and!; lia.
  - rewrite decide_False in HR' by lia. eexists _, None, (Some _). exists (T + 1), T. cbn [flush_measure].
    split_and!; [done|done|apply Hmono|lia|done|done| |cbn; lia..]. split; [done|]. split_and!; [done|lia|].
    exists X. cbn. split_and!; lia.
Qed.

Lemma flush_inner_round ps T m X p q e next :
  ring ps T m q → pushing ps T q p → flushing ps T m X q (Inner e next) →
  flush_round ps T m X p q (Inner e next) (flush_step N (Inner e next) q).
Proof.
  intros HR Hp (HX & -> & -> & Y & HY & Hy & Hny & Hyn). pose proof HR as [Hl Hh Ht Hm Hr Hc].
  pose proof (Z.mod_pos_bound (T - 1) N ltac:(lia)) as Hb. unfold flush_round. cbn [flush_step].
  assert (Hread : v_objects q !! Z.to_nat (v_tail q) = ps !! Z.to_nat (T - 1)) by (rewrite Ht; apply Hc; lia).
  destruct (lookup_lt_is_Some_2 ps (Z.to_nat (T - 1))) as [a Ha]; [lia|].
  rewrite (rd_lookup _ _ a); [|lia|by rewrite Hread]. cbn [mbind outcome_bind].
  destruct (Z.eqb_spec (v_tail q) next) as [E|E].
  - exists q, (Some a), (Some (Outer ((X - 1) mod N))), T, T. cbn [flush_measure].
    split_and!; [done| |done|lia|done|lia|done| |cbn; lia..].
    + split; try done; try lia. intros i Hi. apply Hc. lia.
    + split; [done|]. split_and!; [done|lia|lia].
  - pose proof (ring_tail_step _ _ _ _ HR (or_intror eq_refl) ltac:(lia)) as HR'. rewrite decide_True in HR' by lia.
    eexists _, (Some a), (Some _). exists (T + 1), T. cbn [flush_measure].
    split_and!; [done|done|apply (pushing_mono _ T _ q); done || lia|lia|done|lia|done| |cbn; lia..].
    split; [done|]. split_and!; [done|lia|]. exists Y. cbn. split_and!; lia || done.
Qed.

Lemma flush_step_ring ps T m X p q f :
  ring ps T m q → pushing ps T q p → flushing ps T m X q f → flush_round ps T m X p q f (flush_step N f q).
Proof. destruct f; [apply flush_outer_round|apply flush_inner_round]. Qed.
End Ring.
