(* ===== verification/QueueEpochs.v ===== *)
(** * Epochs (Queue.v)

    The invariant of the threads and the collector.  A thread is described by
    the counters of its queues and of its epochs, and by three moments: until
    [e_prev] all of its decrements were applied; until [e_low] all of its
    increments were applied, and its decrements are released by the epoch; after
    [e_high] none of its decrements was released.  In the order in which the
    collector visits the threads next, [e_high] of a thread does not come after
    [e_low] of a thread visited later. *)
From stdpp Require Import base list numbers sorting.
From S2P Require Import Prelude Queue QueueRing.
Local Open Scope Z_scope.

Abbreviation len ps := (Z.of_nat (length ps)).

(** ** The log *)
Section Log.
Context {A : Type}.
Implicit Types (g : list (t_event A)) (k : t_kind).

Lemma pushed_app t k g g' : pushed t k (g ++ g') = pushed t k g ++ pushed t k g'.
Proof. apply omap_app. Qed.

Lemma applied_app t k g g' : applied t k (g ++ g') = applied t k g ++ applied t k g'.
Proof. apply omap_app. Qed.

Lemma pushed_one t k t' k' (a : A) : pushed t k [Pushed t' k' a] = if decide (t' = t ∧ k' = k) then [a] else [].
Proof. unfold pushed. cbn. by case_decide. Qed.

Lemma applied_one t k t' k' (a : A) : applied t k [Applied t' k' a] = if decide (t' = t ∧ k' = k) then [a] else [].
Proof. unfold applied. cbn. by case_decide. Qed.

Lemma pushed_prefix t k n m g : (n ≤ m)%nat → len (pushed t k (take n g)) ≤ len (pushed t k (take m g)).
Proof.
  intros Hn. replace m with (n + (m - n))%nat by lia. rewrite <- take_take_drop, pushed_app, length_app. lia.
Qed.

Lemma pushed_take t k n g : len (pushed t k (take n g)) ≤ len (pushed t k g).
Proof. rewrite <- (firstn_all g) at 2. destruct (decide (n ≤ length g)%nat); [by apply pushed_prefix|]. by rewrite take_ge, firstn_all by lia. Qed.
End Log.

(** ** Threads *)
Section Threads.
Context {A : Type} (NDEBUG : bool).
Implicit Types (ps ap : t_kind → list A) (t : t_internal A) (k : t_kind).
Abbreviation SIZE := (A_SIZE NDEBUG).

Lemma SIZE_ge k : 2 ≤ SIZE k.
Proof. by destruct k, NDEBUG. Qed.

Record t_epochs := { e_last : Z; e_epoch : t_kind → Z; e_prev : nat; e_low : nat; e_high : nat }.

(** What the collector does with a thread. *)
Inductive t_phase :=
| Outside
| Resumed
| Taking (k : t_kind) (f : t_flush) (X : Z).

Definition phase_of (c : t_collector) (X : Z) (i : nat) : t_phase :=
  match c with
  | Scanning j => if decide (j = i) then Resumed else Outside
  | Flushing j k f => if decide (j = i) then Taking k f X else Outside
  | _ => Outside
  end.

(** The push a thread is in, as far as the queue of kind [k] is concerned. *)
Definition pushing_to k (a : t_at A) : option (t_push A) :=
  match a with
  | Pushing k' p => if decide (k' = k) then Some p else None
  | _ => None
  end.

Definition queue_ok k (p : list A) (n : Z) (h : t_phase) t : Prop :=
  ∃ T, ring (SIZE k) p T n (queue_of k t) ∧ pushing (SIZE k) p T (queue_of k t) (pushing_to k (v_at t)) ∧
    match h with
    | Taking k' f X => if decide (k' = k) then flushing (SIZE k) p T n X (queue_of k t) f else T = n
    | _ => T = n
    end.

Record thread_ok ps ap (h : t_phase) (d : t_epochs) t : Prop := {
  ok_queue k : queue_ok k (ps k) (len (ap k)) h t;
  ok_prefix k : ap k `prefix_of` ps k;
  ok_epoch k : epoch_is (SIZE k) (v_epoch (queue_of k t)) (e_epoch d k) ∧ len (ap k) ≤ e_epoch d k ≤ len (ps k);
  ok_last : epoch_is (SIZE Decrements) (v_last t) (e_last d) ∧ len (ap Decrements) ≤ e_last d ≤ e_epoch d Decrements;
  ok_done : -1 ≤ v_done t ≤ 3 ∧ (h = Outside → v_done t ≤ 2);
  ok_new k : v_done t = -1 → ps k = [];
  ok_pushing k p : v_at t = Pushing k p → v_done t = 0;
  ok_final k : v_at t = Finalizing ∨ 0 < v_done t → e_epoch d k = len (ps k);
  ok_phase :
    match h with
    | Outside => 2 ≤ v_done t → e_last d = len (ps Decrements) ∧ len (ap Increments) = len (ps Increments)
    | Resumed => v_done t ≠ -1 ∧ v_done t ≠ 1 ∧ (3 ≤ v_done t → e_last d = len (ps Decrements))
    | Taking Increments f X =>
      v_done t ≠ -1 ∧ v_done t ≠ 1 ∧ (3 ≤ v_done t → e_last d = len (ps Decrements)) ∧
      X ≤ e_epoch d Increments ∧ (1 ≤ v_done t → X = len (ps Increments))
    | Taking Decrements f X =>
      v_done t ≠ -1 ∧ v_done t ≠ 1 ∧ (3 ≤ v_done t → e_last d = len (ps Decrements)) ∧
      X = e_last d ∧ (1 ≤ v_done t → len (ap Increments) = len (ps Increments))
    end;
}.

Lemma queue_of_set k k' q t : queue_of k' (set_queue k q t) = if decide (k' = k) then q else queue_of k' t.
Proof. by destruct k, k'. Qed.

Lemma queue_of_at k a t : queue_of k (set_at a t) = queue_of k t.
Proof. by destruct k. Qed.

Lemma queue_of_done k n t : queue_of k (set_done n t) = queue_of k t.
Proof. by destruct k. Qed.

Lemma queue_of_last k p t : queue_of k (set_last p t) = queue_of k t.
Proof. by destruct k. Qed.

Lemma queue_ok_ext k p n h t t' :
  queue_of k t' = queue_of k t → pushing_to k (v_at t') = pushing_to k (v_at t) → queue_ok k p n h t → queue_ok k p n h t'.
Proof. intros Hq Ha (T & H1 & H2 & H3). exists T. by rewrite Hq, Ha. Qed.

Lemma flushing_more N (p l : list A) T n X (q q' : t_queue A) f :
  v_tail q' = v_tail q → flushing N p T n X q f → flushing N (p ++ l) T n X q' f.
Proof. intros Ht [HX Hf]. split; [rewrite length_app; lia|]. destruct f; [done|]. by rewrite Ht. Qed.

Lemma queue_push k p l n h q a t :
  (∀ T, ring (SIZE k) p T n (queue_of k t) → pushing (SIZE k) p T (queue_of k t) (pushing_to k (v_at t)) →
    ring (SIZE k) (p ++ l) T n q ∧ pushing (SIZE k) (p ++ l) T q (pushing_to k a) ∧ v_tail q = v_tail (queue_of k t)) →
  queue_ok k p n h t → queue_ok k (p ++ l) n h (set_at a (set_queue k q t)).
Proof.
  intros Hq (T & HR & Hp & Hh). destruct (Hq T HR Hp) as (HR' & Hp' & Ht). exists T.
  rewrite queue_of_at, queue_of_set, decide_True by done. split_and!; [done|done|].
  destruct h as [| |k' f X]; [done..|]. case_decide; [|done]. by apply (flushing_more _ _ _ _ _ _ _ _ _ Ht).
Qed.

(** A step of a push to the queue of kind [k], which completes the pushes [l]. *)
Lemma thread_push ps ap h d t k l q a :
  thread_ok ps ap h d t → v_done t = 0 → v_at t ≠ Finalizing → a ≠ Finalizing →
  (∀ k', k' ≠ k → pushing_to k' a = pushing_to k' (v_at t)) → v_epoch q = v_epoch (queue_of k t) →
  queue_ok k (ps k ++ l) (len (ap k)) h (set_at a (set_queue k q t)) →
  thread_ok (λ k', if decide (k' = k) then ps k' ++ l else ps k') ap h d (set_at a (set_queue k q t)).
Proof.
  intros [Hq Hpre He Hl Hd Hn Hp Hf Hh] H0 Hat Ha Hother Hepoch Hk.
  assert (Hlen : ∀ k', len (ps k') ≤ len (if decide (k' = k) then ps k' ++ l else ps k')).
  { intros k'. case_decide; rewrite ?length_app; lia. }
  split; cbn; try (rewrite H0; lia || done).
  - intros k'. case_decide as Hk'; [by subst|]. apply (queue_ok_ext _ _ _ _ t); [|by apply Hother|apply Hq].
    by rewrite queue_of_at, queue_of_set, decide_False.
  - intros k'. case_decide; [by apply prefix_app_r|done].
  - intros k'. specialize (He k') as [He1 He2]. rewrite queue_of_at, queue_of_set. split; [|specialize (Hlen k'); lia].
    case_decide; subst; by rewrite ?Hepoch.
  - done.
  - intros k' [?|?]; [done|lia].
  - destruct h as [| |[] f X]; rewrite H0 in *; try lia; destruct Hh as (H1 & H2 & H3 & H4 & H5); split_and!; done || lia.
Qed.

Lemma thread_ok_ext ps ps' ap ap' h d t :
  (∀ k, ps' k = ps k) → (∀ k, ap' k = ap k) → thread_ok ps ap h d t → thread_ok ps' ap' h d t.
Proof.
  intros Hps Hap [Hq Hpre He Hl Hd Hn Hp Hf Hh]. split; intros *; rewrite ?Hps, ?Hap; eauto.
Qed.

Definition with_epoch (e : t_kind → Z) (d : t_epochs) : t_epochs :=
  {| e_last := e_last d; e_epoch := e; e_prev := e_prev d; e_low := e_low d; e_high := e_high d |}.

Lemma with_epoch_same d : with_epoch (e_epoch d) d = d.
Proof. by destruct d. Qed.

(** [f_epoch_get] makes the epochs current. *)
Lemma f_epoch_get_ok ps ap h d t a :
  thread_ok ps ap h d t → v_done t = 0 → (∀ k, pushing_to k a = pushing_to k (v_at t)) →
  thread_ok ps ap h (with_epoch (λ k, len (ps k)) d) (set_at a (f_epoch_get t)).
Proof.
  intros [Hq Hpre He Hl Hd Hn Hp Hf Hh] H0 Ha.
  assert (Hget : ∀ k, queue_of k (f_epoch_get t) = set_v_epoch (Some (v_head (queue_of k t))) (queue_of k t)) by (by intros []).
  assert (Hap : ∀ k, len (ap k) ≤ len (ps k)) by (intros k; apply Nat2Z.inj_le, prefix_length, Hpre).
  split; cbn; try done.
  - intros k. destruct (Hq k) as (T & HR & Hpu & Hfl). exists T. rewrite queue_of_at, Hget. cbn. rewrite Ha. split_and!.
    + by apply ring_epoch.
    + by apply pushing_epoch.
    + destruct h as [| |k' f X]; [done..|]. case_decide; [|done]. by destruct f.
  - intros k. rewrite queue_of_at, Hget. cbn. destruct (Hq k) as (T & HR & _). split; [apply HR|]. specialize (Hap k). lia.
  - destruct Hl as [Hl1 Hl2]. split; [done|]. specialize (He Decrements). lia.
  - destruct h as [| |[] f X]; cbn in *; try done.
    destruct Hh as (H1 & H2 & H3 & H4 & H5). split_and!; try done. specialize (He Increments). lia.
Qed.

(** The mutex is free, and [v_done] is set. *)
Lemma set_done_ok ps ap d t n :
  thread_ok ps ap Outside d t → 0 ≤ n ≤ 1 → v_at t = Running ∨ v_at t = Finalizing →
  (∀ k, v_at t = Finalizing ∨ 0 < n → e_epoch d k = len (ps k)) →
  thread_ok ps ap Outside d (set_done n t).
Proof.
  intros [Hq Hpre He Hl Hd Hn Hp Hf Hh] Hn01 Hat HE. split; cbn; try done; try lia.
  - intros k p E. rewrite E in Hat. by destruct Hat.
Qed.

(** What the steps of a thread do. *)
Definition stepped ps ap h d t (r : outcome (t_internal A * list (t_event A))) : Prop :=
  ∃ t' ev E, r = Ok (t', ev) ∧ v_id t' = v_id t ∧
    thread_ok (λ k, ps k ++ pushed (v_id t) k ev) ap h (with_epoch E d) t' ∧ (∀ k, e_epoch d k ≤ E k) ∧
    (∀ i k, applied i k ev = []) ∧ (∀ i k, i ≠ v_id t → pushed i k ev = []).

Lemma stepped_quiet ps ap h d t t' E :
  thread_ok ps ap h (with_epoch E d) t' → v_id t' = v_id t → (∀ k, e_epoch d k ≤ E k) →
  stepped ps ap h d t (Ok (t', [])).
Proof.
  intros HT' Hid HE. exists t', [], E. split_and!; try done. revert HT'. apply thread_ok_ext; [|done].
  intros k. cbn. by rewrite app_nil_r.
Qed.

Lemma stepped_same ps ap h d t t' : thread_ok ps ap h d t' → v_id t' = v_id t → stepped ps ap h d t (Ok (t', [])).
Proof. intros HT Hid. apply (stepped_quiet _ _ _ _ _ _ (e_epoch d)); [by rewrite with_epoch_same|done|done]. Qed.

(** The steps of a push. *)
Lemma push_step_ok ps ap h d t k p :
  thread_ok ps ap h d t → v_at t = Pushing k p → stepped ps ap h d t (Ok (push_step NDEBUG k p t)).
Proof.
  intros HT Hat. pose proof (ok_pushing _ _ _ _ _ HT k p Hat) as H0.
  assert (Hk : pushing_to k (v_at t) = Some p) by (rewrite Hat; cbn; by rewrite decide_True).
  assert (Hk' : ∀ k', k' ≠ k → pushing_to k' (v_at t) = None) by (intros k' Hk'; rewrite Hat; cbn; by rewrite decide_False).
  assert (Hfin : v_at t ≠ Finalizing) by (by rewrite Hat).
  assert (Hkeep : ∀ a q, a ≠ Finalizing → (∀ k', k' ≠ k → pushing_to k' a = None) → v_epoch q = v_epoch (queue_of k t) →
    queue_ok k (ps k ++ []) (len (ap k)) h (set_at a (set_queue k q t)) →
    stepped ps ap h d t (Ok (set_at a (set_queue k q t), []))).
  { intros a q Ha Ha' Hq HQ. apply stepped_same; [|done].
    refine (thread_ok_ext _ _ _ _ _ _ _ _ _ (thread_push _ _ _ _ _ k [] q a HT H0 Hfin Ha _ Hq HQ)); [|done|].
    - intros k'. cbn. case_decide; [by rewrite app_nil_r|done].
    - intros k' Hne. by rewrite Ha', Hk'. }
  assert (Hsame : ∀ a, set_at a t = set_at a (set_queue k (queue_of k t) t)) by (intros a; by destruct t, k).
  pose proof (SIZE_ge k) as HN. destruct p as [a|wrapped|wrapped]; cbn [push_step].
  - destruct (push_advance (SIZE k) (queue_of k t)) as [q p'] eqn:E.
    set (at' := match p' with Some p' => Pushing k p' | None => Running end).
    assert (Hat' : at' ≠ Finalizing ∧ (∀ k', k' ≠ k → pushing_to k' at' = None) ∧ pushing_to k at' = p').
    { subst at'. destruct p'; cbn; split_and!; try done; [intros k' Hne; by rewrite decide_False|by rewrite decide_True]. }
    destruct Hat' as (Ha1 & Ha2 & Ha3).
    assert (Hring : ∀ T n, ring (SIZE k) (ps k) T n (queue_of k t) →
      pushing (SIZE k) (ps k) T (queue_of k t) (pushing_to k (v_at t)) →
      ring (SIZE k) (ps k ++ [a]) T n q ∧ pushing (SIZE k) (ps k ++ [a]) T q p' ∧ v_epoch q = v_epoch (queue_of k t)).
    { intros T n HR Hp. rewrite Hk in Hp. by apply (push_advance_ring _ HN _ _ _ _ _ _ _ HR Hp E). }
    assert (Htail : v_tail q = v_tail (queue_of k t)).
    { revert E. unfold push_advance. case_tests; by intros [= <- <-]. }
    exists (set_at at' (set_queue k q t)), [Pushed (v_id t) k a], (e_epoch d). rewrite with_epoch_same. split_and!; try done.
    + refine (thread_ok_ext _ _ _ _ _ _ _ _ _ (thread_push _ _ _ d _ k [a] q at' HT H0 Hfin Ha1 _ _ _)); [|done|..].
      * intros k'. rewrite pushed_one. destruct (decide (k' = k)) as [->|]; [by rewrite decide_True|].
        rewrite decide_False, app_nil_r by naive_solver. done.
      * intros k' Hne. by rewrite Ha2, Hk'.
      * destruct (ok_queue _ _ _ _ _ HT k) as (T & HR & Hp & _). by apply (Hring T _ HR Hp).
      * apply queue_push; [|apply HT]. intros T HR Hp. destruct (Hring T _ HR Hp) as (H1 & H2 & H3). by rewrite Ha3.
    + intros i k'' Hne. rewrite pushed_one, decide_False by naive_solver. done.
  - rewrite Hsame. apply Hkeep; [done|intros k' Hne; cbn; by rewrite decide_False|done|]. apply queue_push; [|apply HT].
    intros T HR Hp. rewrite app_nil_r. cbn. rewrite decide_True by done. split_and!; [done| |done].
    rewrite Hk in Hp. by apply (next_test_ring _ HN _ _ _ _ _ HR).
  - apply Hkeep; [done|done| |].
    + unfold next_limit. by destruct wrapped.
    + apply queue_push; [|apply HT]. intros T HR Hp. rewrite app_nil_r. rewrite Hk in Hp.
      destruct (next_limit_ring _ HN _ _ _ _ _ HR Hp) as (H1 & H2 & H3). split_and!; [done|done|].
      unfold next_limit. by destruct wrapped.
Qed.

(** The steps of a thread. *)
Lemma thread_step_ok e locked ps ap h d t :
  thread_ok ps ap h d t → (locked = false → h = Outside) → stepped ps ap h d t (thread_step NDEBUG e locked t).
Proof.
  intros HT Hlock. pose proof HT as [Hq Hpre He Hl Hd Hn Hp Hf Hh].
  assert (Hstay : stepped ps ap h d t (Ok (t, []))) by (by apply stepped_same).
  unfold thread_step. destruct e as [| | |j k x| | | |], (v_at t) as [|k' p|] eqn:Hat; try exact Hstay.
  - destruct locked; [exact Hstay|]. rewrite (Hlock eq_refl) in *. cbn [negb andb].
    destruct (Z.eqb_spec (v_done t) (-1)); [|exact Hstay]. apply stepped_same; [|done].
    apply set_done_ok; [done|lia|by left|]. intros k [?|?]; [by rewrite Hat in *|lia].
  - destruct locked; [exact Hstay|]. rewrite (Hlock eq_refl) in *. cbn [negb andb].
    destruct (Z.eqb_spec (v_done t) (-1)) as [E|]; [|exact Hstay]. apply stepped_same; [|done].
    apply set_done_ok; [done|lia|by left|]. intros k _. specialize (He k). rewrite (Hn k E) in *. cbn in *. lia.
  - destruct (Z.eqb_spec (v_done t) 0) as [E|]; [|exact Hstay].
    destruct (Hq k) as (T & HR & Hpu & Hfl). rewrite Hat in Hpu. cbn in Hpu.
    destruct (f__push_ring _ (SIZE_ge k) _ _ _ x _ HR Hpu) as (q & Hpush & HR' & Hpu' & Hep).
    rewrite Hpush. cbn [mbind outcome_bind]. apply stepped_same; [|done].
    assert (Htail : v_tail q = v_tail (queue_of k t)).
    { revert Hpush. unfold f__push. destruct (wr _ _ _); cbn; by intros [= <-]. }
    refine (thread_ok_ext _ _ _ _ _ _ _ _ _ (thread_push _ _ _ d _ k [] q (Pushing k (Stored x)) HT E _ _ _ Hep _)); try done.
    + intros k'. cbn. case_decide; [by rewrite app_nil_r|done].
    + by rewrite Hat.
    + intros k' Hne. rewrite Hat. cbn. by rewrite decide_False.
    + exists T. rewrite queue_of_at, queue_of_set, decide_True, app_nil_r by done. cbn. rewrite decide_True by done.
      split_and!; [done|done|]. destruct h as [| |k'' f X]; [done..|]. case_decide; [|done].
      rewrite <- (app_nil_r (ps k)). by apply (flushing_more _ _ _ _ _ _ _ _ _ Htail).
  - rewrite <- Hat in *. destruct (v_at t) as [|k'' p'|] eqn:Hat'; try done. injection Hat as -> ->. by apply push_step_ok.
  - destruct (Z.eqb_spec (v_done t) 0); [|exact Hstay].
    apply (stepped_quiet _ _ _ _ _ _ (λ k, len (ps k))); [|done|intros k; apply He].
    apply f_epoch_get_ok; [done|done|]. intros k. by rewrite Hat.
  - destruct locked; [exact Hstay|]. rewrite (Hlock eq_refl) in *. cbn [negb andb].
    destruct (Z.eqb_spec (v_done t) 0) as [E|]; [|exact Hstay]. apply stepped_same; [|done].
    apply set_done_ok; [done|lia|by right|]. intros k _. apply Hf. by left.
Qed.
End Threads.
