(* ===== verification/QueueVisit.v ===== *)
(** * The collector at a thread (Queue.v)

    The steps of [f_epoch] keep the invariant of the thread: the collector
    takes from the queues what was pushed, in order and up to the epochs. *)
From stdpp Require Import base list numbers.
From S2P Require Import Prelude Queue QueueRing QueueEpochs.
Local Open Scope Z_scope.

Lemma prefix_snoc {A} (l l' : list A) x : l `prefix_of` l' → l' !! length l = Some x → l ++ [x] `prefix_of` l'.
Proof.
  intros [r ->] Hx. rewrite lookup_app_r, Nat.sub_diag in Hx by lia. destruct r as [|y r]; [done|].
  injection Hx as ->. exists r. by rewrite <- app_assoc.
Qed.

Lemma prefix_full {A} (l l' : list A) : l `prefix_of` l' → length l = length l' → l = l'.
Proof. intros [r ->] E. rewrite length_app in E. destruct r; [by rewrite app_nil_r|cbn in E; lia]. Qed.

Section Visit.
Context {A : Type} (NDEBUG : bool).
Implicit Types (ps ap : t_kind → list A) (t : t_internal A) (k : t_kind).
Abbreviation SIZE := (A_SIZE NDEBUG).
Abbreviation ok := (thread_ok NDEBUG).

Lemma set_queue_same k t : set_queue k (queue_of k t) t = t.
Proof. by destruct t, k. Qed.

Lemma set_at_same t : set_at (v_at t) t = t.
Proof. by destruct t. Qed.

(** The epochs of the thread are current when the collector goes on. *)
Lemma visit_ok ps ap d t :
  ok ps ap Outside d t → 0 ≤ v_done t →
  ok ps ap Resumed (with_epoch (λ k, len (ps k)) d) (if 0 <? v_done t then set_done (v_done t + 1) t else f_epoch_get t).
Proof.
  intros HT H0. destruct (Z.ltb_spec 0 (v_done t)).
  - destruct HT as [Hq Hpre He Hl Hd Hn Hp Hf Hh]. assert (HE : ∀ k, e_epoch d k = len (ps k)) by (intros k; apply Hf; by right).
    split; cbn; try done; try lia.
    + intros k. rewrite queue_of_done. destruct (He k) as [He1 He2]. rewrite HE in He1, He2. by split.
    + by rewrite <- HE.
    + destruct Hd as [Hd1 Hd2]. specialize (Hd2 eq_refl). split; [lia|done].
    + intros k p E. specialize (Hp k p E). lia.
  - assert (H00 : v_done t = 0) by lia. pose proof (f_epoch_get_ok _ _ _ _ _ _ (v_at t) HT H00 (λ _, eq_refl)) as HT'.
    change (v_at t) with (v_at (f_epoch_get t)) in HT'. rewrite set_at_same in HT'.
    destruct HT' as [Hq Hpre He Hl Hd Hn Hp Hf Hh]. cbn in *. split; cbn; try done; rewrite ?H00; try lia.
Qed.

Lemma resume_ok ps ap d t :
  ok ps ap Resumed d t →
  ok ps ap (Taking Increments (f__flush (SIZE Increments) (v_epoch (v_increments t))) (e_epoch d Increments)) d t.
Proof.
  intros [Hq Hpre He Hl Hd Hn Hp Hf Hh]. split; try done.
  - intros k. destruct (Hq k) as (T & HR & Hpu & HT). exists T. split_and!; [done|done|]. case_decide; [|done]. subst.
    destruct (He Increments) as [He1 He2]. by apply f__flush_ring; [apply SIZE_ge| | |].
  - split; [lia|done].
  - destruct Hh as (H1 & H2 & H3). refine (conj H1 (conj H2 (conj H3 (conj _ _)))); [lia|]. intros Hd1. apply Hf. right. lia.
Qed.

(** [ap'] is what was applied with a step that takes [a]. *)
Definition taken ap k (a : option A) : t_kind → list A :=
  λ k', if decide (k' = k) then ap k' ++ match a with Some a => [a] | None => [] end else ap k'.

Lemma take_ok ps ap k f X d t :
  ok ps ap (Taking k f X) d t →
  ∃ q a f', flush_step (SIZE k) f (queue_of k t) = Ok (q, a, f') ∧
    match f' with
    | Some f' => ok ps (taken ap k a) (Taking k f' X) d (set_queue k q t)
    | None => a = None ∧ q = queue_of k t ∧ len (ap k) = X ∧ queue_ok NDEBUG k (ps k) X Outside t
    end.
Proof.
  intros HT. pose proof HT as [Hq Hpre He Hl Hd Hn Hp Hf Hh]. destruct (Hq k) as (T & HR & Hpu & Hfl).
  rewrite decide_True in Hfl by done.
  destruct (flush_step_ring _ (SIZE_ge NDEBUG k) _ _ _ _ _ _ _ HR Hpu Hfl)
    as (q & a & f' & T' & m & Hstep & HR' & Hpu' & HTT & Hep & Ha & Hf').
  exists q, a, f'. split; [done|]. destruct f' as [f'|].
  - destruct Hf' as [Hfl' _].
    assert (Hm : m = len (taken ap k a k) ∧ m ≤ X).
    { unfold taken. rewrite decide_True, length_app by done. split; [destruct a; cbn; lia|].
      destruct Hfl' as [HX Hc]. destruct f'; [lia|]. destruct Hc as (_ & -> & Y & HY & _). lia. }
    destruct Hm as [Hm HmX]. assert (Hother : ∀ k', k' ≠ k → taken ap k a k' = ap k') by (intros k' Hne; unfold taken; by rewrite decide_False).
    assert (HXE : X ≤ e_epoch d k ∧ (k = Decrements → X = e_last d)).
    { destruct k; destruct Hh as (_ & _ & _ & H4 & _); split; lia || done. }
    split; cbn; try done.
    + intros k'. destruct (decide (k' = k)) as [->|Hne].
      * exists T'. rewrite queue_of_set, decide_True, <- Hm by done. split_and!; [done|done|]. by rewrite decide_True.
      * rewrite Hother by done. apply (queue_ok_ext NDEBUG _ _ _ _ t); [by rewrite queue_of_set, decide_False|done|].
        destruct (Hq k') as (T2 & H1 & H2 & H3). rewrite decide_False in H3 by naive_solver.
        exists T2. split_and!; [done|done|]. by rewrite decide_False by naive_solver.
    + intros k'. destruct (decide (k' = k)) as [->|Hne]; [|by rewrite Hother]. unfold taken. rewrite decide_True by done.
      destruct a as [a|]; [|by rewrite app_nil_r]. destruct Ha as [_ Ha]. apply prefix_snoc; [done|].
      by rewrite Nat2Z.id in Ha.
    + intros k'. destruct (He k') as [He1 He2]. rewrite queue_of_set.
      destruct (decide (k' = k)) as [->|Hne]; [rewrite Hep; split; [done|lia]|by rewrite Hother].
    + destruct Hl as [Hl1 Hl2]. split; [done|]. destruct (decide (k = Decrements)) as [->|Hne].
      * rewrite <- Hm. destruct HXE as [_ HXE]. specialize (HXE eq_refl). lia.
      * rewrite Hother by done. lia.
    + split; [lia|done].
    + destruct k; [exact Hh|]. rewrite Hother by done. exact Hh.
  - destruct Hf' as (-> & -> & ->). destruct a as [a|].
    + exfalso. destruct f; cbn in Hstep; [case_match; [|case_match]; discriminate|].
      destruct (rd _ _); cbn in Hstep; [|done|done]. case_match; discriminate.
    + split_and!; [done|done|lia|]. exists X. split_and!; done.
Qed.

(** After the increments come the decrements. *)
Lemma taken_increments ps ap f X d t :
  ok ps ap (Taking Increments f X) d t → len (ap Increments) = X → queue_ok NDEBUG Increments (ps Increments) X Outside t →
  ok ps ap (Taking Decrements (f__flush (SIZE Decrements) (v_last t)) (e_last d)) d t.
Proof.
  intros [Hq Hpre He Hl Hd Hn Hp Hf Hh] HX HQ. split; try done.
  - intros [].
    + destruct HQ as (T & HR & Hpu & HT). exists T. rewrite HX. split_and!; done.
    + destruct (Hq Decrements) as (T & HR & Hpu & HT). exists T. split_and!; [done|done|].
      rewrite decide_False in HT by done. rewrite decide_True by done. subst T. destruct Hl as [Hl1 Hl2]. specialize (He Decrements).
      apply f__flush_ring; [apply SIZE_ge|done|done|lia].
  - split; [lia|done].
  - destruct Hh as (H1 & H2 & H3 & H4 & H5). refine (conj H1 (conj H2 (conj H3 (conj _ _)))); [lia|]. intros Hd1. specialize (H5 Hd1). lia.
Qed.

(** The end of a visit: the decrements up to the epoch are the next to go. *)
Lemma taken_decrements ps ap f X d t :
  ok ps ap (Taking Decrements f X) d t → len (ap Decrements) = X → queue_ok NDEBUG Decrements (ps Decrements) X Outside t →
  if v_done t <? 3 then
    ∀ pr lo hi, ok ps ap Outside {| e_last := e_epoch d Decrements; e_epoch := e_epoch d; e_prev := pr; e_low := lo; e_high := hi |}
      (set_last (v_epoch (v_decrements t)) t)
  else ∀ k, ap k = ps k.
Proof.
  intros [Hq Hpre He Hl Hd Hn Hp Hf Hh] HX HQ. destruct Hh as (H1 & H2 & H3 & H4 & H5).
  destruct (Z.ltb_spec (v_done t) 3).
  - intros pr lo hi. split; cbn; try done.
    + intros k. apply (queue_ok_ext NDEBUG _ _ _ _ t); [by rewrite queue_of_last|done|]. destruct k.
      * destruct (Hq Increments) as (T & HR & Hpu & HT). exists T. by split_and!.
      * by rewrite HX.
    + destruct (He Decrements) as [He1 He2]. split; [done|]. lia.
    + split; [lia|]. intros _. lia.
    + intros Hd2. split; [apply Hf; right; lia|apply H5; lia].
  - intros k. apply prefix_full; [done|]. destruct k.
    + specialize (H5 ltac:(lia)). lia.
    + specialize (H3 ltac:(lia)). lia.
Qed.

(** A thread that is not initialized is passed over. *)
Lemma skip_ok ps ap d t pr lo hi :
  ok ps ap Outside d t → v_done t < 0 →
  ok ps ap Outside {| e_last := e_last d; e_epoch := e_epoch d; e_prev := pr; e_low := lo; e_high := hi |} t ∧ (∀ k, ps k = []) ∧ e_last d = 0.
Proof.
  intros HT H0. assert (Hd : v_done t = -1) by (pose proof (ok_done _ _ _ _ _ _ HT); lia).
  assert (Hps : ∀ k, ps k = []) by (intros k; by apply (ok_new _ _ _ _ _ _ HT)).
  destruct HT as [Hq Hpre He Hl Hd' Hn Hp Hf Hh]. split_and!; [by split|done|].
  specialize (He Decrements). rewrite Hps in He. cbn in He. lia.
Qed.
End Visit.
