(* ===== verification/QueueSafety.v ===== *)
(** * The counts of the collector are safe (Queue.v)

    Whatever the order in which the threads and the collector take their
    steps, the collector applies the increments and decrements of every thread
    in the order of the pushes, and what it has applied at any moment contains
    all increments and at most the decrements of some moment in the past. *)
From stdpp Require Import base list numbers sorting.
From S2P Require Import Prelude Queue QueueRing QueueEpochs QueueVisit.
Local Open Scope Z_scope.

(** ** The turn of the threads *)

(** The threads in the order in which they are visited next, when the
    collector is at the index [i]. *)
Definition turn {B} (i : nat) (l : list B) : list B := drop i l ++ take i l.

Lemma turn_lookup {B} i (l : list B) x :
  l !! i = Some x →
  turn i l = x :: drop (S i) l ++ take i l ∧ turn (S i) l = (drop (S i) l ++ take i l) ++ [x] ∧
  turn i (delete i l) = drop (S i) l ++ take i l.
Proof.
  intros Hx. assert (Hi : (i < length l)%nat) by (by apply lookup_lt_Some in Hx). unfold turn. split_and!.
  - by rewrite (drop_S _ _ _ Hx).
  - by rewrite (take_S_r _ _ _ Hx), app_assoc.
  - rewrite delete_take_drop, drop_app_length', take_app_length' by (rewrite length_take; lia). done.
Qed.

Lemma turn_all {B} (l : list B) : turn (length l) l = turn 0 l.
Proof. unfold turn. by rewrite drop_all, firstn_all, app_nil_r. Qed.

Section Sorted.
Context {B : Type}.

Lemma sorted_ext (R R' : B → B → Prop) l :
  (∀ a b, a ∈ l → b ∈ l → R a b → R' a b) → StronglySorted R l → StronglySorted R' l.
Proof.
  intros HR Hs. induction Hs as [|a l Hs IH Hall]; constructor.
  - apply IH. intros x y Hx Hy. apply HR; by right.
  - apply Forall_forall. intros b Hb. apply HR; [by left|by right|]. by apply (proj1 (Forall_forall _ _) Hall).
Qed.

Lemma sorted_snoc (R : B → B → Prop) l x : StronglySorted R l → (∀ a, a ∈ l → R a x) → StronglySorted R (l ++ [x]).
Proof.
  intros Hs Hx. induction Hs as [|a l Hs IH Hall]; cbn; constructor.
  - constructor.
  - constructor.
  - apply IH. intros b Hb. apply Hx. by right.
  - apply Forall_app. split; [done|]. constructor; [|done]. apply Hx. by left.
Qed.
End Sorted.

Lemma prefix_shorter {B} (l1 l2 l : list B) :
  l1 `prefix_of` l → l2 `prefix_of` l → len l1 ≤ len l2 → l1 `prefix_of` l2.
Proof.
  intros H1 H2 Hl. destruct (prefix_weak_total _ _ _ H1 H2) as [?|H]; [done|].
  rewrite (prefix_full l2 l1); [done..|]. apply prefix_length in H. lia.
Qed.

(** ** The invariant *)
Section Safety.
Context {A : Type} (NDEBUG : bool).
Implicit Types (t : t_internal A) (ts : list (t_internal A)) (g ev : list (t_event A)) (k : t_kind) (d : t_epochs).
Abbreviation ok := (thread_ok NDEBUG).
Abbreviation ids ts := (v_id <$> ts).

Definition bounds_ok g (i : nat) d : Prop :=
  e_last d ≤ len (pushed i Decrements (take (e_high d) g)) ∧
  len (pushed i Increments (take (e_low d) g)) ≤ len (applied i Increments g) ∧
  (e_low d ≤ length g)%nat ∧ (e_high d ≤ length g)%nat ∧
  len (pushed i Decrements (take (e_low d) g)) ≤ e_last d ∧
  len (pushed i Decrements (take (e_prev d) g)) ≤ len (applied i Decrements g) ∧ (e_prev d ≤ length g)%nat.

Record base ts (n : nat) g (ph : nat → t_phase) (D : nat → t_epochs) : Prop := {
  b_nodup : NoDup (ids ts);
  b_ids i : i ∈ ids ts → (i < n)%nat;
  b_fresh i k : (n ≤ i)%nat → pushed i k g = [] ∧ applied i k g = [];
  b_threads j t : ts !! j = Some t → ok (λ k, pushed (v_id t) k g) (λ k, applied (v_id t) k g) (ph j) (D (v_id t)) t;
  b_bounds i : i ∈ ids ts → bounds_ok g i (D i);
  b_dead i k : i ∉ ids ts → applied i k g = pushed i k g;
}.

Definition order_ok ts (i : nat) (D : nat → t_epochs) : Prop :=
  StronglySorted (λ a b, (e_high (D a) ≤ e_low (D b))%nat) (turn i (ids ts)).

Definition cut_ok g (cut : nat) : Prop :=
  (cut ≤ length g)%nat ∧
  ∀ i, len (applied i Decrements g) ≤ len (pushed i Decrements (take cut g)) ∧
       len (pushed i Increments (take cut g)) ≤ len (applied i Increments g).

Definition position (c : t_collector) : nat :=
  match c with Idle => 0 | Visiting i | Scanning i | Flushing i _ _ => i end.

(** [now] is when the collector came to the thread. *)
Definition visit_inv ts g (c : t_collector) (X : Z) (D : nat → t_epochs) (cut now : nat) : Prop :=
  let at_thread j (P : nat → Prop) := ∃ t, ts !! j = Some t ∧ (now ≤ length g)%nat ∧
    (∀ i, i ∈ ids ts → (e_high (D i) ≤ now)%nat) ∧
    len (pushed (v_id t) Decrements (take now g)) ≤ e_epoch (D (v_id t)) Decrements ∧ P (v_id t) in
  match c with
  | Idle => True
  | Visiting i => (i ≤ length ts)%nat
  | Scanning j => at_thread j (λ i, len (pushed i Increments (take now g)) ≤ e_epoch (D i) Increments)
  | Flushing j Increments _ => at_thread j (λ i, len (pushed i Increments (take now g)) ≤ X)
  | Flushing j Decrements _ => at_thread j (λ i, len (pushed i Increments (take now g)) ≤ len (applied i Increments g) ∧
      e_last (D i) ≤ len (pushed i Decrements (take cut g)))
  end.

(** Since the moment [since] of the round [round]: a thread visited in a later
    round got beyond this moment. *)
Context (since round : nat).

Definition visited (c : t_collector) (j : nat) : bool :=
  match c with Idle => true | _ => bool_decide (j < position c)%nat end.

Definition last_visit (c : t_collector) (epoch j : nat) : nat := if visited c j then epoch else (epoch - 1)%nat.

Definition since_ok ts g (c : t_collector) (epoch : nat) (D : nat → t_epochs) (now : nat) : Prop :=
  (since ≤ length g)%nat ∧
  (match c with Scanning _ | Flushing _ _ _ => (round < epoch → since ≤ now)%nat | _ => True end) ∧
  ∀ j t, ts !! j = Some t →
    (round < last_visit c epoch j → since ≤ e_low (D (v_id t)))%nat ∧
    (S round < last_visit c epoch j → since ≤ e_prev (D (v_id t)))%nat.

Definition inv (s : t_engine A) : Prop :=
  ∃ X D cut now,
    base (v_thread__internals s) (v_ids s) (v_log s) (phase_of (v_collector s) X) D ∧
    order_ok (v_thread__internals s) (position (v_collector s)) D ∧
    cut_ok (v_log s) cut ∧
    visit_inv (v_thread__internals s) (v_log s) (v_collector s) X D cut now ∧
    since_ok (v_thread__internals s) (v_log s) (v_collector s) (v_collector__epoch s) D now.

Lemma take_grow n g ev : (n ≤ length g)%nat → take n (g ++ ev) = take n g.
Proof. intros Hn. by rewrite take_app_le. Qed.

Lemma bounds_grow g ev i d : bounds_ok g i d → bounds_ok (g ++ ev) i d.
Proof.
  intros (H1 & H2 & H3 & H4 & H5 & H6 & H7). unfold bounds_ok. rewrite !take_grow, !applied_app, !length_app by done.
  split_and!; lia.
Qed.

Lemma cut_grow g ev cut :
  cut_ok g cut → (∀ i, len (applied i Decrements (g ++ ev)) ≤ len (pushed i Decrements (take cut g))) → cut_ok (g ++ ev) cut.
Proof.
  intros [Hcut H] Hdec. split; [rewrite length_app; lia|]. intros i. rewrite take_grow by done. split; [apply Hdec|].
  destruct (H i) as [_ H']. rewrite applied_app, length_app. lia.
Qed.

(** Replacing what is known of one thread. *)
Definition known (D : nat → t_epochs) (i : nat) d : nat → t_epochs := λ j, if decide (j = i) then d else D j.

Lemma known_eq D i d : known D i d i = d.
Proof. unfold known. by rewrite decide_True. Qed.

Lemma known_ne D i d j : j ≠ i → known D i d j = D j.
Proof. intros Hj. unfold known. by rewrite decide_False. Qed.

Lemma ids_insert ts j t t' : ts !! j = Some t → v_id t' = v_id t → ids (<[j := t']> ts) = ids ts.
Proof. intros Ht Hid. rewrite list_fmap_insert, Hid. apply list_insert_id. by rewrite list_lookup_fmap, Ht. Qed.

Lemma ids_in ts j t : ts !! j = Some t → v_id t ∈ ids ts.
Proof. intros Ht. apply list_elem_of_fmap. exists t. split; [done|]. by apply list_elem_of_lookup_2 in Ht. Qed.

Lemma ids_inj ts j j' t t' : NoDup (ids ts) → ts !! j = Some t → ts !! j' = Some t' → v_id t = v_id t' → j = j'.
Proof.
  intros Hnd Ht Ht' E. eapply NoDup_lookup; [done|by rewrite list_lookup_fmap, Ht|].
  by rewrite list_lookup_fmap, Ht', E.
Qed.

(** Only the thread at [j] changes, and only what concerns it happens. *)
Lemma base_update ts n g ph D j t t' ev ph' d' :
  base ts n g ph D → ts !! j = Some t → v_id t' = v_id t → (∀ j', j' ≠ j → ph' j' = ph j') →
  (∀ i k, i ≠ v_id t → pushed i k ev = [] ∧ applied i k ev = []) →
  ok (λ k, pushed (v_id t) k (g ++ ev)) (λ k, applied (v_id t) k (g ++ ev)) (ph' j) d' t' →
  bounds_ok (g ++ ev) (v_id t) d' →
  base (<[j := t']> ts) n (g ++ ev) ph' (known D (v_id t) d').
Proof.
  intros [H1 H2 H3 H4 H5 H6] Ht Hid Hph Hev Hok Hb. pose proof (ids_in _ _ _ Ht) as Hin.
  split; rewrite ?(ids_insert _ _ t) by done; try done.
  - intros i k Hi. rewrite pushed_app, applied_app. assert (Hne : i ≠ v_id t) by (specialize (H2 _ Hin); lia).
    destruct (Hev i k Hne) as [-> ->], (H3 i k Hi) as [-> ->]. done.
  - intros j' t2 Hj'. destruct (decide (j' = j)) as [->|Hne].
    + rewrite list_lookup_insert_eq in Hj' by (by apply lookup_lt_Some in Ht). injection Hj' as <-.
      rewrite Hid, known_eq. done.
    + rewrite list_lookup_insert_ne in Hj' by done.
      assert (Hi : v_id t2 ≠ v_id t) by (intros E; apply Hne; by apply (ids_inj _ _ _ _ _ H1 Hj' Ht)).
      rewrite known_ne, Hph by done. refine (thread_ok_ext _ _ _ _ _ _ _ _ _ _ (H4 j' t2 Hj')); intros k.
      * rewrite pushed_app, (proj1 (Hev _ k Hi)). apply app_nil_r.
      * rewrite applied_app, (proj2 (Hev _ k Hi)). apply app_nil_r.
  - intros i Hi. destruct (decide (i = v_id t)) as [->|Hne]; [by rewrite known_eq|].
    rewrite known_ne by done. by apply bounds_grow, H5.
  - intros i k Hi. assert (Hne : i ≠ v_id t) by (by intros ->). rewrite pushed_app, applied_app.
    destruct (Hev i k Hne) as [-> ->]. by rewrite H6.
Qed.

Lemma order_known ts i D j d :
  order_ok ts i D → e_low d = e_low (D j) → e_high d = e_high (D j) → order_ok ts i (known D j d).
Proof.
  intros HD Hl Hh. unfold order_ok. refine (sorted_ext _ _ _ _ HD). intros a b _ _. unfold known.
  do 2 case_decide; subst; by rewrite ?Hl, ?Hh.
Qed.

(** The thread has had its turn. *)
Lemma order_next ts i D t d now :
  order_ok ts i D → ts !! i = Some t → NoDup (ids ts) → (∀ j, j ∈ ids ts → (e_high (D j) ≤ now)%nat) → (now ≤ e_low d)%nat →
  order_ok ts (S i) (known D (v_id t) d).
Proof.
  intros HD Ht Hnd Hnow Hd. assert (Hi : ids ts !! i = Some (v_id t)) by (by rewrite list_lookup_fmap, Ht).
  destruct (turn_lookup _ _ _ Hi) as (E1 & E2 & _). unfold order_ok in *. rewrite E2. rewrite E1 in HD.
  apply StronglySorted_inv in HD as [HD _].
  assert (Hne : ∀ a, a ∈ drop (S i) (ids ts) ++ take i (ids ts) → a ≠ v_id t ∧ a ∈ ids ts).
  { assert (Hp : v_id t :: drop (S i) (ids ts) ++ take i (ids ts) ≡ₚ ids ts).
    { rewrite <- E1. unfold turn. rewrite Permutation_app_comm. by rewrite take_drop. }
    rewrite <- Hp in Hnd. apply NoDup_cons in Hnd as [Hnd _]. intros a Ha. split; [by intros ->|]. rewrite <- Hp. by right. }
  apply sorted_snoc.
  - refine (sorted_ext _ _ _ _ HD). intros a b Ha Hb. by rewrite !known_ne by (by apply Hne).
  - intros a Ha. destruct (Hne a Ha) as [Ha1 Ha2]. rewrite known_eq, known_ne by done. specialize (Hnow _ Ha2). lia.
Qed.

(** ** Steps of the threads *)

Lemma visit_grow ts g c X D cut now j t t' ev d :
  visit_inv ts g c X D cut now → (cut ≤ length g)%nat → ts !! j = Some t → v_id t' = v_id t →
  (∀ i k, applied i k ev = []) → e_last d = e_last (D (v_id t)) → e_high d = e_high (D (v_id t)) →
  (∀ k, e_epoch (D (v_id t)) k ≤ e_epoch d k) →
  visit_inv (<[j := t']> ts) (g ++ ev) c X (known D (v_id t) d) cut now.
Proof.
  intros Hv Hcut Ht Hid Hev Hl Hh He.
  assert (Hlook : ∀ i t2, ts !! i = Some t2 → ∃ t3, <[j := t']> ts !! i = Some t3 ∧ v_id t3 = v_id t2).
  { intros i t2 Hi. destruct (decide (i = j)) as [->|Hne].
    - exists t'. rewrite list_lookup_insert_eq by (by apply lookup_lt_Some in Ht). split; [done|]. congruence.
    - exists t2. by rewrite list_lookup_insert_ne. }
  assert (Hhigh : ∀ i, e_high (known D (v_id t) d i) = e_high (D i)) by (intros i; unfold known; case_decide; by subst).
  assert (Hlast : ∀ i, e_last (known D (v_id t) d i) = e_last (D i)) by (intros i; unfold known; case_decide; by subst).
  assert (Hep : ∀ i k, e_epoch (D i) k ≤ e_epoch (known D (v_id t) d i) k) by (intros i k; unfold known; case_decide; subst; [apply He|lia]).
  assert (Hap : ∀ i k, applied i k (g ++ ev) = applied i k g) by (intros i k; by rewrite applied_app, Hev, app_nil_r).
  destruct c as [|i|i|i [] f]; cbn in *; [done|by rewrite length_insert|..];
    destruct Hv as (t2 & Hi & Hnow & Hall & HE & HP); destruct (Hlook i t2 Hi) as (t3 & Hi3 & Hid3); exists t3;
    pose proof (Hep (v_id t2) Increments); pose proof (Hep (v_id t2) Decrements);
    rewrite (ids_insert _ _ t), Hid3, ?take_grow, ?Hap, ?Hlast by done;
    (split_and!; [done|rewrite length_app; lia|intros i' Hi'; rewrite Hhigh; by apply Hall|lia|..]); (done || lia || apply HP).
Qed.

Lemma since_grow ts g c e D now j t t' ev d :
  since_ok ts g c e D now → ts !! j = Some t → v_id t' = v_id t →
  e_low d = e_low (D (v_id t)) → e_prev d = e_prev (D (v_id t)) →
  since_ok (<[j := t']> ts) (g ++ ev) c e (known D (v_id t) d) now.
Proof.
  intros (H1 & H2 & H3) Ht Hid Hl Hp. split_and!; [rewrite length_app; lia|done|]. intros i t2 Hi.
  assert (Hsame : ∃ t3, ts !! i = Some t3 ∧ v_id t2 = v_id t3).
  { destruct (decide (i = j)) as [->|Hne].
    - rewrite list_lookup_insert_eq in Hi by (by apply lookup_lt_Some in Ht). injection Hi as <-. by exists t.
    - rewrite list_lookup_insert_ne in Hi by done. by exists t2. }
  destruct Hsame as (t3 & Hi3 & ->). specialize (H3 i t3 Hi3).
  unfold known. case_decide as E; [rewrite E in H3; by rewrite Hl, Hp|done].
Qed.

Lemma inv_thread s e t :
  inv s → v_thread__internals s !! step_index e = Some t →
  ∃ t' ev, thread_step NDEBUG e (negb (unlocked s)) t = Ok (t', ev) ∧
    inv (append_log ev (set_internals (<[step_index e := t']> (v_thread__internals s)) s)).
Proof.
  intros (X & D & cut & now & HB & HO & HC & HV & HS) Ht. pose proof (b_threads _ _ _ _ _ HB _ _ Ht) as Hok.
  destruct (thread_step_ok NDEBUG e (negb (unlocked s)) _ _ _ _ _ Hok) as (t' & ev & E & Hstep & Hid & Hok' & HE & Hap & Hpu).
  { unfold unlocked. by destruct (v_collector s). }
  exists t', ev. split; [done|]. exists X, (known D (v_id t) (with_epoch E (D (v_id t)))), cut, now. cbn. split_and!.
  - apply (base_update _ _ _ (phase_of (v_collector s) X)); try done.
    + intros i k Hi. split; [by apply Hpu|apply Hap].
    + refine (thread_ok_ext _ _ _ _ _ _ _ _ _ _ Hok'); intros k; rewrite ?pushed_app, ?applied_app, ?Hap, ?app_nil_r; done.
    + apply bounds_grow. apply (b_bounds _ _ _ _ _ HB). by apply (ids_in _ _ _ Ht).
  - unfold order_ok. rewrite (ids_insert _ _ t) by done. by apply order_known.
  - apply cut_grow; [done|]. intros i. rewrite applied_app, Hap, app_nil_r. apply HC.
  - apply visit_grow; try done. apply HC.
  - by apply since_grow.
Qed.

(** A thread that has not been created has pushed nothing. *)
Lemma inv_fork s a b :
  inv s → v_collector s = Idle → Z.of_nat (length a) = A_SIZE NDEBUG Increments → Z.of_nat (length b) = A_SIZE NDEBUG Decrements →
  inv (f_fork NDEBUG a b s).
Proof.
  intros (X & D & cut & now & HB & HO & HC & HV & HS) Hidle Ha Hb. rewrite Hidle in *.
  set (d := {| e_last := 0; e_epoch := λ _, 0; e_prev := length (v_log s); e_low := length (v_log s); e_high := 0 |}).
  destruct HB as [H1 H2 H3 H4 H5 H6]. destruct (H3 (v_ids s) Increments ltac:(lia)) as [Hp1 Ha1].
  destruct (H3 (v_ids s) Decrements ltac:(lia)) as [Hp2 Ha2].
  assert (Hne : ∀ i, i ∈ ids (v_thread__internals s) → i ≠ v_ids s) by (intros i Hi; specialize (H2 i Hi); lia).
  exists X, (known D (v_ids s) d), cut, now. cbn. rewrite Hidle. split_and!; [| |done|done|].
  - split.
    + cbn. apply NoDup_cons. split; [|done]. intros Hin. by apply (Hne _ Hin).
    + intros i. cbn. intros [->|Hi]%elem_of_cons; [lia|]. specialize (H2 i Hi). lia.
    + intros i k Hi. apply H3. lia.
    + intros [|j] t; cbn.
      * intros [= <-]. cbn. rewrite known_eq.
        apply (thread_ok_ext NDEBUG (λ _, []) _ (λ _, [])); [by intros []|by intros []|].
        pose proof (SIZE_ge NDEBUG) as HN. split; cbn; try done; try lia.
        -- intros k. exists 0. destruct k; (split_and!; [by apply (ring_new _ (HN _))|apply (pushing_new _ (HN _))|done]).
        -- intros k. destruct k; cbn; split; done || lia.
      * intros Hj. rewrite known_ne by (apply Hne; by apply (ids_in _ _ _ Hj)).
        by apply (H4 j).
    + intros i. cbn. intros [->|Hi]%elem_of_cons.
      * rewrite known_eq. unfold bounds_ok; cbn. rewrite !firstn_all, Hp1, Hp2. unfold pushed. cbn. lia.
      * rewrite known_ne by (by apply Hne). by apply H5.
    + intros i k. cbn. intros [Hi1 Hi2]%not_elem_of_cons. by apply H6.
  - unfold order_ok, turn in *. cbn in *. rewrite app_nil_r in *. constructor.
    + refine (sorted_ext _ _ _ _ HO). intros x y Hx Hy. by rewrite !known_ne by (by apply Hne).
    + apply Forall_forall. intros x Hx. rewrite known_eq. cbn. lia.
  - destruct HS as (HS1 & HS2 & HS3). split_and!; [done|done|]. intros [|j] t; cbn.
    + intros [= <-]. cbn. rewrite known_eq. by split.
    + intros Hj. rewrite known_ne by (apply Hne; by apply (ids_in _ _ _ Hj)). by apply (HS3 j).
Qed.

(** ** Steps of the collector *)

Lemma pushed_now g i k : pushed i k (take (length g) g) = pushed i k g.
Proof. by rewrite firstn_all. Qed.

(** Nothing happens to the queues. *)
Lemma base_quiet ts n g ph D j t t' ph' d' :
  base ts n g ph D → ts !! j = Some t → v_id t' = v_id t → (∀ j', j' ≠ j → ph' j' = ph j') →
  ok (λ k, pushed (v_id t) k g) (λ k, applied (v_id t) k g) (ph' j) d' t' → bounds_ok g (v_id t) d' →
  base (<[j := t']> ts) n g ph' (known D (v_id t) d').
Proof.
  intros HB Ht Hid Hph Hok Hb. rewrite <- (app_nil_r g). apply (base_update _ _ _ ph); try done; by rewrite app_nil_r.
Qed.

Lemma base_same ts n g ph D j t ph' d' :
  base ts n g ph D → ts !! j = Some t → (∀ j', j' ≠ j → ph' j' = ph j') →
  ok (λ k, pushed (v_id t) k g) (λ k, applied (v_id t) k g) (ph' j) d' t → bounds_ok g (v_id t) d' →
  base ts n g ph' (known D (v_id t) d').
Proof. intros HB Ht Hph Hok Hb. rewrite <- (list_insert_id ts j t Ht). by apply (base_quiet _ _ _ ph). Qed.

Lemma since_step ts g c c' e D now now' :
  since_ok ts g c e D now → (∀ j, visited c' j = visited c j) →
  match c' with Scanning _ | Flushing _ _ _ => (round < e → since ≤ now')%nat | _ => True end →
  since_ok ts g c' e D now'.
Proof. intros (H1 & H2 & H3) Hv Hc. split_and!; [done|done|]. intros j t. unfold last_visit. rewrite Hv. apply H3. Qed.

Lemma since_known ts g c e D now j d :
  since_ok ts g c e D now → e_low d = e_low (D j) → e_prev d = e_prev (D j) → since_ok ts g c e (known D j d) now.
Proof.
  intros (H1 & H2 & H3) Hl Hp. split_and!; [done|done|]. intros i t Hi. specialize (H3 i t Hi).
  unfold known. case_decide as E; [by rewrite Hl, Hp, <- E|done].
Qed.

(** The end of the visit of a thread. *)
Lemma since_next ts g c e D now now' i t d :
  since_ok ts g c e D now → NoDup (ids ts) → position c = i → c ≠ Idle → ts !! i = Some t →
  (round < e → since ≤ e_low d)%nat → (e_prev d = e_low (D (v_id t)) ∨ since ≤ e_prev d)%nat →
  since_ok ts g (Visiting (S i)) e (known D (v_id t) d) now'.
Proof.
  intros (H1 & H2 & H3) Hnd Hpos Hidle Ht Hl Hp. split_and!; [done|done|]. intros j t2 Hj.
  assert (Hvis : visited c j = bool_decide (j < i)%nat) by (destruct c; cbn in *; subst; done).
  pose proof (H3 j t2 Hj) as Hold. unfold last_visit in *. rewrite Hvis in Hold. cbn. destruct (decide (j = i)) as [->|Hne].
  - assert (t2 = t) as -> by congruence. rewrite known_eq. rewrite bool_decide_false in Hold by lia.
    rewrite bool_decide_true by lia. split; [done|]. intros He. destruct Hp as [->|?]; [apply Hold; lia|done].
  - rewrite known_ne by (intros E; apply Hne; by apply (ids_inj _ _ _ _ _ Hnd Hj Ht)).
    destruct (decide (j < i)%nat).
    + rewrite bool_decide_true in Hold by lia. by rewrite bool_decide_true by lia.
    + rewrite bool_decide_false in Hold by lia. by rewrite bool_decide_false by lia.
Qed.

Lemma visiting_step s i :
  inv s → v_collector s = Visiting i → ∃ s', f_collector NDEBUG s = Ok s' ∧ inv s'.
Proof.
  intros (X & D & cut & now & HB & HO & HC & HV & HS) Hcol. unfold f_collector, visit_thread, flush_thread, f_epoch. rewrite Hcol in *. cbn in HV, HO.
  destruct (v_thread__internals s !! i) as [t|] eqn:Ht.
  2: { eexists. split; [done|]. exists X, D, cut, now. cbn.
       apply lookup_ge_None in Ht. split_and!; [done| |done|done|].
       - unfold order_ok in *. rewrite <- turn_all, length_fmap. by replace (length (v_thread__internals s)) with i by lia.
       - destruct HS as (H1 & _ & H3). split_and!; [done|done|]. intros j t Hj. specialize (H3 j t Hj).
         apply lookup_lt_Some in Hj. unfold last_visit in *. cbn in *. by rewrite bool_decide_true in H3 by lia. }
  pose proof (b_threads _ _ _ _ _ HB _ _ Ht) as Hok. pose proof (ids_in _ _ _ Ht) as Hin.
  pose proof (b_bounds _ _ _ _ _ HB _ Hin) as Hb.
  assert (Hhigh : ∀ j, j ∈ ids (v_thread__internals s) → (e_high (D j) ≤ length (v_log s))%nat).
  { intros j Hj. apply (b_bounds _ _ _ _ _ HB _ Hj). }
  destruct (Z.leb_spec 0 (v_done t)) as [Hd|Hd]; cbv zeta.
  - set (t' := if 0 <? v_done t then _ else _). eexists. split; [done|].
    pose proof (visit_ok NDEBUG _ _ _ _ Hok Hd) as Hok'. fold t' in Hok'.
    assert (Hid : v_id t' = v_id t) by (subst t'; by destruct (0 <? v_done t)).
    set (d := with_epoch (λ k, len (pushed (v_id t) k (v_log s))) (D (v_id t))) in *.
    exists X, (known D (v_id t) d), cut, (length (v_log s)). cbn. split_and!.
    + apply (base_quiet _ _ _ (phase_of (Visiting i) X)); try done.
      * intros j Hj. cbn. by rewrite decide_False.
      * cbn. by rewrite decide_True.
    + unfold order_ok. rewrite (ids_insert _ _ t) by done. by apply order_known.
    + done.
    + exists t'. rewrite list_lookup_insert_eq by (by apply lookup_lt_Some in Ht). rewrite (ids_insert _ _ t), Hid by done.
      split_and!; [done|done| | |].
      * intros j Hj. unfold known. case_decide; [subst|]; by apply Hhigh.
      * rewrite known_eq, pushed_now. cbn. lia.
      * rewrite known_eq, pushed_now. cbn. lia.
    + assert (HS' : since_ok (v_thread__internals s) (v_log s) (Scanning i) (v_collector__epoch s) D (length (v_log s))).
      { apply (since_step _ _ (Visiting i) _ _ _ now); [done|done|]. intros _. apply HS. }
      pose proof (since_grow _ _ _ _ _ _ i t t' [] d HS' Ht Hid eq_refl eq_refl) as H. by rewrite app_nil_r in H.
  - eexists. split; [done|].
    destruct (skip_ok NDEBUG _ _ _ _ (length (v_log s)) (length (v_log s)) (length (v_log s)) Hok Hd) as (Hok' & Hps & Hlast).
    set (d := {| e_last := _; e_epoch := _; e_prev := _; e_low := _; e_high := _ |}) in *.
    exists X, (known D (v_id t) d), cut, now. cbn. split_and!; [| |done| |].
    + apply (base_same _ _ _ (phase_of (Visiting i) X) _ i); try done.
      unfold bounds_ok. subst d. cbn. rewrite !pushed_now, Hlast, !Hps. cbn. lia.
    + by apply (order_next _ _ _ _ _ (length (v_log s))); [| |apply HB|..].
    + apply lookup_lt_Some in Ht. lia.
    + apply (since_next _ _ (Visiting i) _ _ now); try done; [apply HB|intros _; apply HS|right; apply HS].
Qed.

Lemma scanning_step s i :
  inv s → v_collector s = Scanning i → ∃ s', f_collector NDEBUG s = Ok s' ∧ inv s'.
Proof.
  intros (X & D & cut & now & HB & HO & HC & HV & HS) Hcol. unfold f_collector, visit_thread, flush_thread, f_epoch. rewrite Hcol in *. cbn in HV, HO.
  destruct HV as (t & Ht & Hnow & Hhigh & Hde & Hpu). rewrite Ht. eexists. split; [done|].
  pose proof (b_threads _ _ _ _ _ HB _ _ Ht) as Hok. cbn in Hok. rewrite decide_True in Hok by done.
  exists (e_epoch (D (v_id t)) Increments), (known D (v_id t) (D (v_id t))), cut, now. cbn. split_and!.
  - apply (base_same _ _ _ (phase_of (Scanning i) X) _ i); try done.
    + intros j Hj. cbn. by rewrite !decide_False.
    + cbn. rewrite decide_True by done. by apply resume_ok.
    + apply (b_bounds _ _ _ _ _ HB). by apply (ids_in _ _ _ Ht).
  - by apply order_known.
  - done.
  - exists t. rewrite known_eq. split_and!; try done. intros j Hj. unfold known. case_decide; [subst|]; by apply Hhigh.
  - apply since_known; [|done..]. apply (since_step _ _ (Scanning i) _ _ _ now); [done|done|]. apply HS.
Qed.

(** The collector takes an object, or goes on in the buffer. *)
Lemma taking_step s i k f f' t q a X D cut now :
  base (v_thread__internals s) (v_ids s) (v_log s) (phase_of (Flushing i k f) X) D →
  order_ok (v_thread__internals s) i D → cut_ok (v_log s) cut →
  visit_inv (v_thread__internals s) (v_log s) (Flushing i k f) X D cut now →
  since_ok (v_thread__internals s) (v_log s) (Flushing i k f) (v_collector__epoch s) D now →
  v_thread__internals s !! i = Some t →
  ok (λ k, pushed (v_id t) k (v_log s)) (taken (λ k, applied (v_id t) k (v_log s)) k a) (Taking k f' X) (D (v_id t)) (set_queue k q t) →
  inv (set_collector (Flushing i k f') (set_internals (<[i := set_queue k q t]> (v_thread__internals s))
        (append_log (match a with Some a => [Applied (v_id t) k a] | None => [] end) s))).
Proof.
  intros HB HO HC HV HS Ht Hok. set (ev := match a with Some a => _ | None => _ end).
  set (t' := set_queue k q t) in *. assert (Hid : v_id t' = v_id t) by done.
  assert (Hap : ∀ j k', applied j k' ev = if decide (v_id t = j ∧ k = k') then match a with Some a => [a] | None => [] end else []).
  { intros j k'. subst ev. destruct a; [apply applied_one|by case_decide]. }
  assert (Hpu : ∀ j k', pushed j k' ev = []) by (intros j k'; subst ev; by destruct a).
  assert (Hok' : ok (λ k, pushed (v_id t) k (v_log s ++ ev)) (λ k, applied (v_id t) k (v_log s ++ ev)) (Taking k f' X) (D (v_id t)) t').
  { refine (thread_ok_ext _ _ _ _ _ _ _ _ _ _ Hok); intros k'.
    - by rewrite pushed_app, Hpu, app_nil_r.
    - rewrite applied_app, Hap. unfold taken. destruct (decide (k' = k)) as [->|]; [by rewrite decide_True|].
      rewrite decide_False by naive_solver. apply app_nil_r. }
  exists X, (known D (v_id t) (D (v_id t))), cut, now. cbn. split_and!.
  - apply (base_update _ _ _ (phase_of (Flushing i k f) X)); try done.
    + intros j Hj. cbn. by rewrite !decide_False.
    + intros j k' Hj. rewrite Hap, decide_False by naive_solver. done.
    + cbn. by rewrite decide_True.
    + apply bounds_grow, (b_bounds _ _ _ _ _ HB). by apply (ids_in _ _ _ Ht).
  - unfold order_ok. rewrite (ids_insert _ _ t) by done. by apply order_known.
  - apply cut_grow; [done|]. intros j. destruct (decide (v_id t = j ∧ k = Decrements)) as [[<- ->]|Hne].
    + pose proof (ok_last _ _ _ _ _ _ Hok') as [_ Hl]. cbn in HV. destruct HV as (t2 & Ht2 & _ & _ & _ & _ & Hcut).
      assert (t2 = t) as -> by congruence. lia.
    + rewrite applied_app, Hap, decide_False, app_nil_r by naive_solver. apply HC.
  - assert (Hgrow : len (applied (v_id t) Increments (v_log s)) ≤ len (applied (v_id t) Increments (v_log s ++ ev))).
    { rewrite applied_app, length_app. lia. }
    assert (Hhigh : ∀ j, e_high (known D (v_id t) (D (v_id t)) j) = e_high (D j)).
    { intros j. unfold known. case_decide; by subst. }
    destruct k; destruct HV as (t2 & Ht2 & Hnow & Hall & HE & HP); (assert (t2 = t) as -> by congruence); exists t';
      rewrite list_lookup_insert_eq by (by apply lookup_lt_Some in Ht); rewrite (ids_insert _ _ t), Hid, ?known_eq by done;
      (split_and!; [done|rewrite length_app; lia|intros j Hj; rewrite Hhigh; by apply Hall|..]); rewrite take_grow by (lia || apply HC);
      (lia || apply HP).
  - apply since_grow; [|done..]. apply (since_step _ _ (Flushing i k f) _ _ _ now); [done|done|]. apply HS.
Qed.

(** The increments of the thread are done: the cut moves on to the end of the
    previous visit of the thread, before the decrements of that visit go. *)
Lemma increments_done s i f t X D cut now :
  base (v_thread__internals s) (v_ids s) (v_log s) (phase_of (Flushing i Increments f) X) D →
  order_ok (v_thread__internals s) i D → cut_ok (v_log s) cut →
  visit_inv (v_thread__internals s) (v_log s) (Flushing i Increments f) X D cut now →
  since_ok (v_thread__internals s) (v_log s) (Flushing i Increments f) (v_collector__epoch s) D now →
  v_thread__internals s !! i = Some t → len (applied (v_id t) Increments (v_log s)) = X →
  queue_ok NDEBUG Increments (pushed (v_id t) Increments (v_log s)) X Outside t →
  inv (set_collector (Flushing i Decrements (f__flush (A_SIZE NDEBUG Decrements) (v_last t))) s).
Proof.
  intros HB HO HC (t2 & Ht2 & Hnow & Hall & HE & HP) HS Ht HX HQ. assert (t2 = t) as -> by congruence.
  pose proof (b_threads _ _ _ _ _ HB _ _ Ht) as Hok. cbn in Hok. rewrite decide_True in Hok by done.
  pose proof (ids_in _ _ _ Ht) as Hin. pose proof (b_bounds _ _ _ _ _ HB _ Hin) as Hb.
  pose proof Hb as (Hb1 & Hb2 & Hb3 & Hb4 & _).
  assert (Hid : ids (v_thread__internals s) !! i = Some (v_id t)) by (by rewrite list_lookup_fmap, Ht).
  set (cut' := Nat.max cut (e_high (D (v_id t)))).
  exists (e_last (D (v_id t))), (known D (v_id t) (D (v_id t))), cut', now. cbn. split_and!.
  - apply (base_same _ _ _ (phase_of (Flushing i Increments f) X) _ i t); try done.
    + intros j Hj. cbn. by rewrite !decide_False.
    + cbn. rewrite decide_True by done. by apply (taken_increments NDEBUG _ _ f X).
  - by apply order_known.
  - destruct HC as [HC1 HC2]. split; [lia|]. intros j. destruct (HC2 j) as [Hd Hi]. split.
    { etrans; [exact Hd|]. apply pushed_prefix. lia. }
    destruct (decide (e_high (D (v_id t)) <= cut)%nat); [by replace cut' with cut by lia|].
    replace cut' with (e_high (D (v_id t))) by lia.
    destruct (decide (j = v_id t)) as [->|Hne].
    { rewrite HX. etrans; [|exact HP]. apply pushed_prefix, Hall, Hin. }
    destruct (decide (j ∈ ids (v_thread__internals s))) as [Hj|Hj].
    2: { rewrite (b_dead _ _ _ _ _ HB _ _ Hj). apply pushed_take. }
    etrans; [|apply (b_bounds _ _ _ _ _ HB _ Hj)]. apply pushed_prefix.
    destruct (turn_lookup _ _ _ Hid) as (E & _ & _). unfold order_ok in HO. rewrite E in HO.
    apply StronglySorted_inv in HO as [_ HO]. apply (proj1 (Forall_forall _ _) HO).
    assert (Hp : j ∈ v_id t :: drop (S i) (ids (v_thread__internals s)) ++ take i (ids (v_thread__internals s))).
    { rewrite <- E. unfold turn. rewrite Permutation_app_comm. by rewrite take_drop. }
    by apply elem_of_cons in Hp as [?|?].
  - exists t. rewrite known_eq. split_and!; try done.
    + intros j Hj. unfold known. case_decide; [subst|]; by apply Hall.
    + rewrite HX. exact HP.
    + etrans; [exact Hb1|]. apply pushed_prefix. lia.
  - apply since_known; [|done..]. apply (since_step _ _ (Flushing i Increments f) _ _ _ now); [done|done|]. apply HS.
Qed.

Lemma base_delete ts n g ph D i t :
  base ts n g ph D → ts !! i = Some t → (∀ j, j ≠ i → ph j = Outside) →
  (∀ k, applied (v_id t) k g = pushed (v_id t) k g) → base (delete i ts) n g (λ _, Outside) D.
Proof.
  intros [H1 H2 H3 H4 H5 H6] Ht Hph Hall.
  assert (Hp : ids ts ≡ₚ v_id t :: ids (delete i ts)).
  { rewrite (delete_Permutation ts i t Ht) at 1. done. }
  assert (Hsub : ∀ j, j ∈ ids (delete i ts) → j ∈ ids ts) by (intros j Hj; rewrite Hp; by right).
  split; try auto.
  - rewrite Hp in H1. by apply NoDup_cons in H1 as [_ H1].
  - intros j t2 Hj. rewrite list_lookup_delete in Hj. case_decide.
    + rewrite <- (Hph j) by lia. by apply H4.
    + rewrite <- (Hph (S j)) by lia. by apply H4.
  - intros j k Hj. destruct (decide (j = v_id t)) as [->|Hne]; [apply Hall|]. apply H6. rewrite Hp.
    by intros [?|?]%elem_of_cons.
Qed.

Lemma decrements_done s i f t X D cut now :
  base (v_thread__internals s) (v_ids s) (v_log s) (phase_of (Flushing i Decrements f) X) D →
  order_ok (v_thread__internals s) i D → cut_ok (v_log s) cut →
  visit_inv (v_thread__internals s) (v_log s) (Flushing i Decrements f) X D cut now →
  since_ok (v_thread__internals s) (v_log s) (Flushing i Decrements f) (v_collector__epoch s) D now →
  v_thread__internals s !! i = Some t → len (applied (v_id t) Decrements (v_log s)) = X →
  queue_ok NDEBUG Decrements (pushed (v_id t) Decrements (v_log s)) X Outside t →
  inv (if v_done t <? 3
       then set_collector (Visiting (S i)) (set_internals (<[i := set_last (v_epoch (v_decrements t)) t]> (v_thread__internals s)) s)
       else set_collector (Visiting i) (set_internals (delete i (v_thread__internals s)) s)).
Proof.
  intros HB HO HC (t2 & Ht2 & Hnow & Hall & HED & HP1 & HP2) HS Ht HX HQ. assert (t2 = t) as -> by congruence.
  pose proof (b_threads _ _ _ _ _ HB _ _ Ht) as Hok. cbn in Hok. rewrite decide_True in Hok by done.
  pose proof (taken_decrements NDEBUG _ _ _ _ _ _ Hok HX HQ) as Hend.
  pose proof (ok_epoch _ _ _ _ _ _ Hok Decrements) as [_ HE].
  assert (Hi : (i < length (v_thread__internals s))%nat) by (by apply lookup_lt_Some in Ht).
  destruct (v_done t <? 3).
  - specialize (Hend (e_low (D (v_id t))) now (length (v_log s))). set (d := {| e_last := _; e_epoch := _; e_prev := _; e_low := _; e_high := _ |}) in *.
    exists X, (known D (v_id t) d), cut, now. cbn. split_and!; [| |done| |].
    + apply (base_quiet _ _ _ (phase_of (Flushing i Decrements f) X) D i t); try done.
      * intros j Hj. cbn. by rewrite decide_False.
      * pose proof (b_bounds _ _ _ _ _ HB _ (ids_in _ _ _ Ht)) as (_ & _ & Hlow & _ & Hlast & _ & _).
        unfold bounds_ok. subst d. cbn. rewrite pushed_now. pose proof (ok_phase _ _ _ _ _ _ Hok) as (_ & _ & _ & HX' & _).
        split_and!; lia.
    + unfold order_ok. rewrite (ids_insert _ _ t) by done.
      apply (order_next _ _ _ _ _ now); [done|done|apply HB|done|done].
    + rewrite length_insert. lia.
    + assert (HS' : since_ok (v_thread__internals s) (v_log s) (Visiting (S i)) (v_collector__epoch s) (known D (v_id t) d) now).
      { apply (since_next _ _ (Flushing i Decrements f) _ _ now); try done; [apply HB|apply HS|by left]. }
      pose proof (since_grow _ _ _ _ _ _ i t (set_last (v_epoch (v_decrements t)) t) [] d HS' Ht eq_refl) as H.
      rewrite known_eq, app_nil_r in H. specialize (H eq_refl eq_refl). revert H. unfold since_ok.
      intros (H1 & H2 & H3). split_and!; [done|done|]. intros j t2 Hj. specialize (H3 j t2 Hj).
      unfold known in *. by case_decide.
  - exists X, D, cut, now. cbn. split_and!; [| |done| |].
    + apply (base_delete _ _ _ _ _ _ t HB Ht); [|done]. intros j Hj. cbn. by rewrite decide_False.
    + unfold order_ok in *. assert (Hid : ids (v_thread__internals s) !! i = Some (v_id t)) by (by rewrite list_lookup_fmap, Ht).
      destruct (turn_lookup _ _ _ Hid) as (E1 & _ & E3). cbn in HO. rewrite E1 in HO.
      apply StronglySorted_inv in HO as [HO _]. rewrite list_fmap_delete. rewrite E3. done.
    + rewrite length_delete by (by exists t). lia.
    + destruct HS as (H1 & _ & H3). split_and!; [done|done|]. intros j t2 Hj. rewrite list_lookup_delete in Hj.
      unfold last_visit in *. cbn in *. case_decide as Hlt; specialize (H3 _ _ Hj); [done|].
      rewrite bool_decide_false in H3 by lia. by rewrite bool_decide_false by lia.
Qed.

Lemma append_log_nil (s : t_engine A) : append_log [] s = s.
Proof. destruct s. unfold append_log. cbn. by rewrite app_nil_r. Qed.

Lemma flushing_step s i k f :
  inv s → v_collector s = Flushing i k f → ∃ s', f_collector NDEBUG s = Ok s' ∧ inv s'.
Proof.
  intros (X & D & cut & now & HB & HO & HC & HV & HS) Hcol. rewrite Hcol in *.
  assert (Ht : ∃ t, v_thread__internals s !! i = Some t) by (destruct k; destruct HV as (t & Ht & _); by exists t).
  destruct Ht as [t Ht]. pose proof (b_threads _ _ _ _ _ HB _ _ Ht) as Hok. cbn in Hok. rewrite decide_True in Hok by done.
  destruct (take_ok NDEBUG _ _ _ _ _ _ _ Hok) as (q & a & f' & Hstep & Hf').
  unfold f_collector, visit_thread, flush_thread, f_epoch. rewrite Hcol, Ht. rewrite Hstep. cbn [mbind outcome_bind]. cbv zeta.
  destruct f' as [f'|].
  - eexists. split; [done|]. exact (taking_step s i k f f' t q a X D cut now HB HO HC HV HS Ht Hf').
  - destruct Hf' as (-> & -> & HX & HQ). rewrite append_log_nil, set_queue_same. destruct k.
    + eexists. split; [done|]. rewrite list_insert_id by done.
      pose proof (increments_done s i f t X D cut now HB HO HC HV HS Ht HX HQ) as H. by destruct s.
    + pose proof (decrements_done s i f t X D cut now HB HO HC HV HS Ht HX HQ) as H. cbn [set_last v_done] in *.
      destruct (v_done t <? 3); eexists; split; done.
Qed.

Lemma f_collector_step s : inv s → ∃ s', f_collector NDEBUG s = Ok s' ∧ inv s'.
Proof.
  intros H. destruct (v_collector s) as [|i|i|i k f] eqn:Hcol.
  - unfold f_collector, visit_thread, flush_thread, f_epoch. rewrite Hcol. eexists. split; [done|].
    destruct H as (X & D & cut & now & HB & HO & HC & HV & HS). rewrite Hcol in *.
    exists X, D, cut, now. cbn. split_and!; try done; [lia|]. destruct HS as (H1 & _ & H3). split_and!; [done|done|].
    intros j t Hj. specialize (H3 j t Hj). unfold last_visit in *. cbn in *.
    rewrite bool_decide_false by lia. by replace (v_collector__epoch s - 0)%nat with (v_collector__epoch s) by lia.
  - by apply (visiting_step _ i).
  - by apply (scanning_step _ i).
  - by apply (flushing_step _ i k f).
Qed.

Lemma inv_step s e : inv s → ∃ s', step NDEBUG s e = Ok s' ∧ inv s'.
Proof.
  intros H. destruct e as [a b|i|i|i k x|i|i|i|]; cbn [step].
  1: { eexists. split; [done|]. destruct (unlocked s) eqn:Hu; cbn [andb]; [|done].
       destruct (Z.eqb_spec (len a) (A_SIZE NDEBUG Increments)); cbn [andb]; [|done].
       destruct (Z.eqb_spec (len b) (A_SIZE NDEBUG Decrements)); [|done].
       apply inv_fork; try done. unfold unlocked in Hu. by destruct (v_collector s). }
  7: by apply f_collector_step.
  all: match goal with |- context [step_index ?e] =>
      destruct (v_thread__internals s !! step_index e) as [t|] eqn:Ht; [|by exists s];
      destruct (inv_thread s e t H Ht) as (t' & ev & Hstep & H'); rewrite Hstep; cbn [mbind outcome_bind]; eexists; split; done
    end.
Qed.

Lemma inv_run es s : inv s → ∃ s', run NDEBUG s es = Ok s' ∧ inv s'.
Proof.
  revert s. induction es as [|e es IH]; intros s H; [by exists s|]. destruct (inv_step s e H) as (s' & Hs & H').
  unfold run. cbn. rewrite Hs. cbn. by apply IH.
Qed.
End Safety.
