(* ===== verification/QueueCounts.v ===== *)
(** * What the collector counts, and that it gets everything (Queue.v)

    The theorems about the queues, for all schedules of the threads and the
    collector: the counts lag behind what the threads do without ever falling
    below it, and every push is applied in the end. *)
From stdpp Require Import base list numbers sorting.
From S2P Require Import Prelude Queue QueueRing QueueEpochs QueueVisit QueueSafety.
Local Open Scope Z_scope.

(** ** Counts *)
Section Counts.
Context {A : Type} `{EqDecision A}.
Implicit Types (g m : list (t_event A)) (k : t_kind) (x : A).

(** The objects of all pushes, and of all applications. *)
Definition all_pushed k g : list A :=
  omap (λ e, match e with Pushed _ k' a => if decide (k' = k) then Some a else None | Applied _ _ _ => None end) g.

Definition all_applied k g : list A :=
  omap (λ e, match e with Applied _ k' a => if decide (k' = k) then Some a else None | Pushed _ _ _ => None end) g.

Definition occurrences x (l : list A) : Z := len (filter (λ y, y = x) l).

(** The references to [x] according to the threads, and to the collector. *)
Definition references x g : Z := occurrences x (all_pushed Increments g) - occurrences x (all_pushed Decrements g).
Definition counted x g : Z := occurrences x (all_applied Increments g) - occurrences x (all_applied Decrements g).

(** Lists of objects labelled with threads. *)
Definition of_thread (t : nat) (l : list (nat * A)) : list A := omap (λ p, if decide (p.1 = t) then Some p.2 else None) l.

Definition tag_pushed k g : list (nat * A) :=
  omap (λ e, match e with Pushed t k' a => if decide (k' = k) then Some (t, a) else None | Applied _ _ _ => None end) g.

Definition tag_applied k g : list (nat * A) :=
  omap (λ e, match e with Applied t k' a => if decide (k' = k) then Some (t, a) else None | Pushed _ _ _ => None end) g.

Lemma of_thread_pushed t k g : of_thread t (tag_pushed k g) = pushed t k g.
Proof.
  unfold of_thread, tag_pushed, pushed. induction g as [|[t' k' a|t' k' a] g IH]; cbn; [done| |done].
  destruct (decide (k' = k)) as [->|]; cbn.
  - rewrite IH. do 2 case_decide; naive_solver.
  - rewrite IH. case_decide; naive_solver.
Qed.

Lemma of_thread_applied t k g : of_thread t (tag_applied k g) = applied t k g.
Proof.
  unfold of_thread, tag_applied, applied. induction g as [|[t' k' a|t' k' a] g IH]; cbn; [done|done|].
  destruct (decide (k' = k)) as [->|]; cbn.
  - rewrite IH. do 2 case_decide; naive_solver.
  - rewrite IH. case_decide; naive_solver.
Qed.

Lemma all_pushed_tag k g : all_pushed k g = (tag_pushed k g).*2.
Proof.
  unfold all_pushed, tag_pushed. induction g as [|[t' k' a|t' k' a] g IH]; cbn; [done| |done].
  case_decide; cbn; by rewrite IH.
Qed.

Lemma all_applied_tag k g : all_applied k g = (tag_applied k g).*2.
Proof.
  unfold all_applied, tag_applied. induction g as [|[t' k' a|t' k' a] g IH]; cbn; [done|done|].
  case_decide; cbn; by rewrite IH.
Qed.

Lemma of_thread_cons t t' a l : of_thread t ((t', a) :: l) = if decide (t' = t) then a :: of_thread t l else of_thread t l.
Proof. unfold of_thread. cbn. by case_decide. Qed.

(** The first object of a thread in a list. *)
Lemma of_thread_cons_inv t a r (M : list (nat * A)) :
  of_thread t M = a :: r →
  ∃ M1 M2, M = M1 ++ (t, a) :: M2 ∧ of_thread t (M1 ++ M2) = r ∧
    ∀ t', t' ≠ t → of_thread t' (M1 ++ M2) = of_thread t' M.
Proof.
  induction M as [|[t2 b] M IH]; [done|]. rewrite of_thread_cons. destruct (decide (t2 = t)) as [->|Hne].
  - intros [= -> <-]. exists [], M. split_and!; [done|done|]. intros t' Ht'. cbn [app]. by rewrite of_thread_cons, decide_False.
  - intros H. destruct (IH H) as (M1 & M2 & -> & H1 & H2). exists ((t2, b) :: M1), M2. cbn [app]. split_and!; [done| |].
    + by rewrite of_thread_cons, decide_False.
    + intros t' Ht'. by rewrite !of_thread_cons, (H2 t' Ht').
Qed.

Lemma of_thread_submseteq (L M : list (nat * A)) : (∀ t, of_thread t L `prefix_of` of_thread t M) → L ⊆+ M.
Proof.
  revert M. induction L as [|[t a] L IH]; intros M H; [apply submseteq_nil_l|].
  pose proof (H t) as [r Ht]. rewrite of_thread_cons, decide_True in Ht by done. cbn [app] in Ht.
  destruct (of_thread_cons_inv _ _ _ _ Ht) as (M1 & M2 & -> & H1 & H2).
  rewrite <- Permutation_middle. apply submseteq_skip, IH. intros t'. destruct (decide (t' = t)) as [->|Hne].
  - rewrite H1. by exists r.
  - rewrite H2 by done. specialize (H t'). by rewrite of_thread_cons, decide_False in H.
Qed.

Lemma occurrences_le x (l l' : list A) : l ⊆+ l' → occurrences x l ≤ occurrences x l'.
Proof.
  intros [r Hr]%submseteq_Permutation. unfold occurrences. rewrite Hr, filter_app, length_app. lia.
Qed.

Lemma occurrences_applied x k g m :
  (∀ t, applied t k g `prefix_of` pushed t k m) → occurrences x (all_applied k g) ≤ occurrences x (all_pushed k m).
Proof.
  intros H. apply occurrences_le. rewrite all_applied_tag, all_pushed_tag. apply fmap_submseteq, of_thread_submseteq.
  intros t. by rewrite of_thread_applied, of_thread_pushed.
Qed.

Lemma occurrences_pushed x k g m :
  (∀ t, pushed t k m `prefix_of` applied t k g) → occurrences x (all_pushed k m) ≤ occurrences x (all_applied k g).
Proof.
  intros H. apply occurrences_le. rewrite all_applied_tag, all_pushed_tag. apply fmap_submseteq, of_thread_submseteq.
  intros t. by rewrite of_thread_applied, of_thread_pushed.
Qed.
End Counts.

Section Theorems.
Context {A : Type} `{EqDecision A} (NDEBUG : bool).
Implicit Types (s : t_engine A) (e : t_step A) (k : t_kind).

Lemma inv_start : inv NDEBUG 0 0 (start : t_engine A).
Proof.
  set (d := {| e_last := 0; e_epoch := λ _, 0; e_prev := 0; e_low := 0; e_high := 0 |}).
  exists 0, (λ _, d), 0%nat, 0%nat. cbn. split_and!; [split; cbn; try done|constructor|split; [done|]|done|].
  - constructor.
  - intros i Hi. by apply not_elem_of_nil in Hi.
  - intros i. split; done.
  - split_and!; done.
Qed.

Lemma inv_since since round s : inv NDEBUG since round s → inv NDEBUG (length (v_log s)) (v_collector__epoch s) s.
Proof.
  intros (X & D & cut & now & HB & HO & HC & HV & _). exists X, D, cut, now. split_and!; [done..|].
  split_and!; [done| |].
  - destruct (v_collector s); lia || done.
  - intros j t Hj. unfold last_visit. case_match; lia.
Qed.

Lemma pushed_prefix_of t k n (g : list (t_event A)) : pushed t k (take n g) `prefix_of` pushed t k g.
Proof. rewrite <- (take_drop n g) at 2. rewrite pushed_app. by exists (pushed t k (drop n g)). Qed.

Lemma inv_fifo since round s t k : inv NDEBUG since round s → applied t k (v_log s) `prefix_of` pushed t k (v_log s).
Proof.
  intros (X & D & cut & now & HB & _). destruct (decide (t ∈ (v_id <$> v_thread__internals s))) as [Ht|Ht].
  - apply list_elem_of_fmap in Ht as (th & -> & Ht). apply list_elem_of_lookup_1 in Ht as [j Hj].
    apply (ok_prefix _ _ _ _ _ _ (b_threads _ _ _ _ _ _ HB _ _ Hj)).
  - by rewrite (b_dead _ _ _ _ _ _ HB _ _ Ht).
Qed.

Lemma inv_cut since round s :
  inv NDEBUG since round s →
  ∃ m r, v_log s = m ++ r ∧ ∀ t, applied t Decrements (v_log s) `prefix_of` pushed t Decrements m ∧
    pushed t Increments m `prefix_of` applied t Increments (v_log s).
Proof.
  intros H. pose proof H as (X & D & cut & now & HB & HO & [Hcut HC] & _).
  exists (take cut (v_log s)), (drop cut (v_log s)). split; [by rewrite take_drop|]. intros t. destruct (HC t) as [Hd Hi].
  split; (eapply prefix_shorter; [| |done]).
  - by apply (inv_fifo since round).
  - apply pushed_prefix_of.
  - apply pushed_prefix_of.
  - by apply (inv_fifo since round).
Qed.

(** C11 (counts_are_safe): however the steps of the threads and of the
    collector are interleaved, no access leaves a buffer; what was applied of
    a queue is what was pushed to it, in the same order and without the pushes
    still to come; and there is a moment in the past such that all increments
    of all threads until then were applied and no decrement after it was.  So
    the count the collector has for an object is never below the number of
    references to it at that moment. *)
Theorem counts_are_safe (es : list (t_step A)) :
  ∃ s, run NDEBUG start es = Ok s ∧
    (∀ t k, applied t k (v_log s) `prefix_of` pushed t k (v_log s)) ∧
    ∃ m r, v_log s = m ++ r ∧
      (∀ t, applied t Decrements (v_log s) `prefix_of` pushed t Decrements m ∧
            pushed t Increments m `prefix_of` applied t Increments (v_log s)) ∧
      ∀ x, references x m ≤ counted x (v_log s).
Proof.
  destruct (inv_run NDEBUG 0 0 es start inv_start) as (s & Hs & H). exists s. split_and!; [done|intros t k; by apply (inv_fifo 0 0)|].
  destruct (inv_cut _ _ _ H) as (m & r & E & Hm). exists m, r. split_and!; [done|done|]. intros x.
  pose proof (occurrences_applied x Decrements (v_log s) m (λ t, proj1 (Hm t))).
  pose proof (occurrences_pushed x Increments (v_log s) m (λ t, proj2 (Hm t))). unfold references, counted. lia.
Qed.
End Theorems.
