(* ===== verification/QueueProgress.v ===== *)
(** * Every push is applied in the end (Queue.v)

    The collector never waits for a thread: its steps end a round after a
    number of steps that the sizes of the buffers bound, whatever the threads
    do in between.  So under any schedule that does not leave the collector
    out, rounds go on, and what was pushed is applied two rounds later. *)
From stdpp Require Import base list numbers.
From S2P Require Import Prelude Queue QueueRing QueueEpochs QueueVisit QueueSafety QueueCounts.
Local Open Scope Z_scope.

Section Progress.
Context {A : Type} (NDEBUG : bool).
Implicit Types (s : t_engine A) (e : t_step A) (es : list (t_step A)) (k : t_kind) (t : t_internal A).
Abbreviation SIZE := (A_SIZE NDEBUG).

(** ** What is left of a round *)

Definition flush_left k (q : t_queue A) (f : t_flush) : Z :=
  match f with
  | Outer e => 2 * ((e - v_tail q) mod SIZE k)
  | Inner e _ => 2 * ((e - v_tail q) mod SIZE k) + 1
  end.

Definition visit_cost : Z := 2 * (SIZE Increments + SIZE Decrements) + 6.

Definition round_left s : Z :=
  let n i := Z.of_nat (length (v_thread__internals s)) - Z.of_nat i in
  match v_collector s with
  | Idle => 0
  | Visiting i => n i * visit_cost + 1
  | Scanning i => n i * visit_cost
  | Flushing i k f =>
    (n i - 1) * visit_cost + match k with Increments => 2 * SIZE Decrements + 3 | Decrements => 2 end +
    match v_thread__internals s !! i with Some t => flush_left k (queue_of k t) f | None => 0 end
  end.

Lemma flush_left_bound k q f : 0 ≤ flush_left k q f ≤ 2 * SIZE k - 1.
Proof. pose proof (SIZE_ge NDEBUG k). destruct f; cbn; pose proof (Z.mod_pos_bound (a_epoch - v_tail q) (SIZE k)); lia. Qed.

Lemma flush_start_bound k q o : 0 ≤ flush_left k q (f__flush (SIZE k) o) ≤ 2 * SIZE k - 2.
Proof.
  pose proof (SIZE_ge NDEBUG k). destruct o as [e|]; cbn.
  - pose proof (Z.mod_pos_bound ((if 0 <? e then e - 1 else SIZE k - 1) - v_tail q) (SIZE k)). lia.
  - pose proof (Z.mod_pos_bound (SIZE k - 1 - v_tail q) (SIZE k)). lia.
Qed.

Lemma flush_left_measure k (ps : list A) T m X q f :
  ring (SIZE k) ps T m q → flushing (SIZE k) ps T m X q f → flush_left k q f = flush_measure T X f.
Proof.
  intros [Hl Hh Ht Hm Hr Hc] [HX Hf]. pose proof (SIZE_ge NDEBUG k) as HN.
  assert (HTX : T ≤ X) by (destruct f; [lia|]; destruct Hf as (_ & _ & Y & HY & _); lia).
  assert (E : ((X - 1) mod SIZE k - v_tail q) mod SIZE k = X - T).
  { rewrite Ht, <- Zminus_mod. replace (X - 1 - (T - 1)) with (X - T) by lia. apply Z.mod_small. lia. }
  destruct f; cbn; destruct Hf as (-> & _); rewrite E; lia.
Qed.

(** A step of the collector brings the end of the round nearer. *)
Lemma visiting_progress s s' i :
  f_collector NDEBUG s = Ok s' → v_collector s = Visiting i → (i ≤ length (v_thread__internals s))%nat →
  0 ≤ round_left s' < round_left s ∧ v_collector__epoch s' = v_collector__epoch s.
Proof.
  intros Hs Hcol Hi. pose proof (SIZE_ge NDEBUG Increments). pose proof (SIZE_ge NDEBUG Decrements).
  unfold f_collector, visit_thread, flush_thread, f_epoch in Hs. rewrite Hcol in Hs. unfold round_left. rewrite Hcol.
  destruct (v_thread__internals s !! i) as [t|] eqn:Ht.
  - apply lookup_lt_Some in Ht. cbv zeta in Hs. unfold visit_cost.
    destruct (0 <=? v_done t); injection Hs as <-; cbn [v_collector set_collector set_internals v_thread__internals];
      rewrite ?length_insert; (split; [nia|done]).
  - injection Hs as <-. cbn. split; [|done]. unfold visit_cost. nia.
Qed.

Lemma flushing_progress since round s s' i k f :
  inv NDEBUG since round s → f_collector NDEBUG s = Ok s' → v_collector s = Flushing i k f →
  0 ≤ round_left s' < round_left s ∧ v_collector__epoch s' = v_collector__epoch s.
Proof.
  intros (X & D & cut & now & HB & _ & _ & HV & _) Hs Hcol. pose proof (SIZE_ge NDEBUG Increments). pose proof (SIZE_ge NDEBUG Decrements).
  unfold f_collector, visit_thread, flush_thread, f_epoch in Hs. unfold round_left. rewrite Hcol in *.
  assert (Ht : ∃ t, v_thread__internals s !! i = Some t) by (destruct k; destruct HV as (t & Ht & _); by exists t).
  destruct Ht as [t Ht]. rewrite Ht in *. assert (Hi := Ht). apply lookup_lt_Some in Hi.
  pose proof (b_threads _ _ _ _ _ _ HB _ _ Ht) as Hok. cbn in Hok. rewrite decide_True in Hok by done.
  destruct (ok_queue _ _ _ _ _ _ Hok k) as (T & HR & Hp & Hfl). rewrite decide_True in Hfl by done.
  destruct (flush_step_ring _ (SIZE_ge NDEBUG k) _ _ _ _ _ _ _ HR Hp Hfl)
    as (q & a & f' & T' & m & Hstep & HR' & _ & _ & _ & _ & Hf').
  rewrite Hstep in Hs. cbn [mbind outcome_bind] in Hs. cbv zeta in Hs. rewrite (flush_left_measure _ _ _ _ _ _ _ HR Hfl).
  pose proof (flush_left_bound k (queue_of k t) f) as Hleft. rewrite (flush_left_measure _ _ _ _ _ _ _ HR Hfl) in Hleft.
  destruct f' as [f'|].
  - destruct Hf' as [Hfl' Hm]. rewrite <- (flush_left_measure _ _ _ _ _ _ _ HR' Hfl') in Hm.
    injection Hs as <-. cbn [v_collector set_collector set_internals append_log v_thread__internals].
    rewrite list_lookup_insert_eq, length_insert, queue_of_set, decide_True by done. split; [|done].
    unfold visit_cost. destruct k; nia.
  - destruct k.
    + injection Hs as <-. cbn [v_collector set_collector set_internals append_log v_thread__internals].
      rewrite list_lookup_insert_eq, length_insert by done. lazy beta iota zeta. split; [|done].
      pose proof (flush_start_bound Decrements (queue_of Decrements (set_queue Increments q t)) (v_last t)).
      unfold visit_cost. nia.
    + case_match; injection Hs as <-; cbn [v_collector set_collector set_internals append_log v_thread__internals];
        rewrite ?length_insert, ?length_delete by (by exists t); (split; [unfold visit_cost; nia|done]).
Qed.

Lemma round_progress since round s s' :
  inv NDEBUG since round s → f_collector NDEBUG s = Ok s' →
  match v_collector s with
  | Idle => v_collector__epoch s' = S (v_collector__epoch s)
  | _ => 0 ≤ round_left s' < round_left s ∧ v_collector__epoch s' = v_collector__epoch s
  end.
Proof.
  intros H Hs. pose proof H as (X & D & cut & now & HB & _ & _ & HV & _). destruct (v_collector s) as [|i|i|i k f] eqn:Hcol.
  - unfold f_collector, visit_thread, flush_thread, f_epoch in Hs. rewrite Hcol in Hs. by injection Hs as <-.
  - by apply (visiting_progress s s' i).
  - destruct HV as (t & Ht & _). assert (Hi := Ht). apply lookup_lt_Some in Hi.
    unfold f_collector, visit_thread, flush_thread, f_epoch in Hs. rewrite Hcol, Ht in Hs. injection Hs as <-. unfold round_left.
    cbn [v_collector set_collector v_thread__internals]. rewrite Hcol, Ht. split; [|done].
    pose proof (flush_start_bound Increments (queue_of Increments t) (v_epoch (v_increments t))).
    pose proof (SIZE_ge NDEBUG Decrements). pose proof (SIZE_ge NDEBUG Increments). unfold visit_cost. nia.
  - by apply (flushing_progress since round s s' i k f).
Qed.

(** ** The threads do not keep the collector from it *)

Lemma thread_step_tail e b t t' ev :
  thread_step NDEBUG e b t = Ok (t', ev) → ∀ k, v_tail (queue_of k t') = v_tail (queue_of k t).
Proof.
  intros Hs k. unfold thread_step in Hs.
  destruct e as [| | |j k1 x| | | |], (v_at t) as [|k2 p|]; try (by injection Hs as <- <-);
    try (case_match; injection Hs as <- <-; by destruct k).
  - destruct (v_done t =? 0); [|by injection Hs as <- <-]. unfold f__push in Hs.
    destruct (wr _ _ _); cbn in Hs; [|done|done]. injection Hs as <- <-. by destruct k, k1.
  - destruct p as [x|w|w]; cbn in Hs.
    + unfold push_advance in Hs. repeat case_match; simplify_eq; by destruct k, k2.
    + injection Hs as <- <-. by destruct k.
    + injection Hs as <- <-. unfold next_limit. destruct w, k, k2; done.
Qed.

Lemma other_progress s e s' :
  step NDEBUG s e = Ok s' → e ≠ Collect →
  v_collector s' = v_collector s ∧ v_collector__epoch s' = v_collector__epoch s ∧
  (v_collector s ≠ Idle → round_left s' = round_left s).
Proof.
  intros Hs He. assert (Hthread : match v_thread__internals s !! step_index e with
    | None => Ok s
    | Some t =>
      '(t', events) ← thread_step NDEBUG e (negb (unlocked s)) t;
      Ok (append_log events (set_internals (<[step_index e := t']> (v_thread__internals s)) s))
    end = Ok s' → v_collector s' = v_collector s ∧ v_collector__epoch s' = v_collector__epoch s ∧
    (v_collector s ≠ Idle → round_left s' = round_left s)).
  { clear Hs. destruct (v_thread__internals s !! step_index e) as [t|] eqn:Ht; [|by intros [= <-]].
    destruct (thread_step NDEBUG e (negb (unlocked s)) t) as [[t' ev]| |] eqn:Hs; cbn; try done. intros [= <-].
    split_and!; [done|done|]. intros _. unfold round_left. cbn [append_log set_internals v_collector v_thread__internals].
    rewrite length_insert. destruct (v_collector s) as [|i|i|i k f]; try done.
    destruct (decide (i = step_index e)) as [->|Hne]; [|by rewrite list_lookup_insert_ne].
    rewrite list_lookup_insert_eq, Ht by (by apply lookup_lt_Some in Ht).
    pose proof (thread_step_tail _ _ _ _ _ Hs k) as Htail. unfold flush_left. by rewrite Htail. }
  destruct e as [a b|i|i|i k x|i|i|i|]; try (by apply Hthread).
  cbn in Hs. injection Hs as <-. unfold unlocked. destruct (v_collector s) eqn:Hcol; cbn [andb].
  - match goal with |- context [if ?b then _ else _] => destruct b end; cbn; rewrite ?Hcol; split_and!; done.
  - by rewrite Hcol.
  - by rewrite Hcol.
  - by rewrite Hcol.
Qed.

(** ** Rounds go on *)

Definition is_collect e : bool := match e with Collect => true | _ => false end.

Definition turns es : Z := len (List.filter is_collect es).

Lemma run_cons s e es : run NDEBUG s (e :: es) = (s' ← step NDEBUG s e; run NDEBUG s' es).
Proof. done. Qed.

Lemma run_app s es es' : run NDEBUG s (es ++ es') = (s' ← run NDEBUG s es; run NDEBUG s' es').
Proof.
  revert s. induction es as [|e es IH]; intros s; [done|]. cbn [app]. rewrite !run_cons.
  destruct (step NDEBUG s e); [apply IH|done|done].
Qed.

Lemma epoch_step since round s e s' :
  inv NDEBUG since round s → step NDEBUG s e = Ok s' → (v_collector__epoch s ≤ v_collector__epoch s')%nat.
Proof.
  intros H Hs. destruct (is_collect e) eqn:He.
  - destruct e; try done. pose proof (round_progress _ _ _ _ H Hs) as Hp. destruct (v_collector s); lia.
  - destruct (other_progress s e s' Hs) as (_ & -> & _); [by intros ->|done].
Qed.

Lemma epoch_run since round s es s' :
  inv NDEBUG since round s → run NDEBUG s es = Ok s' → (v_collector__epoch s ≤ v_collector__epoch s')%nat.
Proof.
  revert s. induction es as [|e es IH]; intros s H; [by intros [= <-]|]. rewrite run_cons.
  destruct (inv_step NDEBUG since round s e H) as (s1 & Hs & H1). rewrite Hs. cbn. intros Hr.
  etrans; [by apply (epoch_step since round s e)|by apply IH].
Qed.

(** The log only grows. *)
Lemma log_step s e s' : step NDEBUG s e = Ok s' → ∃ r, v_log s' = v_log s ++ r.
Proof.
  intros Hs. assert (Hthread : match v_thread__internals s !! step_index e with
    | None => Ok s
    | Some t =>
      '(t', events) ← thread_step NDEBUG e (negb (unlocked s)) t;
      Ok (append_log events (set_internals (<[step_index e := t']> (v_thread__internals s)) s))
    end = Ok s' → ∃ r, v_log s' = v_log s ++ r).
  { destruct (v_thread__internals s !! step_index e) as [t|]; [|intros [= <-]; exists []; by rewrite app_nil_r].
    destruct (thread_step _ _ _ _) as [[t' ev]| |]; cbn; intros [= <-]. by exists ev. }
  assert (Hsame : ∃ r, v_log s = v_log s ++ r) by (exists []; by rewrite app_nil_r).
  destruct e; try (by apply Hthread); cbn in Hs.
  - injection Hs as <-. match goal with |- context [if ?b then _ else _] => by destruct b end.
  - unfold f_collector, visit_thread, flush_thread, f_epoch in Hs. destruct (v_collector s) as [|i|i|i k f]; [by injection Hs as <-|..];
      (destruct (v_thread__internals s !! i) as [t|]; [|by (done || injection Hs as <-)]).
    + cbv zeta in Hs. destruct (0 <=? v_done t); by injection Hs as <-.
    + by injection Hs as <-.
    + destruct (flush_step _ _ _) as [[[q a] f']| |]; cbn in Hs; [|done|done].
      destruct f', k; [| | |destruct (v_done t <? 3)]; injection Hs as <-; by eexists.
Qed.

Lemma log_grows s es s' : run NDEBUG s es = Ok s' → ∃ r, v_log s' = v_log s ++ r.
Proof.
  revert s. induction es as [|e es IH]; intros s; [intros [= <-]; exists []; by rewrite app_nil_r|]. rewrite run_cons.
  destruct (step NDEBUG s e) as [s1| |] eqn:Hs; cbn; [|done|done]. intros Hr.
  destruct (log_step _ _ _ Hs) as [r1 E1], (IH _ Hr) as [r2 E2]. exists (r1 ++ r2). by rewrite E2, E1, app_assoc.
Qed.

(** As many steps of the collector as are left of a round, and one more, start
    the next round. *)
Lemma next_round since round s es s' :
  inv NDEBUG since round s → run NDEBUG s es = Ok s' → round_left s < turns es →
  (v_collector__epoch s < v_collector__epoch s')%nat.
Proof.
  revert s. induction es as [|e es IH]; intros s H; rewrite ?run_cons.
  - intros _. unfold turns. cbn. unfold round_left. pose proof H as (X & D & cut & now & HB & _ & _ & HV & _).
    pose proof (SIZE_ge NDEBUG Increments). pose proof (SIZE_ge NDEBUG Decrements).
    destruct (v_collector s) as [|i|i|i k f]; cbn in HV; unfold visit_cost.
    + lia.
    + nia.
    + destruct HV as (t & Ht & _). apply lookup_lt_Some in Ht. nia.
    + assert (Ht : ∃ t, v_thread__internals s !! i = Some t) by (destruct k; destruct HV as (t & Ht & _); by exists t).
      destruct Ht as [t Ht]. rewrite Ht. apply lookup_lt_Some in Ht. pose proof (flush_left_bound k (queue_of k t) f).
      destruct k; nia.
  - destruct (inv_step NDEBUG since round s e H) as (s1 & Hs & H1). rewrite Hs. cbn [mbind outcome_bind]. intros Hr Hleft.
    destruct (is_collect e) eqn:He.
    + destruct e; try done. pose proof (round_progress _ _ _ _ H Hs) as Hp.
      pose proof (epoch_run _ _ _ _ _ H1 Hr). unfold turns in Hleft. cbn in Hleft.
      destruct (v_collector s); [lia|..]; destruct Hp as [Hp <-]; apply IH; try done; unfold turns; lia.
    + destruct (other_progress s e s1 Hs) as (Hc & Hep & Hm); [by intros ->|]. rewrite <- Hep. apply IH; [done|done|].
      unfold turns in *. cbn in Hleft. rewrite He in Hleft. destruct (v_collector s) eqn:E.
      { unfold round_left in *. rewrite Hc. rewrite E in Hleft. done. }
      all: by rewrite Hm.
Qed.

(** ** Schedules without an end *)

Definition upto (σ : nat → t_step A) (n : nat) : list (t_step A) := σ <$> seq 0 n.

Definition fair (σ : nat → t_step A) : Prop := ∀ n, ∃ m, (n ≤ m)%nat ∧ σ m = Collect.

Lemma upto_add σ n d : upto σ (n + d) = upto σ n ++ (σ <$> seq n d).
Proof. unfold upto. by rewrite seq_app, fmap_app. Qed.

Lemma fair_turns σ : fair σ → ∀ b n, ∃ d, Z.of_nat b ≤ turns (σ <$> seq n d).
Proof.
  intros Hf b. induction b as [|b IH]; intros n; [exists 0%nat; unfold turns; cbn; lia|].
  destruct (Hf n) as (m & Hm & Hc). destruct (IH (S m)) as (d & Hd). exists ((m - n) + S d)%nat.
  rewrite seq_app, fmap_app. unfold turns in *. rewrite List.filter_app, length_app.
  replace (n + (m - n))%nat with m by lia. cbn. rewrite Hc. cbn. lia.
Qed.

Lemma fair_rounds σ since round : fair σ →
  ∀ b n s, inv NDEBUG since round s → run NDEBUG start (upto σ n) = Ok s →
  ∃ m s', (n ≤ m)%nat ∧ run NDEBUG start (upto σ m) = Ok s' ∧ inv NDEBUG since round s' ∧
    (v_collector__epoch s + b ≤ v_collector__epoch s')%nat.
Proof.
  intros Hf b. induction b as [|b IH]; intros n s H Hs; [exists n, s; split_and!; (done || lia)|].
  destruct (IH n s H Hs) as (m & s1 & Hm & Hs1 & H1 & He).
  destruct (fair_turns σ Hf (Z.to_nat (round_left s1 + 1)) m) as (d & Hd).
  destruct (inv_run NDEBUG since round (σ <$> seq m d) s1 H1) as (s2 & Hs2 & H2).
  exists (m + d)%nat, s2. split_and!; [lia| |done|].
  - by rewrite upto_add, run_app, Hs1.
  - pose proof (next_round _ _ _ _ _ H1 Hs2 ltac:(lia)). lia.
Qed.

(** Three rounds later all that was pushed has been applied. *)
Lemma since_applied since round s (t : nat) k :
  inv NDEBUG since round s → (round + 3 ≤ v_collector__epoch s)%nat →
  pushed t k (take since (v_log s)) `prefix_of` applied t k (v_log s).
Proof.
  intros H He. pose proof (inv_fifo _ _ _ _ t k H) as Hfifo.
  eapply prefix_shorter; [apply pushed_prefix_of|done|]. pose proof H as (X & D & cut & now & HB & _ & _ & _ & _ & _ & HS).
  destruct (decide (t ∈ (v_id <$> v_thread__internals s))) as [Ht|Ht].
  2: { rewrite (b_dead _ _ _ _ _ _ HB _ _ Ht). apply pushed_take. }
  pose proof (b_bounds _ _ _ _ _ _ HB _ Ht) as (_ & Hinc & _ & _ & _ & Hdec & _).
  apply list_elem_of_fmap in Ht as (th & -> & Ht). apply list_elem_of_lookup_1 in Ht as [j Hj].
  destruct (HS j th Hj) as [Hlow Hprev].
  assert (Hv : (S round < last_visit (v_collector s) (v_collector__epoch s) j)%nat) by (unfold last_visit; case_match; lia).
  destruct k; (etrans; [apply pushed_prefix|done]); [apply Hlow; lia|by apply Hprev].
Qed.

(** C14 (pushes_are_applied): under every schedule in which the collector keeps
    taking steps, whatever a thread has pushed is applied at some later moment;
    and a thread that waits for room in a buffer, and is still in the same
    push then, finds room. *)
Theorem pushes_are_applied (σ : nat → t_step A) n s :
  fair σ → run NDEBUG start (upto σ n) = Ok s →
  ∃ m s', (n ≤ m)%nat ∧ run NDEBUG start (upto σ m) = Ok s' ∧
    (∀ (t : nat) k, pushed t k (v_log s) `prefix_of` applied t k (v_log s')) ∧
    ∀ i (t : t_internal A) k wrapped, v_thread__internals s' !! i = Some t → v_at t = Pushing k (Waiting wrapped) →
      length (pushed (v_id t) k (v_log s')) = length (pushed (v_id t) k (v_log s)) →
      next_test (queue_of k t) wrapped = Leaving wrapped.
Proof.
  intros Hf Hs. destruct (inv_run NDEBUG 0 0 (upto σ n) start (inv_start NDEBUG)) as (s0 & Hs0 & H0).
  assert (s0 = s) as -> by congruence. apply inv_since in H0.
  destruct (fair_rounds σ _ _ Hf 3 n s H0 Hs) as (m & s' & Hm & Hs' & H' & He).
  assert (Hlog : take (length (v_log s)) (v_log s') = v_log s).
  { replace m with (n + (m - n))%nat in Hs' by lia. rewrite upto_add, run_app, Hs in Hs'. cbn [mbind outcome_bind] in Hs'.
    destruct (log_grows _ _ _ Hs') as [r ->]. by rewrite take_app_length. }
  assert (Happ : ∀ (t : nat) k, pushed t k (v_log s) `prefix_of` applied t k (v_log s')).
  { intros t k. rewrite <- Hlog at 1. apply (since_applied _ (v_collector__epoch s)); [done|lia]. }
  exists m, s'. split_and!; [done|done|done|]. intros i t k w Hi Hat Hlen.
  pose proof H' as (X & D & cut & now & HB & _). pose proof (b_threads _ _ _ _ _ _ HB _ _ Hi) as Hok.
  destruct (ok_queue _ _ _ _ _ _ Hok k) as (T & HR & _ & _). apply (next_test_leaves _ (SIZE_ge NDEBUG k) _ _ _ _ _ HR).
  pose proof (prefix_length _ _ (Happ (v_id t) k)). pose proof (ring_taken _ _ _ _ _ HR). pose proof (SIZE_ge NDEBUG k). lia.
Qed.
End Progress.

(** A thread starts, pushes an increment, and goes on no more. *)
Definition one_push (n : nat) : t_step nat :=
  match n with
  | 0%nat => Fork (replicate 128 0%nat) (replicate 256 0%nat)
  | 1%nat => Initialize 0
  | 2%nat => Push 0 Increments 7%nat
  | 3%nat => Proceed 0
  | _ => Collect
  end.

Lemma pushes_are_applied_witness :
  ∃ m s', (4 ≤ m)%nat ∧ run false start (upto one_push m) = Ok s' ∧ [7%nat] `prefix_of` applied 0 Increments (v_log s').
Proof.
  refine (match pushes_are_applied false one_push 4 _ _ (eq_refl : run false start (upto one_push 4) = Ok _) with
          | ex_intro _ m (ex_intro _ s' (conj Hm (conj Hs (conj Ha _)))) =>
            ex_intro _ m (ex_intro _ s' (conj Hm (conj Hs (Ha 0%nat Increments))))
          end).
  intros n. exists (n + 4)%nat. split; [lia|]. by rewrite Nat.add_comm.
Defined.
