(* ===== verification/Heap.v ===== *)
(** * The allocator (src: include/xemmai/heap.h, include/xemmai/engine.h)

    Objects of up to sixteen units come from blocks of objects of one rank,
    larger ones from blocks of their own.  A thread keeps a list of free
    objects for each rank; when it is empty, the thread takes a whole list, a
    chunk, from those that the collector returned, or maps a new block.  The
    collector frees objects to lists of its own and returns them as chunks.

    The lists go through [v_next] of the free objects, and the chunks through
    [v_previous] of their first objects, whose [v_cyclic] is the length of the
    chunk.  The memory is a finite map from the addresses of objects. *)
From stdpp Require Import base list numbers gmap sorting.
From S2P Require Import Prelude Machine Layout.
Local Open Scope Z_scope.

Definition c_UNIT : Z := 2 ^ Z.log2_up sizeof_t_object.

Definition countl_zero (n : Z) : Z := if n =? 0 then 64 else 63 - Z.log2 n.
Definition c_RANKX : Z := countl_zero (c_UNIT - 1).

(** The number of objects in the blocks of a rank. *)
Definition A_size (rank : nat) : nat :=
  match rank with
  | 0%nat => Z.to_nat (1024 * 16)
  | 1%nat => Z.to_nat (1024 * 4)
  | 2%nat => Z.to_nat 1024
  | 3%nat => Z.to_nat (1024 / 4)
  | _ => Z.to_nat (1024 / 16)
  end.

Definition size_of (rank : nat) : Z := Z.shiftl c_UNIT (Z.of_nat rank).

Record t_object := { v_next : Z; v_previous : Z; v_cyclic : Z; v_rank : Z }.

Definition set_next (p : Z) (o : t_object) : t_object :=
  {| v_next := p; v_previous := v_previous o; v_cyclic := v_cyclic o; v_rank := v_rank o |}.
Definition set_previous (p : Z) (o : t_object) : t_object :=
  {| v_next := v_next o; v_previous := p; v_cyclic := v_cyclic o; v_rank := v_rank o |}.
Definition set_cyclic (n : Z) (o : t_object) : t_object :=
  {| v_next := v_next o; v_previous := v_previous o; v_cyclic := n; v_rank := v_rank o |}.

Record t_of := { v_chunks : Z; v_grown : Z; v_allocated : Z; v_returned : Z; v_freed : Z }.

Definition set_chunks (p : Z) (f : t_of) : t_of :=
  {| v_chunks := p; v_grown := v_grown f; v_allocated := v_allocated f; v_returned := v_returned f; v_freed := v_freed f |}.
Definition add_grown (n : Z) (f : t_of) : t_of :=
  {| v_chunks := v_chunks f; v_grown := v_grown f + n; v_allocated := v_allocated f; v_returned := v_returned f; v_freed := v_freed f |}.
Definition add_allocated (n : Z) (f : t_of) : t_of :=
  {| v_chunks := v_chunks f; v_grown := v_grown f; v_allocated := v_allocated f + n; v_returned := v_returned f; v_freed := v_freed f |}.
Definition add_returned (n : Z) (f : t_of) : t_of :=
  {| v_chunks := v_chunks f; v_grown := v_grown f; v_allocated := v_allocated f; v_returned := v_returned f + n; v_freed := v_freed f |}.
Definition set_freed (n : Z) (f : t_of) : t_of :=
  {| v_chunks := v_chunks f; v_grown := v_grown f; v_allocated := v_allocated f; v_returned := v_returned f; v_freed := n |}.

(** [v_heads] has the [v_head] of every thread and rank, [v_large_allocated]
    and [v_large_freed] are the heap's own [v_allocated] and [v_freed]. *)
Record t_heap := {
  v_memory : gmap Z t_object;
  v_blocks : gmap Z Z;
  v_ofs : nat → t_of;
  v_heads : nat → nat → Z;
  v_large_allocated : Z;
  v_large_freed : Z;
}.

Definition set_memory (m : gmap Z t_object) (h : t_heap) : t_heap :=
  {| v_memory := m; v_blocks := v_blocks h; v_ofs := v_ofs h; v_heads := v_heads h;
     v_large_allocated := v_large_allocated h; v_large_freed := v_large_freed h |}.
Definition set_blocks (b : gmap Z Z) (h : t_heap) : t_heap :=
  {| v_memory := v_memory h; v_blocks := b; v_ofs := v_ofs h; v_heads := v_heads h;
     v_large_allocated := v_large_allocated h; v_large_freed := v_large_freed h |}.
Definition update_of (r : nat) (f : t_of → t_of) (h : t_heap) : t_heap :=
  {| v_memory := v_memory h; v_blocks := v_blocks h; v_ofs := λ r', if decide (r' = r) then f (v_ofs h r) else v_ofs h r';
     v_heads := v_heads h; v_large_allocated := v_large_allocated h; v_large_freed := v_large_freed h |}.
Definition set_head (t r : nat) (p : Z) (h : t_heap) : t_heap :=
  {| v_memory := v_memory h; v_blocks := v_blocks h; v_ofs := v_ofs h;
     v_heads := λ t' r', if decide (t' = t ∧ r' = r) then p else v_heads h t' r';
     v_large_allocated := v_large_allocated h; v_large_freed := v_large_freed h |}.
Definition count_large (a f : Z) (h : t_heap) : t_heap :=
  {| v_memory := v_memory h; v_blocks := v_blocks h; v_ofs := v_ofs h; v_heads := v_heads h;
     v_large_allocated := v_large_allocated h + a; v_large_freed := v_large_freed h + f |}.

Definition get (p : Z) (h : t_heap) : outcome t_object :=
  match v_memory h !! p with Some o => Ok o | None => Fault end.

Definition update (p : Z) (f : t_object → t_object) (h : t_heap) : outcome t_heap :=
  o ← get p h; Ok (set_memory (<[p := f o]> (v_memory h)) h).

Definition empty_heap : t_heap :=
  {| v_memory := ∅; v_blocks := ∅; v_ofs := λ _, {| v_chunks := 0; v_grown := 0; v_allocated := 0; v_returned := 0; v_freed := 0 |};
     v_heads := λ _ _, 0; v_large_allocated := 0; v_large_freed := 0 |}.

(** [f_map] gives the address of fresh memory next to the blocks that are
    mapped already; it is filled with zeros. *)
Section Map.
Context (f_map : gmap Z Z → Z → Z).

(** The objects of a new block, from the first one at [p]. *)
Fixpoint grow_objects (n : nat) (p size rank : Z) (m : gmap Z t_object) : gmap Z t_object :=
  match n with
  | O => m
  | S O => <[p := {| v_next := 0; v_previous := 0; v_cyclic := 0; v_rank := rank |}]> m
  | S n =>
    <[p := {| v_next := p + size; v_previous := 0; v_cyclic := 0; v_rank := rank |}]> (grow_objects n (p + size) size rank m)
  end.

Definition f_grow (r : nat) (h : t_heap) : outcome (Z * t_heap) :=
  let size := size_of r in
  let length := size * Z.of_nat (A_size r) in
  let block := f_map (v_blocks h) length in
  let h := set_memory (grow_objects (A_size r) block size (Z.of_nat r) (v_memory h)) h in
  h ← update block (set_cyclic (Z.of_nat (A_size r))) h;
  let h := set_blocks (<[block := length]> (v_blocks h)) h in
  Ok (block, update_of r (add_grown (Z.of_nat (A_size r))) h).

(** [t_of::f_allocate]: the first chunk, or a new block. *)
Definition allocate_chunk (r : nat) (h : t_heap) : outcome (Z * t_heap) :=
  let p := v_chunks (v_ofs h r) in
  '(p, h) ←
    (if p =? 0 then f_grow r h
     else o ← get p h; Ok (p, update_of r (set_chunks (v_previous o)) h));
  o ← get p h;
  Ok (p, update_of r (add_allocated (v_cyclic o)) h).

Definition f_allocate_from (t r : nat) (h : t_heap) : outcome (Z * t_heap) :=
  '(p, h) ← allocate_chunk r h;
  o ← get p h;
  Ok (p, set_head t r (v_next o) h).

(** [f_allocate<A_heap, A_rank, A_of>] *)
Definition allocate_rank (t r : nat) (h : t_heap) : outcome (Z * t_heap) :=
  let p := v_heads h t r in
  if p =? 0 then f_allocate_from t r h
  else o ← get p h; Ok (p, set_head t r (v_next o) h).

Definition f_allocate_large (a_size : Z) (h : t_heap) : outcome (Z * t_heap) :=
  let p := f_map (v_blocks h) a_size in
  let h := set_memory (<[p := {| v_next := 0; v_previous := 0; v_cyclic := 0; v_rank := c_RANKX |}]> (v_memory h)) h in
  Ok (p, count_large 1 0 (set_blocks (<[p := a_size]> (v_blocks h)) h)).

Definition f_allocate_medium (t : nat) (a_size : Z) (h : t_heap) : outcome (Z * t_heap) :=
  if a_size <=? Z.shiftl c_UNIT 1 then allocate_rank t 1 h
  else if a_size <=? Z.shiftl c_UNIT 2 then allocate_rank t 2 h
  else if a_size <=? Z.shiftl c_UNIT 3 then allocate_rank t 3 h
  else if a_size <=? Z.shiftl c_UNIT 4 then allocate_rank t 4 h
  else f_allocate_large a_size h.

(** [t_heap::f_allocate], and the reset of [v_next] by the caller. *)
Definition f_allocate (t : nat) (a_size : Z) (h : t_heap) : outcome (Z * t_heap) :=
  '(p, h) ← (if a_size <=? c_UNIT then allocate_rank t 0 h else f_allocate_medium t a_size h);
  h ← update p (set_next 0) h;
  Ok (p, h).

(** [t_of::f_return(size_t)] *)
Definition return_list (t r : nat) (a_n : Z) (h : t_heap) : outcome t_heap :=
  let p := v_heads h t r in
  h ← update p (set_cyclic a_n) h;
  h ← update p (set_previous (v_chunks (v_ofs h r))) h;
  let h := update_of r (set_chunks p) h in
  let h := set_head t r 0 h in
  Ok (update_of r (add_returned a_n) h).

(** The length of the list from [p]; [fuel] is more than it. *)
Fixpoint list_length (fuel : nat) (p : Z) (h : t_heap) : outcome Z :=
  match fuel with
  | O => Fault
  | S fuel => if p =? 0 then Ok 0 else o ← get p h; n ← list_length fuel (v_next o) h; Ok (n + 1)
  end.

(** [t_of::f_return()] *)
Definition return_rank (t r : nat) (h : t_heap) : outcome t_heap :=
  n ← list_length (S (size (v_memory h))) (v_heads h t r) h;
  if 0 <? n then return_list t r n h else Ok h.

Definition f_return (t : nat) (h : t_heap) : outcome t_heap :=
  h ← return_rank t 0 h; h ← return_rank t 1 h; h ← return_rank t 2 h; h ← return_rank t 3 h; return_rank t 4 h.

(** [t_of::f_flush] *)
Definition flush_rank (t r : nat) (h : t_heap) : outcome t_heap :=
  h ← return_list t r (v_freed (v_ofs h r)) h;
  Ok (update_of r (set_freed 0) h).

(** [t_of::f_free] *)
Definition free_rank (t r : nat) (a_p : Z) (h : t_heap) : outcome t_heap :=
  h ← update a_p (set_next (v_heads h t r)) h;
  let h := set_head t r a_p h in
  let h := update_of r (λ f, set_freed (v_freed f + 1) f) h in
  if Z.of_nat (A_size r) <=? v_freed (v_ofs h r) then flush_rank t r h else Ok h.

Definition flush_if (t r : nat) (h : t_heap) : outcome t_heap :=
  if 0 <? v_freed (v_ofs h r) then flush_rank t r h else Ok h.

Definition f_flush (t : nat) (h : t_heap) : outcome t_heap :=
  h ← flush_if t 0 h; h ← flush_if t 1 h; h ← flush_if t 2 h; h ← flush_if t 3 h; flush_if t 4 h.

Definition f_free (t : nat) (a_p : Z) (h : t_heap) : outcome t_heap :=
  o ← get a_p h;
  if (0 <=? v_rank o) && (v_rank o <=? 4) then free_rank t (Z.to_nat (v_rank o)) a_p h
  else
    match v_blocks h !! a_p with
    | None => Fault
    | Some _ =>
      Ok (count_large 0 1 (set_memory (delete a_p (v_memory h)) (set_blocks (delete a_p (v_blocks h)) h)))
    end.

Definition of_live (f : t_of) : Z := v_allocated f - v_returned f - v_freed f.

Definition f_live (h : t_heap) : Z :=
  of_live (v_ofs h 0) + of_live (v_ofs h 1) + of_live (v_ofs h 2) + of_live (v_ofs h 3) + of_live (v_ofs h 4) +
  v_large_allocated h - v_large_freed h.

(** The blocks in the order of their addresses; the last one that does not
    start after [p]: [lower_bound], and the step back. *)
Definition by_address (x y : Z * Z) : Prop := x.1 ≤ y.1.
#[export] Instance by_address_dec : RelDecision by_address.
Proof. intros x y. unfold by_address. apply _. Defined.

Fixpoint last_from (p : Z) (l : list (Z * Z)) (i : option (Z * Z)) : option (Z * Z) :=
  match l with
  | [] => i
  | (b, n) :: l => if b <? p then last_from p l (Some (b, n)) else if b =? p then Some (b, n) else i
  end.

Definition f_find (a_p : Z) (h : t_heap) : outcome (option Z) :=
  match last_from a_p (merge_sort by_address (map_to_list (v_blocks h))) None with
  | None => Ok None
  | Some (b, n) =>
    let j := a_p - b in
    if j <? n then
      o ← get b h;
      Ok (if Z.land j (to_size (to_size (Z.shiftl c_UNIT (v_rank o)) - 1)) =? 0 then Some a_p else None)
    else Ok None
  end.
End Map.
