(* ===== verification/HeapLists.v ===== *)
(** * The lists of the allocator (Heap.v)

    Lists of free objects in memory, chunks of them, the geometry of blocks,
    and counts of objects by what they are used for. *)
From stdpp Require Import base list numbers gmap sorting.
From S2P Require Import Prelude Machine Layout Heap.
Local Open Scope Z_scope.

(** ** Lists through [v_next] and chunks through [v_previous] *)

Fixpoint chain (m : gmap Z t_object) (p : Z) (l : list Z) : Prop :=
  match l with
  | [] => p = 0
  | x :: l => p = x ∧ x ≠ 0 ∧ ∃ o, m !! x = Some o ∧ chain m (v_next o) l
  end.

Fixpoint chunk_chain (m : gmap Z t_object) (p : Z) (cs : list (list Z)) : Prop :=
  match cs with
  | [] => p = 0
  | c :: cs =>
    chain m p c ∧ c ≠ [] ∧ ∃ o, m !! p = Some o ∧ v_cyclic o = Z.of_nat (length c) ∧ chunk_chain m (v_previous o) cs
  end.

Lemma chain_ext m m' p l : (∀ x, x ∈ l → m' !! x = m !! x) → chain m p l → chain m' p l.
Proof.
  revert p. induction l as [|x l IH]; intros p Hm; [done|]. intros (-> & Hx & o & Ho & Hl). split_and!; [done|done|].
  exists o. split; [by rewrite Hm by (by left)|]. apply IH; [|done]. intros y Hy. apply Hm. by right.
Qed.

Lemma chain_head m p x l : chain m p (x :: l) → p = x.
Proof. by intros (-> & _). Qed.

Lemma chain_nil m l : chain m 0 l → l = [].
Proof. destruct l as [|x l]; [done|]. intros (? & ? & _). congruence. Qed.

Lemma chain_zero m p l : chain m p l → (p =? 0) = bool_decide (l = []).
Proof.
  destruct l as [|x l]; cbn; [by intros ->|]. intros (-> & Hx & _). by destruct (Z.eqb_spec x 0).
Qed.

Lemma chunk_chain_ext m m' p cs : (∀ x, x ∈ concat cs → m' !! x = m !! x) → chunk_chain m p cs → chunk_chain m' p cs.
Proof.
  revert p. induction cs as [|c cs IH]; intros p Hm; [done|]. intros (Hc & Hne & o & Ho & Hn & Hcs). cbn in Hm.
  assert (Hp : p ∈ c) by (destruct c as [|x c]; [done|]; rewrite (chain_head _ _ _ _ Hc); by left).
  split_and!; [|done|].
  - revert Hc. apply chain_ext. intros x Hx. apply Hm, elem_of_app. by left.
  - exists o. split_and!; [|done|].
    + rewrite Hm; [done|]. apply elem_of_app. by left.
    + apply IH; [|done]. intros x Hx. apply Hm, elem_of_app. by right.
Qed.

Lemma chunk_chain_zero m p cs : chunk_chain m p cs → (p =? 0) = bool_decide (cs = []).
Proof.
  destruct cs as [|c cs]; cbn; [by intros ->|]. intros (Hc & Hne & _). rewrite (chain_zero _ _ _ Hc).
  by rewrite !bool_decide_false.
Qed.

(** [list_length] counts the objects of a list. *)
Lemma list_length_ok h p l fuel :
  chain (v_memory h) p l → (length l < fuel)%nat → list_length fuel p h = Ok (Z.of_nat (length l)).
Proof.
  revert p l. induction fuel as [|fuel IH]; intros p l Hc Hl; [lia|]. cbn. rewrite (chain_zero _ _ _ Hc).
  destruct l as [|x l]; [done|]. rewrite bool_decide_false by done. destruct Hc as (-> & _ & o & Ho & Hc).
  unfold get. rewrite Ho. cbn. rewrite (IH _ _ Hc) by (cbn in Hl; lia). cbn. f_equal. lia.
Qed.

(** ** A new block *)

Definition block_objects (n : nat) (p size : Z) : list Z := (λ i : nat, p + Z.of_nat i * size) <$> seq 0 n.

Lemma block_objects_cons n p size : block_objects (S n) p size = p :: block_objects n (p + size) size.
Proof.
  unfold block_objects. cbn [seq fmap list_fmap]. f_equal; [lia|]. rewrite <- fmap_S_seq, <- list_fmap_compose.
  apply list_fmap_ext. intros i x _. cbn. lia.
Qed.

Lemma block_objects_in n p size x :
  x ∈ block_objects n p size ↔ ∃ i, 0 ≤ i < Z.of_nat n ∧ x = p + i * size.
Proof.
  unfold block_objects. rewrite list_elem_of_fmap. setoid_rewrite elem_of_seq. split.
  - intros (i & -> & Hi). exists (Z.of_nat i). split; [lia|done].
  - intros (i & Hi & ->). exists (Z.to_nat i). split; [rewrite Z2Nat.id by lia; done|lia].
Qed.

Lemma block_objects_nodup n p size : 0 < size → NoDup (block_objects n p size).
Proof.
  intros Hs. apply NoDup_fmap_2_strong; [|apply NoDup_seq]. intros i j _ _ E.
  assert (Z.of_nat i * size = Z.of_nat j * size) by lia. apply Nat2Z.inj. by apply (Z.mul_reg_r _ _ size); [lia|].
Qed.

Lemma length_block_objects n p size : length (block_objects n p size) = n.
Proof. unfold block_objects. by rewrite length_fmap, length_seq. Qed.

Lemma grow_objects_other n p size rank m x :
  x ∉ block_objects n p size → grow_objects n p size rank m !! x = m !! x.
Proof.
  revert p. induction n as [|n IH]; intros p Hx; [done|]. rewrite block_objects_cons in Hx.
  apply not_elem_of_cons in Hx as [Hx1 Hx2]. destruct n as [|n]; [by apply lookup_insert_ne|].
  change (grow_objects (S (S n)) p size rank m) with
    (<[p := {| v_next := p + size; v_previous := 0; v_cyclic := 0; v_rank := rank |}]> (grow_objects (S n) (p + size) size rank m)).
  rewrite lookup_insert_ne by done. by apply IH.
Qed.

Lemma grow_objects_chain n p size rank m :
  0 < size → 0 < p → (0 < n)%nat →
  chain (grow_objects n p size rank m) p (block_objects n p size) ∧
  ∀ x, x ∈ block_objects n p size → ∃ o, grow_objects n p size rank m !! x = Some o ∧ v_rank o = rank.
Proof.
  intros Hs. revert p. induction n as [|n IH]; intros p Hp Hn; [lia|]. rewrite block_objects_cons. destruct n as [|n].
  - cbn. rewrite lookup_insert_eq. split; [split_and!; [done|lia|by eexists]|].
    intros x Hx. apply list_elem_of_singleton in Hx as ->. rewrite lookup_insert_eq. by eexists.
  - destruct (IH (p + size) ltac:(lia) ltac:(lia)) as [Hc Hr].
    assert (Hfresh : p ∉ block_objects (S n) (p + size) size).
    { rewrite block_objects_in. intros (i & Hi & E). nia. }
    change (grow_objects (S (S n)) p size rank m) with
      (<[p := {| v_next := p + size; v_previous := 0; v_cyclic := 0; v_rank := rank |}]> (grow_objects (S n) (p + size) size rank m)).
    split.
    + split_and!; [done|lia|]. eexists. rewrite lookup_insert_eq. split; [done|]. cbn [v_next].
      revert Hc. apply chain_ext. intros x Hx. apply lookup_insert_ne. by intros ->.
    + intros x [->|Hx]%elem_of_cons; [rewrite lookup_insert_eq; by eexists|].
      rewrite lookup_insert_ne by (by intros ->). by apply Hr.
Qed.

(** ** Counts *)
Section Counts.
Context {B : Type}.
Implicit Types (m : gmap Z B) (b : B).

Definition count (P : B → bool) m : Z := Z.of_nat (size (filter (λ kv : Z * B, P kv.2 = true) m)).

Definition one (c : bool) : Z := if c then 1 else 0.

Lemma count_empty P : count P ∅ = 0.
Proof. unfold count. by rewrite map_filter_empty, map_size_empty. Qed.

Lemma count_fresh P m x b : m !! x = None → count P (<[x := b]> m) = count P m + one (P b).
Proof.
  intros Hx. unfold count, one. destruct (P b) eqn:E.
  - rewrite map_filter_insert_True by done. rewrite map_size_insert_None; [lia|]. by apply map_lookup_filter_None; left.
  - rewrite map_filter_insert_not' by (cbn; intros; congruence). lia.
Qed.

Lemma count_delete P m x b : m !! x = Some b → count P (delete x m) = count P m - one (P b).
Proof.
  intros Hx. rewrite <- (insert_delete_id m x b Hx) at 2. rewrite count_fresh by apply lookup_delete_eq. lia.
Qed.

Lemma count_insert P m x b b' : m !! x = Some b → count P (<[x := b']> m) = count P m - one (P b) + one (P b').
Proof.
  intros Hx. rewrite <- (insert_delete_eq m x b'). rewrite count_fresh by apply lookup_delete_eq.
  by rewrite (count_delete _ _ _ _ Hx).
Qed.

Lemma count_sum (P : B → bool) (Qs : list (B → bool)) m :
  (∀ x b, m !! x = Some b → one (P b) = foldr (λ Q n, one (Q b) + n) 0 Qs) →
  count P m = foldr (λ Q n, count Q m + n) 0 Qs.
Proof.
  induction m as [|x b m Hx IH] using map_ind; intros H.
  - rewrite count_empty. clear H. induction Qs as [|Q Qs IH]; [done|]. cbn. by rewrite count_empty, <- IH.
  - rewrite count_fresh, IH by (done || (intros y c Hy; apply (H y); rewrite lookup_insert_ne; [done|]; intros ->; congruence)).
    rewrite (H x b) by apply lookup_insert_eq. clear H IH. induction Qs as [|Q Qs IH]; [done|]. cbn.
    rewrite count_fresh, <- IH by done. lia.
Qed.

(** Many objects at once. *)
Definition move (l : list Z) b m : gmap Z B := foldr (λ x, <[x := b]>) m l.

Lemma move_cons x l b m : move (x :: l) b m = <[x := b]> (move l b m).
Proof. done. Qed.

Lemma move_lookup l b m x : move l b m !! x = if decide (x ∈ l) then Some b else m !! x.
Proof.
  induction l as [|y l IH]; [by rewrite decide_False by apply not_elem_of_nil|]. rewrite move_cons.
  destruct (decide (y = x)) as [->|Hne].
  - by rewrite lookup_insert_eq, decide_True by (by left).
  - rewrite lookup_insert_ne, IH by done. apply decide_ext. rewrite elem_of_cons. naive_solver.
Qed.

Lemma count_move P l b b' m :
  NoDup l → (∀ x, x ∈ l → m !! x = Some b') →
  count P (move l b m) = count P m + Z.of_nat (length l) * (one (P b) - one (P b')).
Proof.
  intros Hnd. induction Hnd as [|x l Hx Hnd IH]; intros Hl; rewrite ?move_cons; cbn [length]; [cbn; lia|].
  rewrite (count_insert P _ x b').
  - rewrite IH by (intros y Hy; apply Hl; by right). lia.
  - rewrite move_lookup, decide_False by done. apply Hl. by left.
Qed.

Lemma count_move_fresh P l b m :
  NoDup l → (∀ x, x ∈ l → m !! x = None) → count P (move l b m) = count P m + Z.of_nat (length l) * one (P b).
Proof.
  intros Hnd. induction Hnd as [|x l Hx Hnd IH]; intros Hl; rewrite ?move_cons; cbn [length]; [cbn; lia|].
  rewrite count_fresh.
  - rewrite IH by (intros y Hy; apply Hl; by right). lia.
  - rewrite move_lookup, decide_False by done. apply Hl. by left.
Qed.
End Counts.
#[global] Arguments move {B} l b m : simpl never.
