(* ===== verification/HeapInvariant.v ===== *)
(** * The invariant of the allocator (Heap.v)

    Every object of a block is in one place: the list of a thread, a chunk, or
    in use.  The operations move objects from place to place. *)
From stdpp Require Import base list numbers gmap sorting.
From S2P Require Import Prelude Machine Layout Heap HeapLists.
Local Open Scope Z_scope.

Lemma size_of_pos r : 0 < size_of r.
Proof. unfold size_of. rewrite Z.shiftl_mul_pow2 by lia. change c_UNIT with 128. nia. Qed.

Lemma A_size_pos r : (0 < A_size r)%nat.
Proof.
  change 0%nat with (Z.to_nat 0). unfold A_size. repeat case_match; apply Z2Nat.inj_lt; (done || reflexivity).
Qed.

(** ** Blocks *)

(** The distance between the objects of a block of length [n]. *)
Definition stride (k n : Z) : Z := if k <=? 4 then size_of (Z.to_nat k) else n.

Definition rank_ok (k n : Z) : Prop :=
  0 ≤ k ≤ 4 ∧ n = size_of (Z.to_nat k) * Z.of_nat (A_size (Z.to_nat k)) ∨ k = c_RANKX ∧ n < 2 ^ 64.

Definition in_block (x b n k : Z) : Prop := ∃ i, x = b + i * stride k n ∧ 0 ≤ i ∧ i * stride k n < n.

Record geometry (ranks blocks : gmap Z Z) : Prop := {
  geo_block b n : blocks !! b = Some n → 0 < b ∧ 0 < n ∧ ∃ k, ranks !! b = Some k ∧ rank_ok k n;
  geo_disjoint b n b' n' : blocks !! b = Some n → blocks !! b' = Some n' → b ≠ b' → b + n ≤ b' ∨ b' + n' ≤ b;
  geo_object x k : ranks !! x = Some k ↔ ∃ b n, blocks !! b = Some n ∧ ranks !! b = Some k ∧ in_block x b n k;
}.

Lemma stride_pos k n : 0 < n → 0 < stride k n.
Proof. intros Hn. unfold stride. case_match; [apply size_of_pos|done]. Qed.

(** The objects of a block fill it. *)
Lemma in_block_end x b n k : 0 < n → rank_ok k n → in_block x b n k → b ≤ x ∧ x + stride k n ≤ b + n.
Proof.
  intros Hn Hk (i & -> & Hi & Hin). pose proof (stride_pos k n Hn). split; [nia|].
  destruct Hk as [[Hk ->]|[-> _]].
  - unfold stride in *. rewrite (proj2 (Z.leb_le k 4)) in * by lia. set (s := size_of (Z.to_nat k)) in *.
    assert (i < Z.of_nat (A_size (Z.to_nat k))) by nia. nia.
  - change (stride c_RANKX n) with n in *. assert (i = 0) by nia. lia.
Qed.

Lemma in_block_first b n k : 0 < n → in_block b b n k.
Proof. intros Hn. exists 0. lia. Qed.

(** Two objects do not overlap. *)
Lemma objects_apart ranks blocks x x' k k' b n b' n' :
  geometry ranks blocks → blocks !! b = Some n → blocks !! b' = Some n' →
  ranks !! b = Some k → ranks !! b' = Some k' → in_block x b n k → in_block x' b' n' k' → x ≠ x' →
  x + stride k n ≤ x' ∨ x' + stride k' n' ≤ x.
Proof.
  intros HG Hb Hb' Hk Hk' Hx Hx' Hne.
  destruct (geo_block _ _ HG _ _ Hb) as (_ & Hn & k1 & Hk1 & Hr). assert (k1 = k) as -> by congruence.
  destruct (geo_block _ _ HG _ _ Hb') as (_ & Hn' & k2 & Hk2 & Hr'). assert (k2 = k') as -> by congruence.
  pose proof (in_block_end _ _ _ _ Hn Hr Hx). pose proof (in_block_end _ _ _ _ Hn' Hr' Hx').
  destruct (decide (b = b')) as [->|Hbb].
  - assert (n' = n) as -> by congruence. assert (k' = k) as -> by congruence.
    destruct Hx as (i & -> & _), Hx' as (j & -> & _). pose proof (stride_pos k n Hn).
    destruct (Z.lt_trichotomy i j) as [?|[->|?]]; [left; nia|done|right; nia].
  - destruct (geo_disjoint _ _ HG _ _ _ _ Hb Hb' Hbb); lia.
Qed.

(** A new block of objects of the rank [k]. *)
Lemma geometry_insert ranks ranks' blocks b n k :
  geometry ranks blocks → 0 < b → 0 < n → rank_ok k n →
  (∀ b' n', blocks !! b' = Some n' → b + n ≤ b' ∨ b' + n' ≤ b) →
  (∀ x, in_block x b n k → ranks' !! x = Some k) → (∀ x, in_block x b n k ∨ ranks' !! x = ranks !! x) →
  geometry ranks' (<[b := n]> blocks).
Proof.
  intros HG Hb Hn Hk Hfresh Hin Hcase.
  assert (Hout : ∀ x, ¬ in_block x b n k → ranks' !! x = ranks !! x) by (intros x Hx; by destruct (Hcase x)).
  assert (Hfar : ∀ b' n' x k', blocks !! b' = Some n' → ranks !! b' = Some k' → in_block x b' n' k' → ¬ in_block x b n k).
  { intros b' n' x k' Hb' Hk' Hx Hx'. destruct (geo_block _ _ HG _ _ Hb') as (_ & Hn' & k2 & Hk2 & Hr).
    assert (k2 = k') as -> by congruence. pose proof (in_block_end _ _ _ _ Hn Hk Hx').
    pose proof (in_block_end _ _ _ _ Hn' Hr Hx). pose proof (stride_pos k' n' Hn'). pose proof (stride_pos k n Hn).
    destruct (Hfresh _ _ Hb'); lia. }
  assert (Hold : ∀ b' n' k', blocks !! b' = Some n' → ranks !! b' = Some k' → b' ≠ b ∧ ranks' !! b' = Some k').
  { intros b' n' k' Hb' Hk'. destruct (geo_block _ _ HG _ _ Hb') as (_ & Hn' & _).
    assert (Hnin : ¬ in_block b' b n k) by (apply (Hfar b' n' b' k'); try done; by apply in_block_first).
    split; [intros ->; by apply Hnin, in_block_first|]. by rewrite Hout. }
  split.
  - intros b' n' Hb'. destruct (decide (b' = b)) as [->|Hne].
    + rewrite lookup_insert_eq in Hb'. injection Hb' as <-. split_and!; [done|done|].
      exists k. split; [by apply Hin, in_block_first|done].
    + rewrite lookup_insert_ne in Hb' by done. destruct (geo_block _ _ HG _ _ Hb') as (H1 & H2 & k' & Hk' & H3).
      split_and!; [done|done|]. exists k'. split; [|done]. by apply (Hold b' n').
  - intros b1 n1 b2 n2 H1 H2 Hne. destruct (decide (b1 = b)) as [->|Hb1], (decide (b2 = b)) as [->|Hb2]; try done;
      rewrite ?lookup_insert_eq in *; rewrite ?lookup_insert_ne in * by done; simplify_eq.
    + by apply Hfresh.
    + destruct (Hfresh _ _ H1); lia.
    + by apply (geo_disjoint _ _ HG).
  - intros x k'. split.
    + intros Hx. destruct (decide (ranks !! x = Some k')) as [E|Hne].
      * apply (geo_object _ _ HG) in E as (b' & n' & Hb' & Hk' & Hx'). destruct (Hold _ _ _ Hb' Hk') as [Hne Hk2].
        exists b', n'. rewrite lookup_insert_ne by done. done.
      * exists b, n. rewrite lookup_insert_eq. destruct (decide (k' = k)) as [->|Hkk].
        -- split_and!; [done|by apply Hin, in_block_first|]. destruct (Hcase x) as [?|E]; [done|]. by rewrite E in Hx.
        -- exfalso. apply Hne. rewrite <- Hout; [done|]. intros Hi. rewrite (Hin x Hi) in Hx. congruence.
    + intros (b' & n' & Hb' & Hk' & Hx). destruct (decide (b' = b)) as [->|Hne].
      * rewrite lookup_insert_eq in Hb'. injection Hb' as <-. rewrite (Hin b) in Hk' by (by apply in_block_first).
        injection Hk' as <-. by apply Hin.
      * rewrite lookup_insert_ne in Hb' by done.
        assert (Hkb : ranks !! b' = Some k').
        { destruct (geo_block _ _ HG _ _ Hb') as (_ & _ & k2 & Hk2 & _). destruct (Hold _ _ _ Hb' Hk2) as [_ E]. congruence. }
        rewrite Hout by (by apply (Hfar b' n' x k')). apply (geo_object _ _ HG). by exists b', n'.
Qed.

(** A block of one object goes. *)
Lemma geometry_delete ranks blocks b n :
  geometry ranks blocks → blocks !! b = Some n → ranks !! b = Some c_RANKX → geometry (delete b ranks) (delete b blocks).
Proof.
  intros HG Hb Hk.
  assert (Hother : ∀ b' n' k', b' ≠ b → blocks !! b' = Some n' → ranks !! b' = Some k' → ∀ x, in_block x b' n' k' → x ≠ b).
  { intros b' n' k' Hne Hb' Hk' x Hx ->. destruct (geo_block _ _ HG _ _ Hb) as (_ & Hn & _).
    destruct (geo_block _ _ HG _ _ Hb') as (_ & Hn' & k2 & Hk2 & Hr). assert (k2 = k') as -> by congruence.
    pose proof (in_block_end _ _ _ _ Hn' Hr Hx). pose proof (stride_pos k' n' Hn').
    destruct (geo_disjoint _ _ HG _ _ _ _ Hb Hb' ltac:(done)); lia. }
  split.
  - intros b' n' Hb'. apply lookup_delete_Some in Hb' as [Hne Hb']. destruct (geo_block _ _ HG _ _ Hb') as (H1 & H2 & k & Hk' & H3).
    split_and!; [done|done|]. exists k. by rewrite lookup_delete_ne.
  - intros b1 n1 b2 n2 [_ H1]%lookup_delete_Some [_ H2]%lookup_delete_Some. by apply (geo_disjoint _ _ HG).
  - intros x k. split.
    + intros [Hne Hx]%lookup_delete_Some. apply (geo_object _ _ HG) in Hx as (b' & n' & Hb' & Hk' & Hx).
      assert (Hbb : b' ≠ b).
      { intros ->. assert (n' = n) as -> by congruence. assert (k = c_RANKX) as -> by congruence.
        destruct Hx as (i & -> & Hi & Hin). change (stride c_RANKX n) with n in *.
        destruct (geo_block _ _ HG _ _ Hb) as (_ & Hn & _). assert (i = 0) as -> by nia. lia. }
      exists b', n'. by rewrite !lookup_delete_ne.
    + intros (b' & n' & [Hne Hb']%lookup_delete_Some & Hk' & Hx). rewrite lookup_delete_ne in Hk' by done.
      rewrite lookup_delete_ne; [apply (geo_object _ _ HG); by exists b', n'|].
      intros ->. by apply (Hother b' n' k ltac:(done) Hb' Hk' x).
Qed.

(** ** Places *)

Inductive t_place :=
| Listed (t r : nat)
| Chunk (r : nat)
| Used (r : nat) (n : Z).
#[export] Instance t_place_eq_dec : EqDecision t_place.
Proof. solve_decision. Defined.

Definition place_rank (pl : t_place) : nat := match pl with Listed _ r | Chunk r | Used r _ => r end.

(** What [f_live] counts: objects in use, and in the lists of threads other
    than the collector, which is the thread 0. *)
Definition live (pl : t_place) : bool :=
  match pl with Listed t _ => negb (t =? 0)%nat | Chunk _ => false | Used _ _ => true end.

Definition live_at (r : nat) (pl : t_place) : bool := live pl && (place_rank pl =? r)%nat.

Definition RANKX : nat := Z.to_nat c_RANKX.

Definition place_ok (blocks : gmap Z Z) (x : Z) (pl : t_place) : Prop :=
  match pl with
  | Listed _ r | Chunk r => (r ≤ 4)%nat
  | Used r n => 0 < n ∧ ((r ≤ 4)%nat ∧ n ≤ size_of r ∨ r = RANKX ∧ blocks !! x = Some n)
  end.

Record t_lists := {
  g_free : nat → nat → list Z;
  g_chunks : nat → list (list Z);
  g_place : gmap Z t_place;
}.

Definition ranks (h : t_heap) : gmap Z Z := v_rank <$> v_memory h.

Record lists_ok (h : t_heap) (G : t_lists) : Prop := {
  w_rank x : ranks h !! x = (λ pl, Z.of_nat (place_rank pl)) <$> g_place G !! x;
  w_place x pl : g_place G !! x = Some pl → place_ok (v_blocks h) x pl;
  w_free t r : chain (v_memory h) (v_heads h t r) (g_free G t r);
  w_free_nodup t r : NoDup (g_free G t r);
  w_free_place t r x : x ∈ g_free G t r ↔ g_place G !! x = Some (Listed t r);
  w_chunks r : chunk_chain (v_memory h) (v_chunks (v_ofs h r)) (g_chunks G r);
  w_chunks_nodup r : NoDup (concat (g_chunks G r));
  w_chunks_place r x : x ∈ concat (g_chunks G r) ↔ g_place G !! x = Some (Chunk r);
  w_geometry : geometry (ranks h) (v_blocks h);
}.

Record wf (h : t_heap) (G : t_lists) : Prop := {
  w_lists : lists_ok h G;
  w_live r : (r ≤ 4)%nat → of_live (v_ofs h r) = count (live_at r) (g_place G);
  w_freed r : (r ≤ 4)%nat → v_freed (v_ofs h r) = Z.of_nat (length (g_free G 0 r));
  w_large : v_large_allocated h - v_large_freed h = count (live_at RANKX) (g_place G);
}.

(** Heaps are compared field by field. *)
Record same (h h' : t_heap) : Prop := {
  same_memory : v_memory h' = v_memory h;
  same_blocks : v_blocks h' = v_blocks h;
  same_ofs r : v_ofs h' r = v_ofs h r;
  same_heads t r : v_heads h' t r = v_heads h t r;
  same_large : v_large_allocated h' - v_large_freed h' = v_large_allocated h - v_large_freed h;
}.

Lemma wf_same h h' G : same h h' → wf h G → wf h' G.
Proof.
  intros [Hm Hb Ho Hh Hl] [[] Hlive Hfreed Hlarge].
  split; [|intros r; rewrite ?Ho; auto..|by rewrite Hl].
  split; unfold ranks in *; intros *; rewrite ?Hm, ?Hb, ?Ho, ?Hh; auto.
Qed.

(** Replacing one list of objects. *)
Definition with_free (t r : nat) (l : list Z) (G : t_lists) : t_lists :=
  {| g_free := λ t' r', if decide (t' = t ∧ r' = r) then l else g_free G t' r'; g_chunks := g_chunks G; g_place := g_place G |}.
Definition with_chunks (r : nat) (cs : list (list Z)) (G : t_lists) : t_lists :=
  {| g_free := g_free G; g_chunks := λ r', if decide (r' = r) then cs else g_chunks G r'; g_place := g_place G |}.
Definition with_place (P : gmap Z t_place) (G : t_lists) : t_lists :=
  {| g_free := g_free G; g_chunks := g_chunks G; g_place := P |}.

Section Facts.
Context (h : t_heap) (G : t_lists) (H : lists_ok h G).

Lemma place_get x pl : g_place G !! x = Some pl → ∃ o, v_memory h !! x = Some o ∧ v_rank o = Z.of_nat (place_rank pl).
Proof.
  intros Hx. pose proof (w_rank _ _ H x) as E. rewrite Hx in E. unfold ranks in E. rewrite lookup_fmap in E.
  destruct (v_memory h !! x) as [o|]; [|done]. exists o. split; [done|]. by injection E.
Qed.

Lemma place_pos x pl : g_place G !! x = Some pl → 0 < x.
Proof.
  intros Hx. pose proof (w_rank _ _ H x) as E. rewrite Hx in E.
  apply (geo_object _ _ (w_geometry _ _ H)) in E as (b & n & Hb & Hk & i & -> & Hi & _).
  destruct (geo_block _ _ (w_geometry _ _ H) _ _ Hb) as (Hpos & Hn & _). pose proof (stride_pos (Z.of_nat (place_rank pl)) n Hn). nia.
Qed.

(** A change of objects that keeps their ranks, and the lists they are in. *)
Lemma ranks_insert x o o' : v_memory h !! x = Some o → v_rank o' = v_rank o →
  v_rank <$> <[x := o']> (v_memory h) = ranks h.
Proof.
  intros Ho Hr. unfold ranks. rewrite fmap_insert, Hr. apply insert_id. by rewrite lookup_fmap, Ho.
Qed.

Lemma free_insert x o t r : x ∉ g_free G t r → chain (<[x := o]> (v_memory h)) (v_heads h t r) (g_free G t r).
Proof.
  intros Hx. refine (chain_ext _ _ _ _ _ (w_free _ _ H t r)). intros y Hy. apply lookup_insert_ne. by intros ->.
Qed.

Lemma chunks_insert x o r :
  x ∉ concat (g_chunks G r) → chunk_chain (<[x := o]> (v_memory h)) (v_chunks (v_ofs h r)) (g_chunks G r).
Proof.
  intros Hx. refine (chunk_chain_ext _ _ _ _ _ (w_chunks _ _ H r)). intros y Hy. apply lookup_insert_ne. by intros ->.
Qed.

Lemma not_in_free x t r pl : g_place G !! x = Some pl → pl ≠ Listed t r → x ∉ g_free G t r.
Proof. intros Hx Hne Hin. apply (w_free_place _ _ H) in Hin. congruence. Qed.

Lemma not_in_chunks x r pl : g_place G !! x = Some pl → pl ≠ Chunk r → x ∉ concat (g_chunks G r).
Proof. intros Hx Hne Hin. apply (w_chunks_place _ _ H) in Hin. congruence. Qed.
End Facts.

(** A change of an object that is in use. *)
Lemma write_wf h G x r n f :
  wf h G → g_place G !! x = Some (Used r n) → (∀ o, v_rank (f o) = v_rank o) →
  ∃ h', update x f h = Ok h' ∧ wf h' G ∧ v_blocks h' = v_blocks h.
Proof.
  intros HW Hx Hf. pose proof (w_lists _ _ HW) as H. destruct (place_get _ _ H _ _ Hx) as (o & Ho & Hr).
  unfold update, get. rewrite Ho. cbn. eexists. split; [done|]. split; [|done]. destruct HW as [_ H1 H2 H3]. split; [|done..].
  pose proof (ranks_insert h x o (f o) Ho (Hf o)) as Hranks. unfold ranks in Hranks. pose proof H as [Wr Wp Wf Wn Wfp Wc Wcn Wcp Wg]. split; try done; unfold ranks; cbn.
  - intros y. by rewrite Hranks.
  - intros t r'. by apply free_insert, (not_in_free h G ltac:(done) _ _ _ _ Hx).
  - intros r'. by apply chunks_insert, (not_in_chunks h G ltac:(done) _ _ _ Hx).
  - by rewrite Hranks.
Qed.

(** The first object of a list goes into use. *)
Lemma pop_wf h G t r x l n :
  wf h G → g_free G t r = x :: l → (1 ≤ t)%nat → (r ≤ 4)%nat → 0 < n ≤ size_of r →
  ∃ o, v_memory h !! x = Some o ∧
    wf (set_head t r (v_next o) h) (with_place (<[x := Used r n]> (g_place G)) (with_free t r l G)).
Proof.
  intros HW Hl Ht Hr Hn. pose proof (w_lists _ _ HW) as H.
  pose proof (w_free _ _ H t r) as Hc. pose proof (w_free_nodup _ _ H t r) as Hnd. rewrite Hl in Hc, Hnd.
  destruct Hc as (_ & Hx0 & o & Ho & Hc). apply NoDup_cons in Hnd as [Hxl Hnd].
  assert (Hx : g_place G !! x = Some (Listed t r)) by (apply (w_free_place _ _ H); rewrite Hl; by left).
  exists o. split; [done|]. destruct HW as [_ H1 H2 H3]. split.
  - pose proof H as [Wr Wp Wf Wn Wfp Wc Wcn Wcp Wg]. split; try done; cbn.
    + intros y. rewrite Wr. destruct (decide (y = x)) as [->|Hne]; [by rewrite lookup_insert_eq, Hx|by rewrite lookup_insert_ne].
    + intros y pl. destruct (decide (y = x)) as [->|Hne]; [rewrite lookup_insert_eq; intros [= <-]; cbn; lia|].
      rewrite lookup_insert_ne by done. apply Wp.
    + intros t' r'. case_decide as E; [done|]. apply Wf.
    + intros t' r'. by case_decide.
    + intros t' r' y. destruct (decide (y = x)) as [->|Hne].
      * rewrite lookup_insert_eq. split; [|done]. case_decide as E; [done|]. intros Hin. apply Wfp in Hin. naive_solver.
      * rewrite lookup_insert_ne, <- Wfp by done. case_decide as E; [|done]. destruct E as [-> ->]. rewrite Hl, elem_of_cons. naive_solver.
    + intros r' y. rewrite Wcp. destruct (decide (y = x)) as [->|Hne]; [rewrite lookup_insert_eq; naive_solver|by rewrite lookup_insert_ne].
  - intros r' Hr'. cbn. rewrite H1, (count_insert _ _ _ _ _ Hx) by done. unfold live_at. cbn.
    destruct t as [|t]; [lia|]. cbn. lia.
  - intros r' Hr'. cbn. rewrite decide_False by lia. by apply H2.
  - cbn. rewrite H3, (count_insert _ _ _ _ _ Hx). unfold live_at. cbn. destruct t as [|t]; [lia|]. cbn. lia.
Qed.
