(* ===== verification/HeapMoves.v ===== *)
(** * Moving objects between lists and chunks (HeapInvariant.v)

    Chunks that are taken and returned, new blocks, and freed objects. *)
From stdpp Require Import base list numbers gmap sorting.
From S2P Require Import Prelude Machine Layout Heap HeapLists HeapInvariant.
Local Open Scope Z_scope.

Lemma live_at_listed t r r' : live_at r' (Listed t r) = (negb (t =? 0)%nat && (r =? r')%nat).
Proof. done. Qed.

(** A thread takes the first chunk. *)
Lemma take_chunk_wf h G t r c cs :
  wf h G → g_free G t r = [] → g_chunks G r = c :: cs → (1 ≤ t)%nat → (r ≤ 4)%nat →
  let p := v_chunks (v_ofs h r) in
  ∃ o, v_memory h !! p = Some o ∧ p ∈ c ∧
    wf (set_head t r p (update_of r (add_allocated (v_cyclic o)) (update_of r (set_chunks (v_previous o)) h)))
       (with_place (move c (Listed t r) (g_place G)) (with_free t r c (with_chunks r cs G))).
Proof.
  intros [H H1 H2 H3] Hl Hcs Ht Hr p. unfold p in *. clear p. pose proof H as [Wr Wp Wf Wn Wfp Wc Wcn Wcp Wg]. pose proof (w_chunks _ _ H r) as Hc. pose proof (w_chunks_nodup _ _ H r) as Hnd.
  rewrite Hcs in Hc, Hnd. destruct Hc as (Hc & Hne & o & Ho & Hcyc & Hrest). cbn in Hnd.
  apply NoDup_app in Hnd as (Hnd & Hdis & Hnd'). exists o. split; [done|].
  assert (Hpc : v_chunks (v_ofs h r) ∈ c) by (destruct c as [|x c]; [done|]; rewrite (chain_head _ _ _ _ Hc); by left). split; [done|].
  assert (Hplace : ∀ x, x ∈ c → g_place G !! x = Some (Chunk r)).
  { intros x Hx. apply (w_chunks_place _ _ H). rewrite Hcs. cbn. apply elem_of_app. by left. }
  split; cbn.
  - split; cbn; try done.
    + intros y. rewrite move_lookup. case_decide as Hy; [|apply Wr]. unfold ranks in *. cbn. by rewrite Wr, (Hplace y Hy).
    + intros y pl. rewrite move_lookup. case_decide; [by intros [= <-]|]. apply Wp.
    + intros t' r'. case_decide as E; [done|]. apply Wf.
    + intros t' r'. by case_decide.
    + intros t' r' y. rewrite move_lookup. case_decide as E.
      * destruct E as [-> ->]. case_decide as Hy; [done|]. rewrite <- Wfp, Hl. split; [done|]. intros Hin. by apply not_elem_of_nil in Hin.
      * rewrite Wfp. case_decide as Hy; [|done]. rewrite (Hplace y Hy). naive_solver.
    + intros r'. repeat case_decide; try done; subst; done.
    + intros r'. by case_decide.
    + intros r' y. rewrite move_lookup. case_decide as E.
      * subst r'. case_decide as Hy; [split; [|done]; intros Hin; by destruct (Hdis y Hy)|].
        rewrite <- Wcp, Hcs. cbn. rewrite elem_of_app. tauto.
      * rewrite Wcp. case_decide as Hy; [|done]. rewrite (Hplace y Hy). naive_solver.
  - intros r' Hr'. rewrite (count_move _ _ _ (Chunk r)) by done. rewrite live_at_listed. specialize (H1 r' Hr').
    unfold of_live in *. destruct t as [|t]; [lia|]. cbn. destruct (decide (r' = r)) as [->|Hne'].
    + cbn. rewrite decide_True, Nat.eqb_refl by done. cbn. unfold of_live in H1. lia.
    + rewrite (proj2 (Nat.eqb_neq r r')) by done. cbn. rewrite H1. lia.
  - intros r' Hr'. rewrite (decide_False (P := 0%nat = t ∧ r' = r)) by lia. rewrite <- H2 by done. by repeat case_decide; subst.
  - rewrite (count_move _ _ _ (Chunk r)) by done. rewrite live_at_listed.
    rewrite (proj2 (Nat.eqb_neq r RANKX)) by (intros ->; unfold RANKX in Hr; vm_compute in Hr; lia). rewrite andb_false_r. cbn. rewrite H3. lia.
Qed.

(** Fresh memory, as [mmap] gives it. *)
Definition fresh_map (f_map : gmap Z Z → Z → Z) : Prop :=
  ∀ blocks n, 0 < n → 0 < f_map blocks n ∧
    ∀ b m, blocks !! b = Some m → f_map blocks n + n ≤ b ∨ b + m ≤ f_map blocks n.

(** There is no object in a fresh block yet. *)
Lemma fresh_block h G b n x :
  lists_ok h G → (∀ b' m, v_blocks h !! b' = Some m → b + n ≤ b' ∨ b' + m ≤ b) → b ≤ x < b + n →
  g_place G !! x = None ∧ v_memory h !! x = None.
Proof.
  intros H Hfresh Hx. assert (Hr : ranks h !! x = None).
  { destruct (ranks h !! x) as [k|] eqn:E; [|done].
    apply (geo_object _ _ (w_geometry _ _ H)) in E as (b' & n' & Hb' & Hk' & Hin).
    destruct (geo_block _ _ (w_geometry _ _ H) _ _ Hb') as (_ & Hn' & k2 & Hk2 & Hrk). assert (k2 = k) as -> by congruence.
    pose proof (in_block_end _ _ _ _ Hn' Hrk Hin). pose proof (stride_pos k n' Hn'). destruct (Hfresh _ _ Hb'); lia. }
  split.
  - pose proof (w_rank _ _ H x) as E. rewrite Hr in E. by destruct (g_place G !! x).
  - unfold ranks in Hr. rewrite lookup_fmap in Hr. by destruct (v_memory h !! x).
Qed.

Lemma in_block_objects x b r :
  (r ≤ 4)%nat → in_block x b (size_of r * Z.of_nat (A_size r)) (Z.of_nat r) ↔ x ∈ block_objects (A_size r) b (size_of r).
Proof.
  intros Hr. rewrite block_objects_in. unfold in_block, stride. rewrite (proj2 (Z.leb_le (Z.of_nat r) 4)) by lia.
  rewrite Nat2Z.id. pose proof (size_of_pos r). split; intros (i & ?); exists i; split_and!; nia.
Qed.

(** A thread gets the objects of a new block. *)
Lemma grow_wf f_map h G t r :
  fresh_map f_map → wf h G → g_free G t r = [] → (1 ≤ t)%nat → (r ≤ 4)%nat →
  ∃ p h1, f_grow f_map r h = Ok (p, h1) ∧ ∃ o, v_memory h1 !! p = Some o ∧ ∃ G' l,
    g_free G' t r = p :: l ∧ g_place G' = move (p :: l) (Listed t r) (g_place G) ∧ (∀ x, x ∈ p :: l → g_place G !! x = None) ∧
    wf (set_head t r p (update_of r (add_allocated (v_cyclic o)) h1)) G'.
Proof.
  intros Hmap [H H1 H2 H3] Hl Ht Hr. pose proof H as [Wr Wp Wf Wn Wfp Wc Wcn Wcp Wg].
  set (n := size_of r * Z.of_nat (A_size r)). pose proof (size_of_pos r) as Hs. pose proof (A_size_pos r) as HA.
  assert (Hn : 0 < n) by (subst n; nia). destruct (Hmap (v_blocks h) n Hn) as [Hb Hfresh]. set (b := f_map (v_blocks h) n) in *.
  set (objs := block_objects (A_size r) b (size_of r)).
  destruct (grow_objects_chain (A_size r) b (size_of r) (Z.of_nat r) (v_memory h) Hs Hb HA) as [Hc Hrank].
  set (m := grow_objects (A_size r) b (size_of r) (Z.of_nat r) (v_memory h)) in *. fold objs in Hc, Hrank.
  pose proof (block_objects_nodup (A_size r) b (size_of r) Hs) as Hnd. fold objs in Hnd.
  assert (Hlen : length objs = A_size r) by apply length_block_objects.
  assert (Hobjs : ∃ l, objs = b :: l).
  { subst objs. destruct (A_size r) as [|k]; [lia|]. rewrite block_objects_cons. by eexists. }
  destruct Hobjs as [l Hobjs]. destruct (Hrank b) as (o & Ho & Hor); [rewrite Hobjs; by left|].
  assert (Hin : ∀ x, x ∈ objs → b ≤ x < b + n).
  { intros x (i & Hi & ->)%block_objects_in. subst n. nia. }
  assert (Hnone : ∀ x, x ∈ objs → g_place G !! x = None ∧ v_memory h !! x = None).
  { intros x Hx. apply (fresh_block h G b n x H Hfresh). by apply Hin. }
  assert (Hother : ∀ x, x ∉ objs → m !! x = v_memory h !! x) by (intros x Hx; by apply grow_objects_other).
  set (m' := <[b := set_cyclic (Z.of_nat (A_size r)) o]> m).
  assert (Hbin : b ∈ objs) by (rewrite Hobjs; by left).
  assert (Hrm : ∀ x, v_rank <$> m' !! x = if decide (x ∈ objs) then Some (Z.of_nat r) else ranks h !! x).
  { intros x. subst m'. destruct (decide (x = b)) as [->|Hne].
    - rewrite lookup_insert_eq, decide_True by done. cbn. by rewrite Hor.
    - rewrite lookup_insert_ne by done. case_decide as Hx; [by destruct (Hrank x Hx) as (o' & -> & <-)|].
      rewrite Hother by done. unfold ranks. by rewrite lookup_fmap. }
  eexists b, _. split.
  { unfold f_grow. fold n b m. unfold update, get. cbn [set_memory v_memory]. rewrite Ho. cbn. reflexivity. }
  eexists. split; [cbn; apply lookup_insert_eq|].
  exists (with_place (move objs (Listed t r) (g_place G)) (with_free t r objs G)), l. rewrite <- Hobjs.
  split_and!; [cbn; by rewrite decide_True|done|intros x Hx; by apply Hnone|].
  assert (Hc' : chain m' b objs).
  { subst m'. rewrite Hobjs in *. destruct Hc as (_ & Hb0 & o' & Ho' & Hc). assert (o' = o) as -> by congruence.
    split_and!; [done|done|]. eexists. rewrite lookup_insert_eq. split; [done|]. cbn. revert Hc. apply chain_ext.
    intros x Hx. apply lookup_insert_ne. intros <-. by apply NoDup_cons in Hnd as [? _]. }
  assert (Hkeep : ∀ x, x ∉ objs → m' !! x = v_memory h !! x).
  { intros x Hx. subst m'. rewrite lookup_insert_ne by (by intros ->). by apply Hother. }
  assert (Hcount : ∀ r', count (live_at r') (move objs (Listed t r) (g_place G)) =
      count (live_at r') (g_place G) + if decide (r' = r) then Z.of_nat (A_size r) else 0).
  { intros r'. rewrite count_move_fresh; [|done|intros x Hx; by apply Hnone].
    rewrite Hlen, live_at_listed. destruct t as [|t]; [lia|]. cbn.
    case_decide as E; [subst; rewrite Nat.eqb_refl; cbn; lia|]. rewrite (proj2 (Nat.eqb_neq r r')) by done. cbn. lia. }
  split; cbn.
  - split; cbn.
    + intros x. unfold ranks. cbn. rewrite lookup_fmap, Hrm, move_lookup. case_decide; [done|]. apply Wr.
    + intros x pl. rewrite move_lookup. case_decide; [by intros [= <-]|]. intros Hx. specialize (Wp x pl Hx).
      destruct pl; try done. destruct Wp as [? [?|[? Hbx]]]; split; [done|by left|done|right]. split; [done|].
      rewrite lookup_insert_ne; [done|]. intros <-. destruct (Hnone b Hbin). congruence.
    + intros t' r'. case_decide as E; [exact Hc'|]. refine (chain_ext _ _ _ _ _ (Wf t' r')). intros x Hx. apply Hkeep.
      intros Hx'. apply Wfp in Hx. destruct (Hnone x Hx'). congruence.
    + intros t' r'. by case_decide.
    + intros t' r' x. rewrite move_lookup. case_decide as E.
      * destruct E as [-> ->]. case_decide as Hx; [done|]. rewrite <- Wfp, Hl. split; [done|]. intros Hi. by apply not_elem_of_nil in Hi.
      * rewrite Wfp. case_decide as Hx; [|done]. destruct (Hnone x Hx) as [-> _]. naive_solver.
    + intros r'. assert (Hch : chunk_chain m' (v_chunks (v_ofs h r')) (g_chunks G r')).
      { refine (chunk_chain_ext _ _ _ _ _ (Wc r')). intros x Hx. apply Hkeep. intros Hx'. apply Wcp in Hx.
        destruct (Hnone x Hx'). congruence. }
      repeat case_decide; subst; done.
    + done.
    + intros r' x. rewrite Wcp, move_lookup. case_decide as Hx; [|done]. destruct (Hnone x Hx) as [-> _]. naive_solver.
    + apply (geometry_insert (ranks h) _ _ _ _ (Z.of_nat r)); try done.
      * left. rewrite Nat2Z.id. lia.
      * intros x Hx. unfold ranks. cbn. rewrite lookup_fmap, Hrm, decide_True; [done|]. by apply in_block_objects.
      * intros x. unfold ranks at 1. cbn. rewrite lookup_fmap, Hrm. case_decide; [left; by apply in_block_objects|by right].
  - intros r' Hr'. rewrite Hcount. specialize (H1 r' Hr'). unfold of_live in *. destruct (decide (r' = r)) as [->|Hne'].
    + cbn. rewrite decide_True by done. cbn. lia.
    + rewrite H1. lia.
  - intros r' Hr'. rewrite (decide_False (P := 0%nat = t ∧ r' = r)) by lia. rewrite <- H2 by done. by repeat case_decide; subst.
  - rewrite Hcount, decide_False; [lia|]. intros <-. unfold RANKX in Hr. vm_compute in Hr. lia.
Qed.

(** ** Allocation *)

(** The objects in use, with the sizes asked for. *)
Definition used (G : t_lists) : gmap Z Z :=
  omap (λ pl, match pl with Used _ n => Some n | _ => None end) (g_place G).

Lemma used_lookup G x n : used G !! x = Some n ↔ ∃ r, g_place G !! x = Some (Used r n).
Proof.
  unfold used. rewrite lookup_omap. destruct (g_place G !! x) as [[]|]; cbn; naive_solver.
Qed.

Lemma used_none G x pl : g_place G !! x = Some pl → match pl with Used _ _ => False | _ => True end → used G !! x = None.
Proof. intros Hx Hpl. unfold used. rewrite lookup_omap, Hx. by destruct pl. Qed.

Lemma used_insert G G' x r n :
  g_place G' = <[x := Used r n]> (g_place G) → used G' = <[x := n]> (used G).
Proof.
  intros E. unfold used. rewrite E. apply map_eq. intros y. rewrite lookup_omap. destruct (decide (y = x)) as [->|Hne].
  - by rewrite !lookup_insert_eq.
  - by rewrite !lookup_insert_ne, lookup_omap.
Qed.

Lemma used_move G G' l pl :
  g_place G' = move l pl (g_place G) → match pl with Used _ _ => False | _ => True end →
  (∀ x, x ∈ l → used G !! x = None) → used G' = used G.
Proof.
  intros E Hpl Hl. unfold used in *. rewrite E. apply map_eq. intros y. rewrite !lookup_omap, move_lookup.
  case_decide as Hy; [|done]. specialize (Hl y Hy). rewrite lookup_omap in Hl. rewrite Hl. by destruct pl.
Qed.

Lemma memory_get p h o : v_memory h !! p = Some o → get p h = Ok o.
Proof. intros Ho. unfold get. by rewrite Ho. Qed.

Lemma set_head_twice t r p q h : same (set_head t r q (set_head t r p h)) (set_head t r q h).
Proof. split; try done. intros t' r'. cbn. by case_decide. Qed.

Section Allocate.
Context (f_map : gmap Z Z → Z → Z) (Hmap : fresh_map f_map).

(** [x] was not in use, and is now. *)
Definition allocated (h : t_heap) (G : t_lists) (n : Z) (r : outcome (Z * t_heap)) : Prop :=
  ∃ x h' G', r = Ok (x, h') ∧ wf h' G' ∧ used G !! x = None ∧ used G' = <[x := n]> (used G) ∧
    ∃ r, g_place G' !! x = Some (Used r n).

Lemma pop_allocated h G t r x l n :
  wf h G → g_free G t r = x :: l → (1 ≤ t)%nat → (r ≤ 4)%nat → 0 < n ≤ size_of r →
  allocated h G n (o ← get x h; Ok (x, set_head t r (v_next o) h)).
Proof.
  intros HW Hl Ht Hr Hn. destruct (pop_wf h G t r x l n HW Hl Ht Hr Hn) as (o & Ho & HW').
  unfold get. rewrite Ho. cbn. eexists x, _, _. split; [done|]. split; [exact HW'|]. split_and!.
  - apply (used_none _ _ (Listed t r)); [|done]. apply (w_free_place _ _ (w_lists _ _ HW)). rewrite Hl. by left.
  - by apply (used_insert _ _ _ r).
  - exists r. cbn. apply lookup_insert_eq.
Qed.

Lemma allocated_same h G G1 h1 n x h2 h3 :
  allocated h1 G1 n (Ok (x, h2)) → same h2 h3 → used G1 = used G → allocated h G n (Ok (x, h3)).
Proof.
  intros (x' & h' & G' & [= <- <-] & HW & Hu & Hu' & Hp) Hs E. exists x, h3, G'. rewrite <- E.
  split_and!; [done|by apply (wf_same h2)|done|done|done].
Qed.

(** The list of the thread was filled with [c], and its first object is taken. *)
Lemma fill_allocated h G h1 G1 t r p c n :
  wf (set_head t r p h1) G1 → g_free G1 t r = c → p ∈ c → used G1 = used G → (1 ≤ t)%nat → (r ≤ 4)%nat → 0 < n ≤ size_of r →
  allocated h G n (o ← get p h1; Ok (p, set_head t r (v_next o) h1)).
Proof.
  intros HW Hc Hp Hu Ht Hr Hn. destruct c as [|x l]; [by apply not_elem_of_nil in Hp|].
  pose proof (w_free _ _ (w_lists _ _ HW) t r) as Hch. rewrite Hc in Hch. cbn in Hch.
  rewrite decide_True in Hch by done. destruct Hch as (-> & _).
  pose proof (pop_allocated _ _ t r x l n HW Hc Ht Hr Hn) as Hpop. unfold get in *. cbn [set_head v_memory] in Hpop.
  destruct (v_memory h1 !! x) as [o|]; cbn in *.
  - apply (allocated_same _ _ _ _ _ _ _ _ Hpop); [apply set_head_twice|done].
  - by destruct Hpop as (? & ? & ? & ? & _).
Qed.

Lemma allocate_rank_ok h G t r n :
  wf h G → (1 ≤ t)%nat → (r ≤ 4)%nat → 0 < n ≤ size_of r → allocated h G n (allocate_rank f_map t r h).
Proof.
  intros HW Ht Hr Hn. pose proof (w_lists _ _ HW) as H. unfold allocate_rank.
  rewrite (chain_zero _ _ _ (w_free _ _ H t r)). destruct (g_free G t r) as [|x l] eqn:Hl.
  - cbn [bool_decide]. rewrite bool_decide_true by done. unfold f_allocate_from, allocate_chunk.
    rewrite (chunk_chain_zero _ _ _ (w_chunks _ _ H r)). destruct (g_chunks G r) as [|c cs] eqn:Hcs.
    + rewrite bool_decide_true by done.
      destruct (grow_wf f_map h G t r Hmap HW Hl Ht Hr) as (p & h1 & Hgrow & o & Ho & G' & l & Hl' & HP & Hnone & HW').
      rewrite Hgrow. cbn [mbind outcome_bind]. rewrite (memory_get _ _ _ Ho). cbn [mbind outcome_bind].
      apply (fill_allocated _ _ _ G' _ _ _ (p :: l)); try done; [by left|].
      apply (used_move _ _ _ _ HP); [done|]. intros x Hx. unfold used. by rewrite lookup_omap, (Hnone x Hx).
    + rewrite bool_decide_false by done.
      destruct (take_chunk_wf h G t r c cs HW Hl Hcs Ht Hr) as (o & Ho & Hp & HW').
      rewrite (memory_get _ _ _ Ho). cbn [mbind outcome_bind]. rewrite (memory_get _ _ o) by done. cbn [mbind outcome_bind].
      refine (fill_allocated _ _ _ _ _ _ _ c _ HW' _ _ _ _ _ _); try done; [cbn; by rewrite decide_True|].
      apply (used_move _ _ c (Listed t r)); [done|done|]. intros x Hx. apply (used_none _ _ (Chunk r)); [|done].
      apply (w_chunks_place _ _ H). rewrite Hcs. cbn. apply elem_of_app. by left.
  - rewrite bool_decide_false by done. pose proof (w_free _ _ H t r) as Hc. rewrite Hl in Hc. rewrite (chain_head _ _ _ _ Hc).
    by apply pop_allocated with l.
Qed.
End Allocate.
