(* ===== verification/HeapProgram.v ===== *)
(** * Programs that allocate (Heap.v)

    Freed objects go to the collector's lists, whole lists become chunks, and
    large objects have blocks of their own; the allocator under any sequence of
    these operations. *)
From stdpp Require Import base list numbers gmap sorting.
From S2P Require Import Prelude Machine Layout Heap HeapLists HeapInvariant HeapMoves.
Local Open Scope Z_scope.

Lemma small_rank r : (r ≤ 4)%nat → (r =? RANKX)%nat = false.
Proof. intros Hr. apply Nat.eqb_neq. intros ->. unfold RANKX in Hr. vm_compute in Hr. lia. Qed.

(** ** Objects are freed *)

Lemma free_list_wf h G x r n :
  wf h G → g_place G !! x = Some (Used r n) → (r ≤ 4)%nat →
  ∃ h1, update x (set_next (v_heads h 0 r)) h = Ok h1 ∧
    wf (update_of r (λ f, set_freed (v_freed f + 1) f) (set_head 0 r x h1))
       (with_place (<[x := Listed 0 r]> (g_place G)) (with_free 0 r (x :: g_free G 0 r) G)).
Proof.
  intros [H H1 H2 H3] Hx Hr. pose proof H as [Wr Wp Wf Wn Wfp Wc Wcn Wcp Wg].
  destruct (place_get _ _ H _ _ Hx) as (o & Ho & Hro). pose proof (place_pos _ _ H _ _ Hx) as Hpos.
  unfold update. rewrite (memory_get _ _ _ Ho). cbn. eexists. split; [done|].
  set (o' := set_next (v_heads h 0 r) o). assert (Hranks : v_rank <$> <[x := o']> (v_memory h) = ranks h) by (by apply (ranks_insert h x o)).
  assert (Hxl : x ∉ g_free G 0 r) by (by apply (not_in_free h G H _ _ _ _ Hx)).
  split; cbn.
  - split; unfold ranks in *; cbn; try done.
    + intros y. rewrite Hranks. destruct (decide (y = x)) as [->|Hne]; [by rewrite lookup_insert_eq, Wr, Hx|by rewrite lookup_insert_ne].
    + intros y pl. destruct (decide (y = x)) as [->|Hne]; [rewrite lookup_insert_eq; by intros [= <-]|].
      rewrite lookup_insert_ne by done. apply Wp.
    + intros t' r'. case_decide as E.
      * split_and!; [done|lia|]. exists o'. rewrite lookup_insert_eq. split; [done|]. subst o'. cbn. by apply free_insert.
      * apply free_insert; [done|]. by apply (not_in_free h G H _ _ _ _ Hx).
    + intros t' r'. case_decide; [by apply NoDup_cons|done].
    + intros t' r' y. destruct (decide (y = x)) as [->|Hne].
      * rewrite lookup_insert_eq. case_decide as E; [destruct E as [-> ->]; split; [done|by left]|].
        rewrite Wfp, Hx. naive_solver.
      * rewrite lookup_insert_ne by done. case_decide as E; [|apply Wfp]. destruct E as [-> ->].
        rewrite elem_of_cons, Wfp. naive_solver.
    + intros r'. assert (Hc : chunk_chain (<[x := o']> (v_memory h)) (v_chunks (v_ofs h r')) (g_chunks G r')).
      { apply chunks_insert; [done|]. by apply (not_in_chunks h G H _ _ _ Hx). }
      repeat case_decide; subst; done.
    + intros r' y. rewrite Wcp. destruct (decide (y = x)) as [->|Hne]; [rewrite lookup_insert_eq, Hx; naive_solver|by rewrite lookup_insert_ne].
    + by rewrite Hranks.
  - intros r' Hr'. rewrite (count_insert _ _ _ _ _ Hx). specialize (H1 r' Hr'). unfold live_at, of_live in *. cbn.
    destruct (decide (r' = r)) as [->|Hne].
    + rewrite Nat.eqb_refl. cbn. lia.
    + rewrite (proj2 (Nat.eqb_neq r r')) by done. cbn. rewrite H1. lia.
  - intros r' Hr'. specialize (H2 r' Hr'). destruct (decide (r' = r)) as [->|Hne].
    + rewrite decide_True by done. cbn. lia.
    + rewrite decide_False by naive_solver. done.
  - rewrite (count_insert _ _ _ _ _ Hx). unfold live_at in *. cbn. rewrite small_rank by done. cbn. lia.
Qed.

(** A list becomes a chunk. *)
Lemma return_list_ok h G t r :
  lists_ok h G → g_free G t r ≠ [] → (r ≤ 4)%nat →
  let n := Z.of_nat (length (g_free G t r)) in
  ∃ h', return_list t r n h = Ok h' ∧
    lists_ok h' (with_place (move (g_free G t r) (Chunk r) (g_place G)) (with_free t r [] (with_chunks r (g_free G t r :: g_chunks G r) G))) ∧
    v_ofs h' r = add_returned n (set_chunks (v_heads h t r) (v_ofs h r)) ∧ (∀ r', r' ≠ r → v_ofs h' r' = v_ofs h r') ∧
    v_large_allocated h' = v_large_allocated h ∧ v_large_freed h' = v_large_freed h.
Proof.
  intros H Hne Hr n. pose proof H as [Wr Wp Wf Wn Wfp Wc Wcn Wcp Wg]. unfold n in *. clear n.
  destruct (g_free G t r) as [|x l] eqn:Hl; [done|]. pose proof (Wf t r) as Hc. pose proof (Wn t r) as Hnd. rewrite Hl in Hc, Hnd.
  destruct Hc as (Hp & Hx0 & o & Ho & Hc). apply NoDup_cons in Hnd as [Hxl Hnd]. set (n := Z.of_nat (length (x :: l))).
  set (o' := set_previous (v_chunks (v_ofs h r)) (set_cyclic n o)).
  assert (Hplace : ∀ y, y ∈ x :: l → g_place G !! y = Some (Listed t r)) by (intros y; rewrite <- Hl; apply Wfp).
  pose proof (Hplace x ltac:(by left)) as Hx.
  eexists. split.
  { unfold return_list, update. rewrite Hp, (memory_get _ _ _ Ho). cbn [mbind outcome_bind]. unfold get. cbn [set_memory v_memory].
    rewrite lookup_insert_eq. cbn. rewrite insert_insert_eq. reflexivity. }
  split; [|split_and!; cbn; try done; [by rewrite !decide_True, Hp|intros r' Hr'; by rewrite !decide_False]].
  assert (Hranks : v_rank <$> <[x := o']> (v_memory h) = ranks h) by (by apply (ranks_insert h x o)).
  split; unfold ranks in *; cbn; fold o'; try done.
  - intros y. rewrite Hranks, move_lookup. case_decide as Hy; [by rewrite Wr, (Hplace y Hy)|apply Wr].
  - intros y pl. rewrite move_lookup. case_decide; [by intros [= <-]|apply Wp].
  - intros t' r'. case_decide as E; [done|]. apply free_insert; [done|].
    apply (not_in_free h G H _ _ _ _ Hx). naive_solver.
  - intros t' r'. case_decide; [by apply NoDup_nil|done].
  - intros t' r' y. rewrite move_lookup. case_decide as E.
    + destruct E as [-> ->]. split; [intros Hy; by apply not_elem_of_nil in Hy|]. case_decide as Hy; [done|].
      intros Hin. apply Wfp in Hin. by rewrite Hl in Hin.
    + rewrite Wfp. case_decide as Hy; [|done]. rewrite (Hplace y Hy). naive_solver.
  - intros r'. destruct (decide (r' = r)) as [->|Hr'].
    + rewrite !decide_True by done. cbn. split_and!; [done|done| |done|].
      * exists o'. rewrite lookup_insert_eq. split; [done|]. revert Hc. apply chain_ext. intros y Hy. apply lookup_insert_ne. by intros ->.
      * exists o'. rewrite lookup_insert_eq. split_and!; [done|done|]. subst o'. cbn. apply chunks_insert; [done|].
        by apply (not_in_chunks h G H _ _ _ Hx).
    + apply chunks_insert; [done|]. by apply (not_in_chunks h G H _ _ _ Hx).
  - intros r'. case_decide as E; [subst r'|done]. change (NoDup ((x :: l) ++ concat (g_chunks G r))). apply NoDup_app. split_and!; [by apply NoDup_cons| |done].
    intros y Hy Hy'. apply Wcp in Hy'. rewrite (Hplace y Hy) in Hy'. congruence.
  - intros r' y. rewrite move_lookup. case_decide as E.
    + subst r'. change (concat ((x :: l) :: g_chunks G r)) with ((x :: l) ++ concat (g_chunks G r)). rewrite elem_of_app, Wcp.
      case_decide as Hy; [split; [done|by left]|]. tauto.
    + rewrite Wcp. case_decide as Hy; [|done]. rewrite (Hplace y Hy). naive_solver.
  - by rewrite Hranks.
Qed.

Lemma live_at_used r r' n : live_at r' (Used r n) = (r =? r')%nat.
Proof. done. Qed.

Lemma chunked_live r r' : live_at r' (Chunk r) = false.
Proof. done. Qed.

(** A list that becomes a chunk, with the counters of a thread or, for the
    thread 0, of the collector. *)
Lemma return_wf h G t r :
  wf h G → g_free G t r ≠ [] → (r ≤ 4)%nat → ∃ h' G',
    return_list t r (Z.of_nat (length (g_free G t r))) h = Ok h' ∧ used G' = used G ∧
    wf (if (t =? 0)%nat then update_of r (set_freed 0) h' else h') G'.
Proof.
  intros [H H1 H2 H3] Hne Hr. destruct (return_list_ok h G t r H Hne Hr) as (h' & Hret & H' & Hof & Hofs & Hla & Hlf).
  set (l := g_free G t r) in *.
  assert (Hplace : ∀ y, y ∈ l → g_place G !! y = Some (Listed t r)) by (intros y; apply (w_free_place _ _ H)).
  eexists h', (with_place _ _). split; [done|]. split.
  { apply (used_move _ _ l (Chunk r)); [reflexivity|done|]. intros x Hx. apply (used_none _ _ (Listed t r)); [by apply Hplace|done]. }
  assert (Hcount : ∀ r', count (live_at r') (move l (Chunk r) (g_place G)) =
      count (live_at r') (g_place G) - if decide (t ≠ 0%nat ∧ r' = r) then Z.of_nat (length l) else 0).
  { intros r'. rewrite (count_move _ _ _ (Listed t r)); [|apply (w_free_nodup _ _ H)|done]. rewrite live_at_listed, chunked_live.
    destruct t as [|t]; cbn; [rewrite decide_False by (intros [? ?]; lia); lia|].
    destruct (decide (r' = r)) as [->|Hn]; [rewrite Nat.eqb_refl, decide_True by done; cbn; lia|].
    rewrite (proj2 (Nat.eqb_neq r r')), decide_False by (first [done | intros [? ?]; lia]). cbn. lia. }
  destruct (Nat.eqb_spec t 0) as [->|Ht].
  - split; cbn.
    + destruct H' as [Wr Wp Wf Wn Wfp Wc Wcn Wcp Wg]. split; try done. intros r'. specialize (Wc r'). revert Wc. cbn.
      destruct (decide (r' = r)) as [->|Hn]; done.
    + intros r' Hr'. rewrite Hcount, (decide_False (P := 0%nat ≠ 0%nat ∧ _)) by (by intros [? _]). specialize (H1 r' Hr'). specialize (H2 r' Hr').
      unfold of_live in *. destruct (decide (r' = r)) as [->|Hn]; [|rewrite Hofs by done; lia]. rewrite Hof. subst l. cbn. lia.
    + intros r' Hr'. specialize (H2 r' Hr'). destruct (decide (r' = r)) as [->|Hn]; cbn; [by rewrite decide_True|].
      rewrite decide_False by (by intros [_ ?]). by rewrite Hofs.
    + rewrite Hcount, decide_False by (by intros [? _]). lia.
  - split; [done|..]; cbn.
    + intros r' Hr'. rewrite Hcount. specialize (H1 r' Hr'). unfold of_live in *. destruct (decide (r' = r)) as [->|Hn].
      * rewrite Hof, decide_True by done. cbn. lia.
      * rewrite Hofs by done. rewrite decide_False by (by intros [_ ?]). lia.
    + intros r' Hr'. rewrite decide_False by (by intros [? _]). specialize (H2 r' Hr').
      destruct (decide (r' = r)) as [->|Hn]; [by rewrite Hof|by rewrite Hofs].
    + rewrite Hcount, decide_False; [lia|]. intros [_ E]. pose proof (small_rank r Hr) as Hs. rewrite <- E, Nat.eqb_refl in Hs. done.
Qed.

(** ** The operations *)

(** The objects in use stay as they are. *)
Definition kept (G : t_lists) (r : outcome t_heap) : Prop := ∃ h' G', r = Ok h' ∧ wf h' G' ∧ used G' = used G.

Lemma kept_ok h G : wf h G → kept G (Ok h).
Proof. intros HW. by exists h, G. Qed.

Lemma kept_bind G m f : kept G m → (∀ h' G', wf h' G' → used G' = used G → kept G' (f h')) → kept G (m ≫= f).
Proof.
  intros (h' & G' & -> & HW & E) Hf. destruct (Hf h' G' HW E) as (h2 & G2 & Hf' & HW2 & E2).
  exists h2, G2. cbn. by rewrite E2.
Qed.

(** The objects of a list are all in memory. *)
Lemma free_length h G t r : lists_ok h G → (length (g_free G t r) ≤ size (v_memory h))%nat.
Proof.
  intros H. pose proof (w_free_nodup _ _ H t r) as Hnd. rewrite <- (size_list_to_set (C := gset Z)) by done.
  rewrite <- (size_dom (D := gset Z) (v_memory h)). apply subseteq_size. intros x Hx. apply elem_of_list_to_set in Hx.
  apply (w_free_place _ _ H) in Hx. apply elem_of_dom. destruct (place_get _ _ H _ _ Hx) as (o & Ho & _). by exists o.
Qed.

Lemma return_rank_ok h G t r : wf h G → (1 ≤ t)%nat → (r ≤ 4)%nat → kept G (return_rank t r h).
Proof.
  intros HW Ht Hr. pose proof (w_lists _ _ HW) as H. unfold return_rank.
  rewrite (list_length_ok _ _ _ _ (w_free _ _ H t r)) by (pose proof (free_length h G t r H); lia). cbn.
  destruct (g_free G t r) as [|x l] eqn:Hl; [by apply kept_ok|].
  destruct (return_wf h G t r HW) as (h' & G' & Hret & E & HW'); [by rewrite Hl|done|].
  rewrite Hl in Hret. rewrite (proj2 (Nat.eqb_neq t 0)) in HW' by lia. rewrite Hret. by exists h', G'.
Qed.

Lemma f_return_ok h G t : wf h G → (1 ≤ t)%nat → kept G (f_return t h).
Proof.
  intros HW Ht. unfold f_return. repeat (apply kept_bind; [apply return_rank_ok; (done || lia)|clear HW; intros ? ? HW _]).
  apply return_rank_ok; (done || lia).
Qed.

Lemma flush_rank_ok h G r : wf h G → 0 < v_freed (v_ofs h r) → (r ≤ 4)%nat → kept G (flush_rank 0 r h).
Proof.
  intros HW Hf Hr. rewrite (w_freed _ _ HW r Hr) in Hf. unfold flush_rank. rewrite (w_freed _ _ HW r Hr).
  destruct (return_wf h G 0 r HW) as (h' & G' & Hret & E & HW'); [by destruct (g_free G 0 r)|done|].
  rewrite Hret. cbn. by eexists _, G'.
Qed.

Lemma f_flush_ok h G : wf h G → kept G (f_flush 0 h).
Proof.
  assert (Hif : ∀ r h G, wf h G → (r ≤ 4)%nat → kept G (flush_if 0 r h)).
  { intros r h' G' HW Hr. unfold flush_if. destruct (Z.ltb_spec 0 (v_freed (v_ofs h' r))); [by apply flush_rank_ok|by apply kept_ok]. }
  intros HW. unfold f_flush. repeat (apply kept_bind; [apply Hif; (done || lia)|clear HW; intros ? ? HW _]).
  apply Hif; (done || lia).
Qed.

(** An object that is freed is not in use any more, and the others are. *)
Definition removed (G : t_lists) (x : Z) (r : outcome t_heap) : Prop :=
  ∃ h' G', r = Ok h' ∧ wf h' G' ∧ used G' = delete x (used G).

Lemma used_delete G G' x pl :
  g_place G' = <[x := pl]> (g_place G) → match pl with Used _ _ => False | _ => True end → used G' = delete x (used G).
Proof.
  intros E Hpl. unfold used. rewrite E. apply map_eq. intros y. rewrite lookup_omap. destruct (decide (y = x)) as [->|Hne].
  - rewrite lookup_insert_eq, lookup_delete_eq. by destruct pl.
  - by rewrite lookup_insert_ne, lookup_delete_ne, lookup_omap.
Qed.

Lemma free_rank_ok h G x r n : wf h G → g_place G !! x = Some (Used r n) → (r ≤ 4)%nat → removed G x (free_rank 0 r x h).
Proof.
  intros HW Hx Hr. destruct (free_list_wf h G x r n HW Hx Hr) as (h1 & Hup & HW1). unfold free_rank. rewrite Hup. cbn [mbind outcome_bind].
  set (h2 := update_of r _ _) in *. set (G1 := with_place _ _) in *.
  assert (E : used G1 = delete x (used G)) by (by apply (used_delete _ _ _ (Listed 0 r))).
  destruct (Z.leb_spec (Z.of_nat (A_size r)) (v_freed (v_ofs h2 r))) as [Hf|Hf].
  - destruct (flush_rank_ok h2 G1 r HW1) as (h' & G' & Hfl & HW' & E'); [pose proof (A_size_pos r); lia|done|].
    exists h', G'. by rewrite E'.
  - by exists h2, G1.
Qed.

(** A large object has a block of its own, which goes with it. *)
Lemma free_large_ok h G x n :
  wf h G → g_place G !! x = Some (Used RANKX n) →
  v_blocks h !! x = Some n ∧
  removed G x (Ok (count_large 0 1 (set_memory (delete x (v_memory h)) (set_blocks (delete x (v_blocks h)) h)))).
Proof.
  intros [H H1 H2 H3] Hx. pose proof H as [Wr Wp Wf Wn Wfp Wc Wcn Wcp Wg].
  assert (Hb : v_blocks h !! x = Some n).
  { destruct (Wp _ _ Hx) as [_ [[Hr _]|[_ Hb]]]; [|done]. pose proof (small_rank _ Hr) as E. by rewrite Nat.eqb_refl in E. }
  split; [done|]. assert (Hne : ∀ r, (r ≤ 4)%nat → RANKX ≠ r) by (intros r Hr E; pose proof (small_rank r Hr) as Es; by rewrite E, Nat.eqb_refl in Es).
  assert (Hother : ∀ y pl, g_place G !! y = Some pl → pl ≠ Used RANKX n → y ≠ x) by (intros y pl Hy Hpl ->; congruence).
  eexists _, (with_place (delete x (g_place G)) G). split; [done|]. split.
  - split; cbn.
    + split; cbn; try done.
      * intros y. unfold ranks. cbn. rewrite fmap_delete. destruct (decide (y = x)) as [->|Hy]; [by rewrite !lookup_delete_eq|].
        rewrite !lookup_delete_ne by done. apply Wr.
      * intros y pl [Hy Hpl]%lookup_delete_Some. specialize (Wp y pl Hpl). destruct pl; try done. cbn in *. by rewrite lookup_delete_ne.
      * intros t r. refine (chain_ext _ _ _ _ _ (Wf t r)). intros y Hy. apply lookup_delete_ne. symmetry. apply Wfp in Hy. by apply (Hother y _ Hy).
      * intros t r y. rewrite Wfp. destruct (decide (y = x)) as [->|Hy]; [rewrite lookup_delete_eq, Hx; naive_solver|by rewrite lookup_delete_ne].
      * intros r. refine (chunk_chain_ext _ _ _ _ _ (Wc r)). intros y Hy. apply lookup_delete_ne. symmetry. apply Wcp in Hy. by apply (Hother y _ Hy).
      * intros r y. rewrite Wcp. destruct (decide (y = x)) as [->|Hy]; [rewrite lookup_delete_eq, Hx; naive_solver|by rewrite lookup_delete_ne].
      * unfold ranks. cbn. rewrite fmap_delete. apply (geometry_delete _ _ _ n); [done|done|]. fold (ranks h). rewrite Wr, Hx. cbn.
        by vm_compute.
    + intros r Hr. rewrite (count_delete _ _ _ _ Hx), live_at_used, (proj2 (Nat.eqb_neq RANKX r)) by (by apply Hne). cbn. rewrite H1 by done. lia.
    + done.
    + rewrite (count_delete _ _ _ _ Hx), live_at_used, Nat.eqb_refl. cbn. lia.
  - unfold used. cbn. by rewrite omap_delete.
Qed.

Lemma f_free_ok h G x n : wf h G → used G !! x = Some n → removed G x (f_free 0 x h).
Proof.
  intros HW Hx. apply used_lookup in Hx as [r Hx]. pose proof (w_lists _ _ HW) as H.
  destruct (place_get _ _ H _ _ Hx) as (o & Ho & Hro). unfold f_free. rewrite (memory_get _ _ _ Ho). cbn [mbind outcome_bind]. rewrite Hro. cbn [place_rank].
  destruct (w_place _ _ H _ _ Hx) as [_ [[Hr _]|[-> _]]].
  - rewrite (proj2 (Z.leb_le 0 _)), (proj2 (Z.leb_le _ 4)) by lia. cbn. rewrite Nat2Z.id. by apply free_rank_ok with n.
  - change ((0 <=? Z.of_nat RANKX) && (Z.of_nat RANKX <=? 4)) with false. cbn iota.
    destruct (free_large_ok h G x n HW Hx) as [-> Hrem]. done.
Qed.
