(* ===== verification/HeapSafety.v ===== *)
(** * What the allocator promises (Heap.v)

    Any sequence of allocations, frees, returns and flushes gives objects that
    are large enough and do not overlap; [f_find] recognises exactly the
    objects of the heap, and [f_live] counts them. *)
From stdpp Require Import base list numbers gmap sorting.
From S2P Require Import Prelude Machine Layout Heap HeapLists HeapInvariant HeapMoves HeapProgram.
Local Open Scope Z_scope.

Lemma in_large_block x b n : 0 < n → in_block x b n c_RANKX ↔ x = b.
Proof.
  intros Hn. unfold in_block. change (stride c_RANKX n) with n. split; [|intros ->; exists 0; lia].
  intros (i & -> & Hi & Hin). assert (i = 0) as -> by nia. lia.
Qed.

Section Allocate.
Context (f_map : gmap Z Z → Z → Z) (Hmap : fresh_map f_map).

Lemma allocate_large_ok h G n : wf h G → size_of 4 < n < 2 ^ 64 → allocated h G n (f_allocate_large f_map n h).
Proof.
  intros [H H1 H2 H3] [Hs Hn64]. pose proof H as [Wr Wp Wf Wn Wfp Wc Wcn Wcp Wg]. pose proof (size_of_pos 4) as Hs4. assert (Hn : 0 < n) by lia.
  destruct (Hmap (v_blocks h) n Hn) as [Hx Hfresh]. unfold f_allocate_large. set (x := f_map (v_blocks h) n) in *.
  destruct (fresh_block h G x n x H Hfresh ltac:(lia)) as [HxG Hxm]. set (o := {| v_next := 0 |}).
  eexists x, _, (with_place (<[x := Used RANKX n]> (g_place G)) G). split; [done|]. split; [|split_and!].
  - assert (Hother : ∀ y pl, g_place G !! y = Some pl → x ≠ y) by (intros y pl Hy ->; congruence).
    split; cbn.
    + split; cbn; try done.
      * intros y. unfold ranks. cbn. rewrite fmap_insert. destruct (decide (y = x)) as [->|Hy]; [by rewrite !lookup_insert_eq|].
        rewrite !lookup_insert_ne by done. apply Wr.
      * intros y pl. destruct (decide (y = x)) as [->|Hy]; [rewrite lookup_insert_eq; intros [= <-]; cbn; rewrite lookup_insert_eq; naive_solver|].
        rewrite lookup_insert_ne by done. intros Hpl. specialize (Wp y pl Hpl). destruct pl; try done. cbn in *. by rewrite lookup_insert_ne.
      * intros t r. refine (chain_ext _ _ _ _ _ (Wf t r)). intros y Hy. apply lookup_insert_ne. apply Wfp in Hy. by apply (Hother y _ Hy).
      * intros t r y. rewrite Wfp. destruct (decide (y = x)) as [->|Hy]; [rewrite lookup_insert_eq, HxG; naive_solver|by rewrite lookup_insert_ne].
      * intros r. refine (chunk_chain_ext _ _ _ _ _ (Wc r)). intros y Hy. apply lookup_insert_ne. apply Wcp in Hy. by apply (Hother y _ Hy).
      * intros r y. rewrite Wcp. destruct (decide (y = x)) as [->|Hy]; [rewrite lookup_insert_eq, HxG; naive_solver|by rewrite lookup_insert_ne].
      * unfold ranks. cbn. rewrite fmap_insert. apply (geometry_insert (ranks h) _ _ _ _ c_RANKX); try done.
        -- right. split; [reflexivity|exact Hn64].
        -- intros y ->%in_large_block; [|done]. by rewrite lookup_insert_eq.
        -- intros y. rewrite in_large_block by done. destruct (decide (y = x)); [by left|right]. by rewrite lookup_insert_ne.
    + intros r Hr. rewrite count_fresh, live_at_used by done. rewrite Nat.eqb_sym, small_rank by done. cbn. rewrite H1 by done. lia.
    + done.
    + rewrite count_fresh, live_at_used, Nat.eqb_refl by done. cbn. lia.
  - unfold used. by rewrite lookup_omap, HxG.
  - by apply (used_insert _ _ _ RANKX).
  - exists RANKX. cbn. apply lookup_insert_eq.
Qed.

(** The rank is the least one that is large enough. *)
Lemma f_allocate_ok h G t n : wf h G → (1 ≤ t)%nat → 0 < n < 2 ^ 64 → allocated h G n (f_allocate f_map t n h).
Proof.
  intros HW Ht Hn. unfold f_allocate.
  assert (Hp : allocated h G n (if n <=? c_UNIT then allocate_rank f_map t 0 h else f_allocate_medium f_map t n h)).
  { unfold f_allocate_medium. destruct (Z.leb_spec n c_UNIT); [apply allocate_rank_ok; first [done | lia | split; [lia|assumption]]|].
    repeat match goal with |- context [n <=? ?s] => destruct (Z.leb_spec n s) end;
      try (apply allocate_rank_ok; first [done | lia | split; [lia|assumption]]).
    apply allocate_large_ok; [done|]. split; [assumption|lia]. }
  destruct Hp as (x & h' & G' & -> & HW' & Hu & Hu' & r & Hx). cbn [mbind outcome_bind].
  destruct (write_wf h' G' x r n (set_next 0) HW' Hx ltac:(done)) as (h2 & Hup & HW2 & _). rewrite Hup. cbn [mbind outcome_bind].
  exists x, h2, G'. split_and!; try done. by exists r.
Qed.
End Allocate.

(** ** The number of objects *)

Definition is_used (pl : t_place) : bool := match pl with Used _ _ => true | _ => false end.
Definition is_listed (pl : t_place) : bool := match pl with Listed t _ => negb (t =? 0)%nat | _ => false end.

Lemma used_size G : count is_used (g_place G) = Z.of_nat (size (used G)).
Proof.
  unfold used. generalize (g_place G). intros m. induction m as [|x pl m Hx IH] using map_ind.
  - by rewrite count_empty, omap_empty, map_size_empty.
  - rewrite count_fresh, IH by done.
    assert (Hm : ∀ f : t_place → option Z, omap f m !! x = None) by (intros f; by rewrite lookup_omap, Hx).
    destruct pl as [t r|r|r n].
    1, 2: rewrite omap_insert_None by done; rewrite delete_id by done; cbn; lia.
    rewrite (omap_insert_Some _ _ _ _ n) by done. rewrite map_size_insert_None by done. cbn. lia.
Qed.

Lemma f_live_count h G : wf h G → f_live h = Z.of_nat (size (used G)) + count is_listed (g_place G).
Proof.
  intros HW. unfold f_live. rewrite !(w_live _ _ HW) by lia. pose proof (w_large _ _ HW) as Hl.
  pose proof (count_sum live [live_at 0; live_at 1; live_at 2; live_at 3; live_at 4; live_at RANKX] (g_place G)) as H1.
  pose proof (count_sum live [is_used; is_listed] (g_place G)) as H2. cbn [foldr] in H1, H2. rewrite used_size in H2.
  assert (Hu : ∀ x pl, g_place G !! x = Some pl → one (live pl) = one (is_used pl) + (one (is_listed pl) + 0)).
  { intros x pl Hx. by destruct pl as [[]| |]. }
  specialize (H2 Hu). rewrite H1 in H2; [lia|]. intros x pl Hx.
  pose proof (w_place _ _ (w_lists _ _ HW) _ _ Hx) as Hp. unfold live_at. destruct (live pl); [|done]. cbn.
  assert (Hr : (place_rank pl ≤ 4)%nat ∨ place_rank pl = RANKX) by (destruct pl; cbn in *; naive_solver).
  destruct Hr as [Hr|Hr]; [|by rewrite Hr].
  destruct (place_rank pl) as [|[|[|[|[|]]]]]; [done..|lia].
Qed.

Lemma chain_unique m p l l' : chain m p l → chain m p l' → l = l'.
Proof.
  revert p l'. induction l as [|x l IH]; intros p [|y l']; cbn; [done| | |].
  - by intros -> (<- & ? & _).
  - by intros (-> & ? & _) ->.
  - intros (-> & _ & o & Ho & Hl) (<- & _ & o' & Ho' & Hl'). f_equal. apply (IH (v_next o)); [done|].
    by replace o with o' by congruence.
Qed.

(** The objects in the lists of the threads, each of them once. *)
Definition listed (G : t_lists) : list Z :=
  (map_to_list (filter (λ kv : Z * t_place, is_listed kv.2 = true) (g_place G))).*1.

Lemma listed_length G : count is_listed (g_place G) = Z.of_nat (length (listed G)).
Proof. unfold count, listed. by rewrite length_fmap, length_map_to_list. Qed.

Lemma elem_of_listed G x : x ∈ listed G ↔ ∃ t r, (1 ≤ t)%nat ∧ g_place G !! x = Some (Listed t r).
Proof.
  unfold listed. rewrite list_elem_of_fmap. split.
  - intros ([y pl] & -> & [Hy Hl]%elem_of_map_to_list%map_lookup_filter_Some). destruct pl as [t r| |]; try done.
    cbn in Hl. apply negb_true_iff, Nat.eqb_neq in Hl. exists t, r. split; [lia|done].
  - intros (t & r & Ht & Hx). exists (x, Listed t r). split; [done|].
    apply elem_of_map_to_list, map_lookup_filter_Some. split; [done|]. cbn. apply negb_true_iff, Nat.eqb_neq. lia.
Qed.

(** They are those that the heads of the lists lead to. *)
Lemma listed_chains h G x :
  lists_ok h G →
  x ∈ listed G ↔ ∃ t r l, (1 ≤ t)%nat ∧ chain (v_memory h) (v_heads h t r) l ∧ x ∈ l.
Proof.
  intros H. rewrite elem_of_listed. split.
  - intros (t & r & Ht & Hx%(w_free_place _ _ H)). exists t, r, (g_free G t r).
    split_and!; [done|apply (w_free _ _ H)|done].
  - intros (t & r & l & Ht & Hl & Hx). exists t, r. split; [done|]. apply (w_free_place _ _ H).
    by rewrite (chain_unique _ _ _ _ (w_free _ _ H t r) Hl).
Qed.

(** ** Looking for the object at an address *)

Lemma rank_mask k j :
  0 ≤ k ≤ 4 → Z.land j (to_size (to_size (Z.shiftl c_UNIT k) - 1)) = 0 ↔ ∃ i, j = i * size_of (Z.to_nat k).
Proof.
  intros Hk. assert (Hm : Z.land j (to_size (to_size (Z.shiftl c_UNIT k) - 1)) = j mod size_of (Z.to_nat k)).
  { assert (k = 0 ∨ k = 1 ∨ k = 2 ∨ k = 3 ∨ k = 4) as Hc by lia.
    destruct Hc as [->|[->|[->|[->| ->]]]]; [apply (Z.land_ones j 7)|apply (Z.land_ones j 8)|apply (Z.land_ones j 9)|apply (Z.land_ones j 10)|apply (Z.land_ones j 11)]; lia. }
  rewrite Hm. pose proof (size_of_pos (Z.to_nat k)) as Hs. rewrite Z.mod_divide by lia. done.
Qed.

(** The test of [f_find] in a block. *)
Lemma find_test b n k p :
  rank_ok k n → 0 < n → b ≤ p → p - b < n →
  Z.land (p - b) (to_size (to_size (Z.shiftl c_UNIT k) - 1)) = 0 ↔ in_block p b n k.
Proof.
  intros [[Hk Hn]|[-> Hn64]] Hn0 Hbp Hp.
  - rewrite rank_mask by done. unfold in_block, stride. rewrite (proj2 (Z.leb_le k 4)) by lia.
    pose proof (size_of_pos (Z.to_nat k)). split; intros (i & ?); exists i; split_and?; try lia; nia.
  - change (to_size (to_size (Z.shiftl c_UNIT c_RANKX) - 1)) with (Z.ones 64). rewrite Z.land_ones by lia.
    rewrite Z.mod_small by lia. rewrite in_large_block by done. lia.
Qed.

#[export] Instance by_address_trans : Transitive by_address.
Proof. intros [x nx] [y ny] [z nz]. unfold by_address. cbn. lia. Qed.
#[export] Instance by_address_total : Total by_address.
Proof. intros [x nx] [y ny]. unfold by_address. cbn. lia. Qed.

Lemma last_from_spec p l i :
  StronglySorted by_address l →
  match last_from p l i with
  | Some (b, n) => ((b, n) ∈ l ∧ b ≤ p ∧ ∀ b' n', (b', n') ∈ l → b' ≤ p → b' ≤ b) ∨ i = Some (b, n) ∧ (∀ b' n', (b', n') ∈ l → p < b')
  | None => i = None ∧ ∀ b' n', (b', n') ∈ l → p < b'
  end.
Proof.
  intros Hs. revert i. induction Hs as [|[b n] l Hs IH Hl]; intros i; cbn.
  - destruct i as [[b n]|]; [right|]; (split; [done|]); intros b' n' Hin; by apply not_elem_of_nil in Hin.
  - rewrite Forall_forall in Hl. assert (Hb : ∀ b' n', (b', n') ∈ l → b ≤ b') by (intros b' n' Hin; apply (Hl _ Hin)).
    assert (Hstop : p < b → ∀ b' n', (b', n') ∈ (b, n) :: l → p < b').
    { intros Hp b' n' [[= -> ->]|Hin]%elem_of_cons; [done|]. specialize (Hb _ _ Hin). lia. }
    destruct (Z.ltb_spec b p) as [Hlt|Hge]; [|destruct (Z.eqb_spec b p) as [->|Hne]].
    + specialize (IH (Some (b, n))). destruct (last_from p l (Some (b, n))) as [[b1 n1]|]; [left|by destruct IH].
      destruct IH as [(Hin & Hle & Hmax)|([= <- <-] & Hmax)].
      * split_and!; [by right|done|]. intros b' n' [[= -> ->]|Hin']%elem_of_cons Hp; [by apply (Hb _ _ Hin)|by apply (Hmax _ _ Hin')].
      * split_and!; [by left|lia|]. intros b' n' [[= -> ->]|Hin']%elem_of_cons Hp; [done|]. specialize (Hmax _ _ Hin'). lia.
    + left. split_and!; [by left|done|]. by intros b' n' _.
    + assert (Hp : p < b) by lia. destruct i as [[b1 n1]|]; [right|]; (split; [done|]); by apply Hstop.
Qed.

Lemma find_at h G p :
  wf h G → f_find p h = Ok (if decide (is_Some (v_memory h !! p)) then Some p else None).
Proof.
  intros HW. pose proof (w_lists _ _ HW) as H. pose proof (w_geometry _ _ H) as HG. unfold f_find.
  assert (Hobj : is_Some (v_memory h !! p) ↔ ∃ b n k, v_blocks h !! b = Some n ∧ ranks h !! b = Some k ∧ rank_ok k n ∧ 0 < n ∧ in_block p b n k).
  { trans (∃ k, ranks h !! p = Some k); [unfold ranks; rewrite lookup_fmap; split; [intros [o ->]; by eexists|intros [k Hk]; by destruct (v_memory h !! p)]|].
    split.
    - intros (k & (b & n & Hb & Hk & Hin)%(geo_object _ _ HG)). exists b, n, k. destruct (geo_block _ _ HG _ _ Hb) as (_ & Hn & k' & Hk' & Hr).
      assert (k' = k) as -> by congruence. by split_and!.
    - intros (b & n & k & Hb & Hk & _ & _ & Hin). exists k. apply (geo_object _ _ HG). by exists b, n. }
  set (l := merge_sort by_address (map_to_list (v_blocks h))).
  assert (Hl : ∀ b n, (b, n) ∈ l ↔ v_blocks h !! b = Some n).
  { intros b n. subst l. rewrite <- elem_of_map_to_list. by rewrite merge_sort_Permutation. }
  assert (Hs : StronglySorted by_address l).
  { apply (StronglySorted_merge_sort by_address). }
  pose proof (last_from_spec p l None Hs) as Hlast. destruct (last_from p l None) as [[b n]|].
  - destruct Hlast as [(Hin & Hle & Hmax)|[? _]]; [|done]. apply Hl in Hin.
    destruct (geo_block _ _ HG _ _ Hin) as (Hb & Hn & k & Hk & Hr).
    assert (Hblock : ∀ b' n' k', v_blocks h !! b' = Some n' → 0 < n' → rank_ok k' n' → in_block p b' n' k' → b' = b ∧ n' = n).
    { intros b' n' k' Hb' Hn' Hr' Hp. pose proof (in_block_end _ _ _ _ Hn' Hr' Hp) as Hend. pose proof (stride_pos k' n' Hn').
      pose proof (Hmax b' n' ltac:(by apply Hl) ltac:(lia)). destruct (decide (b' = b)) as [->|Hne]; [by simplify_eq|].
      destruct (geo_disjoint _ _ HG _ _ _ _ Hin Hb' ltac:(done)); lia. }
    destruct (Z.ltb_spec (p - b) n) as [Hpn|Hpn].
    + assert (Hrk : ∃ o, v_memory h !! b = Some o ∧ v_rank o = k).
      { unfold ranks in Hk. rewrite lookup_fmap in Hk. destruct (v_memory h !! b) as [o|]; [|done]. exists o. by injection Hk. }
      destruct Hrk as (o & Ho & Hok). unfold get. rewrite Ho. cbn [mbind outcome_bind]. rewrite Hok. f_equal.
      pose proof (find_test b n k p Hr Hn Hle Hpn) as Ht. case_decide as E.
      * apply Hobj in E as (b' & n' & k' & Hb' & Hk' & Hr' & Hn' & Hp). destruct (Hblock _ _ _ Hb' Hn' Hr' Hp) as [-> ->].
        assert (k' = k) as -> by congruence. by rewrite (proj2 (Z.eqb_eq _ 0)) by (by apply Ht).
      * destruct (Z.eqb_spec (Z.land (p - b) (to_size (to_size (Z.shiftl c_UNIT k) - 1))) 0) as [Ez|_]; [|done].
        exfalso. apply E, Hobj. exists b, n, k. by apply Ht in Ez.
    + rewrite decide_False; [done|]. intros E. apply Hobj in E as (b' & n' & k' & Hb' & Hk' & Hr' & Hn' & Hp).
      destruct (Hblock _ _ _ Hb' Hn' Hr' Hp) as [-> ->]. pose proof (in_block_end _ _ _ _ Hn Hr' Hp). pose proof (stride_pos k' n Hn). lia.
  - destruct Hlast as [_ Hmax]. rewrite decide_False; [done|]. intros E.
    apply Hobj in E as (b' & n' & k' & Hb' & Hk' & Hr' & Hn' & Hp). pose proof (in_block_end _ _ _ _ Hn' Hr' Hp).
    apply Hl in Hb'. specialize (Hmax _ _ Hb'). lia.
Qed.

(** ** Programs *)

Inductive t_operation :=
| Allocate (t : nat) (n : Z)
| Free (x : Z)
| Write (x next previous cyclic : Z)
| Return (t : nat)
| Flush.

(** The thread 0 is the collector: the others allocate, and it frees what
    they use.  [live] has the objects in use with their sizes. *)
Definition apply_operation (f_map : gmap Z Z → Z → Z) (op : t_operation) (s : t_heap * gmap Z Z) : outcome (t_heap * gmap Z Z) :=
  let '(h, live) := s in
  match op with
  | Allocate t n =>
    if (1 <=? t)%nat && (0 <? n) && (n <? 2 ^ 64) then '(x, h) ← f_allocate f_map t n h; Ok (h, <[x := n]> live) else Ok s
  | Free x => if decide (is_Some (live !! x)) then h ← f_free 0 x h; Ok (h, delete x live) else Ok s
  | Write x next previous cyclic =>
    if decide (is_Some (live !! x)) then
      h ← update x (λ o, {| v_next := next; v_previous := previous; v_cyclic := cyclic; v_rank := v_rank o |}) h; Ok (h, live)
    else Ok s
  | Return t => if (1 <=? t)%nat then h ← f_return t h; Ok (h, live) else Ok s
  | Flush => h ← f_flush 0 h; Ok (h, live)
  end.

Definition run (f_map : gmap Z Z → Z → Z) : list t_operation → outcome (t_heap * gmap Z Z) :=
  foldl (λ s op, s ≫= apply_operation f_map op) (Ok (empty_heap, ∅)).

Definition no_lists : t_lists := {| g_free := λ _ _, []; g_chunks := λ _, []; g_place := ∅ |}.

Lemma empty_wf : wf empty_heap no_lists.
Proof.
  assert (Hr : ∀ x, ranks empty_heap !! x = None) by (intros x; unfold ranks; by rewrite lookup_fmap).
  assert (Hnil : ∀ (x : Z) (pl : t_place), x ∈ [] ↔ g_place no_lists !! x = Some pl).
  { intros x pl. split; [intros H; by apply not_elem_of_nil in H|done]. }
  split; [|done..]. split; try done; try (by intros; apply NoDup_nil_2); try (by intros; apply Hnil).
  split; [done..|]. intros x k. rewrite Hr. split; [done|]. by intros (b & n & H & _).
Qed.

Section Programs.
Context (f_map : gmap Z Z → Z → Z) (Hmap : fresh_map f_map).

(** The invariant of a run. *)
Definition run_ok (r : outcome (t_heap * gmap Z Z)) : Prop := ∃ h G, r = Ok (h, used G) ∧ wf h G.

Lemma apply_ok h G op : wf h G → run_ok (apply_operation f_map op (h, used G)).
Proof.
  intros HW. assert (Hsame : run_ok (Ok (h, used G))) by (by exists h, G).
  assert (Hkept : ∀ m, kept G m → run_ok (h ← m; Ok (h, used G))).
  { intros m (h' & G' & -> & HW' & E). exists h', G'. by rewrite E. }
  destruct op as [t n|x|x next previous cyclic|t|]; cbn [apply_operation].
  - destruct ((1 <=? t)%nat && (0 <? n) && (n <? 2 ^ 64)) eqn:E; [|done].
    apply andb_prop in E as [[Ht%Nat.leb_le H0%Z.ltb_lt]%andb_prop Hn%Z.ltb_lt].
    destruct (f_allocate_ok f_map Hmap h G t n HW Ht ltac:(lia)) as (x & h' & G' & -> & HW' & _ & E & _).
    exists h', G'. by rewrite E.
  - case_decide as Hx; [|done]. destruct Hx as [n Hx]. destruct (f_free_ok h G x n HW Hx) as (h' & G' & -> & HW' & E).
    exists h', G'. by rewrite E.
  - case_decide as Hx; [|done]. destruct Hx as [n Hx]. apply used_lookup in Hx as [r Hx].
    destruct (write_wf h G x r n (λ o, {| v_next := next; v_previous := previous; v_cyclic := cyclic; v_rank := v_rank o |}) HW Hx ltac:(done)) as (h' & -> & HW' & _).
    by exists h', G.
  - destruct (Nat.leb_spec 1 t); [|done]. by apply Hkept, f_return_ok.
  - by apply Hkept, f_flush_ok.
Qed.

Lemma run_wf ops : run_ok (run f_map ops).
Proof.
  unfold run. assert (H0 : run_ok (Ok (empty_heap, ∅))) by (exists empty_heap, no_lists; split; [done|apply empty_wf]).
  revert H0. generalize (Ok (empty_heap, ∅) : outcome (t_heap * gmap Z Z)). induction ops as [|op ops IH]; intros s Hs; [done|].
  cbn. apply IH. destruct Hs as (h & G & -> & HW). by apply apply_ok.
Qed.

(** Objects in use are objects of blocks with the rank they need. *)
Lemma used_block h G x n :
  wf h G → used G !! x = Some n →
  0 < x ∧ is_Some (v_memory h !! x) ∧ ∃ b m k, v_blocks h !! b = Some m ∧ ranks h !! b = Some k ∧ in_block x b m k ∧ n ≤ stride k m.
Proof.
  intros HW [r Hx]%used_lookup. pose proof (w_lists _ _ HW) as H. split; [by apply (place_pos _ _ H _ _ Hx)|].
  destruct (place_get _ _ H _ _ Hx) as (o & Ho & Hor). split; [by eexists|].
  assert (Hk : ranks h !! x = Some (Z.of_nat r)) by (unfold ranks; by rewrite lookup_fmap, Ho; cbn; rewrite Hor).
  apply (geo_object _ _ (w_geometry _ _ H)) in Hk as (b & m & Hb & Hk & Hin). exists b, m, (Z.of_nat r). split_and!; try done.
  destruct (w_place _ _ H _ _ Hx) as [_ [[Hr Hn]|[-> Hbx]]].
  - unfold stride. rewrite (proj2 (Z.leb_le _ 4)), Nat2Z.id by lia. done.
  - change (n ≤ m). destruct (geo_block _ _ (w_geometry _ _ H) _ _ Hb) as (_ & Hm & _).
    apply in_large_block in Hin as ->; [|done]. assert (n = m) as -> by congruence. lia.
Qed.

(** C10 (allocation_is_exclusive): programs never fail, and the objects in use
    are large enough and apart. *)
Theorem allocation_is_exclusive ops :
  ∃ h live, run f_map ops = Ok (h, live) ∧
    (∀ x n, live !! x = Some n → 0 < x ∧ f_find x h = Ok (Some x)) ∧
    (∀ x n y m, live !! x = Some n → live !! y = Some m → x ≠ y → x + n ≤ y ∨ y + m ≤ x).
Proof.
  destruct (run_wf ops) as (h & G & -> & HW). exists h, (used G). split; [done|]. split.
  - intros x n Hx. destruct (used_block _ _ _ _ HW Hx) as (Hpos & Hm & _). split; [done|].
    rewrite (find_at h G x HW). by rewrite decide_True.
  - intros x n y m Hx Hy Hne. destruct (used_block _ _ _ _ HW Hx) as (_ & _ & b & l & k & Hb & Hk & Hin & Hn).
    destruct (used_block _ _ _ _ HW Hy) as (_ & _ & b' & l' & k' & Hb' & Hk' & Hin' & Hn').
    destruct (objects_apart _ _ _ _ _ _ _ _ _ _ (w_geometry _ _ (w_lists _ _ HW)) Hb Hb' Hk Hk' Hin Hin' Hne); lia.
Qed.

(** C16 (find_is_exact): after any sequence of operations, [f_find] answers
    with an address exactly when it is that of an object of the heap, and
    [f_live] is the number of objects in use plus the number of objects in the
    lists of free objects of the threads, which are other objects. *)
Theorem find_is_exact ops :
  ∃ h live free, run f_map ops = Ok (h, live) ∧
    (∀ p, f_find p h = Ok (if decide (is_Some (v_memory h !! p)) then Some p else None)) ∧
    NoDup free ∧
    (∀ x, x ∈ free ↔ ∃ t r l, (1 ≤ t)%nat ∧ chain (v_memory h) (v_heads h t r) l ∧ x ∈ l) ∧
    (∀ x, x ∈ free → live !! x = None) ∧
    f_live h = Z.of_nat (size live) + Z.of_nat (length free).
Proof.
  destruct (run_wf ops) as (h & G & -> & HW). pose proof (w_lists _ _ HW) as H.
  exists h, (used G), (listed G). split; [done|]. split_and!.
  - intros p. by apply (find_at h G).
  - apply NoDup_fst_map_to_list.
  - intros x. by apply listed_chains.
  - intros x (t & r & _ & Hx)%elem_of_listed. destruct (used G !! x) eqn:E; [|done].
    apply used_lookup in E as [r' E]. congruence.
  - by rewrite (f_live_count _ _ HW), listed_length.
Qed.
End Programs.

(** Memory after all the blocks is fresh. *)
Definition next_address (blocks : gmap Z Z) (_ : Z) : Z := map_fold (λ b n a, Z.max a (b + n)) 4096 blocks.

Lemma next_fresh : fresh_map next_address.
Proof.
  intros blocks n Hn. cut (0 < next_address blocks n ∧ ∀ b k, blocks !! b = Some k → b + k ≤ next_address blocks n).
  { intros [H0 H]. split; [done|]. intros b k Hb. right. by apply H. }
  unfold next_address. apply (map_fold_weak_ind (λ a m, 0 < a ∧ ∀ b k, m !! b = Some k → b + k ≤ a)).
  - split; [lia|]. intros b k Hb. by rewrite lookup_empty in Hb.
  - intros b k a m Hb [Ha Hm]. split; [lia|]. intros b' k' Hb'. destruct (decide (b' = b)) as [->|Hne].
    + rewrite lookup_insert_eq in Hb'. injection Hb' as <-. lia.
    + rewrite lookup_insert_ne in Hb' by done. specialize (Hm _ _ Hb'). lia.
Qed.

(** The second object is freed, and another thread gets it. *)
Definition sample : list t_operation :=
  [Allocate 1 2000; Allocate 1 2000; Allocate 2 100000; Free 6144; Return 1; Flush; Allocate 3 2048; Free 135168].

Lemma allocation_is_exclusive_witness :
  ∃ h live, run next_address sample = Ok (h, live) ∧
    (∀ x n, live !! x = Some n → 0 < x ∧ f_find x h = Ok (Some x)) ∧
    (∀ x n y m, live !! x = Some n → live !! y = Some m → x ≠ y → x + n ≤ y ∨ y + m ≤ x).
Proof. apply (allocation_is_exclusive next_address next_fresh sample). Defined.

Lemma find_is_exact_witness :
  ∃ h live free, run next_address sample = Ok (h, live) ∧
    (∀ p, f_find p h = Ok (if decide (is_Some (v_memory h !! p)) then Some p else None)) ∧
    NoDup free ∧
    (∀ x, x ∈ free ↔ ∃ t r l, (1 ≤ t)%nat ∧ chain (v_memory h) (v_heads h t r) l ∧ x ∈ l) ∧
    (∀ x, x ∈ free → live !! x = None) ∧
    f_live h = Z.of_nat (size live) + Z.of_nat (length free).
Proof. apply (find_is_exact next_address next_fresh sample). Defined.

(** What the sample gives: the objects in use and the number that [f_live]
    counts with the lists of the threads. *)
Example sample_result :
  (fun s => match s with Ok (h, live) => Some (map_to_list live, f_live h) | _ => None end) (run next_address sample) =
  Some ([(6144, 2048); (4096, 2000)], 2).
Proof. vm_compute. reflexivity. Qed.

(** ** Chunks that are taken in several steps (src: include/xemmai/heap.h)

    [t_of::f_allocate] loads [v_chunks], reads [v_previous] of the first chunk
    and exchanges it with [v_chunks] if that has not changed.  Heap.v takes
    the chunk in one step.  The steps alone do the same; but other threads and
    the collector may run between them, and [v_chunks] may have come back to
    the same chunk with another one after it. *)

Section Attempts.
Context (f_map : gmap Z Z → Z → Z).

(** Where a thread is in [t_of::f_allocate]: [p] is loaded, and then [q] is
    read from it. *)
Inductive t_attempt := Idle | Loaded (p : Z) | Linked (p q : Z).

(** The chunk at [p] is taken: the rest of [t_of::f_allocate], and of
    [f_allocate_from]. *)
Definition taken (t r : nat) (p : Z) (h : t_heap) : outcome (Z * t_heap) :=
  o ← get p h;
  let h := update_of r (add_allocated (v_cyclic o)) h in
  o ← get p h;
  Ok (p, set_head t r (v_next o) h).

Definition attempt (t r : nat) (a : t_attempt) (h : t_heap) : outcome ((t_attempt + Z) * t_heap) :=
  match a with
  | Idle => Ok (inl (Loaded (v_chunks (v_ofs h r))), h)
  | Loaded p =>
    if p =? 0 then '(p, h) ← f_grow f_map r h; '(p, h) ← taken t r p h; Ok (inr p, h)
    else o ← get p h; Ok (inl (Linked p (v_previous o)), h)
  | Linked p q =>
    if v_chunks (v_ofs h r) =? p then
      '(p, h) ← taken t r p (update_of r (set_chunks q) h); Ok (inr p, h)
    else Ok (inl (Loaded (v_chunks (v_ofs h r))), h)
  end.

(** The attempt of a thread that nothing interrupts. *)
Fixpoint attempts (fuel t r : nat) (a : t_attempt) (h : t_heap) : outcome (Z * t_heap) :=
  match fuel with
  | O => Fault
  | S fuel =>
    '(a, h) ← attempt t r a h;
    match a with inl a => attempts fuel t r a h | inr p => Ok (p, h) end
  end.

(** [f_allocate_from] takes a chunk as the steps do, three at most. *)
Lemma attempts_take h t r : attempts 3 t r Idle h = f_allocate_from f_map t r h.
Proof.
  unfold f_allocate_from, allocate_chunk, attempts, taken. cbn [attempt mbind outcome_bind].
  destruct (Z.eqb_spec (v_chunks (v_ofs h r)) 0) as [E|Hne].
  - destruct (f_grow f_map r h) as [[p h1]| |]; [|done..]. cbn. unfold taken, get. cbn. destruct (v_memory h1 !! p) eqn:Ho; cbn; [|done]. by rewrite Ho.
  - unfold taken, get. destruct (v_memory h !! v_chunks (v_ofs h r)) as [o|] eqn:Ho; [|done]. cbn.
    rewrite Z.eqb_refl. cbn. unfold taken, get. cbn. rewrite Ho. cbn. by rewrite Ho.
Qed.

(** ** Interleavings *)

(** A step of the attempt of a thread for an object of the rank 4, or a whole
    operation of Heap.v. *)
Inductive t_move := Attempt (t : nat) (n : Z) | Operation (op : t_operation).

Record t_race := { v_heap : t_heap; v_live : gmap Z Z; v_attempts : nat → t_attempt; v_results : list (nat * Z) }.

Definition set_attempt (t : nat) (a : t_attempt) (h : t_heap) (s : t_race) : t_race :=
  {| v_heap := h; v_live := v_live s; v_attempts := λ t', if decide (t' = t) then a else v_attempts s t'; v_results := v_results s |}.

Definition apply_move (m : t_move) (s : t_race) : outcome t_race :=
  match m with
  | Attempt t n =>
    '(a, h) ← attempt t 4 (v_attempts s t) (v_heap s);
    match a with
    | inl a => Ok (set_attempt t a h s)
    | inr p =>
      h ← update p (set_next 0) h;
      let s := set_attempt t Idle h s in
      Ok {| v_heap := v_heap s; v_live := <[p := n]> (v_live s); v_attempts := v_attempts s; v_results := v_results s ++ [(t, p)] |}
    end
  | Operation op =>
    '(h, live) ← apply_operation f_map op (v_heap s, v_live s);
    Ok {| v_heap := h; v_live := live; v_attempts := v_attempts s; v_results := v_results s |}
  end.

Definition interleave : list t_move → outcome t_race :=
  foldl (λ s m, s ≫= apply_move m)
    (Ok {| v_heap := empty_heap; v_live := ∅; v_attempts := λ _, Idle; v_results := [] |}).
End Attempts.

(** Two chunks of one object; the thread 1 reads the second one from the
    first.  The thread 3 takes both, and the collector returns the first. *)
Definition before_race : list t_move :=
  [Operation (Allocate 2 2000); Operation (Allocate 2 2000); Operation (Free 6144); Operation Flush;
   Operation (Free 4096); Operation Flush; Attempt 1 2000; Attempt 1 2000;
   Operation (Allocate 3 2000); Operation (Allocate 3 2000); Operation (Free 4096); Operation Flush].

(** The exchange of the thread 1 succeeds, and it allocates again. *)
Definition race : list t_move := before_race ++ [Attempt 1 2000; Attempt 4 2000; Attempt 4 2000; Attempt 4 2000].

(** The object that the thread 3 uses when the race starts goes to the thread
    4, which does not wait for it to be freed. *)
Theorem race_allocates_twice :
  (s ← interleave next_address before_race; Ok (v_live s !! 6144, v_results s)) = Ok (Some 2000, []) ∧
  (s ← interleave next_address race; Ok (v_results s)) = Ok [(1%nat, 4096); (4%nat, 6144)].
Proof. split; vm_compute; reflexivity. Qed.
