(* ===== verification/Flow.v ===== *)
(** * Flow analysis (src: include/xemmai/ast.h, src/ast.cc)

    [f_flow] cuts the body of a lambda into blocks and connects them;
    [f_analyze] finds for every block which private variables may have been
    accessed before it, and which ones are read after it before they are
    assigned.  The generator of code initializes variables by them.

    The blocks are members of the nodes and the scopes.  A node is identified
    by its path from the root of the tree, and a block by the path of its owner
    and its number among the members.  The queue of the analysis links blocks
    through [v_queue]. *)
From stdpp Require Import base list numbers gmap.
From S2P Require Import Prelude Lexer Ast.

Definition t_id : Type := list nat * nat.

(** [t_block::t_private] *)
Record t_private := { v_in : bool; v_out : bool; v_define : bool; v_use : bool }.

Definition new_private : t_private := {| v_in := false; v_out := false; v_define := false; v_use := false |}.

Record t_block := {
  v_queue : option t_id;
  v_forward : bool;
  v_backward : bool;
  v_block_privates : list t_private;
  v_previouses : list t_id;
  v_nexts : list t_id;
}.

Definition new_block : t_block :=
  {| v_queue := None; v_forward := false; v_backward := false; v_block_privates := []; v_previouses := []; v_nexts := [] |}.

Definition with_queue (q : option t_id) (b : t_block) : t_block :=
  {| v_queue := q; v_forward := v_forward b; v_backward := v_backward b; v_block_privates := v_block_privates b;
     v_previouses := v_previouses b; v_nexts := v_nexts b |}.
Definition with_forward (xs : list t_private) (b : t_block) : t_block :=
  {| v_queue := v_queue b; v_forward := true; v_backward := v_backward b; v_block_privates := xs;
     v_previouses := v_previouses b; v_nexts := v_nexts b |}.
Definition with_backward (xs : list t_private) (b : t_block) : t_block :=
  {| v_queue := v_queue b; v_forward := v_forward b; v_backward := true; v_block_privates := xs;
     v_previouses := v_previouses b; v_nexts := v_nexts b |}.
Definition with_block_privates (xs : list t_private) (b : t_block) : t_block :=
  {| v_queue := v_queue b; v_forward := v_forward b; v_backward := v_backward b; v_block_privates := xs;
     v_previouses := v_previouses b; v_nexts := v_nexts b |}.
Definition add_previous (p : t_id) (b : t_block) : t_block :=
  {| v_queue := v_queue b; v_forward := v_forward b; v_backward := v_backward b; v_block_privates := v_block_privates b;
     v_previouses := v_previouses b ++ [p]; v_nexts := v_nexts b |}.
Definition add_next (p : t_id) (b : t_block) : t_block :=
  {| v_queue := v_queue b; v_forward := v_forward b; v_backward := v_backward b; v_block_privates := v_block_privates b;
     v_previouses := v_previouses b; v_nexts := v_nexts b ++ [p] |}.

(** The blocks that were changed; the others are as they were constructed. *)
Abbreviation t_blocks := (gmap t_id t_block).

Definition block (i : t_id) (bs : t_blocks) : t_block := default new_block (bs !! i).
Definition on_block (i : t_id) (f : t_block → t_block) (bs : t_blocks) : t_blocks := <[i := f (block i bs)]> bs.

(** [std::vector::resize] *)
Definition resize_privates (n : nat) (xs : list t_private) : list t_private :=
  take n xs ++ replicate (n - length xs) new_private.

(** The first access of a block to a variable: a write or a read. *)
Definition access (a_put : bool) (x : t_private) : t_private :=
  if v_out x then x else {| v_in := v_in x; v_out := true; v_define := a_put; v_use := negb a_put |}.

Definition f_use (a_i : nat) (a_put : bool) (b : t_block) : t_block :=
  let xs := v_block_privates b in
  let xs := if decide (length xs < a_i + 1) then resize_privates (a_i + 1) xs else xs in
  with_block_privates (alter (access a_put) a_i xs) b.

Definition f_next (i a_next : t_id) (bs : t_blocks) : t_blocks :=
  on_block i (add_next a_next) (on_block a_next (add_previous i) bs).

(** [t_block::f_forward], which tells whether anything changed. *)
Definition enter (a x : t_private) : t_private :=
  if v_out a && negb (v_in x) then {| v_in := true; v_out := true; v_define := v_define x; v_use := v_use x |} else x.

Definition f_forward (a_privates : list t_private) (b : t_block) : outcome (bool * t_block) :=
  let fresh := negb (v_forward b) in
  let xs := if fresh then resize_privates (length a_privates) (v_block_privates b) else v_block_privates b in
  if decide (length xs < length a_privates) then Fault
  else
    Ok (fresh || existsb (λ ax, v_out ax.1 && negb (v_in ax.2)) (zip a_privates xs),
        with_forward (zip_with enter a_privates xs ++ drop (length a_privates) xs) b).

(** [t_block::f_backward] *)
Definition leave (a x : t_private) : t_private :=
  if v_use a && negb (v_define x) && negb (v_use x)
  then {| v_in := v_in x; v_out := v_out x; v_define := v_define x; v_use := true |} else x.

Definition f_backward (a_privates : list t_private) (b : t_block) : outcome (bool * t_block) :=
  let xs := v_block_privates b in
  if decide (length xs < length a_privates) then Fault
  else
    Ok (negb (v_backward b) || existsb (λ ax, v_use ax.1 && negb (v_define ax.2) && negb (v_use ax.2)) (zip a_privates xs),
        with_backward (zip_with leave a_privates xs ++ drop (length a_privates) xs) b).

(** ** The queue of [f_analyze]: a ring whose tail is [queue] *)

Definition t_work : Type := t_blocks * option t_id.

Definition push (a_block : t_id) (s : t_work) : t_work :=
  let '(bs, queue) := s in
  match queue with
  | Some q => (on_block q (with_queue (Some a_block)) (on_block a_block (with_queue (v_queue (block q bs))) bs), Some a_block)
  | None => (on_block a_block (with_queue (Some a_block)) bs, Some a_block)
  end.

(** The first block of the queue, which leaves it. *)
Definition pop (q : t_id) (bs : t_blocks) : outcome (t_id * t_work) :=
  match v_queue (block q bs) with
  | None => Fault
  | Some a_block =>
    let '(bs, queue) :=
      if decide (a_block = q) then (bs, None) else (on_block q (with_queue (v_queue (block a_block bs))) bs, Some q) in
    Ok (a_block, (on_block a_block (with_queue None) bs, queue))
  end.

Fixpoint loop (fuel : nat) (a_do : t_id → t_work → outcome t_work) (a_block : t_id) (s : t_work) : outcome t_work :=
  match fuel with
  | O => Fault
  | S fuel =>
    s ← a_do a_block s;
    match s.2 with
    | None => Ok s
    | Some q => '(a_block, s) ← pop q s.1; loop fuel a_do a_block s
    end
  end.

(** What the two loops do with a block [p] and one of its neighbours [q]. *)
Definition visit (f : list t_private → t_block → outcome (bool * t_block)) (p q : t_id) (s : t_work) : outcome t_work :=
  let '(bs, queue) := s in
  '(b, x) ← f (v_block_privates (block p bs)) (block q bs);
  let bs := on_block q (const x) bs in
  Ok (if b && bool_decide (v_queue (block q bs) = None) then push q (bs, queue) else (bs, queue)).

Definition visit_all (f : list t_private → t_block → outcome (bool * t_block)) (neighbours : t_block → list t_id) (p : t_id)
    (s : t_work) : outcome t_work :=
  fold_calls (λ s q, visit f p q s) s (neighbours (block p s.1)).

(** [f_forward] of the first block, and the two loops. *)
Definition t_point : Type := t_id * t_blocks.

Definition link (a_next : t_id) (s : t_point) : t_point := (s.1, f_next s.1 a_next s.2).
Definition go (i : t_id) (s : t_point) : t_point := (i, s.2).

(** Each turn of a loop follows a change of a block: a flag or a variable. *)
Definition turns (n : nat) (bs : t_blocks) : nat := S (size bs * (n + 1)).

(** [t_scope::f_analyze] of a scope whose members are [v_block_body] and
    [v_junction]; [body] is the flow of its body, and [n] the number of its
    private variables other than arguments. *)
Definition f_analyze (v_block_body v_junction : t_id) (n : nat) (body : t_point → outcome t_point) (bs : t_blocks) : outcome t_blocks :=
  s ← body (v_block_body, bs);
  let bs := (link v_junction s).2 in
  '(_, x) ← f_forward (replicate n new_private) (block v_block_body bs);
  let bs := on_block v_block_body (const x) bs in
  let fuel := turns n bs in
  s ← loop fuel (visit_all f_forward v_nexts) v_block_body (bs, None);
  s ← loop fuel (visit_all f_backward v_previouses) v_junction (s.1, None);
  Ok s.1.

(** ** The flow of nodes *)

Record t_targets := { v_break : option t_id; v_continue : option t_id; v_return : option t_id }.

(** A member of the targets, which a jump dereferences. *)
Definition target (x : option t_id) : outcome t_id := match x with Some i => Ok i | None => Fault end.

Definition flow_if (path : list nat) (condition yes no : t_point → outcome t_point) (s : t_point) : outcome t_point :=
  let v_block_true := (path, 0) in
  let v_block_false := (path, 1) in
  let v_junction := (path, 2) in
  let v_block_exit := (path, 3) in
  s ← condition s;
  let s := link v_block_false (link v_block_true s) in
  s ← yes (go v_block_true s);
  let s := link v_junction s in
  s ← no (go v_block_false s);
  let s := link v_junction s in
  Ok (v_block_exit, f_next v_junction v_block_exit s.2).

Definition flow_while (path : list nat) (T : t_targets) (condition : t_point → outcome t_point)
    (body : t_targets → t_point → outcome t_point) (s : t_point) : outcome t_point :=
  let v_junction_condition := (path, 0) in
  let v_block_condition := (path, 1) in
  let v_block_body := (path, 2) in
  let v_junction_exit := (path, 3) in
  let v_block_exit := (path, 4) in
  let s := link v_junction_condition s in
  let s := link v_block_condition (go v_junction_condition s) in
  s ← condition (go v_block_condition s);
  let s := link v_junction_exit (link v_block_body s) in
  s ← body {| v_break := Some v_junction_exit; v_continue := Some v_junction_condition; v_return := v_return T |} (go v_block_body s);
  let s := link v_junction_condition s in
  Ok (v_block_exit, f_next v_junction_exit v_block_exit s.2).

Definition flow_for (path : list nat) (T : t_targets) (initialization condition next : t_point → outcome t_point)
    (body : t_targets → t_point → outcome t_point) (s : t_point) : outcome t_point :=
  let v_junction_condition := (path, 0) in
  let v_block_condition := (path, 1) in
  let v_block_body := (path, 2) in
  let v_junction_next := (path, 3) in
  let v_block_next := (path, 4) in
  let v_junction_exit := (path, 5) in
  let v_block_exit := (path, 6) in
  s ← initialization s;
  let s := link v_junction_condition s in
  let s := link v_block_condition (go v_junction_condition s) in
  s ← condition (go v_block_condition s);
  let s := link v_junction_exit (link v_block_body s) in
  s ← body {| v_break := Some v_junction_exit; v_continue := Some v_junction_next; v_return := v_return T |} (go v_block_body s);
  let s := link v_junction_next s in
  s ← next (go v_block_next (link v_block_next (go v_junction_next s)));
  let s := link v_junction_condition s in
  Ok (v_block_exit, f_next v_junction_exit v_block_exit s.2).

(** [break], [continue] and [return] go on in the block they end. *)
Definition flow_jump (to : option t_id) (s : t_point) : outcome t_point := i ← target to; Ok (link i s).

(** A write or a read of a variable, when it is not shared; [v_index -
    v_arguments] is an [int]. *)
Definition flow_access (a : nat) (a_put : bool) (x : t_variable) (s : t_point) : t_point :=
  if v_shared x then s
  else if decide (a ≤ v_index x) then (s.1, on_block s.1 (f_use (v_index x - a) a_put) s.2) else s.

(** The variable of a catch clause; [v_index - v_arguments] is a [size_t]
    here, and out of the vector when the variable is an argument. *)
Definition flow_catch_variable (a : nat) (x : t_variable) (s : t_point) : outcome t_point :=
  if v_shared x then Ok s
  else if decide (a ≤ v_index x) then Ok (s.1, on_block s.1 (f_use (v_index x - a) true) s.2) else Fault.

(** A clause, from the block at the end of the expressions before. *)
Definition flow_catch (a : nat) (v_block_expression v_block_body v_junction_finally : t_id) (variable : outcome t_variable)
    (expression body : t_point → outcome t_point) (s : t_point) : outcome t_point :=
  s ← expression (go v_block_expression (link v_block_expression s));
  let b := s.1 in
  let s := go v_block_body (link v_block_body s) in
  x ← variable;
  s ← flow_catch_variable a x s;
  s ← body s;
  Ok (go b (link v_junction_finally s)).

Definition link_if (to : option t_id) (s : t_point) : t_point := match to with Some i => link i s | None => s end.

Definition flow_try (path : list nat) (T : t_targets) (body catches finally : t_targets → t_point → outcome t_point)
    (s : t_point) : outcome t_point :=
  let v_junction_try := (path, 0) in
  let v_block_try := (path, 1) in
  let v_junction_finally := (path, 2) in
  let v_block_finally := (path, 3) in
  let v_block_exit := (path, 4) in
  let s := link v_junction_try s in
  let s := link v_block_try (link v_junction_finally (go v_junction_try s)) in
  let T1 := {| v_break := Some v_junction_finally; v_continue := Some v_junction_finally; v_return := Some v_junction_finally |} in
  s ← body T1 (go v_block_try s);
  let s := link v_junction_finally s in
  s ← catches T1 s;
  let s := link v_block_finally (link v_junction_try (go v_junction_finally s)) in
  s ← finally {| v_break := None; v_continue := None; v_return := None |} (go v_block_finally s);
  let s := link v_block_exit s in
  let s := link_if (v_return T) (link_if (v_continue T) (link_if (v_break T) s)) in
  Ok (go v_block_exit s).

Section Tree.
Context {F : Type} (scopes : list t_scope).

Definition scope_of (i : nat) : outcome t_scope := match scopes !! i with Some c => Ok c | None => Fault end.

(** A variable that a node refers to, by its scope and its symbol. *)
Definition variable_of (x : nat * t_symbol) : outcome t_variable :=
  c ← scope_of x.1; match v_variables c !! x.2 with Some x => Ok x | None => Fault end.

(** The loop of [t_symbol_get::f_flow] over the scopes from the inside: the
    number of scopes that are left, and the variable. *)
Fixpoint f_resolve (fuel : nat) (v_resolved : nat) (scope : option nat) (v_symbol : t_symbol) : outcome (nat * option t_variable) :=
  match fuel with
  | O => Fault
  | S fuel =>
    match scope with
    | None => Ok (v_resolved, None)
    | Some i =>
      c ← scope_of i;
      match v_variables c !! v_symbol with
      | Some x => Ok (v_resolved, Some x)
      | None => f_resolve fuel (S v_resolved) (v_outer c) v_symbol
      end
    end
  end.

(** [v_resolved] and [v_variable] of a [t_symbol_get]. *)
Definition resolve (v_outer : nat) (v_scope : option nat) (v_symbol : t_symbol) : outcome (nat * option t_variable) :=
  f_resolve (S (length scopes)) v_outer v_scope v_symbol.

(** [f_each] over the children of a node, the [i]-th one at the path [i :: path]. *)
Fixpoint each {A S} (f : list nat → A → S → outcome S) (path : list nat) (i : nat) (xs : list A) (s : S) : outcome S :=
  match xs with
  | [] => Ok s
  | x :: xs => s ← f (i :: path) x s; each f path (Datatypes.S i) xs s
  end.

Definition if_some {A S} (f : A → S → outcome S) (x : option A) (s : S) : outcome S :=
  match x with Some x => f x s | None => Ok s end.

(** [v_privates.v_size - a_arguments] of a scope. *)
Definition private_count (c : t_scope) (a_arguments : nat) : outcome nat :=
  if decide (v_privates_size c < a_arguments) then Fault else Ok (v_privates_size c - a_arguments).

Fixpoint f_flow (a : nat) (T : t_targets) (path : list nat) (e : @t_node F) (s : t_point) {struct e} : outcome t_point :=
  match e with
  | t_nodes xs => each (λ path e, f_flow a T path e) path 0 xs s
  | t_lambda _ scope _ arguments defaults body =>
    c ← scope_of scope;
    n ← private_count c arguments;
    bs ← f_analyze (path, 0) (path, 1) n
      (f_flow arguments {| v_break := None; v_continue := None; v_return := Some (path, 1) |} (0 :: path) body) s.2;
    each (λ path e, f_flow a T path e) (1 :: path) 0 defaults (s.1, bs)
  | t_if condition x y =>
    flow_if path (if_some (λ e, f_flow a T (0 :: path) e) condition) (f_flow a T (1 :: path) x) (f_flow a T (2 :: path) y) s
  | t_while condition body =>
    flow_while path T (if_some (λ e, f_flow a T (0 :: path) e) condition) (λ T, f_flow a T (1 :: path) body) s
  | t_for initialization condition next body =>
    flow_for path T (if_some (λ e, f_flow a T (0 :: path) e) initialization) (if_some (λ e, f_flow a T (1 :: path) e) condition)
      (if_some (λ e, f_flow a T (2 :: path) e) next) (λ T, f_flow a T (3 :: path) body) s
  | t_break x => s ← f_flow a T (0 :: path) x s; flow_jump (v_break T) s
  | t_continue _ => flow_jump (v_continue T) s
  | t_return x => s ← f_flow a T (0 :: path) x s; flow_jump (v_return T) s
  | t_try body catches finally =>
    flow_try path T (λ T, f_flow a T (0 :: path) body)
      (λ T, (fix flow_catches j cs s :=
         match cs with
         | [] => Ok s
         | (expression, variable, body) :: cs =>
           s ← flow_catch a (path, 5 + 2 * j) (path, 6 + 2 * j) (path, 2) (variable_of variable)
             (f_flow a T (2 + 2 * j :: path) expression) (f_flow a T (3 + 2 * j :: path) body) s;
           flow_catches (S j) cs s
         end) 0 catches)
      (λ T, if_some (λ e, f_flow a T (1 :: path) e) finally) s
  | t_throw _ x | t_object_get _ x _ | t_object_has _ x _ | t_class _ x | t_super _ x | t_unary _ _ x => f_flow a T (0 :: path) x s
  | t_object_get_indirect _ x y | t_object_put _ x _ y | t_object_has_indirect _ x y | t_binary _ _ x y | t_get_at _ x y =>
    s ← f_flow a T (0 :: path) x s; f_flow a T (1 :: path) y s
  | t_object_put_indirect _ x y z | t_set_at _ x y z =>
    s ← f_flow a T (0 :: path) x s; s ← f_flow a T (1 :: path) y s; f_flow a T (2 :: path) z s
  | t_symbol_get _ outer scope symbol =>
    '(_, x) ← resolve outer scope symbol;
    Ok (match x with Some x => flow_access a false x s | None => s end)
  | t_scope_put _ _ variable x =>
    s ← f_flow a T (0 :: path) x s; x ← variable_of variable; Ok (flow_access a true x s)
  | t_self _ _ | t_null _ | t_literal_node _ _ | t_preserve => Ok s
  | t_call _ x arguments _ =>
    s ← f_flow a T (0 :: path) x s; each (λ path e, f_flow a T path e) (1 :: path) 0 arguments s
  end.

(** The flow of a lambda's or a module's body: [f_analyze] with it. *)
Definition analyze_body (path : list nat) (c : t_scope) (arguments : nat) (body : @t_node F) (bs : t_blocks) : outcome t_blocks :=
  n ← private_count c arguments;
  f_analyze (path, 0) (path, 1) n
    (f_flow arguments {| v_break := None; v_continue := None; v_return := Some (path, 1) |} (0 :: path) body) bs.
End Tree.
