(* ===== verification/FlowGraph.v ===== *)
(** * The loops of the flow analysis (Flow.v)

    The queue of blocks is a ring that behaves as a list; a loop over it ends,
    since every turn follows a change, and leaves nothing to change. *)
From stdpp Require Import base list numbers gmap.
From S2P Require Import Prelude Lexer Ast Flow.

Lemma block_on_eq i f bs : block i (on_block i f bs) = f (block i bs).
Proof. unfold block, on_block. by rewrite lookup_insert_eq. Qed.

Lemma block_on_ne i j f bs : i ≠ j → block i (on_block j f bs) = block i bs.
Proof. intros Hne. unfold block, on_block. by rewrite lookup_insert_ne. Qed.

(** ** The queue *)

Definition queued (bs : t_blocks) (queue : option t_id) (l : list t_id) : Prop :=
  NoDup l ∧ queue = last l ∧ (∀ x, x ∉ l → v_queue (block x bs) = None) ∧
  ∀ i x, l !! i = Some x → v_queue (block x bs) = l !! (S i mod length l).

(** Blocks but for the links of the queue. *)
Definition core (b : t_block) : t_block := with_queue None b.
Definition same_blocks (bs bs' : t_blocks) : Prop := ∀ i, core (block i bs') = core (block i bs).

Lemma same_refl bs : same_blocks bs bs.
Proof. done. Qed.

Lemma same_trans bs1 bs2 bs3 : same_blocks bs1 bs2 → same_blocks bs2 bs3 → same_blocks bs1 bs3.
Proof. intros H1 H2 i. by rewrite H2. Qed.

Lemma same_on_queue i q bs : same_blocks bs (on_block i (with_queue q) bs).
Proof. intros j. destruct (decide (j = i)) as [->|Hne]; [by rewrite block_on_eq|by rewrite block_on_ne]. Qed.

Lemma core_fields b b' : core b' = core b →
  v_forward b' = v_forward b ∧ v_backward b' = v_backward b ∧ v_block_privates b' = v_block_privates b ∧
  v_previouses b' = v_previouses b ∧ v_nexts b' = v_nexts b.
Proof. destruct b, b'. unfold core, with_queue. cbn. intros [=]. done. Qed.

Lemma queued_empty bs : (∀ x, v_queue (block x bs) = None) → queued bs None [].
Proof. intros H. split_and!; [apply NoDup_nil_2|done|done|done]. Qed.

Lemma push_ok x bs queue l :
  queued bs queue l → x ∉ l → ∃ bs', push x (bs, queue) = (bs', Some x) ∧ queued bs' (Some x) (l ++ [x]) ∧ same_blocks bs bs'.
Proof.
  intros (Hnd & -> & Hout & Hin) Hx. assert (Hnd' : NoDup (l ++ [x])).
  { apply NoDup_app. split_and!; [done| |apply NoDup_singleton]. by intros y Hy ->%list_elem_of_singleton. }
  unfold push. destruct (last l) as [t|] eqn:Ht.
  - pose proof Ht as Hl. rewrite last_lookup in Hl. assert (Hlen : length l ≠ 0) by (by destruct l).
    assert (Htl : t ∈ l) by (by eapply list_elem_of_lookup_2). assert (Htx : t ≠ x) by (by intros ->).
    eexists. split; [done|]. split; [|eapply same_trans; apply same_on_queue].
    assert (Htq : v_queue (block t bs) = l !! 0).
    { rewrite (Hin _ _ Hl). replace (S (pred (length l))) with (length l) by lia. by rewrite Nat.Div0.mod_same. }
    split_and!; [done|by rewrite last_snoc| |].
    + intros y [Hyl Hyx%not_elem_of_cons]%not_elem_of_app. destruct Hyx as [Hyx _].
      rewrite block_on_ne by (by intros ->). rewrite block_on_ne by done. by apply Hout.
    + rewrite length_app. cbn [length]. intros i y Hi. destruct (decide (i < length l)) as [Hil|Hil].
      * rewrite lookup_app_l in Hi by done. assert (Hyx : y ≠ x) by (intros ->; by apply Hx, (list_elem_of_lookup_2 _ i)).
        rewrite (Nat.mod_small (S i)) by lia. destruct (decide (y = t)) as [->|Hyt].
        -- rewrite block_on_eq. cbn. pose proof (NoDup_lookup _ _ _ _ Hnd Hi Hl) as ->.
           rewrite lookup_app_r by lia. by replace (S (pred (length l)) - length l) with 0 by lia.
        -- rewrite !block_on_ne by done. rewrite (Hin _ _ Hi). assert (i ≠ pred (length l)) by (intros ->; congruence).
           rewrite Nat.mod_small by lia. by rewrite lookup_app_l by lia.
      * rewrite lookup_app_r in Hi by lia. destruct (i - length l) as [|k] eqn:Ek; [|done]. injection Hi as <-.
        rewrite block_on_ne by done. rewrite block_on_eq. cbn. rewrite Htq. assert (i = length l) as -> by lia.
        replace (S (length l)) with (length l + 1) by lia. rewrite Nat.Div0.mod_same. by rewrite lookup_app_l by lia.
  - apply last_None in Ht as ->. eexists. split; [done|]. split; [|apply same_on_queue]. split_and!; [done|done| |].
    + intros y Hy%not_elem_of_cons. destruct Hy as [Hy _]. rewrite block_on_ne by done. apply Hout, not_elem_of_nil.
    + intros [|i] y Hy; [|done]. injection Hy as <-. by rewrite block_on_eq.
Qed.

Lemma pop_ok x q bs l :
  queued bs (Some q) (x :: l) → ∃ bs', pop q bs = Ok (x, (bs', last l)) ∧ queued bs' (last l) l ∧ same_blocks bs bs'.
Proof.
  intros (Hnd & Hq & Hout & Hin). apply NoDup_cons in Hnd as [Hx Hnd]. unfold pop.
  assert (Hl : (x :: l) !! length l = Some q) by (rewrite last_lookup in Hq; by rewrite Hq).
  assert (Hqx : v_queue (block q bs) = Some x).
  { rewrite (Hin _ _ Hl). cbn [length]. by rewrite Nat.Div0.mod_same. }
  rewrite Hqx. destruct (decide (x = q)) as [->|Hne].
  - assert (l = []) as ->.
    { destruct l as [|y l]; [done|]. exfalso. apply Hx. apply (list_elem_of_lookup_2 _ (length l)). exact Hl. }
    eexists. split; [done|]. split; [|apply same_on_queue]. apply queued_empty. intros y.
    destruct (decide (y = q)) as [->|Hy]; [by rewrite block_on_eq|]. rewrite block_on_ne by done. apply Hout. apply not_elem_of_cons. split; [done|apply not_elem_of_nil].
  - assert (Hlast : last l = Some q).
    { destruct l as [|y l]; [exfalso; apply Hne; by injection Hl|]. by rewrite last_cons_cons in Hq. }
    eexists. split; [rewrite Hlast; reflexivity|]. split; [|eapply same_trans; apply same_on_queue].
    assert (Hlen : length l ≠ 0) by (by destruct l).
    assert (Hx1 : v_queue (block x bs) = l !! 0) by (rewrite (Hin 0 x eq_refl); cbn [length]; rewrite Nat.mod_small by lia; done).
    split_and!; [done|done| |].
    + intros y Hy. destruct (decide (y = x)) as [->|Hyx]; [by rewrite block_on_eq|]. rewrite block_on_ne by done.
      rewrite block_on_ne; [|intros ->; apply Hy; rewrite last_lookup in Hlast; by eapply list_elem_of_lookup_2].
      apply Hout. by apply not_elem_of_cons.
    + intros i y Hi. assert (Hyx : y ≠ x) by (intros ->; by apply Hx, (list_elem_of_lookup_2 _ i)). rewrite block_on_ne by done.
      pose proof (lookup_lt_Some _ _ _ Hi) as Hlt. destruct (decide (y = q)) as [->|Hyq].
      * rewrite block_on_eq. cbn. rewrite Hx1. rewrite last_lookup in Hlast. pose proof (NoDup_lookup _ _ _ _ Hnd Hi Hlast) as ->.
        replace (S (pred (length l))) with (length l) by lia. by rewrite Nat.Div0.mod_same.
      * rewrite block_on_ne by done. rewrite (Hin (S i) y Hi). cbn [length].
        assert (i ≠ pred (length l)) by (intros ->; rewrite last_lookup in Hlast; congruence).
        rewrite !Nat.mod_small by lia. done.
Qed.

(** ** The loop *)

Section Worklist.
Context (f : list t_private → t_block → outcome (bool * t_block)) (neighbours : t_block → list t_id).
Context (M : t_id → Prop) (U : list t_id) (HU : ∀ p, M p → p ∈ U) (HUnd : NoDup U).
Context (m : t_block → nat) (Inv : t_id → t_block → Prop) (act : t_id → t_block → Prop) (sat : list t_private → t_block → Prop).
Context (m_core : ∀ b b', core b' = core b → m b' = m b).
Context (Inv_core : ∀ p b b', core b' = core b → Inv p b → Inv p b').
Context (act_core : ∀ p b b', core b' = core b → act p b → act p b').
Context (sat_core : ∀ xs b b', core b' = core b → sat xs b → sat xs b').
Context (neighbours_core : ∀ b b', core b' = core b → neighbours b' = neighbours b).
Context (Hclosed : ∀ p bp q, M p → Inv p bp → q ∈ neighbours bp → M q).
Context (Hstep : ∀ p bp q bq, M p → Inv p bp → act p bp → q ∈ neighbours bp → Inv q bq →
  ∃ c x, f (v_block_privates bp) bq = Ok (c, x) ∧ Inv q x ∧ neighbours x = neighbours bq ∧ v_queue x = v_queue bq ∧
    act q x ∧ sat (v_block_privates bp) x ∧ m x + (if c then 1 else 0) ≤ m bq ∧ (c = false → x = bq) ∧ ∀ xs, sat xs bq → sat xs x).

Definition total (bs : t_blocks) : nat := sum_list ((λ u, m (block u bs)) <$> U).

Lemma total_same bs bs' : same_blocks bs bs' → total bs' = total bs.
Proof. intros H. unfold total. f_equal. apply list_fmap_ext. intros i u _. apply m_core, H. Qed.

Lemma total_on q x bs k : q ∈ U → m x + k ≤ m (block q bs) → total (on_block q (const x) bs) + k ≤ total bs.
Proof.
  intros Hq Hm. unfold total. assert (Hgen : ∀ l, NoDup l →
    (q ∉ l → sum_list ((λ u, m (block u (on_block q (const x) bs))) <$> l) = sum_list ((λ u, m (block u bs)) <$> l)) ∧
    (q ∈ l → sum_list ((λ u, m (block u (on_block q (const x) bs))) <$> l) + k ≤ sum_list ((λ u, m (block u bs)) <$> l))).
  { induction l as [|u l IH]; intros Hnd; [split; [done|by intros ?%not_elem_of_nil]|]. apply NoDup_cons in Hnd as [Hu Hnd].
    destruct (IH Hnd) as [IH1 IH2]. cbn. split.
    - intros [Hne Hl]%not_elem_of_cons. rewrite block_on_ne by done. by rewrite IH1.
    - intros Hin. destruct (decide (u = q)) as [->|Hne].
      + rewrite block_on_eq, IH1 by done. cbn. lia.
      + rewrite block_on_ne by done. apply elem_of_cons in Hin as [->|Hin]; [done|]. specialize (IH2 Hin). lia. }
  by apply Hgen.
Qed.

(** What holds while the neighbours [done_] of [a] have been visited. *)
Record working (bs0 bs : t_blocks) (l : list t_id) (a : t_id) (done_ : list t_id) : Prop := {
  k_inv p : M p → Inv p (block p bs);
  k_others p : ¬ M p → core (block p bs) = core (block p bs0);
  k_first : M a ∧ act a (block a bs);
  k_list p : p ∈ l → M p ∧ act p (block p bs);
  k_closed p : M p → act p (block p bs) → p ≠ a → p ∉ l → ∀ q, q ∈ neighbours (block p bs) → sat (v_block_privates (block p bs)) (block q bs);
  k_done : a ∉ l → ∀ q, q ∈ done_ → sat (v_block_privates (block a bs)) (block q bs);
}.

Lemma queued_none bs queue l q : queued bs queue l → v_queue (block q bs) = None ↔ q ∉ l.
Proof.
  intros (_ & _ & Hout & Hin). split; [|apply Hout]. intros Hq Hl. apply list_elem_of_lookup_1 in Hl as [i Hi].
  rewrite (Hin _ _ Hi) in Hq. apply lookup_ge_None in Hq. pose proof (lookup_lt_Some _ _ _ Hi).
  pose proof (Nat.mod_upper_bound (S i) (length l) ltac:(lia)). lia.
Qed.

Lemma working_same bs0 bs bs' l a done_ : working bs0 bs l a done_ → same_blocks bs bs' → working bs0 bs' l a done_.
Proof.
  intros [Hi Ho [Ha Haa] Hl Hc Hd] Hs. split.
  - intros p Hp. by apply (Inv_core p _ _ (Hs p)), Hi.
  - intros p Hp. by rewrite Hs, Ho.
  - split; [done|]. by apply (act_core _ _ _ (Hs a)).
  - intros p Hp. destruct (Hl p Hp) as [Hm Hact]. split; [done|]. by apply (act_core _ _ _ (Hs p)).
  - intros p Hp Hact Hne Hnl q Hin. destruct (core_fields _ _ (Hs p)) as (_ & _ & -> & _). apply (sat_core _ _ _ (Hs q)).
    rewrite (neighbours_core _ _ (Hs p)) in Hin. apply Hc; [done| |done|done|done].
    apply (act_core _ (block p bs')); [by rewrite Hs|done].
  - intros Hnl q Hin. destruct (core_fields _ _ (Hs a)) as (_ & _ & -> & _). apply (sat_core _ _ _ (Hs q)). by apply Hd.
Qed.

(** A visit of [q] replaces it by [x]; if that changed it, it is in the list. *)
Lemma working_visit bs0 bs l a done_ q x l' :
  working bs0 bs l a done_ → M q → Inv q x → act q x → sat (v_block_privates (block a bs)) x →
  (∀ xs, sat xs (block q bs) → sat xs x) → (q ∉ l' → x = block q bs) →
  (∀ p, p ∈ l' → p ∈ l ∨ p = q) → (∀ p, p ∈ l → p ∈ l') → working bs0 (on_block q (const x) bs) l' a (done_ ++ [q]).
Proof.
  intros [Hi Ho [Ha Haa] Hl Hc Hd] Hmq Hx Hact Hsat Hmono Hsame Hl1 Hl2. set (bs1 := on_block q (const x) bs).
  assert (Hne : ∀ p, p ≠ q → block p bs1 = block p bs) by (intros p Hp; by apply block_on_ne).
  assert (Heq : block q bs1 = x) by apply block_on_eq.
  assert (Hactm : ∀ p, act p (block p bs) → act p (block p bs1)).
  { intros p Hp. destruct (decide (p = q)) as [->|Hpq]; [by rewrite Heq|by rewrite Hne]. }
  assert (Hsatm : ∀ xs p, sat xs (block p bs) → sat xs (block p bs1)).
  { intros xs p Hp. destruct (decide (p = q)) as [->|Hpq]; [rewrite Heq; by apply Hmono|by rewrite Hne]. }
  assert (Hunch : ∀ p, p ∉ l' → block p bs1 = block p bs).
  { intros p Hp. destruct (decide (p = q)) as [->|Hpq]; [|by apply Hne]. rewrite Heq. by apply Hsame. }
  split.
  - intros p Hp. destruct (decide (p = q)) as [->|Hpq]; [by rewrite Heq|rewrite Hne by done; by apply Hi].
  - intros p Hp. rewrite Hne; [by apply Ho|]. by intros ->.
  - split; [done|by apply Hactm].
  - intros p Hp. destruct (Hl1 p Hp) as [Hp'| ->]; [destruct (Hl p Hp') as [H1 H2]; split; [done|by apply Hactm]|]. by rewrite Heq.
  - intros p Hp Hpa Hpne Hpl r Hr. rewrite (Hunch p Hpl) in *. apply Hsatm, Hc; try done. by intros ?%Hl2.
  - intros Hal r Hr. rewrite (Hunch a Hal). apply elem_of_app in Hr as [Hr| ->%list_elem_of_singleton].
    + apply Hsatm, Hd; [by intros ?%Hl2|done].
    + by rewrite Heq.
Qed.

Lemma visit_works bs0 bs queue l a done_ q :
  working bs0 bs l a done_ → queued bs queue l → q ∈ neighbours (block a bs) →
  ∃ bs' queue' l', visit f a q (bs, queue) = Ok (bs', queue') ∧ working bs0 bs' l' a (done_ ++ [q]) ∧ queued bs' queue' l' ∧
    neighbours (block a bs') = neighbours (block a bs) ∧ total bs' + length l' ≤ total bs + length l ∧
    ∀ p, act p (block p bs) → act p (block p bs').
Proof.
  intros HW Hqu Hq. pose proof HW as [Hi Ho [Ha Haa] Hl Hc Hd]. unfold visit. pose proof (Hclosed _ _ _ Ha (Hi a Ha) Hq) as Hmq.
  destruct (Hstep a (block a bs) q (block q bs) Ha (Hi a Ha) Haa Hq (Hi q Hmq)) as (c & x & Hf & Hx & Hn & Hv & Hact & Hsat & Hm & Hsame & Hmono).
  rewrite Hf. cbn [mbind outcome_bind]. rewrite block_on_eq. cbn [const]. set (bs1 := on_block q (const x) bs).
  assert (Hqu1 : queued bs1 queue l).
  { destruct Hqu as (Hnd & Hlast & Hout & Hin). unfold bs1. split_and!; [done|done|..].
    - intros y Hy. destruct (decide (y = q)) as [->|Hyq]; [rewrite block_on_eq; cbn; rewrite Hv|rewrite block_on_ne by done]; by apply Hout.
    - intros i y Hy. destruct (decide (y = q)) as [->|Hyq]; [rewrite block_on_eq; cbn; rewrite Hv|rewrite block_on_ne by done]; by apply Hin. }
  assert (Hna : neighbours (block a bs1) = neighbours (block a bs)).
  { unfold bs1. destruct (decide (a = q)) as [->|Haq]; [by rewrite block_on_eq|by rewrite block_on_ne]. }
  assert (Htot : total bs1 + (if c then 1 else 0) ≤ total bs) by (apply total_on; [by apply HU|done]).
  assert (Hactm : ∀ p, act p (block p bs) → act p (block p bs1)).
  { intros p Hp. unfold bs1. destruct (decide (p = q)) as [->|Hpq]; [by rewrite block_on_eq|by rewrite block_on_ne]. }
  assert (Hxq : v_queue x = None ↔ q ∉ l) by (rewrite Hv; by apply (queued_none _ queue)).
  destruct (c && bool_decide (v_queue x = None)) eqn:Ec.
  - apply andb_prop in Ec as [-> Eq]. apply bool_decide_eq_true, Hxq in Eq.
    destruct (push_ok q bs1 queue l Hqu1 Eq) as (bs2 & -> & Hqu2 & Hs). exists bs2, (Some q), (l ++ [q]). split; [done|].
    split; [|split_and!; [done| | |]].
    + apply (working_same _ bs1); [|done]. apply (working_visit _ _ l); try done.
      * intros Hnin. destruct Hnin. apply elem_of_app. right. by left.
      * intros p [Hp| ->%list_elem_of_singleton]%elem_of_app; [by left|by right].
      * intros p Hp. apply elem_of_app. by left.
    + by rewrite (neighbours_core _ _ (Hs a)).
    + rewrite (total_same _ _ Hs), length_app. cbn. lia.
    + intros p Hp. apply (act_core _ _ _ (Hs p)). by apply Hactm.
  - exists bs1, queue, l. split; [done|]. split; [|split_and!; [done|done|lia|done]]. apply (working_visit _ _ l); try done; [|by left].
    intros Hnin. apply Hsame. destruct c; [|done]. cbn in Ec. apply bool_decide_eq_false in Ec. by destruct Ec; apply Hxq.
Qed.

Lemma visit_rest bs0 a rest done_ bs queue l :
  working bs0 bs l a done_ → queued bs queue l → neighbours (block a bs) = done_ ++ rest →
  ∃ bs' queue' l', fold_calls (λ s q, visit f a q s) (bs, queue) rest = Ok (bs', queue') ∧
    working bs0 bs' l' a (neighbours (block a bs')) ∧ queued bs' queue' l' ∧ total bs' + length l' ≤ total bs + length l ∧
    ∀ p, act p (block p bs) → act p (block p bs').
Proof.
  revert done_ bs queue l. induction rest as [|q rest IH]; intros done_ bs queue l HW Hqu Hn.
  - exists bs, queue, l. rewrite Hn, app_nil_r. split_and!; [done|done|done|lia|done].
  - destruct (visit_works bs0 bs queue l a done_ q HW Hqu) as (bs1 & queue1 & l1 & Hv & HW1 & Hqu1 & Hn1 & Ht1 & Ha1).
    { rewrite Hn. apply elem_of_app. right. by left. }
    cbn [fold_calls]. rewrite Hv. cbn [mbind outcome_bind]. destruct (IH (done_ ++ [q]) bs1 queue1 l1 HW1 Hqu1) as (bs2 & queue2 & l2 & -> & HW2 & Hqu2 & Ht2 & Ha2).
    { rewrite Hn1, Hn. by rewrite <- app_assoc. }
    exists bs2, queue2, l2. split_and!; [done|done|done|lia|naive_solver].
Qed.

(** Nothing is left to change. *)
Record settled (bs0 bs : t_blocks) : Prop := {
  s_queue p : v_queue (block p bs) = None;
  s_inv p : M p → Inv p (block p bs);
  s_others p : ¬ M p → core (block p bs) = core (block p bs0);
  s_closed p : M p → act p (block p bs) → ∀ q, q ∈ neighbours (block p bs) → sat (v_block_privates (block p bs)) (block q bs);
}.

Lemma loop_ok bs0 fuel bs queue l a :
  working bs0 bs l a [] → queued bs queue l → total bs + length l < fuel →
  ∃ bs', loop fuel (visit_all f neighbours) a (bs, queue) = Ok (bs', None) ∧ settled bs0 bs' ∧ ∀ p, act p (block p bs) → act p (block p bs').
Proof.
  revert bs queue l a. induction fuel as [|fuel IH]; intros bs queue l a HW Hqu Hf; [lia|]. cbn [loop].
  change (visit_all f neighbours a (bs, queue)) with (fold_calls (λ s q, visit f a q s) (bs, queue) (neighbours (block a bs))).
  destruct (visit_rest bs0 a _ [] bs queue l HW Hqu eq_refl) as (bs1 & queue1 & l1 & -> & HW1 & Hqu1 & Ht & Ha1). cbn [mbind outcome_bind snd fst].
  pose proof HW1 as [Hi Ho [Hma Haa] Hl Hc Hd]. destruct l1 as [|x l1].
  - assert (queue1 = None) as -> by (destruct Hqu1 as (_ & -> & _); done). exists bs1. split; [done|]. split; [|done]. split.
    + intros p. apply (queued_none _ _ _ p Hqu1), not_elem_of_nil.
    + done.
    + done.
    + intros p Hp Hact q Hq. destruct (decide (p = a)) as [->|Hne].
      * apply Hd; [apply not_elem_of_nil|done].
      * apply Hc; try done. apply not_elem_of_nil.
  - assert (Hsome : ∃ q, queue1 = Some q).
    { destruct Hqu1 as (_ & -> & _). destruct (last (x :: l1)) as [q|] eqn:E; [by exists q|]. by apply last_None in E. }
    destruct Hsome as [q ->]. destruct (pop_ok x q bs1 l1 Hqu1) as (bs2 & -> & Hqu2 & Hs). cbn [mbind outcome_bind].
    destruct (IH bs2 (last l1) l1 x) as (bs3 & Hloop & Hset & Ha3).
    + apply (working_same _ bs1); [|done]. split; try done.
      * apply Hl. by left.
      * intros p Hp. apply Hl. by right.
      * intros p Hp Hact Hpx Hpl r Hr. destruct (decide (p = a)) as [->|Hpa].
        -- apply Hd; [|done]. by apply not_elem_of_cons.
        -- apply Hc; try done. by apply not_elem_of_cons.
      * intros _ r Hr. by apply not_elem_of_nil in Hr.
    + done.
    + rewrite (total_same _ _ Hs). cbn [length] in Ht. lia.
    + exists bs3. split_and!; [done|done|]. intros p Hp. apply Ha3, (act_core _ _ _ (Hs p)), Ha1, Hp.
Qed.
End Worklist.
