(* ===== verification/FlowAnalysis.v ===== *)
(** * What the flow analysis finds (Flow.v)

    The two loops of [f_analyze] on a graph of fresh blocks: [v_in] holds of the
    variables that some path from the entry accesses before a block, and
    [v_use] of those that some path from the block to the exit reads before it
    assigns them. *)
From stdpp Require Import base list numbers gmap relations.
From S2P Require Import Prelude Lexer Ast Flow FlowGraph.

Section Graph.
Context (g : t_blocks).

Definition edge (p q : t_id) : Prop := q ∈ v_nexts (block p g).

(** The accesses of a block itself. *)
Definition own (p : t_id) (i : nat) : t_private := default new_private (v_block_privates (block p g) !! i).

(** Some path from the entry accesses [i] before it comes to [p]. *)
Definition before (entry p : t_id) (i : nat) : Prop := ∃ q, rtc edge entry q ∧ v_out (own q i) = true ∧ tc edge q p.

(** Some path from [p] to the exit reads [i] before it assigns it. *)
Definition live (junction p : t_id) (i : nat) : Prop :=
  ∃ q, rtc (λ p q, edge p q ∧ v_define (own p i) = false) p q ∧ v_use (own q i) = true ∧ rtc edge q junction.
End Graph.

Lemma tc_first {A} (R : relation A) x y : tc R x y → ∃ z, R x z ∧ rtc R z y.
Proof. intros H. induction H as [x y H|x y z H1 H2 IH]; [by exists y|]. exists y. split; [done|by apply tc_rtc]. Qed.

(** The blocks of a scope before they are analyzed. *)
Definition private_ok (x : t_private) : Prop := v_in x = false ∧ v_out x = v_define x || v_use x.

Record fresh (M : t_id → Prop) (n : nat) (g : t_blocks) : Prop := {
  r_edges p q : q ∈ v_nexts (block p g) ↔ p ∈ v_previouses (block q g);
  r_next p q : M p → edge g p q → M q;
  r_previous p q : M q → edge g p q → M p;
  r_queue p : v_queue (block p g) = None;
  r_block p : M p → v_forward (block p g) = false ∧ v_backward (block p g) = false ∧
    length (v_block_privates (block p g)) ≤ n ∧ Forall private_ok (v_block_privates (block p g));
}.

Lemma resize_lookup n xs i x :
  length xs ≤ n → resize_privates n xs !! i = Some x → x = default new_private (xs !! i) ∧ i < n.
Proof.
  intros Hl Hi. unfold resize_privates in Hi. rewrite take_ge in Hi by done. pose proof (lookup_lt_Some _ _ _ Hi) as Hlt.
  rewrite length_app, length_replicate in Hlt. split; [|lia]. destruct (decide (i < length xs)) as [Hx|Hx].
  - rewrite lookup_app_l in Hi by done. by rewrite Hi.
  - rewrite lookup_app_r in Hi by lia. apply lookup_replicate in Hi as [-> _]. by rewrite lookup_ge_None_2 by lia.
Qed.

Lemma length_resize n xs : length (resize_privates n xs) = n.
Proof. unfold resize_privates. rewrite length_app, length_take, length_replicate. lia. Qed.

(** Counting what a loop has set. *)
Definition unset (P : t_private → bool) (n : nat) (xs : list t_private) : nat := n - length (filter (λ x, P x = true) xs).

Lemma filter_zip_le (P : t_private → bool) (f : t_private → t_private → t_private) (c : t_private → t_private → bool) ys xs :
  (∀ y x, P x = true → P (f y x) = true) → (∀ y x, c y x = true → P (f y x) = true ∧ P x = false) → length ys = length xs →
  length (filter (λ x, P x = true) xs) + (if existsb (λ yx, c yx.1 yx.2) (zip ys xs) then 1 else 0)
    ≤ length (filter (λ x, P x = true) (zip_with f ys xs)).
Proof.
  intros Hf Hc. revert ys. induction xs as [|x xs IH]; intros [|y ys] Hl; try done.
  specialize (IH ys ltac:(cbn in Hl; lia)). cbn [zip_with existsb fst snd zip]. rewrite !filter_cons. destruct (P x) eqn:Ex.
  - rewrite (Hf y x Ex), !decide_True by done. destruct (c y x) eqn:Ec; [destruct (Hc _ _ Ec); congruence|]. cbn [orb length]. lia.
  - rewrite (decide_False (P := false = true)) by done. destruct (c y x) eqn:Ec.
    + destruct (Hc _ _ Ec) as [-> _]. rewrite decide_True by done. cbn [orb length]. destruct (existsb _ _) in IH; lia.
    + cbn [orb]. destruct (P (f y x)); [rewrite decide_True by done; cbn [length]; lia|by rewrite decide_False].
Qed.

Lemma zip_with_same (f : t_private → t_private → t_private) (c : t_private → t_private → bool) ys xs :
  (∀ y x, c y x = false → f y x = x) → length ys = length xs → existsb (λ yx, c yx.1 yx.2) (zip ys xs) = false → zip_with f ys xs = xs.
Proof.
  intros Hf. revert ys. induction xs as [|x xs IH]; intros [|y ys] Hl He; try done. cbn in *.
  apply orb_false_iff in He as [H1 H2]. by rewrite Hf, IH by (done || lia).
Qed.

Lemma filter_le_length (P : t_private → bool) xs : length (filter (λ x, P x = true) xs) ≤ length xs.
Proof. apply length_filter. Qed.

Lemma own_default g p i x : v_block_privates (block p g) !! i = Some x → own g p i = x.
Proof. intros Hx. unfold own. by rewrite Hx. Qed.

Lemma own_ok M n g p i : fresh M n g → M p → private_ok (own g p i).
Proof.
  intros Hg Hp. unfold own. destruct (v_block_privates (block p g) !! i) as [x|] eqn:Hx; [|done].
  destruct (r_block _ _ _ Hg p Hp) as (_ & _ & _ & Hall). rewrite Forall_forall in Hall. by apply Hall, (list_elem_of_lookup_2 _ i).
Qed.

Lemma edge_dom M n g p q : fresh M n g → edge g p q → q ∈ dom g.
Proof.
  intros Hg He. apply (r_edges _ _ _ Hg) in He. unfold block in He. apply elem_of_dom. destruct (g !! q); [by eexists|].
  by apply not_elem_of_nil in He.
Qed.

Lemma total_le (m : t_block → nat) U k bs : (∀ b, m b ≤ k) → total U m bs ≤ length U * k.
Proof. intros Hm. unfold total. induction U as [|u U IH]; cbn; [lia|]. specialize (Hm (block u bs)). lia. Qed.

Section Forward.
Context (M : t_id → Prop) (n : nat) (g : t_blocks) (entry : t_id) (Hg : fresh M n g).

Definition forward_inv (p : t_id) (b : t_block) : Prop :=
  v_nexts b = v_nexts (block p g) ∧ v_previouses b = v_previouses (block p g) ∧ v_backward b = false ∧
  (if v_forward b then length (v_block_privates b) = n ∧ rtc (edge g) entry p else v_block_privates b = v_block_privates (block p g)) ∧
  ∀ i x, v_block_privates b !! i = Some x →
    v_define x = v_define (own g p i) ∧ v_use x = v_use (own g p i) ∧ v_out x = v_in x || v_out (own g p i) ∧
    (v_in x = true → before g entry p i).

Definition forward_sat (xs : list t_private) (b : t_block) : Prop :=
  v_forward b = true ∧ ∀ i a, xs !! i = Some a → v_out a = true → ∃ x, v_block_privates b !! i = Some x ∧ v_in x = true.

Definition forward_left (b : t_block) : nat := (if v_forward b then 0 else 1) + unset v_in n (v_block_privates b).

Lemma enter_in a x : v_in (enter a x) = v_in x || v_out a.
Proof. unfold enter. by destruct (v_out a), (v_in x) eqn:E; cbn; rewrite ?E. Qed.

Lemma enter_same a x : v_out a && negb (v_in x) = false → enter a x = x.
Proof. unfold enter. by intros ->. Qed.

(** What [f_forward] does with a block that has [xs]. *)
Lemma f_forward_eq as_ b xs :
  xs = (if v_forward b then v_block_privates b else resize_privates (length as_) (v_block_privates b)) → length xs = length as_ →
  f_forward as_ b = Ok (negb (v_forward b) || existsb (λ ax, v_out ax.1 && negb (v_in ax.2)) (zip as_ xs), with_forward (zip_with enter as_ xs) b).
Proof.
  intros Hxs Hl. unfold f_forward. assert (E : (if negb (v_forward b) then resize_privates (length as_) (v_block_privates b) else v_block_privates b) = xs).
  { rewrite Hxs. by destruct (v_forward b). }
  rewrite E, decide_False by lia. rewrite drop_ge, app_nil_r by lia. done.
Qed.

Lemma forward_step p bp q bq :
  M p ∧ p ∈ dom g → forward_inv p bp → v_forward bp = true → q ∈ v_nexts bp → forward_inv q bq → M q →
  ∃ c x, f_forward (v_block_privates bp) bq = Ok (c, x) ∧ forward_inv q x ∧ v_nexts x = v_nexts bq ∧ v_queue x = v_queue bq ∧
    v_forward x = true ∧ forward_sat (v_block_privates bp) x ∧ forward_left x + (if c then 1 else 0) ≤ forward_left bq ∧
    (c = false → x = bq) ∧ ∀ xs, forward_sat xs bq → forward_sat xs x.
Proof.
  intros [Hp _] (Hpn & _ & _ & Hpf & Hpx) Hact Hq (Hqn & Hqp & Hqb & Hqf & Hqx) Hmq. rewrite Hact in Hpf. destruct Hpf as [Hlen Hreach].
  assert (Hedge : edge g p q) by (unfold edge; by rewrite <- Hpn).
  set (as_ := v_block_privates bp) in *. set (xs := if v_forward bq then v_block_privates bq else resize_privates n (v_block_privates bq)).
  assert (Hxl : length xs = n) by (subst xs; destruct (v_forward bq); [by destruct Hqf|apply length_resize]).
  assert (Hxs : ∀ i x, xs !! i = Some x → v_define x = v_define (own g q i) ∧ v_use x = v_use (own g q i) ∧
            v_out x = v_in x || v_out (own g q i) ∧ (v_in x = true → before g entry q i)).
  { intros i x Hi. subst xs. destruct (v_forward bq) eqn:Efq; [by apply Hqx|]. rewrite Hqf in Hi.
    destruct (r_block _ _ _ Hg q Hmq) as (_ & _ & Hle & _). apply resize_lookup in Hi as [-> _]; [|done]. fold (own g q i).
    destruct (own_ok _ _ _ q i Hg Hmq) as [E1 E2]. rewrite E1, E2. done. }
  assert (Hle : length (v_block_privates bq) ≤ n).
  { destruct (v_forward bq); [lia|]. rewrite Hqf. apply (r_block _ _ _ Hg q Hmq). }
  rewrite (f_forward_eq as_ bq xs); [|by rewrite Hlen|by rewrite Hxl].
  eexists _, _. split; [done|].
  assert (Hlz : length (zip_with enter as_ xs) = n) by (rewrite length_zip_with; lia).
  assert (Hcount : unset v_in n (zip_with enter as_ xs) + (if existsb (λ ax, v_out ax.1 && negb (v_in ax.2)) (zip as_ xs) then 1 else 0) ≤ unset v_in n xs).
  { unfold unset. pose proof (filter_zip_le v_in enter (λ a x, v_out a && negb (v_in x)) as_ xs) as Hf.
    specialize (Hf ltac:(intros y x Hx; by rewrite enter_in, Hx) ltac:(intros y x [Ho Hn%negb_true_iff]%andb_prop; rewrite enter_in, Hn, Ho; done) ltac:(lia)).
    pose proof (filter_le_length v_in (zip_with enter as_ xs)). rewrite Hlz in *. lia. }
  assert (Hunset : unset v_in n xs ≤ unset v_in n (v_block_privates bq)).
  { subst xs. destruct (v_forward bq); [done|]. unfold unset, resize_privates. rewrite take_ge by done. rewrite filter_app, length_app. lia. }
  split_and!.
  - split_and!; [done|done|done|cbn; split; [done|]; by eapply rtc_r|]. cbn. intros i x Hi.
    apply lookup_zip_with_Some in Hi as (a & y & -> & Ha & Hy). destruct (Hxs i y Hy) as (E1 & E2 & E3 & E4).
    destruct (Hpx i a Ha) as (_ & _ & F3 & F4). rewrite enter_in. split_and!.
    + unfold enter. by destruct (v_out a && negb (v_in y)).
    + unfold enter. by destruct (v_out a && negb (v_in y)).
    + unfold enter. destruct (v_out a) eqn:Ea, (v_in y) eqn:Ey; cbn; rewrite ?E3; done.
    + intros [Hin|Ho]%orb_prop; [by apply E4|]. rewrite Ho in F3. symmetry in F3. apply orb_prop in F3 as [F|F].
      * destruct (F4 F) as (r & Hr1 & Hr2 & Hr3). exists r. split_and!; [done|done|]. by eapply tc_r.
      * exists p. split_and!; [done|done|by apply tc_once].
  - done.
  - done.
  - done.
  - split; [done|]. cbn. intros i a Ha Ho. pose proof (lookup_lt_Some _ _ _ Ha) as Hi.
    destruct (lookup_lt_is_Some_2 xs i ltac:(lia)) as [y Hy]. exists (enter a y). split; [apply lookup_zip_with_Some; by exists a, y|].
    by rewrite enter_in, Ho, orb_true_r.
  - unfold forward_left. cbn. destruct (v_forward bq), (existsb _ _); cbn in *; lia.
  - intros [Hf He]%orb_false_iff. apply negb_false_iff in Hf. rewrite (zip_with_same enter (λ a x, v_out a && negb (v_in x))); [|apply enter_same|lia|done].
    subst xs. rewrite Hf in *. destruct bq. cbn in *. by subst.
  - intros ys [Hf Hys]. split; [done|]. cbn. intros i a Ha Ho. destruct (Hys i a Ha Ho) as (x & Hx & Hin).
    subst xs. rewrite Hf in *. destruct (lookup_lt_is_Some_2 as_ i) as [a' Ha']; [pose proof (lookup_lt_Some _ _ _ Hx); lia|].
    exists (enter a' x). split; [apply lookup_zip_with_Some; by exists a', x|]. by rewrite enter_in, Hin.
Qed.

Lemma forward_inv_core p b b' : core b' = core b → forward_inv p b → forward_inv p b'.
Proof. intros Hc. destruct (core_fields _ _ Hc) as (E1 & E2 & E3 & E4 & E5). unfold forward_inv. by rewrite E1, E2, E3, E4, E5. Qed.

Lemma forward_inv_initial p : M p → forward_inv p (block p g).
Proof.
  intros Hp. destruct (r_block _ _ _ Hg p Hp) as (Hf & Hb & Hl & Hall). unfold forward_inv. rewrite Hf, Hb. split_and!; try done.
  intros i x Hx. rewrite (own_default _ _ _ _ Hx). rewrite Forall_forall in Hall.
  destruct (Hall x) as [E1 E2]; [by eapply list_elem_of_lookup_2|]. by rewrite E1.
Qed.

(** The first block is entered with nothing accessed. *)
Lemma forward_first : M entry → ∃ b x, f_forward (replicate n new_private) (block entry g) = Ok (b, x) ∧
  forward_inv entry x ∧ v_forward x = true ∧ v_queue x = None.
Proof.
  intros He. destruct (r_block _ _ _ Hg entry He) as (Hf & Hb & Hl & Hall).
  rewrite (f_forward_eq _ _ (resize_privates n (v_block_privates (block entry g)))); [|by rewrite Hf, length_replicate|by rewrite length_resize, length_replicate].
  eexists _, _. split; [done|]. rewrite (zip_with_same enter (λ a x, v_out a && negb (v_in x))); [|apply enter_same|by rewrite length_replicate, length_resize|].
  - split; [|split; [done|apply (r_queue _ _ _ Hg)]]. split_and!; [done|done|done|cbn; split; [apply length_resize|done]|]. cbn. intros i x Hi.
    apply resize_lookup in Hi as [-> _]; [|done]. fold (own g entry i). destruct (own_ok _ _ _ entry i Hg He) as [E1 E2]. by rewrite E1, E2.
  - apply not_true_is_false. intros H. apply existsb_exists in H as ([a x] & Hin & Ho). cbn in Ho. apply in_combine_l, list_elem_of_In, elem_of_replicate in Hin as [-> _]. done.
Qed.

Lemma forward_loop : M entry → entry ∈ dom g →
  ∃ b x bs', f_forward (replicate n new_private) (block entry g) = Ok (b, x) ∧
    loop (turns n (on_block entry (const x) g)) (visit_all f_forward v_nexts) entry (on_block entry (const x) g, None) = Ok (bs', None) ∧
    (∀ p, v_queue (block p bs') = None) ∧ (∀ p, M p → forward_inv p (block p bs')) ∧
    (∀ p, ¬ M p → core (block p bs') = core (block p g)) ∧
    ∀ p, rtc (edge g) entry p → M p ∧ v_forward (block p bs') = true ∧ length (v_block_privates (block p bs')) = n ∧
      ∀ i x, v_block_privates (block p bs') !! i = Some x → (v_in x = true ↔ before g entry p i).
Proof.
  intros He Hd. destruct (forward_first He) as (b & x & Hf & Hx & Hfx & Hqx). set (bs1 := on_block entry (const x) g).
  assert (Hbs1 : ∀ p, block p bs1 = if decide (p = entry) then x else block p g).
  { intros p. unfold bs1. case_decide as E; [subst; by rewrite block_on_eq|by rewrite block_on_ne]. }
  set (M' := λ p, M p ∧ p ∈ dom g).
  destruct (loop_ok f_forward v_nexts M' (elements (dom g)) ltac:(intros p [_ Hp]; by apply elem_of_elements) ltac:(apply NoDup_elements)
    forward_left forward_inv (λ p b, v_forward b = true) forward_sat) with (bs0 := bs1) (fuel := turns n bs1) (bs := bs1) (queue := @None t_id) (l := @nil t_id) (a := entry)
    as (bs' & Hloop & Hset & Hact).
  - intros c c' Hc. destruct (core_fields _ _ Hc) as (E1 & _ & E3 & _). unfold forward_left. by rewrite E1, E3.
  - apply forward_inv_core.
  - intros _ c c' Hc. destruct (core_fields _ _ Hc) as (E1 & _). by rewrite E1.
  - intros xs c c' Hc. destruct (core_fields _ _ Hc) as (E1 & _ & E3 & _). unfold forward_sat. by rewrite E1, E3.
  - intros c c' Hc. apply (core_fields _ _ Hc).
  - intros p bp q [Hp _] (Hn & _) Hq. rewrite Hn in Hq. split; [by apply (r_next _ _ _ Hg p)|by apply (edge_dom _ _ _ p q Hg)].
  - intros p bp q bq Hp Hbp Ha Hq Hbq. apply (forward_step p bp q bq); try done. destruct Hbp as (Hn & _). rewrite Hn in Hq. by apply (r_next _ _ _ Hg p), Hq; destruct Hp.
  - split; try done.
    + intros p [Hp _]. rewrite Hbs1. case_decide as E; [by subst|]. by apply forward_inv_initial.
    + split; [done|]. rewrite Hbs1. by rewrite decide_True.
    + intros p Hp. by apply not_elem_of_nil in Hp.
    + intros p [Hp _] Ha Hne. rewrite Hbs1, decide_False in Ha by done. destruct (r_block _ _ _ Hg p Hp) as (E & _). congruence.
    + intros _ q Hq. by apply not_elem_of_nil in Hq.
  - apply queued_empty. intros p. rewrite Hbs1. case_decide; [done|apply (r_queue _ _ _ Hg)].
  - assert (Hsz : size bs1 = length (elements (dom g))).
    { rewrite <- (size_dom (D := gset t_id)). unfold bs1, on_block. rewrite dom_insert_L.
      replace ({[entry]} ∪ dom g) with (dom g) by set_solver. done. }
    unfold turns. rewrite Hsz. cbn [length].
    pose proof (total_le forward_left (elements (dom g)) (n + 1) bs1 ltac:(intros c; unfold forward_left, unset; destruct (v_forward c); lia)). lia.
  - destruct Hset as [Hq Hi Ho Hc]. exists b, x, bs'. rewrite Hf. split_and!; [done|done|done| | |].
    + intros p Hp. destruct (decide (p ∈ dom g)) as [Hpd|Hpd]; [by apply Hi|].
      apply (forward_inv_core p (block p g)); [|by apply forward_inv_initial]. rewrite (Ho p) by (by intros [_ ?]).
      rewrite Hbs1, decide_False by (by intros ->). done.
    + intros p Hp. rewrite (Ho p) by (by intros [? _]). rewrite Hbs1, decide_False by (by intros ->). done.
    + assert (Hcl : ∀ p q, M' p → v_forward (block p bs') = true → edge g p q →
                M' q ∧ forward_sat (v_block_privates (block p bs')) (block q bs')).
      { intros p q Hp Ha Hpq. split; [split; [apply (r_next _ _ _ Hg p), Hpq; apply Hp|by apply (edge_dom _ _ _ p q Hg)]|].
        apply Hc; [done|done|]. destruct (Hi p Hp) as (Hn & _). by rewrite Hn. }
      assert (Hreach : ∀ p, rtc (edge g) entry p → M' p ∧ v_forward (block p bs') = true).
      { intros p Hp. refine (rtc_ind_r (λ p, M' p ∧ v_forward (block p bs') = true) entry _ _ p Hp).
        - split; [done|]. apply Hact. rewrite Hbs1. by rewrite decide_True.
        - intros r q _ Hrq [IH1 IH2]. destruct (Hcl r q IH1 IH2 Hrq) as [Hq' [Hs _]]. done. }
      intros p Hp. destruct (Hreach p Hp) as [Hmp Hap]. destruct (Hi p Hmp) as (Hn & _ & _ & Hlen & Hx'). rewrite Hap in Hlen.
      split_and!; [apply Hmp|done|apply Hlen|]. intros i y Hy. split; [by apply (Hx' i y Hy)|].
      intros (q & Hq' & Hown & Hqp). pose proof (lookup_lt_Some _ _ _ Hy) as Hlt. destruct Hlen as [Hlen _].
      set (inn := λ p, ∃ z, v_block_privates (block p bs') !! i = Some z ∧ v_in z = true).
      assert (Hnext : ∀ q r, rtc (edge g) entry q → edge g q r → inn q ∨ v_out (own g q i) = true → inn r).
      { intros q0 r Hq0 He0 Hio. destruct (Hreach q0 Hq0) as [Hm0 Ha0]. destruct (Hi q0 Hm0) as (_ & _ & _ & Hl0 & Hx0). rewrite Ha0 in Hl0.
        destruct (lookup_lt_is_Some_2 (v_block_privates (block q0 bs')) i ltac:(lia)) as [z Hz].
        destruct (Hcl q0 r Hm0 Ha0 He0) as [_ [_ Hs]]. apply (Hs i z Hz). destruct (Hx0 i z Hz) as (_ & _ & -> & _).
        apply orb_true_iff. destruct Hio as [(z' & Hz' & Hin)|]; [left; congruence|by right]. }
      assert (inn p) as (z & Hz & Hin); [|congruence].
      apply tc_first in Hqp as (r & Hqr & Hrp). assert (Hr : rtc (edge g) entry r) by (by eapply rtc_r).
      refine (proj2 (rtc_ind_r (R := edge g) (λ p, rtc (edge g) entry p ∧ inn p) r _ _ p Hrp)).
      * split; [done|]. apply (Hnext q r); [done|done|by right].
      * intros y1 z _ Hyz [IH1 IH2]. split; [by eapply rtc_r|]. apply (Hnext y1 z); [done|done|by left].
Qed.
End Forward.

(** ** The second loop *)

Lemma leave_use a x : v_use (leave a x) = v_use x || (v_use a && negb (v_define x)).
Proof. unfold leave. by destruct (v_use a), (v_define x), (v_use x) eqn:E; cbn; rewrite ?E. Qed.

Lemma leave_same a x : v_use a && negb (v_define x) && negb (v_use x) = false → leave a x = x.
Proof. unfold leave. by intros ->. Qed.

Lemma leave_others a x : v_in (leave a x) = v_in x ∧ v_out (leave a x) = v_out x ∧ v_define (leave a x) = v_define x.
Proof. unfold leave. by destruct (_ && _). Qed.

(** [h] is what the first loop leaves. *)
Section Backward.
Context (n : nat) (g h : t_blocks) (entry junction : t_id).
Context (Hg : fresh (rtc (edge g) entry) n g).

Record forwarded : Prop := {
  w_queue p : v_queue (block p h) = None;
  w_edges p : rtc (edge g) entry p → v_nexts (block p h) = v_nexts (block p g) ∧ v_previouses (block p h) = v_previouses (block p g);
  w_reach p : rtc (edge g) entry p → v_backward (block p h) = false ∧ length (v_block_privates (block p h)) = n ∧
    ∀ i x, v_block_privates (block p h) !! i = Some x →
      v_define x = v_define (own g p i) ∧ v_use x = v_use (own g p i) ∧ (v_in x = true ↔ before g entry p i);
}.

Context (Hw : forwarded) (Hj : tc (edge g) entry junction).

Definition backward_act (p : t_id) (b : t_block) : Prop := v_backward b = true ∨ p = junction.

Definition backward_inv (p : t_id) (b : t_block) : Prop :=
  v_nexts b = v_nexts (block p g) ∧ v_previouses b = v_previouses (block p g) ∧
  (v_backward b = true → rtc (edge g) p junction) ∧ length (v_block_privates b) = n ∧
  ∀ i x, v_block_privates b !! i = Some x →
    (v_in x = true ↔ before g entry p i) ∧ v_define x = v_define (own g p i) ∧ (v_use (own g p i) = true → v_use x = true) ∧
    (v_use x = true → backward_act p b → live g junction p i) ∧ (v_backward b = false → v_use x = v_use (own g p i)).

Definition backward_sat (xs : list t_private) (b : t_block) : Prop :=
  v_backward b = true ∧ ∀ i a, xs !! i = Some a → v_use a = true →
    ∃ x, v_block_privates b !! i = Some x ∧ (v_define x = true ∨ v_use x = true).

Definition known (x : t_private) : bool := v_define x || v_use x.
Definition backward_left (b : t_block) : nat := (if v_backward b then 0 else 1) + unset known n (v_block_privates b).

Lemma f_backward_eq as_ b : length (v_block_privates b) = length as_ →
  f_backward as_ b = Ok (negb (v_backward b) || existsb (λ ax, v_use ax.1 && negb (v_define ax.2) && negb (v_use ax.2)) (zip as_ (v_block_privates b)),
    with_backward (zip_with leave as_ (v_block_privates b)) b).
Proof. intros Hl. unfold f_backward. rewrite decide_False by lia. rewrite drop_ge, app_nil_r by lia. done. Qed.

Lemma live_here p i : rtc (edge g) p junction → v_use (own g p i) = true → live g junction p i.
Proof. intros Hp Hu. exists p. split_and!; [apply rtc_refl|done|done]. Qed.

Lemma live_before p q i : edge g q p → v_define (own g q i) = false → live g junction p i → live g junction q i.
Proof. intros He Hd (r & Hr & Hu & Hrj). exists r. split_and!; [by eapply rtc_l|done|done]. Qed.

Lemma backward_step p bp q bq :
  backward_inv p bp → backward_act p bp → q ∈ v_previouses bp → backward_inv q bq →
  ∃ c x, f_backward (v_block_privates bp) bq = Ok (c, x) ∧ backward_inv q x ∧ v_previouses x = v_previouses bq ∧ v_queue x = v_queue bq ∧
    backward_act q x ∧ backward_sat (v_block_privates bp) x ∧ backward_left x + (if c then 1 else 0) ≤ backward_left bq ∧
    (c = false → x = bq) ∧ ∀ xs, backward_sat xs bq → backward_sat xs x.
Proof.
  intros (Hpn & Hpp & Hpb & Hpl & Hpx) Hact Hq (Hqn & Hqp & Hqb & Hql & Hqx).
  assert (Hedge : edge g q p) by (apply (r_edges _ _ _ Hg); by rewrite <- Hpp).
  assert (Hpj : rtc (edge g) p junction) by (destruct Hact as [Ha| ->]; [by apply Hpb|apply rtc_refl]).
  assert (Hqj : rtc (edge g) q junction) by (by eapply rtc_l).
  set (as_ := v_block_privates bp) in *. set (xs := v_block_privates bq) in *.
  rewrite f_backward_eq by (fold xs; lia). eexists _, _. split; [done|].
  assert (Hlz : length (zip_with leave as_ xs) = n) by (rewrite length_zip_with; lia).
  split_and!.
  - split_and!; [done|done|done|done|]. cbn. intros i x Hi. apply lookup_zip_with_Some in Hi as (a & y & -> & Ha & Hy).
    destruct (Hqx i y Hy) as (E1 & E2 & E3 & E4 & E5). destruct (leave_others a y) as (F1 & _ & F3). rewrite F1, F3, leave_use. split_and!; [done|done| | |done].
    + intros Hu. by rewrite (E3 Hu).
    + intros [Hu|[Hu Hd%negb_true_iff]%andb_prop]%orb_prop _.
      * destruct (v_backward bq) eqn:Eb; [apply E4; [done|by left]|]. apply live_here; [done|]. by rewrite <- E5.
      * apply (live_before p q); [done|by rewrite <- E2|]. by apply (Hpx i a Ha).
  - done.
  - done.
  - by left.
  - split; [done|]. cbn. intros i a Ha Hu. destruct (lookup_lt_is_Some_2 xs i) as [y Hy]; [pose proof (lookup_lt_Some _ _ _ Ha); lia|].
    exists (leave a y). split; [apply lookup_zip_with_Some; by exists a, y|]. destruct (leave_others a y) as (_ & _ & ->).
    rewrite leave_use, Hu. destruct (v_define y); [by left|right; by rewrite orb_true_r].
  - unfold backward_left, unset. cbn. fold xs.
    pose proof (filter_zip_le known leave (λ a x, v_use a && negb (v_define x) && negb (v_use x)) as_ xs) as Hf.
    specialize (Hf ltac:(intros y x Hx; unfold known in *; destruct (leave_others y x) as (_ & _ & ->); rewrite leave_use; by destruct (v_define x), (v_use x))
      ltac:(intros y x [[Hu Hd%negb_true_iff]%andb_prop Hx%negb_true_iff]%andb_prop; unfold known; rewrite leave_use, Hu, Hd, Hx; cbn; rewrite orb_true_r; done) ltac:(lia)).
    pose proof (filter_le_length known (zip_with leave as_ xs)). rewrite Hlz in *. destruct (v_backward bq), (existsb _ _); cbn in *; lia.
  - intros [Hb He]%orb_false_iff. apply negb_false_iff in Hb.
    rewrite (zip_with_same leave (λ a x, v_use a && negb (v_define x) && negb (v_use x))); [|apply leave_same|fold xs; lia|done].
    destruct bq. cbn in *. by subst.
  - intros ys [Hb Hys]. split; [done|]. cbn. intros i a Ha Hu. destruct (Hys i a Ha Hu) as (x & Hx & Hdu).
    destruct (lookup_lt_is_Some_2 as_ i) as [a' Ha']; [pose proof (lookup_lt_Some _ _ _ Hx); subst xs as_; lia|].
    exists (leave a' x). split; [apply lookup_zip_with_Some; by exists a', x|]. destruct (leave_others a' x) as (_ & _ & ->).
    rewrite leave_use. destruct Hdu as [->| ->]; [by left|by right].
Qed.

Lemma backward_inv_core p b b' : core b' = core b → backward_inv p b → backward_inv p b'.
Proof. intros Hc. destruct (core_fields _ _ Hc) as (E1 & E2 & E3 & E4 & E5). unfold backward_inv, backward_act. by rewrite E2, E3, E4, E5. Qed.

Lemma backward_inv_initial p : rtc (edge g) entry p → backward_inv p (block p h).
Proof.
  intros Hp. destruct (w_edges Hw p Hp) as [E1 E2]. destruct (w_reach Hw p Hp) as (Hb & Hl & Hx). unfold backward_inv, backward_act.
  rewrite Hb. split_and!; [done|done|done|done|]. intros i x Hi. destruct (Hx i x Hi) as (F1 & F2 & F3). split_and!; [done|done|by rewrite F2| |done].
  intros Hu [?| ->]; [done|]. apply live_here; [apply rtc_refl|]. by rewrite <- F2.
Qed.

Lemma reach_dom p : rtc (edge g) entry p → p ∈ dom g.
Proof.
  intros Hp. destruct (rtc_inv_r _ _ Hp) as [<-|(q & _ & Hq)]; [|by apply (edge_dom _ _ _ q p Hg)].
  apply tc_first in Hj as (r & Hr & _). unfold edge, block in Hr. apply elem_of_dom. destruct (g !! entry); [by eexists|]. by apply not_elem_of_nil in Hr.
Qed.

(** What the two loops settle. *)
Definition exact (p : t_id) (b : t_block) : Prop :=
  length (v_block_privates b) = n ∧ ∀ i x, v_block_privates b !! i = Some x →
    (v_in x = true ↔ before g entry p i) ∧ v_define x = v_define (own g p i) ∧ (v_use x = true ↔ live g junction p i).

Lemma backward_loop fuel : size g * (n + 1) < fuel →
  ∃ bs, loop fuel (visit_all f_backward v_previouses) junction (h, None) = Ok (bs, None) ∧
    (∀ p, ¬ rtc (edge g) entry p → core (block p bs) = core (block p h)) ∧
    ∀ p, rtc (edge g) entry p → rtc (edge g) p junction → exact p (block p bs).
Proof.
  intros Hfuel. set (M := λ p, rtc (edge g) entry p).
  assert (Hsz : length (elements (dom g)) = size g) by (rewrite <- (size_dom (D := gset t_id)); done).
  assert (Hc1 : ∀ b b', core b' = core b → backward_left b' = backward_left b).
  { intros b b' Hc. destruct (core_fields _ _ Hc) as (_ & E2 & E3 & _). unfold backward_left. by rewrite E2, E3. }
  destruct (loop_ok f_backward v_previouses M (elements (dom g)) ltac:(intros p Hp; by apply elem_of_elements, reach_dom) ltac:(apply NoDup_elements)
    backward_left backward_inv backward_act backward_sat) with (bs0 := h) (fuel := fuel) (bs := h) (queue := @None t_id) (l := @nil t_id) (a := junction)
    as (bs & Hloop & [Hq Hi Ho Hc] & Hact).
  - done.
  - apply backward_inv_core.
  - intros p b b' Hb. destruct (core_fields _ _ Hb) as (_ & E2 & _). unfold backward_act. by rewrite E2.
  - intros xs b b' Hb. destruct (core_fields _ _ Hb) as (_ & E2 & E3 & _). unfold backward_sat. by rewrite E2, E3.
  - intros b b' Hb. apply (core_fields _ _ Hb).
  - intros p bp q Hp (_ & Hpp & _) Hq. rewrite Hpp in Hq. apply (r_previous _ _ _ Hg q p Hp). by apply (r_edges _ _ _ Hg).
  - intros p bp q bq _ Hbp Ha Hq Hbq. by apply (backward_step p bp q bq).
  - split; try done.
    + intros p Hp. by apply backward_inv_initial.
    + split; [by apply tc_rtc|by right].
    + intros p Hp. by apply not_elem_of_nil in Hp.
    + intros p Hp [Ha| ->] Hne; [|done]. destruct (w_reach Hw p Hp) as (E & _). congruence.
    + intros _ q Hq. by apply not_elem_of_nil in Hq.
  - apply queued_empty. intros p. apply (w_queue Hw).
  - pose proof (total_le backward_left (elements (dom g)) (n + 1) h ltac:(intros c; unfold backward_left, unset; destruct (v_backward c); lia)). cbn [length]. lia.
  - exists bs. split_and!; [done|done|].
    assert (Hcl : ∀ p q, M p → backward_act p (block p bs) → edge g q p → M q ∧ backward_sat (v_block_privates (block p bs)) (block q bs)).
    { intros p q Hp Ha Hqp. split; [by apply (r_previous _ _ _ Hg q p)|]. apply Hc; [done|done|]. destruct (Hi p Hp) as (_ & Hpp & _).
      rewrite Hpp. by apply (r_edges _ _ _ Hg). }
    assert (Hreach : ∀ p, rtc (edge g) p junction → M p ∧ backward_act p (block p bs)).
    { intros p Hp. refine (rtc_ind_l (λ p, M p ∧ backward_act p (block p bs)) junction _ _ p Hp).
      - split; [by apply tc_rtc|by right].
      - intros q r Hqr _ [IH1 IH2]. destruct (Hcl r q IH1 IH2 Hqr) as [Hq' [Hs _]]. split; [done|by left]. }
    intros p Hp Hpj. destruct (Hi p Hp) as (_ & _ & _ & Hlen & Hx). split; [done|]. intros i x Hix.
    destruct (Hx i x Hix) as (E1 & E2 & E3 & E4 & _). split_and!; [done|done|]. split; [intros Hu; by apply E4, Hreach|].
    intros (q & Hpq & Hu & Hqj). clear Hp Hpj E1 E2 E3 E4 Hx Hlen. revert x Hix.
    induction Hpq as [p|p r q [Hpr Hd] Hrq IH]; intros x Hix.
    + destruct (Hreach p Hqj) as [Hmp _]. destruct (Hi p Hmp) as (_ & _ & _ & _ & Hx). by apply (Hx i x Hix).
    + assert (Hrj : rtc (edge g) r junction).
      { etrans; [|exact Hqj]. clear -Hrq. induction Hrq as [|? ? ? [? _] ? ?]; [apply rtc_refl|by eapply rtc_l]. }
      destruct (Hreach r Hrj) as [Hmr Har]. destruct (Hcl r p Hmr Har Hpr) as [Hmp [_ Hs]].
      destruct (Hi r Hmr) as (_ & _ & _ & Hlr & _). destruct (Hi p Hmp) as (_ & _ & _ & Hlp & Hx).
      destruct (lookup_lt_is_Some_2 (v_block_privates (block r bs)) i) as [z Hz]; [pose proof (lookup_lt_Some _ _ _ Hix); lia|].
      destruct (Hs i z Hz (IH Hu Hqj z Hz)) as (x' & Hx' & Hdu). rewrite Hix in Hx'. injection Hx' as <-.
      destruct (Hx i x Hix) as (_ & E2 & _). destruct Hdu as [Hd'|]; [congruence|done].
Qed.
End Backward.

(** C13 (analysis_is_exact): [f_analyze] ends within its fuel without a fault
    on a graph of fresh blocks that its body built: every block that lies
    between the entry and the exit knows exactly the variables that some path
    from the entry accesses before it, and those that some path to the exit
    reads from it on before it assigns them; blocks that the entry does not
    reach are as they were. *)
Theorem analysis_is_exact (entry junction : t_id) (n : nat) (body : t_point → outcome t_point) (bs0 : t_blocks) (s : t_point) :
  body (entry, bs0) = Ok s → let g := (link junction s).2 in
  fresh (rtc (edge g) entry) n g → tc (edge g) entry junction →
  ∃ bs, f_analyze entry junction n body bs0 = Ok bs ∧
    (∀ p, ¬ rtc (edge g) entry p → core (block p bs) = core (block p g)) ∧
    ∀ p, rtc (edge g) entry p → rtc (edge g) p junction → exact n g entry junction p (block p bs).
Proof.
  intros Hbody g Hg Hj. unfold f_analyze. rewrite Hbody. cbn [mbind outcome_bind]. fold g.
  assert (Hd : entry ∈ dom g) by (eapply reach_dom; [done|done|apply rtc_refl]).
  destruct (forward_loop _ n g entry Hg ltac:(apply rtc_refl) Hd) as (b & x & h & Hf & Hloop & Hq & Hi & Ho & Hr).
  rewrite Hf. cbn [mbind outcome_bind]. set (bs1 := on_block entry (const x) g) in *. rewrite Hloop. cbn [mbind outcome_bind fst].
  assert (Hsz : size bs1 = size g).
  { rewrite <- !(size_dom (D := gset t_id)). unfold bs1, on_block. rewrite dom_insert_L. f_equal. set_solver. }
  destruct (backward_loop n g h entry junction Hg) with (fuel := turns n bs1) as (bs & -> & Hob & Hex); [|done|unfold turns; rewrite Hsz; lia|].
  - split; [done| |].
    + intros p Hp. by destruct (Hi p Hp) as (E1 & E2 & _).
    + intros p Hp. destruct (Hi p Hp) as (_ & _ & E3 & _ & Hx). destruct (Hr p Hp) as (_ & _ & Hl & Hin). split_and!; [done|done|].
      intros i y Hy. destruct (Hx i y Hy) as (F1 & F2 & _). split_and!; [done|done|by apply Hin].
  - exists bs. split_and!; [done| |done]. intros p Hp. by rewrite Hob, Ho.
Qed.
