(* ===== verification/Emit.v ===== *)
(** * Code generation (src: include/xemmai/ast.h, src/ast.cc, include/xemmai/code.h)

    [f_emit] of every node appends instructions to the code of the lambda it
    belongs to.  An operand that is an offset of a value from the base of the
    frame, [f_in_bytes(n)] in the source, is the number [n] here.  A jump
    refers to a label until [f_resolve] puts the address in; the address of an
    instruction counts the words before it.

    [v_stack] is the height of the frame at the instruction to be emitted, and
    the size of the code is the greatest height. *)
From stdpp Require Import base list numbers strings gmap.
From S2P Require Import Prelude Machine Lexer Ast Types Operators Flow.
Local Open Scope Z_scope.

(** ** Instructions *)

(** The objects that code refers to: [null], booleans and slots of the module. *)
Inductive constant := Constant_null | Constant_boolean (b : bool) | Constant_slot (o : t_slot).

(** [ast::t_operand] *)
Inductive t_operand :=
| c_tag__INTEGER (v_integer : Z)
| c_tag__FLOAT (v_float : double)
| c_tag__LITERAL (v_value : constant)
| c_tag__VARIABLE (v_index : Z)
| c_tag__TEMPORARY.

Definition is_temporary (o : t_operand) : bool := match o with c_tag__TEMPORARY => true | _ => false end.

Inductive t_place := Label (label : nat) | Address (address : nat).

Inductive t_try := c_try__CATCH | c_try__STEP | c_try__BREAK | c_try__CONTINUE | c_try__RETURN | c_try__THROW.

(** The instructions with their operands.  Those that look up a member have
    one more operand, the index for the next lookup, which is 0 at first. *)
Inductive t_op :=
| JUMP (to : t_place)
| BRANCH (stack : Z) (to : t_place)
| TRY (stack : Z) (catch finally : t_place)
| CATCH (next : t_place) (shared : bool) (index : Z)
| FINALLY (try : t_try)
| YRT (break continue return_ : option t_place)
| THROW (stack : Z)
| OBJECT_GET (stack : Z) (key : t_symbol)
| OBJECT_GET_INDIRECT (stack : Z)
| OBJECT_PUT (stack : Z) (key : t_symbol)
| OBJECT_PUT_INDIRECT (stack : Z)
| OBJECT_HAS (stack : Z) (key : t_symbol)
| OBJECT_HAS_INDIRECT (stack : Z)
| METHOD_GET (stack : Z) (key : t_symbol)
| METHOD_BIND (stack : Z)
| GLOBAL_GET (stack : Z) (key : t_symbol)
| STACK_GET (stack index : Z)
| STACK_PUT (stack index : Z)
| SCOPE_GET0 (stack index : Z)
| SCOPE_GET1 (stack index : Z)
| SCOPE_GET2 (stack index : Z)
| SCOPE_GET (stack outer index : Z)
| SCOPE_PUT0 (stack index : Z)
| SCOPE_PUT (stack outer index : Z)
| LAMBDA (stack : Z) (code : nat)
| ADVANCED_LAMBDA (stack : Z) (code : nat)
| SELF (stack : Z)
| CLASS (stack : Z)
| SUPER (stack : Z)
| NUL (stack : Z)
| INTEGER (stack value : Z)
| FLOAT (stack : Z) (value : double)
| INSTANCE (stack : Z) (value : constant)
| RETURN_NUL
| RETURN_INTEGER (value : Z)
| RETURN_FLOAT (value : double)
| RETURN_INSTANCE (value : constant)
| RETURN (index : Z)
| CALL (tail : bool) (stack n : Z)
| CALL_WITH_EXPANSION (tail : bool) (stack n : Z) (rest : list Z)
| STACK_CALL (tail : bool) (stack index n : Z)
| SCOPE_CALL (outer : nat) (tail : bool) (stack index n : Z)
| GET_AT (tail : bool) (stack : Z)
| SET_AT (tail : bool) (stack : Z)
| UNARY (instruction : t_instruction) (tail : bool) (stack : Z) (operand : t_operand)
| BINARY (instruction : t_instruction) (tail : bool) (stack : Z) (left right : t_operand)
| SAFE_POINT.

Definition operand_words (o : t_operand) : nat := if is_temporary o then 0 else 1.

(** The number of words of an instruction. *)
Definition words (i : t_op) : nat :=
  match i with
  | RETURN_NUL | SAFE_POINT => 1
  | JUMP _ | FINALLY _ | THROW _ | METHOD_BIND _ | SELF _ | CLASS _ | SUPER _ | NUL _
  | RETURN_INTEGER _ | RETURN_FLOAT _ | RETURN_INSTANCE _ | RETURN _ | GET_AT _ _ | SET_AT _ _ => 2
  | BRANCH _ _ | CATCH _ _ _ | OBJECT_GET_INDIRECT _ | OBJECT_PUT_INDIRECT _ | OBJECT_HAS_INDIRECT _
  | STACK_GET _ _ | STACK_PUT _ _ | SCOPE_GET0 _ _ | SCOPE_GET1 _ _ | SCOPE_GET2 _ _ | SCOPE_PUT0 _ _
  | LAMBDA _ _ | ADVANCED_LAMBDA _ _ | INTEGER _ _ | FLOAT _ _ | INSTANCE _ _ | CALL _ _ _ => 3
  | TRY _ _ _ | YRT _ _ _ | OBJECT_GET _ _ | OBJECT_PUT _ _ | OBJECT_HAS _ _ | METHOD_GET _ _ | GLOBAL_GET _ _
  | SCOPE_GET _ _ _ | SCOPE_PUT _ _ _ | STACK_CALL _ _ _ _ | SCOPE_CALL _ _ _ _ _ => 4
  | CALL_WITH_EXPANSION _ _ _ rest => 3 + length rest
  | UNARY _ _ _ o => 2 + operand_words o
  | BINARY _ _ _ l r => 2 + operand_words l + operand_words r
  end.

(** ** The state of the generator *)

(** [t_code] *)
Record t_code := {
  code_shared : bool;
  code_variadic : bool;
  code_size : Z;
  code_privates : Z;
  code_shareds : Z;
  code_arguments : Z;
  code_minimum : Z;
  code_instructions : list t_op;
  code_ats : list (t_at * nat);
}.

Definition new_code (a_shared a_variadic : bool) (a_privates a_shareds a_arguments a_minimum : Z) : t_code :=
  {| code_shared := a_shared; code_variadic := a_variadic; code_size := a_privates; code_privates := a_privates;
     code_shareds := a_shareds; code_arguments := a_arguments; code_minimum := a_minimum;
     code_instructions := []; code_ats := [] |}.

Definition with_size (n : Z) (c : t_code) : t_code :=
  {| code_shared := code_shared c; code_variadic := code_variadic c; code_size := n; code_privates := code_privates c;
     code_shareds := code_shareds c; code_arguments := code_arguments c; code_minimum := code_minimum c;
     code_instructions := code_instructions c; code_ats := code_ats c |}.
Definition with_instructions (ops : list t_op) (c : t_code) : t_code :=
  {| code_shared := code_shared c; code_variadic := code_variadic c; code_size := code_size c; code_privates := code_privates c;
     code_shareds := code_shareds c; code_arguments := code_arguments c; code_minimum := code_minimum c;
     code_instructions := ops; code_ats := code_ats c |}.
Definition with_ats (l : list (t_at * nat)) (c : t_code) : t_code :=
  {| code_shared := code_shared c; code_variadic := code_variadic c; code_size := code_size c; code_privates := code_privates c;
     code_shareds := code_shareds c; code_arguments := code_arguments c; code_minimum := code_minimum c;
     code_instructions := code_instructions c; code_ats := l |}.

Definition address (ops : list t_op) : nat := sum_list (words <$> ops).

(** [t_emit::t_targets]; labels are indices of [v_labels]. *)
Record t_targets := {
  v_break : option nat;
  v_break_junction : option t_id;
  v_break_stack : Z;
  v_break_is_tail : bool;
  v_break_must_clear : bool;
  v_continue : option nat;
  v_continue_junction : option t_id;
  v_return : option nat;
  v_return_junction : option t_id;
  v_return_stack : Z;
  v_return_is_tail : bool;
}.

(** [t_emit]: [v_codes] are the codes of the lambdas so far, [v_scope] is the
    number of privates of the scope, and [v_labels] the targets of labels. *)
Record t_emit := {
  v_codes : list t_code;
  v_scope_size : Z;
  v_code : t_code;
  v_arguments : Z;
  v_emit_privates : list bool;
  v_stack : Z;
  v_labels : list (option nat);
  v_targets : t_targets;
}.

Definition set_codes (x : list t_code) (s : t_emit) : t_emit :=
  {| v_codes := x; v_scope_size := v_scope_size s; v_code := v_code s; v_arguments := v_arguments s;
     v_emit_privates := v_emit_privates s; v_stack := v_stack s; v_labels := v_labels s; v_targets := v_targets s |}.
Definition set_code (x : t_code) (s : t_emit) : t_emit :=
  {| v_codes := v_codes s; v_scope_size := v_scope_size s; v_code := x; v_arguments := v_arguments s;
     v_emit_privates := v_emit_privates s; v_stack := v_stack s; v_labels := v_labels s; v_targets := v_targets s |}.
Definition set_privates (x : list bool) (s : t_emit) : t_emit :=
  {| v_codes := v_codes s; v_scope_size := v_scope_size s; v_code := v_code s; v_arguments := v_arguments s;
     v_emit_privates := x; v_stack := v_stack s; v_labels := v_labels s; v_targets := v_targets s |}.
Definition set_stack (x : Z) (s : t_emit) : t_emit :=
  {| v_codes := v_codes s; v_scope_size := v_scope_size s; v_code := v_code s; v_arguments := v_arguments s;
     v_emit_privates := v_emit_privates s; v_stack := x; v_labels := v_labels s; v_targets := v_targets s |}.
Definition set_labels (x : list (option nat)) (s : t_emit) : t_emit :=
  {| v_codes := v_codes s; v_scope_size := v_scope_size s; v_code := v_code s; v_arguments := v_arguments s;
     v_emit_privates := v_emit_privates s; v_stack := v_stack s; v_labels := x; v_targets := v_targets s |}.
Definition set_targets (x : t_targets) (s : t_emit) : t_emit :=
  {| v_codes := v_codes s; v_scope_size := v_scope_size s; v_code := v_code s; v_arguments := v_arguments s;
     v_emit_privates := v_emit_privates s; v_stack := v_stack s; v_labels := v_labels s; v_targets := x |}.

(** A computation of the generator. *)
Definition E (A : Type) : Type := t_emit → outcome (A * t_emit).

#[export] Instance E_ret : MRet E := λ A a s, Ok (a, s).
#[export] Instance E_bind : MBind E := λ A B f m s, match m s with Ok (a, s) => f a s | Throw e => Throw e | Fault => Fault end.

Definition gets {A} (f : t_emit → A) : E A := λ s, Ok (f s, s).
Definition modify (f : t_emit → t_emit) : E () := λ s, Ok ((), f s).
Definition fault {A} : E A := λ _, Fault.
Definition when (b : bool) (m : E ()) : E () := if b then m else mret ().

Definition assert_ (p : t_emit → bool) : E () := λ s, if p s then Ok ((), s) else Fault.

(** [operator<<] of an instruction and its operands. *)
Definition emit (i : t_op) : E () :=
  modify (λ s, set_code (with_instructions (code_instructions (v_code s) ++ [i]) (v_code s)) s).

Definition f_last : E nat := gets (λ s, address (code_instructions (v_code s))).

Definition f_push : E () :=
  modify (λ s,
    let n := v_stack s + 1 in
    set_stack n (if code_size (v_code s) <? n then set_code (with_size n (v_code s)) s else s)).

Definition f_pop : E () := modify (λ s, set_stack (v_stack s - 1) s).

Definition f_label : E nat := λ s, Ok (length (v_labels s), set_labels (v_labels s ++ [None]) s).

Definition f_target (a_label : nat) : E () :=
  modify (λ s, set_labels (<[a_label := Some (address (code_instructions (v_code s)))]> (v_labels s)) s).

Definition f_at (a_at : t_at) : E () :=
  modify (λ s, set_code (with_ats (code_ats (v_code s) ++ [(a_at, address (code_instructions (v_code s)))]) (v_code s)) s).

Definition f_emit_null : E () := n ← gets v_stack; _ ← emit (NUL n); f_push.

(** [f_resolve]: the address of a label; a label without a target has none. *)
Definition resolve_place (labels : list (option nat)) (p : t_place) : outcome t_place :=
  match p with
  | Label l => match labels !! l with Some (Some a) => Ok (Address a) | _ => Fault end
  | Address a => Ok (Address a)
  end.

Definition resolve_option (labels : list (option nat)) (p : option t_place) : outcome (option t_place) :=
  match p with Some p => p ← resolve_place labels p; Ok (Some p) | None => Ok None end.

Definition resolve_op (labels : list (option nat)) (i : t_op) : outcome t_op :=
  match i with
  | JUMP to => to ← resolve_place labels to; Ok (JUMP to)
  | BRANCH stack to => to ← resolve_place labels to; Ok (BRANCH stack to)
  | TRY stack catch finally =>
    catch ← resolve_place labels catch; finally ← resolve_place labels finally; Ok (TRY stack catch finally)
  | CATCH next shared index => next ← resolve_place labels next; Ok (CATCH next shared index)
  | YRT break continue return_ =>
    break ← resolve_option labels break; continue ← resolve_option labels continue; return_ ← resolve_option labels return_;
    Ok (YRT break continue return_)
  | _ => Ok i
  end.

Fixpoint resolve_all (labels : list (option nat)) (ops : list t_op) : outcome (list t_op) :=
  match ops with
  | [] => Ok []
  | i :: ops => i ← resolve_op labels i; ops ← resolve_all labels ops; Ok (i :: ops)
  end.

Definition f_resolve : E () := λ s,
  ops ← resolve_all (v_labels s) (code_instructions (v_code s));
  Ok ((), set_code (with_instructions ops (v_code s)) s).

(** A label or a junction of the targets, which a jump dereferences. *)
Definition the {A} (x : option A) : E A := match x with Some x => mret x | None => fault end.

(** ** Operands and constants *)

Definition unary_of (i : t_instruction) : option unary :=
  match i with
  | c_instruction__PLUS_T => Some PLUS
  | c_instruction__MINUS_T => Some MINUS
  | c_instruction__NOT_T => Some NOT
  | c_instruction__COMPLEMENT_T => Some COMPLEMENT
  | _ => None
  end.

Definition binary_of (i : t_instruction) : option binary :=
  match i with
  | c_instruction__MULTIPLY_TT => Some MULTIPLY
  | c_instruction__DIVIDE_TT => Some DIVIDE
  | c_instruction__MODULUS_TT => Some MODULUS
  | c_instruction__ADD_TT => Some ADD
  | c_instruction__SUBTRACT_TT => Some SUBTRACT
  | c_instruction__LEFT_SHIFT_TT => Some LEFT_SHIFT
  | c_instruction__RIGHT_SHIFT_TT => Some RIGHT_SHIFT
  | c_instruction__LESS_TT => Some LESS
  | c_instruction__LESS_EQUAL_TT => Some LESS_EQUAL
  | c_instruction__GREATER_TT => Some GREATER
  | c_instruction__GREATER_EQUAL_TT => Some GREATER_EQUAL
  | c_instruction__EQUALS_TT => Some EQUALS
  | c_instruction__NOT_EQUALS_TT => Some NOT_EQUALS
  | c_instruction__IDENTICAL_TT => Some IDENTICAL
  | c_instruction__NOT_IDENTICAL_TT => Some NOT_IDENTICAL
  | c_instruction__AND_TT => Some AND
  | c_instruction__XOR_TT => Some XOR
  | c_instruction__OR_TT => Some OR
  | _ => None
  end.

(** The operand as the folding of Operators.v sees it. *)
Definition number_operand (o : t_operand) : option Operators.t_operand :=
  match o with
  | c_tag__INTEGER z => Some (Operators.c_tag__INTEGER z)
  | c_tag__FLOAT d => Some (Operators.c_tag__FLOAT d)
  | _ => None
  end.

(** The result of folding, [None] if the operands are not numbers; an operator
    that is not one of these fails an assertion. *)
Definition fold1 (i : t_instruction) (o : t_operand) : option (outcome value) :=
  o ← number_operand o;
  match unary_of i with Some op => fold_unary op o | None => Some Fault end.

Definition fold2 (i : t_instruction) (l r : t_operand) : option (outcome value) :=
  l ← number_operand l; r ← number_operand r;
  match binary_of i with Some op => fold_binary op l r | None => Some Fault end.

Definition constant_operand (v : value) : outcome t_operand :=
  match v with
  | Integer z => Ok (c_tag__INTEGER z)
  | Float d => Ok (c_tag__FLOAT d)
  | Boolean b => Ok (c_tag__LITERAL (Constant_boolean b))
  | Null | Object _ => Fault
  end.

Definition lift {A} (m : outcome A) : E A := λ s, match m with Ok a => Ok (a, s) | Throw e => Throw e | Fault => Fault end.

Definition literal_operand (x : @t_literal double) : t_operand :=
  match x with
  | Literal_object o => c_tag__LITERAL (Constant_slot o)
  | Literal_bool b => c_tag__LITERAL (Constant_boolean b)
  | Literal_integer i => c_tag__INTEGER i
  | Literal_float f => c_tag__FLOAT f
  end.

(** The instruction that puts a constant into a variable or the frame: for a
    [t_literal], which is never null, and for [t_scope_put]. *)
Definition constant_op (stack : Z) (v : t_operand) : option t_op :=
  match v with
  | c_tag__INTEGER z => Some (INTEGER stack z)
  | c_tag__FLOAT d => Some (FLOAT stack d)
  | c_tag__LITERAL Constant_null => Some (NUL stack)
  | c_tag__LITERAL v => Some (INSTANCE stack v)
  | _ => None
  end.

Definition constant_return (v : t_operand) : option t_op :=
  match v with
  | c_tag__INTEGER z => Some (RETURN_INTEGER z)
  | c_tag__FLOAT d => Some (RETURN_FLOAT d)
  | c_tag__LITERAL v => Some (RETURN_INSTANCE v)
  | _ => None
  end.

Section Emit.
Context (scopes : list t_scope) (blocks : t_blocks) (v_safe_points : bool).

Definition f_emit_safe_point (a_at : t_at) : E () := when v_safe_points (_ ← emit SAFE_POINT; f_at a_at).

(** [f_join]: the variables that may have been accessed before a junction on
    some path, and are read after it, are initialized on this path. *)
Fixpoint join_from (i : nat) (xs : list t_private) : E () :=
  match xs with
  | [] => mret ()
  | x :: xs =>
    privates ← gets v_emit_privates;
    _ ← match privates !! i with
        | None => fault
        | Some true => mret ()
        | Some false => when (v_use x && v_in x) (a ← gets v_arguments; emit (NUL (a + Z.of_nat i)))
        end;
    join_from (S i) xs
  end.

Definition f_join (a_junction : t_id) : E () := join_from 0 (v_block_privates (block a_junction blocks)).

Definition f_merge (a_junction : t_id) : E () := λ s,
  let xs := v_block_privates (block a_junction blocks) in
  if decide (length (v_emit_privates s) < length xs)%nat then Fault
  else Ok ((), set_privates ((v_out <$> xs) ++ drop (length xs) (v_emit_privates s)) s).

(** [f_emit] of a node: [a_tail], [a_operand] and [a_clear]. *)
Definition t_emitter : Type := bool → bool → bool → E t_operand.

Definition temporary : E t_operand := mret c_tag__TEMPORARY.

(** The value of an expression on the frame. *)
Definition push_value (e : t_emitter) : E () := _ ← e false false false; mret ().

(** An instruction that leaves a value: [f_at], and [f_pop] if it is not used. *)
Definition at_and_clear (a_at : t_at) (a_clear : bool) : E t_operand := _ ← f_at a_at; _ ← when a_clear f_pop; temporary.

Definition emit_literal (v_at : t_at) (v_value : t_operand) : t_emitter := λ a_tail a_operand a_clear,
  if a_operand then mret v_value
  else if a_clear then temporary
  else
    _ ← (if a_tail then _ ← f_emit_safe_point v_at; i ← the (constant_return v_value); emit i
         else n ← gets v_stack; i ← the (constant_op n v_value); emit i);
    _ ← f_push; _ ← f_at v_at; temporary.

Definition emit_null (v_at : t_at) : t_emitter := λ a_tail a_operand a_clear,
  if a_operand then mret (c_tag__LITERAL Constant_null)
  else if a_clear then temporary
  else
    _ ← (if a_tail then _ ← f_emit_safe_point v_at; _ ← emit RETURN_NUL; f_push else f_emit_null);
    _ ← f_at v_at; temporary.

(** [t_nodes::f_emit] *)
Fixpoint emit_nodes (xs : list t_emitter) (a_tail a_clear : bool) : E t_operand :=
  match xs with
  | [] => _ ← when (negb a_clear) f_emit_null; temporary
  | [x] => _ ← x a_tail false a_clear; temporary
  | x :: xs => _ ← x false false true; emit_nodes xs a_tail a_clear
  end.

Fixpoint emit_all (xs : list t_emitter) : E () :=
  match xs with [] => mret () | x :: xs => _ ← push_value x; emit_all xs end.

Fixpoint f_pops (n : nat) : E () := match n with O => mret () | S n => _ ← f_pop; f_pops n end.

(** The condition of [if], [while] and [for], which may be absent. *)
Definition emit_condition (condition : option t_emitter) (label0 : nat) : E () :=
  match condition with
  | Some condition => _ ← push_value condition; _ ← f_pop; n ← gets v_stack; emit (BRANCH n (Label label0))
  | None => mret ()
  end.

Definition emit_if (path : list nat) (condition : option t_emitter) (yes no : t_emitter) : t_emitter := λ a_tail _ a_clear,
  label0 ← f_label;
  _ ← emit_condition condition label0;
  privates ← gets v_emit_privates;
  stack ← gets v_stack;
  _ ← yes a_tail false a_clear;
  _ ← f_join (path, 2%nat);
  label1 ← f_label;
  _ ← emit (JUMP (Label label1));
  _ ← f_target label0;
  _ ← modify (set_privates privates);
  _ ← modify (set_stack stack);
  _ ← no a_tail false a_clear;
  _ ← f_join (path, 2%nat);
  _ ← f_target label1;
  _ ← f_merge (path, 2%nat);
  temporary.

(** The targets of the body of a loop. *)
Definition loop_targets (break0 : nat) (v_junction_exit : t_id) (stack : Z) (a_tail a_clear : bool) (continue0 : nat)
    (v_junction_continue : t_id) (targets0 : t_targets) : t_targets :=
  {| v_break := Some break0; v_break_junction := Some v_junction_exit; v_break_stack := stack; v_break_is_tail := a_tail;
     v_break_must_clear := a_clear; v_continue := Some continue0; v_continue_junction := Some v_junction_continue;
     v_return := v_return targets0; v_return_junction := v_return_junction targets0; v_return_stack := v_return_stack targets0;
     v_return_is_tail := v_return_is_tail targets0 |}.

Definition emit_while (path : list nat) (condition : option t_emitter) (body : t_emitter) : t_emitter := λ a_tail _ a_clear,
  let v_junction_condition := (path, 0%nat) in
  let v_junction_exit := (path, 3%nat) in
  _ ← f_join v_junction_condition;
  loop ← f_label;
  _ ← f_target loop;
  _ ← f_merge v_junction_condition;
  label0 ← f_label;
  _ ← emit_condition condition label0;
  targets0 ← gets v_targets;
  break0 ← f_label;
  stack ← gets v_stack;
  _ ← modify (set_targets (loop_targets break0 v_junction_exit stack a_tail a_clear loop v_junction_condition targets0));
  _ ← body false false true;
  _ ← modify (set_targets targets0);
  _ ← emit (JUMP (Label loop));
  _ ← f_target label0;
  _ ← f_join v_junction_exit;
  _ ← when (negb a_clear) f_emit_null;
  _ ← f_target break0;
  _ ← f_merge v_junction_exit;
  temporary.

Definition emit_for (path : list nat) (initialization condition next : option t_emitter) (body : t_emitter) : t_emitter :=
  λ a_tail _ a_clear,
  let v_junction_condition := (path, 0%nat) in
  let v_junction_next := (path, 3%nat) in
  let v_junction_exit := (path, 5%nat) in
  _ ← match initialization with Some e => _ ← e false false true; mret () | None => mret () end;
  _ ← f_join v_junction_condition;
  loop ← f_label;
  continue0 ← match next with Some _ => f_label | None => mret loop end;
  _ ← f_target loop;
  _ ← f_merge v_junction_condition;
  label0 ← f_label;
  _ ← emit_condition condition label0;
  targets0 ← gets v_targets;
  break0 ← f_label;
  stack ← gets v_stack;
  _ ← modify (set_targets (loop_targets break0 v_junction_exit stack a_tail a_clear continue0 v_junction_next targets0));
  _ ← body false false true;
  _ ← modify (set_targets targets0);
  _ ← match next with Some e => _ ← f_target continue0; _ ← e false false true; mret () | None => mret () end;
  _ ← emit (JUMP (Label loop));
  _ ← f_target label0;
  _ ← f_join v_junction_exit;
  _ ← when (negb a_clear) f_emit_null;
  _ ← f_target break0;
  _ ← f_merge v_junction_exit;
  temporary.

Definition emit_break (expression : t_emitter) : t_emitter := λ _ _ a_clear,
  stack ← gets v_stack;
  targets ← gets v_targets;
  _ ← modify (set_stack (v_break_stack targets));
  _ ← expression (v_break_is_tail targets) false (v_break_must_clear targets);
  _ ← modify (set_stack stack);
  _ ← when (negb a_clear) f_push;
  junction ← the (v_break_junction targets);
  _ ← f_join junction;
  label ← the (v_break targets);
  _ ← emit (JUMP (Label label));
  temporary.

Definition emit_continue (v_at : t_at) : t_emitter := λ _ _ a_clear,
  _ ← when (negb a_clear) f_push;
  _ ← f_emit_safe_point v_at;
  targets ← gets v_targets;
  label ← the (v_continue targets);
  _ ← emit (JUMP (Label label));
  temporary.

Definition emit_return (expression : t_emitter) : t_emitter := λ _ _ a_clear,
  stack ← gets v_stack;
  targets ← gets v_targets;
  _ ← modify (set_stack (v_return_stack targets));
  _ ← expression (v_return_is_tail targets) false false;
  _ ← (if v_return_is_tail targets then
         _ ← assert_ (λ s, v_stack s =? v_scope_size s + 1);
         n ← gets v_stack;
         emit (RETURN (n - 1))
       else
         junction ← the (v_return_junction targets);
         _ ← f_join junction;
         label ← the (v_return targets);
         emit (JUMP (Label label)));
  _ ← modify (set_stack stack);
  _ ← when (negb a_clear) f_push;
  temporary.

(** The clauses of a [try]: the expression, the variable, and the body. *)
Fixpoint emit_catches (cs : list (t_emitter * outcome t_variable * t_emitter)) (a_clear : bool) : E () :=
  match cs with
  | [] => mret ()
  | (expression, variable, body) :: cs =>
    _ ← when (negb a_clear) f_pop;
    _ ← push_value expression;
    label0 ← f_label;
    x ← lift variable;
    _ ← f_pop;
    _ ← emit (CATCH (Label label0) (v_shared x) (Z.of_nat (v_index x)));
    _ ← body false false a_clear;
    _ ← emit (FINALLY c_try__STEP);
    _ ← f_target label0;
    emit_catches cs a_clear
  end.

(** The operand of [YRT] for a jump out of the [try]: the label of the target,
    or a label for the code that has to come before the jump. *)
Definition needs_join (stack a_stack : Z) (privates : list bool) (xs : list t_private) : outcome bool :=
  if a_stack <? stack then Ok true
  else
    (fix find i xs :=
       match xs with
       | [] => Ok false
       | x :: xs =>
         match privates !! i with
         | None => Fault
         | Some b => if negb b && v_use x && v_in x then Ok true else find (S i) xs
         end
       end) O xs.

Definition yrt_operand (stack : Z) (a_label : option nat) (a_junction : option t_id) (a_stack : Z) : E (option t_place * option nat) :=
  match a_label with
  | None => mret (None, None)
  | Some label =>
    privates ← gets v_emit_privates;
    junction ← (if a_stack <? stack then mret [] else j ← the a_junction; mret (v_block_privates (block j blocks)));
    b ← lift (needs_join stack a_stack privates junction);
    if (b : bool) then l ← f_label; mret (Some (Label l), Some l) else mret (Some (Label label), None)
  end.

Definition yrt_join (stack : Z) (a_label0 a_label1 : option nat) (a_junction : option t_id) (a_stack : Z) : E () :=
  match a_label0 with
  | None => mret ()
  | Some label0 =>
    _ ← f_target label0;
    _ ← when (a_stack <? stack) (emit (STACK_GET a_stack stack));
    junction ← the a_junction;
    _ ← f_join junction;
    label1 ← the a_label1;
    emit (JUMP (Label label1))
  end.

(** The targets in the body and the clauses, and in [finally]. *)
Definition try_targets (path : list nat) (stack : Z) (break0 continue0 return0 : nat) (targets0 : t_targets) : t_targets :=
  let v_junction_finally := Some (path, 2%nat) in
  {| v_break := _ ← v_break targets0; Some break0; v_break_junction := v_junction_finally; v_break_stack := stack;
     v_break_is_tail := false; v_break_must_clear := v_break_must_clear targets0;
     v_continue := _ ← v_continue targets0; Some continue0; v_continue_junction := v_junction_finally;
     v_return := _ ← v_return targets0; Some return0; v_return_junction := v_junction_finally; v_return_stack := stack;
     v_return_is_tail := false |}.

Definition finally_targets : t_targets :=
  {| v_break := None; v_break_junction := None; v_break_stack := 0; v_break_is_tail := false; v_break_must_clear := false;
     v_continue := None; v_continue_junction := None; v_return := None; v_return_junction := None; v_return_stack := 0;
     v_return_is_tail := false |}.

(** [finally], which no jump leaves. *)
Definition emit_finally (finally : option t_emitter) (a_clear : bool) : E () :=
  match finally with
  | Some finally =>
    _ ← modify (set_targets finally_targets);
    _ ← when a_clear f_push;
    _ ← finally false false true;
    when a_clear f_pop
  | None => mret ()
  end.

(** After [finally]: the jumps that it interrupted go on. *)
Definition emit_yrt (stack : Z) (targets0 : t_targets) : E () :=
  let break_stack := if v_break_must_clear targets0 then stack else v_break_stack targets0 in
  '(break, break1) ← yrt_operand stack (v_break targets0) (v_break_junction targets0) break_stack;
  '(continue, continue1) ← yrt_operand stack (v_continue targets0) (v_continue_junction targets0) stack;
  '(return_, return1) ← yrt_operand stack (v_return targets0) (v_return_junction targets0) (v_return_stack targets0);
  _ ← emit (YRT break continue return_);
  let any := bool_decide (is_Some break1) || bool_decide (is_Some continue1) || bool_decide (is_Some return1) in
  step ← (if any then l ← f_label; mret (Some l) else mret None);
  _ ← match step with Some l => emit (JUMP (Label l)) | None => mret () end;
  _ ← yrt_join stack break1 (v_break targets0) (v_break_junction targets0) break_stack;
  _ ← yrt_join stack continue1 (v_continue targets0) (v_continue_junction targets0) stack;
  _ ← yrt_join stack return1 (v_return targets0) (v_return_junction targets0) (v_return_stack targets0);
  match step with Some l => f_target l | None => mret () end.

Definition emit_try (path : list nat) (body : t_emitter) (catches : list (t_emitter * outcome t_variable * t_emitter))
    (finally : option t_emitter) : t_emitter := λ _ _ a_clear,
  let v_junction_try := (path, 0%nat) in
  _ ← f_join v_junction_try;
  _ ← f_merge v_junction_try;
  stack ← gets v_stack;
  catch0 ← f_label;
  finally0 ← f_label;
  _ ← emit (TRY stack (Label catch0) (Label finally0));
  targets0 ← gets v_targets;
  break0 ← f_label;
  continue0 ← f_label;
  return0 ← f_label;
  _ ← modify (set_targets (try_targets path stack break0 continue0 return0 targets0));
  _ ← body false false a_clear;
  _ ← emit (FINALLY c_try__STEP);
  _ ← f_target catch0;
  _ ← emit_catches catches a_clear;
  _ ← emit (FINALLY c_try__THROW);
  _ ← f_target break0;
  _ ← emit (FINALLY c_try__BREAK);
  _ ← f_target continue0;
  _ ← emit (FINALLY c_try__CONTINUE);
  _ ← f_target return0;
  _ ← emit (FINALLY c_try__RETURN);
  _ ← f_target finally0;
  _ ← emit_finally finally a_clear;
  _ ← emit_yrt stack targets0;
  _ ← modify (set_targets targets0);
  temporary.

Definition emit_throw (v_at : t_at) (expression : t_emitter) : t_emitter := λ _ _ a_clear,
  _ ← push_value expression;
  _ ← f_pop;
  n ← gets v_stack;
  _ ← emit (THROW n);
  _ ← when (negb a_clear) f_push;
  _ ← f_at v_at;
  temporary.

(** ** Members *)

(** An instruction on the [k] values on the top, which leaves one of them. *)
Definition emit_on_top (v_at : t_at) (k : nat) (i : Z → t_op) (a_clear : bool) : E t_operand :=
  _ ← f_emit_safe_point v_at;
  n ← gets v_stack;
  _ ← emit (i (n - Z.of_nat k));
  _ ← f_pops (k - 1);
  at_and_clear v_at a_clear.

Definition emit_object_get (v_at : t_at) (target : t_emitter) (key : t_symbol) : t_emitter := λ _ _ a_clear,
  _ ← push_value target; emit_on_top v_at 1 (λ n, OBJECT_GET n key) a_clear.

(** [t_object_get::f_method] *)
Definition emit_method (v_at : t_at) (target : t_emitter) (key : t_symbol) : E () :=
  _ ← push_value target;
  _ ← f_emit_safe_point v_at;
  n ← gets v_stack;
  _ ← emit (METHOD_GET (n - 1) key);
  _ ← f_push;
  f_at v_at.

Definition emit_object_get_indirect (v_at : t_at) (target key : t_emitter) : t_emitter := λ _ _ a_clear,
  _ ← push_value target; _ ← push_value key; emit_on_top v_at 2 OBJECT_GET_INDIRECT a_clear.

Definition emit_object_put (v_at : t_at) (target : t_emitter) (key : t_symbol) (value : t_emitter) : t_emitter := λ _ _ a_clear,
  _ ← push_value target; _ ← push_value value; emit_on_top v_at 2 (λ n, OBJECT_PUT n key) a_clear.

Definition emit_object_put_indirect (v_at : t_at) (target key value : t_emitter) : t_emitter := λ _ _ a_clear,
  _ ← push_value target; _ ← push_value key; _ ← push_value value; emit_on_top v_at 3 OBJECT_PUT_INDIRECT a_clear.

Definition emit_object_has (v_at : t_at) (target : t_emitter) (key : t_symbol) : t_emitter := λ _ _ a_clear,
  _ ← push_value target; emit_on_top v_at 1 (λ n, OBJECT_HAS n key) a_clear.

Definition emit_object_has_indirect (v_at : t_at) (target key : t_emitter) : t_emitter := λ _ _ a_clear,
  _ ← push_value target; _ ← push_value key; emit_on_top v_at 2 OBJECT_HAS_INDIRECT a_clear.

Definition emit_class_or_super (v_at : t_at) (target : t_emitter) (i : Z → t_op) : t_emitter := λ a_tail _ a_clear,
  _ ← push_value target;
  _ ← when a_tail (f_emit_safe_point v_at);
  n ← gets v_stack;
  _ ← emit (i (n - 1));
  at_and_clear v_at a_clear.

(** ** Variables *)

(** The instruction for a shared variable of an outer scope. *)
Definition scope_get (outer : nat) (stack index : Z) : t_op :=
  match outer with
  | 0 => SCOPE_GET0 stack index
  | 1 => SCOPE_GET1 stack index
  | 2 => SCOPE_GET2 stack index
  | _ => SCOPE_GET stack (Z.of_nat outer) index
  end%nat.

(** The place of a private variable among those other than arguments. *)
Definition private_index (x : t_variable) (s : t_emit) : option nat :=
  let i := Z.of_nat (v_index x) - v_arguments s in if 0 <=? i then Some (Z.to_nat i) else None.

(** [v_privates[i] = true] *)
Definition mark (i : nat) : E () := λ s,
  if decide (i < length (v_emit_privates s))%nat then Ok ((), set_privates (<[i := true]> (v_emit_privates s)) s) else Fault.

Definition mark_variable (x : t_variable) : E () :=
  i ← gets (private_index x); match i with Some i => mark i | None => mret () end.

(** A variable that is read before it was assigned is initialized. *)
Definition initialize (x : t_variable) : E () :=
  i ← gets (private_index x);
  match i with
  | None => mret ()
  | Some i =>
    privates ← gets v_emit_privates;
    match privates !! i with
    | None => fault
    | Some true => mret ()
    | Some false => _ ← emit (NUL (Z.of_nat (v_index x))); mark i
    end
  end.

Definition emit_symbol_get (v_at : t_at) (v_symbol : t_symbol) (resolved : outcome (nat * option t_variable)) : t_emitter :=
  λ a_tail a_operand a_clear,
  '(v_resolved, variable) ← lift resolved;
  match variable with
  | None =>
    _ ← when a_tail (f_emit_safe_point v_at);
    n ← gets v_stack;
    _ ← emit (GLOBAL_GET n v_symbol);
    _ ← f_push; at_and_clear v_at a_clear
  | Some x =>
    let index := Z.of_nat (v_index x) in
    if v_shared x then
      _ ← when a_tail (f_emit_safe_point v_at);
      n ← gets v_stack;
      _ ← emit (scope_get v_resolved n index);
      _ ← f_push; at_and_clear v_at a_clear
    else
      _ ← initialize x;
      if a_operand then mret (c_tag__VARIABLE index)
      else
        _ ← (if a_tail then _ ← f_emit_safe_point v_at; emit (RETURN index)
             else n ← gets v_stack; emit (STACK_GET n index));
        _ ← f_push; at_and_clear v_at a_clear
  end.

Definition emit_scope_put (v_at : t_at) (v_outer : nat) (variable : outcome t_variable) (value : t_emitter) : t_emitter :=
  λ _ _ a_clear,
  x ← lift variable;
  let index := Z.of_nat (v_index x) in
  if a_clear && negb (v_shared x) then
    operand ← value false true false;
    _ ← f_emit_safe_point v_at;
    _ ← mark_variable x;
    _ ← match operand with
        | c_tag__VARIABLE i => emit (STACK_PUT i index)
        | c_tag__TEMPORARY => n ← gets v_stack; _ ← emit (STACK_PUT (n - 1) index); f_pop
        | _ => i ← the (constant_op index operand); emit i
        end;
    _ ← f_at v_at; temporary
  else
    _ ← push_value value;
    _ ← f_emit_safe_point v_at;
    n ← gets v_stack;
    _ ← (if v_shared x then
           emit (if decide (0 < v_outer)%nat then SCOPE_PUT (n - 1) (Z.of_nat v_outer) index else SCOPE_PUT0 (n - 1) index)
         else _ ← mark_variable x; emit (STACK_PUT (n - 1) index));
    at_and_clear v_at a_clear.

Definition emit_self (v_at : t_at) (v_outer : nat) : t_emitter := λ a_tail _ a_clear,
  if a_clear then temporary
  else
    _ ← when a_tail (f_emit_safe_point v_at);
    n ← gets v_stack;
    _ ← emit (if decide (0 < v_outer)%nat then scope_get v_outer n 0 else SELF n);
    _ ← f_push; _ ← f_at v_at; temporary.

(** ** Operators and calls *)

(** [f_pop], with the size of the code before the operands, when they are
    folded. *)
Definition forget (pops : nat) (size : Z) : E () :=
  _ ← f_pops pops; modify (λ s, set_code (with_size size (v_code s)) s).

Definition assert_tail (a_tail : bool) (k : Z) : E () := assert_ (λ s, negb a_tail || (v_stack s =? v_scope_size s + k)).

Definition emit_unary (v_at : t_at) (v_instruction : t_instruction) (expression : t_emitter) : t_emitter :=
  λ a_tail a_operand a_clear,
  size ← gets (λ s, code_size (v_code s));
  _ ← f_push;
  operand ← expression false true false;
  match fold1 v_instruction operand with
  | Some v => _ ← forget 1 size; v ← lift v; v ← lift (constant_operand v); emit_literal v_at v a_tail a_operand a_clear
  | None =>
    _ ← f_emit_safe_point v_at;
    _ ← when (negb (is_temporary operand)) f_push;
    _ ← f_pops 2;
    _ ← assert_tail a_tail 0;
    n ← gets v_stack;
    _ ← emit (UNARY v_instruction a_tail n operand);
    _ ← f_push; at_and_clear v_at a_clear
  end.

Definition emit_binary (v_at : t_at) (v_instruction : t_instruction) (left right : t_emitter) : t_emitter :=
  λ a_tail a_operand a_clear,
  size ← gets (λ s, code_size (v_code s));
  _ ← f_push;
  l ← left false true false;
  _ ← when (negb (is_temporary l)) f_push;
  r ← right false true false;
  match fold2 v_instruction l r with
  | Some v => _ ← forget 2 size; v ← lift v; v ← lift (constant_operand v); emit_literal v_at v a_tail a_operand a_clear
  | None =>
    _ ← f_emit_safe_point v_at;
    _ ← when (negb (is_temporary r)) f_push;
    _ ← f_pops 3;
    _ ← assert_tail a_tail 0;
    n ← gets v_stack;
    _ ← emit (BINARY v_instruction a_tail n l r);
    _ ← f_push; at_and_clear v_at a_clear
  end.

Definition emit_preserve : t_emitter := λ _ _ a_clear, _ ← when (negb a_clear) f_push; temporary.

Definition emit_get_at (v_at : t_at) (target index : t_emitter) : t_emitter := λ a_tail _ a_clear,
  _ ← f_push;
  _ ← push_value target; _ ← push_value index;
  _ ← f_emit_safe_point v_at;
  _ ← assert_tail a_tail 3;
  n ← gets v_stack;
  _ ← emit (GET_AT a_tail (n - 3));
  _ ← f_pops 2; at_and_clear v_at a_clear.

(** [t_get_at::f_bind] *)
Definition emit_bind (v_at : t_at) (target index : t_emitter) : E () :=
  _ ← push_value target; _ ← push_value index;
  _ ← f_emit_safe_point v_at;
  n ← gets v_stack;
  _ ← emit (METHOD_BIND (n - 2));
  f_at v_at.

Definition emit_set_at (v_at : t_at) (target index value : t_emitter) : t_emitter := λ a_tail _ a_clear,
  _ ← f_push;
  _ ← push_value target; _ ← push_value index; _ ← push_value value;
  _ ← f_emit_safe_point v_at;
  _ ← assert_tail a_tail 4;
  n ← gets v_stack;
  _ ← emit (SET_AT a_tail (n - 4));
  _ ← f_pops 3; at_and_clear v_at a_clear.

(** How the target of a call gets to the frame: a variable that the
    instruction reads itself, or code for the target and its receiver. *)
Inductive t_callee := Direct (v_resolved : nat) (x : t_variable) | Receiver (m : E ()).

(** The variable of a call, unless it is in a far scope or varies. *)
Definition direct (v_expands : list (t_at * nat)) (resolved : nat * option t_variable) : option (nat * t_variable) :=
  match v_expands, resolved with
  | [], (v_resolved, Some x) =>
    if negb (v_shared x) || (bool_decide (v_resolved < 3)%nat && negb (v_varies x)) then Some (v_resolved, x) else None
  | _, _ => None
  end.

(** The distances between the arguments to expand. *)
Fixpoint expansions (i size : Z) (v_expands : list (t_at * nat)) : list Z :=
  match v_expands with
  | [] => [size - i]
  | (_, v_index) :: rest => Z.of_nat v_index - i :: expansions (Z.of_nat v_index + 1) size rest
  end.

(** [f_at] of an argument to expand comes after the words before it. *)
Fixpoint expand_ats (v_expands : list (t_at * nat)) (k : nat) : E () :=
  match v_expands with
  | [] => mret ()
  | (a_at, _) :: rest =>
    _ ← modify (λ s, set_code (with_ats (code_ats (v_code s) ++ [(a_at, address (code_instructions (v_code s)) + k)%nat]) (v_code s)) s);
    expand_ats rest (S k)
  end.

Definition emit_call (v_at : t_at) (callee : E t_callee) (arguments : list t_emitter) (v_expands : list (t_at * nat)) : t_emitter :=
  λ a_tail _ a_clear,
  callee ← callee;
  _ ← match callee with Direct _ _ => _ ← f_push; f_push | Receiver m => m end;
  _ ← emit_all arguments;
  _ ← f_pops (length arguments);
  _ ← f_pops 2;
  _ ← f_emit_safe_point v_at;
  _ ← assert_tail a_tail 0;
  n ← gets v_stack;
  let size := Z.of_nat (length arguments) in
  _ ← match callee with
      | Direct v_resolved x =>
        emit (if v_shared x then SCOPE_CALL v_resolved a_tail n (Z.of_nat (v_index x)) size
              else STACK_CALL a_tail n (Z.of_nat (v_index x)) size)
      | Receiver _ =>
        match v_expands with
        | [] => emit (CALL a_tail n size)
        | _ => _ ← expand_ats v_expands 3; emit (CALL_WITH_EXPANSION a_tail n size (expansions 0 size v_expands))
        end
      end;
  _ ← f_push; at_and_clear v_at a_clear.

(** ** Lambdas *)

(** The shared arguments move from the frame to the scope. *)
Fixpoint emit_arguments (c : t_scope) (n i : nat) : E () :=
  match n with
  | O => mret ()
  | S n =>
    s ← lift (match v_privates c !! (i mod length (v_privates c))%nat with Some s => Ok s | None => Fault end);
    x ← lift (match v_variables c !! s with Some x => Ok x | None => Fault end);
    _ ← when (v_shared x)
      (k ← gets v_stack;
       _ ← emit (STACK_GET k (Z.of_nat i));
       emit (SCOPE_PUT0 k (Z.of_nat (v_index x))));
    emit_arguments c n (S i)
  end.

(** [self] of a scope that shares it. *)
Definition emit_self_shared (c : t_scope) : E () :=
  when (v_self_shared c) (n ← gets v_stack; _ ← emit (SELF n); emit (SCOPE_PUT0 n 0)).

(** The state for the body of a lambda. *)
Definition enter_lambda (path : list nat) (c : t_scope) (arguments : nat) (privates : nat) (code : t_code) (s : t_emit) : t_emit :=
  let stack := Z.of_nat (v_privates_size c) in
  {| v_codes := v_codes s; v_scope_size := stack; v_code := code; v_arguments := Z.of_nat arguments;
     v_emit_privates := replicate privates false; v_stack := stack; v_labels := [None];
     v_targets :=
       {| v_break := None; v_break_junction := None; v_break_stack := stack; v_break_is_tail := false; v_break_must_clear := false;
          v_continue := None; v_continue_junction := None; v_return := Some 0%nat; v_return_junction := Some (path, 1%nat);
          v_return_stack := stack; v_return_is_tail := true |} |}.

(** Back to the state [s] after the body; the code is in [v_codes]. *)
Definition leave_lambda (s s' : t_emit) : t_emit := set_codes (v_codes s') s.

(** The code of the body of a lambda. *)
Definition emit_lambda_body (c : t_scope) (arguments : nat) (body : t_emitter) : E () :=
  _ ← emit_self_shared c;
  _ ← emit_arguments c arguments 0;
  _ ← body true false false;
  _ ← f_pop;
  _ ← f_target 0;
  _ ← assert_ (λ s, v_stack s =? v_scope_size s);
  n ← gets v_stack;
  _ ← emit (RETURN n);
  f_resolve.

Definition emit_lambda (v_at : t_at) (path : list nat) (scope : outcome t_scope) (v_variadic : bool) (arguments : nat)
    (defaults : list t_emitter) (body : t_emitter) : t_emitter := λ _ _ a_clear,
  c ← lift scope;
  privates ← lift (private_count c arguments);
  let minimum := Z.of_nat arguments - Z.of_nat (length defaults) - (if v_variadic then 1 else 0) in
  let code := new_code (v_scope_shared c) v_variadic (Z.of_nat (v_privates_size c)) (Z.of_nat (v_shareds c)) (Z.of_nat arguments) minimum in
  s0 ← gets id;
  let i := length (v_codes s0) in
  _ ← modify (λ s, enter_lambda path c arguments privates code (set_codes (v_codes s ++ [code]) s));
  _ ← emit_lambda_body c arguments body;
  _ ← modify (λ s, leave_lambda s0 (set_codes (<[i := v_code s]> (v_codes s)) s));
  _ ← f_emit_safe_point v_at;
  _ ← (if v_variadic || (0 <? Z.of_nat (length defaults)) then
         _ ← emit_all defaults;
         _ ← f_pops (length defaults);
         n ← gets v_stack; emit (ADVANCED_LAMBDA n i)
       else n ← gets v_stack; emit (LAMBDA n i));
  _ ← f_push;
  _ ← when a_clear f_pop;
  temporary.

(** ** Nodes *)

Fixpoint each_path {A B} (f : list nat → A → B) (path : list nat) (i : nat) (xs : list A) : list B :=
  match xs with [] => [] | x :: xs => f (i :: path) x :: each_path f path (S i) xs end.

Fixpoint f_emit (path : list nat) (e : @t_node double) {struct e} : t_emitter :=
  let sub i e := f_emit (i :: path) e in
  match e with
  | t_nodes xs => λ a_tail _ a_clear, emit_nodes (each_path (λ path e, f_emit path e) path 0 xs) a_tail a_clear
  | t_lambda at_ scope variadic arguments defaults body =>
    emit_lambda at_ path (scope_of scopes scope) variadic arguments (each_path (λ path e, f_emit path e) (1 :: path)%nat 0 defaults)
      (f_emit (0 :: path)%nat body)
  | t_if condition x y => emit_if path (option_map (λ e, f_emit (0 :: path)%nat e) condition) (f_emit (1 :: path)%nat x) (f_emit (2 :: path)%nat y)
  | t_while condition body => emit_while path (option_map (λ e, f_emit (0 :: path)%nat e) condition) (f_emit (1 :: path)%nat body)
  | t_for initialization condition next body =>
    emit_for path (option_map (λ e, f_emit (0 :: path)%nat e) initialization) (option_map (λ e, f_emit (1 :: path)%nat e) condition)
      (option_map (λ e, f_emit (2 :: path)%nat e) next) (f_emit (3 :: path)%nat body)
  | t_break x => emit_break (f_emit (0 :: path)%nat x)
  | t_continue at_ => emit_continue at_
  | t_return x => emit_return (f_emit (0 :: path)%nat x)
  | Ast.t_try body catches finally =>
    emit_try path (f_emit (0 :: path)%nat body)
      ((fix clauses j cs :=
         match cs with
         | [] => []
         | (expression, variable, body) :: cs =>
           (f_emit (2 + 2 * j :: path)%nat expression, variable_of scopes variable, f_emit (3 + 2 * j :: path)%nat body) :: clauses (S j) cs
         end) O catches)
      (option_map (λ e, f_emit (1 :: path)%nat e) finally)
  | t_throw at_ x => emit_throw at_ (f_emit (0 :: path)%nat x)
  | t_object_get at_ x key => emit_object_get at_ (f_emit (0 :: path)%nat x) key
  | t_object_get_indirect at_ x y => emit_object_get_indirect at_ (f_emit (0 :: path)%nat x) (f_emit (1 :: path)%nat y)
  | t_object_put at_ x key y => emit_object_put at_ (f_emit (0 :: path)%nat x) key (f_emit (1 :: path)%nat y)
  | t_object_put_indirect at_ x y z =>
    emit_object_put_indirect at_ (f_emit (0 :: path)%nat x) (f_emit (1 :: path)%nat y) (f_emit (2 :: path)%nat z)
  | t_object_has at_ x key => emit_object_has at_ (f_emit (0 :: path)%nat x) key
  | t_object_has_indirect at_ x y => emit_object_has_indirect at_ (f_emit (0 :: path)%nat x) (f_emit (1 :: path)%nat y)
  | t_symbol_get at_ outer scope symbol => emit_symbol_get at_ symbol (resolve scopes outer scope symbol)
  | t_scope_put at_ outer variable x => emit_scope_put at_ outer (variable_of scopes variable) (f_emit (0 :: path)%nat x)
  | t_self at_ outer => emit_self at_ outer
  | t_class at_ x => emit_class_or_super at_ (f_emit (0 :: path)%nat x) CLASS
  | t_super at_ x => emit_class_or_super at_ (f_emit (0 :: path)%nat x) SUPER
  | t_null at_ => emit_null at_
  | t_literal_node at_ x => emit_literal at_ (literal_operand x)
  | t_unary at_ instruction x => emit_unary at_ instruction (f_emit (0 :: path)%nat x)
  | t_binary at_ instruction x y => emit_binary at_ instruction (f_emit (0 :: path)%nat x) (f_emit (1 :: path)%nat y)
  | t_preserve => emit_preserve
  | t_call at_ x arguments expands =>
    emit_call at_
      (match x with
       | t_symbol_get _ outer scope symbol =>
         r ← lift (resolve scopes outer scope symbol);
         mret (match direct expands r with
               | Some (resolved, x) => Direct resolved x
               | None => Receiver (_ ← push_value (f_emit (0 :: path)%nat x); f_emit_null)
               end)
       | t_object_get at_ y key => mret (Receiver (emit_method at_ (f_emit (0 :: 0 :: path)%nat y) key))
       | t_get_at at_ y z => mret (Receiver (emit_bind at_ (f_emit (0 :: 0 :: path)%nat y) (f_emit (1 :: 0 :: path)%nat z)))
       | _ => mret (Receiver (_ ← push_value (f_emit (0 :: path)%nat x); f_emit_null))
       end)
      (each_path (λ path e, f_emit path e) (1 :: path)%nat 0 arguments) expands
  | t_get_at at_ x y => emit_get_at at_ (f_emit (0 :: path)%nat x) (f_emit (1 :: path)%nat y)
  | t_set_at at_ x y z => emit_set_at at_ (f_emit (0 :: path)%nat x) (f_emit (1 :: path)%nat y) (f_emit (2 :: path)%nat z)
  end.
End Emit.

(** ** The code of a module: [t_emit::operator()] *)

Definition module_state (c : t_scope) : t_emit :=
  let stack := Z.of_nat (v_privates_size c) in
  {| v_codes := []; v_scope_size := stack; v_code := new_code true false stack (Z.of_nat (v_shareds c)) 0 0; v_arguments := 0;
     v_emit_privates := replicate (v_privates_size c) false; v_stack := stack; v_labels := [];
     v_targets :=
       {| v_break := None; v_break_junction := None; v_break_stack := stack; v_break_is_tail := false; v_break_must_clear := false;
          v_continue := None; v_continue_junction := None; v_return := None; v_return_junction := None; v_return_stack := stack;
          v_return_is_tail := false |} |}.

Definition emit_body (scopes : list t_scope) (blocks : t_blocks) (v_safe_points : bool) (c : t_scope) (body : @t_node double) : E () :=
  _ ← emit_self_shared c;
  _ ← f_emit scopes blocks v_safe_points [0%nat] body false false true;
  _ ← emit RETURN_NUL;
  f_resolve.

(** The code of the module, and those of its lambdas. *)
Definition emit_module (scopes : list t_scope) (v_safe_points : bool) (body : @t_node double) : outcome (t_code * list t_code) :=
  c ← scope_of scopes 0;
  bs ← analyze_body scopes [] c 0 body ∅;
  '(_, s) ← emit_body scopes bs v_safe_points c body (module_state c);
  Ok (v_code s, v_codes s).
