(* ===== verification/EmitSafety.v ===== *)
(** * The code that the generator leaves is safe to run (Emit.v)

    A Hoare logic for the computations of the generator: what holds of its
    state, how a computation may change it, and the rules for the steps of
    [t_emit].  The nodes follow in EmitNodes.v. *)
From stdpp Require Import base list numbers strings gmap.
From S2P Require Import Prelude Machine Lexer Ast Types Operators Flow Emit.
Local Open Scope Z_scope.

(** ** Code within its frame *)

Definition operand_ok (size : Z) (o : t_operand) : Prop := match o with c_tag__VARIABLE i => 0 <= i < size | _ => True end.

(** The slots of the frame that an instruction reads and writes are in it.  The
    clauses of a [TRY] find the type in its slot. *)
Definition frame_ok (size : Z) (i : t_op) : Prop :=
  let slots n k := 0 <= n /\ n + k <= size in
  match i with
  | JUMP _ | CATCH _ true _ | FINALLY _ | YRT _ _ _ | RETURN_NUL | RETURN_INTEGER _ | RETURN_FLOAT _ | RETURN_INSTANCE _ | SAFE_POINT => True
  | CATCH _ false k | RETURN k => slots k 1
  | TRY n _ _ => slots n 0
  | BRANCH n _ | THROW n | OBJECT_GET n _ | OBJECT_HAS n _ | GLOBAL_GET n _ | SCOPE_GET0 n _ | SCOPE_GET1 n _ | SCOPE_GET2 n _
  | SCOPE_GET n _ _ | SCOPE_PUT0 n _ | SCOPE_PUT n _ _ | LAMBDA n _ | ADVANCED_LAMBDA n _ | SELF n | CLASS n | SUPER n | NUL n
  | INTEGER n _ | FLOAT n _ | INSTANCE n _ => slots n 1
  | OBJECT_GET_INDIRECT n | OBJECT_HAS_INDIRECT n | OBJECT_PUT n _ | METHOD_GET n _ | METHOD_BIND n => slots n 2
  | OBJECT_PUT_INDIRECT n | GET_AT _ n => slots n 3
  | SET_AT _ n => slots n 4
  | STACK_GET n k | STACK_PUT n k => slots n 1 /\ slots k 1
  | CALL _ n k | CALL_WITH_EXPANSION _ n k _ | SCOPE_CALL _ _ n _ k => slots n (k + 2)
  | STACK_CALL _ n i k => slots n (k + 2) /\ slots i 1
  | UNARY _ _ n o => slots n 2 /\ operand_ok size o
  | BINARY _ _ n l r => slots n 3 /\ operand_ok size l /\ operand_ok size r
  end.

Definition places (i : t_op) : list t_place :=
  let some o := match o with Some p => [p] | None => [] end in
  match i with
  | JUMP p | BRANCH _ p | CATCH p _ _ => [p]
  | TRY _ p q => [p; q]
  | YRT p q r => some p ++ some q ++ some r
  | _ => []
  end.

(** The lambda that an instruction refers to is one of the codes. *)
Definition code_of (codes : nat) (i : t_op) : Prop :=
  match i with LAMBDA _ k | ADVANCED_LAMBDA _ k => (k < codes)%nat | _ => True end.

(** A jump goes to the start of an instruction. *)
Definition starts (ops : list t_op) (p : t_place) : Prop := ∃ k, p = Address (address (take k ops)) ∧ (k < length ops)%nat.

Definition ops_valid (codes : nat) (size : Z) (ops : list t_op) : Prop :=
  Forall (λ i, Forall (starts ops) (places i) ∧ frame_ok size i ∧ code_of codes i) ops.

Definition code_valid (codes : nat) (c : t_code) : Prop :=
  code_privates c <= code_size c ∧ ops_valid codes (code_size c) (code_instructions c).

(** While code is generated its jumps are to labels. *)
Definition op_ok (labels codes : nat) (size : Z) (i : t_op) : Prop :=
  Forall (λ p, ∃ l, p = Label l ∧ (l < labels)%nat) (places i) ∧ frame_ok size i ∧ code_of codes i.

Lemma operand_mono size size' o : size <= size' → operand_ok size o → operand_ok size' o.
Proof. destruct o; cbn; lia. Qed.

Lemma frame_mono size size' i : size <= size' → frame_ok size i → frame_ok size' i.
Proof.
  intros Hs. destruct i; cbn; try lia; try (destruct shared; lia).
  - intros [H1 H2]. split; [lia|by apply (operand_mono size)].
  - intros (H1 & H2 & H3). split; [lia|]. split; by apply (operand_mono size).
Qed.

Lemma code_of_mono n n' i : (n <= n')%nat → code_of n i → code_of n' i.
Proof. destruct i; cbn; lia. Qed.

Lemma op_mono l l' c c' size size' i :
  (l <= l')%nat → (c <= c')%nat → size <= size' → op_ok l c size i → op_ok l' c' size' i.
Proof.
  intros Hl Hc Hs (H1 & H2 & H3). split_and!; [|by apply (frame_mono size)|by apply (code_of_mono c)].
  eapply Forall_impl; [done|]. intros p (k & -> & Hk). exists k. split; [done|lia].
Qed.

Lemma op_slack l c size size' i : size <= size' → op_ok l c size i → op_ok l c size' i.
Proof. intros Hs. by apply op_mono. Qed.

Lemma valid_mono n n' c : (n <= n')%nat → code_valid n c → code_valid n' c.
Proof.
  intros Hn [H1 H2]. split; [done|]. eapply Forall_impl; [done|]. intros i (F1 & F2 & F3). split_and!; [done|done|by apply (code_of_mono n)].
Qed.

(** ** Resolution of labels *)

Lemma address_app xs ys : address (xs ++ ys) = (address xs + address ys)%nat.
Proof. unfold address. by rewrite fmap_app, sum_list_with_app. Qed.

Lemma resolve_place_ok labels p l x : p = Label l → labels !! l = Some (Some x) → resolve_place labels p = Ok (Address x).
Proof. intros -> Hl. cbn. by rewrite Hl. Qed.

Section Resolve.
Context (labels : list (option nat)) (Hall : ∀ l, (l < length labels)%nat → ∃ x, labels !! l = Some (Some x)).

Lemma resolve_op_ok codes size i : op_ok (length labels) codes size i →
  ∃ i', resolve_op labels i = Ok i' ∧ words i' = words i ∧ (∀ size, frame_ok size i → frame_ok size i') ∧ (code_of codes i → code_of codes i') ∧
    Forall (λ p, ∃ l x, labels !! l = Some (Some x) ∧ p = Address x) (places i').
Proof.
  intros (Hp & _ & _).
  assert (HP : ∀ p, p ∈ places i → ∃ l x, labels !! l = Some (Some x) ∧ resolve_place labels p = Ok (Address x)).
  { intros p Hin. rewrite Forall_forall in Hp. destruct (Hp p Hin) as (l & -> & Hl). destruct (Hall l Hl) as [x Hx]. exists l, x. split; [done|].
    by apply (resolve_place_ok _ _ l). }
  destruct i; cbn [resolve_op places] in *; try (eexists; split_and!; [reflexivity|done|done|done|apply Forall_nil_2]).
  - destruct (HP to) as (l & x & Hx & ->); [by left|]. cbn. eexists. split_and!; [done|done|done|done|]. constructor; [by exists l, x|constructor].
  - destruct (HP to) as (l & x & Hx & ->); [by left|]. cbn. eexists. split_and!; [done|done|done|done|]. constructor; [by exists l, x|constructor].
  - destruct (HP catch) as (l & x & Hx & ->); [by left|]. cbn. destruct (HP finally) as (l' & x' & Hx' & ->); [by right; left|]. cbn.
    eexists. split_and!; [done|done|done|done|]. constructor; [by exists l, x|]. constructor; [by exists l', x'|constructor].
  - destruct (HP next) as (l & x & Hx & ->); [by left|]. cbn. eexists. split_and!; [done|done|done|done|]. constructor; [by exists l, x|constructor].
  - assert (HO : ∀ o, (∀ p, o = Some p → p ∈ places (YRT break continue return_)) → ∃ o', resolve_option labels o = Ok o' ∧
      ∀ p, o' = Some p → ∃ l x, labels !! l = Some (Some x) ∧ p = Address x).
    { intros [p|] Ho; [|by exists None]. destruct (HP p (Ho p eq_refl)) as (l & x & Hx & Hr). cbn. rewrite Hr. eexists. split; [done|].
      intros q [= <-]. by exists l, x. }
    destruct (HO break) as (b & -> & Hb); [intros p ->; cbn; set_solver|]. cbn.
    destruct (HO continue) as (c & -> & Hc); [intros p ->; cbn; set_solver|]. cbn.
    destruct (HO return_) as (r & -> & Hr); [intros p ->; cbn; set_solver|]. cbn.
    eexists. split_and!; [done|done|done|done|]. cbn [places]. rewrite !Forall_app.
    split_and!; [destruct b|destruct c|destruct r]; repeat constructor; auto.
Qed.

Lemma resolve_all_ok codes size ops : Forall (op_ok (length labels) codes size) ops →
  ∃ ops', resolve_all labels ops = Ok ops' ∧ words <$> ops' = words <$> ops ∧
    Forall (λ i, Forall (λ p, ∃ l x, labels !! l = Some (Some x) ∧ p = Address x) (places i) ∧ frame_ok size i ∧ code_of codes i) ops'.
Proof.
  induction 1 as [|i ops Hi Hops (ops' & IH1 & IH2 & IH3)]; [by exists []|].
  destruct (resolve_op_ok codes size i Hi) as (i' & Hr & Hw & Hf & Hc & Hp). cbn [resolve_all]. rewrite Hr. cbn. rewrite IH1. cbn.
  exists (i' :: ops'). split_and!; [done|cbn; by rewrite Hw, IH2|]. constructor; [|done].
  destruct Hi as (_ & Hi2 & Hi3). split_and!; [done|by apply Hf|by apply Hc].
Qed.
End Resolve.

(** ** The state of the generator *)

(** The targets are labels, and a jump leaves its value within the frame. *)
Record targets_ok (j r : bool) (blocks : t_blocks) (n : nat) (labels : nat) (scope size : Z) (T : Emit.t_targets) : Prop := {
  g_break l : v_break T = Some l → (l < labels)%nat ∧ ∃ i, v_break_junction T = Some i ∧ (length (v_block_privates (block i blocks)) <= n)%nat;
  g_continue l : v_continue T = Some l → (l < labels)%nat ∧ ∃ i, v_continue_junction T = Some i ∧ (length (v_block_privates (block i blocks)) <= n)%nat;
  g_return l : v_return T = Some l → (l < labels)%nat ∧ ∃ i, v_return_junction T = Some i ∧ (length (v_block_privates (block i blocks)) <= n)%nat;
  g_jump : j = true → is_Some (v_break T) ∧ is_Some (v_continue T);
  g_leave : r = true → is_Some (v_return T);
  g_break_stack : is_Some (v_break T) → scope <= v_break_stack T <= size ∧ (v_break_is_tail T = true → v_break_stack T = scope);
  g_return_stack : is_Some (v_return T) → scope <= v_return_stack T <= size ∧ (v_return_is_tail T = true → v_return_stack T = scope);
}.

Lemma targets_mono j r blocks n labels labels' scope size size' T :
  (labels <= labels')%nat → size <= size' → targets_ok j r blocks n labels scope size T → targets_ok j r blocks n labels' scope size' T.
Proof.
  intros Hl Hs [B C R J L BS RS]. split; try done.
  - intros l H. destruct (B l H) as [? ?]. split; [lia|done].
  - intros l H. destruct (C l H) as [? ?]. split; [lia|done].
  - intros l H. destruct (R l H) as [? ?]. split; [lia|done].
  - intros H. destruct (BS H) as [? ?]. split; [lia|done].
  - intros H. destruct (RS H) as [? ?]. split; [lia|done].
Qed.

(** A label that has no target yet. *)
Definition unset_label (s : t_emit) (l : nat) : Prop := v_labels s !! l = Some None.

Section Logic.
Context (blocks : t_blocks).

(** In a lambda with [a] arguments and [n] other privates; [slack] is a height
    that the frame has to come to, for instructions that write a slot before
    [f_push] counts it. *)
Record good (a n : nat) (slack : Z) (s : t_emit) : Prop := {
  o_arguments : v_arguments s = Z.of_nat a;
  o_scope : v_scope_size s = Z.of_nat (a + n);
  o_privates : length (v_emit_privates s) = n;
  o_size : code_privates (v_code s) <= code_size (v_code s) ∧ v_scope_size s <= code_size (v_code s);
  o_ops : Forall (op_ok (length (v_labels s)) (length (v_codes s)) (Z.max slack (code_size (v_code s)))) (code_instructions (v_code s));
  o_labels l x : v_labels s !! l = Some (Some x) → ∃ k, (k <= length (code_instructions (v_code s)))%nat ∧ x = address (take k (code_instructions (v_code s)));
  o_codes : Forall (code_valid (length (v_codes s))) (v_codes s);
}.

(** How a computation may change the state: [L] are new labels to be set. *)
Record grows (L : list nat) (s s' : t_emit) : Prop := {
  p_codes : (length (v_codes s) <= length (v_codes s'))%nat;
  p_labels : (length (v_labels s) <= length (v_labels s'))%nat;
  p_size : code_size (v_code s) <= code_size (v_code s');
  p_unset l : unset_label s' l → unset_label s l ∨ l ∈ L;
}.

Lemma grows_refl s : grows [] s s.
Proof. split; try done. by left. Qed.

Lemma grows_trans L s1 s2 s3 : grows L s1 s2 → grows [] s2 s3 → grows L s1 s3.
Proof.
  intros [A1 A2 A3 A4] [B1 B2 B3 B4]. split; try lia. intros l Hl. destruct (B4 l Hl) as [H|H]; [by apply A4|by apply not_elem_of_nil in H].
Qed.

Definition wp {A} (m : E A) (Q : A → t_emit → Prop) (s : t_emit) : Prop := ∃ a s', m s = Ok (a, s') ∧ Q a s'.

Lemma wp_seq {A B} (m : E A) (f : A → E B) Q s : wp m (λ a, wp (f a) Q) s → wp (m ≫= f) Q s.
Proof. intros (a & s' & Hm & b & s'' & Hf & HQ). exists b, s''. split; [|done]. cbv [mbind E_bind]. by rewrite Hm. Qed.

Lemma wp_weaken {A} (m : E A) (P Q : A → t_emit → Prop) s : wp m P s → (∀ a s', P a s' → Q a s') → wp m Q s.
Proof. intros (a & s' & Hm & HP) H. exists a, s'. auto. Qed.

Lemma wp_done {A} (x : A) (Q : A → t_emit → Prop) s : Q x s → wp (mret x) Q s.
Proof. intros H. by exists x, s. Qed.

Lemma wp_get {A} (f : t_emit → A) (Q : A → t_emit → Prop) s : Q (f s) s → wp (gets f) Q s.
Proof. intros H. by exists (f s), s. Qed.

Lemma wp_the {A} (o : option A) x (Q : A → t_emit → Prop) s : o = Some x → Q x s → wp (the o) Q s.
Proof. intros -> H. by exists x, s. Qed.

Lemma wp_lift {A} (m : outcome A) x (Q : A → t_emit → Prop) s : m = Ok x → Q x s → wp (lift m) Q s.
Proof. intros -> H. by exists x, s. Qed.

Lemma wp_when (b : bool) (m : E ()) (Q : () → t_emit → Prop) s : (b = true → wp m Q s) → (b = false → Q () s) → wp (when b m) Q s.
Proof. destruct b; intros H1 H2; [by apply H1|]. apply wp_done. by apply H2. Qed.

(** The rules keep one assertion about the current state: how it came from the
    state [s0] at which the node was begun. *)
Record at_ (a n : nat) (slack : Z) (L : list nat) (s0 s : t_emit) : Prop := {
  t_good : good a n slack s;
  t_grows : grows L s0 s;
}.

(** What a computation that does not jump leaves as it is. *)
Record same (s s' : t_emit) : Prop := {
  m_targets : v_targets s' = v_targets s;
  m_size : code_size (v_code s) <= code_size (v_code s');
  m_labels : (length (v_labels s) <= length (v_labels s'))%nat;
  m_codes : (length (v_codes s) <= length (v_codes s'))%nat;
}.

Lemma same_refl' s : same s s.
Proof. by split. Qed.

Context (a n : nat).

Lemma good_slack x y s : x <= y → good a n x s → good a n y s.
Proof. intros Hxy [H1 H2 H3 H4 H5 H6 H7]. split; try done. eapply Forall_impl; [done|]. intros i. apply op_slack. lia. Qed.

Lemma at_slack x y L s0 s : x <= y → at_ a n x L s0 s → at_ a n y L s0 s.
Proof. intros Hxy [H1 H2]. split; [by apply (good_slack x)|done]. Qed.

Lemma wp_emit x y L s0 s i (Q : () → t_emit → Prop) :
  at_ a n x L s0 s → x <= y → op_ok (length (v_labels s)) (length (v_codes s)) (Z.max y (code_size (v_code s))) i →
  (∀ s', at_ a n y L s0 s' → same s s' → v_stack s' = v_stack s → Q () s') → wp (emit i) Q s.
Proof.
  intros [Hg [G1 G2 G3 G4]] Hxy Hi HQ. apply (good_slack x y) in Hg; [|done]. destruct Hg as [H1 H2 H3 H4 H5 H6 H7].
  eexists _, _. split; [done|]. apply HQ; try done. split; [|by split]. split; try done; cbn.
  - apply Forall_app. split; [done|by constructor].
  - intros l z Hl. destruct (H6 l z Hl) as (k & Hk & ->). exists k. rewrite length_app, take_app_le by done. split; [lia|done].
Qed.

Lemma wp_push x y L s0 s (Q : () → t_emit → Prop) :
  at_ a n y L s0 s → y <= Z.max x (v_stack s + 1) →
  (∀ s', at_ a n x L s0 s' → same s s' → v_stack s' = v_stack s + 1 → v_stack s' <= code_size (v_code s') → Q () s') → wp f_push Q s.
Proof.
  intros [[H1 H2 H3 H4 H5 H6 H7] [G1 G2 G3 G4]] Hy HQ. eexists _, _. split; [done|].
  apply HQ; cbn; destruct (Z.ltb_spec (code_size (v_code s)) (v_stack s + 1)); cbn; try done; try lia.
  - split; split; cbn; try done; try lia. eapply Forall_impl; [done|]. intros i. apply op_slack. lia.
  - split; split; cbn; try done; try lia. eapply Forall_impl; [done|]. intros i. apply op_slack. lia.
  - split; cbn; (done || lia).
Qed.

Lemma wp_pops x L k s0 s (Q : () → t_emit → Prop) :
  at_ a n x L s0 s → (∀ s', at_ a n x L s0 s' → same s s' → v_stack s' = v_stack s - Z.of_nat k → Q () s') → wp (f_pops k) Q s.
Proof.
  revert s. induction k as [|k IH]; intros s Ha HQ.
  - apply wp_done, HQ; [done|apply same_refl'|lia].
  - cbn [f_pops]. apply wp_seq. eexists _, _. split; [done|]. apply IH.
    + destruct Ha as [[] []]. by split; split.
    + intros s' Ha' [S1 S2 S3 S4] Hs. apply HQ; [done|by split|]. cbn in Hs. lia.
Qed.

Lemma wp_pop x L s0 s (Q : () → t_emit → Prop) :
  at_ a n x L s0 s → (∀ s', at_ a n x L s0 s' → same s s' → v_stack s' = v_stack s - 1 → Q () s') → wp f_pop Q s.
Proof.
  intros Ha HQ. eexists _, _. split; [done|]. apply HQ; [|by split|done]. destruct Ha as [[] []]. by split; split.
Qed.

Lemma wp_set_stack x k L s0 s (Q : () → t_emit → Prop) :
  at_ a n x L s0 s → (∀ s', at_ a n x L s0 s' → same s s' → v_stack s' = k → Q () s') → wp (modify (set_stack k)) Q s.
Proof. intros Ha HQ. eexists _, _. split; [done|]. apply HQ; [|by split|done]. destruct Ha as [[] []]. by split; split. Qed.

Lemma wp_at x p L s0 s (Q : () → t_emit → Prop) :
  at_ a n x L s0 s → (∀ s', at_ a n x L s0 s' → same s s' → v_stack s' = v_stack s → Q () s') → wp (f_at p) Q s.
Proof. intros Ha HQ. eexists _, _. split; [done|]. apply HQ; [|by split|done]. destruct Ha as [[] []]. by split; split. Qed.

Lemma wp_set_privates x xs L s0 s (Q : () → t_emit → Prop) :
  at_ a n x L s0 s → length xs = n → (∀ s', at_ a n x L s0 s' → same s s' → v_stack s' = v_stack s → Q () s') → wp (modify (set_privates xs)) Q s.
Proof. intros Ha Hxs HQ. eexists _, _. split; [done|]. apply HQ; [|by split|done]. destruct Ha as [[] []]. by split; split. Qed.

Lemma wp_set_targets x T L s0 s (Q : () → t_emit → Prop) :
  at_ a n x L s0 s →
  (∀ s', at_ a n x L s0 s' → v_targets s' = T → code_size (v_code s') = code_size (v_code s) → length (v_labels s') = length (v_labels s) →
    length (v_codes s') = length (v_codes s) → v_stack s' = v_stack s → Q () s') → wp (modify (set_targets T)) Q s.
Proof. intros Ha HQ. eexists _, _. split; [done|]. apply HQ; try done. destruct Ha as [[] []]. by split; split. Qed.

Lemma wp_label x L s0 s (Q : nat → t_emit → Prop) :
  at_ a n x L s0 s →
  (∀ l s', at_ a n x (l :: L) s0 s' → same s s' → v_stack s' = v_stack s → (length (v_labels s) <= l < length (v_labels s'))%nat → Q l s') → wp f_label Q s.
Proof.
  intros [[H1 H2 H3 H4 H5 H6 H7] [G1 G2 G3 G4]] HQ. eexists _, _. split; [done|]. apply HQ; cbn; try done.
  - split; split; cbn; try done.
    + rewrite length_app. eapply Forall_impl; [done|]. intros i Hi. eapply op_mono; [| | |exact Hi]; lia.
    + intros l z Hl. apply lookup_app_Some in Hl as [Hl|[_ Hl]]; [by apply (H6 l)|]. by apply list_lookup_singleton_Some in Hl as [_ ?].
    + rewrite length_app. lia.
    + intros l Hl. apply lookup_app_Some in Hl as [Hl|[Hl0 Hl]]; [destruct (G4 l Hl); [by left|right; by right]|].
      apply list_lookup_singleton_Some in Hl as [Hl _]. right. assert (l = length (v_labels s)) as -> by lia. by left.
  - split; cbn; try done. rewrite length_app. lia.
  - rewrite length_app. cbn. lia.
Qed.

Lemma wp_target x L L' l s0 s (Q : () → t_emit → Prop) :
  at_ a n x L s0 s → (l < length (v_labels s))%nat → (∀ k, k ∈ L → k ∈ l :: L') →
  (∀ s', at_ a n x L' s0 s' → same s s' → v_stack s' = v_stack s → Q () s') → wp (f_target l) Q s.
Proof.
  intros [[H1 H2 H3 H4 H5 H6 H7] [G1 G2 G3 G4]] Hl HL HQ. eexists _, _. split; [done|]. apply HQ; cbn; try done.
  - split; split; cbn; rewrite ?length_insert; try done.
    + intros k z Hk. apply list_lookup_insert_Some in Hk as [(-> & [= <-] & _)|[_ Hk]]; [|by apply (H6 k)].
      eexists. split; [done|]. by rewrite take_ge.
    + intros k Hk. apply list_lookup_insert_Some in Hk as [(-> & ? & _)|[Hne Hk]]; [done|].
      destruct (G4 k Hk) as [|Hin]; [by left|]. right. apply HL, elem_of_cons in Hin as [->|]; done.
  - split; cbn; rewrite ?length_insert; done.
Qed.

Lemma at_weaken x L L' s0 s : at_ a n x L s0 s → (∀ k, k ∈ L → k ∈ L') → at_ a n x L' s0 s.
Proof. intros [G [P1 P2 P3 P4]] HL. split; [done|]. split; try done. intros l Hl. destruct (P4 l Hl); [by left|right; by apply HL]. Qed.

(** ** Junctions *)

Lemma wp_join x i L s0 s (Q : () → t_emit → Prop) :
  at_ a n x L s0 s → (length (v_block_privates (block i blocks)) <= n)%nat →
  (∀ s', at_ a n x L s0 s' → same s s' → v_stack s' = v_stack s → Q () s') → wp (f_join blocks i) Q s.
Proof.
  intros Ha Hn HQ. unfold f_join. revert Hn. change (length (v_block_privates (block i blocks))) with (0 + length (v_block_privates (block i blocks)))%nat.
  generalize 0%nat as k. generalize (v_block_privates (block i blocks)) as xs. intros xs. revert s Ha HQ. induction xs as [|p xs IH]; intros s Ha HQ k Hn.
  - apply wp_done, HQ; [done|apply same_refl'|done].
  - cbn [join_from length] in *. apply wp_seq, wp_get, wp_seq. destruct (lookup_lt_is_Some_2 (v_emit_privates s) k) as [b Hb].
    { rewrite (o_privates _ _ _ _ (t_good _ _ _ _ _ _ Ha)). lia. }
    rewrite Hb. assert (Hnext : ∀ s', at_ a n x L s0 s' → same s s' → v_stack s' = v_stack s → wp (join_from (S k) xs) Q s').
    { intros s' Ha' [S1 S2 S3 S4] Hs. apply IH; [done| |lia]. intros s'' Ha'' [T1 T2 T3 T4] Hs'. apply HQ; [done|split; [congruence|lia..]|congruence]. }
    destruct b; [apply wp_done, Hnext; [done|apply same_refl'|done]|]. apply wp_when; [|intros _; apply Hnext; [done|apply same_refl'|done]].
    intros _. apply wp_seq, wp_get. destruct (t_good _ _ _ _ _ _ Ha) as [H1 H2 H3 H4 _ _ _]. rewrite H1.
    apply (wp_emit x x L s0); [done|lia| |done]. split; [apply Forall_nil_2|]. cbn. lia.
Qed.

Lemma wp_merge x i L s0 s (Q : () → t_emit → Prop) :
  at_ a n x L s0 s → (length (v_block_privates (block i blocks)) <= n)%nat →
  (∀ s', at_ a n x L s0 s' → same s s' → v_stack s' = v_stack s → Q () s') → wp (f_merge blocks i) Q s.
Proof.
  intros Ha Hn HQ. pose proof (o_privates _ _ _ _ (t_good _ _ _ _ _ _ Ha)) as Hp. unfold f_merge, wp. rewrite decide_False by lia.
  eexists _, _. split; [done|]. apply HQ; [|by split|done]. destruct Ha as [[] []]. split; split; try done. cbn.
  rewrite length_app, length_fmap, length_drop. lia.
Qed.
End Logic.
