(* ===== verification/EmitNodes.v ===== *)
(** * What the generator does for each kind of node (Emit.v, EmitSafety.v)

    Each lemma takes the parts of a node to be well behaved, and shows that the
    node is: it does not fail, it keeps the state good, and it leaves one value
    on the frame, or none when it is not used, or an operand. *)
From stdpp Require Import base list numbers strings gmap.
From S2P Require Import Prelude Machine Lexer Ast Types Operators Flow Emit EmitSafety.
Local Open Scope Z_scope.

Section Nodes.
Context (blocks : t_blocks) (v_safe_points : bool).

Definition aims (a n : nat) (j r : bool) (s : t_emit) : Prop :=
  targets_ok j r blocks n (length (v_labels s)) (Z.of_nat (a + n)) (code_size (v_code s)) (v_targets s).

Lemma aims_same a n j r s s' : aims a n j r s → same s s' → aims a n j r s'.
Proof. intros H [S1 S2 S3 S4]. unfold aims. rewrite S1. by eapply targets_mono. Qed.

(** What a node leaves: a value on the frame unless it is not used, or an
    operand, which is the constant [lit] of the node if it has one. *)
Definition leaves (lit : option t_operand) (a n : nat) (operand clear : bool) (o : t_operand) (s s' : t_emit) : Prop :=
  (o = c_tag__TEMPORARY ∧ v_stack s' = v_stack s + (if clear then 0 else 1) ∧ v_stack s' <= code_size (v_code s'))
  ∨ (operand = true ∧ v_stack s' = v_stack s ∧
     match lit with Some c => o = c | None => ∃ i, o = c_tag__VARIABLE i ∧ 0 <= i < Z.of_nat (a + n) end).

Definition well (a n : nat) (j r : bool) (lit : option t_operand) (e : t_emitter) : Prop :=
  ∀ x L s0 s tail operand clear Q, at_ a n x L s0 s → aims a n j r s →
    Z.of_nat (a + n) <= v_stack s <= code_size (v_code s) → (tail = true → v_stack s = Z.of_nat (a + n)) →
    (∀ o s', at_ a n x L s0 s' → same s s' → leaves lit a n operand clear o s s' → Q o s') → wp (e tail operand clear) Q s.

(** A constant is left without a change. *)
Definition constant_ok (lit : option t_operand) (e : t_emitter) : Prop := ∀ o, lit = Some o → is_temporary o = false ∧ ∀ t c s, e t true c s = Ok (o, s).
End Nodes.

(** ** Automation: one rule per step *)

Ltac take :=
  lazymatch goal with
  | |- ∀ s', at_ _ _ _ _ _ s' → same ?s s' → _ =>
    let s' := fresh "s" in let A := fresh "A" in let M := fresh "M" in
    intros s' A M;
    try match goal with C : aims _ _ _ _ _ s |- _ => pose proof (aims_same _ _ _ _ _ _ _ C M) end;
    destruct M as [? ? ? ?]; intros
  | |- ∀ l s', at_ _ _ _ _ _ s' → same ?s s' → _ =>
    let l := fresh "l" in let s' := fresh "s" in let A := fresh "A" in let M := fresh "M" in
    intros l s' A M;
    try match goal with C : aims _ _ _ _ _ s |- _ => pose proof (aims_same _ _ _ _ _ _ _ C M) end;
    destruct M as [? ? ? ?]; intros
  end.

Ltac op_fits :=
  split; [cbn; repeat (apply Forall_cons; split); try apply Forall_nil_2; (eexists; split; [reflexivity|lia])
         |split; [cbn; repeat split; try lia|cbn; try lia; try exact I]].

Ltac step1 :=
  lazymatch goal with
  | |- wp (mbind _ _) _ _ => apply wp_seq
  | |- wp (mret _) _ _ => apply wp_done
  | |- wp temporary _ _ => apply wp_done
  | |- wp (gets _) _ _ => apply wp_get; cbv beta
  | |- wp (when _ _) _ _ => apply wp_when; intros
  | H : at_ ?a ?n ?x ?L ?s0 ?s |- wp (emit _) _ ?s =>
    first [apply (wp_emit a n x x L s0 s); [exact H|lia|solve [op_fits]|take]
          |apply (wp_emit a n x (Z.max x (v_stack s + 1)) L s0 s); [exact H|lia|solve [op_fits]|take]]
  | H : at_ ?a ?n ?y ?L ?s0 ?s |- wp f_push _ ?s =>
    lazymatch y with
    | Z.max ?x _ => apply (wp_push a n x y L s0 s); [exact H|lia|take]
    | _ => apply (wp_push a n y y L s0 s); [exact H|lia|take]
    end
  | H : at_ ?a ?n ?x ?L ?s0 ?s |- wp (f_pops ?k) _ ?s => apply (wp_pops a n x L k s0 s); [exact H|take]
  | H : at_ ?a ?n ?x ?L ?s0 ?s |- wp f_pop _ ?s => apply (wp_pop a n x L s0 s); [exact H|take]
  | H : at_ ?a ?n ?x ?L ?s0 ?s |- wp (modify (set_stack ?k)) _ ?s => apply (wp_set_stack a n x k L s0 s); [exact H|take]
  | H : at_ ?a ?n ?x ?L ?s0 ?s |- wp (f_at ?p) _ ?s => apply (wp_at a n x p L s0 s); [exact H|take]
  | H : at_ ?a ?n ?x ?L ?s0 ?s |- wp f_label _ ?s => apply (wp_label a n x L s0 s); [exact H|take]
  end.

Ltac steps1 := repeat (step1; cbn beta).

Section Rules.
Context (blocks : t_blocks) (v_safe_points : bool).
Context (a n : nat).

Lemma wp_safe_point x L p s0 s (Q : () → t_emit → Prop) :
  at_ a n x L s0 s → (∀ s', at_ a n x L s0 s' → same s s' → v_stack s' = v_stack s → Q () s') → wp (f_emit_safe_point v_safe_points p) Q s.
Proof.
  intros Ha HQ. unfold f_emit_safe_point. step1; [|apply HQ; [done|by split|done]].
  steps1. apply HQ; [done|split; [congruence|lia..]|congruence].
Qed.

Lemma wp_clear x L p (clear : bool) s0 s (Q : t_operand → t_emit → Prop) :
  at_ a n x L s0 s → (∀ s', at_ a n x L s0 s' → same s s' → v_stack s' = v_stack s - (if clear then 1 else 0) → Q c_tag__TEMPORARY s') →
  wp (at_and_clear p clear) Q s.
Proof.
  intros Ha HQ. unfold at_and_clear. steps1; subst; (apply HQ; [done|split; [congruence|lia..]|lia]).
Qed.

Lemma wp_push_value j r lit e x L s0 s (Q : () → t_emit → Prop) :
  well blocks a n j r lit e → at_ a n x L s0 s → aims blocks a n j r s → Z.of_nat (a + n) <= v_stack s <= code_size (v_code s) →
  (∀ s', at_ a n x L s0 s' → same s s' → v_stack s' = v_stack s + 1 → v_stack s' <= code_size (v_code s') → Q () s') → wp (push_value e) Q s.
Proof.
  intros W Ha Hc Hb HQ. unfold push_value. steps1. apply (W x L s0 s); [done|done|done|done|].
  intros o s' Ha' Hs [(-> & H1 & H2)|(? & _)]; [|done]. steps1. by apply HQ.
Qed.

Lemma wp_discard j r lit e x L s0 s (Q : () → t_emit → Prop) :
  well blocks a n j r lit e → at_ a n x L s0 s → aims blocks a n j r s → Z.of_nat (a + n) <= v_stack s <= code_size (v_code s) →
  (∀ s', at_ a n x L s0 s' → same s s' → v_stack s' = v_stack s → Q () s') → wp (_ ← e false false true; mret ()) Q s.
Proof.
  intros W Ha Hc Hb HQ. steps1. apply (W x L s0 s); [done|done|done|done|].
  intros o s' Ha' Hs [(-> & H1 & H2)|(? & _)]; [|done]. steps1. apply HQ; [done|done|lia].
Qed.

(** The end of a node: what it leaves. *)
Lemma leave_value lit operand (clear : bool) s s' :
  v_stack s' = v_stack s + (if clear then 0 else 1) → v_stack s' <= code_size (v_code s') → leaves lit a n operand clear c_tag__TEMPORARY s s'.
Proof. by left. Qed.

Lemma same_trans' s1 s2 s3 : same s1 s2 → same s2 s3 → same s1 s3.
Proof. intros [] []. split; [congruence|lia..]. Qed.
End Rules.

Ltac step :=
  lazymatch goal with
  | H : at_ ?a ?n ?x ?L ?s0 ?s |- wp (f_emit_safe_point _ ?p) _ ?s => apply (wp_safe_point _ a n x L p s0 s); [exact H|take]
  | H : at_ ?a ?n ?x ?L ?s0 ?s |- wp (at_and_clear ?p ?c) _ ?s => apply (wp_clear a n x L p c s0 s); [exact H|take]
  | H : at_ ?a ?n ?x ?L ?s0 ?s, W : well ?b _ _ ?j ?r ?lit ?e |- wp (push_value ?e) _ ?s =>
    apply (wp_push_value b a n j r lit e x L s0 s); [exact W|exact H|assumption|lia|take]
  | _ => step1
  end.

Ltac steps := repeat (step; cbn beta).

(** The end of a node. *)
Ltac finish HQ :=
  repeat match goal with H : context [if ?c then _ else _] |- _ => is_var c; destruct c end;
  try done; (apply HQ; [assumption|split; first [lia|congruence]|apply leave_value; lia]).

Section Values.
Context (blocks : t_blocks) (v_safe_points : bool) (a n : nat) (j r : bool).

Definition constant_value (v : t_operand) : Prop := match v with c_tag__INTEGER _ | c_tag__FLOAT _ | c_tag__LITERAL _ => True | _ => False end.

Lemma constant_op_ok k v : constant_value v →
  ∃ i, constant_op k v = Some i ∧ ∀ l c size, 0 <= k → k + 1 <= size → op_ok l c size i.
Proof.
  destruct v as [z|d|[|b|o]| |]; intros Hv; try done; (eexists; split; [reflexivity|]; intros l c size H1 H2; split; [apply Forall_nil_2|by cbn]).
Qed.

Lemma constant_return_ok v : constant_value v → ∃ i, constant_return v = Some i ∧ ∀ l c size, op_ok l c size i.
Proof. destruct v; intros Hv; try done; (eexists; split; [reflexivity|]; intros l c size; split; [apply Forall_nil_2|by cbn]). Qed.

Lemma well_literal p v : constant_value v → well blocks a n j r (Some v) (emit_literal v_safe_points p v).
Proof.
  intros Hv x L s0 s tail operand clear Q Ha Hc Hb Ht HQ. unfold emit_literal.
  destruct operand; [steps; apply HQ; [done|apply same_refl'|by right]|]. destruct clear; [steps; apply HQ; [done|apply same_refl'|apply leave_value; lia]|].
  destruct (constant_return_ok v Hv) as (i & Hi & Hok). destruct (constant_op_ok (v_stack s) v Hv) as (i' & Hi' & Hok').
  steps. destruct tail; steps.
  - apply (wp_the _ i); [done|]. apply (wp_emit a n x x L s0 s1); [done|lia|apply Hok|take]. steps. finish HQ.
  - apply (wp_the _ i'); [done|]. apply (wp_emit a n x (Z.max x (v_stack s + 1)) L s0 s); [done|lia|apply Hok'; lia|take]. steps. finish HQ.
Qed.

Lemma well_null p : well blocks a n j r (Some (c_tag__LITERAL Constant_null)) (emit_null v_safe_points p).
Proof.
  intros x L s0 s tail operand clear Q Ha Hc Hb Ht HQ. unfold emit_null.
  destruct operand; [steps; apply HQ; [done|apply same_refl'|by right]|]. destruct clear; [steps; apply HQ; [done|apply same_refl'|apply leave_value; lia]|].
  unfold f_emit_null. steps. destruct tail; steps; finish HQ.
Qed.

Lemma well_preserve : well blocks a n j r None emit_preserve.
Proof. intros x L s0 s tail operand clear Q Ha Hc Hb Ht HQ. unfold emit_preserve. steps; destruct clear; try done; finish HQ. Qed.

Lemma well_self p outer : well blocks a n j r None (emit_self v_safe_points p outer).
Proof.
  intros x L s0 s tail operand clear Q Ha Hc Hb Ht HQ. unfold emit_self.
  destruct clear; [steps; apply HQ; [done|apply same_refl'|apply leave_value; lia]|].
  destruct (decide (0 < outer)%nat); [destruct outer as [|[|[|?]]]|]; cbn [scope_get]; steps; finish HQ.
Qed.

(** ** Members *)

Lemma wp_on_top k i x L p (clear : bool) s0 s (Q : t_operand → t_emit → Prop) :
  at_ a n x L s0 s → aims blocks a n j r s → (0 < k)%nat → Z.of_nat (a + n) + Z.of_nat k <= v_stack s <= code_size (v_code s) →
  (∀ l c size, v_stack s <= size → op_ok l c size (i (v_stack s - Z.of_nat k))) →
  (∀ s', at_ a n x L s0 s' → same s s' → v_stack s' = v_stack s - Z.of_nat k + (if clear then 0 else 1) → Q c_tag__TEMPORARY s') →
  wp (emit_on_top v_safe_points p k i clear) Q s.
Proof.
  intros Ha Hc Hk Hb Hi HQ. unfold emit_on_top. steps.
  replace (v_stack s1) with (v_stack s) by congruence. apply (wp_emit a n x x L s0 s1); [done|lia|apply Hi; lia|take]. steps.
  apply HQ; [done|split; first [lia|congruence]|]. destruct clear; lia.
Qed.
End Values.

Ltac on_top := 
  lazymatch goal with
  | H : at_ ?a ?n ?x ?L ?s0 ?s, C : aims ?b ?a ?n ?j ?r ?s |- wp (emit_on_top _ ?p ?k ?i ?c) _ ?s =>
    apply (wp_on_top b _ a n j r k i x L p c s0 s); [exact H|exact C|lia|lia|intros; op_fits|take]
  end.

Section Members.
Context (blocks : t_blocks) (v_safe_points : bool) (a n : nat) (j r : bool).
Abbreviation well := (well blocks a n j r).

Context (e1 e2 e3 : t_emitter) (l1 l2 l3 : option t_operand) (W1 : well l1 e1) (W2 : well l2 e2) (W3 : well l3 e3).

Ltac start := intros x L s0 s tail operand clear Q Ha Hc Hb Ht HQ.

Lemma well_object_get p key : well None (emit_object_get v_safe_points p e1 key).
Proof using W1. start. unfold emit_object_get. steps. on_top. finish HQ. Qed.

Lemma well_object_get_indirect p : well None (emit_object_get_indirect v_safe_points p e1 e2).
Proof using W1 W2. start. unfold emit_object_get_indirect. steps. on_top. finish HQ. Qed.

Lemma well_object_put p key : well None (emit_object_put v_safe_points p e1 key e2).
Proof using W1 W2. start. unfold emit_object_put. steps. on_top. finish HQ. Qed.

Lemma well_object_put_indirect p : well None (emit_object_put_indirect v_safe_points p e1 e2 e3).
Proof using W1 W2 W3. start. unfold emit_object_put_indirect. steps. on_top. finish HQ. Qed.

Lemma well_object_has p key : well None (emit_object_has v_safe_points p e1 key).
Proof using W1. start. unfold emit_object_has. steps. on_top. finish HQ. Qed.

Lemma well_object_has_indirect p : well None (emit_object_has_indirect v_safe_points p e1 e2).
Proof using W1 W2. start. unfold emit_object_has_indirect. steps. on_top. finish HQ. Qed.

Lemma well_class p : well None (emit_class_or_super v_safe_points p e1 CLASS).
Proof using W1. start. unfold emit_class_or_super. steps; finish HQ. Qed.

Lemma well_super p : well None (emit_class_or_super v_safe_points p e1 SUPER).
Proof using W1. start. unfold emit_class_or_super. steps; finish HQ. Qed.

Lemma well_throw p : well None (emit_throw p e1).
Proof using W1. start. unfold emit_throw. steps; destruct clear; try done; finish HQ. Qed.

Lemma wp_assert_tail (tail : bool) k x L s0 s (Q : () → t_emit → Prop) :
  at_ a n x L s0 s → (tail = true → v_stack s = Z.of_nat (a + n) + k) → Q () s → wp (assert_tail tail k) Q s.
Proof using Type.
  intros Ha Ht HQ. exists (), s. split; [|done]. unfold assert_tail, assert_. rewrite (o_scope _ _ _ _ (t_good _ _ _ _ _ _ Ha)).
  destruct tail; [|done]. cbn. rewrite Ht by done. by rewrite Z.eqb_refl.
Qed.

Ltac assert_tail :=
  match goal with H : at_ _ _ ?x ?L ?s0 ?s, T : ?t = true → _ |- wp (assert_tail ?t ?k) _ ?s => apply (wp_assert_tail t k x L s0 s); [exact H|intros E; specialize (T E); lia|] end.

Lemma well_get_at p : well None (emit_get_at v_safe_points p e1 e2).
Proof using W1 W2. start. unfold emit_get_at. steps. assert_tail. steps. finish HQ. Qed.

Lemma well_set_at p : well None (emit_set_at v_safe_points p e1 e2 e3).
Proof using W1 W2 W3. start. unfold emit_set_at. steps. assert_tail. steps. finish HQ. Qed.

(** The target of a call and its receiver. *)
Definition receives (m : E ()) : Prop :=
  ∀ x L s0 s Q, at_ a n x L s0 s → aims blocks a n j r s → Z.of_nat (a + n) <= v_stack s <= code_size (v_code s) →
    (∀ s', at_ a n x L s0 s' → same s s' → v_stack s' = v_stack s + 2 → v_stack s' <= code_size (v_code s') → Q () s') → wp m Q s.

Lemma receives_method p key : receives (emit_method v_safe_points p e1 key).
Proof using W1.
  intros x L s0 s Q Ha Hc Hb HQ. unfold emit_method. steps. 
  apply HQ; [assumption|split; first [lia|congruence]|lia|lia].
Qed.

Lemma receives_bind p : receives (emit_bind v_safe_points p e1 e2).
Proof using W1 W2. intros x L s0 s Q Ha Hc Hb HQ. unfold emit_bind. steps. apply HQ; [assumption|split; first [lia|congruence]|lia|lia]. Qed.

Lemma receives_value : receives (_ ← push_value e1; f_emit_null).
Proof using W1. intros x L s0 s Q Ha Hc Hb HQ. unfold f_emit_null. steps. apply HQ; [assumption|split; first [lia|congruence]|lia|lia]. Qed.

(** ** Variables *)

(** A private variable has a slot. *)
Definition placed (x : t_variable) : Prop := v_shared x = false → (v_index x < a + n)%nat.

Lemma wp_initialize v x L s0 s (Q : () → t_emit → Prop) :
  at_ a n x L s0 s → v_shared v = false → placed v → (∀ s', at_ a n x L s0 s' → same s s' → v_stack s' = v_stack s → Q () s') → wp (initialize v) Q s.
Proof using Type.
  intros Ha Hv Hp HQ. specialize (Hp Hv). pose proof (t_good _ _ _ _ _ _ Ha) as [H1 H2 H3 [_ H4] _ _ _].
  unfold initialize, private_index. step. step. rewrite H1. destruct (Z.leb_spec 0 (Z.of_nat (v_index v) - Z.of_nat a)) as [Hi|Hi].
  2: { steps. apply HQ; [done|apply same_refl'|done]. }
  steps. destruct (lookup_lt_is_Some_2 (v_emit_privates s) (Z.to_nat (Z.of_nat (v_index v) - Z.of_nat a)) ltac:(lia)) as [b Hb]. rewrite Hb.
  destruct b; steps; [apply HQ; [done|apply same_refl'|done]|].
  pose proof (t_good _ _ _ _ _ _ A) as G. unfold mark, wp. rewrite decide_True by (rewrite (o_privates _ _ _ _ G); lia).
  eexists _, _. split; [done|]. apply HQ; [|by split|done]. destruct A as [[] []]. split; split; try done. cbn. by rewrite length_insert.
Qed.

Lemma wp_mark v x L s0 s (Q : () → t_emit → Prop) :
  at_ a n x L s0 s → v_shared v = false → placed v → (∀ s', at_ a n x L s0 s' → same s s' → v_stack s' = v_stack s → Q () s') → wp (mark_variable v) Q s.
Proof using Type.
  intros Ha Hv Hp HQ. specialize (Hp Hv). pose proof (t_good _ _ _ _ _ _ Ha) as [H1 H2 H3 [_ H4] _ _ _].
  unfold mark_variable, private_index. step. step. rewrite H1. destruct (Z.leb_spec 0 (Z.of_nat (v_index v) - Z.of_nat a)) as [Hi|Hi].
  2: { steps. apply HQ; [done|apply same_refl'|done]. }
  unfold mark, wp. rewrite decide_True by lia.
  eexists _, _. split; [done|]. apply HQ; [|by split|done]. destruct Ha as [[] []]. split; split; try done. cbn. by rewrite length_insert.
Qed.

Ltac private := 
  match goal with
  | H : at_ _ _ ?x ?L ?s0 ?s |- wp (initialize ?v) _ ?s => apply (wp_initialize v x L s0 s); [exact H|assumption|assumption|take]
  | H : at_ _ _ ?x ?L ?s0 ?s |- wp (mark_variable ?v) _ ?s => apply (wp_mark v x L s0 s); [exact H|assumption|assumption|take]
  end.

Lemma well_symbol_get p symbol resolved k v : resolved = Ok (k, v) → (∀ x, v = Some x → placed x) →
  well None (emit_symbol_get v_safe_points p symbol resolved).
Proof using Type.
  intros Hr Hp. start. unfold emit_symbol_get. step. apply (wp_lift _ (k, v)); [done|]. destruct v as [v|].
  2: { steps; finish HQ. }
  specialize (Hp v eq_refl). pose proof Hp as Hlt. unfold placed in Hlt. pose proof (o_scope _ _ _ _ (t_good _ _ _ _ _ _ Ha)) as Hsc.
  destruct (v_shared v) eqn:Hv; [destruct k as [|[|[|?]]]; cbn [scope_get]; steps; finish HQ|]. specialize (Hlt eq_refl).
  step. private. destruct operand.
  - steps. apply HQ; [assumption|split; first [lia|congruence]|]. right. split_and!; [done|congruence|]. eexists. split; [done|lia].
  - steps. destruct tail; steps; finish HQ.
Qed.

Lemma well_scope_put p outer variable v : variable = Ok v → placed v → constant_ok l1 e1 → (∀ c, l1 = Some c → constant_value c) →
  well None (emit_scope_put v_safe_points p outer variable e1).
Proof using W1.
  intros Hr Hp Hl Hcv. start. unfold emit_scope_put. step. apply (wp_lift _ v); [done|].
  pose proof Hp as Hlt. unfold placed in Hlt. pose proof (o_scope _ _ _ _ (t_good _ _ _ _ _ _ Ha)) as Hsc.
  destruct (clear && negb (v_shared v)) eqn:Ec.
  - apply andb_prop in Ec as [-> Hv%negb_true_iff]. specialize (Hlt Hv). step. apply (W1 x L s0 s); [done|done|done|done|].
    intros o s1 A M Hle. pose proof (aims_same _ _ _ _ _ _ _ Hc M). destruct M as [? ? ? ?]. step. step. step. private.
    destruct Hle as [(-> & ? & ?)|(_ & ? & Ho)].
    + steps. finish HQ.
    + assert (Hor : (∃ i, o = c_tag__VARIABLE i ∧ 0 <= i < Z.of_nat (a + n)) ∨ constant_value o) by (destruct l1 as [c|]; [right; subst; by apply Hcv|by left]).
      destruct Hor as [(i & -> & Hi)|Hco].
      * steps. finish HQ.
      * destruct (constant_op_ok (Z.of_nat (v_index v)) o Hco) as (i & Hi & Hok).
        assert (Hput : wp (i ← the (constant_op (Z.of_nat (v_index v)) o); emit i) (λ _ : (), wp (_ ← f_at p; temporary) Q) s3).
        { steps. apply (wp_the _ i); [done|]. apply (wp_emit a n x x L s0 s3); [done|lia|apply Hok; lia|take]. steps. finish HQ. }
        step. destruct o; try done.
  - steps. destruct (v_shared v) eqn:Hv.
    + destruct (decide (0 < outer)%nat); steps; finish HQ.
    + specialize (Hlt eq_refl). step. private. steps. finish HQ.
Qed.
End Members.
