(* ===== verification/EmitControl.v ===== *)
(** * What the generator does for control flow (Emit.v, EmitNodes.v)

    Sequences, conditions, loops, jumps and [try]. *)
From stdpp Require Import base list numbers strings gmap.
From S2P Require Import Prelude Machine Lexer Ast Types Operators Flow Emit EmitSafety EmitNodes.
Local Open Scope Z_scope.

Ltac in_tail := let E := fresh "E" in intros E; repeat match goal with T : ?t = true → _, E : ?t = true |- _ => specialize (T E) end; lia.

Ltac target L' :=
  lazymatch goal with H : at_ ?a ?n ?x ?L ?s0 ?s |- wp (f_target ?l) _ ?s =>
    apply (wp_target a n x L L' l s0 s); [exact H|lia|set_solver|take] end.

(** A part of a node that leaves a value or nothing. *)
Ltac part :=
  lazymatch goal with H : at_ ?a ?n ?x ?L ?s0 ?s, W : well ?b _ _ _ _ ?lit ?e |- wp (?e _ false _) _ ?s =>
    apply (W x L s0 s); [exact H|assumption|lia|first [done|in_tail]|];
    let o := fresh "o" in let s' := fresh "s" in let A := fresh "A" in let M := fresh "M" in let Hle := fresh "Hle" in
    intros o s' A M Hle;
    match goal with C : aims _ _ _ _ _ s |- _ => pose proof (aims_same _ _ _ _ _ _ _ C M) end;
    let K := fresh "K" in destruct M as [? ? ? ?]; destruct Hle as [(? & K & ?)|(? & _)]; [cbv iota in K|done]
  end.

Ltac control :=
  lazymatch goal with
  | H : at_ ?a ?n ?x ?L ?s0 ?s |- wp (f_join ?b ?i) _ ?s => apply (wp_join b a n x i L s0 s); [exact H|assumption|take]
  | H : at_ ?a ?n ?x ?L ?s0 ?s |- wp (f_merge ?b ?i) _ ?s => apply (wp_merge b a n x i L s0 s); [exact H|assumption|take]
  | H : at_ ?a ?n ?x ?L ?s0 ?s |- wp (modify (set_privates ?xs)) _ ?s =>
    apply (wp_set_privates a n x xs L s0 s); [exact H|eapply o_privates, t_good; eassumption|take]
  | |- wp (?e ?t false ?c) _ ?s => part
  | |- wp f_label _ _ => fail
  | _ => step
  end.

Ltac label l :=
  lazymatch goal with H : at_ ?a ?n ?x ?L ?s0 ?s |- wp f_label _ ?s =>
    apply (wp_label a n x L s0 s); [exact H|];
    let l' := fresh "l" in let s' := fresh "s" in let A := fresh "A" in let M := fresh "M" in
    intros l' s' A M; pose proof (aims_same _ _ _ _ _ _ _ ltac:(eassumption) M); destruct M as [? ? ? ?]; intros; rename l' into l
  end; cbn beta.

Ltac controls := repeat (control; cbn beta).

(** [v_targets] is set, for the body of a node, and put back. *)
Ltac jumps :=
  lazymatch goal with H : at_ ?a ?n ?x ?L ?s0 ?s |- wp (modify (set_targets ?t)) _ ?s =>
    apply (wp_set_targets a n x t L s0 s); [exact H|]; intros ? ? ? ? ? ? ? end.

Ltac ends HQ := steps; apply HQ; [assumption|split; first [lia|congruence]|first [by left|apply leave_value; lia]].

Section Control.
Context (blocks : t_blocks) (v_safe_points : bool) (a n : nat) (j r : bool).
Abbreviation well := (well blocks a n).

Definition fits (i : t_id) : Prop := (length (v_block_privates (block i blocks)) <= n)%nat.

Ltac start := intros x L s0 s tail operand clear Q Ha Hc Hb Ht HQ.

Lemma well_nodes xs : Forall (λ e, ∃ lit, well j r lit e) xs → well j r None (λ t _ c, emit_nodes xs t c).
Proof.
  intros HX. start. revert s Ha Hc Hb Ht HQ. induction HX as [|e xs [lit W] HX IH]; intros s Ha Hc Hb Ht HQ.
  - cbn [emit_nodes]. unfold f_emit_null. steps; destruct clear; try done; (apply HQ; [assumption|split; first [lia|congruence]|apply leave_value; lia]).
  - destruct xs as [|e' xs].
    + cbn [emit_nodes]. controls. apply HQ; [assumption|split; first [lia|congruence]|by left].
    + cbn [emit_nodes]. control. control. apply IH; [assumption|assumption|lia|in_tail|].
      intros o' s' A' M Hl. apply HQ; [assumption|eapply same_trans'; [|exact M]; split; first [lia|congruence]|].
      unfold leaves in *. destruct Hl as [(-> & ? & ?)|(? & ? & ?)]; [left|right]; split_and!; try done; lia.
Qed.

Lemma wp_all xs x L s0 s (Q : () → t_emit → Prop) :
  Forall (λ e, ∃ lit, well j r lit e) xs → at_ a n x L s0 s → aims blocks a n j r s → Z.of_nat (a + n) <= v_stack s <= code_size (v_code s) →
  (∀ s', at_ a n x L s0 s' → same s s' → v_stack s' = v_stack s + Z.of_nat (length xs) → v_stack s' <= code_size (v_code s') → Q () s') →
  wp (emit_all xs) Q s.
Proof.
  intros HX. revert s. induction HX as [|e xs [lit W] HX IH]; intros s Ha Hc Hb HQ; cbn [emit_all length] in *.
  - step. apply HQ; [done|apply same_refl'|lia|lia].
  - step. step. apply IH; [assumption|assumption|lia|]. intros s' A' M ? ?.
    apply HQ; [assumption|eapply same_trans'; [|exact M]; split; first [lia|congruence]|lia|lia].
Qed.

Definition well_option (e : option t_emitter) : Prop := ∀ e', e = Some e' → ∃ lit, well j r lit e'.

Lemma wp_condition condition l x L s0 s (Q : () → t_emit → Prop) :
  well_option condition → at_ a n x L s0 s → aims blocks a n j r s → Z.of_nat (a + n) <= v_stack s <= code_size (v_code s) →
  (l < length (v_labels s))%nat →
  (∀ s', at_ a n x L s0 s' → same s s' → v_stack s' = v_stack s → Q () s') → wp (emit_condition condition l) Q s.
Proof.
  intros W Ha Hc Hb Hl HQ. destruct condition as [e|]; cbn [emit_condition].
  - destruct (W e eq_refl) as [lit We]. steps. apply HQ; [assumption|split; first [lia|congruence]|lia].
  - steps. apply HQ; [done|apply same_refl'|done].
Qed.

Ltac condition W :=
  lazymatch goal with H : at_ _ _ ?x ?L ?s0 ?s |- wp (emit_condition ?c ?l) _ ?s => apply (wp_condition c l x L s0 s); [exact W|exact H|assumption|lia|lia|take] end.

Lemma well_if path condition yes no l1 l2 : well_option condition → well j r l1 yes → well j r l2 no → fits (path, 2%nat) →
  well j r None (emit_if blocks path condition yes no).
Proof.
  intros WC W1 W2 Hf. start. unfold emit_if. controls. label label0. controls. condition WC. controls. label label1. controls. target (label1 :: L). controls. target L. controls.
  apply HQ; [assumption|split; first [lia|congruence]|apply leave_value; lia].
Qed.

(** ** Loops and jumps *)

Lemma aims_loop s s' break0 continue0 exit next stack (tail clear : bool) :
  aims blocks a n j r s → (length (v_labels s) <= length (v_labels s'))%nat → code_size (v_code s) <= code_size (v_code s') →
  v_targets s' = loop_targets break0 exit stack tail clear continue0 next (v_targets s) →
  (break0 < length (v_labels s'))%nat → (continue0 < length (v_labels s'))%nat → fits exit → fits next →
  Z.of_nat (a + n) <= stack <= code_size (v_code s') → (tail = true → stack = Z.of_nat (a + n)) → aims blocks a n true r s'.
Proof.
  intros [_ _ R _ Lv _ RS] Hl Hs Ht Hb Hc Hf Hn Hk Hta. unfold aims. rewrite Ht. split; cbn.
  - intros l [= <-]. split; [done|]. by eexists.
  - intros l [= <-]. split; [done|]. by eexists.
  - intros l H. destruct (R l H). split; [lia|done].
  - done.
  - done.
  - done.
  - intros H. destruct (RS H). split; [lia|done].
Qed.

Lemma aims_again s s' :
  aims blocks a n j r s → (length (v_labels s) <= length (v_labels s'))%nat → code_size (v_code s) <= code_size (v_code s') →
  v_targets s' = v_targets s → aims blocks a n j r s'.
Proof. intros H Hl Hs Ht. unfold aims. rewrite Ht. by eapply targets_mono. Qed.

Ltac enter j r s :=
  lazymatch goal with T : v_targets ?s' = loop_targets _ _ _ _ _ _ _ _ |- wp _ _ ?s' =>
    assert (aims blocks a n j r s') by (eapply (aims_loop s); [assumption|lia|lia|exact T|lia|lia|assumption|assumption|lia|in_tail]) end.

Ltac again :=
  lazymatch goal with T : v_targets ?s' = v_targets ?s |- wp _ _ ?s' =>
    assert (aims blocks a n j r s') by (apply (aims_again s); [assumption|lia|lia|exact T]) end.

Lemma well_while path condition body lit :
  well_option condition → well true r lit body → fits (path, 0%nat) → fits (path, 3%nat) → well j r None (emit_while blocks path condition body).
Proof.
  intros WC WB F0 F3. start. unfold emit_while. controls. label loop0. controls. target L. controls. label label0. controls. condition WC. controls.
  label break0. controls. jumps. enter true r s6. controls. jumps. again. controls. target (break0 :: L). controls.
  all: unfold f_emit_null; controls; target L; controls; destruct clear; try done; ends HQ.
Qed.

(** An expression that is not used, which may be absent. *)
Definition discard (e : option t_emitter) : E () := match e with Some e => _ ← e false false true; mret () | None => mret () end.

Lemma wp_discard_option e x L s0 s (Q : () → t_emit → Prop) :
  well_option e → at_ a n x L s0 s → aims blocks a n j r s → Z.of_nat (a + n) <= v_stack s <= code_size (v_code s) →
  (∀ s', at_ a n x L s0 s' → same s s' → v_stack s' = v_stack s → Q () s') → wp (discard e) Q s.
Proof.
  intros W Ha Hc Hb HQ. destruct e as [e|]; cbn [discard].
  - destruct (W e eq_refl) as [lit We]. by apply (wp_discard blocks a n j r lit e x L s0 s).
  - step. apply HQ; [done|apply same_refl'|done].
Qed.

Ltac discarded W :=
  lazymatch goal with H : at_ _ _ ?x ?L ?s0 ?s |- wp (discard ?e) _ ?s => apply (wp_discard_option e x L s0 s); [exact W|exact H|assumption|lia|take] end.

Lemma well_for path initialization condition next body lit :
  well_option initialization → well_option condition → well_option next → well true r lit body →
  fits (path, 0%nat) → fits (path, 3%nat) → fits (path, 5%nat) → well j r None (emit_for blocks path initialization condition next body).
Proof.
  intros WI WC WN WB F0 F3 F5. start. unfold emit_for. step. fold (discard initialization). discarded WI. controls. label loop0. controls.
  destruct next as [next|].
  - destruct (WN next eq_refl) as [ln Wn]. label continue0. controls. target (continue0 :: L). controls. label label0. controls. condition WC. controls.
    label break0. controls. jumps. enter true r s8. controls. jumps. again. controls. target (break0 :: label0 :: L). controls.
    target (break0 :: L). controls.
    all: unfold f_emit_null; controls; target L; controls; destruct clear; try done; ends HQ.
  - controls. target L. controls. label label0. controls. condition WC. controls.
    label break0. controls. jumps. enter true r s7. controls. jumps. again. controls. target (break0 :: L). controls.
    all: unfold f_emit_null; controls; target L; controls; destruct clear; try done; ends HQ.
Qed.

Lemma well_break e lit : j = true → well j r lit e → well j r None (emit_break blocks e).
Proof.
  intros Hj W. start. unfold emit_break. controls. destruct (g_jump _ _ _ _ _ _ _ _ Hc Hj) as [[l Hl] _].
  destruct (g_break _ _ _ _ _ _ _ _ Hc l Hl) as [Hlt (i & Hi & Hf)]. destruct (g_break_stack _ _ _ _ _ _ _ _ Hc ltac:(by eexists)) as [Hbs Hbt].
  assert (Htl : v_break_is_tail (v_targets s) = true → v_stack s1 = Z.of_nat (a + n)) by (intros E; rewrite H0; auto).
  controls; destruct clear; try done.
  all: apply (wp_the _ i); [done|]; controls; apply (wp_the _ l); [done|]; controls; ends HQ.
Qed.

Lemma well_continue p : j = true → well j r None (emit_continue v_safe_points p).
Proof.
  intros Hj. start. unfold emit_continue. controls; destruct clear; try done.
  all: match goal with C : aims _ _ _ _ _ ?s |- wp (the (v_continue (v_targets ?s))) _ ?s => destruct (g_jump _ _ _ _ _ _ _ _ C Hj) as [_ [l Hl]]; destruct (g_continue _ _ _ _ _ _ _ _ C l Hl) as [Hlt _] end.
  all: apply (wp_the _ l); [done|]; controls; ends HQ.
Qed.

Lemma well_return e lit : r = true → well j r lit e → well j r None (emit_return blocks e).
Proof.
  intros Hr W. start. unfold emit_return. controls. destruct (g_leave _ _ _ _ _ _ _ _ Hc Hr) as [l Hl].
  destruct (g_return _ _ _ _ _ _ _ _ Hc l Hl) as [Hlt (i & Hi & Hf)]. destruct (g_return_stack _ _ _ _ _ _ _ _ Hc ltac:(by eexists)) as [Hbs Hbt].
  assert (Htl : v_return_is_tail (v_targets s) = true → v_stack s1 = Z.of_nat (a + n)) by (intros E; rewrite H0; auto).
  controls. destruct (v_return_is_tail (v_targets s)).
  - controls. match goal with H : at_ _ _ _ _ _ ?s |- wp _ _ ?s => exists (), s; split; [unfold assert_; rewrite (o_scope _ _ _ _ (t_good _ _ _ _ _ _ H)), (proj2 (Z.eqb_eq _ _)) by (specialize (Htl eq_refl); lia); done|] end.
    specialize (Htl eq_refl). controls; destruct clear; try done; ends HQ.
  - controls. apply (wp_the _ i); [done|]. controls. apply (wp_the _ l); [done|]. controls; destruct clear; try done; ends HQ.
Qed.

(** ** [try] *)

Lemma aims_try s s' path stack break0 continue0 return0 :
  aims blocks a n j r s → (length (v_labels s) <= length (v_labels s'))%nat →
  v_targets s' = try_targets path stack break0 continue0 return0 (v_targets s) →
  (break0 < length (v_labels s'))%nat → (continue0 < length (v_labels s'))%nat → (return0 < length (v_labels s'))%nat → fits (path, 2%nat) →
  Z.of_nat (a + n) <= stack <= code_size (v_code s') → aims blocks a n j r s'.
Proof.
  intros [_ _ _ J R _ _] Hl Ht Hb Hc Hr Hf Hk. unfold aims. rewrite Ht.
  assert (HS : ∀ (o : option nat) (k l : nat), mbind (λ _, Some k) o = Some l → l = k) by (intros [?|] k l; cbn; congruence).
  split; cbn.
  - intros l ->%HS. split; [done|]. by eexists.
  - intros l ->%HS. split; [done|]. by eexists.
  - intros l ->%HS. split; [done|]. by eexists.
  - intros Hj. destruct (J Hj) as [[? ->] [? ->]]. split; by eexists.
  - intros Hr'. destruct (R Hr') as [? ->]. by eexists.
  - done.
  - done.
Qed.

Lemma aims_finally s : v_targets s = finally_targets → aims blocks a n false false s.
Proof. intros Ht. unfold aims. rewrite Ht. split; cbn; try done; by intros [? ?]. Qed.

Definition well_catch (c : t_emitter * outcome t_variable * t_emitter) : Prop :=
  (∃ lit, well j r lit c.1.1) ∧ (∃ v, c.1.2 = Ok v ∧ placed a n v) ∧ ∃ lit, well j r lit c.2.

Lemma wp_catches cs (clear : bool) k x L s0 s (Q : () → t_emit → Prop) :
  Forall well_catch cs → at_ a n x L s0 s → aims blocks a n j r s → Z.of_nat (a + n) <= k → v_stack s = k + (if clear then 0 else 1) →
  v_stack s <= code_size (v_code s) →
  (∀ s', at_ a n x L s0 s' → same s s' → v_stack s' = v_stack s → (cs ≠ [] → k + 1 <= code_size (v_code s')) → Q () s') →
  wp (emit_catches cs clear) Q s.
Proof.
  intros HC. revert s. induction HC as [|[[e v] b] cs ([le We] & (x' & Hv & Hp) & [lb Wb]) HC IH]; intros s Ha Hc Hk Hs Hb HQ; cbn [emit_catches].
  { step. apply HQ; [done|apply same_refl'|done|done]. }
  cbn [fst snd] in *. subst v. pose proof (o_scope _ _ _ _ (t_good _ _ _ _ _ _ Ha)) as Hsc. unfold placed in Hp.
  assert (Hpop : wp (when (negb clear) f_pop) (λ _ s', at_ a n x L s0 s' ∧ same s s' ∧ v_stack s' = k) s).
  { controls; destruct clear; try done; (split_and!; [assumption|first [apply same_refl'|split; first [lia|congruence]]|lia]). }
  step. eapply wp_weaken; [exact Hpop|]. intros _ s1 (A & M & K). pose proof (aims_same _ _ _ _ _ _ _ Hc M) as C1. destruct M as [? ? ? ?].
  assert (v_stack s1 <= v_stack s) by (destruct clear; lia).
  controls. label label0. controls. apply (wp_lift _ x'); [done|]. controls.
  assert (HE : ∀ t1 P, at_ a n x (label0 :: L) s0 t1 → aims blocks a n j r t1 → (label0 < length (v_labels t1))%nat → code_size (v_code s) <= code_size (v_code t1) →
    (∀ t2, at_ a n x (label0 :: L) s0 t2 → same t1 t2 → v_stack t2 = v_stack t1 → P () t2) →
    wp (emit (CATCH (Label label0) (v_shared x') (Z.of_nat (v_index x')))) P t1).
  { intros t1 P B1 B2 B3 B4 HP. destruct (o_size _ _ _ _ (t_good _ _ _ _ _ _ B1)) as [_ Ho]. rewrite (o_scope _ _ _ _ (t_good _ _ _ _ _ _ B1)) in Ho.
    destruct (v_shared x') eqn:Ex; [|specialize (Hp eq_refl)]; (apply (wp_emit a n x x (label0 :: L) s0 t1); [done|lia|op_fits|apply HP]). }
  match goal with A : at_ _ _ _ _ _ ?s |- wp (emit _) _ ?s => apply (HE s); [assumption|assumption|lia|lia|take] end.
  controls. target L. apply IH; [assumption|assumption|lia|destruct clear; lia|destruct clear; lia|].
  intros s' A' M' ? ?. apply HQ; [assumption|eapply same_trans'; [|exact M']; split; first [lia|congruence]|destruct clear; lia|].
  intros _. destruct M'. lia.
Qed.

Definition opt (l : option nat) : list nat := match l with Some l => [l] | None => [] end.

Lemma needs_join_ok stack a_stack privates xs : (length xs <= length privates)%nat → ∃ b, needs_join stack a_stack privates xs = Ok b ∧ (a_stack < stack → b = true).
Proof.
  unfold needs_join. intros Hl. destruct (Z.ltb_spec a_stack stack); [by exists true|]. 
  change (length xs) with (0 + length xs)%nat in Hl. revert Hl. generalize 0%nat as i. induction xs as [|x xs IH]; intros i Hl; [exists false; split; [done|lia]|].
  cbn [length] in Hl. destruct (lookup_lt_is_Some_2 privates i ltac:(lia)) as [b Hb]. rewrite Hb.
  destruct (negb b && v_use x && v_in x); [by exists true|]. apply IH. lia.
Qed.

(** A label of the targets and the junction of its jump. *)
Definition leads (labels : nat) (a_label : option nat) (a_junction : option t_id) : Prop :=
  ∀ l, a_label = Some l → (l < labels)%nat ∧ ∃ i, a_junction = Some i ∧ fits i.

Lemma wp_yrt_operand stack l i k x L s0 s (Q : option t_place * option nat → t_emit → Prop) :
  at_ a n x L s0 s → leads (length (v_labels s)) l i →
  (∀ p l' s', at_ a n x (opt l' ++ L) s0 s' → same s s' → v_stack s' = v_stack s →
     Forall (λ p, ∃ l, p = Label l ∧ (l < length (v_labels s'))%nat) (match p with Some p => [p] | None => [] end) →
     (∀ m, l' = Some m → (m < length (v_labels s'))%nat ∧ is_Some l) → Q (p, l') s') →
  wp (yrt_operand blocks stack l i k) Q s.
Proof.
  intros Ha Hl HQ. destruct l as [l|]; cbn [yrt_operand].
  2: { steps. apply HQ; [done|apply same_refl'|done|done|done]. }
  destruct (Hl l eq_refl) as [Hlt (i' & -> & Hf)]. pose proof (o_privates _ _ _ _ (t_good _ _ _ _ _ _ Ha)) as Hpr.
  set (xs := if k <? stack then [] else v_block_privates (block i' blocks)).
  assert (Hxs : (length xs <= length (v_emit_privates s))%nat) by (subst xs; destruct (k <? stack); cbn; [lia|by rewrite Hpr]).
  destruct (needs_join_ok stack k (v_emit_privates s) xs Hxs) as (b & Hb & _).
  step. step. step. assert (HJ : (if k <? stack then mret [] else j0 ← the (Some i'); mret (v_block_privates (block j0 blocks))) s = Ok (xs, s)).
  { subst xs. by destruct (k <? stack). }
  exists xs, s. split; [exact HJ|]. step. apply (wp_lift _ b); [done|]. destruct b.
  - steps. apply HQ; [assumption|split; first [lia|congruence]|congruence| |].
    + repeat constructor. eexists. split; [done|lia].
    + intros m [= <-]. split; [lia|by eexists].
  - steps. apply HQ; [done|apply same_refl'|done| |done]. repeat constructor. eexists. split; [done|lia].
Qed.

Lemma wp_yrt_join stack l l' i k x L L' s0 s (Q : () → t_emit → Prop) :
  at_ a n x L s0 s → (∀ m, m ∈ L → m ∈ opt l' ++ L') → leads (length (v_labels s)) l i →
  (∀ m, l' = Some m → (m < length (v_labels s))%nat ∧ is_Some l) → (is_Some l → 0 <= k ∧ k <= code_size (v_code s)) → 0 <= stack → stack + 1 <= code_size (v_code s) →
  (∀ s', at_ a n x L' s0 s' → same s s' → v_stack s' = v_stack s → Q () s') → wp (yrt_join blocks stack l' l i k) Q s.
Proof.
  intros Ha HL Hl Hm Hk Hst Hsz HQ. destruct l' as [m|]; cbn [yrt_join opt app] in *.
  2: { step. apply HQ; [by apply (at_weaken a n x L)|apply same_refl'|done]. }
  destruct (Hm m eq_refl) as [Hml [l0 ->]]. destruct (Hl l0 eq_refl) as [Hlt (i' & -> & Hf)]. specialize (Hk ltac:(by eexists)).
  step. apply (wp_target a n x L L' m s0 s); [done|done|done|take]. 
  assert (HS : wp (when (k <? stack) (emit (STACK_GET k stack))) (λ _ s', at_ a n x L' s0 s' ∧ same s s' ∧ v_stack s' = v_stack s) s1).
  { step; match goal with E : (_ <? _) = _ |- _ => revert E end; destruct (Z.ltb_spec k stack); intros; try done; steps;
      (split_and!; [assumption|split; first [lia|congruence]|congruence]). }
  step. eapply wp_weaken; [exact HS|]. intros _ s2 (A2 & M & K2). destruct M as [? ? ? ?].
  step. apply (wp_the _ i'); [done|]. step. control. step. apply (wp_the _ l0); [done|]. steps.
  apply HQ; [assumption|split; first [lia|congruence]|congruence].
Qed.
End Control.

(** ** [try] *)

Section Try.
Context (blocks : t_blocks) (v_safe_points : bool) (a n : nat) (j r : bool).
Abbreviation well := (well blocks a n).
Abbreviation fits := (fits blocks n).

Ltac start := intros x L s0 s tail operand clear Q Ha Hc Hb Ht HQ.

Lemma wp_finally finally (clear : bool) x L s0 s (Q : () → t_emit → Prop) :
  (∀ f, finally = Some f → ∃ lit, well false false lit f) → at_ a n x L s0 s → Z.of_nat (a + n) <= v_stack s <= code_size (v_code s) →
  (∀ s', at_ a n x L s0 s' → code_size (v_code s) <= code_size (v_code s') → (length (v_labels s) <= length (v_labels s'))%nat →
    (length (v_codes s) <= length (v_codes s'))%nat → v_stack s' = v_stack s →
    (is_Some finally → clear = true → v_stack s + 1 <= code_size (v_code s')) → Q () s') →
  wp (emit_finally finally clear) Q s.
Proof.
  intros W Ha Hb HQ. destruct finally as [f|]; cbn [emit_finally].
  2: { step. apply HQ; try done. }
  destruct (W f eq_refl) as [lit Wf]. step.
  apply (wp_set_targets a n x finally_targets L s0 s); [done|]. intros s1 A1 HT Hs Hl Hco Hk.
  pose proof (aims_finally blocks a n s1 HT) as C1.
  step. destruct clear; cbn [when].
  - steps. part. steps. apply HQ; first [assumption|lia|intros; lia].
  - steps. part. steps. apply HQ; first [assumption|lia|intros; congruence].
Qed.

(** The end of the node: the jumps that go on after [finally]. *)
Lemma wp_yrt stack T x L s0 s (Q : () → t_emit → Prop) :
  at_ a n x L s0 s → targets_ok j r blocks n (length (v_labels s)) (Z.of_nat (a + n)) (code_size (v_code s)) T →
  0 <= stack → stack + 1 <= code_size (v_code s) → 
  (∀ s', at_ a n x L s0 s' → same s s' → v_stack s' = v_stack s → Q () s') →
  wp (emit_yrt blocks stack T) Q s.
Proof.
  intros Ha HT Hst Hsz HQ. unfold emit_yrt. set (break_stack := if v_break_must_clear T then stack else v_break_stack T).
  assert (Hbs : is_Some (v_break T) → 0 <= break_stack <= code_size (v_code s)).
  { intros Hx. destruct (g_break_stack _ _ _ _ _ _ _ _ HT Hx) as [? _]. subst break_stack. destruct (v_break_must_clear T); lia. }
  assert (HL : ∀ m, (length (v_labels s) <= m)%nat → leads blocks n m (v_break T) (v_break_junction T) ∧
            leads blocks n m (v_continue T) (v_continue_junction T) ∧ leads blocks n m (v_return T) (v_return_junction T)).
  { intros m Hm. destruct HT as [B C R _ _ _ _]. split_and!; intros l Hl; [destruct (B l Hl)|destruct (C l Hl)|destruct (R l Hl)]; (split; [lia|done]). }
  pose proof (g_return_stack _ _ _ _ _ _ _ _ HT) as Hrs.
  step. destruct (HL _ (le_n _)) as (L1 & _). apply (wp_yrt_operand blocks a n stack (v_break T) (v_break_junction T) break_stack x L s0 s); [done|done|].
  intros p1 b1 s1 A1 [? ? ? ?] K1 P1 M1.
  step. destruct (HL (length (v_labels s1)) ltac:(lia)) as (_ & L2 & _).
  apply (wp_yrt_operand blocks a n stack (v_continue T) (v_continue_junction T) stack x (opt b1 ++ L) s0 s1); [done|done|].
  intros p2 b2 s2 A2 [? ? ? ?] K2 P2 M2.
  step. destruct (HL (length (v_labels s2)) ltac:(lia)) as (_ & _ & L3).
  apply (wp_yrt_operand blocks a n stack (v_return T) (v_return_junction T) (v_return_stack T) x (opt b2 ++ opt b1 ++ L) s0 s2); [done|done|].
  intros p3 b3 s3 A3 [? ? ? ?] K3 P3 M3.
  assert (HM : ∀ (p : option t_place) (k : nat), Forall (λ p, ∃ l, p = Label l ∧ (l < k)%nat) (match p with Some p => [p] | None => [] end) →
            ∀ k', (k <= k')%nat → Forall (λ p, ∃ l, p = Label l ∧ (l < k')%nat) (match p with Some p => [p] | None => [] end)).
  { intros p k Hf k' Hk. eapply Forall_impl; [exact Hf|]. intros q (l & -> & ?). exists l. split; [done|lia]. }
  step. apply (wp_emit a n x x (opt b3 ++ opt b2 ++ opt b1 ++ L) s0 s3); [done|lia| |].
  { split; [|done]. cbn [places]. rewrite !Forall_app. split_and!; [by apply (HM _ (length (v_labels s1))); [|lia]|by apply (HM _ (length (v_labels s2))); [|lia]|done]. }
  intros s4 A4 [? ? ? ?] K4. cbv zeta.
  set (any := _ || _). 
  assert (HS : wp (if any then l ← f_label; mret (Some l) else mret None) (λ o s', at_ a n x (opt o ++ opt b3 ++ opt b2 ++ opt b1 ++ L) s0 s' ∧ same s4 s' ∧
            v_stack s' = v_stack s4 ∧ ∀ l, o = Some l → (l < length (v_labels s'))%nat) s4).
  { destruct any; steps; (split_and!; [assumption|first [apply same_refl'|split; first [lia|congruence]]|congruence|intros ? [= <-]; lia]). }
  step. eapply wp_weaken; [exact HS|]. clear HS. intros o s5 (A5 & [? ? ? ?] & K5 & M5).
  assert (HJ : wp (match o with Some l => emit (JUMP (Label l)) | None => mret () end) (λ _ s', at_ a n x (opt o ++ opt b3 ++ opt b2 ++ opt b1 ++ L) s0 s' ∧ same s5 s' ∧
            v_stack s' = v_stack s5) s5).
  { destruct o as [l|]; [specialize (M5 l eq_refl)|]; steps; (split_and!; [assumption|first [apply same_refl'|split; first [lia|congruence]]|congruence]). }
  step. eapply wp_weaken; [exact HJ|]. clear HJ. intros _ s6 (A6 & [? ? ? ?] & K6).
  assert (HN : ∀ b (l : option nat) k k', (k <= k')%nat → (∀ m, b = Some m → (m < k)%nat ∧ is_Some l) → ∀ m, b = Some m → (m < k')%nat ∧ is_Some l).
  { intros b l k k' Hk H m Hm. destruct (H m Hm). split; [lia|done]. }
  step. destruct (HL (length (v_labels s6)) ltac:(lia)) as (L1' & _).
  apply (wp_yrt_join blocks a n stack (v_break T) b1 (v_break_junction T) break_stack x (opt o ++ opt b3 ++ opt b2 ++ opt b1 ++ L) (opt o ++ opt b3 ++ opt b2 ++ L) s0 s6);
    [exact A6|set_solver|exact L1'|by apply (HN _ _ (length (v_labels s1))); [lia|]|intros Hx; specialize (Hbs Hx); lia|lia|lia|].
  intros s7 A7 [? ? ? ?] K7. step. destruct (HL (length (v_labels s7)) ltac:(lia)) as (_ & L2' & _).
  apply (wp_yrt_join blocks a n stack (v_continue T) b2 (v_continue_junction T) stack x (opt o ++ opt b3 ++ opt b2 ++ L) (opt o ++ opt b3 ++ L) s0 s7);
    [exact A7|set_solver|exact L2'|by apply (HN _ _ (length (v_labels s2))); [lia|]|intros; lia|lia|lia|].
  intros s8 A8 [? ? ? ?] K8. step. destruct (HL (length (v_labels s8)) ltac:(lia)) as (_ & _ & L3').
  apply (wp_yrt_join blocks a n stack (v_return T) b3 (v_return_junction T) (v_return_stack T) x (opt o ++ opt b3 ++ L) (opt o ++ L) s0 s8);
    [exact A8|set_solver|exact L3'|by apply (HN _ _ (length (v_labels s3))); [lia|]|intros Hx; destruct (Hrs Hx); lia|lia|lia|].
  intros s9 A9 [? ? ? ?] K9. destruct o as [l|]; cbn [opt app] in *.
  - specialize (M5 l eq_refl). apply (wp_target a n x (l :: L) L l s0 s9); [exact A9|lia|done|take]. apply HQ; [assumption|split; first [lia|congruence]|congruence].
  - step. apply HQ; [assumption|split; first [lia|congruence]|congruence].
Qed.

Lemma well_try path body lb catches finally :
  well j r lb body → Forall (well_catch blocks a n j r) catches → (∀ f, finally = Some f → ∃ lit, well false false lit f) →
  catches ≠ [] ∨ is_Some finally → fits (path, 0%nat) → fits (path, 2%nat) → well j r None (emit_try blocks path body catches finally).
Proof.
  intros WB WC WF Hne F0 F2. start. unfold emit_try. controls. label catch0. controls. label finally0. controls.
  label break0. controls. label continue0. controls. label return0. controls. jumps.
  lazymatch goal with T : v_targets ?s' = try_targets _ _ _ _ _ (v_targets ?t) |- wp _ _ ?s' =>
    assert (aims blocks a n j r s') by (eapply (aims_try blocks a n j r t); [assumption|lia|exact T|lia|lia|lia|exact F2|lia]) end.
  controls. target (return0 :: continue0 :: break0 :: finally0 :: L).
  step. match goal with A : at_ _ _ _ ?M _ ?s', C : aims _ _ _ _ _ ?s' |- wp _ _ ?s' =>
    apply (wp_catches blocks a n j r catches clear (v_stack s) x M s0 s'); [exact WC|exact A|exact C|lia|lia|destruct clear; lia|take] end.
  controls. target (return0 :: continue0 :: finally0 :: L). controls. target (return0 :: finally0 :: L). controls. target (finally0 :: L).
  controls. target L. step.
  match goal with A : at_ _ _ _ ?M _ ?s' |- wp _ _ ?s' => apply (wp_finally finally clear x M s0 s'); [exact WF|exact A|destruct clear; lia|] end.
  intros t1 B1 ? ? ? ? Hfin. step.
  lazymatch goal with |- wp (emit_yrt _ ?k (v_targets ?t)) _ _ =>
    assert (HT : targets_ok j r blocks n (length (v_labels t1)) (Z.of_nat (a + n)) (code_size (v_code t1)) (v_targets t))
      by (match goal with C : aims _ _ _ _ _ t |- _ => eapply targets_mono; [| |exact C]; lia end);
    assert (Hroom : k + 1 <= code_size (v_code t1))
      by (destruct clear; [destruct Hne as [Hn|Hn]; [match goal with F : catches ≠ [] → _ |- _ => specialize (F Hn) end; lia|specialize (Hfin Hn eq_refl); lia]|lia]);
    apply (wp_yrt k (v_targets t) x L s0 t1); [exact B1|exact HT|lia|exact Hroom|take]
  end.
  step. jumps. ends HQ.
Qed.
End Try.
