(* ===== verification/EmitOperators.v ===== *)
(** * What the generator does for operators and calls (Emit.v, EmitNodes.v)

    An operator on constants becomes a constant, and leaves no trace of the
    operands in the size of the frame. *)
From stdpp Require Import base list numbers strings gmap.
From S2P Require Import Prelude Machine Lexer Ast Types Operators Flow Emit EmitSafety EmitNodes EmitControl.
Local Open Scope Z_scope.

(** ** Folding *)

(** The constant of an operator on operands, if they are constants. *)
Definition folded (v : option (outcome value)) : option t_operand :=
  match v with
  | Some (Ok v) => match constant_operand v with Ok c => Some c | _ => None end
  | _ => None
  end.

Definition folds1 (i : t_instruction) (l : option t_operand) : option (outcome value) := o ← l; fold1 i o.
Definition folds2 (i : t_instruction) (l r : option t_operand) : option (outcome value) := a ← l; b ← r; fold2 i a b.

(** Folding neither throws nor overflows. *)
Definition folding_ok (v : option (outcome value)) : bool :=
  match v with
  | None => true
  | Some (Ok v) => match constant_operand v with Ok _ => true | _ => false end
  | Some _ => false
  end.

Lemma folded_constant v c : folded v = Some c → constant_value c.
Proof. destruct v as [[[]| |]|]; cbn; intros [= <-]; done. Qed.

(** The state after [f_push]. *)
Definition pushed (s : t_emit) : t_emit :=
  let n := v_stack s + 1 in set_stack n (if code_size (v_code s) <? n then set_code (with_size n (v_code s)) s else s).

Lemma f_push_eq s : f_push s = Ok ((), pushed s).
Proof. done. Qed.

Lemma forget_one s : forget 1 (code_size (v_code s)) (pushed s) = Ok ((), s).
Proof.
  unfold forget, pushed. destruct s as [codes scope code args privates stack labels targets]. cbn.
  destruct (code_size code <? stack + 1); cbn; unfold f_pop, modify; cbv [mbind E_bind mret E_ret]; cbn;
    rewrite Z.add_simpl_r; by destruct code.
Qed.

Lemma forget_two s : forget 2 (code_size (v_code s)) (pushed (pushed s)) = Ok ((), s).
Proof.
  unfold forget, pushed. destruct s as [codes scope code args privates stack labels targets]. cbn.
  destruct (code_size code <? stack + 1); cbn; destruct (_ <? stack + 1 + 1); cbn; cbv [mbind E_bind mret E_ret]; cbn;
    rewrite !Z.add_simpl_r; by destruct code.
Qed.

Lemma run_bind {A B} (m : E A) (f : A → E B) s a s' : m s = Ok (a, s') → (m ≫= f) s = f a s'.
Proof. intros H. cbv [mbind E_bind]. by rewrite H. Qed.

Section Operators.
Context (blocks : t_blocks) (v_safe_points : bool) (a n : nat) (j r : bool).
Abbreviation well := (well blocks a n j r).
Context (e1 e2 : t_emitter) (l1 l2 : option t_operand) (W1 : well l1 e1) (W2 : well l2 e2).
Context (C1 : constant_ok l1 e1) (C2 : constant_ok l2 e2).

Ltac start := intros x L s0 s tail operand clear Q Ha Hc Hb Ht HQ.
Ltac assert_tail :=
  match goal with H : at_ _ _ ?x ?L ?s0 ?s, T : ?t = true → _ |- wp (assert_tail ?t ?k) _ ?s => apply (wp_assert_tail a n t k x L s0 s); [exact H|intros E; specialize (T E); lia|] end.

Ltac operands :=
  split; [apply Forall_nil_2|split; [cbn; repeat split; try lia; (eapply operand_mono; [|eassumption]; lia)|done]].

(** The operand that a part leaves; [may] tells which operand it may be. *)
Definition may (lit : option t_operand) (o : t_operand) : Prop :=
  o = c_tag__TEMPORARY ∨ match lit with Some c => o = c | None => ∃ i, o = c_tag__VARIABLE i ∧ 0 <= i < Z.of_nat (a + n) end.

Lemma wp_operand lit e x L s0 s (Q : t_operand → t_emit → Prop) :
  well lit e → at_ a n x L s0 s → aims blocks a n j r s → Z.of_nat (a + n) <= v_stack s <= code_size (v_code s) →
  (∀ o s', at_ a n x L s0 s' → same s s' → may lit o → v_stack s' = v_stack s + (if is_temporary o then 1 else 0) →
     (is_temporary o = true → v_stack s' <= code_size (v_code s')) → (constant_ok lit e → Q o s')) →
  constant_ok lit e → wp (e false true false) Q s.
Proof using Type.
  intros W Ha Hc Hb HQ HC. apply (W x L s0 s); [done|done|done|done|]. intros o s' A M [(-> & ? & ?)|(_ & K & Ho)].
  - apply HQ; [done|done|by left|done|done|done].
  - apply HQ; [done|done|by right| | |done].
    + destruct lit as [c|]; [subst; destruct (HC c eq_refl) as [-> _]; lia|]. destruct Ho as (i & -> & _). cbn. lia.
    + destruct lit as [c|]; [subst; by destruct (HC c eq_refl) as [-> _]|]. by destruct Ho as (i & -> & _).
Qed.

Lemma fold1_none i lit o : may lit o → folds1 i lit = None → fold1 i o = None.
Proof using Type. intros [->|Ho] Hf; [done|]. destruct lit as [c|]; [by subst|]. by destruct Ho as (k & -> & _). Qed.

Lemma fold2_none i lit lit' o o' : may lit o → may lit' o' → folds2 i lit lit' = None → fold2 i o o' = None.
Proof using Type.
  intros [->|Ho] Ho' Hf; [done|]. destruct lit as [c|]; [subst|by destruct Ho as (k & -> & _)].
  destruct Ho' as [->|Ho']; [cbn; unfold fold2; by destruct (number_operand c)|]. destruct lit' as [c'|]; [by subst|].
  destruct Ho' as (k & -> & _). unfold fold2. by destruct (number_operand c).
Qed.

Lemma may_operand lit o size : may lit o → (∀ c, lit = Some c → constant_value c) → Z.of_nat (a + n) <= size → operand_ok size o.
Proof using Type.
  intros [->|Ho] Hc Hs; [done|]. destruct lit as [c|].
  - subst o. specialize (Hc c eq_refl). by destruct c.
  - destruct Ho as (i & -> & ?). cbn. lia.
Qed.

Context (K1 : ∀ c, l1 = Some c → constant_value c) (K2 : ∀ c, l2 = Some c → constant_value c).

Lemma wp_eq {A} (m m' : E A) (Q : A → t_emit → Prop) s s' : m s = m' s' → wp m' Q s' → wp m Q s.
Proof using Type. intros E (x & s'' & H & HQ). exists x, s''. by rewrite E. Qed.

Lemma well_unary p i : folding_ok (folds1 i l1) = true → well (folded (folds1 i l1)) (emit_unary v_safe_points p i e1).
Proof using W1 C1 K1.
  intros Hok. start. destruct (folds1 i l1) as [v|] eqn:Ef.
  - destruct l1 as [c|]; [|done]. cbn in Ef, Hok. destruct v as [v| |]; try done. destruct (constant_operand v) as [k| |] eqn:Ek; try done.
    destruct (C1 c eq_refl) as [_ Hc1]. apply (wp_eq _ (emit_literal v_safe_points p k tail operand clear) Q s s).
    { unfold emit_unary, gets. rewrite (run_bind _ _ _ _ _ eq_refl), (run_bind _ _ _ _ _ (f_push_eq s)), (run_bind _ _ _ _ _ (Hc1 false false _)).
      change (fold1 i c) with (folds1 i (Some c)). cbn [folds1 mbind option_bind]. rewrite Ef, (run_bind _ _ _ _ _ (forget_one s)). cbv [mbind E_bind lift]. by rewrite Ek. }
    cbn [folded] in HQ. rewrite Ek in HQ. apply (well_literal blocks v_safe_points a n j r p k) with (x := x) (L := L) (s0 := s0); try done.
    apply (folded_constant (Some (Ok v))). cbn. by rewrite Ek.
  - cbn [folded] in HQ. unfold emit_unary. step. step. steps. apply (wp_operand l1 e1 x L s0 s1); [done|assumption|assumption|lia| |done].
    intros o s2 A2 [? ? ? ?] Ho Hk Hsz _. rewrite (fold1_none i l1 o Ho Ef). pose proof (may_operand l1 o) as Hop. specialize (Hop (code_size (v_code s2)) Ho K1 ltac:(lia)).
    destruct (is_temporary o) eqn:Eo; [specialize (Hsz eq_refl)|]; cbn [negb when]; steps; assert_tail; steps.
    all: match goal with A : at_ _ _ _ _ _ ?s |- wp (emit _) _ ?s => apply (wp_emit a n x x L s0 s); [exact A|lia|operands|take] end.
    all: steps; finish HQ.
Qed.

Lemma well_binary p i : folding_ok (folds2 i l1 l2) = true → well (folded (folds2 i l1 l2)) (emit_binary v_safe_points p i e1 e2).
Proof using W1 W2 C1 C2 K1 K2.
  intros Hok. start. destruct (folds2 i l1 l2) as [v|] eqn:Ef.
  - destruct l1 as [c|]; [|done]. destruct l2 as [d|]; [|done]. cbn in Ef, Hok. destruct v as [v| |]; try done.
    destruct (constant_operand v) as [k| |] eqn:Ek; try done.
    destruct (C1 c eq_refl) as [Ht1 Hc1]. destruct (C2 d eq_refl) as [_ Hc2].
    apply (wp_eq _ (emit_literal v_safe_points p k tail operand clear) Q s s).
    { unfold emit_binary, gets. rewrite (run_bind _ _ _ _ _ eq_refl), (run_bind _ _ _ _ _ (f_push_eq s)), (run_bind _ _ _ _ _ (Hc1 false false _)).
      rewrite Ht1. cbn [negb when]. rewrite (run_bind _ _ _ _ _ (f_push_eq _)), (run_bind _ _ _ _ _ (Hc2 false false _)).
      rewrite Ef, (run_bind _ _ _ _ _ (forget_two s)). cbv [mbind E_bind lift]. by rewrite Ek. }
    cbn [folded] in HQ. rewrite Ek in HQ. apply (well_literal blocks v_safe_points a n j r p k) with (x := x) (L := L) (s0 := s0); try done.
    apply (folded_constant (Some (Ok v))). cbn. by rewrite Ek.
  - cbn [folded] in HQ. unfold emit_binary. step. step. steps. apply (wp_operand l1 e1 x L s0 s1); [done|assumption|assumption|lia| |done].
    intros o s2 A2 M2 Ho Hk Hsz _. pose proof (aims_same _ _ _ _ _ _ _ ltac:(eassumption) M2) as G2. destruct M2 as [? ? ? ?].
    pose proof (may_operand l1 o) as Hop. specialize (Hop (code_size (v_code s2)) Ho K1 ltac:(lia)).
    assert (HP : wp (when (negb (is_temporary o)) f_push) (λ _ s', at_ a n x L s0 s' ∧ same s2 s' ∧ v_stack s' = v_stack s + 2 ∧ v_stack s' <= code_size (v_code s')) s2).
    { destruct (is_temporary o) eqn:Eo; [specialize (Hsz eq_refl)|]; cbn [negb when]; steps;
        (split_and!; [assumption|first [apply same_refl'|split; first [lia|congruence]]|lia|lia]). }
    step. eapply wp_weaken; [exact HP|]. clear HP. intros _ s3 (A3 & M3 & ? & ?). pose proof (aims_same _ _ _ _ _ _ _ G2 M3) as G3. destruct M3 as [? ? ? ?].
    step. apply (wp_operand l2 e2 x L s0 s3); [done|assumption|assumption|lia| |done].
    intros o' s4 A4 [? ? ? ?] Ho' Hk' Hsz' _. rewrite (fold2_none i l1 l2 o o' Ho Ho' Ef).
    pose proof (may_operand l2 o') as Hop'. specialize (Hop' (code_size (v_code s4)) Ho' K2 ltac:(lia)).
    destruct (is_temporary o') eqn:Eo'; [specialize (Hsz' eq_refl)|]; cbn [negb when]; steps; assert_tail; steps.
    all: match goal with A : at_ _ _ _ _ _ ?s |- wp (emit _) _ ?s => apply (wp_emit a n x x L s0 s); [exact A|lia|operands|take] end.
    all: steps; finish HQ.
Qed.
End Operators.

(** ** Calls *)

Section Calls.
Context (blocks : t_blocks) (v_safe_points : bool) (a n : nat) (j r : bool).

Ltac start := intros x L s0 s tail operand clear Q Ha Hc Hb Ht HQ.
Ltac assert_tail :=
  match goal with H : at_ _ _ ?x ?L ?s0 ?s, T : ?t = true → _ |- wp (assert_tail ?t ?k) _ ?s => apply (wp_assert_tail a n t k x L s0 s); [exact H|intros E; specialize (T E); lia|] end.

Lemma wp_expand_ats xs k x L s0 s (Q : () → t_emit → Prop) :
  at_ a n x L s0 s → (∀ s', at_ a n x L s0 s' → same s s' → v_stack s' = v_stack s → Q () s') → wp (expand_ats xs k) Q s.
Proof.
  revert k s. induction xs as [|[p i] xs IH]; intros k s Ha HQ; cbn [expand_ats].
  - step. apply HQ; [done|apply same_refl'|done].
  - step. eexists _, _. split; [done|]. apply IH.
    + destruct Ha as [[] []]. by split; split.
    + intros s' A' [? ? ? ?] K. apply HQ; [done|by split|done].
Qed.

(** How the target of a call may get to the frame. *)
Definition calls (expands : list (t_at * nat)) (m : E t_callee) : Prop :=
  ∀ s, ∃ c, m s = Ok (c, s) ∧
    match c with Direct _ v => placed a n v | Receiver m => receives blocks a n j r m end.

Lemma well_call p callee arguments expands : calls expands callee → Forall (λ e, ∃ lit, well blocks a n j r lit e) arguments →
  well blocks a n j r None (emit_call v_safe_points p callee arguments expands).
Proof.
  intros HC HA. start. unfold emit_call. step. destruct (HC s) as (c & Hcs & Hp). exists c, s. split; [exact Hcs|].
  pose proof (o_scope _ _ _ _ (t_good _ _ _ _ _ _ Ha)) as Hsc.
  assert (HR : wp (match c with Direct _ _ => _ ← f_push; f_push | Receiver m => m end)
            (λ _ s', at_ a n x L s0 s' ∧ same s s' ∧ v_stack s' = v_stack s + 2 ∧ v_stack s' <= code_size (v_code s')) s).
  { destruct c as [k v|m].
    - steps. split_and!; [assumption|split; first [lia|congruence]|lia|lia].
    - apply (Hp x L s0 s); [done|done|done|]. intros. by split_and!. }
  step. eapply wp_weaken; [exact HR|]. clear HR. intros _ s1 (A1 & M1 & ? & ?). pose proof (aims_same _ _ _ _ _ _ _ Hc M1) as G1. destruct M1 as [? ? ? ?].
  step. apply (wp_all blocks a n j r arguments x L s0 s1); [done|done|done|lia|take].
  steps. assert_tail. step. step. step.
  match goal with A : at_ _ _ _ _ _ ?s' |- wp _ _ ?s' =>
    assert (HI : wp (match c with
        | Direct v_resolved v =>
          emit (if v_shared v then SCOPE_CALL v_resolved tail (v_stack s') (Z.of_nat (v_index v)) (Z.of_nat (length arguments))
                else STACK_CALL tail (v_stack s') (Z.of_nat (v_index v)) (Z.of_nat (length arguments)))
        | Receiver _ =>
          match expands with
          | [] => emit (CALL tail (v_stack s') (Z.of_nat (length arguments)))
          | _ => _ ← expand_ats expands 3; emit (CALL_WITH_EXPANSION tail (v_stack s') (Z.of_nat (length arguments)) (expansions 0 (Z.of_nat (length arguments)) expands))
          end
        end) (λ _ t, at_ a n x L s0 t ∧ same s' t ∧ v_stack t = v_stack s') s') end.
  { destruct c as [k v|m].
    - unfold placed in Hp. destruct (v_shared v); [|specialize (Hp eq_refl)]; steps; (split_and!; [assumption|split; first [lia|congruence]|lia]).
    - destruct expands as [|e expands]; [steps; (split_and!; [assumption|split; first [lia|congruence]|lia])|].
      step. match goal with A : at_ _ _ _ _ _ ?s' |- wp (expand_ats ?xs ?k) _ ?s' => apply (wp_expand_ats xs k x L s0 s'); [exact A|take] end.
      steps. split_and!; [assumption|split; first [lia|congruence]|lia]. }
  eapply wp_weaken; [exact HI|]. clear HI. intros _ t (B1 & [? ? ? ?] & ?). steps. finish HQ.
Qed.
End Calls.
