(* ===== verification/EmitTree.v ===== *)
(** * The code of a whole program is safe to run (Emit.v)

    [emittable] tells what the generator takes for granted of a tree and of its
    blocks; the code of such a tree is generated without a fault, stays within
    its frame, and jumps to its own instructions. *)
From stdpp Require Import base list numbers strings gmap.
From S2P Require Import Prelude Machine Lexer Ast Types Operators Flow Emit EmitSafety EmitNodes EmitControl EmitOperators.
Local Open Scope Z_scope.

(** ** Induction on trees *)

Section Children.
Context {F : Type}.

Definition option_nodes (o : option (@t_node F)) : list (@t_node F) := match o with Some e => [e] | None => [] end.

Definition catch_nodes (c : @t_node F * (nat * t_symbol) * @t_node F) : list (@t_node F) := [c.1.1; c.2].

Definition children (e : @t_node F) : list (@t_node F) :=
  match e with
  | t_nodes xs => xs
  | t_lambda _ _ _ _ defaults body => body :: defaults
  | t_if c x y => option_nodes c ++ [x; y]
  | t_while c x => option_nodes c ++ [x]
  | t_for x y z body => option_nodes x ++ option_nodes y ++ option_nodes z ++ [body]
  | Ast.t_try body catches finally => body :: option_nodes finally ++ flat_map catch_nodes catches
  | t_break x | t_return x | t_throw _ x | t_object_get _ x _ | t_object_has _ x _ | t_scope_put _ _ _ x | t_class _ x | t_super _ x
  | t_unary _ _ x => [x]
  | t_object_get_indirect _ x y | t_object_put _ x _ y | t_object_has_indirect _ x y | t_binary _ _ x y | t_get_at _ x y => [x; y]
  | t_object_put_indirect _ x y z | t_set_at _ x y z => [x; y; z]
  | t_call _ x arguments _ => x :: arguments
  | t_continue _ | t_symbol_get _ _ _ _ | t_self _ _ | t_null _ | t_literal_node _ _ | t_preserve => []
  end.

Context (P : @t_node F → Prop) (step : ∀ e, Forall P (children e) → P e).

Fixpoint node_children_ind (e : @t_node F) : P e.
Proof.
  pose (list := fix list xs : Forall P xs := match xs with [] => Forall_nil_2 _ | x :: xs => Forall_cons_2 _ _ _ (node_children_ind x) (list xs) end).
  assert (option : ∀ o ys, Forall P ys → Forall P (option_nodes o ++ ys)).
  { refine (λ o, match o with Some x => λ ys H, Forall_cons_2 _ _ _ (node_children_ind x) H | None => λ ys H, H end). }
  pose (catches := fix catches cs : Forall P (flat_map catch_nodes cs) :=
    match cs with [] => Forall_nil_2 _ | c :: cs => match c with (x, v, y) => Forall_cons_2 _ _ _ (node_children_ind x) (Forall_cons_2 _ _ _ (node_children_ind y) (catches cs)) end end).
  apply step. destruct e; cbn [children];
    repeat first [apply Forall_nil_2 | apply option | apply catches | apply Forall_cons_2; [apply node_children_ind|] | apply list].
Qed.
End Children.

(** ** What the generator takes for granted *)

Section Tree.
Context (scopes : list t_scope) (blocks : t_blocks) (v_safe_points : bool).

(** The operand that is left for a node that is a constant. *)
Fixpoint literal_of (e : @t_node double) : option t_operand :=
  match e with
  | t_null _ => Some (c_tag__LITERAL Constant_null)
  | t_literal_node _ x => Some (literal_operand x)
  | t_unary _ i x => folded (folds1 i (literal_of x))
  | t_binary _ i x y => folded (folds2 i (literal_of x) (literal_of y))
  | _ => None
  end.

(** The analysis has no more variables for a junction than there are. *)
Definition fitting (n : nat) (i : t_id) : bool := (length (v_block_privates (block i blocks)) <=? n)%nat.

(** A variable that is not shared has a slot. *)
Definition places_variable (a n : nat) (x : outcome t_variable) : bool :=
  match x with Ok x => v_shared x || (v_index x <? a + n)%nat | _ => false end.

Definition places_resolved (a n : nat) (x : outcome (nat * option t_variable)) : bool :=
  match x with Ok (_, Some x) => places_variable a n (Ok x) | Ok (_, None) => true | _ => false end.

Definition arguments_known (c : t_scope) (arguments : nat) : bool :=
  forallb (λ i, match v_privates c !! (i mod length (v_privates c))%nat with
                | Some s => match v_variables c !! s with Some _ => true | None => false end
                | None => false
                end) (seq 0 arguments).

(** [j] and [r]: a [break] or [continue], and a [return] may be there; [a]
    and [n]: the arguments of the lambda and its other private variables. *)
Fixpoint emittable (j r : bool) (a n : nat) (path : list nat) (e : @t_node double) {struct e} : bool :=
  let all path xs := forallb id (each_path (λ path e, emittable j r a n path e) path 0 xs) in
  let some k o := match o with Some e => emittable j r a n (k :: path)%nat e | None => true end in
  match e with
  | t_nodes xs => all path xs
  | t_lambda _ scope _ arguments defaults body =>
    all (1 :: path)%nat defaults &&
    match scope_of scopes scope with
    | Ok c =>
      let n := (v_privates_size c - arguments)%nat in
      (arguments <=? v_privates_size c)%nat && arguments_known c arguments && fitting n (path, 1%nat)
        && emittable false true arguments n (0 :: path)%nat body
    | _ => false
    end
  | t_if c x y => some 0%nat c && emittable j r a n (1 :: path)%nat x && emittable j r a n (2 :: path)%nat y && fitting n (path, 2%nat)
  | t_while c x => some 0%nat c && emittable true r a n (1 :: path)%nat x && fitting n (path, 0%nat) && fitting n (path, 3%nat)
  | t_for x y z body =>
    some 0%nat x && some 1%nat y && some 2%nat z && emittable true r a n (3 :: path)%nat body
      && fitting n (path, 0%nat) && fitting n (path, 3%nat) && fitting n (path, 5%nat)
  | t_break x => j && emittable j r a n (0 :: path)%nat x
  | t_continue _ => j
  | t_return x => r && emittable j r a n (0 :: path)%nat x
  | Ast.t_try body catches finally =>
    emittable j r a n (0 :: path)%nat body
      && (fix clauses k cs :=
            match cs with
            | [] => true
            | (x, v, y) :: cs => emittable j r a n (2 + 2 * k :: path)%nat x && places_variable a n (variable_of scopes v)
                && emittable j r a n (3 + 2 * k :: path)%nat y && clauses (S k) cs
            end) O catches
      && match finally with Some e => emittable false false a n (1 :: path)%nat e | None => bool_decide (catches ≠ []) end
      && fitting n (path, 0%nat) && fitting n (path, 2%nat)
  | t_throw _ x | t_object_get _ x _ | t_object_has _ x _ | t_class _ x | t_super _ x => emittable j r a n (0 :: path)%nat x
  | t_scope_put _ _ v x => places_variable a n (variable_of scopes v) && emittable j r a n (0 :: path)%nat x
  | t_unary _ i x => emittable j r a n (0 :: path)%nat x && folding_ok (folds1 i (literal_of x))
  | t_binary _ i x y => emittable j r a n (0 :: path)%nat x && emittable j r a n (1 :: path)%nat y && folding_ok (folds2 i (literal_of x) (literal_of y))
  | t_object_get_indirect _ x y | t_object_put _ x _ y | t_object_has_indirect _ x y | t_get_at _ x y =>
    emittable j r a n (0 :: path)%nat x && emittable j r a n (1 :: path)%nat y
  | t_object_put_indirect _ x y z | t_set_at _ x y z =>
    emittable j r a n (0 :: path)%nat x && emittable j r a n (1 :: path)%nat y && emittable j r a n (2 :: path)%nat z
  | t_call _ x arguments _ => emittable j r a n (0 :: path)%nat x && all (1 :: path)%nat arguments
  | t_symbol_get _ outer scope symbol => places_resolved a n (resolve scopes outer scope symbol)
  | t_self _ _ | t_null _ | t_literal_node _ _ | t_preserve => true
  end.

(** ** Lambdas *)

Lemma wp_self_shared a n c x L s0 s (Q : () → t_emit → Prop) :
  at_ a n x L s0 s → 0 <= v_stack s → v_stack s + 1 <= x → (∀ s', at_ a n x L s0 s' → same s s' → v_stack s' = v_stack s → Q () s') →
  wp (emit_self_shared c) Q s.
Proof.
  intros Ha H0 Hx HQ. unfold emit_self_shared. step; [|apply HQ; [done|apply same_refl'|done]].
  steps. apply HQ; [assumption|split; first [lia|congruence]|congruence].
Qed.

Lemma wp_arguments a n c x L s0 s k i (Q : () → t_emit → Prop) :
  at_ a n x L s0 s → (∀ m, (i <= m < i + k)%nat → ∃ y v, v_privates c !! (m mod length (v_privates c))%nat = Some y ∧ v_variables c !! y = Some v) →
  (i + k <= a)%nat → 0 <= v_stack s → v_stack s + 1 <= x →
  (∀ s', at_ a n x L s0 s' → same s s' → v_stack s' = v_stack s → Q () s') → wp (emit_arguments c k i) Q s.
Proof.
  revert i s. induction k as [|k IH]; intros i s Ha Hc Hi H0 Hx HQ; cbn [emit_arguments].
  { step. apply HQ; [done|apply same_refl'|done]. }
  destruct (Hc i ltac:(lia)) as (y & v & Hy & Hv). step. apply (wp_lift _ y); [by rewrite Hy|]. step. apply (wp_lift _ v); [by rewrite Hv|].
  pose proof (t_good _ _ _ _ _ _ Ha) as [_ Hsc _ [_ Hs] _ _ _].
  step. step; steps; (apply IH; [assumption|intros m Hm; apply Hc; lia|lia|lia|lia|]);
    intros s' A' [? ? ? ?] ?; (apply HQ; [assumption|split; first [lia|congruence]|congruence]).
Qed.

(** The last instruction of a code, and the resolution of its labels. *)
Lemma wp_seal a n x s0 s i (Q : () → t_emit → Prop) :
  at_ a n x [] s0 s → (∀ l, ¬ unset_label s0 l) → places i = [] → frame_ok (Z.max x (code_size (v_code s))) i →
  code_of (length (v_codes s)) i →
  (∀ s', v_codes s' = v_codes s → code_privates (v_code s') = code_privates (v_code s) → code_size (v_code s') = code_size (v_code s) →
     ops_valid (length (v_codes s)) (Z.max x (code_size (v_code s))) (code_instructions (v_code s')) → Q () s') →
  wp (emit i) (λ _ s', wp f_resolve Q s') s.
Proof.
  intros [[H1 H2 H3 [H4 H5] H6 H7 H8] [_ _ _ Hu]] Hns Hp Hf Hcd HQ. eexists _, _. split; [done|]. unfold f_resolve, wp. cbn [v_labels v_code set_code code_instructions with_instructions].
  set (ops := code_instructions (v_code s)) in *. set (size := Z.max x (code_size (v_code s))) in *.
  destruct (resolve_all_ok (v_labels s)) with (codes := length (v_codes s)) (size := size) (ops := ops ++ [i]) as (ops' & Hr & Hw & Hall).
  - intros l Hl. destruct (lookup_lt_is_Some_2 _ _ Hl) as [[y|] Hy]; [by exists y|]. exfalso.
    destruct (Hu l Hy) as [Hs|Hs]; [by apply (Hns l)|by apply not_elem_of_nil in Hs].
  - apply Forall_app. split; [done|]. constructor; [|done]. split_and!; [rewrite Hp; constructor|done|done].
  - cbn in Hr |- *. rewrite Hr. cbn. eexists _, _. split; [done|]. apply HQ; [done|done|done|]. cbn. eapply Forall_impl; [exact Hall|].
    intros k (Hpl & Hfr & Hco). split_and!; [|done|done]. eapply Forall_impl; [exact Hpl|]. intros p (l & y & Hl & ->).
    destruct (H7 l y Hl) as (m & Hm & ->). exists m. assert (Hlen : length ops' = length (ops ++ [i])) by (rewrite <- (length_fmap words ops'), Hw; apply length_fmap).
    rewrite Hlen, length_app. cbn. split; [|lia]. f_equal. unfold address. rewrite !fmap_take, Hw, fmap_app, take_app_le; [done|by rewrite length_fmap].
Qed.

(** The state in which the body of a lambda is begun. *)
Lemma at_entered path c arguments code s :
  (arguments <= v_privates_size c)%nat → code_instructions code = [] → code_privates code = Z.of_nat (v_privates_size c) →
  code_size code = Z.of_nat (v_privates_size c) → Forall (code_valid (length (v_codes s))) (v_codes s) →
  let s' := enter_lambda path c arguments (v_privates_size c - arguments) code s in
  at_ arguments (v_privates_size c - arguments) (v_stack s' + 1) [0%nat] (set_labels [] s') s'.
Proof.
  intros Hle Hops Hpr Hsz Hcs s'. split; split; cbn; try lia.
  - by rewrite length_replicate.
  - rewrite Hops. constructor.
  - intros l x Hl. by apply list_lookup_singleton_Some in Hl as [_ ?].
  - done.
  - intros l Hl. right. apply list_lookup_singleton_Some in Hl as [-> _]. by left.
Qed.

Lemma aims_entered path c arguments code s :
  (arguments <= v_privates_size c)%nat → code_size code = Z.of_nat (v_privates_size c) → fitting (v_privates_size c - arguments) (path, 1%nat) = true →
  aims blocks arguments (v_privates_size c - arguments) false true (enter_lambda path c arguments (v_privates_size c - arguments) code s).
Proof.
  intros Hle Hsz Hf%Nat.leb_le. split; cbn; try done.
  - intros l [= <-]. split; [lia|]. by eexists.
  - intros _. split; [lia|intros _; lia].
Qed.

Lemma wp_assert (p : t_emit → bool) s (Q : () → t_emit → Prop) : p s = true → Q () s → wp (assert_ p) Q s.
Proof. intros Hp HQ. exists (), s. split; [|done]. unfold assert_. by rewrite Hp. Qed.

Lemma wp_lambda_body path c arguments code s body lit (Q : () → t_emit → Prop) :
  let n := (v_privates_size c - arguments)%nat in
  (arguments <= v_privates_size c)%nat → code_instructions code = [] → code_privates code = Z.of_nat (v_privates_size c) →
  code_size code = Z.of_nat (v_privates_size c) → Forall (code_valid (length (v_codes s))) (v_codes s) →
  fitting n (path, 1%nat) = true → arguments_known c arguments = true → well blocks arguments n false true lit body →
  (∀ s', (length (v_codes s) <= length (v_codes s'))%nat → Forall (code_valid (length (v_codes s'))) (v_codes s') → code_valid (length (v_codes s')) (v_code s') → Q () s') →
  wp (emit_lambda_body c arguments body) Q (enter_lambda path c arguments n code s).
Proof.
  intros n Hle Hops Hpr Hsz Hcs Hf Hk W HQ. set (s1 := enter_lambda path c arguments n code s).
  pose proof (at_entered path c arguments code s Hle Hops Hpr Hsz Hcs) as A. cbv zeta in A. fold n in A. fold s1 in A.
  pose proof (aims_entered path c arguments code s Hle Hsz Hf) as G. fold n in G. fold s1 in G.
  assert (Hst : v_stack s1 = Z.of_nat (arguments + n)) by (cbn; lia). assert (Hz : code_size (v_code s1) = Z.of_nat (arguments + n)) by (cbn; lia).
  assert (Hl1 : length (v_labels s1) = 1%nat) by done. assert (Hc1 : v_codes s1 = v_codes s) by done. clearbody s1.
  set (x := v_stack s1 + 1) in *. unfold emit_lambda_body.
  step. apply (wp_self_shared arguments n c x [0%nat] (set_labels [] s1) s1); [exact A|lia|lia|take].
  step. match goal with B : at_ _ _ _ _ _ ?s |- wp _ _ ?s => apply (wp_arguments arguments n c x [0%nat] (set_labels [] s1) s arguments 0); [exact B| |lia|lia|lia|take] end.
  { intros m Hm. unfold arguments_known in Hk. rewrite forallb_forall in Hk. specialize (Hk m). rewrite in_seq in Hk. specialize (Hk ltac:(lia)).
    destruct (v_privates c !! _) as [y|]; [|done]. exists y. destruct (v_variables c !! y) as [v|]; [|done]. by exists v. }
  step. match goal with B : at_ _ _ _ _ _ ?s, C : aims _ _ _ _ _ ?s |- wp _ _ ?s =>
    apply (W x [0%nat] (set_labels [] s1) s); [exact B|exact C|lia|intros _; lia|] end.
  intros o t B [? ? ? ?] [(_ & Kt & Hb)|(? & _)]; [|done]. cbv iota in Kt. step. step. step.
  match goal with B : at_ _ _ _ _ _ ?s |- wp _ _ ?s => apply (wp_target arguments n x [0%nat] [] 0%nat (set_labels [] s1) s); [exact B|lia|done|take] end.
  step. match goal with B : at_ _ _ _ _ _ ?s |- wp _ _ ?s => pose proof (t_good _ _ _ _ _ _ B) as Gd; apply wp_assert end.
  { rewrite (o_scope _ _ _ _ Gd). apply Z.eqb_eq. lia. }
  step. step. step. match goal with B : at_ _ _ _ _ _ ?s |- wp _ _ ?s =>
    apply (wp_seal arguments n x (set_labels [] s1) s); [exact B|by intros ?|done|cbn; lia|done|] end.
  intros s' Hcs' Hcp Hcz Hv. apply HQ; rewrite Hcs'; [rewrite <- Hc1; lia|apply (o_codes _ _ _ _ Gd)|].
  rewrite Z.max_r in Hv by lia. split; [rewrite Hcp, Hcz; apply (o_size _ _ _ _ Gd)|by rewrite Hcz].
Qed.

Lemma well_lambda a n j r p path scope c variadic arguments defaults body lit :
  let n' := (v_privates_size c - arguments)%nat in
  scope = Ok c → (arguments <= v_privates_size c)%nat → fitting n' (path, 1%nat) = true → arguments_known c arguments = true →
  well blocks arguments n' false true lit body → Forall (λ e, ∃ lit, well blocks a n j r lit e) defaults →
  well blocks a n j r None (emit_lambda v_safe_points p path scope variadic arguments defaults body).
Proof.
  intros n' Hsc Hle Hf Hk W WD x L s0 s tail operand clear Q Ha Hc Hb Ht HQ. unfold emit_lambda.
  step. apply (wp_lift _ c); [done|]. step. apply (wp_lift _ n'); [unfold private_count; rewrite decide_False by lia; done|].
  cbv zeta. set (code := new_code _ _ _ _ _ _). step. step. step. eexists _, _. split; [done|]. cbn [id].
  set (sin := set_codes (v_codes s ++ [code]) s).
  assert (Hcs : Forall (code_valid (length (v_codes sin))) (v_codes sin)).
  { pose proof (o_codes _ _ _ _ (t_good _ _ _ _ _ _ Ha)) as Hcs. subst sin. cbn. rewrite length_app. apply Forall_app. split.
    - eapply Forall_impl; [exact Hcs|]. intros k. apply valid_mono. lia.
    - constructor; [|constructor]. split; [cbn; lia|constructor]. }
  step. apply (wp_lambda_body path c arguments code sin body lit); [done|done|done|done|done|done|done|done|].
  intros s1 Hl1 Hcs1 Hv1. step. eexists _, _. split; [done|].
  set (codes := <[length (v_codes s) := v_code s1]> (v_codes s1)).
  assert (Hlen : length codes = length (v_codes s1)) by apply length_insert.
  assert (Hl2 : (length (v_codes s) < length codes)%nat) by (rewrite Hlen; subst sin; cbn in Hl1; rewrite length_app in Hl1; cbn in Hl1; lia).
  change (leave_lambda s (set_codes codes s1)) with (set_codes codes s). set (s2 := set_codes codes s).
  assert (A2 : at_ a n x L s0 s2).
  { destruct Ha as [[H1 H2 H3 H4 H5 H6 H7] [G1 G2 G3 G4]]. split; split; try done; subst s2; cbn; [| |lia].
    - eapply Forall_impl; [exact H5|]. intros k Hkk. eapply op_mono; [| | |exact Hkk]; lia.
    - rewrite Hlen. apply Forall_insert; done. }
  assert (M2 : same s s2) by (subst s2; split; cbn; try done; lia).
  pose proof (aims_same _ _ _ _ _ _ _ Hc M2) as C2. assert (K2 : v_stack s2 = v_stack s) by done.
  assert (S2 : length (v_codes s2) = length codes) by done. assert (Z2 : code_size (v_code s2) = code_size (v_code s)) by done. destruct M2 as [? ? ? ?]. clearbody s2.
  step. step. step.
  match goal with B : at_ _ _ _ _ _ ?s', D : aims _ _ _ _ _ ?s' |- wp ?m _ ?s' =>
    assert (HL : wp m (λ _ s'', ∃ y, at_ a n y L s0 s'' ∧ y <= Z.max x (v_stack s'' + 1) ∧ same s' s'' ∧ v_stack s'' = v_stack s') s');
      [destruct (variadic || (0 <? Z.of_nat (length defaults)));
       [step; apply (wp_all blocks a n j r defaults x L s0 s'); [done|exact B|exact D|lia|take]|]; steps;
       (eexists; split_and!; [eassumption|lia|split; first [lia|congruence]|lia])|] end.
  eapply wp_weaken; [exact HL|]. clear HL. intros _ t (y & B & Hy & [? ? ? ?] & Kt). step.
  apply (wp_push a n x y L s0 t); [exact B|lia|take]. steps; destruct clear; try done; finish HQ.
Qed.

(** ** Nodes *)

Lemma literal_constant e c : literal_of e = Some c → constant_value c.
Proof.
  destruct e; cbn [literal_of]; try done.
  - by intros [= <-].
  - intros [= <-]. by destruct v_value.
  - apply folded_constant.
  - apply folded_constant.
Qed.

Abbreviation emits := (f_emit scopes blocks v_safe_points).

Lemma emit_constant e : ∀ path, constant_ok (literal_of e) (emits path e).
Proof.
  induction e as [e IH] using node_children_ind. intros path c Hc. pose proof (literal_constant e c Hc) as Hv.
  split; [by destruct c|]. intros t cl s. destruct e; cbn [literal_of] in Hc; try done; cbn [f_emit children] in *.
  - by injection Hc as <-.
  - by injection Hc as <-.
  - apply Forall_cons in IH as [IH _]. destruct (literal_of e) as [x|] eqn:El; [|done]. destruct (IH (0 :: path)%nat x eq_refl) as [Ht Hx].
    unfold folded, folds1 in Hc. cbn [mbind option_bind] in Hc. destruct (fold1 v_instruction x) as [[v| |]|] eqn:Ef; try done.
    destruct (constant_operand v) as [k| |] eqn:Ek; try done. injection Hc as <-. unfold emit_unary, gets.
    rewrite (run_bind _ _ _ _ _ eq_refl), (run_bind _ _ _ _ _ (f_push_eq s)), (run_bind _ _ _ _ _ (Hx false false _)), Ef, (run_bind _ _ _ _ _ (forget_one s)).
    cbv [mbind E_bind lift]. by rewrite Ek.
  - apply Forall_cons in IH as [IH1 [IH2 _]%Forall_cons]. destruct (literal_of e1) as [x|] eqn:E1; [|done]. destruct (literal_of e2) as [y|] eqn:E2; [|done].
    destruct (IH1 (0 :: path)%nat x eq_refl) as [Ht1 Hx]. destruct (IH2 (1 :: path)%nat y eq_refl) as [_ Hy].
    unfold folded, folds2 in Hc. cbn [mbind option_bind] in Hc. destruct (fold2 v_instruction x y) as [[v| |]|] eqn:Ef; try done.
    destruct (constant_operand v) as [k| |] eqn:Ek; try done. injection Hc as <-. unfold emit_binary, gets.
    rewrite (run_bind _ _ _ _ _ eq_refl), (run_bind _ _ _ _ _ (f_push_eq s)), (run_bind _ _ _ _ _ (Hx false false _)), Ht1. cbn [negb when].
    rewrite (run_bind _ _ _ _ _ (f_push_eq _)), (run_bind _ _ _ _ _ (Hy false false _)), Ef, (run_bind _ _ _ _ _ (forget_two s)).
    cbv [mbind E_bind lift]. by rewrite Ek.
Qed.

(** How [t_call] takes its target. *)
Definition callee_of (expands : list (t_at * nat)) (path : list nat) (x : @t_node double) : E t_callee :=
  match x with
  | t_symbol_get _ outer scope symbol =>
    r ← lift (resolve scopes outer scope symbol);
    mret (match direct expands r with
          | Some (resolved, x) => Direct resolved x
          | None => Receiver (_ ← push_value (emits path x); f_emit_null)
          end)
  | t_object_get at_ y key => mret (Receiver (emit_method v_safe_points at_ (emits (0 :: path)%nat y) key))
  | t_get_at at_ y z => mret (Receiver (emit_bind v_safe_points at_ (emits (0 :: path)%nat y) (emits (1 :: path)%nat z)))
  | _ => mret (Receiver (_ ← push_value (emits path x); f_emit_null))
  end.

Definition node_well (e : @t_node double) : Prop :=
  ∀ j r a n path, emittable j r a n path e = true →
    well blocks a n j r (literal_of e) (emits path e) ∧ ∀ expands, calls blocks a n j r expands (callee_of expands path e).

Lemma well_each j r a n path i xs : Forall node_well xs → forallb id (each_path (λ path e, emittable j r a n path e) path i xs) = true →
  Forall (λ e, ∃ lit, well blocks a n j r lit e) (each_path (λ path e, emits path e) path i xs).
Proof.
  intros HX. revert i. induction HX as [|x xs Hx HX IH]; intros i H; cbn [each_path] in *; [constructor|]. cbn in H. apply andb_prop in H as [H1 H2].
  constructor; [|by apply IH]. exists (literal_of x). by apply Hx.
Qed.

Lemma well_some j r a n k path o : Forall node_well (option_nodes o) →
  match o with Some e => emittable j r a n (k :: path)%nat e | None => true end = true →
  well_option blocks a n j r (option_map (λ e, emits (k :: path)%nat e) o).
Proof.
  intros HX H e He. destruct o as [x|]; [|done]. injection He as <-. apply Forall_cons in HX as [Hx _]. exists (literal_of x). by apply Hx.
Qed.

Lemma places_variable_ok a n x : places_variable a n x = true → ∃ v, x = Ok v ∧ placed a n v.
Proof.
  destruct x as [v| |]; cbn; try done. intros H. exists v. split; [done|]. intros Hv. rewrite Hv in H. by apply Nat.ltb_lt.
Qed.

Lemma places_resolved_ok a n x : places_resolved a n x = true → ∃ k v, x = Ok (k, v) ∧ ∀ y, v = Some y → placed a n y.
Proof.
  destruct x as [[k [v|]]| |]; cbn; try done; intros H; exists k; eexists; (split; [reflexivity|]); [|done].
  intros y [= <-] Hv. rewrite Hv in H. by apply Nat.ltb_lt.
Qed.

Lemma well_catches j r a n path k cs : Forall node_well (flat_map catch_nodes cs) →
  (fix clauses k (cs : list (@t_node double * (nat * t_symbol) * @t_node double)) :=
     match cs with
     | [] => true
     | (x, v, y) :: cs => emittable j r a n (2 + 2 * k :: path)%nat x && places_variable a n (variable_of scopes v)
         && emittable j r a n (3 + 2 * k :: path)%nat y && clauses (S k) cs
     end) k cs = true →
  Forall (well_catch blocks a n j r)
    ((fix clauses j cs :=
       match cs with
       | [] => []
       | (expression, variable, body) :: cs =>
         (emits (2 + 2 * j :: path)%nat expression, variable_of scopes variable, emits (3 + 2 * j :: path)%nat body) :: clauses (S j) cs
       end) k cs).
Proof.
  revert k. induction cs as [|[[x v] y] cs IH]; intros k HX H; [constructor|]. cbn [flat_map catch_nodes fst snd app] in HX.
  apply Forall_cons in HX as [Hx [Hy HX]%Forall_cons]. apply andb_prop in H as [[[H1 H2]%andb_prop H3]%andb_prop H4].
  constructor; [|by apply IH]. split_and!; cbn.
  - exists (literal_of x). by apply Hx.
  - by apply places_variable_ok.
  - exists (literal_of y). by apply Hy.
Qed.

Lemma calls_value j r a n expands lit e (m : E t_callee) : (m = mret (Receiver (_ ← push_value e; f_emit_null))) → well blocks a n j r lit e → calls blocks a n j r expands m.
Proof. intros -> W s. eexists. split; [done|]. by apply (receives_value blocks a n j r e lit). Qed.

(** The hypotheses on the children of a node. *)
Ltac parts :=
  repeat match goal with
  | H : Forall _ (_ :: _) |- _ => apply Forall_cons in H as [? H]
  | H : Forall _ (_ ++ _) |- _ => apply Forall_app in H as [? H]
  | H : _ && _ = true |- _ => apply andb_prop in H as [? H]
  end.

Ltac sub := match goal with H : node_well ?e |- well _ _ _ _ _ _ (emits _ ?e) => by apply H end.
Ltac value := intros expands; apply (calls_value _ _ _ _ _ None _ _ eq_refl).

Lemma well_node e : node_well e.
Proof.
  induction e as [e IH] using node_children_ind. intros j r a n path He.
  enough (HW : well blocks a n j r (literal_of e) (emits path e)).
  { split; [exact HW|]. intros expands. destruct e; try (by apply (calls_value _ _ _ _ _ (literal_of _) (emits path _) _ eq_refl HW)).
    - intros s. cbn [callee_of children emittable] in *. apply Forall_cons in IH as [IH _].
      eexists. split; [done|]. apply (receives_method blocks v_safe_points a n j r _ (literal_of e)). by apply IH.
    - intros s. cbn [callee_of emittable] in *. destruct (places_resolved_ok _ _ _ He) as (k & v & Hr & Hp). 
      unfold lift. cbv [mbind E_bind]. rewrite Hr. eexists. split; [done|]. unfold direct. destruct expands; [destruct v as [v|]|].
      + destruct (_ || _) eqn:Ed; [by apply Hp|]. by apply (receives_value blocks a n j r _ None).
      + by apply (receives_value blocks a n j r _ None).
      + by apply (receives_value blocks a n j r _ None).
    - intros s. cbn [callee_of children emittable] in *. parts. eexists. split; [done|].
      apply (receives_bind blocks v_safe_points a n j r _ _ (literal_of e1) (literal_of e2)); sub. }
  destruct e; cbn [emittable f_emit children literal_of] in *; parts.
  - apply (well_nodes blocks a n j r). by apply well_each.
  - destruct (scope_of scopes scope) as [c| |] eqn:Ec; try done. parts.
    apply (well_lambda _ _ _ _ _ _ _ c _ _ _ _ (literal_of e)); [done|by apply Nat.leb_le|done|done|sub|by apply well_each].
  - by apply (well_if blocks a n j r path _ _ _ (literal_of e1) (literal_of e2)); [apply well_some|sub|sub|apply Nat.leb_le].
  - by apply (well_while blocks a n j r path _ _ (literal_of e)); [apply well_some|sub|apply Nat.leb_le|apply Nat.leb_le].
  - by apply (well_for blocks a n j r path _ _ _ _ (literal_of e));
      [apply well_some|apply well_some|apply well_some|sub|apply Nat.leb_le|apply Nat.leb_le|apply Nat.leb_le].
  - by apply (well_break blocks a n j r _ (literal_of e)); [|sub].
  - by apply well_continue.
  - by apply (well_return blocks a n j r _ (literal_of e)); [|sub].
  - apply (well_try blocks a n j r path _ (literal_of e)); [sub|by apply well_catches| | |by apply Nat.leb_le|by apply Nat.leb_le].
    + intros f Hf. destruct v_finally as [x|]; [|done]. injection Hf as <-. cbn [option_nodes] in *. parts. exists (literal_of x). sub.
    + destruct v_finally as [x|]; [right; by eexists|left]. match goal with H : bool_decide _ = true |- _ => apply bool_decide_eq_true in H; revert H end.
      destruct v_catches as [|[[? ?] ?] ?]; done.
  - apply (well_throw blocks a n j r _ (literal_of e)). sub.
  - apply (well_object_get blocks v_safe_points a n j r _ (literal_of e)). sub.
  - apply (well_object_get_indirect blocks v_safe_points a n j r _ _ (literal_of e1) (literal_of e2)); sub.
  - apply (well_object_put blocks v_safe_points a n j r _ _ (literal_of e1) (literal_of e2)); sub.
  - apply (well_object_put_indirect blocks v_safe_points a n j r _ _ _ (literal_of e1) (literal_of e2) (literal_of e3)); sub.
  - apply (well_object_has blocks v_safe_points a n j r _ (literal_of e)). sub.
  - apply (well_object_has_indirect blocks v_safe_points a n j r _ _ (literal_of e1) (literal_of e2)); sub.
  - destruct (places_resolved_ok _ _ _ He) as (k & v & Hr & Hp). by apply (well_symbol_get blocks v_safe_points a n j r _ _ _ k v).
  - destruct (places_variable_ok a n _ ltac:(eassumption)) as (v & Hv & Hp).
    apply (well_scope_put blocks v_safe_points a n j r _ (literal_of e)) with (v := v); [sub|done|done|apply emit_constant|apply literal_constant].
  - apply well_self.
  - apply (well_class blocks v_safe_points a n j r _ (literal_of e)). sub.
  - apply (well_super blocks v_safe_points a n j r _ (literal_of e)). sub.
  - apply well_null.
  - apply well_literal. by destruct v_value.
  - apply well_unary; [sub|apply emit_constant|apply literal_constant|done].
  - apply well_binary; [sub|sub|apply emit_constant|apply emit_constant|apply literal_constant|apply literal_constant|done].
  - apply well_preserve.
  - apply well_call; [|by apply well_each].
    match goal with H : node_well e |- _ => destruct (H j r a n (0 :: path)%nat ltac:(assumption)) as [_ Hc] end.
    specialize (Hc v_expands). destruct e; exact Hc.
  - apply (well_get_at blocks v_safe_points a n j r _ _ (literal_of e1) (literal_of e2)); sub.
  - apply (well_set_at blocks v_safe_points a n j r _ _ _ (literal_of e1) (literal_of e2) (literal_of e3)); sub.
Qed.
End Tree.

(** ** The module *)

Lemma emit_module_ok (scopes : list t_scope) (v_safe_points : bool) (c : t_scope) (blocks : t_blocks) (body : @t_node double) :
  scope_of scopes 0 = Ok c → analyze_body scopes [] c 0 body ∅ = Ok blocks →
  emittable scopes blocks false false 0 (v_privates_size c) [0%nat] body = true →
  ∃ code codes, emit_module scopes v_safe_points body = Ok (code, codes) ∧ Forall (code_valid (length codes)) codes ∧
    ops_valid (length codes) (if v_self_shared c then Z.max (code_size code) (Z.of_nat (v_privates_size c) + 1) else code_size code)
      (code_instructions code) ∧ Z.of_nat (v_privates_size c) <= code_size code.
Proof.
  intros Hc Hb He. unfold emit_module. rewrite Hc. cbn [mbind outcome_bind]. rewrite Hb. cbn [mbind outcome_bind].
  set (s := module_state c). set (x := if v_self_shared c then v_stack s + 1 else 0).
  enough (HW : wp (emit_body scopes blocks v_safe_points c body) (λ _ s', Forall (code_valid (length (v_codes s'))) (v_codes s') ∧
            ops_valid (length (v_codes s')) (Z.max x (code_size (v_code s'))) (code_instructions (v_code s')) ∧ Z.of_nat (v_privates_size c) <= code_size (v_code s')) s).
  { destruct HW as ([] & s' & Hs & HF & HO & Hz). unfold emit_body in *. rewrite Hs. exists (v_code s'), (v_codes s'). split_and!; [done|done| |done].
    subst x s. cbn in HO. destruct (v_self_shared c); [by rewrite Z.max_comm|by rewrite Z.max_r in HO by lia]. }
  assert (A : at_ 0 (v_privates_size c) x [] s s).
  { split; [|apply grows_refl]. subst s. split; cbn; try done; try lia; try constructor. by rewrite length_replicate. }
  assert (G : aims blocks 0 (v_privates_size c) false false s) by (subst s; split; cbn; (done || by intros [? ?])).
  assert (Hst : v_stack s = Z.of_nat (0 + v_privates_size c)) by done. assert (Hsz : code_size (v_code s) = v_stack s) by done.
  assert (Hns : ∀ l, ¬ unset_label s l) by done.
  unfold emit_body. step.
  assert (HS : wp (emit_self_shared c) (λ _ s', at_ 0 (v_privates_size c) x [] s s' ∧ same s s' ∧ v_stack s' = v_stack s) s).
  { unfold emit_self_shared. step; subst x; [|by split_and!; [done|apply same_refl'|done]].
    match goal with E : v_self_shared c = true |- _ => rewrite E in * end. clearbody s. steps. split_and!; [assumption|split; first [lia|congruence]|congruence]. }
  eapply wp_weaken; [exact HS|]. intros _ s1 (A1 & M1 & K1). pose proof (aims_same _ _ _ _ _ _ _ G M1) as G1. destruct M1 as [? ? ? ?].
  destruct (well_node scopes blocks v_safe_points body false false 0%nat (v_privates_size c) [0%nat] He) as [W _].
  step. apply (W x [] s s1); [done|done|lia|done|]. intros o s2 A2 [? ? ? ?] _. step.
  apply (wp_seal 0 (v_privates_size c) x s s2); [done|done|done|done|done|]. intros s3 Hcs Hcp Hcz HO.
  pose proof (t_good _ _ _ _ _ _ A2) as [_ Hsc _ [_ Hz] _ _ HF]. rewrite Hcs, Hcz. split_and!; [done|done|lia].
Qed.

(** C4 (emitted_code_is_safe): a module that the flow analysis accepts and that
    is [emittable] gets its code without a fault: every assertion of the
    generator holds and every label is resolved.  [emittable] is decided by
    computation: variables have places, jumps have targets, and folding a
    constant operation is defined; it is false of [x = 1 / 0], and of a [break]
    in a lambda inside of a loop.  In the code of the module and of each of its
    lambdas every operand is a slot of the frame, every jump goes to the start
    of an instruction of that code, and every lambda refers to a code that
    exists.  The frame of a module whose [self] is shared is widened to its
    variables and [self]. *)
Theorem emitted_code_is_safe (scopes : list t_scope) (v_safe_points : bool) (c : t_scope) (blocks : t_blocks) (body : @t_node double) :
  scope_of scopes 0 = Ok c → analyze_body scopes [] c 0 body ∅ = Ok blocks →
  emittable scopes blocks false false 0 (v_privates_size c) [0%nat] body = true →
  ∃ code codes, emit_module scopes v_safe_points body = Ok (code, codes) ∧ Forall (code_valid (length codes)) codes ∧
    ops_valid (length codes) (if v_self_shared c then Z.max (code_size code) (Z.of_nat (v_privates_size c) + 1) else code_size code)
      (code_instructions code).
Proof.
  intros Hc Hb He. destruct (emit_module_ok scopes v_safe_points c blocks body Hc Hb He) as (code & codes & ? & ? & ? & _). by exists code, codes.
Qed.
