(* ===== verification/EmitExamples.v ===== *)
(** * Programs through the analysis and the generator (Flow.v, Emit.v)

    The analysis of a lambda, the code of a module, and the programs on which
    the generator does not do what it means to. *)
From stdpp Require Import base list numbers strings gmap relations.
From S2P Require Import Prelude Machine Lexer Ast Parser ParserTotal Types Operators Flow FlowGraph FlowAnalysis Emit EmitSafety EmitTree.

(** ** A check for the hypotheses of the analysis *)

(** [order] lists the blocks, each after a block that leads to it. *)
Fixpoint ordered (g : t_blocks) (before order : list t_id) : bool :=
  match order with
  | [] => true
  | q :: order => existsb (λ p, bool_decide (q ∈ v_nexts (block p g))) before && ordered g (q :: before) order
  end.

Definition block_fresh (n : nat) (g : t_blocks) (p : t_id) (b : t_block) : bool :=
  bool_decide (v_queue b = None) && negb (v_forward b) && negb (v_backward b) && (length (v_block_privates b) <=? n)
    && forallb (λ x, negb (v_in x) && Bool.eqb (v_out x) (v_define x || v_use x)) (v_block_privates b)
    && forallb (λ q, bool_decide (p ∈ v_previouses (block q g))) (v_nexts b)
    && forallb (λ q, bool_decide (p ∈ v_nexts (block q g))) (v_previouses b).

Definition graph_fresh (entry : t_id) (order : list t_id) (n : nat) (g : t_blocks) : bool :=
  forallb (λ x, block_fresh n g x.1 x.2 && bool_decide (x.1 ∈ entry :: order)) (map_to_list g) && ordered g [entry] order.

Lemma ordered_reach g entry before order : (∀ p, p ∈ before → rtc (edge g) entry p) → ordered g before order = true →
  ∀ p, p ∈ order → rtc (edge g) entry p.
Proof.
  revert before. induction order as [|q order IH]; intros before Hb Ho p Hp; [by apply not_elem_of_nil in Hp|].
  cbn in Ho. apply andb_prop in Ho as [Hq Ho]. apply existsb_exists in Hq as (r & Hr%list_elem_of_In & Hrq%bool_decide_eq_true).
  assert (Hreach : rtc (edge g) entry q) by (eapply rtc_r; [by apply Hb|done]).
  apply elem_of_cons in Hp as [->|Hp]; [done|]. eapply (IH (q :: before)); [|done|done]. intros x [->|Hx]%elem_of_cons; [done|by apply Hb].
Qed.

Lemma graph_fresh_ok entry order n g : graph_fresh entry order n g = true → fresh (rtc (edge g) entry) n g.
Proof.
  intros [Hall Ho]%andb_prop. rewrite forallb_forall in Hall.
  assert (HB : ∀ p b, g !! p = Some b → block_fresh n g p b = true ∧ rtc (edge g) entry p).
  { intros p b Hp. specialize (Hall (p, b)). rewrite <- list_elem_of_In, elem_of_map_to_list in Hall. destruct (andb_prop _ _ (Hall Hp)) as [H1 H2].
    split; [done|]. cbn in H2. apply bool_decide_eq_true, elem_of_cons in H2 as [->|H2]; [apply rtc_refl|].
    eapply (ordered_reach g entry [entry]); [|done|done]. intros x ->%list_elem_of_singleton. apply rtc_refl. }
  assert (HF : ∀ p, block p g = new_block ∨ g !! p = Some (block p g)).
  { intros p. unfold block. destruct (g !! p); [by right|by left]. }
  split.
  - intros p q. split; intros He.
    + destruct (HF p) as [Hn|Hs]; [rewrite Hn in He; by apply not_elem_of_nil in He|]. destruct (HB p _ Hs) as [Hb _].
      repeat apply andb_prop in Hb as [Hb ?]. match goal with H : forallb (λ q, bool_decide (p ∈ v_previouses _)) _ = true |- _ => rewrite forallb_forall in H; specialize (H q) end.
      rewrite <- list_elem_of_In in *. eapply bool_decide_eq_true_1; auto.
    + destruct (HF q) as [Hn|Hs]; [rewrite Hn in He; by apply not_elem_of_nil in He|]. destruct (HB q _ Hs) as [Hb _].
      apply andb_prop in Hb as [_ Hb]. rewrite forallb_forall in Hb. specialize (Hb p). rewrite <- list_elem_of_In in Hb. eapply bool_decide_eq_true_1; auto.
  - intros p q Hp He. by eapply rtc_r.
  - intros p q _ He. destruct (HF p) as [Hn|Hs]; [unfold edge in He; rewrite Hn in He; by apply not_elem_of_nil in He|]. by apply (HB p _ Hs).
  - intros p. destruct (HF p) as [->|Hs]; [done|]. destruct (HB p _ Hs) as [Hb _]. repeat apply andb_prop in Hb as [Hb ?]. by apply bool_decide_eq_true in Hb.
  - intros p _. destruct (HF p) as [->|Hs]; [cbn; split_and!; [done|done|lia|constructor]|]. destruct (HB p _ Hs) as [Hb _].
    unfold block_fresh in Hb. apply andb_prop in Hb as [[[[[[? ?%negb_true_iff]%andb_prop ?%negb_true_iff]%andb_prop Hl%Nat.leb_le]%andb_prop Hx]%andb_prop ?]%andb_prop ?].
    split_and!; try done. apply Forall_forall. intros x Hin. rewrite forallb_forall in Hx. specialize (Hx x). rewrite <- list_elem_of_In in Hx.
    specialize (Hx Hin). apply andb_prop in Hx as [?%negb_true_iff ?%Bool.eqb_prop]. by split.
Qed.

(** ** Sample programs *)

Definition nl : string := line_feed.

Abbreviation parse_sample s := (parse_text byte_width "sample" (λ _, None) (d_of 0) (λ f : double, f) (chars s)).

(** The scopes and the tree of a program. *)
Definition parsed (s : string) : list t_scope * @t_node double :=
  match parse_sample s with Ok (e, p) => (v_scopes p, e) | _ => ([], t_preserve) end.

(** [f = @(x)], with a branch that assigns a variable that is read after it. *)
Definition branching : list t_scope * @t_node double :=
  Eval vm_compute in parsed ("f = @(x)" +:+ nl +:+ "  if x" +:+ nl +:+ "    y = 1" +:+ nl +:+ "  y" +:+ nl).

(** The body of the lambda of such a program. *)
Definition lambda_body (e : @t_node double) : @t_node double :=
  match e with t_nodes [t_scope_put _ _ _ (t_lambda _ _ _ _ _ body)] => body | _ => e end.

Definition branching_flow : t_point → outcome t_point :=
  f_flow branching.1 1 {| Flow.v_break := None; Flow.v_continue := None; Flow.v_return := Some ([], 1) |} [0] (lambda_body branching.2).

Definition branching_point : t_point := Eval vm_compute in match branching_flow (([], 0), ∅) with Ok s => s | _ => (([], 0), ∅) end.

Lemma analysis_is_exact_witness :
  ∃ bs, f_analyze ([], 0) ([], 1) 1 branching_flow ∅ = Ok bs ∧
    (∀ p, ¬ rtc (edge (link ([], 1) branching_point).2) ([], 0) p → core (block p bs) = core (block p (link ([], 1) branching_point).2)) ∧
    ∀ p, rtc (edge (link ([], 1) branching_point).2) ([], 0) p → rtc (edge (link ([], 1) branching_point).2) p ([], 1) →
      exact 1 (link ([], 1) branching_point).2 ([], 0) ([], 1) p (block p bs).
Proof.
  apply (analysis_is_exact ([], 0) ([], 1) 1 branching_flow ∅ branching_point).
  - by vm_compute.
  - apply (graph_fresh_ok _ [([0; 0], 0); ([0; 0], 1); ([0; 0], 2); ([0; 0], 3); ([], 1)]). by vm_compute.
  - apply (tc_l _ _ ([0; 0], 0)); [unfold edge; eapply bool_decide_eq_true_1; by vm_compute|].
    apply (tc_l _ _ ([0; 0], 2)); [unfold edge; eapply bool_decide_eq_true_1; by vm_compute|].
    apply (tc_l _ _ ([0; 0], 3)); [unfold edge; eapply bool_decide_eq_true_1; by vm_compute|].
    apply tc_once; unfold edge; eapply bool_decide_eq_true_1; by vm_compute.
Defined.

(** A module with a lambda, a loop and a [try]. *)
Definition looping : list t_scope * @t_node double :=
  Eval vm_compute in parsed ("f = @(x, y)" +:+ nl +:+ "  while x" +:+ nl +:+ "    try" +:+ nl +:+ "      if y" +:+ nl +:+ "        break" +:+ nl +:+
    "      z = g(x, 1 + 2)" +:+ nl +:+ "    finally" +:+ nl +:+ "      x = z" +:+ nl +:+ "  z" +:+ nl +:+ "f(1, 2)" +:+ nl).

Definition looping_blocks : t_blocks :=
  Eval vm_compute in match looping.1 with c :: _ => match analyze_body looping.1 [] c 0 looping.2 ∅ with Ok bs => bs | _ => ∅ end | [] => ∅ end.

Lemma emitted_code_is_safe_witness : ∃ c code codes, head looping.1 = Some c ∧
  emit_module looping.1 true looping.2 = Ok (code, codes) ∧ Forall (code_valid (length codes)) codes ∧
    ops_valid (length codes) (if v_self_shared c then Z.max (code_size code) (Z.of_nat (v_privates_size c) + 1)%Z else code_size code)
      (code_instructions code).
Proof.
  eexists _. 
  destruct (emitted_code_is_safe looping.1 true (default (new_scope None) (head looping.1)) looping_blocks looping.2) as (code & codes & H).
  - by vm_compute.
  - by vm_compute.
  - by vm_compute.
  - exists code, codes. split; [reflexivity|exact H].
Defined.

(** ** Where the generator does not do what it means to *)

(** The size of the frame and the code of the lambdas of a program. *)
Definition lambdas (s : string) : outcome (list (Z * list t_op)) :=
  match emit_module (parsed s).1 false (parsed s).2 with
  | Ok (_, codes) => Ok (map (λ c, (code_size c, code_instructions c)) codes)
  | Throw e => Throw e
  | Fault => Fault
  end.

Definition g_ : t_symbol := [103%Z].
Definition h_ : t_symbol := [104%Z].
Definition Throwable_ : t_symbol := [84; 104; 114; 111; 119; 97; 98; 108; 101]%Z.

(** A clause whose variable is a parameter: the analysis takes the index of
    the variable, less the number of arguments, as a size. *)
Example catch_parameter_faults : ∃ c e p,
  parse_sample ("f = @(e)" +:+ nl +:+ "  try" +:+ nl +:+ "    x = g()" +:+ nl +:+ "  catch Throwable e" +:+ nl +:+ "    e" +:+ nl) = Ok (e, p) ∧
  scope_of (v_scopes p) 0 = Ok c ∧ analyze_body (v_scopes p) [] c 0 e ∅ = Fault.
Proof. eexists _, _, _. split; [by vm_compute|]. split; [by vm_compute|by vm_compute]. Qed.

(** A clause that reads a variable which the body of the [try] assigns: the
    slot 0 is read after the call threw, and nothing has initialized it. *)
Example clause_reads_unassigned :
  lambdas ("f = @" +:+ nl +:+ "  try" +:+ nl +:+ "    x = g()" +:+ nl +:+ "  catch Throwable e" +:+ nl +:+ "    x" +:+ nl) =
  Ok [(4%Z,
       [TRY 2 (Address 18) (Address 38); GLOBAL_GET 2 g_; NUL 3; CALL false 2 0; STACK_PUT 2 0; FINALLY c_try__STEP;
        GLOBAL_GET 2 Throwable_; CATCH (Address 30) false 1; STACK_GET 2 0; FINALLY c_try__STEP; FINALLY c_try__THROW;
        FINALLY c_try__BREAK; FINALLY c_try__CONTINUE; FINALLY c_try__RETURN; YRT None None (Some (Address 42)); RETURN 2])].
Proof. by vm_compute. Qed.

(** A call of a variable before it is assigned: the slot 0 is called, and
    nothing has initialized it. *)
Example call_reads_unassigned :
  lambdas ("f = @" +:+ nl +:+ "  x()" +:+ nl +:+ "  x = 1" +:+ nl) =
  Ok [(3%Z, [STACK_CALL false 1 0 0; INTEGER 1 1; STACK_PUT 1 0; RETURN 1])].
Proof. by vm_compute. Qed.

(** The frame has three slots, and [f_method_bind] at the slot 1 writes two
    slots above it. *)
Example method_bind_beyond_the_frame :
  lambdas ("f = @(m)" +:+ nl +:+ "  m[0]()" +:+ nl +:+ "  m" +:+ nl) =
  Ok [(3%Z, [STACK_GET 1 0; INTEGER 2 0; METHOD_BIND 1; CALL false 1 0; RETURN 0; RETURN 1])].
Proof. by vm_compute. Qed.

(** [continue] before an assignment that it skips: the slot 1 is read by the
    next part of the loop, and nothing has initialized it. *)
Example continue_skips_initialization :
  lambdas ("f = @" +:+ nl +:+ "  for i = 0; g(i); h(x)" +:+ nl +:+ "    continue" +:+ nl +:+ "    x = 1" +:+ nl) =
  Ok [(5%Z,
       [INTEGER 0 0; GLOBAL_GET 2 g_; NUL 3; STACK_GET 4 0; CALL false 2 1; BRANCH 2 (Address 37); JUMP (Address 23); INTEGER 1 1;
        GLOBAL_GET 2 h_; NUL 3; STACK_GET 4 1; CALL false 2 1; JUMP (Address 3); NUL 2; RETURN 2])].
Proof. by vm_compute. Qed.
