(* ===== verification/Interp.v ===== *)
(** * The interpreter (src: src/code.cc, include/xemmai/fiber.h, src/fiber.cc,
    include/xemmai/lambda.h, src/lambda.cc, include/xemmai/scope.h,
    include/xemmai/method.h, include/xemmai/value.h, include/xemmai/global.h)

    [f_loop] runs the code that Emit.v generates on a stack of values.  A
    function is called with a pointer into the stack: the callee, the receiver
    and the arguments are there, and the result replaces the callee.  The frame
    of a lambda begins with its arguments, at [v_base].

    A call returns -1 when the result is in place, or the number of arguments
    of another call that has to follow: that is how a tail call leaves the
    frame of its caller.  The functions refer to each other, so the machine is
    a record of them, each made from the machine with less fuel. *)
From stdpp Require Import base list numbers strings gmap.
From S2P Require Import Prelude Machine Ast Types Operators Emit.
Local Open Scope Z_scope.

(** ** The state *)

(** The data of the objects that the interpreter makes: [t_scope], [t_lambda],
    [t_advanced_lambda], [t_tuple] and [t_throwable]. *)
Inductive t_body :=
| body_scope (v_entries : list value) (v_outer : option Z)
| body_lambda (v_scope : Z) (v_code : nat)
| body_advanced (v_scope : Z) (v_code : nat) (v_defaults : option Z)
| body_tuple (v_entries : list value)
| body_throwable (v_message : string) (v_backtrace : list (Z * nat)).

(** The cached index of an instruction, by code and address, or that of
    [f_expand]. *)
Definition t_site : Type := option (nat * nat).

(** [v_estack] has a fixed size, and [v_used] is [f_stack()].  [None] is a slot
    that nothing has been written to since its frame was made: it has whatever
    was there before. *)
Record t_state := State {
  v_world : world;
  v_bodies : gmap Z t_body;
  v_caches : gmap t_site Z;
  v_estack : list (option value);
  v_used : Z;
}.

Definition set_world (w : world) (s : t_state) : t_state := State w (v_bodies s) (v_caches s) (v_estack s) (v_used s).
Definition set_bodies (m : gmap Z t_body) (s : t_state) : t_state := State (v_world s) m (v_caches s) (v_estack s) (v_used s).
Definition set_caches (m : gmap t_site Z) (s : t_state) : t_state := State (v_world s) (v_bodies s) m (v_estack s) (v_used s).
Definition set_estack (l : list (option value)) (s : t_state) : t_state := State (v_world s) (v_bodies s) (v_caches s) l (v_used s).
Definition set_used (n : Z) (s : t_state) : t_state := State (v_world s) (v_bodies s) (v_caches s) (v_estack s) n.

(** ** Computations

    A computation returns or throws.  It [Traps] when what it does depends on
    what C++ leaves undefined: an operator on numbers, a slot that was not
    written to, or something in a native function.  It [Overflows] when it goes
    beyond the end of the stack, which the code never checks, and [Faults] when
    it goes wrong in any other way: outside of its code or its scopes, below the
    stack, or on an object of another type. *)
Inductive run (E A : Type) : Type :=
| Returns (a : A) (s : t_state)
| Throws (e : E) (s : t_state)
| Traps
| Overflows
| Faults
| Exhausted.
Arguments Returns {E A} _ _.
Arguments Throws {E A} _ _.
Arguments Traps {E A}.
Arguments Overflows {E A}.
Arguments Faults {E A}.
Arguments Exhausted {E A}.

Definition M (E A : Type) : Type := t_state → run E A.

#[export] Instance run_ret {E} : MRet (M E) := λ A a s, Returns a s.
#[export] Instance run_bind {E} : MBind (M E) := λ A B f m s,
  match m s with
  | Returns a s => f a s
  | Throws e s => Throws e s
  | Traps => Traps
  | Overflows => Overflows
  | Faults => Faults
  | Exhausted => Exhausted
  end.

Section computations.
Context {E : Type}.

Definition reads {A} (f : t_state → A) : M E A := λ s, Returns (f s) s.
Definition updates (f : t_state → t_state) : M E () := λ s, Returns () (f s).
Definition raise {A} (e : E) : M E A := λ s, Throws e s.
Definition faults {A} : M E A := λ _, Faults.
Definition traps {A} : M E A := λ _, Traps.
Definition need {A} (o : option A) : M E A := match o with Some a => mret a | None => faults end.

(** [try] and [catch]. *)
Definition attempt {E' A} (m : M E A) : M E' (E + A) := λ s,
  match m s with
  | Returns a s => Returns (inr a) s
  | Throws e s => Returns (inl e) s
  | Traps => Traps
  | Overflows => Overflows
  | Faults => Faults
  | Exhausted => Exhausted
  end.

(** A slot of the stack. *)
Definition get (i : Z) : M E value := λ s,
  if i <? 0 then Faults
  else match v_estack s !! Z.to_nat i with Some (Some v) => Returns v s | Some None => Traps | None => Overflows end.

Definition put (i : Z) (v : value) : M E () := λ s,
  if i <? 0 then Faults
  else if decide (Z.to_nat i < length (v_estack s))%nat then Returns () (set_estack (<[Z.to_nat i := Some v]> (v_estack s)) s)
  else Overflows.

(** Slots of a frame that was just made. *)
Fixpoint forget (l : list (option value)) (i n : nat) : list (option value) :=
  match n with O => l | S n => <[i := None]> (forget l (S i) n) end.

Definition leave_unwritten (i n : Z) : M E () := updates (λ s, set_estack (forget (v_estack s) (Z.to_nat i) (Z.to_nat n)) s).

Fixpoint get_all (i : Z) (n : nat) : M E (list value) :=
  match n with O => mret [] | S n => v ← get i; vs ← get_all (i + 1) n; mret (v :: vs) end.

Fixpoint put_all (i : Z) (vs : list value) : M E () :=
  match vs with [] => mret () | v :: vs => _ ← put i v; put_all (i + 1) vs end.

Definition body_at (a : Z) : M E t_body := b ← reads (λ s, v_bodies s !! a); need b.

Definition put_body (a : Z) (b : t_body) : M E () := updates (λ s, set_bodies (<[a := b]> (v_bodies s)) s).

Definition tuple_at (a : Z) : M E (list value) := b ← body_at a; match b with body_tuple l => mret l | _ => faults end.

Definition scope_at (a : Z) : M E (list value * option Z) :=
  b ← body_at a; match b with body_scope l o => mret (l, o) | _ => faults end.

Definition get_entry (a : Z) (i : Z) : M E value :=
  '(l, _) ← scope_at a; need (if 0 <=? i then l !! Z.to_nat i else None).

Definition put_entry (a : Z) (i : Z) (v : value) : M E () :=
  '(l, o) ← scope_at a;
  if decide (0 <= i < Z.of_nat (length l)) then put_body a (body_scope (<[Z.to_nat i := v]> l) o) else faults.

(** [f_outer()], any number of times. *)
Fixpoint outward (n : nat) (a : Z) : M E Z :=
  match n with O => mret a | S n => '(_, o) ← scope_at a; o ← need o; outward n o end.
End computations.

(** What an exception carries out of [f_loop]: where the code was. *)
Definition thrown : Type := value * nat.

(** [throw std::make_pair(thrown, a_pc)] for what is thrown at [pc]. *)
Definition at_pc {A} (pc : nat) (m : M value A) : M thrown A := λ s,
  match m s with
  | Returns a s => Returns a s
  | Throws e s => Throws (e, pc) s
  | Traps => Traps
  | Overflows => Overflows
  | Faults => Faults
  | Exhausted => Exhausted
  end.

(** ** What the interpreter relies on *)

(** The codes, the objects of the engine and of the modules, and the types of
    the objects that the interpreter makes: of lambdas, advanced or not and
    shared or not. *)
Class Engine := {
  codes : list t_code;
  symbol_at : t_symbol → Z;
  slot_at : t_slot → value;
  v_module_global : Z;
  v_fiber_exit : value;
  type_of_scope : Z;
  type_of_lambda : bool → bool → Z;
  type_of_tuple : Z;
  type_of_throwable : Z;
}.

(** The functions that native types put in place of the default ones: whether
    the type of an object has its own for an operator, the function, which may
    call back, and the elements of a [t_list]. *)
Class Library := {
  overrides : t_state → Z → operator → bool;
  library : (value → list value → M value value) → operator → Z → value → list value → M value value;
  list_at : t_state → Z → option (list value);
}.

Section Interp.
Context `{Engine} `{Library} `{Numbers} `{Initializers} `{Allocator} `{TypeNames}.

(** ** Objects *)

(** [f_new]. *)
Definition new_object {E} (type : Z) (b : t_body) : M E Z := λ s,
  let a := allocate (objects (v_world s)) in
  Returns a (set_bodies (<[a := b]> (v_bodies s))
    (set_world (with_objects (v_world s) (<[a := Object' type [] of_other]> (objects (v_world s)))) s)).

Definition f_throw {A} (a_message : string) : M value A :=
  a ← new_object type_of_throwable (body_throwable a_message []); raise (Object a).

Definition of_outcome {A} (o : outcome A) : M value A :=
  match o with Ok a => mret a | Throw e => f_throw e | Fault => faults end.

(** An operator on numbers. *)
Definition of_operator {A} (o : outcome A) : M value A :=
  match o with Ok a => mret a | Throw e => f_throw e | Fault => traps end.

Definition new_tuple {E} (l : list value) : M E value := a ← new_object type_of_tuple (body_tuple l); mret (Object a).

(** An access to a member through the cached index of the site. *)
Definition access_at (site : t_site) (a : access) : M value answer := λ s,
  let '(r, i) := perform (v_world s) a (default 0 (v_caches s !! site)) in
  of_outcome r (set_caches (<[site := i]> (v_caches s)) s).

(** [f_type_error<T>(a_name)]: the message ends with the compiler's name of
    the type. *)
Definition type_error {A} (a_name : string) : M value A := f_throw (a_name +:+ " must be of another type.")%string.

Definition value_of (c : constant) : value :=
  match c with Constant_null => Null | Constant_boolean b => Boolean b | Constant_slot o => slot_at o end.

Definition code_at {E} (k : nat) : M E t_code := need (codes !! k).

(** The instruction at an address. *)
Fixpoint fetch (ops : list t_op) (pc : nat) : option t_op :=
  match ops with
  | [] => None
  | i :: ops => if decide (pc = 0)%nat then Some i else if decide (pc < words i)%nat then None else fetch ops (pc - words i)
  end.

(** [t_lambda::v_scope] and [v_code]. *)
Definition lambda_at {E} (a : Z) : M E (Z * nat) :=
  b ← body_at a;
  match b with body_lambda scope code | body_advanced scope code _ => mret (scope, code) | _ => faults end.

(** ** The machine *)

(** [t_context].  [v_scope] is set only in a lambda that has shared variables. *)
Record t_context := Context' {
  c_code : nat;
  v_base : Z;
  v_lambda : Z;
  v_previous : Z;
  c_scope : option Z;
}.

(** [m_loop]: [f_loop] from an address, to the result and the address where it
    stops.  [m_clauses]: the clauses of [f_try] from an address, for what was
    thrown.  [m_call]: [f_call_without_loop].  [m_finish]: the calls that follow
    it. *)
Record t_machine := Machine {
  m_loop : t_context → nat → M thrown (Z * nat);
  m_clauses : t_context → Z → thrown → nat → M thrown Z;
  m_call : value → Z → Z → M value Z;
  m_finish : Z → Z → M value ();
}.

Section Step.
Variable m : t_machine.

(** [t_value::f_call] *)
Definition call (v : value) (p n : Z) : M value () :=
  n ← m_call m v p n;
  if n =? -1 then mret () else m_finish m p n.

(** [xemmai::f_loop] *)
Definition finish_step (p n : Z) : M value () := v ← get p; call v p n.

(** [t_value::operator()]: a call on a [t_scoped_stack]. *)
Definition callback (f : value) (xs : list value) : M value value :=
  let n := Z.of_nat (length xs) in
  p ← reads v_used;
  _ ← updates (set_used (p + (n + 2)));
  _ ← put_all (p + 2) xs;
  _ ← put (p + 1) Null;
  r ← attempt (call f p n);
  match r with
  | inr _ => v ← get p; _ ← updates (set_used p); mret v
  | inl e => _ ← updates (set_used p); raise e
  end.

(** ** Calls *)

(** [t_context::f_backtrace] *)
Definition f_backtrace {E} (a_value : value) (a_lambda : Z) (a_pc : nat) : M E () :=
  match a_value with
  | Object a =>
    b ← reads (λ s, v_bodies s !! a);
    match b with
    | Some (body_throwable message trace) => put_body a (body_throwable message ((a_lambda, a_pc) :: trace))
    | _ => mret ()
    end
  | _ => mret ()
  end.

(** The scope of a new context, if the lambda has shared variables. *)
Definition new_scope (code : t_code) (outer : Z) : M value (option Z) :=
  if code_shared code then
    a ← new_object type_of_scope (body_scope (replicate (Z.to_nat (code_shareds code)) Null) (Some outer)); mret (Some a)
  else mret None.

(** [t_lambda::f_call] and [t_lambda_shared::f_call]: a new context runs.  Its
    slots after the arguments are not written to, unless in a debug build. *)
Definition enter (a_this : Z) (p : Z) : M value Z :=
  '(scope, k) ← lambda_at a_this;
  code ← code_at k;
  previous ← reads v_used;
  let base := p + 2 in
  _ ← updates (set_used (base + code_size code));
  _ ← leave_unwritten (base + code_arguments code) (code_size code - code_arguments code);
  own ← new_scope code scope;
  r ← attempt (m_loop m (Context' k base a_this previous own) 0);
  match r with
  | inr (n, _) => mret n
  | inl (v, pc) => _ ← f_backtrace v a_this pc; _ ← updates (set_used previous); raise v
  end.

(** [t_type_of<t_advanced_lambda>::f__do_call], up to the call. *)
Definition fill_arguments (code : t_code) (v_defaults : option Z) (p n : Z) : M value () :=
  let v_arguments := code_arguments code in
  let v_minimum := code_minimum code in
  if n <? v_minimum then f_throw "too few arguments."
  else
    let arguments := if code_variadic code then v_arguments - 1 else v_arguments in
    if negb (code_variadic code) && (arguments <? n) then f_throw "too many arguments."
    else if n <? arguments then
      d ← need v_defaults;
      t0 ← tuple_at d;
      _ ← put_all (p + v_minimum + 2 + (n - v_minimum)) (drop (Z.to_nat (n - v_minimum)) t0);
      if code_variadic code then t ← new_tuple []; put (p + v_arguments + 1) t else mret ()
    else if code_variadic code then
      xs ← get_all (p + arguments + 2) (Z.to_nat (n - arguments));
      t ← new_tuple xs;
      put (p + arguments + 2) t
    else mret ().

(** [t_type::f_do_instantiate] *)
Definition instantiate (a : Z) (p n : Z) : M value () :=
  w ← reads v_world;
  '(v, c, w) ← of_outcome (f_do_instantiate w a);
  _ ← updates (set_world w);
  _ ← match receiver c with Some r => put (p + 1) r | None => mret () end;
  _ ← call (Object (callee c)) p n;
  put p v.

(** [t_type::f_bind_class] of the class field of an operator. *)
Definition bind_operator (op : operator) (a : Z) (p n : Z) : M value Z :=
  w ← reads v_world;
  '(b, n) ← of_outcome (f_do_method w op a n);
  _ ← put p (b.1);
  _ ← put (p + 1) (b.2);
  mret n.

Definition call_step (v : value) (p n : Z) : M value Z :=
  a ← of_outcome (f_object_or_throw v);
  native ← reads (λ s, overrides s a op_call);
  if (native : bool) then
    self ← get (p + 1);
    xs ← get_all (p + 2) (Z.to_nat n);
    r ← library callback op_call a self xs;
    _ ← put p r;
    mret (-1)
  else
    b ← reads (λ s, v_bodies s !! a);
    match b with
    | Some (body_lambda _ k) =>
      code ← code_at k;
      if n =? code_arguments code then enter a p else f_throw "invalid number of arguments."
    | Some (body_advanced _ k v_defaults) =>
      code ← code_at k;
      _ ← fill_arguments code v_defaults p n;
      enter a p
    | _ =>
      w ← reads v_world;
      o ← of_outcome (object_at w a);
      match o_data o with
      | of_method v_function v_self => _ ← put (p + 1) v_self; m_call m (Object v_function) p n
      | of_type _ => _ ← instantiate a p n; mret (-1)
      | _ => bind_operator op_call a p n
      end
    end.

(** [a_this->f_type()->f_add(a_this, a_stack)] and the like, other than calls. *)
Definition operate (op : operator) (a : Z) (p : Z) : M value Z :=
  native ← reads (λ s, overrides s a op);
  if (native : bool) then
    xs ← get_all (p + 2) (Z.to_nat (method_arguments op 0));
    r ← library callback op a (Object a) xs;
    _ ← put p r;
    mret (-1)
  else
    b ← reads (λ s, v_bodies s !! a);
    match op, b with
    | op_get_at, Some (body_lambda _ _ | body_advanced _ _ _) =>
      x ← get (p + 2);
      w ← reads v_world;
      '(v, w) ← of_outcome (new_method w (Object a) x);
      _ ← updates (set_world w);
      _ ← put p v;
      mret (-1)
    | _, _ => bind_operator op a p 0
    end.

(** [t_value::f_get_at] *)
Definition f_get_at (v : value) (a_index : value) : M value value :=
  a ← of_outcome (f_object_or_throw v);
  p ← reads v_used;
  _ ← updates (set_used (p + 3));
  _ ← put (p + 2) a_index;
  r ← attempt (n ← operate op_get_at a p; if n =? -1 then mret () else m_finish m p n);
  match r with
  | inr _ => v ← get p; _ ← updates (set_used p); mret v
  | inl e => _ ← updates (set_used p); raise e
  end.

(** [t_value::f_invoke] without arguments. *)
Definition f_invoke0 (v : value) (a_key : Z) (site : t_site) : M value value :=
  p ← reads v_used;
  _ ← updates (set_used (p + 2));
  _ ← put (p + 1) Null;
  r ← attempt (r ← access_at site (Invoke v a_key);
    match r with
    | Invoked c w =>
      _ ← updates (set_world w);
      _ ← match receiver c with Some r => put (p + 1) r | None => mret () end;
      call (Object (callee c)) p 0
    | _ => faults
    end);
  match r with
  | inr _ => v ← get p; _ ← updates (set_used p); mret v
  | inl e => _ ← updates (set_used p); raise e
  end.

(** [t_code::f_method_bind] *)
Definition f_method_bind (a : Z) (p : Z) : M value () :=
  x ← get (p + 1);
  _ ← put (p + 2) x;
  n ← operate op_get_at a p;
  _ ← (if n =? -1 then mret () else m_finish m p n);
  put (p + 1) Null.

(** ** [f_expand] *)

(** The elements, from the [i]-th, at [p]. *)
Fixpoint spread (element : Z → M value value) (p i : Z) (k : nat) : M value () :=
  match k with O => mret () | S k => v ← element i; _ ← put p v; spread element (p + 1) (i + 1) k end.

(** The lambda [expand]: [k] elements replace the value at [p], and the [n]
    values after it move. *)
Definition expand (element : Z → M value value) (k p n : Z) : M value () :=
  if 0 <? k then
    used ← reads v_used;
    _ ← (if used <? p + k + n then updates (set_used (p + k + n)) else mret ());
    xs ← get_all (p + 1) (Z.to_nat n);
    _ ← put_all (p + k) xs;
    spread element p 0 (Z.to_nat k)
  else
    xs ← get_all (p + 1) (Z.to_nat n);
    put_all p xs.

(** How many elements a value has, and how to get one. *)
Definition elements (x : value) : M value (Z * (Z → M value value)) :=
  known ← reads (λ s, match x with
                      | Object a => match v_bodies s !! a with Some (body_tuple l) => Some l | _ => list_at s a end
                      | _ => None
                      end);
  match known with
  | Some l => mret (Z.of_nat (length l), λ i, need (l !! Z.to_nat i))
  | None =>
    size ← f_invoke0 x (symbol_at [115; 105; 122; 101]) None;
    match f_as_integer size with
    | Some k => mret (to_size k, λ i, f_get_at x (Integer i))
    | None => type_error "size"
    end
  end.

(** [pc] is the address of the word read last, [p] the arguments not looked at
    yet, [a_n] their number and [n] the number of those before. *)
Fixpoint f_expand (rest : list Z) (pc : nat) (p a_n n : Z) : M thrown Z :=
  match rest with
  | [] => faults
  | d :: rest =>
    let n := n + d in
    let a_n := a_n - d in
    if a_n <? 0 then faults
    else if a_n =? 0 then mret n
    else
      let p := p + d in
      k ← at_pc (S pc) (x ← get p; '(k, element) ← elements x; _ ← expand element k p (a_n - 1); mret k);
      f_expand rest (S pc) (p + k) (a_n - 1) (n + k)
  end.

(** ** Instructions *)

(** Where an instruction leads: to another one, or out of [f_loop]. *)
Inductive t_next := Goto (pc : nat) | Exit (n : Z) (pc : nat).

Section Frame.
Variable (c : t_context) (pc : nat).

Definition slot (i : Z) : Z := v_base c + i.

Definition own_scope {E} : M E Z := need (c_scope c).
(** The scope of an outer lambda, [outer] steps out. *)
Definition outer_scope {E} (outer : nat) : M E Z :=
  match outer with
  | O => own_scope
  | S n => '(scope, _) ← lambda_at (v_lambda c); outward n scope
  end.

Definition return_result (v : value) : M value t_next :=
  _ ← put (v_base c - 2) v;
  _ ← updates (set_used (v_previous c));
  mret (Exit (-1) pc).

(** [t_context::f_tail] *)
Definition f_tail (p n : Z) : M value t_next :=
  xs ← get_all p (Z.to_nat (n + 2));
  _ ← put_all (v_base c - 2) xs;
  _ ← updates (set_used (Z.max (v_previous c) (v_base c + n)));
  mret (Exit n pc).

(** What follows a primitive, and a method: [t_context::f_call] and [f_tail]. *)
Definition primitive (tail : bool) (p : Z) (v : value) (next : nat) : M value t_next :=
  if tail then return_result v else _ ← put p v; mret (Goto next).

Definition method (tail : bool) (op : operator) (a : Z) (p : Z) (next : nat) : M value t_next :=
  n ← operate op a p;
  if tail then
    if n =? -1 then v ← get p; return_result v else f_tail p n
  else
    _ ← (if n =? -1 then mret () else m_finish m p n);
    mret (Goto next).

Definition method_of_binary (op : binary) : option operator :=
  match op with
  | MULTIPLY => Some op_multiply | DIVIDE => Some op_divide | MODULUS => Some op_modulus
  | Operators.ADD => Some op_add | SUBTRACT => Some op_subtract
  | LEFT_SHIFT => Some op_left_shift | RIGHT_SHIFT => Some op_right_shift
  | LESS => Some op_less | LESS_EQUAL => Some op_less_equal | GREATER => Some op_greater | GREATER_EQUAL => Some op_greater_equal
  | EQUALS => Some op_equals | NOT_EQUALS => Some op_not_equals
  | AND => Some op_and | XOR => Some op_xor | OR => Some op_or
  | IDENTICAL | NOT_IDENTICAL => None
  end.

Definition method_of_unary (op : unary) : option operator :=
  match op with PLUS => Some op_plus | MINUS => Some op_minus | NOT => None | COMPLEMENT => Some op_complement end.

(** The operand as the instruction has it. *)
Definition encoded (o : Emit.t_operand) : Operators.t_operand :=
  match o with
  | Emit.c_tag__INTEGER z => Operators.c_tag__INTEGER z
  | Emit.c_tag__FLOAT d => Operators.c_tag__FLOAT d
  | Emit.c_tag__LITERAL v => Operators.c_tag__LITERAL (value_of v)
  | Emit.c_tag__VARIABLE i => Operators.c_tag__VARIABLE (Z.to_nat i)
  | Emit.c_tag__TEMPORARY => Operators.c_tag__TEMPORARY
  end.

(** [XEMMAI__CODE__FETCH]: the value of an operand; a temporary is at [p]. *)
Definition fetch_operand (o : Emit.t_operand) (p : Z) : M value value :=
  match o with
  | Emit.c_tag__INTEGER z => mret (Integer z)
  | Emit.c_tag__FLOAT d => mret (Float d)
  | Emit.c_tag__LITERAL v => mret (value_of v)
  | Emit.c_tag__VARIABLE i => get (slot i)
  | Emit.c_tag__TEMPORARY => get p
  end.

Definition unary_step (i : t_instruction) (tail : bool) (p : Z) (o : Emit.t_operand) (next : nat) : M value t_next :=
  match unary_of i, number_operand o with
  | Some op, None =>
    a0 ← fetch_operand o (p + 1);
    r ← of_operator (run_unary op a0);
    match r, a0, method_of_unary op with
    | Some v, _, _ => primitive tail p v next
    | None, Object a, Some op => method tail op a p next
    | _, _, _ => faults
    end
  | _, _ => faults
  end.

Definition binary_step (i : t_instruction) (tail : bool) (p : Z) (l r : Emit.t_operand) (next : nat) : M value t_next :=
  match binary_of i with
  | Some op =>
    x ← fetch_operand l (p + 1);
    y ← fetch_operand r (p + 2);
    match run_binary op (encoded l) (encoded r) x y with
    | Some e =>
      e ← of_operator e;
      match e with
      | Value v => primitive tail p v next
      | Method a op a1 =>
        _ ← (if is_temporary r then mret () else put (p + 2) a1);
        op ← need (method_of_binary op);
        method tail op a p next
      end
    | None => faults
    end
  | None => faults
  end.

(** The callee of a call of a variable. *)
Definition call_of (tail : bool) (target : M value value) (p n : Z) (next : nat) : M value t_next :=
  if tail then
    v ← target; _ ← put p v; _ ← put (p + 1) Null; f_tail p n
  else
    _ ← put (p + 1) Null; v ← target; _ ← call v p n; mret (Goto next).

(** [t_lambda::f_instantiate], both. *)
Definition new_lambda (k : nat) (v_defaults : option (option Z)) : M value value :=
  scope ← own_scope;
  code ← code_at k;
  a ← new_object (type_of_lambda (bool_decide (is_Some v_defaults)) (code_shared code))
        match v_defaults with Some d => body_advanced scope k d | None => body_lambda scope k end;
  mret (Object a).

Definition new_advanced (k : nat) (p : Z) : M value value :=
  code ← code_at k;
  let n := code_arguments code - code_minimum code - (if code_variadic code then 1 else 0) in
  d ← (if 0 <? n then xs ← get_all p (Z.to_nat n); a ← new_object type_of_tuple (body_tuple xs); mret (Some a) else mret None);
  new_lambda k (Some d).

(** [top.f_get(key, index)] and the like. *)
Definition get_member (v : value) (a_key : Z) : M value value :=
  r ← access_at (Some (c_code c, pc)) (Get v a_key);
  match r with Got v w => _ ← updates (set_world w); mret v | _ => faults end.

Definition put_member (v : value) (a_key : Z) (x : value) : M value () :=
  r ← access_at (Some (c_code c, pc)) (Put v a_key x);
  match r with Done w => updates (set_world w) | _ => faults end.

Definition has_member (v : value) (a_key : Z) : M value value :=
  r ← access_at (Some (c_code c, pc)) (Has v a_key);
  match r with Whether b => mret (Boolean b) | _ => faults end.

(** An instruction that leaves a value at [p]. *)
Definition leaves (p : Z) (x : M value value) (next : nat) : M value t_next := v ← x; _ ← put p v; mret (Goto next).

(** Members of the value in the frame, and of the global module. *)
Definition execute_member (i : t_op) : M value t_next :=
  let next := (pc + words i)%nat in
  match i with
  | OBJECT_GET n key => v ← get (slot n); leaves (slot n) (get_member v (symbol_at key)) next
  | OBJECT_GET_INDIRECT n =>
    v ← get (slot n); k ← get (slot n + 1); leaves (slot n) (get_member v (f_tag k)) next
  | OBJECT_PUT n key =>
    v ← get (slot n); x ← get (slot n + 1); leaves (slot n) (_ ← put_member v (symbol_at key) x; mret x) next
  | OBJECT_PUT_INDIRECT n =>
    v ← get (slot n); k ← get (slot n + 1); x ← get (slot n + 2); leaves (slot n) (_ ← put_member v (f_tag k) x; mret x) next
  | OBJECT_HAS n key => v ← get (slot n); leaves (slot n) (has_member v (symbol_at key)) next
  | OBJECT_HAS_INDIRECT n => v ← get (slot n); k ← get (slot n + 1); leaves (slot n) (has_member v (f_tag k)) next
  | METHOD_GET n key =>
    v ← get (slot n);
    r ← access_at (Some (c_code c, pc)) (Bind v (symbol_at key));
    match r with
    | Bound b w => _ ← updates (set_world w); _ ← put (slot n) (b.1); _ ← put (slot n + 1) (b.2); mret (Goto next)
    | _ => faults
    end
  | METHOD_BIND n =>
    v ← get (slot n);
    a ← of_outcome (f_object_or_throw v);
    w ← reads v_world;
    b ← of_outcome (f_is_bindable w v);
    _ ← (if (b : bool) then mret () else f_method_bind a (slot n));
    mret (Goto next)
  | GLOBAL_GET n key => leaves (slot n) (get_member (Object v_module_global) (symbol_at key)) next
  | _ => faults
  end.

(** Variables: of the frame, of the own scope and of the scopes around it. *)
Definition execute_variable (i : t_op) : M value t_next :=
  let next := (pc + words i)%nat in
  match i with
  | STACK_GET n k => leaves (slot n) (get (slot k)) next
  | STACK_PUT n k => leaves (slot k) (get (slot n)) next
  | SCOPE_GET0 n k => leaves (slot n) (a ← outer_scope 0; get_entry a k) next
  | SCOPE_GET1 n k => leaves (slot n) (a ← outer_scope 1; get_entry a k) next
  | SCOPE_GET2 n k => leaves (slot n) (a ← outer_scope 2; get_entry a k) next
  | SCOPE_GET n outer k => leaves (slot n) (a ← outer_scope (Z.to_nat outer); get_entry a k) next
  | SCOPE_PUT0 n k => v ← get (slot n); a ← outer_scope 0; _ ← put_entry a k v; mret (Goto next)
  | SCOPE_PUT n outer k => v ← get (slot n); a ← outer_scope (Z.to_nat outer); _ ← put_entry a k v; mret (Goto next)
  | LAMBDA n k => leaves (slot n) (new_lambda k None) next
  | ADVANCED_LAMBDA n k => leaves (slot n) (new_advanced k (slot n)) next
  | _ => faults
  end.

(** Values. *)
Definition execute_value (i : t_op) : M value t_next :=
  let next := (pc + words i)%nat in
  match i with
  | SELF n => leaves (slot n) (get (v_base c - 1)) next
  | CLASS n => v ← get (slot n); w ← reads v_world; leaves (slot n) (a ← of_outcome (f_type w v); mret (Object a)) next
  | SUPER n =>
    v ← get (slot n);
    w ← reads v_world;
    leaves (slot n)
      (a ← of_outcome (f_type w v);
       if negb (a =? type_of_type w) then f_throw "not class."
       else
         p ← of_outcome (f_object_or_throw v);
         t ← of_outcome (type_at w p);
         match v_super t with Some a => mret (Object a) | None => f_throw "no more super class." end) next
  | NUL n => leaves (slot n) (mret Null) next
  | INTEGER n z => leaves (slot n) (mret (Integer z)) next
  | FLOAT n d => leaves (slot n) (mret (Float d)) next
  | INSTANCE n v => leaves (slot n) (mret (value_of v)) next
  | _ => faults
  end.

(** The end of a call. *)
Definition execute_return (i : t_op) : M value t_next :=
  match i with
  | RETURN_NUL => return_result Null
  | RETURN_INTEGER z => return_result (Integer z)
  | RETURN_FLOAT d => return_result (Float d)
  | RETURN_INSTANCE v => return_result (value_of v)
  | RETURN n => v ← get (slot n); return_result v
  | _ => faults
  end.

(** Calls.  A tail call leaves the loop. *)
Definition execute_call (i : t_op) : M value t_next :=
  let next := (pc + words i)%nat in
  match i with
  | CALL tail n k =>
    if tail then f_tail (slot n) k else v ← get (slot n); _ ← call v (slot n) k; mret (Goto next)
  | STACK_CALL tail n index k => call_of tail (get (slot index)) (slot n) k next
  | SCOPE_CALL outer tail n index k => call_of tail (a ← outer_scope outer; get_entry a index) (slot n) k next
  | GET_AT tail n =>
    v ← get (slot n + 1); a ← of_outcome (f_object_or_throw v); method tail op_get_at a (slot n) next
  | SET_AT tail n =>
    v ← get (slot n + 1); a ← of_outcome (f_object_or_throw v); method tail op_set_at a (slot n) next
  | _ => faults
  end.

(** The instructions other than those of [try], [THROW] and calls with
    arguments to expand. *)
Definition execute (i : t_op) : M value t_next :=
  let next := (pc + words i)%nat in
  match i with
  | JUMP (Address to) => mret (Goto to)
  | BRANCH n (Address to) => v ← get (slot n); mret (Goto (if f_boolean v then next else to))
  | OBJECT_GET _ _ | OBJECT_GET_INDIRECT _ | OBJECT_PUT _ _ | OBJECT_PUT_INDIRECT _ | OBJECT_HAS _ _ | OBJECT_HAS_INDIRECT _
  | METHOD_GET _ _ | METHOD_BIND _ | GLOBAL_GET _ _ => execute_member i
  | STACK_GET _ _ | STACK_PUT _ _ | SCOPE_GET0 _ _ | SCOPE_GET1 _ _ | SCOPE_GET2 _ _ | SCOPE_GET _ _ _ | SCOPE_PUT0 _ _ | SCOPE_PUT _ _ _
  | LAMBDA _ _ | ADVANCED_LAMBDA _ _ => execute_variable i
  | SELF _ | CLASS _ | SUPER _ | NUL _ | INTEGER _ _ | FLOAT _ _ | INSTANCE _ _ => execute_value i
  | RETURN_NUL | RETURN_INTEGER _ | RETURN_FLOAT _ | RETURN_INSTANCE _ | RETURN _ => execute_return i
  | CALL _ _ _ | STACK_CALL _ _ _ _ | SCOPE_CALL _ _ _ _ _ | GET_AT _ _ | SET_AT _ _ => execute_call i
  | UNARY i tail n o => unary_step i tail (slot n) o next
  | BINARY i tail n l r => binary_step i tail (slot n) l r next
  | SAFE_POINT => mret (Goto next)
  | _ => faults
  end.

(** *** [try] *)

Definition c_try (t : t_try) : Z :=
  match t with c_try__CATCH => 0 | c_try__STEP => 1 | c_try__BREAK => 2 | c_try__CONTINUE => 3 | c_try__RETURN => 4 | c_try__THROW => 5 end.

(** [finally]: the code after it continues where [try0] says. *)
Definition leave_try (finally0 : nat) (try0 : Z) : M thrown nat :=
  '(_, pc) ← m_loop m c finally0;
  code ← code_at (c_code c);
  match fetch (code_instructions code) pc with
  | Some (YRT break0 continue0 return0) =>
    let to o := match o with Some (Address to) => mret to | _ => faults end in
    if try0 =? c_try c_try__BREAK then to break0
    else if try0 =? c_try c_try__CONTINUE then to continue0
    else if try0 =? c_try c_try__RETURN then to return0
    else mret (pc + 4)%nat
  | _ => faults
  end.

(** [finally], and the exception goes on. *)
Definition leave_throwing {A} (finally0 : nat) (e : thrown) : M thrown A := _ ← m_loop m c finally0; raise e.

(** [t_code::f_try] *)
Definition f_try (p : Z) (catch0 finally0 : nat) : M thrown nat :=
  r ← attempt (m_loop m c (pc + 4));
  match r with
  | inr (try0, _) => leave_try finally0 try0
  | inl e =>
    r ← attempt (m_clauses m c p e catch0);
    match r with
    | inl e' => leave_throwing finally0 e'
    | inr try0 => if try0 =? c_try c_try__THROW then leave_throwing finally0 e else leave_try finally0 try0
    end
  end.
End Frame.

(** Whether a clause with the type at [p] takes what was thrown. *)
Definition catches (v : value) (p : Z) : M value bool :=
  type ← get p;
  w ← reads v_world;
  match type with
  | Object a =>
    match type_at w a with
    | Ok _ =>
      if f_equal v v_fiber_exit then mret false
      else t ← of_outcome (f_type w v); of_outcome (f_derives w t a)
    | _ => type_error "type"
    end
  | _ => type_error "type"
  end.

(** The loop of [f_try] over the clauses. *)
Definition clauses_step (c : t_context) (p : Z) (e : thrown) (pc : nat) : M thrown Z :=
  '(try0, pc) ← m_loop m c pc;
  if negb (try0 =? c_try c_try__CATCH) then mret try0
  else
    code ← code_at (c_code c);
    match fetch (code_instructions code) pc with
    | Some (CATCH (Address next) shared index) =>
      b ← at_pc (pc + 1) (catches (e.1) p);
      if (b : bool) then
        _ ← f_backtrace (e.1) (v_lambda c) (e.2);
        _ ← (if shared then a ← own_scope c; put_entry a index (e.1) else put (slot c index) (e.1));
        m_clauses m c p e (pc + 3)
      else m_clauses m c p e next
    | _ => faults
    end.

(** [t_code::f_loop]: an instruction, and the rest. *)
Definition loop_step (c : t_context) (pc : nat) : M thrown (Z * nat) :=
  code ← code_at (c_code c);
  i ← need (fetch (code_instructions code) pc);
  let next := (pc + words i)%nat in
  match i with
  | TRY n (Address catch0) (Address finally0) => to ← f_try c pc (slot c n) catch0 finally0; m_loop m c to
  | CATCH _ _ _ => mret (c_try c_try__CATCH, pc)
  | FINALLY t => mret (c_try t, (pc + 1)%nat)
  | YRT _ _ _ => mret (0, pc)
  | THROW n => at_pc next (v ← get (slot c n); raise v)
  | CALL_WITH_EXPANSION tail n k rest =>
    k ← f_expand rest (pc + 2) (slot c n + 2) k 0;
    if tail then
      r ← at_pc next (f_tail c pc (slot c n) k); match r with Exit n pc => mret (n, pc) | Goto to => m_loop m c to end
    else _ ← at_pc next (v ← get (slot c n); call v (slot c n) k); m_loop m c next
  | _ =>
    r ← at_pc next (execute c pc i);
    match r with Exit n pc => mret (n, pc) | Goto to => m_loop m c to end
  end.
End Step.

(** The machine with fuel for a number of instructions and calls. *)
Fixpoint machine (fuel : nat) : t_machine :=
  match fuel with
  | O => Machine (λ _ _ _, Exhausted) (λ _ _ _ _ _, Exhausted) (λ _ _ _ _, Exhausted) (λ _ _ _, Exhausted)
  | S fuel => let m := machine fuel in Machine (loop_step m) (clauses_step m) (call_step m) (finish_step m)
  end.

(** A module: [t_module::f_execute_script] calls the lambda of its code, whose
    scope is empty, with a builder as the receiver. *)
Definition f_execute_script (fuel : nat) (a_code : nat) (builder : value) : M value () :=
  scope ← new_object type_of_scope (body_scope [] None);
  code ← code_at a_code;
  lambda ← new_object (type_of_lambda false (code_shared code)) (body_lambda scope a_code);
  p ← reads v_used;
  _ ← updates (set_used (p + 2));
  _ ← put (p + 1) builder;
  r ← attempt (m_call (machine fuel) (Object lambda) p 0);
  _ ← updates (set_used p);
  match r with inr _ => mret () | inl e => raise e end.
End Interp.
