(* ===== verification/InterpCode.v ===== *)
(** * Verified code (Interp.v)

    What the interpreter takes for granted about code: its instructions stay
    in the frame and in the scopes around the lambda, refer to codes that
    exist, and nest as [try] does.  The last is a discipline on addresses: each
    instruction is in a region, and an instruction leads to others of its
    region, except for those that enter and leave a [try]. *)
From stdpp Require Import base list numbers strings gmap.
From S2P Require Import Prelude Machine Ast Types Operators Emit EmitSafety Interp.
Local Open Scope Z_scope.

(** ** Regions *)

(** Where an instruction is: not in a [try], in the body or the clauses of one
    whose types are found in a slot, or in its [finally].  The flags tell which
    jumps the [try] may interrupt: [break], [continue] and [return]. *)
Inductive t_region :=
| Outermost
| Guarded (stack : Z) (j k r : bool) (outer : t_region)
| Finally (j k r : bool) (outer : t_region).

Definition allowed (j k r : bool) (t : t_try) : bool :=
  match t with c_try__BREAK => j | c_try__CONTINUE => k | c_try__RETURN => r | _ => true end.

(** Where an instruction in a region leads to; [goes] and [falls] tell of the
    target of a jump and of the next instruction that they are in a region. *)
Definition disciplined (goes : t_place → t_region → Prop) (falls : t_region → Prop) (ρ : t_region) (i : t_op) : Prop :=
  match i with
  | JUMP p => goes p ρ
  | BRANCH _ p => goes p ρ ∧ falls ρ
  | TRY n p q => ∃ j c r, falls (Guarded n j c r ρ) ∧ goes p (Guarded n j c r ρ) ∧ goes q (Finally j c r ρ)
  | CATCH p _ _ => (∃ n j c r o, ρ = Guarded n j c r o) ∧ goes p ρ ∧ falls ρ
  | FINALLY t => t ≠ c_try__CATCH ∧ ∃ n j c r o, ρ = Guarded n j c r o ∧ allowed j c r t = true
  | YRT x y z =>
    ∃ j c r o, ρ = Finally j c r o ∧ falls o ∧
      (j = true → ∃ p, x = Some p ∧ goes p o) ∧ (c = true → ∃ p, y = Some p ∧ goes p o) ∧ (r = true → ∃ p, z = Some p ∧ goes p o)
  | THROW _ => True
  | RETURN_NUL | RETURN_INTEGER _ | RETURN_FLOAT _ | RETURN_INSTANCE _ | RETURN _ => ρ = Outermost
  | CALL true _ _ | CALL_WITH_EXPANSION true _ _ _ | STACK_CALL true _ _ _ | SCOPE_CALL _ true _ _ _
  | GET_AT true _ | SET_AT true _ | UNARY _ true _ _ | BINARY _ true _ _ _ => ρ = Outermost
  | _ => falls ρ
  end.

(** The region of each instruction; dead code may have none. *)
Definition t_regions : Type := list (option t_region).

Section regions.
Variable (ops : list t_op) (R : t_regions).

(** The next instruction of the [k]-th, and the target of a jump, are in a
    region. *)
Definition falls (k : nat) (ρ : t_region) : Prop := (S k < length ops)%nat ∧ R !! S k = Some (Some ρ).

Definition goes (p : t_place) (ρ : t_region) : Prop :=
  ∃ k, p = Address (address (take k ops)) ∧ (k < length ops)%nat ∧ R !! k = Some (Some ρ).

(** Where the [k]-th instruction, in a region, leads to. *)
Definition leads_to (k : nat) : t_region → t_op → Prop := disciplined goes (falls k).

Definition structured : Prop :=
  length R = length ops ∧ R !! 0%nat = Some (Some Outermost) ∧
  ∀ k i ρ, ops !! k = Some i → R !! k = Some (Some ρ) → leads_to k ρ i.
End regions.

(** ** Scopes *)

(** The variables of scopes that an instruction accesses, by the distance of
    the scope, and the codes of the lambdas that it makes. *)
Definition scoped (reach : nat → Z → Prop) (nest : nat → Prop) (i : t_op) : Prop :=
  match i with
  | SCOPE_GET0 _ x | SCOPE_PUT0 _ x | CATCH _ true x => reach 0%nat x
  | SCOPE_GET1 _ x => reach 1%nat x
  | SCOPE_GET2 _ x => reach 2%nat x
  | SCOPE_GET _ outer x | SCOPE_PUT _ outer x => reach (Z.to_nat outer) x
  | SCOPE_CALL outer _ _ x _ => reach outer x
  | LAMBDA _ j | ADVANCED_LAMBDA _ j => nest j
  | _ => True
  end.

Section Scopes.
Context `{Engine}.
(** The numbers of variables of the scopes around the lambda of a code, the
    nearest first. *)
Variable Γ : nat → list Z.

(** A variable of the own scope or of an outer one. *)
Definition reaches (k : nat) (outer : nat) (index : Z) : Prop :=
  match outer with
  | O => ∃ c, codes !! k = Some c ∧ code_shared c = true ∧ 0 <= index < code_shareds c
  | S n => ∃ size, Γ k !! n = Some size ∧ 0 <= index < size
  end.

(** The lambda of a code can be made in the scope of another. *)
Definition nests (k j : nat) : Prop :=
  ∃ c c', codes !! k = Some c ∧ codes !! j = Some c' ∧ code_shared c = true ∧ Γ j = code_shareds c :: Γ k.

Definition scopes_ok (k : nat) : t_op → Prop := scoped (reaches k) (nests k).

(** ** Operands *)

(** The distances of [CALL_WITH_EXPANSION] add up to the arguments. *)
Fixpoint expands_ok (rest : list Z) (n : Z) : Prop :=
  match rest with [] => False | d :: rest => 0 <= d /\ (n = d ∨ d < n ∧ expands_ok rest (n - d - 1)) end.

Definition operands_ok (i : t_op) : Prop :=
  match i with
  | CALL _ _ n | STACK_CALL _ _ _ n | SCOPE_CALL _ _ _ _ n => 0 <= n
  | CALL_WITH_EXPANSION _ _ n rest => 0 <= n ∧ expands_ok rest n
  | UNARY i _ _ o => is_Some (unary_of i) ∧ number_operand o = None
  | BINARY i _ _ l r => is_Some (binary_of i) ∧ (number_operand l = None ∨ number_operand r = None)
  | _ => True
  end.

(** The arguments of a lambda. *)
Definition signature_ok (c : t_code) : Prop :=
  0 <= code_minimum c ∧ code_minimum c + (if code_variadic c then 1 else 0) <= code_arguments c ∧ 0 <= code_shareds c.

(** The code of a lambda can be run.  The code of a module that keeps its
    [self] in its scope uses a slot above its frame to put it there. *)
Record code_ok (k : nat) (c : t_code) : Prop := {
  c_size : 0 <= code_size c;
  c_signature : signature_ok c;
  c_frame : Forall (frame_ok (code_size c + 1)) (code_instructions c);
  c_scopes : Forall (scopes_ok k) (code_instructions c);
  c_operands : Forall operands_ok (code_instructions c);
  c_regions : ∃ R, structured (code_instructions c) R;
}.

Definition program_ok : Prop := ∀ k c, codes !! k = Some c → code_ok k c.
End Scopes.

(** ** Addresses *)

Lemma words_pos i : (0 < words i)%nat.
Proof. destruct i; cbn; lia. Qed.

Lemma address_take_S ops k i : ops !! k = Some i → address (take (S k) ops) = (address (take k ops) + words i)%nat.
Proof. intros Hi. rewrite (take_S_r _ _ i Hi), address_app. cbn. lia. Qed.

Lemma fetch_address ops k : fetch ops (address (take k ops)) = ops !! k.
Proof.
  revert k. induction ops as [|i ops IH]; intros [|k]; cbn; try done.
  pose proof (words_pos i). rewrite !decide_False by (cbn; lia). cbn.
  replace (words i + sum_list (words <$> take k ops) - words i)%nat with (address (take k ops)) by (unfold address; lia). apply IH.
Qed.

(** Running at an address: the instruction there, in its region. *)
Definition located (ops : list t_op) (R : t_regions) (pc : nat) (ρ : t_region) : Prop :=
  ∃ k i, pc = address (take k ops) ∧ ops !! k = Some i ∧ R !! k = Some (Some ρ).

Lemma falls_located ops R k i ρ : ops !! k = Some i → falls ops R k ρ → located ops R (address (take k ops) + words i) ρ.
Proof.
  intros Hi [Hlt HR]. apply lookup_lt_is_Some in Hlt as [i' Hi']. exists (S k), i'. split_and!; [|done|done].
  by rewrite (address_take_S _ _ _ Hi).
Qed.

Lemma goes_located ops R p ρ : goes ops R p ρ → ∃ a, p = Address a ∧ located ops R a ρ.
Proof.
  intros (k & -> & Hlt & HR). apply lookup_lt_is_Some in Hlt as [i Hi]. eexists. split; [done|]. by exists k, i.
Qed.

Lemma located_fetch ops R pc ρ : located ops R pc ρ → ∃ k i, pc = address (take k ops) ∧ ops !! k = Some i ∧ R !! k = Some (Some ρ) ∧ fetch ops pc = Some i.
Proof. intros (k & i & -> & Hi & HR). exists k, i. split_and!; try done. by rewrite fetch_address. Qed.
