(* ===== verification/InterpState.v ===== *)
(** * The state of the interpreter (Interp.v)

    Well-formed states, how a computation may change one, and the rules for
    the primitive computations: a program logic for partial correctness, in
    which a computation that faults is wrong. *)
From stdpp Require Import base list numbers strings gmap.
From S2P Require Import Prelude Machine Layout Ast Types TypeLayout TypeAccess TypeSafety Operators Emit EmitSafety Interp InterpCode.
Local Open Scope Z_scope.

(** ** Types *)

(** Every type has the class fields of the operators, and a chain of bases that
    ends. *)
Definition types_ok (w : world) : Prop := ∀ a t, type_at w a = Ok t →
  v_instance_fields t + 25 <= v_fields t ∧ ∀ b, ∃ r, f_derives w a b = Ok r.

(** A store with more objects, but no other types. *)
Definition same_types (w w' : world) : Prop := ∀ a t, type_at w' a = Ok t → type_at w a = Ok t.

Lemma loop_more {E S R} (f : S → result E (S + R)) n k s r : loop n f s = Ok r → loop (n + k) f s = Ok r.
Proof.
  revert s. induction n as [|n IH]; intros s; cbn; [done|]. destruct (f s) as [[s'|r']| |]; cbn; try done. apply IH.
Qed.

Lemma derives_extends w w' a b r : extends w w' → f_derives w a b = Ok r → f_derives w' a b = Ok r.
Proof.
  intros He. unfold f_derives.
  assert (Hsize : (size (objects w) <= size (objects w'))%nat).
  { rewrite <- !size_dom. apply subseteq_size. intros x Hx%elem_of_dom. apply elem_of_dom. destruct Hx as [o Ho].
    destruct He as [Hk _]. destruct (Hk _ _ Ho) as (o' & -> & _). by eexists. }
  assert (HM : ∀ n p r, loop n (f_derives_step w b) p = Ok r → loop n (f_derives_step w' b) p = Ok r).
  { induction n as [|n IH]; intros p r'; cbn; [done|]. unfold f_derives_step. destruct (p =? b); [done|].
    destruct (type_at w p) as [t| |] eqn:Et; cbn; try done. rewrite (extends_type _ _ He _ _ Et). cbn. by destruct (v_super t); [apply IH|]. }
  intros H%HM. replace (S (size (objects w'))) with (S (size (objects w)) + (size (objects w') - size (objects w)))%nat by lia.
  by apply loop_more.
Qed.

Lemma types_ok_extends w w' : extends w w' → same_types w w' → types_ok w → types_ok w'.
Proof.
  intros He Hs H a t Ht%Hs. destruct (H a t Ht) as [Hf Hd]. split; [done|]. intros b. destruct (Hd b) as [r Hr].
  exists r. by apply (derives_extends w).
Qed.

(** Writing an object that is not a type, or a type in place of itself. *)
Lemma same_types_insert w a o :
  (∀ t, o_data o = of_type t → type_at w a = Ok t) → same_types w (with_objects w (<[a := o]> (objects w))).
Proof.
  intros Ho b t. unfold type_at, object_at. cbn. destruct (decide (a = b)) as [<-|Hne].
  - rewrite lookup_insert_eq. cbn. destruct (o_data o) as [t'| | | |] eqn:Eo; try done. intros [= ->]. by apply (Ho t).
  - by rewrite lookup_insert_ne.
Qed.

(** The bases are types. *)
Lemma super_known w p t a : types_ok w → type_at w p = Ok t → v_super t = Some a → ∃ t', type_at w a = Ok t'.
Proof.
  intros Hw Ht Hs. set (b := Z.max p a + 1). destruct (Hw p t Ht) as [_ Hd]. destruct (Hd b) as [r Hr]. unfold f_derives in Hr. cbn [loop] in Hr.
  assert (Hne : ∀ x, x = p ∨ x = a → (x =? b) = false) by (intros; apply Z.eqb_neq; lia).
  assert (Hp : f_derives_step w b p = Ok (inl a)) by (unfold f_derives_step; rewrite (Hne p), Ht by auto; cbn; by rewrite Hs).
  rewrite Hp in Hr. destruct (size (objects w)) as [|n]; cbn [loop mbind outcome_bind] in Hr; [done|].
  assert (Ha : ∀ x, type_at w a = x → match x with Ok t' => True | Throw e => f_derives_step w b a = Throw e | Fault => f_derives_step w b a = Fault end).
  { intros [] Hx; [done|..]; unfold f_derives_step; rewrite (Hne a), Hx by auto; done. }
  specialize (Ha _ eq_refl). destruct (type_at w a) as [t'| |]; [by exists t'|by rewrite Ha in Hr..].
Qed.

Lemma same_types_refl w : same_types w w.
Proof. by intros a t. Qed.

(** Accesses make no types. *)
Section accesses.
Context `{Allocator} `{TypeNames}.

Lemma new_method_same w f this v w' : new_method w f this = Ok (v, w') → same_types w w'.
Proof. destruct f; cbn; try done. intros [= _ <-]. by apply same_types_insert. Qed.

Lemma get_class_field_same w t this i v w' : get_class_field w t this i = Ok (v, w') → same_types w w'.
Proof.
  unfold get_class_field. destruct (rd (fields t) i) as [[k x]| |]; cbn; try done. destruct (f_is_bindable w x) as [[]| |]; cbn; try done.
  - by intros ?%new_method_same.
  - intros [= _ <-]. apply same_types_refl.
Qed.

Lemma builder_fields_builder w a b f : builder_fields w a = Ok (b, f) → ∃ o, objects w !! a = Some o ∧ o_data o = of_builder b.
Proof.
  unfold builder_fields, object_at. destruct (objects w !! a) as [o|]; cbn; [|done]. destruct (o_data o) as [| | |b'|] eqn:Eo; try done.
  destruct (_ =? _); [|done]. destruct (v_builder_fields b'); [|done]. intros [= <- <-]. by exists o.
Qed.

Lemma set_builder_same w a b f w' : set_builder_fields w a b f = Ok w' → same_types w w'.
Proof. unfold set_builder_fields. destruct (object_at w a); cbn; try done. intros [= <-]. by apply same_types_insert. Qed.

Lemma get_elsewhere_same w t this k v w' : get_elsewhere w t this k = Ok (v, w') → same_types w w'.
Proof.
  assert (Ht : @f_throw_undefined_field _ (value * world) w k = Ok (v, w') → same_types w w').
  { unfold f_throw_undefined_field. destruct (f_check_symbol w k); cbn; try done. by destruct (symbol_string w k). }
  unfold get_elsewhere. destruct (v_get (v_native t)); [by destruct this|destruct this; try done|destruct this; try done].
  - unfold class_member. destruct (type_at w a) as [t'| |]; cbn; try done. destruct (place_of t' k); try done.
    destruct (rd (fields t') i) as [[]| |]; cbn; try done. intros [= _ <-]. apply same_types_refl.
  - unfold builder_f_do_get. destruct (builder_fields w a) as [[b f]| |]; cbn; try done.
    destruct (f_check_symbol w k); cbn; try done.
    destruct (set_builder_fields w a b _) as [w1| |] eqn:Es; cbn; try done. intros [= _ <-]. by eapply set_builder_same.
Qed.

Lemma call_put_same w t p k x w' : call_put w t p k x = Ok w' → same_types w w'.
Proof.
  unfold call_put. destruct (v_put (v_native t)).
  - unfold f_throw_undefined_field. destruct (f_check_symbol w k); cbn; try done. by destruct (symbol_string w k).
  - unfold builder_f_do_put. destruct (builder_fields w p) as [[b f]| |]; cbn; try done.
    destruct (f_check_symbol w k); cbn; try done. apply set_builder_same.
Qed.

Lemma put_field_same w p i x w' : put_field w p i x = Ok w' → same_types w w'.
Proof.
  unfold put_field, f_fields, set_fields. destruct (object_at w p) as [o| |] eqn:Eo; cbn; try done.
  destruct (wr (o_fields o) i x); cbn; try done. intros [= <-]. apply same_types_insert. cbn. intros t' Ht'.
  unfold type_at. rewrite Eo. cbn. by rewrite Ht'.
Qed.

Definition answer_world (r : answer) : option world :=
  match r with Got _ w | Bound _ w | Done w | Invoked _ w => Some w | Whether _ => None end.

Lemma refer_same w a r w' : refer w a = Ok r → answer_world r = Some w' → same_types w w'.
Proof.
  destruct a as [this k|this k|this k x|this k|this k]; cbn [refer].
  - destruct (type_of w this) as [t| |]; cbn [mbind outcome_bind]; try done. destruct (place_of t k) as [i|i|].
    + destruct (get_field w this i); cbn [mbind outcome_bind]; try done. intros [= <-] [= <-]. apply same_types_refl.
    + destruct (get_class_field w t this i) as [[]| |] eqn:Eg; cbn [mbind outcome_bind]; try done. intros [= <-] [= <-]. by eapply get_class_field_same.
    + destruct (get_elsewhere w t this k) as [[]| |] eqn:Eg; cbn [mbind outcome_bind]; try done. intros [= <-] [= <-]. by eapply get_elsewhere_same.
  - destruct (type_of w this) as [t| |]; cbn [mbind outcome_bind]; try done. destruct (place_of t k) as [i|i|].
    + destruct (get_field w this i); cbn [mbind outcome_bind]; try done. intros [= <-] [= <-]. apply same_types_refl.
    + destruct (f_bind_class w t this i); cbn [mbind outcome_bind]; try done. intros [= <-] [= <-]. apply same_types_refl.
    + destruct (get_elsewhere w t this k) as [[]| |] eqn:Eg; cbn [mbind outcome_bind]; try done. intros [= <-] [= <-]. by eapply get_elsewhere_same.
  - destruct (f_object_or_throw this) as [p| |]; cbn [mbind outcome_bind]; try done.
    destruct (type_of w this) as [t| |]; cbn [mbind outcome_bind]; try done.
    assert (Hp : ∀ o : outcome world, (∀ w1, o = Ok w1 → same_types w w1) → (w1 ← o; Ok (Done w1)) = Ok r → answer_world r = Some w' → same_types w w').
    { intros [w1| |] Ho; cbn [mbind outcome_bind]; try done. intros [= <-] [= <-]. by apply Ho. }
    apply Hp. intros w1. destruct (place_of t k) as [i|i|]; [by apply put_field_same|by apply call_put_same..].
  - destruct this; cbn [mbind outcome_bind]; try by (intros [= <-]). destruct (type_of w (Object a)); cbn [mbind outcome_bind]; try done. by intros [= <-].
  - destruct (type_of w this) as [t| |]; cbn [mbind outcome_bind]; try done. destruct (place_of t k) as [i|i|].
    + destruct (get_field w this i); cbn [mbind outcome_bind]; try done. destruct (f_call a); cbn [mbind outcome_bind]; try done. intros [= <-] [= <-]. apply same_types_refl.
    + destruct (f_invoke_class w t this i); cbn [mbind outcome_bind]; try done. intros [= <-] [= <-]. apply same_types_refl.
    + destruct (get_elsewhere w t this k) as [[]| |] eqn:Eg; cbn [mbind outcome_bind]; try done. destruct (f_call v); cbn [mbind outcome_bind]; try done. intros [= <-] [= <-].
      by eapply get_elsewhere_same.
Qed.
End accesses.

(** ** Well-formed states *)

Section States.
Context `{Engine}.
Variable Γ : nat → list Z.

(** The scope at an address, and those around it, have these numbers of
    variables. *)
Fixpoint shaped (m : gmap Z t_body) (a : Z) (sizes : list Z) : Prop :=
  match sizes with
  | [] => True
  | n :: sizes =>
    ∃ l o, m !! a = Some (body_scope l o) ∧ Z.of_nat (length l) = n ∧
      match sizes with [] => True | _ => ∃ b, o = Some b ∧ shaped m b sizes end
  end.

Definition body_ok (s : t_state) (b : t_body) : Prop :=
  match b with
  | body_scope l _ | body_tuple l => Forall (value_ok (v_world s)) l
  | body_lambda scope k => is_Some (codes !! k) ∧ shaped (v_bodies s) scope (Γ k)
  | body_advanced scope k d =>
    (∃ c, codes !! k = Some c ∧ (d = None → code_arguments c - (if code_variadic c then 1 else 0) <= code_minimum c))
    ∧ shaped (v_bodies s) scope (Γ k) ∧ ∀ a, d = Some a → ∃ l, v_bodies s !! a = Some (body_tuple l)
  | body_throwable _ _ => True
  end.

(** The objects of the engine, and the types of the objects that the
    interpreter makes. *)
Record engine_ok (w : world) : Prop := {
  e_global : value_ok w (Object v_module_global);
  e_slots o : value_ok w (slot_at o);
  e_scope : plain_type w type_of_scope;
  e_lambda a b : plain_type w (type_of_lambda a b);
  e_tuple : plain_type w type_of_tuple;
  e_throwable : plain_type w type_of_throwable;
  e_class : ∃ t, type_at w (type_of_type w) = Ok t ∧ v_get (v_native t) = class_do_get;
}.

(** A slot of the stack. *)
Definition slot_ok (w : world) (o : option value) : Prop := match o with Some v => value_ok w v | None => True end.

Record valid (s : t_state) : Prop := {
  i_heap : heap_ok (v_world s);
  i_types : types_ok (v_world s);
  i_engine : engine_ok (v_world s);
  i_objects a b : v_bodies s !! a = Some b → is_Some (objects (v_world s) !! a);
  i_bodies a b : v_bodies s !! a = Some b → body_ok s b;
  i_caches site i : v_caches s !! site = Some i → index_range i;
  i_stack : Forall (slot_ok (v_world s)) (v_estack s);
  i_used : 0 <= v_used s;
}.

(** What the body of an object keeps. *)
Definition same_body (b b' : t_body) : Prop :=
  match b, b' with
  | body_scope l o, body_scope l' o' => length l' = length l ∧ o' = o
  | body_throwable _ _, body_throwable _ _ => True
  | _, _ => b' = b
  end.

Record grows (s s' : t_state) : Prop := {
  w_world : extends (v_world s) (v_world s');
  w_bodies a b : v_bodies s !! a = Some b → ∃ b', v_bodies s' !! a = Some b' ∧ same_body b b';
  w_stack : length (v_estack s') = length (v_estack s);
}.

Lemma same_body_refl b : same_body b b.
Proof. by destruct b. Qed.

Lemma same_body_trans b1 b2 b3 : same_body b1 b2 → same_body b2 b3 → same_body b1 b3.
Proof.
  clear Γ. destruct b1, b2; cbn; try done; destruct b3; cbn; try done; intuition congruence.
Qed.

Lemma state_grows_refl s : grows s s.
Proof. split; [apply extends_refl| |done]. intros a b Hb. exists b. split; [done|apply same_body_refl]. Qed.

Lemma state_grows_trans s1 s2 s3 : grows s1 s2 → grows s2 s3 → grows s1 s3.
Proof.
  intros [W1 B1 L1] [W2 B2 L2]. split; [by eapply extends_trans| |congruence].
  intros a b Hb. destruct (B1 a b Hb) as (b' & Hb' & ?). destruct (B2 a b' Hb') as (b'' & Hb'' & ?).
  exists b''. split; [done|by eapply same_body_trans].
Qed.

(** The bodies alone. *)
Definition bodies_grow (m m' : gmap Z t_body) : Prop := ∀ a b, m !! a = Some b → ∃ b', m' !! a = Some b' ∧ same_body b b'.

Lemma shaped_grow m m' a sizes : bodies_grow m m' → shaped m a sizes → shaped m' a sizes.
Proof.
  intros Hm. revert a. induction sizes as [|n sizes IH]; intros a; [done|]. cbn. intros (l & o & Ha & Hl & Hr).
  destruct (Hm a _ Ha) as (b & Hb & Hs). destruct b; try done. cbn in Hs. destruct Hs as [Hl' ->].
  exists v_entries, o. split_and!; [done|congruence|]. destruct sizes; [done|]. destruct Hr as (b & -> & Hr). exists b. split; [done|by apply IH].
Qed.

Lemma body_ok_grow s s' b : extends (v_world s) (v_world s') → bodies_grow (v_bodies s) (v_bodies s') → body_ok s b → body_ok s' b.
Proof.
  intros He Hb. destruct b; cbn.
  - by apply extends_values.
  - intros [? ?]. split; [done|by eapply shaped_grow].
  - intros (? & ? & Hd). split_and!; [done|by eapply shaped_grow|]. intros a Ha. destruct (Hd a Ha) as [l Hl].
    destruct (Hb _ _ Hl) as (b & Hb' & Hs). destruct b; try done. cbn in Hs. simplify_eq. by eexists.
  - by apply extends_values.
  - done.
Qed.

Lemma engine_ok_extends w w' : extends w w' → engine_ok w → engine_ok w'.
Proof.
  intros He [G S C L T W K]. split.
  - by apply (extends_value w w' He (Object v_module_global)).
  - intros o. by apply (extends_value w w' He).
  - by apply (extends_plain w w' He).
  - intros a b. by apply (extends_plain w w' He).
  - by apply (extends_plain w w' He).
  - by apply (extends_plain w w' He).
  - destruct K as (t & Ht & Hg). exists t. split; [|done]. apply (extends_type w w' He). destruct He as (_ & _ & _ & _ & ->). done.
Qed.

Lemma value_grows s s' v : grows s s' → value_ok (v_world s) v → value_ok (v_world s') v.
Proof. intros [He _ _]. by apply extends_value. Qed.

(** Another world for the state, with the same types. *)
Lemma valid_world s w : valid s → heap_ok w → extends (v_world s) w → same_types (v_world s) w →
  valid (set_world w s) ∧ grows s (set_world w s).
Proof.
  intros [Hh Ht He Ho Hb Hc Hs Hu] Hw Hx Hty. split.
  - split; cbn; try done.
    + by apply (types_ok_extends (v_world s)).
    + by apply (engine_ok_extends (v_world s)).
    + intros a b Ha. destruct (Ho a b Ha) as [o Hao]. destruct Hx as [Hk _]. destruct (Hk _ _ Hao) as (o' & ? & _). by eexists.
    + intros a b Ha. apply (body_ok_grow s); [done|intros ???; eexists; split; [done|apply same_body_refl]|by eapply Hb].
    + eapply Forall_impl; [exact Hs|]. intros [v|]; [by apply extends_value|done].
  - split; cbn; [done| |done]. intros a b Ha. exists b. split; [done|apply same_body_refl].
Qed.

Lemma bind_returns {E A B} (m : M E A) (f : A → M E B) a s s' : m s = Returns a s' → (m ≫= f) s = f a s'.
Proof. unfold mbind, run_bind. by intros ->. Qed.

(** ** Computations that do not fault

    A computation that starts in a well-formed state leaves one; the values of
    the stack below [p] stay, and the stack is used up to [u] at least.  What
    it throws is an object or a value of the state. *)
Definition keeps (p : Z) (s s' : t_state) : Prop := take (Z.to_nat p) (v_estack s') = take (Z.to_nat p) (v_estack s).

Record from (p u : Z) (s s' : t_state) : Prop := {
  f_valid : valid s';
  f_grows : grows s s';
  f_keeps : keeps p s s';
  f_used : u <= v_used s';
}.

Lemma keeps_mono p q s s' : q <= p → keeps p s s' → keeps q s s'.
Proof.
  unfold keeps. intros Hq Hk. assert (Hmin : Z.to_nat q = (Z.to_nat q `min` Z.to_nat p)%nat) by lia.
  rewrite Hmin, <- !take_take. by rewrite Hk.
Qed.

Lemma from_refl p u s : valid s → u <= v_used s → from p u s s.
Proof. intros ? ?. by split; [|apply state_grows_refl| |]. Qed.

Lemma from_trans p u s1 s2 s3 : from p u s1 s2 → from p u s2 s3 → from p u s1 s3.
Proof.
  intros [V1 G1 K1 U1] [V2 G2 K2 U2]. split; [done|by eapply state_grows_trans| |done]. unfold keeps in *. congruence.
Qed.

Lemma from_mono p q u v s s' : q <= p → v <= u → from p u s s' → from q v s s'.
Proof. intros ?? [V G K U]. split; [done|done|by eapply keeps_mono|lia]. Qed.

(** What is thrown. *)
Class Exception (E : Type) := exception : E → value.
#[global] Instance value_exception : Exception value := λ v, v.
#[global] Instance thrown_exception : Exception thrown := fst.

Definition safe {E A} `{Exception E} (p u : Z) (P : t_state → A → Prop) (m : M E A) (s : t_state) : Prop :=
  valid s → u <= v_used s →
  match m s with
  | Returns a s' => from p u s s' ∧ P s' a
  | Throws e s' => from p u s s' ∧ value_ok (v_world s') (exception e)
  | Faults => False
  | Traps | Overflows | Exhausted => True
  end.

Definition anything {A} : t_state → A → Prop := λ _ _, True.
Definition a_value : t_state → value → Prop := λ s v, value_ok (v_world s) v.
Definition values : t_state → list value → Prop := λ s vs, Forall (value_ok (v_world s)) vs.

Section rules.
Context {E : Type} `{Exception E}.

Lemma safe_returns {A} p u (P : t_state → A → Prop) a s : P s a → safe p u P (mret a : M E A) s.
Proof. intros Ha Hv Hu. split; [by apply from_refl|done]. Qed.

Lemma safe_bind {A B} p u (Q : t_state → A → Prop) (P : t_state → B → Prop) (m : M E A) f s :
  safe p u Q m s → (∀ a s', from p u s s' → Q s' a → safe p u P (f a) s') → safe p u P (m ≫= f) s.
Proof.
  intros Hm Hf Hv Hu. specialize (Hm Hv Hu). unfold mbind, run_bind. destruct (m s) as [a s'|e s'| | | |]; try done.
  destruct Hm as [Hfr Ha]. specialize (Hf a s' Hfr Ha (f_valid _ _ _ _ Hfr) (f_used _ _ _ _ Hfr)).
  destruct (f a s') as [b s''|e s''| | | |]; try done; destruct Hf as [? ?]; (split; [by eapply from_trans|done]).
Qed.

Lemma safe_relax {A} p q u v (P Q : t_state → A → Prop) (m : M E A) s :
  p <= q → u <= v → v <= v_used s → safe q v Q m s → (∀ a s', from q v s s' → Q s' a → P s' a) → safe p u P m s.
Proof.
  intros Hp Huv Hvs Hm HP Hv Hu. specialize (Hm Hv Hvs). destruct (m s); try done; destruct Hm as [Hf ?]; (split; [eapply from_mono; [..|exact Hf]; lia|auto]).
Qed.

Lemma safe_given {A} p u (P : t_state → A → Prop) (m : M E A) s : (valid s → u <= v_used s → safe p u P m s) → safe p u P m s.
Proof. intros Hm Hv Hu. by apply Hm. Qed.

Lemma safe_raise {A} p u (P : t_state → A → Prop) (e : E) s : value_ok (v_world s) (exception e) → safe p u P (raise e) s.
Proof. intros He Hv Hu. split; [by apply from_refl|done]. Qed.

Lemma safe_reads {A B} p u (P : t_state → B → Prop) (f : t_state → A) (k : A → M E B) s :
  safe p u P (k (f s)) s → safe p u P (reads f ≫= k) s.
Proof. intros Hk. exact Hk. Qed.

Lemma safe_need {A B} p u (P : t_state → B → Prop) (o : option A) a (k : A → M E B) s :
  o = Some a → safe p u P (k a) s → safe p u P (need o ≫= k) s.
Proof. intros ->. done. Qed.

Lemma safe_get p u i s : 0 <= i → safe p u a_value (get i : M E value) s.
Proof.
  intros Hi Hv Hu. unfold get. rewrite (proj2 (Z.ltb_ge i 0)) by lia. destruct (v_estack s !! Z.to_nat i) as [[v|]|] eqn:Ei; [|done..].
  split; [by apply from_refl|]. exact (Forall_lookup_1 _ _ _ _ (i_stack _ Hv) Ei).
Qed.

Lemma safe_put p u i v s : 0 <= i → p <= i → value_ok (v_world s) v → safe p u anything (put i v : M E ()) s.
Proof.
  intros Hi Hp Hok Hv Hu. unfold put. rewrite (proj2 (Z.ltb_ge i 0)) by lia. destruct (decide _) as [Hlt|]; [|done].
  split; [|done]. split.
  - destruct Hv. split; cbn; try done. by apply Forall_insert.
  - split; cbn; [apply extends_refl| |by rewrite length_insert]. intros a b Ha. exists b. split; [done|apply same_body_refl].
  - unfold keeps. cbn. apply take_insert_ge. lia.
  - done.
Qed.

Lemma safe_get_all p u i n s : 0 <= i → safe p u values (get_all i n : M E (list value)) s.
Proof.
  revert i s. induction n as [|n IH]; intros i s Hi; cbn [get_all]; [by apply safe_returns; constructor|].
  eapply safe_bind; [by apply safe_get|]. intros v s1 F1 Hv. eapply safe_bind; [apply IH; lia|]. intros vs s2 F2 Hvs.
  apply safe_returns. constructor; [|done]. by eapply value_grows; [apply F2|].
Qed.

Lemma safe_put_all p u i vs s : 0 <= i → p <= i → Forall (value_ok (v_world s)) vs → safe p u anything (put_all i vs : M E ()) s.
Proof.
  revert i s. induction vs as [|v vs IH]; intros i s Hi Hp Hvs; cbn [put_all]; [by apply safe_returns|]. apply Forall_cons in Hvs as [? Hvs].
  eapply safe_bind; [by apply safe_put|]. intros [] s1 F1 _. apply IH; [lia|lia|].
  eapply Forall_impl; [exact Hvs|]. intros x. apply value_grows, F1.
Qed.

(** The slots of a new frame. *)
Lemma length_forget l i n : length (forget l i n) = length l.
Proof. revert i. induction n as [|n IH]; intros i; cbn; [done|]. by rewrite length_insert. Qed.

Lemma take_forget k l i n : (k <= i)%nat → take k (forget l i n) = take k l.
Proof. revert i. induction n as [|n IH]; intros i Hi; cbn; [done|]. rewrite take_insert_ge by lia. apply IH. lia. Qed.

Lemma forget_slots w l i n : Forall (slot_ok w) l → Forall (slot_ok w) (forget l i n).
Proof. intros Hl. revert i. induction n as [|n IH]; intros i; cbn; [done|]. by apply Forall_insert. Qed.

(** Moving the end of what is used, not below [u]. *)
Lemma safe_set_used {B} p u n (P : t_state → B → Prop) (k : () → M E B) s :
  0 <= n → u <= n → (∀ s', from p u s s' → v_used s' = n → safe p u P (k ()) s') → safe p u P (updates (set_used n) ≫= k) s.
Proof.
  intros Hn Hu Hk. apply (safe_bind _ _ (λ s' _, v_used s' = n)); [|intros [] s'; apply Hk]. intros Hv _. split; [|done]. split; cbn.
  - destruct Hv. by split.
  - split; cbn; [apply extends_refl| |done]. intros a b Ha. exists b. split; [done|apply same_body_refl].
  - done.
  - done.
Qed.

Lemma safe_world {B} p u w (P : t_state → B → Prop) (k : () → M E B) s :
  heap_ok w → extends (v_world s) w → same_types (v_world s) w →
  (∀ s', from p u s s' → v_world s' = w → safe p u P (k ()) s') → safe p u P (updates (set_world w) ≫= k) s.
Proof.
  intros Hw He Ht Hk. apply (safe_bind _ _ (λ s' _, v_world s' = w)); [|intros [] s'; apply Hk]. intros Hv Hu. split; [|done].
  destruct (valid_world s w Hv Hw He Ht) as [? ?]. split; [done|done|done|exact Hu].
Qed.

Lemma safe_attempt {E' A B} `{Exception E'} p u (Q : t_state → A → Prop) (P : t_state → B → Prop) (m : M E A) (k : E + A → M E' B) s :
  safe p u Q m s → (∀ a s', from p u s s' → Q s' a → safe p u P (k (inr a)) s') →
  (∀ e s', from p u s s' → value_ok (v_world s') (exception e) → safe p u P (k (inl e)) s') → safe p u P (attempt m ≫= k) s.
Proof.
  intros Hm Hr Hl Hv Hu. specialize (Hm Hv Hu). unfold attempt, mbind, run_bind. destruct (m s) as [a s'|e s'| | | |]; try done; destruct Hm as [Hf Ha].
  - specialize (Hr a s' Hf Ha (f_valid _ _ _ _ Hf) (f_used _ _ _ _ Hf)).
    destruct (k (inr a) s'); try done; destruct Hr as [? ?]; (split; [by eapply from_trans|done]).
  - specialize (Hl e s' Hf Ha (f_valid _ _ _ _ Hf) (f_used _ _ _ _ Hf)).
    destruct (k (inl e) s'); try done; destruct Hl as [? ?]; (split; [by eapply from_trans|done]).
Qed.
End rules.

Lemma safe_at_pc {A} p u (P : t_state → A → Prop) pc (m : M value A) s : safe p u P m s → safe p u P (at_pc pc m) s.
Proof. intros Hm Hv Hu. specialize (Hm Hv Hu). unfold at_pc. by destruct (m s). Qed.
End States.
