(* ===== verification/InterpObjects.v ===== *)
(** * The objects of the interpreter (Interp.v)

    The computations on objects do not fault: making and changing them, the
    accesses to members, and the steps outward through the scopes. *)
From stdpp Require Import base list numbers strings gmap.
From S2P Require Import Prelude Machine Layout Ast Types TypeLayout TypeAccess TypeSafety Operators Emit EmitSafety Interp InterpCode InterpState.
Local Open Scope Z_scope.

Section Objects.
Context `{Engine} `{Library} `{Numbers} `{Initializers} `{Allocator} `{TypeNames}.
Variable Γ : nat → list Z.
Abbreviation valid := (valid Γ).
Abbreviation safe := (safe Γ).
Abbreviation from := (from Γ).

(** ** New objects *)

Lemma bodies_grow_insert s a b : valid s → objects (v_world s) !! a = None → bodies_grow (v_bodies s) (<[a := b]> (v_bodies s)).
Proof.
  intros Hv Ha x bx Hx. destruct (decide (a = x)) as [<-|Hne].
  - destruct (i_objects _ _ Hv _ _ Hx) as [o Ho]. congruence.
  - exists bx. rewrite lookup_insert_ne by done. split; [done|apply same_body_refl].
Qed.

Lemma plain_instance w type o : heap_ok w → plain_type w type → o_type o = type → o_fields o = [] → o_data o = of_other →
  let w' := with_objects w (<[allocate (objects w) := o]> (objects w)) in
  heap_ok w' ∧ extends w w' ∧ value_ok w' (Object (allocate (objects w))) ∧ same_types w w'.
Proof.
  intros Hw (t & Ht & Hz & _ & Hg & Hp) Hty Hf Hd. cbn zeta.
  destruct (heap_ok_allocate w o Hw) as (Hw' & He & Ho).
  - intros He. split; [|rewrite Hf, Hd; split_and!; done]. exists t. rewrite Hty, Hf, Hd. split_and!; [by apply (extends_type _ _ He)|by rewrite Hz|].
    split; rewrite ?Hg, ?Hp; [done|by intros []].
  - split_and!; [done..|]. apply same_types_insert. by rewrite Hd.
Qed.

Lemma safe_new_object {E} `{Exception E} p u type b s :
  (engine_ok (v_world s) → plain_type (v_world s) type) → (valid s → body_ok Γ s b) →
  safe p u (λ s' a, value_ok (v_world s') (Object a) ∧ v_bodies s' !! a = Some b) (new_object type b : M E Z) s.
Proof.
  intros Ht Hb Hv Hu. specialize (Ht (i_engine _ _ Hv)). specialize (Hb Hv). unfold new_object. set (a := allocate (objects (v_world s))).
  destruct (plain_instance (v_world s) type (Object' type [] of_other) (i_heap _ _ Hv) Ht eq_refl eq_refl eq_refl) as (Hw & He & Ho & Hty).
  fold a in Hw, He, Ho, Hty. set (w := with_objects _ _) in *.
  destruct (valid_world Γ s w Hv Hw He Hty) as [V1 G1].
  assert (HB : bodies_grow (v_bodies s) (<[a := b]> (v_bodies s))) by (apply bodies_grow_insert; [done|apply allocate_fresh]).
  split; [|split; [exact Ho|apply lookup_insert_eq]]. split; [|split; [done|exact HB|done]|done|done].
  destruct V1. split; cbn in *; try done.
  - intros x bx [[<- <-]|[_ Hx]]%lookup_insert_Some; [exact Ho|by eapply i_objects].
  - intros x bx [[<- <-]|[_ Hx]]%lookup_insert_Some; [by apply (body_ok_grow Γ s)|].
    apply (body_ok_grow Γ s); [done|exact HB|]. by eapply (InterpState.i_bodies _ _ Hv).
Qed.

(** Another body for an object. *)
Lemma safe_put_body {E} `{Exception E} p u a b b' s :
  v_bodies s !! a = Some b → same_body b b' → body_ok Γ s b' → safe p u anything (put_body a b' : M E ()) s.
Proof.
  intros Ha Hs Hb Hv Hu. unfold put_body, updates. split; [|done].
  assert (HB : bodies_grow (v_bodies s) (<[a := b']> (v_bodies s))).
  { intros x bx Hx. destruct (decide (a = x)) as [<-|Hne]; [exists b'; rewrite lookup_insert_eq; split; [done|congruence]|].
    exists bx. rewrite lookup_insert_ne by done. split; [done|apply same_body_refl]. }
  split; [|split; [apply extends_refl|exact HB|done]|done|done].
  destruct Hv. split; cbn; try done.
  - intros x bx [[<- _]|[_ Hx]]%lookup_insert_Some; by eapply i_objects.
  - intros x bx [[<- <-]|[_ Hx]]%lookup_insert_Some; (apply (body_ok_grow Γ s); [apply extends_refl|exact HB|]); [done|by eapply i_bodies].
Qed.

(** ** Exceptions and results *)

Lemma safe_throw {A} p u (P : t_state → A → Prop) a_message s : safe p u P (f_throw a_message) s.
Proof.
  eapply safe_bind; [apply safe_new_object; [apply e_throwable|done]|]. intros a s1 F1 [Ha _]. by apply safe_raise.
Qed.

Lemma safe_outcome {A} p u (P : t_state → A → Prop) (o : outcome A) s :
  match o with Ok a => P s a | Throw _ => True | Fault => False end → safe p u P (of_outcome o) s.
Proof. destruct o; cbn; [apply safe_returns|intros _; apply safe_throw|done]. Qed.

Lemma safe_operator {A} p u (P : t_state → A → Prop) (o : outcome A) s :
  match o with Ok a => P s a | _ => True end → safe p u P (of_operator o) s.
Proof. destruct o; cbn; [apply safe_returns|intros _; apply safe_throw|done]. Qed.

(** ** Members *)

(** The kind of an answer. *)
Definition replies (a : access) (r : answer) : Prop :=
  match a, r with
  | Get _ _, Got _ _ | Bind _ _, Bound _ _ | Put _ _ _, Done _ | Has _ _, Whether _ | Invoke _ _, Invoked _ _ => True
  | _, _ => False
  end.

Lemma refer_replies w a r : refer w a = Ok r → replies a r.
Proof.
  assert (HB : ∀ A (o : outcome A) (f : A → outcome answer), (∀ x, f x = Ok r → replies a r) → o ≫= f = Ok r → replies a r).
  { intros A [x| |] f Hf; cbn; try done. apply Hf. }
  assert (HP : ∀ A (o : outcome (A * world)) (f : A * world → outcome answer), (∀ x w, f (x, w) = Ok r → replies a r) → o ≫= f = Ok r → replies a r).
  { intros A o f Hf. apply HB. intros [x w']. apply Hf. }
  destruct a as [this k|this k|this k x|this k|this k]; cbn [refer].
  - apply HB. intros t. apply HP. by intros v w' [= <-].
  - apply HB. intros t. apply HP. by intros v w' [= <-].
  - apply HB. intros p. apply HB. intros t. apply HB. by intros w' [= <-].
  - destruct this; try by intros [= <-]. apply HB. by intros t [= <-].
  - apply HB. intros t. apply HP. by intros c w' [= <-].
Qed.

Lemma safe_access p u site a s :
  access_ok (v_world s) a →
  safe p u (λ s' r, replies a r ∧ answer_ok (v_world s') (Ok r) ∧ ∀ w, answer_world r = Some w → same_types (v_world s') w) (access_at site a) s.
Proof.
  intros Ha Hv Hu. unfold access_at.
  assert (Hi : index_range (default 0 (v_caches s !! site))).
  { destruct (v_caches s !! site) as [i|] eqn:Ei; [by eapply i_caches|done]. }
  destruct (perform_yields (v_world s) a (heap_world_ok _ (i_heap _ _ Hv)) _ Hi) as [Hr Hi'].
  destruct (perform (v_world s) a _) as [r i] eqn:Ep. cbn [fst snd] in *. subst r.
  pose proof (refer_safe (v_world s) a (i_heap _ _ Hv) Ha) as Hs. set (s1 := set_caches _ s).
  assert (F1 : from p u s s1).
  { split; [|split; [apply extends_refl| |done]|done|done]; [|intros x b Hx; exists b; split; [done|apply same_body_refl]].
    destruct Hv. split; cbn; try done. intros x j [[_ <-]|[_ Hx]]%lookup_insert_Some; [done|by eapply i_caches]. }
  assert (HS : safe p u (λ s' r, replies a r ∧ answer_ok (v_world s') (Ok r) ∧ ∀ w, answer_world r = Some w → same_types (v_world s') w)
                 (of_outcome (refer (v_world s) a)) s1).
  { apply safe_outcome. destruct (refer (v_world s) a) as [r| |] eqn:Er; try done. split; [by eapply refer_replies|]. split; [done|]. intros w. by apply (refer_same (v_world s) a r). }
  specialize (HS (f_valid _ _ _ _ _ F1) (f_used _ _ _ _ _ F1)).
  destruct (of_outcome _ s1); try done; destruct HS as [? ?]; (split; [by eapply from_trans|done]).
Qed.

(** The type of a value. *)
Lemma safe_type p u v s :
  value_ok (v_world s) v → safe p u (λ s' a, ∃ t, type_at (v_world s') a = Ok t) (of_outcome (f_type (v_world s) v)) s.
Proof.
  intros Hv. apply safe_given. intros Hs _. apply safe_outcome. destruct (type_of_ok _ v (i_heap _ _ Hs) Hv) as (a & t & -> & Ht & _). by exists t.
Qed.

Lemma type_value w a t : type_at w a = Ok t → value_ok w (Object a).
Proof. unfold type_at, object_at. cbn. destruct (objects w !! a); [by eexists|done]. Qed.

(** ** Scopes *)

Lemma scope_lookup {E} a l o s : v_bodies s !! a = Some (body_scope l o) → (scope_at a : M E _) s = Returns (l, o) s.
Proof. intros Ha. unfold scope_at, body_at, mbind, run_bind, reads. by rewrite Ha. Qed.

(** Steps outward to a scope that has the variable. *)
Lemma safe_outward {E} `{Exception E} p u n a sizes size s :
  shaped (v_bodies s) a sizes → sizes !! n = Some size →
  safe p u (λ s' b, ∃ l o, v_bodies s' !! b = Some (body_scope l o) ∧ Z.of_nat (length l) = size) (outward n a : M E Z) s.
Proof.
  revert a sizes. induction n as [|n IH]; intros a sizes Hs Hn; cbn [outward].
  - apply safe_returns. destruct sizes as [|n sizes]; [done|]. injection Hn as ->. destruct Hs as (l & o & Ha & Hl & _). by exists l, o.
  - destruct sizes as [|k sizes]; [done|]. destruct Hs as (l & o & Ha & Hl & Hr). cbn in Hn. destruct sizes as [|k' sizes]; [done|].
    destruct Hr as (b & -> & Hb). intros Hv Hu. specialize (IH b (k' :: sizes) Hb Hn Hv Hu).
    unfold mbind at 1, run_bind at 1. rewrite (scope_lookup _ _ _ _ Ha). cbn. exact IH.
Qed.

Lemma safe_get_entry {E} `{Exception E} p u a i l o s :
  v_bodies s !! a = Some (body_scope l o) → 0 <= i < Z.of_nat (length l) → safe p u a_value (get_entry a i : M E value) s.
Proof.
  intros Ha Hi Hv Hu. unfold get_entry, mbind, run_bind. rewrite (scope_lookup _ _ _ _ Ha). rewrite (proj2 (Z.leb_le 0 i)) by lia.
  destruct (lookup_lt_is_Some_2 l (Z.to_nat i)) as [v Hl]; [lia|]. rewrite Hl. cbn. split; [by apply from_refl|].
  pose proof (i_bodies _ _ Hv _ _ Ha) as Hb. cbn in Hb. eapply (Forall_lookup_1 _ _ _ _ Hb), Hl.
Qed.

Lemma safe_put_entry {E} `{Exception E} p u a i v l o s :
  v_bodies s !! a = Some (body_scope l o) → 0 <= i < Z.of_nat (length l) → value_ok (v_world s) v →
  safe p u anything (put_entry a i v : M E ()) s.
Proof.
  intros Ha Hi Hok Hv Hu. unfold put_entry, mbind at 1, run_bind at 1. rewrite (scope_lookup _ _ _ _ Ha). rewrite decide_True by done.
  apply (safe_put_body p u a (body_scope l o)); [done|cbn; by rewrite length_insert| |done|done].
  pose proof (i_bodies _ _ Hv _ _ Ha) as Hb. cbn in *. by apply Forall_insert.
Qed.

(** ** Tuples *)

Lemma safe_new_tuple {E} `{Exception E} p u l s : Forall (value_ok (v_world s)) l → safe p u a_value (new_tuple l : M E value) s.
Proof.
  intros Hl. eapply safe_bind; [apply safe_new_object; [apply e_tuple|done]|]. intros a s1 F1 [Ha _]. by apply safe_returns.
Qed.

Lemma safe_tuple_at {E} `{Exception E} p u a l s : v_bodies s !! a = Some (body_tuple l) → safe p u values (tuple_at a : M E (list value)) s.
Proof.
  intros Ha Hv Hu. unfold tuple_at, body_at, mbind, run_bind, reads. rewrite Ha. cbn. split; [by apply from_refl|]. by apply (i_bodies _ _ Hv _ _ Ha).
Qed.

(** ** Backtraces *)

Lemma safe_backtrace {E} `{Exception E} p u v a pc s : safe p u anything (f_backtrace v a pc : M E ()) s.
Proof.
  unfold f_backtrace. destruct v as [| | | |x]; try by apply safe_returns.
  apply safe_reads. destruct (v_bodies s !! x) as [[]|] eqn:Ex; try by apply safe_returns. by eapply safe_put_body.
Qed.

(** Members of the state that stay. *)
Lemma lambda_grows s s' a b : grows s s' → v_bodies s !! a = Some b →
  match b with body_lambda _ _ | body_advanced _ _ _ | body_tuple _ => v_bodies s' !! a = Some b | _ => True end.
Proof.
  intros G Ha. destruct (w_bodies _ _ G _ _ Ha) as (b' & Hb' & Hs). destruct b; try done; cbn in Hs; by rewrite Hb', Hs.
Qed.
End Objects.
