(* ===== verification/InterpCalls.v ===== *)
(** * Calls (Interp.v)

    What a machine has to do, and that the calls of a machine made from such a
    one do it: they do not fault, and they leave the stack below the callee as
    it was. *)
From stdpp Require Import base list numbers strings gmap.
From S2P Require Import Prelude Machine Layout Ast Types TypeLayout TypeAccess TypeSafety Operators Emit EmitSafety Interp InterpCode InterpState InterpObjects.
Local Open Scope Z_scope.

(** ** The library

    What the interpreter takes for granted about the functions of native
    types: like its own, they do not fault as long as what they call back does
    not, they use the stack only above what is in use, and a class whose
    instances they do not make has plain instances.  A native function may trap:
    that stands for whatever it does that C++ leaves undefined, as [Bytes] of a
    negative size does ([bytes_of_negative_size] of Bytes.v).  The native
    functions of lists, maps, strings and bytes are modelled by themselves, in
    ListBuf.v, HashMap.v, Text.v, Keys.v and Bytes.v. *)
Class LibraryLaws `{Engine} `{Library} (Γ : nat → list Z) : Prop := {
  library_safe callback op a self xs s :
    (∀ f ys t, value_ok (v_world t) f → Forall (value_ok (v_world t)) ys → safe Γ (v_used t) (v_used t) a_value (callback f ys) t) →
    overrides s a op = true → value_ok (v_world s) (Object a) → value_ok (v_world s) self → Forall (value_ok (v_world s)) xs →
    safe Γ (v_used s) (v_used s) a_value (library callback op a self xs) s;
  list_values s a l : valid Γ s → list_at s a = Some l → Forall (value_ok (v_world s)) l;
  plain_classes s a o t : valid Γ s → overrides s a op_call = false → objects (v_world s) !! a = Some o → o_data o = of_type t →
    v_get (v_native t) = object_do_get ∧ v_put (v_native t) = object_do_put;
}.

Section Calls.
Context `{Engine} `{Library} `{Numbers} `{Initializers} `{Allocator} `{TypeNames}.
Variable Γ : nat → list Z.
Abbreviation valid := (valid Γ).
Abbreviation safe := (safe Γ).
Abbreviation from := (from Γ).

(** ** Computations that end a loop

    They may leave less of the stack in use than [u], but throw with [u] at
    least in use. *)
Definition ends {E A} `{Exception E} (p u : Z) (P : t_state → A → Prop) (m : M E A) (s : t_state) : Prop :=
  valid s → u <= v_used s →
  match m s with
  | Returns a s' => from p 0 s s' ∧ P s' a
  | Throws e s' => from p u s s' ∧ value_ok (v_world s') (exception e)
  | Faults => False
  | Traps | Overflows | Exhausted => True
  end.

Section rules.
Context {E : Type} `{Exception E}.

Lemma ends_bind {A B} p u (Q : t_state → A → Prop) (P : t_state → B → Prop) (m : M E A) f s :
  safe p u Q m s → (∀ a s', from p u s s' → Q s' a → ends p u P (f a) s') → ends p u P (m ≫= f) s.
Proof.
  intros Hm Hf Hv Hu. specialize (Hm Hv Hu). unfold mbind, run_bind. destruct (m s) as [a s'|e s'| | | |]; try done.
  destruct Hm as [Hfr Ha]. specialize (Hf a s' Hfr Ha (f_valid _ _ _ _ _ Hfr) (f_used _ _ _ _ _ Hfr)).
  pose proof (i_used _ _ (f_valid _ _ _ _ _ Hfr)).
  assert (F0 : from p 0 s s') by (destruct Hfr; split; done).
  destruct (f a s') as [b s''|e s''| | | |]; try done; destruct Hf as [? ?]; (split; [eapply from_trans; eassumption|done]).
Qed.

Lemma ends_safe {A} p u (Q P : t_state → A → Prop) (m : M E A) s :
  safe p u Q m s → (∀ a s', from p u s s' → Q s' a → P s' a) → ends p u P m s.
Proof.
  intros Hm HP Hv Hu. specialize (Hm Hv Hu). destruct (m s) as [a s'|e s'| | | |]; try done; destruct Hm as [Hf ?].
  split; [|by apply HP]. pose proof (i_used _ _ (f_valid _ _ _ _ _ Hf)). destruct Hf; by split.
Qed.

Lemma ends_reads {A B} p u (P : t_state → B → Prop) (f : t_state → A) (k : A → M E B) s :
  ends p u P (k (f s)) s → ends p u P (reads f ≫= k) s.
Proof. intros Hk. exact Hk. Qed.

Lemma ends_need {A B} p u (P : t_state → B → Prop) (o : option A) a (k : A → M E B) s :
  o = Some a → ends p u P (k a) s → ends p u P (need o ≫= k) s.
Proof. intros ->. done. Qed.

Lemma ends_given {A} p u (P : t_state → A → Prop) (m : M E A) s : (valid s → u <= v_used s → ends p u P m s) → ends p u P m s.
Proof. intros Hm Hv Hu. by apply Hm. Qed.

Lemma ends_seq {A B} p u (Q : t_state → A → Prop) (P : t_state → B → Prop) (m : M E A) f s :
  ends p u Q m s →
  (∀ a s', from p 0 s s' → Q s' a → (u <= v_used s' ∧ ends p u P (f a) s') ∨ ∃ b, f a s' = Returns b s' ∧ P s' b) →
  ends p u P (m ≫= f) s.
Proof.
  intros Hm Hf Hv Hu. specialize (Hm Hv Hu). unfold mbind, run_bind. destruct (m s) as [a s'|e s'| | | |]; try done.
  destruct Hm as [Hfr Ha]. destruct (Hf a s' Hfr Ha) as [[Hu' Hfa]|(b & -> & Hb)]; [|done].
  assert (F : from p u s s') by (destruct Hfr; split; done).
  specialize (Hfa (f_valid _ _ _ _ _ Hfr) Hu'). destruct (f a s') as [b s''|e s''| | | |]; try done; destruct Hfa as [? ?];
    (split; [eapply from_trans; eassumption|done]).
Qed.

Lemma ends_mono {A} p u (P Q : t_state → A → Prop) (m : M E A) s :
  ends p u Q m s → (∀ a s', from p 0 s s' → Q s' a → P s' a) → ends p u P m s.
Proof. intros Hm HP Hv Hu. specialize (Hm Hv Hu). destruct (m s); try done; destruct Hm; (split; [done|auto]). Qed.
End rules.

Lemma ends_at_pc {A} p u (P : t_state → A → Prop) pc (m : M value A) s : ends p u P m s → ends p u P (at_pc pc m) s.
Proof. intros Hm Hv Hu. specialize (Hm Hv Hu). unfold at_pc. by destruct (m s). Qed.

(** ** What a machine does *)

(** A context of the state: its code, and the scopes of its lambda. *)
Record context_ok (c : t_context) (code : t_code) (s : t_state) : Prop := {
  x_code : codes !! c_code c = Some code;
  x_base : 2 <= v_base c;
  x_previous : 0 <= v_previous c;
  x_lambda : ∃ b scope, v_bodies s !! v_lambda c = Some b ∧ (b = body_lambda scope (c_code c) ∨ ∃ d, b = body_advanced scope (c_code c) d) ∧
    shaped (v_bodies s) scope (Γ (c_code c));
  x_scope : code_shared code = true → ∃ a, c_scope c = Some a ∧ shaped (v_bodies s) a (code_shareds code :: Γ (c_code c));
}.

Definition frame_top (c : t_context) (code : t_code) : Z := v_base c + code_size code.

(** How a loop that began in a region ends. *)
Definition exits (c : t_context) (code : t_code) (R : t_regions) (ρ : t_region) (s : t_state) (x : Z * nat) : Prop :=
  match ρ with
  | Outermost => v_previous c <= v_used s ∧ -1 <= x.1
  | Guarded _ j k r _ =>
    frame_top c code <= v_used s ∧
      ((x.1 = c_try c_try__CATCH ∧ ∃ n i p sh ix, x.2 = address (take n (code_instructions code)) ∧
          code_instructions code !! n = Some i ∧ i = CATCH p sh ix ∧ R !! n = Some (Some ρ))
       ∨ ∃ t, x.1 = c_try t ∧ t ≠ c_try__CATCH ∧ allowed j k r t = true)
  | Finally _ _ _ _ =>
    frame_top c code <= v_used s ∧ ∃ n i y1 y2 y3, x.2 = address (take n (code_instructions code)) ∧
      code_instructions code !! n = Some i ∧ i = YRT y1 y2 y3 ∧ R !! n = Some (Some ρ)
  end.

Record machine_ok (m : t_machine) : Prop := {
  k_loop c code R ρ pc s : context_ok c code s → structured (code_instructions code) R → located (code_instructions code) R pc ρ →
    ends (v_base c - 2) (frame_top c code) (exits c code R ρ) (m_loop m c pc) s;
  k_clauses c code R n j k r o e pc s : context_ok c code s → structured (code_instructions code) R →
    located (code_instructions code) R pc (Guarded n j k r o) → 0 <= n → value_ok (v_world s) (e.1) →
    safe (v_base c - 2) (frame_top c code) (λ _ x, ∃ t, x = c_try t ∧ t ≠ c_try__CATCH ∧ allowed j k r t = true)
      (m_clauses m c (v_base c + n) e pc) s;
  k_call v p n s : 0 <= p <= v_used s → 0 <= n → value_ok (v_world s) v →
    safe p (v_used s) (λ _ n, -1 <= n) (m_call m v p n) s;
  k_finish p n s : 0 <= p <= v_used s → 0 <= n → safe p (v_used s) anything (m_finish m p n) s;
}.

Section Step.
Variable m : t_machine.
Hypothesis Hm : machine_ok m.

(** What follows a call. *)
Lemma safe_finish q u p n s : q <= p → 0 <= p <= v_used s → u <= v_used s → -1 <= n →
  safe q u anything (if n =? -1 then mret () else m_finish m p n) s.
Proof.
  intros Hq Hp Hu Hn. case_tests; [by apply safe_returns|].
  eapply (safe_relax _ q p u (v_used s)); [done|done|done|apply (k_finish m Hm); lia|done].
Qed.

Lemma safe_call q u v p n s : q <= p → 0 <= p <= v_used s → u <= v_used s → 0 <= n → value_ok (v_world s) v →
  safe q u anything (call m v p n) s.
Proof.
  intros Hq Hp Hu Hn Hv. eapply (safe_relax _ q p u (v_used s)); [done|done|done| |done].
  unfold call. eapply safe_bind; [by apply (k_call m Hm)|]. intros n' s1 F1 Hn'. cbn in Hn'. pose proof (f_used _ _ _ _ _ F1).
  apply safe_finish; lia.
Qed.

Lemma safe_finish_step p n s : 0 <= p <= v_used s → 0 <= n → safe p (v_used s) anything (finish_step m p n) s.
Proof.
  intros Hp Hn. unfold finish_step. eapply safe_bind; [apply safe_get; lia|]. intros v s1 F1 Hv. pose proof (f_used _ _ _ _ _ F1).
  apply safe_call; first [lia|done].
Qed.

(** The end of a [t_scoped_stack]: the result is at its beginning. *)
Lemma safe_scoped q u p {A} (Q : t_state → A → Prop) (n : M value A) s :
  q <= p → u <= p → 0 <= p → safe q u Q n s →
  safe q u a_value (r ← attempt n;
    match r with inr _ => v ← get p; _ ← updates (set_used p); mret v | inl e => _ ← updates (set_used p); raise e end) s.
Proof.
  intros Hq Hu Hp Hn. eapply safe_attempt; [exact Hn| |].
  - intros a s1 F1 _. eapply safe_bind; [by apply safe_get|]. intros v s2 F2 Hv.
    apply safe_set_used; [done|done|]. intros s3 F3 _. apply safe_returns. by eapply value_grows; [apply F3|].
  - intros e s1 F1 He. apply safe_set_used; [done|done|]. intros s2 F2 _. apply safe_raise. by eapply value_grows; [apply F2|].
Qed.

(** A call from the library. *)
Lemma safe_callback f xs s : value_ok (v_world s) f → Forall (value_ok (v_world s)) xs →
  safe (v_used s) (v_used s) a_value (callback m f xs) s.
Proof.
  intros Hf Hxs. apply safe_given. intros Hv _. pose proof (i_used _ _ Hv) as Hu0. unfold callback. apply safe_reads. set (p := v_used s) in *.
  apply safe_set_used; [lia|lia|]. intros s1 F1 U1.
  eapply safe_bind; [apply safe_put_all; [lia|lia|]|].
  { eapply Forall_impl; [exact Hxs|]. intros x. apply value_grows, F1. }
  intros [] s2 F2 _. eapply safe_bind; [apply safe_put; [lia|lia|done]|]. intros [] s3 F3 _.
  eapply (safe_scoped p p p); [lia|lia|lia|]. apply safe_given. intros V3 U3.
  apply safe_call; [lia|lia|lia|lia|]. repeat (eapply value_grows; [apply F3 || apply F2 || apply F1|]). done.
Qed.

(** ** The operators of types *)

Lemma method_index_range op : 0 <= method_index op < 25.
Proof. destruct op; cbn; lia. Qed.

Lemma safe_bind_operator q u op a p n s : q <= p → 0 <= p → 0 <= n → value_ok (v_world s) (Object a) →
  safe q u (λ _ n, -1 <= n) (bind_operator op a p n) s.
Proof.
  intros Hq Hp Hn Ha. apply safe_given. intros Hv _. unfold bind_operator. apply safe_reads.
  destruct (type_of_ok _ (Object a) (i_heap _ _ Hv) Ha) as (x & t & Hx & Ht & Hty & _).
  pose proof (method_index_range op). pose proof Hty as (_ & Hvi & _). destruct (i_types _ _ Hv _ _ Ht) as [Hf _].
  destruct (f_bind_class_safe (v_world s) x t (Object a) (v_instance_fields t + method_index op) (i_heap _ _ Hv) Ht Ha ltac:(lia)) as (b & Hb & Hb1 & Hb2).
  eapply (safe_bind _ _ _ (λ s' x, x = (b, method_arguments op n) ∧ v_world s' = v_world s)).
  { apply safe_outcome. unfold f_do_method. rewrite Hx. cbn [mbind outcome_bind]. rewrite Ht. cbn [mbind outcome_bind]. rewrite Hb. done. }
  intros ? s1 F1 [-> E1]. eapply safe_bind; [apply safe_put; [lia|lia|by rewrite E1]|]. intros [] s2 F2 _.
  eapply safe_bind; [apply safe_put; [lia|lia|]|]; [eapply value_grows; [apply F2|]; by rewrite E1|]. intros [] s3 F3 _.
  apply safe_returns. destruct op; cbn; lia.
Qed.

Lemma safe_native q u op a self k p s `{!LibraryLaws Γ} : q <= p → u <= v_used s → 0 <= p <= v_used s → value_ok (v_world s) (Object a) → overrides s a op = true →
  value_ok (v_world s) self → Forall (value_ok (v_world s)) k →
  safe q u (λ _ n, -1 <= n) (r ← library (callback m) op a self k; _ ← put p r; mret (-1)) s.
Proof.
  intros Hq Hu Hp Ha Ho Hs Hk.
  eapply safe_bind.
  { eapply (safe_relax _ q (v_used s) u (v_used s)); [lia|done|done| |intros ? ? _ Hx; exact Hx].
    apply library_safe; [|done..]. intros f ys t Hf Hys. by apply safe_callback. }
  intros r s1 F1 Hr. eapply safe_bind; [apply safe_put; [lia|lia|done]|]. intros [] s2 F2 _. apply safe_returns. lia.
Qed.

(** A read of the stack does not change the state. *)
Lemma get_same {E} `{Exception E} {B} p u i (P : t_state → B → Prop) (k : value → M E B) s :
  0 <= i → (∀ v, value_ok (v_world s) v → safe p u P (k v) s) → safe p u P (get i ≫= k) s.
Proof.
  intros Hi Hk Hv Hu. pose proof (safe_get Γ p u i s Hi Hv Hu) as Hg. unfold get, mbind, run_bind in *.
  destruct (i <? 0); [done|]. destruct (v_estack s !! Z.to_nat i) as [[v|]|]; [|done..]. destruct Hg as [_ Hg]. by apply Hk.
Qed.

Lemma get_all_same {E} `{Exception E} {B} p u i n (P : t_state → B → Prop) (k : list value → M E B) s :
  0 <= i → (∀ vs, Forall (value_ok (v_world s)) vs → safe p u P (k vs) s) → safe p u P (get_all i n ≫= k) s.
Proof.
  intros Hi Hk Hv Hu.
  assert (HG : match (get_all i n : M E (list value)) s with
               | Returns vs s' => s' = s ∧ Forall (value_ok (v_world s)) vs | Throws _ _ | Faults => False | _ => True end).
  { clear Hk. revert i Hi. induction n as [|n IH]; intros i Hi; cbn; [done|]. pose proof (safe_get Γ 0 u i s Hi Hv Hu) as Hg.
    unfold mbind, run_bind, get in *. destruct (i <? 0); [done|]. destruct (v_estack s !! Z.to_nat i) as [[v|]|]; [|done..].
    specialize (IH (i + 1) ltac:(lia)). destruct (get_all (i + 1) n s); try done. destruct IH as [-> ?]. destruct Hg as [_ Hg]. split; [done|]. by constructor. }
  unfold mbind, run_bind. destruct (get_all i n s) as [vs s'|? ?| | | |]; try done. destruct HG as [-> ?]. by apply Hk.
Qed.

Context `{!LibraryLaws Γ}.

Lemma safe_object {B} q u v (P : t_state → B → Prop) (k : Z → M value B) s :
  (∀ a, v = Object a → safe q u P (k a) s) → safe q u P (of_outcome (f_object_or_throw v) ≫= k) s.
Proof.
  intros Hk. destruct v as [| | | |a]; [..|by apply Hk].
  all: eapply (safe_bind _ _ _ (λ _ _, False)); [by apply safe_outcome|done].
Qed.

Lemma safe_operate q u op a p s : q <= p → u <= v_used s → 0 <= p <= v_used s → value_ok (v_world s) (Object a) →
  safe q u (λ _ n, -1 <= n) (operate m op a p) s.
Proof.
  intros Hq Hu Hp Ha. unfold operate. apply safe_reads. destruct (overrides s a op) eqn:Ho.
  { apply get_all_same; [lia|]. intros xs Hxs. by apply safe_native. }
  apply safe_reads.
  assert (Hdef : safe q u (λ _ n, -1 <= n) (bind_operator op a p 0) s) by (apply safe_bind_operator; done || lia).
  assert (Hlam : safe q u (λ _ n, -1 <= n)
    (x ← get (p + 2); w ← reads v_world; '(v, w) ← of_outcome (new_method w (Object a) x); _ ← updates (set_world w); _ ← put p v; mret (-1)) s).
  { apply get_same; [lia|]. intros x Hx. apply safe_given. intros Hv _. apply safe_reads.
    pose proof (new_method_safe (v_world s) a x (i_heap _ _ Hv) Ha Hx) as Hn.
    eapply (safe_bind _ _ _ (λ s' x, v_world s' = v_world s ∧ heap_ok (x.2) ∧ extends (v_world s) (x.2) ∧ value_ok (x.2) (x.1) ∧ same_types (v_world s) (x.2))).
    { apply safe_outcome. destruct (new_method _ _ _) as [[v w]| |] eqn:En; try done. destruct Hn as (? & ? & ?).
      split_and!; try done. by eapply new_method_same. }
    intros [v w] s1 F1 (E1 & Hw & He & Hvv & Hty). cbn in *. apply safe_world; [done|by rewrite E1|by rewrite E1|]. intros s2 F2 E2.
    eapply safe_bind; [apply safe_put; [lia|lia|by rewrite E2]|]. intros [] s3 F3 _. apply safe_returns. lia. }
  destruct op; try exact Hdef. destruct (v_bodies s !! a) as [[]|]; first [exact Hdef|exact Hlam].
Qed.

(** ** Calls *)

Lemma do_instantiate_same w a v c w' : f_do_instantiate w a = Ok (v, c, w') → same_types w w'.
Proof.
  unfold f_do_instantiate, f_do_construct. destruct (type_at w a) as [t| |]; cbn [mbind outcome_bind]; try done.
  set (w1 := with_objects _ _). destruct (type_at w1 a) as [t'| |]; cbn [mbind outcome_bind]; try done.
  destruct (f_invoke_class _ _ _ _); cbn; try done. intros [= _ _ <-]. by apply same_types_insert.
Qed.

Lemma safe_instantiate q a o t p n s : q <= p → 0 <= p <= v_used s → 0 <= n →
  objects (v_world s) !! a = Some o → o_data o = of_type t → v_get (v_native t) = object_do_get → v_put (v_native t) = object_do_put →
  safe q (v_used s) anything (instantiate m a p n) s.
Proof.
  intros Hq Hp Hn Ha Hd Hg Hpu. apply safe_given. intros Hv _. unfold instantiate. apply safe_reads.
  assert (Ht : type_at (v_world s) a = Ok t) by (unfold type_at, object_at; rewrite Ha; cbn; by rewrite Hd).
  destruct (i_types _ _ Hv _ _ Ht) as [Hf _].
  pose proof (f_do_instantiate_safe (v_world s) a t (i_heap _ _ Hv) Ht ltac:(lia) Hg Hpu) as Hi.
  eapply (safe_bind _ _ _ (λ s' x, v_world s' = v_world s ∧ heap_ok (x.2) ∧ extends (v_world s) (x.2) ∧ value_ok (x.2) (x.1.1) ∧ call_ok (x.2) (x.1.2) ∧ same_types (v_world s) (x.2))).
  { apply safe_outcome. destruct (f_do_instantiate _ _) as [[[v c] w]| |] eqn:Ei; try done. destruct Hi as (? & ? & ? & ?). split_and!; try done.
    by eapply do_instantiate_same. }
  intros [[v c] w] s1 F1 (E1 & Hw & He & Hvv & [Hc Hr] & Hty). cbn in *. apply safe_world; [done|by rewrite E1|by rewrite E1|]. intros s2 F2 E2.
  pose proof (f_used _ _ _ _ _ F2).
  eapply (safe_bind _ _ _ anything). { destruct (receiver c) as [r|]; [apply safe_put; [lia|lia|by rewrite E2]|by apply safe_returns]. }
  intros [] s3 F3 _. pose proof (f_used _ _ _ _ _ F3).
  eapply safe_bind; [apply safe_call; [lia|lia|lia|lia|]; eapply value_grows; [apply F3|]; by rewrite E2|].
  intros [] s4 F4 _. apply safe_put; [lia|lia|]. do 2 (eapply value_grows; [apply F4 || apply F3|]). by rewrite E2.
Qed.

Lemma safe_fill q u code d p n s : q <= p → 0 <= p → 0 <= n → signature_ok code →
  (d = None → code_arguments code - (if code_variadic code then 1 else 0) <= code_minimum code) →
  (∀ a, d = Some a → ∃ l, v_bodies s !! a = Some (body_tuple l)) →
  safe q u anything (fill_arguments code d p n) s.
Proof.
  intros Hq Hp Hn (Hmin & Hsig & _) Hnone Hsome. unfold fill_arguments. set (arguments := if code_variadic code then code_arguments code - 1 else code_arguments code).
  assert (Harg : arguments = code_arguments code - (if code_variadic code then 1 else 0)) by (subst arguments; destruct (code_variadic code); lia).
  destruct (Z.ltb_spec n (code_minimum code)); [apply safe_throw|].
  destruct (negb (code_variadic code) && (arguments <? n)); [apply safe_throw|]. destruct (Z.ltb_spec n arguments).
  - destruct d as [a|]; [|specialize (Hnone eq_refl); lia]. destruct (Hsome a eq_refl) as [l Hl].
    eapply safe_need; [done|]. eapply safe_bind; [by eapply safe_tuple_at|]. intros xs s1 F1 Hxs.
    eapply safe_bind; [apply safe_put_all; [lia|lia|by apply Forall_drop]|]. intros [] s2 F2 _.
    destruct (code_variadic code); [|by apply safe_returns]. eapply safe_bind; [by apply safe_new_tuple|]. intros t s3 F3 Ht. apply safe_put; [lia|lia|done].
  - destruct (code_variadic code); [|by apply safe_returns]. apply get_all_same; [lia|]. intros xs Hxs.
    eapply safe_bind; [by apply safe_new_tuple|]. intros t s3 F3 Ht. apply safe_put; [lia|lia|done].
Qed.

(** The scope of a lambda that has shared variables. *)
Lemma own_scope_made code k scope s : codes !! k = Some code → 0 <= code_shareds code → shaped (v_bodies s) scope (Γ k) → valid s →
  ∃ own s', new_scope code scope s = Returns own s' ∧ from (v_used s) (v_used s) s s' ∧ v_used s' = v_used s ∧
    (code_shared code = true → ∃ a, own = Some a ∧ shaped (v_bodies s') a (code_shareds code :: Γ k)).
Proof.
  intros Hc Hsh Hs Hv. unfold new_scope. destruct (code_shared code).
  - set (b := body_scope _ _).
    assert (HN : safe (v_used s) (v_used s) (λ s' a, value_ok (v_world s') (Object a) ∧ v_bodies s' !! a = Some b) (new_object type_of_scope b : M value Z) s).
    { apply safe_new_object; [apply e_scope|]. intros _. subst b. cbn. by apply Forall_replicate. }
    specialize (HN Hv (Z.le_refl _)). unfold new_object, mbind, run_bind in *. destruct HN as [F [_ Ha]].
    pose proof (shaped_grow _ _ _ _ (w_bodies _ _ (f_grows _ _ _ _ _ F)) Hs) as Hs'.
    eexists _, _. split; [reflexivity|]. split; [exact F|]. split; [done|]. intros _. eexists. split; [done|].
    cbn [shaped]. eexists _, _. split; [exact Ha|]. split; [rewrite length_replicate; lia|]. destruct (Γ k); [done|].
    exists scope. split; [done|exact Hs'].
  - eexists _, s. split; [reflexivity|]. split; [by apply from_refl|]. by split.
Qed.

Hypothesis Hprogram : program_ok Γ.

Lemma start_located code R : structured code R → located code R 0 Outermost.
Proof.
  intros (Hl & Hz & _). destruct code as [|i code]; [destruct R; done|]. exists 0%nat, i. by split_and!.
Qed.

Lemma backtrace_returns {E} v a pc s : ∃ s', (f_backtrace v a pc : M E ()) s = Returns () s'.
Proof.
  unfold f_backtrace. destruct v as [| | | |x]; try by eexists. unfold mbind, run_bind, reads. destruct (v_bodies s !! x) as [[]|]; by eexists.
Qed.

Lemma safe_enter q a b scope k p s : q <= p → 0 <= p <= v_used s →
  v_bodies s !! a = Some b → (b = body_lambda scope k ∨ ∃ d, b = body_advanced scope k d) →
  safe q (v_used s) (λ _ n, -1 <= n) (enter m a p) s.
Proof.
  intros Hq Hp Ha Hb Hv _.
  assert (HC : is_Some (codes !! k) ∧ shaped (v_bodies s) scope (Γ k)).
  { pose proof (i_bodies _ _ Hv _ _ Ha) as Hok. destruct Hb as [->|[d ->]]; cbn in Hok; [done|]. destruct Hok as ((c & Hc & _) & Hs & _).
    split; [by eexists|done]. }
  destruct HC as [[code Hcode] Hs]. destruct (Hprogram _ _ Hcode) as [Hsz (Hmin & Hargs & Hsh) _ _ _ [R HR]].
  assert (Hnonneg : 0 <= code_arguments code) by (destruct (code_variadic code); lia).
  set (previous := v_used s). set (base := p + 2). set (s0 := set_used (base + code_size code) s).
  set (s1 := set_estack (forget (v_estack s0) (Z.to_nat (base + code_arguments code)) (Z.to_nat (code_size code - code_arguments code))) s0).
  assert (V1 : valid s1) by (destruct Hv; split; cbn; first [done|lia|by apply forget_slots]).
  assert (G1 : grows s s1) by (split; [apply extends_refl|intros x bx Hx; exists bx; split; [done|apply same_body_refl]|apply length_forget]).
  assert (K1 : keeps p s s1) by (apply take_forget; unfold base; lia).
  destruct (own_scope_made code k scope s1 Hcode Hsh Hs V1) as (own & s2 & Hown & F2 & U2 & Hshape).
  set (c := Context' k base a previous own).
  assert (Hctx : context_ok c code s2).
  { split; cbn; [done|lia|pose proof (i_used _ _ Hv); lia| |exact Hshape]. exists b, scope. split; [|split; [done|]].
    - pose proof (lambda_grows s1 s2 a b (f_grows _ _ _ _ _ F2) Ha) as HL. destruct Hb as [->|[d ->]]; exact HL.
    - exact (shaped_grow _ _ _ _ (w_bodies _ _ (f_grows _ _ _ _ _ F2)) Hs). }
  assert (HE : enter m a p s = match m_loop m c 0 s2 with
    | Returns (n, _) s3 => Returns n s3
    | Throws (v, pc) s3 => (_ ← f_backtrace v a pc; _ ← updates (set_used previous); raise v) s3
    | Traps => Traps | Overflows => Overflows | Faults => Faults | Exhausted => Exhausted end).
  { unfold enter.
    assert (HL : (lambda_at a : M value _) s = Returns (scope, k) s)
      by (unfold lambda_at, body_at, reads, mbind, run_bind; rewrite Ha; by destruct Hb as [->|[d ->]]).
    rewrite (bind_returns _ _ _ _ _ HL). cbv beta iota.
    assert (HC : (code_at k : M value _) s = Returns code s) by (unfold code_at; by rewrite Hcode). rewrite (bind_returns _ _ _ _ _ HC).
    rewrite (bind_returns _ _ _ _ _ (eq_refl : reads v_used s = Returns (E := value) previous s)). cbv zeta.
    rewrite (bind_returns _ _ _ _ _ (eq_refl : updates (set_used (p + 2 + code_size code)) s = Returns (E := value) () s0)).
    rewrite (bind_returns _ _ _ _ _ (eq_refl : leave_unwritten (base + code_arguments code) (code_size code - code_arguments code) s0 = Returns (E := value) () s1)).
    rewrite (bind_returns _ _ _ _ _ Hown). fold base c. unfold mbind at 1, run_bind at 1, attempt.
    by destruct (m_loop m c 0 s2) as [[] |[] | | | |]. }
  rewrite HE. pose proof (k_loop m Hm c code R Outermost 0 s2 Hctx HR (start_located _ _ HR) (f_valid _ _ _ _ _ F2)) as HK.
  specialize (HK ltac:(rewrite U2; done)).
  replace (v_base c - 2) with p in HK by (cbn; lia).
  assert (F12 : valid s2 ∧ grows s s2 ∧ keeps p s s2).
  { destruct F2 as [V2 G2 K2 _]. split; [done|]. split; [by apply (state_grows_trans s s1 s2)|].
    apply (keeps_mono (v_used s1) p) in K2; [|cbn; lia]. unfold keeps in *. congruence. }
  destruct F12 as (V2 & G2 & K2).
  destruct (m_loop m c 0 s2) as [[n pc] s3|[v pc] s3| | | |]; try done; destruct HK as [[V3 G3 K3 U3] HX].
  - destruct HX as [HX1 HX2]. split; [|done]. split; [done|by eapply state_grows_trans| |exact HX1]. eapply keeps_mono; [exact Hq|]. unfold keeps in *. congruence.
  - destruct (backtrace_returns (E := value) v a pc s3) as [s4 Hs4]. rewrite (bind_returns _ _ _ _ _ Hs4).
    pose proof (safe_backtrace Γ (E := value) p 0 v a pc s3 V3 (i_used _ _ V3)) as Hb4. rewrite Hs4 in Hb4. destruct Hb4 as [[V4 G4 K4 _] _].
    unfold mbind, run_bind, updates, raise.
    split; [|exact (value_grows s3 s4 v G4 HX)]. split; cbn.
    + pose proof (i_used _ _ Hv). destruct V4. split; cbn; first [done|lia].
    + apply (state_grows_trans s s2); [exact G2|]. apply (state_grows_trans s2 s3); [exact G3|]. destruct G4. by split.
    + eapply keeps_mono; [exact Hq|]. unfold keeps in *. cbn. congruence.
    + lia.
Qed.

Lemma safe_call_step q v p n s : q <= p → 0 <= p <= v_used s → 0 <= n → value_ok (v_world s) v →
  safe q (v_used s) (λ _ n, -1 <= n) (call_step m v p n) s.
Proof.
  intros Hq Hp Hn Hok. unfold call_step. apply safe_object. intros a ->. apply safe_reads. destruct (overrides s a op_call) eqn:Ho.
  { apply get_same; [lia|]. intros self Hself. apply get_all_same; [lia|]. intros xs Hxs. by apply safe_native. }
  apply safe_reads.
  assert (Hobject : safe q (v_used s) (λ _ n, -1 <= n)
    (w ← reads v_world; o ← of_outcome (object_at w a);
     match o_data o with
     | of_method v_function v_self => _ ← put (p + 1) v_self; m_call m (Object v_function) p n
     | of_type _ => _ ← instantiate m a p n; mret (-1)
     | _ => bind_operator op_call a p n
     end) s).
  { apply safe_given. intros Hv _. apply safe_reads. destruct Hok as [o Hao]. unfold object_at. rewrite Hao.
    pose proof (i_heap _ _ Hv) as (Hoo & _). destruct (Hoo _ _ Hao) as (_ & _ & Hd & _).
    assert (Hdef : safe q (v_used s) (λ _ n, -1 <= n) (bind_operator op_call a p n) s) by (apply safe_bind_operator; [done|lia|done|by exists o]).
    change (of_outcome (Ok o)) with (mret o : M value t_object). eapply safe_bind; [by apply (safe_returns _ _ _ (λ s' x, s' = s ∧ x = o))|].
    intros ? ? _ [-> ->]. destruct (o_data o) as [t|y|f self|y|] eqn:Eo; try exact Hdef.
    - destruct (plain_classes s a o t Hv Ho Hao Eo) as [Hg Hpu].
      eapply safe_bind; [by eapply (safe_instantiate q a o t)|]. intros [] s1 F1 _. apply safe_returns. lia.
    - destruct Hd as [Hf Hself]. eapply safe_bind; [apply safe_put; [lia|lia|done]|]. intros [] s1 F1 _. pose proof (f_used _ _ _ _ _ F1).
      eapply (safe_relax _ q p _ (v_used s1)); [done|done|lia| |intros ? ? _ Hx; exact Hx]. apply (k_call m Hm); [lia|done|].
      by apply (value_grows s s1 (Object f) (f_grows _ _ _ _ _ F1)). }
  destruct (v_bodies s !! a) as [[]|] eqn:Ea; try exact Hobject; clear Hobject.
  - apply safe_given. intros Hv _. pose proof (i_bodies _ _ Hv _ _ Ea) as [[code Hc] _]. eapply safe_need; [exact Hc|].
    case_tests; [|apply safe_throw]. eapply safe_enter; [done|done|exact Ea|by left].
  - apply safe_given. intros Hv _. pose proof (i_bodies _ _ Hv _ _ Ea) as ((code & Hc & Hnone) & _ & Hd). eapply safe_need; [exact Hc|].
    destruct (Hprogram _ _ Hc) as [_ Hsig _ _ _ _].
    eapply safe_bind; [apply (safe_fill q); [done|lia|done|done|done|done]|]. intros [] s1 F1 _. pose proof (f_used _ _ _ _ _ F1).
    pose proof (lambda_grows s s1 a _ (f_grows _ _ _ _ _ F1) Ea) as Ea1. cbn in Ea1.
    eapply (safe_relax _ q q _ (v_used s1)); [done|done|done| |intros ? ? _ Hx; exact Hx]. eapply safe_enter; [done|lia|exact Ea1|by right; eexists].
Qed.
End Step.
End Calls.
