(* ===== verification/InterpStep.v ===== *)
(** * Instructions (Interp.v)

    An instruction of verified code does not fault: it leads to another one of
    its region, or out of the loop. *)
From stdpp Require Import base list numbers strings gmap.
From S2P Require Import Prelude Machine Layout Ast Types TypeLayout TypeAccess TypeSafety Operators Emit EmitSafety Interp InterpCode InterpState InterpObjects InterpCalls.
Local Open Scope Z_scope.

Section Step.
Context `{Engine} `{Library} `{Numbers} `{Initializers} `{Allocator} `{TypeNames}.
Variable Γ : nat → list Z.
Context `{!LibraryLaws Γ}.
Hypothesis Hprogram : program_ok Γ.
Variable m : t_machine.
Hypothesis Hm : machine_ok Γ m.
Abbreviation valid := (valid Γ).
Abbreviation safe := (safe Γ).
Abbreviation from := (from Γ).
Abbreviation ends := (ends Γ).

(** ** Arguments to expand *)

Lemma safe_f_get_at q u v x s : q <= v_used s → u <= v_used s → value_ok (v_world s) v → value_ok (v_world s) x →
  safe q u a_value (f_get_at m v x) s.
Proof.
  intros Hq Hu Hv Hx. apply safe_given. intros V _. pose proof (i_used _ _ V).
  eapply (safe_relax _ q q u (v_used s) a_value a_value); [lia|done|done| |done].
  unfold f_get_at. apply safe_object. intros a ->. apply safe_reads. set (p := v_used s) in *.
  apply safe_set_used; [lia|lia|]. intros s1 F1 U1. pose proof (value_grows _ _ _ (f_grows _ _ _ _ _ F1) Hv) as Hv1.
  eapply safe_bind; [apply safe_put; [lia|lia|by apply (value_grows s s1 x (f_grows _ _ _ _ _ F1))]|]. intros [] s2 F2 _.
  eapply (safe_scoped Γ q p p); [lia|lia|lia|]. pose proof (f_used _ _ _ _ _ F2).
  eapply safe_bind; [apply (safe_operate Γ m Hm); [lia|lia|lia|exact (value_grows s1 s2 _ (f_grows _ _ _ _ _ F2) Hv1)]|].
  intros n s3 F3 Hn. pose proof (f_used _ _ _ _ _ F3). apply (safe_finish Γ m Hm); first [lia|done].
Qed.

Lemma safe_f_invoke0 q u v k site s : q <= v_used s → u <= v_used s → value_ok (v_world s) v →
  safe q u a_value (f_invoke0 m v k site) s.
Proof.
  intros Hq Hu Hv. apply safe_given. intros V _. pose proof (i_used _ _ V).
  eapply (safe_relax _ q q u (v_used s) a_value a_value); [lia|done|done| |done].
  unfold f_invoke0. apply safe_reads. set (p := v_used s) in *.
  apply safe_set_used; [lia|lia|]. intros s1 F1 U1. pose proof (value_grows _ _ _ (f_grows _ _ _ _ _ F1) Hv) as Hv1.
  eapply safe_bind; [apply safe_put; [lia|lia|done]|]. intros [] s2 F2 _.
  eapply (safe_scoped Γ q p p); [lia|lia|lia|]. pose proof (value_grows _ _ _ (f_grows _ _ _ _ _ F2) Hv1) as Hv2.
  eapply safe_bind; [by apply safe_access|]. intros r s3 F3 (Hk & Hr & Hty).
  destruct r as [| | | |c w]; try done. destruct Hr as (Hw & He & Hc & Hrc).
  apply safe_world; [done|done|by apply Hty|]. intros s4 F4 E4. pose proof (f_used _ _ _ _ _ F4).
  eapply (safe_bind _ _ _ anything). { destruct (receiver c); [apply safe_put; [lia|lia|by rewrite E4]|by apply safe_returns]. }
  intros [] s5 F5 _. pose proof (f_used _ _ _ _ _ F5).
  apply (safe_call Γ m Hm); [lia|lia|lia|lia|]. apply (value_grows s4 s5 (Object (callee c)) (f_grows _ _ _ _ _ F5)). by rewrite E4.
Qed.

Lemma safe_method_bind q a p s : q <= p → 0 <= p <= v_used s → value_ok (v_world s) (Object a) →
  safe q (v_used s) anything (f_method_bind m a p) s.
Proof.
  intros Hq Hp Ha. unfold f_method_bind. apply get_same; [lia|]. intros x Hx.
  eapply safe_bind; [apply safe_put; [lia|lia|done]|]. intros [] s1 F1 _. pose proof (f_used _ _ _ _ _ F1).
  eapply safe_bind; [apply (safe_operate Γ m Hm); [lia|lia|lia|exact (value_grows s s1 _ (f_grows _ _ _ _ _ F1) Ha)]|].
  intros n s2 F2 Hn. cbn in Hn. pose proof (f_used _ _ _ _ _ F2).
  eapply safe_bind; [apply (safe_finish Γ m Hm); first [lia|done]|]. intros [] s3 F3 _. apply safe_put; [lia|lia|done].
Qed.

(** Getting an element, in any state from here on. *)
Definition gets_elements (q u : Z) (s : t_state) (k : Z) (element : Z → M value value) : Prop :=
  ∀ i s', grows s s' → 0 <= i < k → safe q u a_value (element i) s'.

Lemma safe_elements q u x s : q <= u → value_ok (v_world s) x →
  safe q u (λ s' '(k, element), 0 <= k ∧ gets_elements q u s' k element) (elements m x) s.
Proof.
  intros Hq Hx. apply safe_given. intros V U. unfold elements. apply safe_reads.
  assert (Hother : safe q u (λ s' '(k, element), 0 <= k ∧ gets_elements q u s' k element)
    (size ← f_invoke0 m x (symbol_at [115; 105; 122; 101]) None;
     match f_as_integer size with
     | Some k => mret (to_size k, λ i, f_get_at m x (Integer i))
     | None => type_error "size"
     end) s).
  { eapply safe_bind; [apply safe_f_invoke0; [lia|done|done]|]. intros size s1 F1 _.
    destruct (f_as_integer size) as [k|]; [|apply safe_throw]. apply safe_returns. pose proof (to_size_range k). split; [lia|].
    intros i s2 G2 Hi. apply safe_given. intros V2 U2. apply safe_f_get_at; [lia|lia| |done].
    apply (value_grows s1 s2 x G2), (value_grows s s1 x (f_grows _ _ _ _ _ F1) Hx). }
  assert (Hlist : ∀ l, Forall (value_ok (v_world s)) l → safe q u (λ s' '(k, element), 0 <= k ∧ gets_elements q u s' k element)
    (mret (Z.of_nat (length l), λ i, need (l !! Z.to_nat i))) s).
  { intros l Hl. apply safe_returns. split; [lia|]. intros i s' G Hi. destruct (lookup_lt_is_Some_2 l (Z.to_nat i)) as [v Hv]; [lia|].
    rewrite Hv. apply safe_returns. apply (value_grows s s' v G). by eapply (Forall_lookup_1 _ _ _ _ Hl). }
  destruct x as [| | | |a]; try exact Hother. destruct (v_bodies s !! a) as [b|] eqn:Ea.
  - assert (Hl : match list_at s a with Some l => Forall (value_ok (v_world s)) l | None => True end).
    { destruct (list_at s a) as [l|] eqn:El; [by eapply list_values|done]. }
    destruct b; try (destruct (list_at s a); [by apply Hlist|exact Hother]). apply Hlist. by apply (i_bodies _ _ V _ _ Ea).
  - destruct (list_at s a) as [l|] eqn:El; [apply Hlist; by eapply list_values|exact Hother].
Qed.

Lemma safe_spread q u element p i k n s : q <= p → 0 <= p → 0 <= i → i + Z.of_nat k <= n →
  gets_elements q u s n element → safe q u anything (spread element p i k) s.
Proof.
  revert p i s. induction k as [|k IH]; intros p i s Hq Hp Hi Hn He; cbn [spread]; [by apply safe_returns|].
  eapply safe_bind; [apply He; [apply state_grows_refl|lia]|]. intros v s1 F1 Hv.
  eapply safe_bind; [apply safe_put; [lia|lia|done]|]. intros [] s2 F2 _. apply IH; [lia|lia|lia|lia|].
  intros j s3 G3 Hj. apply He; [|lia]. eapply state_grows_trans; [exact (f_grows _ _ _ _ _ F1)|]. eapply state_grows_trans; [exact (f_grows _ _ _ _ _ F2)|done].
Qed.

Lemma safe_expand q u element k p n s : q <= p → 0 <= p → 0 <= n → u <= v_used s → gets_elements q u s k element →
  safe q u anything (expand element k p n) s.
Proof.
  intros Hq Hp Hn Hu He. unfold expand. case_tests.
  - apply safe_reads. eapply (safe_bind _ _ _ (λ s' _, grows s s')).
    { apply safe_given. intros V _. pose proof (i_used _ _ V). destruct (Z.ltb_spec (v_used s) (p + k + n)); [|apply safe_returns, state_grows_refl].
      intros _ _. split; [|split; [apply extends_refl|by intros x b Hx; exists b; split; [done|apply same_body_refl]|done]].
      split; cbn; [|split; [apply extends_refl|by intros x b Hx; exists b; split; [done|apply same_body_refl]|done]|done|lia].
      destruct V. split; cbn; first [done|lia]. }
    intros [] s1 F1 G1. apply get_all_same; [lia|]. intros xs Hxs. eapply safe_bind; [apply safe_put_all; [lia|lia|done]|]. intros [] s2 F2 _.
    apply (safe_spread q u element p 0 (Z.to_nat k) k); [lia|lia|lia|lia|]. intros i s3 G3 Hi. apply He; [|lia].
    eapply state_grows_trans; [exact G1|]. eapply state_grows_trans; [exact (f_grows _ _ _ _ _ F2)|done].
  - apply get_all_same; [lia|]. intros xs Hxs. apply safe_put_all; [lia|lia|done].
Qed.

Lemma safe_f_expand q u rest pc p a_n n s : q <= u → q <= p → 0 <= p → 0 <= n → expands_ok rest a_n →
  safe q u (λ _ k, 0 <= k) (f_expand m rest pc p a_n n) s.
Proof.
  revert pc p a_n n s. induction rest as [|d rest IH]; intros pc p a_n n s Hqu Hq Hp Hn He; [done|].
  destruct He as [Hd He]. cbn [f_expand]. destruct (Z.ltb_spec (a_n - d) 0) as [?|_].
  { destruct He as [->|[? _]]; lia. }
  destruct (Z.eqb_spec (a_n - d) 0) as [?|Hne]; [apply safe_returns; lia|]. destruct He as [->|[Hlt He]]; [lia|].
  apply safe_given. intros V U.
  eapply (safe_bind _ _ _ (λ _ k, 0 <= k)).
  - apply safe_at_pc. apply get_same; [lia|]. intros x Hx. eapply safe_bind; [by apply safe_elements|]. intros [k element] s1 F1 [Hk Hel].
    pose proof (f_used _ _ _ _ _ F1). eapply safe_bind; [apply safe_expand; [lia|lia|lia|lia|done]|]. intros [] s2 F2 _. by apply safe_returns.
  - intros k s1 F1 Hk. replace (a_n - d - 1) with (a_n - d - 1) by lia. apply IH; first [lia|done].
Qed.
End Step.
