(* ===== verification/InterpFrame.v ===== *)
(** * The frame (Interp.v)

    The steps of an instruction of verified code: leaving a value in the frame,
    leaving the loop, reaching a variable of a scope and making a lambda. *)
From stdpp Require Import base list numbers strings gmap.
From S2P Require Import Prelude Machine Layout Ast Types TypeLayout TypeAccess TypeSafety Operators Emit EmitSafety Interp InterpCode InterpState InterpObjects InterpCalls InterpStep.
Local Open Scope Z_scope.

Section Instructions.
Context `{Engine} `{Library} `{Numbers} `{Initializers} `{Allocator} `{TypeNames}.
Variable Γ : nat → list Z.
Context `{!LibraryLaws Γ}.
Hypothesis Hprogram : program_ok Γ.
Variable m : t_machine.
Hypothesis Hm : machine_ok Γ m.
Abbreviation valid := (valid Γ).
Abbreviation safe := (safe Γ).
Abbreviation from := (from Γ).
Abbreviation ends := (ends Γ).
Abbreviation context_ok := (context_ok Γ).

Lemma context_grows c code s s' : grows s s' → context_ok c code s → context_ok c code s'.
Proof.
  intros G [Hc Hb Hp (b & scope & Hl & Hk & Hs) Ho]. split; try done.
  - exists b, scope. pose proof (lambda_grows s s' _ b G Hl) as HL. split_and!; [by destruct Hk as [->|[d ->]]|done|].
    exact (shaped_grow _ _ _ _ (w_bodies _ _ G) Hs).
  - intros Hsh. destruct (Ho Hsh) as (a & Ha & Hs'). exists a. split; [done|]. exact (shaped_grow _ _ _ _ (w_bodies _ _ G) Hs').
Qed.

Section Frame.
Context (c : t_context) (code : t_code) (R : t_regions) (ρ : t_region) (k : nat) (i : t_op).
Context (Hcode : codes !! c_code c = Some code) (Hstr : structured (code_instructions code) R).
Context (Hi : code_instructions code !! k = Some i) (HR : R !! k = Some (Some ρ)).
Abbreviation ops := (code_instructions code).
Abbreviation q := (v_base c - 2).
Abbreviation top := (frame_top c code).
Abbreviation pc := (address (take k ops)).
Abbreviation next := (address (take k ops) + words i)%nat.

(** Where an instruction of the region leads. *)
Definition proceeds (s : t_state) (r : t_next) : Prop :=
  match r with
  | Goto to => located ops R to ρ ∧ top <= v_used s
  | Exit n _ => ρ = Outermost ∧ -1 <= n ∧ v_previous c <= v_used s
  end.

Lemma leads : leads_to ops R k ρ i.
Proof. destruct Hstr as (_ & _ & HS). by apply HS. Qed.

Lemma verified : code_ok Γ (c_code c) code.
Proof. by apply Hprogram. Qed.

Lemma in_frame : frame_ok (code_size code + 1) i.
Proof. pose proof (c_frame _ _ _ verified) as HF. by eapply (Forall_lookup_1 _ _ _ _ HF). Qed.

Lemma in_scopes : scopes_ok Γ (c_code c) i.
Proof. pose proof (c_scopes _ _ _ verified) as HF. by eapply (Forall_lookup_1 _ _ _ _ HF). Qed.

Lemma operands : operands_ok i.
Proof. pose proof (c_operands _ _ _ verified) as HF. by eapply (Forall_lookup_1 _ _ _ _ HF). Qed.

Lemma ends_goto to (x : M value t_next) s : located ops R to ρ → safe q top (λ _ r, r = Goto to) x s → ends q top proceeds x s.
Proof. intros Hl Hx. eapply ends_safe; [exact Hx|]. intros r s' F ->. split; [done|exact (f_used _ _ _ _ _ F)]. Qed.

Lemma safe_leaves p x to s : 0 <= p → q <= p → safe q top a_value x s → safe q top (λ _ r, r = Goto to) (leaves p x to) s.
Proof.
  intros Hp Hq Hx. unfold leaves. eapply safe_bind; [exact Hx|]. intros v s1 F1 Hv. eapply safe_bind; [by apply safe_put|].
  intros [] s2 F2 _. by apply safe_returns.
Qed.

(** ** Leaving the loop *)

Lemma ends_leave (P : t_state → t_next → Prop) n x s : 0 <= n → P (set_used n s) x →
  ends q top P (_ ← updates (set_used n); mret x : M value t_next) s.
Proof.
  intros Hn HP Hv Hu. unfold mbind, run_bind, updates. cbn. split; [|done].
  split; [|split; [apply extends_refl|by intros a b Hb; exists b; split; [done|apply same_body_refl]|done]|done|done].
  destruct Hv. by split.
Qed.

Lemma ends_return v s : context_ok c code s → ρ = Outermost → value_ok (v_world s) v → ends q top proceeds (return_result c pc v) s.
Proof.
  intros Hx Hρ Hv. pose proof (x_base _ _ _ _ Hx). unfold return_result.
  eapply ends_bind; [apply safe_put; [lia|lia|done]|]. intros [] s1 F1 _. apply ends_leave; [exact (x_previous _ _ _ _ Hx)|]. split_and!; [done|lia|cbn; lia].
Qed.

Lemma ends_get_all p n (P : t_state → t_next → Prop) (f : list value → M value t_next) s :
  0 <= p → (∀ vs s', from q top s s' → Forall (value_ok (v_world s')) vs → ends q top P (f vs) s') → ends q top P (get_all p n ≫= f) s.
Proof. intros Hp Hf. eapply ends_bind; [by apply safe_get_all|]. intros vs s1 F1 Hvs. by apply Hf. Qed.

Lemma ends_tail p n s : context_ok c code s → ρ = Outermost → 0 <= p → 0 <= n → ends q top proceeds (f_tail c pc p n) s.
Proof.
  intros Hx Hρ Hp Hn. pose proof (x_base _ _ _ _ Hx). pose proof (x_previous _ _ _ _ Hx). unfold f_tail. apply ends_get_all; [done|]. intros xs s1 F1 Hxs.
  eapply ends_bind; [apply safe_put_all; [lia|lia|done]|]. intros [] s2 F2 _. apply ends_leave; [lia|]. split_and!; [done|lia|cbn; lia].
Qed.

(** ** Scopes *)

Lemma safe_scope_of outer x s : context_ok c code s → reaches Γ (c_code c) outer x →
  safe q top (λ s' a, ∃ l o, v_bodies s' !! a = Some (body_scope l o) ∧ 0 <= x < Z.of_nat (length l)) (outer_scope c outer : M value Z) s.
Proof.
  intros Hx Hr. destruct outer as [|n]; cbn [outer_scope reaches] in *.
  - destruct Hr as (code' & Hc' & Hsh & Hlt). assert (code' = code) as -> by congruence.
    destruct (x_scope _ _ _ _ Hx Hsh) as (a & Ha & (l & o & Hl & Hlen & _)). unfold own_scope. rewrite Ha. apply safe_returns. exists l, o. split; [done|lia].
  - destruct Hr as (size & Hsz & Hlt). destruct (x_lambda _ _ _ _ Hx) as (b & scope & Hb & Hk & Hs).
    assert (HL : (lambda_at (v_lambda c) : M value _) s = Returns (scope, c_code c) s)
      by (unfold lambda_at, body_at, reads, mbind, run_bind; rewrite Hb; by destruct Hk as [->|[d ->]]).
    intros V U. rewrite (bind_returns _ _ _ _ _ HL). cbv beta iota.
    eapply (safe_relax _ q q top top _ _ _ _ (Z.le_refl _) (Z.le_refl _) U (safe_outward Γ q top n scope (Γ (c_code c)) size s Hs Hsz)); [|done|done].
    intros a s' F (l & o & Hl & Hlen). exists l, o. split; [done|lia].
Qed.

Lemma safe_entry outer x s : context_ok c code s → reaches Γ (c_code c) outer x →
  safe q top a_value (a ← outer_scope c outer; get_entry a x : M value value) s.
Proof.
  intros Hx Hr. eapply safe_bind; [by apply safe_scope_of|]. intros a s1 F1 (l & o & Hl & Hlt). by eapply safe_get_entry.
Qed.

Lemma safe_new_lambda j d s : context_ok c code s → nests Γ (c_code c) j →
  (∀ c', codes !! j = Some c' → d = Some None → code_arguments c' - (if code_variadic c' then 1 else 0) <= code_minimum c') →
  (∀ a, d = Some (Some a) → ∃ l, v_bodies s !! a = Some (body_tuple l)) →
  safe q top a_value (new_lambda c j d) s.
Proof.
  intros Hx (c1 & c2 & Hc1 & Hc2 & Hsh & HΓ) Hd Ht. assert (c1 = code) as -> by congruence.
  destruct (x_scope _ _ _ _ Hx Hsh) as (a & Ha & Hs). unfold new_lambda, own_scope. rewrite Ha.
  eapply safe_need; [done|]. eapply safe_need; [exact Hc2|].
  eapply safe_bind; [apply safe_new_object; [intros He; apply (e_lambda _ He)|]|].
  - intros _. destruct d as [d|]; cbn; rewrite HΓ; [|by split]. split; [|split; [done|]].
    + exists c2. split; [done|]. intros ->. by apply (Hd c2).
    + intros a' ->. by apply Ht.
  - intros b s1 F1 [Hb _]. by apply safe_returns.
Qed.

Lemma safe_new_advanced j p s : context_ok c code s → nests Γ (c_code c) j → 0 <= p → safe q top a_value (new_advanced c j p) s.
Proof.
  intros Hx Hn Hp. unfold new_advanced. pose proof Hn as (_ & c2 & _ & Hc2 & _). eapply safe_need; [exact Hc2|]. cbv zeta.
  set (n := code_arguments c2 - code_minimum c2 - _). destruct (Z.ltb_spec 0 n).
  - eapply (safe_bind _ _ _ (λ s' d, ∃ a l, d = Some a ∧ v_bodies s' !! a = Some (body_tuple l))).
    + apply get_all_same; [done|]. intros xs Hxs. eapply safe_bind; [apply safe_new_object; [apply e_tuple|done]|].
      intros a s1 F1 [_ Ha]. apply safe_returns. by exists a, xs.
    + intros d s1 F1 (a & l & -> & Ha). apply safe_new_lambda; [by eapply context_grows; [exact (f_grows _ _ _ _ _ F1)|]|done|done|].
      intros a' [= <-]. by exists l.
  - eapply safe_bind; [by apply (safe_returns _ _ _ (λ s' d, d = None ∧ s' = s))|]. intros d s1 F1 [-> ->]. apply safe_new_lambda; [done|done| |done].
    intros c' Hc' _. assert (c' = c2) as -> by congruence. lia.
Qed.
End Frame.
End Instructions.
