(* ===== verification/InterpOperators.v ===== *)
(** * Operators in the loop (Interp.v)

    An instruction of an operator calls a method of its left operand only. *)
From stdpp Require Import base list numbers strings gmap.
From S2P Require Import Prelude Machine Layout Ast Types TypeLayout TypeAccess TypeSafety Operators Emit EmitSafety Interp InterpCode InterpState InterpObjects InterpCalls InterpStep InterpFrame.
Local Open Scope Z_scope.

Section effects.
Context `{Numbers}.

Definition not_object (v : value) : Prop := match v with Object _ => False | _ => True end.

(** The value of an operator, or the method that it calls. *)
Definition calls_left (op : binary) (x y : value) (m : outcome effect) : Prop :=
  match m with
  | Ok (Value v) => not_object v
  | Ok (Method a op' a1) => x = Object a ∧ op' = op ∧ a1 = y ∧ group_of op ≠ IDENTITY
  | _ => True
  end.

Lemma primitive_number op n n' : match apply op n n' with Ok v => not_object v | _ => True end.
Proof.
  destruct n, n'; cbn; unfold signed, unsigned, floating; destruct op; case_tests; try done;
    match goal with |- context [checked ?z] => by destruct (checked z) end.
Qed.

Lemma left_primitive op x y n n' : calls_left op x y (PRIMITIVE_CALL (apply op n n')).
Proof. pose proof (primitive_number op n n') as HP. by destruct (apply op n n'). Qed.

Lemma left_method op a y : group_of op ≠ IDENTITY → calls_left op (Object a) y (Ok (Method a op y)).
Proof. done. Qed.

Lemma left_or_throw op x y : group_of op ≠ IDENTITY → calls_left op x y (OBJECT_OR_THROW op x y).
Proof. by destruct x. Qed.

Lemma left_or_false op x y : group_of op ≠ IDENTITY → calls_left op x y (OBJECT_OR_FALSE op x y).
Proof. by destruct x. Qed.

Lemma left_derived op x y n f : calls_left op x y (derived_or_throw op n f y).
Proof. unfold derived_or_throw. destruct y as [| | | |p]; try done. destruct (f p); [apply left_primitive|done]. Qed.

Lemma left_integral op x y n : calls_left op x y (f_binary_integral op n y).
Proof. unfold f_binary_integral. destruct y; first [apply left_primitive|apply left_derived]. Qed.

Lemma left_arithmetic op x y n : calls_left op x y (arithmetic_integer op n y).
Proof. unfold arithmetic_integer. destruct y; first [apply left_primitive|apply left_derived]. Qed.

Lemma left_float op x y n : calls_left op x y (f_binary_arithmetic op n y).
Proof. unfold f_binary_arithmetic. destruct y; first [apply left_primitive|apply left_derived]. Qed.

Lemma left_equality op x y f g : group_of op ≠ IDENTITY → calls_left op x y (equality op f g x y).
Proof. intros Ho. destruct x; cbn; try done. destruct (same_pointer _ y); [done|by apply left_method]. Qed.

Lemma left_XX op x y : calls_left op x y (run_XX op x y).
Proof.
  unfold run_XX. destruct (group_of op) eqn:G; try (apply left_equality; congruence); try exact Logic.I.
  all: destruct x; first [exact Logic.I|apply left_arithmetic|apply left_float|apply left_integral|apply left_or_throw; congruence].
Qed.

Lemma left_LX op x y : calls_left op x y (run_LX op x y).
Proof.
  unfold run_LX. destruct (group_of op) eqn:G; try (apply left_or_throw; congruence); try exact Logic.I.
  - destruct x; try done. destruct (same_pointer _ y); [done|]. apply left_method. congruence.
  - destruct x; first [exact Logic.I|apply left_or_throw; congruence].
Qed.

Lemma left_XL op x y : calls_left op x y (run_XL op x y).
Proof.
  unfold run_XL. destruct (group_of op) eqn:G; try (apply left_equality; congruence); try exact Logic.I.
  all: destruct x; first [exact Logic.I|apply left_derived|apply left_or_throw; congruence].
Qed.

Lemma left_IX op x y n : calls_left op x y (run_IX op n y).
Proof. unfold run_IX. destruct (group_of op); first [exact Logic.I|apply left_arithmetic|apply left_integral]. Qed.

Lemma left_IL op x y n : calls_left op x y (run_IL op n y).
Proof. unfold run_IL. destruct (group_of op); first [exact Logic.I|apply left_derived]. Qed.

Lemma left_FX op x y n : calls_left op x y (run_FX op n y).
Proof. unfold run_FX. destruct (group_of op); first [exact Logic.I|apply left_float]. Qed.

Lemma left_FL op x y n : calls_left op x y (run_FL op n y).
Proof. unfold run_FL. destruct (group_of op); first [exact Logic.I|apply left_derived]. Qed.

Lemma left_XI op x n : calls_left op x (Integer n) (run_XI op x n).
Proof.
  unfold run_XI. destruct (group_of op) eqn:G; try exact Logic.I.
  all: destruct x; first [exact Logic.I|apply left_primitive|apply left_or_throw; congruence|apply left_or_false; congruence].
Qed.

Lemma left_XF op x n : calls_left op x (Float n) (run_XF op x n).
Proof.
  unfold run_XF. destruct (group_of op) eqn:G; try exact Logic.I; try (apply left_or_throw; congruence).
  all: destruct x; first [exact Logic.I|apply left_primitive|apply left_or_throw; congruence|apply left_or_false; congruence].
Qed.

Lemma left_LI op x n : calls_left op x (Integer n) (run_LI op x n).
Proof. unfold run_LI. destruct (group_of op) eqn:G; first [exact Logic.I|apply left_or_throw; congruence|apply left_or_false; congruence]. Qed.

Lemma left_LF op x n : calls_left op x (Float n) (run_LF op x n).
Proof. unfold run_LF. destruct (group_of op) eqn:G; first [exact Logic.I|apply left_or_throw; congruence|apply left_or_false; congruence]. Qed.

Lemma run_binary_left op l r x y m :
  x = operand_value l x → y = operand_value r y → run_binary op l r x y = Some m → calls_left op x y m.
Proof.
  intros Hx Hy. destruct l, r; cbn [operand_value run_binary] in *; subst; intros [= <-];
    first [apply left_XX|apply left_LX|apply left_XL|apply left_IX|apply left_IL|apply left_FX|apply left_FL|apply left_XI|apply left_XF|apply left_LI|apply left_LF].
Qed.

(** An operator of [run_binary] other than identity has a method. *)
Lemma group_method op : group_of op ≠ IDENTITY → is_Some (method_of_binary op).
Proof. destruct op; cbn; try done; by eexists. Qed.

Lemma run_unary_value op x v : run_unary op x = Ok (Some v) → not_object v.
Proof.
  destruct op, x as [| |z| |a]; cbn; try done; try by intros [= <-].
  by destruct (checked (- z)); cbn; intros; simplify_eq.
Qed.

Lemma run_unary_object op x : run_unary op x = Ok None → (∃ a, x = Object a) ∧ is_Some (method_of_unary op).
Proof.
  destruct op, x as [| |z| |a]; cbn; try done; try (intros _; split; by eexists).
  destruct (checked (- z)); cbn; done.
Qed.
End effects.
