(* ===== verification/InterpExecute.v ===== *)
(** * Instructions in the loop (Interp.v)

    An instruction of verified code does not fault: it leads to another one of
    its region, or out of the loop. *)
From stdpp Require Import base list numbers strings gmap.
From S2P Require Import Prelude Machine Layout Ast Types TypeLayout TypeAccess TypeSafety Operators Emit EmitSafety Interp InterpCode InterpState InterpObjects InterpCalls InterpStep InterpFrame InterpOperators.
Local Open Scope Z_scope.

Section Execute.
Context `{Engine} `{Library} `{Numbers} `{Initializers} `{Allocator} `{TypeNames}.
Variable Γ : nat → list Z.
Context `{!LibraryLaws Γ}.
Hypothesis Hprogram : program_ok Γ.
Variable m : t_machine.
Hypothesis Hm : machine_ok Γ m.
Abbreviation valid := (valid Γ).
Abbreviation safe := (safe Γ).
Abbreviation from := (from Γ).
Abbreviation ends := (ends Γ).
Abbreviation context_ok := (context_ok Γ).

Section Frame.
Context (c : t_context) (code : t_code) (R : t_regions) (ρ : t_region) (k : nat) (i : t_op).
Context (Hcode : codes !! c_code c = Some code) (Hstr : structured (code_instructions code) R).
Context (Hi : code_instructions code !! k = Some i) (HR : R !! k = Some (Some ρ)).
Abbreviation ops := (code_instructions code).
Abbreviation q := (v_base c - 2).
Abbreviation top := (frame_top c code).
Abbreviation pc := (address (take k ops)).
Abbreviation next := (address (take k ops) + words i)%nat.
Abbreviation proceeds := (proceeds c code R ρ).

(** ** Primitives and methods *)

(** What follows an instruction that may be a tail call. *)
Definition follows (tail : bool) : Prop := if tail then ρ = Outermost else located ops R next ρ.

Lemma ends_get j (f : value → M value t_next) s :
  0 <= j → (∀ v, value_ok (v_world s) v → ends q top proceeds (f v) s) → ends q top proceeds (get j ≫= f) s.
Proof.
  intros Hj Hf V U. pose proof (safe_get Γ q top j s Hj V U) as Hg. unfold get, mbind, run_bind in *.
  destruct (j <? 0); [done|]. destruct (v_estack s !! Z.to_nat j) as [[v|]|]; [|done..]. destruct Hg as [_ Hg]. by apply Hf.
Qed.

Lemma ends_primitive tail p v s :
  context_ok c code s → follows tail → 0 <= p → q <= p → value_ok (v_world s) v → ends q top proceeds (primitive c pc tail p v next) s.
Proof.
  intros Hx Hf Hp Hq Hv. destruct tail; cbn.
  - by apply ends_return.
  - eapply ends_goto; [exact Hf|]. eapply safe_bind; [by apply safe_put|]. intros [] s1 F1 _. by apply safe_returns.
Qed.

Lemma ends_method tail op a p s :
  context_ok c code s → follows tail → 0 <= p <= top → q <= p → value_ok (v_world s) (Object a) → ends q top proceeds (method m c pc tail op a p next) s.
Proof.
  intros Hx Hf Hp Hq Ha. unfold method. apply ends_given. intros V U.
  eapply ends_bind; [apply (safe_operate Γ m Hm); [done|done|lia|done]|]. intros n s1 F1 Hn. cbn in Hn. pose proof (f_used _ _ _ _ _ F1).
  pose proof (context_grows Γ c code s s1 (f_grows _ _ _ _ _ F1) Hx) as Hx1. destruct tail; cbn in Hf.
  - destruct (Z.eqb_spec n (-1)).
    + apply ends_get; [lia|]. intros v Hv. by apply ends_return.
    + apply ends_tail; [done|done|lia|lia].
  - eapply ends_goto; [exact Hf|]. eapply safe_bind; [apply (safe_finish Γ m Hm); lia|]. intros [] s2 F2 _. by apply safe_returns.
Qed.

(** ** Members *)

Lemma safe_get_member v a_key s : value_ok (v_world s) v → safe q top a_value (get_member c pc v a_key) s.
Proof.
  intros Hv. eapply safe_bind; [by apply safe_access|]. intros r s1 F1 (Hk & Hr & Hty).
  destruct r as [x w| | | |]; try done. destruct Hr as (Hw & He & Hx). apply safe_world; [done|done|by apply Hty|]. intros s2 F2 <-. by apply safe_returns.
Qed.

Lemma safe_put_member v a_key x s : value_ok (v_world s) v → value_ok (v_world s) x → safe q top anything (put_member c pc v a_key x) s.
Proof.
  intros Hv Hx. eapply safe_bind; [by apply safe_access|]. intros r s1 F1 (Hk & Hr & Hty).
  destruct r as [| |w| |]; try done. destruct Hr as (Hw & He). intros V U. split; [|done].
  destruct (valid_world Γ s1 w V Hw He (Hty w eq_refl)). by split.
Qed.

Lemma safe_has_member v a_key s : value_ok (v_world s) v → safe q top a_value (has_member c pc v a_key) s.
Proof.
  intros Hv. eapply safe_bind; [by apply safe_access|]. intros r s1 F1 (Hk & Hr & Hty). destruct r; try done. by apply safe_returns.
Qed.

(** ** Operators *)

Lemma operand_range o : operand_ok (code_size code + 1) o → match o with Emit.c_tag__VARIABLE j => 0 <= j | _ => True end.
Proof. destruct o; cbn; lia. Qed.

Lemma ends_operand o p (f : value → M value t_next) s : engine_ok (v_world s) →
  2 <= v_base c → operand_ok (code_size code + 1) o → 0 <= p →
  (∀ v, value_ok (v_world s) v → v = operand_value (encoded o) v → ends q top proceeds (f v) s) → ends q top proceeds (fetch_operand c o p ≫= f) s.
Proof.
  intros He Hb Ho Hp Hf. pose proof (operand_range o Ho) as Hr. destruct o; cbn [fetch_operand encoded operand_value] in *.
  - by apply (Hf (Integer _)).
  - by apply (Hf (Float _)).
  - apply (Hf (value_of _)); [|done]. match goal with |- value_ok _ (value_of ?x) => destruct x as [| |y]; [done|done|apply (e_slots _ He)] end.
  - apply ends_get; [unfold slot; lia|]. intros v Hv. by apply Hf.
  - apply ends_get; [lia|]. intros v Hv. by apply Hf.
Qed.
Lemma follows_tail (tail : bool) : (if tail then ρ = Outermost else falls ops R k ρ) → follows tail.
Proof using Hi. destruct tail; cbn; [done|]. by apply falls_located with (R := R). Qed.

Lemma ends_unary j tail p o s : context_ok c code s → follows tail → operands_ok (UNARY j tail p o) → frame_ok (code_size code + 1) (UNARY j tail p o) →
  ends q top proceeds (unary_step m c pc j tail (slot c p) o next) s.
Proof.
  intros Hx Hf [[op Hop] Ho] [[Hp Hn] Hok]. pose proof (x_base _ _ _ _ Hx). apply ends_given. intros V U. unfold unary_step. rewrite Hop, Ho.
  eapply ends_operand; [exact (i_engine _ _ V)|done|done|unfold slot; lia|]. intros a0 Ha _.
  eapply (ends_bind _ _ _ (λ s' r, s' = s ∧ run_unary op a0 = Ok r)). { apply safe_operator. by destruct (run_unary op a0). }
  intros r ? _ [-> Hr]. destruct r as [v|].
  - eapply ends_primitive; [done|done|unfold slot; lia|unfold slot; lia|].
    pose proof (run_unary_value op a0 v Hr). by destruct v.
  - destruct (run_unary_object op a0 Hr) as [[a ->] [op' Hop']]. rewrite Hop'. eapply ends_method; [done|done|unfold slot, frame_top; lia|unfold slot; lia|done].
Qed.

Lemma ends_binary j tail p l r s : context_ok c code s → follows tail → operands_ok (BINARY j tail p l r) → frame_ok (code_size code + 1) (BINARY j tail p l r) →
  ends q top proceeds (binary_step m c pc j tail (slot c p) l r next) s.
Proof.
  intros Hx Hf [[op Hop] Ho] ([Hp Hn] & Hl & Hr). pose proof (x_base _ _ _ _ Hx). apply ends_given. intros V U. unfold binary_step. rewrite Hop.
  eapply ends_operand; [exact (i_engine _ _ V)|done|done|unfold slot; lia|]. intros x Hxv Hxo.
  eapply ends_operand; [exact (i_engine _ _ V)|done|done|unfold slot; lia|]. intros y Hyv Hyo.
  destruct (run_binary op (encoded l) (encoded r) x y) as [e|] eqn:He.
  2: { destruct Ho as [Ho|Ho]; destruct l, r; cbn in *; done. }
  pose proof (run_binary_left op _ _ x y e Hxo Hyo He) as HL.
  eapply (ends_bind _ _ _ (λ s' r, s' = s ∧ e = Ok r)). { apply safe_operator. by destruct e. }
  intros v ? _ [-> ->]. destruct v as [v|a op' a1].
  - eapply ends_primitive; [done|done|unfold slot; lia|unfold slot; lia|].
    cbn in HL. by destruct v.
  - destruct HL as (-> & -> & -> & Hg). destruct (group_method op Hg) as [o Hmo].
    eapply (ends_bind _ _ _ anything). { destruct (is_temporary r); [by apply safe_returns|apply safe_put; [unfold slot; lia..|done]]. }
    intros [] s1 F1 _. eapply ends_need; [exact Hmo|].
    eapply ends_method; [by apply (context_grows Γ c code s s1 (f_grows _ _ _ _ _ F1))|done|unfold slot, frame_top; lia|unfold slot; lia|exact (value_grows s s1 _ (f_grows _ _ _ _ _ F1) Hxv)].
Qed.
(** ** Instructions that leave a value *)

Lemma ends_leaves n x s : 2 <= v_base c → 0 <= n → falls ops R k ρ → safe q top a_value x s → ends q top proceeds (leaves (slot c n) x next) s.
Proof using Hi.
  intros Hb Hn Hf Hx. eapply ends_goto; [by apply falls_located with (R := R)|]. apply safe_leaves; [unfold slot; lia..|done].
Qed.

Lemma ends_next (x : M value ()) s : falls ops R k ρ → safe q top anything x s → ends q top proceeds (_ ← x; mret (Goto next)) s.
Proof using Hi.
  intros Hf Hx. eapply ends_goto; [by apply falls_located with (R := R)|]. eapply safe_bind; [exact Hx|]. intros [] s1 F1 _. by apply safe_returns.
Qed.

Lemma goes_to a : goes ops R (Address a) ρ → located ops R a ρ.
Proof. intros Hg. by destruct (goes_located _ _ _ _ Hg) as (a' & [= ->] & Ha). Qed.

Lemma safe_class v s : value_ok (v_world s) v → safe q top a_value (a ← of_outcome (f_type (v_world s) v); mret (Object a)) s.
Proof.
  intros Hv. eapply safe_bind; [by apply safe_type|]. intros a s1 F1 [t Ht]. apply safe_returns. by eapply type_value.
Qed.

Lemma safe_super v s : value_ok (v_world s) v → safe q top a_value
  (a ← of_outcome (f_type (v_world s) v);
   if negb (a =? type_of_type (v_world s)) then f_throw "not class."
   else
     p ← of_outcome (f_object_or_throw v);
     t ← of_outcome (type_at (v_world s) p);
     match v_super t with Some a => mret (Object a) | None => f_throw "no more super class." end) s.
Proof.
  intros Hv. apply safe_given. intros V U. destruct (type_of_ok _ v (i_heap _ _ V) Hv) as (a & t & Ha & Ht & _).
  eapply (safe_bind _ _ _ (λ s' x, s' = s ∧ x = a)); [apply safe_outcome; by rewrite Ha|]. intros ? ? _ [-> ->].
  destruct (Z.eqb_spec a (type_of_type (v_world s))) as [->|]; cbn [negb]; [|apply safe_throw].
  apply safe_object. intros p ->. destruct (e_class _ (i_engine _ _ V)) as (t' & Ht' & Hg). assert (t' = t) as -> by congruence.
  destruct Hv as [o Ho]. destruct (i_heap _ _ V) as (Hoo & _). destruct (Hoo _ _ Ho) as ((t2 & Ht2 & _ & [Hx _]) & _).
  assert (t2 = t) as ->.
  { unfold f_type, object_at in Ha. rewrite Ho in Ha. injection Ha as Ha. congruence. }
  destruct (Hx Hg) as [y Hy]. assert (Hp : type_at (v_world s) p = Ok y) by (unfold type_at, object_at; rewrite Ho; cbn; by rewrite Hy).
  rewrite Hp. eapply (safe_bind _ _ _ (λ s' x, s' = s ∧ x = y)); [by apply safe_returns|]. intros ? ? _ [-> ->].
  destruct (v_super y) as [b|] eqn:Es; [|apply safe_throw]. apply safe_returns.
  destruct (super_known _ _ _ _ (i_types _ _ V) Hp Es) as [t3 Ht3]. by eapply type_value.
Qed.

Lemma ends_method_get n a_key s : context_ok c code s → falls ops R k ρ → 0 <= n →
  ends q top proceeds
    (v ← get (slot c n);
     r ← access_at (Some (c_code c, pc)) (Bind v a_key);
     match r with
     | Bound b w => _ ← updates (set_world w); _ ← put (slot c n) (b.1); _ ← put (slot c n + 1) (b.2); mret (Goto next)
     | _ => faults
     end) s.
Proof using Hi.
  intros Hx Hf Hn. pose proof (x_base _ _ _ _ Hx). eapply ends_goto; [by apply falls_located with (R := R)|]. apply get_same; [unfold slot; lia|]. intros v Hv.
  eapply safe_bind; [by apply safe_access|]. intros r s1 F1 (Hk & Hr & Hty). destruct r as [|b w| | |]; try done. destruct Hr as (Hw & He & Hb1 & Hb2).
  apply safe_world; [done|done|by apply Hty|]. intros s2 F2 E2.
  eapply safe_bind; [apply safe_put; [unfold slot; lia..|by rewrite E2]|]. intros [] s3 F3 _.
  eapply safe_bind; [apply safe_put; [unfold slot; lia..|]|intros [] s4 F4 _; by apply safe_returns].
  apply (value_grows s2 s3 _ (f_grows _ _ _ _ _ F3)). by rewrite E2.
Qed.

Lemma ends_method_bind n s : context_ok c code s → falls ops R k ρ → 0 <= n → n + 2 <= code_size code + 1 →
  ends q top proceeds
    (v ← get (slot c n);
     a ← of_outcome (f_object_or_throw v);
     w ← reads v_world;
     b ← of_outcome (f_is_bindable w v);
     _ ← (if (b : bool) then mret () else f_method_bind m a (slot c n));
     mret (Goto next)) s.
Proof using Hi Hm LibraryLaws0.
  intros Hx Hf Hn Hlt. pose proof (x_base _ _ _ _ Hx). eapply ends_goto; [by apply falls_located with (R := R)|]. apply get_same; [unfold slot; lia|]. intros v Hv.
  apply safe_object. intros a ->. apply safe_given. intros V U. apply safe_reads.
  destruct (is_bindable_ok _ (Object a) (i_heap _ _ V) Hv) as (b & Hb & _).
  eapply (safe_bind _ _ _ (λ s' x, s' = s ∧ x = b)); [apply safe_outcome; by rewrite Hb|]. intros ? ? _ [-> ->].
  eapply (safe_bind _ _ _ anything); [|intros [] s1 F1 _; by apply safe_returns]. destruct b; [by apply safe_returns|].
  eapply safe_relax; [reflexivity|exact U|done|apply (safe_method_bind Γ m Hm); [unfold slot; lia|unfold slot, frame_top in *; lia|done]|done].
Qed.
Lemma ends_value n (f : value → M value t_next) s : 2 <= v_base c → 0 <= n →
  (∀ v, value_ok (v_world s) v → ends q top proceeds (f v) s) → ends q top proceeds (get (slot c n) ≫= f) s.
Proof. intros Hb Hn Hf. apply ends_get; [unfold slot; lia|done]. Qed.

Lemma ends_beyond n x (f : value → M value t_next) s : 2 <= v_base c → 0 <= n → 0 <= x →
  (∀ v, value_ok (v_world s) v → ends q top proceeds (f v) s) → ends q top proceeds (get (slot c n + x) ≫= f) s.
Proof. intros Hb Hn Hx Hf. apply ends_get; [unfold slot; lia|done]. Qed.

Lemma ends_put_entry outer x n s : context_ok c code s → falls ops R k ρ → 0 <= n → reaches Γ (c_code c) outer x →
  ends q top proceeds (v ← get (slot c n); a ← outer_scope c outer; _ ← put_entry a x v; mret (Goto next) : M value t_next) s.
Proof using Hi Hcode.
  intros Hx Hf Hn Hr. pose proof (x_base _ _ _ _ Hx). apply ends_value; [done|done|]. intros v Hv. eapply ends_goto; [by apply falls_located with (R := R)|].
  eapply safe_bind; [by apply (safe_scope_of Γ c code Hcode)|]. intros a s1 F1 (l & o & Hl & Hlt).
  eapply safe_bind; [by apply (safe_put_entry Γ q top a x v l o); [..|exact (value_grows s s1 v (f_grows _ _ _ _ _ F1) Hv)]|].
  intros [] s2 F2 _. by apply safe_returns.
Qed.

Lemma ends_call n x v s : context_ok c code s → falls ops R k ρ → 0 <= n → n + (x + 2) <= code_size code + 1 → 0 <= x → value_ok (v_world s) v →
  ends q top proceeds (_ ← call m v (slot c n) x; mret (Goto next)) s.
Proof using Hi Hm.
  intros Hx Hf Hn Hlt Hx0 Hv. pose proof (x_base _ _ _ _ Hx). apply ends_given. intros V U.
  apply ends_next; [done|]. apply (safe_call Γ m Hm); [unfold slot, frame_top in *; lia..|done].
Qed.

Lemma ends_call_of (tail : bool) target n x s : context_ok c code s → (if tail then ρ = Outermost else falls ops R k ρ) →
  0 <= n → n + (x + 2) <= code_size code + 1 → 0 <= x → (∀ s', from q top s s' → safe q top a_value target s') →
  ends q top proceeds (call_of m c pc tail target (slot c n) x next) s.
Proof using Hi Hm.
  intros Hx Hf Hn Hlt Hx0 Ht. pose proof (x_base _ _ _ _ Hx). apply ends_given. intros V U. unfold call_of. destruct tail.
  - eapply ends_bind; [by apply Ht, from_refl|]. intros v s1 F1 Hv. eapply ends_bind; [apply safe_put; [unfold slot; lia..|done]|]. intros [] s2 F2 _.
    eapply ends_bind; [apply safe_put; [unfold slot; lia..|done]|]. intros [] s3 F3 _.
    apply ends_tail; [|done|unfold slot; lia|done]. apply (context_grows Γ c code s); [|done].
    eapply state_grows_trans; [exact (f_grows _ _ _ _ _ F1)|]. eapply state_grows_trans; [exact (f_grows _ _ _ _ _ F2)|exact (f_grows _ _ _ _ _ F3)].
  - eapply ends_bind; [apply safe_put; [unfold slot; lia..|done]|]. intros [] s1 F1 _. eapply ends_bind; [by apply Ht|]. intros v s2 F2 Hv.
    apply ends_call; [|done..]. apply (context_grows Γ c code s1); [exact (f_grows _ _ _ _ _ F2)|]. by apply (context_grows Γ c code s); [exact (f_grows _ _ _ _ _ F1)|].
Qed.

Lemma ends_at (tail : bool) op n s : context_ok c code s → (if tail then ρ = Outermost else falls ops R k ρ) → 0 <= n → n + 3 <= code_size code + 1 →
  ends q top proceeds (v ← get (slot c n + 1); a ← of_outcome (f_object_or_throw v); method m c pc tail op a (slot c n) next) s.
Proof using Hi Hm LibraryLaws0.
  intros Hx Hf Hn Hlt. pose proof (x_base _ _ _ _ Hx). apply ends_beyond; [done|done|lia|]. intros v Hv.
  eapply (ends_bind _ _ _ (λ s' a, s' = s ∧ v = Object a)); [by destruct v; apply safe_outcome|].
  intros a ? _ [-> ->]. apply ends_method; [done|by apply follows_tail|unfold slot, frame_top; lia|unfold slot; lia|done].
Qed.

End Frame.

(** ** Any instruction *)

Inductive t_kind := jumps | members | scopes | constants | returns | calls | others.

#[export] Instance t_kind_eq_dec : EqDecision t_kind.
Proof. solve_decision. Defined.

Definition kind_of (i : t_op) : t_kind :=
  match i with
  | JUMP _ | BRANCH _ _ | SAFE_POINT => jumps
  | OBJECT_GET _ _ | OBJECT_GET_INDIRECT _ | OBJECT_PUT _ _ | OBJECT_PUT_INDIRECT _ | OBJECT_HAS _ _ | OBJECT_HAS_INDIRECT _
  | METHOD_GET _ _ | METHOD_BIND _ | GLOBAL_GET _ _ | CLASS _ | SUPER _ => members
  | STACK_GET _ _ | STACK_PUT _ _ | SCOPE_GET0 _ _ | SCOPE_GET1 _ _ | SCOPE_GET2 _ _ | SCOPE_GET _ _ _ | SCOPE_PUT0 _ _ | SCOPE_PUT _ _ _
  | LAMBDA _ _ | ADVANCED_LAMBDA _ _ => scopes
  | SELF _ | NUL _ | INTEGER _ _ | FLOAT _ _ | INSTANCE _ _ => constants
  | RETURN_NUL | RETURN_INTEGER _ | RETURN_FLOAT _ | RETURN_INSTANCE _ | RETURN _ => returns
  | CALL _ _ _ | STACK_CALL _ _ _ _ | SCOPE_CALL _ _ _ _ _ | GET_AT _ _ | SET_AT _ _ | UNARY _ _ _ _ | BINARY _ _ _ _ _ => calls
  | TRY _ _ _ | CATCH _ _ _ | FINALLY _ | YRT _ _ _ | THROW _ | CALL_WITH_EXPANSION _ _ _ _ => others
  end.

Section Any.
Context (c : t_context) (code : t_code) (R : t_regions) (ρ : t_region) (k : nat).
Context (Hcode : codes !! c_code c = Some code) (Hstr : structured (code_instructions code) R).
Context (HR : R !! k = Some (Some ρ)) (s : t_state) (Hx : context_ok c code s).
Abbreviation ops := (code_instructions code).
Abbreviation q := (v_base c - 2).
Abbreviation top := (frame_top c code).
Abbreviation pc := (address (take k ops)).
Abbreviation goal i := (ops !! k = Some i → ends q top (proceeds c code R ρ) (execute m c pc i) s).

(** What is known of the instruction. *)
Ltac known Hi :=
  pose proof (x_base _ _ _ _ Hx); pose proof (leads code R ρ k _ Hstr Hi HR) as HL;
  pose proof (in_frame Γ Hprogram c code k _ Hcode Hi) as HF; pose proof (in_scopes Γ Hprogram c code k _ Hcode Hi) as HS;
  pose proof (operands Γ Hprogram c code k _ Hcode Hi) as HO; cbn [leads_to disciplined frame_ok scopes_ok operands_ok execute execute_member execute_variable execute_value execute_return execute_call] in *.

(** A value of the frame. *)
Ltac value v Hv := first [apply ends_value; [done|lia|]|apply ends_beyond; [done|lia|lia|]]; intros v Hv.

Ltac leave Hi := apply (ends_leaves c code R ρ k _ Hi); [done|lia|done|].

Lemma ends_jumps i : kind_of i = jumps → goal i.
Proof using All.
  intros Hk Hi. destruct i; try discriminate Hk; known Hi.
  - destruct to as [?|to]; [by destruct HL as (? & [=] & _)|]. eapply ends_goto; [by apply goes_to|]. by apply safe_returns.
  - destruct HL as [HL1 HL2]. destruct to as [?|to]; [by destruct HL1 as (? & [=] & _)|]. value v Hv.
    destruct (f_boolean v); (eapply ends_goto; [|by apply safe_returns]); [by apply (falls_located _ _ _ _ _ Hi)|by apply goes_to].
  - eapply ends_goto; [by apply (falls_located _ _ _ _ _ Hi)|]. by apply safe_returns.
Qed.

Lemma ends_members i : kind_of i = members → goal i.
Proof using All.
  intros Hk Hi. apply ends_given. intros V U. pose proof (i_engine _ _ V) as En. destruct i; try discriminate Hk; known Hi.
  - value v Hv. leave Hi. by apply safe_get_member.
  - value v Hv. value x Hxv. leave Hi. by apply safe_get_member.
  - value v Hv. value x Hxv. leave Hi. eapply safe_bind; [by apply safe_put_member|]. intros [] s1 F1 _. apply safe_returns. exact (value_grows s s1 x (f_grows _ _ _ _ _ F1) Hxv).
  - value v Hv. value a Ha. value x Hxv. leave Hi. eapply safe_bind; [by apply safe_put_member|]. intros [] s1 F1 _. apply safe_returns. exact (value_grows s s1 x (f_grows _ _ _ _ _ F1) Hxv).
  - value v Hv. leave Hi. by apply safe_has_member.
  - value v Hv. value x Hxv. leave Hi. by apply safe_has_member.
  - apply (ends_method_get c code R ρ k _ Hi); [done|done|lia].
  - apply (ends_method_bind c code R ρ k _ Hi); [done|done|lia|lia].
  - leave Hi. apply safe_get_member, (e_global _ En).
  - value v Hv. apply ends_reads. leave Hi. by apply safe_class.
  - value v Hv. apply ends_reads. leave Hi. by apply safe_super.
Qed.

Lemma ends_scopes i : kind_of i = scopes → goal i.
Proof using All.
  intros Hk Hi. destruct i; try discriminate Hk; known Hi.
  - leave Hi. apply safe_get. unfold slot. lia.
  - leave Hi. apply safe_get. unfold slot. lia.
  - leave Hi. by apply safe_entry.
  - leave Hi. by apply safe_entry.
  - leave Hi. by apply safe_entry.
  - leave Hi. by apply safe_entry.
  - apply (ends_put_entry c code R ρ k _ Hcode Hi 0); [done|done|lia|done].
  - apply (ends_put_entry c code R ρ k _ Hcode Hi (Z.to_nat outer)); [done|done|lia|done].
  - leave Hi. by apply (safe_new_lambda Γ c code Hcode).
  - leave Hi. apply (safe_new_advanced Γ c code Hcode); [done|done|unfold slot; lia].
Qed.

Lemma ends_constants i : kind_of i = constants → goal i.
Proof using All.
  intros Hk Hi. apply ends_given. intros V U. pose proof (i_engine _ _ V) as En. destruct i; try discriminate Hk; known Hi.
  - leave Hi. apply safe_get. lia.
  - leave Hi. by apply safe_returns.
  - leave Hi. by apply safe_returns.
  - leave Hi. by apply safe_returns.
  - leave Hi. apply safe_returns. destruct value as [| |o]; [done|done|apply (e_slots _ En)].
Qed.

Lemma ends_returns i : kind_of i = returns → goal i.
Proof using All.
  intros Hk Hi. apply ends_given. intros V U. pose proof (i_engine _ _ V) as En. destruct i; try discriminate Hk; known Hi.
  - by apply ends_return.
  - by apply ends_return.
  - by apply ends_return.
  - apply ends_return; [done|done|]. destruct value as [| |o]; [done|done|apply (e_slots _ En)].
  - value v Hv. by apply ends_return.
Qed.

Lemma ends_calls i : kind_of i = calls → goal i.
Proof using All.
  intros Hk Hi. destruct i; try discriminate Hk; known Hi.
  - destruct tail; [apply ends_tail; [done|done|unfold slot; lia|lia]|]. value v Hv. apply (ends_call c code R ρ k _ Hi); [done|done|lia|lia|lia|done].
  - apply (ends_call_of c code R ρ k _ Hi); [done|done|lia|lia|lia|]. intros s1 F1. apply safe_get. unfold slot. lia.
  - apply (ends_call_of c code R ρ k _ Hi); [done|done|lia|lia|lia|]. intros s1 F1. apply (safe_entry Γ c code Hcode); [|done].
    by apply (context_grows Γ c code s); [exact (f_grows _ _ _ _ _ F1)|].
  - apply (ends_at c code R ρ k _ Hi); [done|done|lia|lia].
  - apply (ends_at c code R ρ k _ Hi); [done|done|lia|lia].
  - by apply (ends_unary c code R ρ k _ ); [|apply (follows_tail code R ρ k _ Hi)|..].
  - by apply (ends_binary c code R ρ k _ ); [|apply (follows_tail code R ρ k _ Hi)|..].
Qed.

Lemma ends_execute i : kind_of i ≠ others → goal i.
Proof using All.
  destruct (kind_of i) eqn:Hk; intros Ho Hi;
    [by apply ends_jumps|by apply ends_members|by apply ends_scopes|by apply ends_constants|by apply ends_returns|by apply ends_calls|done].
Qed.
End Any.
End Execute.
