(* ===== verification/InterpLoop.v ===== *)
(** * The loop (Interp.v)

    [try] and the loop over the instructions.  A machine made from one that
    does what it has to does so, too: verified code runs without a fault,
    however much fuel it has. *)
From stdpp Require Import base list numbers strings gmap.
From S2P Require Import Prelude Machine Layout Ast Types TypeLayout TypeAccess TypeSafety Operators Emit EmitSafety Interp InterpCode InterpState InterpObjects InterpCalls InterpStep InterpFrame InterpExecute.
Local Open Scope Z_scope.

Section Loop.
Context `{Engine} `{Library} `{Numbers} `{Initializers} `{Allocator} `{TypeNames}.
Variable Γ : nat → list Z.
Context `{!LibraryLaws Γ}.
Hypothesis Hprogram : program_ok Γ.
Abbreviation valid := (valid Γ).
Abbreviation safe := (safe Γ).
Abbreviation from := (from Γ).
Abbreviation ends := (ends Γ).
Abbreviation context_ok := (context_ok Γ).

(** A loop that leaves the frame in use. *)
Lemma safe_ends {E A} `{Exception E} p u (Q : t_state → A → Prop) (x : M E A) s :
  ends p u Q x s → (∀ a s', Q s' a → u <= v_used s') → safe p u Q x s.
Proof.
  intros Hx HQ V U. specialize (Hx V U). destruct (x s); try done. destruct Hx as [[? ? ? ?] HA]. split; [|done]. split; try done. by eapply HQ.
Qed.

Section Step.
Variable m : t_machine.
Hypothesis Hm : machine_ok Γ m.

Lemma safe_catches q u v p s : 0 <= p → value_ok (v_world s) v → safe q u anything (catches v p) s.
Proof.
  intros Hp Hv. unfold catches. apply get_same; [done|]. intros type Ht. apply safe_given. intros V U. apply safe_reads.
  destruct type as [| | | |a]; try apply safe_throw. destruct (type_at (v_world s) a) as [t'| |]; try apply safe_throw.
  destruct (f_equal v v_fiber_exit); [by apply safe_returns|].
  destruct (type_of_ok _ v (i_heap _ _ V) Hv) as (x & t & Hx & Htx & _). destruct (i_types _ _ V _ _ Htx) as [_ Hd]. destruct (Hd a) as [r Hr].
  eapply (safe_bind _ _ _ (λ s' y, s' = s ∧ y = x)); [apply safe_outcome; by rewrite Hx|]. intros ? ? _ [-> ->].
  apply safe_outcome. by rewrite Hr.
Qed.

Section Frame.
Context (c : t_context) (code : t_code) (R : t_regions).
Context (Hcode : codes !! c_code c = Some code) (Hstr : structured (code_instructions code) R).
Abbreviation ops := (code_instructions code).
Abbreviation q := (v_base c - 2).
Abbreviation top := (frame_top c code).

Lemma safe_loop ρ pc s : context_ok c code s → located ops R pc ρ → ρ ≠ Outermost → safe q top (exits c code R ρ) (m_loop m c pc) s.
Proof using Hm Hstr.
  intros Hx Hl Hρ. apply safe_ends; [by apply (k_loop Γ m Hm)|]. intros a s' He. by destruct ρ; [|apply He..].
Qed.

(** How the body or a clause of a [try] ends. *)
Definition finishes (j k r : bool) (x : Z) : Prop := ∃ t, x = c_try t ∧ allowed j k r t = true.

Lemma exits_finishes n j k r o s x : exits c code R (Guarded n j k r o) s x → finishes j k r (x.1).
Proof. intros [_ [[Hx _]|(t & Hx & _ & Ha)]]; [by exists c_try__CATCH|by exists t]. Qed.

(** ** [finally] *)

Lemma safe_leave_try j k r o finally0 try0 s : context_ok c code s → located ops R finally0 (Finally j k r o) → finishes j k r try0 →
  safe q top (λ _ to, located ops R to o) (leave_try m c finally0 try0) s.
Proof using Hm Hstr Hcode.
  intros Hx Hl (t & -> & Ha). unfold leave_try. eapply safe_bind; [by apply safe_loop|].
  intros [x pc] s1 F1 (_ & n & i & y1 & y2 & y3 & Hpc & Hi & -> & HR). cbn [snd] in Hpc. subst pc.
  eapply safe_need; [exact Hcode|]. rewrite fetch_address, Hi.
  destruct Hstr as (_ & _ & HS). destruct (HS _ _ _ Hi HR) as (j' & k' & r' & o' & [= <- <- <- <-] & Hf & Hb & Hc & Hr).
  assert (Hto : ∀ (y : option t_place) p, y = Some p → goes ops R p o →
    safe q top (λ _ to, located ops R to o) (match y with Some (Address to) => mret to | _ => faults end : M thrown nat) s1).
  { intros y p -> Hg. destruct (goes_located _ _ _ _ Hg) as (a & -> & Hla). by apply safe_returns. }
  destruct t; cbn in Ha |- *; try (destruct (Hb Ha) as (p & Hp & Hg); by eapply Hto); try (destruct (Hc Ha) as (p & Hp & Hg); by eapply Hto);
    try (destruct (Hr Ha) as (p & Hp & Hg); by eapply Hto).
  all: apply safe_returns; exact (falls_located _ _ _ _ _ Hi Hf).
Qed.

Lemma safe_leave_throwing {A} j k r o finally0 e (P : t_state → A → Prop) s :
  context_ok c code s → located ops R finally0 (Finally j k r o) → value_ok (v_world s) (e.1) →
  safe q top P (leave_throwing m c finally0 e) s.
Proof using Hm Hstr.
  intros Hx Hl He. unfold leave_throwing. eapply safe_bind; [by apply safe_loop|].
  intros ? s1 F1 _. apply safe_raise. exact (value_grows s s1 _ (f_grows _ _ _ _ _ F1) He).
Qed.

(** ** The body and the clauses *)

Lemma safe_clauses_step n j k r o e pc s : context_ok c code s → located ops R pc (Guarded n j k r o) → 0 <= n → value_ok (v_world s) (e.1) →
  safe q top (λ _ x, ∃ t, x = c_try t ∧ t ≠ c_try__CATCH ∧ allowed j k r t = true) (clauses_step m c (v_base c + n) e pc) s.
Proof using Hprogram Hm Hstr Hcode.
  intros Hx Hl Hn He. pose proof (x_base _ _ _ _ Hx). unfold clauses_step. eapply safe_bind; [by apply safe_loop|].
  intros [x pc'] s1 F1 [_ [(Hx0 & l & i & y & sh & ix & Hpc & Hi & -> & HR)|(t & Hxt & Ht & Ha)]]; cbn [fst snd] in *; subst.
  2: { destruct t; try done; apply safe_returns; by eexists. }
  cbn [c_try Z.eqb negb]. eapply safe_need; [exact Hcode|]. rewrite fetch_address, Hi.
  destruct Hstr as (_ & _ & HS). destruct (HS _ _ _ Hi HR) as (_ & Hg & Hf). destruct (goes_located _ _ _ _ Hg) as (to & -> & Hto).
  pose proof (value_grows s s1 _ (f_grows _ _ _ _ _ F1) He) as He1.
  eapply safe_bind; [apply safe_at_pc, safe_catches; [lia|exact He1]|]. intros b s2 F2 _. pose proof (value_grows s1 s2 _ (f_grows _ _ _ _ _ F2) He1) as He2.
  assert (Hx2 : context_ok c code s2).
  { apply (context_grows Γ c code s1); [exact (f_grows _ _ _ _ _ F2)|]. by apply (context_grows Γ c code s); [exact (f_grows _ _ _ _ _ F1)|]. }
  destruct b; [|by eapply (k_clauses Γ m Hm)].
  eapply safe_bind; [apply safe_backtrace|]. intros [] s3 F3 _. pose proof (value_grows s2 s3 _ (f_grows _ _ _ _ _ F3) He2) as He3.
  pose proof (context_grows Γ c code s2 s3 (f_grows _ _ _ _ _ F3) Hx2) as Hx3.
  pose proof (in_frame Γ Hprogram c code l _ Hcode Hi) as HF. pose proof (in_scopes Γ Hprogram c code l _ Hcode Hi) as HS'.
  eapply (safe_bind _ _ _ anything).
  { destruct sh; cbn in HF, HS'; [|apply safe_put; [unfold slot; lia..|done]].
    destruct HS' as (code' & Hc' & Hsh & Hlt). assert (code' = code) as -> by congruence.
    destruct (x_scope _ _ _ _ Hx3 Hsh) as (a & Ha & (es & o' & Hes & Hlen & _)). unfold own_scope. rewrite Ha.
    eapply safe_need; [done|]. by apply (safe_put_entry Γ q top a ix (e.1) es o'); [|lia|]. }
  intros [] s4 F4 _. eapply (k_clauses Γ m Hm); [by apply (context_grows Γ c code s3); [exact (f_grows _ _ _ _ _ F4)|]|done|exact (falls_located _ _ _ _ _ Hi Hf)|done|].
  exact (value_grows s3 s4 _ (f_grows _ _ _ _ _ F4) He3).
Qed.
Lemma safe_f_try k ρ n catch0 finally0 s : context_ok c code s → ops !! k = Some (TRY n (Address catch0) (Address finally0)) → R !! k = Some (Some ρ) →
  safe q top (λ _ to, located ops R to ρ) (f_try m c (address (take k ops)) (v_base c + n) catch0 finally0) s.
Proof using Hprogram Hm Hstr Hcode.
  intros Hx Hi HR. destruct Hstr as (_ & _ & HS). destruct (HS _ _ _ Hi HR) as (j & cn & r & Hf & Hc & Hfin).
  destruct (goes_located _ _ _ _ Hc) as (? & [= <-] & Hlc). destruct (goes_located _ _ _ _ Hfin) as (? & [= <-] & Hlf).
  pose proof (in_frame Γ Hprogram c code k _ Hcode Hi) as HF. cbn in HF.
  unfold f_try. eapply safe_attempt; [apply safe_loop; [done|exact (falls_located _ _ _ _ _ Hi Hf)|done]|..].
  - intros [try0 pc] s1 F1 He. eapply safe_leave_try; [by apply (context_grows Γ c code s); [exact (f_grows _ _ _ _ _ F1)|]|done|by apply exits_finishes in He].
  - intros e s1 F1 He. pose proof (context_grows Γ c code s s1 (f_grows _ _ _ _ _ F1) Hx) as Hx1.
    eapply safe_attempt; [eapply (k_clauses Γ m Hm); [done|done|done|lia|done]|..].
    + intros try0 s2 F2 (t & -> & Ht & Ha). pose proof (context_grows Γ c code s1 s2 (f_grows _ _ _ _ _ F2) Hx1) as Hx2.
      destruct (Z.eqb_spec (c_try t) (c_try c_try__THROW)); [|by eapply safe_leave_try; [..|by eexists]].
      eapply safe_leave_throwing; [done|done|exact (value_grows s1 s2 _ (f_grows _ _ _ _ _ F2) He)].
    + intros e' s2 F2 He'. eapply safe_leave_throwing; [by apply (context_grows Γ c code s1); [exact (f_grows _ _ _ _ _ F2)|]|done|done].
Qed.

(** ** An instruction and the rest *)

Lemma exits_outermost ρ s n pc : proceeds c code R ρ s (Exit n pc) → exits c code R ρ s (n, pc).
Proof. by intros (-> & ? & ?). Qed.

(** What follows an instruction. *)
Lemma ends_rest ρ (x : M thrown t_next) s : context_ok c code s → ends q top (proceeds c code R ρ) x s →
  ends q top (exits c code R ρ) (r ← x; match r with Exit n pc => mret (n, pc) | Goto to => m_loop m c to end) s.
Proof using Hm Hstr.
  intros Hx He. eapply ends_seq; [exact He|]. intros [to|n pc] s1 F1 HP.
  - destruct HP as [Hl Hu]. left. split; [done|]. apply (k_loop Γ m Hm); [by apply (context_grows Γ c code s); [exact (f_grows _ _ _ _ _ F1)|]|done|done].
  - right. eexists. split; [reflexivity|]. by apply exits_outermost.
Qed.

Lemma ends_loop_try k ρ n catch0 finally0 s : context_ok c code s → ops !! k = Some (TRY n catch0 finally0) → R !! k = Some (Some ρ) →
  ends q top (exits c code R ρ) (loop_step m c (address (take k ops))) s.
Proof using Hprogram Hm Hstr Hcode.
  intros Hx Hi HR. unfold loop_step. eapply ends_need; [exact Hcode|]. rewrite fetch_address. eapply ends_need; [exact Hi|]. cbv zeta.
  destruct Hstr as (_ & _ & HS). destruct (HS _ _ _ Hi HR) as (j & cn & r & Hf & Hc & Hfin).
  destruct (goes_located _ _ _ _ Hc) as (a & -> & _), (goes_located _ _ _ _ Hfin) as (b & -> & _).
  eapply ends_bind; [by apply (safe_f_try k ρ)|]. intros to s1 F1 Hl. apply (k_loop Γ m Hm); [|done|done].
  by apply (context_grows Γ c code s); [exact (f_grows _ _ _ _ _ F1)|].
Qed.

Lemma ends_loop_expansion k ρ tail n x rest s : context_ok c code s → ops !! k = Some (CALL_WITH_EXPANSION tail n x rest) → R !! k = Some (Some ρ) →
  ends q top (exits c code R ρ) (loop_step m c (address (take k ops))) s.
Proof using Hprogram Hm Hstr Hcode LibraryLaws0.
  intros Hx Hi HR. pose proof (x_base _ _ _ _ Hx). pose proof (in_frame Γ Hprogram c code k _ Hcode Hi) as HF.
  pose proof (operands Γ Hprogram c code k _ Hcode Hi) as [Hx0 HO]. pose proof (leads code R ρ k _ Hstr Hi HR) as HL. cbn [leads_to disciplined frame_ok] in HL, HF.
  pose proof (c_size _ _ _ (verified Γ Hprogram c code Hcode)).
  unfold loop_step. eapply ends_need; [exact Hcode|]. rewrite fetch_address. eapply ends_need; [exact Hi|]. cbv zeta.
  eapply ends_bind; [apply (safe_f_expand Γ m Hm q top); [unfold frame_top; lia|unfold slot; lia|unfold slot; lia|done|exact HO]|].
  intros y s1 F1 Hy. pose proof (context_grows Γ c code s s1 (f_grows _ _ _ _ _ F1) Hx) as Hx1. pose proof (f_used _ _ _ _ _ F1) as U1. destruct tail.
  - apply ends_rest; [done|]. apply ends_at_pc. apply ends_tail; [done|done|unfold slot; lia|done].
  - eapply ends_bind.
    { apply safe_at_pc. apply get_same; [unfold slot; lia|]. intros v Hv. apply (safe_call Γ m Hm); [unfold slot, frame_top in *; lia..|done]. }
    intros [] s2 F2 _. apply (k_loop Γ m Hm); [|done|exact (falls_located _ _ _ _ _ Hi HL)].
    by apply (context_grows Γ c code s1); [exact (f_grows _ _ _ _ _ F2)|].
Qed.
Lemma ends_loop_execute k ρ i s : context_ok c code s → ops !! k = Some i → R !! k = Some (Some ρ) → kind_of i ≠ others →
  ends q top (exits c code R ρ)
    (r ← at_pc (address (take k ops) + words i)%nat (execute m c (address (take k ops)) i);
     match r with Exit n pc => mret (n, pc) | Goto to => m_loop m c to end) s.
Proof using All.
  intros Hx Hi HR Hk. apply ends_rest; [done|]. apply ends_at_pc. by apply (ends_execute Γ Hprogram m Hm c code R ρ k Hcode Hstr HR s Hx).
Qed.

Lemma safe_loop_step ρ pc s : context_ok c code s → located ops R pc ρ → ends q top (exits c code R ρ) (loop_step m c pc) s.
Proof using All.
  intros Hx (k & i & -> & Hi & HR). pose proof (leads code R ρ k _ Hstr Hi HR) as HL. pose proof (x_base _ _ _ _ Hx).
  pose proof (in_frame Γ Hprogram c code k _ Hcode Hi) as HF.
  destruct (decide (kind_of i = others)) as [Hk|Hk].
  - destruct i; try discriminate Hk; [by eapply ends_loop_try| | | | |by eapply ends_loop_expansion].
    all: unfold loop_step; eapply ends_need; [exact Hcode|]; rewrite fetch_address; (eapply ends_need; [exact Hi|]); cbv zeta; cbn [leads_to disciplined frame_ok] in HL, HF.
    + destruct HL as ((n & j & cn & r & o & ->) & _). eapply ends_safe; [apply (safe_returns Γ _ _ (λ s' x, s' = s ∧ x = (c_try c_try__CATCH, address (take k ops)))); done|].
      intros ? s1 F1 [-> ->]. split; [apply (f_used _ _ _ _ _ F1)|]. left. split; [done|]. by eexists _, _, _, _, _.
    + destruct HL as (Ht & n & j & cn & r & o & -> & Ha). eapply ends_safe; [by apply (safe_returns Γ _ _ (λ s' x, s' = s ∧ x.1 = c_try try))|].
      intros x s1 F1 [-> Hx1]. split; [apply (f_used _ _ _ _ _ F1)|]. right. by exists try.
    + destruct HL as (j & cn & r & o & -> & _). eapply ends_safe; [apply (safe_returns Γ _ _ (λ s' x, s' = s ∧ x = (0, address (take k ops)))); done|].
      intros ? s1 F1 [-> ->]. split; [apply (f_used _ _ _ _ _ F1)|]. by eexists _, _, _, _, _.
    + apply ends_at_pc. eapply (ends_safe Γ _ _ (λ _ _, False)); [|done]. apply get_same; [unfold slot; lia|]. intros v Hv. by apply safe_raise.
  - pose proof (ends_loop_execute k ρ i s Hx Hi HR Hk) as HE. destruct i; try (by destruct Hk);
      (unfold loop_step; eapply ends_need; [exact Hcode|]; rewrite fetch_address; (eapply ends_need; [exact Hi|]); exact HE).
Qed.
End Frame.

(** ** Machines *)

Lemma machine_step : machine_ok Γ (Machine (loop_step m) (clauses_step m) (call_step m) (finish_step m)).
Proof using All.
  split; cbn [m_loop m_clauses m_call m_finish].
  - intros c code R ρ pc s Hx Hstr Hl. by eapply safe_loop_step; [apply (x_code _ _ _ _ Hx)|..].
  - intros c code R n j k r o e pc s Hx Hstr Hl Hn He. by eapply safe_clauses_step; [apply (x_code _ _ _ _ Hx)|..].
  - intros v p n s Hp Hn Hv. by eapply (safe_call_step Γ).
  - intros p n s Hp Hn. by apply (safe_finish_step Γ).
Qed.
End Step.

Lemma machine_no_fuel : machine_ok Γ (Machine (λ _ _ _, Exhausted) (λ _ _ _ _ _, Exhausted) (λ _ _ _ _, Exhausted) (λ _ _ _, Exhausted)).
Proof. split; cbn; done. Qed.

Lemma machine_safe fuel : machine_ok Γ (machine fuel).
Proof using All. induction fuel as [|fuel IH]; [apply machine_no_fuel|]. by apply machine_step. Qed.
End Loop.
