(* ===== verification/InterpSafety.v ===== *)
(** * Running a script (Interp.v)

    A module whose code is verified runs without a fault: it returns or throws,
    unless it exhausts the fuel, goes beyond the end of the stack, or depends on
    what C++ leaves undefined in an operator on numbers, in a slot that nothing
    was written to, or in a native function.  The stack is left as it was. *)
From stdpp Require Import base list numbers strings gmap.
From S2P Require Import Prelude Machine Layout Ast Types TypeLayout TypeAccess TypeSafety Operators Emit EmitSafety Interp InterpCode InterpState InterpObjects InterpCalls InterpStep InterpFrame InterpExecute InterpLoop.
Local Open Scope Z_scope.

Section Safety.
Context `{Engine} `{Library} `{Numbers} `{Initializers} `{Allocator} `{TypeNames}.
Variable Γ : nat → list Z.
Context `{!LibraryLaws Γ}.

(** A state after a computation that gives back what it used of the stack. *)
Record left_by (s s' : t_state) : Prop := {
  l_valid : valid Γ s';
  l_grows : grows s s';
  l_stack : take (Z.to_nat (v_used s)) (v_estack s') = take (Z.to_nat (v_used s)) (v_estack s);
  l_used : v_used s' = v_used s;
}.

(** How a computation may end. *)
Definition unharmed {A} (s : t_state) (r : run value A) : Prop :=
  match r with
  | Returns _ s' => left_by s s'
  | Throws e s' => left_by s s' ∧ value_ok (v_world s') e
  | Traps | Overflows | Exhausted => True
  | Faults => False
  end.

Lemma safe_unharmed {A} (P : t_state → A → Prop) (x : M value A) s : valid Γ s → safe Γ (v_used s) (v_used s) P x s →
  match x s with Returns _ s' | Throws _ s' => v_used s' = v_used s | _ => True end → unharmed s (x s).
Proof.
  intros V Hx Hu. specialize (Hx V (Z.le_refl _)). destruct (x s) as [a s'|e s'| | | |]; try done; cbn; destruct Hx as [[V' G K _] Hp]; [|split; [|done]]; by split.
Qed.

(** A [t_scoped_stack] gives back what it used. *)
Lemma scoped_used {A} p (x : M value A) s :
  match (r ← attempt x; _ ← updates (set_used p); match r with inr _ => mret () | inl e => raise e end : M value ()) s with
  | Returns _ s' | Throws _ s' => v_used s' = p
  | _ => True
  end.
Proof. unfold mbind, run_bind, attempt. by destruct (x s). Qed.

Lemma script_used fuel k builder s :
  match f_execute_script fuel k builder s with Returns _ s' | Throws _ s' => v_used s' = v_used s | _ => True end.
Proof.
  unfold f_execute_script, code_at, need. unfold mbind at 1, run_bind at 1, new_object at 1. cbn beta iota zeta.
  unfold mbind at 1, run_bind at 1. destruct (codes !! k); [|done]. cbn [mret run_ret]. 
  unfold mbind at 1, run_bind at 1, new_object at 1. cbn beta iota zeta.
  unfold mbind at 1, run_bind at 1, reads at 1. cbn [v_used set_bodies set_world].
  unfold mbind at 1, run_bind at 1, updates at 1. unfold mbind at 1, run_bind at 1.
  unfold put. destruct (_ <? 0); [done|]. destruct (decide _); [|done]. exact (scoped_used (v_used s) _ _).
Qed.

Lemma safe_script fuel k builder s code : program_ok Γ → codes !! k = Some code → Γ k = [] → value_ok (v_world s) builder →
  safe Γ (v_used s) (v_used s) anything (f_execute_script fuel k builder) s.
Proof.
  intros Hprogram Hk HΓ Hb. apply safe_given. intros V _. pose proof (i_used _ _ V) as U0. unfold f_execute_script.
  eapply safe_bind; [apply safe_new_object; [apply e_scope|intros _; apply Forall_nil_2]|]. intros scope s1 F1 _.
  eapply safe_need; [exact Hk|].
  eapply safe_bind; [apply safe_new_object; [intros He; apply (e_lambda _ He)|intros _; split; [by eexists|by rewrite HΓ]]|].
  intros lambda s2 F2 [Hl _]. apply safe_reads. pose proof (f_used _ _ _ _ _ F2) as U2.
  pose proof (value_grows s1 s2 _ (f_grows _ _ _ _ _ F2) (value_grows s s1 _ (f_grows _ _ _ _ _ F1) Hb)) as Hb2.
  eapply (safe_relax _ _ (v_used s2) _ (v_used s2) _ anything); [done|done|done| |done]. set (p := v_used s2) in *. apply safe_given. intros V2 _. pose proof (i_used _ _ V2).
  apply safe_set_used; [lia|lia|]. intros s3 F3 U3. pose proof (value_grows s2 s3 _ (f_grows _ _ _ _ _ F3) Hb2) as Hb3.
  eapply safe_bind; [apply safe_put; [lia|lia|done]|]. intros [] s4 F4 _. pose proof (f_used _ _ _ _ _ F4) as U4.
  eapply (safe_attempt _ _ _ (λ _ _, True)).
  - eapply (safe_relax _ _ p _ (v_used s4) _ (λ _ n, -1 <= n)); [done|lia|done| |done].
    apply (k_call Γ _ (machine_safe Γ Hprogram fuel)); [lia|done|].
    exact (value_grows s3 s4 _ (f_grows _ _ _ _ _ F4) (value_grows s2 s3 _ (f_grows _ _ _ _ _ F3) Hl)).
  - intros n s5 F5 _. apply safe_set_used; [lia|lia|]. intros s6 F6 _. by apply safe_returns.
  - intros e s5 F5 He. apply safe_set_used; [lia|lia|]. intros s6 F6 _. apply safe_raise. exact (value_grows s5 s6 _ (f_grows _ _ _ _ _ F6) He).
Qed.

End Safety.
