(* ===== verification/InterpCheck.v ===== *)
(** * Checking code (InterpCode.v)

    A program that decides whether code is verified, given the region of each
    instruction and the scopes around each lambda. *)
From stdpp Require Import base list numbers strings gmap.
From S2P Require Import Prelude Machine Ast Types Operators Emit EmitSafety Interp InterpCode.
Local Open Scope Z_scope.

#[export] Instance t_region_eq_dec : EqDecision t_region.
Proof. solve_decision. Defined.
#[export] Instance t_try_eq_dec : EqDecision t_try.
Proof. solve_decision. Defined.

(** ** Regions *)

Section regions.
Variable (ops : list t_op) (R : t_regions).

Definition falls_b (k : nat) (ρ : t_region) : bool := bool_decide (S k < length ops)%nat && bool_decide (R !! S k = Some (Some ρ)).

Definition goes_b (p : t_place) (ρ : t_region) : bool :=
  match p with
  | Address a => existsb (λ k, bool_decide (a = address (take k ops)) && bool_decide (R !! k = Some (Some ρ))) (seq 0 (length ops))
  | Label _ => false
  end.

Definition goes_if (b : bool) (p : option t_place) (ρ : t_region) : bool :=
  negb b || match p with Some p => goes_b p ρ | None => false end.

(** The region of the next instruction. *)
Definition after (k : nat) : option t_region := R !! S k ≫= id.

Definition leads_b (k : nat) (ρ : t_region) (i : t_op) : bool :=
  match i with
  | JUMP p => goes_b p ρ
  | BRANCH _ p => goes_b p ρ && falls_b k ρ
  | TRY n p q =>
    match after k with
    | Some (Guarded n' j c r o) =>
      bool_decide (n' = n) && bool_decide (o = ρ) && falls_b k (Guarded n j c r ρ) && goes_b p (Guarded n j c r ρ) && goes_b q (Finally j c r ρ)
    | _ => false
    end
  | CATCH p _ _ => match ρ with Guarded _ _ _ _ _ => goes_b p ρ && falls_b k ρ | _ => false end
  | FINALLY t => match ρ with Guarded _ j c r _ => bool_decide (t ≠ c_try__CATCH) && allowed j c r t | _ => false end
  | YRT x y z => match ρ with Finally j c r o => falls_b k o && goes_if j x o && goes_if c y o && goes_if r z o | _ => false end
  | THROW _ => true
  | RETURN_NUL | RETURN_INTEGER _ | RETURN_FLOAT _ | RETURN_INSTANCE _ | RETURN _ => bool_decide (ρ = Outermost)
  | CALL true _ _ | CALL_WITH_EXPANSION true _ _ _ | STACK_CALL true _ _ _ | SCOPE_CALL _ true _ _ _
  | GET_AT true _ | SET_AT true _ | UNARY _ true _ _ | BINARY _ true _ _ _ => bool_decide (ρ = Outermost)
  | _ => falls_b k ρ
  end.

Definition structured_b : bool :=
  bool_decide (length R = length ops) && bool_decide (R !! 0%nat = Some (Some Outermost)) &&
  forallb (λ k, match ops !! k, R !! k with Some i, Some (Some ρ) => leads_b k ρ i | _, _ => true end) (seq 0 (length ops)).

Lemma falls_spec k ρ : falls_b k ρ = true → falls ops R k ρ.
Proof. unfold falls_b. intros [H1%bool_decide_eq_true H2%bool_decide_eq_true]%andb_true_iff. by split. Qed.

Lemma goes_spec p ρ : goes_b p ρ = true → goes ops R p ρ.
Proof.
  destruct p as [|a]; [done|]. cbn. rewrite existsb_exists. intros (k & Hk%in_seq & [H1%bool_decide_eq_true H2%bool_decide_eq_true]%andb_true_iff).
  exists k. split_and!; [by rewrite H1|lia|done].
Qed.

Lemma goes_if_spec b p ρ : goes_if b p ρ = true → b = true → ∃ q, p = Some q ∧ goes ops R q ρ.
Proof. intros Hg ->. cbn in Hg. destruct p as [p|]; [|done]. exists p. split; [done|]. by apply goes_spec. Qed.

Lemma leads_spec k ρ i : leads_b k ρ i = true → leads_to ops R k ρ i.
Proof.
  destruct i; try destruct tail; cbn [leads_b leads_to disciplined]; rewrite ?andb_true_iff; try (intros Hb; by apply bool_decide_eq_true in Hb); try (intros; by apply falls_spec); try done.
  - apply goes_spec.
  - intros [??]. split; [by apply goes_spec|by apply falls_spec].
  - destruct (after k) as [[|n' j c r o|]|]; try done. rewrite !andb_true_iff, !bool_decide_eq_true. intros [[[[-> ->] ?] ?] ?].
    exists j, c, r. split_and!; [by apply falls_spec|by apply goes_spec..].
  - destruct ρ as [|n j c r o|]; try done. rewrite andb_true_iff. intros [? ?].
    split_and!; [by exists n, j, c, r, o|by apply goes_spec|by apply falls_spec].
  - destruct ρ as [|n j c r o|]; try done. rewrite andb_true_iff, bool_decide_eq_true. intros [? ?]. split; [done|]. by exists n, j, c, r, o.
  - destruct ρ as [| |j c r o]; try done. rewrite !andb_true_iff. intros [[[? ?] ?] ?]. exists j, c, r, o.
    split_and!; [done|by apply falls_spec|by apply goes_if_spec..].
Qed.

Lemma structured_spec : structured_b = true → structured ops R.
Proof.
  unfold structured_b. rewrite !andb_true_iff, !bool_decide_eq_true, forallb_forall. intros [[Hlen H0] Hall].
  split_and!; [done|done|]. intros k i ρ Hi HR. apply leads_spec. pose proof (lookup_lt_Some _ _ _ Hi).
  specialize (Hall k). rewrite Hi, HR in Hall. apply Hall, in_seq. lia.
Qed.
End regions.

(** ** Operands *)

#[export] Instance operand_ok_dec size o : Decision (operand_ok size o).
Proof. destruct o; cbn; apply _. Defined.

#[export] Instance frame_ok_dec size i : Decision (frame_ok size i).
Proof. destruct i; cbn; try apply _. destruct shared; apply _. Defined.

#[export] Instance expands_ok_dec rest : ∀ n, Decision (expands_ok rest n).
Proof. induction rest as [|d rest IH]; intros n; cbn; apply _. Defined.

#[export] Instance operands_ok_dec i : Decision (operands_ok i).
Proof. destruct i; cbn; apply _. Defined.

#[export] Instance signature_ok_dec c : Decision (signature_ok c).
Proof. unfold signature_ok. apply _. Defined.

(** ** Scopes *)

Section Scopes.
Context `{Engine}.
Variable Γ : nat → list Z.

#[export] Instance reaches_dec k outer x : Decision (reaches Γ k outer x).
Proof.
  destruct outer as [|n]; cbn.
  - destruct (codes !! k) as [c|] eqn:Hc; [|right; by intros (? & ? & _)].
    destruct (decide (code_shared c = true ∧ 0 <= x < code_shareds c)) as [Hd|Hd]; [left; by exists c|].
    right. intros (c' & [= <-] & Hx). by apply Hd.
  - destruct (Γ k !! n) as [size|] eqn:Hs; [|right; by intros (? & ? & _)].
    destruct (decide (0 <= x < size)) as [Hd|Hd]; [left; by exists size|]. right. by intros (? & [= <-] & ?).
Defined.

#[export] Instance nests_dec k j : Decision (nests Γ k j).
Proof.
  unfold nests. destruct (codes !! k) as [c|] eqn:Hc; [|right; by intros (? & ? & ? & _)].
  destruct (codes !! j) as [c'|] eqn:Hc'; [|right; by intros (? & ? & _ & ? & _)].
  destruct (decide (code_shared c = true ∧ Γ j = code_shareds c :: Γ k)) as [[? ?]|Hd]; [left; by exists c, c'|].
  right. intros (x & y & [= <-] & _ & Hx). by apply Hd.
Defined.

#[export] Instance scopes_ok_dec k i : Decision (scopes_ok Γ k i).
Proof. destruct i; cbn [scopes_ok scoped]; try apply _. destruct shared; apply _. Defined.

(** ** Programs *)

Definition check_code (k : nat) (c : t_code) (R : t_regions) : bool :=
  bool_decide (0 <= code_size c) && bool_decide (signature_ok c)
  && bool_decide (Forall (frame_ok (code_size c + 1)) (code_instructions c)) && bool_decide (Forall (scopes_ok Γ k) (code_instructions c))
  && bool_decide (Forall operands_ok (code_instructions c)) && structured_b (code_instructions c) R.

Definition check_program (regions : list t_regions) : bool :=
  forallb (λ k, match codes !! k, regions !! k with Some c, Some R => check_code k c R | _, _ => false end) (seq 0 (length codes)).

Lemma check_program_ok regions : check_program regions = true → program_ok Γ.
Proof.
  unfold check_program. rewrite forallb_forall. intros Hall k c Hc. specialize (Hall k).
  rewrite Hc in Hall. assert (Hk : In k (seq 0 (length codes))) by (apply in_seq; apply lookup_lt_Some in Hc; lia).
  specialize (Hall Hk). destruct (regions !! k) as [R|]; [|done]. unfold check_code in Hall.
  rewrite !andb_true_iff, !bool_decide_eq_true in Hall. destruct Hall as [[[[[? ?] ?] ?] ?] ?].
  split; try done. exists R. by apply structured_spec.
Qed.
End Scopes.
