(* ===== verification/InterpExamples.v ===== *)
(** * Scripts that run (Interp.v)

    Modules from their text to their results: a world of types, the functions
    of native types, and scripts that are parsed, compiled, checked and run. *)
From stdpp Require Import base list numbers strings gmap relations.
From S2P Require Import Prelude Machine Layout Lexer Ast Parser ParserTotal Types TypeLayout TypeAccess TypeSafety Operators OperatorAgreement.
From S2P Require Import Flow FlowGraph FlowAnalysis Emit EmitSafety EmitTree EmitExamples Interp InterpCode InterpState InterpObjects InterpCalls InterpSafety InterpCheck.
Import Site Sample.
Local Open Scope Z_scope.

(** ** A world *)

Module Run.
Definition with_bindable (t : t_type) : t_type :=
  Type' (v_native t) (v_super t) (v_module t) (v_instance_fields t) (fields t) (key2index t) true.

(** The symbols of the operators, and that of [Throwable]. *)
Definition run_symbols : world := with_objects symbol_world (<[300 := symbol_object "Throwable"]> (objects symbol_world)).

(** A type with the operators of [Object], whose natives are missing. *)
Definition rooted (T : t_native_type) : t_type :=
  get_ok (boot_object T) (f_define run_symbols (boot_object T) f_symbol (λ _, Null)).

Definition class_type : t_type := Eval vm_compute in rooted (NativeType 0 class_do_get object_do_put false).
Definition plain : t_type := Eval vm_compute in rooted object_native.
Definition builder_t : t_type := Eval vm_compute in rooted (NativeType 16 builder_do_get builder_do_put false).
Definition modul : t_type := Eval vm_compute in
  get_ok plain (derive_type run_symbols 6 plain object_native Null (Fields [300] []) false).

Definition store_objects : list (Z * t_object) :=
  [(5, Object' 5 [] (of_type class_type));
   (6, Object' 5 [] (of_type plain));
   (7, Object' 5 [] (of_type builder_t));
   (8, Object' 5 [] (of_type (with_bindable plain)));
   (11, Object' 5 [] (of_type modul));
   (12, Object' 11 [Object 6] of_other);
   (300, Object' 6 [] (of_symbol "Throwable"));
   (301, Object' 6 [] (of_symbol "size"))].

Definition store : world := World (list_to_map store_objects) (λ _, 6) 6 7 5 0.

Lemma rooted_ok T : type_ok (rooted T).
Proof.
  assert (HT : ∃ t, f_define run_symbols (boot_object T) f_symbol (λ _, Null) = Ok t ∧ rooted T = t) by (eexists; split; [vm_compute; reflexivity|vm_compute; reflexivity]).
  destruct HT as (t & Ht & ->).
  apply (f_define_ok run_symbols T f_symbol (λ _, Null) t _ ltac:(by intros []) Ht).
Qed.

Lemma plain_ok : type_ok plain.
Proof. exact (rooted_ok object_native). Qed.

Lemma modul_ok : type_ok modul.
Proof.
  apply (derive_type_layout run_symbols 6 plain object_native Null (Fields [300] []) false modul plain_ok); [apply Forall_cons; split; [by vm_compute|apply Forall_nil_2]|by vm_compute..].
Qed.

(** The types of the store. *)
Lemma store_type a t : type_at store a = Ok t →
  (a, t) ∈ [(5, class_type); (6, plain); (7, builder_t); (8, with_bindable plain); (11, modul)].
Proof.
  unfold type_at, object_at. destruct (objects store !! a) as [o|] eqn:Ho; [|done]. cbn.
  apply elem_of_list_to_map_2 in Ho.
  repeat (apply elem_of_cons in Ho as [[= -> ->]|Ho]; [cbn [o_data]; first [done|intros [= <-]; repeat first [left|right]]|]).
  by apply not_elem_of_nil in Ho.
Qed.

Lemma store_types : types_ok store.
Proof.
  assert (Hstep : ∀ a t b, type_at store a = Ok t →
    f_derives_step store b a = if a =? b then Ok (inr true) else match v_super t with Some p => Ok (inl p) | None => Ok (inr false) end).
  { intros a t b Ht. unfold f_derives_step. rewrite Ht. by destruct (a =? b). }
  assert (Hroot : ∀ n a t b, type_at store a = Ok t → v_super t = None → ∃ r, Prelude.loop (S n) (f_derives_step store b) a = Ok r).
  { intros n a t b Ht Hs. cbn [Prelude.loop]. rewrite (Hstep _ _ _ Ht), Hs. destruct (a =? b); by eexists. }
  assert (Hsize : size (objects store) = 8%nat) by (by vm_compute).
  intros a t Ht. pose proof Ht as Hin. apply store_type in Hin. split.
  - repeat (apply elem_of_cons in Hin as [[= -> ->]|Hin]; [apply Z.leb_le; vm_compute; reflexivity|]). by apply not_elem_of_nil in Hin.
  - intros b. unfold f_derives. rewrite Hsize.
    repeat (apply elem_of_cons in Hin as [[= -> ->]|Hin]; [try by apply (Hroot _ _ _ b Ht)|]); [|by apply not_elem_of_nil in Hin].
    cbn [Prelude.loop]. rewrite (Hstep _ _ _ Ht). destruct (11 =? b); [by eexists|]. by apply (Hroot 7%nat 6 plain).
Qed.

Lemma run_store_ok : heap_ok store.
Proof.
  assert (Hpl : plain_type store 6) by (exists plain; split_and!; try done; apply plain_ok).
  split; [|split; [done|split; [done|by exists builder_t]]].
  intros a o Ho. apply elem_of_list_to_map_2 in Ho.
  assert (Hobj : ∀ x t d l, type_at store x = Ok t → Z.of_nat (length l) = v_instance_fields t → expected (v_native t) d →
    Forall (value_ok store) l → data_ok store d → match d with of_type _ => l = [] | _ => True end → object_ok store (Object' x l d)).
  { intros x t d l ? ? ? ? ? ?. split_and!; try done. by exists t. }
  assert (Hex : ∀ t', expected (v_native class_type) (of_type t')) by (intros t'; split; [by eexists|by intros []]).
  assert (Hty : ∀ t', type_ok t' → Forall (λ x, x = Null) (fields t').*2 → object_ok store (Object' 5 [] (of_type t'))).
  { intros t' Ht Hn. apply (Hobj 5 class_type (of_type t') []); try done. split; [done|]. eapply Forall_impl; [exact Hn|]. by intros x ->. }
  repeat (apply elem_of_cons in Ho as [[= -> ->]|Ho]); [..|by apply not_elem_of_nil in Ho].
  - apply Hty; [exact (rooted_ok _)|by apply (bool_decide_unpack _); vm_compute].
  - apply Hty; [exact plain_ok|by apply (bool_decide_unpack _); vm_compute].
  - apply Hty; [exact (rooted_ok (NativeType 16 builder_do_get builder_do_put false))|by apply (bool_decide_unpack _); vm_compute].
  - apply Hty; [exact plain_ok|by apply (bool_decide_unpack _); vm_compute].
  - apply Hty; [exact modul_ok|by apply (bool_decide_unpack _); vm_compute].
  - apply (Hobj 11 modul of_other); try done; [split; [done|by intros []]|]. apply Forall_cons. split; [by eexists|apply Forall_nil_2].
  - apply (Hobj 6 plain (of_symbol "Throwable")); try done. split; [done|by intros []].
  - apply (Hobj 6 plain (of_symbol "size")); try done. split; [done|by intros []].
Qed.
(** ** An engine without native functions *)

Definition run_engine (l : list Emit.t_code) : Engine :=
  {| codes := l; symbol_at s := if decide (s = Throwable_) then 300 else 301; slot_at _ := Null;
     v_module_global := 12; v_fiber_exit := Object 5; type_of_scope := 6; type_of_lambda _ _ := 8; type_of_tuple := 6; type_of_throwable := 6 |}.

(** Calls of types other than classes are native, and give [null]. *)
Definition run_overrides (s : t_state) (a : Z) (op : operator) : bool :=
  match op, type_at (v_world s) a with
  | op_call, Ok t => match v_get (v_native t), v_put (v_native t) with object_do_get, object_do_put => false | _, _ => true end
  | _, _ => false
  end.

#[export] Instance run_library : Library := {| overrides := run_overrides; library _ _ _ _ _ := mret Null; list_at _ _ := None |}.

Lemma run_laws l Γ : LibraryLaws (H := run_engine l) Γ.
Proof.
  split.
  - intros callback op a self xs s _ _ _ _ _. by apply safe_returns.
  - done.
  - intros s a o t V Ho Ha Hd. cbn in Ho. unfold run_overrides, type_at, object_at in Ho. rewrite Ha in Ho. cbn in Ho. rewrite Hd in Ho.
    by destruct (v_get (v_native t)), (v_put (v_native t)).
Qed.

(** A state with a stack of two hundred values. *)
Definition start : t_state := State store ∅ ∅ (replicate 200 None) 0.

Lemma start_ok l Γ : valid (H := run_engine l) Γ start.
Proof.
  assert (Hpl : ∀ a t, type_at store a = Ok t → type_ok t → v_instance_fields t = 0 → v_get (v_native t) = object_do_get →
    v_put (v_native t) = object_do_put → plain_type store a) by (intros a t ? ? ? ? ?; by exists t).
  split; cbn -[replicate]; try done.
  - apply run_store_ok.
  - apply store_types.
  - split; cbn [codes symbol_at slot_at v_module_global type_of_scope type_of_lambda type_of_tuple type_of_throwable run_engine].
    + by eexists.
    + done.
    + by apply (Hpl 6 plain eq_refl plain_ok).
    + intros _ _. by apply (Hpl 8 (with_bindable plain) eq_refl plain_ok).
    + by apply (Hpl 6 plain eq_refl plain_ok).
    + by apply (Hpl 6 plain eq_refl plain_ok).
    + by exists class_type.
  - apply Forall_replicate. done.
Qed.

(** ** Scripts *)

(** The codes of a script, that of the module last. *)
Definition compile (s : string) : list Emit.t_code :=
  match emit_module (parsed s).1 false (parsed s).2 with Ok (code, codes) => codes ++ [code] | _ => [] end.

(** What a script leaves in the slots of the variables of its module, or the
    message of what it throws. *)
Definition run_script (fuel : nat) (l : list Emit.t_code) : option (list (option value) + option string) :=
  match f_execute_script (H := run_engine l) fuel (pred (length l)) Null start with
  | Returns _ s => Some (inl (take 5 (drop 2 (v_estack s))))
  | Throws (Object a) s => match v_bodies s !! a with Some (body_throwable message _) => Some (inr (Some message)) | _ => Some (inr None) end
  | _ => None
  end.

Definition lines (l : list string) : string := foldr (λ x s, (x +:+ nl +:+ s)%string) EmptyString l.

Definition fib : list Emit.t_code := Eval vm_compute in compile (lines
  ["fib = @(n)"; "  if n < 2"; "    n"; "  else"; "    fib(n - 1) + fib(n - 2)"; "x = fib(7)"]%string).

Definition trying_text : string := lines
  ["f = @(n)"; "  x = 0"; "  try"; "    x = n(1)"; "  catch Throwable e"; "    return 7"; "  finally"; "    x = 5"; "  x"; "y = f(3)"; "z = f(@(x) x + 3)"]%string.

Definition trying : list Emit.t_code := Eval vm_compute in compile trying_text.
End Run.
Import Run.

(** [x] is the thirteenth; [y] is what the clause returns, for 3 cannot be called;
    [z] is what the part after the clauses assigns. *)
Example fib_runs : run_script 1000 fib = Some (inl [Some (Integer 13); Some (Integer 13); Some Null; Some (Integer 7); Some (Boolean false)]).
Proof. vm_compute. reflexivity. Qed.

Example trying_runs : option_map (sum_map (λ l, take 2 (drop 1 l)) id) (run_script 1000 trying) = Some (inl [Some (Integer 7); Some (Integer 5)]).
Proof. vm_compute. reflexivity. Qed.

(** A parameter with a default, and the rest of the arguments. *)
Example arguments_fill : run_script 1000 (compile (lines ["f = @(a, b = 7, *c)"; "  @() a + b"; "x = f(1)()"; "y = f(1, 2, 3)()"; "f()"]%string)) = Some (inr (Some "too few arguments.")).
Proof. vm_compute. reflexivity. Qed.

(** A variable that is called before it is assigned: the slot was not written
    to. *)
Definition unassigned : list Emit.t_code := Eval vm_compute in compile (lines ["f = @"; "  x()"; "  x = 1"; "f()"]%string).

Example unassigned_traps : f_execute_script (H := run_engine unassigned) 1000 1 Null start = Traps.
Proof. vm_compute. reflexivity. Qed.

(** *** Their regions *)

Definition run_scopes (k : nat) : list Z := if decide (k < 2)%nat then [0] else [].

Definition trying_region : t_region := Guarded 3 false false true Outermost.

Definition trying_regions : list t_regions :=
  let o := Some Outermost in let g := Some trying_region in let f := Some (Finally false false true Outermost) in
  [[o; o; g; g; g; g; g; g; g; g; g; g; None; None; g; f; f; o; o]; [o; o]; [o; o; o; o; o; o; o; o; o]].

Lemma trying_checks : check_program (H := run_engine trying) run_scopes trying_regions = true.
Proof. vm_compute. reflexivity. Qed.

