(* ===== verification/EmitRegions.v ===== *)
(** * A logic for the regions of emitted code (Emit.v, InterpCode.v)

    Emitted code is verified code: this file has the assertion about the state
    of the generator that says so of the code so far, and the rules for the
    steps of [t_emit].  It is a logic of partial correctness, for EmitTree.v
    shows that the generator does not fail. *)
From stdpp Require Import base list numbers strings gmap.
From S2P Require Import Prelude Machine Lexer Ast Types Operators Flow Emit EmitSafety InterpCode.
Local Open Scope Z_scope.

(** ** Instructions in regions *)

Lemma disciplined_mono (goes goes' : t_place → t_region → Prop) (falls falls' : t_region → Prop) ρ i :
  (∀ p σ, goes p σ → goes' p σ) → (∀ σ, falls σ → falls' σ) → disciplined goes falls ρ i → disciplined goes' falls' ρ i.
Proof.
  intros Hg Hf. destruct i; try destruct tail; cbn; auto; try (intuition eauto; fail).
  - intros (j & c & r & ? & ? & ?). exists j, c, r. auto.
  - intros (j & c & r & o & -> & Ho & Hb & Hc & Hr). exists j, c, r, o.
    split_and!; [done|by apply Hf|..]; intros Hx; [destruct (Hb Hx) as (p & ? & ?)|destruct (Hc Hx) as (p & ? & ?)|destruct (Hr Hx) as (p & ? & ?)]; eauto.
Qed.

Lemma resolve_option_some labels p q : resolve_option labels (Some p) = Ok q → ∃ p', q = Some p' ∧ resolve_place labels p = Ok p'.
Proof. cbn. destruct (resolve_place labels p) as [p'| |]; try done. intros [= <-]. by exists p'. Qed.

(** The places that an instruction has when its labels are resolved. *)
Ltac resolved :=
  repeat match goal with
  | H : (match ?m with Ok _ => _ | _ => _ end) = Ok _ |- _ => let E := fresh "Hplace" in destruct m eqn:E; try discriminate H; cbn [mbind outcome_bind] in H
  | H : (?m ≫= _) = Ok _ |- _ => let E := fresh "Hplace" in destruct m eqn:E; try discriminate H; cbn [mbind outcome_bind] in H
  | H : Ok _ = Ok _ |- _ => injection H as H; subst
  end.

Lemma disciplined_resolve labels (goes goes' : t_place → t_region → Prop) (falls : t_region → Prop) ρ i i' :
  (∀ p p' σ, resolve_place labels p = Ok p' → goes p σ → goes' p' σ) →
  resolve_op labels i = Ok i' → disciplined goes falls ρ i → disciplined goes' falls ρ i'.
Proof.
  intros Hg Hr. destruct i; cbn [resolve_op] in Hr; try (injection Hr as <-; done); resolved; cbn; try (intuition eauto; fail).
  - intros (j & c & r & ? & ? & ?). exists j, c, r. eauto.
  - intros (j & c & r & o & -> & Ho & Hb & Hc & Hrt). exists j, c, r, o. split_and!; try done; intros Hx.
    + destruct (Hb Hx) as (p & -> & ?). apply resolve_option_some in Hplace as (p' & -> & ?). eauto.
    + destruct (Hc Hx) as (p & -> & ?). apply resolve_option_some in Hplace0 as (p' & -> & ?). eauto.
    + destruct (Hrt Hx) as (p & -> & ?). apply resolve_option_some in Hplace1 as (p' & -> & ?). eauto.
Qed.

(** ** The scopes of a code *)

(** The number of variables of the own scope, if there is one, and those of
    the scopes around it. *)
Definition own_of (c : t_code) : option Z := if code_shared c then Some (code_shareds c) else None.

Definition reach (own : option Z) (outer : list Z) (k : nat) (x : Z) : Prop :=
  match k with
  | O => ∃ size, own = Some size ∧ 0 <= x < size
  | S k => ∃ size, outer !! k = Some size ∧ 0 <= x < size
  end.

(** [G]: the scopes around the lambdas of the codes. *)
Definition nest (own : option Z) (outer : list Z) (G : list (list Z)) (j : nat) : Prop :=
  ∃ size, own = Some size ∧ G !! j = Some (size :: outer).

Definition sound_op (own : option Z) (outer : list Z) (G : list (list Z)) (i : t_op) : Prop :=
  scoped (reach own outer) (nest own outer G) i ∧ operands_ok i.

Lemma sound_mono own outer G G' i : G `prefix_of` G' → sound_op own outer G i → sound_op own outer G' i.
Proof.
  intros HG [H1 H2]. split; [|done]. destruct i; cbn in *; try done; destruct H1 as (size & ? & ?); exists size; (split; [done|]); by eapply prefix_lookup_Some.
Qed.

Lemma sound_resolve labels own outer G i i' : resolve_op labels i = Ok i' → sound_op own outer G i → sound_op own outer G i'.
Proof. intros Hr. destruct i; cbn [resolve_op] in Hr; try (injection Hr as <-; done); resolved; done. Qed.

(** A code that is complete. *)
Record finished (own : option Z) (outer : list Z) (G : list (list Z)) (c : t_code) : Prop := {
  fin_own : own_of c = own;
  fin_privates : 0 <= code_privates c;
  fin_signature : signature_ok c;
  fin_sound : Forall (sound_op own outer G) (code_instructions c);
  fin_regions : ∃ R, structured (code_instructions c) R;
}.

Definition done_code (G : list (list Z)) (j : nat) (c : t_code) : Prop := ∃ outer, G !! j = Some outer ∧ finished (own_of c) outer G c.

Lemma finished_mono own outer G G' c : G `prefix_of` G' → finished own outer G c → finished own outer G' c.
Proof. intros HG [H1 H2 H3 H4 H5]. split; try done. eapply Forall_impl; [exact H4|]. intros i. by apply sound_mono. Qed.

Lemma done_mono G G' j c : G `prefix_of` G' → done_code G j c → done_code G' j c.
Proof. intros HG (outer & Hj & Hc). exists outer. split; [by eapply prefix_lookup_Some|by eapply finished_mono]. Qed.

(** ** What holds of the code so far *)

(** The region of each instruction and of the next one, that of each label, and
    the scopes around each code. *)
Record t_ghost := Ghost { g_regions : list (option t_region); g_labels : list (option t_region); g_scopes : list (list Z) }.

Definition toward (L : list (option t_region)) (p : t_place) (ρ : t_region) : Prop := ∃ l, p = Label l ∧ L !! l = Some (Some ρ).

(** The codes of [pending] are begun, but not complete. *)
Record tracks (own : option Z) (outer : list Z) (pending : list nat) (g : t_ghost) (ρ : option t_region) (s : t_emit) : Prop := {
  tr_start : g_regions g !! 0%nat = Some (Some Outermost);
  tr_length : length (g_regions g) = S (length (code_instructions (v_code s)));
  tr_next : g_regions g !! length (code_instructions (v_code s)) = Some ρ;
  tr_ops k i σ : code_instructions (v_code s) !! k = Some i → g_regions g !! k = Some (Some σ) →
    disciplined (toward (g_labels g)) (λ τ, g_regions g !! S k = Some (Some τ)) σ i;
  tr_labels : length (g_labels g) = length (v_labels s);
  tr_targets l x σ : v_labels s !! l = Some (Some x) → g_labels g !! l = Some (Some σ) →
    ∃ k, x = address (take k (code_instructions (v_code s))) ∧ (k <= length (code_instructions (v_code s)))%nat ∧ g_regions g !! k = Some (Some σ);
  tr_own : own_of (v_code s) = own;
  tr_privates : 0 <= code_privates (v_code s);
  tr_signature : signature_ok (v_code s);
  tr_sound : Forall (sound_op own outer (g_scopes g)) (code_instructions (v_code s));
  tr_scopes : length (g_scopes g) = length (v_codes s);
  tr_codes j c : v_codes s !! j = Some c → j ∈ pending ∨ done_code (g_scopes g) j c;
}.

Section Regions.
Context (own : option Z) (outer : list Z) (pending : list nat).

(** [K]: the regions of some labels; [G]: the scopes around the first codes. *)
Record at_ (K : list (nat * option t_region)) (G : list (list Z)) (ρ : option t_region) (T : t_targets) (s : t_emit) : Prop := At {
  at_ghost : ∃ g, tracks own outer pending g ρ s ∧ Forall (λ x, g_labels g !! x.1 = Some x.2) K ∧ G `prefix_of` g_scopes g;
  at_targets : v_targets s = T;
}.

(** The code is complete. *)
Definition sealed (G : list (list Z)) (s : t_emit) : Prop :=
  ∃ G', G `prefix_of` G' ∧ length G' = length (v_codes s) ∧ (∀ j c, v_codes s !! j = Some c → j ∈ pending ∨ done_code G' j c) ∧
    finished own outer G' (v_code s).

Lemma at_relax K K' G G' ρ T s : K' ⊆ K → G' `prefix_of` G → at_ K G ρ T s → at_ K' G' ρ T s.
Proof.
  intros HK HG [(g & Hg & HF & HP) HT]. split; [|done]. exists g. split_and!; [done| |by etrans].
  apply Forall_forall. intros x Hx. rewrite Forall_forall in HF. by apply HF, HK.
Qed.

(** ** Triples *)

Definition triple {A} (P : t_emit → Prop) (m : E A) (Q : A → t_emit → Prop) : Prop := ∀ s a s', P s → m s = Ok (a, s') → Q a s'.

Definition keeps {A} (P : t_emit → Prop) (m : E A) : Prop := triple P m (λ _, P).

Lemma triple_bind {A B} (m : E A) (f : A → E B) P R Q : triple P m R → (∀ a, triple (R a) (f a) Q) → triple P (m ≫= f) Q.
Proof.
  intros Hm Hf s b s' Hs Hb. cbv [mbind E_bind] in Hb. destruct (m s) as [[a s1]| |] eqn:E; try done. eapply Hf; [|exact Hb]. by eapply Hm.
Qed.

Lemma triple_seq {A B} (m : E A) (f : A → E B) P Q : keeps P m → (∀ a, triple P (f a) Q) → triple P (m ≫= f) Q.
Proof. intros Hm Hf. by eapply triple_bind. Qed.

Lemma triple_given {A B} (R : A → Prop) (m : E A) (f : A → E B) P P' Q :
  triple P m (λ a s, P' a s ∧ R a) → (∀ a, R a → triple (P' a) (f a) Q) → triple P (m ≫= f) Q.
Proof. intros Hm Hf. eapply triple_bind; [exact Hm|]. intros a s b s' [Hs Ha]. by eapply Hf. Qed.

Lemma triple_weaken {A} (m : E A) P P' (Q Q' : A → t_emit → Prop) :
  triple P m Q → (∀ s, P' s → P s) → (∀ a s, Q a s → Q' a s) → triple P' m Q'.
Proof. intros Hm HP HQ s a s' Hs Ha. eapply HQ, Hm; [by apply HP|done]. Qed.

Lemma triple_ret {A} (x : A) P (Q : A → t_emit → Prop) : (∀ s, P s → Q x s) → triple P (mret x) Q.
Proof. intros HQ s a s' Hs [= <- <-]. by apply HQ. Qed.

Lemma keeps_ret {A} (x : A) P : keeps P (mret x).
Proof. by apply triple_ret. Qed.

Lemma keeps_gets {A} (f : t_emit → A) P : keeps P (gets f).
Proof. by intros s a s' Hs [= <- <-]. Qed.

Lemma keeps_lift {A} (m : outcome A) P : keeps P (lift m).
Proof. intros s a s' Hs. unfold lift. by destruct m; intros [= <- <-]. Qed.

Lemma triple_lift {A B} (m : outcome A) (f : A → E B) P Q : (∀ a, m = Ok a → triple P (f a) Q) → triple P (lift m ≫= f) Q.
Proof. intros Hf s b s' Hs Hb. cbv [mbind E_bind lift] in Hb. destruct m as [a| |]; try done. by eapply Hf. Qed.

Lemma triple_the {A B} (o : option A) (f : A → E B) P Q : (∀ a, o = Some a → triple P (f a) Q) → triple P (the o ≫= f) Q.
Proof. intros Hf s b s' Hs Hb. cbv [mbind E_bind the] in Hb. destruct o as [a|]; try done. by eapply Hf. Qed.

Lemma keeps_the {A} (o : option A) P : keeps P (the o).
Proof. intros s a s' Hs. unfold the. by destruct o; intros [= <- <-]. Qed.

Lemma keeps_fault {A} P : keeps P (fault : E A).
Proof. by intros s a s' Hs. Qed.

Lemma keeps_assert p P : keeps P (assert_ p).
Proof. intros s a s' Hs. unfold assert_. by destruct (p s); intros [= <- <-]. Qed.

Lemma keeps_when b m P : keeps P m → keeps P (when b m).
Proof. intros Hm. destruct b; [done|apply keeps_ret]. Qed.

(** ** Steps *)

(** Steps that do not change what the assertion is about. *)
Record silent (s s' : t_emit) : Prop := {
  si_ops : code_instructions (v_code s') = code_instructions (v_code s);
  si_labels : v_labels s' = v_labels s;
  si_own : own_of (v_code s') = own_of (v_code s);
  si_privates : code_privates (v_code s') = code_privates (v_code s);
  si_signature : signature_ok (v_code s) → signature_ok (v_code s');
  si_codes : v_codes s' = v_codes s;
  si_targets : v_targets s' = v_targets s;
}.

Lemma tracks_silent g ρ s s' : silent s s' → tracks own outer pending g ρ s → tracks own outer pending g ρ s'.
Proof. intros [S1 S2 S3 S4 S5 S6 S7] []. split; rewrite ?S1, ?S2, ?S3, ?S4, ?S6; auto. Qed.

Context (K : list (nat * option t_region)) (G : list (list Z)) (T : t_targets).

Lemma keeps_silent {A} (m : E A) ρ : (∀ s a s', m s = Ok (a, s') → silent s s') → keeps (at_ K G ρ T) m.
Proof.
  intros Hm s a s' [(g & Hg & HK & HG) HT] Ha. specialize (Hm s a s' Ha). split; [|rewrite (si_targets _ _ Hm); done].
  exists g. split_and!; [|done|done]. by eapply tracks_silent.
Qed.

Ltac silently := apply keeps_silent; intros s a s' Ha; cbv [modify] in Ha; injection Ha as <- <-; by split.

Lemma keeps_push ρ : keeps (at_ K G ρ T) f_push.
Proof. apply keeps_silent. intros s a s' Ha. cbv [f_push modify] in Ha. injection Ha as <- <-. cbn. by destruct (_ <? _); split. Qed.

Lemma keeps_pop ρ : keeps (at_ K G ρ T) f_pop.
Proof. unfold f_pop. silently. Qed.

Lemma keeps_at p ρ : keeps (at_ K G ρ T) (f_at p).
Proof. unfold f_at. silently. Qed.

Lemma keeps_ats f ρ : keeps (at_ K G ρ T) (modify (λ s, set_code (with_ats (f s) (v_code s)) s)).
Proof. silently. Qed.

Lemma keeps_size n ρ : keeps (at_ K G ρ T) (modify (λ s, set_code (with_size n (v_code s)) s)).
Proof. silently. Qed.

Lemma keeps_set_stack n ρ : keeps (at_ K G ρ T) (modify (set_stack n)).
Proof. silently. Qed.

Lemma keeps_set_privates xs ρ : keeps (at_ K G ρ T) (modify (set_privates xs)).
Proof. silently. Qed.

Lemma keeps_mark i ρ : keeps (at_ K G ρ T) (mark i).
Proof. apply keeps_silent. intros s a s' Ha. unfold mark in Ha. destruct (decide _); [|done]. injection Ha as <- <-. by split. Qed.

Lemma keeps_merge blocks i ρ : keeps (at_ K G ρ T) (f_merge blocks i).
Proof. apply keeps_silent. intros s a s' Ha. unfold f_merge in Ha. destruct (decide _); [done|]. injection Ha as <- <-. by split. Qed.

Lemma triple_set_targets T' ρ : triple (at_ K G ρ T) (modify (set_targets T')) (λ _, at_ K G ρ T').
Proof. intros s a s' [(g & [] & HK & HG) HT] [= <- <-]. split; [|done]. by exists g. Qed.

Lemma triple_get_targets {A} (f : t_targets → E A) ρ Q : triple (at_ K G ρ T) (f T) Q → triple (at_ K G ρ T) (gets v_targets ≫= f) Q.
Proof. intros Hf s a s' Hs Ha. apply (Hf s a s' Hs). cbv [mbind E_bind gets] in Ha. by rewrite (at_targets _ _ _ _ _ Hs) in Ha. Qed.

(** An instruction, and the region that is chosen for the next one. *)
Lemma triple_emit i ρ ρ' :
  (∀ σ, ρ = Some σ → disciplined (λ p τ, ∃ l, p = Label l ∧ (l, Some τ) ∈ K) (λ τ, ρ' = Some τ) σ i) → sound_op own outer G i →
  triple (at_ K G ρ T) (emit i) (λ _, at_ K G ρ' T).
Proof.
  intros Hd Hi s a s' [(g & [] & HK & HG) HT] [= <- <-]. split; [|done]. set (ops := code_instructions (v_code s)) in *.
  exists (Ghost (g_regions g ++ [ρ']) (g_labels g) (g_scopes g)). split_and!; [|done|done].
  assert (Hlen : length (ops ++ [i]) = S (length ops)) by (rewrite length_app; cbn; lia).
  split; cbn [v_code v_codes v_labels set_code with_instructions code_instructions g_regions g_labels g_scopes code_privates]; fold ops; rewrite ?Hlen; try done.
  - by rewrite lookup_app_l by lia.
  - rewrite length_app. cbn. lia.
  - rewrite lookup_app_r, tr_length0 by lia. by rewrite Nat.sub_diag.
  - intros k i' σ Hk HR. destruct (decide (k < length ops)%nat) as [Hlt|Hge].
    + rewrite lookup_app_l in Hk by done. rewrite lookup_app_l in HR by lia. rewrite lookup_app_l by lia. by apply tr_ops0.
    + rewrite lookup_app_r in Hk by lia. apply list_lookup_singleton_Some in Hk as [Hk <-].
      assert (k = length ops) as -> by lia. rewrite lookup_app_l in HR by lia. assert (ρ = Some σ) as -> by (rewrite tr_next0 in HR; congruence).
      eapply disciplined_mono; [..|by apply Hd].
      * intros p τ (l & -> & Hl). exists l. split; [done|]. rewrite Forall_forall in HK. by apply (HK _ Hl).
      * intros τ ->. rewrite lookup_app_r, tr_length0 by lia. by rewrite Nat.sub_diag.
  - intros l x σ Hl HR. destruct (tr_targets0 l x σ Hl HR) as (k & -> & Hk & Hs). exists k. split_and!; [by rewrite take_app_le|lia|by rewrite lookup_app_l by lia].
  - apply Forall_app. split; [done|]. constructor; [|done]. by eapply sound_mono.
Qed.

(** A label, and its region. *)
Lemma triple_label σ ρ : triple (at_ K G ρ T) f_label (λ l, at_ ((l, σ) :: K) G ρ T).
Proof.
  intros s a s' [(g & [] & HK & HG) HT] [= <- <-]. split; [|done].
  exists (Ghost (g_regions g) (g_labels g ++ [σ]) (g_scopes g)). split_and!; cbn; [|constructor; cbn|done].
  - split; cbn; rewrite ?length_app; cbn; auto.
    + intros k i τ Hk HR. eapply disciplined_mono; [..|by apply tr_ops0]; [|done]. intros p υ (l & -> & Hl). exists l. split; [done|by apply lookup_app_l_Some].
    + intros l x τ Hl HR. apply lookup_app_Some in Hl as [Hl|[_ Hl]]; [|by apply list_lookup_singleton_Some in Hl as [_ ?]].
      apply (tr_targets0 l); [done|]. rewrite lookup_app_l in HR; [done|]. rewrite tr_labels0. by eapply lookup_lt_Some.
  - rewrite lookup_app_r, tr_labels0 by lia. by rewrite Nat.sub_diag.
  - eapply Forall_impl; [exact HK|]. intros x Hx. by apply lookup_app_l_Some.
Qed.

Lemma keeps_target l ρ : (l, ρ) ∈ K → keeps (at_ K G ρ T) (f_target l).
Proof.
  intros Hl s a s' [(g & [] & HK & HG) HT] [= <- <-]. split; [|done]. exists g. split_and!; [|done|done].
  split; cbn; rewrite ?length_insert; auto. intros m x σ Hm HR. apply list_lookup_insert_Some in Hm as [(<- & [= <-] & _)|[_ Hm]]; [|by apply (tr_targets0 m)].
  rewrite Forall_forall in HK. specialize (HK _ Hl). cbn in HK. exists (length (code_instructions (v_code s))). split_and!; [by rewrite take_ge|done|].
  rewrite tr_next0. congruence.
Qed.
End Regions.
