(* ===== verification/EmitLambda.v ===== *)
(** * The codes of lambdas are verified (Emit.v, EmitRegions.v)

    A code whose labels are resolved is complete, and what a lambda does with
    the state of the generator keeps the assertion about the code around it. *)
From stdpp Require Import base list numbers strings gmap.
From S2P Require Import Prelude Machine Lexer Ast Types Operators Flow Emit EmitSafety InterpCode EmitRegions.
Local Open Scope Z_scope.

(** ** Resolution *)

Lemma resolve_words labels i i' : resolve_op labels i = Ok i' → words i' = words i.
Proof. intros Hr. destruct i; cbn [resolve_op] in Hr; try (injection Hr as <-; done); resolved; done. Qed.

Lemma resolve_all_each labels ops ops' : resolve_all labels ops = Ok ops' → Forall2 (λ i i', resolve_op labels i = Ok i') ops ops'.
Proof.
  revert ops'. induction ops as [|i ops IH]; intros ops' Hr; cbn [resolve_all] in Hr; [injection Hr as <-; constructor|].
  resolved. constructor; auto.
Qed.

Lemma resolve_address labels ops ops' k : Forall2 (λ i i', resolve_op labels i = Ok i') ops ops' → address (take k ops') = address (take k ops).
Proof.
  intros HF. revert k. induction HF as [|i i' ops ops' Hi HF IH]; intros [|k]; try done. unfold address in *. cbn.
  by rewrite (resolve_words _ _ _ Hi), IH.
Qed.

Lemma resolve_sound labels own outer G ops ops' :
  Forall2 (λ i i', resolve_op labels i = Ok i') ops ops' → Forall (sound_op own outer G) ops → Forall (sound_op own outer G) ops'.
Proof. induction 1 as [|i i' ops ops' Hi HF IH]; intros Hs; [constructor|]. apply Forall_cons in Hs as [H1 H2]. constructor; [by eapply sound_resolve|by apply IH]. Qed.

Section Seal.
Context (own : option Z) (outer : list Z) (pending : list nat).

Lemma triple_resolve K G T : triple (at_ own outer pending K G None T) f_resolve (λ _, sealed own outer pending G).
Proof.
  intros s a s' [(g & [] & HK & HG) HT] Hr. unfold f_resolve in Hr. resolved. rename a0 into ops'. set (ops := code_instructions (v_code s)) in *.
  apply resolve_all_each in Hplace as HF. pose proof (Forall2_length _ _ _ HF) as Hlen.
  assert (Hpos : (0 < length ops)%nat).
  { destruct (Nat.eq_0_gt_0_cases (length ops)) as [Hz|]; [|done]. rewrite Hz, tr_start in tr_next. done. }
  exists (g_scopes g). cbn. split_and!; [done|done|done|]. split; cbn; [done|done|done| |].
  - by eapply resolve_sound.
  - exists (take (length ops) (g_regions g)). 
    assert (HL : ∀ k, (k < length ops)%nat → take (length ops) (g_regions g) !! k = g_regions g !! k) by (intros k ?; by apply lookup_take_lt).
    split_and!; [rewrite length_take; lia|by rewrite HL|].
    intros k i' ρ Hi' HR. destruct (Forall2_lookup_r _ _ _ _ _ HF Hi') as (i & Hi & Hri). pose proof (lookup_lt_Some _ _ _ Hi) as Hk. rewrite HL in HR by done.
    unfold leads_to. eapply disciplined_mono; [intros p σ Hp; exact Hp| |].
    2: { eapply (disciplined_resolve (v_labels s)); [|exact Hri|by apply tr_ops].
      intros p p' σ Hp (l & -> & Hl). cbn in Hp. destruct (v_labels s !! l) as [[x|]|] eqn:Hx; try done. injection Hp as <-.
      destruct (tr_targets l x σ Hx Hl) as (m & -> & Hm & Hmσ). exists m. rewrite (resolve_address _ _ _ _ HF).
      assert (m ≠ length ops) by (intros ->; rewrite tr_next in Hmσ; done). split_and!; [done|lia|by rewrite HL by lia]. }
    intros σ Hσ. assert (S k ≠ length ops) by (intros E; rewrite E, tr_next in Hσ; done). split; [lia|by rewrite HL by lia].
Qed.

(** The last instruction. *)
Lemma triple_seal i K G T : (∃ n, i = RETURN n) ∨ i = RETURN_NUL →
  triple (at_ own outer pending K G (Some Outermost) T) (_ ← emit i; f_resolve) (λ _, sealed own outer pending G).
Proof.
  intros Hi. apply (triple_bind _ _ _ (λ _, at_ own outer pending K G None T)); [|intros ?; apply triple_resolve]. apply triple_emit.
  - intros σ [= <-]. by destruct Hi as [[n ->]| ->].
  - by destruct Hi as [[n ->]| ->].
Qed.

(** ** Entering and leaving *)

Lemma leave_at G K ρ T own' outer' s0 s1 g :
  tracks own outer pending g ρ s0 → Forall (λ x, g_labels g !! x.1 = Some x.2) K → G `prefix_of` g_scopes g → v_targets s0 = T →
  sealed own' outer' (length (v_codes s0) :: pending) (g_scopes g ++ [outer']) s1 →
  at_ own outer pending K (g_scopes g ++ [outer']) ρ T (leave_lambda s0 (set_codes (<[length (v_codes s0) := v_code s1]> (v_codes s1)) s1)).
Proof.
  intros Hg HK HG HT (G' & HP & Hlen & Hcodes & Hfin). destruct Hg. split; [|done].
  assert (HG' : G' !! length (v_codes s0) = Some outer').
  { eapply prefix_lookup_Some; [|exact HP]. rewrite lookup_app_r, tr_scopes by lia. by rewrite Nat.sub_diag. }
  assert (Hg' : g_scopes g `prefix_of` G') by (etrans; [|exact HP]; by apply prefix_app_r).
  exists (Ghost (g_regions g) (g_labels g) G'). split_and!; [|done|done]. split; cbn; auto.
  - eapply Forall_impl; [exact tr_sound|]. intros i. by apply sound_mono.
  - by rewrite length_insert.
  - intros j c Hj. apply list_lookup_insert_Some in Hj as [(<- & <- & _)|[Hne Hj]].
    + right. exists outer'. split; [done|]. by rewrite (fin_own _ _ _ _ Hfin).
    + destruct (Hcodes j c Hj) as [Hin|?]; [|by right]. apply elem_of_cons in Hin as [->|?]; [done|by left].
Qed.

Lemma enter_at path c arguments privates code ρ s g own' outer' :
  tracks own outer pending g ρ s → own_of code = own' → 0 <= code_privates code → signature_ok code → code_instructions code = [] →
  let s1 := enter_lambda path c arguments privates code (set_codes (v_codes s ++ [code]) s) in
  at_ own' outer' (length (v_codes s) :: pending) [(0%nat, Some Outermost)] (g_scopes g ++ [outer']) (Some Outermost) (v_targets s1) s1.
Proof.
  intros [] Ho Hp Hs Hi s1. split; [|done]. exists (Ghost [Some Outermost] [Some Outermost] (g_scopes g ++ [outer'])).
  split_and!; [|by repeat constructor|done]. split; cbn; rewrite ?Hi; try done.
  - intros l x σ Hl. by apply list_lookup_singleton_Some in Hl as [_ ?].
  - rewrite !length_app. cbn. lia.
  - intros j c' Hj. apply lookup_app_Some in Hj as [Hj|[Hlen Hj]].
    + destruct (tr_codes j c' Hj) as [?|?]; [left; by apply elem_of_cons; right|right]. by eapply done_mono; [apply prefix_app_r|].
    + apply list_lookup_singleton_Some in Hj as [Hj _]. left. apply elem_of_cons. left. lia.
Qed.
End Seal.
