(* ===== verification/EmitRegular.v ===== *)
(** * Every kind of node keeps its region (Emit.v, EmitRegions.v)

    Each lemma takes the parts of a node to keep the region in which they are,
    and shows that the node does: the code that it emits is verified, if the
    code before was, and it ends in the region in which it began. *)
From stdpp Require Import base list numbers strings gmap.
From S2P Require Import Prelude Machine Lexer Ast Types Operators Flow Emit EmitSafety InterpCode EmitRegions EmitLambda.
Local Open Scope Z_scope.

(** The targets of jumps are in the region of the node. *)
Record aims (K : list (nat * option t_region)) (ρ : t_region) (T : t_targets) : Prop := {
  aim_break l : v_break T = Some l → (l, Some ρ) ∈ K;
  aim_continue l : v_continue T = Some l → (l, Some ρ) ∈ K;
  aim_return l : v_return T = Some l → (l, Some ρ) ∈ K;
  aim_break_tail : v_break_is_tail T = true → ρ = Outermost;
  aim_return_tail : v_return_is_tail T = true → ρ = Outermost;
}.

Lemma aims_mono K K' ρ T : K ⊆ K' → aims K ρ T → aims K' ρ T.
Proof. intros HK []. split; auto. Qed.

(** A node keeps its region, whatever the code around it. *)
Definition regular (own : option Z) (outer : list Z) (e : t_emitter) : Prop :=
  ∀ pending K G ρ T (tail operand clear : bool), aims K ρ T → (tail = true → ρ = Outermost) →
    keeps (at_ own outer pending K G (Some ρ) T) (e tail operand clear).

(** ** Constants *)

Lemma constant_plain n v i : constant_op n v = Some i →
  (∀ goes falls ρ, disciplined goes falls ρ i = falls ρ) ∧ ∀ own outer G, sound_op own outer G i.
Proof. destruct v as [z|d|[|b|o]| |]; intros [= <-]; split; done. Qed.

Lemma return_plain v i : constant_return v = Some i →
  (∀ goes falls ρ, disciplined goes falls ρ i = (ρ = Outermost)) ∧ ∀ own outer G, sound_op own outer G i.
Proof. destruct v as [z|d|v| |]; intros [= <-]; split; done. Qed.

Lemma keeps_constant own outer pending K G ρ T n v i :
  constant_op n v = Some i → keeps (at_ own outer pending K G (Some ρ) T) (emit i).
Proof. intros Hi. destruct (constant_plain _ _ _ Hi) as [Hd Hs]. apply triple_emit; [|apply Hs]. intros σ [= <-]. by rewrite Hd. Qed.

Lemma keeps_return own outer pending K G ρ T v i :
  constant_return v = Some i → ρ = Outermost → keeps (at_ own outer pending K G (Some ρ) T) (emit i).
Proof. intros Hi Hρ. destruct (return_plain _ _ Hi) as [Hd Hs]. apply triple_emit; [|apply Hs]. intros σ [= <-]. by rewrite Hd. Qed.

(** ** Automation: one rule per step *)

Create HintDb keeps.
#[export] Hint Resolve keeps_push keeps_pop keeps_at keeps_ats keeps_size keeps_set_stack keeps_set_privates keeps_mark keeps_merge keeps_target : keeps.
#[export] Hint Resolve keeps_ret keeps_gets keeps_lift keeps_the keeps_fault keeps_assert : keeps.

(** The region of a label is known. *)
Ltac known := repeat first [assumption|by left|right].

Ltac aimed := first [assumption|eapply aims_mono; [|eassumption]; intros ? ?; known].

#[export] Hint Extern 1 (aims _ _ _) => aimed : keeps.
#[export] Hint Extern 1 (_ ∈ _) => known : keeps.

(** An instruction that goes on to the next, or to a label whose region is
    known, or is the last of the code. *)
Ltac plain :=
  let σ := fresh "σ" in intros σ [= <-]; cbn;
  repeat match goal with |- context [if ?b then _ else _] => is_var b; destruct b end;
  first [done|by eauto|repeat split; first [reflexivity|eexists; split; [reflexivity|solve [known]]]].

Ltac keep1 :=
  lazymatch goal with |- triple ?P ?m (λ _, ?P) => change (keeps P m) | _ => idtac end;
  lazymatch goal with
  | |- keeps _ (mbind _ (the _)) => apply triple_the; intros ? ?
  | |- keeps _ (mbind _ _) => apply triple_seq; [|intros ?]
  | H : constant_op _ _ = Some ?i |- keeps _ (emit ?i) => apply (keeps_constant _ _ _ _ _ _ _ _ _ _ H)
  | H : constant_return _ = Some ?i |- keeps _ (emit ?i) => apply (keeps_return _ _ _ _ _ _ _ _ _ H); by auto
  | |- keeps _ (emit _) => first [solve [eauto with keeps]|apply triple_emit; [solve [plain]|try by split]]
  | |- keeps _ temporary => apply keeps_ret
  | |- keeps _ (when ?b _) => let E := fresh "E" in destruct b eqn:E; cbn [when]
  | |- keeps _ (if ?b then _ else _) => let E := fresh "E" in destruct b eqn:E
  | W : regular _ _ ?e |- keeps _ (?e _ _ _) => apply W; [aimed|first [done|assumption]]
  | |- keeps _ _ => solve [eauto with keeps]
  end.

Ltac keep := repeat keep1.

Section Plain.
Context (blocks : t_blocks) (v_safe_points : bool) (own : option Z) (outer : list Z) (pending : list nat).
Context (K : list (nat * option t_region)) (G : list (list Z)) (ρ : t_region) (T : t_targets).
Abbreviation P := (at_ own outer pending K G (Some ρ) T).

Lemma keeps_pops n : keeps P (f_pops n).
Proof. induction n as [|n IH]; cbn [f_pops]; keep. Qed.

Lemma keeps_null : keeps P f_emit_null.
Proof. unfold f_emit_null. keep. Qed.

Lemma keeps_safe_point p : keeps P (f_emit_safe_point v_safe_points p).
Proof. unfold f_emit_safe_point. keep. Qed.

Lemma keeps_clear p clear : keeps P (at_and_clear p clear).
Proof. unfold at_and_clear. keep. Qed.

Lemma keeps_join i : keeps P (f_join blocks i).
Proof.
  unfold f_join. generalize 0%nat as k. induction (v_block_privates (block i blocks)) as [|x xs IH]; intros k; cbn [join_from]; keep.
  destruct (_ !! _) as [[]|]; keep.
Qed.

Lemma keeps_push_value e : regular own outer e → aims K ρ T → keeps P (push_value e).
Proof. intros W HA. unfold push_value. keep. Qed.
End Plain.

#[export] Hint Resolve keeps_pops keeps_null keeps_safe_point keeps_clear keeps_join keeps_push_value : keeps.

(** ** Values and members *)

Section Nodes.
Context (blocks : t_blocks) (v_safe_points : bool) (own : option Z) (outer : list Z).
Abbreviation regular := (regular own outer).

Ltac start := intros pending K G ρ T tail operand clear HA HT.

Lemma regular_literal p v : regular (emit_literal v_safe_points p v).
Proof. start. unfold emit_literal. keep. Qed.

Lemma regular_null p : regular (emit_null v_safe_points p).
Proof. start. unfold emit_null. keep. Qed.

Lemma regular_preserve : regular emit_preserve.
Proof. start. unfold emit_preserve. keep. Qed.

Section Members.
Context (e1 e2 e3 : t_emitter) (W1 : regular e1) (W2 : regular e2) (W3 : regular e3).

Lemma regular_object_get p key : regular (emit_object_get v_safe_points p e1 key).
Proof using W1. start. unfold emit_object_get, emit_on_top. keep. Qed.

Lemma regular_object_get_indirect p : regular (emit_object_get_indirect v_safe_points p e1 e2).
Proof using W1 W2. start. unfold emit_object_get_indirect, emit_on_top. keep. Qed.

Lemma regular_object_put p key : regular (emit_object_put v_safe_points p e1 key e2).
Proof using W1 W2. start. unfold emit_object_put, emit_on_top. keep. Qed.

Lemma regular_object_put_indirect p : regular (emit_object_put_indirect v_safe_points p e1 e2 e3).
Proof using W1 W2 W3. start. unfold emit_object_put_indirect, emit_on_top. keep. Qed.

Lemma regular_object_has p key : regular (emit_object_has v_safe_points p e1 key).
Proof using W1. start. unfold emit_object_has, emit_on_top. keep. Qed.

Lemma regular_object_has_indirect p : regular (emit_object_has_indirect v_safe_points p e1 e2).
Proof using W1 W2. start. unfold emit_object_has_indirect, emit_on_top. keep. Qed.

Lemma regular_class p : regular (emit_class_or_super v_safe_points p e1 CLASS).
Proof using W1. start. unfold emit_class_or_super. keep. Qed.

Lemma regular_super p : regular (emit_class_or_super v_safe_points p e1 SUPER).
Proof using W1. start. unfold emit_class_or_super. keep. Qed.

Lemma regular_throw p : regular (emit_throw p e1).
Proof using W1. start. unfold emit_throw. keep. Qed.

Lemma regular_get_at p : regular (emit_get_at v_safe_points p e1 e2).
Proof using W1 W2. start. unfold emit_get_at, assert_tail. keep. Qed.

Lemma regular_set_at p : regular (emit_set_at v_safe_points p e1 e2 e3).
Proof using W1 W2 W3. start. unfold emit_set_at, assert_tail. keep. Qed.
End Members.

(** ** Variables *)

(** The variable of the scope is one that it has. *)
Definition in_reach (k : nat) (x : t_variable) : Prop := v_shared x = true → reach own outer k (Z.of_nat (v_index x)).

Lemma keeps_scope_get pending K G ρ T k n i : reach own outer k i → keeps (at_ own outer pending K G (Some ρ) T) (emit (scope_get k n i)).
Proof.
  intros Hr. apply triple_emit; [intros σ [= <-]; by destruct k as [|[|[|k]]]|].
  split; destruct k as [|[|[|k]]]; try done. cbn [scope_get scoped]. by rewrite Nat2Z.id.
Qed.

Lemma keeps_scope_put pending K G ρ T k n i : reach own outer k i →
  keeps (at_ own outer pending K G (Some ρ) T) (emit (if decide (0 < k)%nat then SCOPE_PUT n (Z.of_nat k) i else SCOPE_PUT0 n i)).
Proof.
  intros Hr. destruct (decide (0 < k)%nat) as [Hk|Hk]; apply triple_emit; try by intros σ [= <-]; by cbn.
  - split; [|done]. cbn. by rewrite Nat2Z.id.
  - assert (k = O) as -> by lia. by split.
Qed.

Lemma keeps_initialize pending K G ρ T x : keeps (at_ own outer pending K G (Some ρ) T) (initialize x).
Proof. unfold initialize. keep. destruct a as [i|]; keep. destruct (_ !! i) as [[]|]; keep. Qed.

Lemma keeps_mark_variable pending K G ρ T x : keeps (at_ own outer pending K G (Some ρ) T) (mark_variable x).
Proof. unfold mark_variable. keep. destruct a as [i|]; keep. Qed.

Hint Resolve keeps_scope_get keeps_scope_put keeps_initialize keeps_mark_variable : keeps.

Lemma regular_symbol_get p symbol resolved : (∀ k x, resolved = Ok (k, Some x) → in_reach k x) → regular (emit_symbol_get v_safe_points p symbol resolved).
Proof.
  intros Hr. start. unfold emit_symbol_get. apply triple_lift. intros [k [x|]] Hx; [specialize (Hr k x Hx)|keep].
  destruct (v_shared x) eqn:Hs; [specialize (Hr Hs)|]; keep.
Qed.

Lemma regular_scope_put p k variable e : regular e → (∀ x, variable = Ok x → in_reach k x) → regular (emit_scope_put v_safe_points p k variable e).
Proof.
  intros W Hr. start. unfold emit_scope_put. apply triple_lift. intros x Hx. specialize (Hr x Hx). unfold in_reach in Hr.
  destruct (v_shared x); [specialize (Hr eq_refl)|]; rewrite ?andb_true_r, ?andb_false_r; cbn [negb]; keep. all: try destruct a; keep.
Qed.

Lemma regular_self p k : ((0 < k)%nat → reach own outer k 0) → regular (emit_self v_safe_points p k).
Proof.
  intros Hr. start. unfold emit_self. keep. all: destruct (decide (0 < k)%nat) as [Hk|Hk]; [specialize (Hr Hk)|]; keep.
Qed.

(** ** Operators *)

Lemma unfolded1 i o : fold1 i o = None → number_operand o = None.
Proof. destruct o; try done; cbn; by destruct (unary_of i). Qed.

Lemma unfolded2 i l r : fold2 i l r = None → number_operand l = None ∨ number_operand r = None.
Proof. destruct l; (try by left); destruct r; (try by right); cbn; by destruct (binary_of i). Qed.

Lemma regular_unary p i e : regular e → is_Some (unary_of i) → regular (emit_unary v_safe_points p i e).
Proof.
  intros W Hi. start. unfold emit_unary, forget, assert_tail. keep1. keep1. keep1. keep1. keep1. keep.
  destruct (fold1 i a1) as [v|] eqn:Hf; [keep; by apply regular_literal|apply unfolded1 in Hf]. keep.
Qed.

Lemma regular_binary p i e1 e2 : regular e1 → regular e2 → is_Some (binary_of i) → regular (emit_binary v_safe_points p i e1 e2).
Proof.
  intros W1 W2 Hi. start. unfold emit_binary, forget, assert_tail. keep.
  all: destruct (fold2 i _ _) as [v|] eqn:Hf; [keep; by apply regular_literal|apply unfolded2 in Hf]; keep.
Qed.

(** ** Calls *)

(** The arguments to expand are in order. *)
Fixpoint in_order (i size : nat) (v_expands : list (t_at * nat)) : bool :=
  match v_expands with
  | [] => (i <=? size)%nat
  | (_, v_index) :: rest => (i <=? v_index)%nat && (v_index <? size)%nat && in_order (S v_index) size rest
  end.

Lemma expansions_ok expands i size : in_order i size expands = true → expands_ok (expansions (Z.of_nat i) (Z.of_nat size) expands) (Z.of_nat size - Z.of_nat i).
Proof.
  revert i. induction expands as [|[p k] expands IH]; intros i; cbn [in_order expansions expands_ok].
  - intros H%Nat.leb_le. split; [lia|by left].
  - intros [[H1%Nat.leb_le H2%Nat.ltb_lt]%andb_true_iff H3]%andb_true_iff. specialize (IH _ H3). split; [lia|right; split; [lia|]].
    replace (Z.of_nat k + 1) with (Z.of_nat (S k)) by lia. replace (_ - _ - _ - 1) with (Z.of_nat size - Z.of_nat (S k)) by lia. exact IH.
Qed.

Lemma keeps_all pending K G ρ T xs : Forall regular xs → aims K ρ T → keeps (at_ own outer pending K G (Some ρ) T) (emit_all xs).
Proof. intros HX HA. induction HX as [|x xs W HX IH]; cbn [emit_all]; keep. Qed.

Lemma keeps_expand_ats pending K G ρ T xs k : keeps (at_ own outer pending K G (Some ρ) T) (expand_ats xs k).
Proof. revert k. induction xs as [|[p i] xs IH]; intros k; cbn [expand_ats]; keep. Qed.

Hint Resolve keeps_all keeps_expand_ats : keeps.

(** The target of a call, and the receiver. *)
Definition receives (m : E ()) : Prop := ∀ pending K G ρ T, aims K ρ T → keeps (at_ own outer pending K G (Some ρ) T) m.

Definition callee_ok (c : t_callee) : Prop :=
  match c with Direct k x => in_reach k x | Receiver m => receives m end.

Lemma receiver_method p e key : regular e → receives (emit_method v_safe_points p e key).
Proof. intros W pending K G ρ T HA. unfold emit_method. keep. Qed.

Lemma receiver_bind p e1 e2 : regular e1 → regular e2 → receives (emit_bind v_safe_points p e1 e2).
Proof. intros W1 W2 pending K G ρ T HA. unfold emit_bind. keep. Qed.

Lemma receiver_value e : regular e → receives (_ ← push_value e; f_emit_null).
Proof. intros W pending K G ρ T HA. keep. Qed.

Lemma regular_call p callee arguments expands :
  (∀ P, triple P callee (λ c s, P s ∧ callee_ok c)) → Forall regular arguments → in_order 0 (length arguments) expands = true →
  regular (emit_call v_safe_points p callee arguments expands).
Proof.
  intros Hc HX He. start. unfold emit_call, assert_tail. pose proof (expansions_ok _ 0 _ He) as HO. rewrite Z.sub_0_r in HO.
  apply (triple_given callee_ok _ _ _ (λ _, at_ own outer pending K G (Some ρ) T)); [apply Hc|]. intros c Hok. keep.
  - destruct c as [k x|m]; keep.
  - destruct c as [k x|m]; cbn [callee_ok] in Hok; unfold in_reach in Hok.
    + destruct (v_shared x); [specialize (Hok eq_refl)|]; (apply triple_emit; [plain|split; cbn; first [done|lia]]).
    + destruct expands; keep; (split; cbn; first [done|lia|split; [lia|exact HO]]).
Qed.
End Nodes.

#[export] Hint Resolve keeps_scope_get keeps_scope_put keeps_initialize keeps_mark_variable keeps_all keeps_expand_ats : keeps.
