(* ===== verification/EmitJumps.v ===== *)
(** * Control flow keeps its region (Emit.v, EmitRegular.v) *)
From stdpp Require Import base list numbers strings gmap.
From S2P Require Import Prelude Machine Lexer Ast Types Operators Flow Emit EmitSafety InterpCode EmitRegions EmitLambda EmitRegular.
Local Open Scope Z_scope.

(** ** Automation *)

(** A step that keeps what is known. *)
Ltac go :=
  lazymatch goal with
  | |- keeps ?P ?m => change (triple P m (λ _, P))
  | _ => idtac
  end;
  lazymatch goal with
  | |- triple (at_ _ _ _ ?K _ _ _) temporary _ => apply triple_ret; intros ?; apply at_relax; [intros ? ?; known|done]
  | |- triple ?P (mbind ?f (mret ?x)) ?Q => change (triple P (f x) Q); cbn beta
  | |- triple _ (mbind _ (the _)) _ => apply triple_the; intros ? ?
  | |- triple _ (mbind _ (gets v_targets)) _ => apply triple_get_targets
  | H : aims _ _ ?T |- triple _ (mbind _ (modify (set_targets ?T))) _ => eapply triple_bind; [apply triple_set_targets|intros ?; cbn beta]
  | |- triple _ (mbind _ (modify (set_targets _))) _ => fail
  | |- triple _ (mbind _ f_label) _ => fail
  | |- triple _ (mbind _ (f_target _)) _ => apply triple_seq; [apply keeps_target; known|intros _]
  | |- triple _ (mbind _ _) _ => apply triple_seq; [solve [keep]|intros ?]
  end.

Ltac goes := repeat go.

(** A label in the region [σ]. *)
Ltac label σ l := eapply triple_bind; [apply (triple_label _ _ _ _ _ _ σ)|intros l; cbn beta].

(** An instruction that leads elsewhere; the region of the next one is [ρ']. *)
Ltac emits ρ' := eapply triple_bind; [apply (triple_emit _ _ _ _ _ _ _ _ ρ')|intros ?; cbn beta].

Section Control.
Context (blocks : t_blocks) (v_safe_points : bool) (own : option Z) (outer : list Z).
Abbreviation regular := (regular own outer).

Ltac start := intros pending K G ρ T tail operand clear HA HT.

Lemma regular_nodes xs : Forall regular xs → regular (λ t _ c, emit_nodes xs t c).
Proof.
  intros HX. start. induction HX as [|e xs W HX IH]; [cbn [emit_nodes]; keep|].
  destruct xs as [|e' xs]; [cbn [emit_nodes]; keep|]. change (emit_nodes (e :: e' :: xs) tail clear) with (_ ← e false false true; emit_nodes (e' :: xs) tail clear). keep.
Qed.

Definition regular_option (e : option t_emitter) : Prop := ∀ e', e = Some e' → regular e'.

Lemma keeps_condition pending K G ρ T condition l : regular_option condition → aims K ρ T → (l, Some ρ) ∈ K →
  keeps (at_ own outer pending K G (Some ρ) T) (emit_condition condition l).
Proof. intros W HA Hl. destruct condition as [e|]; cbn [emit_condition]; [specialize (W e eq_refl)|]; keep. Qed.

Hint Resolve keeps_condition : keeps.

Lemma regular_if path condition yes no : regular_option condition → regular yes → regular no → regular (emit_if blocks path condition yes no).
Proof. intros WC W1 W2. start. unfold emit_if. label (Some ρ) label0. goes. label (Some ρ) label1. goes. Qed.

(** ** Loops and jumps *)

Lemma aims_in_loop K ρ T break0 exit stack tail clear continue0 next : aims K ρ T → (tail = true → ρ = Outermost) →
  (break0, Some ρ) ∈ K → (continue0, Some ρ) ∈ K → aims K ρ (loop_targets break0 exit stack tail clear continue0 next T).
Proof. intros [] HT Hb Hc. split; cbn; auto; by intros l [= <-]. Qed.

(** The body of a loop. *)
Ltac enter_loop :=
  lazymatch goal with |- triple (at_ _ _ _ ?K _ (Some ?ρ) _) (mbind _ (modify (set_targets ?T))) _ =>
    assert (aims K ρ T) by (apply aims_in_loop; [aimed|done|known|known]) end; goes.

Lemma regular_while path condition body : regular_option condition → regular body → regular (emit_while blocks path condition body).
Proof.
  intros WC WB. start. unfold emit_while. goes. label (Some ρ) loop0. goes. label (Some ρ) label0. goes. label (Some ρ) break0. goes. enter_loop.
Qed.

Lemma keeps_discard pending K G ρ T e : regular_option e → aims K ρ T →
  keeps (at_ own outer pending K G (Some ρ) T) (match e with Some e => _ ← e false false true; mret () | None => mret () end).
Proof. intros W HA. destruct e as [e|]; [specialize (W e eq_refl)|]; keep. Qed.

Hint Resolve keeps_discard : keeps.

Lemma regular_for path initialization condition next body :
  regular_option initialization → regular_option condition → regular_option next → regular body →
  regular (emit_for blocks path initialization condition next body).
Proof.
  intros WI WC WN WB. start. unfold emit_for. goes. label (Some ρ) loop0. destruct next as [next|]; cbn iota.
  - specialize (WN next eq_refl). label (Some ρ) continue0. goes. label (Some ρ) label0. goes. label (Some ρ) break0. goes. enter_loop.
  - goes. label (Some ρ) label0. goes. label (Some ρ) break0. goes. enter_loop.
Qed.

Lemma regular_break e : regular e → regular (emit_break blocks e).
Proof.
  intros W. start. unfold emit_break. pose proof (aim_break_tail _ _ _ HA). pose proof (aim_break _ _ _ HA). goes.
Qed.

Lemma regular_continue p : regular (emit_continue v_safe_points p).
Proof. start. unfold emit_continue. pose proof (aim_continue _ _ _ HA). goes. Qed.

Lemma regular_return e : regular e → regular (emit_return blocks e).
Proof.
  intros W. start. unfold emit_return. pose proof (aim_return_tail _ _ _ HA). pose proof (aim_return _ _ _ HA). goes.
Qed.

(** ** [try] *)

Definition regular_catch (c : t_emitter * outcome t_variable * t_emitter) : Prop :=
  regular c.1.1 ∧ (∀ x, c.1.2 = Ok x → in_reach own outer 0 x) ∧ regular c.2.

Lemma keeps_loosen {A} pending K K' G ρ T (m : E A) : K ⊆ K' →
  keeps (at_ own outer pending K' G ρ T) m → triple (at_ own outer pending K' G ρ T) m (λ _, at_ own outer pending K G ρ T).
Proof. intros HK Hm. eapply triple_weaken; [exact Hm|done|]. intros ? ?. by apply at_relax. Qed.

Lemma in_guarded (goes : t_place → t_region → Prop) (falls : t_region → Prop) n j c r ρ t : t ≠ c_try__CATCH → allowed j c r t = true →
  disciplined goes falls (Guarded n j c r ρ) (FINALLY t).
Proof. intros Ht Ha. split; [done|]. by exists n, j, c, r, ρ. Qed.

(** The clauses are in the region of the body. *)
Lemma keeps_catches pending K G n j c r ρ T cs clear : let σ := Guarded n j c r ρ in
  Forall regular_catch cs → aims K σ T → keeps (at_ own outer pending K G (Some σ) T) (emit_catches cs clear).
Proof.
  intros σ HC. revert K. induction HC as [|[[e v] b] cs (We & Hv & Wb) HC IH]; intros K HA; cbn [emit_catches]; [keep|]. cbn [fst snd] in *.
  goes. label (Some σ) label0. apply triple_lift. intros x Hx. specialize (Hv x Hx). goes. emits (Some σ).
  { intros ? [= <-]. split; [by exists n, j, c, r, ρ|]. split; [eexists; split; [reflexivity|known]|done]. }
  { split; [|done]. cbn. unfold in_reach in Hv. destruct (v_shared x); [by apply Hv|done]. }
  goes. emits (Some σ); [by intros ? [= <-]; apply in_guarded|done|]. goes. apply keeps_loosen; [intros ? ?; known|apply IH; aimed].
Qed.

(** A label for the code before a jump that [finally] interrupted. *)
Definition joint (l : option nat) (ρ : t_region) : list (nat * option t_region) := match l with Some l => [(l, Some ρ)] | None => [] end.

Definition back (K : list (nat * option t_region)) (ρ : t_region) (l : option nat) (p : option t_place) : Prop :=
  is_Some l → ∃ k, p = Some (Label k) ∧ (k, Some ρ) ∈ K.

Lemma back_mono K K' ρ l p : K ⊆ K' → back K ρ l p → back K' ρ l p.
Proof. intros HK Hb Hl. destruct (Hb Hl) as (k & -> & Hk). exists k. auto. Qed.

Lemma triple_operand {A} pending K G σ ρ T stack l i n (f : _ → E A) Q : (∀ m, l = Some m → (m, Some ρ) ∈ K) →
  (∀ p l', back (joint l' ρ ++ K) ρ l p → triple (at_ own outer pending (joint l' ρ ++ K) G (Some σ) T) (f (p, l')) Q) →
  triple (at_ own outer pending K G (Some σ) T) (yrt_operand blocks stack l i n ≫= f) Q.
Proof.
  intros Hl Hf. apply (triple_given (λ x, back (joint x.2 ρ ++ K) ρ l x.1) _ _ _ (λ x, at_ own outer pending (joint x.2 ρ ++ K) G (Some σ) T)).
  2: { intros [p l'] Hp. by apply Hf. }
  destruct l as [m|]; cbn [yrt_operand]; [|by apply triple_ret; intros s Hs; split; [|intros [? ?]]].
  specialize (Hl m eq_refl). goes. lazymatch goal with |- triple _ (if ?b then _ else _) _ => destruct b end.
  - label (Some ρ) k. apply triple_ret. intros s Hs. split; [done|]. intros _. exists k. split; [done|known].
  - apply triple_ret. intros s Hs. split; [done|]. intros _. by exists m.
Qed.

Lemma keeps_yrt_join pending K G ρ T stack l l' i n : (∀ m, l = Some m → (m, Some ρ) ∈ K) → (∀ m, l' = Some m → (m, Some ρ) ∈ K) →
  keeps (at_ own outer pending K G (Some ρ) T) (yrt_join blocks stack l' l i n).
Proof. intros Hl Hl'. destruct l' as [m|]; cbn [yrt_join]; [specialize (Hl' m eq_refl)|]; keep. Qed.

Lemma joint_in K l ρ m : l = Some m → (m, Some ρ) ∈ joint l ρ ++ K.
Proof. intros ->. by left. Qed.

Lemma joint_more K l ρ : K ⊆ joint l ρ ++ K.
Proof. intros x Hx. apply elem_of_app. by right. Qed.

Lemma triple_step pending K G ρ T (any : bool) :
  triple (at_ own outer pending K G (Some ρ) T) (if any then l ← f_label; mret (Some l) else mret None) (λ l, at_ own outer pending (joint l ρ ++ K) G (Some ρ) T).
Proof. destruct any; [label (Some ρ) l|]; by apply triple_ret. Qed.

Lemma triple_yrt pending K G j c r ρ T T0 stack : aims K ρ T0 →
  (j = true → is_Some (v_break T0)) → (c = true → is_Some (v_continue T0)) → (r = true → is_Some (v_return T0)) →
  triple (at_ own outer pending K G (Some (Finally j c r ρ)) T) (emit_yrt blocks stack T0) (λ _, at_ own outer pending K G (Some ρ) T).
Proof.
  intros HA Hj Hc Hr. destruct HA as [Hb1 Hc1 Hr1 _ _]. unfold emit_yrt.
  apply (triple_operand _ _ _ _ ρ); [exact Hb1|]. intros p1 l1 B1.
  apply (triple_operand _ _ _ _ ρ). { intros m Hm. apply elem_of_app. auto. } intros p2 l2 B2.
  apply (triple_operand _ _ _ _ ρ). { intros m Hm. rewrite !elem_of_app. auto. } intros p3 l3 B3.
  pose proof (joint_in K l1 ρ) as N1. pose proof (joint_more K l1 ρ) as M1. set (K1 := joint l1 ρ ++ K) in *.
  pose proof (joint_in K1 l2 ρ) as N2. pose proof (joint_more K1 l2 ρ) as M2. set (K2 := joint l2 ρ ++ K1) in *.
  pose proof (joint_in K2 l3 ρ) as N3. pose proof (joint_more K2 l3 ρ) as M3. set (K3 := joint l3 ρ ++ K2) in *.
  apply (back_mono _ K2) in B1; [|done]. apply (back_mono _ K3) in B1; [|done]. apply (back_mono _ K3) in B2; [|done]. clearbody K1 K2 K3.
  emits (Some ρ); [|done|].
  { intros ? [= <-]. exists j, c, r, ρ. split_and!; [done|done|..]; intros Hx;
      [destruct (B1 (Hj Hx)) as (k & -> & ?)|destruct (B2 (Hc Hx)) as (k & -> & ?)|destruct (B3 (Hr Hx)) as (k & -> & ?)]; eauto 6. }
  eapply triple_bind; [apply triple_step|intros step; cbn beta].
  pose proof (joint_in K3 step ρ) as N4. pose proof (joint_more K3 step ρ) as M4. set (K4 := joint step ρ ++ K3) in *. clearbody K4.
  apply triple_seq; [destruct step; [specialize (N4 _ eq_refl)|]; keep|intros ?].
  do 3 (apply triple_seq; [apply keeps_yrt_join; auto 8|intros ?]). apply keeps_loosen; [by do 3 (etrans; [|eassumption])|].
  destruct step; [specialize (N4 _ eq_refl)|]; keep.
Qed.

Lemma aims_in_try K stack j c r ρ T path break0 continue0 return0 : let σ := Guarded stack j c r ρ in
  (is_Some (v_break T) → j = true) → (is_Some (v_continue T) → c = true) → (is_Some (v_return T) → r = true) →
  (j = true → (break0, Some σ) ∈ K) → (c = true → (continue0, Some σ) ∈ K) → (r = true → (return0, Some σ) ∈ K) →
  aims K σ (try_targets path stack break0 continue0 return0 T).
Proof.
  intros σ Hj Hc Hr H1 H2 H3.
  assert (HS : ∀ (o : option nat) (b : bool) k l, (is_Some o → b = true) → (b = true → (k, Some σ) ∈ K) → mbind (λ _, Some k) o = Some l → (l, Some σ) ∈ K).
  { intros [x|] b k l Ho Hb; [|done]. intros [= <-]. apply Hb, Ho. by eexists. }
  split; cbn; try done; intros l Hl; [exact (HS _ j _ _ Hj H1 Hl)|exact (HS _ c _ _ Hc H2 Hl)|exact (HS _ r _ _ Hr H3 Hl)].
Qed.

Lemma triple_finally pending K G σ T finally clear : (∀ f, finally = Some f → regular f) →
  triple (at_ own outer pending K G (Some σ) T) (emit_finally finally clear)
    (λ _, at_ own outer pending K G (Some σ) (match finally with Some _ => finally_targets | None => T end)).
Proof.
  intros W. destruct finally as [f|]; cbn [emit_finally]; [|by apply triple_ret]. specialize (W f eq_refl).
  assert (aims K σ finally_targets) by by split. goes. keep.
Qed.

(** An instruction at the end of the part of a [try] for a jump. *)
Lemma at_end (goes : t_place → t_region → Prop) (falls : t_region → Prop) stack j c r ρ (b : bool) t :
  t ≠ c_try__CATCH → (b = true → allowed j c r t = true) →
  ∀ σ, (if b then Some (Guarded stack j c r ρ) else None) = Some σ → disciplined goes falls σ (FINALLY t).
Proof. intros Ht Ha σ. destruct b; [|done]. intros [= <-]. by apply in_guarded; auto. Qed.

Lemma regular_try path body catches finally : regular body → Forall regular_catch catches → (∀ f, finally = Some f → regular f) →
  regular (emit_try blocks path body catches finally).
Proof.
  intros WB WC WF. start. unfold emit_try. goes. lazymatch goal with |- context [emit (TRY ?x _ _)] => rename x into stack end.
  set (j := bool_decide (is_Some (v_break T))). set (c := bool_decide (is_Some (v_continue T))). set (r := bool_decide (is_Some (v_return T))).
  assert (Hj : j = true ↔ is_Some (v_break T)) by apply bool_decide_eq_true. assert (Hc : c = true ↔ is_Some (v_continue T)) by apply bool_decide_eq_true.
  assert (Hr : r = true ↔ is_Some (v_return T)) by apply bool_decide_eq_true. clearbody j c r.
  set (σ := Guarded stack j c r ρ). set (part := λ b : bool, if b then Some σ else None).
  label (Some σ) catch0. label (Some (Finally j c r ρ)) finally0. emits (Some σ); [|done|].
  { intros ? [= <-]. exists j, c, r. split_and!; [done|eexists; split; [reflexivity|known]..]. }
  goes. label (part j) break0. label (part c) continue0. label (part r) return0.
  assert (HB : aims ((return0, part r) :: (continue0, part c) :: (break0, part j) :: (finally0, Some (Finally j c r ρ)) :: (catch0, Some σ) :: K) σ
            (try_targets path stack break0 continue0 return0 T)).
  { apply aims_in_try; [by apply Hj|by apply Hc|by apply Hr|..]; intros ->; known. }
  goes. emits (Some σ); [by intros ? [= <-]; apply in_guarded|done|]. goes.
  apply triple_seq; [by apply keeps_catches|intros ?]. emits (part j); [by intros ? [= <-]; apply in_guarded|done|].
  goes. emits (part c); [by apply at_end|done|]. goes. emits (part r); [by apply at_end|done|]. goes.
  emits (Some (Finally j c r ρ)); [by apply at_end|done|]. goes. eapply triple_bind; [by apply triple_finally|intros ?; cbn beta].
  eapply triple_bind; [apply triple_yrt; [aimed|by apply Hj|by apply Hc|by apply Hr]|intros ?; cbn beta]. goes.
Qed.
End Control.
