(* ===== verification/EmitVerified.v ===== *)
(** * Emitted code is verified code (Emit.v, InterpCode.v)

    [sheltered] tells what the interpreter takes for granted of the scopes in a
    tree; the code of such a tree is verified, and can be run. *)
From stdpp Require Import base list numbers strings gmap.
From S2P Require Import Prelude Machine Lexer Ast Types Operators Flow Emit EmitSafety EmitTree Interp InterpCode EmitRegions EmitLambda EmitRegular EmitJumps.
Local Open Scope Z_scope.

(** ** Lambdas *)

Definition reach_b (own : option Z) (outer : list Z) (k : nat) (x : Z) : bool :=
  match match k with O => own | S k => outer !! k end with Some size => (0 <=? x) && (x <? size) | None => false end.

Lemma reach_spec own outer k x : reach_b own outer k x = true → reach own outer k x.
Proof.
  unfold reach_b. destruct k as [|k]; [destruct own as [size|]|destruct (outer !! k) as [size|] eqn:E]; try done;
    intros [H1%Z.leb_le H2%Z.ltb_lt]%andb_true_iff; exists size; auto.
Qed.

(** A shared variable is in the scope. *)
Definition variable_in (own : option Z) (outer : list Z) (k : nat) (x : t_variable) : bool :=
  negb (v_shared x) || reach_b own outer k (Z.of_nat (v_index x)).

Lemma variable_reach own outer k x : variable_in own outer k x = true → in_reach own outer k x.
Proof. unfold variable_in. intros Hv Hx. rewrite Hx in Hv. by apply reach_spec. Qed.

(** The shared variables of the arguments and [self] are in the scope. *)
Definition keeps_arguments (own : option Z) (outer : list Z) (c : t_scope) (arguments : nat) : bool :=
  forallb (λ i, match v_privates c !! (i mod length (v_privates c))%nat with
                | Some s => match v_variables c !! s with Some x => variable_in own outer 0 x | None => true end
                | None => true
                end) (seq 0 arguments).

Definition keeps_self (own : option Z) (outer : list Z) (c : t_scope) : bool := negb (v_self_shared c) || reach_b own outer 0 0.

Definition scope_own (c : t_scope) : option Z := if v_scope_shared c then Some (Z.of_nat (v_shareds c)) else None.

Section Lambdas.
Context (v_safe_points : bool) (own : option Z) (outer : list Z).

Lemma keeps_self_shared pending K G ρ T c : keeps_self own outer c = true → keeps (at_ own outer pending K G (Some ρ) T) (emit_self_shared c).
Proof.
  intros Hs. unfold emit_self_shared. unfold keeps_self in Hs. destruct (v_self_shared c); cbn in Hs; keep.
  split; [|done]. by apply reach_spec.
Qed.

Lemma keeps_shared_arguments pending K G ρ T c arguments n i : keeps_arguments own outer c arguments = true → (i + n <= arguments)%nat →
  keeps (at_ own outer pending K G (Some ρ) T) (emit_arguments c n i).
Proof.
  intros Hk. revert i. induction n as [|n IH]; intros i Hi; cbn [emit_arguments]; [keep|].
  unfold keeps_arguments in Hk. rewrite forallb_forall in Hk. specialize (Hk i). rewrite in_seq in Hk. specialize (Hk ltac:(lia)).
  apply triple_lift. intros y Hy. destruct (v_privates c !! _) as [y'|]; [|done]. injection Hy as ->.
  apply triple_lift. intros x Hx. destruct (v_variables c !! y) as [x'|]; [|done]. injection Hx as ->.
  apply triple_seq; [|intros ?; apply IH; lia]. pose proof (variable_reach _ _ _ _ Hk) as Hr. unfold in_reach in Hr.
  destruct (v_shared x); [specialize (Hr eq_refl)|]; keep.
Qed.

Lemma triple_lambda_body pending G T c arguments body :
  keeps_self own outer c = true → keeps_arguments own outer c arguments = true → regular own outer body → aims [(0%nat, Some Outermost)] Outermost T →
  triple (at_ own outer pending [(0%nat, Some Outermost)] G (Some Outermost) T) (emit_lambda_body c arguments body) (λ _, sealed own outer pending G).
Proof.
  intros Hs Ha W HA. unfold emit_lambda_body.
  apply triple_seq; [by apply keeps_self_shared|intros ?]. apply triple_seq; [by apply (keeps_shared_arguments _ _ _ _ _ _ arguments)|intros ?].
  apply triple_seq; [by apply W|intros ?]. do 4 go. apply (triple_seal _ _ _ _ [(0%nat, Some Outermost)] _ T). left. by eexists.
Qed.
End Lambdas.

Lemma triple_state {A} (f : t_emit → E A) P Q : (∀ s0, P s0 → triple (λ s, s = s0) (f s0) Q) → triple P (gets id ≫= f) Q.
Proof. intros Hf s a s' Hs Ha. by apply (Hf s Hs s). Qed.

(** The lambda after its code is made. *)
Lemma keeps_lambda v_safe_points p size outer pending K G ρ T i variadic defaults (clear : bool) : G !! i = Some (size :: outer) →
  Forall (regular (Some size) outer) defaults → aims K ρ T →
  keeps (at_ (Some size) outer pending K G (Some ρ) T)
    (_ ← f_emit_safe_point v_safe_points p;
     _ ← (if variadic || (0 <? Z.of_nat (length defaults)) then
            _ ← emit_all defaults; _ ← f_pops (length defaults); n ← gets v_stack; emit (ADVANCED_LAMBDA n i)
          else n ← gets v_stack; emit (LAMBDA n i));
     _ ← f_push; _ ← when clear f_pop; temporary).
Proof. intros Hi WD HA. keep. all: split; [by exists size|done]. Qed.

Lemma regular_lambda v_safe_points own outer p path scope size c (variadic : bool) arguments defaults body :
  scope = Ok c → own = Some size → (length defaults + (if variadic then 1 else 0) <= arguments)%nat →
  keeps_self (scope_own c) (size :: outer) c = true → keeps_arguments (scope_own c) (size :: outer) c arguments = true →
  regular (scope_own c) (size :: outer) body → Forall (regular own outer) defaults →
  regular own outer (emit_lambda v_safe_points p path scope variadic arguments defaults body).
Proof.
  intros -> -> Hd Hs Ha W WD pending K G ρ T tail operand clear HA HT. unfold emit_lambda.
  apply triple_lift. intros ? [= <-]. apply triple_lift. intros privates _. cbv zeta.
  set (code := new_code _ _ _ _ _ _). apply triple_state. intros s0 [(g & Hg & HK & HG) HT0].
  set (G' := g_scopes g ++ [size :: outer]). set (i := length (v_codes s0)).
  assert (Hi : G' !! i = Some (size :: outer)).
  { subst G' i. rewrite <- (tr_scopes _ _ _ _ _ _ Hg), lookup_app_r by lia. by rewrite Nat.sub_diag. }
  eapply (triple_bind _ _ _ (λ _, at_ (scope_own c) (size :: outer) (i :: pending) [(0%nat, Some Outermost)] G' (Some Outermost) (v_targets (enter_lambda path c arguments privates code s0)))).
  { intros s a s' -> [= <- <-]. eapply enter_at; [exact Hg|done|cbn; lia| |done]. repeat split; cbn; destruct variadic; lia. }
  intros _. eapply triple_bind; [apply triple_lambda_body; [done|done|exact W|split; cbn; try done; intros l [= <-]; by left]|]. intros ?. cbn beta.
  eapply (triple_bind _ _ _ (λ _, at_ (Some size) outer pending K G' (Some ρ) T)).
  { intros s1 ? ? Hsealed [= <- <-]. by eapply leave_at. }
  intros _. assert (HG' : G `prefix_of` G') by (etrans; [exact HG|by apply prefix_app_r]).
  eapply triple_weaken; [|intros ? Hat; exact Hat|intros ? ?; apply at_relax; [done|exact HG']].
  by apply keeps_lambda.
Qed.

(** ** Trees *)

Section Tree.
Context (scopes : list t_scope) (blocks : t_blocks) (v_safe_points : bool).

(** What the interpreter takes for granted of a tree: the variables that it
    shares are in its scopes, where each lambda has one around it, and the
    numbers of arguments make sense. *)
Fixpoint sheltered (own : option Z) (outer : list Z) (e : @t_node double) {struct e} : bool :=
  let all := forallb (sheltered own outer) in
  let some o := match o with Some e => sheltered own outer e | None => true end in
  match e with
  | t_nodes xs => all xs
  | t_lambda _ scope variadic arguments defaults body =>
    all defaults &&
    match own, scope_of scopes scope with
    | Some size, Ok c =>
      (length defaults + (if variadic then 1 else 0) <=? arguments)%nat && keeps_self (scope_own c) (size :: outer) c
        && keeps_arguments (scope_own c) (size :: outer) c arguments && sheltered (scope_own c) (size :: outer) body
    | _, _ => false
    end
  | t_if c x y => some c && sheltered own outer x && sheltered own outer y
  | t_while c x => some c && sheltered own outer x
  | t_for x y z body => some x && some y && some z && sheltered own outer body
  | Ast.t_try body catches finally =>
    sheltered own outer body
      && forallb (λ c, sheltered own outer c.1.1 && (match variable_of scopes c.1.2 with Ok x => variable_in own outer 0 x | _ => true end)
                         && sheltered own outer c.2) catches
      && some finally
  | t_break x | t_return x | t_throw _ x | t_object_get _ x _ | t_object_has _ x _ | t_class _ x | t_super _ x => sheltered own outer x
  | t_scope_put _ k v x => sheltered own outer x && match variable_of scopes v with Ok x => variable_in own outer k x | _ => true end
  | t_unary _ i x => sheltered own outer x && bool_decide (is_Some (unary_of i))
  | t_binary _ i x y => sheltered own outer x && sheltered own outer y && bool_decide (is_Some (binary_of i))
  | t_object_get_indirect _ x y | t_object_put _ x _ y | t_object_has_indirect _ x y | t_get_at _ x y => sheltered own outer x && sheltered own outer y
  | t_object_put_indirect _ x y z | t_set_at _ x y z => sheltered own outer x && sheltered own outer y && sheltered own outer z
  | t_call _ x arguments expands => sheltered own outer x && all arguments && in_order 0 (length arguments) expands
  | t_symbol_get _ k scope symbol => match resolve scopes k scope symbol with Ok (k, Some x) => variable_in own outer k x | _ => true end
  | t_self _ k => bool_decide (k = 0%nat) || reach_b own outer k 0
  | t_continue _ | t_null _ | t_literal_node _ _ | t_preserve => true
  end.

Abbreviation emits := (f_emit scopes blocks v_safe_points).

Definition node_regular (e : @t_node double) : Prop :=
  ∀ own outer path, sheltered own outer e = true →
    regular own outer (emits path e) ∧
    ∀ expands P, triple P (callee_of scopes blocks v_safe_points expands path e) (λ c s, P s ∧ callee_ok own outer c).

Lemma length_each {A B} (f : list nat → A → B) path i xs : length (each_path f path i xs) = length xs.
Proof. revert i. induction xs as [|x xs IH]; intros i; cbn; auto. Qed.

Lemma regular_each own outer path i xs : Forall node_regular xs → forallb (sheltered own outer) xs = true →
  Forall (regular own outer) (each_path (λ path e, emits path e) path i xs).
Proof.
  intros HX. revert i. induction HX as [|x xs Hx HX IH]; intros i H; cbn [each_path] in *; [constructor|]. cbn in H. apply andb_prop in H as [H1 H2].
  constructor; [|by apply IH]. by apply Hx.
Qed.

Lemma regular_some own outer k path o : Forall node_regular (option_nodes o) →
  match o with Some e => sheltered own outer e | None => true end = true →
  regular_option own outer (option_map (λ e, emits (k :: path)%nat e) o).
Proof. intros HX H e He. destruct o as [x|]; [|done]. injection He as <-. apply Forall_cons in HX as [Hx _]. by apply Hx. Qed.

Lemma regular_clauses own outer path k cs : Forall node_regular (flat_map catch_nodes cs) →
  forallb (λ c, sheltered own outer c.1.1 && (match variable_of scopes c.1.2 with Ok x => variable_in own outer 0 x | _ => true end)
                  && sheltered own outer c.2) cs = true →
  Forall (regular_catch own outer)
    ((fix clauses j cs :=
       match cs with
       | [] => []
       | (expression, variable, body) :: cs =>
         (emits (2 + 2 * j :: path)%nat expression, variable_of scopes variable, emits (3 + 2 * j :: path)%nat body) :: clauses (S j) cs
       end) k cs).
Proof.
  revert k. induction cs as [|[[x v] y] cs IH]; intros k HX H; [constructor|]. cbn [flat_map catch_nodes fst snd app] in HX.
  apply Forall_cons in HX as [Hx [Hy HX]%Forall_cons]. cbn in H. apply andb_prop in H as [[[H1 H2]%andb_prop H3]%andb_prop H4].
  constructor; [|by apply IH]. split_and!; cbn [fst snd]; [by apply Hx| |by apply Hy].
  intros z Hz. rewrite Hz in H2. by apply variable_reach.
Qed.

(** A target that is a value. *)
Lemma callee_value own outer e (m : E t_callee) P : m = mret (Receiver (_ ← push_value e; f_emit_null)) → regular own outer e →
  triple P m (λ c s, P s ∧ callee_ok own outer c).
Proof. intros -> W. apply triple_ret. intros s Hs. split; [done|]. by apply receiver_value. Qed.

Lemma callee_receiver own outer (m : E t_callee) m' P : m = mret (Receiver m') → receives own outer m' →
  triple P m (λ c s, P s ∧ callee_ok own outer c).
Proof. intros -> W. by apply triple_ret. Qed.

Ltac parts :=
  repeat match goal with
  | H : Forall _ (_ :: _) |- _ => apply Forall_cons in H as [? H]
  | H : Forall _ (_ ++ _) |- _ => apply Forall_app in H as [? H]
  | H : _ && _ = true |- _ => apply andb_prop in H as [? H]
  end.

Ltac sub := match goal with H : node_regular ?e |- regular _ _ (emits _ ?e) => by apply H end.

Lemma regular_node e : node_regular e.
Proof.
  induction e as [e IH] using node_children_ind. intros own outer path He.
  enough (HW : regular own outer (emits path e)).
  { split; [exact HW|]. intros expands P. destruct e; try (by apply (callee_value _ _ (emits path _) _ _ eq_refl HW)).
    - cbn [children sheltered] in *. parts. eapply callee_receiver; [reflexivity|]. apply receiver_method. sub.
    - cbn [callee_of sheltered] in *. apply triple_lift. intros [k [x|]] Hr; rewrite Hr in He.
      + apply triple_ret. intros s Hs. split; [done|]. unfold direct. destruct expands; [destruct (_ || _)|].
        * by apply variable_reach.
        * by apply receiver_value.
        * by apply receiver_value.
      + apply triple_ret. intros s Hs. split; [done|]. unfold direct. destruct expands; by apply receiver_value.
    - cbn [children sheltered] in *. parts. eapply callee_receiver; [reflexivity|]. apply receiver_bind; sub. }
  destruct e; cbn [sheltered f_emit children] in *; parts.
  - apply regular_nodes. by apply regular_each.
  - destruct own as [size|]; [|done]. destruct (scope_of scopes scope) as [c| |] eqn:Ec; try done. parts.
    apply (regular_lambda _ _ _ _ _ _ size c); try done; [rewrite length_each; by apply Nat.leb_le|sub|by apply regular_each].
  - apply regular_if; [by apply regular_some|sub|sub].
  - apply regular_while; [by apply regular_some|sub].
  - apply regular_for; [by apply regular_some..|sub].
  - apply regular_break. sub.
  - apply regular_continue.
  - apply regular_return. sub.
  - apply regular_try; [sub|by apply regular_clauses|]. intros f Hf. destruct v_finally as [x|]; [|done]. injection Hf as <-. cbn [option_nodes] in *. parts. sub.
  - apply regular_throw. sub.
  - apply regular_object_get. sub.
  - apply regular_object_get_indirect; sub.
  - apply regular_object_put; sub.
  - apply regular_object_put_indirect; sub.
  - apply regular_object_has. sub.
  - apply regular_object_has_indirect; sub.
  - apply regular_symbol_get. intros k x Hx. rewrite Hx in He. by apply variable_reach.
  - apply regular_scope_put; [sub|]. intros x Hx. rewrite Hx in *. by apply variable_reach.
  - apply regular_self. intros Hk. apply orb_prop in He as [He|He]; [apply bool_decide_eq_true in He; lia|by apply reach_spec].
  - apply regular_class. sub.
  - apply regular_super. sub.
  - apply regular_null.
  - apply regular_literal.
  - apply regular_unary; [sub|by eapply bool_decide_eq_true].
  - apply regular_binary; [sub|sub|by eapply bool_decide_eq_true].
  - apply regular_preserve.
  - apply regular_call; [|by apply regular_each|by rewrite length_each].
    match goal with H : node_regular ?e |- _ => destruct (H own outer (0 :: path)%nat ltac:(assumption)) as [_ Hc] end.
    specialize (Hc v_expands). destruct e; exact Hc.
  - apply regular_get_at; sub.
  - apply regular_set_at; sub.
Qed.
End Tree.
