(* ===== verification/EmitProgram.v ===== *)
(** * Compiled scripts run safely (Emit.v, Interp.v)

    The generator and the interpreter together: the code of a tree in which
    the variables have places is verified, so that it runs without a fault. *)
From stdpp Require Import base list numbers strings gmap relations.
From S2P Require Import Prelude Machine Layout Lexer Ast Parser ParserTotal Types TypeLayout TypeAccess TypeSafety Operators OperatorAgreement Flow Emit EmitSafety EmitTree EmitExamples Interp InterpCode InterpState InterpObjects InterpCalls InterpSafety InterpExamples.
From S2P Require Import EmitRegions EmitLambda EmitRegular EmitVerified.
Local Open Scope Z_scope.

Lemma scoped_mono (reach reach' : nat → Z → Prop) (nest nest' : nat → Prop) i :
  (∀ k x, reach k x → reach' k x) → (∀ j, nest j → nest' j) → scoped reach nest i → scoped reach' nest' i.
Proof. intros Hr Hn. destruct i; cbn; auto. destruct shared; auto. Qed.

(** ** The code of a module *)

Section Module.
Context (scopes : list t_scope) (v_safe_points : bool) (c : t_scope) (blocks : t_blocks) (body : @t_node double).

(** What is taken for granted of the tree of a module. *)
Definition compilable : Prop :=
  scope_of scopes 0 = Ok c ∧ analyze_body scopes [] c 0 body ∅ = Ok blocks ∧
  emittable scopes blocks false false 0 (v_privates_size c) [0%nat] body = true ∧
  keeps_self (Some (Z.of_nat (v_shareds c))) [] c = true ∧ sheltered scopes (Some (Z.of_nat (v_shareds c))) [] body = true.

Lemma triple_module : keeps_self (Some (Z.of_nat (v_shareds c))) [] c = true → sheltered scopes (Some (Z.of_nat (v_shareds c))) [] body = true →
  triple (λ s, s = module_state c) (emit_body scopes blocks v_safe_points c body) (λ _, sealed (Some (Z.of_nat (v_shareds c))) [] [] []).
Proof.
  intros Hs Hb. set (own := Some (Z.of_nat (v_shareds c))) in *. set (T := v_targets (module_state c)).
  eapply (triple_weaken _ (at_ own [] [] [] [] (Some Outermost) T)); [| |intros ? ? HQ; exact HQ].
  - unfold emit_body. apply triple_seq; [by apply keeps_self_shared|intros ?].
    apply triple_seq; [|intros ?; apply triple_seal; by right]. apply (regular_node scopes blocks v_safe_points body own [] [0%nat] Hb); [|done]. by split; subst T; cbn.
  - intros s ->. split; [|done]. exists (Ghost [Some Outermost] [] []). split_and!; [|done|done]. split; cbn; try done; try lia. repeat split; cbn; lia.
Qed.
End Module.

Section Program.
Context `{Engine}.

(** The scopes around each code, and those of the module, which has none. *)
Definition scopes_of (G : list (list Z)) (k : nat) : list Z := default [] (G !! k).

Lemma finished_ok (G : list (list Z)) k c outer size : scopes_of G k = outer → codes !! k = Some c →
  (∀ j, (j < length G)%nat → is_Some (codes !! j)) →
  finished (own_of c) outer G c → Forall (frame_ok (code_size c + 1)) (code_instructions c) → size <= code_size c → 0 <= size → code_ok (scopes_of G) k c.
Proof.
  intros HΓ Hk Hall [H1 H2 H3 H4 H5] HF Hs1 Hs2. split; [lia|done|done| | |done].
  - eapply Forall_impl; [exact H4|]. intros i [Hi _]. eapply scoped_mono; [..|exact Hi].
    + intros [|n] x; cbn; intros (m & Hm & Hx); [|exists m; by rewrite HΓ]. exists c. unfold own_of in Hm. destruct (code_shared c); [|done]. injection Hm as <-. auto.
    + intros j (m & Hm & Hj). pose proof (lookup_lt_Some _ _ _ Hj) as Hjl. destruct (Hall j Hjl) as [c' Hc']. exists c, c'.
      unfold own_of in Hm. destruct (code_shared c) eqn:Hsh; [|done]. injection Hm as <-. split_and!; try done. unfold scopes_of at 1. by rewrite Hj, HΓ.
  - eapply Forall_impl; [exact H4|]. by intros i [_ Hi].
Qed.

Lemma program_verified (G : list (list Z)) (l : list t_code) (code : t_code) (n : Z) :
  codes = l ++ [code] → length G = length l → (∀ j c, l !! j = Some c → done_code G j c) → Forall (code_valid (length l)) l →
  finished (Some n) [] G code → Forall (frame_ok (code_size code + 1)) (code_instructions code) → 0 <= code_size code → program_ok (scopes_of G).
Proof.
  intros Hcodes Hlen Hdone Hvalid Hfin Hframe Hsize k c Hk. rewrite Hcodes in Hk.
  assert (Hlt : (length G < length codes)%nat) by (rewrite Hcodes, length_app; cbn; lia).
  assert (Hall : ∀ j, (j < length G)%nat → is_Some (codes !! j)) by (intros j Hj; apply lookup_lt_is_Some; lia).
  apply lookup_app_Some in Hk as [Hk|[Hge Hk]].
  - destruct (Hdone k c Hk) as (outer & Ho & Hf). rewrite Forall_lookup in Hvalid. destruct (Hvalid k c Hk) as [Hp Hv].
    apply (finished_ok G k c outer (code_privates c)); try done.
    + unfold scopes_of. by rewrite Ho.
    + rewrite Hcodes. by apply lookup_app_l_Some.
    + eapply Forall_impl; [exact Hv|]. intros i (_ & Hi & _). eapply frame_mono; [|exact Hi]. lia.
    + apply (fin_privates _ _ _ _ Hf).
  - apply list_lookup_singleton_Some in Hk as [Hk0 <-]. assert (k = length l) as -> by lia.
    apply (finished_ok G _ code [] (code_size code)); try done.
    + unfold scopes_of. by rewrite lookup_ge_None_2 by lia.
    + rewrite Hcodes, lookup_app_r by lia. by rewrite Nat.sub_diag.
    + by rewrite (fin_own _ _ _ _ Hfin).
Qed.
End Program.

Lemma compile_verified scopes v_safe_points c blocks body : compilable scopes c blocks body →
  ∃ code l Γ, emit_module scopes v_safe_points body = Ok (code, l) ∧ Γ (length l) = [] ∧ ∀ E : Engine, codes = l ++ [code] → program_ok Γ.
Proof.
  intros (Hc & Hb & He & Hs & Ht). destruct (emit_module_ok scopes v_safe_points c blocks body Hc Hb He) as (code & l & Hm & Hvalid & Hops & Hsize).
  assert (Hsealed : sealed (Some (Z.of_nat (v_shareds c))) [] [] [] {| v_codes := l; v_scope_size := 0; v_code := code; v_arguments := 0;
    v_emit_privates := []; v_stack := 0; v_labels := []; v_targets := finally_targets |}).
  { unfold emit_module in Hm. rewrite Hc in Hm. cbn [mbind outcome_bind] in Hm. rewrite Hb in Hm. cbn [mbind outcome_bind] in Hm.
    destruct (emit_body _ _ _ _ _ _) as [[[] s]| |] eqn:E; try done. injection Hm as <- <-.
    exact (triple_module scopes v_safe_points c blocks body Hs Ht _ _ _ eq_refl E). }
  destruct Hsealed as (G & _ & Hlen & Hdone & Hfin). cbn in Hlen, Hdone, Hfin.
  exists code, l, (scopes_of G). split_and!; [done|unfold scopes_of; by rewrite lookup_ge_None_2 by lia|]. intros E Hcodes.
  apply (program_verified G l code (Z.of_nat (v_shareds c))); try done.
  - intros j c' Hj. by destruct (Hdone j c' Hj) as [?%not_elem_of_nil|].
  - eapply Forall_impl; [exact Hops|]. intros i (_ & Hi & _). eapply frame_mono; [|exact Hi]. destruct (v_self_shared c); lia.
  - lia.
Qed.

(** C5 (compiled_code_is_verified): of a [compilable] module, the generator makes
    code that the interpreter can run.  [compilable] is decided by computation:
    the module is [emittable], and its symbols have their variables in the
    scopes that they were resolved to.  This is false of [@(a, b, a)] around a
    lambda that uses [b]: the parser loses [b], and the generator emits an
    access to a variable that the scope does not have ([repeated_parameter_code]).
    Of a compilable module, the code of the module and of each of its lambdas
    stays within its frame, accesses variables that the scopes around it have,
    makes lambdas where their scopes are, and nests as [try] does, so that a
    jump, a [finally] and the jump after it are always in the same region. *)
Theorem compiled_code_is_verified (scopes : list t_scope) (v_safe_points : bool) (c : t_scope) (blocks : t_blocks) (body : @t_node double) :
  compilable scopes c blocks body →
  ∃ code l Γ, emit_module scopes v_safe_points body = Ok (code, l) ∧ Γ (length l) = [] ∧ ∀ E : Engine, codes = l ++ [code] → program_ok Γ.
Proof. by apply compile_verified. Qed.


(** A lambda that repeats a parameter: the one in between is not found when the
    shared variables get their places ([repeated_parameter_loses]), the scope of
    the lambda has none, and the lambda inside gets its variable 0. *)
Theorem repeated_parameter_code :
  let tree := parsed ("f = @(a, b, a) @ b" +:+ nl) in
  lambdas ("f = @(a, b, a) @ b" +:+ nl) = Ok [(4, [LAMBDA 3 1; RETURN 3]); (1, [SCOPE_GET1 0 0; RETURN 0])] ∧
  (λ c, Z.of_nat (v_shareds c)) <$> tree.1 !! 1%nat = Some 0 ∧
  sheltered tree.1 ((λ c, Z.of_nat (v_shareds c)) <$> head tree.1) [] tree.2 = false.
Proof. vm_compute. done. Qed.

(** *** The module of InterpExamples.v *)

Import Site Sample Run.

Definition trying_tree : list t_scope * @t_node double := Eval vm_compute in parsed trying_text.

Definition trying_blocks : t_blocks :=
  Eval vm_compute in match trying_tree.1 with c :: _ => match analyze_body trying_tree.1 [] c 0 trying_tree.2 ∅ with Ok bs => bs | _ => ∅ end | [] => ∅ end.

Lemma trying_compilable : compilable trying_tree.1 (default (Ast.new_scope None) (head trying_tree.1)) trying_blocks trying_tree.2.
Proof. split_and!; by vm_compute. Qed.

Lemma compiled_code_is_verified_witness : ∃ code l Γ, emit_module trying_tree.1 false trying_tree.2 = Ok (code, l) ∧ Γ (length l) = [] ∧
  ∀ E : Engine, codes = l ++ [code] → program_ok Γ.
Proof. exact (compiled_code_is_verified _ false _ _ _ trying_compilable). Defined.

